(* ===== verification/_CoqProject ===== *)
-Q . S2P
Prelude.v
Posix.v
Text.v
SlidingCounter.v
PriorityQueue.v
SlidingDistinct.v
Domain.v
FeatureStore.v
Calendar.v
IpAddress.v
Blacklist.v
RedisConnection.v
RedisStore.v
MysqlDao.v
MaintenanceBackend.v
Policy.v
RiskService.v
CandidateQueue.v
MaintenanceCore.v
Bootstrap.v
MaintenanceStore.v
Codec.v
TimerCore.v
Timer.v
Scheduler.v
Limits.v
Session.v
Ring.v
Mailbox.v
WorkerPool.v
Ticker.v
FeatureMaintenance.v
Business.v
Config.v
BlacklistMaintenance.v
EventLoop.v
EventLoopSafety.v
EventLoopIo.v
EventLoopContract.v
EventLoopGroup.v
EventLoopGroupSafety.v
AcceptorLoop.v
ConfigContract.v
AcceptorSafety.v
Server.v
Handler.v
ManageOptions.v
ManageCommand.v
Logger.v
Process.v
LoadClient.v
LoadGenerator.v
LoadGeneratorSafety.v
SendEvent.v
