(* ===== verification/Prelude.v ===== *)
(** * AegisFlow: a verification development

    AegisFlow is a C++ login-risk service: a TCP server reads length-prefixed
    protobuf requests, evaluates each login against sliding-window features, a
    blacklist and a policy chain, answers with a decision, and feeds
    automatically generated blacklist candidates to a maintenance thread that
    stores them in Redis and MySQL.

    ** How the program is put together

    [main] blocks the termination signals and runs the logger, the timer service
    and the handler.  An acceptor thread hands sockets to a group of event loops
    through connection mailboxes.  Each loop drives one [Session] per
    connection: bytes go through the frame codec, a complete request becomes a
    task of the bounded worker pool.  The worker runs
    [LoginBusinessHandler::handle], which validates the request, calls
    [RiskService::evaluate] (feature store, blacklist manager, policy chain,
    candidate generator) and submits candidates to the candidate queue.  The
    response comes back as a completion that the router posts to the mailbox of
    the owning loop.  Timers expire through the timer thread and the timeout
    mailboxes.  Two maintenance components tick on the timer service: one
    reclaims feature states, the other moves candidates to Redis and MySQL and
    publishes new blacklist snapshots; a bootstrap fills Redis at start-up.  The
    configuration loader builds the limits that all of these components check.
    Beside the service there are a command that manages the blacklist, a
    benchmark client and a one-shot client.

    ** Files and what they model

    Shared: this file (machine integers, tests, lists, errors), [Posix.v]
    (system calls, descriptors), [Text.v] (characters, decimal numbers),
    [Calendar.v] (UTC dates), [PriorityQueue.v] ([std::priority_queue], class
    [HeapOrder]), [Ring.v] (the ring buffers that [net/loop_mailbox.cpp] and
    [runtime/bounded_worker_pool.cpp] write out each time).

    Features and risk
    - [SlidingCounter.v], [SlidingDistinct.v]: [feature/sliding_counter.hpp] and
      [feature/sliding_distinct.hpp].  [FeatureStore.v]: [feature/feature_store],
      the sharded maps with reclamation; [std::hash] is a parameter.
    - [Domain.v]: [domain/login.hpp].  [IpAddress.v]: [domain/ip_address] over
      the POSIX conversions, the class [Inet] with the documented laws
      [InetLaws] and the instance [ReferenceInet].
    - [Blacklist.v]: [risk/blacklist_{types,mutation,snapshot,manager}].
      [Policy.v]: [risk/login_policy_chain], [risk/blacklist_candidate_generator].
      [RiskService.v]: [app/login_request_validator], [app/risk_service].
      [CandidateQueue.v]: [app/blacklist_candidate_queue].

    Storage and maintenance
    - [RedisConnection.v], [RedisStore.v]: [storage/redis_connection] and
      [storage/blacklist_redis_store].  [MysqlDao.v]: [storage/mysql_dao].
    - [MaintenanceBackend.v]: [app/blacklist_maintenance_backend].
      [MaintenanceCore.v]: a round, over the class
      [IBlacklistMaintenanceBackend] and its laws; [MaintenanceStore.v]
      discharges the laws for the production stores.
      [BlacklistMaintenance.v]: the class of [app/blacklist_maintenance] that
      schedules the rounds.  [Bootstrap.v]: [app/blacklist_cache_bootstrap].
    - [Ticker.v]: the periodic timer that the two maintenance components share.
      [FeatureMaintenance.v]: [app/feature_state_maintenance].

    Network and runtime
    - [Codec.v]: [net/protocol_contract.hpp], [net/length_prefixed_codec].
      [Limits.v]: [net/connection_token.hpp], [net/limits.hpp].  [Session.v]:
      [net/session].  [Mailbox.v]: [net/loop_mailbox], [net/owned_socket.hpp].
      [Business.v]: [net/login_business_handler], [net/completion_router]; the
      generated protobuf code is the class [Protobuf].
    - [TimerCore.v], [Timer.v]: [timer/timer_core], [timer/timer].
      [Scheduler.v]: the interface [ITimerScheduler] with its laws, against
      which its clients are proved, and the timer service as an instance.
      [WorkerPool.v]: [runtime/bounded_worker_pool], [runtime/cancellation.hpp].
    - [EventLoop.v]: [net/event_loop]; [EventLoopSafety.v] its invariants,
      [EventLoopIo.v] the termination of its loops, [EventLoopContract.v] what a
      group relies on (classes [IEventLoop], [EventLoopLaws]).
      [EventLoopGroup.v], [EventLoopGroupSafety.v]: [net/event_loop_group].
      [AcceptorLoop.v], [AcceptorSafety.v]: [net/acceptor_loop].  [Server.v]:
      acceptor, group and loops together.

    Process and tools
    - [Config.v]: [config/config] and the configurations of the components;
      [ConfigContract.v]: the checks of the components on what the loader
      accepts.  [Handler.v]: [app/handler].  [Logger.v]: [log/logger].
      [Process.v]: [main.cpp], [app/process_signal_waiter].
    - [ManageOptions.v], [ManageCommand.v]: [tools/manage_blacklist_command] and
      [tools/manage_blacklist.cpp], over the classes [IManageBlacklistBackend]
      and [IManageBlacklistClock].
    - [LoadClient.v], [LoadGenerator.v], [LoadGeneratorSafety.v]:
      [benchmark/login_frame_codec], [benchmark/load_generator]; the client's
      half of the generated code is the class [ClientProtobuf], and
      [ProtobufAgree] says that the two halves read each other.  [SendEvent.v]:
      [tools/send_event.cpp].

    A class is a record of its data members (same names where they do not
    clash), a method is a function from the state to the new state and the
    answer, or a program of a small state monad where it makes many calls; an
    exception is [Throw], an [enum class] whose constructors clash is an
    inductive type in a module of its name.  Unsigned integers are [Z]; the
    operations that the code performs at machine width are written [⊕], [⊖] or
    [wrap32], so that overflow is part of every statement.  Code that holds one
    mutex for its whole body is one atomic operation, and executions are
    sequences of operations; where a method releases the mutex each critical
    section is a definition of its own, and the threads interleave between them
    in a step relation or a list of steps.  Clock readings, answers of the
    kernel, of the peer, of Redis and of MySQL are arguments, without
    assumptions unless a class of laws states them.

    ** What the theorems show

    - Features and risk: the counters implement their window definitions for
      every sequence of calls ([counter_implements_live_log],
      [distinct_implements_latest_map]); while the clock does not go back and no
      IP or device sees more than 5000 accounts within its window, the sharded
      store is indistinguishable from the exact counts over the history
      ([feature_snapshots_exact] for whole requests, [feature_sections_exact]
      for interleaved critical sections); under the same conditions the service
      refines a specification over the history and the published list
      ([service_refines_history]), with the exact policy table
      ([decision_exact]), atomic publication ([publish_all_or_nothing]), the
      validator ([validate_exact]), canonical addresses
      ([parse_canonicalises]) and the feedback loop ([candidate_blocks_ip]).
    - Persistence: the candidate queue refines a log
      ([candidate_queue_refines_log]); a round and the final drain lose no
      candidate ([maintenance_loses_no_candidate], [final_drain_complete]); the
      bootstrap loses no mutation ([bootstrap_loses_no_mutation]); writes to
      Redis report what happened ([store_write_truthful]), stream records read
      back ([stream_mutation_roundtrip]); a batch of MySQL is atomic and means
      its mutations in order, for entities as its unique keys compare them
      ([mysql_apply_atomic], [mysql_batch_meaning]; the keys ignore spaces at
      the end of an id, [mysql_merges_padded_ids]).
    - Network: the block decoder equals a byte-at-a-time decoder and inverts the
      encoder for every segmentation ([consume_is_bytewise],
      [frames_roundtrip]); a session delivers the stream within its buffers
      ([session_delivers_stream], [session_buffers_bounded]); mailboxes are
      bounded queues ([loop_mailbox_refines_fifo]); a loop owns its connections,
      its registrations agree with epoll, dead tokens stay dead and a shutdown
      releases everything ([loop_owns_connections], [loop_registrations_exact],
      [closed_tokens_stay_dead], [loop_shutdown_releases_all]); the counters of
      the group are exact and within limits in every interleaving
      ([group_counters_exact], [group_limits]); the acceptor strands no
      connection ([acceptor_strands_no_connection]); the composed server closes
      every connection once ([server_closes_every_connection]).
    - Runtime: timers fire completely, and the threaded service refines the core
      ([runReady_complete], [timer_service_refines_core]); the pool conserves
      tasks and can finish ([pool_conserves_tasks], [pool_shutdown_completes]);
      completions are well formed ([task_completion_wellformed]).
    - Process: what the loader accepts passes the checks of every component
      ([loaded_config_valid]; only a candidate queue too large for its vector
      cannot be built, [loader_accepts_unbuildable_queue]); the handler uses
      each component only while it may, but that it does not join the workers
      after a failed join of the loops ([handler_respects_components]), and
      [join] answers truthfully in every state ([handler_join_truthful]); the log file is exact and the logger ends
      ([logger_file_exact], [logger_stop_terminates]); the process starts and
      stops its services in order ([process_orderly]).
    - Tools: the management command executes a prefix of its plan, the whole
      plan when it answers 0, and ends ([manage_tool_truthful], [manage_terminates]); a client and the server
      read each other over any network ([client_server_roundtrip]); the books of
      the benchmark balance and its phases end ([benchmark_accounting],
      [benchmark_phase_ends]); the one-shot client tells the truth
      ([send_event_truthful]).

    ** Bounds and fuel

    Loops whose recursion is not structural take fuel.  It is enough because
    each pass consumes something that the fuel counts: an input byte
    ([consume], the reading loop of a session), a heap node ([runReady], the
    expiry of [SlidingDistinct]), an element of a queue (the closing and
    draining loops), an answer of the environment ([scan_fuel], [fetch_fuel],
    [boot_fuel], [drain_fuel], [write_fuel] and the loops of [LoadClient] and
    [SendEvent]: the fuel is one more than the answers left).  [poll_fuel] is
    the number of sleeps that fit in a timeout; [to_string] has twenty digits,
    the most of a 64-bit integer.  [EventLoopIo] shows that more fuel changes
    nothing; [manage_terminates], [benchmark_phase_ends],
    [logger_stop_terminates] and the theorems on single loops state that the
    code returns.  A call that is interrupted for ever has not returned.
    Hypotheses on sizes (fewer than 2^32 increments, a sum of capacities below
    2^64, fewer than 2^64 requests and threads) are the ranges of the C++ types;
    [windows_fit] keeps a window within [kDistinctMaxMembers], beyond which the
    store drops members by design.

    ** What is not modelled

    Allocation failures (but for the [reserve] of the candidate queue), thread
    creation failures and the memory model below mutexes and atomics.  A
    [pollOnce] of a loop is one step of the group, its releases apart.  Generated protobuf code, hiredis, libmysqlclient and
    the kernel are arguments.  [base/array_view.hpp] is a pointer and a length;
    its uses are lists.  Floating point is not modelled: in
    [benchmark/load_generator.cpp] the decisions on rates are arguments, and
    [choose], [scheduledOffset], [summarizeLatencies], [calculateQps] and
    [renderKeyValueSummary] are left out; [tools/benchmark_native.cpp] and
    [tools/benchmark_feature_store.cpp] parse options and print such
    measurements. *)

From stdpp Require Export gmap strings list sorting.
From coqutil Require Export Datatypes.RecordSettersUsingExistingGetters.
Export RecordSetNotations1.

(** A field update computes with [simpl]. *)
#[global] Arguments const {E} newValue _ /.

#[export] Set Default Goal Selector "!".

Open Scope Z_scope.

(** ** Machine integers

    A C++ unsigned integer of width [w] is a [Z]; arithmetic that the source
    performs at that width is written with the wrap-around made explicit. *)

Abbreviation two32 := 4294967296.
Abbreviation two64 := 18446744073709551616.

Definition wrap32 (z : Z) : Z := z mod two32.
Definition wrap64 (z : Z) : Z := z mod two64.

(** [std::numeric_limits<std::uint64_t>::max()] *)
Definition u64_max : Z := two64 - 1.
Definition u32_max : Z := two32 - 1.

Definition is_u32 (z : Z) : Prop := 0 <= z < two32.
Definition is_u64 (z : Z) : Prop := 0 <= z < two64.

(** Buffers of [std::uint8_t]. *)
Abbreviation bytes_t := (list Z).
Definition is_byte (b : Z) : Prop := 0 <= b < 256.

Declare Scope cpp_scope.
Delimit Scope cpp_scope with cpp.
Notation "a ⊕ b" := (wrap64 (a + b)) (at level 50, left associativity) : cpp_scope.
Notation "a ⊖ b" := (wrap64 (a - b)) (at level 50, left associativity) : cpp_scope.
Open Scope cpp_scope.

Lemma wrap64_small z : is_u64 z -> wrap64 z = z.
Proof. unfold is_u64, wrap64. intros. by apply Z.mod_small. Qed.

Lemma wrap32_small z : is_u32 z -> wrap32 z = z.
Proof. unfold is_u32, wrap32. intros. by apply Z.mod_small. Qed.

Lemma wrap64_range z : is_u64 (wrap64 z).
Proof. apply Z.mod_pos_bound. lia. Qed.

Lemma wrap32_range z : is_u32 (wrap32 z).
Proof. apply Z.mod_pos_bound. lia. Qed.

Lemma wrap64_sub_add a b c : ((a ⊖ b) ⊕ c) = wrap64 (a - b + c).
Proof. unfold wrap64. by rewrite Zplus_mod_idemp_l. Qed.

Lemma wrap64_idem z : wrap64 (wrap64 z) = wrap64 z.
Proof. apply wrap64_small, wrap64_range. Qed.

Lemma div_u64 n w : 0 < w -> is_u64 n -> is_u64 (n / w).
Proof.
  unfold is_u64. intros Hw [H0 H1]. split; [by apply Z.div_pos|].
  apply Z.div_lt_upper_bound; [done|]. nia.
Qed.

(** A shifted number and one below the shift do not overlap. *)
Lemma lor_shiftl_add a b k :
  0 <= k -> 0 <= b < 2 ^ k -> Z.lor (Z.shiftl a k) b = a * 2 ^ k + b.
Proof.
  intros Hk Hb. rewrite <-Z.shiftl_mul_pow2 by done.
  assert (Z.land (Z.shiftl a k) b = 0) as E.
  { apply Z.bits_inj'. intros n Hn. rewrite Z.land_spec, Z.bits_0.
    destruct (Z.lt_ge_cases n k).
    - by rewrite Z.shiftl_spec_low.
    - rewrite <-(Z.mod_small b (2 ^ k)), Z.mod_pow2_bits_high, andb_false_r by lia. done. }
  by rewrite Z.add_nocarry_lxor, Z.lxor_lor.
Qed.

(** Rewrites a wrap whose argument provably fits. *)
Ltac wrap_simpl :=
  repeat first
    [ rewrite wrap64_sub_add in *
    | rewrite wrap64_small in * by (unfold is_u64, is_u32 in *; lia)
    | rewrite wrap32_small in * by (unfold is_u64, is_u32 in *; lia) ].

(** Linear arithmetic with division and modulo by literals. *)
Ltac zlia := Z.to_euclidean_division_equations; lia.

(** Closes a conjunction of trivial and arithmetic facts. *)
Ltac conj_lia := split_and!; try done; lia.

(** ** Boolean tests of the source *)

(** Turns every boolean comparison in the context into its proposition. *)
Ltac bool_to_prop :=
  repeat match goal with
  | H : (_ && _)%bool = true |- _ => apply andb_prop in H; destruct H
  | H : (_ || _)%bool = false |- _ => apply orb_false_elim in H; destruct H
  | H : negb _ = true |- _ => apply negb_true_iff in H
  | H : negb _ = false |- _ => apply negb_false_iff in H
  | H : (_ <? _) = true |- _ => apply Z.ltb_lt in H
  | H : (_ <? _) = false |- _ => apply Z.ltb_ge in H
  | H : (_ <=? _) = true |- _ => apply Z.leb_le in H
  | H : (_ <=? _) = false |- _ => apply Z.leb_gt in H
  | H : (_ =? _) = true |- _ => apply Z.eqb_eq in H
  | H : (_ =? _) = false |- _ => apply Z.eqb_neq in H
  | H : bool_decide _ = true |- _ => apply bool_decide_eq_true_1 in H
  | H : bool_decide _ = false |- _ => apply bool_decide_eq_false_1 in H
  end.

(** Splits on the first [if] of the goal and keeps the test as a proposition. *)
Ltac case_if :=
  match goal with
  | |- context [if ?b then _ else _] =>
      lazymatch type of b with
      | bool => let E := fresh "Htest" in destruct b eqn:E; bool_to_prop
      end
  end.

(** ** Lists of integers and lengths *)

(** [container.size()] as a [std::size_t]. *)
Definition size_of {A} (l : list A) : Z := Z.of_nat (length l).

Lemma size_of_nonneg {A} (l : list A) : 0 <= size_of l.
Proof. unfold size_of. lia. Qed.

Lemma size_of_app {A} (l k : list A) : size_of (l ++ k) = size_of l + size_of k.
Proof. unfold size_of. rewrite length_app. lia. Qed.

Lemma size_of_cons {A} (x : A) l : size_of (x :: l) = 1 + size_of l.
Proof. unfold size_of. simpl. lia. Qed.

Lemma size_of_nil {A} : size_of (@nil A) = 0.
Proof. done. Qed.

Lemma size_of_zero {A} (l : list A) : size_of l = 0 -> l = [].
Proof. unfold size_of. destruct l; simpl; [done | lia]. Qed.

Lemma mjoin_cons {A} (x : list A) (l : list (list A)) : mjoin (x :: l) = x ++ mjoin l.
Proof. done. Qed.

Fixpoint zsum (l : list Z) : Z :=
  match l with
  | [] => 0
  | x :: r => x + zsum r
  end.

Lemma zsum_app l k : zsum (l ++ k) = zsum l + zsum k.
Proof. induction l; simpl; lia. Qed.

Lemma zsum_nonneg l : Forall (fun x => 0 <= x) l -> 0 <= zsum l.
Proof. induction 1; simpl; lia. Qed.

Lemma zsum_permutation l k : l ≡ₚ k -> zsum l = zsum k.
Proof. induction 1; simpl; lia. Qed.

(** A filtered list of pairs sums, on the second component, to at most the
    whole list when the summands are non-negative. *)
Lemma zsum_filter_le {A} (f : A -> Z) (P : A -> Prop) `{!∀ x, Decision (P x)}
    (l : list A) :
  Forall (fun x => 0 <= f x) l -> zsum (f <$> filter P l) <= zsum (f <$> l).
Proof.
  induction 1 as [|x l Hx Hl IH]; csimpl; [done|].
  rewrite filter_cons. case_decide; csimpl; lia.
Qed.

Lemma zsum_filter_split {A} (f : A -> Z) (P : A -> Prop) `{!∀ x, Decision (P x)}
    (l : list A) :
  zsum (f <$> filter P l) + zsum (f <$> filter (fun x => ~ P x) l)
  = zsum (f <$> l).
Proof.
  induction l as [|x l IH]; csimpl; [done|].
  rewrite !filter_cons. repeat case_decide; csimpl; try tauto; lia.
Qed.

Lemma list_filter_filter_imp {A} (P Q : A -> Prop)
    `{!∀ x, Decision (P x), !∀ x, Decision (Q x)} (l : list A) :
  (forall x, x ∈ l -> Q x -> P x) -> filter Q (filter P l) = filter Q l.
Proof.
  induction l as [|x l IH]; intros Himp; [done|].
  assert (filter Q (filter P l) = filter Q l) as E
    by (apply IH; intros; apply Himp; [by right | done]).
  pose proof (Himp x ltac:(left)) as Hx.
  rewrite !filter_cons. case_decide; [rewrite filter_cons|]; repeat case_decide;
    rewrite ?E; try done. tauto.
Qed.

Lemma list_filter_all {A} (P : A -> Prop) `{!∀ x, Decision (P x)} (l : list A) :
  Forall P l -> filter P l = l.
Proof.
  induction 1 as [|x l Hx Hl IH]; [done|]. rewrite filter_cons_True by done.
  by rewrite IH.
Qed.

Lemma list_filter_none {A} (P : A -> Prop) `{!∀ x, Decision (P x)} (l : list A) :
  Forall (fun x => ~ P x) l -> filter P l = [].
Proof.
  induction 1 as [|x l Hx Hl IH]; [done|]. by rewrite filter_cons_False.
Qed.

Lemma Forall_filter_sub {A} (P Q : A -> Prop) `{!∀ x, Decision (P x)} (l : list A) :
  Forall Q l -> Forall Q (filter P l).
Proof.
  intros HQ. apply Forall_forall. intros x [_ Hx]%list_elem_of_filter.
  by apply (proj1 (Forall_forall _ _) HQ).
Qed.

Lemma submseteq_NoDup {A} (l k : list A) : l ⊆+ k -> NoDup k -> NoDup l.
Proof. intros [r ->]%submseteq_Permutation [? _]%NoDup_app. done. Qed.

(** ** Clock readings *)

(** The readings never decrease, starting from [t]. *)
Fixpoint clock_from (t : Z) (nows : list Z) : Prop :=
  match nows with
  | [] => True
  | now :: rest => t <= now /\ clock_from now rest
  end.

Fixpoint last_now (t : Z) (nows : list Z) : Z :=
  match nows with
  | [] => t
  | now :: rest => last_now now rest
  end.

Lemma clock_from_last t nows : clock_from t nows -> t <= last_now t nows.
Proof.
  revert t. induction nows as [|n nows IH]; simpl; intros t; [lia|].
  intros [H1 H2%IH]. lia.
Qed.

(** ** Errors

    A C++ function that may throw returns [Throw]; [Ok] is a normal return. *)
Inductive result (A : Type) :=
| Ok (a : A)
| Throw (what : string).
Arguments Ok {A} a.
Arguments Throw {A} what.

#[export] Instance result_bind : MBind result := fun A B f r =>
  match r with Ok a => f a | Throw e => Throw e end.

Lemma bind_ok {A B} (r : result A) (f : A -> result B) b :
  r ≫= f = Ok b -> exists a, r = Ok a /\ f a = Ok b.
Proof. destruct r; simpl; [by eauto | done]. Qed.

(** Splits a successful sequence of fallible calls into its steps. *)
Ltac bind_inv :=
  repeat match goal with
  | H : _ ≫= _ = Ok _ |- _ =>
      let a := fresh "v" in let E := fresh "E" in
      apply bind_ok in H as (a & E & H)
  end.

Create HintDb aegis.
#[export] Hint Resolve size_of_nonneg wrap64_range wrap32_range div_u64 : aegis.
