(* ===== verification/Posix.v ===== *)
(** * Posix: what the code uses of the system-call conventions

    A system call answers a non-negative value, or -1 with [errno].  The
    answers of the kernel are arguments of the model: a loop that repeats a
    call takes the list of the successive answers, and has not returned
    ([None]) when the list ends before the loop does. *)

From S2P Require Import Prelude.
Open Scope Z_scope.

Inductive Errno := EINTR | EAGAIN | EOther.

#[export] Instance Errno_eq_dec : EqDecision Errno.
Proof. solve_decision. Defined.

(** The result of one call: a non-negative value, or -1 with [errno]. *)
Inductive IoResult := IoBytes (n : Z) | IoError (e : Errno).

#[export] Instance IoResult_eq_dec : EqDecision IoResult.
Proof. solve_decision. Defined.

(** [do { result = call(); } while (result < 0 && errno == EINTR);] *)
Fixpoint retry_eintr (answers : list IoResult) : option IoResult :=
  match answers with
  | [] => None
  | IoError EINTR :: rest => retry_eintr rest
  | answer :: _ => Some answer
  end.

(** The value of the variable that receives the answer. *)
Definition io_value (r : IoResult) : Z := match r with IoBytes n => n | IoError _ => -1 end.

(** ** Ownership of descriptors

    What a component does to its descriptors, in order. *)
Inductive FdEvent := FdOpened (fd : Z) | FdClosed (fd : Z).

Definition fd_opened (e : FdEvent) : list Z := match e with FdOpened fd => [fd] | FdClosed _ => [] end.
Definition fd_closed (e : FdEvent) : list Z := match e with FdOpened _ => [] | FdClosed fd => [fd] end.

Definition fds_opened (log : list FdEvent) : list Z := mjoin (fd_opened <$> log).
Definition fds_closed (log : list FdEvent) : list Z := mjoin (fd_closed <$> log).

Lemma fds_opened_app l k : fds_opened (l ++ k) = fds_opened l ++ fds_opened k.
Proof. unfold fds_opened. by rewrite fmap_app, join_app. Qed.

Lemma fds_closed_app l k : fds_closed (l ++ k) = fds_closed l ++ fds_closed k.
Proof. unfold fds_closed. by rewrite fmap_app, join_app. Qed.

(** The descriptors [held] are those opened and not yet closed: none is lost
    and none is closed twice. *)
Definition fds_balanced (log : list FdEvent) (held : list Z) : Prop :=
  fds_opened log ≡ₚ fds_closed log ++ held.

Lemma fds_balanced_nil : fds_balanced [] [].
Proof. unfold fds_balanced. reflexivity. Qed.

Lemma fds_balanced_app log evs held held' :
  fds_balanced log held -> held ++ fds_opened evs ≡ₚ fds_closed evs ++ held' ->
  fds_balanced (log ++ evs) held'.
Proof.
  unfold fds_balanced. intros H1 H2. rewrite fds_opened_app, fds_closed_app, H1.
  rewrite <-!app_assoc. by rewrite H2.
Qed.
