(* ===== verification/Text.v ===== *)
(** * Text: characters and decimal numbers

    What the source uses of the C++ library for text: the character classes of
    the C locale, the digit loops of [std::stoull] and [std::from_chars], and
    [std::to_string] on unsigned integers. *)

From Stdlib Require Import Ascii.
From S2P Require Import Prelude.
Open Scope Z_scope.

Definition char_code (c : ascii) : Z := Z.of_nat (nat_of_ascii c).

(** [std::isspace] in the C locale. *)
Definition isspace (c : ascii) : bool :=
  (char_code c =? 32) || ((9 <=? char_code c) && (char_code c <=? 13)).

Definition isdigit (c : ascii) : bool := (48 <=? char_code c) && (char_code c <=? 57).

(** The leading digits, their value and their number. *)
Fixpoint digits (l : list ascii) (acc : Z) (n : nat) : Z * nat :=
  match l with
  | c :: rest => if isdigit c then digits rest (acc * 10 + (char_code c - 48)) (S n) else (acc, n)
  | [] => (acc, n)
  end.

(** [std::from_chars] into a [std::uint64_t]: the value and the number of
    characters it converts, [None] when it reports an error. *)
Definition from_chars (text : list ascii) : option (Z * nat) :=
  let '(number, n) := digits text 0 0 in
  if (n =? 0)%nat then None else if u64_max <? number then None else Some (number, n).

(** [std::to_string] of an unsigned integer: one digit per unit of fuel. *)
Definition digit_char (d : Z) : ascii := ascii_of_nat (Z.to_nat (48 + d)).

Fixpoint to_digits (fuel : nat) (n : Z) : list ascii :=
  match fuel with
  | O => []
  | S fuel => if n <? 10 then [digit_char n] else to_digits fuel (n / 10) ++ [digit_char (n mod 10)]
  end.

(** A 64-bit integer has at most twenty digits. *)
Definition to_string (n : Z) : string := String.string_of_list_ascii (to_digits 20 n).

(** ** Printing and reading back *)

Lemma digits_nonneg l acc n : 0 <= acc -> 0 <= (digits l acc n).1.
Proof.
  revert acc n. induction l as [|c l IH]; intros acc n Ha; simpl; [done|].
  destruct (isdigit c) eqn:E; [|done]. apply IH. unfold isdigit in E. bool_to_prop. lia.
Qed.

Lemma char_code_digit d : 0 <= d < 10 -> char_code (digit_char d) = 48 + d.
Proof.
  intros H. unfold char_code, digit_char. rewrite nat_ascii_embedding; [lia|].
  assert (Z.to_nat (48 + d) <= 57)%nat by lia. lia.
Qed.

Lemma isdigit_digit d : 0 <= d < 10 -> isdigit (digit_char d) = true.
Proof. intros H. unfold isdigit. rewrite char_code_digit by done. apply andb_true_intro. split; lia. Qed.

Lemma digits_app l k acc n :
  forallb isdigit l = true ->
  digits (l ++ k) acc n = digits k (digits l acc n).1 (length l + n).
Proof.
  revert acc n. induction l as [|c l IH]; intros acc n H; [done|]. simpl in *.
  apply andb_prop in H as [Hc Hl]. rewrite Hc, IH by done. f_equal. lia.
Qed.

Lemma to_digits_spec fuel n :
  0 <= n < 10 ^ Z.of_nat fuel -> (0 < fuel)%nat ->
  forallb isdigit (to_digits fuel n) = true /\ (digits (to_digits fuel n) 0 0).1 = n
  /\ (0 < length (to_digits fuel n))%nat
  /\ (head (to_digits fuel n) = Some (digit_char 0) -> n = 0).
Proof.
  revert n. induction fuel as [|fuel IH]; intros n Hn Hf; [lia|]. cbn [to_digits].
  destruct (Z.ltb_spec n 10) as [Hlt|Hge].
  - assert (isdigit (digit_char n) = true) as Hd by (apply isdigit_digit; lia).
    split_and!; simpl; rewrite ?Hd; try done; try lia.
    + simpl. rewrite char_code_digit by lia. lia.
    + intros [= E]. apply (f_equal char_code) in E. rewrite !char_code_digit in E by lia. lia.
  - rewrite Nat2Z.inj_succ, Z.pow_succ_r in Hn by lia.
    assert (0 <= n mod 10 < 10) as Hm by (apply Z.mod_pos_bound; lia).
    assert (0 < fuel)%nat as Hf' by (destruct fuel; [simpl in Hn; lia|lia]).
    destruct (IH (n / 10)) as (H1 & H2 & H3 & H4); [|done|].
    { split; [apply Z.div_pos; lia|]. apply Z.div_lt_upper_bound; lia. }
    split_and!.
    + rewrite forallb_app, H1. simpl. by rewrite isdigit_digit.
    + rewrite digits_app, H2 by done. simpl. rewrite isdigit_digit by done. simpl.
      rewrite char_code_digit by done. pose proof (Z.div_mod n 10). lia.
    + rewrite length_app. simpl. lia.
    + destruct (to_digits fuel (n / 10)) as [|c l]; [simpl in H3; lia|]. simpl. intros Hh.
      apply H4 in Hh. assert (0 < n / 10) by (apply Z.div_str_pos; lia). lia.
Qed.

Lemma digits_all l acc n : forallb isdigit l = true -> (digits l acc n).2 = (length l + n)%nat.
Proof.
  revert acc n. induction l as [|c l IH]; intros acc n H; [done|]. simpl in *.
  apply andb_prop in H as [Hc Hl]. rewrite Hc, IH by done. lia.
Qed.

Lemma to_string_digits n :
  is_u64 n ->
  let text := String.list_ascii_of_string (to_string n) in
  from_chars text = Some (n, length text) /\ text <> []
  /\ (head text = Some (digit_char 0) -> length text = 1%nat).
Proof.
  intros Hn. unfold to_string. rewrite String.list_ascii_of_string_of_list_ascii.
  assert (0 <= n < 10 ^ Z.of_nat 20) as Hb
    by (change (10 ^ Z.of_nat 20) with 100000000000000000000; unfold is_u64 in Hn; lia).
  destruct (to_digits_spec 20 n Hb ltac:(lia)) as (H1 & H2 & H3 & H4). cbn zeta.
  split_and!.
  - unfold from_chars. pose proof (digits_all _ 0 0 H1) as Hl.
    destruct (digits (to_digits 20 n) 0 0) as [v m]. cbn [fst snd] in H2, Hl. subst v m.
    rewrite Nat.add_0_r. destruct (Nat.eqb_spec (length (to_digits 20 n)) 0); [lia|].
    destruct (Z.ltb_spec u64_max n); [unfold is_u64, u64_max in *; lia|done].
  - intros E. rewrite E in H3. cbn in H3. lia.
  - intros Hh. rewrite (H4 Hh). done.
Qed.
