(* ===== verification/SlidingCounter.v ===== *)
(** * SlidingCounter: the ring of time buckets

    Model of [include/aegisflow/feature/sliding_counter.hpp]: a fixed array of
    [BucketNum] buckets indexed by [bucket_id % BucketNum], a running total and
    lazy expiry.  The abstract specification is the list of live increments,
    each with its bucket; [refines] relates a ring to that list, and the
    theorems show that every operation of the ring implements the operation on
    the list, for every sequence of clock readings (backward jumps included). *)

From S2P Require Import Prelude.
Open Scope Z_scope.

Record Bucket := mkBucket {
  bucket_id : Z;      (* uint64 *)
  count : Z;          (* uint32 *)
  occupied : bool;
}.

Definition empty_bucket : Bucket := mkBucket 0 0 false.

#[export] Instance Bucket_inhabited : Inhabited Bucket := populate empty_bucket.
#[export] Instance Bucket_eq_dec : EqDecision Bucket.
Proof. solve_decision. Defined.

Record SlidingCounter := mkSlidingCounter {
  buckets_ : list Bucket;
  bucket_ms_ : Z;
  total_ : Z;         (* uint64 *)
}.

(** A live increment: its bucket and its amount. *)
Abbreviation entry := (Z * Z)%type.

Section Ring.
Context (BucketNum : nat).

(** A counter as its member initialisers leave it. *)
Definition fresh (bucket_ms : Z) : SlidingCounter :=
  mkSlidingCounter (replicate BucketNum empty_bucket) bucket_ms 0.

(** The constructor: an error for a zero width. *)
Definition make (bucket_ms : Z) : result SlidingCounter :=
  if bucket_ms =? 0 then Throw "bucket width must be positive"
  else Ok (fresh bucket_ms).

(** First bucket that [expire] keeps. *)
Definition expire_minimum (now_bucket : Z) : Z :=
  if now_bucket <? Z.of_nat BucketNum - 1 then 0
  else (now_bucket ⊖ Z.of_nat BucketNum) ⊕ 1.

(** The range-for loop of [expire]: visits the buckets in array order. *)
Fixpoint expire_loop (minimum now_bucket : Z) (bs : list Bucket) (total : Z)
    : list Bucket * Z :=
  match bs with
  | [] => ([], total)
  | b :: rest =>
      if (negb (occupied b)
          || ((minimum <=? bucket_id b) && (bucket_id b <=? now_bucket)))%bool
      then let '(rest', total') := expire_loop minimum now_bucket rest total in
           (b :: rest', total')
      else let '(rest', total') :=
             expire_loop minimum now_bucket rest (total ⊖ count b) in
           (empty_bucket :: rest', total')
  end.

Definition expire (s : SlidingCounter) (now_ms : Z) : SlidingCounter :=
  let now_bucket := now_ms / bucket_ms_ s in
  let '(bs, total) :=
    expire_loop (expire_minimum now_bucket) now_bucket (buckets_ s) (total_ s) in
  s <| buckets_ := bs |> <| total_ := total |>.

Definition add (s0 : SlidingCounter) (event_ts_ms now_ms delta : Z)
    : SlidingCounter * bool :=
  let s := expire s0 now_ms in
  let event_bucket := event_ts_ms / bucket_ms_ s in
  let now_bucket := now_ms / bucket_ms_ s in
  if ((now_bucket <? event_bucket)
      || (Z.of_nat BucketNum <=? (now_bucket ⊖ event_bucket)))%bool
  then (s, false)
  else
    let index := Z.to_nat (event_bucket mod Z.of_nat BucketNum) in
    let bucket := buckets_ s !!! index in
    let '(bucket, total) :=
      if (negb (occupied bucket) || negb (bucket_id bucket =? event_bucket))%bool
      then (mkBucket event_bucket 0 true, total_ s ⊖ count bucket)
      else (bucket, total_ s) in
    let bucket := bucket <| count := wrap32 (count bucket + delta) |> in
    (s <| buckets_ := <[index := bucket]> (buckets_ s) |>
       <| total_ := total ⊕ delta |>, true).

Definition sum (s0 : SlidingCounter) (now_ms : Z) : SlidingCounter * Z :=
  let s := expire s0 now_ms in (s, wrap32 (total_ s)).

(** ** Specification: the list of live increments *)

Definition in_window (now_bucket b : Z) : Prop :=
  Z.max 0 (now_bucket - Z.of_nat BucketNum + 1) <= b <= now_bucket.

#[export] Instance in_window_dec now_bucket b : Decision (in_window now_bucket b).
Proof. unfold in_window. apply _. Defined.

Definition live (now_bucket : Z) (log : list entry) : list entry :=
  filter (fun e => in_window now_bucket e.1) log.

Definition amount (log : list entry) : Z := zsum (snd <$> log).

Definition weight (b : Z) (log : list entry) : Z :=
  amount (filter (fun e => e.1 = b) log).

(** The ids of the occupied buckets, in array order. *)
Definition ids (bs : list Bucket) : list Z := bucket_id <$> filter occupied bs.

(** What a ring must satisfy to stand for the list of live increments. *)
Record refines (s : SlidingCounter) (log : list entry) : Prop := {
  rf_width : 0 < bucket_ms_ s;
  rf_length : length (buckets_ s) = BucketNum;
  rf_slot i b : buckets_ s !! i = Some b ->
    if occupied b
    then 0 <= bucket_id b /\ bucket_id b mod Z.of_nat BucketNum = Z.of_nat i
         /\ count b = weight (bucket_id b) log
    else count b = 0;
  rf_cover e : e ∈ log -> e.1 ∈ ids (buckets_ s);
  rf_amounts : Forall (fun e : entry => 0 <= e.2) log;
  rf_total : total_ s = amount log;
  rf_bound : amount log < two32;
}.
End Ring.

(** ** Sums over buckets and over the list *)

Lemma amount_cons e log : amount (e :: log) = e.2 + amount log.
Proof. done. Qed.

Lemma amount_nonneg log : Forall (fun e : entry => 0 <= e.2) log -> 0 <= amount log.
Proof. intros H. apply zsum_nonneg. by apply Forall_fmap. Qed.

Lemma weight_cons b e log :
  weight b (e :: log) = (if decide (e.1 = b) then e.2 else 0) + weight b log.
Proof. unfold weight. rewrite filter_cons. by case_decide. Qed.

Lemma amount_live_le BucketNum nb log :
  Forall (fun e : entry => 0 <= e.2) log -> amount (live BucketNum nb log) <= amount log.
Proof. apply zsum_filter_le. Qed.

(** Summing the weight of each bucket of a duplicate-free list that covers the
    log counts every increment exactly once. *)
Lemma zsum_indicator (ks : list Z) (k d : Z) :
  NoDup ks -> k ∈ ks ->
  zsum ((fun b => if decide (k = b) then d else 0) <$> ks) = d.
Proof.
  induction 1 as [|x ks Hx Hnd IH]; [by intros ?%elem_of_nil|].
  intros [->|Hin]%elem_of_cons; csimpl.
  - rewrite decide_True by done.
    enough (zsum ((fun b => if decide (x = b) then d else 0) <$> ks) = 0) by lia.
    clear -Hx. induction ks as [|y ks IH]; [done|]. csimpl.
    rewrite decide_False by set_solver. rewrite IH by set_solver. done.
  - rewrite IH by done. rewrite decide_False by set_solver. lia.
Qed.

Lemma zsum_add {A} (f g : A -> Z) (l : list A) :
  zsum ((fun x => f x + g x) <$> l) = zsum (f <$> l) + zsum (g <$> l).
Proof. induction l; csimpl; lia. Qed.

Lemma zsum_weight (P : Z -> Prop) `{!forall b, Decision (P b)} (ks : list Z)
    (log : list entry) :
  NoDup ks -> (forall e, e ∈ log -> e.1 ∈ ks) ->
  zsum ((fun b => weight b log) <$> filter P ks)
  = amount (filter (fun e => P e.1) log).
Proof.
  intros Hnd. induction log as [|e log IH]; intros Hcov.
  - clear. induction (filter P ks); [done|]. csimpl. rewrite IHl. done.
  - rewrite (list_fmap_ext _ (fun b => (if decide (e.1 = b) then e.2 else 0)
                                      + weight b log)) by (intros; apply weight_cons).
    rewrite zsum_add, IH by set_solver. rewrite filter_cons. case_decide.
    + rewrite amount_cons, zsum_indicator; [done|by apply NoDup_filter|].
      apply list_elem_of_filter. split; [done|]. apply Hcov. by left.
    + enough (zsum ((fun b => if decide (e.1 = b) then e.2 else 0) <$> filter P ks) = 0)
        by lia.
      enough (e.1 ∉ filter P ks) as Hno.
      { revert Hno. clear. induction (filter P ks) as [|y l IH]; [done|]. csimpl.
        intros. rewrite decide_False by set_solver. rewrite IH by set_solver. done. }
      intros ?%list_elem_of_filter. tauto.
Qed.

(** ** The expiry loop *)

(** The test of the loop body: the bucket survives. *)
Definition kept (minimum now_bucket : Z) (b : Bucket) : bool :=
  negb (occupied b) || ((minimum <=? bucket_id b) && (bucket_id b <=? now_bucket)).

Lemma expire_loop_buckets minimum now_bucket bs total :
  (expire_loop minimum now_bucket bs total).1
  = (fun b => if kept minimum now_bucket b then b else empty_bucket) <$> bs.
Proof.
  revert total. induction bs as [|b bs IH]; intros total; [done|]. csimpl.
  fold (kept minimum now_bucket b).
  destruct (kept minimum now_bucket b);
    destruct (expire_loop _ _ _ _) eqn:E; csimpl; f_equal;
    apply (f_equal fst) in E; rewrite IH in E; done.
Qed.

Lemma expire_loop_total minimum now_bucket bs total :
  is_u64 total ->
  (expire_loop minimum now_bucket bs total).2
  = wrap64 (total - zsum (count <$> filter (fun b => ~ kept minimum now_bucket b) bs)).
Proof.
  revert total. induction bs as [|b bs IH]; intros total Ht; csimpl.
  { rewrite Z.sub_0_r. by rewrite wrap64_small. }
  fold (kept minimum now_bucket b). rewrite filter_cons.
  destruct (kept minimum now_bucket b);
    destruct (expire_loop _ _ _ _) eqn:E; apply (f_equal snd) in E; csimpl in E;
    case_decide; csimpl; try naive_solver; rewrite <-E, IH by (done || apply wrap64_range).
  unfold wrap64. rewrite Zminus_mod_idemp_l. f_equal. lia.
Qed.

Lemma expire_minimum_spec BucketNum nb :
  (0 < BucketNum)%nat -> Z.of_nat BucketNum < two64 -> is_u64 nb ->
  expire_minimum BucketNum nb = Z.max 0 (nb - Z.of_nat BucketNum + 1).
Proof.
  unfold is_u64. intros HN HB Hnb. unfold expire_minimum. case_if; [lia|].
  rewrite wrap64_sub_add, wrap64_small by (unfold is_u64; lia). lia.
Qed.

Section Refinement.
Context (BucketNum : nat).
Context (HN : (0 < BucketNum)%nat) (HB : Z.of_nat BucketNum < two64).

Abbreviation refines := (refines BucketNum).
Abbreviation expire := (expire BucketNum).
Abbreviation live := (live BucketNum).
Abbreviation in_window := (in_window BucketNum).

Lemma kept_spec nb b :
  is_u64 nb -> 
  kept (expire_minimum BucketNum nb) nb b = true <->
  (occupied b = true -> in_window nb (bucket_id b)).
Proof.
  intros Hnb. unfold kept, SlidingCounter.in_window.
  rewrite expire_minimum_spec by done.
  destruct (occupied b); simpl; rewrite ?andb_true_iff, ?Z.leb_le; naive_solver.
Qed.

Lemma elem_of_ids bs k :
  k ∈ ids bs <-> exists i b, bs !! i = Some b /\ occupied b = true /\ bucket_id b = k.
Proof.
  unfold ids. rewrite list_elem_of_fmap. split.
  - intros (b & -> & [Ho Hb]%list_elem_of_filter).
    apply list_elem_of_lookup in Hb as [i Hi].
    exists i, b. by destruct (occupied b).
  - intros (i & b & Hi & Ho & <-). exists b. split; [done|].
    apply list_elem_of_filter. rewrite Ho. split; [done|].
    by apply list_elem_of_lookup_2 in Hi.
Qed.

Lemma NoDup_ids bs off :
  (forall i b, bs !! i = Some b -> occupied b = true ->
     bucket_id b mod Z.of_nat BucketNum = Z.of_nat (off + i)) ->
  NoDup (ids bs).
Proof.
  revert off. unfold ids. induction bs as [|b bs IH]; intros off Hs; [constructor|].
  rewrite filter_cons.
  assert (NoDup (bucket_id <$> filter occupied bs)) as Hnd.
  { apply (IH (S off)). intros i b' Hi Ho.
    specialize (Hs (S i) b' Hi Ho). lia. }
  case_decide as Hocc; [|done]. csimpl. constructor; [|done].
  intros (i & b' & Hi & Ho & Heq)%elem_of_ids.
  pose proof (Hs 0%nat b eq_refl ltac:(by destruct (occupied b))) as H0.
  specialize (Hs (S i) b' Hi Ho). rewrite Heq in Hs. lia.
Qed.

Lemma refines_NoDup s log : refines s log -> NoDup (ids (buckets_ s)).
Proof.
  intros R. apply (NoDup_ids _ 0). intros i b Hi Ho.
  pose proof (rf_slot _ _ _ R i b Hi) as H. rewrite Ho in H. simpl. tauto.
Qed.

(** The counts of the occupied buckets that satisfy [P] add up to the live
    increments whose bucket satisfies [P]. *)
Lemma refines_partial_sum (P : Z -> Prop) `{!forall b, Decision (P b)} s log :
  refines s log ->
  zsum (count <$> filter (fun b => occupied b /\ P (bucket_id b)) (buckets_ s))
  = amount (filter (fun e => P e.1) log).
Proof.
  intros R. rewrite <-(zsum_weight P (ids (buckets_ s)));
    [|by eapply refines_NoDup|by apply R].
  assert (Forall (fun b => occupied b -> count b = weight (bucket_id b) log)
            (buckets_ s)) as Hc.
  { apply Forall_lookup_2. intros i b Hi Ho.
    pose proof (rf_slot _ _ _ R i b Hi) as Hsl.
    destruct (occupied b); [apply Hsl|done]. }
  clear R. unfold ids. induction Hc as [|b bs Hb Hc IH]; [done|].
  rewrite !filter_cons. repeat case_decide; csimpl; rewrite ?filter_cons;
    repeat case_decide; csimpl; try tauto; rewrite ?IH, ?Hb by tauto; done.
Qed.

Lemma weight_live nb b log :
  in_window nb b -> weight b (live nb log) = weight b log.
Proof.
  intros Hb. unfold weight, SlidingCounter.live. f_equal.
  apply list_filter_filter_imp. naive_solver.
Qed.

Lemma expire_bucket_ms s now : bucket_ms_ (expire s now) = bucket_ms_ s.
Proof. unfold SlidingCounter.expire. by destruct (expire_loop _ _ _ _). Qed.

Lemma expire_buckets s now :
  let nb := now / bucket_ms_ s in
  buckets_ (expire s now)
  = (fun b => if kept (expire_minimum BucketNum nb) nb b then b else empty_bucket)
      <$> buckets_ s.
Proof.
  simpl. unfold SlidingCounter.expire. rewrite <-(expire_loop_buckets _ _ _ (total_ s)).
  by destruct (expire_loop _ _ _ _).
Qed.

Lemma expire_total s now :
  let nb := now / bucket_ms_ s in
  is_u64 (total_ s) ->
  total_ (expire s now)
  = total_ s ⊖ zsum (count <$> filter
      (fun b => ~ kept (expire_minimum BucketNum nb) nb b) (buckets_ s)).
Proof.
  simpl. intros Ht. unfold SlidingCounter.expire.
  rewrite <-expire_loop_total by done. by destruct (expire_loop _ _ _ _).
Qed.

(** After [expire], every occupied bucket lies in the window. *)
Lemma expire_lookup s now i b :
  0 < bucket_ms_ s -> is_u64 now ->
  buckets_ (expire s now) !! i = Some b ->
  if occupied b
  then buckets_ s !! i = Some b /\ in_window (now / bucket_ms_ s) (bucket_id b)
  else b = empty_bucket \/ buckets_ s !! i = Some b.
Proof.
  intros Hw Hnow. rewrite expire_buckets, list_lookup_fmap.
  destruct (buckets_ s !! i) as [b0|] eqn:Hi; [|done]. csimpl. intros [= <-].
  destruct (kept _ _ b0) eqn:Hk; simpl; [|by left].
  rewrite kept_spec in Hk by (by apply div_u64).
  destruct (occupied b0); [split; [done|by apply Hk]|by right].
Qed.

Lemma ids_expire s now k :
  0 < bucket_ms_ s -> is_u64 now ->
  k ∈ ids (buckets_ s) -> in_window (now / bucket_ms_ s) k ->
  k ∈ ids (buckets_ (expire s now)).
Proof.
  intros Hw Hnow (i & b & Hi & Ho & <-)%elem_of_ids Hin. apply elem_of_ids.
  exists i, b. rewrite expire_buckets, list_lookup_fmap, Hi. csimpl.
  destruct (kept _ _ b) eqn:Hk; [done|].
  apply not_true_iff_false in Hk. destruct Hk. by rewrite kept_spec by (by apply div_u64).
Qed.

Lemma dropped_sum s log now :
  refines s log -> is_u64 now ->
  let nb := now / bucket_ms_ s in
  zsum (count <$> filter
      (fun b => ~ kept (expire_minimum BucketNum nb) nb b) (buckets_ s))
  = amount (filter (fun e => ~ in_window nb e.1) log).
Proof.
  intros R Hnow nb. pose proof (refines_partial_sum (fun b => ~ in_window nb b) s log R) as Hps.
  etrans; [|exact Hps].
  f_equal. f_equal. apply list_filter_iff. intros b.
  assert (is_u64 nb) by (apply div_u64; [apply R|done]).
  rewrite Is_true_true, kept_spec by done.
  destruct (occupied b); simpl; intuition congruence.
Qed.

Lemma expire_refines s log now :
  refines s log -> is_u64 now ->
  refines (expire s now) (live (now / bucket_ms_ s) log).
Proof.
  intros R Hnow. pose proof (rf_width _ _ _ R) as Hw.
  pose proof (amount_nonneg _ (rf_amounts _ _ _ R)) as H0.
  pose proof (rf_bound _ _ _ R) as H1.
  pose proof (amount_live_le BucketNum (now / bucket_ms_ s) _ (rf_amounts _ _ _ R)) as H2.
  split.
  - by rewrite expire_bucket_ms.
  - rewrite expire_buckets, length_fmap. apply R.
  - intros i b Hi. apply expire_lookup in Hi; [|done..].
    destruct (occupied b) eqn:Ho.
    + destruct Hi as [Hi Hin]. pose proof (rf_slot _ _ _ R i b Hi) as Hs.
      rewrite Ho in Hs. rewrite weight_live by done. tauto.
    + destruct Hi as [->|Hi]; [done|]. pose proof (rf_slot _ _ _ R i b Hi) as Hs.
      by rewrite Ho in Hs.
  - intros e [Hin He]%list_elem_of_filter. apply ids_expire; [done..| |done].
    by apply R.
  - apply Forall_filter_sub, R.
  - rewrite expire_total by (rewrite (rf_total _ _ _ R); unfold is_u64; lia).
    rewrite (dropped_sum _ _ _ R Hnow), (rf_total _ _ _ R).
    pose proof (zsum_filter_split snd (fun e : entry => in_window (now / bucket_ms_ s) e.1) log)
      as Hsplit.
    unfold amount, SlidingCounter.live in *. rewrite wrap64_small; [lia|].
    pose proof (amount_nonneg _ (Forall_filter_sub _ _ _ (rf_amounts _ _ _ R))
      : 0 <= amount (SlidingCounter.live BucketNum (now / bucket_ms_ s) log)) as H3.
    unfold is_u64, amount, SlidingCounter.live in *. lia.
  - lia.
Qed.

(** ** The operations on the list of live increments *)

(** [add] on the specification: drop what left the window, then record the
    event unless it lies in the future or outside the window. *)
Definition accepts (w now_ms event_ts_ms : Z) : bool :=
  bool_decide (event_ts_ms / w <= now_ms / w
               /\ now_ms / w - event_ts_ms / w < Z.of_nat BucketNum).

Definition spec_add (w : Z) (log : list entry) (event_ts_ms now_ms delta : Z)
    : list entry * bool :=
  let log' := live (now_ms / w) log in
  if accepts w now_ms event_ts_ms
  then ((event_ts_ms / w, delta) :: log', true)
  else (log', false).

Definition spec_sum (w : Z) (log : list entry) (now_ms : Z) : list entry * Z :=
  let log' := live (now_ms / w) log in (log', amount log').

(** Two buckets of one window that share a slot are the same bucket. *)
Lemma window_slot_inj nb a b :
  in_window nb a -> in_window nb b ->
  a mod Z.of_nat BucketNum = b mod Z.of_nat BucketNum -> a = b.
Proof.
  unfold SlidingCounter.in_window. intros Ha Hb Hmod.
  assert (Z.of_nat BucketNum <> 0) as Hz by lia.
  pose proof (Z.div_mod a _ Hz). pose proof (Z.div_mod b _ Hz).
  assert (a / Z.of_nat BucketNum = b / Z.of_nat BucketNum) by nia. nia.
Qed.

Lemma accepts_window w now ts :
  0 < w -> is_u64 now -> is_u64 ts -> accepts w now ts = true ->
  in_window (now / w) (ts / w).
Proof.
  unfold accepts. intros Hw Hn Ht Ha. bool_to_prop.
  pose proof (div_u64 ts w Hw Ht) as [? _]. unfold SlidingCounter.in_window. lia.
Qed.

(** The guard of [add], computed with wrap-around, is the guard of the
    specification. *)
Lemma add_guard w now ts :
  0 < w -> is_u64 now -> is_u64 ts ->
  ((now / w <? ts / w)
   || (Z.of_nat BucketNum <=? ((now / w) ⊖ (ts / w))))%bool = negb (accepts w now ts).
Proof.
  intros Hw Hn Ht. pose proof (div_u64 now w Hw Hn) as [? ?].
  pose proof (div_u64 ts w Hw Ht) as [? ?]. unfold accepts.
  destruct (now / w <? ts / w) eqn:E; bool_to_prop; simpl.
  - rewrite bool_decide_eq_false_2 by lia. done.
  - rewrite wrap64_small by (unfold is_u64; lia).
    destruct (Z.leb_spec (Z.of_nat BucketNum) (now / w - ts / w));
      [rewrite bool_decide_eq_false_2 by lia|rewrite bool_decide_eq_true_2 by lia]; done.
Qed.

(** Recording an increment in the slot of its bucket. *)
Lemma record_refines s log nb eb delta :
  refines s log -> in_window nb eb -> 0 <= eb -> 0 <= delta ->
  amount log + delta < two32 ->
  (forall i b, buckets_ s !! i = Some b -> occupied b = true -> in_window nb (bucket_id b)) ->
  let index := Z.to_nat (eb mod Z.of_nat BucketNum) in
  refines
    (s <| buckets_ := <[index := mkBucket eb (weight eb log + delta) true]> (buckets_ s) |>
       <| total_ := total_ s + delta |>)
    ((eb, delta) :: log).
Proof.
  intros R Hin Heb Hd Hbound Hwin index.
  pose proof (Z.mod_pos_bound eb (Z.of_nat BucketNum) ltac:(lia)) as Hmod.
  assert (index < length (buckets_ s))%nat as Hlt by (rewrite (rf_length _ _ _ R); lia).
  split; simpl.
  - apply R.
  - rewrite length_insert. apply R.
  - intros i b [(<- & Hb & _)|[Hne Hi]]%list_lookup_insert_Some.
    + subst b. simpl. rewrite weight_cons. simpl. rewrite decide_True by done.
      repeat split; try done; lia.
    + pose proof (rf_slot _ _ _ R i b Hi) as Hs. destruct (occupied b) eqn:Ho; [|done].
      destruct Hs as (Hp & Hm & Hc). rewrite weight_cons. simpl.
      rewrite decide_False; [done|]. intros ->. apply Hne. lia.
  - intros e [->|He]%elem_of_cons; simpl; apply elem_of_ids.
    + exists index, (mkBucket eb (weight eb log + delta) true).
      by rewrite list_lookup_insert_eq.
    + pose proof (rf_cover _ _ _ R e He) as (i & b & Hi & Ho & Hid)%elem_of_ids.
      destruct (decide (i = index)) as [->|Hne].
      * exists index, (mkBucket eb (weight eb log + delta) true).
        rewrite list_lookup_insert_eq by done. repeat split. simpl. rewrite <-Hid.
        pose proof (rf_slot _ _ _ R _ _ Hi) as Hs. rewrite Ho in Hs.
        eapply (window_slot_inj nb); [done|by eapply Hwin|]. lia.
      * exists i, b. by rewrite list_lookup_insert_ne.
  - constructor; [done|apply R].
  - rewrite amount_cons, (rf_total _ _ _ R). simpl. lia.
  - rewrite amount_cons. simpl. lia.
Qed.

Lemma weight_range b log :
  Forall (fun e : entry => 0 <= e.2) log -> 0 <= weight b log <= amount log.
Proof.
  intros H. split; [by apply amount_nonneg, Forall_filter_sub|].
  by apply (zsum_filter_le snd (fun e : entry => e.1 = b)).
Qed.

Lemma weight_zero s log nb eb i b :
  refines s log -> in_window nb eb -> i = Z.to_nat (eb mod Z.of_nat BucketNum) ->
  buckets_ s !! i = Some b ->
  (occupied b = true -> in_window nb (bucket_id b)) ->
  (negb (occupied b) || negb (bucket_id b =? eb))%bool = true ->
  count b = 0 /\ weight eb log = 0.
Proof.
  intros R Hin -> Hi Hw Htest.
  pose proof (Z.mod_pos_bound eb (Z.of_nat BucketNum) ltac:(lia)) as Hmod.
  pose proof (rf_slot _ _ _ R _ _ Hi) as Hs. destruct (occupied b) eqn:Ho.
  - exfalso. simpl in Htest. bool_to_prop. apply Htest.
    eapply (window_slot_inj nb); [by apply Hw|done|lia].
  - split; [done|]. unfold weight.
    destruct (filter (fun e => e.1 = eb) log) as [|e l] eqn:E; [done|exfalso].
    assert (e ∈ filter (fun e : entry => e.1 = eb) log) as [<- He]%list_elem_of_filter
      by (rewrite E; left).
    apply (rf_cover _ _ _ R) in He as (j & b' & Hj & Ho' & Hid)%elem_of_ids.
    pose proof (rf_slot _ _ _ R _ _ Hj) as Hs'. rewrite Ho' in Hs'.
    assert (j = Z.to_nat (e.1 mod Z.of_nat BucketNum)) as ->
      by (rewrite <-Hid; lia).
    rewrite Hi in Hj. congruence.
Qed.

Lemma add_refines s log ts now delta :
  refines s log -> is_u64 now -> is_u64 ts -> 0 <= delta ->
  amount log + delta < two32 ->
  let '(log', ok) := spec_add (bucket_ms_ s) log ts now delta in
  let '(s', ok') := add BucketNum s ts now delta in
  refines s' log' /\ ok' = ok /\ bucket_ms_ s' = bucket_ms_ s.
Proof.
  intros R Hn Ht Hd Hb. pose proof (rf_width _ _ _ R) as Hw.
  pose proof (expire_refines s log now R Hn) as R'.
  pose proof (amount_live_le BucketNum (now / bucket_ms_ s) _ (rf_amounts _ _ _ R)) as Hle.
  pose proof (expire_bucket_ms s now) as Hms.
  pose proof (expire_lookup s now) as Hlk.
  unfold spec_add, add. rewrite !Hms, add_guard by done.
  destruct (accepts _ _ _) eqn:Ha; simpl; [|done].
  pose proof (accepts_window _ _ _ Hw Hn Ht Ha) as Hin.
  set (s1 := expire s now) in *. set (nb := now / bucket_ms_ s) in *.
  set (log1 := live nb log) in *. set (eb := ts / bucket_ms_ s) in *.
  set (index := Z.to_nat _).
  pose proof (Z.mod_pos_bound eb (Z.of_nat BucketNum) ltac:(lia)) as Hmod.
  assert (index < length (buckets_ s1))%nat as Hlt
    by (rewrite (rf_length _ _ _ R'); unfold index; lia).
  destruct (lookup_lt_is_Some_2 _ _ Hlt) as [b Hi].
  rewrite (list_lookup_total_correct _ _ _ Hi).
  assert (forall j c, buckets_ s1 !! j = Some c -> occupied c = true ->
    in_window nb (bucket_id c)) as Hwin.
  { intros j c Hj Ho. specialize (Hlk j c Hw Hn Hj). rewrite Ho in Hlk. apply Hlk. }
  pose proof (record_refines s1 log1 nb eb delta R' Hin
    ltac:(apply div_u64; done) Hd ltac:(lia) Hwin) as Hrec. simpl in Hrec. fold index in Hrec.
  pose proof (weight_range eb log1 (rf_amounts _ _ _ R')) as Hwr.
  pose proof (rf_total _ _ _ R') as Htot.
  destruct (_ || _)%bool eqn:Htest.
  - destruct (weight_zero s1 log1 nb eb index b R' Hin eq_refl Hi (Hwin _ _ Hi) Htest)
      as [Hc0 Hw0].
    rewrite Hc0. rewrite Z.sub_0_r. simpl.
    rewrite (wrap64_small (total_ s1)), wrap64_small, wrap32_small
      by (unfold is_u64, is_u32; lia).
    rewrite Hw0 in Hrec. rewrite Z.add_0_l in Hrec. done.
  - apply orb_false_elim in Htest as [Ho Hid].
    apply negb_false_iff in Ho, Hid. apply Z.eqb_eq in Hid.
    pose proof (rf_slot _ _ _ R' _ _ Hi) as Hs. rewrite Ho in Hs.
    destruct Hs as (_ & _ & Hc). rewrite Hid in Hc.
    rewrite Hc, wrap32_small, wrap64_small by (unfold is_u64, is_u32; lia).
    unfold set, const. rewrite Hid, Ho. done.
Qed.

Lemma sum_refines s log now :
  refines s log -> is_u64 now ->
  let '(log', v) := spec_sum (bucket_ms_ s) log now in
  let '(s', v') := sum BucketNum s now in
  refines s' log' /\ v' = v /\ bucket_ms_ s' = bucket_ms_ s.
Proof.
  intros R Hn. simpl. pose proof (expire_refines s log now R Hn) as R'.
  split_and!; [done| |apply expire_bucket_ms].
  rewrite (rf_total _ _ _ R'). apply wrap32_small.
  pose proof (amount_nonneg _ (rf_amounts _ _ _ R')). pose proof (rf_bound _ _ _ R').
  unfold is_u32. lia.
Qed.
End Refinement.

(** ** Sequences of operations *)

Inductive op :=
| OpAdd (event_ts_ms now_ms delta : Z)
| OpSum (now_ms : Z).

Inductive reply :=
| RAdd (accepted : bool)
| RSum (value : Z).

Definition op_delta (o : op) : Z :=
  match o with OpAdd _ _ d => d | OpSum _ => 0 end.

(** The arguments are values of their C++ types. *)
Definition op_ok (o : op) : Prop :=
  match o with
  | OpAdd ts now d => is_u64 ts /\ is_u64 now /\ 0 <= d
  | OpSum now => is_u64 now
  end.

Definition step (N : nat) (s : SlidingCounter) (o : op) : SlidingCounter * reply :=
  match o with
  | OpAdd ts now d => let '(s', ok) := add N s ts now d in (s', RAdd ok)
  | OpSum now => let '(s', v) := sum N s now in (s', RSum v)
  end.

Definition spec_step (N : nat) (w : Z) (log : list entry) (o : op)
    : list entry * reply :=
  match o with
  | OpAdd ts now d => let '(l', ok) := spec_add N w log ts now d in (l', RAdd ok)
  | OpSum now => let '(l', v) := spec_sum N w log now in (l', RSum v)
  end.

(** Runs a list of operations and collects the replies. *)
Fixpoint run {S} (f : S -> op -> S * reply) (s : S) (ops : list op)
    : S * list reply :=
  match ops with
  | [] => (s, [])
  | o :: rest =>
      let '(s', r) := f s o in
      let '(s'', rs) := run f s' rest in (s'', r :: rs)
  end.

Lemma fresh_refines N w : 0 < w -> refines N (fresh N w) [].
Proof.
  intros Hw. split; simpl.
  - done.
  - apply length_replicate.
  - intros i b [-> _]%lookup_replicate_1. done.
  - by intros e ?%elem_of_nil.
  - constructor.
  - done.
  - done.
Qed.

Lemma make_refines N w s :
  0 < w -> make N w = Ok s -> refines N s [] /\ bucket_ms_ s = w.
Proof.
  unfold make. intros Hw. case_if; [done|]. intros [= <-].
  split; [by apply fresh_refines|done].
Qed.

Lemma step_refines N s log o :
  (0 < N)%nat -> Z.of_nat N < two64 ->
  refines N s log -> op_ok o -> amount log + op_delta o < two32 ->
  let '(l', r) := spec_step N (bucket_ms_ s) log o in
  let '(s', r') := step N s o in
  refines N s' l' /\ r' = r /\ bucket_ms_ s' = bucket_ms_ s
  /\ amount l' <= amount log + op_delta o.
Proof.
  intros HN HB R Hok Hb. pose proof (rf_amounts _ _ _ R) as Hnn.
  pose proof (fun nb => amount_live_le N nb log Hnn) as Hle. destruct o as [ts now d|now].
  - destruct Hok as (Ht & Hn & Hd). cbn [spec_step step op_delta] in *.
    pose proof (add_refines N HN HB s log ts now d R Hn Ht Hd Hb) as H.
    unfold spec_add in *. specialize (Hle (now / bucket_ms_ s)).
    destruct (accepts _ _ _ _); destruct (add _ _ _ _ _); destruct H as (? & -> & ?);
      split_and!; try done; rewrite ?amount_cons; simpl; lia.
  - cbn [spec_step step op_delta] in *. pose proof (sum_refines N HN HB s log now R Hok) as H.
    specialize (Hle (now / bucket_ms_ s)). unfold spec_sum in *.
    destruct (sum _ _ _). destruct H as (? & -> & ?). split_and!; try done. lia.
Qed.

Lemma run_refines N s log ops :
  (0 < N)%nat -> Z.of_nat N < two64 ->
  refines N s log -> Forall op_ok ops -> amount log + zsum (op_delta <$> ops) < two32 ->
  (run (step N) s ops).2 = (run (spec_step N (bucket_ms_ s)) log ops).2
  /\ refines N (run (step N) s ops).1 (run (spec_step N (bucket_ms_ s)) log ops).1.
Proof.
  intros HN HB R Hok. revert s log R. induction Hok as [|o ops Ho Hops IH];
    intros s log R Hb; [done|]. csimpl in Hb.
  assert (0 <= zsum (op_delta <$> ops)) as Hnn.
  { apply zsum_nonneg, Forall_fmap. eapply Forall_impl; [done|].
    intros [] ?; unfold op_ok in *; simpl; lia. }
  pose proof (step_refines N s log o HN HB R Ho ltac:(lia)) as H. csimpl.
  destruct (spec_step _ _ _ _) as [l' r] eqn:E1.
  destruct (step N s o) as [s' r'] eqn:E2. destruct H as (R' & -> & Hw & Hle).
  specialize (IH s' l' R' ltac:(lia)). rewrite Hw in IH.
  destruct (run _ s' ops), (run _ l' ops). simpl in *. destruct IH as [-> ?]. done.
Qed.

(** The ring of buckets implements the list of live increments: for every
    sequence of [add] and [sum] calls on a fresh counter, with clock readings
    in any order, every reply (the acceptance of an event, the value of a sum)
    is the reply of the list that records each accepted increment and forgets
    it exactly when its bucket leaves the window.  The increments of the
    sequence must add up to less than [2^32], the range of the counter. *)
Theorem counter_implements_live_log (N : nat) (w : Z) (s : SlidingCounter) (ops : list op) :
  (0 < N)%nat -> Z.of_nat N < two64 -> 0 < w -> make N w = Ok s ->
  Forall op_ok ops -> zsum (op_delta <$> ops) < two32 ->
  (run (step N) s ops).2 = (run (spec_step N w) [] ops).2.
Proof.
  intros HN HB Hw Hm Hok Hb. destruct (make_refines N w s Hw Hm) as [R <-].
  by apply run_refines.
Qed.

Definition sample_ops : list op :=
  [OpAdd 1000 1000 1; OpAdd 2000 6000 2; OpSum 6000; OpAdd 400000 6000 1;
   OpSum 303000; OpAdd 303000 303000 5; OpSum 1000].

Lemma counter_implements_live_log_witness :
  exists s, make 60 5000 = Ok s /\
    (run (step 60) s sample_ops).2
    = [RAdd true; RAdd true; RSum 3; RAdd false; RSum 0; RAdd true; RSum 0].
Proof.
  eexists. split; [reflexivity|].
  rewrite (counter_implements_live_log 60 5000 _ sample_ops);
    [vm_compute; reflexivity|lia|lia|lia|reflexivity| |vm_compute; reflexivity].
  repeat constructor; unfold is_u64; lia.
Defined.

(** ** Exactness under a clock that does not run backward *)

(** One call of [add]: event time, clock reading, increment. *)
Record event := mkEvent { ev_ts : Z; ev_now : Z; ev_delta : Z }.

Definition event_op (e : event) : op := OpAdd (ev_ts e) (ev_now e) (ev_delta e).

(** The increments that a window ending at [now_ms] must count. *)
Definition counted (N : nat) (w now_ms : Z) (e : event) : Prop :=
  accepts N w (ev_now e) (ev_ts e) = true
  /\ now_ms / w - ev_ts e / w < Z.of_nat N.

#[export] Instance counted_dec N w now e : Decision (counted N w now e).
Proof. unfold counted. apply _. Defined.

Lemma live_amount_step N w log t0 now_f e :
  0 < w -> (0 < N)%nat ->
  is_u64 (ev_ts e) -> is_u64 (ev_now e) ->
  Forall (fun x : entry => x.1 <= t0 / w) log ->
  t0 <= ev_now e -> ev_now e <= now_f ->
  let log' := (spec_step N w log (event_op e)).1 in
  Forall (fun x : entry => x.1 <= ev_now e / w) log'
  /\ amount (live N (now_f / w) log')
     = (if decide (counted N w now_f e) then ev_delta e else 0)
       + amount (live N (now_f / w) log).
Proof.
  intros Hw HN Ht Hn Hlog Ht0 Hf. simpl. unfold spec_add.
  pose proof (Z.div_le_mono t0 (ev_now e) w Hw Ht0) as D1.
  pose proof (Z.div_le_mono (ev_now e) now_f w Hw Hf) as D2.
  pose proof (div_u64 _ w Hw Ht) as [Hp _].
  assert (live N (now_f / w) (live N (ev_now e / w) log) = live N (now_f / w) log) as Hll.
  { apply list_filter_filter_imp. intros x Hx. unfold in_window.
    pose proof (proj1 (Forall_forall _ _) Hlog x Hx). simpl in *. lia. }
  assert (Forall (fun x : entry => x.1 <= ev_now e / w) (live N (ev_now e / w) log)).
  { apply Forall_filter_sub. eapply Forall_impl; [done|]. simpl. lia. }
  destruct (accepts N w (ev_now e) (ev_ts e)) eqn:Ha; simpl.
  - assert (counted N w now_f e <-> now_f / w - ev_ts e / w < Z.of_nat N) as Hcnt
      by (unfold counted; tauto).
    unfold accepts in Ha. bool_to_prop. destruct Ha as [Ha1 Ha2].
    split; [constructor; [done|done]|].
    unfold live at 1. rewrite filter_cons. fold (live N (now_f / w) (live N (ev_now e / w) log)).
    rewrite Hll. simpl.
    assert (in_window N (now_f / w) (ev_ts e / w) <-> counted N w now_f e)
      by (rewrite Hcnt; unfold in_window; lia).
    repeat case_decide; rewrite ?amount_cons; tauto || done.
  - split; [done|]. rewrite Hll. rewrite decide_False by (unfold counted; intros [? _]; congruence). done.
Qed.

Lemma run_live_amount N w now_f evs :
  0 < w -> (0 < N)%nat ->
  forall t0 log,
  Forall (fun e => is_u64 (ev_ts e) /\ is_u64 (ev_now e)) evs ->
  Forall (fun x : entry => x.1 <= t0 / w) log ->
  clock_from t0 (ev_now <$> evs) -> last_now t0 (ev_now <$> evs) <= now_f ->
  amount (live N (now_f / w) (run (spec_step N w) log (event_op <$> evs)).1)
  = zsum (ev_delta <$> filter (counted N w now_f) evs) + amount (live N (now_f / w) log).
Proof.
  intros Hw HN. induction evs as [|e evs IH]; intros t0 log Hu Hlog Hc Hf; [done|].
  inversion Hu as [|? ? [Hu1 Hu2] Hu']; subst. simpl in Hc, Hf. destruct Hc as [Hc1 Hc2].
  pose proof (clock_from_last _ _ Hc2).
  destruct (live_amount_step N w log t0 now_f e) as [Hlog' Hstep]; try done; [lia|].
  csimpl. specialize (IH (ev_now e) (spec_step N w log (event_op e)).1 Hu' Hlog' Hc2 Hf).
  destruct (spec_step N w log (event_op e)) as [log' r] eqn:E. simpl in *.
  unfold event_op in E; simpl in E. rewrite E.
  destruct (run (spec_step N w) log' _) as [lf rs] eqn:E2. simpl in *.
  rewrite IH, Hstep. rewrite filter_cons. case_decide; csimpl; lia.
Qed.

Lemma step_bucket_ms N s o : bucket_ms_ (step N s o).1 = bucket_ms_ s.
Proof.
  destruct o; simpl; unfold add, sum; [|apply expire_bucket_ms].
  rewrite expire_bucket_ms. destruct (_ || _)%bool; simpl; [apply expire_bucket_ms|].
  destruct (if (_ || _)%bool then _ else _); simpl. apply expire_bucket_ms.
Qed.

Lemma run_bucket_ms N s ops : bucket_ms_ (run (step N) s ops).1 = bucket_ms_ s.
Proof.
  revert s. induction ops as [|o ops IH]; intros s; [done|]. csimpl.
  pose proof (step_bucket_ms N s o) as Hst.
  destruct (step N s o) as [s' r]. specialize (IH s'). simpl in *.
  destruct (run (step N) s' ops). simpl in *. congruence.
Qed.

(** Exactness of the window: when the clock does not run backward, the sum
    read at [now_ms] after any sequence of [add] calls is the total of exactly
    those increments that were accepted (not in the future, not older than the
    window) and whose bucket is among the [N] buckets ending at [now_ms]. *)
Theorem counter_window_exact (N : nat) (w now_ms : Z) (s : SlidingCounter)
    (evs : list event) :
  (0 < N)%nat -> Z.of_nat N < two64 -> 0 < w -> make N w = Ok s ->
  Forall (fun e => is_u64 (ev_ts e) /\ is_u64 (ev_now e) /\ 0 <= ev_delta e) evs ->
  zsum (ev_delta <$> evs) < two32 ->
  clock_from 0 (ev_now <$> evs) -> last_now 0 (ev_now <$> evs) <= now_ms -> is_u64 now_ms ->
  (sum N (run (step N) s (event_op <$> evs)).1 now_ms).2
  = zsum (ev_delta <$> filter (counted N w now_ms) evs).
Proof.
  intros HN HB Hw Hm Hok Hb Hc Hl Hn.
  destruct (make_refines N w s Hw Hm) as [R Hms].
  assert (op_delta <$> (event_op <$> evs) = ev_delta <$> evs) as Hds
    by (rewrite <-list_fmap_compose; done).
  destruct (run_refines N s [] (event_op <$> evs) HN HB R) as [_ R'].
  { apply Forall_fmap. eapply Forall_impl; [done|]. unfold compose, op_ok. simpl. tauto. }
  { rewrite Hds. done. }
  pose proof (sum_refines N HN HB _ _ now_ms R' Hn) as Hs.
  pose proof (run_bucket_ms N s (event_op <$> evs)) as Hms'. rewrite Hms in Hms'.
  unfold spec_sum in Hs. rewrite Hms' in Hs.
  destruct (sum N _ now_ms) as [s' v]. destruct Hs as (_ & -> & _). simpl. rewrite Hms.
  rewrite (run_live_amount N w now_ms evs Hw HN 0 []); [simpl; unfold amount; simpl; lia|..];
    try done.
  eapply Forall_impl; [done|]. simpl. tauto.
Qed.

Definition sample_events : list event :=
  [mkEvent 1000 1000 1; mkEvent 299000 301000 1; mkEvent 500000 302000 1; mkEvent 303000 303000 1].

Lemma counter_window_exact_witness :
  exists s, make 60 5000 = Ok s /\
  (sum 60 (run (step 60) s (event_op <$> sample_events)).1 303000).2 = 2.
Proof.
  eexists. split; [reflexivity|].
  rewrite (counter_window_exact 60 5000 303000 _ sample_events);
    [vm_compute; reflexivity|lia|lia|lia|reflexivity| |vm_compute; reflexivity
    |simpl; lia|simpl; lia|unfold is_u64; lia].
  repeat constructor; unfold is_u64; simpl; lia.
Defined.

(** ** A counter and the history of its calls

    [counter_tracks] is what a client that owns a counter relies on: the sum at
    any later time is determined by the events recorded so far. *)

Definition window_total (N : nat) (w now_ms : Z) (evs : list event) : Z :=
  zsum (ev_delta <$> filter (counted N w now_ms) evs).

Definition event_ok (e : event) : Prop :=
  is_u64 (ev_ts e) /\ is_u64 (ev_now e) /\ 0 <= ev_delta e.

Inductive counter_tracks (N : nat) (w : Z) (s : SlidingCounter) (evs : list event)
    (now : Z) : Prop :=
| CounterTracks (log : list entry) :
    refines N s log ->
    bucket_ms_ s = w ->
    Forall (fun x : entry => x.1 <= now / w) log ->
    amount log <= zsum (ev_delta <$> evs) ->
    (forall now', now <= now' ->
      amount (live N (now' / w) log) = window_total N w now' evs) ->
    counter_tracks N w s evs now.

Section Tracks.
Context (N : nat) (w : Z) (HN : (0 < N)%nat) (HB : Z.of_nat N < two64) (Hw : 0 < w).

(** A fresh counter may replace one whose events have all left the window. *)
Lemma counter_tracks_fresh evs now :
  Forall event_ok evs ->
  (forall now', now <= now' -> window_total N w now' evs = 0) ->
  counter_tracks N w (fresh N w) evs now.
Proof.
  intros Hev Hnone. exists []; [by apply fresh_refines|done|done| |].
  - apply zsum_nonneg, Forall_fmap. eapply Forall_impl; [done|]. by intros e (_ & _ & ?).
  - intros now' Hle. by rewrite Hnone.
Qed.

Lemma counter_tracks_later s evs now now' :
  counter_tracks N w s evs now -> now <= now' -> counter_tracks N w s evs now'.
Proof.
  intros [log R Hms Hp Ha Ht] Hle. exists log; try done.
  - eapply Forall_impl; [done|]. simpl. intros x Hx.
    pose proof (Z.div_le_mono now now' w Hw Hle). lia.
  - intros now'' Hle'. apply Ht. lia.
Qed.

Lemma counter_tracks_add s evs now e :
  counter_tracks N w s evs now -> now <= ev_now e -> event_ok e ->
  zsum (ev_delta <$> evs ++ [e]) < two32 ->
  counter_tracks N w (add N s (ev_ts e) (ev_now e) (ev_delta e)).1 (evs ++ [e]) (ev_now e).
Proof.
  intros [log R Hms Hp Ha Ht] Hle (Hts & Hn & Hd) Hb.
  rewrite fmap_app, zsum_app in Hb. csimpl in Hb.
  pose proof (add_refines N HN HB s log (ev_ts e) (ev_now e) (ev_delta e) R Hn Hts Hd
    ltac:(lia)) as H.
  assert (forall now_f, ev_now e <= now_f ->
    let log' := (spec_add N w log (ev_ts e) (ev_now e) (ev_delta e)).1 in
    Forall (fun x : entry => x.1 <= ev_now e / w) log'
    /\ amount (live N (now_f / w) log')
       = (if decide (counted N w now_f e) then ev_delta e else 0)
         + amount (live N (now_f / w) log)) as Hstep.
  { intros now_f Hf. pose proof (live_amount_step N w log now now_f e Hw HN Hts Hn Hp Hle Hf) as Hs.
    unfold event_op in Hs. cbn [spec_step] in Hs.
    destruct (spec_add N w log _ _ _). exact Hs. }
  pose proof (amount_live_le N (ev_now e / w) log (rf_amounts _ _ _ R)) as Hll.
  assert (amount (spec_add N w log (ev_ts e) (ev_now e) (ev_delta e)).1
          <= amount log + ev_delta e) as Hle'.
  { unfold spec_add. destruct (accepts _ _ _ _); simpl; rewrite ?amount_cons; simpl; lia. }
  rewrite Hms in H.
  destruct (spec_add _ _ _ _ _ _) as [log' ok]. destruct (add _ _ _ _ _) as [s' ok'].
  destruct H as (R' & _ & Hms'). simpl in *. exists log'; try done.
  - apply (Hstep (ev_now e)). lia.
  - rewrite fmap_app, zsum_app. csimpl. lia.
  - intros now' Hle''. rewrite (proj2 (Hstep now' Hle'')). rewrite Ht by lia.
    unfold window_total. rewrite filter_app, fmap_app, zsum_app, filter_cons, filter_nil.
    case_decide; csimpl; lia.
Qed.

Lemma counter_tracks_sum s evs now now' :
  counter_tracks N w s evs now -> now <= now' -> is_u64 now' ->
  (sum N s now').2 = window_total N w now' evs
  /\ counter_tracks N w (sum N s now').1 evs now'.
Proof.
  intros [log R Hms Hp Ha Ht] Hle Hn.
  pose proof (sum_refines N HN HB s log now' R Hn) as H. unfold spec_sum in H.
  pose proof (amount_live_le N (now' / w) log (rf_amounts _ _ _ R)) as Hll.
  rewrite Hms in H. destruct (sum N s now') as [s' v]. destruct H as (R' & -> & Hms').
  simpl. split; [by apply Ht|]. exists (live N (now' / w) log); try done.
  - apply Forall_forall. intros x [Hx _]%list_elem_of_filter. unfold in_window in Hx. lia.
  - lia.
  - intros now'' Hle'. rewrite <-Ht by lia. f_equal. apply list_filter_filter_imp.
    intros x Hx. pose proof (proj1 (Forall_forall _ _) Hp x Hx). simpl in *.
    pose proof (Z.div_le_mono now now' w Hw Hle).
    pose proof (Z.div_le_mono now' now'' w Hw Hle'). unfold in_window. lia.
Qed.
End Tracks.
