(* ===== verification/PriorityQueue.v ===== *)
(** * PriorityQueue: [std::priority_queue]

    The standard library's priority queue as the source uses it, in
    [SlidingDistinct::expired_queue_] and [TimerCore::heap_].  The comparator
    [comp a b] is the C++ one: it holds when [a] must come out after [b].  The
    container is kept as the list in which elements come out, so [top] is the
    head, [pop] the tail and [push] an insertion; elements the comparator does
    not order come out in insertion order. *)

From S2P Require Import Prelude.
Open Scope Z_scope.

(** What the standard requires of the comparator: a strict weak ordering. *)
Class HeapOrder {A} (comp : A -> A -> bool) : Prop := {
  comp_asym a b : comp a b = true -> comp b a = false;
  comp_ntrans a b c : comp a b = false -> comp b c = false -> comp a c = false;
}.

Section Queue.
Context {A : Type} (comp : A -> A -> bool).

Fixpoint push (x : A) (q : list A) : list A :=
  match q with
  | [] => [x]
  | y :: r => if comp y x then x :: y :: r else y :: push x r
  end.

(** [a] may come out before [b]. *)
Definition before (a b : A) : Prop := comp a b = false.

Definition heap_ok (q : list A) : Prop := StronglySorted before q.

Lemma push_permutation x q : push x q ≡ₚ x :: q.
Proof.
  induction q as [|y q IH]; simpl; [done|]. destruct (comp y x); [done|].
  rewrite IH. apply Permutation_swap.
Qed.

Lemma elem_of_push x y q : y ∈ push x q <-> y = x \/ y ∈ q.
Proof. rewrite push_permutation. apply elem_of_cons. Qed.

Lemma length_push x q : length (push x q) = S (length q).
Proof. by rewrite push_permutation. Qed.

Context `{!HeapOrder comp}.

Lemma push_ok x q : heap_ok q -> heap_ok (push x q).
Proof.
  unfold heap_ok. induction 1 as [|y q Hq IH Hy]; simpl; [by repeat constructor|].
  destruct (comp y x) eqn:E.
  - constructor; [by constructor|]. apply comp_asym in E. constructor; [done|].
    eapply Forall_impl; [exact Hy|]. intros z Hz. by eapply comp_ntrans.
  - constructor; [done|]. apply Forall_forall. intros z [->|Hz]%elem_of_push; [done|].
    by apply (proj1 (Forall_forall _ _) Hy).
Qed.

Lemma heap_ok_tail x q : heap_ok (x :: q) -> heap_ok q.
Proof. intros [? _]%StronglySorted_inv. done. Qed.

Lemma top_before x q y : heap_ok (x :: q) -> y ∈ q -> before x y.
Proof.
  intros [_ Hf]%StronglySorted_inv Hy. by apply (proj1 (Forall_forall _ _) Hf).
Qed.
End Queue.

#[export] Hint Resolve push_ok : aegis.
