(* ===== verification/SlidingDistinct.v ===== *)
(** * SlidingDistinct: members seen in a sliding window

    Model of [include/aegisflow/feature/sliding_distinct.hpp]: a map from member
    to its latest bucket and a heap of (bucket, member) entries that expires
    lazily and may hold stale entries of one member.  The specification keeps
    the map alone and drops the members whose bucket left the window. *)

From S2P Require Import Prelude PriorityQueue.
Open Scope Z_scope.

Record Entry := mkEntry {
  bucket : Z;       (* uint64 *)
  member : string;
}.

#[export] Instance Entry_eq_dec : EqDecision Entry.
Proof. solve_decision. Defined.

(** [EarlierBucket]: the earliest bucket comes out first. *)
Definition EarlierBucket (left right : Entry) : bool := bucket right <? bucket left.

#[export] Instance EarlierBucket_order : HeapOrder EarlierBucket.
Proof.
  unfold EarlierBucket. split.
  - intros a b H. bool_to_prop. apply Z.ltb_ge. lia.
  - intros a b c H1 H2. bool_to_prop. apply Z.ltb_ge. lia.
Qed.

Record SlidingDistinct := mkSlidingDistinct {
  window_bucket_num_ : Z;
  bucket_ms_ : Z;
  max_members_ : Z;
  last_now_bucket_ : Z;
  clock_initialized_ : bool;
  last_seen_bucket_ : gmap string Z;
  expired_queue_ : list Entry;
}.

(** A tracker as the body of its constructor leaves it. *)
Definition fresh (window_ms bucket_ms max_members : Z) : SlidingDistinct :=
  mkSlidingDistinct (window_ms / bucket_ms) bucket_ms max_members 0 false ∅ [].

(** The constructor, with the configurations it rejects. *)
Definition make (window_ms bucket_ms max_members : Z) : result SlidingDistinct :=
  if ((window_ms =? 0) || (bucket_ms =? 0) || (window_ms <? bucket_ms)
      || negb (window_ms mod bucket_ms =? 0) || (max_members =? 0))%bool
  then Throw "invalid SlidingDistinct configuration"
  else Ok (fresh window_ms bucket_ms max_members).

Definition minValidBucket (s : SlidingDistinct) (now_bucket : Z) : Z :=
  if now_bucket <? window_bucket_num_ s then 0
  else (now_bucket ⊖ window_bucket_num_ s) ⊕ 1.

(** The [while] loop of [expire]: pops entries older than [minimum] and erases
    a member only when the popped entry is its latest one. *)
Fixpoint expire_loop (minimum : Z) (q : list Entry) (seen : gmap string Z)
    : list Entry * gmap string Z :=
  match q with
  | [] => ([], seen)
  | entry :: q' =>
      if bucket entry <? minimum then
        let seen' :=
          match seen !! member entry with
          | Some b => if b =? bucket entry then delete (member entry) seen else seen
          | None => seen
          end in
        expire_loop minimum q' seen'
      else (q, seen)
  end.

Definition expire (s : SlidingDistinct) (now_ms : Z) : SlidingDistinct :=
  let now_bucket := now_ms / bucket_ms_ s in
  let rolled_back := (clock_initialized_ s && (now_bucket <? last_now_bucket_ s))%bool in
  let seen := if rolled_back then ∅ else last_seen_bucket_ s in
  let queue := if rolled_back then [] else expired_queue_ s in
  let minimum := minValidBucket s now_bucket in
  let '(queue', seen') := expire_loop minimum queue seen in
  s <| clock_initialized_ := true |> <| last_now_bucket_ := now_bucket |>
    <| last_seen_bucket_ := seen' |> <| expired_queue_ := queue' |>.

Definition add (s0 : SlidingDistinct) (mem : string) (event_ts_ms now_ms : Z)
    : SlidingDistinct * bool :=
  let s := expire s0 now_ms in
  let event_bucket := event_ts_ms / bucket_ms_ s in
  let now_bucket := now_ms / bucket_ms_ s in
  if ((now_bucket <? event_bucket) || (event_bucket <? minValidBucket s now_bucket))%bool
  then (s, false)
  else
    match last_seen_bucket_ s !! mem with
    | Some found =>
        if event_bucket <=? found then (s, true)
        else (s <| expired_queue_ :=
                    push EarlierBucket (mkEntry event_bucket mem) (expired_queue_ s) |>
                <| last_seen_bucket_ := <[mem := event_bucket]> (last_seen_bucket_ s) |>,
              true)
    | None =>
        if max_members_ s <=? Z.of_nat (size (last_seen_bucket_ s)) then (s, false)
        else (s <| last_seen_bucket_ := <[mem := event_bucket]> (last_seen_bucket_ s) |>
                <| expired_queue_ :=
                    push EarlierBucket (mkEntry event_bucket mem) (expired_queue_ s) |>,
              true)
    end.

Definition count (s0 : SlidingDistinct) (now_ms : Z) : SlidingDistinct * Z :=
  let s := expire s0 now_ms in (s, wrap32 (Z.of_nat (size (last_seen_bucket_ s)))).

Definition activeMemberCount (s : SlidingDistinct) : Z :=
  Z.of_nat (size (last_seen_bucket_ s)).

(** ** Specification: the latest bucket of each live member *)

Record members := mkMembers {
  clock : option Z;            (* bucket of the last clock reading *)
  latest : gmap string Z;
}.

Section Spec.
Context (window width capacity : Z).

(** First live bucket of the window that ends at [now_bucket]. *)
Definition window_start (now_bucket : Z) : Z := Z.max 0 (now_bucket - window + 1).

Definition spec_expire (d : members) (now_ms : Z) : members :=
  let now_bucket := now_ms / width in
  let rolled_back := match clock d with Some c => now_bucket <? c | None => false end in
  mkMembers (Some now_bucket)
    (filter (fun kv => window_start now_bucket <= kv.2)
       (if rolled_back then ∅ else latest d)).

Definition spec_accepts (now_ms event_ts_ms : Z) : bool :=
  bool_decide (window_start (now_ms / width) <= event_ts_ms / width <= now_ms / width).

Definition spec_add (d0 : members) (mem : string) (event_ts_ms now_ms : Z)
    : members * bool :=
  let d := spec_expire d0 now_ms in
  let event_bucket := event_ts_ms / width in
  if spec_accepts now_ms event_ts_ms then
    match latest d !! mem with
    | Some b => (d <| latest := <[mem := Z.max b event_bucket]> (latest d) |>, true)
    | None =>
        if capacity <=? Z.of_nat (size (latest d)) then (d, false)
        else (d <| latest := <[mem := event_bucket]> (latest d) |>, true)
    end
  else (d, false).

Definition spec_count (d0 : members) (now_ms : Z) : members * Z :=
  let d := spec_expire d0 now_ms in (d, Z.of_nat (size (latest d))).
End Spec.

(** ** Invariant of the heap and the map *)

Record queue_ok (q : list Entry) (seen : gmap string Z) : Prop := {
  qo_heap : heap_ok EarlierBucket q;
  qo_nodup : NoDup q;
  qo_latest m b : seen !! m = Some b -> mkEntry b m ∈ q;
  qo_stale e : e ∈ q -> exists b, seen !! member e = Some b /\ bucket e <= b;
}.

Record distinct_ok (s : SlidingDistinct) : Prop := {
  do_width : 0 < bucket_ms_ s;
  do_window : 0 < window_bucket_num_ s < two64;
  do_capacity : 0 < max_members_ s < two32;
  do_queue : queue_ok (expired_queue_ s) (last_seen_bucket_ s);
  do_size : Z.of_nat (size (last_seen_bucket_ s)) <= max_members_ s;
  do_fresh : clock_initialized_ s = false -> last_seen_bucket_ s = ∅;
  do_past m b : last_seen_bucket_ s !! m = Some b -> 0 <= b <= last_now_bucket_ s;
}.

(** The specification state a [SlidingDistinct] stands for. *)
Definition abs (s : SlidingDistinct) : members :=
  mkMembers (if clock_initialized_ s then Some (last_now_bucket_ s) else None)
            (last_seen_bucket_ s).

Lemma before_bucket a b : before EarlierBucket a b <-> bucket a <= bucket b.
Proof. unfold before, EarlierBucket. by rewrite Z.ltb_ge. Qed.

Lemma Entry_eta e : mkEntry (bucket e) (member e) = e.
Proof. by destruct e. Qed.

(** Popping one expired entry keeps the invariant. *)
Lemma queue_ok_pop e q seen :
  queue_ok (e :: q) seen ->
  queue_ok q (match seen !! member e with
              | Some b => if b =? bucket e then delete (member e) seen else seen
              | None => seen
              end).
Proof.
  intros [Hh Hnd Hl Hs]. apply NoDup_cons in Hnd as [Hnin Hnd].
  destruct (Hs e ltac:(left)) as (b & Hb & Hle). rewrite Hb.
  split; [by eapply heap_ok_tail|done| |].
  - intros m b'. destruct (Z.eqb_spec b (bucket e)) as [->|Hne]; intros Hm.
    + apply lookup_delete_Some in Hm as [Hm Hb'].
      apply Hl in Hb' as [Heq|]%elem_of_cons; [|done].
      rewrite <-Heq in Hm. done.
    + apply Hl in Hm as Hin. apply elem_of_cons in Hin as [Heq|]; [|done].
      rewrite <-Heq in *. simpl in *. congruence.
  - intros e' He'. destruct (Hs e' ltac:(by right)) as (b' & Hb' & Hle').
    destruct (Z.eqb_spec b (bucket e)) as [->|Hne]; [|by exists b'].
    exists b'. rewrite lookup_delete_ne; [done|]. intros Hmem.
    pose proof (top_before _ _ _ _ Hh He') as Hord. rewrite before_bucket in Hord.
    assert (bucket e' = bucket e) as Hbu by (rewrite Hmem in Hb; simplify_eq; lia).
    apply Hnin. by rewrite <-(Entry_eta e), Hmem, <-Hbu, Entry_eta.
Qed.

(** Lazy expiry through the heap is eager filtering of the map. *)
Lemma expire_loop_spec minimum q seen :
  queue_ok q seen ->
  let '(q', seen') := expire_loop minimum q seen in
  queue_ok q' seen' /\ seen' = filter (fun kv => minimum <= kv.2) seen
  /\ Forall (fun e => minimum <= bucket e) q' /\ q' ⊆ q.
Proof.
  revert seen. induction q as [|e q IH]; intros seen Hok; simpl.
  - split_and!; [done| |done|done]. symmetry. apply map_filter_id. intros m b Hb.
    by apply (qo_latest _ _ Hok) in Hb as ?%elem_of_nil.
  - destruct (Z.ltb_spec (bucket e) minimum) as [Hlt|Hge].
    + pose proof (queue_ok_pop _ _ _ Hok) as Hpop. specialize (IH _ Hpop).
      destruct (expire_loop _ _ _) as [q' seen'].
      destruct IH as (H1 & -> & H3 & H4). split_and!; [done| |done|set_solver].
      destruct (qo_stale _ _ Hok e ltac:(left)) as (b & Hb & Hle). rewrite Hb.
      destruct (Z.eqb_spec b (bucket e)); [|done].
      apply map_filter_delete_not. intros y Hy. simpl. rewrite Hb in Hy. simplify_eq. lia.
    + assert (Forall (fun x => minimum <= bucket x) (e :: q)) as Hall.
      { constructor; [done|]. apply Forall_forall. intros x Hx.
        pose proof (top_before _ _ _ _ (qo_heap _ _ Hok) Hx) as Hord.
        rewrite before_bucket in Hord. lia. }
      split_and!; [done| |done|done]. symmetry. apply map_filter_id. intros m b Hb.
      apply (qo_latest _ _ Hok) in Hb.
      apply (proj1 (Forall_forall _ _) Hall) in Hb. done.
Qed.

Lemma minValidBucket_spec s nb :
  distinct_ok s -> is_u64 nb ->
  minValidBucket s nb = window_start (window_bucket_num_ s) nb.
Proof.
  intros Hok [H0 H1]. destruct (do_window _ Hok). unfold minValidBucket, window_start.
  case_if; [lia|]. rewrite wrap64_sub_add, wrap64_small by (unfold is_u64; lia). lia.
Qed.

Lemma queue_ok_empty : queue_ok [] ∅.
Proof.
  split; [constructor|constructor|by intros m b ?%lookup_empty_Some|by intros e ?%elem_of_nil].
Qed.

(** Fields that [expire] leaves alone. *)
Lemma expire_config s now :
  window_bucket_num_ (expire s now) = window_bucket_num_ s
  /\ bucket_ms_ (expire s now) = bucket_ms_ s
  /\ max_members_ (expire s now) = max_members_ s
  /\ clock_initialized_ (expire s now) = true
  /\ last_now_bucket_ (expire s now) = now / bucket_ms_ s.
Proof. unfold expire. by destruct (expire_loop _ _ _). Qed.

Lemma expire_spec s now :
  distinct_ok s -> is_u64 now ->
  distinct_ok (expire s now)
  /\ abs (expire s now) = spec_expire (window_bucket_num_ s) (bucket_ms_ s) (abs s) now
  /\ Forall (fun e => window_start (window_bucket_num_ s) (now / bucket_ms_ s) <= bucket e)
       (expired_queue_ (expire s now)).
Proof.
  intros Hok Hn. pose proof (do_width _ Hok) as Hw.
  pose proof (div_u64 now _ Hw Hn) as Hnb.
  unfold expire, abs, spec_expire. simpl.
  rewrite (minValidBucket_spec s _ Hok Hnb).
  set (nb := now / bucket_ms_ s) in *.
  set (rb := (clock_initialized_ s && (nb <? last_now_bucket_ s))%bool).
  assert (match (if clock_initialized_ s then Some (last_now_bucket_ s) else None) with
          | Some c => nb <? c | None => false end = rb) as ->
    by (unfold rb; by destruct (clock_initialized_ s)).
  assert (queue_ok (if rb then [] else expired_queue_ s)
            (if rb then ∅ else last_seen_bucket_ s)) as Hq
    by (destruct rb; [apply queue_ok_empty|apply Hok]).
  pose proof (expire_loop_spec (window_start (window_bucket_num_ s) nb) _ _ Hq) as Hl.
  destruct (expire_loop _ _ _) as [q' seen']. destruct Hl as (Hq' & -> & Hge & _).
  split_and!; [|done|done].
  split; simpl; try apply Hok; try done.
  - eapply Z.le_trans; [|apply (do_size _ Hok)].
    apply Nat2Z.inj_le. destruct rb.
    + by rewrite map_filter_empty, map_size_empty; lia.
    + apply map_subseteq_size, map_filter_subseteq.
  - intros m b [Hb Hm]%map_lookup_filter_Some. destruct rb eqn:Erb; [done|].
    pose proof (do_past _ Hok m b Hb) as Hp. split; [lia|].
    unfold rb in Erb. destruct (clock_initialized_ s) eqn:Ec; simpl in Erb.
    + bool_to_prop. lia.
    + rewrite (do_fresh _ Hok Ec) in Hb. done.
Qed.

(** Recording a newer bucket of a member keeps the heap invariant. *)
Lemma queue_ok_push q seen eb mem :
  queue_ok q seen ->
  (forall b, seen !! mem = Some b -> b < eb) ->
  queue_ok (push EarlierBucket (mkEntry eb mem) q) (<[mem := eb]> seen).
Proof.
  intros [Hh Hnd Hl Hs] Hnew. split.
  - auto with aegis typeclass_instances.
  - rewrite push_permutation. constructor; [|done]. intros Hin.
    destruct (Hs _ Hin) as (b & Hb & Hle). simpl in *. apply Hnew in Hb. lia.
  - intros m b [[<- <-]|[Hne Hb]]%lookup_insert_Some; apply elem_of_push; [by left|].
    right. by apply Hl.
  - intros e [->|He]%elem_of_push; simpl.
    + exists eb. by rewrite lookup_insert_eq.
    + destruct (Hs e He) as (b & Hb & Hle).
      destruct (decide (mem = member e)) as [->|Hne].
      * exists eb. rewrite lookup_insert_eq. split; [done|]. apply Hnew in Hb. lia.
      * exists b. by rewrite lookup_insert_ne.
Qed.

Lemma distinct_ok_record s eb mem :
  distinct_ok s -> clock_initialized_ s = true ->
  0 <= eb <= last_now_bucket_ s ->
  (forall b, last_seen_bucket_ s !! mem = Some b -> b < eb) ->
  (last_seen_bucket_ s !! mem = None ->
   Z.of_nat (size (last_seen_bucket_ s)) < max_members_ s) ->
  distinct_ok (s <| last_seen_bucket_ := <[mem := eb]> (last_seen_bucket_ s) |>
                 <| expired_queue_ :=
                     push EarlierBucket (mkEntry eb mem) (expired_queue_ s) |>).
Proof.
  intros Hok Hc Heb Hnew Hroom. split; simpl; try apply Hok.
  - apply queue_ok_push; [apply Hok|done].
  - destruct (last_seen_bucket_ s !! mem) as [b|] eqn:E.
    + rewrite map_size_insert_Some by done. apply Hok.
    + rewrite map_size_insert_None by done. specialize (Hroom eq_refl). lia.
  - congruence.
  - intros m b [[_ <-]|[_ Hb]]%lookup_insert_Some; [done|]. by apply (do_past _ Hok m).
Qed.

Lemma add_spec s mem ts now :
  distinct_ok s -> is_u64 now -> is_u64 ts ->
  let '(s', ok) := add s mem ts now in
  let '(d', ok') := spec_add (window_bucket_num_ s) (bucket_ms_ s) (max_members_ s)
                     (abs s) mem ts now in
  distinct_ok s' /\ abs s' = d' /\ ok = ok'
  /\ window_bucket_num_ s' = window_bucket_num_ s
  /\ bucket_ms_ s' = bucket_ms_ s /\ max_members_ s' = max_members_ s.
Proof.
  intros Hok Hn Ht. destruct (expire_spec s now Hok Hn) as (Hok1 & Habs & _).
  destruct (expire_config s now) as (E1 & E2 & E3 & E4 & E5).
  pose proof (do_width _ Hok) as Hw.
  pose proof (div_u64 ts _ Hw Ht) as Heb. pose proof (div_u64 now _ Hw Hn) as Hnb.
  unfold add, spec_add. rewrite <-Habs.
  assert (latest (abs (expire s now)) = last_seen_bucket_ (expire s now)) as El by done.
  rewrite El, E2, E3, minValidBucket_spec, E1 by done.
  assert (spec_accepts (window_bucket_num_ s) (bucket_ms_ s) now ts
          = negb ((now / bucket_ms_ s <? ts / bucket_ms_ s)
             || (ts / bucket_ms_ s <?
                 window_start (window_bucket_num_ s) (now / bucket_ms_ s)))%bool) as ->.
  { unfold spec_accepts. case_bool_decide as Hd; symmetry;
      [apply negb_true_iff, orb_false_iff|apply negb_false_iff, orb_true_iff];
      rewrite ?Z.ltb_ge, ?Z.ltb_lt; lia. }
  destruct (_ || _)%bool eqn:Hg; simpl; [by split_and!|].
  bool_to_prop. set (eb := ts / bucket_ms_ s) in *.
  destruct (last_seen_bucket_ (expire s now) !! mem) as [found|] eqn:Hf.
  - destruct (Z.leb_spec eb found) as [Hle|Hlt].
    + split_and!; try done. unfold abs, set. simpl. f_equal. rewrite insert_id; [done|].
      rewrite Hf. f_equal. lia.
    + split_and!; try done.
      * apply (distinct_ok_record (expire s now) eb mem); try done; [|congruence..].
        rewrite E5. unfold is_u64 in *. lia.
      * unfold abs, set. simpl. do 2 f_equal. lia.
  - destruct (Z.leb_spec (max_members_ s) (Z.of_nat (size (last_seen_bucket_ (expire s now)))));
      split_and!; try done.
    apply (distinct_ok_record (expire s now) eb mem); try done; [|congruence|].
    + rewrite E5. unfold is_u64 in *. lia.
    + intros _. rewrite E3. lia.
Qed.

Lemma count_spec s now :
  distinct_ok s -> is_u64 now ->
  let '(s', v) := count s now in
  let '(d', v') := spec_count (window_bucket_num_ s) (bucket_ms_ s) (abs s) now in
  distinct_ok s' /\ abs s' = d' /\ v = v'
  /\ window_bucket_num_ s' = window_bucket_num_ s
  /\ bucket_ms_ s' = bucket_ms_ s /\ max_members_ s' = max_members_ s.
Proof.
  intros Hok Hn. destruct (expire_spec s now Hok Hn) as (Hok1 & Habs & _).
  destruct (expire_config s now) as (E1 & E2 & E3 & E4 & E5).
  unfold count, spec_count. rewrite <-Habs. split_and!; try done. apply wrap32_small.
  pose proof (do_size _ Hok1). destruct (do_capacity _ Hok1). unfold is_u32. simpl. lia.
Qed.

Lemma make_ok window_ms bucket_ms max_members s :
  is_u64 window_ms -> is_u64 bucket_ms -> 0 <= max_members < two32 ->
  make window_ms bucket_ms max_members = Ok s ->
  distinct_ok s /\ abs s = mkMembers None ∅
  /\ window_bucket_num_ s = window_ms / bucket_ms
  /\ bucket_ms_ s = bucket_ms /\ max_members_ s = max_members.
Proof.
  unfold make, is_u64. intros Hw Hb Hm. destruct (_ || _)%bool eqn:E; [done|].
  bool_to_prop. intros [= <-]. split_and!; try done. split; simpl; try done; try lia.
  - split; [apply Z.div_str_pos; lia|].
    apply Z.div_lt_upper_bound; [lia|]. nia.
  - apply queue_ok_empty.
  - by rewrite map_size_empty; lia.
Qed.

(** ** Sequences of operations *)

Inductive op :=
| OpAdd (mem : string) (event_ts_ms now_ms : Z)
| OpCount (now_ms : Z).

Inductive reply :=
| RAdd (accepted : bool)
| RCount (value : Z).

Definition op_ok (o : op) : Prop :=
  match o with
  | OpAdd _ ts now => is_u64 ts /\ is_u64 now
  | OpCount now => is_u64 now
  end.

Definition step (s : SlidingDistinct) (o : op) : SlidingDistinct * reply :=
  match o with
  | OpAdd m ts now => let '(s', ok) := add s m ts now in (s', RAdd ok)
  | OpCount now => let '(s', v) := count s now in (s', RCount v)
  end.

Definition spec_step (window width capacity : Z) (d : members) (o : op)
    : members * reply :=
  match o with
  | OpAdd m ts now => let '(d', ok) := spec_add window width capacity d m ts now in (d', RAdd ok)
  | OpCount now => let '(d', v) := spec_count window width d now in (d', RCount v)
  end.

Fixpoint run {S} (f : S -> op -> S * reply) (s : S) (ops : list op) : S * list reply :=
  match ops with
  | [] => (s, [])
  | o :: rest =>
      let '(s', r) := f s o in
      let '(s'', rs) := run f s' rest in (s'', r :: rs)
  end.

Lemma step_spec s o :
  distinct_ok s -> op_ok o ->
  let '(s', r) := step s o in
  let '(d', r') := spec_step (window_bucket_num_ s) (bucket_ms_ s) (max_members_ s) (abs s) o in
  distinct_ok s' /\ abs s' = d' /\ r = r'
  /\ window_bucket_num_ s' = window_bucket_num_ s
  /\ bucket_ms_ s' = bucket_ms_ s /\ max_members_ s' = max_members_ s.
Proof.
  intros Hok Ho. destruct o as [m ts now|now]; simpl in Ho; cbn [step spec_step].
  - destruct Ho as [Ht Hn]. pose proof (add_spec s m ts now Hok Hn Ht) as H.
    destruct (add s m ts now), (spec_add _ _ _ _ _ _ _).
    destruct H as (? & ? & -> & ?). done.
  - pose proof (count_spec s now Hok Ho) as H.
    destruct (count s now), (spec_count _ _ _ _). destruct H as (? & ? & -> & ?). done.
Qed.

Lemma run_spec s ops :
  distinct_ok s -> Forall op_ok ops ->
  let d := run (spec_step (window_bucket_num_ s) (bucket_ms_ s) (max_members_ s)) (abs s) ops in
  let c := run step s ops in
  c.2 = d.2 /\ distinct_ok c.1 /\ abs c.1 = d.1
  /\ window_bucket_num_ c.1 = window_bucket_num_ s
  /\ bucket_ms_ c.1 = bucket_ms_ s /\ max_members_ c.1 = max_members_ s.
Proof.
  intros Hok Hops. revert s Hok. induction Hops as [|o ops Ho Hops IH]; intros s Hok; [done|].
  simpl. pose proof (step_spec s o Hok Ho) as H.
  destruct (step s o) as [s' r].
  destruct (spec_step _ _ _ _ _) as [d' r']. destruct H as (Hok' & <- & <- & E1 & E2 & E3).
  specialize (IH s' Hok'). rewrite E1, E2, E3 in IH. simpl in IH.
  destruct (run step s' ops), (run _ (abs s') ops). simpl in *.
  destruct IH as (-> & ? & ? & ? & ? & ?). split_and!; done || congruence.
Qed.

(** The heap of (bucket, member) entries with lazy, possibly stale expiry
    implements the map that keeps the latest bucket of each live member: for
    every sequence of [add] and [count] calls on a fresh instance, with clock
    readings in any order, the replies are those of the map, which empties
    itself when the clock runs backward, drops members whose latest bucket left
    the window, refreshes known members and refuses new ones at capacity. *)
Theorem distinct_implements_latest_map
    (window_ms bucket_ms max_members : Z) (s : SlidingDistinct) (ops : list op) :
  is_u64 window_ms -> is_u64 bucket_ms -> 0 <= max_members < two32 ->
  make window_ms bucket_ms max_members = Ok s -> Forall op_ok ops ->
  (run step s ops).2
  = (run (spec_step (window_ms / bucket_ms) bucket_ms max_members)
       (mkMembers None ∅) ops).2.
Proof.
  intros Hw Hb Hm Hmake Hops.
  destruct (make_ok _ _ _ _ Hw Hb Hm Hmake) as (Hok & <- & <- & <- & <-).
  by apply run_spec.
Qed.

Definition sample_ops : list op :=
  [OpAdd "alice" 1000 1000; OpAdd "bob" 2000 12000; OpAdd "alice" 11000 12000;
   OpAdd "carol" 12000 12000; OpCount 12000; OpCount 601000; OpCount 700000;
   OpAdd "dave" 700000 700000; OpCount 100].

Lemma distinct_implements_latest_map_witness :
  exists s, make 600000 10000 2 = Ok s /\
    (run step s sample_ops).2
    = [RAdd true; RAdd true; RAdd true; RAdd false; RCount 2; RCount 1; RCount 0;
       RAdd true; RCount 0].
Proof.
  eexists. split; [reflexivity|].
  rewrite (distinct_implements_latest_map 600000 10000 2 _ sample_ops);
    [vm_compute; reflexivity|unfold is_u64; lia|unfold is_u64; lia|lia|reflexivity|].
  repeat constructor; unfold is_u64; lia.
Defined.

(** ** Exactness under a clock that does not run backward *)

(** One call of [add]. *)
Record sighting := mkSighting { sg_member : string; sg_ts : Z; sg_now : Z }.

Definition sighting_op (e : sighting) : op := OpAdd (sg_member e) (sg_ts e) (sg_now e).

Section Exact.
Context (window width capacity : Z) (Hwidth : 0 < width).

Definition sighting_ok (e : sighting) : Prop := is_u64 (sg_ts e) /\ is_u64 (sg_now e).

(** The event was inside the window when it was added. *)
Definition admitted (e : sighting) : Prop :=
  spec_accepts window width (sg_now e) (sg_ts e) = true.

#[export] Instance admitted_dec e : Decision (admitted e).
Proof. unfold admitted. apply _. Defined.

(** The event is inside the window that ends at [now_ms]. *)
Definition recent (now_ms : Z) (e : sighting) : Prop :=
  admitted e /\ now_ms / width - sg_ts e / width < window.

#[export] Instance recent_dec now e : Decision (recent now e).
Proof. unfold recent. apply _. Defined.

(** The map after the events [past], the last one read at [now]. *)
Record tracks (d : members) (past : list sighting) (now : Z) : Prop := {
  tr_clock : clock d = None \/ clock d = Some (now / width);
  tr_kept e : e ∈ past -> recent now e ->
    exists b, latest d !! sg_member e = Some b /\ sg_ts e / width <= b;
  tr_source m b : latest d !! m = Some b ->
    exists e, e ∈ past /\ admitted e /\ sg_member e = m /\ sg_ts e / width = b
              /\ sg_ts e / width <= now / width;
}.

Lemma window_start_mono a b : a <= b -> window_start window a <= window_start window b.
Proof. unfold window_start. lia. Qed.

Lemma tracks_expire d past now now' :
  tracks d past now -> now <= now' -> is_u64 now' ->
  Forall sighting_ok past ->
  tracks (spec_expire window width d now') past now'
  /\ forall m b, latest (spec_expire window width d now') !! m = Some b ->
       window_start window (now' / width) <= b.
Proof.
  intros [Hc Hk Hs] Hle Hn Hpast.
  pose proof (Z.div_le_mono now now' width Hwidth Hle) as Hd.
  assert (match clock d with Some c => now' / width <? c | None => false end = false) as Hrb.
  { destruct Hc as [->| ->]; [done|]. apply Z.ltb_ge. lia. }
  unfold spec_expire. rewrite Hrb. split.
  - split; simpl; [by right| |].
    + intros e He [Hadm Hr]. destruct (Hk e He) as (b & Hb & Hge); [split; [done|lia]|].
      exists b. split; [|done]. apply map_lookup_filter_Some. split; [done|]. simpl.
      pose proof (proj1 (Forall_forall _ _) Hpast e He) as [Ht _].
      pose proof (div_u64 _ _ Hwidth Ht) as [? _]. unfold window_start. lia.
    + intros m b [Hb _]%map_lookup_filter_Some.
      destruct (Hs m b Hb) as (e & ? & ? & ? & ? & ?). exists e. split_and!; try done. lia.
  - simpl. intros m b [_ Hb]%map_lookup_filter_Some. done.
Qed.

(** The members the window must count. *)
Definition recent_members (now_ms : Z) (evs : list sighting) : gset string :=
  list_to_set (sg_member <$> filter (recent now_ms) evs).

Lemma elem_of_recent_members now m evs :
  m ∈ recent_members now evs <-> exists e, m = sg_member e /\ recent now e /\ e ∈ evs.
Proof.
  unfold recent_members. rewrite elem_of_list_to_set, list_elem_of_fmap.
  by setoid_rewrite list_elem_of_filter.
Qed.

(** After an expiry the map holds exactly the members of the window. *)
Lemma tracks_dom d past now :
  tracks d past now ->
  (forall m b, latest d !! m = Some b -> window_start window (now / width) <= b) ->
  dom (latest d) = recent_members now past.
Proof.
  intros Htr Hge. apply set_eq. intros m. rewrite elem_of_dom, elem_of_recent_members. split.
  - intros [b Hb]. pose proof (Hge m b Hb) as Hstart.
    apply (tr_source _ _ _ Htr) in Hb as (e & He & Hadm & Hm & Heb & _).
    exists e. split_and!; try done. split; [done|]. unfold window_start in Hstart. lia.
  - intros (e & -> & Hr & He). destruct (tr_kept _ _ _ Htr e He Hr) as (b & Hb & _).
    by exists b.
Qed.

(** When [e] is added, the members of the window, its own included, are
    within the capacity. *)
Definition fits (past : list sighting) (e : sighting) : Prop :=
  Z.of_nat (size (recent_members (sg_now e) (past ++ [e]))) <= capacity.

(** Each event of a sequence fits after the ones before it. *)
Fixpoint fits_run (past evs : list sighting) : Prop :=
  match evs with
  | [] => True
  | e :: rest => fits past e /\ fits_run (past ++ [e]) rest
  end.

Lemma admitted_recent e : admitted e -> recent (sg_now e) e.
Proof.
  intros Ha. split; [done|]. unfold admitted, spec_accepts, window_start in Ha.
  bool_to_prop. lia.
Qed.

Lemma tracks_room d past e :
  tracks d past (sg_now e) ->
  (forall m b, latest d !! m = Some b -> window_start window (sg_now e / width) <= b) ->
  admitted e -> fits past e -> latest d !! sg_member e = None ->
  Z.of_nat (size (latest d)) < capacity.
Proof.
  intros Htr Hge Hadm Hfit Hnone. eapply Z.lt_le_trans; [|exact Hfit].
  apply Nat2Z.inj_lt. rewrite <-size_dom.
  assert ({[sg_member e]} ∪ dom (latest d) ⊆ recent_members (sg_now e) (past ++ [e])) as Hincl.
  { intros x. rewrite (tracks_dom _ _ _ Htr Hge), elem_of_union, elem_of_singleton,
      !elem_of_recent_members.
    intros [->|(y & ? & ? & Hy)]; [exists e|exists y]; split_and!; try done;
      [by apply admitted_recent|apply elem_of_app; right; by left|apply elem_of_app; by left]. }
  apply subseteq_size in Hincl. rewrite size_union, size_singleton in Hincl; [lia|].
  apply disjoint_singleton_l. by rewrite not_elem_of_dom.
Qed.

Lemma tracks_app_l d past now e :
  tracks d past now -> ~ admitted e -> tracks d (past ++ [e]) now.
Proof.
  intros [Hc Hk Hs] Hno. split; [done| |].
  - intros x [Hx|Hx]%elem_of_app Hr; [by apply Hk|].
    apply list_elem_of_singleton in Hx as ->. by destruct Hr.
  - intros m b Hb. destruct (Hs m b Hb) as (x & ? & ?). exists x.
    split; [apply elem_of_app; by left|done].
Qed.

(** Recording the latest of the stored bucket and the event's bucket. *)
Lemma tracks_insert d past now e b :
  tracks d past now -> admitted e -> sg_ts e / width <= now / width ->
  b = match latest d !! sg_member e with
      | Some b0 => Z.max b0 (sg_ts e / width)
      | None => sg_ts e / width
      end ->
  tracks (d <| latest := <[sg_member e := b]> (latest d) |>) (past ++ [e]) now.
Proof.
  intros [Hc Hk Hs] Hadm Hpast Hb. split; [done| |]; simpl.
  - intros x [Hx|Hx]%elem_of_app Hr.
    + destruct (Hk x Hx Hr) as (b0 & Hb0 & Hge).
      destruct (decide (sg_member e = sg_member x)) as [Heq|Hne].
      * exists b. rewrite Heq, lookup_insert_eq. split; [done|].
        rewrite Heq, Hb0 in Hb. lia.
      * exists b0. by rewrite lookup_insert_ne.
    + apply list_elem_of_singleton in Hx as ->. exists b. rewrite lookup_insert_eq.
      split; [done|]. destruct (latest d !! sg_member e); lia.
  - intros m b' [[<- <-]|[Hne Hm]]%lookup_insert_Some.
    + assert (b = sg_ts e / width \/ latest d !! sg_member e = Some b) as [->|Hold].
      { destruct (latest d !! sg_member e) as [b0|]; [|by left].
        destruct (Z.max_spec b0 (sg_ts e / width)) as [[_ Hmax]|[_ Hmax]];
          rewrite Hb, Hmax; [by left|by right]. }
      * exists e. rewrite elem_of_app, list_elem_of_singleton. by split_and!; [right|..].
      * destruct (Hs _ _ Hold) as (x & ? & ?). exists x.
        by rewrite elem_of_app; split; [left|].
    + destruct (Hs m b' Hm) as (x & ? & ?). exists x.
      by rewrite elem_of_app; split; [left|].
Qed.

Lemma tracks_add d past now e :
  tracks d past now -> now <= sg_now e -> sighting_ok e -> Forall sighting_ok past ->
  fits past e ->
  tracks (spec_add window width capacity d (sg_member e) (sg_ts e) (sg_now e)).1
         (past ++ [e]) (sg_now e).
Proof.
  intros Htr Hle [Ht Hn] Hpast Hfit.
  destruct (tracks_expire d past now (sg_now e) Htr Hle Hn Hpast) as [Htr' Hge].
  unfold spec_add. set (d1 := spec_expire window width d (sg_now e)) in *.
  destruct (spec_accepts _ _ _ _) eqn:Ha.
  2:{ apply tracks_app_l; [done|]. unfold admitted. congruence. }
  assert (sg_ts e / width <= sg_now e / width) as Hold
    by (unfold spec_accepts in Ha; bool_to_prop; lia).
  destruct (latest d1 !! sg_member e) as [b0|] eqn:E.
  - apply tracks_insert; [done..|by rewrite E].
  - destruct (Z.leb_spec capacity (Z.of_nat (size (latest d1)))) as [Hfull|_].
    + pose proof (tracks_room d1 past e Htr' Hge Ha Hfit E). lia.
    + apply tracks_insert; [done..|by rewrite E].
Qed.

Lemma tracks_run d past now evs :
  tracks d past now -> Forall sighting_ok past -> Forall sighting_ok evs ->
  clock_from now (sg_now <$> evs) -> fits_run past evs ->
  tracks (run (spec_step window width capacity) d (sighting_op <$> evs)).1
         (past ++ evs) (last_now now (sg_now <$> evs)).
Proof.
  revert d past now. induction evs as [|e evs IH]; intros d past now Htr Hp He Hc Hfit.
  { by rewrite app_nil_r. }
  inversion He as [|? ? He1 He2]; subst. destruct Hc as [Hc1 Hc2]. destruct Hfit as [Hf1 Hf2].
  csimpl. pose proof (tracks_add d past now e Htr Hc1 He1 Hp Hf1) as Htr'.
  assert (Forall sighting_ok (past ++ [e])) as Hp' by (apply Forall_app; auto).
  rewrite (cons_middle e past evs), (assoc_L (++)).
  specialize (IH _ _ _ Htr' Hp' He2 Hc2 Hf2).
  cbn [spec_step sighting_op]. destruct (spec_add _ _ _ _ _ _ _) as [d' ok]. simpl in *.
  by destruct (run _ d' _).
Qed.

Lemma tracks_count d past now now' :
  tracks d past now -> now <= now' -> is_u64 now' -> Forall sighting_ok past ->
  (spec_count window width d now').2 = Z.of_nat (size (recent_members now' past)).
Proof.
  intros Htr Hle Hn Hp.
  destruct (tracks_expire d past now now' Htr Hle Hn Hp) as [Htr' Hge].
  unfold spec_count. by rewrite <-(tracks_dom _ _ _ Htr' Hge), size_dom.
Qed.
End Exact.

(** Exactness of the distinct count: when the clock does not run backward
    and no event finds more than [max_members] members in its window, itself
    included, the count read at [now_ms] is the number of different members with at least one event that
    was inside the window when it was added and still is at [now_ms]. *)
Theorem distinct_count_exact
    (window_ms bucket_ms max_members now_ms : Z) (s : SlidingDistinct)
    (evs : list sighting) :
  is_u64 window_ms -> is_u64 bucket_ms -> 0 <= max_members < two32 ->
  make window_ms bucket_ms max_members = Ok s ->
  Forall sighting_ok evs ->
  fits_run (window_ms / bucket_ms) bucket_ms max_members [] evs ->
  clock_from 0 (sg_now <$> evs) -> last_now 0 (sg_now <$> evs) <= now_ms -> is_u64 now_ms ->
  (count (run step s (sighting_op <$> evs)).1 now_ms).2
  = Z.of_nat (size (recent_members (window_ms / bucket_ms) bucket_ms now_ms evs)).
Proof.
  intros Hw Hb Hm Hmake Hevs Hfit Hc Hl Hn.
  destruct (make_ok _ _ _ _ Hw Hb Hm Hmake) as (Hok & Habs & E1 & E2 & E3).
  destruct (run_spec s (sighting_op <$> evs) Hok) as (_ & Hok' & Habs' & F1 & F2 & F3).
  { apply Forall_fmap. eapply Forall_impl; [exact Hevs|]. by intros e []. }
  pose proof (count_spec _ now_ms Hok' Hn) as Hcnt.
  pose proof (do_width _ Hok) as P1.
  rewrite F1, F2, Habs', Habs, E1, E2, E3 in *.
  assert (tracks (window_ms / bucket_ms) bucket_ms (mkMembers None ∅) [] 0) as Htr0.
  { split; [by left|by intros e ?%elem_of_nil|].
    simpl. by intros m b ?%lookup_empty_Some. }
  pose proof (tracks_run _ bucket_ms max_members P1 _ _ _ evs Htr0 ltac:(constructor)
    Hevs Hc Hfit) as Htr.
  pose proof (tracks_count _ _ P1 _ _ _ now_ms Htr Hl Hn Hevs) as Hfin.
  destruct (count _ now_ms), (spec_count _ _ _ _). simpl in *.
  destruct Hcnt as (_ & _ & -> & _). exact Hfin.
Qed.

Definition sample_sightings : list sighting :=
  [mkSighting "alice" 1000 1000; mkSighting "bob" 2000 12000;
   mkSighting "alice" 11000 12000; mkSighting "carol" 605000 605000].

Lemma distinct_count_exact_witness :
  exists s, make 600000 10000 5000 = Ok s /\
    (count (run step s (sighting_op <$> sample_sightings)).1 605000).2 = 2.
Proof.
  eexists. split; [reflexivity|].
  rewrite (distinct_count_exact 600000 10000 5000 605000 _ sample_sightings);
    [vm_compute; reflexivity|unfold is_u64; lia|unfold is_u64; lia|lia|reflexivity
    | |repeat split; vm_compute; discriminate|simpl; lia|simpl; lia|unfold is_u64; lia].
  repeat constructor; unfold is_u64; simpl; lia.
Defined.

(** ** Memory bounds *)

Lemma queue_length_bound q seen lo n :
  queue_ok q seen -> Forall (fun e => lo <= bucket e) q -> 0 <= n ->
  (forall m b, seen !! m = Some b -> b < lo + n) ->
  Z.of_nat (length q) <= Z.of_nat (size seen) * n.
Proof.
  intros Hok Hlo Hn Hhi.
  set (pairs := list_prod (elements (dom seen)) (seqZ lo n)).
  assert (Z.of_nat (length pairs) = Z.of_nat (size seen) * n) as <-.
  { unfold pairs. rewrite length_prod, <-size_dom. unfold size, set_size. simpl.
    rewrite length_seqZ. lia. }
  rewrite <-(length_fmap (fun e => (member e, bucket e)) q).
  apply Nat2Z.inj_le, submseteq_length, NoDup_submseteq.
  - apply NoDup_fmap_2; [|apply Hok]. intros [] []. simpl. congruence.
  - intros x (e & -> & He)%list_elem_of_fmap. unfold pairs.
    apply list_elem_of_In, in_prod; apply list_elem_of_In.
    + apply elem_of_elements, elem_of_dom.
      destruct (qo_stale _ _ Hok e He) as (b & Hb & _). by exists b.
    + apply elem_of_seqZ. destruct (qo_stale _ _ Hok e He) as (b & Hb & Hle).
      pose proof (proj1 (Forall_forall _ _) Hlo e He). apply Hhi in Hb. simpl in *. lia.
Qed.

(** Memory bounds, in every state that a sequence of calls reaches: the
    live members never exceed [max_members], and after the next clock reading
    the heap, stale entries included, holds at most one entry for each live
    member and bucket of the window. *)
Theorem distinct_memory_bounded
    (window_ms bucket_ms max_members now_ms : Z) (s : SlidingDistinct) (ops : list op) :
  is_u64 window_ms -> is_u64 bucket_ms -> 0 <= max_members < two32 ->
  make window_ms bucket_ms max_members = Ok s -> Forall op_ok ops -> is_u64 now_ms ->
  let t := expire (run step s ops).1 now_ms in
  activeMemberCount t <= max_members
  /\ size_of (expired_queue_ t) <= activeMemberCount t * (window_ms / bucket_ms).
Proof.
  intros Hw Hb Hm Hmake Hops Hn t.
  destruct (make_ok _ _ _ _ Hw Hb Hm Hmake) as (Hok & _ & E1 & E2 & E3).
  destruct (run_spec s ops Hok Hops) as (_ & Hok' & _ & F1 & F2 & F3).
  destruct (expire_spec _ now_ms Hok' Hn) as (Hokt & _ & Hge). fold t in Hokt, Hge.
  destruct (expire_config (run step s ops).1 now_ms) as (G1 & G2 & G3 & _ & G5).
  fold t in G1, G2, G3, G5. unfold activeMemberCount, size_of.
  split; [rewrite <-E3, <-F3, <-G3; apply (do_size _ Hokt)|].
  pose proof (do_window _ Hokt) as [Hwp _].
  rewrite F1, E1, F2, E2 in *.
  eapply queue_length_bound; [apply Hokt|exact Hge|lia|].
  intros m b Hlk. apply (do_past _ Hokt) in Hlk. rewrite G5 in Hlk.
  unfold window_start. lia.
Qed.

Lemma distinct_memory_bounded_witness :
  exists s, make 600000 10000 2 = Ok s /\
    let t := expire (run step s sample_ops).1 12000 in
    activeMemberCount t <= 2
    /\ size_of (expired_queue_ t) <= activeMemberCount t * (600000 / 10000).
Proof.
  eexists. split; [reflexivity|].
  apply (distinct_memory_bounded 600000 10000 2 12000 _ sample_ops);
    [unfold is_u64; lia|unfold is_u64; lia|lia|reflexivity| |unfold is_u64; lia].
  repeat constructor; unfold is_u64; lia.
Defined.

(** ** A tracker and the history of its calls

    [distinct_tracks] is what a client that owns a tracker relies on. *)

Record distinct_tracks (window width capacity : Z) (s : SlidingDistinct)
    (evs : list sighting) (now : Z) : Prop := {
  dt_ok : distinct_ok s;
  dt_window : window_bucket_num_ s = window;
  dt_width : bucket_ms_ s = width;
  dt_capacity : max_members_ s = capacity;
  dt_past : exists t, t <= now /\ tracks window width (abs s) evs t;
}.

Section Tracks.
Context (window width capacity : Z).
Context (Hwindow : 0 < window < two64) (Hwidth : 0 < width) (Hcap : 0 < capacity < two32).

(** A fresh tracker may replace one whose events have all left the window. *)
Lemma distinct_tracks_fresh window_ms evs now :
  window_ms / width = window ->
  (forall e, e ∈ evs -> ~ recent window width now e) ->
  distinct_tracks window width capacity (fresh window_ms width capacity) evs now.
Proof.
  intros Hms Hnone. split; try done.
  - split; simpl; try done; [by rewrite Hms|apply queue_ok_empty|].
    rewrite map_size_empty. lia.
  - exists now. split; [lia|]. split; simpl; [by left| |by intros m b ?%lookup_empty_Some].
    intros e He Hr. by apply Hnone in Hr.
Qed.

Lemma distinct_tracks_later s evs now now' :
  distinct_tracks window width capacity s evs now -> now <= now' ->
  distinct_tracks window width capacity s evs now'.
Proof. intros [? ? ? ? (t & ? & ?)] Hle. split; try done. exists t. split; [lia|done]. Qed.

Lemma distinct_tracks_add s evs now e :
  distinct_tracks window width capacity s evs now -> now <= sg_now e ->
  sighting_ok e -> Forall sighting_ok evs -> fits window width capacity evs e ->
  distinct_tracks window width capacity (add s (sg_member e) (sg_ts e) (sg_now e)).1
    (evs ++ [e]) (sg_now e).
Proof.
  intros [Hok Hwn Hwd Hcp (t & Ht & Htr)] Hle [Hts Hn] Hevs Hfit.
  pose proof (add_spec s (sg_member e) (sg_ts e) (sg_now e) Hok Hn Hts) as H.
  pose proof (tracks_add window width capacity Hwidth (abs s) evs t e
    Htr ltac:(lia) (conj Hts Hn) Hevs Hfit) as Htr'.
  rewrite Hwn, Hwd, Hcp in H.
  destruct (add s _ _ _) as [s' ok]. destruct (spec_add _ _ _ _ _ _ _) as [d' ok'].
  destruct H as (Hok' & Habs & _ & ? & ? & ?). simpl in *. split; try done.
  exists (sg_now e). split; [lia|]. by rewrite Habs.
Qed.

Lemma distinct_tracks_count s evs now now' :
  distinct_tracks window width capacity s evs now -> now <= now' -> is_u64 now' ->
  Forall sighting_ok evs ->
  (count s now').2 = Z.of_nat (size (recent_members window width now' evs))
  /\ distinct_tracks window width capacity (count s now').1 evs now'.
Proof.
  intros [Hok Hwn Hwd Hcp (t & Ht & Htr)] Hle Hn Hevs.
  pose proof (count_spec s now' Hok Hn) as H. rewrite Hwn, Hwd in H.
  pose proof (tracks_count window width Hwidth _ _ _ now' Htr ltac:(lia) Hn Hevs) as Hc.
  destruct (tracks_expire window width Hwidth _ _ _ now' Htr ltac:(lia) Hn Hevs) as [Htr' _].
  unfold spec_count in *. destruct (count s now') as [s' v].
  destruct H as (Hok' & Habs & -> & ? & ? & ?). simpl in *. split; [done|].
  split; try done; [congruence|]. exists now'. split; [lia|]. by rewrite Habs.
Qed.
End Tracks.
