(* ===== verification/Domain.v ===== *)
(** * Domain: the values the business layer exchanges

    Model of [include/aegisflow/domain/login.hpp]. *)

From S2P Require Import Prelude.
Open Scope Z_scope.

Inductive LoginResult := success | fail_.

Inductive LoginDecisionAction := pass | review | reject.

#[export] Instance LoginResult_eq_dec : EqDecision LoginResult.
Proof. solve_decision. Defined.
#[export] Instance LoginDecisionAction_eq_dec : EqDecision LoginDecisionAction.
Proof. solve_decision. Defined.

Record PolicyHit := mkPolicyHit {
  reason_code : string;
  hit_action : LoginDecisionAction;
  hit_risk_score : Z;       (* int32 *)
}.

Record LoginDecision := mkLoginDecision {
  attempt_id : Z;           (* uint64 *)
  user_id : string;
  action : LoginDecisionAction;
  risk_score : Z;           (* int32 *)
  policy_hits : list PolicyHit;
  cost_us : Z;              (* uint64 *)
}.

(** A validated login attempt; only the request validator builds one. *)
Record LoginAttempt := mkLoginAttempt {
  attemptId : Z;
  timestampMs : Z;
  userId : string;
  ip : string;
  deviceId : string;
  attempt_result : LoginResult;
}.

Definition is_fail (r : LoginResult) : bool :=
  match r with fail_ => true | success => false end.
