(* ===== verification/FeatureStore.v ===== *)
(** * FeatureStore: the sliding features of users, IPs and devices

    Model of [include/aegisflow/feature/{user_state,feature_store}.hpp] and
    [src/feature/feature_store.cpp].  Each of the three groups of state is an
    array of shards, a shard is a map, and the shard of a key is chosen by
    [std::hash], which is a parameter of the model.  A critical section of the
    source (one shard lock) is one update of one shard; the store is proved exact
    for whole requests and for interleaved sections. *)

From S2P Require Import Prelude Domain SlidingCounter SlidingDistinct.
Open Scope Z_scope.

Record LoginFeatureSnapshot := mkSnapshot {
  user_login_fail_5m : Z;
  ip_distinct_failed_user_10m : Z;
  device_distinct_account_10m : Z;
  ip_login_failures_10m : Z;
}.

Definition empty_snapshot : LoginFeatureSnapshot := mkSnapshot 0 0 0 0.

Record LoginUserState := mkUserState {
  login_fail_5m : SlidingCounter;
  user_last_seen_ms : Z;
}.

Record IpFeatureState := mkIpState {
  ip_distinct : SlidingDistinct;
  failures_10m : SlidingCounter;
  ip_last_seen_ms : Z;
}.

Record DeviceFeatureState := mkDeviceState {
  device_distinct : SlidingDistinct;
  device_last_seen_ms : Z;
}.

Record FeatureStateReclamationConfig := mkReclamation {
  user_ttl_ms : Z;
  ip_ttl_ms : Z;
  device_ttl_ms : Z;
}.

Definition default_reclamation : FeatureStateReclamationConfig :=
  mkReclamation (10 * 60 * 1000) (20 * 60 * 1000) (20 * 60 * 1000).

Record FeatureStoreStats := mkStats {
  user_state_count : Z;
  ip_state_count : Z;
  ip_distinct_member_count : Z;
  device_state_count : Z;
  device_distinct_member_count : Z;
}.

Definition kUserShardNum : nat := 64.
Definition kDistinctShardNum : nat := 64.
Definition kDistinctWindowMs : Z := 10 * 60 * 1000.
Definition kDistinctBucketMs : Z := 10 * 1000.
Definition kDistinctMaxMembers : Z := 5000.
Definition kIpFailureBucketMs : Z := 10 * 1000.
Definition kUserWindowMs : Z := 5 * 60 * 1000.
Definition kFeatureBuckets : nat := 60.
Definition kUserBucketMs : Z := 5000.

(** The member initialisers of the three state types. *)
Definition fresh_user_state : LoginUserState :=
  mkUserState (SlidingCounter.fresh kFeatureBuckets kUserBucketMs) 0.

Definition fresh_distinct : SlidingDistinct :=
  SlidingDistinct.fresh kDistinctWindowMs kDistinctBucketMs kDistinctMaxMembers.

Definition fresh_ip_state : IpFeatureState :=
  mkIpState fresh_distinct (SlidingCounter.fresh kFeatureBuckets kIpFailureBucketMs) 0.

Definition fresh_device_state : DeviceFeatureState := mkDeviceState fresh_distinct 0.

Record LoginFeatureStore := mkStore {
  reclamation_config_ : FeatureStateReclamationConfig;
  user_shards_ : list (gmap string LoginUserState);
  ip_shards_ : list (gmap string IpFeatureState);
  device_shards_ : list (gmap string DeviceFeatureState);
}.

Definition isWithinWindow (event_ts_ms now_ms window_ms : Z) : bool :=
  (event_ts_ms <=? now_ms) && ((now_ms ⊖ event_ts_ms) <? window_ms).

Definition isExpired (last_seen_ms now_ms ttl_ms : Z) : bool :=
  (last_seen_ms <=? now_ms) && (ttl_ms <=? (now_ms ⊖ last_seen_ms)).

Definition isValidReclamationConfig (config : FeatureStateReclamationConfig) : bool :=
  (kUserWindowMs <=? user_ttl_ms config)
  && (kDistinctWindowMs <=? ip_ttl_ms config)
  && (kDistinctWindowMs <=? device_ttl_ms config).

Definition validateReclamationConfig (config : FeatureStateReclamationConfig)
    : result unit :=
  if user_ttl_ms config <? kUserWindowMs then Throw "user state TTL shorter than the window"
  else if ((ip_ttl_ms config <? kDistinctWindowMs)
           || (device_ttl_ms config <? kDistinctWindowMs))%bool
  then Throw "distinct state TTL shorter than the window"
  else Ok tt.

(** The constructor. *)
Definition make (config : FeatureStateReclamationConfig) : result LoginFeatureStore :=
  match validateReclamationConfig config with
  | Throw e => Throw e
  | Ok _ => Ok (mkStore config (replicate kUserShardNum ∅) (replicate kDistinctShardNum ∅)
                  (replicate kDistinctShardNum ∅))
  end.

Section Store.
Context (hash : string -> Z).        (* std::hash<std::string> *)

Definition shardIndex (key : string) (shard_num : nat) : nat :=
  Z.to_nat (hash key mod Z.of_nat shard_num).

(** [shards_[shardIndex(key)].find(key)] *)
Definition shard_find {A} (n : nat) (shards : list (gmap string A)) (key : string)
    : option A :=
  (shards !!! shardIndex key n) !! key.

(** The state of [key] in its shard becomes [v]. *)
Definition shard_store {A} (n : nat) (shards : list (gmap string A)) (key : string) (v : A)
    : list (gmap string A) :=
  alter (fun m => <[key := v]> m) (shardIndex key n) shards.

(** [find], then [try_emplace] of the default state when [create] holds. *)
Definition find_or_create {A} (n : nat) (shards : list (gmap string A)) (key : string)
    (create : bool) (dflt : A) : option A :=
  match shard_find n shards key with
  | Some st => Some st
  | None => if create then Some dflt else None
  end.

Definition buildUserSnapshot (state : LoginUserState) (now_ms : Z)
    (out : LoginFeatureSnapshot) : LoginUserState * LoginFeatureSnapshot :=
  let '(c, v) := SlidingCounter.sum kFeatureBuckets (login_fail_5m state) now_ms in
  (state <| login_fail_5m := c |>, out <| user_login_fail_5m := v |>).

Definition updateUser (st : LoginFeatureStore) (attempt : LoginAttempt) (now_ms : Z)
    (out : LoginFeatureSnapshot) : LoginFeatureStore * LoginFeatureSnapshot :=
  let can_update_failure :=
    is_fail (attempt_result attempt)
    && isWithinWindow (timestampMs attempt) now_ms kUserWindowMs in
  match find_or_create kUserShardNum (user_shards_ st) (userId attempt) can_update_failure
          fresh_user_state with
  | None => (st, out)
  | Some state =>
      let state :=
        if can_update_failure
        then state <| login_fail_5m :=
                 (SlidingCounter.add kFeatureBuckets (login_fail_5m state)
                    (timestampMs attempt) now_ms 1).1 |>
               <| user_last_seen_ms := now_ms |>
        else state in
      let '(state, out) := buildUserSnapshot state now_ms out in
      (st <| user_shards_ := shard_store kUserShardNum (user_shards_ st) (userId attempt) state |>, out)
  end.

Definition updateIp (st : LoginFeatureStore) (attempt : LoginAttempt) (now_ms : Z)
    (out : LoginFeatureSnapshot) : LoginFeatureStore * LoginFeatureSnapshot :=
  let can_update_failure :=
    is_fail (attempt_result attempt)
    && isWithinWindow (timestampMs attempt) now_ms kDistinctWindowMs in
  match find_or_create kDistinctShardNum (ip_shards_ st) (ip attempt) can_update_failure
          fresh_ip_state with
  | None => (st, out)
  | Some state =>
      let state :=
        if can_update_failure
        then state <| ip_distinct :=
                 (SlidingDistinct.add (ip_distinct state) (userId attempt)
                    (timestampMs attempt) now_ms).1 |>
               <| failures_10m :=
                 (SlidingCounter.add kFeatureBuckets (failures_10m state)
                    (timestampMs attempt) now_ms 1).1 |>
               <| ip_last_seen_ms := now_ms |>
        else state in
      let '(d, distinct_count) := SlidingDistinct.count (ip_distinct state) now_ms in
      let '(c, failures) := SlidingCounter.sum kFeatureBuckets (failures_10m state) now_ms in
      let state := state <| ip_distinct := d |> <| failures_10m := c |> in
      (st <| ip_shards_ := shard_store kDistinctShardNum (ip_shards_ st) (ip attempt) state |>,
       out <| ip_distinct_failed_user_10m := distinct_count |>
           <| ip_login_failures_10m := failures |>)
  end.

Definition updateDevice (st : LoginFeatureStore) (attempt : LoginAttempt) (now_ms : Z)
    (out : LoginFeatureSnapshot) : LoginFeatureStore * LoginFeatureSnapshot :=
  let within := isWithinWindow (timestampMs attempt) now_ms kDistinctWindowMs in
  match find_or_create kDistinctShardNum (device_shards_ st) (deviceId attempt) within
          fresh_device_state with
  | None => (st, out)
  | Some state =>
      let state :=
        if within
        then state <| device_distinct :=
                 (SlidingDistinct.add (device_distinct state) (userId attempt)
                    (timestampMs attempt) now_ms).1 |>
               <| device_last_seen_ms := now_ms |>
        else state in
      let '(d, accounts) := SlidingDistinct.count (device_distinct state) now_ms in
      let state := state <| device_distinct := d |> in
      (st <| device_shards_ := shard_store kDistinctShardNum (device_shards_ st) (deviceId attempt) state |>,
       out <| device_distinct_account_10m := accounts |>)
  end.

Definition updateAndGet (st : LoginFeatureStore) (attempt : LoginAttempt) (now_ms : Z)
    : LoginFeatureStore * LoginFeatureSnapshot :=
  let '(st, out) := updateUser st attempt now_ms empty_snapshot in
  let '(st, out) := updateIp st attempt now_ms out in
  updateDevice st attempt now_ms out.
End Store.

(** The erase loop over one shard: keeps the states that are not expired. *)
Definition reclaim_shard {A} (last_seen : A -> Z) (now_ms ttl_ms : Z)
    (m : gmap string A) : gmap string A :=
  filter (fun kv => isExpired (last_seen kv.2) now_ms ttl_ms = false) m.

Definition reclaimColdStates (st : LoginFeatureStore) (now_ms : Z) : LoginFeatureStore :=
  let config := reclamation_config_ st in
  st <| user_shards_ :=
       reclaim_shard user_last_seen_ms now_ms (user_ttl_ms config) <$> user_shards_ st |>
     <| ip_shards_ :=
       reclaim_shard ip_last_seen_ms now_ms (ip_ttl_ms config) <$> ip_shards_ st |>
     <| device_shards_ :=
       reclaim_shard device_last_seen_ms now_ms (device_ttl_ms config) <$> device_shards_ st |>.

(** Sums over all shards, under each shard's lock in turn. *)
Definition shard_sizes {A} (shards : list (gmap string A)) : Z :=
  zsum ((fun m => Z.of_nat (size m)) <$> shards).

Definition shard_members {A} (distinct : A -> SlidingDistinct)
    (shards : list (gmap string A)) : Z :=
  zsum ((fun m : gmap string A =>
           zsum ((fun kv => activeMemberCount (distinct kv.2)) <$> map_to_list m)) <$> shards).

Definition currentStats (st : LoginFeatureStore) : FeatureStoreStats :=
  mkStats (wrap64 (shard_sizes (user_shards_ st)))
          (wrap64 (shard_sizes (ip_shards_ st)))
          (wrap64 (shard_members ip_distinct (ip_shards_ st)))
          (wrap64 (shard_sizes (device_shards_ st)))
          (wrap64 (shard_members device_distinct (device_shards_ st))).

(** ** The shards as one map *)

Section Shards.
Context (hash : string -> Z) (n : nat) (Hn : (0 < n)%nat).
Context {A : Type}.
Implicit Types (shards : list (gmap string A)).

Lemma shardIndex_lt key : (shardIndex hash key n < n)%nat.
Proof.
  unfold shardIndex. pose proof (Z.mod_pos_bound (hash key) (Z.of_nat n) ltac:(lia)). lia.
Qed.

Lemma shard_find_store shards k v k' :
  length shards = n ->
  shard_find hash n (shard_store hash n shards k v) k'
  = if decide (k = k') then Some v else shard_find hash n shards k'.
Proof.
  intros Hlen. unfold shard_find, shard_store.
  pose proof (shardIndex_lt k) as Hk.
  rewrite list_lookup_total_alter.
  destruct (decide (shardIndex hash k n = shardIndex hash k' n)) as [E|E].
  - rewrite decide_True by (split; [done|lia]). rewrite <-E. apply lookup_insert.
  - rewrite decide_False by tauto. by rewrite decide_False by congruence.
Qed.

(** What the shards hold, key by key. *)
Definition shards_inv (cell : string -> option A -> Prop) shards : Prop :=
  length shards = n /\ forall k, cell k (shard_find hash n shards k).

Lemma shards_inv_mono (cell cell' : string -> option A -> Prop) shards :
  (forall k o, cell k o -> cell' k o) -> shards_inv cell shards -> shards_inv cell' shards.
Proof. intros H [Hl Hc]. split; auto. Qed.

Lemma shards_inv_store (cell cell' : string -> option A -> Prop) shards k v :
  shards_inv cell shards -> cell' k (Some v) ->
  (forall k' o, k' <> k -> cell k' o -> cell' k' o) ->
  shards_inv cell' (shard_store hash n shards k v).
Proof.
  intros [Hl Hc] Hk Hother. split.
  - unfold shard_store. by rewrite length_alter.
  - intros k'. rewrite shard_find_store by done. case_decide; [by subst|]. by apply Hother.
Qed.

(** What a lookup sees after a reclamation round. *)
Lemma shard_find_reclaim shards (last_seen : A -> Z) now ttl k :
  length shards = n ->
  shard_find hash n (reclaim_shard last_seen now ttl <$> shards) k
  = match shard_find hash n shards k with
    | Some s => if isExpired (last_seen s) now ttl then None else Some s
    | None => None
    end.
Proof.
  intros Hl. unfold shard_find. assert (shardIndex hash k n < length shards)%nat as Hk
    by (rewrite Hl; apply shardIndex_lt).
  destruct (lookup_lt_is_Some_2 _ _ Hk) as [m Hm].
  rewrite (list_lookup_total_correct _ _ m Hm).
  rewrite (list_lookup_total_correct _ _ (reclaim_shard last_seen now ttl m))
    by (by rewrite list_lookup_fmap, Hm).
  unfold reclaim_shard. rewrite map_lookup_filter.
  destruct (m !! k) as [v|] eqn:E; [|done]. simpl.
  destruct (isExpired (last_seen v) now ttl) eqn:Ex.
  - by rewrite option_guard_False by (simpl; congruence).
  - by rewrite option_guard_True.
Qed.

Lemma shards_inv_reclaim (cell : string -> option A -> Prop) shards (last_seen : A -> Z) now ttl :
  shards_inv cell shards ->
  (forall k v, cell k (Some v) -> isExpired (last_seen v) now ttl = true -> cell k None) ->
  shards_inv cell (reclaim_shard last_seen now ttl <$> shards).
Proof.
  intros [Hl Hc] Hgone. split; [by rewrite length_fmap|]. intros k. specialize (Hc k).
  rewrite shard_find_reclaim by done. destruct (shard_find hash n shards k); [|done].
  case_if; [by eapply Hgone|done].
Qed.

(** The same for the round of a single shard. *)
Lemma shards_inv_reclaim_at (cell : string -> option A -> Prop) shards (last_seen : A -> Z)
    now ttl i :
  shards_inv cell shards ->
  (forall k v, cell k (Some v) -> isExpired (last_seen v) now ttl = true -> cell k None) ->
  shards_inv cell (alter (reclaim_shard last_seen now ttl) i shards).
Proof.
  intros Hinv Hgone. destruct (shards_inv_reclaim cell shards last_seen now ttl Hinv Hgone)
    as [_ Hall]. destruct Hinv as [Hl Hc]. split; [by rewrite length_alter|]. intros k.
  specialize (Hall k). specialize (Hc k). unfold shard_find in *.
  assert (shardIndex hash k n < length shards)%nat as Hk by (rewrite Hl; apply shardIndex_lt).
  rewrite list_lookup_total_alter. case_decide as Hi; [destruct Hi as [-> _]|done].
  destruct (lookup_lt_is_Some_2 _ _ Hk) as [m Hm].
  rewrite (list_lookup_total_correct _ _ m Hm).
  by rewrite (list_lookup_total_correct _ _ (reclaim_shard last_seen now ttl m)) in Hall
    by (by rewrite list_lookup_fmap, Hm).
Qed.

Lemma shards_inv_init (cell : string -> option A -> Prop) :
  (forall k, cell k None) -> shards_inv cell (replicate n ∅).
Proof.
  intros H. split; [apply length_replicate|]. intros k. unfold shard_find.
  rewrite lookup_total_replicate_2 by apply shardIndex_lt. by rewrite lookup_empty.
Qed.
End Shards.

(** ** The specification: features as functions of the request history *)

(** A request and the clock reading it was evaluated at. *)
Abbreviation request := (LoginAttempt * Z)%type.

Definition request_ok (x : request) : Prop := is_u64 (timestampMs x.1) /\ is_u64 x.2.

Definition fails_within (window : Z) (x : request) : Prop :=
  is_fail (attempt_result x.1) = true
  /\ isWithinWindow (timestampMs x.1) x.2 window = true.

Definition arrives_within (window : Z) (x : request) : Prop :=
  isWithinWindow (timestampMs x.1) x.2 window = true.

#[export] Instance fails_within_dec window x : Decision (fails_within window x).
Proof. unfold fails_within. apply _. Defined.
#[export] Instance arrives_within_dec window x : Decision (arrives_within window x).
Proof. unfold arrives_within. apply _. Defined.

Definition as_event (x : request) : event := mkEvent (timestampMs x.1) x.2 1.
Definition as_sighting (x : request) : sighting :=
  mkSighting (userId x.1) (timestampMs x.1) x.2.

(** The requests of [hist] that feed the state of one key. *)
Definition user_requests (u : string) (hist : list request) : list request :=
  filter (fun x => userId x.1 = u /\ fails_within kUserWindowMs x) hist.
Definition ip_requests (a : string) (hist : list request) : list request :=
  filter (fun x => ip x.1 = a /\ fails_within kDistinctWindowMs x) hist.
Definition device_requests (d : string) (hist : list request) : list request :=
  filter (fun x => deviceId x.1 = d /\ arrives_within kDistinctWindowMs x) hist.

Definition total_of (w now : Z) (xs : list request) : Z :=
  window_total kFeatureBuckets w now (as_event <$> xs).

Definition distinct_of (now : Z) (xs : list request) : Z :=
  Z.of_nat (size (recent_members 60 kDistinctBucketMs now (as_sighting <$> xs))).

(** The features of an attempt, as counts over a history that ends with it. *)
Definition exact_snapshot (hist : list request) (a : LoginAttempt) (now : Z)
    : LoginFeatureSnapshot :=
  mkSnapshot (total_of kUserBucketMs now (user_requests (userId a) hist))
             (distinct_of now (ip_requests (ip a) hist))
             (distinct_of now (device_requests (deviceId a) hist))
             (total_of kIpFailureBucketMs now (ip_requests (ip a) hist)).

(** The history is within the ranges of the counters. *)
Record hist_ok (hist : list request) : Prop := {
  ho_requests : Forall request_ok hist;
  ho_length : size_of hist < two32;
}.

(** The windows of the last request of [hist], [a] at [now], do not overflow:
    its IP and its device each see at most [kDistinctMaxMembers] different
    accounts within their ten minutes. *)
Definition members_fit (hist : list request) (a : LoginAttempt) (now : Z) : Prop :=
  distinct_of now (ip_requests (ip a) hist) <= kDistinctMaxMembers
  /\ distinct_of now (device_requests (deviceId a) hist) <= kDistinctMaxMembers.

(** So do the windows of each of the requests [xs] that follow [hist]. *)
Fixpoint windows_fit (hist xs : list request) : Prop :=
  match xs with
  | [] => True
  | (a, now) :: rest =>
      members_fit (hist ++ [(a, now)]) a now /\ windows_fit (hist ++ [(a, now)]) rest
  end.

(** *** State of one key *)

(** Every recorded request is outside every later window. *)
Definition counter_gone (w now : Z) (xs : list request) : Prop :=
  forall now', now <= now' -> total_of w now' xs = 0.
Definition distinct_gone (now : Z) (xs : list request) : Prop :=
  forall x, x ∈ xs -> ~ recent 60 kDistinctBucketMs now (as_sighting x).

Definition seen_until (t : Z) (xs : list request) : Prop := Forall (fun x => x.2 <= t) xs.

Abbreviation counter_is w c xs now :=
  (counter_tracks kFeatureBuckets w c (as_event <$> xs) now).
Abbreviation distinct_is d xs now :=
  (distinct_tracks 60 kDistinctBucketMs kDistinctMaxMembers d (as_sighting <$> xs) now).

Definition user_cell (hist : list request) (now : Z) (u : string)
    (o : option LoginUserState) : Prop :=
  let xs := user_requests u hist in
  match o with
  | None => counter_gone kUserBucketMs now xs
  | Some s => counter_is kUserBucketMs (login_fail_5m s) xs now
              /\ seen_until (user_last_seen_ms s) xs
              /\ 0 <= user_last_seen_ms s <= now
  end.

Definition ip_cell (hist : list request) (now : Z) (a : string)
    (o : option IpFeatureState) : Prop :=
  let xs := ip_requests a hist in
  match o with
  | None => counter_gone kIpFailureBucketMs now xs /\ distinct_gone now xs
  | Some s => counter_is kIpFailureBucketMs (failures_10m s) xs now
              /\ distinct_is (ip_distinct s) xs now
              /\ seen_until (ip_last_seen_ms s) xs
              /\ 0 <= ip_last_seen_ms s <= now
  end.

Definition device_cell (hist : list request) (now : Z) (d : string)
    (o : option DeviceFeatureState) : Prop :=
  let xs := device_requests d hist in
  match o with
  | None => distinct_gone now xs
  | Some s => distinct_is (device_distinct s) xs now
              /\ seen_until (device_last_seen_ms s) xs
              /\ 0 <= device_last_seen_ms s <= now
  end.

(** *** Facts about windows *)

Lemma recent_earlier x now now' :
  now <= now' -> recent 60 kDistinctBucketMs now' (as_sighting x) ->
  recent 60 kDistinctBucketMs now (as_sighting x).
Proof.
  intros Hle [Ha Hr]. split; [done|].
  pose proof (Z.div_le_mono now now' kDistinctBucketMs ltac:(done) Hle). lia.
Qed.

Lemma isExpired_age last now ttl :
  is_u64 now -> 0 <= last -> isExpired last now ttl = true -> last + ttl <= now.
Proof.
  unfold isExpired, is_u64. intros Hn Hl H. bool_to_prop.
  rewrite wrap64_small in * by (unfold is_u64; lia). lia.
Qed.

(** A bucket of an event seen by [last] has left every window after the TTL. *)
Lemma aged_bucket w n ts seen last ttl now now' :
  0 < w -> ts / w <= seen / w -> seen <= last -> last + ttl <= now -> now <= now' ->
  n * w <= ttl -> n <= now' / w - ts / w.
Proof.
  intros Hw Hts Hseen Hlast Hle Httl.
  pose proof (Z.div_le_mono (seen + n * w) now' w Hw ltac:(lia)) as H.
  rewrite Z.div_add in H by lia. lia.
Qed.

Lemma counter_gone_aged w xs last ttl now :
  0 < w -> seen_until last xs -> last + ttl <= now -> 60 * w <= ttl ->
  counter_gone w now xs.
Proof.
  intros Hw Hs Hlast Httl now' Hle. unfold total_of, window_total.
  enough (filter (counted kFeatureBuckets w now') (as_event <$> xs) = []) as -> by done.
  apply list_filter_none. apply Forall_fmap. eapply Forall_impl; [exact Hs|].
  intros x Hx [Hacc Hr]. unfold accepts in Hacc. bool_to_prop. destruct Hacc as [Hacc _].
  pose proof (aged_bucket w 60 _ _ last ttl now now' Hw Hacc Hx Hlast Hle Httl).
  unfold kFeatureBuckets in *. simpl in *. lia.
Qed.

Lemma distinct_gone_aged xs last ttl now :
  seen_until last xs -> last + ttl <= now -> 60 * kDistinctBucketMs <= ttl ->
  distinct_gone now xs.
Proof.
  intros Hs Hlast Httl x Hx [Hadm Hr]. pose proof (proj1 (Forall_forall _ _) Hs x Hx) as Hsx.
  unfold admitted, spec_accepts in Hadm. bool_to_prop. destruct Hadm as [_ Hadm].
  pose proof (aged_bucket kDistinctBucketMs 60 _ _ last ttl now now ltac:(done) Hadm Hsx
    Hlast ltac:(lia) Httl). lia.
Qed.

Lemma distinct_gone_zero now xs : distinct_gone now xs -> distinct_of now xs = 0.
Proof.
  intros Hg. unfold distinct_of, recent_members.
  enough (filter (recent 60 kDistinctBucketMs now) (as_sighting <$> xs) = []) as -> by done.
  apply list_filter_none. apply Forall_fmap, Forall_forall. intros x Hx. by apply Hg.
Qed.

(** *** One more request *)

Lemma Forall_as_event_ok xs : Forall request_ok xs -> Forall event_ok (as_event <$> xs).
Proof.
  intros H. apply Forall_fmap. eapply Forall_impl; [done|]. intros x [? ?].
  split_and!; done || simpl; lia.
Qed.

Lemma Forall_as_sighting_ok xs : Forall request_ok xs -> Forall sighting_ok (as_sighting <$> xs).
Proof.
  intros H. apply Forall_fmap. eapply Forall_impl; [done|]. intros x [? ?]. done.
Qed.

Lemma zsum_ones xs : zsum (ev_delta <$> (as_event <$> xs)) = size_of xs.
Proof. unfold size_of. induction xs as [|x xs IH]; csimpl; lia. Qed.

(** A part of a history within the ranges is within the ranges. *)
Lemma hist_ok_filter (P : request -> Prop) `{!∀ x, Decision (P x)} hist :
  hist_ok hist -> hist_ok (filter P hist).
Proof.
  intros [H1 H2]. split; [by apply Forall_filter_sub|].
  unfold size_of in *. pose proof (length_filter P hist). lia.
Qed.

Lemma counter_is_add w c xs now x :
  0 < w -> counter_is w c xs now -> now <= x.2 -> hist_ok (xs ++ [x]) ->
  counter_is w (SlidingCounter.add kFeatureBuckets c (timestampMs x.1) x.2 1).1
    (xs ++ [x]) x.2.
Proof.
  intros Hw Hc Hle Hok. rewrite fmap_app.
  pose proof (ho_requests _ Hok) as Hr. apply Forall_app in Hr as [_ Hr].
  inversion Hr as [|? ? [Ht Hn] _]; subst.
  apply (counter_tracks_add kFeatureBuckets w ltac:(unfold kFeatureBuckets; lia)
    ltac:(unfold kFeatureBuckets; lia) Hw c (as_event <$> xs) now (as_event x));
    [done|done|split_and!; done || simpl; lia|].
  change [as_event x] with (as_event <$> [x]). rewrite <-fmap_app, zsum_ones. apply Hok.
Qed.

Lemma counter_is_sum w c xs now now' :
  0 < w -> counter_is w c xs now -> now <= now' -> is_u64 now' ->
  (SlidingCounter.sum kFeatureBuckets c now').2 = total_of w now' xs
  /\ counter_is w (SlidingCounter.sum kFeatureBuckets c now').1 xs now'.
Proof.
  intros Hw Hc Hle Hn.
  by apply (counter_tracks_sum kFeatureBuckets w ltac:(unfold kFeatureBuckets; lia)
    ltac:(unfold kFeatureBuckets; lia) Hw c (as_event <$> xs) now now').
Qed.

Lemma distinct_is_add d xs now x :
  distinct_is d xs now -> now <= x.2 -> hist_ok (xs ++ [x]) ->
  distinct_of x.2 (xs ++ [x]) <= kDistinctMaxMembers ->
  distinct_is (SlidingDistinct.add d (userId x.1) (timestampMs x.1) x.2).1 (xs ++ [x]) x.2.
Proof.
  intros Hd Hle Hok Hfit. unfold distinct_of in Hfit. rewrite fmap_app in *.
  pose proof (ho_requests _ Hok) as Hr. apply Forall_app in Hr as [Hr1 Hr2].
  inversion Hr2 as [|? ? [Ht Hn] _]; subst.
  apply (distinct_tracks_add 60 kDistinctBucketMs kDistinctMaxMembers ltac:(done)
    d (as_sighting <$> xs) now (as_sighting x)); try done.
  by apply Forall_as_sighting_ok.
Qed.

Lemma distinct_is_count d xs now now' :
  distinct_is d xs now -> now <= now' -> is_u64 now' -> hist_ok xs ->
  (SlidingDistinct.count d now').2 = distinct_of now' xs
  /\ distinct_is (SlidingDistinct.count d now').1 xs now'.
Proof.
  intros Hd Hle Hn Hok.
  apply (distinct_tracks_count 60 kDistinctBucketMs kDistinctMaxMembers ltac:(done)
    d (as_sighting <$> xs) now now'); try done.
  apply Forall_as_sighting_ok, Hok.
Qed.

Lemma counter_is_fresh w xs now :
  0 < w -> Forall request_ok xs -> counter_gone w now xs ->
  counter_is w (SlidingCounter.fresh kFeatureBuckets w) xs now.
Proof.
  intros Hw Hr Hg. apply counter_tracks_fresh; [done|by apply Forall_as_event_ok|done].
Qed.

Lemma distinct_is_fresh xs now :
  distinct_gone now xs -> distinct_is fresh_distinct xs now.
Proof.
  intros Hg. apply distinct_tracks_fresh; [lia|done|unfold kDistinctMaxMembers; lia|done|].
  intros e (x & -> & Hx)%list_elem_of_fmap. by apply Hg.
Qed.

Lemma filter_snoc {A} (P : A -> Prop) `{!∀ x, Decision (P x)} (l : list A) (x : A) :
  filter P (l ++ [x]) = filter P l ++ (if decide (P x) then [x] else []).
Proof. by rewrite filter_app, filter_cons, filter_nil. Qed.

Lemma counter_gone_later w now now' xs :
  now <= now' -> counter_gone w now xs -> counter_gone w now' xs.
Proof. intros Hle Hg n Hn. apply Hg. lia. Qed.

Lemma distinct_gone_later now now' xs :
  now <= now' -> distinct_gone now xs -> distinct_gone now' xs.
Proof. intros Hle Hg x Hx Hr. by eapply Hg, recent_earlier. Qed.

Lemma counter_is_later w c xs now now' :
  0 < w -> counter_is w c xs now -> now <= now' -> counter_is w c xs now'.
Proof.
  intros Hw H Hle. eapply counter_tracks_later; [..|exact H|exact Hle];
    done || (unfold kFeatureBuckets; lia).
Qed.

Lemma user_cell_later hist now now' u o :
  now <= now' -> user_cell hist now u o -> user_cell hist now' u o.
Proof.
  intros Hle. destruct o as [s|]; simpl; [|by apply counter_gone_later].
  intros (H1 & H2 & H3). split_and!; try done; try lia.
  by apply (counter_is_later _ _ _ now).
Qed.

Lemma ip_cell_later hist now now' a o :
  now <= now' -> ip_cell hist now a o -> ip_cell hist now' a o.
Proof.
  intros Hle. destruct o as [s|]; simpl.
  - intros (H1 & H2 & H3 & H4). split_and!; try done; try lia;
      [by apply (counter_is_later _ _ _ now)|by eapply distinct_tracks_later].
  - intros [H1 H2]. split; [by eapply counter_gone_later|by eapply distinct_gone_later].
Qed.

Lemma device_cell_later hist now now' d o :
  now <= now' -> device_cell hist now d o -> device_cell hist now' d o.
Proof.
  intros Hle. destruct o as [s|]; simpl; [|by apply distinct_gone_later].
  intros (H1 & H2 & H3). split_and!; try done; try lia. by eapply distinct_tracks_later.
Qed.

(** A request leaves the cells of other keys alone. *)
Lemma user_cell_other hist now x u o :
  ~ (userId x.1 = u /\ fails_within kUserWindowMs x) ->
  user_cell hist now u o -> user_cell (hist ++ [x]) now u o.
Proof.
  intros Hne. unfold user_cell, user_requests. by rewrite filter_snoc, decide_False, app_nil_r.
Qed.

Lemma ip_cell_other hist now x a o :
  ~ (ip x.1 = a /\ fails_within kDistinctWindowMs x) ->
  ip_cell hist now a o -> ip_cell (hist ++ [x]) now a o.
Proof.
  intros Hne. unfold ip_cell, ip_requests. by rewrite filter_snoc, decide_False, app_nil_r.
Qed.

Lemma device_cell_other hist now x d o :
  ~ (deviceId x.1 = d /\ arrives_within kDistinctWindowMs x) ->
  device_cell hist now d o -> device_cell (hist ++ [x]) now d o.
Proof.
  intros Hne. unfold device_cell, device_requests. by rewrite filter_snoc, decide_False, app_nil_r.
Qed.

Lemma seen_until_snoc now t xs x :
  seen_until t xs -> t <= now -> x.2 = now -> seen_until now (xs ++ [x]).
Proof.
  intros Hs Ht Hx. apply Forall_app. split; [|constructor; [lia|done]].
  eapply Forall_impl; [exact Hs|]. simpl. lia.
Qed.

Lemma seen_until_past hist now (P : request -> Prop) `{!∀ x, Decision (P x)} :
  Forall (fun x : request => x.2 <= now) hist -> seen_until now (filter P hist).
Proof. by apply Forall_filter_sub. Qed.

(** The update of the state of one key, on its three branches: the state that
    [find]/[try_emplace] gives, and the state after a counted failure. *)
Lemma user_cell_update hist now0 now a o s :
  user_cell hist now0 (userId a) o -> now0 <= now ->
  hist_ok (hist ++ [(a, now)]) -> Forall (fun x : request => x.2 <= now0) hist ->
  fails_within kUserWindowMs (a, now) ->
  s = default fresh_user_state o ->
  user_cell (hist ++ [(a, now)]) now (userId a)
    (Some (s <| login_fail_5m :=
              (SlidingCounter.add kFeatureBuckets (login_fail_5m s)
                 (timestampMs a) now 1).1 |> <| user_last_seen_ms := now |>)).
Proof.
  intros Hc Hle Hok Hpast Hf ->. unfold user_cell, user_requests in *. cbn beta iota zeta in *.
  pose proof (hist_ok_filter (fun x => userId x.1 = userId a /\ fails_within kUserWindowMs x)
    _ Hok) as Hok'.
  rewrite filter_snoc, decide_True in * by done.
  set (xs := filter _ hist) in *. pose proof (ho_requests _ Hok') as Hr.
  apply Forall_app in Hr as [Hr1 Hr2]. inversion Hr2 as [|? ? [_ Hn] _]; subst.
  pose proof (seen_until_past hist now0 (fun x => userId x.1 = userId a
    /\ fails_within kUserWindowMs x) Hpast) as Hs. fold xs in Hs.
  split_and!; simpl; [|by eapply seen_until_snoc|destruct Hn; simpl in *; lia|lia].
  apply (counter_is_add kUserBucketMs _ xs now0 (a, now)); [done| |done|done].
  destruct o as [s|]; simpl; [apply Hc|by apply counter_is_fresh].
Qed.

Lemma ip_cell_update hist now0 now a o s :
  ip_cell hist now0 (ip a) o -> now0 <= now ->
  hist_ok (hist ++ [(a, now)]) ->
  distinct_of now (ip_requests (ip a) (hist ++ [(a, now)])) <= kDistinctMaxMembers ->
  Forall (fun x : request => x.2 <= now0) hist ->
  fails_within kDistinctWindowMs (a, now) ->
  s = default fresh_ip_state o ->
  ip_cell (hist ++ [(a, now)]) now (ip a)
    (Some (s <| ip_distinct :=
              (SlidingDistinct.add (ip_distinct s) (userId a) (timestampMs a) now).1 |>
             <| failures_10m :=
              (SlidingCounter.add kFeatureBuckets (failures_10m s) (timestampMs a) now 1).1 |>
             <| ip_last_seen_ms := now |>)).
Proof.
  intros Hc Hle Hok Hfit Hpast Hf ->. unfold ip_cell, ip_requests in *. cbn beta iota zeta in *.
  pose proof (hist_ok_filter (fun x => ip x.1 = ip a /\ fails_within kDistinctWindowMs x)
    _ Hok) as Hok'.
  rewrite filter_snoc, decide_True in * by done.
  set (xs := filter _ hist) in *. pose proof (ho_requests _ Hok') as Hr.
  apply Forall_app in Hr as [Hr1 Hr2]. inversion Hr2 as [|? ? [_ Hn] _]; subst.
  pose proof (seen_until_past hist now0 (fun x => ip x.1 = ip a
    /\ fails_within kDistinctWindowMs x) Hpast) as Hs. fold xs in Hs.
  split_and!; simpl; [| |by eapply seen_until_snoc|destruct Hn; simpl in *; lia|lia].
  - apply (counter_is_add kIpFailureBucketMs _ xs now0 (a, now)); [done| |done|done].
    destruct o as [s|]; simpl; [apply Hc|by apply counter_is_fresh, Hc].
  - apply (distinct_is_add _ xs now0 (a, now)); [|done..].
    destruct o as [s|]; simpl; [apply Hc|by apply distinct_is_fresh, Hc].
Qed.

Lemma device_cell_update hist now0 now a o s :
  device_cell hist now0 (deviceId a) o -> now0 <= now ->
  hist_ok (hist ++ [(a, now)]) ->
  distinct_of now (device_requests (deviceId a) (hist ++ [(a, now)])) <= kDistinctMaxMembers ->
  Forall (fun x : request => x.2 <= now0) hist ->
  arrives_within kDistinctWindowMs (a, now) ->
  s = default fresh_device_state o ->
  device_cell (hist ++ [(a, now)]) now (deviceId a)
    (Some (s <| device_distinct :=
              (SlidingDistinct.add (device_distinct s) (userId a) (timestampMs a) now).1 |>
             <| device_last_seen_ms := now |>)).
Proof.
  intros Hc Hle Hok Hfit Hpast Hf ->. unfold device_cell, device_requests in *.
  cbn beta iota zeta in *.
  pose proof (hist_ok_filter (fun x => deviceId x.1 = deviceId a
    /\ arrives_within kDistinctWindowMs x) _ Hok) as Hok'.
  rewrite filter_snoc, decide_True in * by done.
  set (xs := filter _ hist) in *. pose proof (ho_requests _ Hok') as Hr.
  apply Forall_app in Hr as [Hr1 Hr2]. inversion Hr2 as [|? ? [_ Hn] _]; subst.
  pose proof (seen_until_past hist now0 (fun x => deviceId x.1 = deviceId a
    /\ arrives_within kDistinctWindowMs x) Hpast) as Hs. fold xs in Hs.
  split_and!; simpl; [|by eapply seen_until_snoc|destruct Hn; simpl in *; lia|lia].
  apply (distinct_is_add _ xs now0 (a, now)); [|done..].
  destruct o as [s|]; simpl; [apply Hc|by apply distinct_is_fresh].
Qed.

Lemma user_cell_read hist now u s out :
  user_cell hist now u (Some s) -> is_u64 now ->
  let '(s', out') := buildUserSnapshot s now out in
  user_cell hist now u (Some s')
  /\ out' = out <| user_login_fail_5m :=
                   total_of kUserBucketMs now (user_requests u hist) |>.
Proof.
  intros (H1 & H2 & H3) Hn. unfold buildUserSnapshot.
  destruct (counter_is_sum kUserBucketMs _ _ now now eq_refl H1 ltac:(lia) Hn) as [<- Hc].
  destruct (SlidingCounter.sum _ _ _). split; [|done]. split_and!; try done; apply H3.
Qed.

Lemma ip_cell_read hist now a s :
  ip_cell hist now a (Some s) -> is_u64 now -> hist_ok hist ->
  let '(d, n) := SlidingDistinct.count (ip_distinct s) now in
  let '(c, v) := SlidingCounter.sum kFeatureBuckets (failures_10m s) now in
  ip_cell hist now a (Some (s <| ip_distinct := d |> <| failures_10m := c |>))
  /\ n = distinct_of now (ip_requests a hist)
  /\ v = total_of kIpFailureBucketMs now (ip_requests a hist).
Proof.
  intros (H1 & H2 & H3 & H4) Hn Hok.
  destruct (counter_is_sum kIpFailureBucketMs _ _ now now eq_refl H1 ltac:(lia) Hn) as [<- Hc].
  destruct (distinct_is_count _ _ now now H2 ltac:(lia) Hn (hist_ok_filter _ _ Hok)) as [E Hd].
  rewrite <-E.
  destruct (SlidingDistinct.count _ _), (SlidingCounter.sum _ _ _).
  split; [|done]. split_and!; try done; apply H4.
Qed.

Lemma device_cell_read hist now d s :
  device_cell hist now d (Some s) -> is_u64 now -> hist_ok hist ->
  let '(t, n) := SlidingDistinct.count (device_distinct s) now in
  device_cell hist now d (Some (s <| device_distinct := t |>))
  /\ n = distinct_of now (device_requests d hist).
Proof.
  intros (H1 & H2 & H3) Hn Hok.
  destruct (distinct_is_count _ _ now now H1 ltac:(lia) Hn (hist_ok_filter _ _ Hok)) as [E Hd].
  rewrite <-E. destruct (SlidingDistinct.count _ _).
  split; [|done]. split_and!; try done; apply H3.
Qed.

(** ** The operations against the history *)

Record store_inv (hash : string -> Z) (st : LoginFeatureStore) (hist : list request)
    (now : Z) : Prop := {
  si_config : isValidReclamationConfig (reclamation_config_ st) = true;
  si_past : Forall (fun x : request => x.2 <= now) hist;
  si_users : shards_inv hash kUserShardNum (user_cell hist now) (user_shards_ st);
  si_ips : shards_inv hash kDistinctShardNum (ip_cell hist now) (ip_shards_ st);
  si_devices : shards_inv hash kDistinctShardNum (device_cell hist now) (device_shards_ st);
}.

Section Operations.
Context (hash : string -> Z).
Context (hist : list request) (now0 now : Z) (a : LoginAttempt).
Context (Hle : now0 <= now) (Hnow : is_u64 now).
Context (Hok : hist_ok (hist ++ [(a, now)])).
Context (Hfit_ip :
  distinct_of now (ip_requests (ip a) (hist ++ [(a, now)])) <= kDistinctMaxMembers).
Context (Hfit_device :
  distinct_of now (device_requests (deviceId a) (hist ++ [(a, now)])) <= kDistinctMaxMembers).
Context (Hpast : Forall (fun x : request => x.2 <= now0) hist).

Let hist' := hist ++ [(a, now)].

Lemma fails_within_test window :
  (is_fail (attempt_result a) && isWithinWindow (timestampMs a) now window)%bool = true
  <-> fails_within window (a, now).
Proof. unfold fails_within. simpl. apply andb_true_iff. Qed.

Lemma updateUser_spec st out :
  shards_inv hash kUserShardNum (user_cell hist now0) (user_shards_ st) ->
  user_login_fail_5m out = 0 ->
  let '(st', out') := updateUser hash st a now out in
  shards_inv hash kUserShardNum (user_cell hist' now) (user_shards_ st')
  /\ out' = out <| user_login_fail_5m :=
                   total_of kUserBucketMs now (user_requests (userId a) hist') |>
  /\ ip_shards_ st' = ip_shards_ st /\ device_shards_ st' = device_shards_ st
  /\ reclamation_config_ st' = reclamation_config_ st.
Proof.
  intros Hinv Hout. pose proof (proj2 Hinv (userId a)) as Hcell.
  pose proof (fails_within_test kUserWindowMs) as Htest. unfold updateUser.
  set (can := (is_fail _ && _)%bool) in *. unfold find_or_create.
  set (o := shard_find _ _ _ _) in *.
  assert (forall u o, u <> userId a -> user_cell hist now0 u o -> user_cell hist' now u o)
    as Hother.
  { intros u o' Hne Hc. apply user_cell_other; [by intros [? _]|].
    by apply (user_cell_later _ now0). }
  assert (forall s, user_cell hist' now (userId a) (Some s) ->
    let '(state, out') := buildUserSnapshot s now out in
    shards_inv hash kUserShardNum (user_cell hist' now)
      (shard_store hash kUserShardNum (user_shards_ st) (userId a) state)
    /\ out' = out <| user_login_fail_5m :=
                   total_of kUserBucketMs now (user_requests (userId a) hist') |>) as Hread.
  { intros s Hs. pose proof (user_cell_read _ _ _ _ out Hs Hnow) as Hr.
    destruct (buildUserSnapshot s now out). destruct Hr as [Hr ->]. split; [|done].
    by eapply shards_inv_store; [unfold kUserShardNum; lia|exact Hinv|..]. }
  destruct can eqn:Ecan.
  - assert (fails_within kUserWindowMs (a, now)) as Hf by (by apply Htest).
    pose proof (user_cell_update hist now0 now a o _ Hcell Hle Hok Hpast Hf eq_refl) as Hup.
    destruct o as [s|]; specialize (Hread _ Hup); simpl default in *;
      destruct (buildUserSnapshot _ _ _); destruct Hread as [Hr ->]; done.
  - assert (~ fails_within kUserWindowMs (a, now)) as Hf by (rewrite <-Htest; congruence).
    assert (user_cell hist' now (userId a) o) as Hup.
    { apply user_cell_other; [by intros [_ ?]|]. by apply (user_cell_later _ now0). }
    destruct o as [s|].
    + specialize (Hread _ Hup). destruct (buildUserSnapshot _ _ _). by destruct Hread as [Hr ->].
    + split_and!; try done.
      * eapply shards_inv_mono; [|exact Hinv]. intros u o' Hc.
        apply user_cell_other; [by intros [_ ?]|]. by apply (user_cell_later _ now0).
      * destruct out. unfold set. simpl in *. rewrite Hout. f_equal.
        symmetry. apply (Hup now). lia.
Qed.

Lemma updateIp_spec st out :
  shards_inv hash kDistinctShardNum (ip_cell hist now0) (ip_shards_ st) ->
  ip_distinct_failed_user_10m out = 0 -> ip_login_failures_10m out = 0 ->
  let '(st', out') := updateIp hash st a now out in
  shards_inv hash kDistinctShardNum (ip_cell hist' now) (ip_shards_ st')
  /\ out' = out <| ip_distinct_failed_user_10m := distinct_of now (ip_requests (ip a) hist') |>
                <| ip_login_failures_10m :=
                   total_of kIpFailureBucketMs now (ip_requests (ip a) hist') |>
  /\ user_shards_ st' = user_shards_ st /\ device_shards_ st' = device_shards_ st
  /\ reclamation_config_ st' = reclamation_config_ st.
Proof.
  intros Hinv Hout1 Hout2. pose proof (proj2 Hinv (ip a)) as Hcell.
  pose proof (fails_within_test kDistinctWindowMs) as Htest. unfold updateIp.
  set (can := (is_fail _ && _)%bool) in *. unfold find_or_create.
  set (o := shard_find _ _ _ _) in *.
  assert (forall k o, k <> ip a -> ip_cell hist now0 k o -> ip_cell hist' now k o) as Hother.
  { intros u o' Hne Hc. apply ip_cell_other; [by intros [? _]|]. by apply (ip_cell_later _ now0). }
  assert (forall s, ip_cell hist' now (ip a) (Some s) ->
    let '(d, n) := SlidingDistinct.count (ip_distinct s) now in
    let '(c, v) := SlidingCounter.sum kFeatureBuckets (failures_10m s) now in
    shards_inv hash kDistinctShardNum (ip_cell hist' now)
      (shard_store hash kDistinctShardNum (ip_shards_ st) (ip a)
         (s <| ip_distinct := d |> <| failures_10m := c |>))
    /\ n = distinct_of now (ip_requests (ip a) hist')
    /\ v = total_of kIpFailureBucketMs now (ip_requests (ip a) hist')) as Hread.
  { intros s Hs. pose proof (ip_cell_read _ _ _ _ Hs Hnow Hok) as Hr.
    destruct (SlidingDistinct.count _ _), (SlidingCounter.sum _ _ _).
    destruct Hr as (Hr & -> & ->). split; [|done].
    by eapply shards_inv_store; [unfold kDistinctShardNum; lia|exact Hinv|..]. }
  destruct can eqn:Ecan.
  - assert (fails_within kDistinctWindowMs (a, now)) as Hf by (by apply Htest).
    pose proof (ip_cell_update hist now0 now a o _ Hcell Hle Hok Hfit_ip Hpast Hf eq_refl) as Hup.
    destruct o as [s|]; specialize (Hread _ Hup); simpl default in *;
      destruct (SlidingDistinct.count _ _), (SlidingCounter.sum _ _ _);
      destruct Hread as (Hr & -> & ->); done.
  - assert (~ fails_within kDistinctWindowMs (a, now)) as Hf by (rewrite <-Htest; congruence).
    assert (forall k o', ip_cell hist now0 k o' -> ip_cell hist' now k o') as Hsame.
    { intros k o' Hc. apply ip_cell_other; [by intros [_ ?]|]. by apply (ip_cell_later _ now0). }
    apply Hsame in Hcell. destruct o as [s|].
    + specialize (Hread _ Hcell).
      destruct (SlidingDistinct.count _ _), (SlidingCounter.sum _ _ _).
      by destruct Hread as (Hr & -> & ->).
    + split_and!; try done; [by eapply shards_inv_mono|].
      destruct Hcell as [Hg1 Hg2]. destruct out. unfold set. simpl in *. subst.
      rewrite (distinct_gone_zero _ _ Hg2), (Hg1 now ltac:(lia)). done.
Qed.

Lemma updateDevice_spec st out :
  shards_inv hash kDistinctShardNum (device_cell hist now0) (device_shards_ st) ->
  device_distinct_account_10m out = 0 ->
  let '(st', out') := updateDevice hash st a now out in
  shards_inv hash kDistinctShardNum (device_cell hist' now) (device_shards_ st')
  /\ out' = out <| device_distinct_account_10m :=
                   distinct_of now (device_requests (deviceId a) hist') |>
  /\ user_shards_ st' = user_shards_ st /\ ip_shards_ st' = ip_shards_ st
  /\ reclamation_config_ st' = reclamation_config_ st.
Proof.
  intros Hinv Hout. pose proof (proj2 Hinv (deviceId a)) as Hcell. unfold updateDevice.
  set (can := isWithinWindow _ _ _) in *. unfold find_or_create.
  set (o := shard_find _ _ _ _) in *.
  assert (forall k o, k <> deviceId a -> device_cell hist now0 k o -> device_cell hist' now k o)
    as Hother.
  { intros u o' Hne Hc. apply device_cell_other; [by intros [? _]|].
    by apply (device_cell_later _ now0). }
  assert (forall s, device_cell hist' now (deviceId a) (Some s) ->
    let '(d, n) := SlidingDistinct.count (device_distinct s) now in
    shards_inv hash kDistinctShardNum (device_cell hist' now)
      (shard_store hash kDistinctShardNum (device_shards_ st) (deviceId a)
         (s <| device_distinct := d |>))
    /\ n = distinct_of now (device_requests (deviceId a) hist')) as Hread.
  { intros s Hs. pose proof (device_cell_read _ _ _ _ Hs Hnow Hok) as Hr.
    destruct (SlidingDistinct.count _ _). destruct Hr as (Hr & ->). split; [|done].
    by eapply shards_inv_store; [unfold kDistinctShardNum; lia|exact Hinv|..]. }
  destruct can eqn:Ecan.
  - pose proof (device_cell_update hist now0 now a o _ Hcell Hle Hok Hfit_device Hpast Ecan
      eq_refl) as Hup.
    destruct o as [s|]; specialize (Hread _ Hup); simpl default in *;
      destruct (SlidingDistinct.count _ _); destruct Hread as (Hr & ->); done.
  - assert (~ arrives_within kDistinctWindowMs (a, now)) as Hf
      by (unfold arrives_within; simpl; fold can; congruence).
    assert (forall k o', device_cell hist now0 k o' -> device_cell hist' now k o') as Hsame.
    { intros k o' Hc. apply device_cell_other; [by intros [_ ?]|].
      by apply (device_cell_later _ now0). }
    apply Hsame in Hcell. destruct o as [s|].
    + specialize (Hread _ Hcell). destruct (SlidingDistinct.count _ _).
      by destruct Hread as (Hr & ->).
    + split_and!; try done; [by eapply shards_inv_mono|].
      destruct out. unfold set. simpl in *. subst.
      rewrite (distinct_gone_zero _ _ Hcell). done.
Qed.

Lemma updateAndGet_spec st :
  store_inv hash st hist now0 ->
  let '(st', out) := updateAndGet hash st a now in
  store_inv hash st' hist' now /\ out = exact_snapshot hist' a now.
Proof.
  intros [H1 _ H3 H4 H5]. unfold updateAndGet.
  pose proof (updateUser_spec st empty_snapshot H3 eq_refl) as Hu.
  destruct (updateUser _ _ _ _ _) as [st1 out1]. destruct Hu as (Hu & -> & E1 & E2 & E3).
  rewrite <-E1 in H4. rewrite <-E2 in H5.
  match goal with |- context [updateIp _ _ _ _ ?o] =>
    pose proof (updateIp_spec st1 o H4 eq_refl eq_refl) as Hi end.
  destruct (updateIp _ _ _ _ _) as [st2 out2]. destruct Hi as (Hi & -> & F1 & F2 & F3).
  rewrite <-F2 in H5.
  match goal with |- context [updateDevice _ _ _ _ ?o] =>
    pose proof (updateDevice_spec st2 o H5 eq_refl) as Hd end.
  destruct (updateDevice _ _ _ _ _) as [st3 out3]. destruct Hd as (Hd & -> & G1 & G2 & G3).
  split; [|done]. split; try done; [congruence| |by rewrite G1, F1|by rewrite G2].
  apply Forall_app. split; [|by repeat constructor; simpl; lia].
  eapply Forall_impl; [exact Hpast|]. simpl. lia.
Qed.
End Operations.

(** Reclamation with a valid configuration only drops states whose every
    event has already left every window. *)
Section Reclaim.
Context (config : FeatureStateReclamationConfig).
Context (Hconfig : isValidReclamationConfig config = true).
Context (hist : list request) (now0 now : Z) (Hle : now0 <= now) (Hn : is_u64 now).

Lemma valid_ttls :
  60 * kUserBucketMs <= user_ttl_ms config
  /\ 60 * kDistinctBucketMs <= ip_ttl_ms config
  /\ 60 * kDistinctBucketMs <= device_ttl_ms config.
Proof.
  pose proof Hconfig as H.
  unfold isValidReclamationConfig, kUserWindowMs, kDistinctWindowMs in H. bool_to_prop.
  unfold kUserBucketMs, kDistinctBucketMs. lia.
Qed.

Lemma user_cell_gone u s :
  user_cell hist now u (Some s) ->
  isExpired (user_last_seen_ms s) now (user_ttl_ms config) = true ->
  user_cell hist now u None.
Proof.
  intros (_ & Hs & Hb) Hx. apply isExpired_age in Hx; [|done|lia].
  by apply (counter_gone_aged kUserBucketMs _ _ _ now eq_refl Hs Hx), valid_ttls.
Qed.

Lemma ip_cell_gone u s :
  ip_cell hist now u (Some s) ->
  isExpired (ip_last_seen_ms s) now (ip_ttl_ms config) = true ->
  ip_cell hist now u None.
Proof.
  intros (_ & _ & Hs & Hb) Hx. apply isExpired_age in Hx; [|done|lia]. split;
    [apply (counter_gone_aged kIpFailureBucketMs _ _ _ now eq_refl Hs Hx)
    |apply (distinct_gone_aged _ _ _ now Hs Hx)]; apply valid_ttls.
Qed.

Lemma device_cell_gone u s :
  device_cell hist now u (Some s) ->
  isExpired (device_last_seen_ms s) now (device_ttl_ms config) = true ->
  device_cell hist now u None.
Proof.
  intros (_ & Hs & Hb) Hx. apply isExpired_age in Hx; [|done|lia].
  apply (distinct_gone_aged _ _ _ now Hs Hx), valid_ttls.
Qed.
End Reclaim.

Lemma reclaim_spec hash st hist now0 now :
  store_inv hash st hist now0 -> now0 <= now -> is_u64 now ->
  store_inv hash (reclaimColdStates st now) hist now.
Proof.
  intros [H1 H2 H3 H4 H5] Hle Hn.
  split; simpl; [done|eapply Forall_impl; [exact H2|simpl; lia]|..];
    (apply shards_inv_reclaim; [unfold kUserShardNum, kDistinctShardNum; lia|eapply shards_inv_mono|]).
  - intros. by eapply user_cell_later.
  - exact H3.
  - by apply user_cell_gone.
  - intros. by eapply ip_cell_later.
  - exact H4.
  - by apply ip_cell_gone.
  - intros. by eapply device_cell_later.
  - exact H5.
  - by apply device_cell_gone.
Qed.

(** ** Runs of the store *)

(** Requests interleaved with rounds of the maintenance timer. *)
Inductive store_op :=
| Request (a : LoginAttempt) (now : Z)
| Reclaim (now : Z).

Definition op_now (op : store_op) : Z :=
  match op with Request _ now | Reclaim now => now end.

(** Runs the operations and collects the snapshots of the requests. *)
Fixpoint run_store (hash : string -> Z) (st : LoginFeatureStore) (ops : list store_op)
    : LoginFeatureStore * list LoginFeatureSnapshot :=
  match ops with
  | [] => (st, [])
  | Request a now :: rest =>
      let '(st, out) := updateAndGet hash st a now in
      let '(st, outs) := run_store hash st rest in (st, out :: outs)
  | Reclaim now :: rest => run_store hash (reclaimColdStates st now) rest
  end.

(** The requests among the operations, and the snapshots they must see. *)
Fixpoint requests (ops : list store_op) : list request :=
  match ops with
  | [] => []
  | Request a now :: rest => (a, now) :: requests rest
  | Reclaim _ :: rest => requests rest
  end.

Fixpoint exact_snapshots (hist : list request) (xs : list request)
    : list LoginFeatureSnapshot :=
  match xs with
  | [] => []
  | (a, now) :: rest =>
      exact_snapshot (hist ++ [(a, now)]) a now :: exact_snapshots (hist ++ [(a, now)]) rest
  end.

Lemma hist_ok_prefix xs ys : hist_ok (xs ++ ys) -> hist_ok xs.
Proof.
  intros [H1 H2]. apply Forall_app in H1 as [H1 _]. split; [done|].
  rewrite size_of_app in H2. pose proof (size_of_nonneg ys). lia.
Qed.

Lemma run_store_spec hash ops st hist now0 :
  store_inv hash st hist now0 -> clock_from now0 (op_now <$> ops) ->
  Forall (fun op => is_u64 (op_now op)) ops ->
  hist_ok (hist ++ requests ops) -> windows_fit hist (requests ops) ->
  (run_store hash st ops).2 = exact_snapshots hist (requests ops).
Proof.
  revert st hist now0. induction ops as [|[a now|now] ops IH]; csimpl;
    intros st hist now0 Hinv Hclock Hu Hok Hfit; [done|..];
    destruct Hclock as [Hle Hclock]; inversion Hu as [|? ? Hnow Hu']; subst.
  - rewrite cons_middle, app_assoc in Hok. destruct Hfit as [Hfit1 Hfit].
    pose proof (updateAndGet_spec hash hist now0 now a Hle Hnow (hist_ok_prefix _ _ Hok)
      (proj1 Hfit1) (proj2 Hfit1) (si_past _ _ _ _ Hinv) st Hinv) as Hspec.
    destruct (updateAndGet hash st a now) as [st' out]. destruct Hspec as [Hinv' ->].
    specialize (IH st' _ now Hinv' Hclock Hu' Hok Hfit).
    destruct (run_store hash st' ops). simpl in *. by rewrite IH.
  - eapply IH; [by eapply reclaim_spec|done..].
Qed.

Lemma make_inv hash config st :
  make config = Ok st -> store_inv hash st [] 0.
Proof.
  unfold make, validateReclamationConfig. repeat case_if; try done. intros [= <-].
  assert (forall w, counter_gone w 0 []) as Hc by done.
  assert (distinct_gone 0 []) as Hd by (intros x Hx; by apply not_elem_of_nil in Hx).
  split; simpl; [|constructor|..].
  - unfold isValidReclamationConfig. by rewrite !andb_true_iff, !Z.leb_le.
  - apply shards_inv_init; [unfold kUserShardNum; lia|]. intros; apply Hc.
  - apply shards_inv_init; [unfold kDistinctShardNum; lia|]. intros; split; [apply Hc|apply Hd].
  - apply shards_inv_init; [unfold kDistinctShardNum; lia|]. intros; apply Hd.
Qed.

(** ** Interleaved critical sections

    The workers do not hold two shard locks at once: between the user, the IP
    and the device section of one request the sections of other requests and
    the rounds of single shards may run.  A group of states (users, IPs,
    devices) then has a history of its own, the order in which the requests
    entered its sections. *)

Inductive section :=
| UserSection (a : LoginAttempt) (now : Z)
| IpSection (a : LoginAttempt) (now : Z)
| DeviceSection (a : LoginAttempt) (now : Z)
| ReclaimUserShard (i : nat) (now : Z)
| ReclaimIpShard (i : nat) (now : Z)
| ReclaimDeviceShard (i : nat) (now : Z).

(** One section, and the part of the snapshot it fills. *)
Definition run_section (hash : string -> Z) (st : LoginFeatureStore) (s : section)
    : LoginFeatureStore * LoginFeatureSnapshot :=
  let config := reclamation_config_ st in
  match s with
  | UserSection a now => updateUser hash st a now empty_snapshot
  | IpSection a now => updateIp hash st a now empty_snapshot
  | DeviceSection a now => updateDevice hash st a now empty_snapshot
  | ReclaimUserShard i now =>
      (st <| user_shards_ := alter (reclaim_shard user_last_seen_ms now (user_ttl_ms config)) i
               (user_shards_ st) |>, empty_snapshot)
  | ReclaimIpShard i now =>
      (st <| ip_shards_ := alter (reclaim_shard ip_last_seen_ms now (ip_ttl_ms config)) i
               (ip_shards_ st) |>, empty_snapshot)
  | ReclaimDeviceShard i now =>
      (st <| device_shards_ :=
               alter (reclaim_shard device_last_seen_ms now (device_ttl_ms config)) i
                 (device_shards_ st) |>, empty_snapshot)
  end.

Fixpoint run_sections (hash : string -> Z) (st : LoginFeatureStore) (ss : list section)
    : list LoginFeatureSnapshot :=
  match ss with
  | [] => []
  | s :: rest => let '(st, out) := run_section hash st s in out :: run_sections hash st rest
  end.

(** A section fills its own fields only. *)
Lemma updateIp_out hash st a now u :
  let '(st', p) := updateIp hash st a now empty_snapshot in
  updateIp hash st a now (mkSnapshot u 0 0 0)
  = (st', mkSnapshot u (ip_distinct_failed_user_10m p) 0 (ip_login_failures_10m p)).
Proof.
  unfold updateIp. destruct (find_or_create _ _ _ _ _ _) as [state|]; [|done].
  cbv zeta. by destruct (SlidingDistinct.count _ _), (SlidingCounter.sum _ _ _).
Qed.

Lemma updateDevice_out hash st a now u p v :
  let '(st', d) := updateDevice hash st a now empty_snapshot in
  updateDevice hash st a now (mkSnapshot u p 0 v)
  = (st', mkSnapshot u p (device_distinct_account_10m d) v).
Proof.
  unfold updateDevice. destruct (find_or_create _ _ _ _ _ _) as [state|]; [|done].
  cbv zeta. by destruct (SlidingDistinct.count _ _).
Qed.

Lemma updateUser_out hash st a now :
  let '(st', u) := updateUser hash st a now empty_snapshot in
  u = mkSnapshot (user_login_fail_5m u) 0 0 0.
Proof.
  unfold updateUser, buildUserSnapshot.
  destruct (find_or_create _ _ _ _ _ _) as [state|]; [|done].
  cbv zeta. by destruct (SlidingCounter.sum _ _ _).
Qed.

(** A request is its three sections, run without a gap. *)
Lemma updateAndGet_sections hash st a now :
  let '(st1, u) := run_section hash st (UserSection a now) in
  let '(st2, p) := run_section hash st1 (IpSection a now) in
  let '(st3, d) := run_section hash st2 (DeviceSection a now) in
  updateAndGet hash st a now
  = (st3, mkSnapshot (user_login_fail_5m u) (ip_distinct_failed_user_10m p)
            (device_distinct_account_10m d) (ip_login_failures_10m p)).
Proof.
  simpl. unfold updateAndGet. pose proof (updateUser_out hash st a now) as Hu.
  destruct (updateUser _ _ _ _ _) as [st1 u]. rewrite Hu. simpl.
  pose proof (updateIp_out hash st1 a now (user_login_fail_5m u)) as Hi.
  destruct (updateIp _ st1 _ _ empty_snapshot) as [st2 p]. rewrite Hi.
  pose proof (updateDevice_out hash st2 a now (user_login_fail_5m u)
    (ip_distinct_failed_user_10m p) (ip_login_failures_10m p)) as Hd.
  by destruct (updateDevice _ st2 _ _ empty_snapshot).
Qed.

(** What a group has seen: its requests in order and its last clock reading. *)
Record group := mkGroup { g_hist : list request; g_now : Z }.

Record groups := mkGroups { g_users : group; g_ips : group; g_devices : group }.

Definition group_add (g : group) (a : LoginAttempt) (now : Z) : group :=
  mkGroup (g_hist g ++ [(a, now)]) now.

Definition section_groups (g : groups) (s : section) : groups :=
  match s with
  | UserSection a now => g <| g_users := group_add (g_users g) a now |>
  | IpSection a now => g <| g_ips := group_add (g_ips g) a now |>
  | DeviceSection a now => g <| g_devices := group_add (g_devices g) a now |>
  | ReclaimUserShard _ now => g <| g_users := mkGroup (g_hist (g_users g)) now |>
  | ReclaimIpShard _ now => g <| g_ips := mkGroup (g_hist (g_ips g)) now |>
  | ReclaimDeviceShard _ now => g <| g_devices := mkGroup (g_hist (g_devices g)) now |>
  end.

(** The features a section must read, over its group's history [g], the
    request itself included. *)
Definition exact_section (g : groups) (s : section) : LoginFeatureSnapshot :=
  match s with
  | UserSection a now =>
      mkSnapshot (total_of kUserBucketMs now (user_requests (userId a) (g_hist (g_users g)))) 0 0 0
  | IpSection a now =>
      mkSnapshot 0 (distinct_of now (ip_requests (ip a) (g_hist (g_ips g)))) 0
        (total_of kIpFailureBucketMs now (ip_requests (ip a) (g_hist (g_ips g))))
  | DeviceSection a now =>
      mkSnapshot 0 0 (distinct_of now (device_requests (deviceId a) (g_hist (g_devices g)))) 0
  | _ => empty_snapshot
  end.

Fixpoint exact_sections (g : groups) (ss : list section) : list LoginFeatureSnapshot :=
  match ss with
  | [] => []
  | s :: rest =>
      exact_section (section_groups g s) s :: exact_sections (section_groups g s) rest
  end.

(** The clock of the section's group does not go back, and the ranges and
    window capacities hold in that group. *)
Definition section_ok (g : groups) (s : section) : Prop :=
  let later g now := g_now g <= now /\ is_u64 now in
  let fits g a now := later g now /\ hist_ok (g_hist g ++ [(a, now)]) in
  match s with
  | UserSection a now => fits (g_users g) a now
  | IpSection a now =>
      fits (g_ips g) a now
      /\ distinct_of now (ip_requests (ip a) (g_hist (g_ips g) ++ [(a, now)]))
         <= kDistinctMaxMembers
  | DeviceSection a now =>
      fits (g_devices g) a now
      /\ distinct_of now (device_requests (deviceId a) (g_hist (g_devices g) ++ [(a, now)]))
         <= kDistinctMaxMembers
  | ReclaimUserShard _ now => later (g_users g) now
  | ReclaimIpShard _ now => later (g_ips g) now
  | ReclaimDeviceShard _ now => later (g_devices g) now
  end.

Fixpoint sections_ok (g : groups) (ss : list section) : Prop :=
  match ss with
  | [] => True
  | s :: rest => section_ok g s /\ sections_ok (section_groups g s) rest
  end.

Definition group_past (g : group) : Prop := Forall (fun x : request => x.2 <= g_now g) (g_hist g).

Record groups_inv (hash : string -> Z) (st : LoginFeatureStore) (g : groups) : Prop := {
  gi_config : isValidReclamationConfig (reclamation_config_ st) = true;
  gi_past : group_past (g_users g) /\ group_past (g_ips g) /\ group_past (g_devices g);
  gi_users : shards_inv hash kUserShardNum
    (user_cell (g_hist (g_users g)) (g_now (g_users g))) (user_shards_ st);
  gi_ips : shards_inv hash kDistinctShardNum
    (ip_cell (g_hist (g_ips g)) (g_now (g_ips g))) (ip_shards_ st);
  gi_devices : shards_inv hash kDistinctShardNum
    (device_cell (g_hist (g_devices g)) (g_now (g_devices g))) (device_shards_ st);
}.

Lemma group_past_add g a now : group_past g -> g_now g <= now -> group_past (group_add g a now).
Proof.
  intros Hp Hle. apply Forall_app. split; [|by repeat constructor; simpl; lia].
  eapply Forall_impl; [exact Hp|]. simpl. lia.
Qed.

Lemma group_past_later g now : group_past g -> g_now g <= now -> group_past (mkGroup (g_hist g) now).
Proof. intros Hp Hle. eapply Forall_impl; [exact Hp|]. simpl. lia. Qed.

Lemma run_section_spec hash st g s :
  groups_inv hash st g -> section_ok g s ->
  let '(st', out) := run_section hash st s in
  groups_inv hash st' (section_groups g s) /\ out = exact_section (section_groups g s) s.
Proof.
  intros [H1 (P1 & P2 & P3) H3 H4 H5] Hs. destruct s as [a now|a now|a now|i now|i now|i now].
  - destruct Hs as ([Hle Hn] & Hok).
    pose proof (updateUser_spec hash _ _ now a Hle Hn Hok P1 st empty_snapshot H3 eq_refl) as H.
    simpl in *. destruct (updateUser _ _ _ _ _) as [st' out].
    destruct H as (H & -> & E1 & E2 & E3). split; [|done].
    split; simpl; rewrite ?E1, ?E2, ?E3; try done. split_and!; [by apply group_past_add|done..].
  - destruct Hs as (([Hle Hn] & Hok) & Hfit).
    pose proof (updateIp_spec hash _ _ now a Hle Hn Hok Hfit P2 st empty_snapshot H4 eq_refl
      eq_refl) as H. simpl in *. destruct (updateIp _ _ _ _ _) as [st' out].
    destruct H as (H & -> & E1 & E2 & E3). split; [|done].
    split; simpl; rewrite ?E1, ?E2, ?E3; try done. split_and!; [done|by apply group_past_add|done].
  - destruct Hs as (([Hle Hn] & Hok) & Hfit).
    pose proof (updateDevice_spec hash _ _ now a Hle Hn Hok Hfit P3 st empty_snapshot H5 eq_refl)
      as H. simpl in *. destruct (updateDevice _ _ _ _ _) as [st' out].
    destruct H as (H & -> & E1 & E2 & E3). split; [|done].
    split; simpl; rewrite ?E1, ?E2, ?E3; try done. split_and!; [done..|by apply group_past_add].
  - destruct Hs as [Hle Hn]. split; [|done]. split; simpl; try done.
    { split_and!; [by apply group_past_later|done..]. }
    apply shards_inv_reclaim_at; [unfold kUserShardNum; lia| |by apply user_cell_gone].
    eapply shards_inv_mono; [|exact H3]. intros. by eapply user_cell_later.
  - destruct Hs as [Hle Hn]. split; [|done]. split; simpl; try done.
    { split_and!; [done|by apply group_past_later|done]. }
    apply shards_inv_reclaim_at; [unfold kDistinctShardNum; lia| |by apply ip_cell_gone].
    eapply shards_inv_mono; [|exact H4]. intros. by eapply ip_cell_later.
  - destruct Hs as [Hle Hn]. split; [|done]. split; simpl; try done.
    { split_and!; [done..|by apply group_past_later]. }
    apply shards_inv_reclaim_at; [unfold kDistinctShardNum; lia| |by apply device_cell_gone].
    eapply shards_inv_mono; [|exact H5]. intros. by eapply device_cell_later.
Qed.

Definition no_requests : groups := mkGroups (mkGroup [] 0) (mkGroup [] 0) (mkGroup [] 0).

(** Exactness in every interleaving of the critical sections: each section of
    each request reads exactly the features that the window definitions
    compute from the requests that entered the sections of its group before
    it, whatever the other groups and the rounds of single shards did in
    between (the clock of each group does not go back, and its ranges and
    window capacities hold). *)
Theorem feature_sections_exact hash config st ss :
  make config = Ok st -> sections_ok no_requests ss ->
  run_sections hash st ss = exact_sections no_requests ss.
Proof.
  intros Hmake. apply (make_inv hash) in Hmake as [H1 H2 H3 H4 H5].
  assert (groups_inv hash st no_requests) as Hinv by (by split).
  clear -Hinv. revert st Hinv. generalize no_requests.
  induction ss as [|s ss IH]; simpl; intros g st Hinv; [done|]. intros [Hs Hss].
  pose proof (run_section_spec hash st g s Hinv Hs) as H.
  destruct (run_section hash st s) as [st' out]. destruct H as [Hinv' ->].
  f_equal. by apply IH.
Qed.

(** C2. A store built from any accepted configuration, driven by any
    sequence of requests and reclamation rounds, gives every request exactly
    the four features that the window definitions compute from the whole
    history of requests, for any hash function: sharding, lazy creation, lazy
    expiry and the dropping of cold states are unobservable.  Conditions: the
    clock readings never go back, there are fewer than 2^32 requests, and no
    IP and no device sees more than 5000 different accounts within its
    ten-minute window (beyond that the trackers drop members); a request is
    served as one step ([feature_sections_exact] interleaves its sections). *)
Theorem feature_snapshots_exact hash config st ops :
  make config = Ok st -> clock_from 0 (op_now <$> ops) ->
  Forall (fun op => is_u64 (op_now op)) ops ->
  hist_ok (requests ops) -> windows_fit [] (requests ops) ->
  (run_store hash st ops).2 = exact_snapshots [] (requests ops).
Proof.
  intros Hmake Hclock Hu Hok Hfit. by eapply run_store_spec; [by eapply make_inv|..].
Qed.

Definition sample_attempt (id : Z) (u : string) (ts : Z) (r : LoginResult) : LoginAttempt :=
  mkLoginAttempt id ts u "10.0.0.1" "dev-1" r.

Definition sample_ops : list store_op :=
  [Request (sample_attempt 1 "alice" 1000 fail_) 1500;
   Request (sample_attempt 2 "bob" 2000 fail_) 2500;
   Reclaim 600000;
   Request (sample_attempt 3 "alice" 600500 success) 601000;
   Reclaim 2000000;
   Request (sample_attempt 4 "alice" 2000100 fail_) 2000200].

Definition sample_store : LoginFeatureStore :=
  mkStore default_reclamation (replicate kUserShardNum ∅) (replicate kDistinctShardNum ∅)
    (replicate kDistinctShardNum ∅).

Lemma feature_snapshots_exact_witness :
  (run_store (fun _ => 7) sample_store sample_ops).2 = exact_snapshots [] (requests sample_ops)
  /\ exact_snapshots [] (requests sample_ops)
     = [mkSnapshot 1 1 1 1; mkSnapshot 1 2 2 2; mkSnapshot 0 0 1 0; mkSnapshot 1 1 1 1].
Proof.
  split; [|vm_compute; reflexivity].
  apply (feature_snapshots_exact _ default_reclamation); [reflexivity|simpl; lia|..].
  - repeat constructor; unfold is_u64; simpl; lia.
  - split; [repeat constructor; unfold is_u64; simpl; lia|vm_compute; reflexivity].
  - repeat split; vm_compute; discriminate.
Defined.

(** Two requests of one device whose sections interleave: the user sections
    of both come first, the device section of the second before the first's. *)
Definition sample_sections : list section :=
  let a := sample_attempt 1 "alice" 1000 fail_ in
  let b := sample_attempt 2 "bob" 1100 fail_ in
  [UserSection a 1500; UserSection b 1600; IpSection a 1500; ReclaimUserShard 7 1700;
   IpSection b 1600; DeviceSection b 1600; ReclaimIpShard 3 1700; DeviceSection a 1600].

Lemma feature_sections_exact_witness :
  run_sections (fun _ => 7) sample_store sample_sections
  = exact_sections no_requests sample_sections
  /\ exact_sections no_requests sample_sections
     = [mkSnapshot 1 0 0 0; mkSnapshot 1 0 0 0; mkSnapshot 0 1 0 1; empty_snapshot;
        mkSnapshot 0 2 0 2; mkSnapshot 0 0 1 0; empty_snapshot; mkSnapshot 0 0 2 0].
Proof.
  split; [|vm_compute; reflexivity].
  apply (feature_sections_exact _ default_reclamation); [reflexivity|].
  repeat match goal with
  | |- _ /\ _ => split
  | |- sections_ok _ [] => exact I
  | |- sections_ok _ _ => split
  | |- section_ok _ _ => unfold section_ok; cbn zeta
  | |- hist_ok _ => split; [repeat constructor; unfold is_u64; simpl; lia|vm_compute; reflexivity]
  | |- is_u64 _ => unfold is_u64; lia
  | |- distinct_of _ _ <= _ => vm_compute; discriminate
  | |- _ <= _ => simpl; lia
  end.
Defined.

(** The constructor accepts exactly the configurations that
    [isValidReclamationConfig] accepts, and then starts with empty shards. *)
Theorem make_accepts_valid_config config :
  match make config with
  | Ok st => isValidReclamationConfig config = true /\ reclamation_config_ st = config
             /\ currentStats st = mkStats 0 0 0 0 0
  | Throw _ => isValidReclamationConfig config = false
  end.
Proof.
  unfold make, validateReclamationConfig, isValidReclamationConfig.
  repeat (case_if; simpl);
    repeat match goal with H : (_ || _)%bool = true |- _ => apply orb_true_iff in H as [?|?] end;
    bool_to_prop.
  - rewrite (proj2 (Z.leb_gt _ _)) by lia. done.
  - rewrite !andb_false_iff, !Z.leb_gt. lia.
  - rewrite !andb_false_iff, !Z.leb_gt. lia.
  - rewrite !andb_true_iff, !Z.leb_le. split_and!; done.
Qed.


(** A reclamation round drops exactly the states that have been idle for
    their TTL: a lookup of any user, IP or device gives the state it gave
    before, or nothing when that state's [last_seen_ms] is at least the
    configured TTL old (a clock that went back drops nothing). *)
Theorem reclaim_drops_idle_states hash st now k :
  length (user_shards_ st) = kUserShardNum ->
  length (ip_shards_ st) = kDistinctShardNum ->
  length (device_shards_ st) = kDistinctShardNum ->
  let config := reclamation_config_ st in
  let kept {A} (last_seen : A -> Z) ttl (o : option A) :=
    match o with
    | Some s => if isExpired (last_seen s) now ttl then None else Some s
    | None => None
    end in
  let st' := reclaimColdStates st now in
  shard_find hash kUserShardNum (user_shards_ st') k
    = kept user_last_seen_ms (user_ttl_ms config) (shard_find hash kUserShardNum (user_shards_ st) k)
  /\ shard_find hash kDistinctShardNum (ip_shards_ st') k
    = kept ip_last_seen_ms (ip_ttl_ms config) (shard_find hash kDistinctShardNum (ip_shards_ st) k)
  /\ shard_find hash kDistinctShardNum (device_shards_ st') k
    = kept device_last_seen_ms (device_ttl_ms config)
        (shard_find hash kDistinctShardNum (device_shards_ st) k).
Proof.
  intros. split_and!; simpl; apply shard_find_reclaim; done || (unfold kUserShardNum, kDistinctShardNum; lia).
Qed.

Lemma reclaim_drops_idle_states_witness :
  let st := (run_store (fun _ => 7) sample_store sample_ops).1 in
  shard_find (fun _ => 7) kUserShardNum (user_shards_ (reclaimColdStates st 2600200)) "alice" = None
  /\ is_Some (shard_find (fun _ => 7) kUserShardNum (user_shards_ (reclaimColdStates st 2600199)) "alice").
Proof.
  intros st.
  destruct (reclaim_drops_idle_states (fun _ => 7) st 2600200 "alice" eq_refl eq_refl eq_refl)
    as [-> _].
  destruct (reclaim_drops_idle_states (fun _ => 7) st 2600199 "alice" eq_refl eq_refl eq_refl)
    as [-> _].
  split; [vm_compute; reflexivity|]. eexists. vm_compute. reflexivity.
Defined.
