(* ===== verification/Calendar.v ===== *)
(** * Calendar: broken-down UTC time

    The parts of the C library that [storage/mysql_dao.cpp] and [log/logger.cpp]
    call: [gmtime_r] and [timegm], for the seconds and years that the callers allow, in the
    proleptic Gregorian calendar of POSIX.  [tm_isdst] is always zero and the
    day of the week and of the year are not used. *)

From S2P Require Import Prelude.
Open Scope Z_scope.

(** [std::tm]: [tm_year] counts from 1900, [tm_mon] from zero. *)
Record tm := mkTm {
  tm_year : Z;
  tm_mon : Z;
  tm_mday : Z;
  tm_hour : Z;
  tm_min : Z;
  tm_sec : Z;
}.

Definition is_leap (y : Z) : bool :=
  ((y mod 4 =? 0) && (negb (y mod 100 =? 0) || (y mod 400 =? 0)))%bool.

(** Days from 1970-01-01 to the first of January of [y]. *)
Definition days_before_year (y : Z) : Z :=
  365 * (y - 1970) + ((y - 1) / 4 - (y - 1) / 100 + (y - 1) / 400) - 477.

(** Days from the first of January to the first of the month [m]. *)
Definition days_before_month (leap : bool) (m : Z) : Z :=
  match m with
  | 0 => 0 | 1 => 31 | 2 => 59 | 3 => 90 | 4 => 120 | 5 => 151 | 6 => 181 | 7 => 212 | 8 => 243
  | 9 => 273 | 10 => 304 | _ => 334
  end + (if (leap && (1 <? m))%bool then 1 else 0).

(** The last year from [y] down that has begun on the day [days]. *)
Fixpoint find_year (fuel : nat) (y days : Z) : Z :=
  match fuel with
  | O => y
  | S fuel => if days_before_year y <=? days then y else find_year fuel (y - 1) days
  end.

Definition year_of (days : Z) : Z := find_year (Z.to_nat (days / 365)) (1970 + days / 365) days.

(** The last month that has begun on the day [yday] of the year. *)
Definition month_of (leap : bool) (yday : Z) : Z :=
  default 0 (List.find (fun m => days_before_month leap m <=? yday) [11; 10; 9; 8; 7; 6; 5; 4; 3; 2; 1; 0]).

(** [gmtime_r] *)
Definition gmtime (seconds : Z) : tm :=
  let days := seconds / 86400 in
  let rest := seconds mod 86400 in
  let y := year_of days in
  let yday := days - days_before_year y in
  let m := month_of (is_leap y) yday in
  mkTm (y - 1900) m (yday - days_before_month (is_leap y) m + 1) (rest / 3600) (rest mod 3600 / 60)
    (rest mod 60).

(** [timegm]: the seconds, and the normalised fields it writes back. *)
Definition tm_seconds (t : tm) : Z :=
  let y := tm_year t + 1900 in
  (days_before_year y + days_before_month (is_leap y) (tm_mon t) + tm_mday t - 1) * 86400
  + tm_hour t * 3600 + tm_min t * 60 + tm_sec t.

Definition timegm (t : tm) : Z * tm := let seconds := tm_seconds t in (seconds, gmtime seconds).

(** ** Facts *)

Lemma days_before_year_succ y :
  days_before_year (y + 1) = days_before_year y + (if is_leap y then 366 else 365).
Proof.
  unfold days_before_year, is_leap. replace (y + 1 - 1) with y by lia.
  pose proof (Z.div_mod y 4 ltac:(lia)). pose proof (Z.mod_pos_bound y 4 ltac:(lia)).
  pose proof (Z.div_mod (y - 1) 4 ltac:(lia)). pose proof (Z.mod_pos_bound (y - 1) 4 ltac:(lia)).
  pose proof (Z.div_mod y 100 ltac:(lia)). pose proof (Z.mod_pos_bound y 100 ltac:(lia)).
  pose proof (Z.div_mod (y - 1) 100 ltac:(lia)). pose proof (Z.mod_pos_bound (y - 1) 100 ltac:(lia)).
  pose proof (Z.div_mod y 400 ltac:(lia)). pose proof (Z.mod_pos_bound y 400 ltac:(lia)).
  pose proof (Z.div_mod (y - 1) 400 ltac:(lia)). pose proof (Z.mod_pos_bound (y - 1) 400 ltac:(lia)).
  destruct (Z.eqb_spec (y mod 4) 0), (Z.eqb_spec (y mod 100) 0), (Z.eqb_spec (y mod 400) 0);
    simpl; lia.
Qed.

Lemma days_before_year_linear y : 1970 <= y -> 365 * (y - 1970) <= days_before_year y.
Proof.
  intros Hy. unfold days_before_year.
  pose proof (Z.div_mod (y - 1) 4 ltac:(lia)). pose proof (Z.mod_pos_bound (y - 1) 4 ltac:(lia)).
  pose proof (Z.div_mod (y - 1) 100 ltac:(lia)). pose proof (Z.mod_pos_bound (y - 1) 100 ltac:(lia)).
  pose proof (Z.div_mod (y - 1) 400 ltac:(lia)). pose proof (Z.mod_pos_bound (y - 1) 400 ltac:(lia)).
  lia.
Qed.

Lemma days_before_year_mono y z : y <= z -> days_before_year y <= days_before_year z.
Proof.
  intros H. replace z with (y + Z.of_nat (Z.to_nat (z - y))) by lia.
  induction (Z.to_nat (z - y)) as [|n IH]; [rewrite Z.add_0_r; lia|].
  replace (y + Z.of_nat (S n)) with (y + Z.of_nat n + 1) by lia.
  rewrite days_before_year_succ. case_match; lia.
Qed.

Lemma find_year_spec fuel y days :
  days < days_before_year (y + 1) -> days_before_year (y - Z.of_nat fuel) <= days ->
  let r := find_year fuel y days in
  days_before_year r <= days < days_before_year (r + 1).
Proof.
  revert y. induction fuel as [|fuel IH]; intros y H1 H2; simpl.
  { rewrite Z.sub_0_r in H2. lia. }
  destruct (Z.leb_spec (days_before_year y) days); [lia|]. apply IH.
  - replace (y - 1 + 1) with y by lia. done.
  - replace (y - 1 - Z.of_nat fuel) with (y - Z.of_nat (S fuel)) by lia. done.
Qed.

Lemma year_of_spec days :
  0 <= days -> days_before_year (year_of days) <= days < days_before_year (year_of days + 1).
Proof.
  intros Hd. unfold year_of. pose proof (Z.div_mod days 365 ltac:(lia)).
  pose proof (Z.mod_pos_bound days 365 ltac:(lia)). assert (0 <= days / 365) by (apply Z.div_pos; lia).
  apply find_year_spec.
  - pose proof (days_before_year_linear (1970 + days / 365 + 1)). lia.
  - rewrite Z2Nat.id by done. replace (1970 + days / 365 - days / 365) with 1970 by lia. done.
Qed.

Lemma month_of_spec (leap : bool) yday :
  0 <= yday < (if leap then 366 else 365) ->
  let m := month_of leap yday in
  0 <= m <= 11 /\ 0 <= yday - days_before_month leap m <= 30.
Proof.
  intros Hy. unfold month_of, List.find.
  repeat (match goal with |- context [days_before_month leap ?m <=? yday] =>
    destruct (Z.leb_spec (days_before_month leap m) yday) end;
    [destruct leap; unfold days_before_month in *; simpl in *; lia|]).
  destruct leap; unfold days_before_month in *; simpl in *; lia.
Qed.

Lemma year_of_bounds days y : 0 <= days < days_before_year y -> 1970 <= year_of days < y.
Proof.
  intros [H0 H1]. destruct (year_of_spec days H0) as [H2 H3]. split.
  - destruct (Z.le_gt_cases 1970 (year_of days)) as [|Hlt]; [done|].
    pose proof (days_before_year_mono (year_of days + 1) 1970 ltac:(lia)) as Hm.
    change (days_before_year 1970) with 0 in Hm. lia.
  - destruct (Z.lt_ge_cases (year_of days) y) as [|Hge]; [done|].
    pose proof (days_before_year_mono y (year_of days) Hge). lia.
Qed.

(** The fields of [gmtime] are in the ranges of the calendar, and counting
    them back gives the seconds. *)
Lemma gmtime_spec seconds y :
  0 <= seconds < days_before_year y * 86400 ->
  let t := gmtime seconds in
  70 <= tm_year t < y - 1900 /\ 0 <= tm_mon t <= 11 /\ 1 <= tm_mday t <= 31
  /\ 0 <= tm_hour t <= 23 /\ 0 <= tm_min t <= 59 /\ 0 <= tm_sec t <= 59
  /\ tm_seconds t = seconds.
Proof.
  intros Hs. assert (0 <= seconds / 86400 < days_before_year y) as Hd by zlia.
  destruct (year_of_spec _ (proj1 Hd)) as [Hy1 Hy2]. pose proof (year_of_bounds _ _ Hd) as Hyb.
  rewrite days_before_year_succ in Hy2. unfold gmtime, tm_seconds. cbn [tm_year tm_mon tm_mday tm_hour tm_min tm_sec].
  set (days := seconds / 86400) in *. set (yr := year_of days) in *.
  assert (0 <= days - days_before_year yr < (if is_leap yr then 366 else 365)) as Hyd by (case_match; lia).
  destruct (month_of_spec _ _ Hyd) as [Hm1 Hm2]. replace (yr - 1900 + 1900) with yr by lia.
  set (m := month_of _ _) in *. unfold days in *. zlia.
Qed.
