(* ===== verification/IpAddress.v ===== *)
(** * IpAddress: canonical IP addresses

    Model of [include/aegisflow/domain/ip_address.hpp] and
    [src/domain/ip_address.cpp].  The C library's [inet_pton] and [inet_ntop]
    are the operations of the class [Inet]; what POSIX documents of them is the
    class [InetLaws].  [ReferenceInet] is a concrete implementation of both. *)

From Stdlib Require Import Ascii.
From S2P Require Import Prelude.
Open Scope Z_scope.

(** [value.find('\0') != npos] *)
Definition containsNull (value : string) : bool :=
  existsb (Ascii.eqb Ascii.zero) (String.list_ascii_of_string value).

(** [inet_pton(AF_INET / AF_INET6, text, dst) == 1] with the bytes it writes,
    [inet_ntop] with the text it writes, [None] on failure. *)
Class Inet := {
  inet_pton4 : string -> option bytes_t;
  inet_pton6 : string -> option bytes_t;
  inet_ntop4 : bytes_t -> option string;
  inet_ntop6 : bytes_t -> option string;
}.

(** What POSIX documents: the sizes of the two address formats; [inet_ntop]
    succeeds when the buffer has [INET6_ADDRSTRLEN] bytes; the text it writes
    is a non-empty C string that fits the buffer and denotes the same address,
    and an IPv6 text (it has colons) is not in dotted-decimal format. *)
Class InetLaws `{Inet} := {
  pton4_size s bs : inet_pton4 s = Some bs -> length bs = 4%nat /\ Forall is_byte bs;
  pton6_size s bs : inet_pton6 s = Some bs -> length bs = 16%nat /\ Forall is_byte bs;
  ntop4_total bs : length bs = 4%nat -> Forall is_byte bs -> is_Some (inet_ntop4 bs);
  ntop6_total bs : length bs = 16%nat -> Forall is_byte bs -> is_Some (inet_ntop6 bs);
  ntop4_text bs s : length bs = 4%nat -> Forall is_byte bs -> inet_ntop4 bs = Some s ->
    s <> "" /\ containsNull s = false /\ inet_pton4 s = Some bs;
  ntop6_text bs s : length bs = 16%nat -> Forall is_byte bs -> inet_ntop6 bs = Some s ->
    s <> "" /\ containsNull s = false /\ inet_pton6 s = Some bs /\ inet_pton4 s = None;
  ntop4_size bs s : length bs = 4%nat -> inet_ntop4 bs = Some s -> (String.length s < 46)%nat;
  ntop6_size bs s : length bs = 16%nat -> inet_ntop6 bs = Some s -> (String.length s < 46)%nat;
}.

Record IpAddress := mkIpAddress {
  bytes_ : bytes_t;             (* std::array<std::uint8_t, 16> *)
  byte_count_ : Z;
  canonicalText : string;
}.

#[export] Instance IpAddress_eq_dec : EqDecision IpAddress.
Proof. solve_decision. Defined.

(** [{bytes_.data(), byte_count_}] *)
Definition ip_bytes (a : IpAddress) : bytes_t := take (Z.to_nat (byte_count_ a)) (bytes_ a).

Definition isIpv4 (a : IpAddress) : bool := byte_count_ a =? 4.

Definition isIpv4MappedIpv6 (bytes : bytes_t) : bool :=
  forallb (fun byte => byte =? 0) (take 10 bytes)
  && (bytes !!! 10%nat =? 255) && (bytes !!! 11%nat =? 255).

(** [std::copy(src.begin(), src.end(), dst.begin())] *)
Definition copy_to_front (src dst : bytes_t) : bytes_t := src ++ drop (length src) dst.

Section Address.
Context `{Inet}.

Definition fromBytes (bytes : bytes_t) : option IpAddress :=
  if (negb (size_of bytes =? 4) && negb (size_of bytes =? 16))%bool then None
  else
    let normalized := copy_to_front bytes (replicate 16 0) in
    let byte_count := size_of bytes in
    let '(normalized, byte_count) :=
      if ((byte_count =? 16) && isIpv4MappedIpv6 normalized)%bool
      then (take 4 (copy_to_front (drop 12 normalized) normalized) ++ replicate 12 0, 4)
      else (normalized, byte_count) in
    match (if byte_count =? 4 then inet_ntop4 (take 4 normalized) else inet_ntop6 normalized) with
    | None => None
    | Some text => Some (mkIpAddress normalized byte_count text)
    end.

Definition parse (text : string) : option IpAddress :=
  if (bool_decide (text = "") || containsNull text)%bool then None
  else
    match inet_pton4 text with
    | Some bytes => fromBytes bytes
    | None =>
        match inet_pton6 text with
        | Some bytes => fromBytes bytes
        | None => None
        end
    end.

(** ** Canonical form *)

Context `{!InetLaws}.

(** The value object's invariant: the text is the presentation of the bytes,
    and a 16-byte address is not an IPv4 address in disguise. *)
Inductive canonical : IpAddress -> Prop :=
| canonical_v4 bs text :
    length bs = 4%nat -> Forall is_byte bs -> inet_ntop4 bs = Some text ->
    canonical (mkIpAddress (bs ++ replicate 12 0) 4 text)
| canonical_v6 bs text :
    length bs = 16%nat -> Forall is_byte bs -> isIpv4MappedIpv6 bs = false ->
    inet_ntop6 bs = Some text ->
    canonical (mkIpAddress bs 16 text).

Lemma fromBytes_v4 bs :
  length bs = 4%nat ->
  fromBytes bs = (fun text => mkIpAddress (bs ++ replicate 12 0) 4 text) <$> inet_ntop4 bs.
Proof.
  intros Hl. unfold fromBytes, size_of, copy_to_front. rewrite Hl. simpl.
  rewrite take_app_length' by done. by destruct (inet_ntop4 bs).
Qed.

Lemma fromBytes_v6 bs :
  length bs = 16%nat -> isIpv4MappedIpv6 bs = false ->
  fromBytes bs = (fun text => mkIpAddress bs 16 text) <$> inet_ntop6 bs.
Proof.
  intros Hl Hm. unfold fromBytes, size_of, copy_to_front. rewrite Hl. simpl.
  rewrite app_nil_r, Hm. simpl. by destruct (inet_ntop6 bs).
Qed.

(** A mapped address is the address of its last four bytes. *)
Lemma fromBytes_mapped bs :
  length bs = 16%nat -> isIpv4MappedIpv6 bs = true -> fromBytes bs = fromBytes (drop 12 bs).
Proof.
  intros Hl Hm. assert (length (drop 12 bs) = 4%nat) as Hd by (rewrite length_drop; lia).
  rewrite (fromBytes_v4 (drop 12 bs)) by done. unfold fromBytes, size_of, copy_to_front.
  rewrite Hl. cbn -[drop take replicate]. rewrite drop_ge, app_nil_r, Hm by (by rewrite length_replicate; lia).
  cbn -[drop take replicate]. rewrite (take_app_length' (drop 12 bs)) by done.
  change (Z.of_nat 16) with 16. rewrite !Z.eqb_refl. cbn beta iota zeta delta [andb negb Z.eqb Pos.eqb].
  rewrite take_app_length' by done.
  by destruct (inet_ntop4 _).
Qed.

Lemma fromBytes_canonical bs a :
  (length bs = 4%nat \/ length bs = 16%nat) -> Forall is_byte bs ->
  fromBytes bs = Some a -> canonical a.
Proof.
  intros Hl Hb. assert (forall cs, length cs = 4%nat -> Forall is_byte cs ->
    fromBytes cs = Some a -> canonical a) as H4.
  { intros cs Hc Hcb. rewrite fromBytes_v4 by done.
    intros (text & Ht & ->)%fmap_Some. by constructor. }
  destruct Hl as [Hl|Hl]; [by apply H4|]. destruct (isIpv4MappedIpv6 bs) eqn:Hm.
  - rewrite fromBytes_mapped by done. apply H4; [rewrite length_drop; lia|by apply Forall_drop].
  - rewrite fromBytes_v6 by done. intros (text & Ht & ->)%fmap_Some. by constructor.
Qed.

Lemma fromBytes_total bs :
  (length bs = 4%nat \/ length bs = 16%nat) -> Forall is_byte bs -> is_Some (fromBytes bs).
Proof.
  intros Hl Hb. assert (forall cs, length cs = 4%nat -> Forall is_byte cs ->
    is_Some (fromBytes cs)) as H4.
  { intros cs Hc Hcb. rewrite fromBytes_v4 by done. apply fmap_is_Some. by apply ntop4_total. }
  destruct Hl as [Hl|Hl]; [by apply H4|]. destruct (isIpv4MappedIpv6 bs) eqn:Hm.
  - rewrite fromBytes_mapped by done. apply H4; [rewrite length_drop; lia|by apply Forall_drop].
  - rewrite fromBytes_v6 by done. apply fmap_is_Some. by apply ntop6_total.
Qed.

Lemma parse_canonical text a : parse text = Some a -> canonical a.
Proof.
  unfold parse. case_if; [done|].
  destruct (inet_pton4 text) as [bs|] eqn:E4.
  - apply pton4_size in E4 as [? ?]. by apply fromBytes_canonical; [left|].
  - destruct (inet_pton6 text) as [bs|] eqn:E6; [|done].
    apply pton6_size in E6 as [? ?]. by apply fromBytes_canonical; [right|].
Qed.

Lemma canonical_text_size a : canonical a -> (String.length (canonicalText a) < 46)%nat.
Proof. intros [bs text Hl _ Ht|bs text Hl _ _ Ht]; simpl; eauto using ntop4_size, ntop6_size. Qed.

Lemma fromBytes_ip_bytes a : canonical a -> fromBytes (ip_bytes a) = Some a.
Proof.
  intros [bs text Hl Hb Ht|bs text Hl Hb Hm Ht]; unfold ip_bytes; simpl.
  - rewrite take_app_length' by done. by rewrite fromBytes_v4, Ht.
  - rewrite take_ge by lia. by rewrite fromBytes_v6, Ht.
Qed.

(** The canonical text of an address denotes that address. *)
Lemma parse_text a : canonical a -> parse (canonicalText a) = Some a.
Proof.
  intros Hc. pose proof (fromBytes_ip_bytes a Hc) as Hf. revert Hf.
  destruct Hc as [bs text Hl Hb Ht|bs text Hl Hb Hm Ht]; unfold parse, ip_bytes; simpl.
  - destruct (ntop4_text _ _ Hl Hb Ht) as (He & Hz & Hp).
    rewrite bool_decide_false, Hz, Hp by done. by rewrite take_app_length'.
  - destruct (ntop6_text _ _ Hl Hb Ht) as (He & Hz & Hp & Hn).
    rewrite bool_decide_false, Hz, Hn, Hp by done. by rewrite take_ge by lia.
Qed.

(** Total on the texts that the C library accepts. *)
Lemma parse_accepts text :
  text <> "" -> containsNull text = false ->
  is_Some (inet_pton4 text) \/ is_Some (inet_pton6 text) -> is_Some (parse text).
Proof.
  intros He Hz Hp. unfold parse. rewrite bool_decide_false, Hz by done. simpl.
  destruct (inet_pton4 text) as [bs|] eqn:E4.
  - apply pton4_size in E4 as [? ?]. by apply fromBytes_total; [left|].
  - destruct Hp as [[? ?]|[bs E6]]; [done|]. rewrite E6.
    apply pton6_size in E6 as [? ?]. by apply fromBytes_total; [right|].
Qed.
End Address.

(** ** A concrete implementation of the C library's functions

    Dotted decimal for IPv4; for IPv6 the uncompressed form, eight groups of
    four hexadecimal digits separated by colons. *)
Module ReferenceInet.
Definition digit (base : Z) (c : Ascii.ascii) : option Z :=
  let n := Z.of_N (Ascii.N_of_ascii c) in
  let v := if ((48 <=? n) && (n <=? 57))%bool then n - 48
           else if ((97 <=? n) && (n <=? 102))%bool then n - 87 else base in
  if v <? base then Some v else None.

Definition char_of_digit (d : Z) : Ascii.ascii :=
  Ascii.ascii_of_N (Z.to_N (if d <? 10 then 48 + d else 87 + d)).

Fixpoint read_digits (base acc : Z) (s : list Ascii.ascii) : option Z :=
  match s with
  | [] => Some acc
  | c :: r => d ← digit base c; read_digits base (acc * base + d) r
  end.

(** The parts of a text between the occurrences of [sep]. *)
Fixpoint split_on (sep : Ascii.ascii) (s : list Ascii.ascii) : list (list Ascii.ascii) :=
  match s with
  | [] => [[]]
  | c :: r =>
      if Ascii.eqb c sep then [] :: split_on sep r
      else match split_on sep r with
           | [] => [[c]]
           | p :: ps => (c :: p) :: ps
           end
  end.

Fixpoint join_with (sep : Ascii.ascii) (ps : list (list Ascii.ascii)) : list Ascii.ascii :=
  match ps with
  | [] => []
  | [p] => p
  | p :: rest => p ++ sep :: join_with sep rest
  end.

Definition dec_byte (b : Z) : list Ascii.ascii :=
  if b <? 10 then [char_of_digit b]
  else if b <? 100 then [char_of_digit (b / 10); char_of_digit (b mod 10)]
  else [char_of_digit (b / 100); char_of_digit (b / 10 mod 10); char_of_digit (b mod 10)].

Definition read_dec_byte (p : list Ascii.ascii) : option Z :=
  v ← read_digits 10 0 p;
  if ((1 <=? size_of p) && (size_of p <=? 3) && (v <? 256))%bool then Some v else None.

Definition hex_byte (b : Z) : list Ascii.ascii :=
  [char_of_digit (b / 16); char_of_digit (b mod 16)].

Definition read_group (p : list Ascii.ascii) : option bytes_t :=
  match p with
  | [a; b; c; d] =>
      h ← read_digits 16 0 [a; b]; l ← read_digits 16 0 [c; d]; Some [h; l]
  | _ => None
  end.

Fixpoint groups (bs : bytes_t) : list (list Ascii.ascii) :=
  match bs with
  | a :: b :: r => (hex_byte a ++ hex_byte b) :: groups r
  | _ => []
  end.

(** [bs] when it is an address of [n] bytes. *)
Definition sized (n : nat) (bs : bytes_t) : option bytes_t :=
  if ((size_of bs =? Z.of_nat n) && forallb (fun b => (0 <=? b) && (b <? 256)) bs)%bool
  then Some bs else None.

Definition pton4 (s : string) : option bytes_t :=
  bs ← mapM read_dec_byte (split_on "."%char (String.list_ascii_of_string s));
  sized 4 bs.

Definition pton6 (s : string) : option bytes_t :=
  gs ← mapM read_group (split_on ":"%char (String.list_ascii_of_string s));
  sized 16 (mjoin gs).

Definition ntop4 (bs : bytes_t) : option string :=
  Some (String.string_of_list_ascii (join_with "."%char (dec_byte <$> bs))).

Definition ntop6 (bs : bytes_t) : option string :=
  Some (String.string_of_list_ascii (join_with ":"%char (groups bs))).

#[export] Instance inet : Inet := {|
  inet_pton4 := pton4; inet_pton6 := pton6; inet_ntop4 := ntop4; inet_ntop6 := ntop6 |}.

Lemma split_on_plain sep p : sep ∉ p -> split_on sep p = [p].
Proof.
  induction p as [|c p IH]; simpl; [done|]. intros Hn.
  destruct (Ascii.eqb_spec c sep) as [->|Hne]; [set_solver|]. by rewrite IH by set_solver.
Qed.

Lemma split_on_cons sep p rest :
  sep ∉ p -> split_on sep (p ++ sep :: rest) = p :: split_on sep rest.
Proof.
  induction p as [|c p IH]; simpl; intros Hn; [by rewrite Ascii.eqb_refl|].
  destruct (Ascii.eqb_spec c sep) as [->|Hne]; [set_solver|]. by rewrite IH by set_solver.
Qed.

Lemma split_join sep ps :
  ps <> [] -> Forall (fun p => sep ∉ p) ps -> split_on sep (join_with sep ps) = ps.
Proof.
  intros Hne Hf. induction Hf as [|p ps Hp Hps IH]; [done|].
  destruct ps as [|q ps]; simpl; [by apply split_on_plain|].
  rewrite split_on_cons by done. f_equal. by apply IH.
Qed.

Definition all_bytes : list Z := Z.of_nat <$> seq 0 256.

Lemma elem_of_all_bytes b : is_byte b -> b ∈ all_bytes.
Proof.
  intros [H1 H2]. apply list_elem_of_fmap. exists (Z.to_nat b).
  split; [lia|]. apply elem_of_seq. lia.
Qed.

(** A decidable fact that holds of every byte, by checking all of them. *)
Lemma byte_check (P : Z -> bool) b :
  forallb P all_bytes = true -> is_byte b -> P b = true.
Proof.
  intros Hall Hb. rewrite forallb_forall in Hall. apply Hall, list_elem_of_In.
  by apply elem_of_all_bytes.
Qed.

(** What the round trip needs of the text of one byte. *)
Definition plain (c : Ascii.ascii) : bool :=
  negb (Ascii.eqb c "."%char) && negb (Ascii.eqb c ":"%char) && negb (Ascii.eqb Ascii.zero c).

Definition byte_ok (b : Z) : bool :=
  bool_decide (read_dec_byte (dec_byte b) = Some b)
  && bool_decide (read_digits 16 0 (hex_byte b) = Some b)
  && forallb plain (dec_byte b) && forallb plain (hex_byte b)
  && negb (bool_decide (dec_byte b = [])).

Lemma byte_ok_all b : is_byte b -> byte_ok b = true.
Proof. apply byte_check. vm_compute. reflexivity. Qed.

Lemma plain_not_in c l :
  (c = "."%char \/ c = ":"%char \/ c = Ascii.zero) -> forallb plain l = true -> c ∉ l.
Proof.
  rewrite forallb_forall. intros Hc Hl Hin%list_elem_of_In%Hl.
  by destruct Hc as [->|[->| ->]].
Qed.

Lemma join_with_not_in c sep ps :
  c <> sep -> Forall (fun p => c ∉ p) ps -> c ∉ join_with sep ps.
Proof.
  intros Hne Hf. induction Hf as [|p ps Hp Hps IH]; simpl; [set_solver|].
  destruct ps; set_solver.
Qed.

Lemma containsNull_not_in l :
  Ascii.zero ∉ l -> containsNull (String.string_of_list_ascii l) = false.
Proof.
  intros Hn. unfold containsNull. rewrite String.list_ascii_of_string_of_list_ascii.
  apply not_true_iff_false. intros (c & Hc & He)%existsb_exists.
  apply Ascii.eqb_eq in He as <-. by apply Hn, list_elem_of_In.
Qed.

Lemma mapM_roundtrip {A B} (f : A -> option B) (g : B -> A) bs :
  Forall (fun b => f (g b) = Some b) bs -> mapM f (g <$> bs) = Some bs.
Proof. intros H. apply mapM_Some, Forall2_fmap_l, Forall_Forall2_diag. done. Qed.

Lemma byte_ok_spec b : is_byte b ->
  read_dec_byte (dec_byte b) = Some b /\ read_digits 16 0 (hex_byte b) = Some b
  /\ forallb plain (dec_byte b) = true /\ forallb plain (hex_byte b) = true
  /\ dec_byte b <> [].
Proof. intros H%byte_ok_all. unfold byte_ok in H. bool_to_prop. done. Qed.

Lemma groups_roundtrip bs :
  Nat.Even (length bs) -> Forall is_byte bs ->
  exists gs, mapM read_group (groups bs) = Some gs /\ mjoin gs = bs
             /\ Forall (fun p => forallb plain p = true) (groups bs).
Proof.
  intros He. assert (exists k, length bs = 2 * k)%nat as [k Hk] by done. clear He.
  revert bs Hk. induction k as [|k IH]; intros [|a [|b bs]] Hk Hf; simpl in Hk; try lia.
  - by exists [].
  - rewrite !Forall_cons in Hf. destruct Hf as (Ha & Hb & Hf).
    destruct (IH bs ltac:(lia) Hf) as (gs & Hg & Hj & Hp).
    pose proof (byte_ok_spec a Ha) as (_ & Ra & _ & Pa & _).
    pose proof (byte_ok_spec b Hb) as (_ & Rb & _ & Pb & _).
    exists ([a; b] :: gs). split_and!.
    + cbn [groups]. cbn [mapM]. unfold hex_byte in *. cbn [app read_group].
      rewrite Ra. cbn [mbind option_bind]. rewrite Rb. cbn [mbind option_bind]. by rewrite Hg.
    + change (mjoin ([a; b] :: gs)) with ([a; b] ++ mjoin gs). by rewrite Hj.
    + cbn [groups]. constructor; [|done]. rewrite forallb_app. by rewrite Pa, Pb.
Qed.

Lemma bytes_check bs : forallb (fun b => (0 <=? b) && (b <? 256))%bool bs = true <-> Forall is_byte bs.
Proof.
  rewrite forallb_forall, Forall_forall. split; intros H x Hx.
  - apply list_elem_of_In, H in Hx. unfold is_byte. bool_to_prop. lia.
  - apply list_elem_of_In, H in Hx. unfold is_byte in Hx. by rewrite andb_true_iff, Z.leb_le, Z.ltb_lt.
Qed.

Lemma sized_spec n bs cs : sized n bs = Some cs <-> cs = bs /\ length bs = n /\ Forall is_byte bs.
Proof.
  unfold sized, size_of. split.
  - case_if; [|done]. intros [= <-]. by rewrite <-bytes_check; split_and!; [|lia|].
  - intros (-> & Hl & Hb%bytes_check). by rewrite Hb, (proj2 (Z.eqb_eq _ _)) by lia.
Qed.

Lemma dec_text_plain bs c :
  c = ":"%char \/ c = Ascii.zero -> Forall is_byte bs ->
  c ∉ join_with "."%char (dec_byte <$> bs).
Proof.
  intros Hc Hb. apply join_with_not_in; [by destruct Hc as [->| ->]|].
  apply Forall_fmap. eapply Forall_impl; [exact Hb|]. intros b Hx%byte_ok_spec.
  apply plain_not_in; [tauto|apply Hx].
Qed.

Lemma split_dec bs :
  bs <> [] -> Forall is_byte bs ->
  split_on "."%char (join_with "."%char (dec_byte <$> bs)) = dec_byte <$> bs.
Proof.
  intros Hne Hb. apply split_join; [by destruct bs|]. apply Forall_fmap.
  eapply Forall_impl; [exact Hb|]. intros b Hx%byte_ok_spec. apply plain_not_in; [tauto|apply Hx].
Qed.

Lemma ntop4_roundtrip bs s :
  length bs = 4%nat -> Forall is_byte bs -> ntop4 bs = Some s ->
  s <> "" /\ containsNull s = false /\ pton4 s = Some bs.
Proof.
  intros Hl Hb [= <-]. split_and!.
  - destruct bs as [|b [|b' bs]]; [done..|]. apply Forall_cons in Hb as [Hb%byte_ok_spec _].
    simpl. by destruct (dec_byte b); [tauto|].
  - apply containsNull_not_in, dec_text_plain; [by right|done].
  - unfold pton4. rewrite String.list_ascii_of_string_of_list_ascii, split_dec by (by destruct bs).
    rewrite mapM_roundtrip; [by apply sized_spec|].
    eapply Forall_impl; [exact Hb|]. intros b Hx%byte_ok_spec; apply Hx.
Qed.

(** A part with a colon is not a decimal byte. *)
Lemma read_digits_colon p base acc : base <= 16 -> ":"%char ∈ p -> read_digits base acc p = None.
Proof.
  intros Hbase. revert acc. induction p as [|c p IH]; intros acc Hin; [set_solver|].
  simpl. destruct (digit base c) as [d|] eqn:E; [|done]. simpl. apply IH.
  apply elem_of_cons in Hin as [<-|?]; [|done]. unfold digit in E. simpl in E.
  rewrite (proj2 (Z.ltb_ge _ _)) in E by lia. done.
Qed.

Lemma ntop6_roundtrip bs s :
  length bs = 16%nat -> Forall is_byte bs -> ntop6 bs = Some s ->
  s <> "" /\ containsNull s = false /\ pton6 s = Some bs /\ pton4 s = None.
Proof.
  intros Hl Hb [= <-].
  destruct (groups_roundtrip bs ltac:(exists 8%nat; lia) Hb) as (gs & Hg & Hj & Hp).
  assert (forall c, c = "."%char \/ c = ":"%char \/ c = Ascii.zero ->
    Forall (fun p => c ∉ p) (groups bs)) as Hc.
  { intros c Hc. eapply Forall_impl; [exact Hp|]. intros p. by apply plain_not_in. }
  assert (exists p q ps, groups bs = p :: q :: ps) as (p & q & ps & Eg).
  { do 4 (destruct bs as [|? bs]; [done|]). by do 3 eexists. }
  split_and!.
  - rewrite Eg. simpl. by destruct p.
  - apply containsNull_not_in, join_with_not_in; [done|]. apply Hc. tauto.
  - unfold pton6. rewrite String.list_ascii_of_string_of_list_ascii.
    rewrite split_join; [|by rewrite Eg|apply Hc; tauto]. rewrite Hg. simpl.
    rewrite Hj. by apply sized_spec.
  - unfold pton4. rewrite String.list_ascii_of_string_of_list_ascii.
    rewrite split_on_plain by (apply join_with_not_in; [done|apply Hc; tauto]).
    rewrite Eg. cbn [mapM]. unfold read_dec_byte at 1.
    rewrite read_digits_colon; [done|lia|]. simpl. set_solver.
Qed.

Lemma length_string_of_list l : String.length (String.string_of_list_ascii l) = length l.
Proof. induction l as [|c l IH]; simpl; [done|]. by rewrite IH. Qed.

Lemma dec_byte_length b : (length (dec_byte b) <= 3)%nat.
Proof. unfold dec_byte. repeat case_match; simpl; lia. Qed.

Lemma ntop4_length bs s : length bs = 4%nat -> ntop4 bs = Some s -> (String.length s < 46)%nat.
Proof.
  intros Hl [= <-]. destruct bs as [|a [|b [|c [|d [|]]]]]; try done.
  rewrite length_string_of_list. simpl. rewrite !length_app. simpl. rewrite !length_app. simpl.
  rewrite !length_app. simpl. pose proof (dec_byte_length a). pose proof (dec_byte_length b).
  pose proof (dec_byte_length c). pose proof (dec_byte_length d). lia.
Qed.

Lemma ntop6_length bs s : length bs = 16%nat -> ntop6 bs = Some s -> (String.length s < 46)%nat.
Proof.
  intros Hl [= <-]. do 16 (destruct bs as [|? bs]; [done|]). destruct bs; [|done]. vm_compute. lia.
Qed.

#[export] Instance inet_laws : InetLaws.
Proof.
  split; simpl.
  - intros s bs (ps & _ & (-> & ?)%sized_spec)%bind_Some. done.
  - intros s bs (ps & _ & (-> & ?)%sized_spec)%bind_Some. done.
  - by eexists.
  - by eexists.
  - apply ntop4_roundtrip.
  - apply ntop6_roundtrip.
  - apply ntop4_length.
  - apply ntop6_length.
Qed.
End ReferenceInet.

(** ** Claims *)

Import ReferenceInet.

(** Parsing is a canonicalisation: the address that [parse] returns for
    any text has a canonical text that parses back to the very same address
    (same bytes, same family, same text), and [fromBytes] of its bytes gives
    it back too, so text and bytes never disagree. *)
Theorem parse_canonicalises `{Inet, !InetLaws} text a :
  parse text = Some a ->
  parse (canonicalText a) = Some a /\ fromBytes (ip_bytes a) = Some a
  /\ (size_of (ip_bytes a) = 4 \/ size_of (ip_bytes a) = 16 /\ isIpv4MappedIpv6 (ip_bytes a) = false).
Proof.
  intros Hc%parse_canonical. split_and!; [by apply parse_text|by apply fromBytes_ip_bytes|].
  destruct Hc as [bs t Hl|bs t Hl]; unfold ip_bytes, size_of; simpl.
  - left. rewrite take_app_length' by done. lia.
  - right. rewrite take_ge by lia. split; [lia|done].
Qed.

Lemma parse_canonicalises_witness :
  parse "0000:0000:0000:0000:0000:ffff:c000:0201"
    = Some (mkIpAddress ([192; 0; 2; 1] ++ replicate 12 0) 4 "192.0.2.1")
  /\ parse "192.0.2.1" = Some (mkIpAddress ([192; 0; 2; 1] ++ replicate 12 0) 4 "192.0.2.1").
Proof.
  assert (parse "0000:0000:0000:0000:0000:ffff:c000:0201"
    = Some (mkIpAddress ([192; 0; 2; 1] ++ replicate 12 0) 4 "192.0.2.1")) as E
    by (vm_compute; reflexivity).
  split; [exact E|]. exact (proj1 (parse_canonicalises _ _ E)).
Defined.

(** An IPv4 address and its IPv4-mapped IPv6 form are one key: whenever
    the two texts denote the same four bytes, [parse] returns the same address
    for both. *)
Theorem mapped_ipv6_is_ipv4 `{Inet, !InetLaws} text4 text6 bs :
  inet_pton4 text4 = Some bs -> inet_pton4 text6 = None ->
  inet_pton6 text6 = Some (replicate 10 0 ++ [255; 255] ++ bs) ->
  text4 <> "" -> text6 <> "" -> containsNull text4 = false -> containsNull text6 = false ->
  parse text6 = parse text4 /\ is_Some (parse text4).
Proof.
  intros H4 H6n H6 He4 He6 Hn4 Hn6.
  split; [|by apply parse_accepts; [done..|left]].
  unfold parse. rewrite !bool_decide_false, Hn4, Hn6, H4, H6n, H6 by done. simpl.
  apply pton4_size in H4 as [Hl _].
  do 4 (destruct bs as [|? bs]; [done|]). destruct bs; [|done]. by rewrite fromBytes_mapped.
Qed.

Lemma mapped_ipv6_is_ipv4_witness :
  parse "0000:0000:0000:0000:0000:ffff:0a00:0001" = parse "10.0.0.1"
  /\ is_Some (parse "10.0.0.1").
Proof.
  by apply (mapped_ipv6_is_ipv4 "10.0.0.1" "0000:0000:0000:0000:0000:ffff:0a00:0001" [10; 0; 0; 1]).
Defined.

(** Canonical texts are keys for addresses: two texts get the same
    canonical text exactly when they denote the same address bytes. *)
Theorem canonical_text_iff_bytes `{Inet, !InetLaws} s t a b :
  parse s = Some a -> parse t = Some b ->
  canonicalText a = canonicalText b <-> ip_bytes a = ip_bytes b.
Proof.
  intros Ha%parse_canonical Hb%parse_canonical. split; intros E.
  - pose proof (parse_text a Ha) as Pa. rewrite E, (parse_text b Hb) in Pa. by injection Pa as ->.
  - pose proof (fromBytes_ip_bytes a Ha) as Pa. rewrite E, (fromBytes_ip_bytes b Hb) in Pa.
    by injection Pa as ->.
Qed.

Lemma canonical_text_iff_bytes_witness :
  match parse "1.2.3.4", parse "1.2.3.5" with
  | Some a, Some b => canonicalText a = canonicalText b <-> ip_bytes a = ip_bytes b
  | _, _ => False
  end.
Proof.
  destruct (parse "1.2.3.4") as [a|] eqn:Ea; [|vm_compute in Ea; discriminate].
  destruct (parse "1.2.3.5") as [b|] eqn:Eb; [|vm_compute in Eb; discriminate].
  exact (canonical_text_iff_bytes _ _ a b Ea Eb).
Defined.
