(* ===== verification/Blacklist.v ===== *)
(** * Blacklist: mutations, snapshots and the manager

    Model of [blacklist_types.hpp], [blacklist_mutation.{hpp,cpp}],
    [blacklist_snapshot.{hpp,cpp}] and [blacklist_manager.{hpp,cpp}].  The
    published snapshot is an immutable value behind one atomic pointer, so the
    manager's state is an optional snapshot and a publication replaces it. *)

From S2P Require Import Prelude IpAddress.
Open Scope Z_scope.

Inductive EntityType := User | Ip | Device.

#[export] Instance EntityType_eq_dec : EqDecision EntityType.
Proof. solve_decision. Defined.

Record BlacklistEntry := mkEntry {
  type : EntityType;
  id : string;
  expire_at_ms : Z;
}.

(** ** Mutations *)

Inductive BlacklistMutationOperation := Upsert | Disable | ClearAll.

#[export] Instance BlacklistMutationOperation_eq_dec : EqDecision BlacklistMutationOperation.
Proof. solve_decision. Defined.

Record BlacklistMutation := mkMutation {
  operation : BlacklistMutationOperation;
  entityType : option EntityType;
  mut_id : string;
  reason : string;
  expireAtMs : Z;
}.

#[export] Instance BlacklistMutation_eq_dec : EqDecision BlacklistMutation.
Proof. solve_decision. Defined.

Definition kMaxEntityIdBytes : Z := 128.
Definition kMaxReasonBytes : Z := 256.
Definition kMaxExpireAtMs : Z := 253402300799999.

(** [value.size()] *)
Definition str_size (s : string) : Z := Z.of_nat (String.length s).

Definition isKnownType (t : EntityType) : bool :=
  match t with User | Ip | Device => true end.

Definition validText (value : string) (max_bytes : Z) : bool :=
  negb (bool_decide (value = "")) && (str_size value <=? max_bytes)
  && negb (containsNull value).

Section Mutations.
Context `{Inet}.

Definition normalizeId (t : EntityType) (i : string) : option string :=
  if negb (isKnownType t) then None
  else if bool_decide (t <> Ip)
  then (if negb (validText i kMaxEntityIdBytes) then None else Some i)
  else
    match parse i with
    | None => None
    | Some address => Some (canonicalText address)
    end.

Definition upsert (t : EntityType) (i reason : string) (expire_at_ms : Z)
    : option BlacklistMutation :=
  match normalizeId t i with
  | None => None
  | Some normalized_id =>
      if (negb (validText reason kMaxReasonBytes) || (kMaxExpireAtMs <? expire_at_ms))%bool
      then None
      else Some (mkMutation Upsert (Some t) normalized_id reason expire_at_ms)
  end.

Definition disable (t : EntityType) (i : string) : option BlacklistMutation :=
  match normalizeId t i with
  | None => None
  | Some normalized_id => Some (mkMutation Disable (Some t) normalized_id "" 0)
  end.

Definition clearAll : BlacklistMutation := mkMutation ClearAll None "" "" 0.

Context `{!InetLaws}.

Lemma normalizeId_idem t i n : normalizeId t i = Some n -> normalizeId t n = Some n.
Proof.
  unfold normalizeId. destruct (isKnownType t); [|done]. simpl. case_if.
  - destruct (validText i kMaxEntityIdBytes) eqn:Hv; [|done]. intros [= <-]. by rewrite Hv.
  - destruct (parse i) as [a|] eqn:E; [|done]. intros [= <-].
    by rewrite (parse_text a (parse_canonical _ _ E)).
Qed.

(** Only the factories build mutations, so every mutation is one of these. *)
Definition mutation_ok (m : BlacklistMutation) : Prop :=
  match operation m with
  | ClearAll => m = clearAll
  | Disable => exists t, entityType m = Some t /\ normalizeId t (mut_id m) = Some (mut_id m)
                         /\ reason m = "" /\ expireAtMs m = 0
  | Upsert => exists t, entityType m = Some t /\ normalizeId t (mut_id m) = Some (mut_id m)
                        /\ validText (reason m) kMaxReasonBytes = true
                        /\ expireAtMs m <= kMaxExpireAtMs
  end.

Lemma upsert_ok t i r e m : upsert t i r e = Some m -> mutation_ok m.
Proof.
  unfold upsert. destruct (normalizeId t i) as [n|] eqn:E; [|done].
  case_if; [done|]. intros [= <-]. exists t. simpl.
  split_and!; [done|by eapply normalizeId_idem|done|lia].
Qed.

(** The factories are total descriptions of valid mutations: what
    [upsert] and [disable] return is well formed (normalised id, bounded
    reason, expiry not past the year 9999), and feeding a mutation's own fields
    back gives the same mutation. *)
Theorem mutation_factories_stable t i r e :
  (forall m, upsert t i r e = Some m ->
     mutation_ok m /\ upsert t (mut_id m) (reason m) (expireAtMs m) = Some m)
  /\ (forall m, disable t i = Some m -> mutation_ok m /\ disable t (mut_id m) = Some m)
  /\ mutation_ok clearAll.
Proof.
  split_and!; [..|done].
  - intros m Hm. split; [by eapply upsert_ok|]. revert Hm. unfold upsert at 1.
    destruct (normalizeId t i) as [n|] eqn:E; [|done].
    destruct (_ || _)%bool eqn:Ht; [done|]. intros [= <-].
    unfold upsert. simpl. by rewrite (normalizeId_idem _ _ _ E), Ht.
  - intros m. unfold disable. destruct (normalizeId t i) as [n|] eqn:E; [|done].
    intros [= <-]. simpl. apply normalizeId_idem in E. rewrite E. split; [|done].
    by exists t.
Qed.
End Mutations.

Lemma mutation_factories_stable_witness :
  let m := mkMutation Upsert (Some Ip) "192.0.2.1" "abuse" 1000 in
  @upsert ReferenceInet.inet Ip "0000:0000:0000:0000:0000:ffff:c000:0201" "abuse" 1000 = Some m
  /\ @upsert ReferenceInet.inet Ip "192.0.2.1" "abuse" 1000 = Some m.
Proof.
  intros m.
  assert (@upsert ReferenceInet.inet Ip "0000:0000:0000:0000:0000:ffff:c000:0201" "abuse" 1000
    = Some m) as E by (vm_compute; reflexivity).
  split; [exact E|].
  apply (proj1 (@mutation_factories_stable ReferenceInet.inet ReferenceInet.inet_laws Ip
    "0000:0000:0000:0000:0000:ffff:c000:0201" "abuse" 1000) m E).
Defined.

(** ** Snapshots *)

Record LoginBlacklistMatches := mkMatches {
  user_hit : bool;
  ip_hit : bool;
  device_hit : bool;
}.

Definition no_matches : LoginBlacklistMatches := mkMatches false false false.

Abbreviation EntryMap := (gmap string Z).

Record BlacklistSnapshot := mkSnapshotMaps {
  users_ : EntryMap;
  ips_ : EntryMap;
  devices_ : EntryMap;
}.

Definition empty_maps : BlacklistSnapshot := mkSnapshotMaps ∅ ∅ ∅.

Definition contains (entries : EntryMap) (i : string) (now_ms : Z) : bool :=
  if bool_decide (i = "") then false
  else
    match entries !! i with
    | None => false
    | Some expire => (expire =? 0) || (now_ms <? expire)
    end.

Definition snapshot_matches (s : BlacklistSnapshot) (user_id ip device_id : string)
    (now_ms : Z) : LoginBlacklistMatches :=
  mkMatches (contains (users_ s) user_id now_ms) (contains (ips_ s) ip now_ms)
    (contains (devices_ s) device_id now_ms).

(** ** The manager *)

Definition mergeExpiry (entries : EntryMap) (i : string) (expire_at_ms : Z)
    : EntryMap * bool :=
  match entries !! i with
  | None => (<[i := expire_at_ms]> entries, true)
  | Some second =>
      (<[i := if ((second =? 0) || (expire_at_ms =? 0))%bool then 0
              else Z.max second expire_at_ms]> entries, true)
  end.

Definition entry_expired (e : BlacklistEntry) (now_ms : Z) : bool :=
  negb (expire_at_ms e =? 0) && (expire_at_ms e <=? now_ms).

Definition addEntry (maps : BlacklistSnapshot) (entry : BlacklistEntry) (now_ms : Z)
    : BlacklistSnapshot * bool :=
  if bool_decide (id entry = "") then (maps, false)
  else if entry_expired entry now_ms then (maps, true)
  else
    match type entry with
    | User => let '(m, b) := mergeExpiry (users_ maps) (id entry) (expire_at_ms entry) in
              (maps <| users_ := m |>, b)
    | Ip => let '(m, b) := mergeExpiry (ips_ maps) (id entry) (expire_at_ms entry) in
            (maps <| ips_ := m |>, b)
    | Device => let '(m, b) := mergeExpiry (devices_ maps) (id entry) (expire_at_ms entry) in
                (maps <| devices_ := m |>, b)
    end.

(** The first loop of [prepareCandidate]: the capacities to reserve. *)
Fixpoint count_entries (entries : list BlacklistEntry) (now_ms : Z) (counts : Z * Z * Z)
    : option (Z * Z * Z) :=
  match entries with
  | [] => Some counts
  | entry :: rest =>
      if bool_decide (id entry = "") then None
      else if entry_expired entry now_ms then count_entries rest now_ms counts
      else
        let '(u, i, d) := counts in
        count_entries rest now_ms
          match type entry with
          | User => (u ⊕ 1, i, d)
          | Ip => (u, i ⊕ 1, d)
          | Device => (u, i, d ⊕ 1)
          end
  end.

(** The second loop. *)
Fixpoint add_entries (maps : BlacklistSnapshot) (entries : list BlacklistEntry) (now_ms : Z)
    : option BlacklistSnapshot :=
  match entries with
  | [] => Some maps
  | entry :: rest =>
      let '(maps, ok) := addEntry maps entry now_ms in
      if negb ok then None else add_entries maps rest now_ms
  end.

Definition prepareCandidate (entries : list BlacklistEntry) (now_ms : Z)
    : option BlacklistSnapshot :=
  match count_entries entries now_ms (0, 0, 0) with
  | None => None
  | Some _ => add_entries empty_maps entries now_ms
  end.

(** The published snapshot, or the null pointer. *)
Abbreviation BlacklistManager := (option BlacklistSnapshot).

Definition publishCandidate (mgr : BlacklistManager) (candidate : option BlacklistSnapshot)
    : BlacklistManager * bool :=
  match candidate with
  | None => (mgr, false)
  | Some c => (Some c, true)
  end.

Definition publish (mgr : BlacklistManager) (entries : list BlacklistEntry) (now_ms : Z)
    : BlacklistManager * bool :=
  match prepareCandidate entries now_ms with
  | None => (mgr, false)
  | Some candidate => publishCandidate mgr (Some candidate)
  end.

Definition matches (mgr : BlacklistManager) (user_id ip device_id : string) (now_ms : Z)
    : LoginBlacklistMatches :=
  match mgr with
  | None => no_matches
  | Some snapshot => snapshot_matches snapshot user_id ip device_id now_ms
  end.

(** ** Snapshots against the list of entries *)

(** An expiry that still holds at [now]: 0 is permanent. *)
Definition alive_at (now e : Z) : Prop := e = 0 \/ now < e.

#[export] Instance alive_at_dec now e : Decision (alive_at now e).
Proof. unfold alive_at. apply _. Defined.

(** [entries] lists [i] as a [t] with an expiry that holds at both readings. *)
Definition listed (entries : list BlacklistEntry) (t : EntityType) (i : string)
    (published now : Z) : Prop :=
  exists e, e ∈ entries /\ type e = t /\ id e = i
            /\ alive_at published (expire_at_ms e) /\ alive_at now (expire_at_ms e).

Definition map_of (s : BlacklistSnapshot) (t : EntityType) : EntryMap :=
  match t with User => users_ s | Ip => ips_ s | Device => devices_ s end.

(** The merged expiry holds exactly when one of the merged expiries does. *)
Definition maps_list (published : Z) (s : BlacklistSnapshot) (entries : list BlacklistEntry)
    : Prop :=
  forall t i,
    match map_of s t !! i with
    | None => forall now, ~ listed entries t i published now
    | Some x => (forall now, alive_at now x <-> listed entries t i published now)
    end.

Lemma entry_expired_spec e now : entry_expired e now = false <-> alive_at now (expire_at_ms e).
Proof.
  unfold entry_expired, alive_at. rewrite andb_false_iff, negb_false_iff, Z.eqb_eq, Z.leb_gt.
  done.
Qed.

Lemma listed_snoc es e t i p now :
  listed (es ++ [e]) t i p now
  <-> listed es t i p now
      \/ (type e = t /\ id e = i /\ alive_at p (expire_at_ms e) /\ alive_at now (expire_at_ms e)).
Proof.
  unfold listed. setoid_rewrite elem_of_app. setoid_rewrite list_elem_of_singleton.
  split.
  - intros (e' & [He| ->] & H); [left; by exists e'|by right].
  - intros [(e' & He & H)|H]; [exists e'; by split; [left|]|exists e; by split; [right|]].
Qed.

Lemma mergeExpiry_alive m i e now :
  exists x, (mergeExpiry m i e).1 !! i = Some x
    /\ (alive_at now x <-> alive_at now e \/ from_option (alive_at now) False (m !! i)).
Proof.
  unfold mergeExpiry. destruct (m !! i) as [y|] eqn:E; simpl.
  - eexists. rewrite lookup_insert, decide_True by done. split; [done|].
    unfold alive_at. destruct (Z.eqb_spec y 0), (Z.eqb_spec e 0); simpl; lia.
  - exists e. rewrite lookup_insert, decide_True by done. split; [done|]. tauto.
Qed.

Lemma mergeExpiry_other m i j e : i <> j -> (mergeExpiry m i e).1 !! j = m !! j.
Proof.
  intros Hne. unfold mergeExpiry. by destruct (m !! i); simpl; rewrite lookup_insert_ne.
Qed.

Lemma addEntry_map_of s e now t :
  id e <> "" -> entry_expired e now = false ->
  map_of (addEntry s e now).1 t
  = if decide (type e = t) then (mergeExpiry (map_of s t) (id e) (expire_at_ms e)).1
    else map_of s t.
Proof.
  intros Hid Hx. unfold addEntry. rewrite bool_decide_false, Hx by done.
  destruct (type e), t; simpl; by destruct (mergeExpiry _ _ _).
Qed.

Lemma addEntry_ok s e now : (addEntry s e now).2 = negb (bool_decide (id e = "")).
Proof.
  unfold addEntry, mergeExpiry. destruct (bool_decide (id e = "")); [done|].
  destruct (entry_expired e now); [done|]. by destruct (type e); destruct (_ !! _).
Qed.

Lemma addEntry_lists s es e p :
  id e <> "" -> maps_list p s es -> maps_list p (addEntry s e p).1 (es ++ [e]).
Proof.
  intros Hid Hm. destruct (entry_expired e p) eqn:Hx.
  - assert ((addEntry s e p).1 = s) as ->.
    { unfold addEntry. by rewrite bool_decide_false, Hx. }
    assert (~ alive_at p (expire_at_ms e)) as Hd by (rewrite <-entry_expired_spec; congruence).
    intros t i. specialize (Hm t i).
    destruct (map_of s t !! i); intros now; specialize (Hm now); rewrite listed_snoc; tauto.
  - pose proof (proj1 (entry_expired_spec _ _) Hx) as Ha.
    intros t i. specialize (Hm t i). rewrite addEntry_map_of by done.
    destruct (decide (type e = t)) as [<-|Ht], (decide (id e = i)) as [<-|Hi];
      rewrite ?mergeExpiry_other by done.
    2-4: destruct (map_of s _ !! _); intros now; specialize (Hm now); rewrite listed_snoc; tauto.
    destruct (mergeExpiry_alive (map_of s (type e)) (id e) (expire_at_ms e) 0) as (x & E & _).
    rewrite E. intros now. rewrite listed_snoc.
    destruct (mergeExpiry_alive (map_of s (type e)) (id e) (expire_at_ms e) now)
      as (x' & E' & Hx'). assert (x' = x) as -> by congruence. rewrite Hx'.
    destruct (map_of s (type e) !! id e); simpl; specialize (Hm now); tauto.
Qed.

Lemma add_entries_lists p es s done_es :
  maps_list p s done_es -> Forall (fun e => id e <> "") es ->
  exists s', add_entries s es p = Some s' /\ maps_list p s' (done_es ++ es).
Proof.
  intros Hm Hes. revert s done_es Hm. induction Hes as [|e es He Hes IH]; simpl; intros s d Hm.
  - exists s. by rewrite app_nil_r.
  - pose proof (addEntry_ok s e p) as Hok. pose proof (addEntry_lists s d e p He Hm) as Hm'.
    destruct (addEntry s e p) as [s1 b]. simpl in *. rewrite bool_decide_false in Hok by done.
    subst b. simpl. destruct (IH s1 (d ++ [e]) Hm') as (s' & E & Hl). exists s'.
    by rewrite <-app_assoc in Hl.
Qed.

Lemma count_entries_spec es p c :
  (exists c', count_entries es p c = Some c') <-> Forall (fun e => id e <> "") es.
Proof.
  revert c. induction es as [|e es IH]; simpl; intros c.
  - split; [done|by exists c].
  - rewrite Forall_cons. case_if.
    + split; [by intros [? ?]|by intros [? _]].
    + case_if; [rewrite IH; tauto|]. destruct c as [[u i] d]. rewrite IH. tauto.
Qed.

(** Publication succeeds exactly when no entry has an empty id. *)
Lemma publish_spec mgr es p :
  (Forall (fun e => id e <> "") es ->
     exists s, publish mgr es p = (Some s, true) /\ maps_list p s es)
  /\ (~ Forall (fun e => id e <> "") es -> publish mgr es p = (mgr, false)).
Proof.
  unfold publish, prepareCandidate. split; intros Hes.
  - destruct (proj2 (count_entries_spec es p (0, 0, 0)) Hes) as [c ->].
    destruct (add_entries_lists p es empty_maps [] ltac:(
      intros t i; destruct t; simpl; rewrite lookup_empty; intros now (e & He & _); set_solver) Hes)
      as (s & -> & Hl). by exists s.
  - destruct (count_entries es p (0, 0, 0)) eqn:E; [|done].
    by destruct Hes; apply (count_entries_spec es p (0, 0, 0)); eexists.
Qed.

Lemma contains_listed p s es t i now :
  maps_list p s es -> i <> "" ->
  contains (map_of s t) i now = true <-> listed es t i p now.
Proof.
  intros Hm Hi. unfold contains. rewrite bool_decide_false by done. specialize (Hm t i).
  destruct (map_of s t !! i) as [x|]; specialize (Hm now); [|done].
  rewrite <-Hm. unfold alive_at. by rewrite orb_true_iff, Z.eqb_eq, Z.ltb_lt.
Qed.

(** After a successful publication at [p] a login is matched at any later
    or earlier reading [now] exactly by the listed entries: each of the three
    hits is set if and only if the identifier is listed under its type with an
    expiry (0 is permanent) that holds at both readings; duplicates, their
    order and already expired entries make no difference. *)
Theorem publish_matches_exact mgr es p user ip device now :
  Forall (fun e => id e <> "") es -> user <> "" -> ip <> "" -> device <> "" ->
  let '(mgr', ok) := publish mgr es p in
  let hits := matches mgr' user ip device now in
  ok = true
  /\ (user_hit hits = true <-> listed es User user p now)
  /\ (ip_hit hits = true <-> listed es Ip ip p now)
  /\ (device_hit hits = true <-> listed es Device device p now).
Proof.
  intros Hes Hu Hi Hd. destruct (proj1 (publish_spec mgr es p) Hes) as (s & -> & Hm).
  split_and!; [done|exact (contains_listed p s es User user now Hm Hu)
    |exact (contains_listed p s es Ip ip now Hm Hi)
    |exact (contains_listed p s es Device device now Hm Hd)].
Qed.

Definition sample_entries : list BlacklistEntry :=
  [mkEntry User "mallory" 5000; mkEntry Ip "10.0.0.9" 0; mkEntry User "mallory" 9000;
   mkEntry Device "dev" 100].

Lemma publish_matches_exact_witness :
  matches (publish None sample_entries 1000).1 "mallory" "10.0.0.9" "dev" 8999
    = mkMatches true true false
  /\ matches (publish None sample_entries 1000).1 "mallory" "10.0.0.9" "dev" 9000
    = mkMatches false true false
  /\ (listed sample_entries User "mallory" 1000 8999).
Proof.
  split_and!; [vm_compute; reflexivity|vm_compute; reflexivity|].
  apply (publish_matches_exact None sample_entries 1000 "mallory" "10.0.0.9" "dev" 8999);
    [repeat constructor; done|done|done|done|vm_compute; reflexivity].
Defined.

(** A list that contains an entry without an id is refused as a whole:
    the published snapshot, hence every later match, is unchanged. *)
Theorem publish_all_or_nothing mgr es p e :
  e ∈ es -> id e = "" -> publish mgr es p = (mgr, false).
Proof.
  intros Hin He. apply publish_spec. intros Hf.
  by apply (proj1 (Forall_forall _ _) Hf e Hin).
Qed.

Lemma publish_all_or_nothing_witness :
  publish None (sample_entries ++ [mkEntry User "" 0]) 1000 = (None, false).
Proof.
  apply (publish_all_or_nothing None _ _ (mkEntry User "" 0)); [|reflexivity].
  apply elem_of_app. right. left.
Defined.
