(* ===== verification/RedisConnection.v ===== *)
(** * RedisConnection: one connection to the Redis server

    Model of [storage/redis_connection.{hpp,cpp}].  The library hiredis and the
    server behind it are a parameter: the list of what they answer to the
    successive commands, without any assumption on the replies.  A connection
    that receives no further answer is closed by its peer.  The record also
    keeps the commands that were answered, in order, so that statements can
    speak about what was sent. *)

From S2P Require Import Prelude Text.
Open Scope Z_scope.

Inductive RedisValueKind := KStatus | KString | KInteger | KNil | KError | KArray.

#[export] Instance RedisValueKind_eq_dec : EqDecision RedisValueKind.
Proof. solve_decision. Defined.

Inductive RedisValue := mkValue {
  kind : RedisValueKind;
  text : string;
  integer : Z;
  elements : list RedisValue;
}.

Module RedisCommandStatus.
Inductive t := Ok | DeadlineExceeded | IoError | ProtocolError.
#[export] Instance eq_dec : EqDecision t.
Proof. solve_decision. Defined.
End RedisCommandStatus.
#[export] Existing Instance RedisCommandStatus.eq_dec.

Record RedisCommandResult := mkCommandResult {
  cmd_status : RedisCommandStatus.t;
  value : RedisValue;
}.

Definition nil_value : RedisValue := mkValue KNil "" 0 [].

Definition commandResult (status : RedisCommandStatus.t) : RedisCommandResult :=
  mkCommandResult status nil_value.

Definition successfulCommand (v : RedisValue) : RedisCommandResult :=
  mkCommandResult RedisCommandStatus.Ok v.

(** ** Time limits; steady time in nanoseconds, results in microseconds *)

Definition remainingTimeout (configured_ms deadline now : Z) : option Z :=
  if ((deadline <=? now) || (configured_ms <=? 0))%bool then None
  else
    let remaining := Z.quot (deadline - now) 1000 in
    let configured_us := configured_ms * 1000 in
    Some (Z.max 1 (Z.min remaining configured_us)).

(** [tv_sec] and [tv_usec] *)
Definition toTimeval (timeout : Z) : Z * Z :=
  let seconds := Z.quot timeout 1000000 in (seconds, timeout - seconds * 1000000).

(** ** Replies of hiredis *)

Inductive redisReply := mkReply {
  reply_type : Z;
  str : option string;
  len : Z;
  reply_integer : Z;
  element : list (option redisReply);
}.

Definition REDIS_REPLY_STRING : Z := 1.
Definition REDIS_REPLY_ARRAY : Z := 2.
Definition REDIS_REPLY_INTEGER : Z := 3.
Definition REDIS_REPLY_NIL : Z := 4.
Definition REDIS_REPLY_STATUS : Z := 5.
Definition REDIS_REPLY_ERROR : Z := 6.

(** [value.text.assign(...)] for the text kinds. *)
Definition copy_text (k : RedisValueKind) (s : option string) (n : Z) : option RedisValue :=
  match s with
  | None => if negb (n =? 0) then None else Some (mkValue k "" 0 [])
  | Some s => Some (mkValue k (String.substring 0 (Z.to_nat n) s) 0 [])
  end.

Fixpoint copyReply (source : redisReply) : option RedisValue :=
  match source with
  | mkReply ty s n i es =>
      if ty =? REDIS_REPLY_STATUS then copy_text KStatus s n
      else if ty =? REDIS_REPLY_STRING then copy_text KString s n
      else if ty =? REDIS_REPLY_INTEGER then Some (mkValue KInteger "" i [])
      else if ty =? REDIS_REPLY_NIL then Some nil_value
      else if ty =? REDIS_REPLY_ERROR then copy_text KError s n
      else if ty =? REDIS_REPLY_ARRAY then
        (fix children (es : list (option redisReply)) (copied : list RedisValue) :=
           match es with
           | [] => Some (mkValue KArray "" 0 copied)
           | None :: _ => None
           | Some child :: rest =>
               match copyReply child with
               | None => None
               | Some v => children rest (copied ++ [v])
               end
           end) es []
      else None
  end.

(** ** The connection *)

(** What happens at one command: the clock before a loop that tests it, the
    clock at the command, the result of [redisSetTimeout], and the reply
    ([None] for a null reply). *)
Record HiredisAnswer := mkAnswer {
  loop_clock : Z;
  clock : Z;
  set_timeout_ok : bool;
  reply : option redisReply;
}.

Record RedisConnection := mkConnection {
  context_ : bool;               (* not null *)
  command_timeout_ : Z;
  answers : list HiredisAnswer;
  sent : list (list string * RedisValue);
  lost : option (list string);   (* the command whose reply never came *)
}.

(** [INT_MAX] *)
Definition int_max : Z := 2147483647.

Definition command (c : RedisConnection) (argv : list string) (deadline : Z)
    : RedisConnection * RedisCommandResult :=
  if (negb (context_ c) || bool_decide (argv = []) || (int_max <? size_of argv))%bool
  then (c, commandResult RedisCommandStatus.IoError)
  else
    match answers c with
    | [] => (c <| context_ := false |>, commandResult RedisCommandStatus.IoError)
    | a :: rest =>
        let c := c <| answers := rest |> in
        match remainingTimeout (command_timeout_ c) deadline (clock a) with
        | None => (c, commandResult RedisCommandStatus.DeadlineExceeded)
        | Some timeout =>
            if negb (set_timeout_ok a)
            then (c <| context_ := false |>, commandResult RedisCommandStatus.IoError)
            else
              match reply a with
              | None => (c <| context_ := false |> <| lost := Some argv |>,
                         commandResult RedisCommandStatus.IoError)
              | Some r =>
                  match copyReply r with
                  | None => (c <| context_ := false |> <| lost := Some argv |>,
                             commandResult RedisCommandStatus.ProtocolError)
                  | Some v => (c <| sent := sent c ++ [(argv, v)] |>, successfulCommand v)
                  end
              end
        end
    end.

Definition invalidate (c : RedisConnection) : RedisConnection := c <| context_ := false |>.

Definition isOk (result : RedisCommandResult) : bool :=
  bool_decide (cmd_status result = RedisCommandStatus.Ok)
  && bool_decide (kind (value result) = KStatus) && bool_decide (text (value result) = "OK").

Record RedisConfig := mkRedis {
  redis_host : string;
  redis_port : Z;
  redis_username : string;
  redis_password : string;
  redis_database : Z;
  redis_connect_timeout : Z;
  redis_command_timeout : Z;
  redis_key_prefix : string;
}.

(** [connect]: [opened] is the connection hiredis opens ([None] for a null
    context or one in error), [now] the two readings of the clock. *)
Definition connect (config : RedisConfig) (deadline now1 now2 : Z)
    (opened : option (list HiredisAnswer)) : option RedisConnection :=
  if (bool_decide (redis_host config = "") || (redis_port config =? 0) || (redis_connect_timeout config <=? 0)
      || (redis_command_timeout config <=? 0) || (15 <? redis_database config)
      || (negb (bool_decide (redis_username config = "")) && bool_decide (redis_password config = "")))%bool
  then None
  else
    match remainingTimeout (redis_connect_timeout config) deadline now1 with
    | None => None
    | Some _ =>
        match remainingTimeout (redis_command_timeout config) deadline now2 with
        | None => None
        | Some _ =>
            match opened with
            | None => None
            | Some replies =>
                let c := mkConnection true (redis_command_timeout config) replies [] None in
                let auth :=
                  if bool_decide (redis_username config = "") then ["AUTH"; redis_password config]
                  else ["AUTH"; redis_username config; redis_password config] in
                let '(c, authenticated) :=
                  if bool_decide (redis_password config = "") then (c, true)
                  else let '(c, r) := command c auth deadline in (c, isOk r) in
                if negb authenticated then None
                else
                  let '(c, selected) :=
                    if redis_database config =? 0 then (c, true)
                    else let '(c, r) := command c ["SELECT"; to_string (redis_database config)] deadline in
                         (c, isOk r) in
                  if negb selected then None else Some c
            end
        end
    end.

(** ** Facts *)

Lemma remainingTimeout_bounds configured deadline now t :
  remainingTimeout configured deadline now = Some t ->
  1 <= t <= configured * 1000 /\ (t - 1) * 1000 <= deadline - now /\ now < deadline.
Proof.
  unfold remainingTimeout. case_if; [done|]. intros [= <-].
  assert (0 <= Z.quot (deadline - now) 1000) by (apply Z.quot_pos; lia).
  assert (1000 * Z.quot (deadline - now) 1000 <= deadline - now).
  { pose proof (Z.quot_rem' (deadline - now) 1000).
    pose proof (Z.rem_bound_pos (deadline - now) 1000 ltac:(lia) ltac:(lia)). lia. }
  lia.
Qed.

Lemma toTimeval_exact t :
  0 <= t -> let '(sec, usec) := toTimeval t in
  sec * 1000000 + usec = t /\ 0 <= usec < 1000000 /\ 0 <= sec.
Proof.
  intros Ht. unfold toTimeval. pose proof (Z.quot_rem' t 1000000).
  pose proof (Z.rem_bound_pos t 1000000 ltac:(lia) ltac:(lia)).
  assert (0 <= Z.quot t 1000000) by (apply Z.quot_pos; lia). lia.
Qed.

(** The four ways a command ends. *)
Inductive command_spec (c : RedisConnection) (argv : list string)
    : RedisConnection -> RedisCommandResult -> Prop :=
| cs_reply a rest v :
    context_ c = true -> answers c = a :: rest ->
    command_spec c argv (c <| answers := rest |> <| sent := sent c ++ [(argv, v)] |>)
      (successfulCommand v)
| cs_late a rest :
    context_ c = true -> answers c = a :: rest ->
    command_spec c argv (c <| answers := rest |>) (commandResult RedisCommandStatus.DeadlineExceeded)
| cs_broken rest status l :
    status = RedisCommandStatus.IoError \/ status = RedisCommandStatus.ProtocolError ->
    (length rest <= length (answers c))%nat ->
    l = lost c \/ l = Some argv ->
    command_spec c argv (c <| answers := rest |> <| context_ := false |> <| lost := l |>)
      (commandResult status)
| cs_refused :
    context_ c = false \/ argv = [] \/ int_max < size_of argv ->
    command_spec c argv c (commandResult RedisCommandStatus.IoError).

Lemma command_cases c argv deadline :
  let '(c', r) := command c argv deadline in command_spec c argv c' r.
Proof.
  unfold command. destruct (_ || _)%bool eqn:E.
  { apply cs_refused. apply orb_true_iff in E as [E|E]; [apply orb_true_iff in E as [E|E]|];
      bool_to_prop; auto. }
  apply orb_false_elim in E as [E _]. apply orb_false_elim in E as [E _]. apply negb_false_iff in E.
  destruct (answers c) as [|a rest] eqn:Ea.
  { replace (c <| context_ := false |>)
      with (c <| answers := [] |> <| context_ := false |> <| lost := lost c |>)
      by (destruct c; simpl in *; by subst). apply cs_broken; [by left|simpl; lia|by left]. }
  assert (length rest <= length (answers c))%nat as Hl by (rewrite Ea; simpl; lia).
  destruct (remainingTimeout _ _ _); [|by eapply cs_late].
  destruct (set_timeout_ok a).
  2: { replace (c <| answers := rest |> <| context_ := false |>)
         with (c <| answers := rest |> <| context_ := false |> <| lost := lost c |>) by by destruct c.
       apply cs_broken; auto. }
  simpl. destruct (reply a) as [r|]; [|apply cs_broken; auto].
  destruct (copyReply r); [by eapply cs_reply|apply cs_broken; auto].
Qed.
