(* ===== verification/RedisStore.v ===== *)
(** * RedisStore: the blacklist in Redis

    Model of [storage/blacklist_redis_store.{hpp,cpp}] over a
    [RedisConnection].  Every operation is a program of the state monad
    [Redis]: it sends commands and reads their replies, which are arbitrary.
    [RedisStateGuard] invalidates the connection when an exception leaves an
    operation; allocation failures are not modelled, so it never does.  A
    [std::map] and a [std::set] are a [gmap] and a sorted list of keys. *)

From Stdlib Require Import Ascii.
From S2P Require Import Prelude Text IpAddress Blacklist RedisConnection.
Open Scope Z_scope.

Module StoreStatus.
Inductive t :=
| Ok | WatchConflict | NotReady | InvalidRemoteState | DeadlineExceeded | IoError | CommitUnknown
| TransactionError | ProtocolError.
#[export] Instance eq_dec : EqDecision t.
Proof. solve_decision. Defined.
End StoreStatus.
#[export] Existing Instance StoreStatus.eq_dec.

Record StoreResult := mkStoreResult { store_status : StoreStatus.t; store_revision : option Z }.

Record RedisKeySet := mkKeys {
  users : string;
  ips : string;
  devices : string;
  pending : string;
  revision : string;
  cache_ready : string;
  published_revision : string;
  reset_barrier : string;
}.

Record PendingBlacklistEntry := mkPending {
  stream_id : string;
  mutation : result BlacklistMutation;    (* the mutation, or the error text *)
}.

Record PendingReadResult := mkPendingRead {
  pending_status : StoreStatus.t;
  pending_entries : list PendingBlacklistEntry;
}.

Record SnapshotReadResult := mkSnapshotRead {
  snapshot_status : StoreStatus.t;
  snapshot_revision : Z;
  snapshot_entries : list BlacklistEntry;
}.

Record ResetBarrierState := mkBarrier { requested : Z; completed : Z }.

Record ResetReadResult := mkResetRead { reset_status : StoreStatus.t; reset_state : ResetBarrierState }.

Record ResetConvergence := mkConvergence {
  conv_status : StoreStatus.t;
  user_count : Z;
  ip_count : Z;
  device_count : Z;
  pending_count : Z;
  conv_revision : option Z;
  conv_published_revision : option Z;
}.

(** ** The monad *)

Definition Redis (A : Type) : Type := RedisConnection -> RedisConnection * A.

#[export] Instance redis_ret : MRet Redis := fun A a c => (c, a).
#[export] Instance redis_bind : MBind Redis := fun A B f m c => let '(c, a) := m c in f a c.

Definition kMaxRedisInteger : Z := 9223372036854775807.

Definition commandStatus (result : RedisCommandResult) : StoreStatus.t :=
  match cmd_status result with
  | RedisCommandStatus.Ok => StoreStatus.Ok
  | RedisCommandStatus.DeadlineExceeded => StoreStatus.DeadlineExceeded
  | RedisCommandStatus.IoError => StoreStatus.IoError
  | RedisCommandStatus.ProtocolError => StoreStatus.ProtocolError
  end.

Definition statusIs (result : RedisCommandResult) (expected : string) : bool :=
  bool_decide (cmd_status result = RedisCommandStatus.Ok)
  && bool_decide (kind (value result) = KStatus) && bool_decide (text (value result) = expected).

(** A status other than [Ok]. *)
Definition failed (status : StoreStatus.t) : bool := negb (bool_decide (status = StoreStatus.Ok)).

(** ** Text formats *)

Definition parseUnsigned (value : string) (maximum : Z) : option Z :=
  let chars := String.list_ascii_of_string value in
  match chars with
  | [] => None
  | front :: _ =>
      if ((1 <? size_of chars) && (char_code front =? 48))%bool then None
      else
        match from_chars chars with
        | None => None
        | Some (v, n) =>
            if (negb (n =? length chars)%nat || (maximum <? v))%bool then None else Some v
        end
  end.

(** The parts before and after the first [-]. *)
Fixpoint split_dash (chars before : list ascii) : option (list ascii * list ascii) :=
  match chars with
  | [] => None
  | c :: rest => if char_code c =? 45 then Some (rev before, rest) else split_dash rest (c :: before)
  end.

Definition isStreamId (value : string) : bool :=
  match split_dash (String.list_ascii_of_string value) [] with
  | None => false
  | Some (milliseconds, sequence) =>
      if (bool_decide (milliseconds = []) || bool_decide (sequence = [])
          || existsb (fun c => char_code c =? 45) sequence)%bool
      then false
      else
        match parseUnsigned (String.string_of_list_ascii milliseconds) kMaxRedisInteger,
              parseUnsigned (String.string_of_list_ascii sequence) kMaxRedisInteger with
        | Some _, Some _ => true
        | _, _ => false
        end
  end.

Definition entityTypeText (t : EntityType) : string :=
  match t with User => "USER" | Ip => "IP" | Device => "DEVICE" end.

Definition parseEntityType (value : string) : option EntityType :=
  if bool_decide (value = "USER") then Some User
  else if bool_decide (value = "IP") then Some Ip
  else if bool_decide (value = "DEVICE") then Some Device
  else None.

Definition hashKey (keys : RedisKeySet) (t : EntityType) : string :=
  match t with User => users keys | Ip => ips keys | Device => devices keys end.

Definition streamFields (m : BlacklistMutation) : list string :=
  match operation m with
  | Upsert =>
      ["operation"; "UPSERT"; "type"; from_option entityTypeText "" (entityType m);
       "id"; mut_id m; "reason"; reason m; "expire_at_ms"; to_string (expireAtMs m)]
  | Disable =>
      ["operation"; "DISABLE"; "type"; from_option entityTypeText "" (entityType m); "id"; mut_id m]
  | ClearAll => ["operation"; "CLEAR_ALL"]
  end.

(** The loop that fills [values] in [parseStreamMutation]. *)
Fixpoint collect_fields (fields : list RedisValue) (values : gmap string string)
    : option (gmap string string) :=
  match fields with
  | k :: v :: rest =>
      if (negb (bool_decide (kind k = KString)) || negb (bool_decide (kind v = KString)))%bool then None
      else
        match values !! text k with
        | Some _ => None
        | None => collect_fields rest (<[text k := text v]> values)
        end
  | _ => Some values
  end.

Section Parse.
Context `{Inet}.

Definition parseStreamMutation (fields : RedisValue) : result BlacklistMutation :=
  if (negb (bool_decide (kind fields = KArray)) || negb (size_of (elements fields) mod 2 =? 0))%bool
  then Throw "field array must contain pairs"
  else
    match collect_fields (elements fields) ∅ with
    | None => Throw "field name/value invalid or duplicated"
    | Some values =>
        match values !! "operation" with
        | None => Throw "operation missing"
        | Some op =>
            if bool_decide (op = "CLEAR_ALL") then
              (if negb (size values =? 1)%nat then Throw "CLEAR_ALL contains extra fields"
               else Ok clearAll)
            else
              match values !! "type", values !! "id" with
              | Some type_value, Some i =>
                  match parseEntityType type_value with
                  | None => Throw "entity type invalid"
                  | Some t =>
                      if bool_decide (op = "DISABLE") then
                        (if negb (size values =? 3)%nat
                         then Throw "DISABLE contains unknown or extra fields"
                         else match disable t i with
                              | None => Throw "DISABLE entity invalid"
                              | Some m => Ok m
                              end)
                      else if (negb (bool_decide (op = "UPSERT")) || negb (size values =? 5)%nat)%bool
                      then Throw "operation invalid or UPSERT fields incomplete"
                      else
                        match values !! "reason", values !! "expire_at_ms" with
                        | Some r, Some expiry =>
                            match parseUnsigned expiry kMaxExpireAtMs with
                            | None => Throw "UPSERT expiry invalid"
                            | Some e =>
                                match upsert t i r e with
                                | None => Throw "UPSERT entity or reason invalid"
                                | Some m => Ok m
                                end
                            end
                        | _, _ => Throw "UPSERT reason or expiry missing"
                        end
                  end
              | _, _ => Throw "type or id missing"
              end
        end
    end.

(** The test that [parseHashScan] makes on one id. *)
Definition valid_scanned_id (t : EntityType) (i : string) : bool :=
  match t with
  | Ip => match parse i with Some a => bool_decide (canonicalText a = i) | None => false end
  | _ => negb (bool_decide (i = "") || (kMaxEntityIdBytes <? str_size i) || containsNull i)
  end.

Fixpoint parse_scan_pairs (t : EntityType) (values : list RedisValue) (entries : list BlacklistEntry)
    : StoreStatus.t * list BlacklistEntry :=
  match values with
  | k :: v :: rest =>
      if (negb (bool_decide (kind k = KString)) || negb (bool_decide (kind v = KString)))%bool
      then (StoreStatus.ProtocolError, entries)
      else if negb (valid_scanned_id t (text k)) then (StoreStatus.InvalidRemoteState, entries)
      else
        match parseUnsigned (text v) kMaxExpireAtMs with
        | None => (StoreStatus.InvalidRemoteState, entries)
        | Some expiry => parse_scan_pairs t rest (entries ++ [mkEntry t (text k) expiry])
        end
  | _ => (StoreStatus.Ok, entries)
  end.

(** The new cursor and the entries are meaningful when the status is [Ok]. *)
Definition parseHashScan (result : RedisCommandResult) (t : EntityType) (cursor : string)
    (entries : list BlacklistEntry) : StoreStatus.t * string * list BlacklistEntry :=
  let status := commandStatus result in
  if failed status then (status, cursor, entries)
  else if bool_decide (kind (value result) = KError)
  then (StoreStatus.InvalidRemoteState, cursor, entries)
  else
    match kind (value result), elements (value result) with
    | KArray, [c; pairs] =>
        if (negb (bool_decide (kind c = KString)) || negb (bool_decide (kind pairs = KArray))
            || negb (size_of (elements pairs) mod 2 =? 0))%bool
        then (StoreStatus.ProtocolError, cursor, entries)
        else
          let cursor := text c in
          match parseUnsigned cursor kMaxRedisInteger with
          | None => (StoreStatus.ProtocolError, cursor, entries)
          | Some _ =>
              let '(status, entries) := parse_scan_pairs t (elements pairs) entries in
              (status, cursor, entries)
          end
    | _, _ => (StoreStatus.ProtocolError, cursor, entries)
    end.
End Parse.

Definition fromPrefix (prefix : string) : RedisKeySet :=
  mkKeys (prefix +:+ ":user") (prefix +:+ ":ip") (prefix +:+ ":device") (prefix +:+ ":pending")
    (prefix +:+ ":revision") (prefix +:+ ":cache_ready") (prefix +:+ ":published_revision")
    (prefix +:+ ":reset_barrier").

Definition all_keys (k : RedisKeySet) : list string :=
  [users k; ips k; devices k; pending k; revision k; cache_ready k; published_revision k;
   reset_barrier k].

Definition redisAndPublicationEmpty (c : ResetConvergence) : bool :=
  bool_decide (conv_status c = StoreStatus.Ok) && (user_count c =? 0) && (ip_count c =? 0)
  && (device_count c =? 0) && (pending_count c =? 0)
  && negb (bool_decide (conv_revision c = None))
  && bool_decide (conv_published_revision c = conv_revision c).

(** ** Operations *)

Section Operations.
Context `{Inet} (keys : RedisKeySet) (deadline : Z).

Definition run (argv : list string) : Redis RedisCommandResult := fun c => command c argv deadline.

Definition drop_connection : Redis unit := fun c => (invalidate c, tt).

Definition ensureType (key expected : string) (allow_none : bool) : Redis StoreStatus.t :=
  result ← run ["TYPE"; key];
  let status := commandStatus result in
  mret (if failed status then status
        else if negb (bool_decide (kind (value result) = KStatus)) then StoreStatus.ProtocolError
        else if (bool_decide (text (value result) = expected)
                 || (allow_none && bool_decide (text (value result) = "none")))%bool
        then StoreStatus.Ok else StoreStatus.InvalidRemoteState).

Definition unwatch : Redis StoreStatus.t :=
  result ← run ["UNWATCH"];
  let status := commandStatus result in
  mret (if failed status then status
        else if statusIs result "OK" then StoreStatus.Ok else StoreStatus.ProtocolError).

Definition discard : Redis StoreStatus.t :=
  result ← run ["DISCARD"];
  let status := commandStatus result in
  mret (if failed status then status
        else if statusIs result "OK" then StoreStatus.Ok else StoreStatus.ProtocolError).

Definition leaveWatch (original : StoreStatus.t) : Redis StoreStatus.t :=
  cleaned ← unwatch;
  if failed cleaned then _ ← drop_connection; mret cleaned else mret original.

Definition leaveTransaction (original : StoreStatus.t) : Redis StoreStatus.t :=
  cleaned ← discard;
  if failed cleaned then _ ← drop_connection; mret cleaned else mret original.

(** The loops over [ensureType]. *)
Fixpoint ensure_types (checks : list (string * string * bool)) : Redis StoreStatus.t :=
  match checks with
  | [] => mret StoreStatus.Ok
  | (key, expected, allow_none) :: rest =>
      status ← ensureType key expected allow_none;
      if failed status then mret status else ensure_types rest
  end.

(** The revision is meaningful when the status is [Ok]. *)
Definition readWatchedReadyRevision (hash_keys : list string) : Redis (StoreStatus.t * Z) :=
  status ← ensureType (cache_ready keys) "string" true;
  if failed status then mret (status, 0)
  else
    ready ← run ["GET"; cache_ready keys];
    let status := commandStatus ready in
    if failed status then mret (status, 0)
    else if bool_decide (kind (value ready) = KNil) then mret (StoreStatus.NotReady, 0)
    else if (negb (bool_decide (kind (value ready) = KString))
             || negb (bool_decide (text (value ready) = "1")))%bool
    then mret (StoreStatus.InvalidRemoteState, 0)
    else
      status ← ensure_types [(pending keys, "stream", true); (revision keys, "string", false)];
      if failed status then mret (status, 0)
      else
        status ← ensure_types ((fun k => (k, "hash", true)) <$> hash_keys);
        if failed status then mret (status, 0)
        else
          current ← run ["GET"; revision keys];
          let status := commandStatus current in
          if failed status then mret (status, 0)
          else if negb (bool_decide (kind (value current) = KString))
          then mret (StoreStatus.InvalidRemoteState, 0)
          else
            match parseUnsigned (text (value current)) (kMaxRedisInteger - 1) with
            | None => mret (StoreStatus.InvalidRemoteState, 0)
            | Some parsed => mret (StoreStatus.Ok, parsed)
            end.

Definition queueCommand (argv : list string) : Redis StoreStatus.t :=
  result ← run argv;
  let status := commandStatus result in
  mret (if failed status then status
        else if statusIs result "QUEUED" then StoreStatus.Ok else StoreStatus.ProtocolError).

Definition execBaseStatus (result : RedisCommandResult) : StoreStatus.t :=
  match cmd_status result with
  | RedisCommandStatus.DeadlineExceeded => StoreStatus.DeadlineExceeded
  | RedisCommandStatus.IoError => StoreStatus.CommitUnknown
  | RedisCommandStatus.ProtocolError => StoreStatus.ProtocolError
  | RedisCommandStatus.Ok =>
      match kind (value result) with
      | KNil => StoreStatus.WatchConflict
      | KError => StoreStatus.TransactionError
      | KArray =>
          if existsb (fun v => bool_decide (kind v = KError)) (elements (value result))
          then StoreStatus.TransactionError else StoreStatus.Ok
      | _ => StoreStatus.ProtocolError
      end
  end.

(** An [EXEC] without a reply leaves the connection unusable. *)
Definition checkedExecStatus (result : RedisCommandResult) : Redis StoreStatus.t :=
  if bool_decide (cmd_status result = RedisCommandStatus.Ok) then mret (execBaseStatus result)
  else _ ← drop_connection; mret (execBaseStatus result).

(** [queueOrDiscard] for the commands in turn. *)
Fixpoint queue_all (commands : list (list string)) : Redis StoreStatus.t :=
  match commands with
  | [] => mret StoreStatus.Ok
  | argv :: rest =>
      queued ← queueCommand argv;
      if failed queued then leaveTransaction queued else queue_all rest
  end.

(** [WATCH] and the test of its reply, [executor_->invalidate()] included. *)
Definition watch (watched_keys : list string) : Redis StoreStatus.t :=
  result ← run ("WATCH" :: watched_keys);
  let status := commandStatus result in
  if failed status then mret status
  else if negb (statusIs result "OK")
  then _ ← drop_connection; mret StoreStatus.ProtocolError
  else mret StoreStatus.Ok.

(** [MULTI], the queued commands and [EXEC]: the status, and the replies when
    it is [Ok]. *)
Definition transaction (commands : list (list string)) : Redis (StoreStatus.t * list RedisValue) :=
  multi ← run ["MULTI"];
  let status := commandStatus multi in
  if (failed status || negb (statusIs multi "OK"))%bool then
    let original := if failed status then status else StoreStatus.ProtocolError in
    left ← leaveTransaction original; mret (left, [])
  else
    queued ← queue_all commands;
    if failed queued then mret (queued, [])
    else
      executed ← run ["EXEC"];
      status ← checkedExecStatus executed;
      mret (status, elements (value executed)).

(** [std::set<std::string>::insert] *)
Fixpoint set_insert (key : string) (set : list string) : list string :=
  match set with
  | [] => [key]
  | k :: rest =>
      if bool_decide (key = k) then set
      else if String.ltb key k then key :: set
      else k :: set_insert key rest
  end.

Definition touched_keys (mutations : list BlacklistMutation) : list string :=
  foldl (fun set m => match entityType m with
                      | Some t => set_insert (hashKey keys t) set
                      | None => set end) [] mutations.

(** The two commands that one mutation queues. *)
Definition mutation_commands (m : BlacklistMutation) : list (list string) :=
  let key := from_option (hashKey keys) "" (entityType m) in
  [ if bool_decide (operation m = Upsert) then ["HSET"; key; mut_id m; to_string (expireAtMs m)]
    else ["HDEL"; key; mut_id m];
    ["XADD"; pending keys; "*"] ++ streamFields m ].

Definition is_clear (m : BlacklistMutation) : bool := bool_decide (operation m = ClearAll).

(** The transaction of [applyMutations]. *)
Definition apply_commands (clear : bool) (mutations : list BlacklistMutation) : list (list string) :=
  (if clear then
     [["DEL"; users keys; ips keys; devices keys];
      ["XADD"; pending keys; "*"] ++ from_option streamFields [] (head mutations)]
   else mjoin (mutation_commands <$> mutations))
  ++ [["INCR"; revision keys]].

Definition non_negative_integer (v : RedisValue) : bool :=
  bool_decide (kind v = KInteger) && (0 <=? integer v).

(** The checks of the replies before the last. *)
Fixpoint apply_replies_ok (clear : bool) (index : nat) (replies : list RedisValue) : bool :=
  match replies with
  | [] => true
  | v :: rest =>
      let is_xadd := if clear then (index =? 1)%nat else Nat.odd index in
      (if is_xadd then bool_decide (kind v = KString) && negb (bool_decide (text v = ""))
       else non_negative_integer v && negb (clear && (3 <? integer v)))
      && apply_replies_ok clear (S index) rest
  end.

Definition revision_reply_ok (v : option RedisValue) (expected : Z) : bool :=
  match v with
  | None => false
  | Some v => non_negative_integer v && (integer v =? expected)
  end.

Definition applyMutations (mutations : list BlacklistMutation) : Redis StoreResult :=
  match mutations with
  | [] => mret (mkStoreResult StoreStatus.ProtocolError None)
  | first :: _ =>
      let clear := is_clear first in
      if ((clear && negb (size_of mutations =? 1)) || (negb clear && existsb is_clear mutations))%bool
      then mret (mkStoreResult StoreStatus.ProtocolError None)
      else if (negb clear && existsb (fun m => bool_decide (entityType m = None)) mutations)%bool
      then mret (mkStoreResult StoreStatus.ProtocolError None)
      else
        let touched :=
          if clear then set_insert (devices keys) (set_insert (ips keys) (set_insert (users keys) []))
          else touched_keys mutations in
        status ← watch ([cache_ready keys; pending keys; revision keys] ++ touched);
        if failed status then mret (mkStoreResult status None)
        else
          '(status, current) ← readWatchedReadyRevision touched;
          if failed status then
            left ← leaveWatch status; mret (mkStoreResult left None)
          else
            let commands := apply_commands clear mutations in
            '(status, replies) ← transaction commands;
            if failed status then mret (mkStoreResult status None)
            else if negb (length replies =? length commands)%nat
            then mret (mkStoreResult StoreStatus.ProtocolError None)
            else if negb (apply_replies_ok clear 0 (removelast replies))
            then mret (mkStoreResult StoreStatus.ProtocolError None)
            else if negb (revision_reply_ok (last replies) (current + 1))
            then mret (mkStoreResult StoreStatus.ProtocolError None)
            else mret (mkStoreResult StoreStatus.Ok (Some (current + 1)))
  end.

Fixpoint parse_pending (raw : list RedisValue) (out : list PendingBlacklistEntry)
    : PendingReadResult :=
  match raw with
  | [] => mkPendingRead StoreStatus.Ok out
  | entry :: rest =>
      match kind entry, elements entry with
      | KArray, [i; fields] =>
          if (negb (bool_decide (kind i = KString)) || negb (isStreamId (text i)))%bool
          then mkPendingRead StoreStatus.ProtocolError []
          else parse_pending rest (out ++ [mkPending (text i) (parseStreamMutation fields)])
      | _, _ => mkPendingRead StoreStatus.ProtocolError []
      end
  end.

Definition readPending (count : Z) : Redis PendingReadResult :=
  if count =? 0 then mret (mkPendingRead StoreStatus.ProtocolError [])
  else
    result ← run ["XRANGE"; pending keys; "-"; "+"; "COUNT"; to_string count];
    let status := commandStatus result in
    mret (if failed status then mkPendingRead status []
          else if bool_decide (kind (value result) = KError)
          then mkPendingRead StoreStatus.InvalidRemoteState []
          else if negb (bool_decide (kind (value result) = KArray))
          then mkPendingRead StoreStatus.ProtocolError []
          else parse_pending (elements (value result)) []).

Definition deletePending (stream_ids : list string) : Redis StoreStatus.t :=
  match stream_ids with
  | [] => mret StoreStatus.Ok
  | _ =>
      if existsb (fun i => negb (isStreamId i)) stream_ids then mret StoreStatus.ProtocolError
      else
        result ← run ("XDEL" :: pending keys :: stream_ids);
        let status := commandStatus result in
        mret (if failed status then status
              else if bool_decide (kind (value result) = KError) then StoreStatus.InvalidRemoteState
              else if non_negative_integer (value result) then StoreStatus.Ok
              else StoreStatus.ProtocolError)
  end.

Definition readReadyRevision : Redis StoreResult :=
  '(status, current) ← readWatchedReadyRevision [users keys; ips keys; devices keys];
  mret (mkStoreResult status (if failed status then None else Some current)).

Definition readRevision : Redis StoreResult :=
  result ← run ["GET"; revision keys];
  let status := commandStatus result in
  mret (if failed status then mkStoreResult status None
        else if negb (bool_decide (kind (value result) = KString))
        then mkStoreResult StoreStatus.InvalidRemoteState None
        else
          match parseUnsigned (text (value result)) kMaxRedisInteger with
          | Some r => mkStoreResult StoreStatus.Ok (Some r)
          | None => mkStoreResult StoreStatus.InvalidRemoteState None
          end).

(** The reading of the clock before the next command. *)
Definition steady_now : Redis Z :=
  fun c => (c, match answers c with a :: _ => loop_clock a | [] => 0 end).

(** The [HSCAN] loop of one hash; each pass takes an answer of the server. *)
Fixpoint scan_loop (fuel : nat) (scan_count : Z) (t : EntityType) (key cursor : string)
    (entries : list BlacklistEntry) : Redis (StoreStatus.t * list BlacklistEntry) :=
  match fuel with
  | O => mret (StoreStatus.IoError, entries)
  | S fuel =>
      now ← steady_now;
      if deadline <=? now then mret (StoreStatus.DeadlineExceeded, entries)
      else
        result ← run ["HSCAN"; key; cursor; "COUNT"; to_string scan_count];
        let '(status, cursor, entries) := parseHashScan result t cursor entries in
        if failed status then mret (status, entries)
        else if bool_decide (cursor = "0") then mret (StoreStatus.Ok, entries)
        else scan_loop fuel scan_count t key cursor entries
  end.

Fixpoint scan_hashes (fuel : nat) (scan_count : Z) (hashes : list (EntityType * string))
    (entries : list BlacklistEntry) : Redis (StoreStatus.t * list BlacklistEntry) :=
  match hashes with
  | [] => mret (StoreStatus.Ok, entries)
  | (t, key) :: rest =>
      '(status, entries) ← scan_loop fuel scan_count t key "0" entries;
      if failed status then mret (status, entries)
      else scan_hashes fuel scan_count rest entries
  end.

(** One pass per answer the server still gives. *)
Definition scan_fuel : Redis nat := fun c => (c, S (length (answers c))).

Definition loadStableSnapshot (scan_count : Z) : Redis SnapshotReadResult :=
  if scan_count =? 0 then mret (mkSnapshotRead StoreStatus.ProtocolError 0 [])
  else
    before ← readRevision;
    match store_status before, store_revision before with
    | StoreStatus.Ok, Some revision_before =>
        fuel ← scan_fuel;
        '(status, entries) ← scan_hashes fuel scan_count
            [(User, users keys); (Ip, ips keys); (Device, devices keys)] [];
        if failed status then mret (mkSnapshotRead status 0 [])
        else
          after ← readRevision;
          match store_status after, store_revision after with
          | StoreStatus.Ok, Some revision_after =>
              if negb (revision_after =? revision_before)
              then mret (mkSnapshotRead StoreStatus.WatchConflict 0 [])
              else mret (mkSnapshotRead StoreStatus.Ok revision_before entries)
          | status, _ => mret (mkSnapshotRead status 0 [])
          end
    | status, _ => mret (mkSnapshotRead status 0 [])
    end.

(** ** Expired fields *)

(** [grouped]: per type, the expiry of each id. *)
Abbreviation ExpiryById := (list (string * Z)).

(** [emplace] into the ordered map of the group; [None] for a duplicate. *)
Fixpoint group_insert (i : string) (expiry : Z) (group : ExpiryById) : option ExpiryById :=
  match group with
  | [] => Some [(i, expiry)]
  | (k, e) :: rest =>
      if bool_decide (i = k) then None
      else if String.ltb i k then Some ((i, expiry) :: group)
      else cons (k, e) <$> group_insert i expiry rest
  end.

Record Groups := mkGroups { group_users : ExpiryById; group_ips : ExpiryById; group_devices : ExpiryById }.

Definition group_add (g : Groups) (t : EntityType) (i : string) (e : Z) : option Groups :=
  match t with
  | User => (fun l => g <| group_users := l |>) <$> group_insert i e (group_users g)
  | Ip => (fun l => g <| group_ips := l |>) <$> group_insert i e (group_ips g)
  | Device => (fun l => g <| group_devices := l |>) <$> group_insert i e (group_devices g)
  end.

(** The loop that checks and groups the entries. *)
Fixpoint group_expired (entries : list BlacklistEntry) (now_ms : Z) (g : Groups) : option Groups :=
  match entries with
  | [] => Some g
  | entry :: rest =>
      match disable (type entry) (id entry) with
      | None => None
      | Some normalized =>
          if (negb (bool_decide (mut_id normalized = id entry)) || (expire_at_ms entry =? 0)
              || (now_ms <? expire_at_ms entry) || (kMaxExpireAtMs <? expire_at_ms entry))%bool
          then None
          else
            match group_add g (type entry) (id entry) (expire_at_ms entry) with
            | None => None
            | Some g => group_expired rest now_ms g
            end
      end
  end.

(** The groups that are not empty, with the key of their hash. *)
Definition filled_groups (g : Groups) : list (string * ExpiryById) :=
  filter (fun kg => kg.2 <> [])
    [(users keys, group_users g); (ips keys, group_ips g); (devices keys, group_devices g)].

(** The [HGET] loop over one group: every field still has the scanned expiry. *)
Fixpoint check_fields (key : string) (group : ExpiryById) (now_ms : Z) : Redis StoreStatus.t :=
  match group with
  | [] => mret StoreStatus.Ok
  | (i, scanned_expiry) :: rest =>
      result ← run ["HGET"; key; i];
      let status := commandStatus result in
      if failed status then mret status
      else if bool_decide (kind (value result) = KNil) then mret StoreStatus.WatchConflict
      else if negb (bool_decide (kind (value result) = KString))
      then mret StoreStatus.InvalidRemoteState
      else
        match parseUnsigned (text (value result)) kMaxExpireAtMs with
        | None => mret StoreStatus.InvalidRemoteState
        | Some remote_expiry =>
            if (negb (remote_expiry =? scanned_expiry) || (remote_expiry =? 0)
                || (now_ms <? remote_expiry))%bool
            then mret StoreStatus.WatchConflict else check_fields key rest now_ms
        end
  end.

Fixpoint check_groups (groups : list (string * ExpiryById)) (now_ms : Z) : Redis StoreStatus.t :=
  match groups with
  | [] => mret StoreStatus.Ok
  | (key, group) :: rest =>
      status ← check_fields key group now_ms;
      if failed status then mret status else check_groups rest now_ms
  end.

(** What is checked between [WATCH] and [MULTI]. *)
Definition check_expired (groups : list (string * ExpiryById)) (expected_revision now_ms : Z)
    : Redis StoreStatus.t :=
  status ← ensureType (revision keys) "string" false;
  if failed status then mret status
  else
    status ← ensure_types ((fun kg => (kg.1, "hash", true)) <$> groups);
    if failed status then mret status
    else
      result ← run ["GET"; revision keys];
      let status := commandStatus result in
      if failed status then mret status
      else if negb (bool_decide (kind (value result) = KString))
      then mret StoreStatus.InvalidRemoteState
      else
        match parseUnsigned (text (value result)) (kMaxRedisInteger - 1) with
        | None => mret StoreStatus.InvalidRemoteState
        | Some current =>
            if negb (current =? expected_revision) then mret StoreStatus.WatchConflict
            else check_groups groups now_ms
        end.

Definition expire_commands (groups : list (string * ExpiryById)) : list (list string) :=
  ((fun kg => ["HDEL"; kg.1] ++ (kg.2).*1) <$> groups) ++ [["INCR"; revision keys]].

Fixpoint deleted_replies_ok (groups : list (string * ExpiryById)) (replies : list RedisValue) : bool :=
  match groups, replies with
  | (_, group) :: groups, v :: replies =>
      non_negative_integer v && (integer v =? size_of group) && deleted_replies_ok groups replies
  | [], _ => true
  | _ :: _, [] => false
  end.

Definition removeExpiredFields (expired_entries : list BlacklistEntry) (expected_revision now_ms : Z)
    : Redis StoreResult :=
  if (bool_decide (length expired_entries = 0%nat) || (kMaxRedisInteger <=? expected_revision))%bool
  then mret (mkStoreResult StoreStatus.ProtocolError None)
  else
    match group_expired expired_entries now_ms (mkGroups [] [] []) with
    | None => mret (mkStoreResult StoreStatus.ProtocolError None)
    | Some grouped =>
        let groups := filled_groups grouped in
        status ← watch (revision keys :: groups.*1);
        if failed status then mret (mkStoreResult status None)
        else
          status ← check_expired groups expected_revision now_ms;
          if failed status then
            left ← leaveWatch status; mret (mkStoreResult left None)
          else
            '(status, replies) ← transaction (expire_commands groups);
            if failed status then mret (mkStoreResult status None)
            else if negb (length replies =? S (length groups))%nat
            then mret (mkStoreResult StoreStatus.ProtocolError None)
            else if negb (deleted_replies_ok groups replies)
            then mret (mkStoreResult StoreStatus.ProtocolError None)
            else if negb (revision_reply_ok (last replies) (expected_revision + 1))
            then mret (mkStoreResult StoreStatus.ProtocolError None)
            else mret (mkStoreResult StoreStatus.Ok (Some (expected_revision + 1)))
    end.

Definition setPublishedRevision (published : Z) : Redis StoreStatus.t :=
  if kMaxRedisInteger <? published then mret StoreStatus.ProtocolError
  else
    status ← watch [published_revision keys];
    if failed status then mret status
    else
      status ← ensureType (published_revision keys) "string" true;
      if failed status then leaveWatch status
      else
        '(status, replies) ← transaction [["SET"; published_revision keys; to_string published]];
        if failed status then mret status
        else
          match replies with
          | [v] => mret (if (bool_decide (kind v = KStatus) && bool_decide (text v = "OK"))%bool
                         then StoreStatus.Ok else StoreStatus.ProtocolError)
          | _ => mret StoreStatus.ProtocolError
          end.

(** ** The reset barrier *)

Definition requestResetBarrier : Redis StoreResult :=
  result ← run ["HINCRBY"; reset_barrier keys; "requested"; "1"];
  let status := commandStatus result in
  mret (if failed status then mkStoreResult status None
        else if bool_decide (kind (value result) = KError)
        then mkStoreResult StoreStatus.InvalidRemoteState None
        else if (negb (bool_decide (kind (value result) = KInteger)) || (integer (value result) <=? 0))%bool
        then mkStoreResult StoreStatus.ProtocolError None
        else mkStoreResult StoreStatus.Ok (Some (integer (value result)))).

(** One field of the barrier: a missing one is zero. *)
Definition barrier_field (v : RedisValue) : option Z :=
  match kind v with
  | KNil => Some 0
  | KString => parseUnsigned (text v) kMaxRedisInteger
  | _ => None
  end.

Definition readResetBarrier : Redis ResetReadResult :=
  result ← run ["HMGET"; reset_barrier keys; "requested"; "completed"];
  let status := commandStatus result in
  let fail status := mkResetRead status (mkBarrier 0 0) in
  mret (if failed status then fail status
        else if bool_decide (kind (value result) = KError) then fail StoreStatus.InvalidRemoteState
        else
          match kind (value result), elements (value result) with
          | KArray, [r; c] =>
              match barrier_field r, barrier_field c with
              | Some r, Some c =>
                  if r <? c then fail StoreStatus.InvalidRemoteState
                  else mkResetRead StoreStatus.Ok (mkBarrier r c)
              | _, _ => fail StoreStatus.InvalidRemoteState
              end
          | _, _ => fail StoreStatus.ProtocolError
          end).

Definition completeResetBarrier (token : Z) : Redis StoreStatus.t :=
  if ((token =? 0) || (kMaxRedisInteger <? token))%bool then mret StoreStatus.ProtocolError
  else
    status ← watch [reset_barrier keys];
    if failed status then mret status
    else
      state ← readResetBarrier;
      if (failed (reset_status state) || (requested (reset_state state) <? token)
          || (token <? completed (reset_state state)))%bool
      then leaveWatch (if failed (reset_status state) then reset_status state
                       else StoreStatus.InvalidRemoteState)
      else
        '(status, replies) ← transaction
            [["HSET"; reset_barrier keys; "completed"; to_string token]];
        if failed status then mret status
        else
          match replies with
          | [v] => mret (if non_negative_integer v then StoreStatus.Ok else StoreStatus.ProtocolError)
          | _ => mret StoreStatus.ProtocolError
          end.

(** A count of [readResetConvergence]. *)
Definition read_count (name key : string) : Redis (StoreStatus.t * Z) :=
  result ← run [name; key];
  let status := commandStatus result in
  mret (if failed status then (status, 0)
        else if bool_decide (kind (value result) = KError) then (StoreStatus.InvalidRemoteState, 0)
        else if non_negative_integer (value result) then (StoreStatus.Ok, integer (value result))
        else (StoreStatus.ProtocolError, 0)).

Definition parseRevisionKey (key : string) : Redis (StoreStatus.t * option Z) :=
  result ← run ["GET"; key];
  let status := commandStatus result in
  mret (if failed status then (status, None)
        else
          match kind (value result) with
          | KNil => (StoreStatus.Ok, None)
          | KString =>
              match parseUnsigned (text (value result)) kMaxRedisInteger with
              | Some r => (StoreStatus.Ok, Some r)
              | None => (StoreStatus.InvalidRemoteState, None)
              end
          | _ => (StoreStatus.InvalidRemoteState, None)
          end).

Definition readResetConvergence : Redis ResetConvergence :=
  let out := mkConvergence StoreStatus.Ok 0 0 0 0 None None in
  '(status, n) ← read_count "HLEN" (users keys);
  if failed status then mret (out <| conv_status := status |>)
  else
    let out := out <| user_count := n |> in
    '(status, n) ← read_count "HLEN" (ips keys);
    if failed status then mret (out <| conv_status := status |>)
    else
      let out := out <| ip_count := n |> in
      '(status, n) ← read_count "HLEN" (devices keys);
      if failed status then mret (out <| conv_status := status |>)
      else
        let out := out <| device_count := n |> in
        '(status, n) ← read_count "XLEN" (pending keys);
        if failed status then mret (out <| conv_status := status |>)
        else
          let out := out <| pending_count := n |> in
          '(status, current) ← parseRevisionKey (revision keys);
          if failed status then mret (out <| conv_status := status |>)
          else
            let out := out <| conv_revision := current |> in
            '(status, published) ← parseRevisionKey (published_revision keys);
            mret (out <| conv_status := status |> <| conv_published_revision := published |>).

(** ** Rebuilding from MySQL *)

(** The check and the group of one entry; here duplicates are kept. *)
Definition rebuild_entry_ok (e : BlacklistEntry) : bool :=
  (match type e with
   | Ip => match parse (id e) with Some a => bool_decide (canonicalText a = id e) | None => false end
   | _ => true
   end)
  && negb (bool_decide (id e = "") || (kMaxEntityIdBytes <? str_size (id e))
           || containsNull (id e) || (kMaxExpireAtMs <? expire_at_ms e)).

(** The arguments of the [HSET] of one type. *)
Definition group_arguments (t : EntityType) (entries : list BlacklistEntry) : list string :=
  mjoin ((fun e => [id e; to_string (expire_at_ms e)])
           <$> filter (fun e => type e = t) entries).

Definition rebuild_hset (t : EntityType) (entries : list BlacklistEntry) : list (list string) :=
  match group_arguments t entries with
  | [] => []
  | arguments => [["HSET"; hashKey keys t] ++ arguments]
  end.

Definition rebuild_commands (entries : list BlacklistEntry) : list (list string) :=
  [["DEL"; users keys; ips keys; devices keys]]
  ++ rebuild_hset User entries ++ rebuild_hset Ip entries ++ rebuild_hset Device entries
  ++ [["INCR"; revision keys]; ["SET"; cache_ready keys; "1"]].

Definition ok_reply (v : RedisValue) : bool :=
  bool_decide (kind v = KStatus) && bool_decide (text v = "OK").

(** The checks of the replies: integers, then the revision, then [OK]. *)
Fixpoint rebuild_replies_ok (index : nat) (replies : list RedisValue) (expected : Z) : bool :=
  match replies with
  | [] => true
  | [ok] => ok_reply ok
  | [r; ok] => non_negative_integer r && (integer r =? expected) && ok_reply ok
  | v :: rest => non_negative_integer v && negb ((index =? 0)%nat && (3 <? integer v))
                 && rebuild_replies_ok (S index) rest expected
  end.

(** What is read between [WATCH] and [MULTI]: the previous revision. *)
Definition check_rebuild (entries : list BlacklistEntry) : Redis (StoreStatus.t * Z) :=
  status ← ensure_types
      [(cache_ready keys, "string", true); (revision keys, "string", true);
       (users keys, "hash", true); (ips keys, "hash", true); (devices keys, "hash", true)];
  if failed status then mret (status, 0)
  else
    ready ← run ["GET"; cache_ready keys];
    let status := commandStatus ready in
    if failed status then mret (status, 0)
    else if (bool_decide (kind (value ready) = KString) && bool_decide (text (value ready) = "1"))%bool
    then mret (StoreStatus.WatchConflict, 0)
    else if negb (bool_decide (kind (value ready) = KNil))
    then mret (StoreStatus.InvalidRemoteState, 0)
    else
      current ← run ["GET"; revision keys];
      let status := commandStatus current in
      if failed status then mret (status, 0)
      else
        match (match kind (value current) with
               | KString => parseUnsigned (text (value current)) (kMaxRedisInteger - 1)
               | KNil => Some 0
               | _ => None
               end) with
        | None => mret (StoreStatus.InvalidRemoteState, 0)
        | Some previous =>
            if negb (forallb rebuild_entry_ok entries) then mret (StoreStatus.ProtocolError, 0)
            else mret (StoreStatus.Ok, previous)
        end.

Definition rebuildFromMysql (entries : list BlacklistEntry) : Redis StoreResult :=
  status ← watch [cache_ready keys; revision keys; users keys; ips keys; devices keys];
  if failed status then mret (mkStoreResult status None)
  else
    '(status, previous) ← check_rebuild entries;
    if failed status then
      left ← leaveWatch status; mret (mkStoreResult left None)
    else
      let commands := rebuild_commands entries in
      '(status, replies) ← transaction commands;
      if failed status then mret (mkStoreResult status None)
      else if negb (length replies =? length commands)%nat
      then mret (mkStoreResult StoreStatus.ProtocolError None)
      else if negb (rebuild_replies_ok 0 replies (previous + 1))
      then mret (mkStoreResult StoreStatus.ProtocolError None)
      else mret (mkStoreResult StoreStatus.Ok (Some (previous + 1))).
End Operations.

(** ** What the server has executed

    The documented effect of the commands on the session: [WATCH] and [MULTI]
    leave state on the connection, [EXEC] ends it, [UNWATCH] and [DISCARD] end
    it when they answer [OK]; a queued command takes effect at an [EXEC] that
    answers an array, [XDEL] and [HINCRBY] take effect at once. *)

Record Session := mkSession {
  dirty : bool;
  open_tx : option (list (list string));
  executed : list (list string);
}.

Definition fresh_session : Session := mkSession false None [].

Definition is_status (v : RedisValue) (expected : string) : bool :=
  bool_decide (kind v = KStatus) && bool_decide (text v = expected).

Inductive CommandClass := CWatch | CMulti | CExec | CUnwatch | CDiscard | CWrite | CPlain.

Definition command_class (argv : list string) : CommandClass :=
  match argv with
  | name :: _ =>
      if bool_decide (name = "WATCH") then CWatch
      else if bool_decide (name = "MULTI") then CMulti
      else if bool_decide (name = "EXEC") then CExec
      else if bool_decide (name = "UNWATCH") then CUnwatch
      else if bool_decide (name = "DISCARD") then CDiscard
      else if (bool_decide (name = "XDEL") || bool_decide (name = "HINCRBY"))%bool then CWrite
      else CPlain
  | [] => CPlain
  end.

Definition session_step (s : Session) (answered : list string * RedisValue) : Session :=
  let '(argv, v) := answered in
  match command_class argv with
  | CWatch => s <| dirty := true |>
  | CMulti => if is_status v "OK" then s <| dirty := true |> <| open_tx := Some [] |> else s
  | CExec =>
      mkSession false None
        (executed s ++ match open_tx s with
                       | Some queued => if bool_decide (kind v = KArray) then queued else []
                       | None => []
                       end)
  | CUnwatch => if is_status v "OK" then s <| dirty := false |> else s
  | CDiscard => if is_status v "OK" then s <| dirty := false |> <| open_tx := None |> else s
  | c =>
      match open_tx s with
      | Some queued =>
          if is_status v "QUEUED" then s <| open_tx := Some (queued ++ [argv]) |> else s
      | None => match c with CWrite => s <| executed := executed s ++ [argv] |> | _ => s end
      end
  end.

Definition session_of (c : RedisConnection) : Session := foldl session_step fresh_session (sent c).

(** The connection carries no half-finished transaction: it is dropped, or the
    server has left [WATCH] and [MULTI]. *)
Definition clean (c : RedisConnection) : Prop :=
  context_ c = false \/ (dirty (session_of c) = false /\ open_tx (session_of c) = None).

(** ** Reasoning about programs *)

Definition triple {A} (P : RedisConnection -> Prop) (m : Redis A)
    (Q : A -> RedisConnection -> Prop) : Prop :=
  forall c, P c -> Q (m c).2 (m c).1.

Lemma triple_ret {A} (P : RedisConnection -> Prop) (a : A) (Q : A -> RedisConnection -> Prop) :
  (forall c, P c -> Q a c) -> triple P (mret a) Q.
Proof. intros H c HP. by apply H. Qed.

Lemma triple_bind {A B} P (m : Redis A) (f : A -> Redis B) Q R :
  triple P m Q -> (forall a, triple (Q a) (f a) R) -> triple P (m ≫= f) R.
Proof.
  intros Hm Hf c HP. unfold mbind, redis_bind. specialize (Hm c HP). destruct (m c) as [c' a].
  by apply Hf.
Qed.

Lemma triple_weaken {A} P P' (m : Redis A) Q Q' :
  triple P' m Q' -> (forall c, P c -> P' c) -> (forall a c, Q' a c -> Q a c) -> triple P m Q.
Proof. intros Hm HP HQ c Hc. by apply HQ, Hm, HP. Qed.

Lemma triple_pure {A} (p : Prop) P (m : Redis A) Q :
  (p -> triple P m Q) -> triple (fun c => p /\ P c) m Q.
Proof. intros H c [Hp HP]. by apply H. Qed.

(** The reply to an [EXEC] was lost: its transaction may have happened. *)
Definition in_doubt (c : RedisConnection) : Prop := lost c = Some ["EXEC"].

(** The session is [s], whatever became of the connection, and no [EXEC] is
    in doubt. *)
Definition at_session (s : Session) (c : RedisConnection) : Prop :=
  session_of c = s /\ ~ in_doubt c.

Lemma run_session deadline argv s :
  argv <> ["EXEC"] ->
  triple (at_session s) (run deadline argv) (fun r c =>
    (cmd_status r = RedisCommandStatus.Ok /\ at_session (session_step s (argv, value r)) c)
    \/ (cmd_status r = RedisCommandStatus.DeadlineExceeded /\ at_session s c)
    \/ (cmd_status r = RedisCommandStatus.IoError /\ at_session s c
        /\ (context_ c = false \/ argv = [] \/ int_max < size_of argv))
    \/ (cmd_status r = RedisCommandStatus.ProtocolError /\ at_session s c /\ context_ c = false)).
Proof.
  intros Hx c [Hs Hd]. unfold run. pose proof (command_cases c argv deadline) as Hc.
  destruct (command c argv deadline) as [c' r]. simpl in *. unfold at_session, in_doubt in *.
  destruct Hc as [a rest v H1 H2|a rest H1 H2|rest status l Hst H1 Hl|H1]; simpl.
  - left. split; [done|]. unfold session_of in *. simpl. by rewrite foldl_snoc, Hs.
  - right. left. by split.
  - assert (l <> Some ["EXEC"]) by (destruct Hl as [->| ->]; [done|congruence]).
    destruct Hst as [->| ->]; right; right; [left|right]; split_and!; auto.
  - right. right. left. by split_and!.
Qed.

(** Programs that only read: outside a transaction they leave the session. *)
Definition quiet {A} (m : Redis A) : Prop :=
  forall s, open_tx s = None -> triple (at_session s) m (fun _ => at_session s).

Lemma quiet_ret {A} (a : A) : quiet (mret a).
Proof. intros s _. by apply triple_ret. Qed.

Lemma quiet_bind {A B} (m : Redis A) (f : A -> Redis B) :
  quiet m -> (forall a, quiet (f a)) -> quiet (m ≫= f).
Proof. intros Hm Hf s Hs. eapply triple_bind; [by apply Hm|]. intros a. by apply Hf. Qed.

Lemma quiet_run deadline argv : command_class argv = CPlain -> quiet (run deadline argv).
Proof.
  intros Hc s Hs. eapply triple_weaken; [apply run_session; by intros ->|done|]. simpl. intros r c H.
  unfold session_step in H. rewrite Hc, Hs in H. tauto.
Qed.

Create HintDb redis.
#[export] Hint Resolve quiet_ret quiet_run : redis.

(** Goes through the binds and tests of a reading program. *)
Ltac solve_quiet :=
  repeat match goal with
  | |- quiet (mret _) => apply quiet_ret
  | |- quiet (_ ≫= _) => apply quiet_bind
  | |- quiet (run _ _) => apply quiet_run; reflexivity
  | |- quiet (if ?b then _ else _) => destruct b
  | |- quiet (match ?x with _ => _ end) => destruct x
  | |- forall _, _ => intros ?
  end; auto with redis.

Section Quiet.
Context `{Inet} (keys : RedisKeySet) (deadline : Z).

Lemma quiet_ensureType key expected none : quiet (ensureType deadline key expected none).
Proof. unfold ensureType. solve_quiet. Qed.
Hint Resolve quiet_ensureType : redis.

Lemma quiet_ensure_types checks : quiet (ensure_types deadline checks).
Proof. induction checks as [|[[key expected] none] checks IH]; simpl; solve_quiet. Qed.
Hint Resolve quiet_ensure_types : redis.

Lemma quiet_readWatched hashes : quiet (readWatchedReadyRevision keys deadline hashes).
Proof. unfold readWatchedReadyRevision. solve_quiet. Qed.

Lemma quiet_readPending count : quiet (readPending keys deadline count).
Proof. unfold readPending. solve_quiet. Qed.

Lemma quiet_readReadyRevision : quiet (readReadyRevision keys deadline).
Proof. unfold readReadyRevision. apply quiet_bind; [apply quiet_readWatched|]. solve_quiet. Qed.

Lemma quiet_readRevision : quiet (readRevision keys deadline).
Proof. unfold readRevision. solve_quiet. Qed.
Hint Resolve quiet_readRevision : redis.

Lemma quiet_scan_loop fuel n t key cursor entries :
  quiet (scan_loop deadline fuel n t key cursor entries).
Proof.
  revert cursor entries. induction fuel as [|fuel IH]; intros cursor entries; simpl; [solve_quiet|].
  apply quiet_bind; [by intros s _ c|]. solve_quiet.
Qed.
Hint Resolve quiet_scan_loop : redis.

Lemma quiet_scan_hashes fuel n hashes entries : quiet (scan_hashes deadline fuel n hashes entries).
Proof. revert entries. induction hashes as [|[t key] hashes IH]; intros entries; simpl; solve_quiet. Qed.
Hint Resolve quiet_scan_hashes : redis.

Lemma quiet_loadStableSnapshot n : quiet (loadStableSnapshot keys deadline n).
Proof.
  unfold loadStableSnapshot. case_match; [solve_quiet|]. apply quiet_bind; [solve_quiet|].
  intros before. destruct (store_status before); try apply quiet_ret.
  destruct (store_revision before); [|apply quiet_ret].
  apply quiet_bind; [by intros s _ c|]. intros fuel. solve_quiet.
Qed.

Lemma quiet_check_fields key group now : quiet (check_fields deadline key group now).
Proof. induction group as [|[i e] group IH]; simpl; solve_quiet. Qed.
Hint Resolve quiet_check_fields : redis.

Lemma quiet_check_groups groups now : quiet (check_groups deadline groups now).
Proof. induction groups as [|[k g] groups IH]; simpl; solve_quiet. Qed.
Hint Resolve quiet_check_groups : redis.

Lemma quiet_check_expired groups r now : quiet (check_expired keys deadline groups r now).
Proof. unfold check_expired. solve_quiet. Qed.

Lemma quiet_readResetBarrier : quiet (readResetBarrier keys deadline).
Proof. unfold readResetBarrier. solve_quiet. Qed.

Lemma quiet_readResetConvergence : quiet (readResetConvergence keys deadline).
Proof. unfold readResetConvergence, read_count, parseRevisionKey. solve_quiet. Qed.

Lemma quiet_check_rebuild entries : quiet (check_rebuild keys deadline entries).
Proof. unfold check_rebuild. solve_quiet. Qed.
End Quiet.

(** ** Transactions *)

(** The statuses that promise that nothing was written. *)
Definition definite (status : StoreStatus.t) : bool :=
  match status with
  | StoreStatus.WatchConflict | StoreStatus.NotReady | StoreStatus.InvalidRemoteState
  | StoreStatus.DeadlineExceeded | StoreStatus.IoError => true
  | StoreStatus.Ok | StoreStatus.CommitUnknown | StoreStatus.TransactionError
  | StoreStatus.ProtocolError => false
  end.

Definition clean_at (E : list (list string)) (c : RedisConnection) : Prop :=
  clean c /\ executed (session_of c) = E /\ ~ in_doubt c.

Lemma failed_true status : failed status = true <-> status <> StoreStatus.Ok.
Proof. unfold failed. by rewrite negb_true_iff, bool_decide_eq_false. Qed.

Lemma failed_false status : failed status = false <-> status = StoreStatus.Ok.
Proof. unfold failed. by rewrite negb_false_iff, bool_decide_eq_true. Qed.

Lemma commandStatus_ok r : commandStatus r = StoreStatus.Ok -> cmd_status r = RedisCommandStatus.Ok.
Proof. unfold commandStatus. by destruct (cmd_status r). Qed.

Lemma statusIs_true r s : statusIs r s = true -> is_status (value r) s = true.
Proof. unfold statusIs, is_status. intros H. apply andb_prop in H as [H ->].
  apply andb_prop in H as [_ ->]. done. Qed.

Lemma invalidate_session c : session_of (invalidate c) = session_of c.
Proof. done. Qed.

Lemma triple_drop {A} (P : RedisConnection -> Prop) (a : A) (Q : A -> RedisConnection -> Prop) :
  (forall c, P c -> Q a (invalidate c)) -> triple P (_ ← drop_connection; mret a) Q.
Proof. intros H c HP. by apply H. Qed.

Lemma clean_at_left E c : at_session (mkSession false None E) c -> clean_at E c.
Proof. intros [Hs Hd]. split_and!; [|by rewrite Hs|done]. right. by rewrite Hs. Qed.

Lemma clean_at_dropped E s c :
  at_session s c -> executed s = E -> context_ c = false -> clean_at E c.
Proof. intros [Hs Hd] HE Hc. split_and!; [by left|by rewrite Hs|done]. Qed.

Lemma clean_at_invalidate E s c : at_session s c -> executed s = E -> clean_at E (invalidate c).
Proof. intros Hs HE. by eapply clean_at_dropped. Qed.

Section Transactions.
Context (deadline : Z).

Lemma watch_spec watched E :
  triple (clean_at E) (watch deadline watched) (fun st c =>
    (st = StoreStatus.Ok /\ at_session (mkSession true None E) c)
    \/ (st <> StoreStatus.Ok /\ clean_at E c)).
Proof.
  intros c (Hc & HE & Hx). unfold watch, mbind, redis_bind.
  assert ("WATCH" :: watched <> ["EXEC"]) as Hne by done.
  pose proof (run_session deadline _ (session_of c) Hne c (conj eq_refl Hx)) as Hr.
  destruct (context_ c) eqn:Ec.
  2: { unfold run, command. rewrite Ec. simpl. right. split; [done|]. split_and!; by try left. }
  destruct Hc as [?|[Hd Ho]]; [congruence|].
  assert (session_of c = mkSession false None E) as Hs
    by (destruct (session_of c); simpl in *; by subst).
  rewrite Hs in Hr. destruct (run deadline _ c) as [c' r]. cbn [fst snd] in Hr.
  destruct (failed (commandStatus r)) eqn:Ef.
  - apply failed_true in Ef. right. split; [done|].
    destruct Hr as [[H _]|[[_ H]|[(_ & H & _)|(_ & H & _)]]].
    { exfalso. apply Ef. unfold commandStatus. by rewrite H. }
    all: by apply clean_at_left.
  - apply failed_false, commandStatus_ok in Ef.
    destruct Hr as [[_ H]|[[H _]|[[H _]|[H _]]]]; [|congruence..].
    destruct (statusIs r "OK") eqn:Eo; simpl; [left; by split|right].
    split; [done|]. by eapply clean_at_invalidate.
Qed.

(** [UNWATCH] and [DISCARD]: on [Ok] the server has left the transaction. *)
Lemma leave_spec name E s :
  command_class [name] = CUnwatch /\ open_tx s = None \/ command_class [name] = CDiscard ->
  executed s = E ->
  triple (at_session s)
    (result ← run deadline [name]; let status := commandStatus result in
     mret (if failed status then status
           else if statusIs result "OK" then StoreStatus.Ok else StoreStatus.ProtocolError))
    (fun st c => (exists s', executed s' = E /\ at_session s' c)
     /\ (st = StoreStatus.Ok -> at_session (mkSession false None E) c)
     /\ (st <> StoreStatus.Ok -> definite st = true \/ st = StoreStatus.ProtocolError)).
Proof.
  intros Hn HE c Hs. unfold mbind, redis_bind.
  assert ([name] <> ["EXEC"]) as Hne by (intros [= ->]; by destruct Hn as [[? _]|?]).
  pose proof (run_session deadline _ _ Hne c Hs) as Hr.
  destruct (run deadline _ c) as [c' r]. cbn [fst snd] in *. unfold mret, redis_ret. cbn [fst snd].
  unfold commandStatus.
  destruct Hr as [[H1 H2]|[[H1 H2]|[(H1 & H2 & _)|(H1 & H2 & _)]]]; rewrite H1; simpl.
  - unfold session_step in H2. destruct (statusIs r "OK") eqn:Eo.
    + assert (at_session (mkSession false None E) c').
      { rewrite (statusIs_true _ _ Eo) in H2. destruct s; simpl in *; subst.
        by destruct Hn as [[Hn ->]|Hn]; rewrite Hn in H2. }
      split_and!; [|done|done]. eexists. by split; [|done].
    + split_and!; [|done|by right]. eexists. split; [|exact H2].
      destruct Hn as [[Hn _]|Hn]; rewrite Hn; simpl; by destruct (is_status _ _).
  - split_and!; [|done|by left]. eauto.
  - split_and!; [|done|by left]. eauto.
  - split_and!; [|done|by right]. eauto.
Qed.

(** What leaving a [WATCH] or a [MULTI] answers. *)
Definition left_with (original st : StoreStatus.t) : Prop :=
  st = original \/ definite st = true \/ st = StoreStatus.ProtocolError.

Lemma leave_or_drop (m : Redis StoreStatus.t) original E s :
  triple (at_session s) m (fun st c => (exists s', executed s' = E /\ at_session s' c)
     /\ (st = StoreStatus.Ok -> at_session (mkSession false None E) c)
     /\ (st <> StoreStatus.Ok -> definite st = true \/ st = StoreStatus.ProtocolError)) ->
  triple (at_session s)
    (cleaned ← m; if failed cleaned then _ ← drop_connection; mret cleaned else mret original)
    (fun st c => clean_at E c /\ left_with original st).
Proof.
  intros Hm. eapply triple_bind; [exact Hm|]. intros cleaned. destruct (failed cleaned) eqn:Ef.
  - apply failed_true in Ef. apply triple_drop. intros c ((s' & HE & Hs) & _ & Hst).
    split; [by eapply clean_at_invalidate|]. right. auto.
  - apply failed_false in Ef. apply triple_ret. intros c (_ & Hs & _).
    split; [|by left]. apply clean_at_left. auto.
Qed.

Lemma leaveWatch_spec original E :
  triple (at_session (mkSession true None E)) (leaveWatch deadline original)
    (fun st c => clean_at E c /\ left_with original st).
Proof. apply leave_or_drop, leave_spec; [by left|done]. Qed.

Lemma leaveTransaction_spec original E s :
  executed s = E ->
  triple (at_session s) (leaveTransaction deadline original)
    (fun st c => clean_at E c /\ left_with original st).
Proof. intros HE. apply leave_or_drop, leave_spec; [by right|done]. Qed.

Lemma queueCommand_spec argv q E :
  command_class argv = CPlain ->
  triple (at_session (mkSession true (Some q) E)) (queueCommand deadline argv) (fun st c =>
    (st = StoreStatus.Ok /\ at_session (mkSession true (Some (q ++ [argv])) E) c)
    \/ ((definite st = true \/ st = StoreStatus.ProtocolError)
        /\ exists s, executed s = E /\ at_session s c)).
Proof.
  intros Hp c Hs. unfold queueCommand, mbind, redis_bind.
  assert (argv <> ["EXEC"]) as Hne by (by intros ->).
  pose proof (run_session deadline argv _ Hne c Hs) as Hr.
  destruct (run deadline _ c) as [c' r]. cbn [fst snd] in *. unfold mret, redis_ret. cbn [fst snd].
  unfold session_step in Hr. rewrite Hp in Hr. simpl in Hr. unfold commandStatus.
  destruct Hr as [[H1 H2]|[[H1 H2]|[(H1 & H2 & _)|(H1 & H2 & _)]]]; rewrite H1; simpl.
  - destruct (statusIs r "QUEUED") eqn:Eo.
    + left. rewrite (statusIs_true _ _ Eo) in H2. by split.
    + right. split; [by right|]. eexists. split; [|exact H2]. by case_match.
  - right. split; [by left|]. eexists. by split; [|exact H2].
  - right. split; [by left|]. eexists. by split; [|exact H2].
  - right. split; [by right|]. eexists. by split; [|exact H2].
Qed.

Lemma queue_all_spec commands q E :
  Forall (fun argv => command_class argv = CPlain) commands ->
  triple (at_session (mkSession true (Some q) E)) (queue_all deadline commands) (fun st c =>
    (st = StoreStatus.Ok /\ at_session (mkSession true (Some (q ++ commands)) E) c)
    \/ ((definite st = true \/ st = StoreStatus.ProtocolError) /\ clean_at E c)).
Proof.
  intros Hp. revert q. induction Hp as [|argv commands Hc _ IH]; intros q; simpl.
  { apply triple_ret. intros c Hs. left. by rewrite app_nil_r. }
  eapply triple_bind; [by apply (queueCommand_spec argv q E)|]. intros queued.
  destruct (failed queued) eqn:Ef.
  - apply failed_true in Ef. intros c [[? _]|[Hst (s & HE & Hs)]]; [done|]. right.
    pose proof (leaveTransaction_spec queued E s HE c Hs) as [Hcl [->|?]]; auto.
  - apply failed_false in Ef. subst queued. intros c [[_ Hs]|[[?|?] _]]; [|done..].
    pose proof (IH (q ++ [argv]) c Hs) as Hx. by rewrite <-app_assoc in Hx.
Qed.

(** What an operation that runs the transaction [commands] promises: the
    connection is clean; the commands were executed together or not at all;
    [Ok] means that they were;
    a definite error means that nothing was and that no [EXEC] is in doubt. *)
Definition outcome (E commands : list (list string)) (st : StoreStatus.t) (c : RedisConnection)
    : Prop :=
  clean c
  /\ (executed (session_of c) = E \/ executed (session_of c) = E ++ commands)
  /\ (st = StoreStatus.Ok -> executed (session_of c) = E ++ commands)
  /\ (definite st = true -> executed (session_of c) = E /\ ~ in_doubt c).

Lemma outcome_refused E commands st c : st <> StoreStatus.Ok -> clean_at E c -> outcome E commands st c.
Proof. intros Hst (H1 & H2 & H3). split_and!; auto; done. Qed.

Lemma outcome_checked E commands st c :
  st = StoreStatus.Ok \/ st = StoreStatus.ProtocolError ->
  outcome E commands StoreStatus.Ok c -> outcome E commands st c.
Proof. intros [->| ->] (? & ? & ? & ?); by split_and!. Qed.

Lemma exec_spec q E :
  triple (at_session (mkSession true (Some q) E))
    (executed ← run deadline ["EXEC"]; status ← checkedExecStatus executed;
     mret (status, elements (value executed)))
    (fun sr => outcome E q sr.1).
Proof.
  intros c [Hs Hd]. unfold mbind, redis_bind, run.
  pose proof (command_cases c ["EXEC"] deadline) as Hc.
  destruct (command c _ deadline) as [c' r]. unfold outcome, checkedExecStatus, execBaseStatus, clean, in_doubt in *.
  destruct Hc as [a rest v H1 H2|a rest H1 H2|rest status l Hst H1 Hl|H1]; simpl.
  - unfold session_of. simpl. rewrite foldl_snoc. change (foldl _ _ _) with (session_of c). rewrite Hs.
    simpl. split; [by right|]. destruct (kind v); simpl; rewrite ?app_nil_r; try (by split_and!; auto).
    split; [by right|]. by case_match.
  - change (session_of _) with (session_of c). rewrite Hs. by split_and!; [left|left| |].
  - destruct Hst as [->| ->]; simpl; change (session_of _) with (session_of c); rewrite Hs;
      by split_and!; [left|left| |].
  - change (session_of _) with (session_of c). rewrite Hs. by split_and!; [left|left| |].
Qed.

Lemma transaction_spec commands E :
  Forall (fun argv => command_class argv = CPlain) commands ->
  triple (at_session (mkSession true None E)) (transaction deadline commands)
    (fun sr => outcome E commands sr.1).
Proof.
  intros Hp c Hs. unfold transaction, mbind, redis_bind.
  assert (["MULTI"] <> ["EXEC"]) as Hne by done.
  pose proof (run_session deadline ["MULTI"] _ Hne c Hs) as Hr.
  destruct (run deadline ["MULTI"] c) as [c1 r]. cbn [fst snd] in Hr.
  destruct (failed (commandStatus r) || negb (statusIs r "OK"))%bool eqn:Ef.
  - assert (exists s, executed s = E /\ at_session s c1) as (s & HE & Hs1).
    { unfold session_step in Hr. simpl in Hr.
      destruct Hr as [[_ H]|[[_ H]|[(_ & H & _)|(_ & H & _)]]]; eexists; (split; [|exact H]); try done.
      by case_match. }
    set (o := if failed (commandStatus r) then commandStatus r else StoreStatus.ProtocolError).
    pose proof (leaveTransaction_spec o E s HE c1 Hs1) as [Hcl Hst].
    destruct (leaveTransaction deadline o c1) as [c2 st]. simpl in *.
    apply outcome_refused; [|done]. intros ->. destruct Hst as [Ho|[?|?]]; [|done..].
    unfold o in Ho. destruct (failed (commandStatus r)) eqn:E1; [|done].
    apply failed_true in E1. congruence.
  - apply orb_false_elim in Ef as [Ef1 Ef2]. apply failed_false, commandStatus_ok in Ef1.
    apply negb_false_iff, statusIs_true in Ef2.
    destruct Hr as [[_ H]|[[H _]|[[H _]|[H _]]]]; [|congruence..].
    unfold session_step in H. simpl in H. rewrite Ef2 in H.
    pose proof (queue_all_spec commands [] E Hp c1 H) as Hq.
    destruct (queue_all deadline commands c1) as [c2 queued]. cbn [fst snd] in *.
    destruct Hq as [[-> H2]|[Hst Hcl]].
    + exact (exec_spec commands E c2 H2).
    + assert (queued <> StoreStatus.Ok) as Hq by (intros ->; by destruct Hst).
      rewrite (proj2 (failed_true queued) Hq). simpl. by apply outcome_refused.
Qed.
End Transactions.

(** ** The operations *)

Section Outcomes.
Context (deadline : Z).
Context {A : Type} (st : A -> StoreStatus.t) (fail : StoreStatus.t -> A).
Context (Hfail : forall s, st (fail s) = s) (E commands : list (list string)).

Let watching := at_session (mkSession true None E).
Let promised (a : A) := outcome E commands (st a).

Lemma watched_outcome watched (body : Redis A) :
  triple watching body promised ->
  triple (clean_at E)
    (status ← watch deadline watched; if failed status then mret (fail status) else body) promised.
Proof.
  intros Hb. eapply triple_bind; [apply watch_spec|]. intros status. destruct (failed status) eqn:Ef.
  - apply failed_true in Ef. apply triple_ret. intros c [[? _]|[_ Hc]]; [done|].
    unfold promised. rewrite Hfail. by apply outcome_refused.
  - apply failed_false in Ef. intros c [[_ Hs]|[? _]]; [|done]. by apply Hb.
Qed.

Lemma left_not_ok original s : original <> StoreStatus.Ok -> left_with original s -> s <> StoreStatus.Ok.
Proof. intros Ho [->|[Hd|Hp]] Hs; by subst. Qed.

Lemma left_outcome original :
  original <> StoreStatus.Ok ->
  triple watching (left ← leaveWatch deadline original; mret (fail left)) promised.
Proof.
  intros Ho. eapply triple_bind; [apply leaveWatch_spec|]. intros left. apply triple_ret.
  intros c [Hc Hl]. unfold promised. rewrite Hfail. apply outcome_refused; [|done].
  by eapply left_not_ok.
Qed.

Lemma committed_outcome (k : list RedisValue -> Redis A) :
  Forall (fun argv => command_class argv = CPlain) commands ->
  (forall replies, exists a, (forall c, k replies c = (c, a))
     /\ (st a = StoreStatus.Ok \/ st a = StoreStatus.ProtocolError)) ->
  triple watching
    ('(status, replies) ← transaction deadline commands;
     if failed status then mret (fail status) else k replies) promised.
Proof.
  intros Hp Hk. eapply triple_bind; [by apply transaction_spec|]. intros [status replies]. simpl.
  destruct (failed status) eqn:Ef.
  - apply triple_ret. intros c Hc. unfold promised. by rewrite Hfail.
  - apply failed_false in Ef. subst. intros c Hc. destruct (Hk replies) as (a & -> & Ha).
    by apply outcome_checked.
Qed.
End Outcomes.

(** Steps over what is read before a transaction. *)
Lemma triple_quiet {A B} s (m : Redis A) (f : A -> Redis B) Q :
  open_tx s = None -> quiet m -> (forall a, triple (at_session s) (f a) Q) ->
  triple (at_session s) (m ≫= f) Q.
Proof. intros Hs Hm Hf. eapply triple_bind; [by apply Hm|]. done. Qed.

(** Decides the checks of the replies of a committed transaction. *)
Ltac solve_replies :=
  intros replies; repeat case_match; eexists; (split; [intros c; reflexivity|]); by auto.

Section OperationSpecs.
Context `{Inet} (keys : RedisKeySet) (deadline : Z) (E : list (list string)).

Lemma mutation_commands_plain m :
  Forall (fun argv => command_class argv = CPlain) (mutation_commands keys m).
Proof. unfold mutation_commands. repeat constructor. by case_match. Qed.

Lemma apply_commands_plain clear mutations :
  Forall (fun argv => command_class argv = CPlain) (apply_commands keys clear mutations).
Proof.
  unfold apply_commands. apply Forall_app. split; [|by repeat constructor].
  destruct clear; [by repeat constructor|]. induction mutations as [|m ms IH]; [constructor|].
  rewrite fmap_cons. change (mjoin (?x :: ?l)) with (x ++ mjoin l). apply Forall_app. split; [apply mutation_commands_plain|exact IH].
Qed.

Lemma expire_commands_plain groups :
  Forall (fun argv => command_class argv = CPlain) (expire_commands keys groups).
Proof.
  unfold expire_commands. apply Forall_app. split; [|by repeat constructor].
  induction groups; simpl; by constructor.
Qed.

Lemma rebuild_hset_plain t entries :
  Forall (fun argv => command_class argv = CPlain) (rebuild_hset keys t entries).
Proof. unfold rebuild_hset. case_match; by repeat constructor. Qed.

Lemma rebuild_commands_plain entries :
  Forall (fun argv => command_class argv = CPlain) (rebuild_commands keys entries).
Proof.
  unfold rebuild_commands. rewrite !Forall_app. split_and!; try apply rebuild_hset_plain.
  all: by repeat constructor.
Qed.

Lemma applyMutations_spec mutations :
  triple (clean_at E) (applyMutations keys deadline mutations) (fun r =>
    outcome E (apply_commands keys (from_option is_clear false (head mutations)) mutations)
      (store_status r)).
Proof.
  unfold applyMutations. destruct mutations as [|first rest].
  { apply triple_ret. intros c. by apply outcome_refused. }
  case_if; [apply triple_ret; intros c; by apply outcome_refused|].
  case_if; [apply triple_ret; intros c; by apply outcome_refused|].
  apply (watched_outcome _ store_status (fun s => mkStoreResult s None)); [done|].
  apply triple_quiet; [done|apply quiet_readWatched|]. intros [status current].
  destruct (failed status) eqn:Ef.
  { apply failed_true in Ef. by apply (left_outcome _ store_status (fun s => mkStoreResult s None)). }
  apply (committed_outcome _ store_status (fun s => mkStoreResult s None));
    [done|apply apply_commands_plain|solve_replies].
Qed.

Lemma removeExpiredFields_spec entries r now :
  triple (clean_at E) (removeExpiredFields keys deadline entries r now) (fun res =>
    outcome E (from_option (fun g => expire_commands keys (filled_groups keys g)) []
                 (group_expired entries now (mkGroups [] [] []))) (store_status res)).
Proof.
  unfold removeExpiredFields. case_if; [apply triple_ret; intros c; by apply outcome_refused|].
  destruct (group_expired _ _ _) as [g|]; [|apply triple_ret; intros c; by apply outcome_refused].
  apply (watched_outcome _ store_status (fun s => mkStoreResult s None)); [done|].
  apply triple_quiet; [done|apply quiet_check_expired|]. intros status.
  destruct (failed status) eqn:Ef.
  { apply failed_true in Ef. by apply (left_outcome _ store_status (fun s => mkStoreResult s None)). }
  apply (committed_outcome _ store_status (fun s => mkStoreResult s None));
    [done|apply expire_commands_plain|solve_replies].
Qed.

Lemma leave_outcome original commands :
  original <> StoreStatus.Ok ->
  triple (at_session (mkSession true None E)) (leaveWatch deadline original) (outcome E commands).
Proof.
  intros Ho. eapply triple_weaken; [apply leaveWatch_spec|done|]. intros s c [Hc Hl].
  apply outcome_refused; [|done]. by eapply left_not_ok.
Qed.

Lemma setPublishedRevision_spec published :
  triple (clean_at E) (setPublishedRevision keys deadline published)
    (outcome E [["SET"; published_revision keys; to_string published]]).
Proof.
  unfold setPublishedRevision. case_if; [apply triple_ret; intros c; by apply outcome_refused|].
  apply (watched_outcome _ (fun s => s) (fun s => s)); [done|].
  apply triple_quiet; [done|apply quiet_ensureType|]. intros status.
  destruct (failed status) eqn:Ef; [apply failed_true in Ef; by apply leave_outcome|].
  apply (committed_outcome _ (fun s => s) (fun s => s)); [done|by repeat constructor|solve_replies].
Qed.

Lemma completeResetBarrier_spec token :
  triple (clean_at E) (completeResetBarrier keys deadline token)
    (outcome E [["HSET"; reset_barrier keys; "completed"; to_string token]]).
Proof.
  unfold completeResetBarrier. case_if; [apply triple_ret; intros c; by apply outcome_refused|].
  apply (watched_outcome _ (fun s => s) (fun s => s)); [done|].
  apply triple_quiet; [done|apply quiet_readResetBarrier|]. intros state.
  destruct (_ || _)%bool.
  { apply leave_outcome. destruct (failed (reset_status state)) eqn:Ef; [by apply failed_true|done]. }
  apply (committed_outcome _ (fun s => s) (fun s => s)); [done|by repeat constructor|solve_replies].
Qed.

Lemma rebuildFromMysql_spec entries :
  triple (clean_at E) (rebuildFromMysql keys deadline entries) (fun r =>
    outcome E (rebuild_commands keys entries) (store_status r)).
Proof.
  unfold rebuildFromMysql.
  apply (watched_outcome _ store_status (fun s => mkStoreResult s None)); [done|].
  apply triple_quiet; [done|apply quiet_check_rebuild|]. intros [status previous].
  destruct (failed status) eqn:Ef.
  { apply failed_true in Ef. by apply (left_outcome _ store_status (fun s => mkStoreResult s None)). }
  apply (committed_outcome _ store_status (fun s => mkStoreResult s None));
    [done|apply rebuild_commands_plain|solve_replies].
Qed.
End OperationSpecs.

(** ** Text formats, read back *)

Lemma parseUnsigned_to_string n maximum :
  is_u64 n -> n <= maximum -> parseUnsigned (to_string n) maximum = Some n.
Proof.
  intros Hn Hm. destruct (to_string_digits n Hn) as (H1 & H2 & H3). unfold parseUnsigned.
  destruct (String.list_ascii_of_string (to_string n)) as [|front chars]; [done|].
  replace ((1 <? size_of (front :: chars)) && (char_code front =? 48))%bool with false.
  { rewrite H1, Nat.eqb_refl. simpl. destruct (Z.ltb_spec maximum n); [lia|done]. }
  symmetry. apply andb_false_iff. destruct (Z.eqb_spec (char_code front) 48) as [E|]; [left|by right].
  unfold size_of. rewrite H3; [done|]. simpl. f_equal. unfold digit_char. simpl.
  rewrite <-(ascii_nat_embedding front). f_equal. unfold char_code in E. lia.
Qed.

(** The entry of the stream that [XADD] makes of the fields. *)
Definition stream_reply (fields : list string) : RedisValue :=
  mkValue KArray "" 0 ((fun s => mkValue KString s 0 []) <$> fields).

Lemma collect_upsert t i r e :
  exists values, collect_fields
    (elements (stream_reply ["operation"; "UPSERT"; "type"; t; "id"; i; "reason"; r; "expire_at_ms"; e])) ∅
    = Some values /\ size values = 5%nat /\ values !! "operation" = Some "UPSERT"
  /\ values !! "type" = Some t /\ values !! "id" = Some i /\ values !! "reason" = Some r
  /\ values !! "expire_at_ms" = Some e.
Proof. eexists. split; [vm_compute; reflexivity|]. vm_compute. by split_and!. Qed.

Lemma collect_disable t i :
  exists values, collect_fields
    (elements (stream_reply ["operation"; "DISABLE"; "type"; t; "id"; i])) ∅
    = Some values /\ size values = 3%nat /\ values !! "operation" = Some "DISABLE"
  /\ values !! "type" = Some t /\ values !! "id" = Some i.
Proof. eexists. split; [vm_compute; reflexivity|]. vm_compute. by split_and!. Qed.

Lemma parseEntityType_text t : parseEntityType (entityTypeText t) = Some t.
Proof. by destruct t. Qed.

Lemma parseUnsigned_bounds value maximum n :
  parseUnsigned value maximum = Some n -> 0 <= n <= maximum.
Proof.
  unfold parseUnsigned, from_chars. destruct (String.list_ascii_of_string value) as [|front chars]; [done|].
  case_if; [done|]. pose proof (digits_nonneg (front :: chars) 0 0 ltac:(lia)) as Hd.
  destruct (digits _ 0 0) as [v k]. simpl in Hd. case_if; [done|]. case_if; [done|].
  case_match eqn:E; [done|]. intros [= <-]. apply orb_false_elim in E as [_ E]. lia.
Qed.

Section RoundTrip.
Context `{Inet, !InetLaws}.

Lemma parseStreamMutation_ok fields m :
  parseStreamMutation fields = Ok m -> mutation_ok m /\ 0 <= expireAtMs m.
Proof.
  unfold parseStreamMutation. case_if; [done|]. destruct (collect_fields _ _) as [values|]; [|done].
  destruct (values !! "operation") as [op|]; [|done].
  case_if; [case_if; [done|by intros [= <-]]|].
  destruct (values !! "type") as [ty|], (values !! "id") as [i|]; try done.
  destruct (parseEntityType ty) as [t|]; [|done]. case_if.
  - case_if; [done|]. destruct (disable t i) as [d|] eqn:E; [|done]. intros [= <-].
    split; [by apply (mutation_factories_stable t i "" 0)|]. unfold disable in E.
    case_match; simplify_eq. done.
  - case_if; [done|]. destruct (values !! "reason") as [r|], (values !! "expire_at_ms") as [x|]; try done.
    destruct (parseUnsigned x _) as [e|] eqn:Ee; [|done]. apply parseUnsigned_bounds in Ee.
    destruct (upsert t i r e) as [u|] eqn:E; [|done]. intros [= <-].
    split; [by eapply upsert_ok|]. unfold upsert in E. repeat case_match; simplify_eq. simpl. lia.
Qed.

Lemma stream_fields_parse m :
  mutation_ok m -> 0 <= expireAtMs m -> parseStreamMutation (stream_reply (streamFields m)) = Ok m.
Proof.
  intros Hm Hpos. unfold mutation_ok in Hm. destruct m as [[] et i r e]; simpl in *.
  - destruct Hm as (t & -> & Hi & Hr & He). change (streamFields _) with
      ["operation"; "UPSERT"; "type"; entityTypeText t; "id"; i; "reason"; r; "expire_at_ms"; to_string e].
    destruct (collect_upsert (entityTypeText t) i r (to_string e)) as (values & H1 & H2 & H3 & H4 & H5 & H6 & H7).
    unfold parseStreamMutation. rewrite H1, H3, H4, H5, H6, H7, H2.
    rewrite parseEntityType_text. simpl.
    rewrite parseUnsigned_to_string; [|unfold is_u64, kMaxExpireAtMs in *; lia|done].
    unfold upsert. rewrite Hi, Hr. simpl. destruct (Z.ltb_spec kMaxExpireAtMs e); [lia|done].
  - destruct Hm as (t & -> & Hi & -> & ->). change (streamFields _) with
      ["operation"; "DISABLE"; "type"; entityTypeText t; "id"; i].
    destruct (collect_disable (entityTypeText t) i) as (values & H1 & H2 & H3 & H4 & H5).
    unfold parseStreamMutation. rewrite H1, H3, H4, H5, H2.
    rewrite parseEntityType_text. simpl. unfold disable. by rewrite Hi.
  - rewrite Hm. vm_compute. reflexivity.
Qed.

(** C39. The records of the pending stream carry mutations without loss: what
    [applyMutations] writes with [streamFields] for a well-formed mutation,
    [parseStreamMutation] reads back as that mutation; and whatever record it
    accepts, written by anyone, is a well-formed mutation, so that writing it
    again and reading it gives it back. *)
Theorem stream_mutation_roundtrip :
  (forall m, mutation_ok m -> 0 <= expireAtMs m ->
     parseStreamMutation (stream_reply (streamFields m)) = Ok m)
  /\ (forall fields m, parseStreamMutation fields = Ok m ->
        mutation_ok m /\ parseStreamMutation (stream_reply (streamFields m)) = Ok m).
Proof.
  split; [exact stream_fields_parse|]. intros fields m Hm. apply parseStreamMutation_ok in Hm as [Hok Hpos].
  auto using stream_fields_parse.
Qed.
End RoundTrip.

Lemma stream_mutation_roundtrip_witness :
  let m := mkMutation Upsert (Some Ip) "192.0.2.1" "abuse" 1000 in
  @parseStreamMutation ReferenceInet.inet (stream_reply (streamFields m)) = Ok m.
Proof.
  intros m. apply (proj1 (@stream_mutation_roundtrip ReferenceInet.inet ReferenceInet.inet_laws) m);
    [|unfold m; simpl; lia].
  exists Ip. unfold m. simpl. split_and!; try reflexivity. unfold kMaxExpireAtMs. lia.
Defined.

(** ** Writes *)

(** The operations that run a transaction. *)
Inductive StoreWrite :=
| ApplyMutations (mutations : list BlacklistMutation)
| RemoveExpiredFields (entries : list BlacklistEntry) (expected_revision now_ms : Z)
| SetPublishedRevision (published : Z)
| CompleteResetBarrier (token : Z)
| RebuildFromMysql (entries : list BlacklistEntry).

Section Writes.
Context `{Inet} (keys : RedisKeySet) (deadline : Z).

Definition write (w : StoreWrite) : Redis StoreStatus.t :=
  match w with
  | ApplyMutations ms => r ← applyMutations keys deadline ms; mret (store_status r)
  | RemoveExpiredFields es r now => r ← removeExpiredFields keys deadline es r now; mret (store_status r)
  | SetPublishedRevision p => setPublishedRevision keys deadline p
  | CompleteResetBarrier t => completeResetBarrier keys deadline t
  | RebuildFromMysql es => r ← rebuildFromMysql keys deadline es; mret (store_status r)
  end.

(** The commands between [MULTI] and [EXEC]. *)
Definition write_commands (w : StoreWrite) : list (list string) :=
  match w with
  | ApplyMutations ms => apply_commands keys (from_option is_clear false (head ms)) ms
  | RemoveExpiredFields es _ now =>
      from_option (fun g => expire_commands keys (filled_groups keys g)) []
        (group_expired es now (mkGroups [] [] []))
  | SetPublishedRevision p => [["SET"; published_revision keys; to_string p]]
  | CompleteResetBarrier t => [["HSET"; reset_barrier keys; "completed"; to_string t]]
  | RebuildFromMysql es => rebuild_commands keys es
  end.

Lemma write_spec w E : triple (clean_at E) (write w) (outcome E (write_commands w)).
Proof.
  destruct w; simpl.
  - eapply triple_bind; [apply applyMutations_spec|]. intros r. by apply triple_ret.
  - eapply triple_bind; [apply removeExpiredFields_spec|]. intros r. by apply triple_ret.
  - apply setPublishedRevision_spec.
  - apply completeResetBarrier_spec.
  - eapply triple_bind; [apply rebuildFromMysql_spec|]. intros r. by apply triple_ret.
Qed.

End Writes.

(** A server that lets [SET published_revision] through. *)
Definition text_reply (ty : Z) (s : string) : redisReply :=
  mkReply ty (Some s) (str_size s) 0 [].

Definition answer (r : redisReply) : HiredisAnswer := mkAnswer 0 0 true (Some r).

Definition sample_connection : RedisConnection :=
  mkConnection true 1000
    [answer (text_reply REDIS_REPLY_STATUS "OK"); answer (text_reply REDIS_REPLY_STATUS "string");
     answer (text_reply REDIS_REPLY_STATUS "OK"); answer (text_reply REDIS_REPLY_STATUS "QUEUED");
     answer (mkReply REDIS_REPLY_ARRAY None 0 0 [Some (text_reply REDIS_REPLY_STATUS "OK")])]
    [] None.

Definition sample_keys : RedisKeySet := fromPrefix "risk".


(** ** Stable snapshots *)

(** The replies of one [HSCAN] iteration, from [cursor] to the cursor [0], and
    the entries they carry. *)
Inductive scan_chain `{Inet} (n : Z) (t : EntityType) (key : string)
    : string -> list (list string * RedisValue) -> list BlacklistEntry -> Prop :=
| chain_last cursor v es :
    parseHashScan (successfulCommand v) t cursor [] = (StoreStatus.Ok, "0", es) ->
    scan_chain n t key cursor [(["HSCAN"; key; cursor; "COUNT"; to_string n], v)] es
| chain_more cursor v next es scans es' :
    parseHashScan (successfulCommand v) t cursor [] = (StoreStatus.Ok, next, es) -> next <> "0" ->
    scan_chain n t key next scans es' ->
    scan_chain n t key cursor ((["HSCAN"; key; cursor; "COUNT"; to_string n], v) :: scans) (es ++ es').

Section Snapshot.
Context `{Inet} (keys : RedisKeySet) (deadline : Z).

Lemma parse_scan_pairs_app t values entries :
  parse_scan_pairs t values entries
  = ((parse_scan_pairs t values []).1, entries ++ (parse_scan_pairs t values []).2).
Proof.
  assert (forall k vs es, (length vs < k)%nat ->
    parse_scan_pairs t vs es
    = ((parse_scan_pairs t vs []).1, es ++ (parse_scan_pairs t vs []).2)) as Hk;
    [|apply (Hk (S (length values))); lia].
  induction k as [|k IH]; intros vs es Hl; [lia|].
  destruct vs as [|a [|b vs]]; simpl; rewrite ?app_nil_r; try done.
  destruct (_ || _)%bool; simpl; [by rewrite app_nil_r|].
  destruct (negb _); simpl; [by rewrite app_nil_r|].
  destruct (parseUnsigned _ _) as [e|]; simpl; [|by rewrite app_nil_r].
  simpl in Hl. rewrite (IH vs (es ++ _)) by lia. rewrite (IH vs [_]) by lia. simpl.
  by rewrite <-app_assoc.
Qed.

Lemma parseHashScan_app r t cursor entries st next es :
  parseHashScan r t cursor entries = (st, next, es) ->
  exists new, es = entries ++ new /\ parseHashScan r t cursor [] = (st, next, new).
Proof.
  unfold parseHashScan. destruct (failed _); [|destruct (bool_decide (kind (value r) = KError))].
  1,2: intros [= <- <- <-]; exists []; by rewrite app_nil_r.
  destruct (kind (value r)), (elements (value r)) as [|c [|pairs [|]]];
    try (intros [= <- <- <-]; exists []; by rewrite app_nil_r).
  destruct (_ || _)%bool; [intros [= <- <- <-]; exists []; by rewrite app_nil_r|].
  destruct (parseUnsigned _ _); [|intros [= <- <- <-]; exists []; by rewrite app_nil_r].
  rewrite parse_scan_pairs_app. destruct (parse_scan_pairs t _ []) as [s0 new]. simpl.
  intros [= <- <- <-]. by exists new.
Qed.

Lemma run_answered argv c c' r :
  run deadline argv c = (c', r) -> commandStatus r = StoreStatus.Ok ->
  sent c' = sent c ++ [(argv, value r)] /\ r = successfulCommand (value r)
  /\ (length (answers c') < length (answers c))%nat.
Proof.
  unfold run. pose proof (command_cases c argv deadline) as Hc. intros E Hok. rewrite E in Hc.
  apply commandStatus_ok in Hok.
  destruct Hc as [a rest v H1 H2|a rest H1 H2|rest status l Hst H1 Hl|H1]; simpl in *; try done.
  - rewrite H2. simpl. by split_and!; [..|lia].
  - destruct Hst as [->| ->]; done.
Qed.

Lemma parseHashScan_answered r t cursor entries next es :
  parseHashScan r t cursor entries = (StoreStatus.Ok, next, es) -> commandStatus r = StoreStatus.Ok.
Proof.
  unfold parseHashScan. destruct (failed (commandStatus r)) eqn:E; [|by rewrite failed_false in E].
  apply failed_true in E. congruence.
Qed.

Lemma scan_loop_chain fuel n t key cursor entries c c' es :
  scan_loop deadline fuel n t key cursor entries c = (c', (StoreStatus.Ok, es)) ->
  exists scans new, sent c' = sent c ++ scans /\ es = entries ++ new
  /\ scan_chain n t key cursor scans new.
Proof.
  revert cursor entries c. induction fuel as [|fuel IH]; intros cursor entries c; [done|].
  simpl. unfold mbind, redis_bind. simpl. destruct (deadline <=? _); [done|].
  destruct (run deadline _ c) as [c1 r] eqn:Er.
  destruct (parseHashScan r t cursor entries) as [[st next] es1] eqn:Ep.
  destruct (parseHashScan_app _ _ _ _ _ _ _ Ep) as (new & -> & Ep').
  destruct (failed st) eqn:Ef; [intros [= _ ? _]; apply failed_true in Ef; congruence|].
  apply failed_false in Ef. subst st.
  pose proof (parseHashScan_answered _ _ _ _ _ _ Ep') as Hok.
  destruct (run_answered _ _ _ _ Er Hok) as (Hs & Hr & _). rewrite Hr in Ep'.
  destruct (bool_decide (next = "0")) eqn:En; bool_to_prop.
  - intros [= <- <-]. subst next. eexists _, new. split_and!; [exact Hs|done|by constructor].
  - intros Hl. apply IH in Hl as (scans & new' & H1 & H2 & H3).
    eexists _, (new ++ new'). split_and!; [|by rewrite app_assoc|by eapply chain_more].
    by rewrite H1, Hs, <-app_assoc.
Qed.

Lemma scan_loop_fuel fuel fuel' n t key cursor entries c :
  (length (answers c) < fuel)%nat -> (length (answers c) < fuel')%nat ->
  scan_loop deadline fuel n t key cursor entries c = scan_loop deadline fuel' n t key cursor entries c.
Proof.
  revert fuel' cursor entries c.
  induction fuel as [|fuel IH]; intros [|fuel'] cursor entries c H1 H2; [lia..|].
  simpl. unfold mbind, redis_bind. simpl. destruct (deadline <=? _); [done|].
  destruct (run deadline _ c) as [c1 r] eqn:Er.
  destruct (parseHashScan r t cursor entries) as [[st next] es1] eqn:Ep.
  destruct (failed st) eqn:Ef; [done|]. destruct (bool_decide _); [done|].
  apply failed_false in Ef. subst st. pose proof (parseHashScan_answered _ _ _ _ _ _ Ep) as Hok.
  destruct (run_answered _ _ _ _ Er Hok) as (_ & _ & Hl). apply IH; lia.
Qed.

Lemma run_answers argv c : (length (answers (run deadline argv c).1) <= length (answers c))%nat.
Proof.
  unfold run. pose proof (command_cases c argv deadline) as Hc. destruct (command c argv deadline).
  destruct Hc as [a rest v H1 H2|a rest H1 H2|rest status l Hst H1 Hl|H1]; simpl in *;
    rewrite ?H2; simpl; lia.
Qed.

Lemma scan_loop_answers fuel n t key cursor entries c :
  (length (answers (scan_loop deadline fuel n t key cursor entries c).1) <= length (answers c))%nat.
Proof.
  revert cursor entries c. induction fuel as [|fuel IH]; intros cursor entries c; [done|].
  simpl. unfold mbind, redis_bind. simpl. destruct (deadline <=? _); [done|].
  pose proof (run_answers ["HSCAN"; key; cursor; "COUNT"; to_string n] c) as Hr.
  destruct (run deadline _ c) as [c1 r]. simpl in Hr.
  destruct (parseHashScan r t cursor entries) as [[st next] es1].
  destruct (failed st); [done|]. destruct (bool_decide _); [done|]. specialize (IH next es1 c1). lia.
Qed.

(** The entries that [HSCAN] replies of one hash may carry. *)
Definition scanned_entry_ok (t : EntityType) (e : BlacklistEntry) : Prop :=
  type e = t /\ valid_scanned_id t (id e) = true /\ 0 <= expire_at_ms e <= kMaxExpireAtMs.

Lemma parse_scan_pairs_ok t vs st es :
  parse_scan_pairs t vs [] = (st, es) -> Forall (scanned_entry_ok t) es.
Proof.
  assert (forall k vs es, (length vs < k)%nat -> Forall (scanned_entry_ok t) es ->
    Forall (scanned_entry_ok t) (parse_scan_pairs t vs es).2) as Hk.
  2: { intros E. pose proof (Hk (S (length vs)) vs [] ltac:(lia) (Forall_nil_2 _)) as Hf.
       by rewrite E in Hf. }
  clear. induction k as [|k IH]; intros vs es Hl Hes; [lia|].
  destruct vs as [|a [|b vs]]; try done. simpl.
  destruct (_ || _)%bool; [done|]. destruct (valid_scanned_id t (text a)) eqn:Ev; [|done].
  simpl. destruct (parseUnsigned _ _) as [e|] eqn:Ee; [|done]. apply IH; [simpl in Hl; lia|].
  apply Forall_app. split; [done|]. apply Forall_singleton. apply parseUnsigned_bounds in Ee as [].
  by split_and!.
Qed.

Lemma scan_chain_ok n t key cursor scans es :
  scan_chain n t key cursor scans es -> Forall (scanned_entry_ok t) es.
Proof.
  assert (forall v cursor next es, parseHashScan (successfulCommand v) t cursor [] = (StoreStatus.Ok, next, es) ->
    Forall (scanned_entry_ok t) es) as Hp.
  { intros v cur next es'. unfold parseHashScan. repeat case_match; intros; simplify_eq/=; try done.
    by eapply parse_scan_pairs_ok. }
  induction 1; [by eapply Hp|]. apply Forall_app. split; [by eapply Hp|done].
Qed.

Lemma scan_hashes_chain fuel n hashes entries c c' es :
  scan_hashes deadline fuel n hashes entries c = (c', (StoreStatus.Ok, es)) ->
  exists parts : list (list (list string * RedisValue) * list BlacklistEntry),
    Forall2 (fun h p => scan_chain n h.1 h.2 "0" p.1 p.2) hashes parts
    /\ sent c' = sent c ++ mjoin parts.*1 /\ es = entries ++ mjoin parts.*2.
Proof.
  revert entries c. induction hashes as [|[t key] hashes IH]; intros entries c; simpl.
  { intros [= <- <-]. exists []. simpl. rewrite !app_nil_r. by split_and!; [constructor|..]. }
  unfold mbind, redis_bind. destruct (scan_loop _ _ _ _ _ _ _ _) as [c1 [st es1]] eqn:El.
  destruct (failed st) eqn:Ef; [intros [= _ ? _]; apply failed_true in Ef; congruence|].
  apply failed_false in Ef. subst st. apply scan_loop_chain in El as (scans & new & H1 & -> & H3).
  intros Hh. apply IH in Hh as (parts & H4 & H5 & ->). exists ((scans, new) :: parts).
  split_and!; [by constructor| |].
  - rewrite H5, H1. simpl. by rewrite <-app_assoc.
  - simpl. by rewrite <-app_assoc.
Qed.

Lemma readRevision_ok c c' r v :
  readRevision keys deadline c = (c', mkStoreResult r v) -> r = StoreStatus.Ok ->
  exists reply n, sent c' = sent c ++ [(["GET"; revision keys], reply)] /\ v = Some n
  /\ parseUnsigned (text reply) kMaxRedisInteger = Some n.
Proof.
  unfold readRevision, mbind, redis_bind. destruct (run deadline _ c) as [c1 res] eqn:Er.
  simpl. destruct (failed (commandStatus res)) eqn:Ef.
  { apply failed_true in Ef. intros [= _ <- _]. congruence. }
  apply failed_false in Ef. destruct (run_answered _ _ _ _ Er Ef) as (Hs & _ & _).
  case_match; [by intros [= _ <- _]|]. destruct (parseUnsigned _ _) as [n|] eqn:En;
    [|by intros [= _ <- _]]. intros [= <- <- <-] _. eauto.
Qed.

(** The three hashes of the snapshot, in the order of the code. *)
Definition snapshot_hashes : list (EntityType * string) :=
  [(User, users keys); (Ip, ips keys); (Device, devices keys)].

(** A snapshot that is reported stable is one.  When [loadStableSnapshot]
    answers [Ok], the commands answered were a read of the revision, complete
    [HSCAN] iterations of the three hashes from the cursor 0 back to 0, and a
    second read of the revision, in this order; both reads gave the reported
    revision; and the entries are exactly those of the [HSCAN] replies, each of
    the type of its hash with a valid id and a valid expiry. *)
Theorem stable_snapshot_exact n c c' snapshot :
  loadStableSnapshot keys deadline n c = (c', snapshot) ->
  snapshot_status snapshot = StoreStatus.Ok ->
  exists before after parts,
    Forall2 (fun h p => scan_chain n h.1 h.2 "0" p.1 p.2 /\ Forall (scanned_entry_ok h.1) p.2)
      snapshot_hashes parts
    /\ sent c' = sent c ++ [(["GET"; revision keys], before)] ++ mjoin parts.*1
                   ++ [(["GET"; revision keys], after)]
    /\ parseUnsigned (text before) kMaxRedisInteger = Some (snapshot_revision snapshot)
    /\ parseUnsigned (text after) kMaxRedisInteger = Some (snapshot_revision snapshot)
    /\ snapshot_entries snapshot = mjoin parts.*2.
Proof.
  unfold loadStableSnapshot. case_if; [by intros [= _ <-]|]. unfold mbind, redis_bind.
  destruct (readRevision keys deadline c) as [c1 [st rev]] eqn:E1. cbn [store_status store_revision].
  destruct st; try (by intros [= _ <-]; destruct rev).
  apply readRevision_ok in E1 as (before & r & Hs1 & -> & Hb); [|done].
  unfold scan_fuel. fold snapshot_hashes.
  destruct (scan_hashes _ _ _ snapshot_hashes [] c1) as [c2 [st es]] eqn:E2.
  destruct (failed st) eqn:Ef; [intros [= _ <-]; simpl; intros ->; done|].
  apply failed_false in Ef. subst st. apply scan_hashes_chain in E2 as (parts & Hp & Hs2 & ->).
  destruct (readRevision keys deadline c2) as [c3 [st rev]] eqn:E3. simpl.
  destruct st; try (by intros [= _ <-]; destruct rev).
  apply readRevision_ok in E3 as (after & r' & Hs3 & -> & Ha); [|done]. simpl.
  destruct (Z.eqb_spec r' r) as [->|]; simpl; [|by intros [= _ <-]]. intros [= <- <-] _. simpl.
  exists before, after, parts. split_and!; try done.
  - eapply Forall2_impl; [exact Hp|]. intros h p Hc. split; [done|]. exact (scan_chain_ok _ _ _ _ _ _ Hc).
  - by rewrite Hs3, Hs2, Hs1, <-!app_assoc.
Qed.

(** The [HSCAN] loops end: a scan of the hashes takes at most one pass per
    reply that the server still gives, so no bound above the number of replies
    is ever what stops it, and it stops with a status of the code. *)
Theorem snapshot_scan_terminates fuel n hashes entries c :
  (length (answers c) < fuel)%nat ->
  scan_hashes deadline fuel n hashes entries c
  = scan_hashes deadline (S (length (answers c))) n hashes entries c.
Proof.
  assert (forall fuel', (length (answers c) < fuel)%nat -> (length (answers c) < fuel')%nat ->
    scan_hashes deadline fuel n hashes entries c = scan_hashes deadline fuel' n hashes entries c) as Hg.
  2: { intros Hf. apply Hg; lia. }
  intros fuel'. revert c entries. induction hashes as [|[t key] hashes IH]; intros c entries H1 H2; [done|].
  simpl. unfold mbind, redis_bind. rewrite (scan_loop_fuel fuel fuel') by done.
  pose proof (scan_loop_answers fuel' n t key "0" entries c) as Hl.
  destruct (scan_loop deadline fuel' n t key "0" entries c) as [c1 [st es]]. simpl in Hl.
  destruct (failed st); [done|]. apply IH; lia.
Qed.
End Snapshot.

(** A server with one user entry. *)
Definition scan_reply (cursor : string) (pairs : list string) : redisReply :=
  mkReply REDIS_REPLY_ARRAY None 0 0
    [Some (text_reply REDIS_REPLY_STRING cursor);
     Some (mkReply REDIS_REPLY_ARRAY None 0 0
             ((fun s => Some (text_reply REDIS_REPLY_STRING s)) <$> pairs))].

Definition sample_scan : RedisConnection :=
  mkConnection true 1000
    [answer (text_reply REDIS_REPLY_STRING "7"); answer (scan_reply "5" ["alice"; "900"]);
     answer (scan_reply "0" ["bob"; "0"]); answer (scan_reply "0" []); answer (scan_reply "0" []);
     answer (text_reply REDIS_REPLY_STRING "7")] [] None.

Lemma stable_snapshot_exact_witness :
  exists c' snapshot,
    @loadStableSnapshot ReferenceInet.inet sample_keys 1000000 10 sample_scan = (c', snapshot)
    /\ snapshot_status snapshot = StoreStatus.Ok
    /\ snapshot_entries snapshot = [mkEntry User "alice" 900; mkEntry User "bob" 0]
    /\ exists before after parts,
         sent c' = [(["GET"; "risk:revision"], before)] ++ mjoin parts.*1
                   ++ [(["GET"; "risk:revision"], after)]
         /\ snapshot_entries snapshot = mjoin (parts : list (_ * list BlacklistEntry)).*2.
Proof.
  destruct (@loadStableSnapshot ReferenceInet.inet sample_keys 1000000 10 sample_scan)
    as [c' snapshot] eqn:E.
  assert (snapshot_status snapshot = StoreStatus.Ok
          /\ snapshot_entries snapshot = [mkEntry User "alice" 900; mkEntry User "bob" 0]) as [Hs He].
  { vm_compute in E. injection E as _ <-. split; reflexivity. }
  exists c', snapshot. split; [reflexivity|]. split; [exact Hs|]. split; [exact He|].
  destruct (@stable_snapshot_exact ReferenceInet.inet sample_keys 1000000 10 sample_scan c' snapshot E Hs)
    as (before & after & parts & _ & H1 & _ & _ & H2).
  exists before, after, parts. split; [exact H1|exact H2].
Defined.

Lemma snapshot_scan_terminates_witness :
  let scan fuel := @scan_hashes ReferenceInet.inet 1000000 fuel 10 [(User, "risk:user")] []
                     (sample_scan <| answers := tl (answers sample_scan) |>) in
  scan 100%nat = scan 6%nat /\ (scan 6%nat).2.1 = StoreStatus.Ok.
Proof.
  intros scan. split; [|vm_compute; reflexivity]. unfold scan.
  apply (@snapshot_scan_terminates ReferenceInet.inet 1000000 100%nat 10 [(User, "risk:user")] []).
  vm_compute. lia.
Defined.
