(* ===== verification/MysqlDao.v ===== *)
(** * MysqlDao: the blacklist in MySQL

    Model of [storage/mysql_dao.{hpp,cpp}].  libmysqlclient and the steady
    clock are the environment: every call takes the next answer of
    [results], every reading of the clock the next of [clocks], and both are
    arbitrary.  The calls that change the database are recorded in [calls]
    with their success.  Prepared statements are closed by their owner and
    leave no other trace; allocation failures are not modelled. *)

From Stdlib Require Import Ascii.
From S2P Require Import Prelude Text Calendar IpAddress Blacklist RedisConnection RedisStore.
Open Scope Z_scope.

(** ** Times *)

(** [MYSQL_TIME], without [time_type], which is always a date and time. *)
Record MYSQL_TIME := mkTime {
  year : Z;
  month : Z;
  day : Z;
  hour : Z;
  minute : Z;
  second : Z;
  second_part : Z;
  neg : bool;
}.

#[export] Instance MYSQL_TIME_eq_dec : EqDecision MYSQL_TIME.
Proof. solve_decision. Defined.

(** [std::numeric_limits<std::time_t>::max()] *)
Definition time_t_max : Z := 9223372036854775807.

Definition toMysqlTime (epoch_ms : Z) : option MYSQL_TIME :=
  if ((epoch_ms =? 0) || (kMaxExpireAtMs <? epoch_ms) || (time_t_max <? epoch_ms / 1000))%bool
  then None
  else
    let utc := gmtime (epoch_ms / 1000) in
    let year_value := tm_year utc + 1900 in
    if ((year_value <? 1970) || (9999 <? year_value))%bool then None
    else Some (mkTime year_value (tm_mon utc + 1) (tm_mday utc) (tm_hour utc) (tm_min utc) (tm_sec utc)
                 (epoch_ms mod 1000 * 1000) false).

Definition fromMysqlTime (value : MYSQL_TIME) : option Z :=
  if (neg value || (year value <? 1970) || (9999 <? year value) || (month value =? 0)
      || (12 <? month value) || (day value =? 0) || (31 <? day value) || (23 <? hour value)
      || (59 <? minute value) || (59 <? second value) || (999999 <? second_part value)
      || negb (second_part value mod 1000 =? 0))%bool
  then None
  else
    let '(seconds, utc) := timegm (mkTm (year value - 1900) (month value - 1) (day value) (hour value)
                                     (minute value) (second value)) in
    if ((seconds <? 0) || negb (tm_year utc =? year value - 1900)
        || negb (tm_mon utc =? month value - 1) || negb (tm_mday utc =? day value)
        || negb (tm_hour utc =? hour value) || negb (tm_min utc =? minute value)
        || negb (tm_sec utc =? second value))%bool
    then None
    else
      let milliseconds := second_part value / 1000 in
      if (kMaxExpireAtMs - milliseconds) / 1000 <? seconds then None
      else Some (seconds * 1000 + milliseconds).

(** ** The client *)

Record MysqlConfig := mkMysql {
  mysql_host : string;
  mysql_port : Z;
  mysql_user : string;
  mysql_password : string;
  mysql_database : string;
  mysql_charset : string;
  connect_timeout_sec : Z;
  read_timeout_sec : Z;
  write_timeout_sec : Z;
}.

Module StatementKind.
Inductive t :=
| UserUpsert | IpUpsert | DeviceUpsert | UserDisable | IpDisable | DeviceDisable
| UserClear | IpClear | DeviceClear.
#[export] Instance eq_dec : EqDecision t.
Proof. solve_decision. Defined.
End StatementKind.
#[export] Existing Instance StatementKind.eq_dec.

(** [StatementArray]: the kinds already prepared. *)
Abbreviation StatementArray := (list StatementKind.t).

(** A bound parameter: a string, a blob, a time or a null. *)
Inductive BoundValue :=
| PString (s : string)
| PBlob (bytes : bytes_t)
| PTime (t : MYSQL_TIME)
| PNull.

#[export] Instance BoundValue_eq_dec : EqDecision BoundValue.
Proof. solve_decision. Defined.

(** The calls that reach the database. *)
Inductive SqlCall :=
| StartTransaction
| Execute (kind : StatementKind.t) (parameters : list BoundValue)
| Commit
| Rollback.

#[export] Instance SqlCall_eq_dec : EqDecision SqlCall.
Proof. solve_decision. Defined.

(** What one call of the client answers: the return code (zero is success; for
    a pointer, not null), and what [mysql_stmt_fetch] and [mysql_fetch_row]
    leave in the buffers of the caller. *)
Record Fetched := mkFetched {
  key_buffer : bytes_t;
  key_length : Z;
  key_is_null : bool;
  key_error : bool;
  expiry_time : MYSQL_TIME;
  expiry_is_null : bool;
  expiry_error : bool;
}.

Record MysqlAnswer := mkMysqlAnswer {
  code : Z;
  fetched : Fetched;
  columns : list (option string);
}.

Record MysqlDao := mkDao {
  config_ : MysqlConfig;
  connection : bool;               (* not null *)
  last_blacklist_load_succeeded : bool;
  last_blacklist_count_succeeded : bool;
  clocks : list Z;
  results : list MysqlAnswer;
  calls : list (SqlCall * bool);
  handles : Z;                     (* opened and not closed *)
}.

Definition Mysql (A : Type) : Type := MysqlDao -> MysqlDao * A.

#[export] Instance mysql_ret : MRet Mysql := fun A a d => (d, a).
#[export] Instance mysql_bind : MBind Mysql := fun A B f m d => let '(d, a) := m d in f a d.

(** [a || b] of two calls. *)
Definition or_else (a b : Mysql bool) : Mysql bool := x ← a; if (x : bool) then mret true else b.
Infix "|||" := or_else (at level 50, left associativity).

Definition MYSQL_NO_DATA : Z := 100.

Definition zero_time : MYSQL_TIME := mkTime 0 0 0 0 0 0 0 false.
Definition zero_fetched : Fetched := mkFetched [] 0 false false zero_time false false.

(** The next answer; a client that has gone silent fails every call. *)
Definition next_answer : Mysql MysqlAnswer := fun d =>
  match results d with
  | [] => (d, mkMysqlAnswer 1 zero_fetched [])
  | a :: rest => (d <| results := rest |>, a)
  end.

(** A call whose failure is a non-zero code: does it fail? *)
Definition fails : Mysql bool := a ← next_answer; mret (negb (code a =? 0)).

Definition record_call (c : SqlCall) (ok : bool) : Mysql unit := fun d =>
  (d <| calls := calls d ++ [(c, ok)] |>, tt).

(** The same for a call that reaches the database. *)
Definition sql_fails (c : SqlCall) : Mysql bool :=
  failed ← fails; _ ← record_call c (negb failed); mret failed.

Section Dao.
Context `{Inet} (deadline : Z).

Definition deadlineReached : Mysql bool := fun d =>
  match clocks d with
  | [] => (d, true)
  | now :: rest => (d <| clocks := rest |>, deadline <=? now)
  end.

(** Seconds, from a reading [now] of the clock in nanoseconds. *)
Definition timeoutWithinDeadline (configured_seconds now : Z) : option Z :=
  if ((configured_seconds =? 0) || (deadline <=? now))%bool then None
  else
    let remaining := deadline - now in
    let rounded := Z.quot remaining 1000000000 in
    let rounded := if rounded * 1000000000 <? remaining then rounded + 1 else rounded in
    let seconds_count := Z.max 1 rounded in
    Some (Z.min configured_seconds (if u32_max <? seconds_count then u32_max else seconds_count)).

Definition read_clock : Mysql Z := fun d =>
  match clocks d with
  | [] => (d, deadline)
  | now :: rest => (d <| clocks := rest |>, now)
  end.

(** Whether [prepareStatement] returns a statement. *)
Definition prepareStatement : Mysql bool :=
  refused ← deadlineReached ||| fails ||| fails ||| deadlineReached;
  mret (negb refused).

(** ** Reading the tables *)

Definition bytes_text (bytes : bytes_t) : string :=
  String.string_of_list_ascii ((fun b => ascii_of_nat (Z.to_nat b)) <$> bytes).

(** The expiry of a fetched row. *)
Definition fetched_expiry (f : Fetched) : option Z :=
  if expiry_is_null f then Some 0 else fromMysqlTime (expiry_time f).

(** The entry that a text row or an ip row gives, or [None] for a bad row. *)
Definition text_row (t : EntityType) (status : Z) (f : Fetched) : option BlacklistEntry :=
  if (negb (status =? 0) || key_is_null f || key_error f || expiry_error f || (key_length f =? 0)
      || (kMaxEntityIdBytes <? key_length f))%bool
  then None
  else
    let entity_id := bytes_text (take (Z.to_nat (key_length f)) (key_buffer f)) in
    if containsNull entity_id then None
    else
      match fetched_expiry f with
      | None => None
      | Some expire_at => Some (mkEntry t entity_id expire_at)
      end.

Definition ip_row (status : Z) (f : Fetched) : option BlacklistEntry :=
  if (negb (status =? 0) || key_is_null f || key_error f || expiry_error f
      || (negb (key_length f =? 4) && negb (key_length f =? 16)))%bool
  then None
  else
    match fromBytes (take (Z.to_nat (key_length f)) (key_buffer f)) with
    | None => None
    | Some address =>
        match fetched_expiry f with
        | None => None
        | Some expire_at => Some (mkEntry Ip (canonicalText address) expire_at)
        end
    end.

(** The fetch loop of both functions; [None] is [return false]. *)
Fixpoint fetch_loop (fuel : nat) (row : Z -> Fetched -> option BlacklistEntry)
    (entries : list BlacklistEntry) : Mysql (option (list BlacklistEntry)) :=
  match fuel with
  | O => mret None
  | S fuel =>
      late ← deadlineReached;
      if (late : bool) then mret None
      else
        answer ← next_answer;
        late ← deadlineReached;
        if (late : bool) then mret None
        else if code answer =? MYSQL_NO_DATA then mret (Some entries)
        else
          match row (code answer) (fetched answer) with
          | None => mret None
          | Some entry => fetch_loop fuel row (entries ++ [entry])
          end
  end.

(** One pass per answer that the client still gives. *)
Definition fetch_fuel : Mysql nat := fun d => (d, S (length (results d))).

(** [appendTextEntries] and [appendIpEntries] differ in [row] and in the
    buffers they bind. *)
Definition append_entries (row : Z -> Fetched -> option BlacklistEntry)
    (entries : list BlacklistEntry) : Mysql (option (list BlacklistEntry)) :=
  prepared ← prepareStatement;
  if negb prepared then mret None
  else
    refused ← deadlineReached ||| fails ||| deadlineReached;
    if (refused : bool) then mret None
    else
      refused ← deadlineReached ||| fails ||| deadlineReached ||| fails ||| deadlineReached;
      if (refused : bool) then mret None
      else fuel ← fetch_fuel; fetch_loop fuel row entries.

Definition appendTextEntries (t : EntityType) := append_entries (text_row t).
Definition appendIpEntries := append_entries ip_row.

(** ** Mutations *)

Definition upsertKind (t : EntityType) : StatementKind.t :=
  match t with
  | User => StatementKind.UserUpsert
  | Ip => StatementKind.IpUpsert
  | Device => StatementKind.DeviceUpsert
  end.

Definition disableKind (t : EntityType) : StatementKind.t :=
  match t with
  | User => StatementKind.UserDisable
  | Ip => StatementKind.IpDisable
  | Device => StatementKind.DeviceDisable
  end.

Definition statementFor (statements : StatementArray) (k : StatementKind.t)
    : Mysql (StatementArray * bool) :=
  late ← deadlineReached;
  if (late : bool) then mret (statements, false)
  else
    prepared ← (if bool_decide (k ∈ statements) then mret true else prepareStatement);
    if negb prepared then mret (statements, false)
    else
      let statements := if bool_decide (k ∈ statements) then statements else k :: statements in
      refused ← deadlineReached ||| fails ||| deadlineReached;
      mret (statements, negb refused).

(** The parameter of the entity: the bytes of an address, or the text. *)
Definition key_parameter (t : EntityType) (i : string) : option BoundValue :=
  match t with
  | Ip => match parse i with Some address => Some (PBlob (ip_bytes address)) | None => None end
  | _ => Some (PString i)
  end.

Definition expiry_parameter (expire_at : Z) : option BoundValue :=
  if expire_at =? 0 then Some PNull else PTime <$> toMysqlTime expire_at.

Definition bind_and_execute (k : StatementKind.t) (parameters : list BoundValue) : Mysql bool :=
  refused ← deadlineReached ||| fails ||| deadlineReached ||| sql_fails (Execute k parameters)
            ||| deadlineReached;
  mret (negb refused).

Definition executeUpsert (statements : StatementArray) (m : BlacklistMutation)
    : Mysql (StatementArray * bool) :=
  late ← deadlineReached;
  match entityType m with
  | Some t =>
      if (late : bool) then mret (statements, false)
      else
        '(statements, ready) ← statementFor statements (upsertKind t);
        if negb ready then mret (statements, false)
        else
          match key_parameter t (mut_id m), expiry_parameter (expireAtMs m) with
          | Some key, Some expiry =>
              done ← bind_and_execute (upsertKind t)
                       [key; PString (reason m); expiry; PString (reason m); expiry];
              mret (statements, done)
          | _, _ => mret (statements, false)
          end
  | None => mret (statements, false)
  end.

Definition executeDisable (statements : StatementArray) (m : BlacklistMutation)
    : Mysql (StatementArray * bool) :=
  late ← deadlineReached;
  match entityType m with
  | Some t =>
      if (late : bool) then mret (statements, false)
      else
        '(statements, ready) ← statementFor statements (disableKind t);
        if negb ready then mret (statements, false)
        else
          match key_parameter t (mut_id m) with
          | Some key => done ← bind_and_execute (disableKind t) [key]; mret (statements, done)
          | None => mret (statements, false)
          end
  | None => mret (statements, false)
  end.

(** The loop of [executeClear]. *)
Fixpoint clear_all_of (kinds : list StatementKind.t) (statements : StatementArray)
    : Mysql (StatementArray * bool) :=
  match kinds with
  | [] => mret (statements, true)
  | k :: rest =>
      '(statements, ready) ← statementFor statements k;
      if negb ready then mret (statements, false)
      else
        refused ← deadlineReached ||| sql_fails (Execute k []) ||| deadlineReached;
        if (refused : bool) then mret (statements, false) else clear_all_of rest statements
  end.

Definition clear_kinds : list StatementKind.t :=
  [StatementKind.UserClear; StatementKind.IpClear; StatementKind.DeviceClear].

Definition executeClear (statements : StatementArray) : Mysql (StatementArray * bool) :=
  clear_all_of clear_kinds statements.

Definition execute_mutation (statements : StatementArray) (m : BlacklistMutation)
    : Mysql (StatementArray * bool) :=
  match operation m with
  | Upsert => executeUpsert statements m
  | Disable => executeDisable statements m
  | ClearAll => executeClear statements
  end.

Fixpoint execute_all (statements : StatementArray) (mutations : list BlacklistMutation)
    : Mysql bool :=
  match mutations with
  | [] => mret true
  | m :: rest =>
      '(statements, succeeded) ← execute_mutation statements m;
      if negb succeeded then mret false else execute_all statements rest
  end.

(** [MysqlTransaction::commit]: the answer, and whether the guard is still
    active. *)
Definition commit : Mysql (bool * bool) :=
  late ← deadlineReached;
  if (late : bool) then mret (false, true)
  else
    failed ← sql_fails Commit;
    if (failed : bool) then mret (false, true)
    else late ← deadlineReached; mret (negb late, false).

(** The destructor of the guard. *)
Definition leave_guard (active result : bool) : Mysql bool :=
  if active then _ ← sql_fails Rollback; mret result else mret result.

Definition applyBlacklistMutations (mutations : list BlacklistMutation) : Mysql bool := fun d =>
  if negb (connection d) then (d, false)
  else
    (late ← deadlineReached;
     if (late : bool) then mret false
     else
       match mutations with
       | [] => mret true
       | _ =>
           failed ← sql_fails StartTransaction;
           if (failed : bool) then mret false
           else
             late ← deadlineReached;
             if (late : bool) then leave_guard true false
             else
               succeeded ← execute_all [] mutations;
               if negb succeeded then leave_guard true false
               else
                 '(result, active) ← commit;
                 leave_guard active result
       end) d.

(** ** Connecting and loading *)

Definition count_handle (n : Z) : Mysql unit := fun d => (d <| handles := handles d + n |>, tt).

(** [mysql_init] and [mysql_close]. *)
Definition open_handle : Mysql bool :=
  refused ← fails;
  if (refused : bool) then mret false
  else _ ← count_handle 1; mret true.

Definition close_handle : Mysql unit := count_handle (-1).

(** [Impl::close] *)
Definition close : Mysql unit := fun d =>
  let d := if connection d then d <| handles := handles d - 1 |> <| connection := false |> else d in
  (d <| last_blacklist_load_succeeded := false |> <| last_blacklist_count_succeeded := false |>, tt).

Definition set_connection : Mysql unit := fun d => (d <| connection := true |>, tt).

Definition get_config : Mysql MysqlConfig := fun d => (d, config_ d).

Definition connect : Mysql bool :=
  _ ← close;
  config ← get_config;
  now1 ← read_clock;
  now2 ← read_clock;
  now3 ← read_clock;
  match timeoutWithinDeadline (connect_timeout_sec config) now1,
        timeoutWithinDeadline (read_timeout_sec config) now2,
        timeoutWithinDeadline (write_timeout_sec config) now3 with
  | Some _, Some _, Some _ =>
      opened ← open_handle;
      if negb opened then mret false
      else
        refused ← fails ||| fails ||| fails ||| deadlineReached;
        if (refused : bool) then _ ← close_handle; mret false
        else
          refused ← fails;
          if (refused : bool) then _ ← close_handle; mret false
          else
            _ ← set_connection;
            late ← deadlineReached;
            if (late : bool) then _ ← close; mret false
            else
              refused ← deadlineReached
                ||| (if bool_decide (mysql_charset config = "") then mret false else fails)
                ||| deadlineReached ||| fails ||| deadlineReached;
              if (refused : bool) then _ ← close; mret false else mret true
  | _, _, _ => mret false
  end.

Definition set_loaded (ok : bool) : Mysql unit := fun d =>
  (d <| last_blacklist_load_succeeded := ok |>, tt).

Definition is_connected : Mysql bool := fun d => (d, connection d).

Definition loadEnabledBlacklists : Mysql (list BlacklistEntry) :=
  _ ← set_loaded false;
  connected ← is_connected;
  if negb connected then mret []
  else
    late ← deadlineReached;
    if (late : bool) then mret []
    else
      users ← appendTextEntries User [];
      match users with
      | None => mret []
      | Some entries =>
          with_ips ← appendIpEntries entries;
          match with_ips with
          | None => mret []
          | Some entries =>
              all ← appendTextEntries Device entries;
              match all with
              | None => mret []
              | Some entries =>
                  late ← deadlineReached;
                  if (late : bool) then mret [] else _ ← set_loaded true; mret entries
              end
          end
      end.

(** ** Counting *)

Record BlacklistCounts := mkCounts { count_users : Z; count_ips : Z; count_devices : Z }.

(** [BlacklistCounts::total] and [empty] *)
Definition total (c : BlacklistCounts) : Z := (count_users c ⊕ count_ips c) ⊕ count_devices c.
Definition empty_counts (c : BlacklistCounts) : bool := total c =? 0.

Fixpoint skip_spaces (l : list ascii) : list ascii :=
  match l with
  | c :: rest => if isspace c then skip_spaces rest else l
  | [] => []
  end.

(** [std::stoull]: blanks, a sign, digits; the value and what is left, [None]
    when it throws. *)
Definition stoull (chars : list ascii) : option (Z * list ascii) :=
  let body := skip_spaces chars in
  let '(negative, body) :=
    match body with
    | c :: rest => if char_code c =? 45 then (true, rest)
                   else if char_code c =? 43 then (false, rest) else (false, body)
    | [] => (false, body)
    end in
  match from_chars body with
  | None => None
  | Some (v, n) => Some (if negative then wrap64 (- v) else v, drop n body)
  end.

Definition parseUInt64 (text : option string) : option Z :=
  match text with
  | None | Some EmptyString => None
  | Some s =>
      match stoull (String.list_ascii_of_string s) with
      | Some (v, []) => Some v
      | _ => None
      end
  end.

Definition set_counted (ok : bool) : Mysql unit := fun d =>
  (d <| last_blacklist_count_succeeded := ok |>, tt).

Definition countEnabledBlacklists : Mysql BlacklistCounts :=
  let counts := mkCounts 0 0 0 in
  _ ← set_counted false;
  connected ← is_connected;
  if negb connected then mret counts
  else
    late ← deadlineReached;
    if (late : bool) then mret counts
    else
      refused ← fails ||| deadlineReached;
      if (refused : bool) then mret counts
      else
        refused ← fails ||| deadlineReached;
        if (refused : bool) then mret counts
        else
          row ← next_answer;
          late ← deadlineReached;
          if (late : bool) then mret counts
          else
            lengths_missing ← fails;
            if (negb (code row =? 0) || lengths_missing)%bool then mret counts
            else
              late ← deadlineReached;
              if (late : bool) then mret counts
              else
                let column i := parseUInt64 (columns row !!! i) in
                match column 0%nat, column 1%nat, column 2%nat with
                | Some users, Some ips, Some devices =>
                    late ← deadlineReached;
                    if (late : bool) then mret counts
                    else _ ← set_counted true; mret (mkCounts users ips devices)
                | _, _, _ => mret counts
                end.
End Dao.

(** ** The calendar round trip *)

Lemma toMysqlTime_total ms :
  0 < ms <= kMaxExpireAtMs -> exists t, toMysqlTime ms = Some t /\ fromMysqlTime t = Some ms.
Proof.
  intros Hms. unfold toMysqlTime.
  assert (0 <= ms / 1000 < days_before_year 10000 * 86400) as Hs.
  { change (days_before_year 10000 * 86400) with 253402300800. unfold kMaxExpireAtMs in Hms. zlia. }
  destruct (gmtime_spec _ _ Hs) as (Hy & Hmo & Hd & Hh & Hmi & Hse & Hsec).
  pose proof (Z.div_mod ms 1000 ltac:(lia)) as Hdm. pose proof (Z.mod_pos_bound ms 1000 ltac:(lia)) as Hr.
  change (days_before_year 10000 * 86400) with 253402300800 in Hs.
  set (utc := gmtime (ms / 1000)) in *. unfold kMaxExpireAtMs, time_t_max in *.
  set (s := ms / 1000) in *. set (r := ms mod 1000) in *. clearbody r.
  assert ((r * 1000) mod 1000 = 0) as Hm by (apply Z.mod_mul; lia).
  assert ((r * 1000) / 1000 = r) as Hq by (apply Z.div_mul; lia).
  case_if; [lia|]. case_if; [lia|].
  eexists. split; [reflexivity|]. unfold fromMysqlTime. cbn [neg year month day hour minute second second_part].
  rewrite Hm, Hq. case_if; [lia|].
  unfold timegm. replace (mkTm _ _ _ _ _ _) with utc.
  2: { destruct utc; simpl. f_equal; lia. }
  rewrite Hsec. fold utc. case_if; [lia|].
  destruct (Z.ltb_spec ((kMaxExpireAtMs - r) / 1000) s) as [Hlt|]; [|f_equal; lia].
  pose proof (Z.div_le_lower_bound (kMaxExpireAtMs - r) 1000 s) as Hb. unfold kMaxExpireAtMs in *. lia.
Qed.

(** Expiry times survive the conversion to and from [DATETIME].  Every
    expiry that a mutation can carry, from one millisecond after the epoch to
    the end of the year 9999, has a [MYSQL_TIME], and reading it back gives the
    same millisecond; and a time that is accepted from a table is the one that
    its milliseconds are written as, so no impossible date (a 30th of
    February, an hour 24) and no finer fraction is ever accepted. *)
Theorem mysql_time_roundtrip :
  (forall ms, 0 < ms <= kMaxExpireAtMs ->
     exists t, toMysqlTime ms = Some t /\ fromMysqlTime t = Some ms)
  /\ (forall t ms, 0 <= second_part t -> fromMysqlTime t = Some ms ->
        0 <= ms <= kMaxExpireAtMs /\ (0 < ms -> toMysqlTime ms = Some t)).
Proof.
  split; [exact toMysqlTime_total|].
  intros t ms Hp. unfold fromMysqlTime. case_if; [done|].
  destruct (timegm _) as [s utc] eqn:Et. unfold timegm in Et. injection Et as Es Eu.
  rewrite Es in Eu. case_if; [done|].
  pose proof (Z.div_mod (second_part t) 1000 ltac:(lia)) as Hdm.
  assert (0 <= second_part t / 1000 < 1000) as Hr by (split; [apply Z.div_pos|apply Z.div_lt_upper_bound]; lia).
  set (r := second_part t / 1000) in *.
  destruct (Z.ltb_spec ((kMaxExpireAtMs - r) / 1000) s) as [|Hle]; [done|]. intros [= <-].
  assert (s * 1000 + r <= kMaxExpireAtMs) as Hmax.
  { pose proof (Z.mul_div_le (kMaxExpireAtMs - r) 1000 ltac:(lia)). lia. }
  split; [lia|]. intros Hpos. unfold toMysqlTime.
  replace ((s * 1000 + r) / 1000) with s by (rewrite Z.div_add_l, (Z.div_small r) by lia; lia).
  replace ((s * 1000 + r) mod 1000) with r
    by (rewrite Z.add_comm, Z.mod_add, (Z.mod_small r) by lia; lia).
  case_if; [unfold kMaxExpireAtMs, time_t_max in *; lia|]. rewrite Eu. case_if; [lia|].
  clearbody r. f_equal. destruct t. simpl in *. f_equal; first [lia|congruence].
Qed.

Lemma mysql_time_roundtrip_witness :
  exists t, toMysqlTime 1709210096789 = Some t /\ day t = 29 /\ month t = 2
  /\ fromMysqlTime t = Some 1709210096789.
Proof.
  destruct (proj1 mysql_time_roundtrip 1709210096789) as (t & H1 & H2);
    [unfold kMaxExpireAtMs; lia|].
  exists t. split; [exact H1|]. vm_compute in H1. injection H1 as <-. split_and!; [reflexivity..|].
  exact H2.
Defined.

(** ** What a program sends *)

Abbreviation Trace := (list (SqlCall * bool)).

(** [m] appends to the calls a trace that is related to its answer. *)
Definition emits {A} (m : Mysql A) (R : A -> Trace -> Prop) : Prop :=
  forall d, exists l, calls (m d).1 = calls d ++ l /\ R (m d).2 l.

Lemma emits_ret {A} (a : A) (R : A -> Trace -> Prop) : R a [] -> emits (mret a) R.
Proof. intros HR d. exists []. by rewrite app_nil_r. Qed.

Lemma emits_bind {A B} (m : Mysql A) (f : A -> Mysql B) R S :
  emits m R -> (forall a l, R a l -> emits (f a) (fun b l' => S b (l ++ l'))) -> emits (m ≫= f) S.
Proof.
  intros Hm Hf d. destruct (Hm d) as (l & H1 & H2). unfold mbind, mysql_bind.
  destruct (m d) as [d1 a]. simpl in *. destruct (Hf a l H2 d1) as (l' & H3 & H4).
  exists (l ++ l'). split; [by rewrite H3, H1, <-app_assoc|done].
Qed.

Lemma emits_weaken {A} (m : Mysql A) (R S : A -> Trace -> Prop) :
  emits m R -> (forall a l, R a l -> S a l) -> emits m S.
Proof. intros Hm HRS d. destruct (Hm d) as (l & H1 & H2). eauto. Qed.

(** Programs that send nothing. *)
Definition silent {A} (m : Mysql A) : Prop := emits m (fun _ l => l = []).

Lemma silent_ret {A} (a : A) : silent (mret a).
Proof. by apply emits_ret. Qed.

Lemma silent_bind {A B} (m : Mysql A) (f : A -> Mysql B) :
  silent m -> (forall a, silent (f a)) -> silent (m ≫= f).
Proof. intros Hm Hf. eapply emits_bind; [exact Hm|]. intros a l ->. apply Hf. Qed.

Lemma silent_step {A} (m : Mysql A) : (forall d, calls (m d).1 = calls d) -> silent m.
Proof. intros Hm d. exists []. by rewrite Hm, app_nil_r. Qed.

(** A silent program before one that emits. *)
Lemma emits_silent {A B} (m : Mysql A) (f : A -> Mysql B) R :
  silent m -> (forall a, emits (f a) R) -> emits (m ≫= f) R.
Proof. intros Hm Hf. eapply emits_bind; [exact Hm|]. intros a l ->. apply Hf. Qed.

Lemma silent_next_answer : silent next_answer.
Proof. apply silent_step. intros d. unfold next_answer. by destruct (results d). Qed.

Lemma silent_fails : silent fails.
Proof. apply silent_bind; [apply silent_next_answer|]. intros a. apply silent_ret. Qed.

Lemma silent_or_else a b : silent a -> silent b -> silent (a ||| b).
Proof. intros Ha Hb. apply silent_bind; [done|]. intros []; [apply silent_ret|done]. Qed.

Lemma silent_deadlineReached deadline : silent (deadlineReached deadline).
Proof. apply silent_step. intros d. unfold deadlineReached. by destruct (clocks d). Qed.

Create HintDb mysql.
#[export] Hint Resolve silent_ret silent_next_answer silent_fails silent_or_else
  silent_deadlineReached : mysql.

Lemma sql_fails_emits c : emits (sql_fails c) (fun failed l => l = [(c, negb failed)]).
Proof.
  intros d. destruct (silent_fails d) as (l & H1 & ->). unfold sql_fails, mbind, mysql_bind.
  destruct (fails d) as [d1 failed]. simpl in *. exists [(c, negb failed)]. by rewrite H1, app_nil_r.
Qed.

Section ApplySpec.
Context `{Inet} (deadline : Z).

Lemma silent_prepare : silent (prepareStatement deadline).
Proof. apply silent_bind; auto 10 with mysql. Qed.

Lemma silent_statementFor statements k : silent (statementFor deadline statements k).
Proof.
  apply silent_bind; [auto with mysql|]. intros []; [auto with mysql|].
  apply silent_bind; [case_match; auto using silent_prepare with mysql|]. intros p.
  case_match; [auto with mysql|]. apply silent_bind; auto 10 with mysql.
Qed.

Definition is_execute (c : SqlCall * bool) : Prop := exists k ps, c.1 = Execute k ps.

(** [executes cs ok l]: the trace consists of executions, and on success of
    exactly those of [cs]. *)
Definition executes (cs : option (list SqlCall)) (ok : bool) (l : Trace) : Prop :=
  Forall is_execute l
  /\ (ok = true -> exists s, cs = Some s /\ l = (fun c => (c, true)) <$> s).

Lemma executes_nothing cs : executes cs false [].
Proof. by split. Qed.

Lemma guarded_execute_emits guard c :
  silent guard -> is_execute (c, true) ->
  emits (guard ||| sql_fails c ||| deadlineReached deadline)
    (fun refused => executes (Some [c]) (negb refused)).
Proof.
  intros Hg Hc. apply (emits_bind _ _ (fun refused => executes (Some [c]) (negb refused))).
  - apply emits_silent; [done|]. intros []; [apply emits_ret, executes_nothing|].
    eapply emits_weaken; [apply sql_fails_emits|]. intros failed l ->. split.
    + by apply Forall_singleton.
    + intros Hf. eexists. split; [done|]. by rewrite Hf.
  - intros refused l Hl. destruct refused; [apply emits_ret; by rewrite app_nil_r|].
    eapply emits_weaken; [apply silent_deadlineReached|]. intros late l' ->. rewrite app_nil_r.
    destruct late; [|done]. by split; [apply Hl|].
Qed.

Lemma bind_and_execute_emits k ps :
  emits (bind_and_execute deadline k ps) (executes (Some [Execute k ps])).
Proof.
  eapply emits_bind; [apply guarded_execute_emits; [auto 10 with mysql|by eexists _, _]|].
  intros refused l Hl. apply emits_ret. by rewrite app_nil_r.
Qed.

(** The statements of one mutation. *)
Definition mutation_statements (m : BlacklistMutation) : option (list SqlCall) :=
  match operation m, entityType m with
  | Upsert, Some t =>
      key ← key_parameter t (mut_id m);
      expiry ← expiry_parameter (expireAtMs m);
      Some [Execute (upsertKind t) [key; PString (reason m); expiry; PString (reason m); expiry]]
  | Disable, Some t => key ← key_parameter t (mut_id m); Some [Execute (disableKind t) [key]]
  | ClearAll, _ => Some ((fun k => Execute k []) <$> clear_kinds)
  | _, None => None
  end.

(** The execution of one statement, after which the program answers. *)
Lemma execute_one_emits (statements : StatementArray) k ps cs :
  cs = Some [Execute k ps] ->
  emits (done ← bind_and_execute deadline k ps; mret (statements, done))
    (fun r => executes cs r.2).
Proof.
  intros ->. eapply emits_bind; [apply bind_and_execute_emits|]. intros done l Hl. apply emits_ret.
  by rewrite app_nil_r.
Qed.

Lemma emits_refused (statements : StatementArray) cs :
  emits (mret (statements, false)) (fun r : StatementArray * bool => executes cs r.2).
Proof. apply emits_ret, executes_nothing. Qed.
#[local] Hint Resolve emits_refused silent_statementFor : mysql.

Lemma executeUpsert_emits statements m :
  operation m = Upsert ->
  emits (executeUpsert deadline statements m) (fun r => executes (mutation_statements m) r.2).
Proof.
  intros Ho. unfold mutation_statements. rewrite Ho. apply emits_silent; [auto with mysql|].
  intros late. destruct (entityType m) as [t|]; [|auto with mysql]. destruct late; [auto with mysql|].
  apply emits_silent; [auto with mysql|]. intros [st ready]. destruct ready; simpl; [|auto with mysql].
  destruct (key_parameter t (mut_id m)) as [key|]; [|auto with mysql].
  destruct (expiry_parameter (expireAtMs m)) as [e|]; [|auto with mysql]. by apply execute_one_emits.
Qed.

Lemma executeDisable_emits statements m :
  operation m = Disable ->
  emits (executeDisable deadline statements m) (fun r => executes (mutation_statements m) r.2).
Proof.
  intros Ho. unfold mutation_statements. rewrite Ho. apply emits_silent; [auto with mysql|].
  intros late. destruct (entityType m) as [t|]; [|auto with mysql]. destruct late; [auto with mysql|].
  apply emits_silent; [auto with mysql|]. intros [st ready]. destruct ready; simpl; [|auto with mysql].
  destruct (key_parameter t (mut_id m)) as [key|]; [|auto with mysql]. by apply execute_one_emits.
Qed.

Lemma executes_app s cs ok l l' :
  executes (Some s) true l -> executes cs ok l' -> executes (app s <$> cs) ok (l ++ l').
Proof.
  intros [H1 H2] [H3 H4]. split; [by apply Forall_app|]. intros ->.
  destruct (H2 eq_refl) as (s1 & [= <-] & ->). destruct (H4 eq_refl) as (s2 & -> & ->).
  exists (s ++ s2). split; [done|]. by rewrite fmap_app.
Qed.

Lemma clear_all_of_emits kinds statements :
  emits (clear_all_of deadline kinds statements)
    (fun r => executes (Some ((fun k => Execute k []) <$> kinds)) r.2).
Proof.
  revert statements. induction kinds as [|k kinds IH]; intros statements.
  { apply emits_ret. split; [done|]. intros _. by exists []. }
  apply emits_silent; [auto with mysql|]. intros [st ready]. destruct ready; simpl; [|auto with mysql].
  eapply emits_bind; [apply guarded_execute_emits; [auto with mysql|by eexists _, _]|].
  intros refused l Hl. destruct refused.
  - apply emits_ret. rewrite app_nil_r. by split; [apply Hl|].
  - eapply emits_weaken; [apply IH|]. intros r l' Hl'. exact (executes_app _ _ _ _ _ Hl Hl').
Qed.

Lemma execute_mutation_emits statements m :
  emits (execute_mutation deadline statements m) (fun r => executes (mutation_statements m) r.2).
Proof.
  unfold execute_mutation. destruct (operation m) eqn:Ho.
  - by apply executeUpsert_emits.
  - by apply executeDisable_emits.
  - unfold mutation_statements. rewrite Ho. apply clear_all_of_emits.
Qed.

(** The statements of a batch, in its order. *)
Fixpoint batch_statements (ms : list BlacklistMutation) : option (list SqlCall) :=
  match ms with
  | [] => Some []
  | m :: rest => s ← mutation_statements m; app s <$> batch_statements rest
  end.

Lemma execute_all_emits statements ms :
  emits (execute_all deadline statements ms) (executes (batch_statements ms)).
Proof.
  revert statements. induction ms as [|m ms IH]; intros statements.
  { apply emits_ret. split; [done|]. intros _. by exists []. }
  eapply emits_bind; [apply execute_mutation_emits|]. intros [st ok] l Hl. simpl in Hl.
  destruct ok; simpl.
  - destruct Hl as [H1 H2]. destruct (H2 eq_refl) as (s & Hs & Hl). rewrite Hs. simpl.
    eapply emits_weaken; [apply IH|]. intros b l' Hl'. apply executes_app; [|done].
    split; [done|]. intros _. by exists s.
  - apply emits_ret. rewrite app_nil_r. by split; [apply Hl|].
Qed.
End ApplySpec.

(** ** What the database has committed *)

Record SqlSession := mkSqlSession { open_sql : option (list SqlCall); committed : list SqlCall }.

(** The documented effect of the calls that the server confirmed; a
    transaction that is started inside another one commits it.  A [Commit]
    without a confirmation counts as not executed here: the client is not told
    which it was. *)
Definition sql_step (s : SqlSession) (c : SqlCall * bool) : SqlSession :=
  match c with
  | (StartTransaction, true) => mkSqlSession (Some []) (committed s ++ default [] (open_sql s))
  | (Execute k ps, true) =>
      match open_sql s with
      | Some q => s <| open_sql := Some (q ++ [Execute k ps]) |>
      | None => s <| committed := committed s ++ [Execute k ps] |>
      end
  | (Commit, true) => mkSqlSession None (committed s ++ default [] (open_sql s))
  | (Rollback, true) => s <| open_sql := None |>
  | (_, false) => s
  end.

Definition sql_of (d : MysqlDao) : SqlSession := foldl sql_step (mkSqlSession None []) (calls d).

(** What is committed stays committed. *)
Lemma committed_grows l s : committed s `prefix_of` committed (foldl sql_step s l).
Proof.
  revert s. induction l as [|[c b] l IH]; intros s; simpl; [done|]. etransitivity; [|apply IH].
  destruct c, b; simpl; try done; [apply prefix_app_r; done| |apply prefix_app_r; done].
  destruct (open_sql s); simpl; [done|]. by apply prefix_app_r.
Qed.

Lemma executes_fold l q C :
  Forall is_execute l -> exists q', foldl sql_step (mkSqlSession (Some q) C) l = mkSqlSession (Some q') C.
Proof.
  intros Hl. revert q. induction Hl as [|[c b] l (k & ps & Hc) _ IH]; intros q; simpl; [by exists q|].
  simpl in Hc. subst c. destruct b; simpl; apply IH.
Qed.

Lemma executed_fold s q C :
  Forall is_execute ((fun c => (c, true)) <$> s) ->
  foldl sql_step (mkSqlSession (Some q) C) ((fun c => (c, true)) <$> s) = mkSqlSession (Some (q ++ s)) C.
Proof.
  revert q. induction s as [|c s IH]; intros q Hs; simpl; [by rewrite app_nil_r|].
  apply Forall_cons in Hs as [(k & ps & Hc) Hs]. simpl in Hc. subst c. simpl.
  etransitivity; [exact (IH (q ++ [Execute k ps]) Hs)|]. by rewrite <-app_assoc.
Qed.

Section Apply.
Context `{Inet} (deadline : Z).

(** The traces of [applyBlacklistMutations]. *)
Inductive apply_trace (ms : list BlacklistMutation) : bool -> Trace -> Prop :=
| trace_nothing ok : (ok = true -> ms = []) -> apply_trace ms ok []
| trace_not_started : apply_trace ms false [(StartTransaction, false)]
| trace_rolled_back l rest b :
    Forall is_execute l -> rest = [] \/ rest = [(Commit, false)] ->
    apply_trace ms false ((StartTransaction, true) :: l ++ rest ++ [(Rollback, b)])
| trace_committed s ok :
    batch_statements ms = Some s -> Forall is_execute ((fun c => (c, true)) <$> s) ->
    apply_trace ms ok ((StartTransaction, true) :: ((fun c => (c, true)) <$> s) ++ [(Commit, true)]).

Lemma rollback_emits ms l rest :
  Forall is_execute l -> rest = [] \/ rest = [(Commit, false)] ->
  emits (leave_guard true false) (fun ok l' => apply_trace ms ok ((StartTransaction, true) :: (l ++ rest) ++ l')).
Proof.
  intros Hl Hr. unfold leave_guard. eapply emits_bind; [apply sql_fails_emits|]. intros failed l' ->.
  apply emits_ret. rewrite app_nil_r, <-app_assoc. by constructor.
Qed.

Lemma commit_emits :
  emits (commit deadline) (fun r l => r.2 = false /\ l = [(Commit, true)]
    \/ r = (false, true) /\ (l = [] \/ l = [(Commit, false)])).
Proof.
  unfold commit. apply emits_silent; [auto with mysql|]. intros []; [apply emits_ret; auto|].
  eapply emits_bind; [apply sql_fails_emits|]. intros failed l ->. destruct failed; simpl.
  - apply emits_ret. auto.
  - eapply emits_bind; [apply silent_deadlineReached|]. intros late l' ->. apply emits_ret. simpl.
    destruct late; auto.
Qed.

Lemma applyBlacklistMutations_emits ms :
  emits (applyBlacklistMutations deadline ms) (apply_trace ms).
Proof.
  intros d. unfold applyBlacklistMutations. destruct (connection d); cbn [negb].
  2: { exists []. rewrite app_nil_r. by split; [|constructor]. }
  revert d. fold (@emits bool). apply emits_silent; [auto with mysql|].
  intros []; [by apply emits_ret; constructor|].
  destruct ms as [|m ms]; [by apply emits_ret; constructor|].
  eapply emits_bind; [apply sql_fails_emits|]. intros failed l ->. destruct failed; cbn [negb].
  { apply emits_ret. constructor. }
  apply emits_silent; [auto with mysql|]. intros late. destruct late.
  { exact (rollback_emits _ [] [] ltac:(constructor) ltac:(by left)). }
  eapply emits_bind; [apply execute_all_emits|]. intros ok l [Hex Hok]. destruct ok; cbn [negb].
  2: { eapply emits_weaken; [apply (rollback_emits (m :: ms) l []); [done|by left]|].
       intros b l'. by rewrite app_nil_r. }
  destruct (Hok eq_refl) as (s & Hs & ->).
  eapply emits_bind; [apply commit_emits|]. intros [result active] l' Hc. simpl in Hc.
  destruct Hc as [[-> ->]|[[= -> ->] Hl]].
  - apply emits_ret. rewrite app_nil_r. by apply trace_committed.
  - eapply emits_weaken; [apply (rollback_emits (m :: ms) _ l' Hex Hl)|].
    intros b l''. simpl. by rewrite <-app_assoc.
Qed.

(** After the answer true, the whole batch is committed and no transaction is
    open. *)
Lemma applyBlacklistMutations_true ms d d' :
  open_sql (sql_of d) = None -> applyBlacklistMutations deadline ms d = (d', true) ->
  exists s, batch_statements ms = Some s
  /\ sql_of d' = mkSqlSession None (committed (sql_of d) ++ s).
Proof.
  intros Ho Ha. destruct (applyBlacklistMutations_emits ms d) as (l & Hc & Ht).
  rewrite Ha in Hc, Ht. simpl in Hc, Ht. unfold sql_of at 1. rewrite Hc, foldl_app. fold (sql_of d).
  destruct (sql_of d) as [o C]. simpl in Ho. subst o. simpl.
  inversion Ht as [ok Hok| | |s ok Hs Hex]; subst.
  - rewrite (Hok eq_refl). exists []. by rewrite app_nil_r.
  - exists s. split; [done|]. simpl. rewrite app_nil_r. by rewrite foldl_app, executed_fold.
Qed.

(** C35. A batch of mutations reaches MySQL as a whole or not at all.  Whatever
    the client and the clock answer, starting outside a transaction: when
    [applyBlacklistMutations] answers true, the statements of all the
    mutations, in the order of the batch, are what it has committed; when it
    answers false, either nothing or the whole batch was (the commit came in
    time, the answer did not); and no transaction is left open unless the
    rollback itself failed. *)
Theorem mysql_apply_atomic ms d :
  open_sql (sql_of d) = None ->
  let '(d', ok) := applyBlacklistMutations deadline ms d in
  (ok = true -> exists s, batch_statements ms = Some s
                          /\ committed (sql_of d') = committed (sql_of d) ++ s)
  /\ (committed (sql_of d') = committed (sql_of d)
      \/ exists s, batch_statements ms = Some s
                   /\ committed (sql_of d') = committed (sql_of d) ++ s)
  /\ (open_sql (sql_of d') = None \/ last (calls d') = Some (Rollback, false)).
Proof.
  intros Ho. destruct (applyBlacklistMutations_emits ms d) as (l & Hc & Ht).
  destruct (applyBlacklistMutations deadline ms d) as [d' ok]. simpl in Hc, Ht.
  unfold sql_of. rewrite Hc, foldl_app. fold (sql_of d). destruct (sql_of d) as [o C]. simpl in Ho.
  subst o. simpl. destruct Ht as [ok Hok| |l rest b Hex Hr|s ok Hs Hex].
  - split_and!; [|by left..]. intros E. rewrite (Hok E). exists []. by rewrite app_nil_r.
  - split_and!; [done|by left..].
  - simpl. rewrite app_nil_r.
    rewrite !foldl_app. destruct (executes_fold l [] C Hex) as (q & Hq). rewrite Hq.
    destruct Hr as [->| ->]; simpl; destruct b; simpl; split_and!; auto; try done; right;
      by rewrite last_app, last_cons, last_app.
  - simpl. rewrite app_nil_r.
    rewrite foldl_app, executed_fold by done. simpl. split_and!; eauto.
Qed.
End Apply.

Lemma mysql_apply_atomic_witness :
  let ms := [mkMutation Upsert (Some User) "alice" "abuse" 0; clearAll] in
  let ok := mkMysqlAnswer 0 zero_fetched [] in
  let d := mkDao (mkMysql "h" 3306 "u" "p" "d" "" 3 3 3) true false false (replicate 40 0)
             (replicate 40 ok) [] 1 in
  let '(d', answer) := @applyBlacklistMutations ReferenceInet.inet 1 ms d in
  answer = true /\ length (committed (sql_of d')) = 4%nat.
Proof.
  intros ms ok d.
  pose proof (@mysql_apply_atomic ReferenceInet.inet 1 ms d) as Ha.
  assert ((@applyBlacklistMutations ReferenceInet.inet 1 ms d).2 = true) as Hok
    by (vm_compute; reflexivity).
  destruct (applyBlacklistMutations 1 ms d) as [d' answer]. simpl in Hok.
  destruct (Ha eq_refl) as (H1 & _ & _). destruct (H1 Hok) as (s & Hs & Hc).
  split; [exact Hok|]. rewrite Hc. vm_compute in Hs. injection Hs as <-. reflexivity.
Defined.

(** ** What the statements mean *)

(** A text without the spaces at its end. *)
Fixpoint strip_spaces (s : string) : string :=
  match s with
  | String.EmptyString => ""
  | String.String c rest =>
      match strip_spaces rest with
      | String.EmptyString => if char_code c =? 32 then "" else String.String c ""
      | stripped => String.String c stripped
      end
  end.

(** What the unique keys compare ([config/schema.sql]): [user_id] and
    [device_id] have the collation [utf8mb4_bin], in which spaces at the end do
    not count; [ip] is binary. *)
Definition collated (t : EntityType) (key : BoundValue) : BoundValue :=
  match t, key with
  | User, PString s | Device, PString s => PString (strip_spaces s)
  | _, _ => key
  end.

Record Row := mkRow {
  row_key : BoundValue;        (* as it was inserted *)
  row_reason : BoundValue;
  row_enabled : bool;
  row_expiry : BoundValue;
}.

(** The three tables: the row of a key, if there is one, by what the unique
    index compares. *)
Definition Tables : Type := EntityType -> BoundValue -> option Row.

(** The documented effect of the statements of [kMutationSql] on the row of
    the key [k] in the table of [t]: an update keeps the text of the key. *)
Definition row_effect (c : SqlCall) (t : EntityType) (k : BoundValue) (r : option Row) : option Row :=
  let disable_row := (fun row => row <| row_enabled := false |>) <$> r in
  match c with
  | Execute kind [key; why; expiry; why'; expiry'] =>
      if bool_decide (kind = upsertKind t /\ collated t key = k) then
        match r with
        | None => Some (mkRow key why true expiry)
        | Some row => Some (mkRow (row_key row) why' true expiry')
        end
      else r
  | Execute kind [key] =>
      if bool_decide (kind = disableKind t /\ collated t key = k) then disable_row else r
  | Execute StatementKind.UserClear [] => if bool_decide (t = User) then disable_row else r
  | Execute StatementKind.IpClear [] => if bool_decide (t = Ip) then disable_row else r
  | Execute StatementKind.DeviceClear [] => if bool_decide (t = Device) then disable_row else r
  | _ => r
  end.

Definition run_sql (s : list SqlCall) (T : Tables) : Tables := fun t k =>
  foldl (fun r c => row_effect c t k r) (T t k) s.

(** The effects on one row: none, disabling it, or setting it. *)
Definition set_row (row : Row) (r : option Row) : option Row :=
  Some (row <| row_key := from_option row_key (row_key row) r |>).

Inductive RowEffect : (option Row -> option Row) -> Prop :=
| effect_none f : (forall r, f r = r) -> RowEffect f
| effect_disable f : (forall r, f r = (fun row => row <| row_enabled := false |>) <$> r) -> RowEffect f
| effect_set f row : (forall r, f r = set_row row r) -> RowEffect f.

Lemma RowEffect_idem f r : RowEffect f -> f (f r) = f r.
Proof. intros [g Hg|g Hg|g row Hg]; rewrite !Hg; [done|by destruct r|done]. Qed.

Lemma RowEffect_compose f g : RowEffect f -> RowEffect g -> RowEffect (fun r => g (f r)).
Proof.
  intros [f' Hf|f' Hf|f' row Hf] [g' Hg|g' Hg|g' row' Hg].
  - apply effect_none. intros r. by rewrite Hg, Hf.
  - apply effect_disable. intros r. by rewrite Hg, Hf.
  - apply (effect_set _ row'). intros r. by rewrite Hg, Hf.
  - apply effect_disable. intros r. by rewrite Hg, Hf.
  - apply effect_disable. intros r. rewrite Hg, Hf. by destruct r.
  - apply (effect_set _ row'). intros r. rewrite Hg, Hf. by destruct r.
  - apply (effect_set _ row). intros r. by rewrite Hg, Hf.
  - apply (effect_set _ (row <| row_enabled := false |>)). intros r. by rewrite Hg, Hf.
  - apply (effect_set _ (row' <| row_key := row_key row |>)). intros r. by rewrite Hg, Hf.
Qed.

Section Replay.
Context `{Inet}.

Lemma mutation_effect m s t k :
  mutation_statements m = Some s -> RowEffect (fun r => foldl (fun r c => row_effect c t k r) r s).
Proof.
  unfold mutation_statements. destruct (operation m).
  - destruct (entityType m) as [et|]; [|done].
    destruct (key_parameter et (mut_id m)) as [key|]; [|done].
    destruct (expiry_parameter (expireAtMs m)) as [e|]; [|done]. intros [= <-].
    destruct et; simpl; (destruct (bool_decide _); [|by apply effect_none]);
      apply (effect_set _ (mkRow key (PString (reason m)) true e)); by intros [].
  - destruct (entityType m) as [et|]; [|done].
    destruct (key_parameter et (mut_id m)) as [key|]; [|done]. intros [= <-].
    destruct et; simpl; (destruct (bool_decide _); [by apply effect_disable|by apply effect_none]).
  - intros [= <-]. apply effect_disable. intros r. destruct t; done.
Qed.

Lemma batch_effect ms s t k :
  batch_statements ms = Some s -> RowEffect (fun r => foldl (fun r c => row_effect c t k r) r s).
Proof.
  revert s. induction ms as [|m ms IH]; intros s; simpl.
  { intros [= <-]. by apply effect_none. }
  destruct (mutation_statements m) as [s1|] eqn:E1; [|done].
  destruct (batch_statements ms) as [s2|] eqn:E2; [|done]. intros [= <-].
  pose proof (RowEffect_compose _ _ (mutation_effect m s1 t k E1) (IH s2 eq_refl)) as Hc.
  simpl in Hc. inversion Hc as [f Hf|f Hf|f row Hf]; subst;
    [apply effect_none|apply effect_disable|apply (effect_set _ row)]; intros r;
    rewrite foldl_app; apply Hf.
Qed.

(** Delivering a batch again changes nothing.  The tables after a batch
    was committed, committed again (its stream records could not be deleted)
    and followed by newer records are those after it was committed once and
    followed by the newer records, for every row of every table. *)
Theorem mysql_replay_idempotent ms newer s s' T t k :
  batch_statements ms = Some s -> batch_statements newer = Some s' ->
  run_sql s' (run_sql s (run_sql s T)) t k = run_sql s' (run_sql s T) t k
  /\ batch_statements (ms ++ newer) = Some (s ++ s')
  /\ run_sql (s ++ s') T t k = run_sql s' (run_sql s T) t k.
Proof.
  intros Hs Hs'. split_and!.
  - unfold run_sql. f_equal. by apply (RowEffect_idem _ _ (batch_effect ms s t k Hs)).
  - revert s Hs. induction ms as [|m ms IH]; intros s; simpl; [by intros [= <-]|].
    destruct (mutation_statements m) as [s1|]; [|done].
    destruct (batch_statements ms) as [s2|]; [|done]. intros [= <-].
    rewrite (IH s2 eq_refl). simpl. by rewrite app_assoc.
  - unfold run_sql. by rewrite foldl_app.
Qed.
End Replay.

Lemma mysql_replay_idempotent_witness :
  let ms := [mkMutation Upsert (Some User) "alice" "abuse" 0; clearAll] in
  exists s, @batch_statements ReferenceInet.inet ms = Some s
  /\ run_sql s (run_sql s (fun _ _ => None)) User (PString "alice")
     = run_sql s (fun _ _ => None) User (PString "alice").
Proof.
  intros ms.
  destruct (@batch_statements ReferenceInet.inet ms) as [s|] eqn:E; [|vm_compute in E; discriminate].
  exists s. split; [reflexivity|].
  exact (proj1 (@mysql_replay_idempotent ReferenceInet.inet ms [] s [] (fun _ _ => None) User
                  (PString "alice") E eq_refl)).
Defined.

(** ** The blacklist that the tables hold *)

Section Meaning.
Context `{Inet, !InetLaws}.

(** The blacklist as mutations see it: the expiry of each listed entity. *)
Definition Listing : Type := EntityType -> string -> option Z.

Definition expiry_value (v : BoundValue) : option Z :=
  match v with
  | PNull => Some 0
  | PTime t => fromMysqlTime t
  | _ => None
  end.

(** The two ids stand for one row: equal addresses, or texts that differ at
    most in the spaces at their end. *)
Definition same_entity (t : EntityType) (i j : string) : Prop :=
  match t with Ip => i = j | _ => strip_spaces i = strip_spaces j end.

#[export] Instance same_entity_dec t i j : Decision (same_entity t i j).
Proof. destruct t; simpl; apply _. Defined.

(** The enabled rows, by the normalised id of the entity. *)
Definition listing (T : Tables) : Listing := fun t i =>
  key ← key_parameter t i;
  row ← T t (collated t key);
  if row_enabled row then expiry_value (row_expiry row) else None.

Definition names (m : BlacklistMutation) (t : EntityType) (i : string) : bool :=
  bool_decide (entityType m = Some t /\ same_entity t (mut_id m) i).

Definition apply_mutation (L : Listing) (m : BlacklistMutation) : Listing := fun t i =>
  match operation m with
  | Upsert => if names m t i then Some (expireAtMs m) else L t i
  | Disable => if names m t i then None else L t i
  | ClearAll => None
  end.

(** Every row stands at the place of its key. *)
Definition tables_ok (T : Tables) : Prop :=
  forall t k row, T t k = Some row -> collated t (row_key row) = k.

(** A mutation of the factories, with its expiry a [std::uint64_t]. *)
Definition mutation_wf (m : BlacklistMutation) : Prop := mutation_ok m /\ 0 <= expireAtMs m.

Lemma key_parameter_total t i : normalizeId t i = Some i -> exists key, key_parameter t i = Some key.
Proof.
  unfold normalizeId, key_parameter. destruct t; [eauto| |eauto]. simpl.
  destruct (parse i); [eauto|done].
Qed.

(** The unique index identifies exactly the ids that stand for one row. *)
Lemma key_parameter_same t i j key key' :
  normalizeId t i = Some i -> normalizeId t j = Some j ->
  key_parameter t i = Some key -> key_parameter t j = Some key' ->
  collated t key = collated t key' <-> same_entity t i j.
Proof.
  unfold normalizeId, key_parameter. destruct t; simpl; [intros _ _ [= <-] [= <-]; simpl| |intros _ _ [= <-] [= <-]; simpl].
  1,3: split; [by intros [=]|by intros ->].
  destruct (parse i) as [a|] eqn:Ea; [|done]. destruct (parse j) as [b|] eqn:Eb; [|done].
  intros Hi Hj [= <-] [= <-]. split; [|intros ->; congruence]. intros [= Hk].
  apply parse_canonical, fromBytes_ip_bytes in Ea, Eb. rewrite Hk in Ea. rewrite Ea in Eb.
  congruence.
Qed.

Lemma expiry_parameter_total e :
  0 <= e <= kMaxExpireAtMs -> exists v, expiry_parameter e = Some v /\ expiry_value v = Some e.
Proof.
  intros He. unfold expiry_parameter. destruct (Z.eqb_spec e 0) as [->|]; [by exists PNull|].
  destruct (toMysqlTime_total e ltac:(lia)) as (t & Ht & Hf). rewrite Ht. by exists (PTime t).
Qed.

Lemma upsertKind_inj t t' : upsertKind t = upsertKind t' -> t = t'.
Proof. by destruct t, t'. Qed.

Lemma disableKind_inj t t' : disableKind t = disableKind t' -> t = t'.
Proof. by destruct t, t'. Qed.

Lemma row_effect_upsert et t key k why e r :
  row_effect (Execute (upsertKind et) [key; why; e; why; e]) t k r
  = if bool_decide (upsertKind et = upsertKind t /\ collated t key = k)
    then set_row (mkRow key why true e) r else r.
Proof. destruct et, r; simpl; by repeat case_match. Qed.

Lemma row_effect_disable et t key k r :
  row_effect (Execute (disableKind et) [key]) t k r
  = if bool_decide (disableKind et = disableKind t /\ collated t key = k)
    then (fun row => row <| row_enabled := false |>) <$> r else r.
Proof. by destruct et. Qed.

(** The test of the statement is the one of the mutation. *)
Lemma names_row m et t i key k (kind : EntityType -> StatementKind.t) :
  (forall t t', kind t = kind t' -> t = t') ->
  normalizeId et (mut_id m) = Some (mut_id m) -> normalizeId t i = Some i ->
  entityType m = Some et -> key_parameter et (mut_id m) = Some key -> key_parameter t i = Some k ->
  bool_decide (kind et = kind t /\ collated t key = collated t k) = names m t i.
Proof.
  intros Hinj Hi Hn Het Hk Hk'. unfold names. apply bool_decide_ext. rewrite Het. split.
  - intros [->%Hinj Hc]. split; [done|]. by apply (key_parameter_same t (mut_id m) i key k).
  - intros [[= ->] Hs]. split; [done|]. by apply (key_parameter_same t (mut_id m) i key k).
Qed.

Lemma mutation_meaning m T :
  mutation_wf m ->
  exists s, mutation_statements m = Some s
  /\ forall t i, normalizeId t i = Some i ->
       listing (run_sql s T) t i = apply_mutation (listing T) m t i.
Proof.
  intros [Hm Hp]. unfold mutation_ok in Hm. unfold mutation_statements, apply_mutation.
  destruct (operation m).
  - destruct Hm as (et & Het & Hi & _ & He). destruct (key_parameter_total _ _ Hi) as (key & Hk).
    destruct (expiry_parameter_total (expireAtMs m) ltac:(lia)) as (v & Hv & Hval).
    rewrite Het, Hk, Hv. eexists. split; [done|]. intros t i Hn. unfold listing, run_sql.
    destruct (key_parameter_total _ _ Hn) as (k & Hk'). rewrite Hk'. cbn [foldl mbind option_bind].
    rewrite row_effect_upsert, (names_row m et t i key k upsertKind upsertKind_inj) by done.
    by destruct (names m t i).
  - destruct Hm as (et & Het & Hi & _ & _). destruct (key_parameter_total _ _ Hi) as (key & Hk).
    rewrite Het, Hk. eexists. split; [done|]. intros t i Hn. unfold listing, run_sql.
    destruct (key_parameter_total _ _ Hn) as (k & Hk'). rewrite Hk'. cbn [foldl mbind option_bind].
    rewrite row_effect_disable, (names_row m et t i key k disableKind disableKind_inj) by done.
    destruct (names m t i); [|done]. by destruct (T t _).
  - eexists. split; [done|]. intros t i Hn. unfold listing, run_sql.
    destruct (key_parameter_total _ _ Hn) as (k & Hk'). rewrite Hk'. simpl.
    destruct t; simpl; by destruct (T _ _).
Qed.

(** No statement puts a row at a wrong place, or renames one. *)
Lemma row_effect_key c t k r row' :
  row_effect c t k r = Some row' ->
  match r with Some row => row_key row' = row_key row | None => collated t (row_key row') = k end.
Proof.
  unfold row_effect. intros Hr. destruct r as [row|]; repeat case_match; simplify_eq/=; bool_to_prop; naive_solver.
Qed.

Lemma run_sql_keeps s T t k row :
  T t k = Some row -> row_key <$> run_sql s T t k = Some (row_key row).
Proof.
  intros HT. unfold run_sql. rewrite HT. clear HT. revert row. induction s as [|c s IH]; intros row; [done|]. simpl.
  destruct (row_effect c t k (Some row)) as [row'|] eqn:E.
  - by rewrite IH, (row_effect_key _ _ _ _ _ E).
  - exfalso. revert E. unfold row_effect. by repeat case_match.
Qed.

Lemma run_sql_ok s T : tables_ok T -> tables_ok (run_sql s T).
Proof.
  revert T. induction s as [|c s IH]; intros T HT; [done|].
  apply (IH (fun t k => row_effect c t k (T t k))). intros t k row Hr. pose proof (row_effect_key _ _ _ _ _ Hr) as Hk.
  destruct (T t k) as [row0|] eqn:E; [|done]. rewrite Hk. by apply HT.
Qed.

Lemma apply_mutation_ext L L' m t i :
  L t i = L' t i -> apply_mutation L m t i = apply_mutation L' m t i.
Proof. unfold apply_mutation. intros ->. done. Qed.

Lemma foldl_apply_ext ms L L' t i :
  L t i = L' t i -> foldl apply_mutation L ms t i = foldl apply_mutation L' ms t i.
Proof.
  revert L L'. induction ms as [|m ms IH]; intros L L' HL; simpl; [done|].
  apply IH. by apply apply_mutation_ext.
Qed.

(** C36. The statements mean the mutations, for the entities as the tables
    compare them: two addresses are one entity when they are equal, two user or
    device ids when they differ at most in the spaces at their end.  A batch of
    well-formed mutations always has statements (no address and no expiry is
    refused), and the blacklist that the tables hold after them, by entity and
    expiry in milliseconds, is the one obtained by applying the mutations in
    order: an upsert lists the entity with its expiry, a disable removes it, a
    clear removes everything.  A row stands at the place of its id, is never
    deleted and keeps the id it was inserted with. *)
Theorem mysql_batch_meaning ms T :
  Forall mutation_wf ms ->
  exists s, batch_statements ms = Some s
  /\ (forall t i, normalizeId t i = Some i ->
       listing (run_sql s T) t i = foldl apply_mutation (listing T) ms t i)
  /\ (tables_ok T -> tables_ok (run_sql s T))
  /\ (forall t k row, T t k = Some row -> row_key <$> run_sql s T t k = Some (row_key row)).
Proof.
  intros Hms. enough (exists s, batch_statements ms = Some s /\ forall t i, normalizeId t i = Some i ->
    listing (run_sql s T) t i = foldl apply_mutation (listing T) ms t i) as (s & Hs & Hl).
  { exists s. split_and!; [done|done|apply run_sql_ok|]. intros t k row. apply run_sql_keeps. }
  revert T. induction Hms as [|m ms Hm _ IH]; intros T; simpl.
  { by exists []. }
  destruct (mutation_meaning m T Hm) as (s1 & -> & H1). destruct (IH (run_sql s1 T)) as (s2 & -> & H2).
  exists (s1 ++ s2). split; [done|]. intros t i Hn.
  transitivity (listing (run_sql s2 (run_sql s1 T)) t i).
  - unfold listing, run_sql. destruct (key_parameter t i); [|done]. simpl. by rewrite foldl_app.
  - rewrite H2 by done. apply foldl_apply_ext. by apply H1.
Qed.
End Meaning.

Lemma sample_mutation_wf op t i e :
  op = Upsert \/ (op = Disable /\ e = 0) -> @normalizeId ReferenceInet.inet t i = Some i -> 0 <= e <= kMaxExpireAtMs ->
  @mutation_wf ReferenceInet.inet (mkMutation op (Some t) i (if bool_decide (op = Upsert) then "abuse" else "") e).
Proof.
  intros Hop Hi He. split; [|apply He]. destruct Hop as [->|[-> ->]]; exists t; split_and!; done || apply He.
Qed.

(** An address is cleared, a user is listed and listed for ever, a device is
    listed and disabled by an id with a space at its end. *)
Lemma mysql_batch_meaning_witness :
  let ms := [mkMutation Upsert (Some Ip) "192.0.2.1" "abuse" 1709210096789; clearAll;
             mkMutation Upsert (Some User) "alice" "abuse" 0;
             mkMutation Upsert (Some Device) "dev-1" "abuse" 7; mkMutation Disable (Some Device) "dev-1 " "" 0] in
  exists s, @batch_statements ReferenceInet.inet ms = Some s
  /\ @listing ReferenceInet.inet (run_sql s (fun _ _ => None)) User "alice" = Some 0
  /\ @listing ReferenceInet.inet (run_sql s (fun _ _ => None)) Ip "192.0.2.1" = None
  /\ @listing ReferenceInet.inet (run_sql s (fun _ _ => None)) Device "dev-1" = None.
Proof.
  intros ms.
  destruct (@mysql_batch_meaning ReferenceInet.inet ReferenceInet.inet_laws ms (fun _ _ => None))
    as (s & H1 & H2 & _ & _).
  { repeat (apply Forall_cons; split; [|]); [| | | | |apply Forall_nil_2].
    - apply (sample_mutation_wf Upsert); [by left|vm_compute; reflexivity|split; vm_compute; discriminate].
    - split; [reflexivity|vm_compute; discriminate].
    - apply (sample_mutation_wf Upsert); [by left|vm_compute; reflexivity|split; vm_compute; discriminate].
    - apply (sample_mutation_wf Upsert); [by left|vm_compute; reflexivity|split; vm_compute; discriminate].
    - apply (sample_mutation_wf Disable); [by right|vm_compute; reflexivity|split; vm_compute; discriminate]. }
  exists s. split; [exact H1|]. split_and!; rewrite H2 by reflexivity; vm_compute; reflexivity.
Defined.

(** Two users that the service tells apart are one row in MySQL: disabling the
    one removes the other, and an upsert of the second keeps the id of the
    first, which is what is loaded. *)
Lemma mysql_merges_padded_ids :
  let upsert i := mkMutation Upsert (Some User) i "abuse" 0 in
  let disable i := mkMutation Disable (Some User) i "" 0 in
  @mutation_wf ReferenceInet.inet (upsert "alice") /\ @mutation_wf ReferenceInet.inet (disable "alice ")
  /\ (exists s, @batch_statements ReferenceInet.inet [upsert "alice"; disable "alice "] = Some s
        /\ @listing ReferenceInet.inet (run_sql s (fun _ _ => None)) User "alice" = None)
  /\ exists s, @batch_statements ReferenceInet.inet [upsert "alice"; upsert "alice "] = Some s
        /\ row_key <$> run_sql s (fun _ _ => None) User (PString "alice") = Some (PString "alice").
Proof.
  split_and!.
  - apply (sample_mutation_wf Upsert); [by left|vm_compute; reflexivity|split; vm_compute; discriminate].
  - apply (sample_mutation_wf Disable); [by right|vm_compute; reflexivity|split; vm_compute; discriminate].
  - eexists. split; [vm_compute; reflexivity|]. vm_compute. reflexivity.
  - eexists. split; [vm_compute; reflexivity|]. vm_compute. reflexivity.
Qed.

(** ** Loading *)

(** Programs only consume answers. *)
Definition consumes {A} (m : Mysql A) : Prop := forall d, results (m d).1 `suffix_of` results d.

Lemma consumes_ret {A} (a : A) : consumes (mret a).
Proof. by intros d. Qed.

Lemma consumes_bind {A B} (m : Mysql A) (f : A -> Mysql B) :
  consumes m -> (forall a, consumes (f a)) -> consumes (m ≫= f).
Proof.
  intros Hm Hf d. unfold mbind, mysql_bind. specialize (Hm d). destruct (m d) as [d1 a].
  etransitivity; [apply (Hf a d1)|exact Hm].
Qed.

Lemma consumes_next_answer : consumes next_answer.
Proof. intros d. unfold next_answer. destruct (results d) eqn:E; simpl; [by rewrite E|by apply suffix_cons_r]. Qed.

Lemma consumes_deadlineReached deadline : consumes (deadlineReached deadline).
Proof. intros d. unfold deadlineReached. by destruct (clocks d). Qed.

Lemma consumes_fails : consumes fails.
Proof. apply consumes_bind; [apply consumes_next_answer|intros a; apply consumes_ret]. Qed.

Lemma consumes_or_else a b : consumes a -> consumes b -> consumes (a ||| b).
Proof. intros Ha Hb. apply consumes_bind; [done|]. intros []; [apply consumes_ret|done]. Qed.
#[export] Hint Resolve consumes_ret consumes_next_answer consumes_deadlineReached consumes_fails
  consumes_or_else : mysql.

Lemma consumes_prepare deadline : consumes (prepareStatement deadline).
Proof. apply consumes_bind; auto 10 with mysql. Qed.

(** The buffers of the caller hold bytes, and lengths are unsigned. *)
Definition buffer_ok (a : MysqlAnswer) : Prop :=
  Forall is_byte (key_buffer (fetched a)) /\ key_buffer (fetched a) <> []
  /\ 0 <= key_length (fetched a).

Section Load.
Context `{Inet, !InetLaws} (deadline : Z).

Lemma fromMysqlTime_max t ms : fromMysqlTime t = Some ms -> ms <= kMaxExpireAtMs.
Proof.
  unfold fromMysqlTime. case_if; [done|]. destruct (timegm _) as [s utc]. case_if; [done|].
  destruct (Z.ltb_spec ((kMaxExpireAtMs - second_part t / 1000) / 1000) s) as [|Hle]; [done|].
  intros [= <-]. pose proof (Z.mul_div_le (kMaxExpireAtMs - second_part t / 1000) 1000 ltac:(lia)). lia.
Qed.

Lemma fetched_expiry_max f e : fetched_expiry f = Some e -> e <= kMaxExpireAtMs.
Proof.
  unfold fetched_expiry. destruct (expiry_is_null f); [|apply fromMysqlTime_max].
  intros [= <-]. unfold kMaxExpireAtMs. lia.
Qed.

Lemma bytes_text_size bytes : str_size (bytes_text bytes) = size_of bytes.
Proof.
  unfold str_size, bytes_text, size_of. f_equal. induction bytes; simpl; [done|]. by f_equal.
Qed.

Lemma text_row_ok t status a e :
  t <> Ip -> buffer_ok a -> text_row t status (fetched a) = Some e -> rebuild_entry_ok e = true.
Proof.
  intros Ht (_ & Hne & Hl). unfold text_row. case_if; [done|]. destruct (containsNull _) eqn:En; [done|].
  destruct (fetched_expiry _) as [x|] eqn:Ex; [|done]. intros [= <-].
  apply fetched_expiry_max in Ex. unfold rebuild_entry_ok. cbn [type id expire_at_ms].
  set (i := bytes_text _) in *. assert (0 < str_size i <= kMaxEntityIdBytes) as Hi.
  { unfold i. rewrite bytes_text_size. unfold size_of. rewrite length_take.
    destruct (key_buffer (fetched a)); [done|]. simpl length. unfold kMaxEntityIdBytes in *. lia. }
  replace (match t with Ip => _ | _ => true end) with true by (by destruct t).
  rewrite En. rewrite bool_decide_eq_false_2 by (intros E; rewrite E in Hi; change (str_size "") with 0 in Hi; lia).
  destruct (Z.ltb_spec kMaxEntityIdBytes (str_size i)); [lia|].
  destruct (Z.ltb_spec kMaxExpireAtMs x); [lia|done].
Qed.

Lemma ip_row_ok status a e :
  buffer_ok a -> ip_row status (fetched a) = Some e -> rebuild_entry_ok e = true.
Proof.
  intros (Hb & Hne & Hl). unfold ip_row. case_if; [done|].
  destruct (fromBytes _) as [address|] eqn:Ea; [|done].
  destruct (fetched_expiry _) as [x|] eqn:Ex; [|done]. intros [= <-].
  apply fetched_expiry_max in Ex. pose proof Ea as Hlen. unfold fromBytes in Hlen.
  assert (let n := length (take (Z.to_nat (key_length (fetched a))) (key_buffer (fetched a))) in
          n = 4%nat \/ n = 16%nat) as Hn
    by (revert Hlen; case_if; [done|]; unfold size_of in *; lia).
  apply fromBytes_canonical in Ea; [|exact Hn|by apply Forall_take].
  pose proof (canonical_text_size _ Ea) as Hs. apply parse_text in Ea as Hp.
  unfold rebuild_entry_ok. cbn [type id expire_at_ms]. rewrite Hp, bool_decide_eq_true_2 by done.
  unfold parse in Hp. destruct (_ || _)%bool eqn:En in Hp; [done|]. apply orb_false_elim in En as [En1 En2].
  rewrite En1, En2. unfold str_size, kMaxEntityIdBytes.
  destruct (Z.ltb_spec 128 (Z.of_nat (String.length (canonicalText address)))); [lia|].
  destruct (Z.ltb_spec kMaxExpireAtMs x); [lia|done].
Qed.

(** The answers of [m] satisfy [P], and the remaining answers are still good. *)
Definition loads {A} (m : Mysql A) (P : A -> Prop) : Prop :=
  forall d, Forall buffer_ok (results d) -> P (m d).2 /\ Forall buffer_ok (results (m d).1).

Lemma loads_bind {A B} (m : Mysql A) (f : A -> Mysql B) P Q :
  loads m P -> (forall a, P a -> loads (f a) Q) -> loads (m ≫= f) Q.
Proof.
  intros Hm Hf d Hd. unfold mbind, mysql_bind. destruct (Hm d Hd) as [H1 H2].
  destruct (m d) as [d1 a]. by apply Hf.
Qed.

Lemma loads_ret {A} (a : A) (P : A -> Prop) : P a -> loads (mret a) P.
Proof. intros HP d Hd. by split. Qed.

Lemma loads_consumes {A} (m : Mysql A) : consumes m -> loads m (fun _ => True).
Proof.
  intros Hm d Hd. split; [done|]. destruct (Hm d) as [l Hl]. rewrite Hl in Hd.
  by apply Forall_app in Hd as [_ Hd].
Qed.

Lemma loads_next_answer : loads next_answer (fun a => code a <> 0 \/ buffer_ok a).
Proof.
  intros d Hd. unfold next_answer. destruct (results d) as [|a rest] eqn:E; simpl.
  - split; [by left|]. by rewrite E.
  - apply Forall_cons in Hd as [Ha Hd]. split; [by right|done].
Qed.

(** The rows that give entries give good ones. *)
Definition row_ok (row : Z -> Fetched -> option BlacklistEntry) : Prop :=
  forall a e, code a <> 0 \/ buffer_ok a -> row (code a) (fetched a) = Some e -> rebuild_entry_ok e = true.

Lemma text_rows_ok t : t <> Ip -> row_ok (text_row t).
Proof.
  intros Ht a e [Hc|Ha]; [|by apply text_row_ok]. unfold text_row.
  by rewrite (proj2 (Z.eqb_neq _ _) Hc).
Qed.

Lemma ip_rows_ok : row_ok ip_row.
Proof.
  intros a e [Hc|Ha]; [|by apply ip_row_ok]. unfold ip_row. by rewrite (proj2 (Z.eqb_neq _ _) Hc).
Qed.

Definition entries_ok (es : option (list BlacklistEntry)) : Prop :=
  match es with Some es => forallb rebuild_entry_ok es = true | None => True end.

Lemma fetch_loop_loads fuel row entries :
  row_ok row -> entries_ok (Some entries) -> loads (fetch_loop deadline fuel row entries) entries_ok.
Proof.
  intros Hr. revert entries. induction fuel as [|fuel IH]; intros entries He; [by apply loads_ret|].
  eapply loads_bind; [apply loads_consumes; auto with mysql|]. intros [] _; [by apply loads_ret|].
  eapply loads_bind; [apply loads_next_answer|]. intros a Ha.
  eapply loads_bind; [apply loads_consumes; auto with mysql|]. intros [] _; [by apply loads_ret|].
  case_match; [by apply loads_ret|]. destruct (row (code a) (fetched a)) as [e|] eqn:Ee; [|by apply loads_ret].
  apply IH. simpl. rewrite forallb_app. simpl. simpl in He. by rewrite He, (Hr a e Ha Ee).
Qed.

Lemma append_entries_loads row entries :
  row_ok row -> entries_ok (Some entries) -> loads (append_entries deadline row entries) entries_ok.
Proof.
  intros Hr He. eapply loads_bind; [apply loads_consumes, consumes_prepare|]. intros p _.
  case_match; [by apply loads_ret|].
  eapply loads_bind; [apply loads_consumes; auto 10 with mysql|]. intros [] _; [by apply loads_ret|].
  eapply loads_bind; [apply loads_consumes; auto 10 with mysql|]. intros [] _; [by apply loads_ret|].
  apply (loads_bind _ _ (fun _ => True)); [by intros d Hd|]. intros fuel _. by apply fetch_loop_loads.
Qed.

(** The fetch loops end: a client without answers ends them with an error, so
    more fuel than answers changes nothing. *)
Lemma fetch_loop_fuel fuel fuel' row entries d :
  (forall status f, status <> 0 -> row status f = None) ->
  (length (results d) < fuel)%nat -> (length (results d) < fuel')%nat ->
  fetch_loop deadline fuel row entries d = fetch_loop deadline fuel' row entries d.
Proof.
  intros Hr. revert fuel' entries d.
  induction fuel as [|fuel IH]; intros [|fuel'] entries d Hf Hf'; [lia..|]. simpl.
  unfold mbind, mysql_bind. pose proof (consumes_deadlineReached deadline d) as H1.
  destruct (deadlineReached deadline d) as [d1 []]; [done|]. apply suffix_length in H1. simpl in H1.
  unfold next_answer. destruct (results d1) as [|a rest] eqn:E.
  - destruct (deadlineReached deadline d1) as [d2 []]; [done|]. simpl. by rewrite Hr.
  - pose proof (consumes_deadlineReached deadline (d1 <| results := rest |>)) as H2.
    apply suffix_length in H2. destruct (deadlineReached deadline (d1 <| results := rest |>)) as [d2 []];
      [done|]. simpl in H1, H2. case_match; [done|]. case_match; [|done]. apply IH; lia.
Qed.

(** The promise of the whole load, on its answer and the object it leaves. *)
Definition load_promise (entries : list BlacklistEntry) (d : MysqlDao) : Prop :=
  forallb rebuild_entry_ok entries = true /\ (last_blacklist_load_succeeded d = false -> entries = []).

Definition promises (m : Mysql (list BlacklistEntry)) : Prop :=
  forall d, Forall buffer_ok (results d) -> load_promise (m d).2 (m d).1.

Lemma promises_nothing : promises (mret []).
Proof. by intros d _. Qed.

Lemma promises_bind {A} (m : Mysql A) f P :
  loads m P -> (forall a, P a -> promises (f a)) -> promises (m ≫= f).
Proof.
  intros Hm Hf d Hd. unfold mbind, mysql_bind. destruct (Hm d Hd) as [H1 H2].
  destruct (m d) as [d1 a]. by apply Hf.
Qed.

Lemma promises_late m : promises m -> promises (late ← deadlineReached deadline; if (late : bool) then mret [] else m).
Proof.
  intros Hm. eapply promises_bind; [apply loads_consumes; auto with mysql|].
  intros [] _; [apply promises_nothing|done].
Qed.

Lemma promises_entries row entries f :
  row_ok row -> entries_ok (Some entries) ->
  (forall es, entries_ok (Some es) -> promises (f es)) ->
  promises (r ← append_entries deadline row entries;
            match r with None => mret [] | Some es => f es end).
Proof.
  intros Hr He Hf. eapply promises_bind; [by apply append_entries_loads|].
  intros [es|] Hes; [by apply Hf|apply promises_nothing].
Qed.

(** What the start-up reads from MySQL it can write to Redis: every entry
    that [loadEnabledBlacklists] returns passes the checks that
    [rebuildFromMysql] makes before its transaction (a non-empty id of at most
    128 bytes without a null character, a canonical address, an expiry before
    the year 10000); and when the load is not reported successful it returns
    nothing. *)
Theorem mysql_load_feeds_rebuild d :
  Forall buffer_ok (results d) ->
  let '(d', entries) := loadEnabledBlacklists deadline d in
  forallb rebuild_entry_ok entries = true
  /\ (last_blacklist_load_succeeded d' = false -> entries = []).
Proof.
  intros Hd. assert (promises (loadEnabledBlacklists deadline)) as Hp.
  2: { specialize (Hp d Hd). by destruct (loadEnabledBlacklists deadline d). }
  apply (promises_bind _ _ (fun _ => True)); [by intros d' Hd'|]. intros _ _.
  apply (promises_bind _ _ (fun _ => True)); [by intros d' Hd'|]. intros connected _.
  case_match; [apply promises_nothing|]. apply promises_late.
  apply promises_entries; [by apply text_rows_ok|done|]. intros es1 He1.
  apply promises_entries; [by apply ip_rows_ok|done|]. intros es2 He2.
  apply promises_entries; [by apply text_rows_ok|done|]. intros es3 He3.
  apply promises_late. intros d' _. by split.
Qed.
End Load.

Lemma mysql_load_feeds_rebuild_witness :
  let ok := mkMysqlAnswer 0 (mkFetched [97; 98] 2 false false zero_time true false) [] in
  let ip := mkMysqlAnswer 0 (mkFetched [192; 0; 2; 1] 4 false false zero_time true false) [] in
  let no_data := mkMysqlAnswer MYSQL_NO_DATA (mkFetched [0] 0 false false zero_time false false) [] in
  let d := mkDao (mkMysql "h" 3306 "u" "p" "d" "" 3 3 3) true false false (replicate 60 0)
             (replicate 6 ok ++ [no_data] ++ replicate 5 ok ++ [ip; no_data]
              ++ replicate 5 ok ++ [no_data]) [] 1 in
  let '(d', entries) := @loadEnabledBlacklists ReferenceInet.inet 1 d in
  entries = [mkEntry User "ab" 0; mkEntry Ip "192.0.2.1" 0]
  /\ forallb (@rebuild_entry_ok ReferenceInet.inet) entries = true.
Proof.
  intros ok ip no_data d.
  pose proof (@mysql_load_feeds_rebuild ReferenceInet.inet ReferenceInet.inet_laws 1 d) as Hl.
  assert ((@loadEnabledBlacklists ReferenceInet.inet 1 d).2
          = [mkEntry User "ab" 0; mkEntry Ip "192.0.2.1" 0]) as He by (vm_compute; reflexivity).
  destruct (loadEnabledBlacklists 1 d) as [d' entries]. simpl in He.
  split; [exact He|]. apply Hl. simpl. repeat constructor; try done; simpl; lia.
Defined.

(** ** Connecting *)

(** Programs that neither open nor close a handle. *)
Definition framed {A} (m : Mysql A) : Prop :=
  forall d, connection (m d).1 = connection d /\ handles (m d).1 = handles d.

Lemma framed_ret {A} (a : A) : framed (mret a).
Proof. by intros d. Qed.

Lemma framed_bind {A B} (m : Mysql A) (f : A -> Mysql B) :
  framed m -> (forall a, framed (f a)) -> framed (m ≫= f).
Proof.
  intros Hm Hf d. unfold mbind, mysql_bind. destruct (Hm d) as [H1 H2]. destruct (m d) as [d1 a].
  destruct (Hf a d1) as [H3 H4]. simpl in *. split; congruence.
Qed.

Lemma framed_fails : framed fails.
Proof.
  apply framed_bind; [|intros a; apply framed_ret]. intros d. unfold next_answer. by destruct (results d).
Qed.

Lemma framed_deadlineReached deadline : framed (deadlineReached deadline).
Proof. intros d. unfold deadlineReached. by destruct (clocks d). Qed.

Lemma framed_read_clock deadline : framed (read_clock deadline).
Proof. intros d. unfold read_clock. by destruct (clocks d). Qed.

Lemma framed_or_else a b : framed a -> framed b -> framed (a ||| b).
Proof. intros Ha Hb. apply framed_bind; [done|]. intros []; [apply framed_ret|done]. Qed.
#[export] Hint Resolve framed_ret framed_fails framed_deadlineReached framed_read_clock
  framed_or_else : mysql.

(** The postcondition of a program on the connection and the handles. *)
Definition leaves {A} (c : bool) (h : Z) (m : Mysql A) (Q : A -> bool -> Z -> Prop) : Prop :=
  forall d, connection d = c -> handles d = h -> Q (m d).2 (connection (m d).1) (handles (m d).1).

Lemma leaves_framed {A B} c h (m : Mysql A) (f : A -> Mysql B) Q :
  framed m -> (forall a, leaves c h (f a) Q) -> leaves c h (m ≫= f) Q.
Proof.
  intros Hm Hf d Hc Hh. unfold mbind, mysql_bind. destruct (Hm d) as [H1 H2]. destruct (m d) as [d1 a].
  simpl in *. apply Hf; congruence.
Qed.

Lemma leaves_bind {A B} c h (m : Mysql A) (f : A -> Mysql B) P Q :
  leaves c h m P -> (forall a c h, P a c h -> leaves c h (f a) Q) -> leaves c h (m ≫= f) Q.
Proof.
  intros Hm Hf d Hc Hh. unfold mbind, mysql_bind. specialize (Hm d Hc Hh). destruct (m d) as [d1 a].
  by eapply Hf.
Qed.

Lemma leaves_ret {A} c h (a : A) (Q : A -> bool -> Z -> Prop) : Q a c h -> leaves c h (mret a) Q.
Proof. by intros HQ d <- <-. Qed.

Lemma framed_get_config : framed get_config.
Proof. by intros d. Qed.
#[export] Hint Resolve framed_get_config : mysql.

Lemma silent_connect deadline : silent (connect deadline).
Proof.
  assert (silent close) as Hc.
  { apply silent_step. intros d. unfold close. by destruct (connection d). }
  assert (silent (read_clock deadline)) as Hr.
  { apply silent_step. intros d. unfold read_clock. by destruct (clocks d). }
  assert (silent open_handle) as Ho.
  { apply silent_bind; [auto with mysql|]. intros []; [auto with mysql|].
    apply silent_bind; [by apply silent_step|auto with mysql]. }
  assert (forall b : bool, silent (_ ← close_handle; mret b)) as Hh
    by (intros b; apply silent_bind; [by apply silent_step|auto with mysql]).
  assert (forall b : bool, silent (_ ← close; mret b)) as Hb
    by (intros b; apply silent_bind; [done|auto with mysql]).
  unfold connect. apply silent_bind; [done|]. intros _. apply silent_bind; [by apply silent_step|].
  intros config. do 3 (apply silent_bind; [done|]; intros ?).
  do 3 (destruct (timeoutWithinDeadline _ _ _); [|auto with mysql]).
  apply silent_bind; [done|]. intros opened. case_match; [auto with mysql|].
  apply silent_bind; [auto 10 with mysql|]. intros []; [done|].
  apply silent_bind; [auto with mysql|]. intros []; [done|].
  apply silent_bind; [by apply silent_step|]. intros _.
  apply silent_bind; [auto with mysql|]. intros []; [done|].
  apply silent_bind; [repeat apply silent_or_else; try case_match; auto with mysql|].
  intros []; auto with mysql.
Qed.

(** [connect] never leaks a handle of the client: whatever fails on the
    way, exactly one handle is open after it when it answers true, and none
    when it answers false, the earlier connection of the object included. *)
Theorem mysql_connect_owns_handle deadline d :
  handles d = (if connection d then 1 else 0) ->
  let '(d', ok) := connect deadline d in
  connection d' = ok /\ handles d' = (if ok then 1 else 0).
Proof.
  intros Hh. set (Q := fun (ok : bool) c h => c = ok /\ h = if ok then 1 else 0).
  enough (forall (c : bool) h, h = (if c then 1 else 0) -> leaves c h (connect deadline) Q) as Hl.
  { specialize (Hl _ _ Hh d eq_refl eq_refl). by destruct (connect deadline d). }
  clear d Hh. intros c h Hh. unfold connect.
  apply (leaves_bind _ _ _ _ (fun _ c h => c = false /\ h = 0)).
  { intros d Hc Hd. unfold close. simpl. rewrite Hc. by destruct c; simpl; [split; [|lia]|rewrite Hc, Hd]. }
  clear c h Hh. intros [] c h [-> ->].
  do 4 (apply leaves_framed; [auto with mysql|]; intros ?).
  do 3 (destruct (timeoutWithinDeadline _ _ _); [|by apply leaves_ret]).
  apply (leaves_bind _ _ _ _ (fun opened c h => c = false /\ h = if opened : bool then 1 else 0)).
  { apply leaves_framed; [auto with mysql|]. intros []; [by apply leaves_ret|].
    intros d Hc Hd. simpl. split; [done|lia]. }
  intros opened c h [-> ->]. destruct opened; [|by apply leaves_ret]. simpl.
  apply leaves_framed; [auto 10 with mysql|]. intros [].
  { intros d Hc Hd. simpl. split; [done|lia]. }
  apply leaves_framed; [auto with mysql|]. intros [].
  { intros d Hc Hd. simpl. split; [done|lia]. }
  apply (leaves_bind _ _ _ _ (fun _ c h => c = true /\ h = 1)); [by intros d Hc Hd|].
  intros [] c h [-> ->]. apply leaves_framed; [auto with mysql|]. intros [].
  { intros d Hc Hd. unfold mbind, mysql_bind, close. simpl. rewrite Hc. simpl. split; [done|lia]. }
  apply leaves_framed; [repeat apply framed_or_else; try case_match; auto with mysql|]. intros [].
  { intros d Hc Hd. unfold mbind, mysql_bind, close. simpl. rewrite Hc. simpl. split; [done|lia]. }
  by apply leaves_ret.
Qed.

Lemma mysql_connect_owns_handle_witness :
  let d := mkDao (mkMysql "h" 3306 "u" "p" "d" "utf8mb4" 3 3 3) true true true (replicate 20 0)
             (replicate 6 (mkMysqlAnswer 0 zero_fetched [])) [] 1 in
  (connect 1 d).2 = false /\ handles (connect 1 d).1 = 0.
Proof.
  intros d. pose proof (mysql_connect_owns_handle 1 d eq_refl) as Hc.
  assert ((connect 1 d).2 = false) as Hf by (vm_compute; reflexivity).
  destruct (connect 1 d) as [d' ok]. simpl in *. subst ok. split; [reflexivity|]. apply Hc.
Defined.
