(* ===== verification/MaintenanceBackend.v ===== *)
(** * MaintenanceBackend: the stores of one maintenance worker

    Model of [app/blacklist_maintenance_backend.cpp]: lazy connection to Redis
    and MySQL, the commands of a round, and the rule that drops a connection
    whose state cannot be proved.  The connections that will be opened are the
    environment: [opens] for Redis, [daos] for MySQL. *)

From S2P Require Import Prelude Text IpAddress Blacklist RedisConnection RedisStore MysqlDao.
Open Scope Z_scope.

Definition dropsRedisConnection (status : StoreStatus.t) : bool :=
  match status with
  | StoreStatus.IoError | StoreStatus.CommitUnknown | StoreStatus.DeadlineExceeded
  | StoreStatus.ProtocolError => true
  | _ => false
  end.

Definition storeIoError : StoreResult := mkStoreResult StoreStatus.IoError None.
Definition snapshotIoError : SnapshotReadResult := mkSnapshotRead StoreStatus.IoError 0 [].
Definition pendingIoError : PendingReadResult := mkPendingRead StoreStatus.IoError [].
Definition resetIoError : ResetReadResult := mkResetRead StoreStatus.IoError (mkBarrier 0 0).

(** One attempt to open a connection: the two readings of the clock and what
    hiredis opens. *)
Record RedisOpening := mkOpening { now1 : Z; now2 : Z; opened : option (list HiredisAnswer) }.

Record Backend := mkBackend {
  redis_config_ : RedisConfig;
  mysql_config_ : MysqlConfig;
  keys_ : RedisKeySet;
  redis_store_ : option RedisConnection;   (* the connection and the store on it *)
  mysql_ : option MysqlDao;
  opens : list RedisOpening;
  daos : list (list Z * list MysqlAnswer); (* the clock and the client of the next object *)
  archived : list (list string);           (* executed on connections now closed *)
  archived_sql : list SqlCall;             (* committed by objects now destroyed *)
}.

Definition createBackend (redis : RedisConfig) (mysql : MysqlConfig) (opens : list RedisOpening)
    (daos : list (list Z * list MysqlAnswer)) : Backend :=
  mkBackend redis mysql (fromPrefix (redis_key_prefix redis)) None None opens daos [] [].

Definition ensureRedis (deadline : Z) (b : Backend) : Backend * bool :=
  match redis_store_ b with
  | Some _ => (b, true)
  | None =>
      match opens b with
      | [] => (b, false)
      | o :: rest =>
          let b := b <| opens := rest |> in
          match RedisConnection.connect (redis_config_ b) deadline (now1 o) (now2 o) (opened o) with
          | None => (b, false)
          | Some c => (b <| redis_store_ := Some c |>, true)
          end
      end
  end.

(** Closing the connection: what it has executed stays executed. *)
Definition close_redis (b : Backend) : Backend :=
  match redis_store_ b with
  | None => b
  | Some c => b <| redis_store_ := None |> <| archived := archived b ++ executed (session_of c) |>
  end.

Definition observe (status : StoreStatus.t) (b : Backend) : Backend :=
  if negb (dropsRedisConnection status) then b else close_redis b.

(** The shape of the nine Redis commands. *)
Definition with_redis {A} (io_error : A) (status_of : A -> StoreStatus.t) (deadline : Z)
    (operation : RedisKeySet -> Redis A) (b : Backend) : Backend * A :=
  let '(b, ready) := ensureRedis deadline b in
  if negb ready then (b, io_error)
  else
    match redis_store_ b with
    | None => (b, io_error)   (* [ensureRedis] answered true *)
    | Some c =>
        let '(c, result) := operation (keys_ b) c in
        (observe (status_of result) (b <| redis_store_ := Some c |>), result)
    end.

Section Commands.
Context `{Inet} (deadline : Z).

Definition backend_applyCandidates (mutations : list BlacklistMutation) : Backend -> Backend * StoreResult :=
  with_redis storeIoError store_status deadline (fun k => applyMutations k deadline mutations).

Definition backend_readRevision : Backend -> Backend * StoreResult :=
  with_redis storeIoError store_status deadline (fun k => readRevision k deadline).

Definition backend_loadStableSnapshot (scan_count : Z) : Backend -> Backend * SnapshotReadResult :=
  with_redis snapshotIoError snapshot_status deadline
    (fun k => loadStableSnapshot k deadline scan_count).

Definition backend_removeExpiredFields (entries : list BlacklistEntry) (expected_revision now_ms : Z)
    : Backend -> Backend * StoreResult :=
  with_redis storeIoError store_status deadline
    (fun k => removeExpiredFields k deadline entries expected_revision now_ms).

Definition backend_setPublishedRevision (revision : Z) : Backend -> Backend * StoreStatus.t :=
  with_redis StoreStatus.IoError (fun s => s) deadline (fun k => setPublishedRevision k deadline revision).

Definition backend_readPending (count : Z) : Backend -> Backend * PendingReadResult :=
  with_redis pendingIoError pending_status deadline (fun k => readPending k deadline count).

Definition backend_deletePending (stream_ids : list string) : Backend -> Backend * StoreStatus.t :=
  with_redis StoreStatus.IoError (fun s => s) deadline (fun k => deletePending k deadline stream_ids).

Definition backend_readResetBarrier : Backend -> Backend * ResetReadResult :=
  with_redis resetIoError reset_status deadline (fun k => readResetBarrier k deadline).

Definition backend_completeResetBarrier (token : Z) : Backend -> Backend * StoreStatus.t :=
  with_redis StoreStatus.IoError (fun s => s) deadline (fun k => completeResetBarrier k deadline token).

(** A fresh object that has not connected is destroyed with nothing done. *)
Definition ensureMysql (b : Backend) : Backend * bool :=
  match mysql_ b with
  | Some _ => (b, true)
  | None =>
      match daos b with
      | [] => (b, false)
      | (clocks, results) :: rest =>
          let candidate := mkDao (mysql_config_ b) false false false clocks results [] 0 in
          let '(candidate, connected) := MysqlDao.connect deadline candidate in
          let b := b <| daos := rest |> in
          if negb connected then (b, false) else (b <| mysql_ := Some candidate |>, true)
      end
  end.

Definition backend_applyMysqlMutations (mutations : list BlacklistMutation) (b : Backend)
    : Backend * bool :=
  let '(b, ready) := ensureMysql b in
  if negb ready then (b, false)
  else
    match mysql_ b with
    | None => (b, false)   (* [ensureMysql] answered true *)
    | Some d =>
        let '(d, applied) := applyBlacklistMutations deadline mutations d in
        if applied then (b <| mysql_ := Some d |>, true)
        else (b <| mysql_ := None |> <| archived_sql := archived_sql b ++ committed (sql_of d) |>, false)
    end.
End Commands.

(** ** A kept connection is usable *)

Definition live (c : RedisConnection) : Prop := context_ c = true /\ lost c = None.

(** The status says that the connection is kept only when it is alive. *)
Definition kept (status : StoreStatus.t) (c : RedisConnection) : Prop :=
  dropsRedisConnection status = false -> live c.

Lemma kept_dropped status c : dropsRedisConnection status = true -> kept status c.
Proof. unfold kept. congruence. Qed.

Lemma kept_ok c : kept StoreStatus.Ok c -> live c.
Proof. intros Hk. by apply Hk. Qed.

Lemma live_kept status c : live c -> kept status c.
Proof. by intros Hl _. Qed.

Lemma kept_run deadline argv :
  triple live (run deadline argv) (fun r => kept (commandStatus r)).
Proof.
  intros c [H1 H2]. unfold run. pose proof (command_cases c argv deadline) as Hc.
  destruct (command c argv deadline) as [c' r]. simpl.
  destruct Hc as [a rest v Ha Hb|a rest Ha Hb|rest status l Hst Ha Hl|Ha]; intros Hd.
  - by split.
  - done.
  - destruct Hst as [->| ->]; done.
  - done.
Qed.

(** The test that follows every step. *)
Lemma kept_branch {A} status (bad good : Redis A) Q :
  triple (kept status) bad Q -> triple live good Q ->
  triple (kept status) (if failed status then bad else good) Q.
Proof.
  intros Hb Hg. destruct (failed status) eqn:E; [done|]. apply failed_false in E. subst.
  intros c Hc. by apply Hg, kept_ok.
Qed.

(** An answer computed from a status that is passed on when it is a failure. *)
Lemma kept_answer {A} status (bad good : A) (st : A -> StoreStatus.t) :
  st bad = status ->
  triple (kept status) (mret (if failed status then bad else good)) (fun a => kept (st a)).
Proof.
  intros Hst. apply triple_ret. intros c Hk. destruct (failed status) eqn:E; [by rewrite Hst|].
  apply failed_false in E. subst status. rewrite E in Hk. by apply live_kept, kept_ok.
Qed.

(** Goes through a program that reads. *)
Ltac solve_kept :=
  repeat match goal with
  | |- triple (kept ?s) (mret (if failed ?s then _ else _)) _ => apply kept_answer; reflexivity
  | |- triple _ (mret _) _ =>
      apply triple_ret; intros ? ?; simpl; first [assumption | by apply live_kept | by apply kept_dropped]
  | |- triple live (run _ _ ≫= _) _ => eapply triple_bind; [apply kept_run|intros ?; cbv beta zeta]
  | |- triple live (_ ≫= _) _ => eapply triple_bind; [solve [eauto with redis]|intros ?; cbv beta zeta]
  | |- triple (kept ?s) (if failed ?s then _ else _) _ => apply kept_branch
  | |- triple _ (if ?b then _ else _) _ => destruct b
  | |- triple _ (match ?x with _ => _ end) _ => destruct x
  end; auto with redis.

Section Kept.
Context `{Inet} (keys : RedisKeySet) (deadline : Z).

Lemma kept_ensureType key expected none :
  triple live (ensureType deadline key expected none) kept.
Proof. unfold ensureType. solve_kept. Qed.
Hint Resolve kept_ensureType : redis.

Lemma kept_ensure_types checks : triple live (ensure_types deadline checks) kept.
Proof. induction checks as [|[[key expected] none] checks IH]; simpl; solve_kept. Qed.
Hint Resolve kept_ensure_types : redis.

Lemma kept_readWatched hashes :
  triple live (readWatchedReadyRevision keys deadline hashes) (fun r => kept r.1).
Proof. unfold readWatchedReadyRevision. solve_kept. Qed.
Hint Resolve kept_readWatched : redis.

Lemma kept_readRevision : triple live (readRevision keys deadline) (fun r => kept (store_status r)).
Proof. unfold readRevision. solve_kept. Qed.
Hint Resolve kept_readRevision : redis.

Lemma kept_readPending count :
  triple live (readPending keys deadline count) (fun r => kept (pending_status r)).
Proof. unfold readPending. solve_kept. Qed.

Lemma kept_readResetBarrier : triple live (readResetBarrier keys deadline) (fun r => kept (reset_status r)).
Proof. unfold readResetBarrier. solve_kept. Qed.
Hint Resolve kept_readResetBarrier : redis.

Lemma kept_deletePending ids : triple live (deletePending keys deadline ids) kept.
Proof. unfold deletePending. destruct ids; solve_kept. Qed.

Lemma kept_parseHashScan r t cursor entries :
  (failed (commandStatus r) = false \/ (parseHashScan r t cursor entries).1.1 = commandStatus r).
Proof. unfold parseHashScan. destruct (failed (commandStatus r)); auto. Qed.

Lemma kept_scan_loop fuel n t key cursor entries :
  triple live (scan_loop deadline fuel n t key cursor entries) (fun r => kept r.1).
Proof.
  revert cursor entries. induction fuel as [|fuel IH]; intros cursor entries; simpl; [solve_kept|].
  apply (triple_bind _ _ _ (fun _ => live)); [by intros c|]. intros now. case_match; [solve_kept|].
  eapply triple_bind; [apply kept_run|]. intros r. cbv beta zeta.
  pose proof (kept_parseHashScan r t cursor entries) as Hp.
  destruct (parseHashScan r t cursor entries) as [[st next] es]. simpl in Hp.
  destruct Hp as [Hp|<-].
  - apply failed_false in Hp. rewrite Hp. apply (triple_weaken _ live _ _ (fun r => kept r.1)); [|apply kept_ok|done].
    solve_kept.
  - apply kept_branch; solve_kept.
Qed.
Hint Resolve kept_scan_loop : redis.

Lemma kept_scan_hashes fuel n hashes entries :
  triple live (scan_hashes deadline fuel n hashes entries) (fun r => kept r.1).
Proof.
  revert entries. induction hashes as [|[t key] hashes IH]; intros entries; simpl; [solve_kept|].
  eapply triple_bind; [apply kept_scan_loop|]. intros [st es]. simpl. apply kept_branch; solve_kept.
Qed.

Lemma kept_loadStableSnapshot n :
  triple live (loadStableSnapshot keys deadline n) (fun r => kept (snapshot_status r)).
Proof.
  unfold loadStableSnapshot. case_match; [solve_kept|].
  eapply triple_bind; [apply kept_readRevision|]. intros [st rev]. cbn [store_status store_revision].
  destruct st; try (destruct rev; solve_kept; fail). destruct rev as [r|]; [|solve_kept].
  apply (triple_weaken _ live _ _ (fun r => kept (snapshot_status r))); [|apply kept_ok|done].
  apply (triple_bind _ _ _ (fun _ => live)); [by intros c|]. intros fuel.
  eapply triple_bind; [apply kept_scan_hashes|]. intros [st es]. cbn [fst].
  apply kept_branch; [solve_kept|]. eapply triple_bind; [apply kept_readRevision|]. intros [st' rev'].
  simpl. destruct st', rev'; solve_kept.
Qed.

Lemma kept_check_fields key group now : triple live (check_fields deadline key group now) kept.
Proof. induction group as [|[i e] group IH]; simpl; solve_kept. Qed.
Hint Resolve kept_check_fields : redis.

Lemma kept_check_groups groups now : triple live (check_groups deadline groups now) kept.
Proof. induction groups as [|[k g] groups IH]; simpl; solve_kept. Qed.
Hint Resolve kept_check_groups : redis.

Lemma kept_check_expired groups r now : triple live (check_expired keys deadline groups r now) kept.
Proof. unfold check_expired. solve_kept. Qed.

(** *** Transactions *)

(** Every failure of the simple commands drops the connection. *)
Definition sound (st : StoreStatus.t) (c : RedisConnection) : Prop :=
  kept st c /\ (st <> StoreStatus.Ok -> dropsRedisConnection st = true).

Lemma run_sound argv (good : RedisCommandResult -> bool) :
  triple live
    (result ← run deadline argv; let status := commandStatus result in
     mret (if failed status then status
           else if good result then StoreStatus.Ok else StoreStatus.ProtocolError)) sound.
Proof.
  eapply triple_bind; [apply kept_run|]. intros r. cbv beta zeta. apply triple_ret. intros c Hk.
  destruct (failed (commandStatus r)) eqn:Ef.
  - split; [done|]. intros _. apply failed_true in Ef. unfold commandStatus in *.
    by destruct (cmd_status r).
  - apply failed_false in Ef. rewrite Ef in Hk. apply kept_ok in Hk.
    destruct (good r); split; try done; by intros _.
Qed.

Lemma leave_kept (m : Redis StoreStatus.t) original :
  triple live m sound ->
  triple live (cleaned ← m; if failed cleaned then _ ← drop_connection; mret cleaned else mret original)
    kept.
Proof.
  intros Hm. eapply triple_bind; [exact Hm|]. intros cleaned. destruct (failed cleaned) eqn:Ef.
  - apply failed_true in Ef. apply triple_drop. intros c [_ Hd]. by apply kept_dropped, Hd.
  - apply failed_false in Ef. apply triple_ret. intros c [Hk _]. subst. by apply live_kept, kept_ok.
Qed.

Lemma kept_leaveWatch original : triple live (leaveWatch deadline original) kept.
Proof. apply leave_kept, (run_sound _ (fun r => statusIs r "OK")). Qed.

Lemma kept_leaveTransaction original : triple live (leaveTransaction deadline original) kept.
Proof. apply leave_kept, (run_sound _ (fun r => statusIs r "OK")). Qed.

(** Leaving after a failure that drops the connection answers one that does. *)
Lemma dropped_leave name original :
  dropsRedisConnection original = true ->
  triple (fun _ => True)
    (cleaned ← (result ← run deadline [name]; let status := commandStatus result in
                mret (if failed status then status
                      else if statusIs result "OK" then StoreStatus.Ok else StoreStatus.ProtocolError));
     if failed cleaned then _ ← drop_connection; mret cleaned else mret original)
    (fun st _ => dropsRedisConnection st = true).
Proof.
  intros Ho c _. unfold mbind, redis_bind.
  destruct (run deadline [name] c) as [c1 r]. simpl.
  destruct (failed (commandStatus r)) eqn:Ef; simpl.
  - rewrite Ef. simpl. apply failed_true in Ef. unfold commandStatus in *. by destruct (cmd_status r).
  - destruct (statusIs r "OK"); simpl; done.
Qed.

Lemma dropped_leaveTransaction original :
  dropsRedisConnection original = true ->
  triple (fun _ => True) (leaveTransaction deadline original) (fun st _ => dropsRedisConnection st = true).
Proof. apply dropped_leave. Qed.

Lemma kept_watch watched : triple live (watch deadline watched) kept.
Proof.
  unfold watch. eapply triple_bind; [apply kept_run|]. intros r. cbv beta zeta.
  apply kept_branch; [solve_kept|]. case_match; [|solve_kept]. apply triple_drop. intros c Hl.
  by apply kept_dropped.
Qed.

Lemma kept_queue_all commands : triple live (queue_all deadline commands) kept.
Proof.
  induction commands as [|argv rest IH]; simpl; [solve_kept|].
  eapply triple_bind; [exact (run_sound argv (fun r => statusIs r "QUEUED"))|]. intros queued.
  destruct (failed queued) eqn:Ef.
  - apply failed_true in Ef. intros c [_ Hd]. specialize (Hd Ef).
    by apply kept_dropped, dropped_leaveTransaction.
  - apply failed_false in Ef. intros c [Hk _]. subst. by apply IH, kept_ok.
Qed.

Lemma kept_transaction commands : triple live (transaction deadline commands) (fun r => kept r.1).
Proof.
  unfold transaction. eapply triple_bind; [apply kept_run|]. intros multi. cbv beta zeta.
  destruct (failed (commandStatus multi) || negb (statusIs multi "OK"))%bool eqn:Ef.
  - set (o := if failed (commandStatus multi) then _ else _).
    assert (dropsRedisConnection o = true) as Ho.
    { unfold o. destruct (failed (commandStatus multi)) eqn:E; [|done]. apply failed_true in E.
      unfold commandStatus in *. by destruct (cmd_status multi). }
    apply (triple_weaken _ (fun _ => True) _ _ (fun r => kept r.1)); [|done|done].
    eapply triple_bind; [by apply dropped_leaveTransaction|]. intros st. apply triple_ret.
    intros c Hd. by apply kept_dropped.
  - apply orb_false_elim in Ef as [Ef _]. apply failed_false in Ef. rewrite Ef.
    apply (triple_weaken _ live _ _ (fun r => kept r.1)); [|apply kept_ok|done].
    eapply triple_bind; [apply kept_queue_all|]. intros queued. apply kept_branch; [solve_kept|].
    eapply triple_bind; [apply kept_run|]. intros executed. cbv beta. unfold checkedExecStatus.
    apply (triple_bind _ _ _ kept).
    + destruct (bool_decide _) eqn:Eb; bool_to_prop.
      * apply triple_ret. intros c Hk. apply live_kept, kept_ok. revert Hk. unfold commandStatus.
        by rewrite Eb.
      * apply triple_drop. intros c _. apply kept_dropped. unfold execBaseStatus.
        by destruct (cmd_status executed).
    + intros st. by apply triple_ret.
Qed.

Lemma kept_committed {A} (st : A -> StoreStatus.t) (fail : StoreStatus.t -> A) commands k :
  (forall s, st (fail s) = s) ->
  (forall replies, exists a, forall c, k replies c = (c, a)) ->
  triple live ('(status, replies) ← transaction deadline commands;
               if failed status then mret (fail status) else k replies) (fun a => kept (st a)).
Proof.
  intros Hf Hk. eapply triple_bind; [apply kept_transaction|]. intros [status replies]. cbn [fst].
  apply kept_branch.
  - apply triple_ret. intros c Hc. by rewrite Hf.
  - intros c Hc. destruct (Hk replies) as (a & ->). by apply live_kept.
Qed.

Lemma kept_watched {A} (st : A -> StoreStatus.t) (fail : StoreStatus.t -> A) watched (body : Redis A) :
  (forall s, st (fail s) = s) -> triple live body (fun a => kept (st a)) ->
  triple live (status ← watch deadline watched; if failed status then mret (fail status) else body)
    (fun a => kept (st a)).
Proof.
  intros Hf Hb. eapply triple_bind; [apply kept_watch|]. intros status. apply kept_branch; [|done].
  apply triple_ret. intros c Hc. by rewrite Hf.
Qed.

Lemma kept_leave original : triple (kept original) (leaveWatch deadline original) kept.
Proof.
  intros c Hk. destruct (dropsRedisConnection original) eqn:Ed.
  - apply kept_dropped. by apply (dropped_leave "UNWATCH" original).
  - by apply kept_leaveWatch, Hk.
Qed.

Lemma kept_left {A} (st : A -> StoreStatus.t) (fail : StoreStatus.t -> A) original :
  (forall s, st (fail s) = s) ->
  triple (kept original) (left ← leaveWatch deadline original; mret (fail left)) (fun a => kept (st a)).
Proof.
  intros Hf. eapply triple_bind; [apply kept_leave|]. intros left. apply triple_ret.
  intros c Hc. by rewrite Hf.
Qed.

Let store_fail (s : StoreStatus.t) : StoreResult := mkStoreResult s None.

(** Closes the checks of the replies. *)
Local Ltac answered := intros replies; repeat case_match; eexists; intros c; reflexivity.

Lemma kept_applyMutations ms :
  triple live (applyMutations keys deadline ms) (fun r => kept (store_status r)).
Proof.
  unfold applyMutations. destruct ms as [|first rest]; [solve_kept|].
  case_if; [solve_kept|]. case_if; [solve_kept|]. apply (kept_watched store_status store_fail); [done|].
  eapply triple_bind; [apply kept_readWatched|]. intros [status current]. cbn [fst].
  apply kept_branch; [by apply (kept_left store_status store_fail)|].
  apply (kept_committed store_status store_fail); [done|answered].
Qed.

Lemma kept_removeExpiredFields entries r now :
  triple live (removeExpiredFields keys deadline entries r now) (fun r => kept (store_status r)).
Proof.
  unfold removeExpiredFields. case_if; [solve_kept|]. destruct (group_expired _ _ _); [|solve_kept].
  apply (kept_watched store_status store_fail); [done|].
  eapply triple_bind; [apply kept_check_expired|]. intros status.
  apply kept_branch; [by apply (kept_left store_status store_fail)|].
  apply (kept_committed store_status store_fail); [done|answered].
Qed.

Lemma kept_setPublishedRevision published : triple live (setPublishedRevision keys deadline published) kept.
Proof.
  unfold setPublishedRevision. case_if; [solve_kept|]. apply (kept_watched (fun s => s) (fun s => s)); [done|].
  eapply triple_bind; [apply kept_ensureType|]. intros status. apply kept_branch; [apply kept_leave|].
  apply (kept_committed (fun s => s) (fun s => s)); [done|answered].
Qed.

Lemma kept_completeResetBarrier token : triple live (completeResetBarrier keys deadline token) kept.
Proof.
  unfold completeResetBarrier. case_if; [solve_kept|]. apply (kept_watched (fun s => s) (fun s => s)); [done|].
  eapply triple_bind; [apply kept_readResetBarrier|]. intros state. cbv beta.
  destruct (failed (reset_status state)) eqn:Ef; cbn [orb].
  { apply kept_leave. }
  apply failed_false in Ef. rewrite Ef. apply (triple_weaken _ live _ _ kept); [|apply kept_ok|done].
  case_match; [apply kept_leaveWatch|].
  apply (kept_committed (fun s => s) (fun s => s)); [done|answered].
Qed.

Lemma kept_readReadyRevision : triple live (readReadyRevision keys deadline) (fun r => kept (store_status r)).
Proof.
  unfold readReadyRevision. eapply triple_bind; [apply kept_readWatched|]. intros [status current]. cbn [fst].
  by apply triple_ret.
Qed.

Lemma kept_check_rebuild entries : triple live (check_rebuild keys deadline entries) (fun r => kept r.1).
Proof. unfold check_rebuild. solve_kept. Qed.

Lemma kept_rebuildFromMysql entries :
  triple live (rebuildFromMysql keys deadline entries) (fun r => kept (store_status r)).
Proof.
  unfold rebuildFromMysql. apply (kept_watched store_status store_fail); [done|].
  eapply triple_bind; [apply kept_check_rebuild|]. intros [status previous]. cbn [fst].
  apply kept_branch; [by apply (kept_left store_status store_fail)|].
  apply (kept_committed store_status store_fail); [done|answered].
Qed.
End Kept.

(** ** The invariant of the backend *)

(** A connection that may be used: alive and outside any transaction. *)
Definition ready (c : RedisConnection) : Prop :=
  live c /\ dirty (session_of c) = false /\ open_tx (session_of c) = None.

Definition backend_ok (b : Backend) : Prop :=
  match redis_store_ b with Some c => ready c | None => True end
  /\ match mysql_ b with Some d => open_sql (sql_of d) = None | None => True end.

(** Everything that Redis has confirmed as executed, over all connections. *)
Definition redis_log (b : Backend) : list (list string) :=
  archived b ++ match redis_store_ b with Some c => executed (session_of c) | None => [] end.

(** Everything that MySQL has confirmed as committed. *)
Definition sql_log (b : Backend) : list SqlCall :=
  archived_sql b ++ match mysql_ b with Some d => committed (sql_of d) | None => [] end.

Lemma ready_clean c : ready c <-> live c /\ clean c /\ ~ in_doubt c.
Proof.
  unfold ready, clean, in_doubt, live. split.
  - intros ((Hc & Hl) & Hd & Ho). rewrite Hl. by split_and!; auto.
  - intros ((Hc & Hl) & [H|[Hd Ho]] & _); [congruence|]. by split_and!.
Qed.

Lemma ready_session c E : ready c -> executed (session_of c) = E -> at_session (mkSession false None E) c.
Proof.
  intros ((_ & Hl) & Hd & Ho) HE. split; [|unfold in_doubt; by rewrite Hl].
  destruct (session_of c). simpl in *. by subst.
Qed.

(** What an operation does to a connection that is ready: it keeps it ready
    when its status keeps it, and it executes [delta], related to its answer. *)
Definition operates {A} (st : A -> StoreStatus.t) (m : Redis A) (R : A -> list (list string) -> Prop) : Prop :=
  forall E, triple (fun c => ready c /\ executed (session_of c) = E) m (fun a c =>
    (dropsRedisConnection (st a) = false -> ready c)
    /\ exists delta, executed (session_of c) = E ++ delta /\ R a delta).

Lemma operates_quiet {A} (st : A -> StoreStatus.t) (m : Redis A) :
  quiet m -> triple live m (fun a => kept (st a)) -> operates st m (fun _ delta => delta = []).
Proof.
  intros Hq Hk E c [Hr HE]. pose proof (ready_session c E Hr HE) as Hs.
  destruct (Hq (mkSession false None E) eq_refl c Hs) as [Hs' _]. specialize (Hk c (proj1 Hr)).
  destruct (m c) as [c' a]. simpl in *. split.
  - intros Hd. split; [by apply Hk|]. by rewrite Hs'.
  - exists []. by rewrite Hs', app_nil_r.
Qed.

Lemma operates_outcome {A} (st : A -> StoreStatus.t) (m : Redis A) commands :
  (forall E, triple (clean_at E) m (fun a => outcome E commands (st a))) ->
  triple live m (fun a => kept (st a)) ->
  operates st m (fun a delta => (delta = [] \/ delta = commands)
    /\ (st a = StoreStatus.Ok -> delta = commands) /\ (definite (st a) = true -> delta = [])).
Proof.
  intros Ho Hk E c [Hr HE]. specialize (Hk c (proj1 Hr)). apply ready_clean in Hr as (_ & Hc & Hd).
  destruct (Ho E c (conj Hc (conj HE Hd))) as (H1 & H2 & H3 & H4).
  destruct (m c) as [c' a]. simpl in *. split.
  - intros Hs. specialize (Hk Hs). apply ready_clean. split_and!; [done|done|]. unfold in_doubt.
    destruct Hk as [_ ->]. done.
  - destruct H2 as [H2|H2].
    + exists []. rewrite app_nil_r. split_and!; auto. intros Hok. specialize (H3 Hok).
      rewrite H2 in H3. by apply (app_inv_head E); rewrite app_nil_r.
    + exists commands. split_and!; auto. intros Hdef. destruct (H4 Hdef) as [H5 _]. rewrite H2 in H5.
      apply (app_inv_head E). by rewrite app_nil_r.
Qed.

Lemma operates_deletePending keys deadline ids :
  operates (fun s => s) (deletePending keys deadline ids) (fun st delta =>
    delta = [] \/ delta = ["XDEL" :: pending keys :: ids]).
Proof.
  intros E c [Hr HE]. pose proof (ready_session c E Hr HE) as Hs.
  pose proof (kept_deletePending keys deadline ids c (proj1 Hr)) as Hk. revert Hk.
  unfold deletePending. destruct ids as [|i ids].
  { intros _. simpl. split; [done|]. exists []. rewrite app_nil_r. auto. }
  destruct (existsb _ _).
  { intros _. simpl. split; [done|]. exists []. rewrite app_nil_r. auto. }
  unfold mbind, redis_bind. assert ("XDEL" :: pending keys :: i :: ids <> ["EXEC"]) as Hne by done.
  pose proof (run_session deadline _ _ Hne c Hs) as Hr'.
  destruct (run deadline _ c) as [c' r]. cbn [fst snd] in *. intros Hk.
  assert (exists delta, at_session (mkSession false None (E ++ delta)) c'
            /\ (delta = [] \/ delta = ["XDEL" :: pending keys :: i :: ids])) as (delta & Hs' & Hd).
  { destruct Hr' as [[_ H]|[[_ H]|[(_ & H & _)|(_ & H & _)]]].
    - exists ["XDEL" :: pending keys :: i :: ids]. auto.
    - exists []. rewrite app_nil_r. auto.
    - exists []. rewrite app_nil_r. auto.
    - exists []. rewrite app_nil_r. auto. }
  simpl in *. destruct Hs' as [Hs' _]. split.
  - intros Hst. split; [by apply Hk|]. by rewrite Hs'.
  - exists delta. by rewrite Hs'.
Qed.

(** A command that only authenticates or selects leaves a fresh session. *)
Lemma command_plain_fresh c argv deadline c' r :
  live c -> session_of c = fresh_session -> command_class argv = CPlain ->
  command c argv deadline = (c', r) -> isOk r = true -> live c' /\ session_of c' = fresh_session.
Proof.
  intros Hl Hs Hp Hc Hok. pose proof (command_cases c argv deadline) as Hcs. rewrite Hc in Hcs.
  destruct Hcs as [a rest v H1 H2|a rest H1 H2|rest status l Hst H1 Hl'|H1]; try done.
  - split; [exact Hl|]. unfold session_of. simpl. rewrite foldl_snoc. fold (session_of c). rewrite Hs.
    unfold session_step. by rewrite Hp.
  - destruct Hst as [->| ->]; done.
Qed.

Lemma connect_fresh config deadline n1 n2 o c :
  RedisConnection.connect config deadline n1 n2 o = Some c -> live c /\ session_of c = fresh_session.
Proof.
  unfold RedisConnection.connect. case_if; [done|]. destruct (remainingTimeout _ _ n1); [|done].
  destruct (remainingTimeout _ _ n2); [|done]. destruct o as [replies|]; [|done].
  set (c0 := mkConnection true (redis_command_timeout config) replies [] None).
  assert (live c0 /\ session_of c0 = fresh_session) as [Hl Hs] by done. clearbody c0.
  destruct (if bool_decide (redis_password config = "") then _ else _) as [c1 authenticated] eqn:E1.
  assert (authenticated = true -> live c1 /\ session_of c1 = fresh_session) as Hfst.
  { destruct (bool_decide (redis_password config = "")); [by injection E1 as <- <-|].
    destruct (command c0 _ deadline) as [c' r] eqn:Ec. injection E1 as <- <-. intros Hok.
    eapply command_plain_fresh; [exact Hl|exact Hs| |exact Ec|done]. by destruct (bool_decide _). }
  destruct authenticated; [|done]. destruct (Hfst eq_refl) as [Hl1 Hs1]. simpl.
  destruct (if redis_database config =? 0 then _ else _) as [c2 selected] eqn:E2.
  assert (selected = true -> live c2 /\ session_of c2 = fresh_session) as Hsnd.
  { destruct (redis_database config =? 0); [by injection E2 as <- <-|].
    destruct (command c1 _ deadline) as [c' r] eqn:Ec. injection E2 as <- <-. intros Hok.
    refine (command_plain_fresh _ _ _ _ _ Hl1 Hs1 _ Ec Hok). reflexivity. }
  destruct selected; [|done]. intros [= <-]. by apply Hsnd.
Qed.

Lemma ensureRedis_spec deadline b :
  backend_ok b ->
  let '(b', ok) := ensureRedis deadline b in
  backend_ok b' /\ redis_log b' = redis_log b /\ mysql_ b' = mysql_ b /\ archived_sql b' = archived_sql b
  /\ keys_ b' = keys_ b /\ (ok = true -> is_Some (redis_store_ b')).
Proof.
  intros [Hr Hm]. unfold ensureRedis. destruct (redis_store_ b) as [c|] eqn:Eb.
  { split_and!; try done. split; [by rewrite Eb|done]. }
  destruct (opens b) as [|o rest].
  { split_and!; try done. split; [by rewrite Eb|done]. }
  destruct (RedisConnection.connect _ _ _ _ _) as [c|] eqn:Ec; simpl.
  - apply connect_fresh in Ec as [Hl Hs]. unfold backend_ok, redis_log. simpl. rewrite Eb, Hs.
    split_and!; try done. unfold ready. by rewrite Hs.
  - unfold backend_ok, redis_log. simpl. rewrite Eb. by split_and!.
Qed.

(** The nine Redis commands: the invariant is kept, and Redis executes what
    the operation on a ready connection executes. *)
Lemma with_redis_spec {A} (io_error : A) st deadline (op : RedisKeySet -> Redis A) R b :
  operates st (op (keys_ b)) R -> R io_error [] -> backend_ok b ->
  let '(b', a) := with_redis io_error st deadline op b in
  backend_ok b' /\ sql_log b' = sql_log b /\ keys_ b' = keys_ b
  /\ exists delta, redis_log b' = redis_log b ++ delta /\ R a delta.
Proof.
  intros Hop Hio Hb. unfold with_redis. pose proof (ensureRedis_spec deadline b Hb) as He.
  destruct (ensureRedis deadline b) as [b1 ok]. destruct He as (Hb1 & Hlog & Hm & Ha & Hk & Hok).
  assert (sql_log b1 = sql_log b) as Hsql by (unfold sql_log; by rewrite Hm, Ha).
  destruct ok; simpl.
  2: { split_and!; try done. exists []. by rewrite app_nil_r. }
  destruct (Hok eq_refl) as [c Ec]. rewrite Ec. destruct Hb1 as [Hr1 Hm1]. rewrite Ec in Hr1.
  rewrite Hk. specialize (Hop _ c (conj Hr1 eq_refl)). destruct (op (keys_ b) c) as [c' a]. simpl in Hop.
  destruct Hop as (Hready & delta & Hd & HR). rewrite <-Hlog, <-Hsql.
  unfold observe, close_redis, backend_ok, redis_log, sql_log. rewrite Ec.
  destruct (dropsRedisConnection (st a)); simpl; split_and!; try done.
  - exists delta. rewrite Hd, app_nil_r, <-app_assoc. done.
  - by apply Hready.
  - exists delta. rewrite Hd, <-app_assoc. done.
Qed.

(** ** The calls of a worker *)

Inductive BackendCall :=
| CallApply (mutations : list BlacklistMutation)
| CallReadRevision
| CallSnapshot (scan_count : Z)
| CallRemoveExpired (entries : list BlacklistEntry) (expected_revision now_ms : Z)
| CallSetPublished (revision : Z)
| CallReadPending (count : Z)
| CallDeletePending (stream_ids : list string)
| CallMysql (mutations : list BlacklistMutation)
| CallReadBarrier
| CallComplete (token : Z).

Section Calls.
Context `{Inet}.

Definition run_call (deadline : Z) (call : BackendCall) (b : Backend) : Backend :=
  match call with
  | CallApply ms => (backend_applyCandidates deadline ms b).1
  | CallReadRevision => (backend_readRevision deadline b).1
  | CallSnapshot n => (backend_loadStableSnapshot deadline n b).1
  | CallRemoveExpired es r now => (backend_removeExpiredFields deadline es r now b).1
  | CallSetPublished r => (backend_setPublishedRevision deadline r b).1
  | CallReadPending n => (backend_readPending deadline n b).1
  | CallDeletePending ids => (backend_deletePending deadline ids b).1
  | CallMysql ms => (backend_applyMysqlMutations deadline ms b).1
  | CallReadBarrier => (backend_readResetBarrier deadline b).1
  | CallComplete t => (backend_completeResetBarrier deadline t b).1
  end.

Lemma applyCandidates_spec deadline ms b :
  backend_ok b ->
  let '(b', r) := backend_applyCandidates deadline ms b in
  backend_ok b' /\ sql_log b' = sql_log b /\ keys_ b' = keys_ b
  /\ exists delta, redis_log b' = redis_log b ++ delta
  /\ let commands := apply_commands (keys_ b) (from_option is_clear false (head ms)) ms in
     (delta = [] \/ delta = commands)
     /\ (store_status r = StoreStatus.Ok -> delta = commands)
     /\ (definite (store_status r) = true -> delta = []).
Proof.
  intros Hb. eapply with_redis_spec; [|by split_and!; [left| |]|done].
  apply operates_outcome; [intros E; apply applyMutations_spec|apply kept_applyMutations].
Qed.

Lemma mysql_call_spec deadline ms b :
  backend_ok b ->
  let '(b', ok) := backend_applyMysqlMutations deadline ms b in
  backend_ok b' /\ redis_log b' = redis_log b /\ keys_ b' = keys_ b
  /\ sql_log b `prefix_of` sql_log b'
  /\ (ok = true -> exists s, batch_statements ms = Some s /\ sql_log b' = sql_log b ++ s).
Proof.
  intros [Hr Hm]. unfold backend_applyMysqlMutations, ensureMysql.
  assert (forall b1 d, redis_store_ b1 = redis_store_ b -> archived b1 = archived b -> keys_ b1 = keys_ b ->
    archived_sql b1 = archived_sql b -> mysql_ b1 = Some d -> open_sql (sql_of d) = None ->
    sql_log b = archived_sql b ++ committed (sql_of d) ->
    let '(b', ok) := (let '(d, applied) := applyBlacklistMutations deadline ms d in
        if (applied : bool) then (b1 <| mysql_ := Some d |>, true)
        else (b1 <| mysql_ := None |> <| archived_sql := archived_sql b1 ++ committed (sql_of d) |>, false)) in
    backend_ok b' /\ redis_log b' = redis_log b /\ keys_ b' = keys_ b
    /\ sql_log b `prefix_of` sql_log b'
    /\ (ok = true -> exists s, batch_statements ms = Some s /\ sql_log b' = sql_log b ++ s)) as Hgo.
  { intros b1 d H1 H2 H3 H4 H5 Ho Hlog. destruct (applyBlacklistMutations deadline ms d) as [d' applied] eqn:Ea.
    destruct applied; simpl.
    - destruct (applyBlacklistMutations_true _ _ _ _ Ho Ea) as (s & Hs & Hd).
      unfold backend_ok, redis_log. simpl. rewrite H1, H2, H3, Hd.
      assert (sql_log (b1 <| mysql_ := Some d' |>) = sql_log b ++ s) as Hs'
        by (rewrite Hlog; unfold sql_log; simpl; rewrite H4, Hd; simpl; by rewrite app_assoc).
      split_and!; try done; rewrite Hs'; [by apply prefix_app_r|]. eauto.
    - destruct (applyBlacklistMutations_emits deadline ms d) as (l & Hl & _). rewrite Ea in Hl.
      simpl in Hl. unfold backend_ok, redis_log. simpl. rewrite H1, H2, H3. split_and!; try done.
      rewrite Hlog. unfold sql_log. simpl. rewrite H4, app_nil_r. apply prefix_app.
      unfold sql_of at 2. rewrite Hl, foldl_app. apply committed_grows. }
  destruct (mysql_ b) as [d|] eqn:Ed.
  { simpl. rewrite Ed. apply Hgo; try done. unfold sql_log. by rewrite Ed. }
  destruct (daos b) as [|[clocks results] rest].
  { simpl. unfold backend_ok. rewrite Ed. by split_and!. }
  set (d0 := mkDao (mysql_config_ b) false false false clocks results [] 0).
  destruct (silent_connect deadline d0) as (l & Hc & ->). rewrite app_nil_r in Hc.
  destruct (MysqlDao.connect deadline d0) as [d1 connected]. simpl in Hc. destruct connected; simpl.
  - pose proof (Hgo (b <| daos := rest |> <| mysql_ := Some d1 |>) d1) as Hx. simpl in Hx.
    apply Hx; try done; unfold sql_of; rewrite Hc; [done|]. unfold sql_log. by rewrite Ed.
  - unfold backend_ok, redis_log. simpl. by rewrite Ed.
Qed.

Lemma with_redis_ok {A} (io_error : A) st deadline (op : RedisKeySet -> Redis A) R b :
  operates st (op (keys_ b)) R -> R io_error [] -> backend_ok b ->
  backend_ok (with_redis io_error st deadline op b).1.
Proof.
  intros Hop Hio Hb. pose proof (with_redis_spec io_error st deadline op R b Hop Hio Hb) as Hs.
  destruct (with_redis _ _ _ _ b). apply Hs.
Qed.

(** What a write that was never sent executes. *)
Lemma write_refused (commands : list (list string)) (delta : list (list string)) :
  delta = [] ->
  (delta = [] \/ delta = commands) /\ (StoreStatus.IoError = StoreStatus.Ok -> delta = commands)
  /\ (definite StoreStatus.IoError = true -> delta = []).
Proof. intros ->. split_and!; auto. done. Qed.

Lemma run_call_ok deadline call b : backend_ok b -> backend_ok (run_call deadline call b).
Proof.
  intros Hb. destruct call; simpl.
  - eapply with_redis_ok; [eapply operates_outcome|by apply write_refused|]; try done;
      [intros E; apply applyMutations_spec|apply kept_applyMutations].
  - eapply with_redis_ok; [apply operates_quiet; [apply quiet_readRevision|apply kept_readRevision]|done..].
  - eapply with_redis_ok;
      [apply operates_quiet; [apply quiet_loadStableSnapshot|apply kept_loadStableSnapshot]|done..].
  - eapply with_redis_ok; [eapply operates_outcome|by apply write_refused|]; try done;
      [intros E; apply removeExpiredFields_spec|apply kept_removeExpiredFields].
  - eapply with_redis_ok; [eapply operates_outcome|by apply write_refused|]; try done;
      [intros E; apply setPublishedRevision_spec|apply kept_setPublishedRevision].
  - eapply with_redis_ok; [apply operates_quiet; [apply quiet_readPending|apply kept_readPending]|done..].
  - eapply with_redis_ok; [apply operates_deletePending|by left|done].
  - pose proof (mysql_call_spec deadline mutations b Hb) as Hs.
    destruct (backend_applyMysqlMutations _ _ _). apply Hs.
  - eapply with_redis_ok; [apply operates_quiet; [apply quiet_readResetBarrier|apply kept_readResetBarrier]|done..].
  - eapply with_redis_ok; [eapply operates_outcome|by apply write_refused|]; try done;
      [intros E; apply completeResetBarrier_spec|apply kept_completeResetBarrier].
Qed.

(** A worker never uses a connection whose state it cannot prove.  After
    any sequence of backend calls, whatever the servers answered and wherever
    replies were lost, the Redis connection that the backend keeps is alive,
    has no reply outstanding and is outside any [WATCH] and [MULTI], and the
    MySQL object that it keeps has no transaction open. *)
Theorem backend_keeps_ready redis mysql opens daos (calls : list (Z * BackendCall)) :
  let b := foldl (fun b dc => run_call dc.1 dc.2 b) (createBackend redis mysql opens daos) calls in
  match redis_store_ b with
  | Some c => context_ c = true /\ lost c = None /\ dirty (session_of c) = false
              /\ open_tx (session_of c) = None
  | None => True
  end
  /\ match mysql_ b with Some d => open_sql (sql_of d) = None | None => True end.
Proof.
  assert (forall b, backend_ok b -> backend_ok (foldl (fun b dc => run_call dc.1 dc.2 b) b calls)) as Hc.
  { induction calls as [|[deadline call] calls IH]; intros b Hb; simpl; [done|].
    apply IH. by apply run_call_ok. }
  destruct (Hc (createBackend redis mysql opens daos) (conj I I)) as [Hr Hm]. split; [|exact Hm].
  simpl. destruct (redis_store_ _); [|done]. destruct Hr as ([H1 H2] & H3 & H4). done.
Qed.
End Calls.
