(* ===== verification/Policy.v ===== *)
(** * Policy: the login policy chain and the blacklist candidate generator

    Model of [login_policy.hpp], [src/risk/login_policy_chain.cpp] and
    [src/risk/blacklist_candidate_generator.cpp]. *)

From S2P Require Import Prelude Domain FeatureStore IpAddress Blacklist.
Open Scope Z_scope.

Record LoginPolicyConfig := mkPolicyConfig {
  user_failure_review_threshold : Z;
  ip_spray_review_threshold : Z;
  device_sharing_review_threshold : Z;
  ip_distinct_reject_threshold : Z;
  ip_failure_reject_threshold : Z;
}.

Definition default_policy : LoginPolicyConfig := mkPolicyConfig 5 20 10 50 500.

Record LoginPolicyContext := mkContext {
  features : LoginFeatureSnapshot;
  blacklist : LoginBlacklistMatches;
}.

Definition kReviewScore : Z := 30.
Definition kRejectScore : Z := 100.

Definition appendHit (hits : list PolicyHit) (reason : string) (act : LoginDecisionAction)
    (score : Z) : list PolicyHit :=
  hits ++ [mkPolicyHit reason act score].

Definition evaluateBlacklist (context : LoginPolicyContext) (hits : list PolicyHit)
    : list PolicyHit :=
  let hits := if user_hit (blacklist context)
              then appendHit hits "blacklisted_user" reject kRejectScore else hits in
  let hits := if ip_hit (blacklist context)
              then appendHit hits "blacklisted_ip" reject kRejectScore else hits in
  if device_hit (blacklist context)
  then appendHit hits "blacklisted_device" reject kRejectScore else hits.

Definition evaluateCredentialStuffing (context : LoginPolicyContext)
    (config : LoginPolicyConfig) (hits : list PolicyHit) : list PolicyHit :=
  if ((ip_distinct_reject_threshold config <=? ip_distinct_failed_user_10m (features context))
      && (ip_failure_reject_threshold config <=? ip_login_failures_10m (features context)))%bool
  then appendHit hits "credential_stuffing_attack" reject kRejectScore else hits.

Definition evaluateUserFailures (context : LoginPolicyContext)
    (config : LoginPolicyConfig) (hits : list PolicyHit) : list PolicyHit :=
  if user_failure_review_threshold config <=? user_login_fail_5m (features context)
  then appendHit hits "too_many_failed_login" review kReviewScore else hits.

Definition evaluateIpSpray (context : LoginPolicyContext)
    (config : LoginPolicyConfig) (hits : list PolicyHit) : list PolicyHit :=
  if ip_spray_review_threshold config <=? ip_distinct_failed_user_10m (features context)
  then appendHit hits "ip_many_users_failed_login" review kReviewScore else hits.

Definition evaluateDeviceSharing (context : LoginPolicyContext)
    (config : LoginPolicyConfig) (hits : list PolicyHit) : list PolicyHit :=
  if device_sharing_review_threshold config <=? device_distinct_account_10m (features context)
  then appendHit hits "device_many_accounts" review kReviewScore else hits.

Definition severity (a : LoginDecisionAction) : Z :=
  match a with pass => 0 | review => 1 | reject => 2 end.

Definition validateLoginPolicyConfig (config : LoginPolicyConfig) : result unit :=
  if ((user_failure_review_threshold config =? 0)
      || (ip_spray_review_threshold config =? 0)
      || (device_sharing_review_threshold config =? 0)
      || (ip_distinct_reject_threshold config =? 0)
      || (ip_failure_reject_threshold config =? 0))%bool
  then Throw "thresholds must be positive"
  else if ip_distinct_reject_threshold config <? ip_spray_review_threshold config
  then Throw "reject threshold below review threshold"
  else if ((kDistinctMaxMembers <? ip_spray_review_threshold config)
           || (kDistinctMaxMembers <? device_sharing_review_threshold config)
           || (kDistinctMaxMembers <? ip_distinct_reject_threshold config))%bool
  then Throw "distinct threshold above the member limit"
  else Ok tt.

(** The aggregation of one hit into the decision. *)
Definition aggregate (decision : LoginDecision) (hit : PolicyHit) : LoginDecision :=
  let decision := if severity (action decision) <? severity (hit_action hit)
                  then decision <| action := hit_action hit |> else decision in
  decision <| risk_score := Z.max (risk_score decision) (hit_risk_score hit) |>.

Definition evaluate (config : LoginPolicyConfig) (attempt : LoginAttempt)
    (features : LoginFeatureSnapshot) (blacklist : LoginBlacklistMatches) : LoginDecision :=
  let context := mkContext features blacklist in
  let hits := evaluateBlacklist context [] in
  let hits := evaluateCredentialStuffing context config hits in
  let hits := evaluateUserFailures context config hits in
  let hits := evaluateIpSpray context config hits in
  let hits := evaluateDeviceSharing context config hits in
  fold_left aggregate hits
    (mkLoginDecision (attemptId attempt) (userId attempt) pass 0 hits 0).

(** ** The conditions of the policy *)

Definition blacklisted (b : LoginBlacklistMatches) : bool :=
  user_hit b || ip_hit b || device_hit b.

Definition stuffing (config : LoginPolicyConfig) (f : LoginFeatureSnapshot) : bool :=
  (ip_distinct_reject_threshold config <=? ip_distinct_failed_user_10m f)
  && (ip_failure_reject_threshold config <=? ip_login_failures_10m f).

Definition suspicious (config : LoginPolicyConfig) (f : LoginFeatureSnapshot) : bool :=
  (user_failure_review_threshold config <=? user_login_fail_5m f)
  || (ip_spray_review_threshold config <=? ip_distinct_failed_user_10m f)
  || (device_sharing_review_threshold config <=? device_distinct_account_10m f).

(** A hit, if the condition holds. *)
Definition hit_if (b : bool) (reason : string) (act : LoginDecisionAction) (score : Z)
    : list PolicyHit :=
  if b then [mkPolicyHit reason act score] else [].

(** The hits of an evaluation, in the documented order. *)
Definition expected_hits (config : LoginPolicyConfig) (f : LoginFeatureSnapshot)
    (b : LoginBlacklistMatches) : list PolicyHit :=
  hit_if (user_hit b) "blacklisted_user" reject 100
  ++ hit_if (ip_hit b) "blacklisted_ip" reject 100
  ++ hit_if (device_hit b) "blacklisted_device" reject 100
  ++ hit_if (stuffing config f) "credential_stuffing_attack" reject 100
  ++ hit_if (user_failure_review_threshold config <=? user_login_fail_5m f)
       "too_many_failed_login" review 30
  ++ hit_if (ip_spray_review_threshold config <=? ip_distinct_failed_user_10m f)
       "ip_many_users_failed_login" review 30
  ++ hit_if (device_sharing_review_threshold config <=? device_distinct_account_10m f)
       "device_many_accounts" review 30.

Definition expected_action (config : LoginPolicyConfig) (f : LoginFeatureSnapshot)
    (b : LoginBlacklistMatches) : LoginDecisionAction :=
  if (blacklisted b || stuffing config f)%bool then reject
  else if suspicious config f then review else pass.

Definition expected_score (a : LoginDecisionAction) : Z :=
  match a with pass => 0 | review => 30 | reject => 100 end.

Lemma appendHit_if hits (b : bool) reason act score :
  (if b then appendHit hits reason act score else hits) = hits ++ hit_if b reason act score.
Proof. destruct b; simpl; [done|]. by rewrite app_nil_r. Qed.

Lemma elem_of_hit_if h (b : bool) reason act score :
  h ∈ hit_if b reason act score <-> b = true /\ h = mkPolicyHit reason act score.
Proof. unfold hit_if. destruct b; [rewrite list_elem_of_singleton|rewrite elem_of_nil]; naive_solver. Qed.

Lemma evaluate_unfold config a f b :
  evaluate config a f b
  = fold_left aggregate (expected_hits config f b)
      (mkLoginDecision (attemptId a) (userId a) pass 0 (expected_hits config f b) 0).
Proof.
  unfold evaluate, evaluateDeviceSharing, evaluateIpSpray, evaluateUserFailures,
    evaluateCredentialStuffing, evaluateBlacklist.
  rewrite !appendHit_if. unfold expected_hits. simpl. by rewrite <-!app_assoc.
Qed.

Lemma evaluate_spec config a f b :
  evaluate config a f b
  = mkLoginDecision (attemptId a) (userId a) (expected_action config f b)
      (expected_score (expected_action config f b)) (expected_hits config f b) 0.
Proof.
  rewrite evaluate_unfold. unfold expected_action, expected_hits, blacklisted, suspicious.
  generalize (user_hit b) (ip_hit b) (device_hit b) (stuffing config f)
    (user_failure_review_threshold config <=? user_login_fail_5m f)
    (ip_spray_review_threshold config <=? ip_distinct_failed_user_10m f)
    (device_sharing_review_threshold config <=? device_distinct_account_10m f).
  by intros [] [] [] [] [] [] [].
Qed.

(** C38. The decision of the chain, for every configuration, snapshot and
    blacklist match: it rejects exactly when an identifier is blacklisted or
    both credential-stuffing thresholds are reached, reviews exactly when it
    does not reject and one of the three review thresholds is reached, passes
    otherwise; the score is 100, 30 or 0 accordingly; every policy that fired
    is listed once, in the documented order, and only those. *)
Theorem decision_exact config a f b :
  evaluate config a f b
  = mkLoginDecision (attemptId a) (userId a)
      (if (blacklisted b || stuffing config f)%bool then reject
       else if suspicious config f then review else pass)
      (if (blacklisted b || stuffing config f)%bool then 100
       else if suspicious config f then 30 else 0)
      (expected_hits config f b) 0.
Proof.
  rewrite evaluate_spec. unfold expected_action. by destruct (blacklisted b || stuffing config f)%bool, (suspicious config f).
Qed.

(** Pointwise order on features and on matches. *)
Definition features_le (f g : LoginFeatureSnapshot) : Prop :=
  user_login_fail_5m f <= user_login_fail_5m g
  /\ ip_distinct_failed_user_10m f <= ip_distinct_failed_user_10m g
  /\ device_distinct_account_10m f <= device_distinct_account_10m g
  /\ ip_login_failures_10m f <= ip_login_failures_10m g.

Definition matches_le (b c : LoginBlacklistMatches) : Prop :=
  (user_hit b = true -> user_hit c = true) /\ (ip_hit b = true -> ip_hit c = true)
  /\ (device_hit b = true -> device_hit c = true).

Lemma leb_mono t x y : x <= y -> (t <=? x) = true -> (t <=? y) = true.
Proof. intros. bool_to_prop. apply Z.leb_le. lia. Qed.

(** The decision is monotone: more failures, more accounts or more
    blacklist hits never lower the severity or the score. *)
Theorem decision_monotone config a f g b c :
  features_le f g -> matches_le b c ->
  let d := evaluate config a f b in
  let e := evaluate config a g c in
  severity (action d) <= severity (action e) /\ risk_score d <= risk_score e.
Proof.
  intros (H1 & H2 & H3 & H4) (B1 & B2 & B3). rewrite !evaluate_spec. simpl.
  pose proof (leb_mono (user_failure_review_threshold config) _ _ H1).
  pose proof (leb_mono (ip_spray_review_threshold config) _ _ H2).
  pose proof (leb_mono (ip_distinct_reject_threshold config) _ _ H2).
  pose proof (leb_mono (device_sharing_review_threshold config) _ _ H3).
  pose proof (leb_mono (ip_failure_reject_threshold config) _ _ H4).
  assert ((blacklisted b || stuffing config f)%bool = true ->
          (blacklisted c || stuffing config g)%bool = true) as Hr.
  { unfold blacklisted, stuffing. rewrite !orb_true_iff, !andb_true_iff.
    tauto. }
  assert (suspicious config f = true -> suspicious config g = true) as Hs.
  { unfold suspicious. rewrite !orb_true_iff. tauto. }
  unfold expected_action. destruct (blacklisted b || _)%bool.
  - by rewrite Hr.
  - destruct (suspicious config f); [rewrite Hs by done|]; repeat case_match; simpl; lia.
Qed.

Lemma decision_monotone_witness :
  severity (action (evaluate default_policy (sample_attempt 1 "alice" 0 fail_)
    (mkSnapshot 5 1 1 5) no_matches)) = 1
  /\ severity (action (evaluate default_policy (sample_attempt 1 "alice" 0 fail_)
       (mkSnapshot 5 50 1 500) no_matches)) = 2
  /\ 1 <= 2.
Proof.
  split; [reflexivity|]. split; [reflexivity|].
  apply (decision_monotone default_policy (sample_attempt 1 "alice" 0 fail_)
    (mkSnapshot 5 1 1 5) (mkSnapshot 5 50 1 500) no_matches no_matches).
  - split_and!; simpl; lia.
  - done.
Defined.

(** A configuration that the chain accepts keeps its two IP policies
    ordered and reachable: whenever it rejects for credential stuffing it also
    reports the spray policy, and every distinct threshold is at most the
    number of members that the features can count. *)
Theorem valid_config_ordered config a f b :
  validateLoginPolicyConfig config = Ok tt ->
  let d := evaluate config a f b in
  (mkPolicyHit "credential_stuffing_attack" reject 100 ∈ policy_hits d ->
   mkPolicyHit "ip_many_users_failed_login" review 30 ∈ policy_hits d)
  /\ ip_spray_review_threshold config <= ip_distinct_reject_threshold config <= kDistinctMaxMembers
  /\ device_sharing_review_threshold config <= kDistinctMaxMembers.
Proof.
  unfold validateLoginPolicyConfig. repeat case_if; try done. intros _.
  rewrite evaluate_spec. simpl. split; [|lia].
  unfold expected_hits. rewrite !elem_of_app, !elem_of_hit_if.
  intros [[_ Hin]|[[_ Hin]|[[_ Hin]|[[Hst _]|[[_ Hin]|[[_ Hin]|[_ Hin]]]]]]]; try discriminate Hin.
  unfold stuffing in Hst. bool_to_prop. do 5 right. left. split; [|done]. apply Z.leb_le. lia.
Qed.

Lemma valid_config_ordered_witness :
  mkPolicyHit "ip_many_users_failed_login" review 30
    ∈ policy_hits (evaluate default_policy (sample_attempt 1 "alice" 0 fail_)
                     (mkSnapshot 5 50 1 500) no_matches).
Proof.
  apply (valid_config_ordered default_policy (sample_attempt 1 "alice" 0 fail_)
    (mkSnapshot 5 50 1 500) no_matches); [reflexivity|]. left.
Defined.

(** ** The candidate generator *)

Definition kTemporaryIpTtlMs : Z := 30 * 60 * 1000.
Definition kCredentialStuffingReason : string := "credential_stuffing_attack".

Section Generator.
Context `{Inet}.

Definition generate (attempt : LoginAttempt) (decision : LoginDecision)
    (blacklist : LoginBlacklistMatches) (now_ms : Z) : list BlacklistMutation :=
  if (negb (bool_decide (action decision = reject))
      || user_hit blacklist || ip_hit blacklist || device_hit blacklist)%bool
  then []
  else
    let credential_stuffing_reject :=
      existsb (fun hit => bool_decide (hit_action hit = reject)
                          && bool_decide (reason_code hit = kCredentialStuffingReason))
        (policy_hits decision) in
    if (negb credential_stuffing_reject
        || (kMaxExpireAtMs ⊖ kTemporaryIpTtlMs <? now_ms))%bool
    then []
    else
      match upsert Ip (ip attempt) kCredentialStuffingReason (now_ms ⊕ kTemporaryIpTtlMs) with
      | None => []
      | Some mutation => [mutation]
      end.

(** The address text of an attempt is canonical (the validator's output). *)
Definition ip_canonical (a : LoginAttempt) : Prop :=
  exists addr, parse (ip a) = Some addr /\ canonicalText addr = ip a.

Lemma existsb_stuffing config f b :
  blacklisted b = false ->
  existsb (fun hit => bool_decide (hit_action hit = reject)
                      && bool_decide (reason_code hit = kCredentialStuffingReason))%bool
    (expected_hits config f b) = stuffing config f.
Proof.
  unfold blacklisted. intros Hb. bool_to_prop. unfold expected_hits.
  destruct b as [[] [] []]; try done.
  generalize (user_failure_review_threshold config <=? user_login_fail_5m f)
    (ip_spray_review_threshold config <=? ip_distinct_failed_user_10m f)
    (device_sharing_review_threshold config <=? device_distinct_account_10m f)
    (stuffing config f).
  by intros [] [] [] [].
Qed.

Lemma upsert_stuffing a now :
  ip_canonical a -> is_u64 now -> now <= kMaxExpireAtMs - kTemporaryIpTtlMs ->
  upsert Ip (ip a) kCredentialStuffingReason (now ⊕ kTemporaryIpTtlMs)
  = Some (mkMutation Upsert (Some Ip) (ip a) kCredentialStuffingReason (now + kTemporaryIpTtlMs)).
Proof.
  intros (addr & Hp & Ht) Hn Hle. unfold kMaxExpireAtMs, kTemporaryIpTtlMs, is_u64 in *.
  rewrite wrap64_small by (unfold is_u64; lia).
  unfold upsert, normalizeId. simpl.
  rewrite Hp, Ht. unfold kMaxExpireAtMs. by rewrite (proj2 (Z.ltb_ge _ _)) by lia.
Qed.

Lemma generate_spec config a f b now :
  ip_canonical a -> is_u64 now ->
  generate a (evaluate config a f b) b now
  = if (negb (blacklisted b) && stuffing config f
        && (now <=? kMaxExpireAtMs - kTemporaryIpTtlMs))%bool
    then [mkMutation Upsert (Some Ip) (ip a) "credential_stuffing_attack"
            (now + kTemporaryIpTtlMs)]
    else [].
Proof.
  intros Hip Hn. unfold generate. rewrite evaluate_spec. cbn [action policy_hits].
  unfold expected_action. destruct (blacklisted b) eqn:Hb.
  - rewrite <-!orb_assoc, (orb_assoc (user_hit b)). fold (blacklisted b). rewrite Hb.
    by rewrite orb_true_r.
  - rewrite <-!orb_assoc, (orb_assoc (user_hit b)). fold (blacklisted b). rewrite Hb.
    rewrite existsb_stuffing by done. destruct (stuffing config f).
    + rewrite bool_decide_true by done. cbn [negb orb andb].
      rewrite (wrap64_small (kMaxExpireAtMs - _)) by (unfold is_u64; vm_compute; done).
      destruct (Z.leb_spec now (kMaxExpireAtMs - kTemporaryIpTtlMs)).
      * rewrite (proj2 (Z.ltb_ge _ _)) by lia. by rewrite upsert_stuffing.
      * by rewrite (proj2 (Z.ltb_lt _ _)).
    + cbn [orb andb negb]. by rewrite bool_decide_false by (by destruct (suspicious _ _)).
Qed.

(** The generator proposes exactly one mutation, the temporary block of
    the attempt's canonical IP for 30 minutes from now, exactly when the chain
    saw credential stuffing from an attempt that no blacklist entry matched
    (and the expiry still fits the supported range); otherwise it proposes
    nothing.  Neither the expiry sum nor the limit wraps around. *)
Theorem generate_exact config a f b now :
  ip_canonical a -> is_u64 now ->
  generate a (evaluate config a f b) b now
  = if (negb (blacklisted b) && stuffing config f
        && (now <=? kMaxExpireAtMs - kTemporaryIpTtlMs))%bool
    then [mkMutation Upsert (Some Ip) (ip a) "credential_stuffing_attack"
            (now + kTemporaryIpTtlMs)]
    else [].
Proof. apply generate_spec. Qed.
End Generator.

Lemma generate_exact_witness :
  @generate ReferenceInet.inet (sample_attempt 1 "alice" 0 fail_)
    (evaluate default_policy (sample_attempt 1 "alice" 0 fail_) (mkSnapshot 5 50 1 500) no_matches)
    no_matches 1000
  = [mkMutation Upsert (Some Ip) "10.0.0.1" "credential_stuffing_attack" 1801000].
Proof.
  rewrite (@generate_exact ReferenceInet.inet default_policy); [reflexivity| |done].
  exists (mkIpAddress ([10; 0; 0; 1] ++ replicate 12 0) 4 "10.0.0.1").
  split; vm_compute; reflexivity.
Defined.
