(* ===== verification/RiskService.v ===== *)
(** * RiskService: request validation and the risk evaluation of a login

    Model of [src/app/login_request_validator.cpp] and
    [src/app/risk_service.cpp].  The wall clock and the elapsed time are
    arguments; the blacklist manager is shared with the refresh thread, so a
    run interleaves logins, publications and reclamation rounds. *)

From S2P Require Import Prelude Domain FeatureStore IpAddress Blacklist Policy.
Open Scope Z_scope.

(** ** The request validator *)

(** The message [LoginRequest]: every field is [optional]; the enumeration is
    open, an unknown number is kept. *)
Record LoginRequest := mkLoginRequest {
  req_attempt_id : option Z;
  req_timestamp_ms : option Z;
  req_user_id : option string;
  req_ip : option string;
  req_device_id : option string;
  req_result : option Z;
}.

Definition LOGIN_RESULT_UNKNOWN : Z := 0.
Definition SUCCESS : Z := 1.
Definition FAIL : Z := 2.

Definition LoginResult_IsValid (v : Z) : bool :=
  (v =? LOGIN_RESULT_UNKNOWN) || (v =? SUCCESS) || (v =? FAIL).

(** [has_f()] and [f()], the latter with the default of the type. *)
Definition has {A} (o : option A) : bool := match o with Some _ => true | None => false end.
Definition get_int (o : option Z) : Z := default 0 o.
Definition get_str (o : option string) : string := default "" o.

Definition kMaxUserIdBytes : Z := 128.
Definition kMaxDeviceIdBytes : Z := 128.
Definition kMaxIpBytes : Z := 45.
Definition kMaxPastAgeMs : Z := 60 * 60 * 1000.

Definition str_empty (s : string) : bool := bool_decide (s = "").

Section Validator.
Context `{Inet}.

Definition validate (request : LoginRequest) (now_ms : Z) : option LoginAttempt :=
  if (negb (has (req_attempt_id request)) || negb (has (req_user_id request))
      || str_empty (get_str (req_user_id request))
      || (kMaxUserIdBytes <? str_size (get_str (req_user_id request)))
      || negb (has (req_ip request)) || str_empty (get_str (req_ip request))
      || (kMaxIpBytes <? str_size (get_str (req_ip request)))
      || negb (has (req_device_id request)) || str_empty (get_str (req_device_id request))
      || (kMaxDeviceIdBytes <? str_size (get_str (req_device_id request)))
      || negb (has (req_timestamp_ms request))
      || (now_ms <? get_int (req_timestamp_ms request))
      || (kMaxPastAgeMs <=? (now_ms ⊖ get_int (req_timestamp_ms request)))
      || negb (has (req_result request)))%bool
  then None
  else
    match parse (get_str (req_ip request)) with
    | None => None
    | Some canonical_ip =>
        let result_value := get_int (req_result request) in
        if (negb (LoginResult_IsValid result_value)
            || (result_value =? LOGIN_RESULT_UNKNOWN))%bool
        then None
        else
          Some (mkLoginAttempt (get_int (req_attempt_id request))
                  (get_int (req_timestamp_ms request)) (get_str (req_user_id request))
                  (canonicalText canonical_ip) (get_str (req_device_id request))
                  (if result_value =? SUCCESS then success else fail_))
    end.

Definition text_ok (s : string) (max : Z) : Prop := s <> "" /\ str_size s <= max.

Lemma text_ok_test s max :
  str_empty s = false -> str_size s <= max -> text_ok s max.
Proof. unfold str_empty. intros. bool_to_prop. done. Qed.

(** The validator accepts exactly the complete requests whose texts are
    non-empty and within their limits, whose address is a valid IP, whose
    timestamp is at most one hour old and not in the future, and whose result
    is SUCCESS or FAIL; the attempt it builds carries the request's fields with
    the address in canonical form. *)
Theorem validate_exact request now a :
  is_u64 now -> is_u64 (get_int (req_timestamp_ms request)) ->
  validate request now = Some a
  <-> exists i ts u p d r addr,
        request = mkLoginRequest (Some i) (Some ts) (Some u) (Some p) (Some d) (Some r)
        /\ text_ok u 128 /\ text_ok p 45 /\ text_ok d 128
        /\ ts <= now < ts + 60 * 60 * 1000
        /\ parse p = Some addr /\ (r = SUCCESS \/ r = FAIL)
        /\ a = mkLoginAttempt i ts u (canonicalText addr) d
                 (if r =? SUCCESS then success else fail_).
Proof.
  intros Hn Hts. unfold validate, is_u64, kMaxPastAgeMs in *. split.
  - case_if; [done|].
    destruct request as [[i|] [ts|] [u|] [p|] [d|] [r|]]; simpl in *; try done.
    rewrite wrap64_small in * by (unfold is_u64; lia).
    destruct (parse p) as [addr|] eqn:Hp; [|done]. case_if; [done|]. intros [= <-].
    exists i, ts, u, p, d, r, addr.
    split_and!; try done; try lia; try (by apply text_ok_test).
    unfold LoginResult_IsValid in *. rewrite !orb_true_iff, !Z.eqb_eq in *. tauto.
  - intros (i & ts & u & p & d & r & addr & -> & [Hu1 Hu2] & [Hp1 Hp2] & [Hd1 Hd2] & Ht & Hp & Hr & ->).
    simpl in *. unfold str_empty, kMaxUserIdBytes, kMaxIpBytes, kMaxDeviceIdBytes.
    rewrite !bool_decide_false, !(proj2 (Z.ltb_ge _ _)) by (done || lia).
    rewrite wrap64_small by (unfold is_u64; lia). rewrite (proj2 (Z.leb_gt _ _)) by lia.
    simpl. rewrite Hp. by destruct Hr as [->| ->].
Qed.
End Validator.

Definition sample_request : LoginRequest :=
  mkLoginRequest (Some 7) (Some 1000) (Some "alice")
    (Some "0000:0000:0000:0000:0000:ffff:0a00:0001") (Some "dev-1") (Some 2).

Lemma validate_exact_witness :
  @validate ReferenceInet.inet sample_request 3600999 = Some (sample_attempt 7 "alice" 1000 fail_)
  /\ @validate ReferenceInet.inet sample_request 3601000 = None.
Proof.
  split; [|vm_compute; reflexivity].
  apply (@validate_exact ReferenceInet.inet sample_request 3600999); [done|done|].
  do 6 eexists. exists (mkIpAddress ([10; 0; 0; 1] ++ replicate 12 0) 4 "10.0.0.1").
  split_and!; try reflexivity; try (by right); try (by vm_compute).
Defined.

(** ** The service *)

Record RiskEvaluation := mkEvaluation {
  decision : LoginDecision;
  candidates : list BlacklistMutation;
}.

Record RiskService := mkService {
  policy_config : LoginPolicyConfig;
  feature_store_ : LoginFeatureStore;
}.

Definition make_service (config : LoginPolicyConfig)
    (reclamation : FeatureStateReclamationConfig) : result RiskService :=
  match validateLoginPolicyConfig config with
  | Throw e => Throw e
  | Ok _ =>
      match FeatureStore.make reclamation with
      | Throw e => Throw e
      | Ok store => Ok (mkService config store)
      end
  end.

Section Service.
Context `{Inet} (hash : string -> Z).

(** [blacklist_manager_ = nullptr] is [None]; [cost] is [elapsedMicros(start)]. *)
Definition evaluate_attempt (svc : RiskService) (blacklist_manager : option BlacklistManager)
    (attempt : LoginAttempt) (now_ms cost : Z) : RiskService * RiskEvaluation :=
  let '(store, features) := updateAndGet hash (feature_store_ svc) attempt now_ms in
  let blacklist :=
    match blacklist_manager with
    | None => no_matches
    | Some mgr => matches mgr (userId attempt) (ip attempt) (deviceId attempt) now_ms
    end in
  let dec := evaluate (policy_config svc) attempt features blacklist in
  let cands := generate attempt dec blacklist now_ms in
  (svc <| feature_store_ := store |>, mkEvaluation (dec <| cost_us := cost |>) cands).

(** One step of the process: a login, a published blacklist, a maintenance
    round. *)
Inductive service_op :=
| Login (a : LoginAttempt) (now cost : Z)
| Publish (entries : list BlacklistEntry) (now : Z)
| Maintain (now : Z).

Fixpoint run_service (svc : RiskService) (mgr : BlacklistManager) (ops : list service_op)
    : list RiskEvaluation :=
  match ops with
  | [] => []
  | Login a now cost :: rest =>
      let '(svc, out) := evaluate_attempt svc (Some mgr) a now cost in
      out :: run_service svc mgr rest
  | Publish entries now :: rest => run_service svc (publish mgr entries now).1 rest
  | Maintain now :: rest =>
      run_service (svc <| feature_store_ := reclaimColdStates (feature_store_ svc) now |>) mgr rest
  end.

(** The specification: the history of the logins and the list published last. *)
Record spec_state := mkSpec {
  sp_hist : list request;
  sp_listed : list BlacklistEntry;
  sp_published : Z;
}.

Definition is_listed (s : spec_state) (t : EntityType) (i : string) (now : Z) : bool :=
  existsb (fun e => bool_decide (type e = t) && bool_decide (id e = i)
                    && bool_decide (alive_at (sp_published s) (expire_at_ms e))
                    && bool_decide (alive_at now (expire_at_ms e))) (sp_listed s).

Definition spec_matches (s : spec_state) (a : LoginAttempt) (now : Z) : LoginBlacklistMatches :=
  mkMatches (is_listed s User (userId a) now) (is_listed s Ip (ip a) now)
    (is_listed s Device (deviceId a) now).

(** What the risk service must answer. *)
Definition spec_evaluation (config : LoginPolicyConfig) (s : spec_state) (a : LoginAttempt)
    (now cost : Z) : RiskEvaluation :=
  let f := exact_snapshot (sp_hist s ++ [(a, now)]) a now in
  let b := spec_matches s a now in
  mkEvaluation
    (mkLoginDecision (attemptId a) (userId a) (expected_action config f b)
       (expected_score (expected_action config f b)) (expected_hits config f b) cost)
    (if (negb (blacklisted b) && stuffing config f
         && (now <=? kMaxExpireAtMs - kTemporaryIpTtlMs))%bool
     then [mkMutation Upsert (Some Ip) (ip a) "credential_stuffing_attack"
             (now + kTemporaryIpTtlMs)]
     else []).

Fixpoint spec_service (config : LoginPolicyConfig) (s : spec_state) (ops : list service_op)
    : list RiskEvaluation :=
  match ops with
  | [] => []
  | Login a now cost :: rest =>
      spec_evaluation config s a now cost
      :: spec_service config (s <| sp_hist := sp_hist s ++ [(a, now)] |>) rest
  | Publish entries now :: rest =>
      spec_service config
        (if forallb (fun e => negb (str_empty (id e))) entries
         then s <| sp_listed := entries |> <| sp_published := now |> else s) rest
  | Maintain _ :: rest => spec_service config s rest
  end.

(** The clock readings that the feature store sees. *)
Fixpoint store_times (ops : list service_op) : list Z :=
  match ops with
  | [] => []
  | Publish _ _ :: rest => store_times rest
  | (Login _ now _ | Maintain now) :: rest => now :: store_times rest
  end.

Fixpoint logins (ops : list service_op) : list request :=
  match ops with
  | [] => []
  | Login a now _ :: rest => (a, now) :: logins rest
  | _ :: rest => logins rest
  end.

(** An attempt as the validator builds it. *)
Definition attempt_ok (a : LoginAttempt) : Prop :=
  ip_canonical a /\ userId a <> "" /\ ip a <> "" /\ deviceId a <> "".

Lemma is_listed_spec s t i now :
  is_listed s t i now = true <-> listed (sp_listed s) t i (sp_published s) now.
Proof.
  unfold is_listed, listed. rewrite existsb_exists.
  setoid_rewrite <-list_elem_of_In. setoid_rewrite andb_true_iff.
  setoid_rewrite andb_true_iff. setoid_rewrite andb_true_iff.
  setoid_rewrite bool_decide_eq_true. split; intros (e & He); exists e; tauto.
Qed.

(** The manager holds the list published last, if any was. *)
Definition manager_lists (mgr : BlacklistManager) (s : spec_state) : Prop :=
  match mgr with
  | None => sp_listed s = []
  | Some snap => maps_list (sp_published s) snap (sp_listed s)
  end.

Lemma bool_iff_eq (x y : bool) (P : Prop) : (x = true <-> P) -> (y = true <-> P) -> x = y.
Proof. intros. destruct x, y; naive_solver. Qed.

Lemma manager_lists_matches mgr s a now :
  manager_lists mgr s -> attempt_ok a ->
  matches mgr (userId a) (ip a) (deviceId a) now = spec_matches s a now.
Proof.
  intros Hm (_ & Hu & Hi & Hd). destruct mgr as [snap|]; simpl in *.
  - unfold snapshot_matches, spec_matches. f_equal;
      (eapply bool_iff_eq; [|apply is_listed_spec]).
    + by apply (contains_listed _ _ _ User).
    + by apply (contains_listed _ _ _ Ip).
    + by apply (contains_listed _ _ _ Device).
  - unfold spec_matches, is_listed. by rewrite Hm.
Qed.

Lemma manager_lists_publish mgr s es now :
  manager_lists mgr s ->
  manager_lists (publish mgr es now).1
    (if forallb (fun e => negb (str_empty (id e))) es
     then s <| sp_listed := es |> <| sp_published := now |> else s).
Proof.
  intros Hm. destruct (publish_spec mgr es now) as [Hok Hbad].
  assert (forallb (fun e => negb (str_empty (id e))) es = true
          <-> Forall (fun e => id e <> "") es) as Hiff.
  { rewrite forallb_forall, Forall_forall. unfold str_empty. setoid_rewrite negb_true_iff.
    setoid_rewrite bool_decide_eq_false. by setoid_rewrite list_elem_of_In. }
  destruct (forallb _ es) eqn:E.
  - destruct (Hok (proj1 Hiff eq_refl)) as (snap & -> & Hs). done.
  - rewrite Hbad; [done|]. rewrite <-Hiff. done.
Qed.

Lemma evaluate_attempt_spec svc mgr s a now0 now cost :
  store_inv hash (feature_store_ svc) (sp_hist s) now0 -> manager_lists mgr s ->
  now0 <= now -> is_u64 now -> hist_ok (sp_hist s ++ [(a, now)]) ->
  members_fit (sp_hist s ++ [(a, now)]) a now -> attempt_ok a ->
  let '(svc', out) := evaluate_attempt svc (Some mgr) a now cost in
  store_inv hash (feature_store_ svc') (sp_hist s ++ [(a, now)]) now
  /\ policy_config svc' = policy_config svc
  /\ out = spec_evaluation (policy_config svc) s a now cost.
Proof.
  intros Hinv Hm Hle Hn Hok Hfit Ha. unfold evaluate_attempt.
  pose proof (updateAndGet_spec hash (sp_hist s) now0 now a Hle Hn Hok
    (proj1 Hfit) (proj2 Hfit)
    (si_past _ _ _ _ Hinv) _ Hinv) as Hspec.
  destruct (updateAndGet _ _ _ _) as [store f]. destruct Hspec as [Hinv' ->].
  split_and!; [done|done|]. cbn beta iota zeta. rewrite (manager_lists_matches _ s) by done.
  unfold spec_evaluation. f_equal; [by rewrite evaluate_spec|].
  by rewrite (generate_spec (policy_config svc)) by (done || apply Ha).
Qed.

Lemma run_service_spec ops svc mgr s now0 :
  store_inv hash (feature_store_ svc) (sp_hist s) now0 -> manager_lists mgr s ->
  clock_from now0 (store_times ops) -> Forall is_u64 (store_times ops) ->
  hist_ok (sp_hist s ++ logins ops) -> windows_fit (sp_hist s) (logins ops) ->
  Forall (fun x : request => attempt_ok x.1) (logins ops) ->
  run_service svc mgr ops = spec_service (policy_config svc) s ops.
Proof.
  revert svc mgr s now0. induction ops as [|[a now cost|es now|now] ops IH]; simpl;
    intros svc mgr s now0 Hinv Hm Hclock Hu Hok Hfit Ha; [done|..].
  - destruct Hclock as [Hle Hclock]. apply Forall_cons in Hu as [Hn Hu].
    apply Forall_cons in Ha as [Ha1 Ha]. rewrite cons_middle, app_assoc in Hok.
    destruct Hfit as [Hfit1 Hfit].
    pose proof (evaluate_attempt_spec svc mgr s a now0 now cost Hinv Hm Hle Hn
      (hist_ok_prefix _ _ Hok) Hfit1 Ha1) as Hspec.
    destruct (evaluate_attempt svc (Some mgr) a now cost) as [svc' out].
    destruct Hspec as (Hinv' & Hcfg & ->). f_equal. rewrite <-Hcfg.
    by apply (IH svc' mgr _ now).
  - apply (IH svc _ _ now0); try done.
    + by case_match.
    + by apply manager_lists_publish.
    + by case_match.
    + by case_match.
  - destruct Hclock as [Hle Hclock]. apply Forall_cons in Hu as [Hn Hu].
    destruct svc as [config store].
    apply (IH (mkService config (reclaimColdStates store now)) mgr s now); try done.
    by eapply reclaim_spec.
Qed.

(** C1. The service refines its specification: started by the constructor
    and driven by any sequence of validated logins, blacklist publications and
    maintenance rounds, every login gets the decision and the candidates that
    the specification computes from the whole history of logins and the last
    accepted published list.  Conditions: the clock readings of the store
    never go back, there are fewer than 2^32 logins, no IP and no device sees
    more than 5000 different accounts within its ten-minute window, and the
    logins are evaluated one after another. *)
Theorem service_refines_history config reclamation svc ops :
  make_service config reclamation = Ok svc ->
  clock_from 0 (store_times ops) -> Forall is_u64 (store_times ops) ->
  hist_ok (logins ops) -> windows_fit [] (logins ops) ->
  Forall (fun x : request => attempt_ok x.1) (logins ops) ->
  run_service svc None ops = spec_service config (mkSpec [] [] 0) ops.
Proof.
  unfold make_service. destruct (validateLoginPolicyConfig config); [|done].
  destruct (FeatureStore.make reclamation) as [store|] eqn:E; [|done]. intros [= <-] Hc Hu Hok Hfit Ha.
  apply (run_service_spec ops (mkService config store) None (mkSpec [] [] 0) 0); try done.
  by apply (make_inv hash reclamation).
Qed.

(** The feedback loop closes: when a login at [now] produces a candidate
    and an entry for it is among the entries published (before it expires),
    every login from that address is rejected with the reason
    [blacklisted_ip] until 30 minutes after [now], whatever the features are,
    and produces no further candidate. *)
Theorem candidate_blocks_ip svc mgr0 a now cost m mgr es p svc' a' now' cost' :
  ip_canonical a -> ip a <> "" -> is_u64 now ->
  In m (candidates (evaluate_attempt svc mgr0 a now cost).2) ->
  Forall (fun e => id e <> "") es -> mkEntry Ip (mut_id m) (expireAtMs m) ∈ es ->
  ip a' = ip a -> p < now + 30 * 60 * 1000 -> now' < now + 30 * 60 * 1000 ->
  let r := (evaluate_attempt svc' (Some (publish mgr es p).1) a' now' cost').2 in
  action (decision r) = reject
  /\ mkPolicyHit "blacklisted_ip" reject 100 ∈ policy_hits (decision r)
  /\ candidates r = [].
Proof.
  intros Hip Hne Hn Hm Hes Hin Ha' Hp Hn'. unfold evaluate_attempt in *.
  destruct (updateAndGet hash (feature_store_ svc) a now) as [store f].
  destruct (updateAndGet hash (feature_store_ svc') a' now') as [store' f']. simpl in Hm.
  rewrite (generate_spec (policy_config svc)) in Hm by done. revert Hm. case_if; [|done].
  intros [<-|[]]. simpl in Hin. unfold kTemporaryIpTtlMs in *.
  destruct (proj1 (publish_spec mgr es p) Hes) as (snap & -> & Hmaps).
  assert (contains (ips_ snap) (ip a') now' = true) as Hhit.
  { apply (contains_listed p snap es Ip); [done|congruence|]. eexists.
    split_and!; [exact Hin|done|done|right; simpl; lia|right; simpl; lia]. }
  cbv zeta. cbn [fst snd decision candidates].
  set (b' := matches _ _ _ _ _). assert (ip_hit b' = true) as Hb by done.
  rewrite evaluate_spec. cbn [decision candidates]. split_and!.
  - simpl. unfold expected_action, blacklisted. by rewrite Hb, orb_true_r.
  - simpl. unfold expected_hits. rewrite !elem_of_app, !elem_of_hit_if. right. by left.
  - unfold generate. by rewrite Hb, orb_true_r.
Qed.
End Service.

Definition sample_service_ops : list service_op :=
  [Login (sample_attempt 1 "alice" 1000 fail_) 1500 12;
   Publish [mkEntry Ip "10.0.0.1" 9000] 1600;
   Maintain 1700;
   Login (sample_attempt 2 "bob" 1800 success) 2000 9].

Lemma service_refines_history_witness :
  run_service (H := ReferenceInet.inet) (fun _ => 3) (mkService default_policy sample_store) None
    sample_service_ops
  = spec_service default_policy (mkSpec [] [] 0) sample_service_ops
  /\ (fun e => action (decision e)) <$> spec_service default_policy (mkSpec [] [] 0) sample_service_ops
     = [pass; reject].
Proof.
  split; [|vm_compute; reflexivity].
  apply (service_refines_history (H := ReferenceInet.inet) (fun _ => 3) default_policy
    default_reclamation); [reflexivity|simpl; lia|..].
  - repeat constructor; unfold is_u64; simpl; lia.
  - split; [repeat constructor; unfold is_u64; simpl; lia|vm_compute; reflexivity].
  - repeat split; vm_compute; discriminate.
  - repeat constructor; try (by vm_compute);
      exists (mkIpAddress ([10; 0; 0; 1] ++ replicate 12 0) 4 "10.0.0.1"); split; vm_compute; reflexivity.
Defined.

(** Thresholds of one: a single failure is credential stuffing. *)
Definition strict_service : RiskService := mkService (mkPolicyConfig 1 1 1 1 1) sample_store.

Lemma candidate_blocks_ip_witness :
  let a := sample_attempt 1 "alice" 1000 fail_ in
  let mgr := (publish None [mkEntry Ip "10.0.0.1" 1801000] 1000).1 in
  let r := (evaluate_attempt (H := ReferenceInet.inet) (fun _ => 3)
              (mkService default_policy sample_store) (Some mgr)
              (sample_attempt 2 "bob" 1800000 success) 1800999 5).2 in
  action (decision r) = reject
  /\ mkPolicyHit "blacklisted_ip" reject 100 ∈ policy_hits (decision r)
  /\ candidates r = [].
Proof.
  intros a mgr.
  refine (candidate_blocks_ip (H := ReferenceInet.inet) (fun _ => 3) strict_service None a 1000 7
    (mkMutation Upsert (Some Ip) "10.0.0.1" "credential_stuffing_attack" 1801000) None
    [mkEntry Ip "10.0.0.1" 1801000] 1000 (mkService default_policy sample_store)
    (sample_attempt 2 "bob" 1800000 success) 1800999 5 _ _ _ _ _ _ _ _ _).
  - exists (mkIpAddress ([10; 0; 0; 1] ++ replicate 12 0) 4 "10.0.0.1"). split; vm_compute; reflexivity.
  - done.
  - unfold is_u64. lia.
  - vm_compute. left. reflexivity.
  - repeat constructor. done.
  - left.
  - reflexivity.
  - lia.
  - lia.
Defined.
