(* ===== verification/CandidateQueue.v ===== *)
(** * CandidateQueue: automatic blacklist candidates waiting for persistence

    Model of [blacklist_candidate_queue.{hpp,cpp}].  Every public operation
    holds the mutex for its whole body, so an execution of the business and
    maintenance threads is one sequence of operations.  The capacity covers
    the queued candidates and the reserved batch, which stays in the queue
    until its persistence is acknowledged. *)

From S2P Require Import Prelude IpAddress Blacklist.
Open Scope Z_scope.

Module CandidateSubmitStatus.
Inductive t := Accepted | Full | Closed | Invalid.
#[export] Instance eq_dec : EqDecision t.
Proof. solve_decision. Defined.
End CandidateSubmitStatus.
#[export] Existing Instance CandidateSubmitStatus.eq_dec.

Record BlacklistCandidateQueueStats := mkQueueStats {
  stats_queued : Z;
  stats_reserved : Z;
  stats_dropped : Z;
  stats_dropped_on_shutdown : Z;
  stats_closed : bool;
}.

Record BlacklistCandidateQueue := mkQueue {
  capacity_ : Z;
  queued_ : list BlacklistMutation;
  reserved_batch_ : list BlacklistMutation;
  dropped_count_ : Z;
  reported_dropped_count_ : Z;
  dropped_on_shutdown_count_ : Z;
  closed_ : bool;
}.

(** The constructor; [reserve] throws for more than the [max_size()] of the
    vector, which depends on the standard library. *)
Definition make_queue (max_size capacity : Z) : result BlacklistCandidateQueue :=
  if capacity =? 0 then Throw "capacity must be positive"
  else if max_size <? capacity then Throw "length_error"
  else Ok (mkQueue capacity [] [] 0 0 0 false).

Definition isCandidate (mutation : BlacklistMutation) : bool :=
  bool_decide (operation mutation = Upsert) && bool_decide (is_Some (entityType mutation)).

Definition expiresLater (candidate_expire_at_ms current_expire_at_ms : Z) : bool :=
  (candidate_expire_at_ms =? 0)
  || (negb (current_expire_at_ms =? 0) && (current_expire_at_ms <? candidate_expire_at_ms)).

(** [std::find_if] for the entity of [mutation], then the update in place or
    the [push_back]. *)
Fixpoint mergeIntoReserved (batch : list BlacklistMutation) (mutation : BlacklistMutation)
    : list BlacklistMutation :=
  match batch with
  | [] => [mutation]
  | item :: rest =>
      if bool_decide (entityType item = entityType mutation)
         && bool_decide (mut_id item = mut_id mutation)
      then
        (if expiresLater (expireAtMs mutation) (expireAtMs item)
         then mutation :: rest else item :: rest)
      else item :: mergeIntoReserved rest mutation
  end.

Definition trySubmit (q : BlacklistCandidateQueue) (candidate : BlacklistMutation)
    : BlacklistCandidateQueue * CandidateSubmitStatus.t :=
  if negb (isCandidate candidate) then (q, CandidateSubmitStatus.Invalid)
  else if closed_ q then (q, CandidateSubmitStatus.Closed)
  else if capacity_ q <=? (size_of (queued_ q) ⊕ size_of (reserved_batch_ q))
  then
    let q :=
      if negb (dropped_count_ q =? u64_max)
      then q <| dropped_count_ := dropped_count_ q ⊕ 1 |> else q in
    (q, CandidateSubmitStatus.Full)
  else (q <| queued_ := queued_ q ++ [candidate] |>, CandidateSubmitStatus.Accepted).

(** The loop of [reserveBatch]: [index] counts up to [take_count]. *)
Fixpoint reserve_loop (take_count : nat) (queued batch : list BlacklistMutation)
    : list BlacklistMutation * list BlacklistMutation :=
  match take_count, queued with
  | S n, mutation :: rest => reserve_loop n rest (mergeIntoReserved batch mutation)
  | _, _ => (queued, batch)
  end.

Definition reserveBatch (q : BlacklistCandidateQueue) (max_batch_size : Z)
    : BlacklistCandidateQueue * list BlacklistMutation :=
  if negb (bool_decide (reserved_batch_ q = [])) then (q, reserved_batch_ q)
  else if max_batch_size =? 0 then (q, [])
  else
    let take_count := Z.min max_batch_size (size_of (queued_ q)) in
    let '(queued, batch) := reserve_loop (Z.to_nat take_count) (queued_ q) (reserved_batch_ q) in
    (q <| queued_ := queued |> <| reserved_batch_ := batch |>, batch).

Definition acknowledgeReserved (q : BlacklistCandidateQueue) : BlacklistCandidateQueue :=
  q <| reserved_batch_ := [] |>.

Definition close_queue (q : BlacklistCandidateQueue) : BlacklistCandidateQueue :=
  q <| closed_ := true |>.

Definition discardRemainingOnShutdown (q : BlacklistCandidateQueue)
    : BlacklistCandidateQueue * Z :=
  let remaining := size_of (queued_ q) ⊕ size_of (reserved_batch_ q) in
  let available := u64_max ⊖ dropped_on_shutdown_count_ q in
  let added := Z.min remaining available in
  (q <| queued_ := [] |> <| reserved_batch_ := [] |>
     <| dropped_on_shutdown_count_ := dropped_on_shutdown_count_ q ⊕ added |>, added).

Definition takeDroppedSinceLastReport (q : BlacklistCandidateQueue)
    : BlacklistCandidateQueue * Z :=
  let delta := dropped_count_ q ⊖ reported_dropped_count_ q in
  (q <| reported_dropped_count_ := dropped_count_ q |>, delta).

Definition queue_stats (q : BlacklistCandidateQueue) : BlacklistCandidateQueueStats :=
  mkQueueStats (size_of (queued_ q)) (size_of (reserved_batch_ q)) (dropped_count_ q)
    (dropped_on_shutdown_count_ q) (closed_ q).

Definition queue_empty (q : BlacklistCandidateQueue) : bool :=
  bool_decide (queued_ q = []) && bool_decide (reserved_batch_ q = []).

(** ** Executions: the operations in the order the mutex admits them *)

Inductive QueueOp :=
| Submit (candidate : BlacklistMutation)
| Reserve (max_batch_size : Z)
| Acknowledge
| CloseQueue
| Discard
| TakeDropped.

Inductive QueueOut :=
| Submitted (status : CandidateSubmitStatus.t)
| Batch (batch : list BlacklistMutation)
| Count (n : Z)
| Done.

Definition queue_step (q : BlacklistCandidateQueue) (op : QueueOp)
    : BlacklistCandidateQueue * QueueOut :=
  match op with
  | Submit m => let '(q', s) := trySubmit q m in (q', Submitted s)
  | Reserve n => let '(q', b) := reserveBatch q n in (q', Batch b)
  | Acknowledge => (acknowledgeReserved q, Done)
  | CloseQueue => (close_queue q, Done)
  | Discard => let '(q', n) := discardRemainingOnShutdown q in (q', Count n)
  | TakeDropped => let '(q', n) := takeDroppedSinceLastReport q in (q', Count n)
  end.

Fixpoint run_queue (q : BlacklistCandidateQueue) (ops : list QueueOp)
    : BlacklistCandidateQueue * list QueueOut :=
  match ops with
  | [] => (q, [])
  | op :: rest =>
      let '(q1, out) := queue_step q op in
      let '(q2, outs) := run_queue q1 rest in
      (q2, out :: outs)
  end.

(** ** The abstract queue

    It keeps every accepted candidate itself: those waiting and those of the
    batch that is out for persistence, unmerged; its counters are unbounded. *)

Record CandidateLog := mkLog {
  waiting : list BlacklistMutation;
  held : list BlacklistMutation;
  log_closed : bool;
  log_dropped : Z;
  log_reported : Z;
  log_discarded : Z;
}.

Definition empty_log : CandidateLog := mkLog [] [] false 0 0 0.

Definition entity_key (m : BlacklistMutation) : option EntityType * string :=
  (entityType m, mut_id m).

(** [e1] ends no earlier than [e2]; 0 never ends. *)
Definition outlives (e1 e2 : Z) : Prop := e1 = 0 \/ (e2 <> 0 /\ e2 <= e1).

(** What a batch must be for the candidates it stands for: one of them per
    entity, with no candidate of that entity outliving it. *)
Record merges (items batch : list BlacklistMutation) : Prop := {
  merges_sub : forall m, m ∈ batch -> m ∈ items;
  merges_nodup : NoDup (entity_key <$> batch);
  merges_cover : forall m, m ∈ items ->
    exists b, b ∈ batch /\ entity_key b = entity_key m
              /\ outlives (expireAtMs b) (expireAtMs m);
}.

(** The number of distinct entities of a batch. *)
Definition entities (l : list BlacklistMutation) : Z :=
  size_of (remove_dups (entity_key <$> l)).

(** A counter that stays at its maximum. *)
Definition saturate (n : Z) : Z := Z.min n u64_max.

Definition log_size (l : CandidateLog) : Z := size_of (waiting l) + entities (held l).

Definition log_status (capacity : Z) (l : CandidateLog) (m : BlacklistMutation)
    : CandidateSubmitStatus.t :=
  if negb (isCandidate m) then CandidateSubmitStatus.Invalid
  else if log_closed l then CandidateSubmitStatus.Closed
  else if log_size l <? capacity then CandidateSubmitStatus.Accepted
  else CandidateSubmitStatus.Full.

Definition log_step (capacity : Z) (l : CandidateLog) (op : QueueOp) : CandidateLog :=
  match op with
  | Submit m =>
      match log_status capacity l m with
      | CandidateSubmitStatus.Accepted => l <| waiting := waiting l ++ [m] |>
      | CandidateSubmitStatus.Full => l <| log_dropped := log_dropped l + 1 |>
      | _ => l
      end
  | Reserve n =>
      if bool_decide (held l = [])
      then l <| held := take (Z.to_nat n) (waiting l) |>
             <| waiting := drop (Z.to_nat n) (waiting l) |>
      else l
  | Acknowledge => l <| held := [] |>
  | CloseQueue => l <| log_closed := true |>
  | Discard => l <| waiting := [] |> <| held := [] |>
                 <| log_discarded := log_discarded l + log_size l |>
  | TakeDropped => l <| log_reported := log_dropped l |>
  end.

(** The answers the abstract queue allows, given its state before and after. *)
Definition log_answers (capacity : Z) (l l' : CandidateLog) (op : QueueOp) (out : QueueOut)
    : Prop :=
  match op, out with
  | Submit m, Submitted s => s = log_status capacity l m
  | Reserve _, Batch b => merges (held l') b
  | Acknowledge, Done | CloseQueue, Done => True
  | Discard, Count n => n = saturate (log_discarded l') - saturate (log_discarded l)
  | TakeDropped, Count n => n = saturate (log_dropped l) - saturate (log_reported l)
  | _, _ => False
  end.

Fixpoint log_allows (capacity : Z) (l : CandidateLog) (ops : list QueueOp)
    (outs : list QueueOut) : Prop :=
  match ops, outs with
  | [], [] => True
  | op :: ops, out :: outs =>
      log_answers capacity l (log_step capacity l op) op out
      /\ log_allows capacity (log_step capacity l op) ops outs
  | _, _ => False
  end.

(** ** Merging *)

Lemma outlives_refl e : outlives e e.
Proof. unfold outlives. destruct (decide (e = 0)); [by left | right; lia]. Qed.

Lemma outlives_trans a b c : outlives a b -> outlives b c -> outlives a c.
Proof. unfold outlives. lia. Qed.

Lemma expiresLater_true a b : expiresLater a b = true -> outlives a b.
Proof.
  unfold expiresLater, outlives. intros [H|[? H]%andb_prop]%orb_prop; bool_to_prop; lia.
Qed.

Lemma expiresLater_false a b : expiresLater a b = false -> outlives b a.
Proof.
  unfold expiresLater, outlives.
  intros [H [H1|H1]%andb_false_iff]%orb_false_elim; bool_to_prop; lia.
Qed.

Lemma same_entity a b :
  bool_decide (entityType a = entityType b) && bool_decide (mut_id a = mut_id b)
  = bool_decide (entity_key a = entity_key b).
Proof.
  unfold entity_key. destruct a, b; simpl.
  repeat case_bool_decide; simpl; simplify_eq; try done.
Qed.

Lemma merge_elem batch m x :
  x ∈ mergeIntoReserved batch m -> x ∈ batch \/ x = m.
Proof.
  induction batch as [|i rest IH]; simpl; [set_solver|].
  repeat case_match; rewrite !elem_of_cons; tauto.
Qed.

Lemma merge_keys batch m k :
  k ∈ entity_key <$> mergeIntoReserved batch m <-> k ∈ entity_key <$> batch \/ k = entity_key m.
Proof.
  induction batch as [|i rest IH]; simpl; [set_solver|].
  rewrite same_entity. case_bool_decide as E; simpl.
  - case_match; csimpl; rewrite !elem_of_cons, ?E; intuition congruence.
  - csimpl. rewrite !elem_of_cons, IH. tauto.
Qed.

Lemma merge_nodup batch m :
  NoDup (entity_key <$> batch) -> NoDup (entity_key <$> mergeIntoReserved batch m).
Proof.
  induction batch as [|i rest IH]; simpl; [intros; apply NoDup_singleton|].
  rewrite same_entity. intros [Hi Hr]%NoDup_cons. case_bool_decide as E.
  - case_match; csimpl; apply NoDup_cons; [by rewrite <-E | done].
  - csimpl. apply NoDup_cons. split; [|by apply IH].
    rewrite merge_keys. intros [?|?]; [done | congruence].
Qed.

Lemma merge_cover batch m x :
  (x ∈ batch \/ x = m) ->
  exists b, b ∈ mergeIntoReserved batch m /\ entity_key b = entity_key x
            /\ outlives (expireAtMs b) (expireAtMs x).
Proof.
  induction batch as [|i rest IH]; simpl; intros Hx.
  - destruct Hx as [?%not_elem_of_nil | ->]; [done|].
    exists m. split_and!; [by left | done | apply outlives_refl].
  - rewrite same_entity. case_bool_decide as E.
    + destruct (expiresLater (expireAtMs m) (expireAtMs i)) eqn:El;
        [apply expiresLater_true in El | apply expiresLater_false in El];
        destruct Hx as [[->|?]%elem_of_cons | ->];
        eauto 10 using outlives_refl, list_elem_of_here, list_elem_of_further.
    + destruct (decide (x = i)) as [->|Hne].
      * exists i. split_and!; [by left | done | apply outlives_refl].
      * destruct IH as (b & ? & ? & ?); [rewrite elem_of_cons in Hx; tauto|].
        exists b. split_and!; [by right | done | done].
Qed.

Lemma merges_nil : merges [] [].
Proof. split; [done | apply NoDup_nil_2 | intros m ?%not_elem_of_nil; done]. Qed.

Lemma merges_snoc items batch m :
  merges items batch -> merges (items ++ [m]) (mergeIntoReserved batch m).
Proof.
  intros [Hsub Hnd Hcov]. split.
  - intros x [?| ->]%merge_elem; apply elem_of_app; [left; auto | right; by left].
  - by apply merge_nodup.
  - intros x [Hx|Hx%list_elem_of_singleton]%elem_of_app.
    + destruct (Hcov x Hx) as (b & Hb & Hk & Ho).
      destruct (merge_cover batch m b) as (c & ? & ? & ?); [by left|].
      exists c. split_and!; [done | congruence | by eapply outlives_trans].
    + apply merge_cover. by right.
Qed.

Lemma reserve_loop_merges n queued items batch :
  merges items batch ->
  let '(rest, batch') := reserve_loop n queued batch in
  rest = drop n queued /\ merges (items ++ take n queued) batch'.
Proof.
  revert queued items batch. induction n as [|n IH]; intros queued items batch Hm; simpl.
  - by rewrite app_nil_r.
  - destruct queued as [|m queued]; simpl; [by rewrite app_nil_r|].
    specialize (IH queued (items ++ [m]) _ (merges_snoc _ _ m Hm)).
    destruct (reserve_loop _ _ _). by rewrite <-app_assoc in IH.
Qed.

Lemma merges_size items batch : merges items batch -> size_of batch = entities items.
Proof.
  intros [Hsub Hnd Hcov]. unfold entities, size_of. f_equal.
  rewrite <-(length_fmap entity_key batch). apply Permutation_length, NoDup_Permutation;
    [done | apply NoDup_remove_dups|].
  intros k. rewrite elem_of_remove_dups, !list_elem_of_fmap. split.
  - intros (m & -> & Hm). eauto.
  - intros (m & -> & Hm). destruct (Hcov m Hm) as (b & ? & ? & _). exists b. by split.
Qed.

Lemma merges_nil_iff items batch : merges items batch -> batch = [] <-> items = [].
Proof.
  intros [Hsub _ Hcov]. split; intros ->.
  - destruct items as [|m items]; [done|].
    destruct (Hcov m) as (b & Hb%not_elem_of_nil & _); [by left | done].
  - destruct batch as [|m batch]; [done|].
    destruct (not_elem_of_nil m). apply Hsub. by left.
Qed.

(** Merging never lengthens a batch. *)
Lemma entities_le l : entities l <= size_of l.
Proof.
  unfold entities, size_of. rewrite <-(length_fmap entity_key l).
  apply inj_le, submseteq_length, NoDup_submseteq; [apply NoDup_remove_dups|].
  intros k. by rewrite elem_of_remove_dups.
Qed.

(** ** Simulation *)

Record queue_rel (capacity : Z) (q : BlacklistCandidateQueue) (l : CandidateLog) : Prop := {
  qr_capacity : capacity_ q = capacity;
  qr_queued : queued_ q = waiting l;
  qr_batch : merges (held l) (reserved_batch_ q);
  qr_closed : closed_ q = log_closed l;
  qr_dropped : dropped_count_ q = saturate (log_dropped l);
  qr_reported : reported_dropped_count_ q = saturate (log_reported l);
  qr_discarded : dropped_on_shutdown_count_ q = saturate (log_discarded l);
  qr_counts : 0 <= log_reported l <= log_dropped l /\ 0 <= log_discarded l;
  qr_bounded : log_size l <= capacity;
}.

Section Simulation.
Context (capacity : Z) (Hcap : is_u64 capacity).

Lemma rel_size q l :
  queue_rel capacity q l ->
  (size_of (queued_ q) ⊕ size_of (reserved_batch_ q)) = log_size l /\ 0 <= log_size l.
Proof.
  intros R. rewrite (qr_queued _ _ _ R), (merges_size _ _ (qr_batch _ _ _ R)).
  pose proof (qr_bounded _ _ _ R). unfold log_size, entities, is_u64, size_of in *.
  split; [apply wrap64_small; unfold is_u64; lia | lia].
Qed.

Lemma saturate_incr n :
  0 <= n -> saturate n <> u64_max -> (saturate n ⊕ 1) = saturate (n + 1).
Proof. unfold saturate, u64_max. intros H0 H1. wrap_simpl. lia. Qed.

Lemma saturate_full n : saturate n = u64_max -> saturate n = saturate (n + 1).
Proof. unfold saturate, u64_max. lia. Qed.

Lemma saturate_available a : 0 <= a -> (u64_max ⊖ saturate a) = u64_max - saturate a.
Proof. unfold saturate, u64_max. intros. wrap_simpl. done. Qed.

Lemma saturate_add a n :
  0 <= a -> 0 <= n ->
  Z.min n (u64_max - saturate a) = saturate (a + n) - saturate a.
Proof. unfold saturate, u64_max. lia. Qed.

Lemma saturate_delta a b :
  0 <= b <= a -> (saturate a ⊖ saturate b) = saturate a - saturate b.
Proof. unfold saturate, u64_max. intros. by wrap_simpl. Qed.

Lemma saturate_wrap a : 0 <= a -> wrap64 (saturate a) = saturate a.
Proof. intros. apply wrap64_small. unfold saturate, u64_max, is_u64. lia. Qed.

Lemma count_drop q n :
  0 <= n -> dropped_count_ q = saturate n ->
  (if negb (dropped_count_ q =? u64_max)
   then q <| dropped_count_ := dropped_count_ q ⊕ 1 |> else q)
  = q <| dropped_count_ := saturate (n + 1) |>.
Proof.
  destruct q as [c qs b d r sh cl]. simpl. intros H0 ->.
  destruct (saturate n =? u64_max) eqn:E; cbn [negb]; 
    apply (f_equal (fun d => mkQueue c qs b d r sh cl)); unfold const.
  - by apply saturate_full, Z.eqb_eq.
  - apply saturate_incr; [done | by apply Z.eqb_neq].
Qed.

Ltac use_rel R :=
  pose proof R as [Hrc Hrq Hrb Hrcl Hrd Hrr Hrs [Hc1 Hc2] Hrsz].

Lemma submit_sim q l m :
  queue_rel capacity q l ->
  queue_rel capacity (trySubmit q m).1 (log_step capacity l (Submit m))
  /\ (trySubmit q m).2 = log_status capacity l m.
Proof.
  intros R. destruct (rel_size q l R) as [Esz H0]. unfold trySubmit, log_step, log_status.
  rewrite Esz. use_rel R. rewrite Hrcl, Hrc.
  destruct (isCandidate m); simpl; [|done]. destruct (log_closed l) eqn:Elc; simpl; [done|].
  rewrite Z.leb_antisym. destruct (Z.ltb_spec (log_size l) capacity); simpl.
  - split; [|done]. split; simpl; try done; [by rewrite Hrq | by rewrite Elc|].
    unfold log_size in *. simpl. rewrite size_of_app, size_of_cons, size_of_nil. lia.
  - split; [|done]. rewrite (count_drop q (log_dropped l)) by (done || lia).
    split; simpl; try done; [by rewrite Elc | lia].
Qed.

Lemma reserve_sim q l n :
  0 <= n ->
  queue_rel capacity q l ->
  queue_rel capacity (reserveBatch q n).1 (log_step capacity l (Reserve n))
  /\ merges (held (log_step capacity l (Reserve n))) (reserveBatch q n).2.
Proof.
  intros Hn R. pose proof (merges_nil_iff _ _ (qr_batch _ _ _ R)) as Hnil. use_rel R.
  unfold reserveBatch, log_step. rewrite !(bool_decide_ext _ _ Hnil).
  case_bool_decide as Eh; simpl; [|done].
  case_if.
  - subst n. simpl. split; [|apply merges_nil].
    rewrite Eh in Hrb. unfold log_size in *. rewrite Eh in Hrsz. by split.
  - pose proof (reserve_loop_merges (Z.to_nat (Z.min n (size_of (queued_ q)))) (queued_ q)
      _ _ Hrb) as Hl.
    destruct (reserve_loop _ _ _) as [rest batch]. destruct Hl as [-> Hb].
    assert (Z.to_nat (Z.min n (size_of (queued_ q)))
            = (Z.to_nat n `min` length (queued_ q))%nat) as E
      by (unfold size_of; lia).
    rewrite E, Eh, Hrq in Hb. simpl in Hb.
    assert (take (Z.to_nat n `min` length (waiting l)) (waiting l)
            = take (Z.to_nat n) (waiting l)) as Et
      by (rewrite <-take_take, (take_ge _ (length _)); done).
    rewrite Et in Hb. split; [|done]. split; simpl; try done.
    + rewrite E, Hrq. destruct (Nat.le_gt_cases (Z.to_nat n) (length (waiting l))).
      * by rewrite Nat.min_l.
      * rewrite Nat.min_r, !drop_ge by lia. done.
    + unfold log_size in *. simpl. pose proof (entities_le (take (Z.to_nat n) (waiting l))).
      rewrite Eh in Hrsz. change (entities []) with 0 in Hrsz.
      unfold size_of in *. rewrite length_drop, length_take in *. simpl in *. lia.
Qed.

Lemma discard_sim q l :
  queue_rel capacity q l ->
  queue_rel capacity (discardRemainingOnShutdown q).1 (log_step capacity l Discard)
  /\ (discardRemainingOnShutdown q).2
     = saturate (log_discarded l + log_size l) - saturate (log_discarded l).
Proof.
  intros R. destruct (rel_size q l R) as [Esz H0]. unfold discardRemainingOnShutdown.
  rewrite Esz. use_rel R. simpl. rewrite Hrs, saturate_available, saturate_add by done.
  split; [|done]. split; simpl; try done; [apply merges_nil | | lia |].
  - replace (_ + (_ - _)) with (saturate (log_discarded l + log_size l)) by lia.
    apply saturate_wrap. lia.
  - unfold log_size, entities, size_of in *. simpl. lia.
Qed.

Lemma take_dropped_sim q l :
  queue_rel capacity q l ->
  queue_rel capacity (takeDroppedSinceLastReport q).1 (log_step capacity l TakeDropped)
  /\ (takeDroppedSinceLastReport q).2 = saturate (log_dropped l) - saturate (log_reported l).
Proof.
  intros R. use_rel R. unfold takeDroppedSinceLastReport. simpl. rewrite Hrd, Hrr.
  split; [split; simpl; try done; lia | by apply saturate_delta].
Qed.
Definition op_ok (op : QueueOp) : Prop :=
  match op with Reserve n => 0 <= n | _ => True end.

Lemma step_sim q l op :
  op_ok op -> queue_rel capacity q l ->
  queue_rel capacity (queue_step q op).1 (log_step capacity l op)
  /\ log_answers capacity l (log_step capacity l op) op (queue_step q op).2.
Proof.
  intros Hop R. destruct op as [m|n| | | |].
  - destruct (submit_sim q l m R) as [R' E]. simpl. by destruct (trySubmit q m).
  - destruct (reserve_sim q l n Hop R) as [R' E]. simpl in *. by destruct (reserveBatch q n).
  - use_rel R. split; [|done]. split; simpl; try done; [apply merges_nil|].
    unfold log_size, entities, size_of in *. simpl. lia.
  - use_rel R. split; [|done]. by split.
  - destruct (discard_sim q l R) as [R' E]. simpl in *. by destruct (discardRemainingOnShutdown q).
  - destruct (take_dropped_sim q l R) as [R' E]. simpl in *.
    by destruct (takeDroppedSinceLastReport q).
Qed.

Lemma run_sim q l ops :
  Forall op_ok ops -> queue_rel capacity q l ->
  (exists l', queue_rel capacity (run_queue q ops).1 l')
  /\ log_allows capacity l ops (run_queue q ops).2.
Proof.
  intros Hops. revert q l. induction Hops as [|op ops Hop _ IH]; intros q l R; simpl; [by eauto|].
  destruct (step_sim q l op Hop R) as [R1 A]. destruct (queue_step q op) as [q1 out].
  destruct (IH q1 _ R1) as [? ?]. by destruct (run_queue q1 ops).
Qed.

(** [m] was handed out for persistence in a batch with an entry of its entity
    that does not end earlier. *)
Definition handed_out (m : BlacklistMutation) (outs : list QueueOut) : Prop :=
  exists batch b, Batch batch ∈ outs /\ b ∈ batch /\ entity_key b = entity_key m
                  /\ outlives (expireAtMs b) (expireAtMs m).

Lemma handed_out_later m out outs : handed_out m outs -> handed_out m (out :: outs).
Proof. intros (batch & b & ? & ?). exists batch, b. split; [by right | done]. Qed.

(** One step either keeps a waiting candidate waiting or hands it out. *)
Lemma step_waiting q l op m :
  op_ok op -> op <> Discard -> queue_rel capacity q l -> m ∈ waiting l ->
  m ∈ waiting (log_step capacity l op) \/ handed_out m [(queue_step q op).2].
Proof.
  intros Hop Hnd R Hm. destruct op as [c|n| | | |]; try by left.
  - left. simpl. destruct (log_status _ _ _); simpl; try done. apply elem_of_app. by left.
  - destruct (reserve_sim q l n Hop R) as [_ Hb]. simpl in *.
    destruct (reserveBatch q n) as [q' b]. simpl in *.
    case_bool_decide as Eh; [|by left]. simpl in *.
    rewrite <-(take_drop (Z.to_nat n) (waiting l)) in Hm.
    apply elem_of_app in Hm as [Hm|Hm]; [right | by left].
    destruct (merges_cover _ _ Hb m Hm) as (x & ? & ? & ?).
    exists b, x. split_and!; [by left | done..].
Qed.

Lemma run_waiting q l ops m :
  Forall op_ok ops -> Discard ∉ ops -> queue_rel capacity q l -> m ∈ waiting l ->
  m ∈ queued_ (run_queue q ops).1 \/ handed_out m (run_queue q ops).2.
Proof.
  intros Hops. revert q l. induction Hops as [|op ops Hop _ IH]; intros q l Hnd R Hm; simpl.
  - left. by rewrite (qr_queued _ _ _ R).
  - apply not_elem_of_cons in Hnd as [Hne Hnd].
    destruct (step_sim q l op Hop R) as [R1 _].
    pose proof (step_waiting q l op m Hop (not_eq_sym Hne) R Hm) as Hstep.
    destruct (queue_step q op) as [q1 out]. specialize (IH q1 _ Hnd R1).
    destruct (run_queue q1 ops) as [q2 outs]. simpl in *.
    destruct Hstep as [Hw|(batch & b & Hin%list_elem_of_singleton & Hb)].
    + destruct (IH Hw); [by left | right; by apply handed_out_later].
    + right. exists batch, b. rewrite Hin. split; [by left | done].
Qed.

Fixpoint accepted (ops : list QueueOp) (outs : list QueueOut) : list BlacklistMutation :=
  match ops, outs with
  | Submit m :: ops, Submitted CandidateSubmitStatus.Accepted :: outs => m :: accepted ops outs
  | _ :: ops, _ :: outs => accepted ops outs
  | _, _ => []
  end.

Lemma accepted_cons op ops out outs m :
  m ∈ accepted (op :: ops) (out :: outs) ->
  (op = Submit m /\ out = Submitted CandidateSubmitStatus.Accepted) \/ m ∈ accepted ops outs.
Proof.
  simpl. repeat case_match; simplify_eq; try (intros; by right).
  rewrite elem_of_cons. intros [->|?]; [by left | by right].
Qed.

Lemma run_accepted q l ops m :
  Forall op_ok ops -> Discard ∉ ops -> queue_rel capacity q l ->
  m ∈ accepted ops (run_queue q ops).2 ->
  m ∈ queued_ (run_queue q ops).1 \/ handed_out m (run_queue q ops).2.
Proof.
  intros Hops. revert q l. induction Hops as [|op ops Hop Hops IH]; intros q l Hnd R.
  - intros ?%not_elem_of_nil. done.
  - apply not_elem_of_cons in Hnd as [Hne Hnd].
    destruct (step_sim q l op Hop R) as [R1 A]. cbn [run_queue].
    destruct (queue_step q op) as [q1 out]. specialize (IH q1 _ Hnd R1).
    pose proof (run_waiting q1 _ ops m Hops Hnd R1) as Hw.
    destruct (run_queue q1 ops) as [q2 outs]. cbn [fst snd] in *.
    intros [[-> ->]|Hm]%accepted_cons.
    + cbn [log_answers log_step] in *. destruct Hw; [rewrite <-A; simpl; apply elem_of_app; right; by left|by left|].
      right. by apply handed_out_later.
    + destruct (IH Hm); [by left | right; by apply handed_out_later].
Qed.
End Simulation.

Lemma make_queue_ok max_size capacity q :
  make_queue max_size capacity = Ok q ->
  capacity <> 0 /\ capacity <= max_size /\ q = mkQueue capacity [] [] 0 0 0 false.
Proof.
  unfold make_queue. destruct (Z.eqb_spec capacity 0); [done|].
  destruct (Z.ltb_spec max_size capacity); [done|]. by intros [= <-].
Qed.

Lemma make_rel max_size capacity q :
  is_u64 capacity -> make_queue max_size capacity = Ok q -> queue_rel capacity q empty_log.
Proof.
  unfold is_u64. intros Hc (? & _ & ->)%make_queue_ok.
  split; simpl; try done; [apply merges_nil|].
  unfold log_size, entities, size_of. simpl. lia.
Qed.

(** C37. Whatever the order in which the business threads submit and the
    maintenance thread reserves, acknowledges, reports and shuts down, every
    answer of the queue is the one of the abstract queue: a submission is
    accepted exactly while it is open and below capacity, candidates leave in
    the order of arrival, an unacknowledged batch is returned again unchanged
    in what it stands for, a batch holds one entry per entity with the latest
    expiry, and the drop counters saturate instead of wrapping. *)
Theorem candidate_queue_refines_log max_size capacity q ops :
  is_u64 capacity -> make_queue max_size capacity = Ok q -> Forall op_ok ops ->
  log_allows capacity empty_log ops (run_queue q ops).2.
Proof. intros Hc Hq Hops. by eapply (run_sim capacity Hc q empty_log ops Hops), make_rel. Qed.

(** The queue never holds more than its capacity, counting the batch that
    is out for persistence, never holds an entity twice in that batch, and
    before shutdown loses nothing it accepted: an accepted candidate is still
    queued or was handed out in a batch with an entry of the same entity that
    expires no earlier. *)
Theorem candidate_queue_bounded_lossless max_size capacity q ops :
  is_u64 capacity -> make_queue max_size capacity = Ok q -> Forall op_ok ops ->
  let '(q', outs) := run_queue q ops in
  let s := queue_stats q' in
  stats_queued s + stats_reserved s <= capacity
  /\ NoDup (entity_key <$> reserved_batch_ q')
  /\ (Discard ∉ ops -> forall m, m ∈ accepted ops outs -> m ∈ queued_ q' \/ handed_out m outs).
Proof.
  intros Hc Hq Hops. pose proof (make_rel _ _ _ Hc Hq) as R.
  pose proof (run_accepted capacity Hc q empty_log ops) as Hacc.
  destruct (run_sim capacity Hc q empty_log ops Hops R) as [[l' R'] _].
  destruct (run_queue q ops) as [q' outs]. simpl in *. split_and!; [..|by eauto].
  - rewrite (merges_size _ _ (qr_batch _ _ _ R')), (qr_queued _ _ _ R'). apply R'.
  - apply (qr_batch _ _ _ R').
Qed.

Definition sample_candidate (i : string) (e : Z) : BlacklistMutation :=
  mkMutation Upsert (Some Ip) i "credential_stuffing" e.

Definition sample_ops : list QueueOp :=
  [Submit (sample_candidate "1.2.3.4" 10); Submit (sample_candidate "1.2.3.4" 30);
   Submit (sample_candidate "5.6.7.8" 20); Reserve 2; Reserve 5; Acknowledge; TakeDropped].

Lemma candidate_queue_refines_log_witness :
  log_allows 2 empty_log sample_ops (run_queue (mkQueue 2 [] [] 0 0 0 false) sample_ops).2.
Proof.
  apply (candidate_queue_refines_log 100); [done | done |].
  repeat (apply Forall_cons; split; [simpl; done || lia|]). apply Forall_nil_2.
Defined.

Lemma candidate_queue_bounded_lossless_witness :
  let '(q', outs) := run_queue (mkQueue 2 [] [] 0 0 0 false) sample_ops in
  let s := queue_stats q' in
  stats_queued s + stats_reserved s <= 2
  /\ NoDup (entity_key <$> reserved_batch_ q')
  /\ (Discard ∉ sample_ops -> forall m, m ∈ accepted sample_ops outs ->
      m ∈ queued_ q' \/ handed_out m outs).
Proof.
  apply (candidate_queue_bounded_lossless 100); [done | done |].
  repeat (apply Forall_cons; split; [simpl; done || lia|]). apply Forall_nil_2.
Defined.

(** The two candidates of one address are merged and the third is dropped. *)
Example sample_ops_outs :
  (run_queue (mkQueue 2 [] [] 0 0 0 false) sample_ops).2
  = [Submitted CandidateSubmitStatus.Accepted; Submitted CandidateSubmitStatus.Accepted;
     Submitted CandidateSubmitStatus.Full; Batch [sample_candidate "1.2.3.4" 30];
     Batch [sample_candidate "1.2.3.4" 30]; Done; Count 1].
Proof. vm_compute. reflexivity. Qed.
