(* ===== verification/MaintenanceCore.v ===== *)
(** * MaintenanceCore: one round of blacklist maintenance

    Model of [BlacklistMaintenanceCore] of [app/blacklist_maintenance.{hpp,cpp}]
    over the class [IBlacklistMaintenanceBackend] of its stores.  The core runs
    on one worker; what other threads do is the environment: what [shouldStop]
    reads (the stop tokens and the clock), the readings of the business
    pool, and the candidates that its threads submit before each access to
    the queue.  [events] records the calls of the stores and their answers. *)

From S2P Require Import Prelude IpAddress Blacklist CandidateQueue RedisStore MysqlDao.
Open Scope Z_scope.

(** [IBlacklistMaintenanceBackend]; [None] is an exception. *)
Class IBlacklistMaintenanceBackend (B : Type) := {
  applyCandidates : list BlacklistMutation -> Z -> B -> B * option StoreResult;
  b_readRevision : Z -> B -> B * option StoreResult;
  b_loadStableSnapshot : Z -> Z -> B -> B * option SnapshotReadResult;
  b_removeExpiredFields : list BlacklistEntry -> Z -> Z -> Z -> B -> B * option StoreResult;
  b_setPublishedRevision : Z -> Z -> B -> B * option StoreStatus.t;
  b_readPending : Z -> Z -> B -> B * option PendingReadResult;
  b_deletePending : list string -> Z -> B -> B * option StoreStatus.t;
  applyMysqlMutations : list BlacklistMutation -> Z -> B -> B * option bool;
  b_readResetBarrier : Z -> B -> B * option ResetReadResult;
  b_completeResetBarrier : Z -> Z -> B -> B * option StoreStatus.t;
}.

Record BlacklistMaintenanceState := mkMaintenanceState {
  last_published_revision : Z;
  publication_dirty : bool;
  completed_rounds : Z;
}.

(** The members of [BlacklistMaintenanceConfig] that the core reads. *)
Record CoreConfig := mkCoreConfig {
  expire_cleanup_interval : Z;
  batch_size : Z;
  candidate_batch_size : Z;
}.

(** What [shouldStop] sees: the two stop tokens and the steady clock. *)
Record StopReading := mkStopReading { pool_stop : bool; maintenance_stop : bool; stop_clock : Z }.

(** A call and its answer. *)
Inductive CoreEvent :=
| EvApply (mutations : list BlacklistMutation) (result : option StoreResult)
| EvReadPending (result : option PendingReadResult)
| EvDelete (stream_ids : list string) (result : option StoreStatus.t)
| EvMysql (mutations : list BlacklistMutation) (result : option bool)
| EvSnapshot (result : option SnapshotReadResult)
| EvRemove (entries : list BlacklistEntry) (result : option StoreResult)
| EvPublished (revision : Z) (result : option StoreStatus.t)
| EvComplete (token : Z) (result : option StoreStatus.t)
| EvOther.

Record Core (B : Type) := mkCore {
  core_config : CoreConfig;
  factory : list (option B);             (* what [create] answers; [None] throws *)
  backend_ : option B;
  queue : BlacklistCandidateQueue;
  manager : BlacklistManager;
  state_ : BlacklistMaintenanceState;
  next_expire_cleanup : Z;
  stops : list StopReading;
  inflight : list Z;
  arrivals : list (list BlacklistMutation);
  accepted_ : list BlacklistMutation;    (* candidates the queue has accepted *)
  acknowledged : list BlacklistMutation; (* and those of acknowledged batches *)
  retired : list B;                      (* backends that were reset *)
  events : list CoreEvent;
}.
Arguments mkCore {B}.
Arguments core_config {B}.
Arguments factory {B}.
Arguments backend_ {B}.
Arguments queue {B}.
Arguments manager {B}.
Arguments state_ {B}.
Arguments next_expire_cleanup {B}.
Arguments stops {B}.
Arguments inflight {B}.
Arguments arrivals {B}.
Arguments accepted_ {B}.
Arguments acknowledged {B}.
Arguments retired {B}.
Arguments events {B}.

Section Core.
Context {B : Type} `{!IBlacklistMaintenanceBackend B}.

(** A step of a round; [None] is an exception on its way out. *)
Definition Round (A : Type) : Type := Core B -> Core B * option A.

#[export] Instance round_ret : MRet Round := fun A a c => (c, Some a).
#[export] Instance round_bind : MBind Round := fun A A' f m c =>
  match m c with
  | (c, Some a) => f a c
  | (c, None) => (c, None)
  end.

(** A call of the backend; without a backend there is no call. *)
Definition call {A} (record : option A -> CoreEvent) (op : B -> B * option A) : Round A := fun c =>
  match backend_ c with
  | None => (c, None)
  | Some b =>
      let '(b, r) := op b in
      (c <| backend_ := Some b |> <| events := events c ++ [record r] |>, r)
  end.

(** [backend_.reset()] *)
Definition reset_backend (c : Core B) : Core B :=
  match backend_ c with
  | None => c
  | Some b => c <| backend_ := None |> <| retired := retired c ++ [b] |>
  end.

(** The submissions of business threads up to the next access. *)
Fixpoint submit_all (q : BlacklistCandidateQueue) (ms : list BlacklistMutation)
    (accepted : list BlacklistMutation) : BlacklistCandidateQueue * list BlacklistMutation :=
  match ms with
  | [] => (q, accepted)
  | m :: rest =>
      let '(q, status) := trySubmit q m in
      submit_all q rest (if bool_decide (status = CandidateSubmitStatus.Accepted)
                         then accepted ++ [m] else accepted)
  end.

Definition interfere (c : Core B) : Core B :=
  match arrivals c with
  | [] => c
  | ms :: rest =>
      let '(q, accepted) := submit_all (queue c) ms (accepted_ c) in
      c <| queue := q |> <| accepted_ := accepted |> <| arrivals := rest |>
  end.

(** One access to the queue. *)
Definition on_queue {A} (op : BlacklistCandidateQueue -> BlacklistCandidateQueue * A) : Round A := fun c =>
  let c := interfere c in
  let '(q, a) := op (queue c) in
  (c <| queue := q |>, Some a).

Definition queue_reserve : Round (list BlacklistMutation) := fun c =>
  on_queue (fun q => reserveBatch q (candidate_batch_size (core_config c))) c.

Definition queue_acknowledge : Round unit := fun c =>
  let c := interfere c in
  (c <| acknowledged := acknowledged c ++ reserved_batch_ (queue c) |>
     <| queue := acknowledgeReserved (queue c) |>, Some tt).

Definition queue_is_empty : Round bool := on_queue (fun q => (q, queue_empty q)).

Definition queue_take_dropped : Round Z := on_queue takeDroppedSinceLastReport.

Definition business_inflight : Round Z := fun c =>
  match inflight c with
  | [] => (c, Some 1)
  | n :: rest => (c <| inflight := rest |>, Some n)
  end.

Definition ensureBackend : Round bool := fun c =>
  match backend_ c with
  | Some _ => (c, Some true)
  | None =>
      match factory c with
      | [] => (c, Some false)
      | b :: rest => (c <| factory := rest |> <| backend_ := b |>, Some (bool_decide (is_Some b)))
      end
  end.

Definition get_config : Round CoreConfig := fun c => (c, Some (core_config c)).
Definition get_state : Round BlacklistMaintenanceState := fun c => (c, Some (state_ c)).
Definition set_state (f : BlacklistMaintenanceState -> BlacklistMaintenanceState) : Round unit := fun c =>
  (c <| state_ := f (state_ c) |>, Some tt).

Definition store_ok (r : StoreResult) : bool :=
  bool_decide (store_status r = StoreStatus.Ok) && bool_decide (is_Some (store_revision r)).

Section Deadline.
Context (deadline : Z).

(** Time passes: after the last reading the clock has reached the deadline. *)
Definition shouldStop : Round bool := fun c =>
  match stops c with
  | [] => (c, Some true)
  | s :: rest =>
      (c <| stops := rest |>, Some (pool_stop s || maintenance_stop s || (deadline <=? stop_clock s))%bool)
  end.

Definition flushOneCandidateBatch : Round bool :=
  stop ← shouldStop;
  if (stop : bool) then mret false
  else
    batch ← queue_reserve;
    match batch with
    | [] => mret true
    | _ =>
        stored ← call (EvApply batch) (applyCandidates batch deadline);
        if negb (store_ok stored) then mret false
        else _ ← queue_acknowledge; mret true
    end.

(** The loop of [drainCandidatesUntil]. *)
Fixpoint drain_loop (fuel : nat) : Round bool :=
  match fuel with
  | O => mret false
  | S fuel =>
      empty ← queue_is_empty;
      if (empty : bool) then mret true
      else
        stop ← shouldStop;
        if (stop : bool) then mret false
        else
          flushed ← flushOneCandidateBatch;
          if (flushed : bool) then drain_loop fuel
          else
            stop ← shouldStop;
            if (stop : bool) then mret false else drain_loop fuel
  end.

(** Every pass asks [shouldStop]. *)
Definition drain_fuel (c : Core B) : nat := S (length (stops c)).

(** [try { ... } catch (...) { backend_.reset(); return answer; }] *)
Definition try_reset {A} (answer : A) (m : Round A) : Round A := fun c =>
  match m c with
  | (c, Some a) => (c, Some a)
  | (c, None) => (reset_backend c, Some answer)
  end.

Definition drainCandidatesUntil : Round bool :=
  _ ← queue_take_dropped;
  ready ← ensureBackend;
  if negb ready then mret false
  else try_reset false (fun c => drain_loop (drain_fuel c) c).

Definition handleResetBarrier (barrier : ResetReadResult) : Round bool :=
  if requested (reset_state barrier) <=? completed (reset_state barrier) then mret true
  else
    n ← business_inflight;
    if negb (n =? 0) then mret false
    else
      drained ← drainCandidatesUntil;
      if negb drained then mret false
      else
        stop ← shouldStop;
        if (stop : bool) then mret false
        else
          n ← business_inflight;
          if negb (n =? 0) then mret false
          else
            empty ← queue_is_empty;
            if negb empty then mret false
            else
              let token := requested (reset_state barrier) in
              status ← call (EvComplete token) (b_completeResetBarrier token deadline);
              mret (bool_decide (status = StoreStatus.Ok)).

(** The order of [std::map<std::pair<EntityType, std::string>, ...>]. *)
Definition type_index (t : EntityType) : Z := match t with User => 0 | Ip => 1 | Device => 2 end.

Definition key_ltb (a b : EntityType * string) : bool :=
  (type_index a.1 <? type_index b.1) || ((type_index a.1 =? type_index b.1) && String.ltb a.2 b.2).

Abbreviation Unique := (list (EntityType * string * Z)).

(** [emplace]; [None] when the key is there with another expiry. *)
Fixpoint unique_insert (key : EntityType * string) (expiry : Z) (m : Unique) : option Unique :=
  match m with
  | [] => Some [(key, expiry)]
  | (k, e) :: rest =>
      if bool_decide (key = k) then (if e =? expiry then Some m else None)
      else if key_ltb key k then Some ((key, expiry) :: m)
      else cons (k, e) <$> unique_insert key expiry rest
  end.

Fixpoint collect_unique (entries : list BlacklistEntry) (m : Unique) : option Unique :=
  match entries with
  | [] => Some m
  | entry :: rest =>
      match unique_insert (type entry, id entry) (expire_at_ms entry) m with
      | None => None
      | Some m => collect_unique rest m
      end
  end.

Definition unique_entries (m : Unique) : list BlacklistEntry :=
  (fun ke => mkEntry ke.1.1 ke.1.2 ke.2) <$> m.

Definition expired_now (now_ms : Z) (e : BlacklistEntry) : Prop :=
  expire_at_ms e <> 0 /\ expire_at_ms e <= now_ms.

#[export] Instance expired_now_dec now_ms e : Decision (expired_now now_ms e).
Proof. unfold expired_now. apply _. Defined.

Definition active_entries (now_ms : Z) (m : Unique) : list BlacklistEntry :=
  filter (fun e => ~ expired_now now_ms e) (unique_entries m).

Definition expired_entries (now_ms : Z) (m : Unique) : list BlacklistEntry :=
  filter (expired_now now_ms) (unique_entries m).

(** [manager_->publishCandidate(std::move(candidate))] *)
Definition publish_core (candidate : BlacklistSnapshot) : Round bool := fun c =>
  let '(m, ok) := publishCandidate (manager c) (Some candidate) in
  (c <| manager := m |>, Some ok).

Definition set_next_cleanup (t : Z) : Round unit := fun c => (c <| next_expire_cleanup := t |>, Some tt).

Definition cleanup_is_due (steady_now : Z) : Round bool := fun c =>
  (c, Some (next_expire_cleanup c <=? steady_now)).

(** The end of [refreshSnapshotAndExpiry], from [prepareCandidate]. *)
Definition publish_snapshot (active : list BlacklistEntry) (published_revision now_ms steady_now : Z)
    (cleanup_due : bool) : Round unit :=
  match prepareCandidate active now_ms with
  | None => mret tt
  | Some candidate =>
      stop ← shouldStop;
      if (stop : bool) then mret tt
      else
        published ← publish_core candidate;
        if negb published then mret tt
        else
          config ← get_config;
          _ ← set_state (fun s => s <| last_published_revision := published_revision |>
                                    <| publication_dirty := true |>);
          if cleanup_due then set_next_cleanup (steady_now + expire_cleanup_interval config)
          else mret tt
  end.

Definition refreshSnapshotAndExpiry (now_ms steady_now : Z) : Round unit :=
  stop ← shouldStop;
  if (stop : bool) then mret tt
  else
    revision ← call (fun _ => EvOther) (b_readRevision deadline);
    match store_ok revision, store_revision revision with
    | true, Some current =>
        cleanup_due ← cleanup_is_due steady_now;
        state ← get_state;
        if (negb cleanup_due && (current =? last_published_revision state))%bool then mret tt
        else
          config ← get_config;
          snapshot ← call EvSnapshot (b_loadStableSnapshot (batch_size config) deadline);
          if negb (bool_decide (snapshot_status snapshot = StoreStatus.Ok)) then mret tt
          else
            stop ← shouldStop;
            if (stop : bool) then mret tt
            else
              match collect_unique (snapshot_entries snapshot) [] with
              | None => mret tt
              | Some unique =>
                  let active := active_entries now_ms unique in
                  let expired := expired_entries now_ms unique in
                  if (cleanup_due && negb (bool_decide (expired = [])))%bool then
                    removed ← call (EvRemove expired)
                      (b_removeExpiredFields expired (snapshot_revision snapshot) now_ms deadline);
                    match store_ok removed, store_revision removed with
                    | true, Some after =>
                        stop ← shouldStop;
                        if (stop : bool) then mret tt
                        else publish_snapshot active after now_ms steady_now cleanup_due
                    | _, _ => mret tt
                    end
                  else publish_snapshot active (snapshot_revision snapshot) now_ms steady_now cleanup_due
              end
    | _, _ => mret tt
    end.

Definition retryPublishedRevision : Round unit :=
  state ← get_state;
  if negb (publication_dirty state) then mret tt
  else
    stop ← shouldStop;
    if (stop : bool) then mret tt
    else
      let r := last_published_revision state in
      status ← call (EvPublished r) (b_setPublishedRevision r deadline);
      if bool_decide (status = StoreStatus.Ok)
      then set_state (fun s => s <| publication_dirty := false |>)
      else mret tt.

(** The loop that sorts the pending entries. *)
Definition invalid_ids (entries : list PendingBlacklistEntry) : list string :=
  omap (fun e => match mutation e with Throw _ => Some (stream_id e) | Ok _ => None end) entries.

Definition valid_ids (entries : list PendingBlacklistEntry) : list string :=
  omap (fun e => match mutation e with Throw _ => None | Ok _ => Some (stream_id e) end) entries.

Definition pending_mutations (entries : list PendingBlacklistEntry) : list BlacklistMutation :=
  omap (fun e => match mutation e with Throw _ => None | Ok m => Some m end) entries.

(** The deletion of the bad records; false to return. *)
Definition delete_invalid (ids : list string) : Round bool :=
  match ids with
  | [] => mret true
  | _ =>
      status ← call (EvDelete ids) (b_deletePending ids deadline);
      mret (bool_decide (status = StoreStatus.Ok))
  end.

Definition flushOnePendingBatch : Round unit :=
  stop ← shouldStop;
  if (stop : bool) then mret tt
  else
    config ← get_config;
    pending ← call EvReadPending (b_readPending (batch_size config) deadline);
    let entries := pending_entries pending in
    if (negb (bool_decide (pending_status pending = StoreStatus.Ok))
        || match entries with [] => true | _ => false end)%bool
    then mret tt
    else
      deleted ← delete_invalid (invalid_ids entries);
      if negb deleted then mret tt
      else
        match pending_mutations entries with
        | [] => mret tt
        | mutations =>
            stop ← shouldStop;
            if (stop : bool) then mret tt
            else
              applied ← call (EvMysql mutations) (applyMysqlMutations mutations deadline);
              if negb applied then mret tt
              else
                stop ← shouldStop;
                if (stop : bool) then mret tt
                else
                  _ ← call (EvDelete (valid_ids entries)) (b_deletePending (valid_ids entries) deadline);
                  mret tt
        end.

(** The [try] block of [runRound]. *)
Definition round_body (now_ms steady_now : Z) : Round unit :=
  barrier ← call (fun _ => EvOther) (b_readResetBarrier deadline);
  if negb (bool_decide (reset_status barrier = StoreStatus.Ok)) then mret tt
  else
    let reset_pending := completed (reset_state barrier) <? requested (reset_state barrier) in
    go ← (if reset_pending then handleResetBarrier barrier else flushOneCandidateBatch);
    if negb go then mret tt
    else
      _ ← refreshSnapshotAndExpiry now_ms steady_now;
      _ ← retryPublishedRevision;
      flushOnePendingBatch.

Definition core_runRound (now_ms steady_now : Z) : Round unit :=
  _ ← set_state (fun s => s <| completed_rounds := completed_rounds s ⊕ 1 |>);
  _ ← queue_take_dropped;
  ready ← ensureBackend;
  if negb ready then mret tt
  else
    stop ← shouldStop;
    if (stop : bool) then mret tt
    else try_reset tt (round_body now_ms steady_now).
End Deadline.
End Core.

(** ** What the stores promise *)

Class MaintenanceBackendLaws (B : Type) `{Inet} `{!IBlacklistMaintenanceBackend B} := {
  (** The invariant of the backend. *)
  b_ok : B -> Prop;
  (** The mutations whose records it has confirmed in the pending stream. *)
  recorded : B -> list BlacklistMutation;
  (** The batches whose statements it has committed to MySQL. *)
  stored : B -> list BlacklistMutation -> Prop;
  (** A call that confirms no record and forgets no batch. *)
  b_same (b b' : B) : Prop := b_ok b' /\ recorded b' = recorded b /\ forall ms, stored b ms -> stored b' ms;
  law_apply ms dl b :
    b_ok b -> Forall mutation_wf ms -> forallb isCandidate ms = true ->
    let '(b', r) := applyCandidates ms dl b in
    b_ok b' /\ (forall ms', stored b ms' -> stored b' ms')
    /\ exists delta, recorded b' = recorded b ++ delta
    /\ (forall s, r = Some s -> store_status s = StoreStatus.Ok -> delta = ms);
  law_readRevision dl b : b_ok b -> b_same b (b_readRevision dl b).1;
  law_snapshot n dl b : b_ok b -> b_same b (b_loadStableSnapshot n dl b).1;
  law_remove es r now dl b : b_ok b -> b_same b (b_removeExpiredFields es r now dl b).1;
  law_published r dl b : b_ok b -> b_same b (b_setPublishedRevision r dl b).1;
  law_readPending n dl b : b_ok b -> b_same b (b_readPending n dl b).1;
  law_deletePending ids dl b : b_ok b -> b_same b (b_deletePending ids dl b).1;
  law_mysql ms dl b :
    b_ok b -> b_same b (applyMysqlMutations ms dl b).1
              /\ ((applyMysqlMutations ms dl b).2 = Some true -> stored (applyMysqlMutations ms dl b).1 ms);
  law_readBarrier dl b : b_ok b -> b_same b (b_readResetBarrier dl b).1;
  law_complete t dl b : b_ok b -> b_same b (b_completeResetBarrier t dl b).1;
}.

(** ** No accepted candidate is lost *)

(** [l] lists the entity of [m] until at least the expiry of [m]. *)
Definition covered (l : list BlacklistMutation) (m : BlacklistMutation) : Prop :=
  exists b, b ∈ l /\ entity_key b = entity_key m /\ outlives (expireAtMs b) (expireAtMs m).

Section NoLoss.
Context {B : Type} `{Inet} `{!IBlacklistMaintenanceBackend B} `{!MaintenanceBackendLaws B}.

(** All confirmed records, those of backends that were reset included. *)
Definition all_recorded (c : Core B) : list BlacklistMutation :=
  mjoin (recorded <$> retired c) ++ from_option recorded [] (backend_ c).

(** The batch is in MySQL, through this backend or one that was reset. *)
Definition has_stored (c : Core B) (ms : list BlacklistMutation) : Prop :=
  Exists (fun b => stored b ms) (retired c) \/ from_option (fun b => stored b ms) False (backend_ c).

Definition candidate_wf (m : BlacklistMutation) : Prop := mutation_wf m /\ isCandidate m = true.

Record candidates_safe (c : Core B) : Prop := {
  safe_backend : from_option b_ok True (backend_ c);
  safe_factory : Forall (from_option b_ok True) (factory c);
  safe_queued : Forall candidate_wf (queued_ (queue c));
  safe_reserved : Forall candidate_wf (reserved_batch_ (queue c));
  safe_arrivals : Forall (Forall mutation_wf) (arrivals c);
  safe_accepted : forall m, m ∈ accepted_ c ->
    m ∈ queued_ (queue c) \/ covered (reserved_batch_ (queue c)) m \/ covered (acknowledged c) m;
  safe_acknowledged : forall m, m ∈ acknowledged c -> m ∈ all_recorded c;
  safe_stored : forall ms, EvMysql ms (Some true) ∈ events c -> has_stored c ms;
}.

(** A step that leaves the candidates alone. *)
Definition keeps {A} (m : Round (B := B) A) : Prop :=
  forall c, candidates_safe c -> candidates_safe (m c).1.

Lemma keeps_ret {A} (a : A) : keeps (mret a).
Proof. by intros c. Qed.

Lemma keeps_bind {A A'} (m : Round A) (f : A -> Round A') :
  keeps m -> (forall a, keeps (f a)) -> keeps (m ≫= f).
Proof.
  intros Hm Hf c Hc. unfold mbind, round_bind. specialize (Hm c Hc).
  destruct (m c) as [c' [a|]]; [by apply Hf|done].
Qed.

Lemma trySubmit_shape q m q' status :
  trySubmit q m = (q', status) ->
  reserved_batch_ q' = reserved_batch_ q
  /\ (status = CandidateSubmitStatus.Accepted /\ queued_ q' = queued_ q ++ [m] /\ isCandidate m = true
      \/ status <> CandidateSubmitStatus.Accepted /\ queued_ q' = queued_ q).
Proof.
  unfold trySubmit. destruct (isCandidate m); simpl; [|by intros [= <- <-]; split; [|right]].
  destruct (closed_ q); [by intros [= <- <-]; split; [|right]|].
  destruct (capacity_ q <=? _); [|by intros [= <- <-]; split; [|left]].
  intros [= <- <-]. by destruct (negb _); split; try right.
Qed.

Lemma submit_all_spec ms q accepted q' accepted' :
  Forall mutation_wf ms -> submit_all q ms accepted = (q', accepted') ->
  exists news, queued_ q' = queued_ q ++ news /\ reserved_batch_ q' = reserved_batch_ q
  /\ accepted' = accepted ++ news /\ Forall candidate_wf news.
Proof.
  intros Hms. revert q accepted. induction Hms as [|m ms Hm _ IH]; intros q accepted; simpl.
  { intros [= <- <-]. exists []. by rewrite !app_nil_r. }
  destruct (trySubmit q m) as [q1 status] eqn:Et. apply trySubmit_shape in Et as [Hr Ht].
  intros Hs. apply IH in Hs as (news & H1 & H2 & H3 & H4). rewrite H2, Hr.
  destruct Ht as [(-> & Hq & Hc)|(Hne & Hq)].
  - exists (m :: news). rewrite bool_decide_eq_true_2 in H3 by done. rewrite H1, Hq, H3, <-!app_assoc. split_and!; try done. by constructor.
  - exists news. rewrite bool_decide_eq_false_2 in H3 by done. by rewrite H1, Hq.
Qed.

Lemma keeps_interfere c : candidates_safe c ->
  candidates_safe (interfere c) /\ reserved_batch_ (queue (interfere c)) = reserved_batch_ (queue c)
  /\ backend_ (interfere c) = backend_ c /\ retired (interfere c) = retired c
  /\ acknowledged (interfere c) = acknowledged c.
Proof.
  intros Hc. unfold interfere. destruct (arrivals c) as [|ms rest] eqn:Ea; [done|].
  destruct (submit_all _ _ _) as [q accepted] eqn:Es. destruct Hc as [H1 H2 H3 H4 H5 H6 H7 H8].
  rewrite Ea in H5. apply Forall_cons in H5 as [Hms H5].
  apply submit_all_spec in Es as (news & Hq & Hr & -> & Hn); [|done].
  split; [|by simpl; rewrite Hr]. split; simpl; rewrite ?Hq, ?Hr; try done.
  - by apply Forall_app.
  - intros m [Hm|Hm]%elem_of_app.
    + destruct (H6 m Hm) as [?|?]; [left; by apply elem_of_app; left|by right].
    + left. apply elem_of_app. by right.
Qed.

Lemma keeps_on_queue {A} (op : BlacklistCandidateQueue -> BlacklistCandidateQueue * A) :
  (forall q, queued_ (op q).1 = queued_ q /\ reserved_batch_ (op q).1 = reserved_batch_ q) ->
  keeps (on_queue op).
Proof.
  intros Hop c Hc. apply keeps_interfere in Hc as [Hc _]. unfold on_queue.
  specialize (Hop (queue (interfere c))). destruct (op (queue (interfere c))) as [q a].
  simpl in *. destruct Hop as [Hq Hr]. destruct Hc as [H1 H2 H3 H4 H5 H6 H7 H8].
  by split; simpl; rewrite ?Hq, ?Hr.
Qed.

Lemma keeps_reserve : keeps queue_reserve.
Proof.
  intros c Hc. unfold queue_reserve, on_queue. set (n := candidate_batch_size _). clearbody n.
  apply keeps_interfere in Hc as [Hc _]. set (c1 := interfere c) in *. clearbody c1. clear c.
  destruct (reserveBatch (queue c1) n) as [q batch] eqn:Er. simpl.
  destruct Hc as [H1 H2 H3 H4 H5 H6 H7 H8]. unfold reserveBatch in Er.
  destruct (negb _) eqn:En; [injection Er as <- <-; by split|]. apply negb_false_iff in En.
  apply bool_decide_eq_true in En. destruct (n =? 0); [injection Er as <- <-; by split|].
  destruct (reserve_loop _ _ _) as [queued batch'] eqn:El. injection Er as <- <-.
  rewrite En in El. set (k := Z.to_nat _) in El.
  pose proof (reserve_loop_merges k (queued_ (queue c1)) [] [] merges_nil) as Hm. rewrite El in Hm.
  simpl in Hm. destruct Hm as [Hq Hm].
  assert (Forall candidate_wf (take k (queued_ (queue c1)))) as Hw by by apply Forall_take.
  split; simpl; try done.
  - rewrite Hq. by apply Forall_drop.
  - rewrite Forall_forall in Hw |- *. intros m Hin. by apply Hw, (merges_sub _ _ Hm).
  - intros m Hin. destruct (H6 m Hin) as [Hx|[Hx|Hx]]; [| |by right; right].
    + rewrite <-(take_drop k (queued_ (queue c1))) in Hx. apply elem_of_app in Hx as [Hx|Hx].
      * right. left. by apply (merges_cover _ _ Hm).
      * left. by rewrite Hq.
    + destruct Hx as (b & Hb & _). rewrite En in Hb. by apply not_elem_of_nil in Hb.
Qed.

(** The events after one more call. *)
Lemma stored_step (c : Core B) b b' e :
  backend_ c = Some b -> (forall ms, stored b ms -> stored b' ms) ->
  (forall ms, e = EvMysql ms (Some true) -> stored b' ms) ->
  (forall ms, EvMysql ms (Some true) ∈ events c -> has_stored c ms) ->
  let c' := c <| backend_ := Some b' |> <| events := events c ++ [e] |> in
  forall ms, EvMysql ms (Some true) ∈ events c' -> has_stored c' ms.
Proof.
  intros Eb Hm He Hs c' ms. unfold c', has_stored. simpl.
  intros [Hin|Hin%list_elem_of_singleton]%elem_of_app; [|right; by apply He].
  destruct (Hs ms Hin) as [?|Hx]; [by left|]. rewrite Eb in Hx. right. by apply Hm.
Qed.

Lemma keeps_call_when {A} record (op : B -> B * option A) :
  (forall b, b_ok b -> b_same b (op b).1
             /\ forall ms, record (op b).2 = EvMysql ms (Some true) -> stored (op b).1 ms) ->
  keeps (call record op).
Proof.
  intros Hop c Hc. unfold call. destruct (backend_ c) as [b|] eqn:Eb; [|done].
  destruct Hc as [H1 H2 H3 H4 H5 H6 H7 H8]. rewrite Eb in H1. destruct (Hop b H1) as [(Ho & Hr & Hs) Hm].
  destruct (op b) as [b' r]. simpl in *. split; simpl; try done.
  - unfold all_recorded in *. simpl. rewrite Eb in H7. simpl in H7. by rewrite Hr.
  - apply (stored_step c b b' (record r) Eb Hs); [|done]. intros ms E. by apply Hm.
Qed.

Lemma keeps_call {A} record (op : B -> B * option A) :
  (forall r ms, record r <> EvMysql ms (Some true)) -> (forall b, b_ok b -> b_same b (op b).1) ->
  keeps (call record op).
Proof. intros Hr Hop. apply keeps_call_when. intros b Hb. split; [auto|]. intros ms E. by destruct (Hr _ _ E). Qed.

Lemma keeps_call_mysql ms dl : keeps (call (EvMysql ms) (applyMysqlMutations ms dl)).
Proof.
  apply keeps_call_when. intros b Hb. destruct (law_mysql ms dl b Hb) as [Hs Ht]. split; [done|].
  by intros ms' [= -> E]; apply Ht.
Qed.

(** Steps that change neither the queue nor the stores. *)
Lemma keeps_aside {A} (m : Round A) :
  (forall c, backend_ (m c).1 = backend_ c /\ factory (m c).1 = factory c /\ queue (m c).1 = queue c
             /\ arrivals (m c).1 = arrivals c /\ accepted_ (m c).1 = accepted_ c
             /\ acknowledged (m c).1 = acknowledged c /\ retired (m c).1 = retired c
             /\ events (m c).1 = events c) -> keeps m.
Proof.
  intros Hm c [H1 H2 H3 H4 H5 H6 H7 H8]. destruct (Hm c) as (E1 & E2 & E3 & E4 & E5 & E6 & E7 & E8).
  split; rewrite ?E1, ?E2, ?E3, ?E4, ?E5, ?E6, ?E8; try done.
  - unfold all_recorded in *. by rewrite E1, E7.
  - unfold has_stored in *. by rewrite E1, E7.
Qed.

Lemma keeps_shouldStop dl : keeps (shouldStop dl).
Proof. apply keeps_aside. intros c. unfold shouldStop. by destruct (stops c). Qed.

Lemma keeps_inflight : keeps business_inflight.
Proof. apply keeps_aside. intros c. unfold business_inflight. by destruct (inflight c). Qed.

Lemma keeps_get_state : keeps get_state.
Proof. by apply keeps_aside. Qed.

Lemma keeps_get_config : keeps get_config.
Proof. by apply keeps_aside. Qed.

Lemma keeps_set_state f : keeps (set_state f).
Proof. by apply keeps_aside. Qed.

Lemma keeps_set_next t : keeps (set_next_cleanup t).
Proof. by apply keeps_aside. Qed.

Lemma keeps_cleanup_due t : keeps (cleanup_is_due t).
Proof. by apply keeps_aside. Qed.

Lemma keeps_publish s : keeps (publish_core s).
Proof. by apply keeps_aside. Qed.

Lemma keeps_queue_is_empty : keeps queue_is_empty.
Proof. by apply keeps_on_queue. Qed.

Lemma keeps_take_dropped : keeps queue_take_dropped.
Proof. by apply keeps_on_queue. Qed.

Lemma keeps_ensureBackend : keeps ensureBackend.
Proof.
  intros c Hc. unfold ensureBackend. destruct (backend_ c) as [b|] eqn:Eb; [done|].
  destruct (factory c) as [|b rest] eqn:Ef; [done|]. destruct Hc as [H1 H2 H3 H4 H5 H6 H7 H8].
  rewrite Ef in H2. apply Forall_cons in H2 as [Hb H2]. split; simpl; try done.
  - unfold all_recorded in *. simpl. rewrite Eb, app_nil_r in H7. intros m Hm. apply elem_of_app. auto.
  - unfold has_stored in *. simpl. rewrite Eb in H8. intros ms Hm. destruct (H8 ms Hm); [by left|done].
Qed.

Lemma keeps_reset c : candidates_safe c -> candidates_safe (reset_backend c).
Proof.
  intros Hc. unfold reset_backend. destruct (backend_ c) as [b|] eqn:Eb; [|done].
  destruct Hc as [H1 H2 H3 H4 H5 H6 H7 H8]. split; simpl; try done.
  - unfold all_recorded in *. simpl. rewrite Eb in H7. rewrite fmap_app, join_app. simpl.
    by rewrite !app_nil_r.
  - unfold has_stored in *. simpl. rewrite Eb in H8. intros ms Hm. left. apply Exists_app.
    destruct (H8 ms Hm); [by left|right]. by constructor.
Qed.

Lemma keeps_try_reset {A} (a : A) m : keeps m -> keeps (try_reset a m).
Proof.
  intros Hm c Hc. unfold try_reset. specialize (Hm c Hc).
  destruct (m c) as [c' [x|]]; [done|]. by apply keeps_reset.
Qed.

Create HintDb core_keeps.
Hint Resolve keeps_ret keeps_shouldStop keeps_inflight keeps_get_state keeps_get_config keeps_set_state
  keeps_set_next keeps_cleanup_due keeps_publish keeps_queue_is_empty keeps_take_dropped
  keeps_ensureBackend keeps_reserve keeps_try_reset : core_keeps.

(** Goes through the binds and tests of a program. *)
Ltac solve_keeps :=
  repeat match goal with
  | |- keeps (mret _) => apply keeps_ret
  | |- keeps (_ ≫= _) => apply keeps_bind
  | |- keeps (call (EvMysql _) _) => apply keeps_call_mysql
  | |- keeps (call _ _) => apply keeps_call; [done|intros ? ?]
  | |- keeps (if ?b then _ else _) => destruct b
  | |- keeps (match ?x with _ => _ end) => destruct x
  | |- forall _, _ => intros ?
  end; eauto using law_readRevision, law_snapshot, law_remove, law_published, law_readPending,
       law_deletePending, law_readBarrier, law_complete with core_keeps.

Lemma reserve_result (c c' : Core B) batch :
  queue_reserve c = (c', Some batch) -> reserved_batch_ (queue c') = batch.
Proof.
  unfold queue_reserve, on_queue, reserveBatch. set (q := queue (interfere c)).
  destruct (negb _) eqn:En; [by intros [= <- <-]|]. apply negb_false_iff, bool_decide_eq_true in En.
  destruct (_ =? 0); [by intros [= <- <-]|]. destruct (reserve_loop _ _ _) as [queued b].
  by intros [= <- <-].
Qed.

(** Storing the reserved batch; on success its mutations are recorded. *)
Lemma apply_reserved dl c c' r :
  candidates_safe c ->
  let batch := reserved_batch_ (queue c) in
  call (EvApply batch) (applyCandidates batch dl) c = (c', r) ->
  candidates_safe c' /\ queue c' = queue c
  /\ (forall s, r = Some s -> store_status s = StoreStatus.Ok ->
        forall m, m ∈ batch -> m ∈ all_recorded c').
Proof.
  intros Hc batch. unfold call. destruct (backend_ c) as [b|] eqn:Eb; [|intros [= <- <-]; done].
  destruct Hc as [H1 H2 H3 H4 H5 H6 H7 H8]. rewrite Eb in H1.
  assert (Forall mutation_wf batch) as Hw by (eapply Forall_impl; [exact H4|]; by intros ? []).
  assert (forallb isCandidate batch = true) as Hi.
  { apply forallb_forall. intros m Hm%list_elem_of_In. rewrite Forall_forall in H4. by apply H4. }
  pose proof (law_apply batch dl b H1 Hw Hi) as Hl. destruct (applyCandidates batch dl b) as [b' r'].
  destruct Hl as (Hb & Hs & delta & Hd & Hok). intros [= <- <-]. split_and!; [|done|].
  - split; simpl; try done.
    + unfold all_recorded in *. simpl. rewrite Eb in H7. simpl in H7. rewrite Hd.
      intros m Hm. specialize (H7 m Hm). rewrite !elem_of_app in *. tauto.
    + by apply (stored_step c b b' (EvApply batch r') Eb Hs).
  - intros s Hs' Ho m Hm. unfold all_recorded. simpl. rewrite Hd, (Hok s Hs' Ho), !elem_of_app. tauto.
Qed.

Lemma keeps_acknowledge c :
  candidates_safe c -> (forall m, m ∈ reserved_batch_ (queue c) -> m ∈ all_recorded c) ->
  candidates_safe (queue_acknowledge c).1.
Proof.
  intros Hc Hr. destruct (keeps_interfere c Hc) as (Hc1 & E1 & E2 & E3 & E4).
  unfold queue_acknowledge. simpl. rewrite <-E1 in Hr.
  assert (all_recorded (interfere c) = all_recorded c) as Ea by (unfold all_recorded; by rewrite E2, E3).
  rewrite <-Ea in Hr. clear Ea E1 E2 E3 E4 Hc. destruct Hc1 as [H1 H2 H3 H4 H5 H6 H7 H8].
  split; simpl; try done.
  - intros m Hm. destruct (H6 m Hm) as [?|[(x & Hx & ?)|(x & Hx & ?)]]; [by left| |];
      right; right; exists x; (split; [apply elem_of_app; tauto|done]).
  - intros m [Hm|Hm]%elem_of_app; [by apply H7|by apply Hr].
Qed.

Lemma keeps_flush dl : keeps (flushOneCandidateBatch dl).
Proof.
  unfold flushOneCandidateBatch. apply keeps_bind; [auto with core_keeps|].
  intros [|]; [auto with core_keeps|]. intros c Hc. pose proof (keeps_reserve c Hc) as Hc1.
  unfold mbind, round_bind. destruct (queue_reserve c) as [c1 [batch|]] eqn:Er; [|done].
  apply reserve_result in Er. simpl in Hc1. destruct batch as [|m0 batch]; [done|].
  rewrite <-Er. destruct (call _ _ c1) as [c2 r] eqn:Ec.
  apply apply_reserved in Ec as (Hc2 & Hq & Hok); [|done]. destruct r as [s|]; [|done].
  destruct (store_ok s) eqn:Es; simpl; [|done]. unfold store_ok in Es. apply andb_prop in Es as [Es _].
  apply bool_decide_eq_true in Es. apply keeps_acknowledge; [done|]. rewrite Hq. by apply (Hok s).
Qed.
Hint Resolve keeps_flush : core_keeps.

Lemma keeps_drain_loop dl fuel : keeps (drain_loop dl fuel).
Proof. induction fuel as [|fuel IH]; simpl; solve_keeps. Qed.

Lemma keeps_drain dl : keeps (drainCandidatesUntil dl).
Proof.
  unfold drainCandidatesUntil. solve_keeps. apply keeps_try_reset. intros c Hc.
  by apply keeps_drain_loop.
Qed.
Hint Resolve keeps_drain : core_keeps.

Lemma keeps_handleResetBarrier dl barrier : keeps (handleResetBarrier dl barrier).
Proof. unfold handleResetBarrier. solve_keeps. Qed.
Hint Resolve keeps_handleResetBarrier : core_keeps.

Lemma keeps_publish_snapshot dl active r now steady due :
  keeps (publish_snapshot dl active r now steady due).
Proof. unfold publish_snapshot. solve_keeps. Qed.
Hint Resolve keeps_publish_snapshot : core_keeps.

Lemma keeps_refresh dl now steady : keeps (refreshSnapshotAndExpiry dl now steady).
Proof. unfold refreshSnapshotAndExpiry. solve_keeps. Qed.
Hint Resolve keeps_refresh : core_keeps.

Lemma keeps_retry dl : keeps (retryPublishedRevision dl).
Proof. unfold retryPublishedRevision. solve_keeps. Qed.
Hint Resolve keeps_retry : core_keeps.

Lemma keeps_flush_pending dl : keeps (flushOnePendingBatch dl).
Proof. unfold flushOnePendingBatch, delete_invalid. solve_keeps. Qed.
Hint Resolve keeps_flush_pending : core_keeps.

Lemma keeps_runRound dl now steady : keeps (core_runRound dl now steady).
Proof. unfold core_runRound. solve_keeps. apply keeps_try_reset. unfold round_body. solve_keeps. Qed.

(** *** Executions *)

Inductive CoreOp :=
| OpRound (deadline now_ms steady_now : Z)
| OpDrain (deadline : Z).

Definition run_op (c : Core B) (op : CoreOp) : Core B :=
  match op with
  | OpRound dl now steady => (core_runRound dl now steady c).1
  | OpDrain dl => (drainCandidatesUntil dl c).1
  end.

(** The constructor: no backend yet. *)
Definition make_core (config : CoreConfig) (factory : list (option B)) (q : BlacklistCandidateQueue)
    (manager : BlacklistManager) (initial_revision : Z) (dirty : bool) (first_expire_cleanup : Z)
    (stops : list StopReading) (inflight : list Z) (arrivals : list (list BlacklistMutation)) : Core B :=
  mkCore config factory None q manager (mkMaintenanceState initial_revision dirty 0)
    first_expire_cleanup stops inflight arrivals [] [] [] [].

Lemma run_ops_safe config factory max_size capacity q manager r dirty first stops inflight arrivals ops :
  make_queue max_size capacity = Ok q -> Forall (from_option b_ok True) factory ->
  Forall (Forall mutation_wf) arrivals ->
  candidates_safe
    (foldl run_op (make_core config factory q manager r dirty first stops inflight arrivals) ops).
Proof.
  intros (_ & _ & ->)%make_queue_ok Hf Ha.
  set (c0 := make_core _ _ _ _ _ _ _ _ _ _).
  assert (candidates_safe c0) as H0
    by (split; simpl; try done; intros ? Hm%not_elem_of_nil; done).
  clearbody c0. revert c0 H0. induction ops as [|op ops IH]; intros c Hc; simpl; [done|].
  apply IH. destruct op; simpl; [by apply keeps_runRound|by apply keeps_drain].
Qed.

(** Every accepted candidate is waiting, out for storage, or recorded. *)
Lemma safe_covers c m :
  candidates_safe c -> m ∈ accepted_ c ->
  m ∈ queued_ (queue c) \/ covered (reserved_batch_ (queue c)) m \/ covered (all_recorded c) m.
Proof.
  intros [_ _ _ _ _ H6 H7 _] Hm.
  destruct (H6 m Hm) as [?|[?|(x & Hx & ?)]]; [by left|by right; left|].
  right. right. exists x. split; [by apply H7|done].
Qed.
End NoLoss.

(** ** What is deleted and what is published *)

(** The records [ids] may be deleted after the history [l]: they were read as
    bad, or the mutations of the whole batch they were read in are in MySQL. *)
Definition deletable (l : list CoreEvent) (ids : list string) : Prop :=
  exists p, EvReadPending (Some p) ∈ l
  /\ (ids = invalid_ids (pending_entries p)
      \/ (ids = valid_ids (pending_entries p)
          /\ EvMysql (pending_mutations (pending_entries p)) (Some true) ∈ l)).

Definition deletions_justified (l : list CoreEvent) : Prop :=
  forall l1 ids r l2, l = l1 ++ EvDelete ids r :: l2 -> deletable l1 ids.

(** [s] is a stable snapshot, and [u] its entries without repetitions. *)
Definition stable_snapshot (l : list CoreEvent) (s : SnapshotReadResult) (u : list (EntityType * string * Z))
    : Prop :=
  EvSnapshot (Some s) ∈ l /\ snapshot_status s = StoreStatus.Ok
  /\ collect_unique (snapshot_entries s) [] = Some u.

(** [r] is the revision of [s], or that of the removal of what had expired. *)
Definition revision_of (l : list CoreEvent) (s : SnapshotReadResult) (u : list (EntityType * string * Z))
    (now r : Z) : Prop :=
  r = snapshot_revision s
  \/ exists res, EvRemove (expired_entries now u) (Some res) ∈ l
     /\ store_status res = StoreStatus.Ok /\ store_revision res = Some r.

Section History.
Context {B : Type} `{!IBlacklistMaintenanceBackend B} (manager0 : BlacklistManager) (revision0 : Z).

Definition publication_ok (l : list CoreEvent) (m : BlacklistManager) (r : Z) : Prop :=
  (m = manager0 /\ r = revision0)
  \/ exists s u now cand, stable_snapshot l s u /\ revision_of l s u now r
     /\ prepareCandidate (active_entries now u) now = Some cand /\ m = Some cand.

Definition history_ok (c : Core B) : Prop :=
  deletions_justified (events c)
  /\ publication_ok (events c) (manager c) (last_published_revision (state_ c)).

(** [m] preserves the history, and [Q] holds after it when it returns. *)
Definition records {A} (P : Core B -> Prop) (m : Round (B := B) A) (Q : A -> Core B -> Prop) : Prop :=
  forall c, history_ok c -> P c ->
    history_ok (m c).1 /\ match (m c).2 with Some a => Q a (m c).1 | None => True end.

Definition grows {A} (m : Round (B := B) A) : Prop := records (fun _ => True) m (fun _ _ => True).

Lemma records_bind {A A'} P (m : Round A) (f : A -> Round A') Q R :
  records P m Q -> (forall a, records (Q a) (f a) R) -> records P (m ≫= f) R.
Proof.
  intros Hm Hf c Hc HP. unfold mbind, round_bind. destruct (Hm c Hc HP) as [H1 H2].
  destruct (m c) as [c' [a|]]; simpl in *; [by apply Hf|done].
Qed.

Lemma records_weaken {A} P P' (m : Round A) Q :
  records P' m Q -> (forall c, P c -> P' c) -> records P m Q.
Proof. intros Hm HP c Hc Hx. by apply Hm, HP. Qed.

Lemma grows_ret {A} P (a : A) : records P (mret a) (fun _ _ => True).
Proof. by intros c Hc _. Qed.

Lemma justified_snoc l e :
  deletions_justified l -> (forall ids r, e = EvDelete ids r -> deletable l ids) ->
  deletions_justified (l ++ [e]).
Proof.
  intros Hl He l1 ids r l2 Hs. destruct l2 as [|x l2 _] using rev_ind.
  - apply app_inj_tail in Hs as [-> ->]. by eapply He.
  - rewrite app_comm_cons, app_assoc in Hs. apply app_inj_tail in Hs as [-> _]. by eapply Hl.
Qed.

Lemma publication_snoc l e m r : publication_ok l m r -> publication_ok (l ++ [e]) m r.
Proof.
  intros [H|(s & u & now & cand & (H1 & H2 & H3) & Hr & H4 & H5)]; [by left|].
  right. exists s, u, now, cand. split_and!; try done.
  - split_and!; [apply elem_of_app; by left|done|done].
  - destruct Hr as [->|(res & Hi & ? & ?)]; [by left|]. right. exists res.
    split_and!; [apply elem_of_app; by left|done|done].
Qed.

(** A call appends its event; a deletion must be justified. *)
Lemma records_call {A} P record (op : B -> B * option A) :
  (forall c r ids s, P c -> record r = EvDelete ids s -> deletable (events c) ids) ->
  records P (call record op) (fun a c => exists c0, P c0 /\ events c = events c0 ++ [record (Some a)]
    /\ manager c = manager c0 /\ state_ c = state_ c0).
Proof.
  intros Hd c [H1 H2] HP. unfold call. destruct (backend_ c) as [b|]; [|done].
  destruct (op b) as [b' r]. simpl. split.
  - split; simpl; [|by apply publication_snoc]. apply justified_snoc; [done|]. intros ids s. by apply Hd.
  - destruct r as [a|]; [|done]. by exists c.
Qed.

(** Steps that touch neither the history nor what is published. *)
Lemma records_aside {A} P (m : Round A) :
  (forall c, events (m c).1 = events c /\ manager (m c).1 = manager c
             /\ last_published_revision (state_ (m c).1) = last_published_revision (state_ c)) ->
  (forall c c', events c' = events c -> P c -> P c') ->
  records P m (fun _ => P).
Proof.
  intros Hm HP c [H1 H2] Hc. destruct (Hm c) as (E1 & E2 & E3). split.
  - split; [by rewrite E1|]. by rewrite E1, E2, E3.
  - destruct (m c) as [c' [a|]]; simpl in *; [|done]. by eapply HP.
Qed.

(** Events that have happened. *)
Definition knows (F : list CoreEvent) (c : Core B) : Prop := forall e, e ∈ F -> e ∈ events c.

(** [m] preserves the history and every fact about the past. *)
Definition goes {A} (m : Round (B := B) A) : Prop := forall F, records (knows F) m (fun _ => knows F).

Lemma goes_ret {A} (a : A) : goes (mret a).
Proof. by intros F c Hc HF. Qed.

Lemma goes_bind {A A'} (m : Round A) (f : A -> Round A') :
  goes m -> (forall a, goes (f a)) -> goes (m ≫= f).
Proof. intros Hm Hf F. eapply records_bind; [apply Hm|]. intros a. apply Hf. Qed.

Lemma goes_aside {A} (m : Round A) :
  (forall c, events (m c).1 = events c /\ manager (m c).1 = manager c
             /\ last_published_revision (state_ (m c).1) = last_published_revision (state_ c)) -> goes m.
Proof. intros Hm F. apply records_aside; [done|]. unfold knows. intros c c' ->. done. Qed.

Lemma knows_cons F e c0 c : knows F c0 -> events c = events c0 ++ [e] -> knows (e :: F) c.
Proof.
  intros HF He x. rewrite He, elem_of_app, elem_of_cons, list_elem_of_singleton. naive_solver.
Qed.

(** A call that deletes nothing is known afterwards. *)
Lemma learns {A} F record (op : B -> B * option A) :
  (forall r ids s, record r <> EvDelete ids s) ->
  records (knows F) (call record op) (fun a => knows (record (Some a) :: F)).
Proof.
  intros Hr c Hc HF. destruct (records_call (knows F) record op) with (c := c) as [H1 H2]; try done.
  { intros c' r ids s _ E. by destruct (Hr r ids s). }
  split; [done|]. destruct (call record op c) as [c' [a|]]; simpl in *; [|done].
  destruct H2 as (c0 & H2 & H3 & _). by eapply knows_cons.
Qed.

Lemma goes_call {A} record (op : B -> B * option A) :
  (forall r ids s, record r <> EvDelete ids s) -> goes (call record op).
Proof.
  intros Hr F c Hc HF. destruct (learns F record op Hr c Hc HF) as [H1 H2]. split; [done|].
  destruct (call record op c) as [c' [a|]]; simpl in *; [|done]. intros e He. apply H2. by right.
Qed.

Lemma interfere_aside (c : Core B) :
  events (interfere c) = events c /\ manager (interfere c) = manager c /\ state_ (interfere c) = state_ c.
Proof.
  unfold interfere. destruct (arrivals c); [done|]. by destruct (submit_all _ _ _).
Qed.

Lemma goes_on_queue {A} (op : BlacklistCandidateQueue -> BlacklistCandidateQueue * A) : goes (on_queue op).
Proof.
  apply goes_aside. intros c. unfold on_queue. destruct (interfere_aside c) as (E1 & E2 & E3).
  destruct (op (queue (interfere c))). simpl. by rewrite E1, E2, E3.
Qed.

Lemma goes_reserve : goes queue_reserve.
Proof. intros F c. apply (goes_on_queue _ F c). Qed.

Lemma goes_acknowledge : goes queue_acknowledge.
Proof.
  apply goes_aside. intros c. destruct (interfere_aside c) as (E1 & E2 & E3). simpl. by rewrite E1, E2, E3.
Qed.

Lemma goes_shouldStop dl : goes (shouldStop dl).
Proof. apply goes_aside. intros c. unfold shouldStop. by destruct (stops c). Qed.

Lemma goes_inflight : goes business_inflight.
Proof. apply goes_aside. intros c. unfold business_inflight. by destruct (inflight c). Qed.

Lemma goes_ensureBackend : goes ensureBackend.
Proof.
  apply goes_aside. intros c. unfold ensureBackend. destruct (backend_ c); [done|]. by destruct (factory c).
Qed.

Lemma goes_get_state : goes get_state.
Proof. by apply goes_aside. Qed.

Lemma goes_get_config : goes get_config.
Proof. by apply goes_aside. Qed.

Lemma goes_cleanup_due t : goes (cleanup_is_due t).
Proof. by apply goes_aside. Qed.

Lemma goes_set_next t : goes (set_next_cleanup t).
Proof. by apply goes_aside. Qed.

Lemma goes_set_state f :
  (forall s, last_published_revision (f s) = last_published_revision s) -> goes (set_state f).
Proof. intros Hf. apply goes_aside. intros c. by split_and!; [..|apply Hf]. Qed.

Lemma goes_queue_is_empty : goes queue_is_empty.
Proof. apply goes_on_queue. Qed.

Lemma goes_take_dropped : goes queue_take_dropped.
Proof. apply goes_on_queue. Qed.

Lemma grows_goes {A} (m : Round A) : goes m -> grows m.
Proof.
  intros Hm c Hc _. destruct (Hm [] c Hc) as [H1 _]; [by intros e He%not_elem_of_nil|].
  split; [done|]. by destruct (m c).2.
Qed.

Lemma grows_bind {A A'} (m : Round A) (f : A -> Round A') :
  grows m -> (forall a, grows (f a)) -> grows (m ≫= f).
Proof. intros Hm Hf. eapply records_bind; [exact Hm|]. intros a. apply Hf. Qed.

Lemma grows_try_reset {A} (a : A) m : grows m -> grows (try_reset a m).
Proof.
  intros Hm c Hc _. unfold try_reset. destruct (Hm c Hc I) as [H1 _].
  destruct (m c) as [c' [x|]]; simpl in *; [done|]. split; [|done]. unfold reset_backend.
  by destruct (backend_ c').
Qed.

Create HintDb core_goes.
Hint Resolve goes_ret goes_shouldStop goes_inflight goes_ensureBackend goes_get_state goes_get_config
  goes_cleanup_due goes_set_next goes_queue_is_empty goes_take_dropped goes_reserve goes_acknowledge
  grows_goes : core_goes.

Ltac solve_grows :=
  repeat match goal with
  | |- grows (mret _) => apply grows_goes, goes_ret
  | |- grows (_ ≫= _) => apply grows_bind
  | |- grows (call _ _) => apply grows_goes, goes_call; done
  | |- grows (if ?b then _ else _) => destruct b
  | |- grows (match ?x with _ => _ end) => destruct x
  | |- forall _, _ => intros ?
  end; eauto with core_goes.

Lemma grows_flush dl : grows (flushOneCandidateBatch dl).
Proof. unfold flushOneCandidateBatch. solve_grows. Qed.
Hint Resolve grows_flush : core_goes.

Lemma grows_drain dl : grows (drainCandidatesUntil dl).
Proof.
  unfold drainCandidatesUntil. solve_grows. apply grows_try_reset.
  assert (forall fuel, grows (drain_loop dl fuel)) as Hl
    by (induction fuel as [|fuel IH]; simpl; solve_grows).
  intros c Hc _. by apply Hl.
Qed.
Hint Resolve grows_drain : core_goes.

Lemma grows_handleResetBarrier dl barrier : grows (handleResetBarrier dl barrier).
Proof. unfold handleResetBarrier. solve_grows. Qed.
Hint Resolve grows_handleResetBarrier : core_goes.

Lemma grows_retry dl : grows (retryPublishedRevision dl).
Proof.
  unfold retryPublishedRevision. solve_grows.
Qed.
Hint Resolve grows_retry : core_goes.

Lemma records_ends {A} F (m : Round A) :
  grows m -> records (knows F) m (fun _ _ => True).
Proof. intros Hm c Hc _. by apply Hm. Qed.

(** Continues after a step that keeps the facts. *)
Lemma records_aside_bind {A A'} F (m : Round A) (f : A -> Round A') :
  goes m -> (forall a, records (knows F) (f a) (fun _ _ => True)) ->
  records (knows F) (m ≫= f) (fun _ _ => True).
Proof. intros Hm Hf. eapply records_bind; [apply Hm|]. done. Qed.

Lemma records_publish dl F s u active r now steady due :
  active = active_entries now u -> EvSnapshot (Some s) ∈ F -> snapshot_status s = StoreStatus.Ok ->
  collect_unique (snapshot_entries s) [] = Some u ->
  (forall l, (forall e, e ∈ F -> e ∈ l) -> revision_of l s u now r) ->
  records (knows F) (publish_snapshot dl active r now steady due) (fun _ _ => True).
Proof.
  intros -> Hs Hst Hu Hr. unfold publish_snapshot.
  destruct (prepareCandidate _ now) as [cand|] eqn:Ep; [|apply records_ends; solve_grows].
  apply records_aside_bind; [auto with core_goes|]. intros []; [apply records_ends; solve_grows|].
  intros c [Hj Hp] HF. simpl. assert (publication_ok (events c) (Some cand) r) as Hn.
  { right. exists s, u, now, cand. split_and!; try done; [|by apply Hr]. split_and!; auto. }
  unfold mbind, round_bind. simpl. destruct due; simpl; by split.
Qed.

Lemma grows_refresh dl now steady : grows (refreshSnapshotAndExpiry dl now steady).
Proof.
  unfold refreshSnapshotAndExpiry. apply grows_bind; [auto with core_goes|]. intros []; [solve_grows|].
  apply grows_bind; [solve_grows|]. intros revision.
  destruct (store_ok revision); [|solve_grows].
  destruct (store_revision revision) as [current|]; [|solve_grows].
  do 2 (apply grows_bind; [auto with core_goes|]; intros ?). case_match; [solve_grows|].
  apply grows_bind; [auto with core_goes|]. intros config.
  apply (records_weaken _ (knows [])); [|by intros c _ e He%not_elem_of_nil].
  eapply records_bind; [by apply learns|]. intros s. simpl.
  destruct (bool_decide (snapshot_status s = StoreStatus.Ok)) eqn:Es; cbn [negb];
    [|apply records_ends; solve_grows]. apply bool_decide_eq_true in Es.
  apply records_aside_bind; [auto with core_goes|]. intros []; [apply records_ends; solve_grows|].
  destruct (collect_unique _ []) as [u|] eqn:Eu; [|apply records_ends; solve_grows].
  case_match.
  - eapply records_bind; [by apply learns|]. intros removed. simpl.
    destruct (store_ok removed) eqn:Eo; [|apply records_ends; solve_grows].
    destruct (store_revision removed) as [after|] eqn:Ea; [|apply records_ends; solve_grows].
    apply records_aside_bind; [auto with core_goes|]. intros []; [apply records_ends; solve_grows|].
    eapply records_publish; [done|by right; left|done|done|]. intros l Hl. right. exists removed.
    unfold store_ok in Eo. apply andb_prop in Eo as [Eo _]. apply bool_decide_eq_true in Eo.
    split_and!; [apply Hl; by left|done|done].
  - eapply records_publish; [done|by left|done|done|]. intros l Hl. by left.
Qed.
Hint Resolve grows_refresh : core_goes.

(** A justified deletion. *)
Lemma records_delete F ids (op : B -> B * option StoreStatus.t) :
  (forall l, (forall e, e ∈ F -> e ∈ l) -> deletable l ids) ->
  records (knows F) (call (EvDelete ids) op) (fun _ => knows F).
Proof.
  intros Hd c Hc HF. destruct (records_call (knows F) (EvDelete ids) op) with (c := c) as [H1 H2]; try done.
  { intros c' r ids' s Hk [= <- _]. by apply Hd. }
  split; [done|]. destruct (call _ op c) as [c' [a|]]; simpl in *; [|done].
  destruct H2 as (c0 & H2 & H3 & _). intros e He. rewrite H3. apply elem_of_app. left. auto.
Qed.

Lemma grows_flush_pending dl : grows (flushOnePendingBatch dl).
Proof.
  unfold flushOnePendingBatch. apply grows_bind; [auto with core_goes|]. intros []; [solve_grows|].
  apply grows_bind; [auto with core_goes|]. intros config.
  apply (records_weaken _ (knows [])); [|by intros c _ e He%not_elem_of_nil].
  eapply records_bind; [by apply learns|]. intros p. simpl.
  set (F := [EvReadPending (Some p)]). assert (EvReadPending (Some p) ∈ F) as HF by by left.
  destruct (_ || _)%bool; [apply records_ends; solve_grows|].
  apply (records_bind _ _ _ (fun _ => knows F)).
  { unfold delete_invalid. destruct (invalid_ids (pending_entries p)) as [|i ids] eqn:Ei.
    - by intros c Hc Hk.
    - eapply records_bind; [|intros st c Hc Hk; exact (conj Hc Hk)].
      apply records_delete. intros l Hl. exists p. split; [by apply Hl|]. left. by rewrite Ei. }
  intros deleted. destruct deleted; cbn [negb]; [|apply records_ends; solve_grows].
  destruct (pending_mutations (pending_entries p)) as [|m ms] eqn:Em; [apply records_ends; solve_grows|].
  apply records_aside_bind; [auto with core_goes|]. intros []; [apply records_ends; solve_grows|].
  eapply records_bind; [by apply learns|]. intros applied.
  destruct applied; cbn [negb]; [|apply records_ends; solve_grows].
  apply records_aside_bind; [auto with core_goes|]. intros []; [apply records_ends; solve_grows|].
  eapply records_bind; [apply records_delete|intros a; apply records_ends; solve_grows].
  intros l Hl. exists p. split; [apply Hl; by right|]. right. split; [done|]. rewrite Em.
  apply Hl. by left.
Qed.
Hint Resolve grows_flush_pending : core_goes.

Lemma grows_runRound dl now steady : grows (core_runRound dl now steady).
Proof.
  unfold core_runRound. apply grows_bind; [by apply grows_goes, goes_set_state|]. intros _.
  solve_grows. apply grows_try_reset. unfold round_body. solve_grows.
Qed.

Lemma run_ops_history ops c : history_ok c -> history_ok (foldl run_op c ops).
Proof.
  revert c. induction ops as [|op ops IH]; intros c Hc; simpl; [done|]. apply IH. destruct op; simpl.
  - by apply grows_runRound.
  - by apply grows_drain.
Qed.
End History.

Section Claims.
Context {B : Type} `{!IBlacklistMaintenanceBackend B}.

Lemma make_history config factory q manager r dirty first stops inflight arrivals :
  history_ok manager r
    (make_core (B := B) config factory q manager r dirty first stops inflight arrivals).
Proof. split; [|by left]. intros l1 ids x l2 Hl. by destruct l1. Qed.

Lemma run_ops_deletable config factory q manager r dirty first stops inflight arrivals ops
    before ids answer after :
  let c := foldl run_op
             (make_core (B := B) config factory q manager r dirty first stops inflight arrivals) ops in
  events c = before ++ EvDelete ids answer :: after -> deletable before ids.
Proof.
  intros c Hc. destruct (run_ops_history manager r ops _ (make_history config factory q manager r dirty
    first stops inflight arrivals)) as [Hj _]. by eapply Hj.
Qed.

(** Only stable snapshots are published.  After any sequence of rounds and
    drains the manager still has its first snapshot and revision, or it has the
    snapshot built from the unexpired entries of a load that the store reported
    stable, whose repeated entries agree, and the published revision is the one
    of that load or the one of the removal of exactly its expired entries. *)
Theorem published_snapshots_stable config factory q manager0 r dirty first stops inflight arrivals ops :
  let c := foldl run_op
             (make_core (B := B) config factory q manager0 r dirty first stops inflight arrivals) ops in
  (manager c = manager0 /\ last_published_revision (state_ c) = r)
  \/ exists s u now cand,
       EvSnapshot (Some s) ∈ events c /\ snapshot_status s = StoreStatus.Ok
       /\ collect_unique (snapshot_entries s) [] = Some u
       /\ prepareCandidate (active_entries now u) now = Some cand /\ manager c = Some cand
       /\ (last_published_revision (state_ c) = snapshot_revision s
           \/ exists res, EvRemove (expired_entries now u) (Some res) ∈ events c
              /\ store_status res = StoreStatus.Ok
              /\ store_revision res = Some (last_published_revision (state_ c))).
Proof.
  intros c. destruct (run_ops_history manager0 r ops _ (make_history config factory q manager0 r dirty
    first stops inflight arrivals)) as [_ [Hp|Hp]]; [by left|].
  destruct Hp as (s & u & now & cand & (H1 & H2 & H3) & Hr & H4 & H5). right. exists s, u, now, cand.
  by split_and!.
Qed.
End Claims.

(** ** The drain ends *)

Section Drain.
Context {B : Type} `{!IBlacklistMaintenanceBackend B}.

(** [m] takes answers of [shouldStop], and gives none back. *)
Definition asks {A} (m : Round (B := B) A) : Prop := forall c, (length (stops (m c).1) <= length (stops c))%nat.

Lemma asks_ret {A} (a : A) : asks (mret a).
Proof. by intros c. Qed.

Lemma asks_bind {A A'} (m : Round A) (f : A -> Round A') :
  asks m -> (forall a, asks (f a)) -> asks (m ≫= f).
Proof.
  intros Hm Hf c. unfold mbind, round_bind. specialize (Hm c). destruct (m c) as [c' [a|]]; simpl in *; [|done].
  specialize (Hf a c'). lia.
Qed.

Lemma interfere_stops (c : Core B) : stops (interfere c) = stops c.
Proof. unfold interfere. destruct (arrivals c); [done|]. by destruct (submit_all _ _ _). Qed.

Lemma asks_on_queue {A} (op : BlacklistCandidateQueue -> BlacklistCandidateQueue * A) : asks (on_queue op).
Proof.
  intros c. unfold on_queue. destruct (op (queue (interfere c))). simpl. by rewrite interfere_stops.
Qed.

Lemma asks_call {A} record (op : B -> B * option A) : asks (call record op).
Proof. intros c. unfold call. destruct (backend_ c); [|done]. by destruct (op b). Qed.

Lemma asks_shouldStop dl : asks (shouldStop dl).
Proof. intros c. unfold shouldStop. destruct (stops c) eqn:E; simpl; rewrite ?E; simpl; lia. Qed.

Lemma asks_flush dl : asks (flushOneCandidateBatch dl).
Proof.
  unfold flushOneCandidateBatch. apply asks_bind; [apply asks_shouldStop|]. intros []; [apply asks_ret|].
  apply asks_bind; [intros c; apply asks_on_queue|]. intros [|m ms]; [apply asks_ret|].
  apply asks_bind; [apply asks_call|]. intros s. destruct (store_ok s); [|apply asks_ret].
  apply asks_bind; [|intros []; apply asks_ret]. intros c. simpl. by rewrite interfere_stops.
Qed.

(** Two bodies that agree on cores with fewer answers left. *)
Lemma bind_agree {A A'} (m : Round (B := B) A) (f g : A -> Round A') c n :
  asks m -> (length (stops c) <= n)%nat ->
  (forall a c', (length (stops c') <= n)%nat -> f a c' = g a c') -> (m ≫= f) c = (m ≫= g) c.
Proof.
  intros Hm Hc Hfg. unfold mbind, round_bind. specialize (Hm c). destruct (m c) as [c' [a|]]; [|done].
  simpl in Hm. apply Hfg. lia.
Qed.

Lemma bind_shouldStop {A} dl (f : bool -> Round (B := B) A) c :
  (shouldStop dl ≫= f) c = match stops c with
    | [] => f true c
    | s :: rest => f (pool_stop s || maintenance_stop s || (dl <=? stop_clock s))%bool (c <| stops := rest |>)
    end.
Proof. unfold mbind, round_bind, shouldStop. by destruct (stops c). Qed.

Lemma drain_loop_enough dl n : forall fuel fuel' c,
  (length (stops c) <= n)%nat -> (n < fuel)%nat -> (n < fuel')%nat ->
  drain_loop dl fuel c = drain_loop dl fuel' c.
Proof.
  induction n as [n IH] using lt_wf_ind. intros [|fuel] [|fuel'] c Hc Hf Hf'; [lia..|]. simpl.
  eapply bind_agree; [apply asks_on_queue|exact Hc|]. intros empty c1 Hc1. destruct empty; [done|].
  rewrite !bind_shouldStop. destruct (stops c1) as [|reading rest] eqn:Es; [done|].
  destruct (_ || _)%bool; [done|]. simpl in Hc1.
  assert (forall c', (length (stops c') <= length rest)%nat ->
    drain_loop dl fuel c' = drain_loop dl fuel' c') as Hl by (intros c' Hc'; eapply IH; [|done|..]; lia).
  eapply (bind_agree _ _ _ _ (length rest)); [apply asks_flush|simpl; lia|].
  intros flushed c2 Hc2. destruct flushed; [by apply Hl|].
  eapply bind_agree; [apply asks_shouldStop|exact Hc2|]. intros s c3 Hc3. destruct s; [done|by apply Hl].
Qed.

Lemma drain_loop_empty dl fuel : forall c c',
  drain_loop dl fuel c = (c', Some true) -> queue_empty (queue c') = true.
Proof.
  induction fuel as [|fuel IH]; intros c c'; simpl; [done|].
  set (body := fun empty : bool => _). unfold mbind at 1, round_bind at 1.
  unfold queue_is_empty, on_queue, body. clear body.
  destruct (queue_empty (queue (interfere c))) eqn:Ee; [intros [= <-]; exact Ee|].
  rewrite bind_shouldStop. destruct (stops _) as [|s rest]; [done|].
  destruct (_ || _)%bool; [done|]. unfold mbind, round_bind.
  destruct (flushOneCandidateBatch dl _) as [c2 [[]|]]; [apply IH| |done].
  destruct (shouldStop dl c2) as [c3 [[]|]]; [done|apply IH|done].
Qed.

(** [drainCandidatesUntil] ends.  Every pass of its loop asks whether to
    stop, and an exhausted budget of answers says yes: the fuel that the model
    gives the loop, one more than the answers that are left, is never used up,
    so that any larger fuel gives the same core and the same answer; and the
    answer is true only if the queue was seen empty. *)
Theorem drain_terminates dl (c : Core B) extra :
  let '(c', answer) := drain_loop dl (drain_fuel c) c in
  drain_loop dl (drain_fuel c + extra) c = (c', answer)
  /\ (answer = Some true -> queue_empty (queue c') = true).
Proof.
  destruct (drain_loop dl (drain_fuel c) c) as [c' answer] eqn:E. split.
  - rewrite <-E. apply (drain_loop_enough dl (length (stops c))); unfold drain_fuel; lia.
  - intros ->. by eapply drain_loop_empty.
Qed.
End Drain.
