(* ===== verification/Bootstrap.v ===== *)
(** * Bootstrap: filling the blacklist cache at start-up

    Model of [app/blacklist_cache_bootstrap.{hpp,cpp}]: when Redis has no
    complete list, the records that MySQL has not confirmed are stored first,
    in the order of the stream, and the list is then rebuilt from MySQL.  The
    two stores are those of [RedisStore] and [MysqlDao]; the readings of the
    steady clock between their calls are a list, and time has passed the
    deadline when it ends.  The state keeps the calls in order. *)

From S2P Require Import Prelude Text IpAddress Blacklist CandidateQueue RedisConnection RedisStore MysqlDao.
From S2P Require Import MaintenanceBackend MaintenanceCore.
Open Scope Z_scope.

(** What was called, with the answer. *)
Inductive BootEvent :=
| BReady (status : StoreStatus.t)
| BSnapshot (snapshot : SnapshotReadResult)
| BPending (read : PendingReadResult)
| BDelete (ids : list string) (status : StoreStatus.t)
| BMysql (mutations : list BlacklistMutation) (ok : bool)
| BLoad (entries : list BlacklistEntry) (ok : bool)
| BRebuild (entries : list BlacklistEntry) (status : StoreStatus.t).

Record Stores := mkStores {
  boot_redis : RedisConnection;
  boot_mysql : MysqlDao;
  boot_clocks : list Z;
  boot_events : list BootEvent;
}.

Record BlacklistBootstrapResult := mkBootResult {
  boot_status : StoreStatus.t;
  boot_snapshot : SnapshotReadResult;
}.

Definition Boot (A : Type) : Type := Stores -> Stores * A.

#[export] Instance boot_ret : MRet Boot := fun A a s => (s, a).
#[export] Instance boot_bind : MBind Boot := fun A B f m s => let '(s, a) := m s in f a s.

Definition makeSnapshotReadResult (status : StoreStatus.t) : SnapshotReadResult := mkSnapshotRead status 0 [].

(** Without a snapshot, its default value. *)
Definition bootFailure (status : StoreStatus.t) : BlacklistBootstrapResult :=
  mkBootResult status (makeSnapshotReadResult StoreStatus.IoError).

Definition with_snapshot (snapshot : SnapshotReadResult) : BlacklistBootstrapResult :=
  mkBootResult (snapshot_status snapshot) snapshot.

(** A call of one of the stores. *)
Definition on_redis {A} (event : A -> BootEvent) (m : Redis A) : Boot A := fun s =>
  let '(c, a) := m (boot_redis s) in
  (s <| boot_redis := c |> <| boot_events := boot_events s ++ [event a] |>, a).

Definition on_mysql {A} (event : A -> BootEvent) (m : Mysql A) : Boot A := fun s =>
  let '(d, a) := m (boot_mysql s) in
  (s <| boot_mysql := d |> <| boot_events := boot_events s ++ [event a] |>, a).

Section Bootstrap.
Context `{Inet} (keys : RedisKeySet) (deadline : Z).

(** [steady_clock::now() >= deadline] *)
Definition past_deadline : Boot bool := fun s =>
  match boot_clocks s with
  | [] => (s, true)
  | now :: rest => (s <| boot_clocks := rest |>, deadline <=? now)
  end.

(** One pass of a loop per reading of the clock. *)
Definition boot_fuel : Boot nat := fun s => (s, S (length (boot_clocks s))).

Fixpoint read_stable (fuel : nat) (scan_count : Z) : Boot SnapshotReadResult :=
  match fuel with
  | O => mret (makeSnapshotReadResult StoreStatus.DeadlineExceeded)
  | S fuel =>
      late ← past_deadline;
      if (late : bool) then mret (makeSnapshotReadResult StoreStatus.DeadlineExceeded)
      else
        snapshot ← on_redis BSnapshot (loadStableSnapshot keys deadline scan_count);
        if negb (bool_decide (snapshot_status snapshot = StoreStatus.WatchConflict)) then mret snapshot
        else read_stable fuel scan_count
  end.

Definition readStableUntilDeadline (scan_count : Z) : Boot SnapshotReadResult :=
  fuel ← boot_fuel; read_stable fuel scan_count.

Definition delete_pending (ids : list string) : Boot StoreStatus.t :=
  on_redis (BDelete ids) (deletePending keys deadline ids).

(** After a failure of MySQL. *)
Definition mysql_failure : Boot StoreStatus.t :=
  late ← past_deadline; mret (if (late : bool) then StoreStatus.DeadlineExceeded else StoreStatus.IoError).

(** One batch of the stream; [Some] is the status to return. *)
Definition flush_batch (entries : list PendingBlacklistEntry) : Boot (option StoreStatus.t) :=
  deleted ← (match invalid_ids entries with
             | [] => mret StoreStatus.Ok
             | ids => delete_pending ids
             end);
  if negb (bool_decide (deleted = StoreStatus.Ok)) then mret (Some deleted)
  else
    match pending_mutations entries with
    | [] => mret None
    | mutations =>
        applied ← on_mysql (BMysql mutations) (applyBlacklistMutations deadline mutations);
        if negb applied then status ← mysql_failure; mret (Some status)
        else
          deleted ← delete_pending (valid_ids entries);
          mret (if negb (bool_decide (deleted = StoreStatus.Ok)) then Some deleted else None)
    end.

(** The loop over the stream; [None] when it is empty. *)
Fixpoint flush_stream (fuel : nat) (batch_size : Z) : Boot (option StoreStatus.t) :=
  match fuel with
  | O => mret (Some StoreStatus.DeadlineExceeded)
  | S fuel =>
      late ← past_deadline;
      if (late : bool) then mret (Some StoreStatus.DeadlineExceeded)
      else
        read ← on_redis BPending (readPending keys deadline batch_size);
        if negb (bool_decide (pending_status read = StoreStatus.Ok)) then mret (Some (pending_status read))
        else
          match pending_entries read with
          | [] => mret None
          | entries =>
              ended ← flush_batch entries;
              match ended with Some status => mret (Some status) | None => flush_stream fuel batch_size end
          end
  end.

(** [loadEnabledBlacklists] with [lastBlacklistLoadSucceeded]. *)
Definition load_entries : Boot (list BlacklistEntry * bool) :=
  on_mysql (fun r => BLoad r.1 r.2)
    (fun d => let '(d, entries) := loadEnabledBlacklists deadline d in
              (d, (entries, last_blacklist_load_succeeded d))).

Definition ready_revision : Boot StoreStatus.t :=
  on_redis BReady (r ← readReadyRevision keys deadline; mret (store_status r)).

(** The loop of the competing starters. *)
Fixpoint rebuild_loop (fuel : nat) (scan_count : Z) (entries : list BlacklistEntry)
    : Boot BlacklistBootstrapResult :=
  match fuel with
  | O => mret (bootFailure StoreStatus.DeadlineExceeded)
  | S fuel =>
      late ← past_deadline;
      if (late : bool) then mret (bootFailure StoreStatus.DeadlineExceeded)
      else
        rebuilt ← on_redis (BRebuild entries)
                    (r ← rebuildFromMysql keys deadline entries; mret (store_status r));
        if bool_decide (rebuilt = StoreStatus.Ok)
        then snapshot ← readStableUntilDeadline scan_count; mret (with_snapshot snapshot)
        else if negb (bool_decide (rebuilt = StoreStatus.WatchConflict)) then mret (bootFailure rebuilt)
        else
          ready ← ready_revision;
          if bool_decide (ready = StoreStatus.Ok)
          then snapshot ← readStableUntilDeadline scan_count; mret (with_snapshot snapshot)
          else if negb (bool_decide (ready = StoreStatus.NotReady)) then mret (bootFailure ready)
          else rebuild_loop fuel scan_count entries
  end.

Definition initializeBlacklistCache (batch_size scan_count : Z) : Boot BlacklistBootstrapResult :=
  if ((batch_size =? 0) || (scan_count =? 0))%bool then mret (bootFailure StoreStatus.ProtocolError)
  else
    ready ← ready_revision;
    if bool_decide (ready = StoreStatus.Ok)
    then snapshot ← readStableUntilDeadline scan_count; mret (with_snapshot snapshot)
    else if negb (bool_decide (ready = StoreStatus.NotReady)) then mret (bootFailure ready)
    else
      fuel ← boot_fuel;
      ended ← flush_stream fuel batch_size;
      match ended with
      | Some status => mret (bootFailure status)
      | None =>
          '(entries, loaded) ← load_entries;
          if negb loaded then status ← mysql_failure; mret (bootFailure status)
          else fuel ← boot_fuel; rebuild_loop fuel scan_count entries
      end.
End Bootstrap.

(** ** What the calls do to the stores *)

Definition good (s : Stores) : Prop := ready (boot_redis s) /\ open_sql (sql_of (boot_mysql s)) = None.

(** What Redis has executed and MySQL committed. *)
Definition redis_done (s : Stores) : list (list string) := executed (session_of (boot_redis s)).
Definition mysql_done (s : Stores) : list SqlCall := committed (sql_of (boot_mysql s)).

Definition committed_batch (ms : list BlacklistMutation) (sql : list SqlCall) `{Inet} : Prop :=
  exists before s after, batch_statements ms = Some s /\ sql = before ++ s ++ after.

Section Specs.
Context `{Inet, !InetLaws} (keys : RedisKeySet) (deadline : Z).

(** The events that a program adds, with its answer, and what it executes. *)
Definition does {A} (m : Boot A) (R : Stores -> A -> list BootEvent -> list (list string) -> Stores -> Prop) : Prop :=
  forall s, good s -> exists evs delta,
    boot_events (m s).1 = boot_events s ++ evs /\ redis_done (m s).1 = redis_done s ++ delta
    /\ mysql_done s `prefix_of` mysql_done (m s).1 /\ R s (m s).2 evs delta (m s).1.

Lemma does_ret {A} (a : A) (R : Stores -> A -> list BootEvent -> list (list string) -> Stores -> Prop) :
  (forall s, good s -> R s a [] [] s) -> does (mret a) R.
Proof. intros HR s Hs. exists [], []. rewrite !app_nil_r. by split_and!; [..|apply HR]. Qed.

(** A program that only reads the clock. *)
Definition idle {A} (m : Boot A) : Prop := forall s, exists clocks, (m s).1 = s <| boot_clocks := clocks |>.

Lemma idle_ret {A} (a : A) : idle (mret a).
Proof. intros s. exists (boot_clocks s). by destruct s. Qed.

(** What follows starts from a good state, or only reads the clock. *)
Lemma does_bind {A B} (m : Boot A) (f : A -> Boot B) P R :
  does m P ->
  (forall s a evs delta s1, good s -> P s a evs delta s1 ->
     good s1 /\ does (f a) (fun s0 b evs' delta' s' => s0 = s1 -> mysql_done s1 `prefix_of` mysql_done s' ->
                             R s b (evs ++ evs') (delta ++ delta') s')
     \/ idle (f a) /\ forall clocks, R s (f a s1).2 evs delta (s1 <| boot_clocks := clocks |>)) ->
  does (m ≫= f) R.
Proof.
  intros Hm Hf s Hs. destruct (Hm s Hs) as (evs & delta & E1 & E2 & E3 & HP).
  unfold mbind, boot_bind. destruct (m s) as [s1 a]. simpl in *.
  destruct (Hf s a evs delta s1 Hs HP) as [[Hg Hd]|[Hi HR]].
  - destruct (Hd s1 Hg) as (evs' & delta' & E1' & E2' & E3' & HR). exists (evs ++ evs'), (delta ++ delta').
    rewrite E1', E2', E1, E2, <-!app_assoc. split_and!; [done|done|by etransitivity|by apply HR].
  - destruct (Hi s1) as [clocks Ec]. rewrite Ec. exists evs, delta. by split_and!.
Qed.

Lemma does_redis {A} (event : A -> BootEvent) (st : A -> StoreStatus.t) (m : Redis A) R :
  operates st m R ->
  does (on_redis event m) (fun _ a evs delta s' => evs = [event a] /\ R a delta
    /\ (dropsRedisConnection (st a) = false -> good s')).
Proof.
  intros Hm s [Hr Hq]. unfold on_redis. specialize (Hm _ _ (conj Hr eq_refl)).
  destruct (m (boot_redis s)) as [c a]. simpl in Hm. destruct Hm as (Hk & delta & He & HR).
  exists [event a], delta. unfold redis_done, mysql_done, good. simpl. split_and!; try done.
  intros Hd. split; [by apply Hk|done].
Qed.

Lemma does_clock : does (past_deadline deadline) (fun s _ evs delta s' => evs = [] /\ delta = [] /\ good s').
Proof.
  intros s Hs. exists [], []. unfold past_deadline. rewrite !app_nil_r. by destruct (boot_clocks s); split_and!.
Qed.

Lemma does_fuel : does boot_fuel (fun s _ evs delta s' => evs = [] /\ delta = [] /\ good s').
Proof. intros s Hs. exists [], []. unfold boot_fuel. rewrite !app_nil_r. by split_and!. Qed.

(** The event of an applied batch tells the truth. *)
Lemma does_mysql mutations :
  does (on_mysql (BMysql mutations) (applyBlacklistMutations deadline mutations)) (fun _ ok evs delta s' =>
    evs = [BMysql mutations ok] /\ delta = []
    /\ (ok = true -> good s' /\ committed_batch mutations (mysql_done s'))).
Proof.
  intros s [Hr Hq]. unfold on_mysql. destruct (applyBlacklistMutations_emits deadline mutations (boot_mysql s)) as (l & Hc & _).
  destruct (applyBlacklistMutations deadline mutations (boot_mysql s)) as [d ok] eqn:Ea. simpl in Hc.
  exists [BMysql mutations ok], []. unfold redis_done, mysql_done, good. simpl. rewrite app_nil_r. split_and!; try done.
  - unfold sql_of. rewrite Hc, foldl_app. apply committed_grows.
  - intros ->. destruct (applyBlacklistMutations_true _ _ _ _ Hq Ea) as (q & Hb & Hsql). rewrite Hsql. simpl.
    split; [done|]. exists (committed (sql_of (boot_mysql s))), q, []. by rewrite app_nil_r.
Qed.

#[local] Hint Resolve silent_ret silent_bind silent_or_else silent_fails silent_prepare silent_deadlineReached
  silent_next_answer : silent.

Lemma silent_fetch row fuel entries : silent (fetch_loop deadline fuel row entries).
Proof.
  revert entries. induction fuel as [|fuel IH]; intros entries; simpl; [apply silent_ret|].
  apply silent_bind; [auto with silent|]. intros []; [auto with silent|].
  apply silent_bind; [auto with silent|]. intros a. apply silent_bind; [auto with silent|].
  intros []; [auto with silent|]. repeat case_match; auto with silent.
Qed.

Lemma silent_append row entries : silent (append_entries deadline row entries).
Proof.
  unfold append_entries. apply silent_bind; [auto with silent|]. intros [|]; [|apply silent_ret]. simpl.
  apply silent_bind; [auto with silent|]. intros [|]; [apply silent_ret|].
  apply silent_bind; [auto with silent|]. intros [|]; [apply silent_ret|].
  apply silent_bind; [by apply silent_step|]. intros fuel. apply silent_fetch.
Qed.

Lemma silent_load : silent (loadEnabledBlacklists deadline).
Proof.
  unfold loadEnabledBlacklists, appendTextEntries, appendIpEntries. apply silent_bind; [by apply silent_step|]. intros _.
  apply silent_bind; [by apply silent_step|]. intros [|]; [|apply silent_ret]. simpl.
  apply silent_bind; [auto with silent|]. intros [|]; [apply silent_ret|].
  do 3 (apply silent_bind; [apply silent_append|]; intros [?|]; [|apply silent_ret]).
  apply silent_bind; [auto with silent|]. intros [|]; [apply silent_ret|].
  apply silent_bind; [by apply silent_step|]. intros _. apply silent_ret.
Qed.

Lemma does_load :
  does (load_entries deadline) (fun s r evs delta s' => evs = [BLoad r.1 r.2] /\ delta = [] /\ good s').
Proof.
  intros s [Hr Hq]. unfold load_entries, on_mysql. destruct (silent_load (boot_mysql s)) as (l & Hc & ->).
  destruct (loadEnabledBlacklists deadline (boot_mysql s)) as [d entries]. simpl in Hc.
  exists [BLoad entries (last_blacklist_load_succeeded d)], [].
  unfold redis_done, mysql_done, good, sql_of in *. simpl. rewrite Hc, !app_nil_r. by split_and!.
Qed.

(** *** The order of the calls *)

(** A deletion is preceded by the read of the batch, and for valid records by
    its commit. *)
Definition justified (before : list BootEvent) (ids : list string) : Prop :=
  exists p, BPending p ∈ before /\ pending_status p = StoreStatus.Ok
  /\ (ids = invalid_ids (pending_entries p)
      \/ ids = valid_ids (pending_entries p) /\ BMysql (pending_mutations (pending_entries p)) true ∈ before).

Fixpoint deletes_ok (seen evs : list BootEvent) : Prop :=
  match evs with
  | [] => True
  | e :: rest => match e with BDelete ids _ => justified seen ids | _ => True end /\ deletes_ok (seen ++ [e]) rest
  end.

(** The valid records of every batch that was read are in MySQL. *)
Definition stored_all (evs : list BootEvent) : Prop :=
  forall q, BPending q ∈ evs ->
    pending_mutations (pending_entries q) = [] \/ BMysql (pending_mutations (pending_entries q)) true ∈ evs.

Definition commits_ok (evs : list BootEvent) (s : Stores) : Prop :=
  forall ms, BMysql ms true ∈ evs -> committed_batch ms (mysql_done s).

Definition deletion (argv : list string) : Prop := exists ids, argv = "XDEL" :: pending keys :: ids.

Lemma justified_grows seen seen' ids : seen ⊆ seen' -> justified seen ids -> justified seen' ids.
Proof. intros Hs (p & H1 & H2 & H3). exists p. naive_solver. Qed.

Lemma deletes_ok_grows seen seen' evs : seen ⊆ seen' -> deletes_ok seen evs -> deletes_ok seen' evs.
Proof.
  revert seen seen'. induction evs as [|e evs IH]; intros seen seen' Hs; [done|]. simpl. intros [H1 H2]. split.
  - destruct e; try done. by eapply justified_grows.
  - eapply IH; [|exact H2]. set_solver.
Qed.

Lemma deletes_ok_app seen a b : deletes_ok seen (a ++ b) <-> deletes_ok seen a /\ deletes_ok (seen ++ a) b.
Proof.
  revert seen. induction a as [|e a IH]; intros seen; simpl; [by rewrite app_nil_r; intuition|].
  rewrite IH, <-app_assoc. simpl. tauto.
Qed.

Lemma deletes_ok_join a b : deletes_ok [] a -> deletes_ok [] b -> deletes_ok [] (a ++ b).
Proof. intros Ha Hb. apply deletes_ok_app. split; [done|]. eapply deletes_ok_grows; [|exact Hb]. set_solver. Qed.

Lemma stored_all_join a b : stored_all a -> stored_all b -> stored_all (a ++ b).
Proof. unfold stored_all. intros Ha Hb q. rewrite !elem_of_app. intros [Hq|Hq]; [destruct (Ha q Hq)|destruct (Hb q Hq)]; auto. Qed.

Lemma committed_batch_grows ms l l' : l `prefix_of` l' -> committed_batch ms l -> committed_batch ms l'.
Proof.
  intros [rest ->] (a & s & b & Hs & ->). exists a, s, (b ++ rest). by rewrite <-!app_assoc.
Qed.

Lemma commits_ok_join a b s s' :
  commits_ok a s -> mysql_done s `prefix_of` mysql_done s' -> commits_ok b s' -> commits_ok (a ++ b) s'.
Proof.
  intros Ha Hp Hb ms. rewrite elem_of_app. intros [Hm|Hm]; [|by apply Hb].
  eapply committed_batch_grows; [exact Hp|by apply Ha].
Qed.

(** *** The programs *)

Lemma does_weaken {A} (m : Boot A) (R R' : Stores -> A -> list BootEvent -> list (list string) -> Stores -> Prop) :
  does m R -> (forall s a evs delta s', good s -> mysql_done s `prefix_of` mysql_done s' ->
                 R s a evs delta s' -> R' s a evs delta s') -> does m R'.
Proof. intros Hm HR s Hs. destruct (Hm s Hs) as (evs & delta & ? & ? & ? & ?). exists evs, delta. by split_and!; auto. Qed.

Lemma does_delete ids :
  does (delete_pending keys deadline ids) (fun _ st evs delta s' =>
    evs = [BDelete ids st] /\ Forall deletion delta /\ (st = StoreStatus.Ok -> good s')).
Proof.
  eapply does_weaken; [apply (does_redis (BDelete ids) (fun s => s)), operates_deletePending|].
  simpl. intros s st evs delta s' _ _ (-> & Hd & Hg). split_and!; [done| |intros ->; by apply Hg].
  destruct Hd as [->| ->]; repeat constructor. by exists ids.
Qed.

Definition read_batch (p : PendingReadResult) (entries : list PendingBlacklistEntry) : Prop :=
  pending_entries p = entries /\ pending_status p = StoreStatus.Ok.

Definition is_stream (e : BootEvent) : Prop :=
  match e with BPending _ | BDelete _ _ | BMysql _ _ => True | _ => False end.

(** What one batch does. *)
Definition batch_done (entries : list PendingBlacklistEntry) (s : Stores) (o : option StoreStatus.t)
    (evs : list BootEvent) (delta : list (list string)) (s' : Stores) : Prop :=
  (forall p, read_batch p entries -> deletes_ok [BPending p] evs) /\ Forall deletion delta /\ commits_ok evs s'
  /\ (forall q, BPending q ∉ evs) /\ (Forall is_stream evs /\ o <> Some StoreStatus.Ok)
  /\ (o = None -> good s' /\ (pending_mutations entries = [] \/ BMysql (pending_mutations entries) true ∈ evs)).

Lemma idle_mysql_failure {A} (f : StoreStatus.t -> A) : idle (status ← mysql_failure deadline; mret (f status)).
Proof.
  intros s. unfold mysql_failure, past_deadline, mbind, boot_bind. destruct (boot_clocks s) as [|t ts] eqn:E; simpl.
  - exists []. destruct s. simpl in *. by subst.
  - by exists ts.
Qed.

Lemma deletes_one p entries ids st :
  read_batch p entries -> ids = invalid_ids entries -> deletes_ok [BPending p] [BDelete ids st].
Proof.
  intros [E Hs] ->. simpl. split; [|done]. exists p. rewrite E. split_and!; [by left|done|by left].
Qed.

Lemma does_flush_valid entries m ms :
  pending_mutations entries = m :: ms ->
  does (applied ← on_mysql (BMysql (m :: ms)) (applyBlacklistMutations deadline (m :: ms));
        if negb applied then status ← mysql_failure deadline; mret (Some status)
        else deleted ← delete_pending keys deadline (valid_ids entries);
             mret (if negb (bool_decide (deleted = StoreStatus.Ok)) then Some deleted else None))
    (batch_done entries).
Proof.
  intros Em. eapply does_bind; [apply does_mysql|]. intros s ok evs delta s1 Hs (-> & -> & Hok). destruct ok; simpl.
  - destruct Hok as [Hg Hc]; [done|]. left. split; [done|]. eapply does_bind; [apply does_delete|].
    intros s2 st evs delta s3 _ (-> & Hd & Hgo). right. split; [apply idle_ret|]. intros clocks -> Hpre. simpl.
    unfold batch_done. split_and!.
    + intros p [E Hp]. simpl. split_and!; [done| |done]. exists p. rewrite E. split_and!; [by left|done|].
      right. split; [done|]. rewrite Em. set_solver.
    + done.
    + intros ms' Hin. assert (ms' = m :: ms) as -> by set_solver. by eapply committed_batch_grows.
    + set_solver.
    + by repeat constructor.
    + by destruct (bool_decide_reflect (st = StoreStatus.Ok)) as [E|E]; simpl; [|intros [= ?]].
    + intros Ho. destruct (bool_decide_reflect (st = StoreStatus.Ok)) as [E|]; [|done]. split; [by apply Hgo|].
      right. rewrite Em. set_solver.
  - right. split; [apply (idle_mysql_failure Some)|]. intros clocks. unfold batch_done.
    split_and!; [done|constructor| | |by repeat constructor| |unfold mbind, boot_bind; by destruct (mysql_failure deadline s1)].
    + intros ms' [=]%list_elem_of_singleton.
    + intros q [=]%list_elem_of_singleton.
    + unfold mbind, boot_bind, mysql_failure. unfold mbind, boot_bind. destruct (past_deadline deadline s1) as [s2 []]; done.
Qed.

Lemma does_flush_batch entries : does (flush_batch keys deadline entries) (batch_done entries).
Proof.
  unfold flush_batch.
  assert (does (match invalid_ids entries with [] => mret StoreStatus.Ok | ids => delete_pending keys deadline ids end)
    (fun _ st evs delta s' => (evs = [] \/ evs = [BDelete (invalid_ids entries) st]) /\ Forall deletion delta
                              /\ (st = StoreStatus.Ok -> good s'))) as Hdel.
  { destruct (invalid_ids entries) as [|i ids]; [apply does_ret; intros s Hs; by split_and!; auto|].
    eapply does_weaken; [apply does_delete|]. simpl. naive_solver. }
  eapply does_bind; [exact Hdel|]. intros s st evs delta s1 Hs (He & Hd & Hg).
  assert (Hevs : (forall p, read_batch p entries -> deletes_ok [BPending p] evs) /\ (forall ms ok, BMysql ms ok ∉ evs)
                 /\ (forall q, BPending q ∉ evs) /\ Forall is_stream evs).
  { destruct He as [->| ->];
      (split_and!; [|intros * Hin; by apply list_elem_of_singleton in Hin || by apply not_elem_of_nil in Hin..|by repeat constructor]).
    - done.
    - intros p Hp. by apply (deletes_one p entries). }
  destruct Hevs as (H1 & H2 & H3 & H4).
  destruct (bool_decide_reflect (st = StoreStatus.Ok)) as [->|Hn]; simpl.
  - left. split; [by apply Hg|]. destruct (pending_mutations entries) as [|m ms] eqn:Em.
    + apply does_ret. intros s0 Hs0 -> Hpre. rewrite !app_nil_r. unfold batch_done.
      split_and!; [done|done|intros ms Hm; by apply H2 in Hm|done|done|done|]. auto.
    + eapply does_weaken; [by apply does_flush_valid|]. intros s0 o evs' delta' s' _ Hpre (B1 & B2 & B3 & B4 & [B4' B4''] & B5) -> _.
      unfold batch_done. split_and!.
      * intros p Hp. apply deletes_ok_app. split; [by apply H1|]. eapply deletes_ok_grows; [|by apply B1]. set_solver.
      * by apply Forall_app.
      * intros ms' [Hm|Hm]%elem_of_app; [by apply H2 in Hm|by apply B3].
      * intros q [Hq|Hq]%elem_of_app; [by apply H3 in Hq|by apply B4 in Hq].
      * by apply Forall_app.
      * done.
      * intros Ho. destruct (B5 Ho) as [? [?|?]]; [split; auto..|]. split; [done|]. right. apply elem_of_app. by right.
  - right. split; [apply idle_ret|]. intros clocks. unfold batch_done.
    split_and!; [done|done|intros ms Hm; by apply H2 in Hm|done|done|simpl; congruence|done].
Qed.

(** What the loop over the stream does. *)
Definition stream_done (o : option StoreStatus.t) (evs : list BootEvent) (delta : list (list string)) (s' : Stores)
    : Prop :=
  deletes_ok [] evs /\ Forall deletion delta /\ commits_ok evs s' /\ (Forall is_stream evs /\ o <> Some StoreStatus.Ok)
  /\ (o = None -> good s' /\ exists e0 p, evs = e0 ++ [BPending p] /\ pending_status p = StoreStatus.Ok
        /\ pending_entries p = [] /\ stored_all e0).

Lemma operates_readPending n :
  operates pending_status (readPending keys deadline n) (fun _ delta => delta = []).
Proof. apply operates_quiet; [apply quiet_readPending|apply kept_readPending]. Qed.

Lemma does_flush_stream fuel n :
  does (flush_stream keys deadline fuel n) (fun _ o evs delta s' => stream_done o evs delta s').
Proof.
  induction fuel as [|fuel IH]; simpl.
  { apply does_ret. intros s Hs. by split_and!; [..|intros ms Hm%not_elem_of_nil| | |]. }
  eapply does_bind; [apply does_clock|]. intros s late evs delta s1 _ (-> & -> & Hg). left. split; [done|].
  destruct late.
  { apply does_ret. intros s0 Hs0 _ _. by split_and!; [..|intros ms Hm%not_elem_of_nil| | |]. }
  eapply does_bind; [apply (does_redis BPending pending_status), operates_readPending|].
  intros s2 p evs delta s3 _ (-> & -> & Hgp).
  assert (deletes_ok [] [BPending p] /\ forall s0, commits_ok [BPending p] s0) as [Hd1 Hc1].
  { split; [done|]. intros s0 ms [=]%list_elem_of_singleton. }
  destruct (bool_decide_reflect (pending_status p = StoreStatus.Ok)) as [Hp|Hp]; simpl.
  2: { right. split; [apply idle_ret|]. intros clocks _ _. split_and!; try done; [by repeat constructor|simpl; congruence]. }
  destruct (pending_entries p) as [|e es] eqn:Ee.
  { left. split; [by rewrite Hp in Hgp; apply Hgp|]. apply does_ret. intros s0 Hs0 -> _ _ _. split_and!; try done.
    { by repeat constructor. }
    intros _. split; [done|]. exists [], p. split_and!; try done. intros q Hq%not_elem_of_nil. done. }
  rewrite <-Ee. left. split; [rewrite Hp in Hgp; by apply Hgp|].
  eapply does_bind; [apply does_flush_batch|]. intros s4 o evs delta s5 _ (B1 & B2 & B3 & B4 & [B4' B4''] & B5).
  assert (Forall is_stream ([BPending p] ++ evs)) as Hi2 by (apply Forall_app; split; [by repeat constructor|done]).
  assert (deletes_ok [] ([BPending p] ++ evs)) as Hd2 by (apply deletes_ok_app; split; [done|by apply B1]).
  assert (commits_ok ([BPending p] ++ evs) s5) as Hc2.
  { intros ms [Hm|Hm]%elem_of_app; [by apply list_elem_of_singleton in Hm|by apply B3]. }
  destruct o as [st|].
  - right. split; [apply idle_ret|]. intros clocks _ _ _ _. by split_and!.
  - destruct (B5 eq_refl) as [Hg5 Hst]. left. split; [done|]. eapply does_weaken; [exact IH|].
    intros s6 o evs' delta' s' _ Hpre (S1 & S2 & S3 & [S3' S3''] & S4) -> _ _ _ _ _. split_and!.
    + change (deletes_ok [] (([BPending p] ++ evs) ++ evs')). by apply deletes_ok_join.
    + by apply Forall_app.
    + change (commits_ok (([BPending p] ++ evs) ++ evs') s'). by eapply commits_ok_join.
    + change (Forall is_stream (([BPending p] ++ evs) ++ evs')). by apply Forall_app.
    + done.
    + intros Ho. destruct (S4 Ho) as (Hgs & e0 & p' & -> & Hp' & Hpe & Hsa). split; [done|].
      exists (([BPending p] ++ evs) ++ e0), p'. split_and!; [by rewrite <-!app_assoc|done|done|].
      apply stored_all_join; [|done]. intros q [Hq|Hq]%elem_of_app; [|by apply B4 in Hq].
      apply list_elem_of_singleton in Hq as [= ->]. destruct Hst; [by left|right]. apply elem_of_app. by right.
Qed.

(** What a program does whose last call is the snapshot that it answers. *)
Definition is_read (e : BootEvent) : Prop := match e with BSnapshot _ | BReady _ => True | _ => False end.

Definition stable_done (r : SnapshotReadResult) (evs : list BootEvent) (delta : list (list string)) (s' : Stores) : Prop :=
  delta = [] /\ Forall is_read evs
  /\ (snapshot_status r = StoreStatus.Ok -> last evs = Some (BSnapshot r) /\ good s').

Lemma does_read_stable fuel n :
  does (read_stable keys deadline fuel n) (fun _ r evs delta s' => stable_done r evs delta s').
Proof.
  induction fuel as [|fuel IH]; simpl; [by apply does_ret|].
  eapply does_bind; [apply does_clock|]. intros s late evs delta s1 _ (-> & -> & Hg). left. split; [done|].
  destruct late; [by apply does_ret|].
  eapply does_bind; [apply (does_redis BSnapshot snapshot_status), operates_quiet;
                     [apply quiet_loadStableSnapshot|apply kept_loadStableSnapshot]|].
  intros s2 r evs delta s3 _ (-> & -> & Hgr).
  destruct (bool_decide_reflect (snapshot_status r = StoreStatus.WatchConflict)) as [Hr|Hr]; simpl.
  - left. split; [rewrite Hr in Hgr; by apply Hgr|]. eapply does_weaken; [exact IH|].
    intros s4 r' evs' delta' s' _ _ (S1 & S2 & S3) _ _ _ _. split_and!; [done|by constructor|].
    intros Ho. destruct (S3 Ho) as [S4 S5]. split; [|done]. simpl. by rewrite last_cons, S4.
  - right. split; [apply idle_ret|]. intros clocks _ _. split_and!; [done|by repeat constructor|].
    intros Ho. rewrite Ho in Hgr. split; [done|by apply Hgr].
Qed.

Lemma does_readStable n :
  does (readStableUntilDeadline keys deadline n) (fun _ r evs delta s' => stable_done r evs delta s').
Proof.
  unfold readStableUntilDeadline. eapply does_bind; [apply does_fuel|]. intros s fuel evs delta s1 _ (-> & -> & Hg).
  left. split; [done|]. eapply does_weaken; [apply does_read_stable|]. done.
Qed.

(** The result of a program that ends with a snapshot. *)
Definition result_done (r : BlacklistBootstrapResult) (evs : list BootEvent) (s' : Stores) : Prop :=
  boot_status r = StoreStatus.Ok ->
  (snapshot_status (boot_snapshot r) = StoreStatus.Ok /\ last evs = Some (BSnapshot (boot_snapshot r))) /\ good s'.

Lemma does_answer n :
  does (snapshot ← readStableUntilDeadline keys deadline n; mret (with_snapshot snapshot))
    (fun _ r evs delta s' => delta = [] /\ Forall is_read evs /\ result_done r evs s').
Proof.
  eapply does_bind; [apply does_readStable|]. intros s r evs delta s1 _ (-> & S2 & S3).
  right. split; [apply idle_ret|]. intros clocks. split_and!; [done|done|]. intros Ho. destruct (S3 Ho) as [S4 S5]. by split_and!.
Qed.

Lemma does_ready :
  does (ready_revision keys deadline) (fun _ st evs delta s' =>
    evs = [BReady st] /\ delta = [] /\ (dropsRedisConnection st = false -> good s')).
Proof.
  apply (does_redis BReady (fun st => st) _ (fun _ delta => delta = [])). apply operates_quiet.
  - apply quiet_bind; [apply quiet_readReadyRevision|]. intros r. apply quiet_ret.
  - eapply triple_bind; [apply kept_readReadyRevision|]. intros r. by apply triple_ret.
Qed.

Lemma operates_rebuild entries :
  operates (fun st => st) (r ← rebuildFromMysql keys deadline entries; mret (store_status r)) (fun st delta =>
    (delta = [] \/ delta = rebuild_commands keys entries)
    /\ (st = StoreStatus.Ok -> delta = rebuild_commands keys entries) /\ (definite st = true -> delta = [])).
Proof.
  apply (operates_outcome (fun st => st)).
  - intros E. eapply triple_bind; [apply rebuildFromMysql_spec|]. intros r. by apply triple_ret.
  - eapply triple_bind; [apply kept_rebuildFromMysql|]. intros r. by apply triple_ret.
Qed.

(** A call of the loop of the competing starters. *)
Definition is_rebuild (entries : list BlacklistEntry) (e : BootEvent) : Prop :=
  is_read e \/ exists st, e = BRebuild entries st.

Definition rebuild_done (entries : list BlacklistEntry) (r : BlacklistBootstrapResult) (evs : list BootEvent)
    (delta : list (list string)) (s' : Stores) : Prop :=
  Forall (is_rebuild entries) evs /\ (delta = [] \/ delta = rebuild_commands keys entries) /\ result_done r evs s'
  /\ (boot_status r = StoreStatus.Ok ->
        delta = rebuild_commands keys entries /\ BRebuild entries StoreStatus.Ok ∈ evs
        \/ delta = [] /\ BReady StoreStatus.Ok ∈ evs).

Lemma reads_rebuild entries evs : Forall is_read evs -> Forall (is_rebuild entries) evs.
Proof. intros He. eapply Forall_impl; [exact He|]. by left. Qed.

Lemma result_done_app r evs evs' s : result_done r evs' s -> result_done r (evs ++ evs') s.
Proof.
  intros Hr Ho. destruct (Hr Ho) as [[H1 H2] H3]. split; [|done]. split; [done|]. by rewrite last_app, H2.
Qed.

Lemma result_done_failure st evs s : st <> StoreStatus.Ok -> result_done (bootFailure st) evs s.
Proof. by intros ? ?. Qed.

Lemma does_rebuild_loop fuel n entries :
  does (rebuild_loop keys deadline fuel n entries) (fun _ r evs delta s' => rebuild_done entries r evs delta s').
Proof.
  induction fuel as [|fuel IH]; simpl.
  { apply does_ret. intros s Hs. split_and!; [constructor|by left|by apply result_done_failure|done]. }
  eapply does_bind; [apply does_clock|]. intros s late evs delta s1 _ (-> & -> & Hg). left. split; [done|].
  destruct late.
  { apply does_ret. intros s0 _ _ _. split_and!; [constructor|by left|by apply result_done_failure|done]. }
  eapply does_bind; [apply (does_redis (BRebuild entries) (fun st => st)), operates_rebuild|].
  intros s2 st evs delta s3 _ (-> & (R1 & R2 & R3) & Hgr).
  assert (Forall (is_rebuild entries) [BRebuild entries st]) as Hev by (apply Forall_singleton; right; by eexists).
  destruct (bool_decide_reflect (st = StoreStatus.Ok)) as [->|Hne].
  { left. split; [by apply Hgr|]. eapply does_weaken; [apply does_answer|].
    intros s4 r evs delta' s' _ _ (-> & S2 & S3) _ _ _ _. simpl. rewrite app_nil_r. split_and!.
    - apply (proj2 (Forall_app _ [BRebuild entries StoreStatus.Ok] evs)). split; [done|by apply reads_rebuild].
    - done.
    - by apply (result_done_app _ [BRebuild entries StoreStatus.Ok]).
    - intros _. left. split; [by apply R2|by left]. }
  destruct (bool_decide_reflect (st = StoreStatus.WatchConflict)) as [->|Hnw]; simpl.
  2: { right. split; [apply idle_ret|]. intros clocks _ _. split_and!; [done|done|by apply result_done_failure|done]. }
  assert (delta = []) as -> by by apply R3. left. split; [by apply Hgr|]. clear R1 R2 R3 Hgr.
  eapply does_bind; [apply does_ready|]. intros s4 ready evs delta s5 _ (-> & -> & Hgd).
  assert (Forall (is_rebuild entries) [BRebuild entries StoreStatus.WatchConflict; BReady ready]) as Hev2
    by (apply Forall_cons; split; [right; by eexists|apply Forall_singleton; by left]).
  destruct (bool_decide_reflect (ready = StoreStatus.Ok)) as [->|Hr1].
  { left. split; [by apply Hgd|]. eapply does_weaken; [apply does_answer|].
    intros s6 r evs delta s' _ _ (-> & S2 & S3) _ _ _ _ _ _. simpl. split_and!.
    - change (Forall (is_rebuild entries) ([BRebuild entries StoreStatus.WatchConflict; BReady StoreStatus.Ok] ++ evs)).
      apply Forall_app. split; [done|by apply reads_rebuild].
    - by left.
    - by apply (result_done_app _ [BRebuild entries StoreStatus.WatchConflict; BReady StoreStatus.Ok]).
    - intros _. right. split; [done|]. right. by left. }
  destruct (bool_decide_reflect (ready = StoreStatus.NotReady)) as [->|Hr2]; simpl.
  2: { right. split; [apply idle_ret|]. intros clocks _ _ _ _. split_and!; [done|by left|by apply result_done_failure|done]. }
  left. split; [by apply Hgd|]. eapply does_weaken; [exact IH|].
  intros s6 r evs delta s' _ _ (S1 & S2 & S3 & S4) _ _ _ _ _ _. simpl.
  set (two := [BRebuild entries StoreStatus.WatchConflict; BReady StoreStatus.NotReady]) in *. split_and!.
  - change (Forall (is_rebuild entries) (two ++ evs)). by apply Forall_app.
  - done.
  - by apply (result_done_app _ two).
  - intros Ho. change (BRebuild entries StoreStatus.WatchConflict :: BReady StoreStatus.NotReady :: evs) with (two ++ evs).
    rewrite !elem_of_app. destruct (S4 Ho) as [[? ?]|[? ?]]; auto.
Qed.

(** *** The whole *)

Definition rebuilt_from (evs : list BootEvent) (rebuilt : list (list string)) : Prop :=
  exists entries, rebuilt = rebuild_commands keys entries /\ BLoad entries true ∈ evs.

Record boot_done (r : BlacklistBootstrapResult) (evs : list BootEvent) (delta : list (list string)) (s' : Stores)
    : Prop := {
  bd_deletes : deletes_ok [] evs;
  bd_commits : commits_ok evs s';
  bd_result : result_done r evs s';
  bd_order : forall entries st, BRebuild entries st ∈ evs ->
    exists e0 p rest, evs = e0 ++ BPending p :: BLoad entries true :: rest
      /\ pending_status p = StoreStatus.Ok /\ pending_entries p = [] /\ stored_all e0;
  bd_redis : exists dels rebuilt, delta = dels ++ rebuilt /\ Forall deletion dels
    /\ (rebuilt = [] \/ rebuilt_from evs rebuilt)
    /\ (boot_status r = StoreStatus.Ok -> rebuilt_from evs rebuilt \/ rebuilt = [] /\ BReady StoreStatus.Ok ∈ evs);
}.

Lemma reads_quiet evs s :
  Forall is_read evs -> deletes_ok [] evs /\ commits_ok evs s /\ forall entries st, BRebuild entries st ∉ evs.
Proof.
  intros Hr. split_and!.
  - assert (forall seen, deletes_ok seen evs) as Ha; [|done]. induction Hr as [|e evs He _ IH]; intros seen; [done|].
    simpl. split; [by destruct e|apply IH].
  - intros ms Hm. apply (proj1 (Forall_forall _ _) Hr) in Hm. done.
  - intros entries st Hm. apply (proj1 (Forall_forall _ _) Hr) in Hm. done.
Qed.

Lemma boot_done_read r evs s :
  Forall is_read evs -> result_done r evs s -> (boot_status r = StoreStatus.Ok -> BReady StoreStatus.Ok ∈ evs) ->
  boot_done r evs [] s.
Proof.
  intros Hr Hd Ho. destruct (reads_quiet _ s Hr) as (H1 & H2 & H3). split; try done.
  - intros entries st Hm. by apply H3 in Hm.
  - exists [], []. split_and!; auto.
Qed.

(** The calls after the list was loaded add no obligation. *)
Lemma rebuilds_quiet entries evs s :
  Forall (is_rebuild entries) evs ->
  (forall seen, deletes_ok seen evs) /\ commits_ok evs s
  /\ forall es st, BRebuild es st ∈ evs -> es = entries.
Proof.
  intros Hr. split_and!.
  - induction Hr as [|e evs He _ IH]; intros seen; [done|]. simpl. split; [|apply IH].
    destruct He as [He|[st ->]]; [by destruct e|done].
  - intros ms Hm. apply (proj1 (Forall_forall _ _) Hr) in Hm. destruct Hm as [[]|[st [=]]].
  - intros es st Hm. apply (proj1 (Forall_forall _ _) Hr) in Hm. destruct Hm as [[]|[st' [=]]]. done.
Qed.

Lemma stream_no_rebuild evs entries st : Forall is_stream evs -> BRebuild entries st ∉ evs.
Proof. intros Hs Hm. by apply (proj1 (Forall_forall _ _) Hs) in Hm. Qed.

(** The stream was not emptied: the start-up fails. *)
Lemma boot_done_stream st o evs delta s :
  stream_done (Some o) evs delta s -> boot_done (bootFailure o) (BReady st :: evs) delta s.
Proof.
  intros (S1 & S2 & S3 & [S4 S5] & _). assert (o <> StoreStatus.Ok) by congruence. split.
  - by apply (deletes_ok_join [BReady st]).
  - intros ms [[=]|Hm]%elem_of_cons. by apply S3.
  - by apply result_done_failure.
  - intros entries st' [[=]|Hm]%elem_of_cons. by apply stream_no_rebuild in Hm.
  - exists delta, []. rewrite app_nil_r. split_and!; auto. done.
Qed.

(** The list was loaded after the stream was emptied. *)
Lemma boot_done_loaded r e0 p entries evs dels rebuilt s :
  deletes_ok [] (e0 ++ [BPending p]) -> commits_ok (e0 ++ [BPending p]) s -> Forall is_stream (e0 ++ [BPending p]) ->
  Forall deletion dels -> pending_status p = StoreStatus.Ok -> pending_entries p = [] -> stored_all e0 ->
  rebuild_done entries r evs rebuilt s ->
  boot_done r (BReady StoreStatus.NotReady :: e0 ++ BPending p :: BLoad entries true :: evs) (dels ++ rebuilt) s.
Proof.
  intros H1 H2 H3 H4 Hp He Hs (R1 & R2 & R3 & R4). destruct (rebuilds_quiet _ _ s R1) as (Q1 & Q2 & Q3).
  assert (BReady StoreStatus.NotReady :: e0 ++ BPending p :: BLoad entries true :: evs
          = [BReady StoreStatus.NotReady] ++ (e0 ++ [BPending p]) ++ [BLoad entries true] ++ evs) as Eq
    by (simpl; by rewrite <-app_assoc).
  assert (BLoad entries true ∈ BReady StoreStatus.NotReady :: e0 ++ BPending p :: BLoad entries true :: evs) as Hl
    by (rewrite Eq, !elem_of_app; right; right; left; by left).
  split.
  - rewrite Eq. apply deletes_ok_join; [done|]. apply deletes_ok_join; [done|]. apply deletes_ok_join; [done|apply Q1].
  - intros ms. rewrite Eq, !elem_of_app. intros [[=]%list_elem_of_singleton|[Hm|[[=]%list_elem_of_singleton|Hm]]].
    + apply H2. by apply elem_of_app.
    + by apply Q2.
  - rewrite Eq. by do 3 apply result_done_app.
  - intros es st. rewrite Eq, !elem_of_app. intros [[=]%list_elem_of_singleton|[Hm|[[=]%list_elem_of_singleton|Hm]]].
    + apply elem_of_app in Hm. by apply (stream_no_rebuild _ es st) in H3.
    + apply Q3 in Hm as ->. exists (BReady StoreStatus.NotReady :: e0), p, evs. split_and!; [by simpl; rewrite <-app_assoc|done|done|].
      apply (stored_all_join [_] e0); [|done]. intros q [=]%list_elem_of_singleton.
  - exists dels, rebuilt. split_and!; [done|done| |].
    + destruct R2 as [?| ->]; [by left|right]. by exists entries.
    + intros Ho. destruct (R4 Ho) as [[-> _]|[-> Hr]]; [left; by exists entries|right]. split; [done|].
      rewrite Eq, !elem_of_app. by do 3 right.
Qed.

(** MySQL did not give the list. *)
Lemma boot_done_unloaded st entries evs dels s :
  deletes_ok [] evs -> commits_ok evs s -> Forall is_stream evs -> Forall deletion dels -> st <> StoreStatus.Ok ->
  boot_done (bootFailure st) (BReady StoreStatus.NotReady :: evs ++ [BLoad entries false]) dels s.
Proof.
  intros H1 H2 H3 H4 Hst. split.
  - apply (deletes_ok_join [BReady StoreStatus.NotReady]); [done|]. by apply deletes_ok_join.
  - intros ms [[=]|[Hm|[=]%list_elem_of_singleton]%elem_of_app]%elem_of_cons. by apply H2.
  - by apply result_done_failure.
  - intros es st' [[=]|[Hm|[=]%list_elem_of_singleton]%elem_of_app]%elem_of_cons. by apply stream_no_rebuild in Hm.
  - exists dels, []. rewrite app_nil_r. split_and!; auto. done.
Qed.

Lemma mysql_failure_not_ok s : ((status ← mysql_failure deadline; mret (bootFailure status)) s).2
  = bootFailure (mysql_failure deadline s).2 /\ (mysql_failure deadline s).2 <> StoreStatus.Ok.
Proof.
  unfold mysql_failure, mbind, boot_bind. by destruct (past_deadline deadline s) as [s' []].
Qed.

Lemma does_initialize batch_size scan_count :
  does (initializeBlacklistCache keys deadline batch_size scan_count) (fun _ r evs delta s' => boot_done r evs delta s').
Proof.
  unfold initializeBlacklistCache. destruct (_ || _)%bool.
  { apply does_ret. intros s _. by apply boot_done_read. }
  eapply does_bind; [apply does_ready|]. intros s st evs delta s1 _ (-> & -> & Hg).
  destruct (bool_decide_reflect (st = StoreStatus.Ok)) as [->|Hn1].
  { left. split; [by apply Hg|]. eapply does_weaken; [apply does_answer|].
    intros s2 r evs delta s' _ _ (-> & S2 & S3) _ _. apply boot_done_read; [by constructor|by apply (result_done_app _ [_])|].
    intros _. by left. }
  destruct (bool_decide_reflect (st = StoreStatus.NotReady)) as [->|Hn2]; simpl.
  2: { right. split; [apply idle_ret|]. intros clocks. apply boot_done_read; [by repeat constructor|by apply result_done_failure|done]. }
  left. split; [by apply Hg|]. eapply does_bind; [apply does_fuel|]. intros s2 fuel evs delta s3 _ (-> & -> & Hg3).
  left. split; [done|]. eapply does_bind; [apply does_flush_stream|]. intros s4 o evs delta s5 _ Hst. destruct o as [o|].
  { right. split; [apply idle_ret|]. intros clocks _ _ _ _. by apply boot_done_stream. }
  destruct Hst as (S1 & S2 & S3 & [S4 S5] & S6). destruct (S6 eq_refl) as (Hg5 & e0 & p & -> & Hp & He & Hs).
  left. split; [done|]. eapply does_bind; [apply does_load|]. intros s6 [entries ok] evs delta' s7 _ (-> & -> & Hg7). simpl.
  destruct ok; simpl.
  - left. split; [done|]. eapply does_bind; [apply does_fuel|]. intros s8 fuel' evs delta' s9 _ (-> & -> & Hg9).
    left. split; [done|]. eapply does_weaken; [apply does_rebuild_loop|].
    intros s10 r evs rebuilt s' _ Hpre Hd -> _ -> Hp9 -> Hp7 -> Hp5 _ _. simpl. rewrite <-!app_assoc. simpl.
    eapply (boot_done_loaded r e0 p entries evs delta rebuilt s'); try done.
    intros ms Hm. eapply committed_batch_grows; [|by apply S3]. by etransitivity.
  - right. split; [apply (idle_mysql_failure bootFailure)|]. intros clocks. destruct (mysql_failure_not_ok s7) as [-> Hne].
    intros _ Hp7 -> Hp5 _ _. simpl. rewrite app_nil_r. apply boot_done_unloaded; try done.
    intros ms Hm. eapply committed_batch_grows; [|by apply S3]. done.
Qed.

(** C26. Start-up loses no mutation.  Whatever the two stores answer and
    wherever they fail: a deletion from the pending stream names exactly the bad
    records of a batch read before, or exactly the valid ones of a batch whose
    statements, in the order of the stream, MySQL has committed; and the list is
    rebuilt only from what MySQL listed right after the stream was read empty,
    when all the valid records of every batch read before are committed. *)
Theorem bootstrap_loses_no_mutation batch_size scan_count s :
  good s -> boot_events s = [] ->
  let '(s', r) := initializeBlacklistCache keys deadline batch_size scan_count s in
  (forall before ids st after, boot_events s' = before ++ BDelete ids st :: after ->
     exists p, BPending p ∈ before
     /\ (ids = invalid_ids (pending_entries p)
         \/ ids = valid_ids (pending_entries p)
            /\ committed_batch (pending_mutations (pending_entries p)) (mysql_done s')))
  /\ (forall entries st, BRebuild entries st ∈ boot_events s' ->
       exists before p after,
         boot_events s' = before ++ BPending p :: BLoad entries true :: after
         /\ pending_status p = StoreStatus.Ok /\ pending_entries p = []
         /\ forall q, BPending q ∈ before ->
              pending_mutations (pending_entries q) = []
              \/ committed_batch (pending_mutations (pending_entries q)) (mysql_done s')).
Proof.
  intros Hg He. destruct (does_initialize batch_size scan_count s Hg) as (evs & delta & E1 & _ & _ & [D C _ O _]).
  destruct (initializeBlacklistCache _ _ _ _ s) as [s' r]. simpl in *. rewrite He in E1. simpl in E1. rewrite E1. split.
  - intros before ids st after ->. apply deletes_ok_app in D as [_ [(p & H1 & _ & H2) _]]. exists p. split; [done|].
    destruct H2 as [?|[-> H2]]; [by left|right]. split; [done|]. apply C, elem_of_app. by left.
  - intros entries st Hin. destruct (O _ _ Hin) as (e0 & p & rest & -> & Hp & Hpe & Hs). exists e0, p, rest.
    split_and!; [done|done|done|]. intros q Hq. destruct (Hs q Hq) as [?|Hm]; [by left|right].
    apply C, elem_of_app. by left.
Qed.

(** What start-up does to Redis.  Redis executes deletions from the stream
    and then nothing, or exactly the commands that replace the list by the one
    that MySQL gave, in one transaction; the answer [Ok] comes with a snapshot
    that was read stable as the last call, after this rebuild or after another
    process was found to have completed one. *)
Theorem bootstrap_ok_exact batch_size scan_count s :
  good s -> boot_events s = [] ->
  let '(s', r) := initializeBlacklistCache keys deadline batch_size scan_count s in
  exists dels rebuilt,
    redis_done s' = redis_done s ++ dels ++ rebuilt /\ Forall deletion dels
    /\ (rebuilt = [] \/ rebuilt_from (boot_events s') rebuilt)
    /\ (boot_status r = StoreStatus.Ok ->
          (rebuilt_from (boot_events s') rebuilt \/ rebuilt = [] /\ BReady StoreStatus.Ok ∈ boot_events s')
          /\ snapshot_status (boot_snapshot r) = StoreStatus.Ok
          /\ last (boot_events s') = Some (BSnapshot (boot_snapshot r))).
Proof.
  intros Hg He. destruct (does_initialize batch_size scan_count s Hg) as (evs & delta & E1 & E2 & _ & [_ _ R _ Hd]).
  destruct (initializeBlacklistCache _ _ _ _ s) as [s' r]. simpl in *. rewrite He in E1. simpl in E1. rewrite E1.
  destruct Hd as (dels & rebuilt & -> & H1 & H2 & H3). exists dels, rebuilt. split_and!; [done..|].
  intros Ho. split; [by apply H3|]. by apply (proj1 (R Ho)).
Qed.
End Specs.

(** ** The loops end

    Every pass of a loop reads the clock, and time passes the deadline: more
    fuel than readings changes nothing. *)

Section Fuel.
Context `{Inet} (keys : RedisKeySet) (deadline : Z).

Definition ages {A} (m : Boot A) : Prop :=
  forall s, (length (boot_clocks (m s).1) <= length (boot_clocks s))%nat.

Lemma ages_bind {A B} (m : Boot A) (f : A -> Boot B) : ages m -> (forall a, ages (f a)) -> ages (m ≫= f).
Proof.
  intros Hm Hf s. unfold mbind, boot_bind. specialize (Hm s). destruct (m s) as [s1 a]. specialize (Hf a s1). simpl in *. lia.
Qed.

Lemma ages_ret {A} (a : A) : ages (mret a).
Proof. by intros s. Qed.

Lemma ages_redis {A} (event : A -> BootEvent) m : ages (on_redis event m).
Proof. intros s. unfold on_redis. by destruct (m _). Qed.

Lemma ages_mysql {A} (event : A -> BootEvent) m : ages (on_mysql event m).
Proof. intros s. unfold on_mysql. by destruct (m _). Qed.

Lemma ages_clock : ages (past_deadline deadline).
Proof. intros s. unfold past_deadline. destruct (boot_clocks s) eqn:E; simpl; rewrite ?E; simpl; lia. Qed.

Lemma ages_flush_batch entries : ages (flush_batch keys deadline entries).
Proof.
  unfold flush_batch, delete_pending, mysql_failure. apply ages_bind; [case_match; auto using ages_ret, ages_redis|].
  intros st. case_match; [apply ages_ret|]. case_match; [apply ages_ret|].
  apply ages_bind; [apply ages_mysql|]. intros ok. case_match.
  - apply ages_bind; [|intros ?; apply ages_ret]. apply ages_bind; [apply ages_clock|]. intros ?. apply ages_ret.
  - apply ages_bind; [apply ages_redis|]. intros ?. apply ages_ret.
Qed.

(** The reading of a loop: it ends the loop or leaves fewer readings. *)
Lemma clock_pass {A} (k k' : bool -> Boot A) s :
  k true = k' true ->
  (forall s', (length (boot_clocks s') < length (boot_clocks s))%nat -> k false s' = k' false s') ->
  (past_deadline deadline ≫= k) s = (past_deadline deadline ≫= k') s.
Proof.
  intros Ht Hf. unfold mbind, boot_bind, past_deadline. destruct (boot_clocks s) as [|t ts] eqn:E; [by rewrite Ht|].
  destruct (deadline <=? t); [by rewrite Ht|]. apply Hf. simpl. lia.
Qed.

Lemma bind_after {A B} (m : Boot A) (f f' : A -> Boot B) s :
  ages m -> (forall a s', (length (boot_clocks s') <= length (boot_clocks s))%nat -> f a s' = f' a s') ->
  (m ≫= f) s = (m ≫= f') s.
Proof.
  intros Hm Hf. unfold mbind, boot_bind. specialize (Hm s). destruct (m s) as [s1 a]. by apply Hf.
Qed.

Lemma read_stable_fuel fuel fuel' n s :
  (length (boot_clocks s) < fuel)%nat -> (length (boot_clocks s) < fuel')%nat ->
  read_stable keys deadline fuel n s = read_stable keys deadline fuel' n s.
Proof.
  revert fuel' s. induction fuel as [|fuel IH]; intros [|fuel'] s H1 H2; try lia. simpl.
  apply clock_pass; [done|]. intros s' Hs. apply bind_after; [apply ages_redis|]. intros r s2 Hs2.
  case_match; [done|]. apply IH; lia.
Qed.

Lemma flush_stream_fuel fuel fuel' n s :
  (length (boot_clocks s) < fuel)%nat -> (length (boot_clocks s) < fuel')%nat ->
  flush_stream keys deadline fuel n s = flush_stream keys deadline fuel' n s.
Proof.
  revert fuel' s. induction fuel as [|fuel IH]; intros [|fuel'] s H1 H2; try lia. simpl.
  apply clock_pass; [done|]. intros s' Hs. apply bind_after; [apply ages_redis|]. intros p s2 Hs2.
  case_match; [done|]. case_match; [done|]. apply bind_after; [apply ages_flush_batch|]. intros o s3 Hs3.
  destruct o; [done|]. apply IH; lia.
Qed.

Lemma rebuild_loop_fuel fuel fuel' n entries s :
  (length (boot_clocks s) < fuel)%nat -> (length (boot_clocks s) < fuel')%nat ->
  rebuild_loop keys deadline fuel n entries s = rebuild_loop keys deadline fuel' n entries s.
Proof.
  revert fuel' s. induction fuel as [|fuel IH]; intros [|fuel'] s H1 H2; try lia. simpl.
  apply clock_pass; [done|]. intros s' Hs. apply bind_after; [apply ages_redis|]. intros st s2 Hs2.
  case_match; [done|]. case_match; [done|]. apply bind_after; [apply ages_redis|]. intros r s3 Hs3.
  case_match; [done|]. case_match; [done|]. apply IH; lia.
Qed.
End Fuel.

(** ** A start-up with an empty cache *)

Module BootSample.
Definition entry : BlacklistMutation := mkMutation Upsert (Some User) "alice" "abuse" 0.
Definition status s := answer (text_reply REDIS_REPLY_STATUS s).
Definition bulk s := answer (text_reply REDIS_REPLY_STRING s).
Definition number n := mkReply REDIS_REPLY_INTEGER None 0 n [].
Definition array l := mkReply REDIS_REPLY_ARRAY None 0 0 (Some <$> l).
Definition nil_ := mkReply REDIS_REPLY_NIL None 0 0 [].

(** One record waits in the stream; MySQL lists a user and an address. *)
Definition server : list HiredisAnswer :=
  [ status "none"; answer nil_;
    answer (array [array [text_reply REDIS_REPLY_STRING "1-0";
                          array (text_reply REDIS_REPLY_STRING <$> streamFields entry)]]);
    answer (number 1); answer (array []);
    status "OK"; status "none"; status "none"; status "none"; status "none"; status "none"; answer nil_; answer nil_;
    status "OK"; status "QUEUED"; status "QUEUED"; status "QUEUED"; status "QUEUED"; status "QUEUED";
    answer (array [number 0; number 1; number 1; number 1; text_reply REDIS_REPLY_STATUS "OK"]);
    bulk "1"; answer (scan_reply "0" ["ab"; "0"]); answer (scan_reply "0" ["192.0.2.1"; "0"]);
    answer (scan_reply "0" []); bulk "1" ].

Definition ok := mkMysqlAnswer 0 (mkFetched [97; 98] 2 false false zero_time true false) [].
Definition ip := mkMysqlAnswer 0 (mkFetched [192; 0; 2; 1] 4 false false zero_time true false) [].
Definition no_data := mkMysqlAnswer MYSQL_NO_DATA (mkFetched [0] 0 false false zero_time false false) [].

Definition database : MysqlDao :=
  mkDao (mkMysql "h" 3306 "u" "p" "d" "" 3 3 3) true false false (replicate 90 0)
    (replicate 13 ok ++ [no_data] ++ replicate 5 ok ++ [ip; no_data] ++ replicate 5 ok ++ [no_data]) [] 1.

Definition start : Stores := mkStores (mkConnection true 1000 server [] None) database (replicate 9 0) [].
End BootSample.

#[local] Existing Instance ReferenceInet.inet.
#[local] Existing Instance ReferenceInet.inet_laws.

Abbreviation booted := (initializeBlacklistCache sample_keys 1000000 10 10 BootSample.start).

Lemma boot_sample_good : good BootSample.start /\ boot_events BootSample.start = [].
Proof. split; [|done]. split; [|done]. split; [by split|]. by split. Qed.

Lemma bootstrap_loses_no_mutation_witness :
  exists p, BPending p ∈ take 3 (boot_events booted.1)
  /\ (["1-0"] = invalid_ids (pending_entries p)
      \/ ["1-0"] = valid_ids (pending_entries p)
         /\ committed_batch (pending_mutations (pending_entries p)) (mysql_done booted.1)).
Proof.
  pose proof (bootstrap_loses_no_mutation sample_keys 1000000 10 10 BootSample.start (proj1 boot_sample_good)
    (proj2 boot_sample_good)) as Hb.
  assert (boot_events booted.1 = take 3 (boot_events booted.1) ++ BDelete ["1-0"] StoreStatus.Ok :: drop 4 (boot_events booted.1))
    as E by (vm_compute; reflexivity).
  destruct booted as [s' r]. exact (proj1 Hb _ _ _ _ E).
Defined.

Lemma bootstrap_ok_exact_witness :
  exists dels rebuilt, redis_done booted.1 = dels ++ rebuilt /\ Forall (deletion sample_keys) dels.
Proof.
  pose proof (bootstrap_ok_exact sample_keys 1000000 10 10 BootSample.start (proj1 boot_sample_good)
    (proj2 boot_sample_good)) as Hb.
  destruct booted as [s' r]. destruct Hb as (dels & rebuilt & H1 & H2 & _). exists dels, rebuilt. split; [exact H1|exact H2].
Defined.
