(* ===== verification/MaintenanceStore.v ===== *)
(** * MaintenanceStore: the maintenance core on the production stores

    The instance of [IBlacklistMaintenanceBackend] by the [Backend] of
    [app/blacklist_maintenance_backend.cpp], the proof that it keeps the laws
    that the core relies on, and what the two promise together.  The calls of
    the backend return their errors, so none of them is an exception. *)

From S2P Require Import Prelude Text IpAddress Blacklist CandidateQueue RedisConnection RedisStore MysqlDao MaintenanceBackend MaintenanceCore.
Open Scope Z_scope.

(** [MysqlRedisBlacklistMaintenanceBackend]: no call throws. *)
Definition returns {A} (r : Backend * A) : Backend * option A := (r.1, Some r.2).

Section Store.
Context `{Inet}.

#[export] Instance store_backend : IBlacklistMaintenanceBackend Backend := {
  applyCandidates ms dl b := returns (backend_applyCandidates dl ms b);
  b_readRevision dl b := returns (backend_readRevision dl b);
  b_loadStableSnapshot n dl b := returns (backend_loadStableSnapshot dl n b);
  b_removeExpiredFields es r now dl b := returns (backend_removeExpiredFields dl es r now b);
  b_setPublishedRevision r dl b := returns (backend_setPublishedRevision dl r b);
  b_readPending n dl b := returns (backend_readPending dl n b);
  b_deletePending ids dl b := returns (backend_deletePending dl ids b);
  applyMysqlMutations ms dl b := returns (backend_applyMysqlMutations dl ms b);
  b_readResetBarrier dl b := returns (backend_readResetBarrier dl b);
  b_completeResetBarrier t dl b := returns (backend_completeResetBarrier dl t b);
}.

(** ** The records of the pending stream *)

(** The mutation that a command of the log adds to a stream, read back the way
    the maintenance worker reads it. *)
Definition stream_record (argv : list string) : option BlacklistMutation :=
  match argv with
  | "XADD" :: _ :: "*" :: fields =>
      match parseStreamMutation (stream_reply fields) with Ok m => Some m | Throw _ => None end
  | _ => None
  end.

Definition stream_records (log : list (list string)) : list BlacklistMutation := omap stream_record log.

(** The statements of the batch are among those that MySQL has committed. *)
Definition in_mysql (b : Backend) (ms : list BlacklistMutation) : Prop :=
  exists before s after, batch_statements ms = Some s /\ sql_log b = before ++ s ++ after.

Lemma stream_records_app l1 l2 : stream_records (l1 ++ l2) = stream_records l1 ++ stream_records l2.
Proof. apply omap_app. Qed.

Lemma in_mysql_grows b b' ms : sql_log b `prefix_of` sql_log b' -> in_mysql b ms -> in_mysql b' ms.
Proof.
  intros [rest Hp] (l1 & s & l2 & Hs & Hl). exists l1, s, (l2 ++ rest). split; [done|].
  by rewrite Hp, Hl, <-!app_assoc.
Qed.

Lemma record_of_fields p m : mutation_wf m -> stream_record (["XADD"; p; "*"] ++ streamFields m) = Some m.
Proof. intros [Hm Hp]. simpl. by rewrite stream_fields_parse. Qed.

(** The transaction of a batch of candidates records exactly that batch. *)
Lemma records_of_apply keys ms :
  Forall mutation_wf ms -> forallb isCandidate ms = true ->
  stream_records (apply_commands keys (from_option is_clear false (head ms)) ms) = ms.
Proof.
  intros Hw Hc. assert (from_option is_clear false (head ms) = false) as ->.
  { destruct ms as [|m ms]; [done|]. simpl in *. apply andb_prop in Hc as [Hc _].
    apply andb_prop in Hc as [Hc _]. apply bool_decide_eq_true in Hc. unfold is_clear. by rewrite Hc. }
  unfold apply_commands. rewrite stream_records_app, app_nil_r. clear Hc.
  induction Hw as [|m ms Hm Hw IH]; [done|]. rewrite fmap_cons.
  change (mjoin (?x :: ?l)) with (x ++ mjoin l). rewrite stream_records_app, IH.
  unfold mutation_commands, stream_records. cbn [omap list_omap].
  rewrite record_of_fields by done. by case_bool_decide.
Qed.

(** A Redis command that records nothing. *)
Definition unrecorded (log : list (list string)) : Prop := stream_records log = [].

Lemma with_redis_same {A} (io_error : A) st dl (op : RedisKeySet -> Redis A) (R : A -> list (list string) -> Prop) b :
  operates st (op (keys_ b)) R -> R io_error [] -> (forall a delta, R a delta -> unrecorded delta) ->
  backend_ok b ->
  let b' := (with_redis io_error st dl op b).1 in
  backend_ok b' /\ stream_records (redis_log b') = stream_records (redis_log b)
  /\ forall ms, in_mysql b ms -> in_mysql b' ms.
Proof.
  intros Hop Hio Hun Hb. pose proof (with_redis_spec io_error st dl op R b Hop Hio Hb) as Hs.
  destruct (with_redis _ _ _ _ b) as [b' a]. destruct Hs as (Hb' & Hsql & _ & delta & Hl & HR). simpl.
  split_and!; [done| |].
  - by rewrite Hl, stream_records_app, (Hun a delta HR), app_nil_r.
  - intros ms. apply in_mysql_grows. by rewrite Hsql.
Qed.

Lemma with_redis_quiet {A} (io_error : A) st dl (op : RedisKeySet -> Redis A) b :
  quiet (op (keys_ b)) -> triple live (op (keys_ b)) (fun a => kept (st a)) -> backend_ok b ->
  let b' := (with_redis io_error st dl op b).1 in
  backend_ok b' /\ stream_records (redis_log b') = stream_records (redis_log b)
  /\ forall ms, in_mysql b ms -> in_mysql b' ms.
Proof.
  intros Hq Hk. eapply with_redis_same; [by apply operates_quiet|done|]. by intros a delta ->.
Qed.

Lemma with_redis_write {A} (io_error : A) st dl (op : RedisKeySet -> Redis A) commands b :
  (forall E, triple (clean_at E) (op (keys_ b)) (fun a => outcome E commands (st a))) ->
  triple live (op (keys_ b)) (fun a => kept (st a)) -> st io_error = StoreStatus.IoError ->
  unrecorded commands -> backend_ok b ->
  let b' := (with_redis io_error st dl op b).1 in
  backend_ok b' /\ stream_records (redis_log b') = stream_records (redis_log b)
  /\ forall ms, in_mysql b ms -> in_mysql b' ms.
Proof.
  intros Ho Hk Hio Hun. eapply with_redis_same; [by apply operates_outcome| |].
  - cbv beta. rewrite Hio. by apply write_refused.
  - intros a delta (Hd & _). by destruct Hd as [->| ->].
Qed.

Lemma expire_unrecorded keys groups : unrecorded (expire_commands keys groups).
Proof.
  unfold unrecorded, expire_commands. rewrite stream_records_app, app_nil_r.
  induction groups as [|g groups IH]; [done|]. simpl. exact IH.
Qed.

#[export] Instance store_laws : MaintenanceBackendLaws Backend.
Proof.
  refine {| b_ok := backend_ok; recorded b := stream_records (redis_log b); stored := in_mysql |}.
  - intros ms dl b Hb Hw Hc. pose proof (applyCandidates_spec dl ms b Hb) as Hs. simpl.
    unfold returns. destruct (backend_applyCandidates dl ms b) as [b' r]. simpl in *.
    destruct Hs as (Hb' & Hsql & _ & delta & Hl & _ & Hok & _). split_and!; [done| |].
    + intros ms'. apply in_mysql_grows. by rewrite Hsql.
    + exists (stream_records delta). split; [by rewrite Hl, stream_records_app|].
      intros s [= <-] Hst. rewrite (Hok Hst). by apply records_of_apply.
  - intros dl b. apply with_redis_quiet; [apply quiet_readRevision|apply kept_readRevision].
  - intros n dl b. apply with_redis_quiet; [apply quiet_loadStableSnapshot|apply kept_loadStableSnapshot].
  - intros es r now dl b. eapply with_redis_write; [intros E; apply removeExpiredFields_spec| |done|].
    + apply kept_removeExpiredFields.
    + destruct (group_expired _ _ _); [apply expire_unrecorded|done].
  - intros r dl b. eapply with_redis_write; [intros E; apply setPublishedRevision_spec| |done..].
    apply kept_setPublishedRevision.
  - intros n dl b. apply with_redis_quiet; [apply quiet_readPending|apply kept_readPending].
  - intros ids dl b. eapply with_redis_same; [apply operates_deletePending|by left|].
    by intros st delta [->| ->].
  - intros ms dl b Hb. pose proof (mysql_call_spec dl ms b Hb) as Hs. simpl. unfold returns.
    destruct (backend_applyMysqlMutations dl ms b) as [b' ok]. simpl in *.
    destruct Hs as (Hb' & Hl & _ & Hp & Hok). split_and!; [done|by rewrite Hl| |].
    + intros ms'. by apply in_mysql_grows.
    + intros [= ->]. destruct (Hok eq_refl) as (s & Hs & Hl'). exists (sql_log b), s, [].
      by rewrite app_nil_r.
  - intros dl b. apply with_redis_quiet; [apply quiet_readResetBarrier|apply kept_readResetBarrier].
  - intros t dl b. eapply with_redis_write; [intros E; apply completeResetBarrier_spec| |done..].
    apply kept_completeResetBarrier.
Defined.

(** ** The promise of the whole *)

(** The backends of the worker, those that were reset first. *)
Definition backends (c : Core Backend) : list Backend := retired c ++ option_list (backend_ c).

(** All commands that Redis has executed for the worker. *)
Definition redis_history (c : Core Backend) : list (list string) := mjoin (redis_log <$> backends c).

(** The worker that [create] makes: the attempts to make a backend with the
    connections that each would open, [None] for one that throws. *)
Definition make_worker (redis : RedisConfig) (mysql : MysqlConfig) (config : CoreConfig)
    (made : list (option (list RedisOpening * list (list Z * list MysqlAnswer))))
    (q : BlacklistCandidateQueue) (manager : BlacklistManager) (initial_revision : Z) (dirty : bool)
    (first : Z) (stops : list StopReading) (inflight : list Z) (arrivals : list (list BlacklistMutation))
    : Core Backend :=
  make_core config (option_map (fun e => createBackend redis mysql e.1 e.2) <$> made) q manager
    initial_revision dirty first stops inflight arrivals.

Lemma make_worker_safe redis mysql config made max_size capacity q manager r dirty first stops inflight
    arrivals ops :
  make_queue max_size capacity = Ok q -> Forall (Forall mutation_wf) arrivals ->
  candidates_safe (foldl run_op (make_worker redis mysql config made q manager r dirty first stops
                                   inflight arrivals) ops).
Proof.
  intros Hq Ha. eapply run_ops_safe; [exact Hq| |done].
  apply Forall_fmap, Forall_true. by intros [e|].
Qed.

Lemma all_recorded_history c : all_recorded c = stream_records (redis_history c).
Proof.
  unfold all_recorded, redis_history, backends. rewrite fmap_app, join_app, stream_records_app.
  f_equal; [|destruct (backend_ c); simpl; by rewrite ?app_nil_r].
  induction (retired c) as [|b bs IH]; [done|]. rewrite !fmap_cons.
  change (mjoin (?x :: ?l)) with (x ++ mjoin l). by rewrite stream_records_app, IH.
Qed.

Lemma has_stored_backends c ms : has_stored c ms -> exists b, b ∈ backends c /\ in_mysql b ms.
Proof.
  unfold backends. intros [Hx|Hx].
  - apply Exists_exists in Hx as (b & Hb & Hs). exists b. split; [apply elem_of_app; by left|done].
  - destruct (backend_ c) as [b|]; [|done]. exists b. split; [|done]. apply elem_of_app. right. by left.
Qed.

(** C24. Blacklist maintenance loses no accepted candidate.  Over any sequence
    of rounds and drains, whatever Redis answers, wherever its replies are
    lost, whenever the worker is stopped, and whatever business threads submit
    in between: every candidate that the queue has accepted is still waiting,
    or its entity is in the batch out for storage until at least its expiry, or
    Redis has executed an [XADD] that reads back as a mutation that lists its
    entity until at least its expiry. *)
Theorem maintenance_loses_no_candidate redis mysql config made max_size capacity q manager r dirty first stops
    inflight arrivals ops :
  make_queue max_size capacity = Ok q -> Forall (Forall mutation_wf) arrivals ->
  let c := foldl run_op (make_worker redis mysql config made q manager r dirty first stops inflight
                           arrivals) ops in
  forall m, m ∈ accepted_ c ->
    m ∈ queued_ (queue c) \/ covered (reserved_batch_ (queue c)) m
    \/ covered (stream_records (redis_history c)) m.
Proof.
  intros Hq Ha c m Hm. rewrite <-all_recorded_history. apply safe_covers; [|done].
  by eapply make_worker_safe.
Qed.

(** Records leave the pending stream only when they are no longer needed.
    In any sequence of rounds and drains, every deletion that was sent names
    exactly the bad records of a batch that was read before, or exactly the
    valid records of one for which MySQL had answered that the transaction is
    committed; and the statements of all its mutations, in the order of the
    stream, are among those that MySQL has committed. *)
Theorem pending_deleted_after_commit redis mysql config made max_size capacity q manager r dirty first stops
    inflight arrivals ops before ids answer after :
  make_queue max_size capacity = Ok q -> Forall (Forall mutation_wf) arrivals ->
  let c := foldl run_op (make_worker redis mysql config made q manager r dirty first stops inflight
                           arrivals) ops in
  events c = before ++ EvDelete ids answer :: after ->
  exists p, EvReadPending (Some p) ∈ before
  /\ (ids = invalid_ids (pending_entries p)
      \/ (ids = valid_ids (pending_entries p)
          /\ EvMysql (pending_mutations (pending_entries p)) (Some true) ∈ before
          /\ exists b, b ∈ backends c /\ in_mysql b (pending_mutations (pending_entries p)))).
Proof.
  intros Hq Ha c Hc. destruct (run_ops_deletable _ _ _ _ _ _ _ _ _ _ _ _ _ _ _ Hc) as (p & Hp & Hd).
  exists p. split; [done|]. destruct Hd as [?|[-> Hm]]; [by left|]. right. split_and!; [done..|].
  apply has_stored_backends. eapply (safe_stored c).
  - by eapply make_worker_safe.
  - rewrite Hc. apply elem_of_app. by left.
Qed.
End Store.

(** ** A worker in operation *)

Module Sample.
Definition candidate : BlacklistMutation := mkMutation Upsert (Some User) "alice" "abuse" 0.

Definition status s := answer (text_reply REDIS_REPLY_STATUS s).
Definition bulk s := answer (text_reply REDIS_REPLY_STRING s).
Definition number n := mkReply REDIS_REPLY_INTEGER None 0 n [].
Definition array l := mkReply REDIS_REPLY_ARRAY None 0 0 (Some <$> l).
Definition nil := mkReply REDIS_REPLY_NIL None 0 0 [].

(** Redis: no reset is pending, the batch is stored, the revision cannot be
    read, and the stream holds the record of the batch. *)
Definition server : list HiredisAnswer :=
  [ answer (array [nil; nil]); status "OK"; status "string"; bulk "1"; status "stream"; status "string";
    status "hash"; bulk "4"; status "OK"; status "QUEUED"; status "QUEUED"; status "QUEUED";
    answer (array [number 1; text_reply REDIS_REPLY_STRING "1-0"; number 5]); answer nil;
    answer (array [array [text_reply REDIS_REPLY_STRING "1-0";
                          array (text_reply REDIS_REPLY_STRING <$> streamFields candidate)]]);
    answer (number 1) ].

Definition database : list Z * list MysqlAnswer :=
  (replicate 80 0, replicate 80 (mkMysqlAnswer 0 zero_fetched [])).

#[local] Existing Instance ReferenceInet.inet.

Definition redis : RedisConfig := mkRedis "h" 6379 "" "" 0 1000 1000 "risk".
Definition mysql : MysqlConfig := mkMysql "h" 3306 "u" "p" "d" "" 3 3 3.
Definition config : CoreConfig := mkCoreConfig 1000 16 16.
Definition made := [Some ([mkOpening 0 0 (Some server)], [database])].
Definition empty_queue : BlacklistCandidateQueue := mkQueue 8 [] [] 0 0 0 false.
Definition stops : list StopReading := replicate 20 (mkStopReading false false 0).
Definition arrivals : list (list BlacklistMutation) := [[candidate]].
Definition ops : list CoreOp := [OpRound 1000000 0 0].
End Sample.

(** The worker after one round. *)
Abbreviation after_round :=
  (foldl (@run_op Backend (@store_backend ReferenceInet.inet))
     (@make_worker Sample.redis Sample.mysql Sample.config Sample.made Sample.empty_queue None 0 false 1000
        Sample.stops [] Sample.arrivals) Sample.ops).

Lemma candidate_wf_sample : Forall (Forall (@mutation_wf ReferenceInet.inet)) Sample.arrivals.
Proof.
  repeat constructor; try done. exists User. split_and!; [done|vm_compute; reflexivity..|done].
Qed.

Lemma maintenance_loses_no_candidate_witness :
  covered (@stream_records ReferenceInet.inet (redis_history after_round)) Sample.candidate.
Proof.
  assert (accepted_ after_round = [Sample.candidate]) as E1 by (vm_compute; reflexivity).
  assert (queued_ (queue after_round) = []) as E2 by (vm_compute; reflexivity).
  assert (reserved_batch_ (queue after_round) = []) as E3 by (vm_compute; reflexivity).
  pose proof (@maintenance_loses_no_candidate ReferenceInet.inet Sample.redis Sample.mysql Sample.config
    Sample.made 100 8 Sample.empty_queue None 0 false 1000 Sample.stops [] Sample.arrivals Sample.ops
    eq_refl candidate_wf_sample Sample.candidate) as Hc. cbv zeta in Hc.
  rewrite E1, E2, E3 in Hc.
  destruct (Hc ltac:(by left)) as [Hq|[(x & Hx & _)|Hr]].
  - destruct (not_elem_of_nil _ Hq).
  - destruct (not_elem_of_nil _ Hx).
  - exact Hr.
Defined.

Lemma pending_deleted_after_commit_witness :
  exists p, EvReadPending (Some p) ∈ take 5 (events after_round)
  /\ (["1-0"] = invalid_ids (pending_entries p)
      \/ (["1-0"] = valid_ids (pending_entries p)
          /\ EvMysql (pending_mutations (pending_entries p)) (Some true) ∈ take 5 (events after_round)
          /\ exists b, b ∈ backends after_round
             /\ @in_mysql ReferenceInet.inet b (pending_mutations (pending_entries p)))).
Proof.
  assert (events after_round = take 5 (events after_round) ++ [EvDelete ["1-0"] (Some StoreStatus.Ok)]) as E
    by (vm_compute; reflexivity).
  exact (@pending_deleted_after_commit ReferenceInet.inet Sample.redis Sample.mysql Sample.config
    Sample.made 100 8 Sample.empty_queue None 0 false 1000 Sample.stops [] Sample.arrivals Sample.ops
    _ _ _ _ eq_refl candidate_wf_sample E).
Defined.
