(* ===== verification/Codec.v ===== *)
(** * Codec: the wire format and the incremental frame decoder

    Model of [include/aegisflow/net/protocol_contract.hpp] and
    [src/net/length_prefixed_codec.cpp].  A TCP stream arrives in arbitrary
    pieces; [consume] copies as much as it can per iteration, the specification
    [feed] reads one byte at a time. *)

From S2P Require Import Prelude.
Open Scope Z_scope.

Definition kFrameHeaderSize : Z := 4.
Definition kMinPayloadSize : Z := 1.
Definition kMaxPayloadSize : Z := 1024 * 1024.

Inductive ProtocolError := none | empty_payload | payload_too_large | multiple_requests.

#[export] Instance ProtocolError_eq_dec : EqDecision ProtocolError.
Proof. solve_decision. Defined.

Definition encodePayloadLength (payload_length : Z) : bytes_t :=
  [Z.land (Z.shiftr payload_length 24) 255; Z.land (Z.shiftr payload_length 16) 255;
   Z.land (Z.shiftr payload_length 8) 255; Z.land payload_length 255].

Definition decodePayloadLength (header : bytes_t) : Z :=
  Z.lor (Z.lor (Z.lor (wrap32 (Z.shiftl (header !!! 0%nat) 24))
                      (wrap32 (Z.shiftl (header !!! 1%nat) 16)))
               (wrap32 (Z.shiftl (header !!! 2%nat) 8)))
        (header !!! 3%nat).

Definition validatePayloadLength (payload_length : Z) : ProtocolError :=
  if payload_length <? kMinPayloadSize then empty_payload
  else if kMaxPayloadSize <? payload_length then payload_too_large
  else none.

#[global] Arguments encodePayloadLength _ : simpl never.
#[global] Arguments decodePayloadLength _ : simpl never.
#[global] Arguments validatePayloadLength _ : simpl never.

Inductive CodecState := NeedHeader | NeedBody | FrameReady | Error.

#[export] Instance CodecState_eq_dec : EqDecision CodecState.
Proof. solve_decision. Defined.

Abbreviation DecodedFrame := bytes_t.

Record CodecConsumeResult := mkConsumeResult {
  state : CodecState;
  error : ProtocolError;
  bytes_consumed : Z;
  frames : list DecodedFrame;
}.

Record LengthPrefixedCodec := mkCodec {
  header_ : bytes_t;            (* std::array<std::uint8_t, 4> *)
  header_bytes_ : Z;
  expected_payload_bytes_ : Z;
  payload_ : bytes_t;
  next_state_ : CodecState;
  error_ : ProtocolError;
}.

Definition fresh_codec : LengthPrefixedCodec :=
  mkCodec (replicate 4 0) 0 0 [] NeedHeader none.

Definition bufferedBytes (c : LengthPrefixedCodec) : Z :=
  header_bytes_ c ⊕ size_of (payload_ c).

Definition enterError (c : LengthPrefixedCodec) (err : ProtocolError) : LengthPrefixedCodec :=
  c <| next_state_ := Error |> <| error_ := err |> <| header_bytes_ := 0 |>
    <| expected_payload_bytes_ := 0 |> <| payload_ := [] |>.

(** [std::copy_n(src, n, dst.begin() + pos)] for [n] the length of [src]. *)
Definition copy_at (pos : nat) (src dst : bytes_t) : bytes_t :=
  take pos dst ++ src ++ drop (pos + length src) dst.

(** The second [if] of the loop body. *)
Definition consume_body (c : LengthPrefixedCodec) (rest : bytes_t)
    : LengthPrefixedCodec * bytes_t * list DecodedFrame :=
  if (bool_decide (next_state_ c = NeedBody) && (0 <? size_of rest))%bool then
    let payload_remaining := expected_payload_bytes_ c ⊖ size_of (payload_ c) in
    let copy_count := Z.to_nat (Z.min payload_remaining (size_of rest)) in
    let c := c <| payload_ := payload_ c ++ take copy_count rest |> in
    let rest := drop copy_count rest in
    if size_of (payload_ c) =? expected_payload_bytes_ c
    then (c <| payload_ := [] |> <| expected_payload_bytes_ := 0 |>
            <| next_state_ := NeedHeader |>, rest, [payload_ c])
    else (c, rest, [])
  else (c, rest, []).

(** The loop body; the flag is set when the body ends in [break]. *)
Definition consume_iteration (c : LengthPrefixedCodec) (rest : bytes_t)
    : LengthPrefixedCodec * bytes_t * list DecodedFrame * bool :=
  if bool_decide (next_state_ c = NeedHeader) then
    let header_remaining := kFrameHeaderSize ⊖ header_bytes_ c in
    let copy_count := Z.to_nat (Z.min header_remaining (size_of rest)) in
    let c := c <| header_ := copy_at (Z.to_nat (header_bytes_ c)) (take copy_count rest) (header_ c) |>
               <| header_bytes_ := header_bytes_ c ⊕ Z.of_nat copy_count |> in
    let rest := drop copy_count rest in
    if header_bytes_ c <? kFrameHeaderSize then (c, rest, [], false)
    else
      let declared_length := decodePayloadLength (header_ c) in
      let err := validatePayloadLength declared_length in
      let c := c <| header_bytes_ := 0 |> in
      if bool_decide (err <> none) then (enterError c err, rest, [], true)
      else
        let c := c <| expected_payload_bytes_ := declared_length |>
                   <| next_state_ := NeedBody |> in
        (consume_body c rest, false)
  else (consume_body c rest, false).

(** [while (offset < input.size())]; [None] when the fuel runs out. *)
Fixpoint consume_loop (fuel : nat) (c : LengthPrefixedCodec) (rest : bytes_t)
    (out : list DecodedFrame) : option (LengthPrefixedCodec * bytes_t * list DecodedFrame) :=
  match rest with
  | [] => Some (c, rest, out)
  | _ =>
      match fuel with
      | O => None
      | S fuel =>
          let '(c, rest, fs, broke) := consume_iteration c rest in
          if broke then Some (c, rest, out ++ fs)
          else consume_loop fuel c rest (out ++ fs)
      end
  end.

Definition consume (c : LengthPrefixedCodec) (input : bytes_t)
    : option (LengthPrefixedCodec * CodecConsumeResult) :=
  if bool_decide (next_state_ c = Error)
  then Some (c, mkConsumeResult Error (error_ c) 0 [])
  else
    match consume_loop (length input) c input [] with
    | None => None
    | Some (c, rest, fs) =>
        let st := if bool_decide (next_state_ c = Error) then Error
                  else if negb (bool_decide (fs = [])) then FrameReady
                  else next_state_ c in
        Some (c, mkConsumeResult st (error_ c) (size_of input - size_of rest) fs)
    end.

(** ** The specification, one byte at a time *)

(** Bytes appended to the body, and what follows when it is complete. *)
Definition push_body (c : LengthPrefixedCodec) (bs : bytes_t) : LengthPrefixedCodec :=
  c <| payload_ := payload_ c ++ bs |>.

Definition finish_body (c : LengthPrefixedCodec) : LengthPrefixedCodec * list DecodedFrame :=
  if size_of (payload_ c) =? expected_payload_bytes_ c
  then (c <| payload_ := [] |> <| expected_payload_bytes_ := 0 |>
          <| next_state_ := NeedHeader |>, [payload_ c])
  else (c, []).

(** Bytes copied into the header, and what follows when it is complete. *)
Definition push_header (c : LengthPrefixedCodec) (bs : bytes_t) : LengthPrefixedCodec :=
  c <| header_ := copy_at (Z.to_nat (header_bytes_ c)) bs (header_ c) |>
    <| header_bytes_ := header_bytes_ c + size_of bs |>.

Definition finish_header (c : LengthPrefixedCodec) : LengthPrefixedCodec :=
  if header_bytes_ c <? 4 then c
  else
    let n := decodePayloadLength (header_ c) in
    let err := validatePayloadLength n in
    if bool_decide (err = none)
    then c <| header_bytes_ := 0 |> <| expected_payload_bytes_ := n |> <| next_state_ := NeedBody |>
    else enterError (c <| header_bytes_ := 0 |>) err.

Definition feed_byte (c : LengthPrefixedCodec) (b : Z)
    : LengthPrefixedCodec * list DecodedFrame :=
  match next_state_ c with
  | NeedHeader => (finish_header (push_header c [b]), [])
  | NeedBody => finish_body (push_body c [b])
  | _ => (c, [])
  end.

(** Stops at the first byte after an error: frames and bytes read. *)
Fixpoint feed (c : LengthPrefixedCodec) (bs : bytes_t)
    : LengthPrefixedCodec * list DecodedFrame * Z :=
  match bs with
  | [] => (c, [], 0)
  | b :: rest =>
      if bool_decide (next_state_ c = Error) then (c, [], 0)
      else
        let '(c, f) := feed_byte c b in
        let '(c, fs, n) := feed c rest in
        (c, f ++ fs, 1 + n)
  end.

(** ** Invariant *)

Record codec_ok (c : LengthPrefixedCodec) : Prop := {
  ok_header : length (header_ c) = 4%nat;
  ok_state :
    match next_state_ c with
    | NeedHeader => 0 <= header_bytes_ c < 4 /\ payload_ c = []
                    /\ expected_payload_bytes_ c = 0 /\ error_ c = none
    | NeedBody => header_bytes_ c = 0 /\ 1 <= expected_payload_bytes_ c <= kMaxPayloadSize
                  /\ size_of (payload_ c) < expected_payload_bytes_ c /\ error_ c = none
    | FrameReady => False
    | Error => header_bytes_ c = 0 /\ payload_ c = [] /\ expected_payload_bytes_ c = 0
               /\ error_ c <> none
    end;
}.

Lemma validate_none n : validatePayloadLength n = none <-> 1 <= n <= kMaxPayloadSize.
Proof.
  unfold validatePayloadLength, kMinPayloadSize. repeat case_if; split; try done; lia.
Qed.

Lemma length_copy_at pos src dst :
  (pos + length src <= length dst)%nat -> length (copy_at pos src dst) = length dst.
Proof. intros H. unfold copy_at. rewrite !length_app, length_take, length_drop. lia. Qed.

Lemma copy_at_cons pos b src dst :
  (pos + S (length src) <= length dst)%nat ->
  copy_at pos (b :: src) dst = copy_at (S pos) src (copy_at pos [b] dst).
Proof.
  intros H. assert (copy_at pos [b] dst = (take pos dst ++ [b]) ++ drop (pos + 1) dst) as ->
    by (unfold copy_at; by rewrite <-app_assoc).
  assert (length (take pos dst ++ [b]) = S pos) as Hl by (rewrite length_app, length_take; simpl; lia).
  unfold copy_at. rewrite take_app_length' by done. rewrite <-app_assoc. f_equal. simpl. f_equal. f_equal.
  rewrite drop_app_ge by lia. rewrite Hl, drop_drop. f_equal. lia.
Qed.

Lemma push_header_ok c bs :
  codec_ok c -> next_state_ c = NeedHeader -> header_bytes_ c + size_of bs < 4 ->
  codec_ok (push_header c bs).
Proof.
  intros [Hh Hs] E Hlt. rewrite E in Hs. destruct Hs as (Hb & Hp & Hx & He).
  pose proof (size_of_nonneg bs). unfold size_of in *.
  split; simpl; [rewrite length_copy_at; lia|]. rewrite E.
  split_and!; try done; unfold size_of; lia.
Qed.

Lemma finish_header_ok c bs :
  codec_ok c -> next_state_ c = NeedHeader -> header_bytes_ c + size_of bs <= 4 ->
  codec_ok (finish_header (push_header c bs)).
Proof.
  intros Hok E Hle. pose proof Hok as [Hh Hs]. rewrite E in Hs. destruct Hs as (Hb & Hp & Hx & He).
  unfold finish_header. case_if; [by apply push_header_ok|].
  assert (length (header_ (push_header c bs)) = 4%nat) as Hl
    by (simpl; unfold size_of in *; rewrite length_copy_at; lia).
  case_if; [|by split].
  match goal with H : validatePayloadLength _ = none |- _ => apply validate_none in H end.
  split; [done|]. simpl in *. rewrite Hp. split_and!; try done; unfold size_of; simpl; lia.
Qed.

Lemma push_body_ok c bs :
  codec_ok c -> next_state_ c = NeedBody ->
  size_of (payload_ c) + size_of bs < expected_payload_bytes_ c -> codec_ok (push_body c bs).
Proof.
  intros [Hh Hs] E Hlt. rewrite E in Hs. destruct Hs as (Hb & Hx & Hp & He).
  split; [done|]. simpl. rewrite E, size_of_app. conj_lia.
Qed.

Lemma finish_body_ok c bs :
  codec_ok c -> next_state_ c = NeedBody ->
  size_of (payload_ c) + size_of bs <= expected_payload_bytes_ c ->
  codec_ok (finish_body (push_body c bs)).1.
Proof.
  intros Hok E Hle. unfold finish_body. case_if; simpl in *.
  - destruct Hok as [Hh Hs]. rewrite E in Hs. destruct Hs as (? & ? & ? & ?).
    split; [done|]. simpl. conj_lia.
  - rewrite size_of_app in *. apply push_body_ok; [done..|lia].
Qed.

Lemma feed_byte_ok c b : codec_ok c -> codec_ok (feed_byte c b).1.
Proof.
  intros Hok. pose proof (ok_state c Hok) as Hs. unfold feed_byte.
  destruct (next_state_ c) eqn:E; [| |done|done].
  - apply finish_header_ok; [done..|]. change (size_of [b]) with 1. lia.
  - apply finish_body_ok; [done..|]. change (size_of [b]) with 1. lia.
Qed.

Lemma feed_ok bs c : codec_ok c -> codec_ok (feed c bs).1.1.
Proof.
  revert c. induction bs as [|b bs IH]; simpl; intros c Hc; [done|].
  destruct (bool_decide _); [done|]. pose proof (feed_byte_ok c b Hc) as Hc'.
  destruct (feed_byte c b) as [c1 f]. specialize (IH c1 Hc').
  by destruct (feed c1 bs) as [[? ?] ?].
Qed.

Lemma feed_error c bs : next_state_ c = Error -> feed c bs = (c, [], 0).
Proof. intros E. destruct bs; simpl; [done|]. by rewrite bool_decide_true. Qed.

(** Reading a concatenation. *)
Lemma feed_app c xs ys :
  feed c (xs ++ ys)
  = let '(c1, f1, n1) := feed c xs in
    let '(c2, f2, n2) := feed c1 ys in (c2, f1 ++ f2, n1 + n2).
Proof.
  revert c. induction xs as [|x xs IH]; simpl; intros c.
  - by destruct (feed c ys) as [[? ?] ?].
  - destruct (bool_decide (next_state_ c = Error)) eqn:E; bool_to_prop.
    + by rewrite feed_error.
    + destruct (feed_byte c x) as [c0 f0]. rewrite IH.
      destruct (feed c0 xs) as [[c1 f1] n1], (feed c1 ys) as [[c2 f2] n2].
      by rewrite <-app_assoc, Z.add_assoc.
Qed.

(** ** The loop reads what the specification reads *)

Lemma size_take_drop (k : nat) (l : bytes_t) :
  (k <= length l)%nat -> length (take k l) = k /\ size_of (drop k l) = size_of l - Z.of_nat k.
Proof. intros H. unfold size_of. rewrite length_take, length_drop. lia. Qed.

(** Some bytes of a body. *)
Lemma feed_body c bs :
  codec_ok c -> next_state_ c = NeedBody -> bs <> [] ->
  size_of (payload_ c) + size_of bs <= expected_payload_bytes_ c ->
  feed c bs = (finish_body (push_body c bs), size_of bs).
Proof.
  revert c. induction bs as [|b bs IH]; intros c Hok Hs Hne Hle; [done|]. cbn [feed].
  rewrite bool_decide_false by congruence. unfold feed_byte. rewrite Hs, size_of_cons in *.
  destruct bs as [|b' bs]; [cbn [feed]; destruct (finish_body _) as [c' f]; by rewrite app_nil_r|].
  assert (size_of (payload_ (push_body c [b])) < expected_payload_bytes_ c) as Hlt.
  { simpl. rewrite size_of_app. change (size_of [b]) with 1. rewrite size_of_cons in Hle.
    pose proof (size_of_nonneg bs). lia. }
  unfold finish_body at 1. rewrite (proj2 (Z.eqb_neq _ _)) by (simpl in *; lia).
  rewrite IH; [| |done..|].
  - replace (push_body (push_body c [b]) (b' :: bs)) with (push_body c (b :: b' :: bs))
      by (unfold push_body; simpl; by rewrite <-app_assoc).
    by destruct (finish_body _).
  - apply push_body_ok; [done..|]. simpl in Hlt. by rewrite size_of_app in Hlt.
  - simpl in *. rewrite size_of_app. change (size_of [b]) with 1. lia.
Qed.

(** Some bytes of a header. *)
Lemma feed_header c bs :
  codec_ok c -> next_state_ c = NeedHeader -> bs <> [] -> header_bytes_ c + size_of bs <= 4 ->
  feed c bs = (finish_header (push_header c bs), [], size_of bs).
Proof.
  revert c. induction bs as [|b bs IH]; intros c Hok Hs Hne Hle; [done|]. cbn [feed].
  rewrite bool_decide_false by congruence. unfold feed_byte. rewrite Hs, size_of_cons in *.
  destruct bs as [|b' bs]; [done|].
  pose proof (ok_state c Hok) as Hst. rewrite Hs in Hst. destruct Hst as [Hb _].
  assert (header_bytes_ c + 1 < 4) as Hlt
    by (rewrite size_of_cons in Hle; pose proof (size_of_nonneg bs); lia).
  unfold finish_header at 1. rewrite (proj2 (Z.ltb_lt _ _)) by done.
  rewrite IH; [|by apply push_header_ok|done..|simpl; change (size_of [b]) with 1; lia].
  replace (push_header (push_header c [b]) (b' :: bs)) with (push_header c (b :: b' :: bs)); [done|].
  pose proof (ok_header c Hok) as Hl. destruct c. unfold push_header, set. simpl in *. f_equal.
  - rewrite (copy_at_cons _ b (b' :: bs)).
    + f_equal. change (size_of [b]) with 1. lia.
    + rewrite Hl. unfold size_of in *. simpl in *. lia.
  - rewrite (size_of_cons b). change (size_of [b]) with 1. lia.
Qed.

(** The first [k] bytes of [rest], then the others. *)
Lemma feed_split c k rest :
  feed c rest
  = let '(c1, f1, n1) := feed c (take k rest) in
    let '(c2, f2, n2) := feed c1 (drop k rest) in (c2, f1 ++ f2, n1 + n2).
Proof. rewrite <-(take_drop k rest) at 1. apply feed_app. Qed.

(** What one pass of the loop must establish: it reads some bytes, and the
    specification reads the same bytes and reaches the same state. *)
Definition pass_ok (c : LengthPrefixedCodec) (rest : bytes_t)
    (c' : LengthPrefixedCodec) (rest' : bytes_t) (fs : list DecodedFrame) : Prop :=
  exists k, (0 < k <= length rest)%nat /\ rest' = drop k rest
            /\ feed c (take k rest) = (c', fs, Z.of_nat k) /\ codec_ok c'.

Lemma consume_body_pass c rest :
  codec_ok c -> next_state_ c = NeedBody -> rest <> [] -> size_of rest < two64 ->
  let '(c', rest', fs) := consume_body c rest in pass_ok c rest c' rest' fs.
Proof.
  intros Hok E Hne Hlen. pose proof (ok_state c Hok) as Hs. rewrite E in Hs.
  destruct Hs as (Hb & Hx & Hp & He). pose proof (size_of_nonneg (payload_ c)).
  assert (0 < size_of rest) by (destruct rest; [done|unfold size_of; simpl; lia]).
  unfold consume_body. rewrite bool_decide_true, (proj2 (Z.ltb_lt 0 _)) by done. cbn beta iota zeta.
  rewrite wrap64_small by (unfold is_u64, kMaxPayloadSize in *; lia). cbn [andb].
  set (k := Z.to_nat _). assert (0 < k <= length rest)%nat as Hk by (unfold size_of in *; lia).
  destruct (size_take_drop k rest) as [Ht _]; [lia|].
  assert (size_of (take k rest) = Z.of_nat k) as Hkt by (unfold size_of; by rewrite Ht).
  pose proof (feed_body c (take k rest) Hok E
    ltac:(intros En; rewrite En in Ht; simpl in Ht; lia) ltac:(lia)) as Hf.
  pose proof (finish_body_ok c (take k rest) Hok E ltac:(lia)) as Hok'.
  rewrite Hkt in Hf. unfold finish_body in Hf, Hok'.
  change (c <| payload_ := payload_ c ++ take k rest |>) with (push_body c (take k rest)).
  destruct (_ =? _); by exists k.
Qed.

Lemma pass_ok_compose c rest c1 rest1 c2 rest2 fs :
  pass_ok c rest c1 rest1 [] -> rest1 <> [] -> pass_ok c1 rest1 c2 rest2 fs ->
  pass_ok c rest c2 rest2 fs.
Proof.
  intros (k & Hk & -> & Hf & Hok) Hne (j & Hj & -> & Hf' & Hok'). rewrite length_drop in Hj.
  exists (k + j)%nat. split_and!; [lia|lia|by rewrite drop_drop| |done].
  rewrite (feed_split c k), take_take, (Nat.min_l k) by lia. rewrite Hf.
  replace (drop k (take (k + j) rest)) with (take j (drop k rest)) by (by rewrite take_drop_commute).
  rewrite Hf'. f_equal. lia.
Qed.

Lemma consume_body_skip c : consume_body c [] = (c, [], []).
Proof. unfold consume_body. by rewrite andb_false_r. Qed.

Lemma consume_body_no_error c rest :
  next_state_ c <> Error -> next_state_ (consume_body c rest).1.1 <> Error.
Proof. intros H. unfold consume_body. by repeat case_if. Qed.

Lemma consume_iteration_pass c rest :
  codec_ok c -> next_state_ c <> Error -> rest <> [] -> size_of rest < two64 ->
  let '(c', rest', fs, broke) := consume_iteration c rest in
  pass_ok c rest c' rest' fs /\ (broke = true <-> next_state_ c' = Error).
Proof.
  intros Hok Hne Hr Hlen. pose proof (ok_state c Hok) as Hs. unfold consume_iteration.
  destruct (next_state_ c) eqn:E; [..|done|done].
  2: { rewrite bool_decide_false by done.
       pose proof (consume_body_pass c rest Hok E Hr Hlen) as Hp.
       pose proof (consume_body_no_error c rest ltac:(congruence)) as Hn.
       by destruct (consume_body c rest) as [[c' rest'] fs]. }
  rewrite bool_decide_true by done. destruct Hs as (Hb & Hp & Hx & He).
  assert (0 < size_of rest) by (destruct rest; [done|unfold size_of; simpl; lia]).
  unfold kFrameHeaderSize in *. rewrite (wrap64_small (4 - _)) by (unfold is_u64; lia).
  cbn beta zeta. set (k := Z.to_nat (Z.min _ _)).
  assert (0 < k <= length rest)%nat as Hk by (unfold size_of in *; lia).
  destruct (size_take_drop k rest) as [Ht _]; [lia|].
  assert (size_of (take k rest) = Z.of_nat k) as Hkt by (unfold size_of; by rewrite Ht).
  rewrite wrap64_small by (unfold is_u64; lia). rewrite <-Hkt. fold (push_header c (take k rest)).
  pose proof (feed_header c (take k rest) Hok E
    ltac:(intros En; rewrite En in Ht; simpl in Ht; lia) ltac:(lia)) as Hf.
  pose proof (finish_header_ok c (take k rest) Hok E ltac:(lia)) as Hok'.
  rewrite Hkt in Hf. set (c1 := push_header c (take k rest)) in *.
  assert (forall c2, finish_header c1 = c2 -> pass_ok c rest c2 (drop k rest) []) as Hpass.
  { intros c2 <-. by exists k. }
  unfold finish_header in Hpass, Hok'. destruct (header_bytes_ c1 <? 4).
  { split; [by apply Hpass|]. change (next_state_ c1) with (next_state_ c). by rewrite E. }
  rewrite bool_decide_not. destruct (bool_decide (validatePayloadLength _ = none)); simpl negb;
    cbn iota; [|by split; [apply Hpass|]].
  set (c2 := set next_state_ _ _) in *. specialize (Hpass c2 eq_refl).
  pose proof (consume_body_no_error c2 (drop k rest) ltac:(done)) as Hn.
  destruct (decide (drop k rest = [])) as [Hd|Hd].
  - rewrite Hd in *. by rewrite consume_body_skip.
  - pose proof (consume_body_pass c2 (drop k rest) Hok' eq_refl Hd
      ltac:(unfold size_of in *; rewrite length_drop; lia)) as Hp2.
    destruct (consume_body c2 (drop k rest)) as [[c3 r3] f3].
    split; [by eapply pass_ok_compose|done].
Qed.

(** Enough fuel: every pass reads at least one byte. *)
Lemma consume_loop_feed fuel c rest out :
  codec_ok c -> next_state_ c <> Error -> size_of rest < two64 -> (length rest <= fuel)%nat ->
  let '(c', fs, n) := feed c rest in
  consume_loop fuel c rest out = Some (c', drop (Z.to_nat n) rest, out ++ fs)
  /\ 0 <= n <= size_of rest.
Proof.
  revert c rest out. induction fuel as [|fuel IH]; intros c rest out Hok Hne Hlen Hfuel.
  - destruct rest; [|simpl in Hfuel; lia]. simpl. by rewrite app_nil_r.
  - destruct (decide (rest = [])) as [->|Hr]; [simpl; by rewrite app_nil_r|].
    replace (consume_loop (S fuel) c rest out) with
      (let '(c, rest, fs, broke) := consume_iteration c rest in
       if broke then Some (c, rest, out ++ fs) else consume_loop fuel c rest (out ++ fs))
      by (by destruct rest).
    pose proof (consume_iteration_pass c rest Hok Hne Hr Hlen) as Hp.
    destruct (consume_iteration c rest) as [[[c1 r1] f1] broke].
    destruct Hp as [(k & Hk & -> & Hf & Hok1) Hb]. rewrite (feed_split c k), Hf.
    destruct broke.
    + rewrite feed_error by (by apply Hb). rewrite app_nil_r, Z.add_0_r, Nat2Z.id.
      split; [done|unfold size_of; lia].
    + specialize (IH c1 (drop k rest) (out ++ f1) Hok1 ltac:(intros Hx; by apply Hb in Hx)).
      destruct (feed c1 (drop k rest)) as [[c2 f2] n2]. unfold size_of in *.
      rewrite length_drop in IH. destruct IH as [-> Hn]; [lia|lia|].
      split; [|lia]. rewrite drop_drop, <-app_assoc.
      by replace (Z.to_nat (Z.of_nat k + n2)) with (k + Z.to_nat n2)%nat by lia.
Qed.

(** The result that [consume] reports for a reading of the specification. *)
Definition reported (c : LengthPrefixedCodec) (fs : list DecodedFrame) (n : Z)
    : CodecConsumeResult :=
  mkConsumeResult (if bool_decide (next_state_ c = Error) then Error
                   else if negb (bool_decide (fs = [])) then FrameReady else next_state_ c)
    (error_ c) n fs.

Lemma consume_spec c input :
  codec_ok c -> size_of input < two64 ->
  let '(c', fs, n) := feed c input in
  consume c input = Some (c', reported c' fs n) /\ 0 <= n <= size_of input /\ codec_ok c'.
Proof.
  intros Hok Hlen. pose proof (feed_ok input c Hok) as Hok'. unfold consume.
  destruct (bool_decide (next_state_ c = Error)) eqn:E; bool_to_prop.
  - rewrite feed_error in * by done. unfold reported. rewrite bool_decide_true by done.
    pose proof (size_of_nonneg input). conj_lia.
  - pose proof (consume_loop_feed (length input) c input [] Hok E Hlen ltac:(lia)) as Hl.
    destruct (feed c input) as [[c' fs] n]. destruct Hl as [-> Hn]. split_and!; try done; try lia.
    simpl. unfold reported. do 3 f_equal. unfold size_of in *. rewrite length_drop. lia.
Qed.

Lemma fresh_codec_ok : codec_ok fresh_codec.
Proof. by split. Qed.

(** C23. The batched decoder returns for every input (fuel: one pass per byte)
    and is the byte-at-a-time decoder: same frames, same next state, same error
    and the same number of bytes consumed, from any state that satisfies the
    codec's invariant, which it preserves; in particular it never buffers more
    than one header or one payload of at most 1 MiB. *)
Theorem consume_is_bytewise c input :
  codec_ok c -> size_of input < two64 ->
  let '(c', fs, n) := feed c input in
  consume c input = Some (c', reported c' fs n) /\ codec_ok c'
  /\ 0 <= bufferedBytes c' < kMaxPayloadSize.
Proof.
  intros Hok Hlen. pose proof (consume_spec c input Hok Hlen) as Hs.
  destruct (feed c input) as [[c' fs] n]. destruct Hs as (-> & _ & Hok'). split_and!; try done.
  all: pose proof (ok_state c' Hok') as Hs; unfold bufferedBytes, kMaxPayloadSize in *;
    pose proof (size_of_nonneg (payload_ c')); destruct (next_state_ c'); [..|done|];
    destruct Hs as (? & Hp & ? & _); try (rewrite Hp in *; change (size_of (@nil Z)) with 0 in *);
    rewrite wrap64_small; unfold is_u64; lia.
Qed.

Lemma consume_is_bytewise_witness :
  let input := [0; 0; 0; 2; 65; 66; 0; 0] in
  consume fresh_codec input
  = Some (mkCodec [0; 0; 0; 2] 2 0 [] NeedHeader none, mkConsumeResult FrameReady none 8 [[65; 66]])
  /\ (let '(c', fs, n) := feed fresh_codec input in
      consume fresh_codec input = Some (c', reported c' fs n) /\ codec_ok c'
      /\ 0 <= bufferedBytes c' < kMaxPayloadSize).
Proof.
  intros input. split; [vm_compute; reflexivity|].
  exact (consume_is_bytewise fresh_codec input fresh_codec_ok eq_refl).
Defined.

(** Segmentation is irrelevant: decoding a stream in two pieces gives the
    state and the frames of decoding it at once (hence for any segmentation). *)
Theorem consume_app c xs ys :
  codec_ok c -> size_of (xs ++ ys) < two64 ->
  exists c1 r1 c2 r2,
    consume c xs = Some (c1, r1) /\ consume c1 ys = Some (c2, r2)
    /\ exists r, consume c (xs ++ ys) = Some (c2, r)
       /\ frames r = frames r1 ++ frames r2
       /\ bytes_consumed r = bytes_consumed r1 + bytes_consumed r2 /\ error r = error r2.
Proof.
  intros Hok Hlen. rewrite size_of_app in Hlen.
  pose proof (size_of_nonneg xs). pose proof (size_of_nonneg ys).
  pose proof (consume_spec c xs Hok ltac:(lia)) as H1.
  pose proof (consume_spec c (xs ++ ys) Hok ltac:(rewrite size_of_app; lia)) as H3.
  rewrite feed_app in H3. destruct (feed c xs) as [[c1 f1] n1].
  destruct H1 as (E1 & _ & Hok1). pose proof (consume_spec c1 ys Hok1 ltac:(lia)) as H2.
  destruct (feed c1 ys) as [[c2 f2] n2]. destruct H2 as (E2 & _ & _), H3 as (E3 & _ & _).
  by eexists _, _, _, _; split_and!; [exact E1|exact E2|]; eexists; split_and!; [exact E3|..].
Qed.

Lemma consume_app_witness :
  exists c1 r1 c2 r2,
    consume fresh_codec [0; 0] = Some (c1, r1) /\ consume c1 [0; 1; 9] = Some (c2, r2)
    /\ exists r, consume fresh_codec ([0; 0] ++ [0; 1; 9]) = Some (c2, r)
       /\ frames r = frames r1 ++ frames r2
       /\ bytes_consumed r = bytes_consumed r1 + bytes_consumed r2 /\ error r = error r2.
Proof. exact (consume_app fresh_codec [0; 0] [0; 1; 9] fresh_codec_ok eq_refl). Defined.

(** ** Frames on the wire *)

Lemma land_255 x : Z.land x 255 = x mod 256.
Proof. change 255 with (Z.ones 8). by rewrite Z.land_ones. Qed.

Lemma decode_arith a b c d :
  is_byte a -> is_byte b -> is_byte c -> is_byte d ->
  decodePayloadLength [a; b; c; d] = a * 16777216 + b * 65536 + c * 256 + d.
Proof.
  unfold is_byte. intros. unfold decodePayloadLength. simpl.
  rewrite !Z.shiftl_mul_pow2 by lia. rewrite !wrap32_small by (unfold is_u32; lia).
  rewrite <-(Z.shiftl_mul_pow2 a 24), (lor_shiftl_add a) by lia.
  replace (a * 2 ^ 24 + b * 2 ^ 16) with (Z.shiftl (a * 256 + b) 16)
    by (rewrite Z.shiftl_mul_pow2; lia).
  rewrite lor_shiftl_add by lia.
  replace ((a * 256 + b) * 2 ^ 16 + c * 2 ^ 8) with (Z.shiftl ((a * 256 + b) * 256 + c) 8)
    by (rewrite Z.shiftl_mul_pow2; lia).
  rewrite lor_shiftl_add by lia. lia.
Qed.

Lemma encode_arith n :
  encodePayloadLength n
  = [n / 16777216 mod 256; n / 65536 mod 256; n / 256 mod 256; n mod 256].
Proof. unfold encodePayloadLength. rewrite !land_255, !Z.shiftr_div_pow2 by lia. done. Qed.

Lemma decode_encode n : is_u32 n -> decodePayloadLength (encodePayloadLength n) = n.
Proof.
  intros Hn. rewrite encode_arith.
  rewrite decode_arith by (unfold is_byte; apply Z.mod_pos_bound; lia).
  unfold is_u32 in *. zlia.
Qed.

(** The 4-byte big-endian header is a bijection between the 32-bit
    lengths and the quadruples of bytes. *)
Theorem payload_length_roundtrip n a b c d :
  is_u32 n -> is_byte a -> is_byte b -> is_byte c -> is_byte d ->
  decodePayloadLength (encodePayloadLength n) = n
  /\ encodePayloadLength (decodePayloadLength [a; b; c; d]) = [a; b; c; d].
Proof.
  intros Hn Ha Hb Hc Hd. split; [by apply decode_encode|].
  rewrite decode_arith, encode_arith by done. unfold is_byte in *. f_equal; [zlia|].
  f_equal; [zlia|]. f_equal; [zlia|]. f_equal. zlia.
Qed.

Lemma payload_length_roundtrip_witness :
  decodePayloadLength (encodePayloadLength 1048576) = 1048576
  /\ encodePayloadLength (decodePayloadLength [1; 2; 3; 4]) = [1; 2; 3; 4].
Proof. by apply payload_length_roundtrip. Defined.

(** A frame: the header of its length, then the payload. *)
Definition encode_frame (payload : bytes_t) : bytes_t :=
  encodePayloadLength (size_of payload) ++ payload.

Definition payload_ok (payload : bytes_t) : Prop := 1 <= size_of payload <= kMaxPayloadSize.

(** A codec between two frames. *)
Definition at_frame_start (c : LengthPrefixedCodec) : Prop :=
  codec_ok c /\ next_state_ c = NeedHeader /\ header_bytes_ c = 0.

(** Reading a whole header. *)
Lemma push_header_start c n :
  at_frame_start c ->
  push_header c (encodePayloadLength n) = mkCodec (encodePayloadLength n) 4 0 [] NeedHeader none.
Proof.
  intros ([Hl Hs] & E & Hb). rewrite E in Hs. destruct Hs as (_ & Hpay & Hx & Herr).
  assert (copy_at 0 (encodePayloadLength n) (header_ c) = encodePayloadLength n) as Hc.
  { unfold copy_at. rewrite drop_ge by (rewrite Hl; unfold encodePayloadLength; simpl; lia).
    by rewrite app_nil_r. }
  unfold push_header. rewrite Hb. change (Z.to_nat 0) with 0%nat. rewrite Hc.
  destruct c as [hd hb ex pl st er].
  cbn [header_ header_bytes_ expected_payload_bytes_ payload_ next_state_ error_] in *. by subst.
Qed.

Lemma finish_header_start c n :
  at_frame_start c -> is_u32 n ->
  finish_header (push_header c (encodePayloadLength n))
  = let err := validatePayloadLength n in
    if bool_decide (err = none) then mkCodec (encodePayloadLength n) 0 n [] NeedBody none
    else mkCodec (encodePayloadLength n) 0 0 [] Error err.
Proof.
  intros Hc Hn. rewrite push_header_start by done. unfold finish_header.
  cbn [header_bytes_ header_]. change (4 <? 4) with false. cbn iota zeta.
  rewrite decode_encode by done. by destruct (bool_decide _).
Qed.

Lemma finish_header_frame c payload :
  at_frame_start c -> payload_ok payload ->
  finish_header (push_header c (encodePayloadLength (size_of payload)))
  = mkCodec (encodePayloadLength (size_of payload)) 0 (size_of payload) [] NeedBody none.
Proof.
  intros Hc Hp. rewrite finish_header_start;
    [|done|unfold is_u32, payload_ok, kMaxPayloadSize in *; lia].
  cbn zeta. rewrite bool_decide_true; [done|]. by apply validate_none.
Qed.

Lemma feed_frame c payload :
  at_frame_start c -> payload_ok payload ->
  exists c', feed c (encode_frame payload) = (c', [payload], size_of (encode_frame payload))
             /\ at_frame_start c'.
Proof.
  intros Hc Hp. pose proof Hc as (Hok & E & Hb). unfold encode_frame. rewrite feed_app, size_of_app.
  pose proof (finish_header_frame c payload Hc Hp) as Ef.
  pose proof (finish_header_ok c (encodePayloadLength (size_of payload)) Hok E) as Hok1.
  rewrite (feed_header c _ Hok E) by (done || (rewrite Hb; done)). rewrite Ef in *.
  specialize (Hok1 ltac:(rewrite Hb; done)). set (c1 := mkCodec _ _ _ _ _ _) in *.
  assert (payload <> []) as Hne by (intros ->; unfold payload_ok, size_of in Hp; simpl in Hp; lia).
  rewrite (feed_body c1 payload Hok1 eq_refl Hne ltac:(simpl; change (size_of (@nil Z)) with 0; lia)).
  pose proof (finish_body_ok c1 payload Hok1 eq_refl
    ltac:(simpl; change (size_of (@nil Z)) with 0; lia)) as Hok2.
  unfold finish_body in *. simpl in *. rewrite Z.eqb_refl in *. eexists. split; [done|].
  by split_and!.
Qed.

Lemma feed_frames c payloads :
  at_frame_start c -> Forall payload_ok payloads ->
  exists c', feed c (mjoin (encode_frame <$> payloads))
             = (c', payloads, size_of (mjoin (encode_frame <$> payloads))) /\ at_frame_start c'.
Proof.
  intros Hc Hf. revert c Hc. induction Hf as [|p ps Hp Hps IH]; intros c Hc.
  - by exists c.
  - destruct (feed_frame c p Hc Hp) as (c1 & E1 & Hc1). destruct (IH c1 Hc1) as (c2 & E2 & Hc2).
    exists c2. by rewrite fmap_cons, mjoin_cons, feed_app, E1, E2, size_of_app.
Qed.

(** All the pieces of a stream, in order. *)
Fixpoint consume_all (c : LengthPrefixedCodec) (pieces : list bytes_t)
    : option (LengthPrefixedCodec * list DecodedFrame) :=
  match pieces with
  | [] => Some (c, [])
  | p :: ps =>
      match consume c p with
      | None => None
      | Some (c, r) =>
          match consume_all c ps with
          | None => None
          | Some (c, fs) => Some (c, frames r ++ fs)
          end
      end
  end.

Lemma consume_all_feed c pieces :
  codec_ok c -> size_of (mjoin pieces) < two64 ->
  let '(c', fs, n) := feed c (mjoin pieces) in consume_all c pieces = Some (c', fs).
Proof.
  revert c. induction pieces as [|p ps IH]; intros c Hok Hlen; [done|]. cbn [consume_all].
  rewrite mjoin_cons in *. rewrite size_of_app in Hlen.
  pose proof (size_of_nonneg p). pose proof (size_of_nonneg (mjoin ps)).
  pose proof (consume_spec c p Hok ltac:(lia)) as H1. rewrite feed_app.
  destruct (feed c p) as [[c1 f1] n1]. destruct H1 as (-> & _ & Hok1).
  specialize (IH c1 Hok1 ltac:(lia)). destruct (feed c1 _) as [[c2 f2] n2]. by rewrite IH.
Qed.

Lemma frames_decode payloads pieces :
  Forall payload_ok payloads -> mjoin pieces = mjoin (encode_frame <$> payloads) ->
  size_of (mjoin pieces) < two64 ->
  exists c', consume_all fresh_codec pieces = Some (c', payloads)
             /\ next_state_ c' = NeedHeader /\ error_ c' = none /\ bufferedBytes c' = 0.
Proof.
  intros Hp Hj Hlen. pose proof (consume_all_feed fresh_codec pieces fresh_codec_ok Hlen) as Hc.
  rewrite Hj in Hc. destruct (feed_frames fresh_codec payloads) as (c' & E & Hok & Hs & Hb);
    [by split; [apply fresh_codec_ok|]|done|].
  rewrite E in Hc. exists c'. pose proof (ok_state c' Hok) as Hst. rewrite Hs in Hst.
  destruct Hst as (_ & Hpay & _ & Herr). split_and!; try done.
  unfold bufferedBytes. by rewrite Hb, Hpay.
Qed.

(** C28. What one side encodes the other side decodes, however TCP cuts the
    stream: for any payloads of 1 byte to 1 MiB and any segmentation of the
    concatenation of their frames, the decoder returns exactly the payloads in
    order and ends between frames without an error. *)
Theorem frames_roundtrip payloads pieces :
  Forall payload_ok payloads -> mjoin pieces = mjoin (encode_frame <$> payloads) ->
  size_of (mjoin pieces) < two64 ->
  exists c', consume_all fresh_codec pieces = Some (c', payloads)
             /\ next_state_ c' = NeedHeader /\ error_ c' = none /\ bufferedBytes c' = 0.
Proof. apply frames_decode. Qed.

Lemma frames_roundtrip_witness :
  exists c', consume_all fresh_codec [[0; 0; 0]; [1; 7; 0; 0; 0; 2; 8]; [9]] = Some (c', [[7]; [8; 9]])
             /\ next_state_ c' = NeedHeader /\ error_ c' = none /\ bufferedBytes c' = 0.
Proof.
  apply frames_roundtrip; [|reflexivity|reflexivity].
  repeat constructor; done.
Defined.

(** A header that declares an empty payload or more than 1 MiB is an
    error as soon as its fourth byte is read: the decoder stops there, reports
    the reason, and every later call consumes nothing and repeats it. *)
Theorem bad_length_is_sticky c n rest more :
  at_frame_start c -> is_u32 n -> ~ 1 <= n <= kMaxPayloadSize ->
  size_of rest < two32 ->
  let err := if n <? 1 then empty_payload else payload_too_large in
  exists c', consume c (encodePayloadLength n ++ rest) = Some (c', mkConsumeResult Error err 4 [])
             /\ consume c' more = Some (c', mkConsumeResult Error err 0 []).
Proof.
  intros (Hok & E & Hb) Hn Hbad Hlen err.
  pose proof (consume_spec c (encodePayloadLength n ++ rest) Hok) as Hs.
  rewrite size_of_app, feed_app in Hs. change (size_of (encodePayloadLength n)) with 4 in Hs.
  rewrite (feed_header c _ Hok E) in Hs by (done || (rewrite Hb; done)).
  set (c1 := finish_header _) in Hs. assert (next_state_ c1 = Error /\ error_ c1 = err) as [Es Ee].
  { subst c1. rewrite finish_header_start by done. cbn zeta.
    rewrite bool_decide_false by (by rewrite validate_none). simpl. split; [done|].
    unfold validatePayloadLength, kMinPayloadSize, kMaxPayloadSize in *. subst err.
    repeat case_if; try done; lia. }
  rewrite (feed_error c1 rest Es) in Hs. destruct Hs as (-> & _ & _); [lia|]. exists c1.
  unfold reported, consume. rewrite bool_decide_true, Ee by done. done.
Qed.

Lemma bad_length_is_sticky_witness :
  exists c', consume fresh_codec (encodePayloadLength 1048577 ++ [1; 2])
             = Some (c', mkConsumeResult Error payload_too_large 4 [])
             /\ consume c' [3] = Some (c', mkConsumeResult Error payload_too_large 0 []).
Proof.
  apply (bad_length_is_sticky fresh_codec 1048577 [1; 2] [3]); [|done| |done].
  - split_and!; [apply fresh_codec_ok|done|done].
  - unfold kMaxPayloadSize. lia.
Defined.
