(* ===== verification/TimerCore.v ===== *)
(** * TimerCore: the timer heap behind its command queue

    Model of [include/aegisflow/timer/timer_core.hpp] and
    [src/timer/timer_core.cpp].  Every critical section of [mutex_] is one
    atomic operation on the state; [runReady] releases the mutex between two
    dispatches, so a run is a sequence of atomic operations in which other
    threads may schedule, cancel or stop between any two iterations of the
    dispatch loop.  [SteadyTime] is a [Z]; a sink is an identifier, and whether
    its owner is still alive is an argument.  Allocation failures are not
    modelled. *)

From S2P Require Import Prelude PriorityQueue.
Open Scope Z_scope.

Record TimerId := mkTimerId { value : Z; generation : Z }.

#[export] Instance TimerId_eq_dec : EqDecision TimerId.
Proof. solve_decision. Defined.

Definition null_timer : TimerId := mkTimerId 0 0.

Definition timer_valid (i : TimerId) : bool :=
  negb (value i =? 0) && negb (generation i =? 0).

Inductive TimerEventKind :=
| IdleTimeout | ReadTimeout | WriteTimeout | BusinessTimeout | CleanupTick
| BlacklistMaintenanceTick.

#[export] Instance TimerEventKind_eq_dec : EqDecision TimerEventKind.
Proof. solve_decision. Defined.

Record TimerEvent := mkTimerEvent {
  kind : TimerEventKind;
  target_id : Z;
  target_loop_id : Z;
  target_fd : Z;
  target_generation : Z;
  target_sequence : Z;
}.

(** [enum class TimerStatus] *)
Module TimerStatus.
Inductive t :=
| Ok | InvalidConfig | ConfigConflict | NotInitialized | InvalidState | NotRunning | Stopped
| QueueFull | TimerLimit | SinkExpired | InvalidEvent | IdExhausted | NotFound
| GenerationMismatch | AlreadyCancelled | ThreadStartFailed | SelfJoin | SystemCallFailed
| WakeFailed | InternalError.

#[export] Instance eq_dec : EqDecision t.
Proof. solve_decision. Defined.
End TimerStatus.
#[export] Existing Instance TimerStatus.eq_dec.

Record TimerCoreConfig := mkTimerConfig { command_capacity : Z; timer_capacity : Z }.

#[export] Instance TimerCoreConfig_eq_dec : EqDecision TimerCoreConfig.
Proof. solve_decision. Defined.

Record Reservation := mkReservation { res_generation : Z; cancelled : bool }.

Record HeapNode := mkHeapNode {
  deadline : Z;
  node_sequence : Z;
  node_id : TimerId;
  sink : Z;
  event : TimerEvent;
}.

(** [Command]: its kind, its node and its id. *)
Inductive Command :=
| Schedule (node : HeapNode) (id : TimerId)
| Stop.

Definition LaterDeadline (left right : HeapNode) : bool :=
  if negb (deadline left =? deadline right) then deadline right <? deadline left
  else node_sequence right <? node_sequence left.

Record TimerCore := mkTimerCore {
  config_ : option TimerCoreConfig;
  commands_ : list Command;
  heap_ : list HeapNode;
  reservations_ : gmap Z Reservation;
  next_id_value_ : Z;
  next_generation_ : Z;
  next_sequence_ : Z;
  accepting_ : bool;
  stop_requested_ : bool;
  stopped_ : bool;
}.

Definition fresh_core : TimerCore := mkTimerCore None [] [] ∅ 1 1 0 false false false.

Definition validConfig (config : TimerCoreConfig) : bool :=
  (0 <? command_capacity config) && (0 <? timer_capacity config).

Definition validEventKind (k : TimerEventKind) : bool :=
  match k with
  | IdleTimeout | ReadTimeout | WriteTimeout | BusinessTimeout | CleanupTick
  | BlacklistMaintenanceTick => true
  end.

Definition init (core : TimerCore) (config : TimerCoreConfig) : TimerCore * TimerStatus.t :=
  if negb (validConfig config) then (core, TimerStatus.InvalidConfig)
  else
    match config_ core with
    | Some c => (core, if bool_decide (c = config) then TimerStatus.Ok else TimerStatus.ConfigConflict)
    | None =>
        (core <| reservations_ := ∅ |> <| config_ := Some config |> <| accepting_ := true |>
              <| stop_requested_ := false |> <| stopped_ := false |>, TimerStatus.Ok)
    end.

Definition scheduleAt (core : TimerCore) (dl : Z) (snk : Z) (sink_expired : bool)
    (ev : TimerEvent) : TimerCore * (TimerStatus.t * TimerId) :=
  match config_ core with
  | None => (core, (TimerStatus.NotInitialized, null_timer))
  | Some config =>
      if negb (accepting_ core) then (core, (TimerStatus.Stopped, null_timer))
      else if negb (validEventKind (kind ev)) then (core, (TimerStatus.InvalidEvent, null_timer))
      else if sink_expired then (core, (TimerStatus.SinkExpired, null_timer))
      else if command_capacity config <=? size_of (commands_ core)
      then (core, (TimerStatus.QueueFull, null_timer))
      else if timer_capacity config <=? Z.of_nat (size (reservations_ core))
      then (core, (TimerStatus.TimerLimit, null_timer))
      else if ((next_id_value_ core =? u64_max) || (next_generation_ core =? u64_max)
               || (next_sequence_ core =? u64_max))%bool
      then (core, (TimerStatus.IdExhausted, null_timer))
      else
        let id := mkTimerId (next_id_value_ core) (next_generation_ core) in
        let node := mkHeapNode dl (next_sequence_ core) id snk ev in
        match reservations_ core !! value id with
        | Some _ => (core, (TimerStatus.InternalError, null_timer))
        | None =>
            (core <| reservations_ := <[value id := mkReservation (generation id) false]>
                                        (reservations_ core) |>
                  <| commands_ := commands_ core ++ [Schedule node id] |>
                  <| next_id_value_ := next_id_value_ core ⊕ 1 |>
                  <| next_generation_ := next_generation_ core ⊕ 1 |>
                  <| next_sequence_ := next_sequence_ core ⊕ 1 |>, (TimerStatus.Ok, id))
        end
  end.

Definition cancel (core : TimerCore) (id : TimerId) : TimerCore * TimerStatus.t :=
  match config_ core with
  | None => (core, TimerStatus.NotInitialized)
  | Some _ =>
      if negb (accepting_ core) then (core, TimerStatus.Stopped)
      else
        match reservations_ core !! value id with
        | None => (core, TimerStatus.NotFound)
        | Some r =>
            if negb (res_generation r =? generation id) then (core, TimerStatus.GenerationMismatch)
            else (core <| reservations_ := delete (value id) (reservations_ core) |>, TimerStatus.Ok)
        end
  end.

Definition requestStop (core : TimerCore) : TimerCore * TimerStatus.t :=
  match config_ core with
  | None => (core, TimerStatus.NotInitialized)
  | Some _ =>
      if stop_requested_ core then (core, TimerStatus.Ok)
      else (core <| commands_ := commands_ core ++ [Stop] |> <| accepting_ := false |>
                 <| stop_requested_ := true |>, TimerStatus.Ok)
  end.

(** The reservation of [id] exists, with its generation, and is not cancelled. *)
Definition still_active (res : gmap Z Reservation) (id : TimerId) : bool :=
  match res !! value id with
  | Some r => (res_generation r =? generation id) && negb (cancelled r)
  | None => false
  end.

(** The loop of [cleanupStaleLocked] over the tops of the heap. *)
Fixpoint cleanup_loop (heap : list HeapNode) (res : gmap Z Reservation)
    : list HeapNode * gmap Z Reservation :=
  match heap with
  | [] => (heap, res)
  | node :: rest =>
      if still_active res (node_id node) then (heap, res)
      else
        let res :=
          match res !! value (node_id node) with
          | Some r => if ((res_generation r =? generation (node_id node)) && cancelled r)%bool
                      then delete (value (node_id node)) res else res
          | None => res
          end in
        cleanup_loop rest res
  end.

Definition cleanupStaleLocked (core : TimerCore) : TimerCore :=
  let '(heap, res) := cleanup_loop (heap_ core) (reservations_ core) in
  core <| heap_ := heap |> <| reservations_ := res |>.

Definition nextDeadlineLocked (core : TimerCore) : option Z :=
  match heap_ core with
  | [] => None
  | node :: _ => Some (deadline node)
  end.

(** The body of the command loop for one command. *)
Definition process_command (core : TimerCore) (command : Command) : TimerCore :=
  match command with
  | Schedule node id =>
      if still_active (reservations_ core) id
      then core <| heap_ := push LaterDeadline node (heap_ core) |> else core
  | Stop =>
      core <| reservations_ :=
             (fun r => r <| cancelled := true |>) <$> reservations_ core |>
           <| stopped_ := true |>
  end.

Fixpoint process_loop (core : TimerCore) (commands : list Command) (processed : Z)
    : TimerCore * Z :=
  match commands with
  | [] => (core, processed)
  | command :: rest =>
      process_loop ((process_command core command) <| commands_ := rest |>) rest (processed ⊕ 1)
  end.

Record TimerCycleResult := mkCycleResult {
  status : TimerStatus.t;
  commands_processed : Z;
  timers_dispatched : Z;
  next_deadline : option Z;
  cycle_stopped : bool;
}.

Definition processCommands (core : TimerCore) : TimerCore * TimerCycleResult :=
  match config_ core with
  | None => (core, mkCycleResult TimerStatus.NotInitialized 0 0 None false)
  | Some _ =>
      let '(core, processed) := process_loop core (commands_ core) 0 in
      let core := cleanupStaleLocked core in
      (core, mkCycleResult TimerStatus.Ok processed 0 (nextDeadlineLocked core) (stopped_ core))
  end.

(** One critical section of the dispatch loop of [runReady]. *)
Inductive dispatch_outcome :=
| Break
| Continue
| Dispatch (node : HeapNode).

Definition dispatch_section (core : TimerCore) (now : Z) : TimerCore * dispatch_outcome :=
  if stop_requested_ core then (core, Break)
  else
    let core := cleanupStaleLocked core in
    match heap_ core with
    | [] => (core, Break)
    | node :: rest =>
        if now <? deadline node then (core, Break)
        else
          let core := core <| heap_ := rest |> in
          match reservations_ core !! value (node_id node) with
          | None => (core, Continue)
          | Some r =>
              if (negb (res_generation r =? generation (node_id node)) || cancelled r)%bool
              then (core, Continue)
              else (core <| reservations_ := delete (value (node_id node)) (reservations_ core) |>,
                    Dispatch node)
          end
    end.

(** The dispatch loop without interference of other threads; the dispatched
    nodes are posted to their sinks in this order. *)
Fixpoint dispatch_loop (fuel : nat) (core : TimerCore) (now : Z) (out : list HeapNode)
    : option (TimerCore * list HeapNode) :=
  match fuel with
  | O => None
  | S fuel =>
      match dispatch_section core now with
      | (core, Break) => Some (core, out)
      | (core, Continue) => dispatch_loop fuel core now out
      | (core, Dispatch node) => dispatch_loop fuel core now (out ++ [node])
      end
  end.

(** [now] is the reading of the steady clock after the commands are processed. *)
Definition runReady (core : TimerCore) (now : Z)
    : option (TimerCore * TimerCycleResult * list HeapNode) :=
  let '(core, result) := processCommands core in
  if negb (bool_decide (status result = TimerStatus.Ok)) then Some (core, result, [])
  else
    match dispatch_loop (S (length (heap_ core))) core now [] with
    | None => None
    | Some (core, out) =>
        let core := cleanupStaleLocked core in
        Some (core, mkCycleResult TimerStatus.Ok (commands_processed result) (wrap64 (size_of out))
                      (nextDeadlineLocked core) (stopped_ core), out)
    end.

(** ** Order and liveness of nodes *)

#[export] Instance LaterDeadline_order : HeapOrder LaterDeadline.
Proof.
  split; unfold LaterDeadline; intros; repeat case_match; bool_to_prop;
    try (apply Z.ltb_ge); lia.
Qed.

Lemma before_deadline a b : before LaterDeadline a b -> deadline a <= deadline b.
Proof. unfold before, LaterDeadline. intros. case_match; bool_to_prop; lia. Qed.

Definition active (res : gmap Z Reservation) (n : HeapNode) : Prop :=
  still_active res (node_id n) = true.

#[export] Instance active_dec res n : Decision (active res n).
Proof. unfold active. apply _. Defined.

Definition live (res : gmap Z Reservation) (ns : list HeapNode) : list HeapNode :=
  filter (active res) ns.

(** What the lazy deletion may change. *)
Definition same_active (res res' : gmap Z Reservation) : Prop :=
  res' ⊆ res /\ forall i, still_active res' i = still_active res i.

Lemma live_same res res' ns : same_active res res' -> live res' ns = live res ns.
Proof.
  intros [_ H]. unfold live. apply list_filter_iff. intros n. unfold active. by rewrite H.
Qed.

Lemma same_active_trans r1 r2 r3 : same_active r1 r2 -> same_active r2 r3 -> same_active r1 r3.
Proof. intros [H1 H2] [H3 H4]. split; [by etrans|]. intros i. by rewrite H4, H2. Qed.

Lemma same_active_delete res i r :
  res !! value i = Some r -> res_generation r = generation i -> cancelled r = true ->
  same_active res (delete (value i) res).
Proof.
  intros Hr Hg Hc. split; [apply delete_subseteq|]. intros j. unfold still_active.
  destruct (decide (value i = value j)) as [E|E].
  - rewrite <-E, lookup_delete, decide_True, Hr, Hc by done. by rewrite andb_false_r.
  - by rewrite lookup_delete, decide_False.
Qed.

Lemma cleanup_loop_spec heap res :
  let '(heap', res') := cleanup_loop heap res in
  same_active res res' /\ heap' `suffix_of` heap /\ live res heap' = live res heap
  /\ (forall n, head heap' = Some n -> active res n).
Proof.
  revert res. induction heap as [|n heap IH]; simpl; intros res; [by split_and!|].
  destruct (still_active res (node_id n)) eqn:E.
  { split_and!; [done|done|done|by intros ? [= <-]]. }
  set (res1 := match _ with Some _ => _ | None => _ end).
  assert (same_active res res1) as Hs.
  { subst res1. destruct (res !! value (node_id n)) as [r|] eqn:Er; [|done].
    case_if; [by eapply same_active_delete|done]. }
  specialize (IH res1). destruct (cleanup_loop heap res1) as [heap' res'].
  destruct IH as (H1 & H2 & H3 & H4). split_and!.
  - by eapply same_active_trans.
  - by apply suffix_cons_r.
  - rewrite !(live_same res res1) in H3 by done. rewrite H3. unfold live.
    by rewrite filter_cons_False by (unfold active; congruence).
  - intros m Hm. apply H4 in Hm. unfold active in *. by rewrite <-(proj2 Hs).
Qed.

(** ** Runs: interleavings of critical sections *)

Inductive timer_op :=
| OpInit (config : TimerCoreConfig)
| OpSchedule (dl snk : Z) (expired : bool) (ev : TimerEvent)
| OpCancel (id : TimerId)
| OpRequestStop
| OpProcess
| OpDispatch (now : Z)
| OpCleanup.

(** What an observer sees. *)
Inductive occurrence :=
| Accepted (n : HeapNode)
| Cancelled (id : TimerId)
| StopRequested
| Fired (n : HeapNode) (now : Z).

Definition timer_step (core : TimerCore) (op : timer_op) : TimerCore * list occurrence :=
  match op with
  | OpInit config => ((init core config).1, [])
  | OpSchedule dl snk expired ev =>
      match scheduleAt core dl snk expired ev with
      | (core', (TimerStatus.Ok, id)) =>
          (core', [Accepted (mkHeapNode dl (next_sequence_ core) id snk ev)])
      | (core', _) => (core', [])
      end
  | OpCancel id =>
      match cancel core id with
      | (core', TimerStatus.Ok) => (core', [Cancelled id])
      | (core', _) => (core', [])
      end
  | OpRequestStop =>
      match requestStop core with
      | (core', TimerStatus.Ok) => (core', [StopRequested])
      | (core', _) => (core', [])
      end
  | OpProcess => ((processCommands core).1, [])
  | OpDispatch now =>
      match dispatch_section core now with
      | (core', Dispatch n) => (core', [Fired n now])
      | (core', _) => (core', [])
      end
  | OpCleanup => (cleanupStaleLocked core, [])
  end.

Fixpoint timer_run (core : TimerCore) (ops : list timer_op) : TimerCore * list occurrence :=
  match ops with
  | [] => (core, [])
  | op :: rest =>
      let '(core, evs) := timer_step core op in
      let '(core, more) := timer_run core rest in (core, evs ++ more)
  end.

(** The nodes that the core still holds. *)
Definition command_node (c : Command) : list HeapNode :=
  match c with Schedule n _ => [n] | Stop => [] end.
Definition held (core : TimerCore) : list HeapNode :=
  heap_ core ++ mjoin (command_node <$> commands_ core).

Abbreviation key n := (value (node_id n)).

(** What a log may say about a firing. *)
Definition fire_ok (log : list occurrence) (n : HeapNode) (now : Z) : Prop :=
  Accepted n ∈ log /\ deadline n <= now /\ Cancelled (node_id n) ∉ log
  /\ StopRequested ∉ log /\ forall m now', Fired m now' ∈ log -> node_id m <> node_id n.

Definition log_ok (log : list occurrence) : Prop :=
  forall pre n now post, log = pre ++ Fired n now :: post -> fire_ok pre n now.

Record core_inv (core : TimerCore) (log : list occurrence) : Prop := {
  ci_counters : next_generation_ core = next_id_value_ core
                /\ next_sequence_ core = next_id_value_ core - 1
                /\ 1 <= next_id_value_ core <= u64_max;
  ci_accepted n : Accepted n ∈ log ->
    generation (node_id n) = key n /\ node_sequence n = key n - 1
    /\ 1 <= key n < next_id_value_ core;
  ci_held n : n ∈ held core -> Accepted n ∈ log;
  ci_unique : NoDup ((fun n => key n) <$> held core);
  ci_heap : heap_ok LaterDeadline (heap_ core);
  ci_ids n id : Schedule n id ∈ commands_ core -> id = node_id n;
  ci_reserved k r : reservations_ core !! k = Some r ->
    res_generation r = k
    /\ (cancelled r = false -> exists n, n ∈ held core /\ key n = k)
    /\ (forall id, Cancelled id ∈ log -> value id <> k)
    /\ (forall m now, Fired m now ∈ log -> key m <> k);
  ci_bound k r : reservations_ core !! k = Some r -> k < next_id_value_ core;
  ci_cancelled id : Cancelled id ∈ log -> value id < next_id_value_ core;
  ci_stop : StopRequested ∈ log -> stop_requested_ core = true;
  ci_stop_command : Stop ∈ commands_ core -> stop_requested_ core = true;
  ci_accepting : stop_requested_ core = true -> accepting_ core = false;
  ci_config : config_ core = None -> log = [] /\ commands_ core = [] /\ heap_ core = []
    /\ reservations_ core = ∅ /\ accepting_ core = false /\ stop_requested_ core = false;
  ci_capacity config : config_ core = Some config ->
    Z.of_nat (size (reservations_ core)) <= timer_capacity config
    /\ size_of (commands_ core) <= command_capacity config + (if stop_requested_ core then 1 else 0);
  ci_log : log_ok log;
}.

Lemma log_ok_fired log n now : log_ok log -> Fired n now ∈ log -> Accepted n ∈ log.
Proof.
  intros Hlog (pre & post & ->)%list_elem_of_split. destruct (Hlog pre n now post eq_refl) as [H _].
  apply elem_of_app. by left.
Qed.

Lemma log_ok_nil : log_ok [].
Proof. intros [] ? ? ?; done. Qed.

Lemma log_ok_snoc log e :
  log_ok log -> (forall n now, e = Fired n now -> fire_ok log n now) -> log_ok (log ++ [e]).
Proof.
  intros Hlog He pre n now post Heq. destruct post as [|p post _] using rev_ind.
  - apply app_inj_tail in Heq as [-> ->]. by apply He.
  - rewrite app_comm_cons, app_assoc in Heq. apply app_inj_tail in Heq as [-> _]. by eapply Hlog.
Qed.

Lemma fresh_core_inv : core_inv fresh_core [].
Proof.
  split; simpl; try done; try (intros *; rewrite ?lookup_empty; set_solver).
  - constructor.
  - constructor.
  - apply log_ok_nil.
Qed.

(** Sections that only drop nodes, commands or reservations. *)
Lemma core_inv_shrink core core' log :
  core_inv core log -> config_ core' = config_ core -> is_Some (config_ core) ->
  next_id_value_ core' = next_id_value_ core ->
  next_generation_ core' = next_generation_ core -> next_sequence_ core' = next_sequence_ core ->
  accepting_ core' = accepting_ core -> stop_requested_ core' = stop_requested_ core ->
  commands_ core' `suffix_of` commands_ core -> held core' ⊆+ held core ->
  heap_ok LaterDeadline (heap_ core') ->
  (size (reservations_ core') <= size (reservations_ core))%nat ->
  (forall k r', reservations_ core' !! k = Some r' ->
     exists r, reservations_ core !! k = Some r /\ res_generation r = res_generation r'
       /\ (cancelled r' = false -> exists n, n ∈ held core' /\ key n = k)) ->
  core_inv core' log.
Proof.
  intros [] Ec [c Hc] E1 E2 E3 E4 E5 Hcmd Hheld Hheap Hsize Hres.
  assert (forall x, x ∈ commands_ core' -> x ∈ commands_ core) as Hin.
  { intros x Hx. destruct Hcmd as [p ->]. set_solver. }
  split; rewrite ?E1, ?E2, ?E3, ?E4, ?E5, ?Ec; try done.
  - intros n Hn. by eapply ci_held0, elem_of_submseteq.
  - eapply submseteq_NoDup; [|exact ci_unique0]. by apply fmap_submseteq.
  - intros n i Hn. by apply ci_ids0, Hin.
  - intros k r' Hr'. destruct (Hres _ _ Hr') as (r & Hr & <- & Hn).
    destruct (ci_reserved0 _ _ Hr) as (H1 & _ & H3 & H4). done.
  - intros k r' Hr'. destruct (Hres _ _ Hr') as (r & Hr & _). by eapply ci_bound0.
  - intros Hst. by apply ci_stop_command0, Hin.
  - congruence.
  - intros config Hcfg. destruct (ci_capacity0 _ Hcfg). destruct Hcmd as [p Hp].
    rewrite Hp, size_of_app in *. pose proof (size_of_nonneg p). lia.
Qed.

Lemma held_drop core heap' :
  heap' `suffix_of` heap_ core ->
  heap' ++ mjoin (command_node <$> commands_ core) ⊆+ held core.
Proof.
  intros [p Hp]. unfold held. rewrite Hp, <-app_assoc. by apply submseteq_inserts_l.
Qed.

Lemma heap_ok_suffix h h' : h' `suffix_of` h -> heap_ok LaterDeadline h -> heap_ok LaterDeadline h'.
Proof. intros [p ->]. induction p; simpl; [done|]. intros H%heap_ok_tail. auto. Qed.

(** A node whose reservation is not cancelled is active. *)
Lemma reserved_active core log n r :
  core_inv core log -> n ∈ held core -> reservations_ core !! key n = Some r ->
  cancelled r = false -> active (reservations_ core) n.
Proof.
  intros Hinv Hn Hr Hc. unfold active, still_active. rewrite Hr, Hc.
  destruct (ci_reserved _ _ Hinv _ _ Hr) as [Hg _].
  destruct (ci_accepted _ _ Hinv n) as [Hn' _]; [by eapply ci_held|].
  rewrite Hg, Hn'. by rewrite Z.eqb_refl.
Qed.

Lemma cleanup_inv core log :
  core_inv core log -> is_Some (config_ core) -> core_inv (cleanupStaleLocked core) log.
Proof.
  intros Hinv Hcfg. unfold cleanupStaleLocked.
  pose proof (cleanup_loop_spec (heap_ core) (reservations_ core)) as Hs.
  destruct (cleanup_loop _ _) as [heap' res']. destruct Hs as ([Hsub Hact] & Hsuf & Hlive & _).
  apply (core_inv_shrink core); try done; simpl.
  - exact (held_drop core heap' Hsuf).
  - eapply heap_ok_suffix; [done|apply Hinv].
  - by apply map_subseteq_size.
  - intros k r Hr. pose proof (lookup_weaken _ _ _ _ Hr Hsub) as Hr0.
    exists r. split_and!; [done|done|]. intros Hc.
    destruct (ci_reserved _ _ Hinv _ _ Hr0) as (_ & Hn & _). destruct (Hn Hc) as (n & Hin & <-).
    exists n. split; [|done]. pose proof (reserved_active _ _ _ _ Hinv Hin Hr0 Hc) as Ha.
    unfold held in Hin |- *. simpl. apply elem_of_app in Hin as [Hin|Hin]; apply elem_of_app; [|by right].
    left. assert (n ∈ live (reservations_ core) heap') as Hl
      by (rewrite Hlive; by apply list_elem_of_filter). by apply list_elem_of_filter in Hl as [_ ?].
Qed.

Lemma process_command_inv core log c rest :
  core_inv core log -> is_Some (config_ core) -> commands_ core = c :: rest ->
  core_inv ((process_command core c) <| commands_ := rest |>) log.
Proof.
  intros Hinv Hcfg Hc. assert (rest `suffix_of` c :: rest) as Hsuf by (by apply suffix_cons_r).
  destruct c as [n i|]; simpl.
  - pose proof (ci_ids _ _ Hinv n i ltac:(rewrite Hc; left)) as ->.
    destruct (still_active (reservations_ core) (node_id n)) eqn:Ea.
    + assert (push LaterDeadline n (heap_ core) ++ mjoin (command_node <$> rest) ≡ₚ held core) as Hp.
      { unfold held. rewrite Hc, fmap_cons, mjoin_cons. simpl. rewrite push_permutation. simpl.
        by rewrite Permutation_middle. }
      apply (core_inv_shrink core); simpl; rewrite ?Hc; try done.
      * unfold held at 1. simpl. by rewrite Hp.
      * apply push_ok; [apply _|apply Hinv].
      * intros k r Hr. exists r. split_and!; try done. intros Hcc.
        destruct (ci_reserved _ _ Hinv _ _ Hr) as (_ & Hn & _). destruct (Hn Hcc) as (m & Hin & <-).
        exists m. split; [|done]. unfold held. simpl. by rewrite Hp.
    + apply (core_inv_shrink core); simpl; rewrite ?Hc; try done.
      * unfold held. rewrite Hc, fmap_cons, mjoin_cons. simpl. apply submseteq_app; [done|].
        by apply submseteq_cons.
      * apply Hinv.
      * intros k r Hr. exists r. split_and!; try done. intros Hcc.
        destruct (ci_reserved _ _ Hinv _ _ Hr) as (_ & Hn & _). destruct (Hn Hcc) as (m & Hin & <-).
        exists m. split; [|done]. pose proof (reserved_active _ _ _ _ Hinv Hin Hr Hcc) as Ha.
        unfold held in *. rewrite Hc, fmap_cons, mjoin_cons in Hin. simpl in *.
        unfold active in Ha. rewrite !elem_of_app, ?elem_of_cons in *.
        destruct Hin as [?|[->|?]]; [by left|congruence|by right].
  - apply (core_inv_shrink core); simpl; rewrite ?Hc; try done.
    + unfold held. by rewrite Hc.
    + apply Hinv.
    + by rewrite map_size_fmap.
    + intros k r. rewrite lookup_fmap. intros (r0 & Hr & ->)%fmap_Some. by exists r0.
Qed.

Lemma process_loop_inv cs core log p :
  core_inv core log -> is_Some (config_ core) -> commands_ core = cs ->
  let core' := (process_loop core cs p).1 in
  core_inv core' log /\ config_ core' = config_ core /\ commands_ core' = []
  /\ stop_requested_ core' = stop_requested_ core.
Proof.
  revert core p. induction cs as [|c cs IH]; simpl; intros core p Hinv Hcfg Hc; [done|].
  destruct (IH ((process_command core c) <| commands_ := cs |>) (p ⊕ 1)) as (H1 & H2 & H3 & H4).
  - by apply process_command_inv.
  - by destruct c; simpl; try case_match.
  - done.
  - split_and!; [done| |done|]; [rewrite H2|rewrite H4]; by destruct c; simpl; try case_match.
Qed.

(** *** The other sections *)

Lemma size_delete_le (k : Z) (res : gmap Z Reservation) : (size (delete k res) <= size res)%nat.
Proof. apply map_subseteq_size, delete_subseteq. Qed.

Lemma ci_configured core log :
  core_inv core log -> stop_requested_ core = true \/ accepting_ core = true
  \/ commands_ core <> [] \/ heap_ core <> [] -> is_Some (config_ core).
Proof.
  intros Hinv H. destruct (config_ core) eqn:E; [done|].
  destruct (ci_config _ _ Hinv E) as (_ & ? & ? & ? & ? & ?).
  destruct H as [?|[?|[?|?]]]; congruence.
Qed.

Lemma init_inv core log config :
  core_inv core log -> core_inv (init core config).1 log.
Proof.
  intros Hinv. unfold init. destruct (validConfig config) eqn:Hv; [|done]. simpl.
  destruct (config_ core) as [c|] eqn:E; [done|].
  destruct (ci_config _ _ Hinv E) as (-> & Hcm & Hh & Hr & Ha & Hs).
  assert (held core = []) as Hheld by (unfold held; by rewrite Hcm, Hh).
  unfold validConfig in Hv. bool_to_prop.
  destruct Hinv. split; simpl; try assumption; try done.
  all: intros c; try (rewrite lookup_empty; done); try done;
    try (rewrite ?Hcm in c; by apply not_elem_of_nil in c).
  intros [= <-]. rewrite map_size_empty, Hcm. unfold size_of. simpl. lia.
Qed.

Lemma schedule_inv core log dl snk expired ev :
  core_inv core log ->
  let '(core', evs) := timer_step core (OpSchedule dl snk expired ev) in
  core_inv core' (log ++ evs).
Proof.
  intros Hinv. simpl. unfold scheduleAt.
  destruct (config_ core) as [config|] eqn:Ec; [|by rewrite app_nil_r].
  repeat (case_if; [by rewrite app_nil_r|]).
  destruct (reservations_ core !! _) eqn:Er; [by rewrite app_nil_r|]. simpl in Er.
  pose proof (ci_counters _ _ Hinv) as (Hg & Hsq & Hid).
  set (n := mkHeapNode dl (next_sequence_ core) _ snk ev).
  assert (held (core <| commands_ := commands_ core ++ [Schedule n (node_id n)] |>)
          = held core ++ [n]) as Hheld.
  { unfold held. simpl. by rewrite fmap_app, join_app, app_assoc. }
  assert (is_u64 (next_id_value_ core + 1)) by (unfold is_u64, u64_max in *; lia).
  assert (forall m, m ∈ held core -> key m < next_id_value_ core) as Hlt.
  { intros m Hm. apply (ci_held _ _ Hinv) in Hm. apply (ci_accepted _ _ Hinv) in Hm. lia. }
  pose proof (ci_capacity _ _ Hinv _ Ec) as [Hcap1 Hcap2].
  assert (stop_requested_ core = false) as Hstop.
  { destruct (stop_requested_ core) eqn:Es; [|done]. apply (ci_accepting _ _ Hinv) in Es. congruence. }
  assert (forall m now, Fired m now ∈ log -> key m < next_id_value_ core) as Hfired.
  { intros m now Hm. apply (log_ok_fired _ _ _ (ci_log _ _ Hinv)) in Hm.
    apply (ci_accepted _ _ Hinv) in Hm. lia. }
  rewrite !wrap64_small by (done || (unfold is_u64, u64_max in *; lia)).
  unfold held in Hheld. simpl in Hheld.
  destruct Hinv. split; simpl; unfold held; simpl; rewrite ?Hheld.
  - unfold u64_max in *. lia.
  - intros m. rewrite elem_of_app, list_elem_of_singleton. intros [Hm|[= ->]].
    + destruct (ci_accepted0 _ Hm) as (? & ? & ?). lia.
    + simpl. lia.
  - intros m. rewrite !elem_of_app, !list_elem_of_singleton. rewrite <-elem_of_app.
    intros [Hm| ->]; [left; auto|by right].
  - rewrite fmap_app. apply NoDup_app. split_and!; [done| |apply NoDup_singleton].
    intros k (m & -> & Hm)%list_elem_of_fmap. simpl. rewrite list_elem_of_singleton.
    apply Hlt in Hm. lia.
  - done.
  - intros m i. rewrite elem_of_app, list_elem_of_singleton. intros [Hm|[= -> ->]]; auto.
  - intros k r. setoid_rewrite elem_of_app. setoid_rewrite list_elem_of_singleton.
    rewrite lookup_insert. case_decide as Hk.
    + intros [= <-]. subst k. simpl. split_and!; [done| | |].
      * intros _. exists n. split; [by right|done].
      * intros i [Hi|Hi]; [|done]. apply ci_cancelled0 in Hi. lia.
      * intros m now [Hm|Hm]; [|done]. apply Hfired in Hm. lia.
    + intros Hr. destruct (ci_reserved0 _ _ Hr) as (? & Hx & ? & ?). split_and!; [done| | |].
      * intros Hc. destruct (Hx Hc) as (m & Hm & <-). exists m. split; [by left|done].
      * intros i [Hi|Hi]; [auto|done].
      * intros m now [Hm|Hm]; [eauto|done].
  - intros k r. rewrite lookup_insert. case_decide; [lia|]. intros Hr%ci_bound0. lia.
  - intros i. rewrite elem_of_app, list_elem_of_singleton. intros [Hi|Hi]; [|done].
    apply ci_cancelled0 in Hi. lia.
  - rewrite elem_of_app, list_elem_of_singleton. intros [?|?]; auto; done.
  - rewrite elem_of_app, list_elem_of_singleton. intros [?|?]; auto; done.
  - done.
  - congruence.
  - intros c Hc. rewrite Ec in Hc. injection Hc as <-. rewrite Hstop in *.
    rewrite map_size_insert_None, size_of_app by done. unfold size_of at 2. simpl length. lia.
  - apply log_ok_snoc; [done|]. done.
Qed.

Lemma cancel_inv core log i :
  core_inv core log ->
  let '(core', evs) := timer_step core (OpCancel i) in core_inv core' (log ++ evs).
Proof.
  intros Hinv. simpl. unfold cancel.
  destruct (config_ core) as [config|] eqn:Ec; [|by rewrite app_nil_r].
  case_if; [by rewrite app_nil_r|].
  destruct (reservations_ core !! value i) as [r|] eqn:Er; [|by rewrite app_nil_r].
  case_if; [by rewrite app_nil_r|].
  pose proof (ci_bound _ _ Hinv _ _ Er) as Hi.
  destruct Hinv. split; simpl; try assumption.
  - intros n. rewrite elem_of_app, list_elem_of_singleton. intros [?|?]; auto; done.
  - intros n Hn. apply elem_of_app. left. auto.
  - intros k r'. rewrite lookup_delete. case_decide as Hk; [done|]. intros Hr.
    destruct (ci_reserved0 _ _ Hr) as (? & ? & Hc & Hf). split_and!; try done.
    + intros j. rewrite elem_of_app, list_elem_of_singleton. intros [?|[= ->]]; auto.
    + intros m now. rewrite elem_of_app, list_elem_of_singleton. intros [?|?]; [eauto|done].
  - intros k r'. rewrite lookup_delete. case_decide; [done|]. apply ci_bound0.
  - intros j. rewrite elem_of_app, list_elem_of_singleton. intros [?|[= ->]]; auto.
  - rewrite elem_of_app, list_elem_of_singleton. intros [?|?]; auto; done.
  - congruence.
  - intros c Hc. destruct (ci_capacity0 _ Hc). split; [|done].
    pose proof (size_delete_le (value i) (reservations_ core)). lia.
  - by apply log_ok_snoc.
Qed.

Lemma log_stop_inv core log :
  core_inv core log -> stop_requested_ core = true -> core_inv core (log ++ [StopRequested]).
Proof.
  intros Hinv Hs.
  assert (forall e, e ∈ log ++ [StopRequested] -> e <> StopRequested -> e ∈ log) as Hlog.
  { intros e [?|?%list_elem_of_singleton]%elem_of_app ?; done. }
  destruct Hinv. split; try assumption; try done.
  - intros n Hn. apply ci_accepted0. by apply Hlog.
  - intros n Hn. apply elem_of_app. left. auto.
  - intros k r Hr. destruct (ci_reserved0 _ _ Hr) as (? & ? & Hc & Hf). split_and!; try done.
    + intros i Hi. apply Hc. by apply Hlog.
    + intros m now Hm. apply (Hf m now). by apply Hlog.
  - intros i Hi. apply ci_cancelled0. by apply Hlog.
  - intros Hc. destruct (ci_config0 Hc) as (_ & _ & _ & _ & _ & ?). congruence.
  - by apply log_ok_snoc.
Qed.

Lemma stop_command_inv core log :
  core_inv core log -> is_Some (config_ core) -> stop_requested_ core = false ->
  core_inv (core <| commands_ := commands_ core ++ [Stop] |> <| accepting_ := false |>
                 <| stop_requested_ := true |>) log.
Proof.
  intros Hinv [c Ec] Hs.
  assert (heap_ core ++ mjoin (command_node <$> (commands_ core ++ [Stop])) = held core) as Hheld.
  { unfold held. rewrite fmap_app, join_app. simpl. by rewrite app_nil_r. }
  destruct Hinv. split; simpl; unfold held; simpl; rewrite ?Hheld; try assumption; try done.
  - intros m i [Hm|Hm%list_elem_of_singleton]%elem_of_app; [auto|done].
  - congruence.
  - intros c' Hc'. destruct (ci_capacity0 _ Hc'). rewrite Hs in *. rewrite size_of_app.
    unfold size_of at 2. simpl. lia.
Qed.

Lemma requestStop_inv core log :
  core_inv core log ->
  let '(core', evs) := timer_step core OpRequestStop in core_inv core' (log ++ evs).
Proof.
  intros Hinv. simpl. unfold requestStop.
  destruct (config_ core) as [config|] eqn:Ec; [|by rewrite app_nil_r].
  destruct (stop_requested_ core) eqn:Es; [by apply log_stop_inv|].
  apply log_stop_inv; [|done]. apply stop_command_inv; [done|by rewrite Ec|done].
Qed.

Lemma process_inv core log :
  core_inv core log -> core_inv (processCommands core).1 log.
Proof.
  intros Hinv. unfold processCommands. destruct (config_ core) as [c|] eqn:Ec; [|done].
  destruct (process_loop_inv _ core log 0 Hinv ltac:(by rewrite Ec) eq_refl) as (H1 & H2 & _).
  destruct (process_loop _ _ _) as [core' p]. simpl in *. apply cleanup_inv; [done|].
  by rewrite H2, Ec.
Qed.

Lemma cleanup_head core n rest :
  heap_ (cleanupStaleLocked core) = n :: rest ->
  active (reservations_ (cleanupStaleLocked core)) n.
Proof.
  unfold cleanupStaleLocked. pose proof (cleanup_loop_spec (heap_ core) (reservations_ core)) as Hs.
  destruct (cleanup_loop _ _) as [heap' res']. destruct Hs as ([_ Hact] & _ & _ & Hh). simpl.
  intros ->. unfold active. rewrite Hact. by apply Hh.
Qed.

Lemma active_lookup res n :
  active res n -> exists r, res !! key n = Some r /\ res_generation r = generation (node_id n)
                            /\ cancelled r = false.
Proof.
  unfold active, still_active. destruct (res !! key n) as [r|]; [|done]. intros H. bool_to_prop.
  by exists r.
Qed.

(** The shape of a critical section of the dispatch loop: the top is active. *)
Lemma dispatch_section_cases core now :
  dispatch_section core now
  = if stop_requested_ core then (core, Break)
    else
      let core := cleanupStaleLocked core in
      match heap_ core with
      | [] => (core, Break)
      | n :: rest =>
          if now <? deadline n then (core, Break)
          else (core <| heap_ := rest |>
                     <| reservations_ := delete (key n) (reservations_ core) |>, Dispatch n)
      end.
Proof.
  unfold dispatch_section. destruct (stop_requested_ core); [done|]. cbn zeta.
  destruct (heap_ (cleanupStaleLocked core)) as [|n rest] eqn:Eh; [done|].
  destruct (now <? deadline n); [done|].
  destruct (active_lookup _ _ (cleanup_head _ _ _ Eh)) as (r & Hr & Hg & Hc). simpl.
  by rewrite Hr, Hg, Hc, Z.eqb_refl.
Qed.

(** Popping an active top and releasing its reservation. *)
Lemma pop_inv core log n rest now :
  core_inv core log -> stop_requested_ core = false -> heap_ core = n :: rest ->
  active (reservations_ core) n -> deadline n <= now ->
  core_inv (core <| heap_ := rest |> <| reservations_ := delete (key n) (reservations_ core) |>)
    (log ++ [Fired n now]).
Proof.
  intros Hinv Hs Hh Ha Hd. destruct (active_lookup _ _ Ha) as (r & Hr & Hg & Hc).
  destruct (ci_reserved _ _ Hinv _ _ Hr) as (_ & _ & Hcan & Hfir).
  assert (n ∈ held core) as Hn by (unfold held; rewrite Hh; set_solver).
  assert (held core = n :: (rest ++ mjoin (command_node <$> commands_ core))) as Hheld
    by (unfold held; by rewrite Hh).
  pose proof (ci_unique _ _ Hinv) as Hu. rewrite Hheld in Hu. csimpl in Hu.
  apply NoDup_cons in Hu as [Hu1 Hu2].
  assert (is_Some (config_ core)) as [c Ec] by (eapply ci_configured; [done|do 3 right; by rewrite Hh]).
  pose proof (ci_held _ _ Hinv n Hn) as Hacc.
  assert (fire_ok log n now) as Hfire.
  { split_and!; try done.
    - intros Hx. by apply Hcan in Hx.
    - intros Hx. apply (ci_stop _ _ Hinv) in Hx. congruence.
    - intros m now' Hm E. apply Hfir in Hm. congruence. }
  destruct Hinv. split; simpl; unfold held; simpl; try assumption.
  - intros m. rewrite elem_of_app, list_elem_of_singleton. intros [?|?]; auto; done.
  - intros m Hm. apply elem_of_app. left. apply ci_held0. rewrite Hheld. by right.
  - rewrite Hh in ci_heap0. by apply heap_ok_tail in ci_heap0.
  - intros k r'. rewrite lookup_delete. case_decide as Hk; [done|]. intros Hr'.
    destruct (ci_reserved0 _ _ Hr') as (? & Hex & Hc' & Hf'). split_and!; [done| | |].
    + intros Hcc. destruct (Hex Hcc) as (m & Hm & <-). exists m. split; [|done].
      rewrite Hheld in Hm. by apply elem_of_cons in Hm as [->|?].
    + intros j. rewrite elem_of_app, list_elem_of_singleton. intros [?|?]; [auto|done].
    + intros m now'. rewrite elem_of_app, list_elem_of_singleton. intros [?|[= -> ->]]; [eauto|done].
  - intros k r'. rewrite lookup_delete. case_decide; [done|]. apply ci_bound0.
  - intros j. rewrite elem_of_app, list_elem_of_singleton. intros [?|?]; [auto|done].
  - rewrite elem_of_app, list_elem_of_singleton. intros [?|?]; auto; done.
  - congruence.
  - intros c' Hc'. destruct (ci_capacity0 _ Hc'). split; [|done].
    pose proof (size_delete_le (key n) (reservations_ core)). lia.
  - apply log_ok_snoc; [done|]. by intros ? ? [= -> ->].
Qed.

Lemma dispatch_inv core log now :
  core_inv core log ->
  let '(core', evs) := timer_step core (OpDispatch now) in core_inv core' (log ++ evs).
Proof.
  intros Hinv. simpl. rewrite dispatch_section_cases.
  destruct (stop_requested_ core) eqn:Es; [by rewrite app_nil_r|]. cbn zeta.
  assert (is_Some (config_ core) \/ core = cleanupStaleLocked core) as Hcfg.
  { destruct (config_ core) eqn:Ec; [by left|right].
    destruct (ci_config _ _ Hinv Ec) as (_ & _ & Hh & _).
    unfold cleanupStaleLocked. rewrite Hh. simpl. destruct core. simpl in *. by subst. }
  assert (core_inv (cleanupStaleLocked core) log) as Hinv'.
  { destruct Hcfg as [?|Hx]; [by apply cleanup_inv|by rewrite <-Hx]. }
  destruct (heap_ (cleanupStaleLocked core)) as [|n rest] eqn:Eh; [by rewrite app_nil_r|].
  destruct (Z.ltb_spec now (deadline n)); [by rewrite app_nil_r|].
  apply pop_inv; [done| |done|by eapply cleanup_head|lia].
  unfold cleanupStaleLocked. by destruct (cleanup_loop _ _).
Qed.

Lemma timer_step_inv core log op :
  core_inv core log ->
  let '(core', evs) := timer_step core op in core_inv core' (log ++ evs).
Proof.
  intros Hinv. destruct op; simpl; rewrite ?app_nil_r.
  - by apply init_inv.
  - by apply (schedule_inv core log).
  - by apply (cancel_inv core log).
  - by apply (requestStop_inv core log).
  - by apply process_inv.
  - by apply (dispatch_inv core log).
  - destruct (config_ core) eqn:Ec; [apply cleanup_inv; by rewrite ?Ec|].
    destruct (ci_config _ _ Hinv Ec) as (_ & _ & Hh & _).
    unfold cleanupStaleLocked. rewrite Hh. simpl. destruct core. simpl in *. by subst.
Qed.

Lemma timer_run_inv ops core log :
  core_inv core log ->
  let '(core', evs) := timer_run core ops in core_inv core' (log ++ evs).
Proof.
  revert core log. induction ops as [|op ops IH]; simpl; intros core log Hinv;
    [by rewrite app_nil_r|].
  pose proof (timer_step_inv core log op Hinv) as Hs. destruct (timer_step core op) as [core1 evs].
  specialize (IH core1 _ Hs). destruct (timer_run core1 ops). by rewrite <-app_assoc in IH.
Qed.

(** ** A cycle of the timer thread, alone *)

Lemma live_delete res n ns :
  key n ∉ ((fun m => key m) <$> ns) -> live (delete (key n) res) ns = live res ns.
Proof.
  intros Hn. unfold live. induction ns as [|m ns IH]; [done|]. csimpl in Hn.
  apply not_elem_of_cons in Hn as [H1 H2]. rewrite !filter_cons, IH by done.
  assert (active (delete (key n) res) m <-> active res m) as Hiff.
  { unfold active, still_active. by rewrite lookup_delete, decide_False. }
  repeat case_decide; tauto.
Qed.

(** In a sorted heap the due nodes come first. *)
Lemma due_split res n ns now :
  heap_ok LaterDeadline (n :: ns) -> now < deadline n ->
  filter (fun m => deadline m <= now) (live res (n :: ns)) = []
  /\ filter (fun m => now < deadline m) (live res (n :: ns)) = live res (n :: ns).
Proof.
  intros Hh Hd. assert (Forall (fun m => now < deadline m) (live res (n :: ns))) as Hf.
  { apply Forall_forall. intros m [_ Hm]%list_elem_of_filter.
    apply elem_of_cons in Hm as [->|Hm]; [done|].
    pose proof (before_deadline _ _ (top_before _ _ _ _ Hh Hm)). lia. }
  split; [|by apply list_filter_all].
  apply list_filter_none. eapply Forall_impl; [exact Hf|]. simpl. lia.
Qed.

Lemma dispatch_loop_spec fuel core now out :
  heap_ok LaterDeadline (heap_ core) -> NoDup ((fun n => key n) <$> heap_ core) ->
  stop_requested_ core = false -> (length (heap_ core) < fuel)%nat ->
  exists core', dispatch_loop fuel core now out
    = Some (core', out ++ filter (fun n => deadline n <= now) (live (reservations_ core) (heap_ core)))
  /\ live (reservations_ core') (heap_ core')
     = filter (fun n => now < deadline n) (live (reservations_ core) (heap_ core))
  /\ stopped_ core' = stopped_ core.
Proof.
  revert core out. induction fuel as [|fuel IH]; intros core out Hh Hu Hs Hlen; [lia|].
  cbn [dispatch_loop]. rewrite dispatch_section_cases, Hs. cbn zeta.
  unfold cleanupStaleLocked. pose proof (cleanup_loop_spec (heap_ core) (reservations_ core)) as Hc.
  destruct (cleanup_loop _ _) as [heap1 res1].
  destruct Hc as (Hsame & Hsuf & Hlive & Hact). simpl.
  rewrite <-Hlive, <-!(live_same _ _ _ Hsame).
  pose proof (heap_ok_suffix _ _ Hsuf Hh) as Hh1.
  assert (NoDup ((fun n => key n) <$> heap1)) as Hu1.
  { destruct Hsuf as [p Hp]. rewrite Hp, fmap_app in Hu. by apply NoDup_app in Hu as (_ & _ & ?). }
  destruct heap1 as [|n rest]; simpl.
  { eexists. by rewrite app_nil_r. }
  destruct (Z.ltb_spec now (deadline n)) as [Hd|Hd].
  - destruct (due_split res1 n rest now Hh1 Hd) as [-> ->]. eexists. by rewrite app_nil_r.
  - assert (active res1 n) as Ha by (unfold active; rewrite (proj2 Hsame); by apply Hact).
    csimpl in Hu1. apply NoDup_cons in Hu1 as [Hnk Hu1].
    match goal with |- context [dispatch_loop fuel ?c now _] => set (core1 := c) end.
    destruct (IH core1 (out ++ [n])) as (core' & E & Hl & Hst); simpl in *;
      [by apply heap_ok_tail in Hh1|done|done|apply suffix_length in Hsuf; simpl in Hsuf; lia|].
    exists core'. rewrite E, Hl, live_delete by done.
    unfold live. rewrite (filter_cons_True (active res1)) by done.
    rewrite filter_cons_True, filter_cons_False by (done || lia).
    by rewrite <-app_assoc.
Qed.

(** Without a stop command every active command enters the heap. *)
Lemma process_loop_heap cs core p :
  commands_ core = cs -> Stop ∉ cs -> (forall n i, Schedule n i ∈ cs -> i = node_id n) ->
  let core' := (process_loop core cs p).1 in
  reservations_ core' = reservations_ core
  /\ heap_ core' ≡ₚ heap_ core ++ live (reservations_ core) (mjoin (command_node <$> cs)).
Proof.
  revert core p. induction cs as [|c cs IH]; intros core p Hc Hst Hid; [by rewrite app_nil_r|].
  cbn [process_loop]. apply not_elem_of_cons in Hst as [Hne Hst].
  destruct (IH ((process_command core c) <| commands_ := cs |>) (p ⊕ 1)) as [H1 H2];
    [done|done|intros n i Hn; apply Hid; by right|].
  destruct c as [n i|]; [|done]. pose proof (Hid n i ltac:(left)) as ->.
  rewrite fmap_cons, mjoin_cons. simpl command_node. simpl app. simpl in H1, H2. unfold live in *.
  cbn [process_command] in *.
  destruct (still_active (reservations_ core) (node_id n)) eqn:Ea; simpl in *.
  - rewrite filter_cons_True by done. split; [done|]. rewrite H2, push_permutation. simpl.
    by rewrite Permutation_middle.
  - by rewrite filter_cons_False by (unfold active; congruence).
Qed.

Lemma live_perm res ns ms : ns ≡ₚ ms -> live res ns ≡ₚ live res ms.
Proof. intros H. unfold live. by rewrite H. Qed.

Lemma live_idem res ns : live res (live res ns) = live res ns.
Proof. unfold live. apply list_filter_filter_imp. done. Qed.

Lemma StronglySorted_filter {A} (R : A -> A -> Prop) (P : A -> Prop) `{!∀ x, Decision (P x)} l :
  StronglySorted R l -> StronglySorted R (filter P l).
Proof.
  induction 1 as [|x l Hl IH Hx]; [constructor|]. rewrite filter_cons. case_decide; [|done].
  constructor; [done|by apply Forall_filter_sub].
Qed.

(** The state after the commands: the heap holds every active node. *)
Lemma processCommands_live core log :
  core_inv core log -> is_Some (config_ core) -> stop_requested_ core = false ->
  let core' := (processCommands core).1 in
  core_inv core' log /\ (processCommands core).2.(status) = TimerStatus.Ok
  /\ stop_requested_ core' = false
  /\ live (reservations_ core') (heap_ core') ≡ₚ live (reservations_ core) (held core).
Proof.
  intros Hinv [c Ec] Hs. split; [by apply process_inv|]. unfold processCommands. rewrite Ec.
  destruct (process_loop_inv _ core log 0 Hinv ltac:(by rewrite Ec) eq_refl) as (_ & _ & _ & Hs').
  destruct (process_loop_heap (commands_ core) core 0 eq_refl) as [Hr Hh].
  { intros Hx. apply (ci_stop_command _ _ Hinv) in Hx. congruence. }
  { apply (ci_ids _ _ Hinv). }
  destruct (process_loop _ _ _) as [core1 p]. simpl in *. unfold cleanupStaleLocked.
  pose proof (cleanup_loop_spec (heap_ core1) (reservations_ core1)) as Hc.
  destruct (cleanup_loop _ _) as [heap2 res2]. destruct Hc as (Hsame & _ & Hlive & _). simpl.
  split_and!; [done|congruence|].
  rewrite (live_same _ _ _ Hsame), Hlive, Hr, (live_perm _ _ _ Hh).
  assert (forall xs ys, live (reservations_ core) (xs ++ ys)
    = live (reservations_ core) xs ++ live (reservations_ core) ys) as Happ
    by (intros; unfold live; apply filter_app).
  unfold held. by rewrite !Happ, live_idem.
Qed.

(** Safety of timers under any interleaving: in every run of critical
    sections from the initial state, a timer fires only if it was accepted
    before, not before its deadline, at most once, not after a successful
    cancel of its id and not after a stop request. *)
Theorem timers_fire_safely ops pre n now post :
  (timer_run fresh_core ops).2 = pre ++ Fired n now :: post ->
  Accepted n ∈ pre /\ deadline n <= now /\ Cancelled (node_id n) ∉ pre
  /\ StopRequested ∉ pre /\ (forall m now', Fired m now' ∈ pre -> node_id m <> node_id n).
Proof.
  pose proof (timer_run_inv ops fresh_core [] fresh_core_inv) as Hinv.
  destruct (timer_run fresh_core ops) as [core log]. simpl. apply (ci_log _ _ Hinv).
Qed.

Definition tick (k : TimerEventKind) : TimerEvent := mkTimerEvent k 0 0 (-1) 0 0.

Definition sample_timer_ops : list timer_op :=
  [OpInit (mkTimerConfig 8 8); OpSchedule 50 1 false (tick IdleTimeout);
   OpSchedule 20 1 false (tick ReadTimeout); OpSchedule 30 1 false (tick WriteTimeout);
   OpProcess; OpCancel (mkTimerId 3 3); OpDispatch 60; OpDispatch 60; OpDispatch 60].

Definition sample_node (dl seq : Z) (k : TimerEventKind) : HeapNode :=
  mkHeapNode dl seq (mkTimerId (seq + 1) (seq + 1)) 1 (tick k).

Lemma timers_fire_safely_witness :
  (timer_run fresh_core sample_timer_ops).2
  = [Accepted (sample_node 50 0 IdleTimeout); Accepted (sample_node 20 1 ReadTimeout);
     Accepted (sample_node 30 2 WriteTimeout); Cancelled (mkTimerId 3 3);
     Fired (sample_node 20 1 ReadTimeout) 60] ++ [Fired (sample_node 50 0 IdleTimeout) 60]
  /\ StopRequested ∉ [Accepted (sample_node 50 0 IdleTimeout); Accepted (sample_node 20 1 ReadTimeout);
     Accepted (sample_node 30 2 WriteTimeout); Cancelled (mkTimerId 3 3);
     Fired (sample_node 20 1 ReadTimeout) 60].
Proof.
  assert (E : (timer_run fresh_core sample_timer_ops).2
  = [Accepted (sample_node 50 0 IdleTimeout); Accepted (sample_node 20 1 ReadTimeout);
     Accepted (sample_node 30 2 WriteTimeout); Cancelled (mkTimerId 3 3);
     Fired (sample_node 20 1 ReadTimeout) 60] ++ [Fired (sample_node 50 0 IdleTimeout) 60])
    by (vm_compute; reflexivity).
  split; [exact E|]. apply (timers_fire_safely _ _ _ _ _ E).
Defined.

(** Bounds under any interleaving: the pending timers never exceed the
    configured timer capacity, the command queue never exceeds its capacity by
    more than the one stop command, every reservation that is not cancelled
    belongs to a node the core still holds, and timer ids are never reused. *)
Theorem timers_bounded ops :
  let '(core, log) := timer_run fresh_core ops in
  (forall config, config_ core = Some config ->
     Z.of_nat (size (reservations_ core)) <= timer_capacity config
     /\ size_of (commands_ core) <= command_capacity config + 1)
  /\ (forall k r, reservations_ core !! k = Some r -> cancelled r = false ->
        exists n, n ∈ held core /\ node_id n = mkTimerId k k)
  /\ NoDup (node_id <$> held core).
Proof.
  pose proof (timer_run_inv ops fresh_core [] fresh_core_inv) as Hinv.
  destruct (timer_run fresh_core ops) as [core log]. simpl in Hinv. split_and!.
  - intros config Hc. destruct (ci_capacity _ _ Hinv _ Hc). split; [done|]. case_match; lia.
  - intros k r Hr Hc. destruct (ci_reserved _ _ Hinv _ _ Hr) as (_ & Hn & _).
    destruct (Hn Hc) as (n & Hin & <-). exists n. split; [done|].
    apply (ci_held _ _ Hinv), (ci_accepted _ _ Hinv) in Hin. destruct (node_id n). simpl in *.
    f_equal. lia.
  - apply (NoDup_fmap_1 value). rewrite <-list_fmap_compose. apply Hinv.
Qed.

(** C30. A cycle of the timer thread is complete and ordered: from any
    reachable running state [runReady] returns (the fuel is one pass per heap
    node), it dispatches exactly the held timers that are not cancelled and are
    due, each once, by deadline and then by the order they were scheduled; the
    held active timers that are not due stay, and the next deadline it reports
    is in the future. *)
Theorem runReady_complete ops core log now :
  timer_run fresh_core ops = (core, log) -> is_Some (config_ core) ->
  stop_requested_ core = false ->
  exists core' result out, runReady core now = Some (core', result, out)
  /\ status result = TimerStatus.Ok /\ StronglySorted (before LaterDeadline) out
  /\ out ≡ₚ filter (fun n => deadline n <= now) (live (reservations_ core) (held core))
  /\ live (reservations_ core') (heap_ core')
     ≡ₚ filter (fun n => now < deadline n) (live (reservations_ core) (held core))
  /\ (forall d, next_deadline result = Some d -> now < d).
Proof.
  intros Hrun Hcfg Hs. pose proof (timer_run_inv ops fresh_core [] fresh_core_inv) as Hinv.
  rewrite Hrun in Hinv. simpl in Hinv. unfold runReady.
  destruct (processCommands_live core log Hinv Hcfg Hs) as (Hinv1 & Hst & Hs1 & Hl1).
  destruct (processCommands core) as [core1 res1]. cbn [fst snd] in *. rewrite Hst. cbn [negb].
  rewrite bool_decide_true by done. cbn [negb].
  destruct (dispatch_loop_spec (S (length (heap_ core1))) core1 now []) as (core2 & -> & Hl2 & _).
  { apply Hinv1. }
  { pose proof (ci_unique _ _ Hinv1) as Hu. unfold held in Hu. rewrite fmap_app in Hu.
    by apply NoDup_app in Hu as [? _]. }
  { done. }
  { lia. }
  unfold cleanupStaleLocked. pose proof (cleanup_loop_spec (heap_ core2) (reservations_ core2)) as Hc.
  destruct (cleanup_loop _ _) as [heap3 res3]. destruct Hc as (Hsame & _ & Hlive & Hact).
  assert (live res3 heap3 = filter (fun n => now < deadline n)
    (live (reservations_ core1) (heap_ core1))) as Hl3
    by (by rewrite (live_same _ _ _ Hsame), Hlive).
  do 3 eexists. split; [done|]. simpl. split_and!; [done| | | |].
  - apply StronglySorted_filter, StronglySorted_filter. apply Hinv1.
  - by rewrite Hl1.
  - by rewrite Hl3, Hl1.
  - unfold nextDeadlineLocked. simpl. destruct heap3 as [|n heap3]; [done|]. intros d [= <-].
    assert (n ∈ live res3 (n :: heap3)) as Hn.
    { apply list_elem_of_filter. split; [|left]. unfold active.
      rewrite (proj2 Hsame). by apply Hact. }
    rewrite Hl3 in Hn. by apply list_elem_of_filter in Hn as [? _].
Qed.

Lemma runReady_complete_witness :
  let ops := [OpInit (mkTimerConfig 8 8); OpSchedule 50 1 false (tick IdleTimeout);
              OpSchedule 20 1 false (tick ReadTimeout); OpSchedule 90 1 false (tick WriteTimeout)] in
  exists core' result out, runReady (timer_run fresh_core ops).1 60 = Some (core', result, out)
  /\ status result = TimerStatus.Ok
  /\ out ≡ₚ [sample_node 50 0 IdleTimeout; sample_node 20 1 ReadTimeout].
Proof.
  intros ops.
  destruct (runReady_complete ops (timer_run fresh_core ops).1 (timer_run fresh_core ops).2 60)
    as (c & r & out & H1 & H2 & _ & H4 & _); [apply surjective_pairing|vm_compute; eexists; reflexivity|vm_compute; reflexivity|].
  exists c, r, out. split; [exact H1|]. split; [exact H2|]. rewrite H4. vm_compute. reflexivity.
Defined.
