(* ===== verification/Timer.v ===== *)
(** * Timer: the timer service thread

    Model of [include/aegisflow/timer/timer.hpp] and [src/timer/timer.cpp]: one
    worker thread that drives a [TimerCore] from an epoll set with an eventfd
    (commands) and a timerfd (the next deadline).  Each critical section and
    each system call is a function; the worker and the callers interleave
    between them, so that every schedule of the threads is a run of [step].
    The answers of the kernel are arguments; the counter of the eventfd is part
    of the system. *)

From S2P Require Import Prelude Posix PriorityQueue TimerCore.
Open Scope Z_scope.

(** [enum class TimerState] *)
Module TimerState.
Inductive t :=
| Constructed | Initialized | Starting | Running | Stopping | Stopped | Failed.

#[export] Instance eq_dec : EqDecision t.
Proof. solve_decision. Defined.
End TimerState.
#[export] Existing Instance TimerState.eq_dec.

(** [TimerConfig] has the fields of [TimerCoreConfig]; [init] copies them. *)
Abbreviation TimerConfig := TimerCoreConfig.

Record Timer := mkTimer {
  scheduler_ : TimerCore;
  service_config_ : option TimerConfig;
  worker_joinable : bool;
  state_ : TimerState.t;
  epoll_fd_ : Z;
  event_fd_ : Z;
  timer_fd_ : Z;
  start_status_ : TimerStatus.t;
  join_status_ : TimerStatus.t;
  join_in_progress_ : bool;
}.

Definition fresh_timer : Timer :=
  mkTimer fresh_core None false TimerState.Constructed (-1) (-1) (-1)
    TimerStatus.InternalError TimerStatus.Ok false.

Definition kCommandToken : Z := 1.
Definition kTimerToken : Z := 2.

(** ** Descriptors *)

Definition createEpoll (answers : list IoResult) : option Z := io_value <$> retry_eintr answers.
Definition createEventFd (answers : list IoResult) : option Z := io_value <$> retry_eintr answers.
Definition createTimerFd (answers : list IoResult) : option Z := io_value <$> retry_eintr answers.

Definition registerFd (answers : list IoResult) : option bool :=
  (fun r => io_value r =? 0) <$> retry_eintr answers.

Definition closeFd (fd : Z) : list FdEvent := if 0 <=? fd then [FdClosed fd] else [].

(** The answers to the calls of [openFds]. *)
Record OpenAnswers := mkOpenAnswers {
  epoll_create_answers : list IoResult;
  eventfd_answers : list IoResult;
  timerfd_create_answers : list IoResult;
  event_ctl_answers : list IoResult;
  timer_ctl_answers : list IoResult;
}.

Definition openFds (t : Timer) (a : OpenAnswers)
    : option (Timer * TimerStatus.t * list FdEvent) :=
  epoll_fd ← createEpoll (epoll_create_answers a);
  if epoll_fd <? 0 then Some (t, TimerStatus.SystemCallFailed, [])
  else
    event_fd ← createEventFd (eventfd_answers a);
    if event_fd <? 0
    then Some (t, TimerStatus.SystemCallFailed, FdOpened epoll_fd :: closeFd epoll_fd)
    else
      timer_fd ← createTimerFd (timerfd_create_answers a);
      let opened :=
        [FdOpened epoll_fd; FdOpened event_fd] ++ (if timer_fd <? 0 then [] else [FdOpened timer_fd]) in
      let failed :=
        Some (t, TimerStatus.SystemCallFailed,
              opened ++ closeFd timer_fd ++ closeFd event_fd ++ closeFd epoll_fd) in
      if timer_fd <? 0 then failed
      else
        event_registered ← registerFd (event_ctl_answers a);
        if negb event_registered then failed
        else
          timer_registered ← registerFd (timer_ctl_answers a);
          if negb timer_registered then failed
          else Some (t <| epoll_fd_ := epoll_fd |> <| event_fd_ := event_fd |>
                       <| timer_fd_ := timer_fd |>, TimerStatus.Ok, opened).

Definition closeFds (t : Timer) : Timer * list FdEvent :=
  (t <| epoll_fd_ := -1 |> <| event_fd_ := -1 |> <| timer_fd_ := -1 |>,
   closeFd (timer_fd_ t) ++ closeFd (event_fd_ t) ++ closeFd (epoll_fd_ t)).

(** The writing loop of [notifyWorker]. *)
Fixpoint notify_loop (writes : list IoResult) : option TimerStatus.t :=
  match writes with
  | [] => None
  | IoBytes n :: _ => Some (if n =? 8 then TimerStatus.Ok else TimerStatus.WakeFailed)
  | IoError EAGAIN :: _ => Some TimerStatus.Ok
  | IoError EINTR :: rest => notify_loop rest
  | IoError EOther :: _ => Some TimerStatus.WakeFailed
  end.

Definition notifyWorker (t : Timer) (writes : list IoResult) : option TimerStatus.t :=
  if event_fd_ t <? 0 then Some TimerStatus.WakeFailed else notify_loop writes.

(** ** Waiting *)

Record WaitResult := mkWaitResult {
  wait_status : TimerStatus.t;
  interrupted : bool;
  command_ready : bool;
  timer_ready : bool;
}.

Definition fresh_wait : WaitResult := mkWaitResult TimerStatus.Ok false false false.
Definition failed_wait : WaitResult := fresh_wait <| wait_status := TimerStatus.SystemCallFailed |>.

Record epoll_event := mkEpollEvent { ev_events : Z; ev_data : Z }.

Definition EPOLLERR : Z := 8.
Definition EPOLLHUP : Z := 16.

(** The answer of [epoll_wait]: the reported events, or [errno]. *)
Inductive EpollAnswer := EpollEvents (events : list epoll_event) | EpollError (e : Errno).

Fixpoint scan_events (events : list epoll_event) (result : WaitResult) : WaitResult :=
  match events with
  | [] => result
  | ev :: rest =>
      if negb (Z.land (ev_events ev) (Z.lor EPOLLERR EPOLLHUP) =? 0) then failed_wait
      else if ev_data ev =? kCommandToken then scan_events rest (result <| command_ready := true |>)
      else if ev_data ev =? kTimerToken then scan_events rest (result <| timer_ready := true |>)
      else failed_wait
  end.

Definition waitForEvent (t : Timer) (answer : EpollAnswer) : WaitResult :=
  if epoll_fd_ t <? 0 then failed_wait
  else
    match answer with
    | EpollError EINTR => fresh_wait <| interrupted := true |>
    | EpollError _ => failed_wait
    | EpollEvents events => scan_events events fresh_wait
    end.

(** The reading loop of [drainFd]. *)
Fixpoint drain_loop (reads : list IoResult) : option TimerStatus.t :=
  match reads with
  | [] => None
  | IoBytes n :: rest => if n =? 8 then drain_loop rest else Some TimerStatus.SystemCallFailed
  | IoError EINTR :: rest => drain_loop rest
  | IoError EAGAIN :: _ => Some TimerStatus.Ok
  | IoError EOther :: _ => Some TimerStatus.SystemCallFailed
  end.

Definition drainFd (fd : Z) (reads : list IoResult) : option TimerStatus.t :=
  if fd <? 0 then Some TimerStatus.SystemCallFailed else drain_loop reads.

(** [std::numeric_limits<time_t>::max()] on a 64-bit [time_t] *)
Definition time_t_max : Z := 9223372036854775807.

(** [specification.it_value] of [arm], [tv_sec] and [tv_nsec]; times are in
    nanoseconds of the steady clock, [now] is its reading. *)
Definition arm_specification (deadline : option Z) (now : Z) : Z * Z :=
  match deadline with
  | None => (0, 0)
  | Some deadline =>
      let delay := if deadline - now <=? 0 then 1 else deadline - now in
      let seconds := Z.quot delay 1000000000 in
      let remainder := delay - seconds * 1000000000 in
      if time_t_max <? seconds then (time_t_max, 999999999) else (seconds, remainder)
  end.

Definition arm (t : Timer) (answers : list IoResult) : option TimerStatus.t :=
  if timer_fd_ t <? 0 then Some TimerStatus.SystemCallFailed
  else (fun r => if io_value r =? 0 then TimerStatus.Ok else TimerStatus.SystemCallFailed)
         <$> retry_eintr answers.

(** ** Calls *)

Definition timer_validConfig (config : TimerConfig) : bool :=
  (0 <? command_capacity config) && (0 <? timer_capacity config).

Definition setStateLocked (t : Timer) (state : TimerState.t) : Timer := t <| state_ := state |>.

Definition timer_init (t : Timer) (config : TimerConfig) (a : OpenAnswers)
    : option (Timer * TimerStatus.t * list FdEvent) :=
  if negb (timer_validConfig config) then Some (t, TimerStatus.InvalidConfig, [])
  else
    match service_config_ t with
    | Some c =>
        Some (t, if bool_decide (c = config) then TimerStatus.Ok else TimerStatus.ConfigConflict, [])
    | None =>
        if negb (bool_decide (state_ t = TimerState.Constructed))
        then Some (t, TimerStatus.InvalidState, [])
        else
          '(t, status, evs) ← openFds t a;
          if negb (bool_decide (status = TimerStatus.Ok))
          then Some (setStateLocked t TimerState.Failed, TimerStatus.SystemCallFailed, evs)
          else
            let '(core, scheduler_status) :=
              init (scheduler_ t)
                (mkTimerConfig (command_capacity config) (timer_capacity config)) in
            let t := t <| scheduler_ := core |> in
            if negb (bool_decide (scheduler_status = TimerStatus.Ok))
            then
              let '(t, closed) := closeFds t in
              Some (setStateLocked t TimerState.Failed, scheduler_status, evs ++ closed)
            else
              Some (setStateLocked (t <| service_config_ := Some config |>) TimerState.Initialized,
                    TimerStatus.Ok, evs)
    end.

(** What [start] answers once the state is no longer [Starting]; [None] while
    it waits. *)
Definition start_wake (t : Timer) : option TimerStatus.t :=
  if bool_decide (state_ t = TimerState.Starting) then None
  else Some (if bool_decide (state_ t = TimerState.Running) then TimerStatus.Ok else start_status_ t).

Inductive StartOutcome :=
| StartReturn (s : TimerStatus.t)
| StartWait
| StartThread.

(** The section of [start] up to its wait; [created]: whether the constructor
    of [std::thread] succeeds. *)
Definition start_enter (t : Timer) (created : bool) : Timer * StartOutcome * list FdEvent :=
  if bool_decide (state_ t = TimerState.Running) then (t, StartReturn TimerStatus.Ok, [])
  else if bool_decide (state_ t = TimerState.Starting) then (t, StartWait, [])
  else if negb (bool_decide (state_ t = TimerState.Initialized))
  then (t, StartReturn TimerStatus.InvalidState, [])
  else
    let t := setStateLocked (t <| start_status_ := TimerStatus.InternalError |>) TimerState.Starting in
    if created then (t <| worker_joinable := true |>, StartThread, [])
    else
      let '(t, closed) := closeFds t in
      let t := t <| start_status_ := TimerStatus.ThreadStartFailed |> in
      (setStateLocked t TimerState.Failed, StartReturn (start_status_ t), closed).

Inductive StopOutcome := StopReturn | StopWithoutWorker | StopNotify.

(** The first section of [stop]. *)
Definition stop_enter (t : Timer) : Timer * StopOutcome :=
  let current := state_ t in
  if bool_decide (current = TimerState.Constructed \/ current = TimerState.Stopping
                  \/ current = TimerState.Stopped \/ current = TimerState.Failed)
  then (t, StopReturn)
  else
    let without_worker := bool_decide (current = TimerState.Initialized) in
    let t := setStateLocked t TimerState.Stopping in
    (t <| scheduler_ := (requestStop (scheduler_ t)).1 |>,
     if without_worker then StopWithoutWorker else StopNotify).

(** The last section of [stop] when there is no worker. *)
Definition stop_finish (t : Timer) : Timer := setStateLocked t TimerState.Stopped.

Inductive JoinOutcome :=
| JoinReturn (s : TimerStatus.t)
| JoinWait
| JoinThread.

(** The first section of [join]; [self]: the caller is the worker itself. *)
Definition join_enter (t : Timer) (self : bool) : Timer * JoinOutcome :=
  if self then (t, JoinReturn TimerStatus.SelfJoin)
  else if bool_decide (state_ t = TimerState.Constructed \/ state_ t = TimerState.Initialized
                       \/ state_ t = TimerState.Starting \/ state_ t = TimerState.Running)
  then (t, JoinReturn TimerStatus.InvalidState)
  else if join_in_progress_ t then (t, JoinWait)
  else if negb (worker_joinable t) then (t, JoinReturn TimerStatus.Ok)
  else (t <| join_in_progress_ := true |> <| worker_joinable := false |>, JoinThread).

Definition join_finish (t : Timer) : Timer :=
  t <| join_status_ := TimerStatus.Ok |> <| join_in_progress_ := false |>.

(** The test that opens [scheduleAt] and [cancel], on the two values they
    load; [None] lets the call through. *)
Definition call_refusal (first second : TimerState.t) : option TimerStatus.t :=
  if bool_decide (first = TimerState.Running) then None
  else Some (if bool_decide (second = TimerState.Stopping \/ second = TimerState.Stopped)
             then TimerStatus.Stopped else TimerStatus.NotRunning).

(** [scheduleAt] and [cancel] without interference between their steps. *)
Definition service_scheduleAt (t : Timer) (dl snk : Z) (expired : bool) (ev : TimerEvent)
    (writes : list IoResult) : option (Timer * (TimerStatus.t * TimerId)) :=
  match call_refusal (state_ t) (state_ t) with
  | Some refused => Some (t, (refused, null_timer))
  | None =>
      let '(core, (status, id)) := scheduleAt (scheduler_ t) dl snk expired ev in
      let t := t <| scheduler_ := core |> in
      if bool_decide (status = TimerStatus.Ok) then
        woken ← notifyWorker t writes;
        Some (t, (if bool_decide (woken = TimerStatus.Ok) then status else TimerStatus.WakeFailed, id))
      else Some (t, (status, id))
  end.

Definition service_cancel (t : Timer) (id : TimerId) (writes : list IoResult)
    : option (Timer * TimerStatus.t) :=
  match call_refusal (state_ t) (state_ t) with
  | Some refused => Some (t, refused)
  | None =>
      let '(core, status) := cancel (scheduler_ t) id in
      let t := t <| scheduler_ := core |> in
      if bool_decide (status = TimerStatus.Ok) then
        woken ← notifyWorker t writes; Some (t, woken)
      else Some (t, status)
  end.

(** ** The worker thread *)

(** Where the worker is in [workerLoop]; [failing] tells the last [runReady],
    after a failure, from those of the loop. *)
Inductive WorkerPhase :=
| NoThread
| Launched
| Processing (failing : bool)
| Dispatching (failing : bool) (now : Z)
| Reporting (failing : bool)
| Arming (next_deadline : option Z)
| Waiting
| Draining (command_ready timer_ready : bool)
| Recovering
| Disarming (failed : bool)
| Closing (failed : bool)
| Finishing (failed : bool)
| Exited.

#[export] Instance WorkerPhase_eq_dec : EqDecision WorkerPhase.
Proof. solve_decision. Defined.

(** The opening section of [workerLoop]. *)
Definition worker_begin (t : Timer) : Timer :=
  setStateLocked (t <| start_status_ := TimerStatus.Ok |>) TimerState.Running.

(** The loop after [runReady]: [cycle.status], [cycle.stopped] and the call of
    [arm]. *)
Definition after_cycle (failing : bool) (stopped : bool) (next : option Z) : WorkerPhase :=
  if failing then Disarming true else if stopped then Disarming false else Arming next.

Definition after_failed_cycle (failing : bool) : WorkerPhase :=
  if failing then Disarming true else Recovering.

Definition after_arm (status : TimerStatus.t) : WorkerPhase :=
  if bool_decide (status = TimerStatus.Ok) then Waiting else Recovering.

Definition after_wait (ready : WaitResult) : WorkerPhase :=
  if negb (bool_decide (wait_status ready = TimerStatus.Ok)) then Recovering
  else if interrupted ready then Processing false
  else Draining (command_ready ready) (timer_ready ready).

(** The test on the two [drainFd] calls; the second is made only when the first
    lets it. *)
Definition drain_ready (t : Timer) (command timer : bool) (event_reads timer_reads : list IoResult)
    : option bool :=
  event ← (if command then drainFd (event_fd_ t) event_reads else Some TimerStatus.Ok);
  if negb (bool_decide (event = TimerStatus.Ok)) then Some false
  else
    expired ← (if timer then drainFd (timer_fd_ t) timer_reads else Some TimerStatus.Ok);
    Some (bool_decide (expired = TimerStatus.Ok)).

Definition worker_finish (t : Timer) (failed : bool) : Timer :=
  setStateLocked t (if failed then TimerState.Failed else TimerState.Stopped).

(** ** All threads together *)

(** A caller between two of its sections. *)
Inductive Caller :=
| InSchedule (dl snk : Z) (expired : bool) (ev : TimerEvent)
| InCancel (id : TimerId)
| NeedNotify
| StopProcess
| StopArm
| StopClose
| StopFinish
| Joining.

Record System := mkSystem {
  timer : Timer;
  phase : WorkerPhase;
  callers : list Caller;
  counter : Z;              (* of the eventfd *)
  wake_lost : bool;         (* a write to the eventfd has failed *)
  fd_log : list FdEvent;
  occurrences : list occurrence;
}.

Definition initial : System := mkSystem fresh_timer NoThread [] 0 false [] [].

(** An operation of the core, with what it lets observe. *)
Definition core_op (s : System) (op : timer_op) : System :=
  let '(core, evs) := timer_step (scheduler_ (timer s)) op in
  s <| timer := (timer s) <| scheduler_ := core |> |>
    <| occurrences := occurrences s ++ evs |>.

(** What [epoll_wait] may answer: it blocks until there is an event, and the
    eventfd is reported only when its counter is positive. *)
Definition epoll_reports (s : System) (answer : EpollAnswer) : Prop :=
  match answer with
  | EpollError _ => True
  | EpollEvents events =>
      events <> [] /\ Forall (fun ev => ev_data ev = kCommandToken -> 0 < counter s) events
  end.

(** The sections of the worker. *)
Inductive worker_step : System -> System -> Prop :=
| w_begin s :
    phase s = Launched ->
    worker_step s (s <| timer := worker_begin (timer s) |> <| phase := Processing false |>)
| w_process s failing now core result :
    phase s = Processing failing -> processCommands (scheduler_ (timer s)) = (core, result) ->
    worker_step s
      ((core_op s OpProcess)
         <| phase := if bool_decide (status result = TimerStatus.Ok) then Dispatching failing now
                     else after_failed_cycle failing |>)
| w_dispatch s failing now core outcome :
    phase s = Dispatching failing now ->
    dispatch_section (scheduler_ (timer s)) now = (core, outcome) ->
    worker_step s
      ((core_op s (OpDispatch now))
         <| phase := match outcome with Break => Reporting failing | _ => Dispatching failing now end |>)
| w_report s failing :
    phase s = Reporting failing ->
    worker_step s
      ((core_op s OpCleanup)
         <| phase := after_cycle failing (stopped_ (cleanupStaleLocked (scheduler_ (timer s))))
                       (nextDeadlineLocked (cleanupStaleLocked (scheduler_ (timer s)))) |>)
| w_arm s next answers status :
    phase s = Arming next -> arm (timer s) answers = Some status ->
    worker_step s (s <| phase := after_arm status |>)
| w_wait s answer :
    phase s = Waiting -> epoll_reports s answer ->
    worker_step s (s <| phase := after_wait (waitForEvent (timer s) answer) |>)
| w_drain s command timer_expired event_reads timer_reads drained :
    phase s = Draining command timer_expired ->
    drain_ready (timer s) command timer_expired event_reads timer_reads = Some drained ->
    worker_step s
      (s <| phase := if drained then Processing false else Recovering |>
         <| counter := if command then 0 else counter s |>)
| w_recover s :
    phase s = Recovering ->
    worker_step s ((core_op s OpRequestStop) <| phase := Processing true |>)
| w_disarm s failed answers status :
    phase s = Disarming failed -> arm (timer s) answers = Some status ->
    worker_step s
      (s <| phase := Closing (failed || negb (bool_decide (status = TimerStatus.Ok))) |>)
| w_close s failed t closed :
    phase s = Closing failed -> closeFds (timer s) = (t, closed) ->
    worker_step s (s <| timer := t |> <| phase := Finishing failed |>
                     <| fd_log := fd_log s ++ closed |>)
| w_finish s failed :
    phase s = Finishing failed ->
    worker_step s (s <| timer := worker_finish (timer s) failed |> <| phase := Exited |>).

(** The last write was refused because the counter is at its maximum. *)
Definition counter_full (writes : list IoResult) : bool :=
  bool_decide (retry_eintr writes = Some (IoError EAGAIN)).

(** The effect of [notifyWorker] on the eventfd: a write adds one, is refused
    with [EAGAIN] when the counter is at its maximum, or fails. *)
Definition after_write (s : System) (writes : list IoResult) (woken : TimerStatus.t) : System :=
  if bool_decide (woken = TimerStatus.Ok)
  then s <| counter := if counter_full writes then counter s else counter s + 1 |>
  else s <| wake_lost := true |>.

(** The sections of the callers. *)
Inductive caller_step : System -> System -> Prop :=
| c_init s config a t status evs :
    timer_init (timer s) config a = Some (t, status, evs) ->
    caller_step s (s <| timer := t |> <| fd_log := fd_log s ++ evs |>)
| c_start s created t outcome evs :
    start_enter (timer s) created = (t, outcome, evs) ->
    caller_step s (s <| timer := t |> <| fd_log := fd_log s ++ evs |>
                     <| phase := match outcome with StartThread => Launched | _ => phase s end |>)
| c_stop_refused s t :
    stop_enter (timer s) = (t, StopReturn) -> caller_step s (s <| timer := t |>)
| c_stop s t outcome :
    stop_enter (timer s) = (t, outcome) -> outcome <> StopReturn ->
    caller_step s
      (s <| timer := t |>
         <| callers := match outcome with StopNotify => NeedNotify | _ => StopProcess end :: callers s |>
         <| occurrences := occurrences s ++ (timer_step (scheduler_ (timer s)) OpRequestStop).2 |>)
| c_stop_process s l k :
    callers s = l ++ StopProcess :: k ->
    caller_step s ((core_op s OpProcess) <| callers := l ++ StopArm :: k |>)
| c_stop_arm s l k answers status :
    callers s = l ++ StopArm :: k -> arm (timer s) answers = Some status ->
    caller_step s (s <| callers := l ++ StopClose :: k |>)
| c_stop_close s l k t closed :
    callers s = l ++ StopClose :: k -> closeFds (timer s) = (t, closed) ->
    caller_step s (s <| timer := t |> <| callers := l ++ StopFinish :: k |>
                     <| fd_log := fd_log s ++ closed |>)
| c_stop_finish s l k :
    callers s = l ++ StopFinish :: k ->
    caller_step s (s <| timer := stop_finish (timer s) |> <| callers := l ++ k |>)
| c_schedule s second dl snk expired ev :
    call_refusal (state_ (timer s)) second = None ->
    caller_step s (s <| callers := InSchedule dl snk expired ev :: callers s |>)
| c_schedule_core s l k dl snk expired ev core status id :
    callers s = l ++ InSchedule dl snk expired ev :: k ->
    scheduleAt (scheduler_ (timer s)) dl snk expired ev = (core, (status, id)) ->
    caller_step s
      ((core_op s (OpSchedule dl snk expired ev))
         <| callers := if bool_decide (status = TimerStatus.Ok) then l ++ NeedNotify :: k else l ++ k |>)
| c_cancel s second id :
    call_refusal (state_ (timer s)) second = None ->
    caller_step s (s <| callers := InCancel id :: callers s |>)
| c_cancel_core s l k id core status :
    callers s = l ++ InCancel id :: k -> cancel (scheduler_ (timer s)) id = (core, status) ->
    caller_step s
      ((core_op s (OpCancel id))
         <| callers := if bool_decide (status = TimerStatus.Ok) then l ++ NeedNotify :: k else l ++ k |>)
| c_notify s l k writes woken :
    callers s = l ++ NeedNotify :: k -> notifyWorker (timer s) writes = Some woken ->
    (counter_full writes = true -> 0 < counter s) ->
    caller_step s ((after_write s writes woken) <| callers := l ++ k |>)
| c_join s t outcome :
    join_enter (timer s) false = (t, outcome) ->
    caller_step s (s <| timer := t |>
                     <| callers := match outcome with JoinThread => Joining :: callers s
                                   | _ => callers s end |>)
| c_joined s l k :
    (* [std::thread::join] returns when the worker has exited *)
    callers s = l ++ Joining :: k -> phase s = Exited ->
    caller_step s (s <| timer := join_finish (timer s) |> <| callers := l ++ k |>).

Definition step (s s' : System) : Prop := worker_step s s' \/ caller_step s s'.

Definition reachable (s : System) : Prop := rtc step initial s.

(** ** Every run of the service is a run of the core *)

Lemma timer_run_snoc core log ops op core' evs :
  timer_run fresh_core ops = (core, log) -> timer_step core op = (core', evs) ->
  timer_run fresh_core (ops ++ [op]) = (core', log ++ evs).
Proof.
  revert log. generalize fresh_core as c0. induction ops as [|o ops IH]; simpl; intros c0 log Hrun Hstep.
  - injection Hrun as -> <-. rewrite Hstep. by rewrite app_nil_r.
  - destruct (timer_step c0 o) as [c1 e1]. destruct (timer_run c1 ops) as [c2 e2] eqn:E2.
    injection Hrun as <- <-. erewrite IH by done. by rewrite app_assoc.
Qed.

(** The core of [s] with its observations is a run of the core. *)
Definition core_run (s : System) : Prop :=
  exists ops, timer_run fresh_core ops = (scheduler_ (timer s), occurrences s).

Lemma core_run_op s op : core_run s -> core_run (core_op s op).
Proof.
  intros [ops Hops]. unfold core_run, core_op. exists (ops ++ [op]).
  destruct (timer_step _ op) as [core evs] eqn:E. simpl. by eapply timer_run_snoc.
Qed.

Lemma core_run_same s s' :
  scheduler_ (timer s') = scheduler_ (timer s) -> occurrences s' = occurrences s ->
  core_run s -> core_run s'.
Proof. intros Hc Ho [ops Hops]. exists ops. by rewrite Hc, Ho. Qed.

Lemma openFds_spec t a t' status evs :
  openFds t a = Some (t', status, evs) ->
  scheduler_ t' = scheduler_ t /\ service_config_ t' = service_config_ t
  /\ worker_joinable t' = worker_joinable t /\ state_ t' = state_ t
  /\ join_in_progress_ t' = join_in_progress_ t
  /\ (status <> TimerStatus.Ok ->
      t' = t /\ fds_opened evs ≡ₚ fds_closed evs)
  /\ (status = TimerStatus.Ok -> 0 <= epoll_fd_ t' /\ 0 <= event_fd_ t' /\ 0 <= timer_fd_ t'
      /\ fds_closed evs = [] /\ fds_opened evs = [epoll_fd_ t'; event_fd_ t'; timer_fd_ t']).
Proof.
  unfold openFds. intros H.
  destruct (createEpoll _) as [e|]; simpl in H; [|done].
  destruct (Z.ltb_spec e 0); [by simplify_eq|].
  destruct (createEventFd _) as [v|]; simpl in H; [|done].
  destruct (Z.ltb_spec v 0).
  { simplify_eq. unfold closeFd. rewrite (proj2 (Z.leb_le 0 e)) by done. by split_and!. }
  destruct (createTimerFd _) as [f|]; simpl in H; [|done].
  destruct (Z.ltb_spec f 0).
  { simplify_eq. unfold closeFd. rewrite (proj2 (Z.leb_le 0 e)), (proj2 (Z.leb_le 0 v)) by done.
    rewrite (proj2 (Z.leb_gt 0 f)) by done. split_and!; try done.
    intros _. split; [done|]. apply perm_swap. }
  assert (forall X, Some (t, TimerStatus.SystemCallFailed,
      [FdOpened e; FdOpened v; FdOpened f] ++ closeFd f ++ closeFd v ++ closeFd e)
      = Some (t', status, evs) -> X \/ (t' = t /\ status = TimerStatus.SystemCallFailed
        /\ fds_opened evs ≡ₚ fds_closed evs)) as Hfail.
  { intros X Hx. simplify_eq. right. split_and!; [done|done|]. unfold closeFd.
    rewrite !(proj2 (Z.leb_le 0 _)) by done. unfold fds_opened, fds_closed. simpl. solve_Permutation. }
  destruct (registerFd (event_ctl_answers a)) as [[]|]; simpl in H; [| |done].
  2: { apply (Hfail False) in H as [[]|(-> & -> & ?)]. by split_and!. }
  destruct (registerFd (timer_ctl_answers a)) as [[]|]; simpl in H; [| |done].
  2: { apply (Hfail False) in H as [[]|(-> & -> & ?)]. by split_and!. }
  simplify_eq. simpl. by split_and!.
Qed.

Lemma timer_init_core t config a t' status evs :
  timer_init t config a = Some (t', status, evs) ->
  scheduler_ t' = scheduler_ t \/ scheduler_ t' = (init (scheduler_ t) config).1.
Proof.
  unfold timer_init. intros H. case_match; [by simplify_eq; left|].
  case_match; [by simplify_eq; left|]. case_match; [by simplify_eq; left|].
  destruct (openFds t a) as [[[t1 st] e]|] eqn:Eo; simpl in H; [|done].
  apply openFds_spec in Eo as (Hs & _). case_match; [simplify_eq; by left|].
  rewrite Hs in H. destruct config. simpl in H. destruct (init _ _) as [core sst]. simpl in *.
  case_match; simplify_eq; by right.
Qed.

Lemma stop_enter_spec t t' outcome :
  stop_enter t = (t', outcome) ->
  (t' = t /\ outcome = StopReturn)
  \/ (outcome <> StopReturn
      /\ t' = (setStateLocked t TimerState.Stopping) <| scheduler_ := (requestStop (scheduler_ t)).1 |>
      /\ ((state_ t = TimerState.Initialized /\ outcome = StopWithoutWorker)
          \/ ((state_ t = TimerState.Starting \/ state_ t = TimerState.Running)
              /\ outcome = StopNotify))).
Proof.
  unfold stop_enter. intros H. case_bool_decide as Hs; [simplify_eq; by left|].
  case_bool_decide as Hi; simplify_eq; right; (split_and!; [done|done|]); [by left|right].
  destruct (state_ t); tauto.
Qed.

Lemma step_core_run s s' : step s s' -> core_run s -> core_run s'.
Proof.
  intros [Hw|Hc] Hrun.
  - destruct Hw; try (by apply (core_run_op _ _ Hrun)); try (by eapply core_run_same).
    by apply (core_run_same s); [unfold closeFds in *; simplify_eq| |].
  - destruct Hc; try (by apply (core_run_op _ _ Hrun)); try (by eapply core_run_same).
    + apply timer_init_core in H as [E|E]; [by apply (core_run_same s)|].
      destruct Hrun as [ops Hops]. exists (ops ++ [OpInit config]). simpl. rewrite E.
      erewrite timer_run_snoc by done. by rewrite app_nil_r.
    + apply (core_run_same s); [|done|done]. unfold start_enter, closeFds in H.
      repeat case_match; simpl in *; by simplify_eq.
    + apply stop_enter_spec in H as [[-> _]|[? _]]; [by eapply core_run_same|done].
    + apply stop_enter_spec in H as [[_ ->]|(_ & -> & _)]; [done|].
      destruct Hrun as [ops Hops]. exists (ops ++ [OpRequestStop]). simpl.
      destruct (requestStop (scheduler_ (timer s))) as [core st] eqn:E. simpl.
      eapply timer_run_snoc; [done|]. simpl. rewrite E. by destruct st.
    + apply (core_run_same s); [by unfold closeFds in *; simplify_eq|done|done].
    + apply (core_run_same s); unfold after_write; [by case_match|by case_match|done].
    + apply (core_run_same s); [|done|done]. unfold join_enter in H.
      repeat case_match; by simplify_eq.
Qed.

Lemma reachable_core_run s : reachable s -> core_run s.
Proof.
  unfold reachable. intros H. assert (core_run initial) as H0 by (by exists []).
  induction H as [|s1 s2 s3 Hstep _ IH]; [done|]. by eapply IH, step_core_run.
Qed.

(** ** The life cycle *)

Definition is_stopper (c : Caller) : bool :=
  match c with StopProcess | StopArm | StopClose | StopFinish => true | _ => false end.
Definition is_last_stopper (c : Caller) : bool := match c with StopFinish => true | _ => false end.
Definition is_joiner (c : Caller) : bool := match c with Joining => true | _ => false end.
Definition is_notifier (c : Caller) : bool := match c with NeedNotify => true | _ => false end.

Fixpoint callers_in (p : Caller -> bool) (cs : list Caller) : nat :=
  match cs with
  | [] => 0
  | c :: rest => (if p c then 1 else 0) + callers_in p rest
  end.

Lemma callers_in_app p cs ds :
  callers_in p (cs ++ ds) = (callers_in p cs + callers_in p ds)%nat.
Proof. induction cs; simpl; lia. Qed.

Definition fds_closed_all (t : Timer) : Prop :=
  epoll_fd_ t = -1 /\ event_fd_ t = -1 /\ timer_fd_ t = -1.

Definition held_fds (t : Timer) : list Z :=
  filter (fun fd => 0 <= fd) [epoll_fd_ t; event_fd_ t; timer_fd_ t].

(** The states of the service a phase of the worker allows. *)
Definition phase_allows (ph : WorkerPhase) (st : TimerState.t) : Prop :=
  match ph with
  | NoThread => st <> TimerState.Starting /\ st <> TimerState.Running
  | Launched => st = TimerState.Starting \/ st = TimerState.Stopping
  | Exited => st = TimerState.Stopped \/ st = TimerState.Failed
  | _ => st = TimerState.Running \/ st = TimerState.Stopping
  end.

Definition thread_alive (ph : WorkerPhase) : Prop := ph <> NoThread /\ ph <> Exited.

Definition fds_released (ph : WorkerPhase) (st : TimerState.t) : Prop :=
  match ph with
  | NoThread =>
      st = TimerState.Constructed \/ st = TimerState.Stopped \/ st = TimerState.Failed
  | Finishing _ | Exited => True
  | _ => False
  end.

Record life_inv (s : System) : Prop := {
  li_phase : phase_allows (phase s) (state_ (timer s));
  li_fresh : state_ (timer s) = TimerState.Constructed -> service_config_ (timer s) = None;
  li_configured : service_config_ (timer s) = None ->
    state_ (timer s) = TimerState.Constructed \/ state_ (timer s) = TimerState.Failed;
  li_core_config : config_ (scheduler_ (timer s)) = service_config_ (timer s);
  li_stopper : (0 < callers_in is_stopper (callers s))%nat ->
    callers_in is_stopper (callers s) = 1%nat /\ phase s = NoThread
    /\ state_ (timer s) = TimerState.Stopping;
  li_stopping : phase s = NoThread -> state_ (timer s) = TimerState.Stopping ->
    (0 < callers_in is_stopper (callers s))%nat;
  li_joiner : callers_in is_joiner (callers s) = if join_in_progress_ (timer s) then 1%nat else 0%nat;
  li_joinable : worker_joinable (timer s) = true -> phase s <> NoThread;
  li_joining : join_in_progress_ (timer s) = true -> phase s <> NoThread;
  li_thread : thread_alive (phase s) ->
    worker_joinable (timer s) = true \/ join_in_progress_ (timer s) = true;
  li_released : fds_released (phase s) (state_ (timer s)) -> fds_closed_all (timer s);
  li_last : (0 < callers_in is_last_stopper (callers s))%nat -> fds_closed_all (timer s);
  li_fds : fds_balanced (fd_log s) (held_fds (timer s));
}.

Lemma held_fds_closed t : fds_closed_all t -> held_fds t = [].
Proof. intros (E1 & E2 & E3). unfold held_fds. by rewrite E1, E2, E3. Qed.

Lemma closeFds_spec t t' closed log :
  closeFds t = (t', closed) -> fds_balanced log (held_fds t) ->
  fds_closed_all t' /\ fds_balanced (log ++ closed) (held_fds t')
  /\ t' = t <| epoll_fd_ := -1 |> <| event_fd_ := -1 |> <| timer_fd_ := -1 |>.
Proof.
  unfold closeFds. intros [= <- <-] H. split_and!; [done| |done].
  eapply fds_balanced_app; [exact H|]. unfold held_fds, closeFd.
  rewrite !filter_cons, filter_nil. simpl.
  repeat case_decide; repeat case_match; bool_to_prop; try lia; unfold fds_opened, fds_closed; simpl;
    solve_Permutation.
Qed.

(** A step that changes neither the descriptors nor the life-cycle fields. *)
Lemma life_inv_same s s' :
  phase s' = phase s -> callers s' = callers s ->
  fd_log s' = fd_log s -> service_config_ (timer s') = service_config_ (timer s) ->
  config_ (scheduler_ (timer s')) = config_ (scheduler_ (timer s)) ->
  state_ (timer s') = state_ (timer s) -> worker_joinable (timer s') = worker_joinable (timer s) ->
  join_in_progress_ (timer s') = join_in_progress_ (timer s) ->
  epoll_fd_ (timer s') = epoll_fd_ (timer s) -> event_fd_ (timer s') = event_fd_ (timer s) ->
  timer_fd_ (timer s') = timer_fd_ (timer s) ->
  life_inv s -> life_inv s'.
Proof.
  intros Hp Hc Hf Hg Hk Ht Hw Hj E1 E2 E3 [].
  split; unfold fds_closed_all, held_fds in *; by rewrite ?Hp, ?Hc, ?Hf, ?Hg, ?Hk, ?Ht, ?Hw, ?Hj, ?E1, ?E2, ?E3.
Qed.

Lemma cleanup_config core : config_ (cleanupStaleLocked core) = config_ core.
Proof. unfold cleanupStaleLocked. by destruct (cleanup_loop _ _). Qed.

Lemma process_loop_config cs core p : config_ (process_loop core cs p).1 = config_ core.
Proof.
  revert core p. induction cs as [|c cs IH]; intros core p; [done|]. simpl. rewrite IH. simpl.
  destruct c; simpl; [by case_match|done].
Qed.

Lemma processCommands_config core : config_ (processCommands core).1 = config_ core.
Proof.
  unfold processCommands. destruct (config_ core) as [c|] eqn:E; [|done].
  pose proof (process_loop_config (commands_ core) core 0) as Hp.
  destruct (process_loop _ _ _). simpl in *. by rewrite cleanup_config, Hp.
Qed.

Lemma requestStop_config core : config_ (requestStop core).1 = config_ core.
Proof. unfold requestStop. repeat case_match; simpl; congruence. Qed.

Definition is_init (op : timer_op) : bool := match op with OpInit _ => true | _ => false end.

Lemma timer_step_config core op :
  is_init op = false -> config_ (timer_step core op).1 = config_ core.
Proof.
  destruct op; intros Hop; simpl; try done.
  - unfold scheduleAt. repeat case_match; simplify_eq; simpl; congruence.
  - unfold cancel. repeat case_match; simplify_eq; simpl; congruence.
  - pose proof (requestStop_config core) as H. destruct (requestStop core) as [c []]; exact H.
  - apply processCommands_config.
  - rewrite dispatch_section_cases. destruct (stop_requested_ core); [done|]. cbn zeta.
    destruct (heap_ (cleanupStaleLocked core)); [apply cleanup_config|].
    case_if; apply cleanup_config.
  - apply cleanup_config.
Qed.

Lemma core_op_life s op : is_init op = false -> life_inv s -> life_inv (core_op s op).
Proof.
  intros Hop. pose proof (timer_step_config (scheduler_ (timer s)) op Hop) as Hc. unfold core_op.
  destruct (timer_step _ op) as [core evs]. apply life_inv_same; done.
Qed.

(** The phases in which the worker owns its loop. *)
Definition working (ph : WorkerPhase) : bool :=
  match ph with NoThread | Launched | Finishing _ | Exited => false | _ => true end.

Lemma life_working s ph n :
  life_inv s -> working (phase s) = true -> working ph = true ->
  life_inv (s <| phase := ph |> <| counter := n |>).
Proof.
  intros [] Hw Hw'. split; simpl; try assumption; try (by destruct ph).
  - by destruct ph, (phase s).
  - intros Hs. destruct (li_stopper0 Hs) as (_ & Hp & _). by rewrite Hp in Hw.
  - intros Ha. apply li_thread0. by destruct (phase s).
Qed.

Lemma life_worker_move s s' op :
  is_init op = false -> life_inv s -> working (phase s) = true ->
  working (phase s') = true -> s' = (core_op s op) <| phase := phase s' |> -> life_inv s'.
Proof.
  intros Hop Hinv Hw Hw' ->. simpl.
  assert (life_inv (core_op s op)) as H by by apply core_op_life.
  assert (phase (core_op s op) = phase s) as Hp by (unfold core_op; by destruct (timer_step _ _)).
  pose proof (life_working _ (phase s') (counter (core_op s op)) H ltac:(by rewrite Hp) Hw') as Hx.
  by destruct (core_op s op).
Qed.

(** Closes the finite case analyses on states and phases. *)
Ltac life_done := try assumption; unfold thread_alive in *; simpl in *; intuition congruence.

Lemma worker_step_life s s' : worker_step s s' -> life_inv s -> life_inv s'.
Proof.
  intros Hw Hinv. destruct Hw.
  - destruct Hinv. rewrite H in *. split; simpl in *; life_done.
  - eapply (life_worker_move s _ OpProcess); [done|done|by rewrite H| |done]. simpl.
    unfold after_failed_cycle. by repeat case_match.
  - eapply (life_worker_move s _ (OpDispatch now)); [done|done|by rewrite H| |done]. simpl.
    by destruct outcome.
  - eapply (life_worker_move s _ OpCleanup); [done|done|by rewrite H| |done]. simpl.
    unfold after_cycle. by repeat case_match.
  - apply (life_working s _ (counter s)); [done|by rewrite H|]. unfold after_arm. by case_match.
  - apply (life_working s _ (counter s)); [done|by rewrite H|]. unfold after_wait. by repeat case_match.
  - apply (life_working s); [done|by rewrite H|]. by case_match.
  - eapply (life_worker_move s _ OpRequestStop); [done|done|by rewrite H|done|done].
  - apply (life_working s _ (counter s)); [done|by rewrite H|done].
  - destruct (closeFds_spec _ _ _ _ H0 (li_fds _ Hinv)) as (Hcl & Hb & ->).
    destruct Hinv. rewrite H in *. split; simpl in *; life_done.
  - destruct Hinv. rewrite H in *. split; simpl in *; destruct failed; life_done.
Qed.

Lemma timer_init_spec t config a t' status evs :
  config_ (scheduler_ t) = service_config_ t ->
  timer_init t config a = Some (t', status, evs) ->
  (t' = t /\ evs = [])
  \/ state_ t = TimerState.Constructed /\ service_config_ t = None
     /\ worker_joinable t' = worker_joinable t /\ join_in_progress_ t' = join_in_progress_ t
     /\ ((t' = setStateLocked t TimerState.Failed /\ fds_opened evs ≡ₚ fds_closed evs)
         \/ (state_ t' = TimerState.Initialized /\ service_config_ t' = Some config
             /\ config_ (scheduler_ t') = Some config /\ fds_closed evs = []
             /\ fds_opened evs = held_fds t')).
Proof.
  unfold timer_init. intros Hcfg H. case_match eqn:Hv; [by simplify_eq; left|].
  case_match eqn:Hc; [by simplify_eq; left|]. case_match eqn:Hs; [by simplify_eq; left|]. right.
  bool_to_prop. destruct (openFds t a) as [[[t1 st] e]|] eqn:Eo; simpl in H; [|done].
  apply openFds_spec in Eo as (E1 & E2 & E3 & E4 & E5 & Hbad & Hgood).
  case_bool_decide as Hst; simpl in H.
  - destruct (Hgood Hst) as (P1 & P2 & P3 & Hcl & Hop). subst st.
    unfold init in H. destruct config as [cc tc]. unfold timer_validConfig in Hv.
    rewrite E1, Hcfg in H. unfold validConfig in H. simpl in H, Hv. rewrite Hv in H. simpl in H.
    simplify_eq. split_and!; try done. right. simpl. split_and!; try done.
    rewrite Hop. unfold held_fds. simpl. rewrite !filter_cons_True by done. done.
  - destruct (Hbad Hst) as [-> Hb]. simplify_eq. split_and!; try done. by left.
Qed.

Lemma start_enter_spec t created t' outcome evs :
  start_enter t created = (t', outcome, evs) ->
  (t' = t /\ evs = [] /\ outcome <> StartThread)
  \/ state_ t = TimerState.Initialized
     /\ ((outcome = StartThread /\ evs = []
          /\ t' = (setStateLocked (t <| start_status_ := TimerStatus.InternalError |>)
                     TimerState.Starting) <| worker_joinable := true |>)
         \/ (outcome <> StartThread /\ exists t1, closeFds t = (t1, evs)
             /\ t' = setStateLocked (t1 <| start_status_ := TimerStatus.ThreadStartFailed |>)
                       TimerState.Failed)).
Proof.
  unfold start_enter. intros H. case_match; [simplify_eq; by left|].
  case_match; [simplify_eq; by left|]. case_match eqn:Hi; [simplify_eq; by left|].
  bool_to_prop. right. split; [done|]. destruct created.
  - simplify_eq. left. by split_and!.
  - right. unfold closeFds in *. simplify_eq. split; [done|]. by eexists.
Qed.

Lemma join_enter_spec t t' outcome :
  join_enter t false = (t', outcome) ->
  (t' = t /\ outcome <> JoinThread
   /\ (outcome = JoinReturn TimerStatus.Ok ->
       worker_joinable t = false /\ join_in_progress_ t = false
       /\ (state_ t = TimerState.Stopping \/ state_ t = TimerState.Stopped
           \/ state_ t = TimerState.Failed)))
  \/ (outcome = JoinThread /\ worker_joinable t = true /\ join_in_progress_ t = false
      /\ t' = t <| join_in_progress_ := true |> <| worker_joinable := false |>).
Proof.
  unfold join_enter. intros H. case_bool_decide as Hs; [simplify_eq; by left|].
  case_match eqn:Hj; [simplify_eq; by left|]. case_match eqn:Hw; bool_to_prop;
    injection H as <- <-; [left|by right].
  split_and!; try done. intros _. split_and!; try done. destruct (state_ t); tauto.
Qed.

Lemma life_callers s cs :
  life_inv s -> callers_in is_stopper cs = callers_in is_stopper (callers s) ->
  callers_in is_joiner cs = callers_in is_joiner (callers s) ->
  (callers_in is_last_stopper cs <= callers_in is_last_stopper (callers s))%nat ->
  life_inv (s <| callers := cs |>).
Proof.
  intros [] H1 H2 H3. split; simpl; rewrite ?H1, ?H2; try assumption. intros Hl. apply li_last0. lia.
Qed.

Lemma life_core_callers s op cs :
  is_init op = false -> life_inv s ->
  callers_in is_stopper cs = callers_in is_stopper (callers s) ->
  callers_in is_joiner cs = callers_in is_joiner (callers s) ->
  (callers_in is_last_stopper cs <= callers_in is_last_stopper (callers s))%nat ->
  life_inv ((core_op s op) <| callers := cs |>).
Proof.
  intros Hop Hinv H1 H2 H3.
  assert (callers (core_op s op) = callers s) as Hc by (unfold core_op; by destruct (timer_step _ _)).
  apply life_callers; [by apply core_op_life| | |]; by rewrite Hc.
Qed.

(** Counts of callers around one whose section runs. *)
Ltac count_callers :=
  repeat match goal with
  | H : callers ?s = _ |- _ => rewrite H in *; clear H
  end;
  rewrite ?callers_in_app in *; simpl in *; rewrite ?callers_in_app in *; simpl in *; lia.

Lemma constructed_no_thread s :
  life_inv s -> state_ (timer s) = TimerState.Constructed \/ state_ (timer s) = TimerState.Initialized ->
  phase s = NoThread /\ callers_in is_stopper (callers s) = 0%nat
  /\ callers_in is_last_stopper (callers s) = 0%nat.
Proof.
  intros [] Hs. assert (phase s = NoThread) as Hp.
  { destruct (phase s); simpl in li_phase0; try done; intuition congruence. }
  assert (callers_in is_stopper (callers s) = 0%nat) as H0.
  { destruct (callers_in is_stopper (callers s)) eqn:E; [done|].
    destruct li_stopper0 as (_ & _ & ?); [lia|]. intuition congruence. }
  split_and!; [done|done|]. clear -H0. induction (callers s) as [|[] cs IH]; simpl in *; lia.
Qed.

Lemma init_step_life s config a t status evs :
  timer_init (timer s) config a = Some (t, status, evs) -> life_inv s ->
  life_inv (s <| timer := t |> <| fd_log := fd_log s ++ evs |>).
Proof.
  intros Hi Hinv. apply timer_init_spec in Hi; [|apply Hinv].
  destruct Hi as [[-> ->]|(Hs & Hc & Hw & Hj & Hcase)].
  { rewrite app_nil_r. by apply (life_inv_same s). }
  destruct (constructed_no_thread s Hinv (or_introl Hs)) as (Hp & Hk & Hl).
  destruct Hinv. rewrite Hp, Hs, Hk in *.
  pose proof (li_released0 (or_introl eq_refl)) as Hcl. rewrite (held_fds_closed _ Hcl) in li_fds0.
  destruct Hcase as [[-> Hb]|(Hs' & Hc' & Hk' & Ec & Eo)].
  - split; simpl in *; rewrite ?Hp, ?Hk, ?Hl; simpl; try (by intuition congruence).
    rewrite held_fds_closed by done. eapply fds_balanced_app; [exact li_fds0|].
    by rewrite Hb, app_nil_r.
  - split; simpl in *; rewrite ?Hp, ?Hk, ?Hl, ?Hs', ?Hw, ?Hj; simpl; try (by intuition congruence); try lia.
    eapply fds_balanced_app; [exact li_fds0|]. by rewrite Ec, Eo.
Qed.

Lemma start_step_life s created t outcome evs :
  start_enter (timer s) created = (t, outcome, evs) -> life_inv s ->
  life_inv (s <| timer := t |> <| fd_log := fd_log s ++ evs |>
              <| phase := match outcome with StartThread => Launched | _ => phase s end |>).
Proof.
  intros Hst Hinv. apply start_enter_spec in Hst.
  destruct Hst as [(-> & -> & Ho)|(Hs & Hcase)].
  { rewrite app_nil_r. apply (life_inv_same s); try done. by destruct outcome. }
  destruct (constructed_no_thread s Hinv (or_intror Hs)) as (Hp & Hk & Hl).
  destruct Hcase as [(-> & -> & ->)|(Ho & t1 & Hcl & ->)].
  - destruct Hinv. rewrite Hp, Hs, Hk in *. rewrite app_nil_r.
    split; simpl in *; rewrite ?Hk, ?Hl; simpl; try (by intuition congruence); try lia.
  - destruct (closeFds_spec _ _ _ _ Hcl (li_fds _ Hinv)) as (Hca & Hb & ->).
    assert (match outcome with StartThread => Launched | _ => phase s end = NoThread) as ->
      by (by destruct outcome).
    destruct Hinv. rewrite Hp, Hs, Hk in *.
    split; simpl in *; rewrite ?Hk, ?Hl; simpl; try (by intuition congruence); try lia.
Qed.

Lemma stop_step_life s t outcome :
  stop_enter (timer s) = (t, outcome) -> outcome <> StopReturn -> life_inv s ->
  life_inv (s <| timer := t |>
    <| callers := match outcome with StopNotify => NeedNotify | _ => StopProcess end :: callers s |>
    <| occurrences := occurrences s ++ (timer_step (scheduler_ (timer s)) OpRequestStop).2 |>).
Proof.
  intros Hst Ho Hinv. apply stop_enter_spec in Hst as [[_ ?]|(_ & -> & Hcase)]; [done|].
  pose proof (requestStop_config (scheduler_ (timer s))) as Hcfg.
  destruct Hcase as [[Hs ->]|[Hs ->]].
  - destruct (constructed_no_thread s Hinv (or_intror Hs)) as (Hp & Hk & Hl).
    destruct Hinv. rewrite Hp, Hs, Hk in *.
    split; simpl in *; rewrite ?Hk, ?Hl, ?Hp; simpl; try (by intuition congruence); try lia.
  - destruct Hinv. split; simpl in *; try assumption; try (by destruct Hs; intuition congruence).
    + destruct (phase s); simpl in *; destruct Hs; intuition congruence.
    + intros Hp _. destruct Hs, (phase s); simpl in *; intuition congruence.
    + intros Hr. apply li_released0. destruct Hs, (phase s); simpl in *; intuition congruence.
Qed.

Lemma close_step_life s l k t closed :
  callers s = l ++ StopClose :: k -> closeFds (timer s) = (t, closed) -> life_inv s ->
  life_inv (s <| timer := t |> <| callers := l ++ StopFinish :: k |> <| fd_log := fd_log s ++ closed |>).
Proof.
  intros Hc Hcl Hinv. destruct (closeFds_spec _ _ _ _ Hcl (li_fds _ Hinv)) as (Hca & Hb & ->).
  destruct Hinv. rewrite Hc in *. rewrite !callers_in_app in *. simpl in *.
  destruct li_stopper0 as (Hk & Hp & Hs); [lia|].
  split; simpl; rewrite ?callers_in_app, ?Hp, ?Hs in *; simpl in *; try (by intuition congruence); lia.
Qed.

Lemma finish_step_life s l k :
  callers s = l ++ StopFinish :: k -> life_inv s ->
  life_inv (s <| timer := stop_finish (timer s) |> <| callers := l ++ k |>).
Proof.
  intros Hc []. rewrite Hc in *. rewrite !callers_in_app in *. simpl in *.
  destruct li_stopper0 as (Hk & Hp & Hs); [lia|].
  assert (fds_closed_all (timer s)) as Hcl by (apply li_last0; lia).
  split; simpl; rewrite ?callers_in_app, ?Hp, ?Hs in *; simpl in *; try (by intuition congruence); lia.
Qed.

Lemma join_step_life s t outcome :
  join_enter (timer s) false = (t, outcome) -> life_inv s ->
  life_inv (s <| timer := t |>
              <| callers := match outcome with JoinThread => Joining :: callers s
                            | _ => callers s end |>).
Proof.
  intros Hj Hinv. apply join_enter_spec in Hj as [(-> & Ho & _)|(-> & Hw & Hj & ->)].
  { apply (life_inv_same s); try done. by destruct outcome. }
  destruct Hinv. rewrite Hw, Hj in *. split; simpl; rewrite ?li_joiner0; try assumption; try done.
  by right.
Qed.

Lemma joined_step_life s l k :
  callers s = l ++ Joining :: k -> phase s = Exited -> life_inv s ->
  life_inv (s <| timer := join_finish (timer s) |> <| callers := l ++ k |>).
Proof.
  intros Hc Hp []. rewrite Hc, Hp in *. rewrite !callers_in_app in *. simpl in *.
  split; simpl; rewrite ?callers_in_app, ?Hp in *; simpl in *; try assumption; try (by life_done).
  destruct (join_in_progress_ (timer s)); lia.
Qed.

Lemma caller_step_life s s' : caller_step s s' -> life_inv s -> life_inv s'.
Proof.
  intros Hc Hinv. destruct Hc.
  - by eapply init_step_life.
  - by eapply start_step_life.
  - apply stop_enter_spec in H as [[-> _]|[? _]]; [|done]. by apply (life_inv_same s).
  - by apply stop_step_life.
  - apply life_core_callers; [done|done|count_callers..].
  - apply life_callers; [done|count_callers..].
  - by apply close_step_life.
  - by apply finish_step_life.
  - apply life_callers; [done|count_callers..].
  - apply life_core_callers; [done|done|case_match; count_callers..].
  - apply life_callers; [done|count_callers..].
  - apply life_core_callers; [done|done|case_match; count_callers..].
  - assert (life_inv (after_write s writes woken)) as Hinv'
      by (unfold after_write; case_match; by apply (life_inv_same s)).
    assert (callers (after_write s writes woken) = callers s) as Hcs
      by (unfold after_write; by case_match).
    apply life_callers; [done|rewrite Hcs; count_callers..].
  - by apply join_step_life.
  - by apply joined_step_life.
Qed.

Lemma initial_life : life_inv initial.
Proof.
  split; simpl; try done; try lia; [by left|by intros []|]. apply fds_balanced_nil.
Qed.

Lemma reachable_ind_inv (P : System -> Prop) :
  P initial -> (forall s s', reachable s -> P s -> step s s' -> P s') ->
  forall s, reachable s -> P s.
Proof.
  intros H0 Hs s Hr. apply (rtc_ind_r (R := step) P initial); [done| |done].
  intros y z Hy Hyz IH. by eapply Hs.
Qed.

Lemma reachable_life s : reachable s -> life_inv s.
Proof.
  apply reachable_ind_inv; [apply initial_life|]. intros s1 s2 _ H [Hw|Hc].
  - by eapply worker_step_life.
  - by eapply caller_step_life.
Qed.

(** ** Wake-ups *)

Lemma process_loop_spec cs core p :
  let core' := (process_loop core cs p).1 in
  (cs = commands_ core -> commands_ core' = [])
  /\ stop_requested_ core' = stop_requested_ core
  /\ (Stop ∈ cs \/ stopped_ core = true -> stopped_ core' = true).
Proof.
  revert core p. induction cs as [|c cs IH]; intros core p; simpl.
  { split_and!; [done|done|]. by intros [?%not_elem_of_nil|?]. }
  specialize (IH ((process_command core c) <| commands_ := cs |>) (p ⊕ 1)). simpl in IH.
  destruct IH as (H1 & H2 & H3). split_and!.
  - intros _. by apply H1.
  - rewrite H2. destruct c; simpl; [by case_match|done].
  - intros Hs. apply H3. destruct Hs as [[Hc|Hc]%elem_of_cons|Hs].
    + subst c. by right.
    + by left.
    + right. destruct c; simpl; [by case_match|done].
Qed.

Lemma cleanup_fields core :
  commands_ (cleanupStaleLocked core) = commands_ core
  /\ stop_requested_ (cleanupStaleLocked core) = stop_requested_ core
  /\ stopped_ (cleanupStaleLocked core) = stopped_ core.
Proof. unfold cleanupStaleLocked. by destruct (cleanup_loop _ _). Qed.

Lemma processCommands_spec core :
  let '(core', r) := processCommands core in
  stop_requested_ core' = stop_requested_ core
  /\ (status r = TimerStatus.Ok -> commands_ core' = [])
  /\ (is_Some (config_ core) -> status r = TimerStatus.Ok)
  /\ (is_Some (config_ core) -> Stop ∈ commands_ core \/ stopped_ core = true ->
      stopped_ core' = true)
  /\ (status r <> TimerStatus.Ok -> core' = core).
Proof.
  unfold processCommands. destruct (config_ core) as [c|] eqn:E.
  2: { simpl. split_and!; try done; intros [? ?]; done. }
  pose proof (process_loop_spec (commands_ core) core 0) as (H1 & H2 & H3).
  destruct (process_loop _ _ _) as [core' p]. simpl in *.
  destruct (cleanup_fields core') as (C1 & C2 & C3). rewrite C1, C2, C3.
  split_and!; try done; auto.
Qed.

Lemma dispatch_fields core now :
  let core' := (timer_step core (OpDispatch now)).1 in
  commands_ core' = commands_ core /\ stop_requested_ core' = stop_requested_ core
  /\ stopped_ core' = stopped_ core.
Proof.
  simpl. rewrite dispatch_section_cases. destruct (stop_requested_ core) eqn:Es; [done|]. cbn zeta.
  destruct (cleanup_fields core) as (C1 & C2 & C3).
  destruct (heap_ (cleanupStaleLocked core)); [|case_if]; simpl; rewrite ?C1, ?C2, ?C3; done.
Qed.

Lemma schedule_fields core dl snk expired ev :
  let '(core', (status, id)) := scheduleAt core dl snk expired ev in
  stop_requested_ core' = stop_requested_ core /\ stopped_ core' = stopped_ core
  /\ (status <> TimerStatus.Ok -> core' = core)
  /\ (Stop ∈ commands_ core -> Stop ∈ commands_ core').
Proof.
  unfold scheduleAt. destruct (config_ core); [|done]. repeat (case_if; [done|]).
  destruct (reservations_ core !! _); [done|]. simpl. split_and!; try done.
  intros. apply elem_of_app. by left.
Qed.

Lemma cancel_fields core id :
  let '(core', status) := cancel core id in
  commands_ core' = commands_ core /\ stop_requested_ core' = stop_requested_ core
  /\ stopped_ core' = stopped_ core.
Proof.
  unfold cancel. destruct (config_ core); [|done]. case_if; [done|].
  destruct (reservations_ core !! _); [|done]. by case_if.
Qed.

Lemma requestStop_fields core :
  let '(core', _) := requestStop core in
  (is_Some (config_ core) -> stop_requested_ core' = true) /\ stopped_ core' = stopped_ core
  /\ (stop_requested_ core' = true -> (stop_requested_ core = true /\ core' = core) \/ Stop ∈ commands_ core')
  /\ (Stop ∈ commands_ core -> Stop ∈ commands_ core').
Proof.
  unfold requestStop. destruct (config_ core) as [c|]; [|split_and!; auto; by intros [? ?]].
  destruct (stop_requested_ core) eqn:E; [split_and!; auto|]. simpl.
  split_and!; try done.
  - intros _. right. apply elem_of_app. right. by apply list_elem_of_singleton.
  - intros. apply elem_of_app. by left.
Qed.

(** A requested stop waits in the command queue until it is processed. *)
Definition stop_pending (core : TimerCore) : Prop :=
  stop_requested_ core = true -> Stop ∈ commands_ core \/ stopped_ core = true.

Lemma timer_step_stop_pending core op :
  stop_pending core -> (config_ core = None -> stop_requested_ core = false) ->
  stop_pending (timer_step core op).1.
Proof.
  unfold stop_pending. intros Hp Hn. destruct op; simpl.
  - unfold init. repeat case_match; simpl; auto; done.
  - pose proof (schedule_fields core dl snk expired ev) as H.
    destruct (scheduleAt _ _ _ _ _) as [core' [[] id]]; simpl; destruct H as (E1 & E2 & _ & E4);
      rewrite E1, E2; intros Hs; destruct (Hp Hs); auto.
  - pose proof (cancel_fields core id) as H.
    destruct (cancel core id) as [core' []]; simpl; destruct H as (E1 & E2 & E3);
      rewrite E1, E2, E3; auto.
  - pose proof (requestStop_fields core) as H.
    destruct (requestStop core) as [core' []]; simpl; destruct H as (_ & E2 & E3 & E4);
      intros Hs; destruct (E3 Hs) as [[Hs' ->]|?]; auto.
  - pose proof (processCommands_spec core) as H. destruct (processCommands core) as [core' r]. simpl.
    destruct H as (E1 & _ & _ & E4 & _). rewrite E1. intros Hs. right. apply E4; [|auto].
    destruct (config_ core); [done|]. rewrite Hn in Hs; done.
  - pose proof (dispatch_fields core now) as H. simpl in H. destruct H as (E1 & E2 & E3).
    by rewrite E1, E2, E3.
  - destruct (cleanup_fields core) as (E1 & E2 & E3). by rewrite E1, E2, E3.
Qed.

Lemma timer_run_stop_pending ops : stop_pending (timer_run fresh_core ops).1.
Proof.
  assert (forall core log, core_inv core log -> stop_pending core ->
    stop_pending (timer_run core ops).1) as H.
  2: { apply (H _ _ fresh_core_inv). by intros ?. }
  induction ops as [|op ops IH]; intros core log Hinv Hp; [done|]. simpl.
  pose proof (timer_step_inv core log op Hinv) as Hs.
  pose proof (timer_step_stop_pending core op Hp
    (fun E => proj2 (proj2 (proj2 (proj2 (proj2 (ci_config _ _ Hinv E))))))) as Hp'.
  destruct (timer_step core op) as [core1 evs]. specialize (IH core1 _ Hs Hp').
  by destruct (timer_run core1 ops).
Qed.

(** The phases of the loop in which a new command is seen only after a wake-up. *)
Definition needs_wake (ph : WorkerPhase) : bool :=
  match ph with
  | Dispatching false _ | Reporting false | Arming _ | Waiting => true
  | _ => false
  end.

(** The worker will be woken, or a caller is about to write, or a write failed. *)
Definition wake_assured (s : System) : Prop :=
  0 < counter s \/ (0 < callers_in is_notifier (callers s))%nat \/ wake_lost s = true.

Definition wake_inv (s : System) : Prop :=
  0 <= counter s
  /\ (needs_wake (phase s) = true -> commands_ (scheduler_ (timer s)) <> [] -> wake_assured s).

Lemma wake_core_op s op ph :
  wake_inv s -> (needs_wake ph = true -> needs_wake (phase s) = true) ->
  commands_ (timer_step (scheduler_ (timer s)) op).1 = commands_ (scheduler_ (timer s)) ->
  wake_inv ((core_op s op) <| phase := ph |>).
Proof.
  intros [H0 H] Hph Hc. unfold core_op. destruct (timer_step _ _) as [core evs]. simpl in *.
  split; [done|]. simpl. intros Hn. rewrite Hc. by apply H, Hph.
Qed.

Lemma wake_phase s ph n :
  wake_inv s -> (needs_wake ph = true -> needs_wake (phase s) = true) ->
  n = counter s \/ (0 <= n /\ needs_wake ph = false) ->
  wake_inv (s <| phase := ph |> <| counter := n |>).
Proof.
  intros [H0 H] Hph [->|[Hn Hf]]; split; simpl; try done; [|congruence].
  intros Hx. by apply H, Hph.
Qed.

Lemma process_step_wake s failing now core result :
  processCommands (scheduler_ (timer s)) = (core, result) -> wake_inv s ->
  wake_inv ((core_op s OpProcess)
    <| phase := if bool_decide (status result = TimerStatus.Ok) then Dispatching failing now
                else after_failed_cycle failing |>).
Proof.
  intros Hp [H0 H]. pose proof (processCommands_spec (scheduler_ (timer s))) as Hs.
  rewrite Hp in Hs. destruct Hs as (_ & Hc & _). unfold core_op. simpl. rewrite Hp. simpl.
  split; [done|]. simpl. case_bool_decide as Hb; [by rewrite (Hc Hb)|].
  unfold after_failed_cycle. by destruct failing.
Qed.

Lemma worker_step_wake s s' : worker_step s s' -> wake_inv s -> wake_inv s'.
Proof.
  intros Hw Hinv. destruct Hw.
  - by split; [apply Hinv|].
  - by eapply process_step_wake.
  - apply wake_core_op; [done| |apply dispatch_fields]. rewrite H. by destruct outcome.
  - apply wake_core_op; [done| |apply cleanup_fields]. rewrite H. unfold after_cycle.
    by destruct failing; [|case_match].
  - apply (wake_phase s _ (counter s)); [done| |by left]. by rewrite H.
  - apply (wake_phase s _ (counter s)); [done| |by left]. by rewrite H.
  - apply (wake_phase s); [done| |]; [by destruct drained|]. destruct command; [right|by left].
    split; [lia|by destruct drained].
  - unfold core_op. destruct (timer_step _ _). by split; [apply Hinv|].
  - by apply (wake_phase s _ (counter s)); [|rewrite H|left].
  - by split; [apply Hinv|].
  - by split; [apply Hinv|].
Qed.

Lemma wake_same s s' :
  counter s' = counter s -> phase s' = phase s -> wake_lost s' = wake_lost s ->
  commands_ (scheduler_ (timer s')) = commands_ (scheduler_ (timer s)) ->
  (callers_in is_notifier (callers s) <= callers_in is_notifier (callers s'))%nat ->
  wake_inv s -> wake_inv s'.
Proof.
  unfold wake_inv, wake_assured. intros -> -> -> -> Hc [H0 H]. split; [done|]. intros Hn Hk.
  destruct (H Hn Hk) as [?|[?|?]]; [by left|right; left; lia|by right; right].
Qed.

Lemma init_step_commands t config a t' status evs :
  timer_init t config a = Some (t', status, evs) ->
  commands_ (scheduler_ t') = commands_ (scheduler_ t).
Proof.
  intros [E|E]%timer_init_core; rewrite E; [done|]. unfold init. by repeat case_match.
Qed.

Lemma schedule_step_wake s l k dl snk expired ev core status id :
  callers s = l ++ InSchedule dl snk expired ev :: k ->
  scheduleAt (scheduler_ (timer s)) dl snk expired ev = (core, (status, id)) -> wake_inv s ->
  wake_inv ((core_op s (OpSchedule dl snk expired ev))
    <| callers := if bool_decide (status = TimerStatus.Ok) then l ++ NeedNotify :: k else l ++ k |>).
Proof.
  intros Hc Hs Hinv. pose proof (schedule_fields (scheduler_ (timer s)) dl snk expired ev) as Hf.
  rewrite Hs in Hf. destruct Hf as (_ & _ & Hsame & _). unfold core_op. simpl. rewrite Hs.
  case_bool_decide as Hb.
  - subst status. simpl. split; [apply Hinv|]. intros _ _. right. left. simpl.
    rewrite callers_in_app. simpl. lia.
  - rewrite (Hsame Hb). assert (forall evs, wake_inv (s <| timer := (timer s) <| scheduler_ := scheduler_ (timer s) |> |>
      <| occurrences := occurrences s ++ evs |> <| callers := l ++ k |>)) as Hw.
    { intros evs. apply (wake_same s); try done. simpl. count_callers. }
    destruct status; by apply Hw.
Qed.

Lemma notify_step_wake s l k writes woken :
  callers s = l ++ NeedNotify :: k -> (counter_full writes = true -> 0 < counter s) ->
  wake_inv s -> wake_inv ((after_write s writes woken) <| callers := l ++ k |>).
Proof.
  intros Hc Hfull [H0 H]. unfold after_write. case_bool_decide.
  - assert (0 < if counter_full writes then counter s else counter s + 1) as Hpos
      by (destruct (counter_full writes); [by apply Hfull|lia]).
    split; simpl; [lia|]. intros _ _. by left.
  - split; simpl; [lia|]. intros _ _. right. by right.
Qed.

Lemma caller_step_wake s s' : caller_step s s' -> life_inv s -> wake_inv s -> wake_inv s'.
Proof.
  intros Hc Hlife Hinv. destruct Hc.
  - apply (wake_same s); try done. by eapply init_step_commands.
  - apply start_enter_spec in H as [(-> & _ & Ho)|(Hs & [(-> & _ & ->)|(Ho & t1 & Hcl & ->)])].
    + apply (wake_same s); try done; by destruct outcome.
    + by split; [apply Hinv|].
    + unfold closeFds in Hcl. simplify_eq. apply (wake_same s); try done; by destruct outcome.
  - apply stop_enter_spec in H as [[-> _]|[? _]]; [|done]. by apply (wake_same s).
  - apply stop_enter_spec in H as [[_ ?]|(_ & -> & [[Hs ->]|[Hs ->]])]; [done| |].
    + split; [apply Hinv|]. destruct (constructed_no_thread s Hlife (or_intror Hs)) as (Hp & _).
      simpl. by rewrite Hp.
    + split; [apply Hinv|]. intros _ _. right. left. simpl. lia.
  - unfold core_op. destruct (timer_step _ _) as [core evs]. split; [apply Hinv|]. simpl.
    destruct (li_stopper _ Hlife) as (_ & Hp & _); [rewrite H, callers_in_app; simpl; lia|].
    by rewrite Hp.
  - apply (wake_same s); try done; simpl; count_callers.
  - unfold closeFds in *. simplify_eq. apply (wake_same s); try done; simpl; count_callers.
  - apply (wake_same s); try done; simpl; count_callers.
  - apply (wake_same s); try done; simpl; lia.
  - by eapply schedule_step_wake.
  - apply (wake_same s); try done; simpl; lia.
  - pose proof (cancel_fields (scheduler_ (timer s)) id) as Hf. rewrite H0 in Hf.
    unfold core_op. simpl. rewrite H0. destruct Hf as (Hcm & _).
    destruct status; (apply (wake_same s); try done; simpl; count_callers).
  - by apply notify_step_wake.
  - apply join_enter_spec in H as [(-> & Ho & _)|(-> & _ & _ & ->)];
      apply (wake_same s); try done; by destruct outcome.
  - apply (wake_same s); try done; simpl; count_callers.
Qed.

Lemma reachable_wake s : reachable s -> wake_inv s.
Proof.
  apply reachable_ind_inv; [by split|]. intros s1 s2 Hr H [Hw|Hc].
  - by eapply worker_step_wake.
  - eapply caller_step_wake; [done|by apply reachable_life|done].
Qed.

(** ** Shutdown *)

Lemma core_op_scheduler s op :
  scheduler_ (timer (core_op s op)) = (timer_step (scheduler_ (timer s)) op).1.
Proof. unfold core_op. by destruct (timer_step _ _). Qed.

(** A caller changes neither the progress of the worker nor a pending stop. *)
Lemma caller_step_frame s s' :
  caller_step s s' -> life_inv s -> phase s <> NoThread ->
  phase s' = phase s
  /\ stopped_ (scheduler_ (timer s')) = stopped_ (scheduler_ (timer s))
  /\ (stop_requested_ (scheduler_ (timer s)) = true ->
      stop_requested_ (scheduler_ (timer s')) = true).
Proof.
  intros Hc Hlife Hph. pose proof (constructed_no_thread s Hlife) as Hnt. destruct Hc; try done.
  - apply timer_init_spec in H as [[-> _]|(Hs & _)]; [done| |apply Hlife].
    by destruct (Hnt (or_introl Hs)).
  - apply start_enter_spec in H as [(-> & _ & Ho)|(Hs & _)]; [by destruct outcome|].
    by destruct (Hnt (or_intror Hs)).
  - apply stop_enter_spec in H as [[-> _]|[? _]]; done.
  - apply stop_enter_spec in H as [[_ ?]|(_ & -> & _)]; [done|]. simpl.
    unfold requestStop. destruct (config_ _); [|done].
    destruct (stop_requested_ (scheduler_ (timer s))) eqn:Es; simpl; by rewrite ?Es.
  - destruct (li_stopper _ Hlife) as (_ & Hp & _); [rewrite H, callers_in_app; simpl; lia|done].
  - unfold closeFds in *. by simplify_eq.
  - pose proof (schedule_fields (scheduler_ (timer s)) dl snk expired ev) as Hf.
    rewrite H0 in Hf. destruct Hf as (E1 & E2 & _).
    unfold core_op. simpl. rewrite H0. destruct status; simpl; by rewrite E1, E2.
  - pose proof (cancel_fields (scheduler_ (timer s)) id) as Hf. rewrite H0 in Hf.
    destruct Hf as (_ & E1 & E2). unfold core_op. simpl. rewrite H0.
    destruct status; simpl; by rewrite E1, E2.
  - unfold after_write. by case_match.
  - apply join_enter_spec in H as [(-> & _)|(_ & _ & _ & ->)]; done.
Qed.

(** How many sections the worker has left once a stop is requested. *)
Definition rank (s : System) : nat :=
  let stopped := stopped_ (scheduler_ (timer s)) in
  match phase s with
  | NoThread | Exited => 0
  | Finishing _ => 1
  | Closing _ => 2
  | Disarming _ => 3
  | Reporting true => 4
  | Dispatching true _ => 5
  | Processing true => 6
  | Recovering => 7
  | Reporting false => if stopped then 8 else 14
  | Dispatching false _ => if stopped then 9 else 15
  | Processing false => 10
  | Draining _ _ => 11
  | Waiting => 12
  | Arming _ => 13
  | Launched => 16
  end%nat.

Lemma dispatch_stops core now :
  stop_requested_ core = true -> dispatch_section core now = (core, Break).
Proof. intros H. unfold dispatch_section. by rewrite H. Qed.

Lemma worker_step_rank s s' :
  worker_step s s' -> is_Some (config_ (scheduler_ (timer s))) ->
  stop_pending (scheduler_ (timer s)) -> stop_requested_ (scheduler_ (timer s)) = true ->
  (rank s' < rank s)%nat /\ stop_requested_ (scheduler_ (timer s')) = true.
Proof.
  intros Hw Hcfg Hpend Hstop. unfold rank. destruct Hw; rewrite H.
  - split; [simpl; lia|done].
  - pose proof (processCommands_spec (scheduler_ (timer s))) as Hs.
    unfold core_op. simpl. rewrite H0 in *. destruct Hs as (E1 & _ & E3 & E4 & _). simpl.
    rewrite (bool_decide_true _ (E3 Hcfg)), (E4 Hcfg (Hpend Hstop)), E1.
    split; [destruct failing; lia|done].
  - rewrite dispatch_stops in H0 by done. simplify_eq. unfold core_op. simpl.
    rewrite dispatch_stops by done. simpl.
    split; [destruct failing, (stopped_ (scheduler_ (timer s))); lia|done].
  - destruct (cleanup_fields (scheduler_ (timer s))) as (_ & E2 & E3). unfold core_op. simpl.
    rewrite E2, E3. split; [|done]. unfold after_cycle.
    destruct failing, (stopped_ (scheduler_ (timer s))); simpl; lia.
  - simpl. unfold after_arm. split; [case_bool_decide; lia|done].
  - simpl. unfold after_wait. split; [|done].
    case_bool_decide; simpl; [destruct (interrupted _)|]; lia.
  - simpl. split; [destruct drained; lia|done].
  - pose proof (requestStop_fields (scheduler_ (timer s))) as Hs. unfold core_op. simpl.
    destruct (requestStop _) as [core st]. destruct Hs as (E1 & _).
    split; [|by destruct st; simpl; apply E1]. destruct st; simpl; lia.
  - simpl. split; [lia|done].
  - unfold closeFds in *. simplify_eq. simpl. split; [lia|done].
  - simpl. split; [lia|done].
Qed.

(** An execution with the number of sections the worker ran in it. *)
Inductive run : nat -> System -> System -> Prop :=
| run_nil s : run 0 s s
| run_worker n s1 s2 s3 : worker_step s1 s2 -> run n s2 s3 -> run (S n) s1 s3
| run_caller n s1 s2 s3 : caller_step s1 s2 -> run n s2 s3 -> run n s1 s3.

Lemma worker_step_alive s s' : worker_step s s' -> phase s <> NoThread /\ phase s' <> NoThread.
Proof.
  intros Hw. destruct Hw; rewrite H; (split; [done|]); simpl; try done.
  - unfold after_failed_cycle. by repeat case_match.
  - by case_match.
  - unfold after_cycle. by repeat case_match.
  - unfold after_arm. by case_match.
  - unfold after_wait. by repeat case_match.
  - by case_match.
Qed.

Lemma alive_configured s : life_inv s -> phase s <> NoThread -> is_Some (config_ (scheduler_ (timer s))) \/ phase s = Exited.
Proof.
  intros [] Hp. rewrite li_core_config0. destruct (service_config_ (timer s)); [by left|right].
  destruct (li_configured0 eq_refl) as [E|E]; rewrite E in li_phase0;
    destruct (phase s); simpl in li_phase0; intuition congruence.
Qed.

Lemma reachable_stop_pending s : reachable s -> stop_pending (scheduler_ (timer s)).
Proof.
  intros [ops Hops]%reachable_core_run. pose proof (timer_run_stop_pending ops) as H.
  by rewrite Hops in H.
Qed.

Lemma run_rank n s s' :
  run n s s' -> reachable s -> phase s <> NoThread ->
  stop_requested_ (scheduler_ (timer s)) = true -> (n + rank s' <= rank s)%nat.
Proof.
  induction 1 as [s|n s1 s2 s3 Hw _ IH|n s1 s2 s3 Hc _ IH]; intros Hr Hp Hs; [lia| |].
  - destruct (alive_configured s1 (reachable_life _ Hr) Hp) as [Hcfg|He];
      [|destruct Hw; congruence].
    destruct (worker_step_rank s1 s2 Hw Hcfg (reachable_stop_pending _ Hr) Hs) as [Hlt Hs2].
    assert (reachable s2) as Hr2 by (eapply rtc_r; [exact Hr|by left]).
    specialize (IH Hr2 (proj2 (worker_step_alive _ _ Hw)) Hs2). lia.
  - destruct (caller_step_frame s1 s2 Hc (reachable_life _ Hr) Hp) as (E1 & E2 & E3).
    assert (reachable s2) as Hr2 by (eapply rtc_r; [exact Hr|by right]).
    assert (rank s2 = rank s1) as E by (unfold rank; by rewrite E1, E2).
    specialize (IH Hr2 ltac:(by rewrite E1) (E3 Hs)). lia.
Qed.

(** The worker waits only while no stop has been processed. *)
Definition idle_inv (s : System) : Prop :=
  (phase s = Waiting \/ exists next, phase s = Arming next) -> stopped_ (scheduler_ (timer s)) = false.

Lemma worker_step_idle s s' : worker_step s s' -> idle_inv s -> idle_inv s'.
Proof.
  unfold idle_inv. intros Hw Hinv. destruct Hw; try rewrite core_op_scheduler; simpl; try (by intros [?|[? ?]]).
  - unfold after_failed_cycle. by repeat case_match; intros [?|[? ?]].
  - by case_match; intros [?|[? ?]].
  - unfold after_cycle. by repeat case_match; intros [?|[? ?]].
  - intros _. apply Hinv. right. by eexists.
  - unfold after_wait. by repeat case_match; intros [?|[? ?]].
  - by case_match; intros [?|[? ?]].
Qed.

Lemma reachable_idle s : reachable s -> idle_inv s.
Proof.
  apply reachable_ind_inv; [by intros [?|[? ?]]|]. intros s1 s2 Hr H [Hw|Hc].
  - by eapply worker_step_idle.
  - destruct (decide (phase s1 = NoThread)) as [E|E].
    + intros Hph. exfalso. assert (phase s2 = NoThread \/ phase s2 = Launched) as Hn.
      { destruct Hc; unfold core_op, after_write; repeat case_match; simpl; auto. }
      destruct Hn, Hph as [?|[? ?]]; congruence.
    + destruct (caller_step_frame s1 s2 Hc (reachable_life _ Hr) E) as (E1 & E2 & _).
      unfold idle_inv in *. by rewrite E1, E2.
Qed.

Lemma final_step s s' :
  step s s' -> life_inv s ->
  state_ (timer s) = TimerState.Stopped \/ state_ (timer s) = TimerState.Failed ->
  state_ (timer s') = state_ (timer s).
Proof.
  intros Hs Hlife Hf. assert (forall st, st = state_ (timer s) -> st <> TimerState.Constructed
    /\ st <> TimerState.Initialized /\ st <> TimerState.Starting /\ st <> TimerState.Running
    /\ st <> TimerState.Stopping) as Hne by (destruct Hf as [E|E]; rewrite E; by intros ? ->).
  specialize (Hne _ eq_refl). pose proof (li_phase _ Hlife) as Hp.
  destruct Hs as [Hw|Hc].
  - destruct Hw; rewrite H in Hp; simpl in Hp; unfold core_op, closeFds in *; repeat case_match;
      simplify_eq; simpl; intuition congruence.
  - destruct Hc; unfold core_op, closeFds, after_write in *; try (by repeat case_match; simplify_eq).
    + apply timer_init_spec in H as [[-> _]|(? & _)]; [done|intuition congruence|apply Hlife].
    + apply start_enter_spec in H as [(-> & _)|(? & _)]; [done|intuition congruence].
    + apply stop_enter_spec in H as [[-> _]|[? _]]; done.
    + apply stop_enter_spec in H as [[_ ?]|(_ & _ & [[? _]|[? _]])]; intuition congruence.
    + destruct (li_stopper _ Hlife) as (_ & _ & ?); [rewrite H, callers_in_app; simpl; lia|].
      intuition congruence.
    + apply join_enter_spec in H as [(-> & _)|(_ & _ & _ & ->)]; done.
Qed.

Lemma final_stable s s' :
  rtc step s s' -> reachable s ->
  state_ (timer s) = TimerState.Stopped \/ state_ (timer s) = TimerState.Failed ->
  state_ (timer s') = state_ (timer s).
Proof.
  induction 1 as [|s1 s2 s3 Hs _ IH]; intros Hr Hf; [done|].
  pose proof (final_step s1 s2 Hs (reachable_life _ Hr) Hf) as E.
  rewrite IH; [done|by eapply rtc_r|by rewrite E].
Qed.

(** C29. Every schedule of the timer service is a run of its [TimerCore]: the
    worker, the callers and a stop only perform core operations, so that in the
    whole service a timer fires only after it was accepted, not before its
    deadline, at most once, and neither after a successful cancel nor after a
    stop request. *)
Theorem timer_service_refines_core s :
  reachable s ->
  (exists ops, timer_run fresh_core ops = (scheduler_ (timer s), occurrences s))
  /\ forall pre n now post, occurrences s = pre ++ Fired n now :: post -> fire_ok pre n now.
Proof.
  intros [ops Hops]%reachable_core_run. split; [by exists ops|].
  pose proof (timer_run_inv ops fresh_core [] fresh_core_inv) as Hinv.
  rewrite Hops in Hinv. apply (ci_log _ _ Hinv).
Qed.

(** Life cycle under every schedule: [Stopped] and [Failed] are final; in
    them the worker does not run (it never started or has returned), and every
    descriptor the service ever opened has been closed exactly once.  When
    [join] answers [Ok] at once the worker does not run either, and no join is
    in progress. *)
Theorem timer_lifecycle_safe s :
  reachable s ->
  (state_ (timer s) = TimerState.Stopped \/ state_ (timer s) = TimerState.Failed ->
   (forall s', rtc step s s' -> state_ (timer s') = state_ (timer s))
   /\ ~ thread_alive (phase s) /\ fds_opened (fd_log s) ≡ₚ fds_closed (fd_log s))
  /\ (forall t, join_enter (timer s) false = (t, JoinReturn TimerStatus.Ok) ->
      ~ thread_alive (phase s)).
Proof.
  intros Hr. pose proof (reachable_life s Hr) as Hlife. split.
  - intros Hf. split; [by intros s' Hs; apply (final_stable s s')|].
    pose proof (li_phase _ Hlife) as Hp. destruct Hlife.
    assert (phase s = NoThread \/ phase s = Exited) as Hph.
    { destruct (phase s); simpl in Hp; auto; intuition congruence. }
    split; [unfold thread_alive; intuition congruence|].
    assert (fds_closed_all (timer s)) as Hcl
      by (apply li_released0; destruct Hph as [E|E]; rewrite E; simpl; tauto).
    unfold fds_balanced in li_fds0. by rewrite (held_fds_closed _ Hcl), app_nil_r in li_fds0.
  - intros t [(_ & _ & Hj)|(? & _)]%join_enter_spec; [|done].
    destruct (Hj eq_refl) as (Hw & Hi & _). intros Ha. destruct (li_thread _ Hlife Ha); congruence.
Qed.

(** No wake-up is lost: while the worker is past its command processing or
    sleeps in [epoll_wait] with commands in the queue, the eventfd is readable,
    or a caller is about to write to it, or a write failed (and its caller was
    told [WakeFailed]). *)
Theorem timer_no_lost_wakeup s :
  reachable s -> needs_wake (phase s) = true -> commands_ (scheduler_ (timer s)) <> [] ->
  wake_assured s.
Proof. intros Hr. apply (reachable_wake s Hr). Qed.

(** Shutdown terminates: once a stop is requested the worker runs at most
    sixteen more sections in any schedule; it is never stuck, since outside
    [epoll_wait] a section of it is enabled and inside it a wake-up is assured. *)
Theorem timer_stop_terminates s :
  reachable s -> stop_requested_ (scheduler_ (timer s)) = true -> phase s <> NoThread ->
  (forall n s', run n s s' -> (n <= 16)%nat)
  /\ (thread_alive (phase s) -> phase s <> Waiting -> exists s', worker_step s s')
  /\ (phase s = Waiting -> wake_assured s).
Proof.
  intros Hr Hs Hp. split_and!.
  - intros n s' Hrun. pose proof (run_rank n s s' Hrun Hr Hp Hs).
    assert (rank s <= 16)%nat by (unfold rank; repeat case_match; lia). lia.
  - intros [_ He] Hw. assert (exists st, arm (timer s) [IoBytes 0] = Some st) as [st Ha].
    { unfold arm. case_match; by eexists. }
    destruct (phase s) as [| |failing|failing now|failing|next| |c e| |failed|failed|failed|] eqn:E; try done.
    + eexists. by apply w_begin.
    + destruct (processCommands (scheduler_ (timer s))) as [core r] eqn:Ep.
      eexists. by apply (w_process s failing 0 core r).
    + destruct (dispatch_section (scheduler_ (timer s)) now) as [core o] eqn:Ed.
      eexists. by apply (w_dispatch s failing now core o).
    + eexists. by apply (w_report s failing).
    + eexists. by apply (w_arm s next [IoBytes 0] st).
    + assert (exists d, drain_ready (timer s) c e [IoError EAGAIN] [IoError EAGAIN] = Some d) as [d Hd].
      { unfold drain_ready, drainFd. destruct c, e; simpl; repeat case_match; simpl; by eexists. }
      eexists. by apply (w_drain s c e [IoError EAGAIN] [IoError EAGAIN] d).
    + eexists. by apply w_recover.
    + eexists. by apply (w_disarm s failed [IoBytes 0] st).
    + destruct (closeFds (timer s)) as [t cl] eqn:Ec. eexists. by apply (w_close s failed t cl).
    + eexists. by apply (w_finish s failed).
  - intros E. apply (reachable_wake s Hr); [by rewrite E|].
    destruct (reachable_stop_pending s Hr Hs) as [Hin|Hst].
    + intros Hn. rewrite Hn in Hin. by apply not_elem_of_nil in Hin.
    + rewrite (reachable_idle s Hr) in Hst; [done|by left].
Qed.

(** The timerfd is programmed exactly: without a deadline it is disarmed,
    with one it is armed with a well-formed, non-zero time that equals the
    remaining delay, one nanosecond when the deadline has passed, saturated at
    the largest [time_t]. *)
Theorem arm_specification_exact deadline now :
  arm_specification None now = (0, 0)
  /\ let '(sec, nsec) := arm_specification (Some deadline) now in
     0 <= sec <= time_t_max /\ 0 <= nsec < 1000000000 /\ (sec, nsec) <> (0, 0)
     /\ (Z.max 1 (deadline - now) < (time_t_max + 1) * 1000000000 ->
         sec * 1000000000 + nsec = Z.max 1 (deadline - now)).
Proof.
  split; [done|]. unfold arm_specification.
  set (delay := if deadline - now <=? 0 then 1 else deadline - now).
  assert (delay = Z.max 1 (deadline - now)) as <- by (subst delay; case_if; lia).
  assert (1 <= delay) by (subst delay; case_if; lia). clearbody delay.
  pose proof (Z.quot_rem' delay 1000000000) as Hq.
  pose proof (Z.rem_bound_pos delay 1000000000 ltac:(lia) ltac:(lia)) as Hrm.
  set (q := Z.quot delay 1000000000) in *. set (r := Z.rem delay 1000000000) in *.
  assert (0 <= q) by (apply Z.quot_pos; lia). clearbody q r. unfold time_t_max. case_if.
  - split_and!; try lia. done.
  - split_and!; try lia. intros [= -> E]. lia.
Qed.

(** ** Sample executions *)

Definition sample_config : TimerConfig := mkTimerConfig 8 8.
Definition sample_answers : OpenAnswers :=
  mkOpenAnswers [IoError EINTR; IoBytes 3] [IoBytes 4] [IoBytes 5] [IoBytes 0] [IoBytes 0].

(** Runs one rule of the worker or of a caller and computes the next state. *)
Tactic Notation "take_step" uconstr(rule) :=
  eapply rtc_l; [first [left; eapply rule | right; eapply rule];
    first [reflexivity | vm_compute; reflexivity | vm_compute; discriminate]|]; vm_compute.

Lemma sample_fired :
  exists s, reachable s /\ occurrences s = [Accepted (sample_node 20 0 CleanupTick)]
                     ++ Fired (sample_node 20 0 CleanupTick) 30 :: [].
Proof.
  eexists. split.
  - unfold reachable.
    take_step (c_init initial sample_config sample_answers).
    take_step (c_start _ true).
    take_step w_begin.
    take_step (c_schedule _ TimerState.Running 20 1 false (tick CleanupTick)).
    take_step (c_schedule_core _ [] []).
    take_step (w_process _ false 30).
    take_step (w_dispatch _ false 30).
    apply rtc_refl.
  - reflexivity.
Qed.

Lemma timer_service_refines_core_witness :
  exists s, reachable s /\ fire_ok [Accepted (sample_node 20 0 CleanupTick)]
    (sample_node 20 0 CleanupTick) 30.
Proof.
  destruct sample_fired as (s & Hr & Ho). exists s. split; [exact Hr|].
  exact (proj2 (timer_service_refines_core s Hr) _ _ _ _ Ho).
Defined.

Lemma sample_stopped :
  exists s, reachable s /\ state_ (timer s) = TimerState.Stopped /\ fds_opened (fd_log s) = [3; 4; 5].
Proof.
  eexists. split.
  - unfold reachable.
    take_step (c_init initial sample_config sample_answers).
    take_step (c_start _ true).
    take_step w_begin.
    take_step c_stop.
    take_step (w_process _ false 30).
    take_step (w_dispatch _ false 30).
    take_step (w_report _ false).
    take_step (w_disarm _ false [IoBytes 0]).
    take_step (w_close _ false).
    take_step (w_finish _ false).
    apply rtc_refl.
  - by split.
Qed.

Lemma timer_lifecycle_safe_witness :
  exists s, reachable s /\ state_ (timer s) = TimerState.Stopped
  /\ fds_opened (fd_log s) = [3; 4; 5] /\ fds_closed (fd_log s) ≡ₚ [3; 4; 5].
Proof.
  destruct sample_stopped as (s & Hr & Hs & Ho). exists s. split; [exact Hr|]. split; [exact Hs|].
  split; [exact Ho|]. rewrite <-Ho. symmetry.
  exact (proj2 (proj2 (proj1 (timer_lifecycle_safe s Hr) (or_introl Hs)))).
Defined.

(** The worker sleeps, a caller has queued a timer and not yet written. *)
Lemma sample_waiting :
  exists s, reachable s /\ phase s = Waiting /\ length (commands_ (scheduler_ (timer s))) = 2%nat
  /\ stop_requested_ (scheduler_ (timer s)) = true.
Proof.
  eexists. split.
  - unfold reachable.
    take_step (c_init initial sample_config sample_answers).
    take_step (c_start _ true).
    take_step w_begin.
    take_step (w_process _ false 30).
    take_step (w_dispatch _ false 30).
    take_step (w_report _ false).
    take_step (w_arm _ None [IoBytes 0]).
    take_step (c_schedule _ TimerState.Running 20 1 false (tick CleanupTick)).
    take_step (c_schedule_core _ [] []).
    take_step c_stop.
    apply rtc_refl.
  - by split.
Qed.

Lemma timer_no_lost_wakeup_witness : exists s, phase s = Waiting /\ wake_assured s.
Proof.
  destruct sample_waiting as (s & Hr & Hp & Hc & _). exists s. split; [exact Hp|].
  apply (timer_no_lost_wakeup s Hr); [by rewrite Hp|]. intros E. by rewrite E in Hc.
Defined.

Lemma timer_stop_terminates_witness :
  exists s, phase s = Waiting /\ wake_assured s /\ forall n s', run n s s' -> (n <= 16)%nat.
Proof.
  destruct sample_waiting as (s & Hr & Hp & _ & Hs). exists s. split; [exact Hp|].
  destruct (timer_stop_terminates s Hr Hs ltac:(by rewrite Hp)) as (H1 & _ & H3). auto.
Defined.
