(* ===== verification/Scheduler.v ===== *)
(** * Scheduler: the interface [ITimerScheduler]

    The maintenance components and the event loops see the timer service only
    through [ITimerScheduler] ([include/aegisflow/timer/timer_core.hpp]).  The
    class states what they rely on: an accepted timer stays armed, whatever the
    other threads do, until it is posted to its sink, cancelled by its owner or
    the service stops.  The timer core behind the checks of
    [Timer::scheduleAt] and [Timer::cancel] is an instance. *)

From S2P Require Import Prelude Posix PriorityQueue TimerCore Timer.
Open Scope Z_scope.

Class ITimerScheduler (E : Type) := {
  sched_scheduleAt : E -> Z -> Z -> TimerEvent -> E * (TimerStatus.t * TimerId);
  sched_cancel : E -> TimerId -> E * TimerStatus.t;
}.

(** [sched_armed e id snk ev]: the timer [id] will post [ev] to [snk].
    [sched_other self e e' posts]: threads other than the owner of the sink
    [self] act on the service, and [posts] are the events it takes out for
    [self]. *)
Class TimerSchedulerLaws (E : Type) `{ITimerScheduler E} := {
  sched_wf : E -> Prop;
  sched_armed : E -> TimerId -> Z -> TimerEvent -> Prop;
  sched_halted : E -> Prop;
  sched_other : Z -> E -> E -> list TimerEvent -> Prop;
  law_schedule e dl snk ev e' status id :
    sched_wf e -> sched_scheduleAt e dl snk ev = (e', (status, id)) ->
    sched_wf e' /\ (sched_halted e -> sched_halted e')
    /\ (status = TimerStatus.Ok -> timer_valid id = true /\ sched_armed e' id snk ev)
    /\ (forall j s v, sched_armed e j s v -> sched_armed e' j s v \/ sched_halted e');
  law_cancel e id e' status :
    sched_wf e -> sched_cancel e id = (e', status) ->
    sched_wf e' /\ (sched_halted e -> sched_halted e')
    /\ (status = TimerStatus.Ok -> forall s v, ~ sched_armed e' id s v)
    /\ (forall j s v, j <> id -> sched_armed e j s v -> sched_armed e' j s v \/ sched_halted e');
  law_other self e e' posts :
    sched_wf e -> sched_other self e e' posts ->
    sched_wf e' /\ (sched_halted e -> sched_halted e')
    /\ (forall j v, sched_armed e j self v ->
        sched_armed e' j self v \/ v ∈ posts \/ sched_halted e');
}.

(** ** Timers of the core *)

Definition core_armed (core : TimerCore) (n : HeapNode) : Prop :=
  n ∈ held core /\ active (reservations_ core) n.

Lemma active_insert res n k r :
  active res n -> k <> key n -> active (<[k := r]> res) n.
Proof. unfold active, still_active. intros. by rewrite lookup_insert_ne. Qed.

Lemma active_delete res n k : active res n -> k <> key n -> active (delete k res) n.
Proof. unfold active, still_active. intros. by rewrite lookup_delete_ne. Qed.

Lemma live_armed core n : core_armed core n <-> n ∈ live (reservations_ core) (held core).
Proof. unfold core_armed, live. rewrite list_elem_of_filter. tauto. Qed.

Lemma cleanup_armed core n : core_armed core n -> core_armed (cleanupStaleLocked core) n.
Proof.
  rewrite !live_armed. unfold cleanupStaleLocked, held, live.
  pose proof (cleanup_loop_spec (heap_ core) (reservations_ core)) as Hs.
  destruct (cleanup_loop _ _) as [heap' res']. destruct Hs as (Hsame & _ & Hlive & _). simpl.
  rewrite !filter_app, !elem_of_app. fold (live res' heap').
  rewrite (live_same _ _ _ Hsame), Hlive. intros [?|H]; [by left|right].
  apply list_elem_of_filter in H as [Ha Hin]. apply list_elem_of_filter. split; [|done].
  unfold active. by rewrite (proj2 Hsame).
Qed.

Lemma process_armed core log n :
  core_inv core log -> core_armed core n ->
  core_armed (processCommands core).1 n \/ stop_requested_ (processCommands core).1 = true.
Proof.
  intros Hinv Ha. pose proof (processCommands_spec core) as Hp.
  destruct (stop_requested_ core) eqn:Es.
  { right. destruct (processCommands core) as [core' r]. destruct Hp as (E & _). simpl. congruence. }
  assert (is_Some (config_ core)) as Hc.
  { destruct (config_ core) eqn:Ec; [done|]. destruct (ci_config _ _ Hinv Ec) as (_ & E1 & E2 & _).
    destruct Ha as [Hn _]. unfold held in Hn. rewrite E1, E2 in Hn. by apply not_elem_of_nil in Hn. }
  destruct (processCommands_live core log Hinv Hc Es) as (_ & _ & _ & Hl). left.
  apply live_armed in Ha. rewrite <-Hl in Ha. apply list_elem_of_filter in Ha as [Ha Hin].
  split; [|done]. apply elem_of_app. by left.
Qed.

Lemma dispatch_armed core log now n :
  core_inv core log -> core_armed core n ->
  core_armed (timer_step core (OpDispatch now)).1 n
  \/ Fired n now ∈ (timer_step core (OpDispatch now)).2
  \/ stop_requested_ (timer_step core (OpDispatch now)).1 = true.
Proof.
  intros Hinv Ha. simpl. rewrite dispatch_section_cases.
  destruct (stop_requested_ core) eqn:Es; [by right; right|]. cbn zeta.
  apply cleanup_armed in Ha.
  assert (core_inv (cleanupStaleLocked core) log) as Hinv'
    by (pose proof (timer_step_inv core log OpCleanup Hinv) as H; simpl in H; by rewrite app_nil_r in H).
  destruct (heap_ (cleanupStaleLocked core)) as [|m rest] eqn:Eh; [by left|].
  destruct (now <? deadline m); [by left|]. simpl. destruct Ha as [Hin Hact].
  pose proof (ci_unique _ _ Hinv') as Hu. unfold held in *. rewrite Eh in *. csimpl in *.
  apply NoDup_cons in Hu as [Hu _]. apply elem_of_cons in Hin as [->|Hin].
  - right. left. by apply list_elem_of_singleton.
  - left. split; [done|]. simpl. apply active_delete; [done|]. intros E. apply Hu. rewrite E.
    apply list_elem_of_fmap. by exists n.
Qed.

Lemma core_armed_step core log n op core' evs :
  core_inv core log -> core_armed core n -> timer_step core op = (core', evs) ->
  (forall id, op = OpCancel id -> id <> node_id n) ->
  core_armed core' n \/ (exists now, Fired n now ∈ evs) \/ stop_requested_ core' = true.
Proof.
  intros Hinv Ha Hstep Hcancel. assert (core' = (timer_step core op).1) as -> by (by rewrite Hstep).
  assert (evs = (timer_step core op).2) as -> by (by rewrite Hstep). clear Hstep. destruct op.
  - left. simpl. unfold init. destruct (validConfig config); [|done]. simpl.
    destruct (config_ core) eqn:Ec; [done|]. destruct Ha as [Hn _].
    destruct (ci_config _ _ Hinv Ec) as (_ & E1 & E2 & _). unfold held in Hn.
    rewrite E1, E2 in Hn. by apply not_elem_of_nil in Hn.
  - left. simpl. unfold scheduleAt. destruct (config_ core); [|done]. repeat (case_if; [done|]).
    destruct (reservations_ core !! _) eqn:Er; [done|]. simpl. destruct Ha as [Hin Hact]. split.
    + unfold held in *. simpl. rewrite fmap_app, join_app, app_assoc. apply elem_of_app. by left.
    + simpl. apply active_insert; [done|]. intros E. apply active_lookup in Hact as (r & Hr & _).
      simpl in Er. congruence.
  - left. simpl. unfold cancel. destruct (config_ core); [|done]. case_if; [done|].
    destruct (reservations_ core !! value id) as [r|] eqn:Er; [|done]. case_if; [done|].
    destruct Ha as [Hin Hact]. split; [done|]. simpl. apply active_delete; [done|]. intros E.
    apply (Hcancel id eq_refl). apply active_lookup in Hact as (r' & Hr & Hg & _).
    rewrite E in Er. rewrite Hr in Er. injection Er as ->. destruct id, (node_id n). simpl in *.
    f_equal; lia.
  - simpl. pose proof (requestStop_fields core) as Hf. destruct (config_ core) eqn:Ec.
    + right. right. destruct (requestStop core) as [c []]; simpl; by apply Hf.
    + left. unfold requestStop. by rewrite Ec.
  - simpl. destruct (process_armed core log n Hinv Ha); [by left|by right; right].
  - destruct (dispatch_armed core log now n Hinv Ha) as [?|[?|?]]; eauto.
  - left. by apply cleanup_armed.
Qed.

Lemma timer_step_stays_stopped core log op :
  core_inv core log -> stop_requested_ core = true ->
  stop_requested_ (timer_step core op).1 = true.
Proof.
  intros Hinv Hs. destruct op; simpl.
  - unfold init. destruct (validConfig config); [|done]. simpl. destruct (config_ core) eqn:Ec; [done|].
    destruct (ci_config _ _ Hinv Ec) as (_ & _ & _ & _ & _ & ?). congruence.
  - pose proof (schedule_fields core dl snk expired ev) as Hf.
    destruct (scheduleAt _ _ _ _ _) as [? [[] ?]]; simpl; by destruct Hf as [-> _].
  - pose proof (cancel_fields core id) as Hf.
    destruct (cancel _ _) as [? []]; simpl; by destruct Hf as (_ & -> & _).
  - unfold requestStop. rewrite Hs. destruct (config_ core); done.
  - pose proof (processCommands_spec core) as Hf. destruct (processCommands core).
    simpl. by destruct Hf as [-> _].
  - pose proof (dispatch_fields core now) as Hf. simpl in Hf. by destruct Hf as (_ & -> & _).
  - by destruct (cleanup_fields core) as (_ & -> & _).
Qed.

Lemma schedule_armed core log dl snk expired ev core' id :
  core_inv core log -> scheduleAt core dl snk expired ev = (core', (TimerStatus.Ok, id)) ->
  timer_valid id = true
  /\ exists n, core_armed core' n /\ node_id n = id /\ sink n = snk /\ event n = ev.
Proof.
  intros Hinv. unfold scheduleAt. destruct (config_ core); [|done]. repeat (case_if; [done|]).
  destruct (reservations_ core !! _); [done|]. simpl.
  destruct (ci_counters _ _ Hinv) as (Hg & _ & Hid). intros [= <- <-]. split.
  - unfold timer_valid. simpl. rewrite Hg. destruct (Z.eqb_spec (next_id_value_ core) 0); [lia|done].
  - set (n := mkHeapNode dl (next_sequence_ core) (mkTimerId (next_id_value_ core) (next_generation_ core)) snk ev).
    exists n. split; [|done]. split.
    + unfold held. simpl. rewrite fmap_app, join_app, app_assoc. apply elem_of_app. right.
      by apply list_elem_of_singleton.
    + unfold active, still_active. simpl. rewrite lookup_insert_eq. simpl. by rewrite Z.eqb_refl.
Qed.

Lemma cancel_disarms core id core' :
  cancel core id = (core', TimerStatus.Ok) ->
  forall n, node_id n = id -> ~ core_armed core' n.
Proof.
  unfold cancel. destruct (config_ core); [|done]. case_if; [done|].
  destruct (reservations_ core !! value id); [|done]. case_if; [done|].
  intros [= <-] n <- [_ Ha]. unfold active, still_active in Ha. simpl in Ha.
  by rewrite lookup_delete_eq in Ha.
Qed.

(** ** The timer service as an instance *)

(** The core with its observations, the state of the service, and whether the
    next write to the eventfd succeeds. *)
Record TimerService := mkService {
  sv_core : TimerCore;
  sv_log : list occurrence;
  sv_state : TimerState.t;
  sv_wakes : bool;
}.

Definition sv_op (e : TimerService) (op : timer_op) : TimerService :=
  let '(core, evs) := timer_step (sv_core e) op in
  e <| sv_core := core |> <| sv_log := sv_log e ++ evs |>.

(** [Timer::scheduleAt] and [Timer::cancel] *)
#[export] Instance TimerService_scheduler : ITimerScheduler TimerService := {
  sched_scheduleAt e dl snk ev :=
    match call_refusal (sv_state e) (sv_state e) with
    | Some refused => (e, (refused, null_timer))
    | None =>
        let '(status, id) := (scheduleAt (sv_core e) dl snk false ev).2 in
        (sv_op e (OpSchedule dl snk false ev),
         (if bool_decide (status = TimerStatus.Ok) then
            (if sv_wakes e then status else TimerStatus.WakeFailed) else status, id))
    end;
  sched_cancel e id :=
    match call_refusal (sv_state e) (sv_state e) with
    | Some refused => (e, refused)
    | None =>
        let status := (cancel (sv_core e) id).2 in
        (sv_op e (OpCancel id),
         if bool_decide (status = TimerStatus.Ok) then
           (if sv_wakes e then status else TimerStatus.WakeFailed) else status)
    end;
}.

(** The instance is the service of [Timer.v]: same core, same answer. *)
Lemma TimerService_faithful t dl snk ev writes t' answer log :
  service_scheduleAt t dl snk false ev writes = Some (t', answer) ->
  exists wakes,
    let '(e, answer') := sched_scheduleAt (mkService (scheduler_ t) log (state_ t) wakes) dl snk ev in
    answer' = answer /\ sv_core e = scheduler_ t'.
Proof.
  unfold service_scheduleAt, sched_scheduleAt. simpl. intros H.
  destruct (call_refusal _ _); [exists true; by simplify_eq|].
  unfold sv_op. simpl. destruct (scheduleAt _ _ _ _ _) as [core [status id]]. simpl in H.
  case_bool_decide as Hs; simpl in H.
  - destruct (notifyWorker _ _) as [woken|]; simpl in H; [|done].
    exists (bool_decide (woken = TimerStatus.Ok)). subst status. simpl. simplify_eq.
    simpl. by case_bool_decide.
  - exists true. simplify_eq. destruct status; try done; simpl; done.
Qed.

Definition sv_wf (e : TimerService) : Prop := core_inv (sv_core e) (sv_log e).

Definition sv_armed (e : TimerService) (id : TimerId) (snk : Z) (ev : TimerEvent) : Prop :=
  exists n, core_armed (sv_core e) n /\ node_id n = id /\ sink n = snk /\ event n = ev.

Definition sv_halted (e : TimerService) : Prop := stop_requested_ (sv_core e) = true.

(** The events among the occurrences that go to a sink. *)
Definition posts_to (self : Z) (evs : list occurrence) : list TimerEvent :=
  omap (fun o => match o with
                 | Fired n _ => if sink n =? self then Some (event n) else None
                 | _ => None end) evs.

Inductive sv_other (self : Z) : TimerService -> TimerService -> list TimerEvent -> Prop :=
| other_op e op :
    (* nobody else has the identifier of a timer of [self] *)
    (forall id n, op = OpCancel id -> core_armed (sv_core e) n -> sink n = self -> id <> node_id n) ->
    sv_other self e (sv_op e op) (posts_to self (timer_step (sv_core e) op).2)
| other_state e state wakes :
    sv_other self e (e <| sv_state := state |> <| sv_wakes := wakes |>) [].

Lemma sv_op_wf e op : sv_wf e -> sv_wf (sv_op e op).
Proof.
  intros H. unfold sv_op, sv_wf. pose proof (timer_step_inv _ _ op H).
  by destruct (timer_step (sv_core e) op).
Qed.

Lemma sv_op_armed e op j s v :
  sv_wf e -> sv_armed e j s v -> (forall id, op = OpCancel id -> id <> j) ->
  sv_armed (sv_op e op) j s v \/ v ∈ posts_to s (timer_step (sv_core e) op).2
  \/ sv_halted (sv_op e op).
Proof.
  intros Hwf (n & Ha & <- & <- & <-) Hc. unfold sv_op, sv_halted, sv_armed.
  destruct (timer_step (sv_core e) op) as [core evs] eqn:E. simpl.
  destruct (core_armed_step _ _ n op core evs Hwf Ha E Hc) as [?|[[now Hf]|?]]; [by left; exists n| |by right; right].
  right. left. unfold posts_to. apply list_elem_of_omap. exists (Fired n now). split; [done|].
  by rewrite Z.eqb_refl.
Qed.

Lemma sv_op_halted e op : sv_wf e -> sv_halted e -> sv_halted (sv_op e op).
Proof.
  unfold sv_halted, sv_op. intros Hwf Hh.
  pose proof (timer_step_stays_stopped _ _ op Hwf Hh). by destruct (timer_step _ _).
Qed.

Lemma schedule_posts core dl snk expired ev s :
  posts_to s (timer_step core (OpSchedule dl snk expired ev)).2 = [].
Proof. simpl. by destruct (scheduleAt _ _ _ _ _) as [? [[] ?]]. Qed.

Lemma cancel_posts core id s : posts_to s (timer_step core (OpCancel id)).2 = [].
Proof. simpl. by destruct (cancel _ _) as [? []]. Qed.

Lemma sv_schedule_law (e : TimerService) dl snk ev e' status id :
  sv_wf e -> sched_scheduleAt e dl snk ev = (e', (status, id)) ->
  sv_wf e' /\ (sv_halted e -> sv_halted e')
  /\ (status = TimerStatus.Ok -> timer_valid id = true /\ sv_armed e' id snk ev)
  /\ (forall j s v, sv_armed e j s v -> sv_armed e' j s v \/ sv_halted e').
Proof.
  intros Hwf. simpl. destruct (call_refusal _ _) as [r|] eqn:Er.
  { intros [= <- <- <-]. split_and!; auto. intros ->. unfold call_refusal in Er. by repeat case_match. }
  pose proof (schedule_armed (sv_core e) (sv_log e) dl snk false ev) as Hs.
  intros H. assert (e' = sv_op e (OpSchedule dl snk false ev)) as ->
    by (destruct (scheduleAt _ _ _ _ _) as [? [? ?]]; simpl in H; by simplify_eq).
  split_and!; [by apply sv_op_wf| | |].
  - by apply sv_op_halted.
  - intros ->. unfold sv_armed, sv_op. simpl in *.
    destruct (scheduleAt _ _ _ _ _) as [core [st i]]. simpl in *. case_bool_decide; [|congruence].
    destruct (sv_wakes e); [|done]. simplify_eq. by apply (Hs core id Hwf).
  - intros j s v Ha.
    destruct (sv_op_armed e (OpSchedule dl snk false ev) j s v Hwf Ha ltac:(done))
      as [?|[Hp|?]]; auto.
    rewrite schedule_posts in Hp. by apply not_elem_of_nil in Hp.
Qed.

Lemma sv_cancel_law (e : TimerService) id e' status :
  sv_wf e -> sched_cancel e id = (e', status) ->
  sv_wf e' /\ (sv_halted e -> sv_halted e')
  /\ (status = TimerStatus.Ok -> forall s v, ~ sv_armed e' id s v)
  /\ (forall j s v, j <> id -> sv_armed e j s v -> sv_armed e' j s v \/ sv_halted e').
Proof.
  intros Hwf. simpl. destruct (call_refusal _ _) as [r|] eqn:Er.
  { intros [= <- <-]. split_and!; auto. intros ->. unfold call_refusal in Er. by repeat case_match. }
  pose proof (cancel_disarms (sv_core e) id) as Hs.
  intros H. assert (e' = sv_op e (OpCancel id)) as -> by (by simplify_eq).
  split_and!; [by apply sv_op_wf| | |].
  - by apply sv_op_halted.
  - intros ->. unfold sv_armed, sv_op. simpl in *. destruct (cancel _ _) as [core st]. simpl in *.
    case_bool_decide as Hb; [|congruence]. subst st. intros s v (n & Ha & Hid & _).
    by apply (Hs core eq_refl n Hid).
  - intros j s v Hj Ha.
    destruct (sv_op_armed e (OpCancel id) j s v Hwf Ha ltac:(congruence))
      as [?|[Hp|?]]; auto.
    rewrite cancel_posts in Hp. by apply not_elem_of_nil in Hp.
Qed.

Lemma sv_other_law self (e e' : TimerService) posts :
  sv_wf e -> sv_other self e e' posts ->
  sv_wf e' /\ (sv_halted e -> sv_halted e')
  /\ (forall j v, sv_armed e j self v -> sv_armed e' j self v \/ v ∈ posts \/ sv_halted e').
Proof.
  intros Hwf Ho. destruct Ho as [e op Hc|e state wakes]; [|by split_and!; auto].
  split_and!; [by apply sv_op_wf|by apply sv_op_halted|].
  intros j v Ha. apply sv_op_armed; [done|done|].
  intros id Hop. destruct Ha as (n & Hn & <- & Hs & _). exact (Hc id n Hop Hn Hs).
Qed.

#[export] Instance TimerService_laws : TimerSchedulerLaws TimerService := {
  sched_wf := sv_wf; sched_armed := sv_armed; sched_halted := sv_halted; sched_other := sv_other;
  law_schedule := sv_schedule_law; law_cancel := sv_cancel_law; law_other := sv_other_law;
}.

Definition idle_service : TimerService :=
  mkService (timer_run fresh_core [OpInit (mkTimerConfig 8 8)]).1 [] TimerState.Running true.

Lemma idle_service_wf : sv_wf idle_service.
Proof.
  pose proof (timer_run_inv [OpInit (mkTimerConfig 8 8)] fresh_core [] fresh_core_inv) as H.
  exact H.
Qed.
