(* ===== verification/Limits.v ===== *)
(** * Limits: connection tokens and the resource limits of the network layer

    Model of [include/aegisflow/net/{connection_token,limits}.hpp]. *)

From S2P Require Import Prelude Codec.
Open Scope Z_scope.

Record ConnectionToken := mkToken { loop_id : Z; fd : Z; token_generation : Z }.

#[export] Instance ConnectionToken_eq_dec : EqDecision ConnectionToken.
Proof. solve_decision. Defined.

Definition token_valid (t : ConnectionToken) : bool :=
  (0 <=? fd t) && negb (token_generation t =? 0).

Record LimitsConfig := mkLimits {
  max_connections : Z;
  max_connections_per_loop : Z;
  connection_queue_capacity : Z;
  business_queue_capacity : Z;
  completion_queue_capacity : Z;
  completion_queue_byte_capacity : Z;
  limit_frame_payload_bytes : Z;
  limit_input_soft_watermark : Z;
  limit_input_buffer_bytes : Z;
  limit_output_soft_watermark : Z;
  limit_output_buffer_bytes : Z;
}.

Definition default_limits : LimitsConfig :=
  mkLimits 65536 65536 1024 1024 2048 (16 * 1024 * 1024) kMaxPayloadSize (64 * 1024)
    (kFrameHeaderSize + kMaxPayloadSize) (64 * 1024) (kFrameHeaderSize + kMaxPayloadSize).

Definition validLimits (limits : LimitsConfig) (loop_count worker_threads : Z) : bool :=
  let maximum := u64_max in
  if ((loop_count =? 0) || (worker_threads =? 0)
      || (max_connections limits =? 0) || (max_connections_per_loop limits =? 0)
      || (connection_queue_capacity limits =? 0) || (business_queue_capacity limits =? 0)
      || (completion_queue_capacity limits =? 0) || (completion_queue_byte_capacity limits =? 0)
      || (limit_frame_payload_bytes limits =? 0) || (limit_input_soft_watermark limits =? 0)
      || (limit_input_buffer_bytes limits =? 0) || (limit_output_soft_watermark limits =? 0)
      || (limit_output_buffer_bytes limits =? 0))%bool
  then false
  else if ((kMaxPayloadSize <? limit_frame_payload_bytes limits)
      || ((maximum ⊖ kFrameHeaderSize) <? limit_frame_payload_bytes limits)
      || (limit_input_buffer_bytes limits <? (kFrameHeaderSize ⊕ limit_frame_payload_bytes limits))
      || ((kFrameHeaderSize ⊕ kMaxPayloadSize) <? limit_input_buffer_bytes limits)
      || (limit_input_buffer_bytes limits <? limit_input_soft_watermark limits)
      || (limit_output_buffer_bytes limits <? (kFrameHeaderSize ⊕ 1))
      || ((kFrameHeaderSize ⊕ kMaxPayloadSize) <? limit_output_buffer_bytes limits)
      || (limit_output_buffer_bytes limits <? limit_output_soft_watermark limits))%bool
  then false
  else if ((maximum / loop_count <? max_connections_per_loop limits)
      || (wrap64 (loop_count * max_connections_per_loop limits) <? max_connections limits)
      || (max_connections_per_loop limits <? connection_queue_capacity limits)
      || ((maximum ⊖ business_queue_capacity limits) <? worker_threads)
      || (completion_queue_capacity limits <? (business_queue_capacity limits ⊕ worker_threads))
      || (completion_queue_byte_capacity limits <? limit_output_buffer_bytes limits))%bool
  then false
  else true.

(** Every field is a [std::size_t]. *)
Definition limits_u64 (l : LimitsConfig) : Prop :=
  is_u64 (max_connections l) /\ is_u64 (max_connections_per_loop l)
  /\ is_u64 (connection_queue_capacity l) /\ is_u64 (business_queue_capacity l)
  /\ is_u64 (completion_queue_capacity l) /\ is_u64 (completion_queue_byte_capacity l)
  /\ is_u64 (limit_frame_payload_bytes l) /\ is_u64 (limit_input_soft_watermark l)
  /\ is_u64 (limit_input_buffer_bytes l) /\ is_u64 (limit_output_soft_watermark l)
  /\ is_u64 (limit_output_buffer_bytes l).

(** What the checks mean without wrap-around. *)
Record limits_ok (l : LimitsConfig) (loop_count worker_threads : Z) : Prop := {
  lo_threads : 0 < loop_count /\ 0 < worker_threads;
  lo_connections : 0 < max_connections l
                   /\ max_connections l <= loop_count * max_connections_per_loop l <= u64_max;
  lo_queue : 0 < connection_queue_capacity l <= max_connections_per_loop l;
  lo_business : 0 < business_queue_capacity l;
  lo_completions : business_queue_capacity l + worker_threads <= completion_queue_capacity l;
  lo_completion_bytes : limit_output_buffer_bytes l <= completion_queue_byte_capacity l;
  lo_frame : 0 < limit_frame_payload_bytes l <= kMaxPayloadSize;
  lo_input : 4 + limit_frame_payload_bytes l <= limit_input_buffer_bytes l <= 4 + kMaxPayloadSize;
  lo_input_soft : 0 < limit_input_soft_watermark l <= limit_input_buffer_bytes l;
  lo_output : 5 <= limit_output_buffer_bytes l <= 4 + kMaxPayloadSize;
  lo_output_soft : 0 < limit_output_soft_watermark l <= limit_output_buffer_bytes l;
}.

Lemma loops_no_overflow m n : 0 < n -> 0 <= m -> m <= u64_max / n -> is_u64 (n * m).
Proof.
  intros Hn Hm Hle. unfold is_u64, u64_max in *. pose proof (Z.mul_div_le (two64 - 1) n Hn). nia.
Qed.

Lemma validLimits_spec limits loop_count worker_threads :
  limits_u64 limits -> is_u64 loop_count -> is_u64 worker_threads ->
  validLimits limits loop_count worker_threads = true <-> limits_ok limits loop_count worker_threads.
Proof.
  unfold limits_u64. intros Hl Hn Hw. unfold validLimits, kFrameHeaderSize.
  assert (kMaxPayloadSize = 1048576) as Hk by done.
  rewrite (wrap64_small (u64_max - 4)), (wrap64_small (4 + kMaxPayloadSize)),
    (wrap64_small (4 + 1)) by done.
  rewrite (wrap64_small (u64_max - _)) by (unfold is_u64, u64_max in *; lia).
  split.
  - repeat (case_if; [done|]). intros _. unfold is_u64 in *.
    rewrite (wrap64_small (4 + limit_frame_payload_bytes limits)) in * by (unfold is_u64; lia).
    rewrite (wrap64_small (business_queue_capacity limits + _)) in *
      by (unfold is_u64, u64_max in *; lia).
    pose proof (loops_no_overflow (max_connections_per_loop limits) loop_count
      ltac:(lia) ltac:(lia) ltac:(lia)) as Ho.
    rewrite (wrap64_small (loop_count * _)) in * by done.
    unfold is_u64 in Ho. split; unfold u64_max; lia.
  - intros []. unfold is_u64 in *.
    assert (max_connections_per_loop limits <= u64_max / loop_count) as Hd
      by (apply Z.div_le_lower_bound; lia).
    rewrite (wrap64_small (4 + limit_frame_payload_bytes limits)) by (unfold is_u64; lia).
    rewrite (wrap64_small (business_queue_capacity limits + _)) by (unfold is_u64; lia).
    rewrite (wrap64_small (loop_count * _)) by (unfold is_u64, u64_max in *; lia).
    rewrite !(proj2 (Z.eqb_neq _ _)), !(proj2 (Z.ltb_ge _ _)) by (unfold u64_max in *; lia). done.
Qed.

(** [validLimits] accepts exactly the limits that are meant: none of its
    guards is fooled by a wrap-around.  In particular every accepted input
    buffer holds the largest accepted frame with its header, the completion
    queue has room for every task that can be in flight (queued or running),
    and its byte budget for at least one largest response. *)
Theorem validLimits_exact limits loop_count worker_threads :
  limits_u64 limits -> is_u64 loop_count -> is_u64 worker_threads ->
  validLimits limits loop_count worker_threads = true <-> limits_ok limits loop_count worker_threads.
Proof. apply validLimits_spec. Qed.

Lemma validLimits_exact_witness : validLimits default_limits 4 8 = true /\ limits_ok default_limits 4 8.
Proof.
  split; [vm_compute; reflexivity|].
  apply validLimits_exact; [unfold limits_u64, is_u64; vm_compute; intuition discriminate|done|done|].
  vm_compute. reflexivity.
Defined.
