(* ===== verification/Session.v ===== *)
(** * Session: one connection, one request in flight

    Model of [include/aegisflow/net/session.hpp] and [src/net/session.cpp].
    An operation that decodes input returns [option]: [None] would mean that a
    decoding loop ran out of fuel, and the theorems show that it never does. *)

From S2P Require Import Prelude Codec Limits TimerCore.
Open Scope Z_scope.

Module SessionState.
Inductive t := Reading | Processing | Writing | Closing | Closed.
#[export] Instance eq_dec : EqDecision t.
Proof. solve_decision. Defined.
End SessionState.
#[export] Existing Instance SessionState.eq_dec.

Module SessionStatus.
Inductive t :=
| Ok | Buffered | RequestReady | InvalidState | InvalidArgument | StaleToken
| InputLimitExceeded | OutputLimitExceeded | ProtocolError | TruncatedFrame
| WriteProgressExceeded | Closing | Closed.
#[export] Instance eq_dec : EqDecision t.
Proof. solve_decision. Defined.
End SessionStatus.
#[export] Existing Instance SessionStatus.eq_dec.

Module SessionCloseReason.
Inductive t :=
| None_ | LocalShutdown | ProtocolError | InputLimitExceeded | OutputLimitExceeded
| PeerClosed | PeerTruncatedFrame | WriteInvariantViolation | IoError
| BusinessQueueRejected | BusinessError | IdleTimeout | ReadTimeout | WriteTimeout
| BusinessTimeout | ResourceExhausted.
#[export] Instance eq_dec : EqDecision t.
Proof. solve_decision. Defined.
End SessionCloseReason.
#[export] Existing Instance SessionCloseReason.eq_dec.

Inductive SessionTimerKind := TimerIdle | TimerRead | TimerWrite | TimerBusiness.

Record SessionTimers := mkSessionTimers {
  idle : TimerId;
  read : TimerId;
  write : TimerId;
  business : TimerId;
}.

Definition no_timers : SessionTimers :=
  mkSessionTimers null_timer null_timer null_timer null_timer.

(** [SessionInterest]: a set of three flags. *)
Record SessionInterest := mkInterest {
  interest_read : bool;
  interest_write : bool;
  interest_peer_read_close : bool;
}.

Record SessionConfig := mkSessionConfig {
  max_frame_payload_bytes : Z;
  input_soft_watermark_bytes : Z;
  max_input_buffer_bytes : Z;
  output_soft_watermark_bytes : Z;
  max_output_buffer_bytes : Z;
}.

Record SessionResult := mkSessionResult {
  status : SessionStatus.t;
  request : option DecodedFrame;
  bytes_accepted : Z;
  protocol_error : ProtocolError;
}.

Definition resultWithStatus (st : SessionStatus.t) : SessionResult :=
  mkSessionResult st None 0 none.

(** [ISessionConnection]: its descriptor and how often it has been closed. *)
Record Connection := mkConnection { conn_fd : Z; close_calls : Z }.

Definition conn_close (c : Connection) : Connection := c <| close_calls := close_calls c + 1 |>.

Record Session := mkSession {
  token_ : ConnectionToken;
  config_ : SessionConfig;
  connection_ : Connection;
  codec_ : LengthPrefixedCodec;
  pending_input_ : bytes_t;
  pending_input_offset_ : Z;
  output_ : bytes_t;
  output_offset_ : Z;
  timers_ : SessionTimers;
  state_ : SessionState.t;
  close_reason_ : SessionCloseReason.t;
  peer_read_closed_ : bool;
  close_after_write_ : bool;
  connection_closed_ : bool;
}.

Definition validConfig (config : SessionConfig) : bool :=
  (0 <? max_frame_payload_bytes config)
  && (max_frame_payload_bytes config <=? kMaxPayloadSize)
  && (0 <? input_soft_watermark_bytes config)
  && (input_soft_watermark_bytes config <=? max_input_buffer_bytes config)
  && (max_frame_payload_bytes config <=? max_input_buffer_bytes config)
  && (0 <? output_soft_watermark_bytes config)
  && (output_soft_watermark_bytes config <=? max_output_buffer_bytes config).

(** The constructor: a session, or the connection (closed unless it was null)
    when it throws. *)
Definition make_session (token : ConnectionToken) (config : SessionConfig)
    (connection : option Connection) : Session + option Connection :=
  match connection with
  | None => inr None
  | Some conn =>
      if (negb (token_valid token) || negb (validConfig config)
          || negb (conn_fd conn =? fd token))%bool
      then inr (Some (conn_close conn))
      else inl (mkSession token config conn fresh_codec [] 0 [] 0 no_timers
                  SessionState.Reading SessionCloseReason.None_ false false false)
  end.

(** The destructor. *)
Definition destroy (s : Session) : Session :=
  if negb (connection_closed_ s)
  then s <| connection_ := conn_close (connection_ s) |> <| connection_closed_ := true |>
  else s.

Definition pendingInputBytes (s : Session) : Z :=
  size_of (pending_input_ s) ⊖ pending_input_offset_ s.

Definition bufferedInputBytes (s : Session) : Z :=
  bufferedBytes (codec_ s) ⊕ pendingInputBytes s.

Definition remainingOutputBytes (s : Session) : Z := size_of (output_ s) ⊖ output_offset_ s.

Definition pendingOutput (s : Session) : bytes_t := drop (Z.to_nat (output_offset_ s)) (output_ s).

Definition inputAtOrAboveSoftWatermark (s : Session) : bool :=
  input_soft_watermark_bytes (config_ s) <=? bufferedInputBytes s.

Definition outputAtOrAboveSoftWatermark (s : Session) : bool :=
  output_soft_watermark_bytes (config_ s) <=? remainingOutputBytes s.

Definition readPausedByBackpressure (s : Session) : bool :=
  if (peer_read_closed_ s
      || (negb (bool_decide (state_ s = SessionState.Processing))
          && negb (bool_decide (state_ s = SessionState.Writing))))%bool
  then false
  else inputAtOrAboveSoftWatermark s || outputAtOrAboveSoftWatermark s.

Definition interest (s : Session) : SessionInterest :=
  match state_ s with
  | SessionState.Closing | SessionState.Closed => mkInterest false false false
  | st =>
      let writing := bool_decide (st = SessionState.Writing) in
      if peer_read_closed_ s then mkInterest false writing false
      else mkInterest (bool_decide (st = SessionState.Reading) || negb (readPausedByBackpressure s))
             writing true
  end.

Definition session_matches (s : Session) (token : ConnectionToken) : bool :=
  bool_decide (token_ s = token).

Definition beginClose (s : Session) (reason : SessionCloseReason.t) : Session * SessionStatus.t :=
  if bool_decide (state_ s = SessionState.Closed) then (s, SessionStatus.Closed)
  else if bool_decide (state_ s = SessionState.Closing) then (s, SessionStatus.Closing)
  else if bool_decide (reason = SessionCloseReason.None_) then (s, SessionStatus.InvalidArgument)
  else (s <| state_ := SessionState.Closing |> <| close_reason_ := reason |>,
        SessionStatus.Closing).

Definition finalizeClose (s : Session) : Session * SessionStatus.t :=
  if bool_decide (state_ s = SessionState.Closed) then (s, SessionStatus.Closed)
  else
    let s := if negb (bool_decide (state_ s = SessionState.Closing))
             then (beginClose s SessionCloseReason.LocalShutdown).1 else s in
    let s := if negb (connection_closed_ s)
             then s <| connection_ := conn_close (connection_ s) |> <| connection_closed_ := true |>
             else s in
    (s <| state_ := SessionState.Closed |>, SessionStatus.Ok).

Definition appendPendingInput (s : Session) (input : bytes_t) : Session :=
  if bool_decide (input = []) then s
  else
    let s := if negb (pending_input_offset_ s =? 0)
             then s <| pending_input_ := drop (Z.to_nat (pending_input_offset_ s)) (pending_input_ s) |>
                    <| pending_input_offset_ := 0 |>
             else s in
    s <| pending_input_ := pending_input_ s ++ input |>.

Definition clearConsumedPendingInput (s : Session) : Session :=
  if pending_input_offset_ s =? size_of (pending_input_ s)
  then s <| pending_input_ := [] |> <| pending_input_offset_ := 0 |>
  else s.

Definition bytesNeededByCodec (s : Session) : Z :=
  match next_state_ (codec_ s) with
  | NeedHeader => kFrameHeaderSize ⊖ bufferedBytes (codec_ s)
  | NeedBody => expected_payload_bytes_ (codec_ s) ⊖ bufferedBytes (codec_ s)
  | _ => 0
  end.

(** [beginClose(reason)] and a return with this status after [offset] bytes. *)
Definition close_with (s : Session) (reason : SessionCloseReason.t) (st : SessionStatus.t)
    (req : option DecodedFrame) (offset : Z) (err : ProtocolError) : Session * SessionResult :=
  ((beginClose s reason).1, mkSessionResult st req offset err).

(** One pass of the loop of [consumeReadingBytes], on the input after
    [offset]: an early return, or the state to continue with. *)
Definition reading_pass (s : Session) (rest : bytes_t) (store_remainder : bool)
    (result : SessionResult) (offset : Z)
    : option (Session * SessionResult + Session * bytes_t * SessionResult * Z) :=
  let consume_count := Z.min (bytesNeededByCodec s) (size_of rest) in
  if (store_remainder
      && (max_input_buffer_bytes (config_ s) ⊖ bufferedInputBytes s <? consume_count))%bool
  then Some (inl (close_with s SessionCloseReason.InputLimitExceeded
                    SessionStatus.InputLimitExceeded (request result) offset
                    (protocol_error result)))
  else
    match consume (codec_ s) (take (Z.to_nat consume_count) rest) with
    | None => None
    | Some (codec, r) =>
        let s := s <| codec_ := codec |> in
        let offset := offset ⊕ bytes_consumed r in
        let rest := drop (Z.to_nat (bytes_consumed r)) rest in
        if bool_decide (Codec.state r = Error)
        then Some (inl (close_with s SessionCloseReason.ProtocolError
                          SessionStatus.ProtocolError (request result) offset (error r)))
        else if (bool_decide (next_state_ codec = NeedBody)
                 && (max_frame_payload_bytes (config_ s) <? expected_payload_bytes_ codec))%bool
        then Some (inl (close_with s SessionCloseReason.InputLimitExceeded
                          SessionStatus.InputLimitExceeded (request result) offset
                          (protocol_error result)))
        else
          match frames r with
          | [] => Some (inr (s, rest, result, offset))
          | [frame] =>
              Some (inr (s <| state_ := SessionState.Processing |>, rest,
                         result <| request := Some frame |>
                                <| status := SessionStatus.RequestReady |>, offset))
          | _ =>
              Some (inl (close_with s SessionCloseReason.ProtocolError
                           SessionStatus.ProtocolError (request result) offset multiple_requests))
          end
    end.

Fixpoint reading_loop (fuel : nat) (s : Session) (rest : bytes_t) (store_remainder : bool)
    (result : SessionResult) (offset : Z)
    : option (Session * SessionResult + Session * bytes_t * SessionResult * Z) :=
  if ((0 <? size_of rest) && bool_decide (state_ s = SessionState.Reading))%bool then
    match fuel with
    | O => None
    | S fuel =>
        match reading_pass s rest store_remainder result offset with
        | Some (inr (s, rest, result, offset)) =>
            reading_loop fuel s rest store_remainder result offset
        | out => out
        end
    end
  else Some (inr (s, rest, result, offset)).

Definition consumeReadingBytes (s : Session) (input : bytes_t) (store_remainder : bool)
    : option (Session * SessionResult) :=
  match reading_loop (length input) s input store_remainder
          (resultWithStatus SessionStatus.Buffered) 0 with
  | None => None
  | Some (inl out) => Some out
  | Some (inr (s, rest, result, offset)) =>
      if (store_remainder && (0 <? size_of rest))%bool then
        if (max_input_buffer_bytes (config_ s) ⊖ bufferedInputBytes s <? size_of rest)
        then Some (close_with s SessionCloseReason.InputLimitExceeded
                     SessionStatus.InputLimitExceeded None offset (protocol_error result))
        else Some (appendPendingInput s rest, result <| bytes_accepted := size_of input |>)
      else Some (s, result <| bytes_accepted := offset |>)
  end.

Definition onInput (s : Session) (input : bytes_t) : option (Session * SessionResult) :=
  if bool_decide (state_ s = SessionState.Closing)
  then Some (s, resultWithStatus SessionStatus.Closing)
  else if bool_decide (state_ s = SessionState.Closed)
  then Some (s, resultWithStatus SessionStatus.Closed)
  else if bool_decide (input = []) then Some (s, resultWithStatus SessionStatus.Buffered)
  else if negb (bool_decide (state_ s = SessionState.Reading)) then
    if (max_input_buffer_bytes (config_ s) ⊖ bufferedInputBytes s) <? size_of input
    then Some ((beginClose s SessionCloseReason.InputLimitExceeded).1,
               resultWithStatus SessionStatus.InputLimitExceeded)
    else Some (appendPendingInput s input,
               (resultWithStatus SessionStatus.Buffered) <| bytes_accepted := size_of input |>)
  else consumeReadingBytes s input true.

Definition consumePendingInput (s : Session) : option (Session * SessionResult) :=
  if (negb (bool_decide (state_ s = SessionState.Reading)) || (pendingInputBytes s =? 0))%bool
  then Some (s, resultWithStatus SessionStatus.Buffered)
  else
    let pending := drop (Z.to_nat (pending_input_offset_ s)) (pending_input_ s) in
    match consumeReadingBytes s pending false with
    | None => None
    | Some (s, result) =>
        let s := s <| pending_input_offset_ := pending_input_offset_ s ⊕ bytes_accepted result |> in
        Some (clearConsumedPendingInput s, result)
    end.

Definition queueResponse (s : Session) (token : ConnectionToken) (response : bytes_t)
    : Session * SessionStatus.t :=
  if negb (session_matches s token) then (s, SessionStatus.StaleToken)
  else if bool_decide (state_ s = SessionState.Closing) then (s, SessionStatus.Closing)
  else if bool_decide (state_ s = SessionState.Closed) then (s, SessionStatus.Closed)
  else if negb (bool_decide (state_ s = SessionState.Processing))
  then (s, SessionStatus.InvalidState)
  else if bool_decide (response = []) then (s, SessionStatus.InvalidArgument)
  else if max_output_buffer_bytes (config_ s) <? size_of response
  then ((beginClose s SessionCloseReason.OutputLimitExceeded).1, SessionStatus.OutputLimitExceeded)
  else (s <| output_ := response |> <| output_offset_ := 0 |> <| state_ := SessionState.Writing |>,
        SessionStatus.Ok).

Definition onBytesWritten (s : Session) (bytes_written : Z) : option (Session * SessionResult) :=
  if bool_decide (state_ s = SessionState.Closing)
  then Some (s, resultWithStatus SessionStatus.Closing)
  else if bool_decide (state_ s = SessionState.Closed)
  then Some (s, resultWithStatus SessionStatus.Closed)
  else if negb (bool_decide (state_ s = SessionState.Writing))
  then Some (s, resultWithStatus SessionStatus.InvalidState)
  else if remainingOutputBytes s <? bytes_written
  then Some ((beginClose s SessionCloseReason.WriteInvariantViolation).1,
             resultWithStatus SessionStatus.WriteProgressExceeded)
  else
    let s := s <| output_offset_ := output_offset_ s ⊕ bytes_written |> in
    if negb (remainingOutputBytes s =? 0) then Some (s, resultWithStatus SessionStatus.Ok)
    else
      let s := s <| output_ := [] |> <| output_offset_ := 0 |> in
      if (close_after_write_ s || peer_read_closed_ s)%bool
      then Some ((beginClose s (if close_after_write_ s then close_reason_ s
                                else SessionCloseReason.PeerClosed)).1,
                 resultWithStatus SessionStatus.Closing)
      else
        match consumePendingInput (s <| state_ := SessionState.Reading |>) with
        | None => None
        | Some (s, result) =>
            Some (s, if bool_decide (status result = SessionStatus.Buffered)
                     then result <| status := SessionStatus.Ok |> else result)
        end.

Definition closeAfterWrite (s : Session) (reason : SessionCloseReason.t)
    : Session * SessionStatus.t :=
  if bool_decide (state_ s = SessionState.Closing) then (s, SessionStatus.Closing)
  else if bool_decide (state_ s = SessionState.Closed) then (s, SessionStatus.Closed)
  else if (negb (bool_decide (state_ s = SessionState.Writing))
           || bool_decide (reason = SessionCloseReason.None_))%bool
  then (s, SessionStatus.InvalidState)
  else (s <| close_reason_ := reason |> <| close_after_write_ := true |>, SessionStatus.Ok).

Definition onPeerReadClosed (s : Session) : Session * SessionStatus.t :=
  if bool_decide (state_ s = SessionState.Closing) then (s, SessionStatus.Closing)
  else if bool_decide (state_ s = SessionState.Closed) then (s, SessionStatus.Closed)
  else
    let s := s <| peer_read_closed_ := true |> in
    if (bool_decide (state_ s = SessionState.Processing)
        || bool_decide (state_ s = SessionState.Writing))%bool
    then (s <| close_reason_ := SessionCloseReason.PeerClosed |>, SessionStatus.Ok)
    else if negb (bufferedInputBytes s =? 0)
    then ((beginClose s SessionCloseReason.PeerTruncatedFrame).1, SessionStatus.TruncatedFrame)
    else ((beginClose s SessionCloseReason.PeerClosed).1, SessionStatus.Closing).

(** [timerSlot(kind)], read and written. *)
Definition timerSlot (t : SessionTimers) (k : SessionTimerKind) : TimerId :=
  match k with
  | TimerIdle => idle t
  | TimerRead => read t
  | TimerWrite => write t
  | TimerBusiness => business t
  end.

Definition set_timerSlot (t : SessionTimers) (k : SessionTimerKind) (i : TimerId) : SessionTimers :=
  match k with
  | TimerIdle => t <| idle := i |>
  | TimerRead => t <| read := i |>
  | TimerWrite => t <| write := i |>
  | TimerBusiness => t <| business := i |>
  end.

Definition replaceTimer (s : Session) (k : SessionTimerKind) (i : TimerId) : Session * TimerId :=
  (s <| timers_ := set_timerSlot (timers_ s) k i |>, timerSlot (timers_ s) k).

Definition releaseTimersForClose (s : Session) : Session * SessionTimers :=
  (s <| timers_ := no_timers |>, timers_ s).

(** ** The codec's share of a pass *)

Lemma bufferedBytes_raw c :
  codec_ok c -> bufferedBytes c = header_bytes_ c + size_of (payload_ c)
                /\ 0 <= bufferedBytes c <= kMaxPayloadSize.
Proof.
  intros Hok. unfold bufferedBytes, kMaxPayloadSize. pose proof (ok_state c Hok) as Hs.
  pose proof (size_of_nonneg (payload_ c)). unfold kMaxPayloadSize in *.
  assert (0 <= header_bytes_ c + size_of (payload_ c) <= 1048576).
  { destruct (next_state_ c); [| |done|]; destruct Hs as (? & Hp & ? & ?);
      try (rewrite Hp; unfold size_of; simpl); lia. }
  rewrite wrap64_small by (unfold is_u64; lia). lia.
Qed.

(** How many bytes the codec can take before its state changes. *)
Definition codec_needs (c : LengthPrefixedCodec) : Z :=
  match next_state_ c with
  | NeedHeader => 4 - header_bytes_ c
  | NeedBody => expected_payload_bytes_ c - size_of (payload_ c)
  | _ => 0
  end.

Lemma bytesNeeded_raw s :
  codec_ok (codec_ s) -> bytesNeededByCodec s = codec_needs (codec_ s).
Proof.
  intros Hok. unfold bytesNeededByCodec, codec_needs, kFrameHeaderSize.
  destruct (bufferedBytes_raw _ Hok) as [Hb Hr]. pose proof (ok_state _ Hok) as Hs.
  rewrite Hb. unfold kMaxPayloadSize in *. pose proof (size_of_nonneg (payload_ (codec_ s))).
  destruct (next_state_ (codec_ s)); [| |done|done].
  - destruct Hs as (? & -> & ? & ?). change (size_of (@nil Z)) with 0 in *.
    rewrite wrap64_small by (unfold is_u64; lia). lia.
  - destruct Hs as (-> & ? & ? & ?). rewrite wrap64_small by (unfold is_u64; lia). lia.
Qed.

Lemma codec_needs_pos c : codec_ok c -> next_state_ c <> Error -> 0 < codec_needs c.
Proof.
  intros Hok Hne. pose proof (ok_state c Hok) as Hs. unfold codec_needs.
  destruct (next_state_ c); [| |done|done]; lia.
Qed.

(** Bytes within the need: all are read, and at most one frame comes out. *)
Lemma feed_within c bs :
  codec_ok c -> next_state_ c <> Error -> bs <> [] -> size_of bs <= codec_needs c ->
  exists c' fs, feed c bs = (c', fs, size_of bs) /\ codec_ok c'
    /\ (fs = [] \/ exists f, fs = [f] /\ at_frame_start c')
    /\ bufferedBytes c' <= bufferedBytes c + size_of bs.
Proof.
  intros Hok Hne Hbs Hle. pose proof (ok_state c Hok) as Hs. unfold codec_needs in Hle.
  pose proof (feed_ok bs c Hok) as Hok'. destruct (bufferedBytes_raw c Hok) as [Hb _].
  pose proof (size_of_nonneg bs).
  destruct (next_state_ c) eqn:E; [| |done|done].
  - rewrite (feed_header c bs Hok E Hbs) in * by lia.
    eexists _, _. split_and!; [done|done|by left|].
    cbn [fst snd] in *. rewrite (proj1 (bufferedBytes_raw _ Hok')), Hb.
    destruct Hs as (? & Hp & ? & ?). unfold finish_header. case_if; simpl; [lia|].
    case_if; simpl; rewrite ?Hp; change (size_of (@nil Z)) with 0; lia.
  - rewrite (feed_body c bs Hok E Hbs) in * by lia. unfold finish_body in *.
    destruct (_ =? _); cbn [fst snd] in *; (eexists _, _; split_and!; [done|done| |]);
      rewrite ?(proj1 (bufferedBytes_raw _ Hok')), ?Hb; simpl in *.
    + right. eexists. split; [done|]. destruct Hs as (? & _). by split_and!.
    + destruct Hs as (-> & _). change (size_of (@nil Z)) with 0. pose proof (size_of_nonneg (payload_ c)). lia.
    + by left.
    + rewrite size_of_app. lia.
Qed.

(** ** The decoding loop *)

Definition live_state (st : SessionState.t) : Prop :=
  st <> SessionState.Closing /\ st <> SessionState.Closed.

(** What a pass has established when [offset] bytes of [input] are read. *)
Record loop_inv (store : bool) (s0 : Session) (input : bytes_t) (s : Session) (rest : bytes_t)
    (result : SessionResult) (offset : Z) : Prop := {
  li_offset : 0 <= offset <= size_of input /\ size_of input < two64 /\ rest = drop (Z.to_nat offset) input;
  li_frame : s = s0 <| codec_ := codec_ s |> <| state_ := state_ s |>;
  li_codec : codec_ok (codec_ s) /\ next_state_ (codec_ s) <> Error;
  li_feed : feed (codec_ s0) (take (Z.to_nat offset) input)
            = (codec_ s, option_list (request result), offset);
  li_state : (state_ s = SessionState.Reading /\ request result = None
              /\ status result = SessionStatus.Buffered)
             \/ (state_ s = SessionState.Processing /\ is_Some (request result)
                 /\ status result = SessionStatus.RequestReady /\ at_frame_start (codec_ s));
  li_room : if store then bufferedBytes (codec_ s) <= max_input_buffer_bytes (config_ s0)
            else bufferedBytes (codec_ s) <= bufferedBytes (codec_ s0) + offset;
  li_error : protocol_error result = none;
}.

(** What an early return has established. *)
Definition closed_early (s0 : Session) (input : bytes_t) (out : Session * SessionResult) : Prop :=
  exists c reason, out.1 = s0 <| codec_ := c |> <| state_ := SessionState.Closing |>
                              <| close_reason_ := reason |>
    /\ codec_ok c /\ request out.2 = None /\ 0 <= bytes_accepted out.2 <= size_of input
    /\ status out.2 <> SessionStatus.Buffered /\ status out.2 <> SessionStatus.RequestReady.

(** The session's own bounds that the loop relies on. *)
Definition loop_pre (store : bool) (s0 : Session) : Prop :=
  is_u64 (max_input_buffer_bytes (config_ s0))
  /\ (store = true -> pendingInputBytes s0 = 0)
  /\ state_ s0 = SessionState.Reading.

Lemma room_exact (s0 s : Session) :
  s = s0 <| codec_ := codec_ s |> <| state_ := state_ s |> ->
  is_u64 (max_input_buffer_bytes (config_ s0)) -> pendingInputBytes s0 = 0 ->
  codec_ok (codec_ s) -> bufferedBytes (codec_ s) <= max_input_buffer_bytes (config_ s0) ->
  max_input_buffer_bytes (config_ s) ⊖ bufferedInputBytes s
  = max_input_buffer_bytes (config_ s0) - bufferedBytes (codec_ s).
Proof.
  intros Hs Hm Hp Hok Hle. destruct (bufferedBytes_raw _ Hok) as [_ Hr].
  assert (config_ s = config_ s0 /\ pendingInputBytes s = pendingInputBytes s0) as [-> Hps]
    by (rewrite Hs; done).
  unfold bufferedInputBytes. rewrite Hps, Hp, Z.add_0_r. unfold is_u64, kMaxPayloadSize in *.
  rewrite (wrap64_small (bufferedBytes _)) by (unfold is_u64; lia).
  rewrite wrap64_small by (unfold is_u64; lia). done.
Qed.

Lemma closed_early_intro s0 input s reason st offset err req :
  s = s0 <| codec_ := codec_ s |> <| state_ := state_ s |> -> codec_ok (codec_ s) ->
  state_ s = SessionState.Reading -> reason <> SessionCloseReason.None_ ->
  0 <= offset <= size_of input -> req = None ->
  st <> SessionStatus.Buffered -> st <> SessionStatus.RequestReady ->
  closed_early s0 input (close_with s reason st req offset err).
Proof.
  intros Hs Hok Hst Hr Ho -> H1 H2. exists (codec_ s), reason. unfold close_with, beginClose.
  rewrite Hst, !bool_decide_false by done. simpl. split_and!; try done; try lia.
  rewrite Hs at 1. done.
Qed.

(** The next bytes of the input, read by the codec. *)
Lemma feed_next c0 input offset c fs bs k c' fs' :
  0 <= offset -> 0 <= k -> bs = take (Z.to_nat k) (drop (Z.to_nat offset) input) ->
  feed c0 (take (Z.to_nat offset) input) = (c, fs, offset) ->
  feed c bs = (c', fs', k) ->
  feed c0 (take (Z.to_nat (offset + k)) input) = (c', fs ++ fs', offset + k).
Proof.
  intros Ho Hk -> H1 H2. rewrite (feed_split c0 (Z.to_nat offset)).
  rewrite take_take, Nat.min_l by lia. rewrite H1.
  replace (drop (Z.to_nat offset) (take (Z.to_nat (offset + k)) input))
    with (take (Z.to_nat k) (drop (Z.to_nat offset) input)); [by rewrite H2|].
  rewrite take_drop_commute. do 2 f_equal. lia.
Qed.

Lemma reading_pass_spec store s0 input s rest result offset :
  loop_pre store s0 -> loop_inv store s0 input s rest result offset ->
  rest <> [] -> state_ s = SessionState.Reading ->
  match reading_pass s rest store result offset with
  | None => False
  | Some (inl out) => closed_early s0 input out
  | Some (inr (s', rest', result', offset')) =>
      loop_inv store s0 input s' rest' result' offset' /\ (length rest' < length rest)%nat
  end.
Proof.
  intros (Hmax & Hpre & Hs0) [(Ho & Hlen & Hrest) Hframe [Hok Hne] Hfeed Hstate Hroom Herr] Hnil Hread.
  destruct Hstate as [(_ & Hreq & Hstat)|(Hx & _)]; [|congruence].
  unfold reading_pass. rewrite bytesNeeded_raw by done. pose proof (codec_needs_pos _ Hok Hne).
  set (k := Z.min _ _). assert (0 < k <= size_of rest) as Hk.
  { assert (0 < size_of rest); [|lia]. destruct rest; [done|]. unfold size_of. simpl. lia. }
  destruct (store && _)%bool eqn:Eroom.
  { by apply closed_early_intro. }
  set (bs := take (Z.to_nat k) rest).
  assert (size_of bs = k) as Hbs by (unfold bs, size_of in *; rewrite length_take; lia).
  destruct (feed_within (codec_ s) bs Hok Hne) as (c' & fs & Ef & Hok' & Hfs & Hbuf);
    [intros Hb; rewrite Hb in Hbs; unfold size_of in Hbs; simpl in Hbs; lia|lia|].
  assert (size_of rest = size_of input - offset) as Hrs
    by (rewrite Hrest; unfold size_of in *; rewrite length_drop; lia).
  pose proof (consume_spec (codec_ s) bs Hok ltac:(lia)) as Hc. rewrite Ef in Hc.
  destruct Hc as (-> & _ & _). unfold reported. cbn [Codec.state error bytes_consumed frames].
  rewrite Hbs in *. rewrite (wrap64_small (offset + k)) by (unfold is_u64; lia).
  pose proof (feed_next _ _ _ _ _ bs k c' fs (proj1 Ho) ltac:(lia) ltac:(by unfold bs; rewrite Hrest)
    Hfeed Ef) as Hfeed'. rewrite Hreq in Hfeed'. simpl in Hfeed'.
  assert (if store then bufferedBytes c' <= max_input_buffer_bytes (config_ s0)
          else bufferedBytes c' <= bufferedBytes (codec_ s0) + (offset + k)) as Hroom'.
  { destruct store; [|lia]. simpl in Eroom. bool_to_prop.
    rewrite (room_exact s0 s) in Eroom by (done || auto). lia. }
  assert (0 <= offset + k <= size_of input /\ size_of input < two64
    /\ drop (Z.to_nat k) rest = drop (Z.to_nat (offset + k)) input) as Hoff'.
  { split_and!; try lia. rewrite Hrest, drop_drop. f_equal. lia. }
  assert (length (drop (Z.to_nat k) rest) < length rest)%nat as Hdec
    by (rewrite length_drop; unfold size_of in *; lia).
  set (s1 := s <| codec_ := c' |>).
  assert (s1 = s0 <| codec_ := codec_ s1 |> <| state_ := state_ s1 |>) as Hs1
    by (unfold s1; rewrite Hframe at 1; done).
  assert (codec_ok (codec_ s1)) as Hok1 by exact Hok'.
  assert (state_ s1 = SessionState.Reading) as Hread1 by exact Hread.
  assert (0 <= offset + k <= size_of input) as Hoff1 by lia.
  destruct (bool_decide (next_state_ c' = Error)) eqn:Eerr; bool_to_prop.
  { rewrite bool_decide_true by done. by apply closed_early_intro. }
  assert ((if negb (bool_decide (fs = [])) then FrameReady else next_state_ c') <> Error) as Hst1
    by (by destruct (negb _)).
  rewrite (bool_decide_false _ Hst1). cbn iota.
  destruct (bool_decide (next_state_ c' = NeedBody) && _)%bool.
  { by apply closed_early_intro. }
  destruct Hfs as [->|(f & -> & Hstart)].
  - split; [|done]. split; try done; [by rewrite Hreq|by left].
  - split; [|done]. split; try done; simpl; [by rewrite Hs1|right; by split_and!].
Qed.

Lemma reading_loop_spec fuel store s0 input s rest result offset :
  loop_pre store s0 -> loop_inv store s0 input s rest result offset ->
  (length rest <= fuel)%nat ->
  match reading_loop fuel s rest store result offset with
  | None => False
  | Some (inl out) => closed_early s0 input out
  | Some (inr (s', rest', result', offset')) =>
      loop_inv store s0 input s' rest' result' offset'
      /\ (rest' = [] \/ state_ s' = SessionState.Processing)
  end.
Proof.
  intros Hpre. revert s rest result offset. induction fuel as [|fuel IH];
    intros s rest result offset Hinv Hfuel; cbn [reading_loop];
    destruct (_ && _)%bool eqn:Eg; bool_to_prop.
  - destruct rest; [done|simpl in Hfuel; lia].
  - split; [done|]. left. destruct rest; [done|simpl in Hfuel; lia].
  - pose proof (reading_pass_spec store s0 input s rest result offset Hpre Hinv
      ltac:(by destruct rest) ltac:(done)) as Hp.
    destruct (reading_pass s rest store result offset) as [[out|[[[s1 r1] res1] o1]]|]; [done| |done].
    destruct Hp as [Hinv1 Hlt]. apply IH; [done|lia].
  - split; [done|]. apply andb_false_iff in Eg as [Eg|Eg]; bool_to_prop.
    + left. destruct rest; [done|]. unfold size_of in Eg. simpl in Eg. lia.
    + right. destruct (li_state _ _ _ _ _ _ _ Hinv) as [(? & _)|(? & _)]; [done|done].
Qed.

(** What [consumeReadingBytes] does when it does not close the session:
    either all of the input is taken and no frame is complete, or the first
    frame is taken, and the rest is stored or left. *)
Definition read_some (store : bool) (s0 : Session) (input : bytes_t)
    (s' : Session) (r : SessionResult) : Prop :=
  exists c n, 0 <= n <= size_of input
    /\ feed (codec_ s0) (take (Z.to_nat n) input) = (c, option_list (request r), n)
    /\ codec_ok c /\ next_state_ c <> Error
    /\ (if store then bufferedBytes c <= max_input_buffer_bytes (config_ s0)
        else bufferedBytes c <= bufferedBytes (codec_ s0) + n)
    /\ ((request r = None /\ status r = SessionStatus.Buffered /\ n = size_of input
         /\ bytes_accepted r = n /\ s' = s0 <| codec_ := c |>)
        \/ (is_Some (request r) /\ status r = SessionStatus.RequestReady /\ at_frame_start c
            /\ let s1 := s0 <| codec_ := c |> <| state_ := SessionState.Processing |> in
               let rest := drop (Z.to_nat n) input in
               if store
               then s' = appendPendingInput s1 rest /\ bytes_accepted r = size_of input
                    /\ size_of rest <= max_input_buffer_bytes (config_ s0)
               else s' = s1 /\ bytes_accepted r = n)).

Lemma at_frame_start_buffered c : at_frame_start c -> bufferedBytes c = 0.
Proof.
  intros (Hok & E & Hb). destruct (bufferedBytes_raw c Hok) as [-> _].
  pose proof (ok_state c Hok) as Hs. rewrite E in Hs. destruct Hs as (_ & -> & _). by rewrite Hb.
Qed.

Lemma consumeReadingBytes_spec store s0 input :
  loop_pre store s0 -> codec_ok (codec_ s0) -> next_state_ (codec_ s0) <> Error ->
  size_of input < two64 ->
  (store = true -> bufferedBytes (codec_ s0) <= max_input_buffer_bytes (config_ s0)) ->
  exists s' r, consumeReadingBytes s0 input store = Some (s', r)
    /\ (closed_early s0 input (s', r) \/ read_some store s0 input s' r).
Proof.
  intros Hpre Hok Hne Hlen Hroom. pose proof (size_of_nonneg input). unfold consumeReadingBytes.
  assert (loop_inv store s0 input s0 input (resultWithStatus SessionStatus.Buffered) 0) as Hinit.
  { split; try done; [by destruct s0|left|destruct store; [auto|lia]].
    split_and!; try done. apply Hpre. }
  pose proof (reading_loop_spec (length input) store s0 input s0 input _ 0 Hpre Hinit ltac:(lia)) as Hl.
  destruct (reading_loop _ _ _ _ _ _) as [[[s1 r1]|[[[s1 rest] r] n]]|]; [by eauto| |done].
  destruct Hl as [[(Hn & _ & Hrest) Hframe [Hok1 Hne1] Hfeed Hst Hroom1 Herr] Hend].
  assert (size_of rest = size_of input - n) as Hrs
    by (rewrite Hrest; unfold size_of in *; rewrite length_drop; lia).
  pose proof Hpre as (Hmax & Hpend & Hread0).
  destruct Hst as [(Hs1 & Hreq & Hstat)|(Hs1 & Hreq & Hstat & Hfs)].
  - destruct Hend as [->|Hend]; [|congruence]. change (size_of (@nil Z)) with 0 in *.
    rewrite andb_false_r. eexists _, _. split; [done|]. right. exists (codec_ s1), n.
    split_and!; try done; try lia. left. simpl. split_and!; try done; try lia.
    rewrite Hframe at 1. rewrite Hs1, <-Hread0. by destruct s0.
  - assert (s1 = s0 <| codec_ := codec_ s1 |> <| state_ := SessionState.Processing |>) as Hs1'
      by (rewrite Hframe at 1; by rewrite Hs1).
    destruct store; simpl.
    + destruct (Z.ltb_spec 0 (size_of rest)) as [Hr|Hr].
      * rewrite (room_exact s0 s1) by auto. rewrite (at_frame_start_buffered _ Hfs), Z.sub_0_r.
        destruct (Z.ltb_spec (max_input_buffer_bytes (config_ s0)) (size_of rest)) as [Hx|Hx].
        -- eexists _, _. split; [done|]. left. exists (codec_ s1), SessionCloseReason.InputLimitExceeded.
           unfold close_with, beginClose. rewrite Hs1, !bool_decide_false by done. simpl.
           split_and!; try done; try lia. rewrite Hs1' at 1. done.
        -- eexists _, _. split; [done|]. right. exists (codec_ s1), n. split_and!; try done; try lia.
           right. split_and!; try done. simpl. rewrite <-Hs1', <-Hrest. by split_and!.
      * eexists _, _. split; [done|]. right. exists (codec_ s1), n. split_and!; try done; try lia.
        right. split_and!; try done. simpl. rewrite <-Hs1', <-Hrest.
        assert (rest = []) as -> by (apply size_of_zero; pose proof (size_of_nonneg rest); lia).
        change (size_of (@nil Z)) with 0 in *. unfold is_u64 in *. split_and!; try done; lia.
    + eexists _, _. split; [done|]. right. exists (codec_ s1), n. split_and!; try done; try lia.
      right. split_and!; try done.
Qed.

(** ** Runs of a session *)

(** What an observer records: the bytes received, the requests handed to the
    business layer, the responses accepted and the bytes written. *)
Record trace := mkTrace {
  received : bytes_t;
  delivered : list DecodedFrame;
  responses : list bytes_t;
  sent : bytes_t;
}.

Inductive session_op :=
| Input (bs : bytes_t)
| Respond (token : ConnectionToken) (response : bytes_t)
| Written (n : Z)
| CloseAfterWrite (reason : SessionCloseReason.t)
| PeerReadClosed
| BeginClose (reason : SessionCloseReason.t)
| FinalizeClose
| ReplaceTimer (k : SessionTimerKind) (i : TimerId)
| ReleaseTimers.

(** Sizes are those of [std::size_t]. *)
Definition op_ok (op : session_op) : Prop :=
  match op with
  | Input bs => size_of bs < two64
  | Respond _ bs => size_of bs < two64
  | Written n => is_u64 n
  | _ => True
  end.

Definition session_step (s : Session) (t : trace) (op : session_op) : option (Session * trace) :=
  match op with
  | Input bs =>
      match onInput s bs with
      | None => None
      | Some (s', r) =>
          Some (s', t <| received := received t ++ bs |>
                      <| delivered := delivered t ++ option_list (request r) |>)
      end
  | Respond token bs =>
      match queueResponse s token bs with
      | (s', SessionStatus.Ok) => Some (s', t <| responses := responses t ++ [bs] |>)
      | (s', _) => Some (s', t)
      end
  | Written n =>
      let bytes := if (bool_decide (state_ s = SessionState.Writing)
                       && (n <=? remainingOutputBytes s))%bool
                   then take (Z.to_nat n) (pendingOutput s) else [] in
      match onBytesWritten s n with
      | None => None
      | Some (s', r) =>
          Some (s', t <| sent := sent t ++ bytes |>
                      <| delivered := delivered t ++ option_list (request r) |>)
      end
  | CloseAfterWrite reason => Some ((closeAfterWrite s reason).1, t)
  | PeerReadClosed => Some ((onPeerReadClosed s).1, t)
  | BeginClose reason => Some ((beginClose s reason).1, t)
  | FinalizeClose => Some ((finalizeClose s).1, t)
  | ReplaceTimer k i => Some ((replaceTimer s k i).1, t)
  | ReleaseTimers => Some ((releaseTimersForClose s).1, t)
  end.

Fixpoint session_run (s : Session) (t : trace) (ops : list session_op) : option (Session * trace) :=
  match ops with
  | [] => Some (s, t)
  | op :: rest =>
      match session_step s t op with
      | None => None
      | Some (s, t) => session_run s t rest
      end
  end.

(** The frames of a byte stream. *)
Definition frames_of (bs : bytes_t) : list DecodedFrame := (feed fresh_codec bs).1.2.

Lemma frames_of_app xs ys : frames_of xs `prefix_of` frames_of (xs ++ ys).
Proof.
  unfold frames_of. rewrite feed_app. destruct (feed fresh_codec xs) as [[c f] n].
  destruct (feed c ys) as [[c' f'] n']. by exists f'.
Qed.

(** The input that waits for the response: the unread part of the buffer. *)
Definition waiting (s : Session) : bytes_t :=
  drop (Z.to_nat (pending_input_offset_ s)) (pending_input_ s).

(** While the session is open the trace accounts for every byte. *)
Record open_inv (s : Session) (t : trace) : Prop := {
  oi_stream : exists consumed, received t = consumed ++ waiting s
              /\ feed fresh_codec consumed = (codec_ s, delivered t, size_of consumed);
  oi_codec : next_state_ (codec_ s) <> Error;
  oi_room : bufferedBytes (codec_ s) + size_of (waiting s) <= max_input_buffer_bytes (config_ s);
  oi_in_flight : size_of (delivered t)
    = size_of (responses t) + (if bool_decide (state_ s = SessionState.Processing) then 1 else 0);
  oi_reading : state_ s = SessionState.Reading -> waiting s = [];
  oi_cleared : waiting s = [] -> pending_input_ s = [] /\ pending_input_offset_ s = 0;
  oi_busy : state_ s <> SessionState.Reading -> at_frame_start (codec_ s);
  oi_idle : state_ s <> SessionState.Writing -> output_ s = [] /\ output_offset_ s = 0;
  oi_writing : state_ s = SessionState.Writing -> output_offset_ s < size_of (output_ s);
  oi_reason : close_after_write_ s = true -> close_reason_ s <> SessionCloseReason.None_;
}.

Record session_inv (s : Session) (t : trace) : Prop := {
  si_config : validConfig (config_ s) = true /\ is_u64 (max_input_buffer_bytes (config_ s))
              /\ is_u64 (max_output_buffer_bytes (config_ s));
  si_codec : codec_ok (codec_ s);
  si_pending : 0 <= pending_input_offset_ s <= size_of (pending_input_ s)
               /\ size_of (pending_input_ s) < two64;
  si_output : 0 <= output_offset_ s <= size_of (output_ s)
              /\ size_of (output_ s) <= max_output_buffer_bytes (config_ s);
  si_sent : mjoin (responses t) = sent t ++ pendingOutput s;
  si_prefix : delivered t `prefix_of` frames_of (received t);
  si_answers : size_of (responses t) <= size_of (delivered t) <= size_of (responses t) + 1;
  si_closed : connection_closed_ s = bool_decide (state_ s = SessionState.Closed)
              /\ close_calls (connection_ s) = (if connection_closed_ s then 1 else 0);
  si_open : live_state (state_ s) -> open_inv s t;
}.

(** Closing drops the promises about the open session and keeps the others. *)
Lemma close_inv s t c poff pend reason more :
  session_inv s t -> live_state (state_ s) -> codec_ok c ->
  0 <= poff <= size_of pend -> size_of pend < two64 ->
  session_inv (s <| codec_ := c |> <| pending_input_ := pend |> <| pending_input_offset_ := poff |>
                 <| state_ := SessionState.Closing |> <| close_reason_ := reason |>)
    (t <| received := received t ++ more |>).
Proof.
  intros [] [Hl1 Hl2] Hc Hp Hlen. split; simpl; try done.
  - etrans; [done|]. apply frames_of_app.
  - destruct si_closed0 as [Hcl ?]. by rewrite bool_decide_false in Hcl.
  - by intros [? _].
Qed.

Lemma beginClose_inv s t reason :
  session_inv s t -> session_inv (beginClose s reason).1 t.
Proof.
  intros Hinv. unfold beginClose. repeat (case_if; [done|]). simpl.
  pose proof (si_codec _ _ Hinv) as Hc. pose proof (si_pending _ _ Hinv) as [Hp1 Hp2].
  assert (live_state (state_ s)) as Hl by done.
  pose proof (close_inv s t _ _ _ reason [] Hinv Hl Hc Hp1 Hp2) as H'.
  destruct s, t. simpl in *. by rewrite app_nil_r in H'.
Qed.

(** The codec's reading of more bytes extends the stream. *)
Lemma stream_extend consumed bs c0 d c fs n :
  feed fresh_codec consumed = (c0, d, size_of consumed) -> feed c0 bs = (c, fs, n) ->
  n = size_of bs ->
  feed fresh_codec (consumed ++ bs) = (c, d ++ fs, size_of (consumed ++ bs)).
Proof. intros H1 H2 ->. by rewrite feed_app, H1, H2, size_of_app. Qed.

Lemma frames_of_stream consumed rest c d :
  feed fresh_codec consumed = (c, d, size_of consumed) ->
  d `prefix_of` frames_of (consumed ++ rest).
Proof.
  intros H. pose proof (frames_of_app consumed rest) as Hp. unfold frames_of at 1 in Hp.
  by rewrite H in Hp.
Qed.

Lemma size_option_list {A} (o : option A) : size_of (option_list o) = if o then 1 else 0.
Proof. by destruct o. Qed.

Lemma waiting_size s t :
  session_inv s t -> size_of (waiting s) = size_of (pending_input_ s) - pending_input_offset_ s
                     /\ pendingInputBytes s = size_of (waiting s).
Proof.
  intros Hinv. destruct (si_pending _ _ Hinv) as [Hp Hl]. unfold waiting, pendingInputBytes.
  assert (size_of (drop (Z.to_nat (pending_input_offset_ s)) (pending_input_ s))
          = size_of (pending_input_ s) - pending_input_offset_ s) as E
    by (unfold size_of in *; rewrite length_drop; lia).
  rewrite E. split; [done|]. rewrite wrap64_small by (unfold is_u64; lia). done.
Qed.

Lemma append_waiting s input :
  0 <= pending_input_offset_ s <= size_of (pending_input_ s) ->
  waiting (appendPendingInput s input) = waiting s ++ input
  /\ appendPendingInput s input
     = s <| pending_input_ := pending_input_ (appendPendingInput s input) |>
         <| pending_input_offset_ := pending_input_offset_ (appendPendingInput s input) |>
  /\ 0 <= pending_input_offset_ (appendPendingInput s input)
       <= size_of (pending_input_ (appendPendingInput s input))
  /\ (size_of (pending_input_ s) < two64 -> size_of (waiting s ++ input) < two64 ->
      size_of (pending_input_ (appendPendingInput s input)) < two64).
Proof.
  intros Hp. unfold appendPendingInput, waiting. destruct (bool_decide (input = [])) eqn:Ei; bool_to_prop.
  { subst. rewrite app_nil_r. split_and!; try done; try lia. by destruct s. }
  destruct (Z.eqb_spec (pending_input_offset_ s) 0) as [E|E]; simpl.
  - rewrite E. simpl. rewrite !size_of_app, !drop_0. pose proof (size_of_nonneg input).
    split_and!; try done; try lia. destruct s. simpl in *. by subst.
  - rewrite drop_0, !size_of_app. pose proof (size_of_nonneg input).
    pose proof (size_of_nonneg (drop (Z.to_nat (pending_input_offset_ s)) (pending_input_ s))).
    split_and!; try done; try lia.
Qed.

Lemma not_live_inv s t more :
  session_inv s t -> ~ live_state (state_ s) -> session_inv s (t <| received := received t ++ more |>).
Proof.
  intros [] Hn. split; simpl; try done. etrans; [done|]. apply frames_of_app.
Qed.

(** Input while a response is pending: it waits, within the limit. *)
Lemma append_inv s t input :
  session_inv s t -> live_state (state_ s) -> state_ s <> SessionState.Reading ->
  size_of (waiting s) + size_of input <= max_input_buffer_bytes (config_ s) ->
  session_inv (appendPendingInput s input) (t <| received := received t ++ input |>).
Proof.
  intros Hinv Hl Hr Hroom. destruct (waiting_size _ _ Hinv) as [Hw _].
  destruct (append_waiting s input (proj1 (si_pending _ _ Hinv))) as (Hwait & Hs & Hp & Hsize).
  assert (input = [] -> appendPendingInput s input = s) as Hnil by (by intros ->).
  set (s' := appendPendingInput s input) in *. clearbody s'.
  destruct (si_open _ _ Hinv Hl) as [(cons & Hrec & Hfeed) Ho2 Ho3 Ho4 Ho5 Hcl Ho6 Ho7 Ho8 Ho9].
  destruct Hinv as [Hc1 Hc2 [Hc3 Hc3'] Hc4 Hc5 Hc6 Hc7 Hc8 _].
  rewrite Hs in *. cbn [pending_input_ pending_input_offset_] in *.
  split; simpl; try done.
  - split; [done|]. apply Hsize; [done|]. rewrite size_of_app. unfold is_u64 in *. lia.
  - etrans; [done|]. apply frames_of_app.
  - intros _. split; simpl; try done.
    + exists cons. split; [|done]. rewrite Hrec, <-app_assoc. f_equal. done.
    + rewrite Hwait, size_of_app. rewrite (at_frame_start_buffered _ (Ho6 Hr)). lia.
    + intros Hw0. rewrite Hwait in Hw0. apply app_eq_nil in Hw0 as [Hw1 Hi].
      pose proof (f_equal pending_input_ (Hnil Hi)) as Hx.
      pose proof (f_equal pending_input_offset_ (Hnil Hi)) as Hy. simpl in Hx, Hy.
      rewrite Hx, Hy. by apply Hcl.
Qed.

Lemma close_early_inv s t input out poff pend :
  session_inv s t -> live_state (state_ s) -> closed_early s input out ->
  0 <= poff <= size_of pend -> size_of pend < two64 ->
  forall more,
  session_inv (out.1 <| pending_input_ := pend |> <| pending_input_offset_ := poff |>)
    (t <| received := received t ++ more |>).
Proof.
  intros Hinv Hl (c & reason & -> & Hc & _) Hp Hlen more.
  exact (close_inv s t c poff pend reason more Hinv Hl Hc Hp Hlen).
Qed.

(** The session after a reading that completed no frame. *)
Lemma read_none_inv s t t' c :
  session_inv s t -> state_ s = SessionState.Reading -> codec_ok c -> next_state_ c <> Error ->
  delivered t' = delivered t -> responses t' = responses t -> sent t' = sent t ->
  bufferedBytes c <= max_input_buffer_bytes (config_ s) ->
  feed fresh_codec (received t') = (c, delivered t, size_of (received t')) ->
  session_inv (s <| codec_ := c |>) t'.
Proof.
  intros Hinv Hr Hok Hne Hd Hrs Hse Hroom Hfeed. assert (live_state (state_ s)) as Hl by (by rewrite Hr).
  destruct (si_open _ _ Hinv Hl) as [_ _ _ Ho4 Ho5 Hcl Ho6 Ho7 Ho8 Ho9].
  pose proof (Ho5 Hr) as Hw.
  destruct Hinv. split; simpl; rewrite ?Hd, ?Hrs, ?Hse; try done.
  - rewrite <-(app_nil_r (received t')). by eapply frames_of_stream.
  - intros _. split; simpl; rewrite ?Hd, ?Hrs; try done.
    + exists (received t'). unfold waiting in *. simpl. by rewrite Hw, app_nil_r.
    + unfold waiting in *. simpl. rewrite Hw. change (size_of (@nil Z)) with 0. lia.
Qed.

(** The session after a reading that delivered a frame; [bs] waits. *)
Lemma read_frame_inv s t t' c f bs pend poff consumed :
  session_inv s t -> state_ s = SessionState.Reading -> at_frame_start c ->
  delivered t' = delivered t ++ [f] -> responses t' = responses t -> sent t' = sent t ->
  0 <= poff <= size_of pend -> size_of pend < two64 -> drop (Z.to_nat poff) pend = bs ->
  (bs = [] -> pend = [] /\ poff = 0) -> size_of bs <= max_input_buffer_bytes (config_ s) ->
  received t' = consumed ++ bs ->
  feed fresh_codec consumed = (c, delivered t', size_of consumed) ->
  session_inv (s <| codec_ := c |> <| state_ := SessionState.Processing |>
                 <| pending_input_ := pend |> <| pending_input_offset_ := poff |>) t'.
Proof.
  intros Hinv Hr Hfs Hd Hrs Hse Hp Hlen Hbs Hcl Hroom Hrec Hfeed.
  assert (live_state (state_ s)) as Hl by (by rewrite Hr).
  destruct (si_open _ _ Hinv Hl) as [_ _ _ Ho4 _ _ _ Ho7 _ Ho9]. pose proof Hfs as (Hok & HnH & _).
  rewrite bool_decide_false in Ho4 by congruence.
  assert (size_of (delivered t') = size_of (responses t') + 1) as Hcount
    by (rewrite Hd, Hrs, size_of_app; unfold size_of at 2; simpl; lia).
  destruct Hinv. split; simpl; rewrite ?Hse; try done.
  - by rewrite Hrs.
  - rewrite Hrec. by eapply frames_of_stream.
  - lia.
  - destruct si_closed0 as [Hcl' ?]. by rewrite Hr in Hcl'.
  - intros _. split; simpl; try done.
    + exists consumed. unfold waiting. simpl. by rewrite Hbs.
    + by rewrite HnH.
    + unfold waiting. simpl. rewrite Hbs, (at_frame_start_buffered c) by done. lia.
    + unfold waiting. simpl. by rewrite Hbs.
    + intros _. apply Ho7. congruence.
Qed.

Lemma onInput_reading_inv s t input :
  session_inv s t -> state_ s = SessionState.Reading -> size_of input < two64 ->
  exists s' r, consumeReadingBytes s input true = Some (s', r)
    /\ session_inv s' (t <| received := received t ++ input |>
                         <| delivered := delivered t ++ option_list (request r) |>).
Proof.
  intros Hinv Hr Hlen. assert (live_state (state_ s)) as Hl by (by rewrite Hr).
  destruct (si_open _ _ Hinv Hl) as [(cons & Hrec & Hfeed) Ho2 Ho3 Ho4 Ho5 Hcl Ho6 Ho7 Ho8 Ho9].
  destruct (waiting_size _ _ Hinv) as [Hw1 Hw2]. pose proof (Ho5 Hr) as Hw.
  rewrite Hw in *. change (size_of (@nil Z)) with 0 in *. rewrite app_nil_r in Hrec.
  destruct (si_config _ _ Hinv) as (_ & Hmax & _).
  destruct (consumeReadingBytes_spec true s input) as (s' & r & E & Hout); try done.
  { by apply Hinv. }
  { lia. }
  exists s', r. split; [done|]. destruct Hout as [Hearly|Hread].
  - pose proof (close_early_inv s t input _ _ _ Hinv Hl Hearly (proj1 (si_pending _ _ Hinv))
      (proj2 (si_pending _ _ Hinv)) input) as H'.
    destruct Hearly as (c & reason & Hs' & _ & Hreq & _). simpl in *. rewrite Hreq. simpl.
    rewrite app_nil_r. subst s'. by destruct s.
  - destruct Hread as (c & n & Hn & Hf & Hok & Hne & Hroom & Hcase).
    pose proof (stream_extend cons (take (Z.to_nat n) input) _ _ _ _ _ Hfeed Hf
      ltac:(unfold size_of in *; rewrite length_take; lia)) as Hstream.
    destruct Hcase as [(Hreq & _ & -> & _ & ->)|(Hreq & _ & Hfs & -> & _ & Hrest)].
    + apply (read_none_inv s t); try done; rewrite Hreq in *; simpl in *; rewrite ?app_nil_r in *; try done.
      rewrite take_ge in Hstream by (unfold size_of; lia). by rewrite Hrec.
    + destruct (request r) as [f|]; [|by destruct Hreq]. simpl in *.
      set (s1 := s <| codec_ := c |> <| state_ := SessionState.Processing |>) in *.
      set (rest := drop (Z.to_nat n) input) in *. pose proof (si_pending _ _ Hinv) as [Hpb Hpl].
      destruct (append_waiting s1 rest Hpb) as (Hwait & Hs' & Hp & Hsize). rewrite Hs'.
      assert (waiting s1 = []) as Hws by exact Hw. rewrite Hws in *. simpl in Hwait, Hsize.
      assert (size_of rest < two64) as Hrl by (unfold is_u64 in Hmax; lia).
      eapply (read_frame_inv s t _ c f rest _ _ (cons ++ take (Z.to_nat n) input));
        [done|done|done|done|done|done|exact Hp|exact (Hsize Hpl Hrl)|exact Hwait| |done| |exact Hstream].
      { intros ->. by apply Hcl. }
      simpl. unfold rest. by rewrite Hrec, <-app_assoc, take_drop.
Qed.

Lemma onInput_inv s t input :
  session_inv s t -> size_of input < two64 ->
  exists s' r, onInput s input = Some (s', r)
    /\ session_inv s' (t <| received := received t ++ input |>
                         <| delivered := delivered t ++ option_list (request r) |>).
Proof.
  intros Hinv Hlen. unfold onInput.
  assert (forall (s' : Session) r more, request r = None ->
    session_inv s' (t <| received := received t ++ more |>) ->
    session_inv s' (t <| received := received t ++ more |>
      <| delivered := delivered t ++ option_list (request r) |>)) as Hnone.
  { intros s' r more -> H. destruct t. simpl in *. by rewrite app_nil_r. }
  destruct (bool_decide (state_ s = SessionState.Closing)) eqn:E1; bool_to_prop.
  { do 2 eexists. split; [done|]. apply Hnone; [done|]. apply not_live_inv; [done|].
    by intros [? _]. }
  destruct (bool_decide (state_ s = SessionState.Closed)) eqn:E2; bool_to_prop.
  { do 2 eexists. split; [done|]. apply Hnone; [done|]. apply not_live_inv; [done|].
    by intros [_ ?]. }
  assert (live_state (state_ s)) as Hl by done.
  destruct (bool_decide (input = [])) eqn:E3; bool_to_prop.
  { subst. do 2 eexists. split; [done|]. apply Hnone; [done|]. destruct t. simpl. by rewrite app_nil_r. }
  destruct (bool_decide (state_ s = SessionState.Reading)) eqn:E4; bool_to_prop; cbn [negb].
  { by apply onInput_reading_inv. }
  destruct (si_open _ _ Hinv Hl) as [_ _ Ho3 _ _ _ Ho6 _ _ _]. destruct (waiting_size _ _ Hinv) as [Hw1 Hw2].
  rewrite (at_frame_start_buffered _ (Ho6 E4)) in Ho3. destruct (si_config _ _ Hinv) as (_ & Hmax & _).
  pose proof (size_of_nonneg (waiting s)). unfold is_u64 in Hmax.
  assert (max_input_buffer_bytes (config_ s) ⊖ bufferedInputBytes s
          = max_input_buffer_bytes (config_ s) - size_of (waiting s)) as ->.
  { unfold bufferedInputBytes. rewrite (at_frame_start_buffered _ (Ho6 E4)), Hw2.
    rewrite (wrap64_small (0 + _)) by (unfold is_u64; lia). rewrite wrap64_small by (unfold is_u64; lia). lia. }
  destruct (Z.ltb_spec (max_input_buffer_bytes (config_ s) - size_of (waiting s)) (size_of input)).
  - do 2 eexists. split; [done|]. apply Hnone; [done|]. unfold beginClose.
    rewrite !bool_decide_false by done. simpl. pose proof (si_pending _ _ Hinv) as [Hp1 Hp2].
    pose proof (close_inv s t _ _ _ SessionCloseReason.InputLimitExceeded input Hinv Hl
      (si_codec _ _ Hinv) Hp1 Hp2) as H'. by destruct s.
  - do 2 eexists. split; [done|]. apply Hnone; [done|]. apply append_inv; [done..|lia].
Qed.

(** ** Responses *)

Lemma pendingOutput_size s t :
  session_inv s t -> remainingOutputBytes s = size_of (output_ s) - output_offset_ s
                     /\ size_of (pendingOutput s) = size_of (output_ s) - output_offset_ s.
Proof.
  intros Hinv. destruct (si_output _ _ Hinv) as [Ho Hm]. destruct (si_config _ _ Hinv) as (_ & _ & Hx).
  unfold remainingOutputBytes, pendingOutput, is_u64 in *. split.
  - rewrite wrap64_small by (unfold is_u64; lia). done.
  - unfold size_of in *. rewrite length_drop. lia.
Qed.

Lemma queueResponse_inv s t token response :
  session_inv s t ->
  let '(s', st) := queueResponse s token response in
  session_inv s' (if bool_decide (st = SessionStatus.Ok)
                  then t <| responses := responses t ++ [response] |> else t).
Proof.
  intros Hinv. unfold queueResponse. case_if; [done|]. repeat (case_if; [done|]).
  assert (state_ s = SessionState.Processing) as Es by done.
  case_if; [by apply beginClose_inv|]. simpl.
  assert (live_state (state_ s)) as Hl by (by rewrite Es).
  destruct (si_open _ _ Hinv Hl) as [Ho1 Ho2 Ho3 Ho4 Ho5 Hcl Ho6 Ho7 _ Ho9].
  rewrite Es in *. rewrite bool_decide_true in Ho4 by done. destruct (Ho7 ltac:(done)) as [Hout Hoff].
  assert (size_of (responses t ++ [response]) = size_of (responses t) + 1) as Hsz
    by (rewrite size_of_app; done).
  assert (0 < size_of response) as Hpos by (destruct response; [done|unfold size_of; simpl; lia]).
  destruct Hinv. split; simpl; try done.
  - lia.
  - rewrite join_app, si_sent0. unfold pendingOutput. rewrite Hout, drop_nil, app_nil_r.
    simpl. by rewrite drop_0, app_nil_r.
  - rewrite Hsz. lia.
  - by rewrite Es in si_closed0.
  - intros _. split; simpl; try done; rewrite ?Hsz; try lia.
    intros _. by apply Ho6.
Qed.

(** The waiting input is decoded when the response has been written: the
    session that starts to read it has, apart from that input, the invariant
    of a reading session. *)
Lemma resume_base s t sent' :
  session_inv s t -> state_ s = SessionState.Writing -> close_after_write_ s = false ->
  mjoin (responses t) = sent' ->
  exists consumed, received t = consumed ++ waiting s
    /\ feed fresh_codec consumed = (codec_ s, delivered t, size_of consumed)
    /\ session_inv (s <| output_ := [] |> <| output_offset_ := 0 |> <| state_ := SessionState.Reading |>
                      <| pending_input_ := [] |> <| pending_input_offset_ := 0 |>)
         (mkTrace consumed (delivered t) (responses t) sent').
Proof.
  intros Hinv Hw Hca Hsent. assert (live_state (state_ s)) as Hl by (by rewrite Hw).
  destruct (si_open _ _ Hinv Hl) as [(cons & Hrec & Hfeed) Ho2 Ho3 Ho4 Ho5 Hcl Ho6 Ho7 Ho8 Ho9].
  exists cons. split_and!; [done|done|]. pose proof (size_of_nonneg (waiting s)).
  destruct Hinv. destruct si_config0 as (? & [? ?] & [? ?]). split; simpl; try done.
  - unfold pendingOutput. simpl. by rewrite Hsent, app_nil_r.
  - rewrite <-(app_nil_r cons). by eapply frames_of_stream.
  - destruct si_closed0 as [Hc ?]. by rewrite Hw in Hc.
  - intros _. split; simpl; try done.
    + exists cons. unfold waiting. simpl. by rewrite app_nil_r.
    + unfold waiting. simpl. change (size_of (@nil Z)) with 0. lia.
    + by rewrite Hw in Ho4.
Qed.

Lemma clear_waiting s :
  0 <= pending_input_offset_ s <= size_of (pending_input_ s) ->
  let s' := clearConsumedPendingInput s in
  waiting s' = waiting s
  /\ s' = s <| pending_input_ := pending_input_ s' |>
            <| pending_input_offset_ := pending_input_offset_ s' |>
  /\ 0 <= pending_input_offset_ s' <= size_of (pending_input_ s')
  /\ size_of (pending_input_ s') <= size_of (pending_input_ s)
  /\ (waiting s' = [] -> pending_input_ s' = [] /\ pending_input_offset_ s' = 0).
Proof.
  intros Hp. unfold clearConsumedPendingInput, waiting. cbn zeta.
  destruct (Z.eqb_spec (pending_input_offset_ s) (size_of (pending_input_ s))) as [E|E]; simpl.
  - rewrite E. change (size_of (@nil Z)) with 0. pose proof (size_of_nonneg (pending_input_ s)).
    rewrite drop_ge by (unfold size_of; lia). conj_lia.
  - split_and!; try done; try lia; [by destruct s|..]; intros Hd%(f_equal length);
      rewrite length_drop in Hd; unfold size_of in *; simpl in Hd; lia.
Qed.

Lemma resume_inv s t sent' :
  session_inv s t -> state_ s = SessionState.Writing -> close_after_write_ s = false ->
  mjoin (responses t) = sent' ->
  exists s' r, consumePendingInput (s <| output_ := [] |> <| output_offset_ := 0 |>
                                      <| state_ := SessionState.Reading |>) = Some (s', r)
    /\ session_inv s' (t <| sent := sent' |>
                         <| delivered := delivered t ++ option_list (request r) |>).
Proof.
  intros Hinv Hwr Hca Hsent. destruct (resume_base s t sent' Hinv Hwr Hca Hsent) as (cons & Hrec & Hfeed & Hbase).
  set (s1 := s <| output_ := [] |> <| output_offset_ := 0 |> <| state_ := SessionState.Reading |>) in *.
  set (sB := s1 <| pending_input_ := [] |> <| pending_input_offset_ := 0 |>) in *.
  assert (live_state (state_ s)) as Hl by (by rewrite Hwr).
  destruct (si_open _ _ Hinv Hl) as [_ Ho2 Ho3 _ _ Hcl Ho6 _ _ _].
  destruct (waiting_size _ _ Hinv) as [Hw1 Hw2]. destruct (si_config _ _ Hinv) as (_ & Hmax & _).
  pose proof (at_frame_start_buffered _ (Ho6 ltac:(congruence))) as Hb0. rewrite Hb0 in Ho3.
  pose proof (si_pending _ _ Hinv) as [Hp1 Hp2]. pose proof (size_of_nonneg (waiting s)).
  unfold consumePendingInput. change (state_ s1) with SessionState.Reading.
  change (pendingInputBytes s1) with (pendingInputBytes s). rewrite bool_decide_true, Hw2 by done.
  cbn [negb orb]. change (drop _ (pending_input_ s1)) with (waiting s).
  destruct (Z.eqb_spec (size_of (waiting s)) 0) as [Hz|Hz].
  { do 2 eexists. split; [done|]. apply size_of_zero in Hz. destruct (Hcl Hz) as [Hc1 Hc2].
    rewrite Hz, app_nil_r in Hrec. simpl. rewrite app_nil_r.
    unfold sB, s1 in Hbase. destruct s, t. simpl in *. by subst. }
  destruct (consumeReadingBytes_spec false s1 (waiting s)) as (s' & r & E & Hout); try done.
  { by apply Hinv. }
  { unfold is_u64 in *. lia. }
  rewrite E. do 2 eexists. split; [done|]. cbn beta iota zeta.
  destruct Hout as [(c & reason & Hs' & Hc & Hreq & Hacc & _)|Hread].
  - simpl in Hs', Hreq, Hacc. rewrite Hreq. simpl. rewrite app_nil_r.
    assert (pending_input_offset_ s' = pending_input_offset_ s /\ pending_input_ s' = pending_input_ s)
      as [Ep1 Ep2] by (by subst s').
    rewrite Ep1, wrap64_small by (unfold is_u64; lia).
    match goal with |- session_inv (clearConsumedPendingInput ?x) _ => set (s2 := x) end.
    destruct (clear_waiting s2) as (_ & -> & Hq1 & Hq2 & _); [simpl; rewrite Ep2; lia|].
    pose proof (close_inv sB _ c _ _ reason (waiting s) Hbase ltac:(done) Hc Hq1) as Hclose.
    simpl in Hclose. rewrite <-Hrec in Hclose.
    set (pend := pending_input_ (clearConsumedPendingInput s2)) in *. clearbody pend.
    set (poff := pending_input_offset_ (clearConsumedPendingInput s2)) in *. clearbody poff.
    unfold s2. subst s'. destruct s, t. simpl in *. apply Hclose. lia.
  - destruct Hread as (c & n & Hn & Hf & Hok & Hne & Hroom & Hcase).
    pose proof (stream_extend cons (take (Z.to_nat n) (waiting s)) _ _ _ _ _ Hfeed Hf
      ltac:(unfold size_of in *; rewrite length_take; lia)) as Hstream.
    destruct Hcase as [(Hreq & _ & Hn' & -> & ->)|(Hreq & _ & Hfs & -> & ->)].
    + rewrite Hreq in *. simpl option_list in *. rewrite app_nil_r in *. simpl.
      rewrite wrap64_small by (unfold is_u64; lia).
      rewrite take_ge in Hstream by (unfold size_of in *; lia).
      unfold clearConsumedPendingInput. simpl. rewrite (proj2 (Z.eqb_eq _ _)) by lia.
      apply (read_none_inv sB (mkTrace cons (delivered t) (responses t) sent')); simpl; try done.
      * change (codec_ s1) with (codec_ s) in Hroom. rewrite Hb0 in Hroom. lia.
      * by rewrite Hrec.
    + destruct (request r) as [f|]; [|by destruct Hreq]. simpl option_list in *. simpl.
      rewrite wrap64_small by (unfold is_u64; lia).
      match goal with |- session_inv (clearConsumedPendingInput ?x) _ => set (s2 := x) end.
      assert (waiting s2 = drop (Z.to_nat n) (waiting s)) as Hws.
      { unfold s2, waiting. simpl. rewrite drop_drop. f_equal. lia. }
      destruct (clear_waiting s2) as (Hwt & -> & Hq1 & Hq2 & Hq3); [simpl; lia|].
      rewrite Hws in Hwt. unfold waiting at 1 in Hwt. unfold waiting at 1 in Hq3.
      eapply (read_frame_inv sB (mkTrace cons (delivered t) (responses t) sent') _ c f
        (drop (Z.to_nat n) (waiting s)) _ _ (cons ++ take (Z.to_nat n) (waiting s)));
        [done|done|done|done|done|done|exact Hq1|exact (Z.le_lt_trans _ _ _ Hq2 Hp2)|exact Hwt| | | |exact Hstream].
      * intros Hd. apply Hq3. exact (eq_trans Hwt Hd).
      * unfold size_of in *. simpl. rewrite length_drop. lia.
      * simpl. by rewrite Hrec, <-app_assoc, take_drop.
Qed.

Lemma close_written_inv s t sent' reason :
  session_inv s t -> live_state (state_ s) -> mjoin (responses t) = sent' ->
  session_inv (s <| output_ := [] |> <| output_offset_ := 0 |>
                 <| state_ := SessionState.Closing |> <| close_reason_ := reason |>)
    (t <| sent := sent' |>).
Proof.
  intros [] [Hl1 Hl2] Hs. split; simpl; try done.
  - destruct si_config0 as (_ & _ & [? _]). change (size_of (@nil Z)) with 0. lia.
  - unfold pendingOutput. simpl. by rewrite Hs, app_nil_r.
  - destruct si_closed0 as [Hcl ?]. by rewrite bool_decide_false in Hcl.
  - by intros [? _].
Qed.

Lemma onBytesWritten_inv s t n :
  session_inv s t -> is_u64 n ->
  exists s' r, onBytesWritten s n = Some (s', r)
    /\ session_inv s'
         (t <| sent := sent t ++ (if (bool_decide (state_ s = SessionState.Writing)
                                      && (n <=? remainingOutputBytes s))%bool
                                  then take (Z.to_nat n) (pendingOutput s) else []) |>
            <| delivered := delivered t ++ option_list (request r) |>).
Proof.
  intros Hinv Hn. unfold onBytesWritten.
  assert (forall s' r, request r = None -> session_inv s' t ->
    session_inv s' (t <| sent := sent t ++ [] |>
      <| delivered := delivered t ++ option_list (request r) |>)) as Hsame.
  { intros s' r -> H. destruct t. simpl in *. by rewrite !app_nil_r. }
  destruct (bool_decide (state_ s = SessionState.Closing)) eqn:E1; bool_to_prop.
  { rewrite E1. do 2 eexists. split; [done|]. by apply Hsame. }
  destruct (bool_decide (state_ s = SessionState.Closed)) eqn:E2; bool_to_prop.
  { rewrite E2. do 2 eexists. split; [done|]. by apply Hsame. }
  destruct (bool_decide (state_ s = SessionState.Writing)) eqn:E3; bool_to_prop; cbn [negb andb].
  2: { do 2 eexists. split; [done|]. by apply Hsame. }
  destruct (pendingOutput_size _ _ Hinv) as [Hrem Hps]. rewrite Hrem.
  destruct (Z.ltb_spec (size_of (output_ s) - output_offset_ s) n) as [Hlt|Hge].
  { rewrite (proj2 (Z.leb_gt _ _)) by lia. do 2 eexists. split; [done|].
    apply Hsame; [done|]. by apply beginClose_inv. }
  rewrite (proj2 (Z.leb_le _ _)) by lia.
  destruct (si_output _ _ Hinv) as [Ho1 Ho2]. destruct (si_config _ _ Hinv) as (_ & _ & Hmax).
  unfold is_u64 in *. rewrite (wrap64_small (output_offset_ s + n)) by (unfold is_u64; lia).
  unfold remainingOutputBytes at 1. simpl.
  rewrite (wrap64_small (size_of (output_ s) - _)) by (unfold is_u64; lia).
  set (bytes := take (Z.to_nat n) (pendingOutput s)).
  assert (pendingOutput (s <| output_offset_ := output_offset_ s + n |>)
          = drop (Z.to_nat n) (pendingOutput s)) as Hdrop.
  { unfold pendingOutput. simpl. rewrite drop_drop. f_equal. lia. }
  assert (live_state (state_ s)) as Hl by (by rewrite E3).
  destruct (Z.eqb_spec (size_of (output_ s) - (output_offset_ s + n)) 0) as [Hz|Hz]; cbn [negb].
  - assert (mjoin (responses t) = sent t ++ bytes) as Hall.
    { rewrite (si_sent _ _ Hinv). unfold bytes. by rewrite take_ge by (unfold size_of in *; lia). }
    destruct (close_after_write_ s || peer_read_closed_ s)%bool eqn:Ec; simpl.
    + do 2 eexists. split; [done|]. simpl. rewrite app_nil_r. unfold beginClose. simpl.
      rewrite E3, (bool_decide_false (SessionState.Writing = SessionState.Closed)),
        (bool_decide_false (SessionState.Writing = SessionState.Closing)) by done.
      rewrite bool_decide_false.
      { pose proof (close_written_inv s t (sent t ++ bytes)
          (if close_after_write_ s then close_reason_ s else SessionCloseReason.PeerClosed)
          Hinv Hl Hall) as H'. by destruct s, t. }
      destruct (close_after_write_ s) eqn:Eca; [|done]. by apply (oi_reason _ _ (si_open _ _ Hinv Hl)).
    + apply orb_false_iff in Ec as [Ec1 Ec2].
      destruct (resume_inv s t (sent t ++ bytes) Hinv E3 Ec1 Hall) as (s' & r & E & Hinv').
      match goal with |- context [consumePendingInput ?x] =>
        replace x with (s <| output_ := [] |> <| output_offset_ := 0 |>
          <| state_ := SessionState.Reading |>) by (by destruct s) end.
      rewrite E. do 2 eexists. split; [done|]. by destruct (bool_decide _).
  - do 2 eexists. split; [done|]. simpl. rewrite app_nil_r.
    destruct (si_open _ _ Hinv Hl). destruct Hinv. split; simpl; try done; try lia.
    + rewrite Hdrop, <-app_assoc. unfold bytes. by rewrite take_drop.
    + intros _. split; simpl; try done. intros _. lia.
Qed.

(** ** The other operations *)

(** Fields that no promise mentions. *)
Lemma timers_inv s t timers : session_inv s t -> session_inv (s <| timers_ := timers |>) t.
Proof. intros []. split; try done. intros Hl. destruct (si_open0 Hl). by split. Qed.

Lemma closeAfterWrite_inv s t reason :
  session_inv s t -> session_inv (closeAfterWrite s reason).1 t.
Proof.
  intros Hinv. unfold closeAfterWrite. repeat (case_if; [done|]). simpl.
  destruct Hinv. split; try done. intros Hl. destruct (si_open0 Hl). by split.
Qed.

Lemma peer_closed_inv s t reason :
  session_inv s t -> reason <> SessionCloseReason.None_ ->
  session_inv (s <| peer_read_closed_ := true |> <| close_reason_ := reason |>) t.
Proof. intros [] Hr. split; try done. intros Hl. destruct (si_open0 Hl). by split. Qed.

Lemma peer_flag_inv s t : session_inv s t -> session_inv (s <| peer_read_closed_ := true |>) t.
Proof. intros []. split; try done. intros Hl. destruct (si_open0 Hl). by split. Qed.

Lemma onPeerReadClosed_inv s t : session_inv s t -> session_inv (onPeerReadClosed s).1 t.
Proof.
  intros Hinv. unfold onPeerReadClosed. repeat (case_if; [done|]). cbn zeta.
  case_if; [by apply peer_closed_inv|].
  case_if; simpl; by apply beginClose_inv, peer_flag_inv.
Qed.

Lemma finalizeClose_inv s t : session_inv s t -> session_inv (finalizeClose s).1 t.
Proof.
  intros Hinv. unfold finalizeClose. case_if; [done|]. cbn zeta.
  set (s1 := if negb _ then (beginClose s _).1 else s).
  assert (session_inv s1 t /\ state_ s1 = SessionState.Closing) as [Hinv1 Hs1].
  { unfold s1. destruct (bool_decide (state_ s = SessionState.Closing)) eqn:E; bool_to_prop; simpl; [done|].
    split; [by apply beginClose_inv|]. unfold beginClose. by rewrite !bool_decide_false. }
  clearbody s1. destruct (si_closed _ _ Hinv1) as [Hc1 Hc2]. rewrite Hs1 in Hc1.
  rewrite bool_decide_false in Hc1 by done. rewrite Hc1 in *. simpl.
  destruct Hinv1. split; simpl; try done; [|by intros [_ ?]].
  rewrite Hc2. done.
Qed.

Definition empty_trace : trace := mkTrace [] [] [] [].

Lemma make_session_inv token config conn s :
  make_session token config conn = inl s ->
  is_u64 (max_input_buffer_bytes config) -> is_u64 (max_output_buffer_bytes config) ->
  (forall c, conn = Some c -> close_calls c = 0) ->
  session_inv s empty_trace.
Proof.
  unfold make_session. destruct conn as [c|]; [|done]. case_if; [done|]. intros [= <-] Hi Ho Hc.
  unfold is_u64 in *. pose proof fresh_codec_ok. unfold validConfig in *.
  split; simpl; try done; try lia.
  - change (size_of (@nil Z)) with 0. lia.
  - rewrite (Hc c) by done. done.
  - intros _. split; simpl; try done; [by exists []|].
    unfold waiting. simpl. change (bufferedBytes fresh_codec) with 0. change (size_of (@nil Z)) with 0. lia.
Qed.

Lemma session_step_inv s t op :
  session_inv s t -> op_ok op ->
  exists s' t', session_step s t op = Some (s', t') /\ session_inv s' t'.
Proof.
  intros Hinv Hop. destruct op as [bs|tok bs|n|r| |r| |k i|]; simpl in *.
  - destruct (onInput_inv s t bs Hinv Hop) as (s' & r & -> & H'). by do 2 eexists.
  - pose proof (queueResponse_inv s t tok bs Hinv) as H'.
    destruct (queueResponse s tok bs) as [s' st]. destruct st; by do 2 eexists.
  - destruct (onBytesWritten_inv s t n Hinv Hop) as (s' & r & -> & H'). by do 2 eexists.
  - do 2 eexists. split; [done|]. by apply closeAfterWrite_inv.
  - do 2 eexists. split; [done|]. by apply onPeerReadClosed_inv.
  - do 2 eexists. split; [done|]. by apply beginClose_inv.
  - do 2 eexists. split; [done|]. by apply finalizeClose_inv.
  - do 2 eexists. split; [done|]. by apply timers_inv.
  - do 2 eexists. split; [done|]. by apply timers_inv.
Qed.

Lemma session_run_inv ops s t :
  session_inv s t -> Forall op_ok ops ->
  exists s' t', session_run s t ops = Some (s', t') /\ session_inv s' t'.
Proof.
  intros Hinv Hf. revert s t Hinv. induction Hf as [|op ops Hop Hops IH]; simpl; intros s t Hinv.
  - by do 2 eexists.
  - destruct (session_step_inv s t op Hinv Hop) as (s' & t' & -> & Hinv'). by apply IH.
Qed.

(** *** The configuration never changes *)

Definition out_session (o : Session * SessionResult + Session * bytes_t * SessionResult * Z) : Session :=
  match o with inl (s, _) => s | inr (s, _, _, _) => s end.

Lemma beginClose_config s r : config_ (beginClose s r).1 = config_ s.
Proof. unfold beginClose. by repeat case_match. Qed.

Lemma reading_loop_config fuel s rest store r n out :
  reading_loop fuel s rest store r n = Some out -> config_ (out_session out) = config_ s.
Proof.
  revert s rest r n. induction fuel as [|fuel IH]; intros s rest r n; cbn [reading_loop];
    destruct (_ && _)%bool; try done; try (by intros [= <-]).
  destruct (reading_pass s rest store r n) as [o|] eqn:E; [|done].
  assert (config_ (out_session o) = config_ s) as Hp.
  { revert E. unfold reading_pass, close_with. destruct (_ && _)%bool;
      [intros [= <-]; simpl; apply beginClose_config|].
    destruct (consume _ _) as [[c cr]|]; [|done].
    repeat case_match; intros [= <-]; simpl; rewrite ?beginClose_config; done. }
  destruct o as [[s1 r1]|[[[s1 rest1] r1] n1]]; [by intros [= <-]|].
  intros Ho. rewrite (IH _ _ _ _ Ho). done.
Qed.

Lemma consumeReadingBytes_config s input store s' r :
  consumeReadingBytes s input store = Some (s', r) -> config_ s' = config_ s.
Proof.
  unfold consumeReadingBytes, close_with.
  destruct (reading_loop _ _ _ _ _ _) as [o|] eqn:E; [|done]. apply reading_loop_config in E.
  destruct o as [[s1 r1]|[[[s1 rest] r1] n]]; simpl in E.
  - by intros [= <- <-].
  - repeat case_match; intros [= <- <-]; rewrite ?beginClose_config; try done.
    unfold appendPendingInput. by repeat case_match.
Qed.

Lemma session_step_config s t op s' t' :
  session_step s t op = Some (s', t') -> config_ s' = config_ s.
Proof.
  destruct op; simpl.
  - unfold onInput. destruct (consumeReadingBytes s bs true) as [[s1 r1]|] eqn:E;
      [apply consumeReadingBytes_config in E|];
      repeat case_match; intros [= <- <-]; simplify_eq; rewrite ?beginClose_config; try done;
      unfold appendPendingInput; by repeat case_match.
  - unfold queueResponse. repeat case_match; intros [= <- <-]; simplify_eq;
      rewrite ?beginClose_config; done.
  - unfold onBytesWritten, consumePendingInput, clearConsumedPendingInput.
    repeat case_match; intros [= <- <-]; simplify_eq; rewrite ?beginClose_config; try done;
      match goal with H : consumeReadingBytes _ _ _ = Some _ |- _ =>
        by apply consumeReadingBytes_config in H end.
  - unfold closeAfterWrite. intros [= <- <-]. by repeat case_match.
  - unfold onPeerReadClosed. intros [= <- <-].
    repeat case_match; simpl; rewrite ?beginClose_config; done.
  - intros [= <- <-]. apply beginClose_config.
  - unfold finalizeClose. intros [= <- <-].
    repeat case_match; simpl; rewrite ?beginClose_config; done.
  - by intros [= <- <-].
  - by intros [= <- <-].
Qed.

Lemma session_run_config ops s t s' t' :
  session_run s t ops = Some (s', t') -> config_ s' = config_ s.
Proof.
  revert s t. induction ops as [|op ops IH]; simpl; intros s t; [by intros [= <- <-]|].
  destruct (session_step s t op) as [[s1 t1]|] eqn:E; [|done]. intros H.
  rewrite (IH _ _ H). by apply (session_step_config _ _ _ _ _ E).
Qed.

(** ** Claims *)

Section Runs.
Context (token : ConnectionToken) (config : SessionConfig) (conn : Connection) (s : Session).
Context (Hmake : make_session token config (Some conn) = inl s).
Context (Hin : is_u64 (max_input_buffer_bytes config)).
Context (Hout : is_u64 (max_output_buffer_bytes config)).
Context (Hconn : close_calls conn = 0).

Lemma reachable_inv ops :
  Forall op_ok ops ->
  exists s' t, session_run s empty_trace ops = Some (s', t) /\ session_inv s' t
               /\ config_ s' = config.
Proof.
  intros Hops. assert (session_inv s empty_trace) as Hinv.
  { eapply make_session_inv; [exact Hmake|done|done|]. by intros c [= <-]. }
  destruct (session_run_inv ops s empty_trace Hinv Hops) as (s' & t & E & H').
  exists s', t. split_and!; [done|done|]. rewrite (session_run_config _ _ _ _ _ E).
  revert Hmake. unfold make_session. case_if; [done|]. by intros [= <-].
Qed.

(** C3. A session hands out the requests of the byte stream, one at a time:
    whatever the segmentation and the interleaving with responses, writes,
    timers and closes, every operation returns, the requests delivered are the
    first frames of the bytes received, in order, without loss or duplication;
    when the session is reading they are all of the complete frames; and at
    most one request is unanswered, exactly one while the session processes. *)
Theorem session_delivers_stream ops :
  Forall op_ok ops ->
  exists s' t, session_run s empty_trace ops = Some (s', t)
    /\ delivered t `prefix_of` frames_of (received t)
    /\ (state_ s' = SessionState.Reading -> delivered t = frames_of (received t))
    /\ size_of (responses t) <= size_of (delivered t) <= size_of (responses t) + 1
    /\ (state_ s' = SessionState.Processing -> size_of (delivered t) = size_of (responses t) + 1).
Proof.
  intros Hops. destruct (reachable_inv ops Hops) as (s' & t & E & Hinv & _).
  exists s', t. split; [done|]. split; [apply Hinv|]. split; [|split; [apply Hinv|]].
  - intros Hr. destruct (si_open _ _ Hinv) as [(cons & Hrec & Hfeed) _ _ _ Hw _ _ _ _ _];
      [by rewrite Hr|].
    rewrite (Hw Hr), app_nil_r in Hrec. unfold frames_of. by rewrite Hrec, Hfeed.
  - intros Hp. pose proof (oi_in_flight _ _ (si_open _ _ Hinv ltac:(by rewrite Hp))) as Hc.
    by rewrite Hp in Hc.
Qed.

(** C4. Buffers are bounded and the output is faithful: while the session is
    open the input it holds (decoder and waiting bytes) never exceeds the
    configured maximum, the output never exceeds its maximum, none of the
    subtractions wraps around, and the bytes written followed by the pending
    output are exactly the accepted responses in order. *)
Theorem session_buffers_bounded ops :
  Forall op_ok ops ->
  exists s' t, session_run s empty_trace ops = Some (s', t)
    /\ (live_state (state_ s') ->
        bufferedInputBytes s' = bufferedBytes (codec_ s') + size_of (waiting s')
        /\ bufferedInputBytes s' <= max_input_buffer_bytes config)
    /\ remainingOutputBytes s' = size_of (pendingOutput s')
    /\ remainingOutputBytes s' <= max_output_buffer_bytes config
    /\ mjoin (responses t) = sent t ++ pendingOutput s'.
Proof.
  intros Hops. destruct (reachable_inv ops Hops) as (s' & t & E & Hinv & Hcfg).
  exists s', t. split; [done|]. rewrite <-Hcfg.
  destruct (pendingOutput_size _ _ Hinv) as [-> ->]. destruct (waiting_size _ _ Hinv) as [_ Hw].
  destruct (si_output _ _ Hinv). split_and!; [|done|lia|apply Hinv].
  intros Hl. pose proof (oi_room _ _ (si_open _ _ Hinv Hl)) as Hr.
  destruct (si_config _ _ Hinv) as (_ & [_ Hm] & _).
  destruct (bufferedBytes_raw _ (si_codec _ _ Hinv)) as [_ Hb]. pose proof (size_of_nonneg (waiting s')).
  unfold bufferedInputBytes. rewrite Hw, wrap64_small by (unfold is_u64; lia). done.
Qed.

(** The connection is closed exactly once: not before the session is
    [Closed], once when it is, and after the destructor exactly once whatever
    happened before. *)
Theorem session_closes_once ops :
  Forall op_ok ops ->
  exists s' t, session_run s empty_trace ops = Some (s', t)
    /\ close_calls (connection_ s') = (if bool_decide (state_ s' = SessionState.Closed) then 1 else 0)
    /\ close_calls (connection_ (destroy s')) = 1.
Proof.
  intros Hops. destruct (reachable_inv ops Hops) as (s' & t & E & Hinv & _).
  exists s', t. split; [done|]. destruct (si_closed _ _ Hinv) as [Hc1 Hc2]. rewrite <-Hc1.
  split; [done|]. unfold destroy. destruct (connection_closed_ s'); simpl; [done|].
  by rewrite Hc2.
Qed.
End Runs.

Definition sample_config : SessionConfig := mkSessionConfig 1048576 65536 1048580 65536 1048580.
Definition sample_token : ConnectionToken := mkToken 0 7 1.
Definition sample_session : Session :=
  mkSession sample_token sample_config (mkConnection 7 0) fresh_codec [] 0 [] 0 no_timers
    SessionState.Reading SessionCloseReason.None_ false false false.

(** Two pipelined requests, one answered in two writes. *)
Definition sample_session_ops : list session_op :=
  [Input [0; 0; 0; 1; 65; 0; 0]; Input [0; 1; 66]; Respond sample_token [1; 2; 3];
   Written 2; Written 1].

Lemma sample_ops_ok : Forall op_ok sample_session_ops.
Proof. repeat constructor; done. Qed.

Lemma session_delivers_stream_witness :
  exists s' t, session_run sample_session empty_trace sample_session_ops = Some (s', t)
    /\ delivered t = [[65]; [66]] /\ state_ s' = SessionState.Processing
    /\ size_of (delivered t) = size_of (responses t) + 1.
Proof.
  destruct (session_delivers_stream sample_token sample_config (mkConnection 7 0) sample_session
    eq_refl ltac:(done) ltac:(done) eq_refl sample_session_ops sample_ops_ok)
    as (s' & t & E & _ & _ & _ & Hp).
  exists s', t. split; [exact E|]. vm_compute in E. injection E as <- <-.
  split; [reflexivity|]. split; [reflexivity|]. apply Hp. reflexivity.
Defined.

Lemma session_buffers_bounded_witness :
  exists s' t, session_run sample_session empty_trace sample_session_ops = Some (s', t)
    /\ mjoin (responses t) = sent t ++ pendingOutput s' /\ sent t = [1; 2; 3].
Proof.
  destruct (session_buffers_bounded sample_token sample_config (mkConnection 7 0) sample_session
    eq_refl ltac:(done) ltac:(done) eq_refl sample_session_ops sample_ops_ok)
    as (s' & t & E & _ & _ & _ & Hs).
  exists s', t. split; [exact E|]. split; [exact Hs|]. vm_compute in E. injection E as <- <-.
  reflexivity.
Defined.

Lemma session_closes_once_witness :
  exists s' t, session_run sample_session empty_trace (sample_session_ops ++ [FinalizeClose]) = Some (s', t)
    /\ state_ s' = SessionState.Closed /\ close_calls (connection_ (destroy s')) = 1.
Proof.
  destruct (session_closes_once sample_token sample_config (mkConnection 7 0) sample_session
    eq_refl ltac:(done) ltac:(done) eq_refl (sample_session_ops ++ [FinalizeClose]))
    as (s' & t & E & _ & Hs); [repeat constructor; done|].
  exists s', t. split; [exact E|]. split; [|exact Hs]. vm_compute in E. injection E as <- <-.
  reflexivity.
Defined.
