(* ===== verification/Ring.v ===== *)
(** * Ring: the fixed ring buffers of the mailboxes and of the worker pool

    [loop_mailbox.cpp] and [bounded_worker_pool.cpp] keep their queues in a
    vector of empty-able slots with a head, a tail and a size.  The vector is
    allocated once, so its length is the capacity.  A moved-from
    [std::unique_ptr] and a reset [std::optional] are both an empty slot. *)

From S2P Require Import Prelude.
Open Scope Z_scope.

Record ring (A : Type) := mkRing {
  slots : list (option A);
  head : Z;
  tail : Z;
  size : Z;
}.
Arguments mkRing {A} slots head tail size.
Arguments slots {A} _.
Arguments head {A} _.
Arguments tail {A} _.
Arguments size {A} _.

Section Ring.
Context {A : Type}.
Implicit Types (r : ring A) (l : list A).

Definition ring_capacity r : Z := size_of (slots r).

Definition ring_make (capacity : Z) : ring A :=
  mkRing (replicate (Z.to_nat capacity) None) 0 0 0.

(** [(index + 1) % queue.size()] *)
Definition ring_next (capacity index : Z) : Z := (index ⊕ 1) mod capacity.

(** [queue[tail] = move(x); tail = (tail + 1) % capacity; ++size] *)
Definition ring_push r (x : A) : ring A :=
  mkRing (<[Z.to_nat (tail r) := Some x]> (slots r)) (head r)
    (ring_next (ring_capacity r) (tail r)) (size r ⊕ 1).

(** The roll-back of a push at [index]:
    [queue[index].reset(); tail = index; --size] *)
Definition ring_unpush r (index : Z) : ring A :=
  mkRing (<[Z.to_nat index := None]> (slots r)) (head r) index (size r ⊖ 1).

(** [x = move(queue[head]); queue[head].reset(); head = (head + 1) % capacity;
    --size] *)
Definition ring_pop r : ring A * option A :=
  (mkRing (<[Z.to_nat (head r) := None]> (slots r))
     (ring_next (ring_capacity r) (head r)) (tail r) (size r ⊖ 1),
   mjoin (slots r !! Z.to_nat (head r))).

(** [r] holds [l]: slot [j] holds the element at the distance of [j] from the
    head, and is empty when there is none. *)
Record ring_repr r l : Prop := {
  rr_capacity : 0 < ring_capacity r < two64;
  rr_head : 0 <= head r < ring_capacity r;
  rr_size : size r = size_of l;
  rr_fits : size_of l <= ring_capacity r;
  rr_tail : tail r = (head r + size_of l) mod ring_capacity r;
  rr_slots : forall j, 0 <= j < ring_capacity r ->
    slots r !! Z.to_nat j = Some (l !! Z.to_nat ((j - head r) mod ring_capacity r));
}.

(** The elements, oldest first. *)
Definition ring_contents r : list A :=
  omap (fun i => mjoin (slots r !! Z.to_nat ((head r + Z.of_nat i) mod ring_capacity r)))
    (seq 0 (Z.to_nat (size r))).

Lemma omap_lookup_seq (l : list A) k :
  omap (fun i => l !! i) (seq k (length l - k)) = drop k l.
Proof.
  remember (length l - k)%nat as n eqn:En. revert k En. induction n as [|n IH]; intros k En.
  - rewrite drop_ge by lia. done.
  - destruct (lookup_lt_is_Some_2 l k) as [x Hx]; [lia|].
    rewrite (drop_S _ x) by done. cbn [seq omap list_omap]. rewrite Hx, IH by lia. done.
Qed.

Lemma ring_make_repr capacity : 0 < capacity < two64 -> ring_repr (ring_make capacity) [].
Proof.
  intros Hc.
  assert (ring_capacity (ring_make capacity) = capacity) as E
    by (unfold ring_capacity, ring_make, size_of; simpl; rewrite length_replicate; lia).
  split; rewrite ?E; try done; try lia; simpl.
  - lia.
  - rewrite size_of_nil. lia.
  - intros j Hj. apply lookup_replicate_2. lia.
Qed.

Lemma ring_next_small n i : 0 <= i < n -> n < two64 -> ring_next n i = (i + 1) mod n.
Proof. unfold ring_next. intros. by rewrite wrap64_small by (unfold is_u64; lia). Qed.

(** Distances from the head around the ring. *)
Lemma dist_last n h s : 0 < n -> 0 <= s < n -> ((h + s) mod n - h) mod n = s.
Proof.
  intros. rewrite Zminus_mod_idemp_l. replace (h + s - h) with s by lia. by apply Z.mod_small.
Qed.

Lemma dist_inj n h i j :
  0 < n -> 0 <= i < n -> 0 <= j < n -> (i - h) mod n = (j - h) mod n -> i = j.
Proof.
  intros Hn Hi Hj E. rewrite <-(Z.mod_small i n), <-(Z.mod_small j n) by done.
  replace i with (i - h + h) by lia. replace j with (j - h + h) by lia.
  by rewrite <-(Zplus_mod_idemp_l (i - h)), E, Zplus_mod_idemp_l.
Qed.

Lemma dist_next n h j :
  0 < n -> 0 <= h < n -> 0 <= j < n -> j <> h ->
  (j - h) mod n = (j - (h + 1) mod n) mod n + 1.
Proof.
  intros Hn Hh Hj Hne. rewrite Zminus_mod_idemp_r.
  destruct (Z.lt_ge_cases j h).
  - rewrite <-(Z.mod_add (j - h) 1), <-(Z.mod_add (j - (h + 1)) 1), !Z.mod_small by lia. lia.
  - rewrite !Z.mod_small by lia. lia.
Qed.

Lemma dist_first_after n h : 1 <= n -> (h - (h + 1) mod n) mod n = n - 1.
Proof.
  intros. rewrite Zminus_mod_idemp_r. replace (h - (h + 1)) with (-1) by lia.
  rewrite <-(Z.mod_add (-1) 1), Z.mod_small by lia. lia.
Qed.

Lemma ring_contents_repr r l : ring_repr r l -> ring_contents r = l.
Proof.
  intros [Hc Hh Hs Hf Ht Hsl]. unfold ring_contents.
  assert (Z.to_nat (size r) = length l) as -> by (rewrite Hs; unfold size_of; lia).
  transitivity (omap (fun i => l !! i) (seq 0 (length l))).
  - apply list_omap_ext, Forall2_same_length_lookup_2; [done|].
    intros i x y Hx Hy. simplify_eq. apply lookup_seq in Hx as [-> Hi]. unfold size_of in *.
    rewrite Hsl by (apply Z.mod_pos_bound; lia). simpl.
    rewrite dist_last by lia. by rewrite Nat2Z.id.
  - pose proof (omap_lookup_seq l 0) as E. by rewrite Nat.sub_0_r, drop_0 in E.
Qed.

Lemma ring_insert_capacity r i x h t s :
  ring_capacity (mkRing (<[i := x]> (slots r)) h t s) = ring_capacity r.
Proof. unfold ring_capacity, size_of. simpl. by rewrite length_insert. Qed.

Lemma lookup_snoc_ne (l : list A) x i : i <> length l -> (l ++ [x]) !! i = l !! i.
Proof.
  intros Hi. destruct (Nat.lt_ge_cases i (length l)).
  - by apply lookup_app_l.
  - rewrite (lookup_ge_None_2 l) by lia. apply lookup_ge_None_2. rewrite length_app. simpl. lia.
Qed.

Lemma ring_push_repr r l x :
  ring_repr r l -> size_of l < ring_capacity r -> ring_repr (ring_push r x) (l ++ [x]).
Proof.
  intros [Hc Hh Hs Hf Ht Hsl] Hroom. pose proof (size_of_nonneg l).
  assert (0 <= tail r < ring_capacity r) as Htr by (rewrite Ht; apply Z.mod_pos_bound; lia).
  unfold ring_push. split; rewrite ?ring_insert_capacity; simpl; try done; try lia.
  - rewrite Hs, size_of_app, size_of_cons, size_of_nil.
    rewrite wrap64_small by (unfold is_u64; lia). lia.
  - rewrite size_of_app, size_of_cons, size_of_nil. lia.
  - rewrite ring_next_small, Ht, Zplus_mod_idemp_l, size_of_app by lia. f_equal.
    rewrite size_of_cons, size_of_nil. lia.
  - intros j Hj. destruct (decide (j = tail r)) as [->|Hne].
    + rewrite list_lookup_insert_eq by (unfold ring_capacity, size_of in *; lia).
      rewrite Ht, dist_last by lia. unfold size_of. rewrite Nat2Z.id.
      by rewrite lookup_app_r, Nat.sub_diag.
    + rewrite list_lookup_insert_ne by lia. rewrite Hsl by done.
      rewrite lookup_snoc_ne; [done|]. intros E. apply Hne.
      pose proof (Z.mod_pos_bound (j - head r) (ring_capacity r)).
      apply (dist_inj (ring_capacity r) (head r)); [lia..|].
      rewrite Ht, dist_last by lia. unfold size_of. lia.
Qed.

(** Rolling a push back restores the ring. *)
Lemma ring_unpush_push r l x :
  ring_repr r l -> size_of l < ring_capacity r ->
  ring_unpush (ring_push r x) (tail r) = r.
Proof.
  intros [Hc Hh Hs Hf Ht Hsl] Hroom. pose proof (size_of_nonneg l).
  assert (0 <= tail r < ring_capacity r) as Htr by (rewrite Ht; apply Z.mod_pos_bound; lia).
  unfold ring_unpush, ring_push. simpl. rewrite list_insert_insert_eq.
  rewrite list_insert_id.
  - rewrite (wrap64_small (size r + 1)), wrap64_small by (unfold is_u64; lia).
    replace (size r + 1 - 1) with (size r) by lia. by destruct r.
  - rewrite Hsl, Ht, dist_last by (rewrite ?Ht; lia). f_equal. apply lookup_ge_None_2.
    unfold size_of. lia.
Qed.

Lemma ring_pop_repr r x l :
  ring_repr r (x :: l) -> ring_repr (ring_pop r).1 l /\ (ring_pop r).2 = Some x.
Proof.
  intros [Hc Hh Hs Hf Ht Hsl]. pose proof (size_of_nonneg l). rewrite size_of_cons in *.
  unfold ring_pop. simpl. split.
  - split; rewrite ?ring_insert_capacity; simpl; try done; try lia.
    + unfold ring_next. apply Z.mod_pos_bound. lia.
    + rewrite Hs. rewrite wrap64_small by (unfold is_u64; lia). lia.
    + rewrite ring_next_small, Ht, Zplus_mod_idemp_l by lia. f_equal. lia.
    + intros j Hj. rewrite ring_next_small by lia. destruct (decide (j = head r)) as [->|Hne].
      * rewrite list_lookup_insert_eq by (unfold ring_capacity, size_of in *; lia).
        rewrite dist_first_after by lia. f_equal. symmetry. apply lookup_ge_None_2.
        unfold size_of in *. lia.
      * rewrite list_lookup_insert_ne by lia. rewrite Hsl, dist_next by lia.
        pose proof (Z.mod_pos_bound (j - (head r + 1) mod ring_capacity r) (ring_capacity r)).
        rewrite Z2Nat.inj_add, Nat.add_1_r by lia. done.
  - rewrite Hsl by done. rewrite Z.sub_diag, Z.mod_0_l by lia. done.
Qed.

Lemma ring_pop_capacity r : ring_capacity (ring_pop r).1 = ring_capacity r.
Proof. apply ring_insert_capacity. Qed.

Lemma ring_push_capacity r x : ring_capacity (ring_push r x) = ring_capacity r.
Proof. apply ring_insert_capacity. Qed.
End Ring.

(** An emptied ring: [tail = head] changes nothing. *)
Lemma ring_empty_tail {A} (r : ring A) :
  ring_repr r [] -> mkRing (slots r) (head r) (head r) (size r) = r.
Proof.
  intros [Hc Hh Hs Hf Ht _]. rewrite size_of_nil, Z.add_0_r, Z.mod_small in Ht by done.
  destruct r. simpl in *. by subst.
Qed.

Lemma ring_size_zero {A} (r : ring A) l : ring_repr r l -> (size r =? 0) = bool_decide (l = []).
Proof.
  intros R. rewrite (rr_size _ _ R). destruct l; [done|].
  rewrite size_of_cons. pose proof (size_of_nonneg l).
  by destruct (Z.eqb_spec (1 + size_of l) 0); [lia|].
Qed.

(** The ring is full exactly when its list has the capacity's length. *)
Lemma ring_full {A} (r : ring A) l :
  ring_repr r l -> (size r =? ring_capacity r) = negb (size_of l <? ring_capacity r).
Proof.
  intros [_ _ Hs Hf _ _]. rewrite Hs.
  destruct (Z.eqb_spec (size_of l) (ring_capacity r)), (Z.ltb_spec (size_of l) (ring_capacity r));
    simpl; try done; lia.
Qed.

Lemma ring_push_slot {A} (r : ring A) l x :
  ring_repr r l -> mjoin (slots (ring_push r x) !! Z.to_nat (tail r)) = Some x.
Proof.
  intros R. pose proof (rr_capacity _ _ R). pose proof (rr_tail _ _ R) as Ht.
  pose proof (Z.mod_pos_bound (head r + size_of l) (ring_capacity r)) as Hb.
  unfold ring_push. simpl.
  rewrite list_lookup_insert_eq; [done|]. unfold ring_capacity, size_of in *. lia.
Qed.

Lemma ring_pop_fst {A} (r : ring A) :
  (ring_pop r).1 = mkRing (<[Z.to_nat (head r) := None]> (slots r))
    (ring_next (ring_capacity r) (head r)) (tail r) (size r ⊖ 1).
Proof. done. Qed.

#[global] Opaque ring_pop ring_push ring_unpush.
