(* ===== verification/Mailbox.v ===== *)
(** * Mailbox: the bounded mailboxes of an event loop

    Model of [loop_mailbox.{hpp,cpp}], of the completion data of
    [completion_router.hpp] and of [owned_socket.hpp].  Each operation holds
    the mailbox's mutex, so an execution is a sequence of operations.  The
    answers of the kernel to the [write] and [read] calls on the eventfd are
    an argument: the list of results of the successive calls.  A call that is
    interrupted for as long as the list lasts has not returned ([None]). *)

From S2P Require Import Prelude Posix Ring Codec Limits TimerCore.
Open Scope Z_scope.

(** ** Completions *)

Module BusinessCompletionStatus.
Inductive t := Response | InvalidRequest | OutputLimitExceeded | Failed | Cancelled.
#[export] Instance eq_dec : EqDecision t.
Proof. solve_decision. Defined.
End BusinessCompletionStatus.
#[export] Existing Instance BusinessCompletionStatus.eq_dec.

Record BusinessCompletion := mkCompletion {
  completion_token : ConnectionToken;
  completion_status : BusinessCompletionStatus.t;
  response_frame : bytes_t;
}.

#[export] Instance BusinessCompletion_eq_dec : EqDecision BusinessCompletion.
Proof. solve_decision. Defined.

Definition completion_valid (c : BusinessCompletion) : bool :=
  let response_shape_valid :=
    if bool_decide (completion_status c = BusinessCompletionStatus.Response)
    then negb (bool_decide (response_frame c = [])) else bool_decide (response_frame c = []) in
  token_valid (completion_token c) && response_shape_valid.

(** ** The wake-up descriptor *)

(** [signalWakeFd], and the loop that [LoopMailbox::tryPost] writes inline:
    8 is [sizeof(std::uint64_t)]. *)
Fixpoint signalWakeFd (writes : list IoResult) : option bool :=
  match writes with
  | [] => None
  | IoBytes n :: _ => Some (n =? 8)
  | IoError EINTR :: rest => signalWakeFd rest
  | IoError EAGAIN :: _ => Some true
  | IoError EOther :: _ => Some false
  end.

(** [drainWakeFd] and [LoopMailbox::drainWakeSignal]. *)
Fixpoint drainWakeFd (reads : list IoResult) : option bool :=
  match reads with
  | [] => None
  | IoBytes n :: rest => if n =? 8 then drainWakeFd rest else Some false
  | IoError EINTR :: rest => drainWakeFd rest
  | IoError EAGAIN :: _ => Some true
  | IoError EOther :: _ => Some false
  end.

(** ** LoopMailbox: completed business tasks *)

Record LoopMailbox := mkLoopMailbox {
  lm_queue : ring BusinessCompletion;
  lm_wake_fd : Z;
  buffered_bytes : Z;
  byte_capacity : Z;
  max_completion_bytes : Z;
  lm_accepting : bool;
}.

Definition frame_size (c : BusinessCompletion) : Z := size_of (response_frame c).

Definition make_loop_mailbox (capacity byte_capacity max_completion_bytes wake_fd : Z)
    : result LoopMailbox :=
  if ((capacity =? 0) || (byte_capacity =? 0) || (max_completion_bytes =? 0)
      || (byte_capacity <? max_completion_bytes))%bool
  then Throw "invalid_argument"
  else if wake_fd <? 0 then Throw "eventfd"
  else Ok (mkLoopMailbox (ring_make capacity) wake_fd 0 byte_capacity max_completion_bytes true).

Definition loop_tryPost (m : LoopMailbox) (completion : BusinessCompletion)
    (writes : list IoResult) : option (LoopMailbox * bool) :=
  let response_shape_valid :=
    if bool_decide (completion_status completion = BusinessCompletionStatus.Response)
    then negb (bool_decide (response_frame completion = []))
    else bool_decide (response_frame completion = []) in
  if (negb (token_valid (completion_token completion)) || negb response_shape_valid)%bool
  then Some (m, false)
  else
    let completion_bytes := frame_size completion in
    if max_completion_bytes m <? completion_bytes then Some (m, false)
    else if negb (lm_accepting m) then Some (m, false)
    else if size (lm_queue m) =? ring_capacity (lm_queue m) then Some (m, false)
    else if (byte_capacity m ⊖ buffered_bytes m) <? completion_bytes then Some (m, false)
    else
      let inserted_index := tail (lm_queue m) in
      let posted := m <| lm_queue := ring_push (lm_queue m) completion |>
                      <| buffered_bytes := buffered_bytes m ⊕ completion_bytes |> in
      match signalWakeFd writes with
      | None => None
      | Some true => Some (posted, true)
      | Some false =>
          Some (posted <| lm_queue := ring_unpush (lm_queue posted) inserted_index |>
                       <| buffered_bytes := buffered_bytes posted ⊖ completion_bytes |>, false)
      end.

Definition loop_tryPop (m : LoopMailbox) : LoopMailbox * option BusinessCompletion :=
  if size (lm_queue m) =? 0 then (m, None)
  else
    let '(queue, completion) := ring_pop (lm_queue m) in
    let completion_bytes := from_option frame_size 0 completion in
    (m <| lm_queue := queue |> <| buffered_bytes := buffered_bytes m ⊖ completion_bytes |>,
     completion).

(** The loop of [close]; the iterations are bounded by [size]. *)
Fixpoint loop_close_loop (fuel : nat) (m : LoopMailbox) : LoopMailbox :=
  match fuel with
  | O => m
  | S fuel =>
      if negb (size (lm_queue m) =? 0)
      then
        let '(queue, completion) := ring_pop (lm_queue m) in
        loop_close_loop fuel
          (m <| buffered_bytes := buffered_bytes m ⊖ from_option frame_size 0 completion |>
             <| lm_queue := queue |>)
      else m
  end.

Definition loop_close (m : LoopMailbox) : LoopMailbox :=
  let m := m <| lm_accepting := false |> in
  let m := loop_close_loop (Z.to_nat (size (lm_queue m))) m in
  let q := lm_queue m in
  m <| lm_queue := mkRing (slots q) (head q) (head q) (size q) |> <| buffered_bytes := 0 |>.

(** ** ConnectionMailbox: accepted sockets

    An [OwnedSocket] is its descriptor; the operations list the descriptors
    they close, because a socket that is not moved on is closed when it goes
    out of scope. *)

Definition socket_valid (fd : Z) : bool := 0 <=? fd.

(** [OwnedSocket::reset]: what [~OwnedSocket] closes. *)
Definition socket_reset (fd : Z) : list Z := if 0 <=? fd then [fd] else [].

Record ConnectionMailbox := mkConnectionMailbox {
  cm_queue : ring Z;
  cm_wake_fd : Z;
  cm_accepting : bool;
}.

Definition make_connection_mailbox (capacity wake_fd : Z) : result ConnectionMailbox :=
  if capacity =? 0 then Throw "invalid_argument"
  else if wake_fd <? 0 then Throw "eventfd"
  else Ok (mkConnectionMailbox (ring_make capacity) wake_fd true).

(** The mailbox, the answer and the descriptors closed. *)
Definition connection_tryPost (m : ConnectionMailbox) (socket : Z) (writes : list IoResult)
    : option (ConnectionMailbox * bool * list Z) :=
  if negb (socket_valid socket) then Some (m, false, socket_reset socket)
  else if negb (cm_accepting m) then Some (m, false, socket_reset socket)
  else if size (cm_queue m) =? ring_capacity (cm_queue m)
  then Some (m, false, socket_reset socket)
  else
    let index := tail (cm_queue m) in
    let posted := m <| cm_queue := ring_push (cm_queue m) socket |> in
    match signalWakeFd writes with
    | None => None
    | Some false =>
        Some (posted <| cm_queue := ring_unpush (cm_queue posted) index |>, false,
              from_option socket_reset [] (mjoin (slots (cm_queue posted) !! Z.to_nat index)))
    | Some true => Some (posted, true, [])
    end.

Definition connection_tryPop (m : ConnectionMailbox) : ConnectionMailbox * option Z :=
  if size (cm_queue m) =? 0 then (m, None)
  else
    let '(queue, socket) := ring_pop (cm_queue m) in
    (m <| cm_queue := queue |>, socket).

(** The loop of [close]: every queued socket is reset. *)
Fixpoint connection_close_loop (fuel : nat) (q : ring Z) (discarded : Z) (closed : list Z)
    : ring Z * Z * list Z :=
  match fuel with
  | O => (q, discarded, closed)
  | S fuel =>
      if negb (size q =? 0)
      then
        let '(queue, socket) := ring_pop q in
        connection_close_loop fuel queue (discarded ⊕ 1)
          (closed ++ from_option socket_reset [] socket)
      else (q, discarded, closed)
  end.

(** The final wake-up's result is ignored. *)
Definition connection_close (m : ConnectionMailbox) : ConnectionMailbox * Z * list Z :=
  let '(q, discarded, closed) :=
    connection_close_loop (Z.to_nat (size (cm_queue m))) (cm_queue m) 0 [] in
  (m <| cm_accepting := false |>
     <| cm_queue := mkRing (slots q) (head q) (head q) (size q) |>, discarded, closed).

(** ** TimeoutMailbox: expired connection timers *)

Record TimeoutMailbox := mkTimeoutMailbox {
  tm_queue : ring TimerEvent;
  tm_wake_fd : Z;
  tm_accepting : bool;
  rescan_required : bool;
}.

Definition make_timeout_mailbox (capacity wake_fd : Z) : result TimeoutMailbox :=
  if capacity =? 0 then Throw "invalid_argument"
  else if wake_fd <? 0 then Throw "eventfd"
  else Ok (mkTimeoutMailbox (ring_make capacity) wake_fd true false).

Definition connectionTimeoutEvent (event : TimerEvent) : bool :=
  let valid_kind :=
    bool_decide (kind event = IdleTimeout) || bool_decide (kind event = ReadTimeout)
    || bool_decide (kind event = WriteTimeout) || bool_decide (kind event = BusinessTimeout) in
  valid_kind && (0 <=? target_fd event) && negb (target_generation event =? 0)
  && negb (target_sequence event =? 0).

Definition timeout_tryPost (m : TimeoutMailbox) (event : TimerEvent) (writes : list IoResult)
    : option (TimeoutMailbox * bool) :=
  if negb (connectionTimeoutEvent event) then Some (m, false)
  else if negb (tm_accepting m) then Some (m, false)
  else if size (tm_queue m) =? ring_capacity (tm_queue m)
  then
    let m := m <| rescan_required := true |> in
    match signalWakeFd writes with
    | None => None
    | Some ok => Some (m, if negb ok then false else true)
    end
  else
    let index := tail (tm_queue m) in
    let posted := m <| tm_queue := ring_push (tm_queue m) event |> in
    match signalWakeFd writes with
    | None => None
    | Some false => Some (posted <| tm_queue := ring_unpush (tm_queue posted) index |>, false)
    | Some true => Some (posted, true)
    end.

Definition timeout_tryPop (m : TimeoutMailbox) : TimeoutMailbox * option TimerEvent :=
  if size (tm_queue m) =? 0 then (m, None)
  else
    let '(queue, event) := ring_pop (tm_queue m) in
    (m <| tm_queue := queue |>, event).

Definition takeRescanRequest (m : TimeoutMailbox) : TimeoutMailbox * bool :=
  let requested := rescan_required m in
  (m <| rescan_required := false |>, requested).

Fixpoint timeout_close_loop (fuel : nat) (q : ring TimerEvent) : ring TimerEvent :=
  match fuel with
  | O => q
  | S fuel => if negb (size q =? 0) then timeout_close_loop fuel (ring_pop q).1 else q
  end.

Definition timeout_close (m : TimeoutMailbox) : TimeoutMailbox :=
  let q := timeout_close_loop (Z.to_nat (size (tm_queue m))) (tm_queue m) in
  m <| tm_accepting := false |> <| rescan_required := false |>
    <| tm_queue := mkRing (slots q) (head q) (head q) (size q) |>.

(** ** The completion mailbox is a byte-bounded queue *)

Inductive LoopOp :=
| LoopPost (completion : BusinessCompletion) (writes : list IoResult)
| LoopPop
| LoopDrain (reads : list IoResult)
| LoopClose.

Inductive LoopOut :=
| Posted (ok : bool)
| Popped (completion : option BusinessCompletion)
| Drained (ok : bool)
| LoopClosed.

Definition loop_step (m : LoopMailbox) (op : LoopOp) : option (LoopMailbox * LoopOut) :=
  match op with
  | LoopPost c writes =>
      '(m', ok) ← loop_tryPost m c writes; Some (m', Posted ok)
  | LoopPop => let '(m', c) := loop_tryPop m in Some (m', Popped c)
  | LoopDrain reads => ok ← drainWakeFd reads; Some (m, Drained ok)
  | LoopClose => Some (loop_close m, LoopClosed)
  end.

Fixpoint run_loop (m : LoopMailbox) (ops : list LoopOp) : option (LoopMailbox * list LoopOut) :=
  match ops with
  | [] => Some (m, [])
  | op :: ops =>
      '(m1, out) ← loop_step m op;
      '(m2, outs) ← run_loop m1 ops;
      Some (m2, out :: outs)
  end.

(** The kernel eventually answers something else than an interruption. *)
Definition io_returns (op : LoopOp) : Prop :=
  match op with
  | LoopPost _ writes => is_Some (signalWakeFd writes)
  | LoopDrain reads => is_Some (drainWakeFd reads)
  | _ => True
  end.

Record CompletionFifo := mkFifo { fifo : list BusinessCompletion; fifo_open : bool }.

Definition fifo_bytes (l : list BusinessCompletion) : Z := zsum (frame_size <$> l).

Section Fifo.
Context (capacity bytes max_bytes : Z).

(** A completion fits: it is well formed and there is room for it. *)
Definition fifo_admits (f : CompletionFifo) (c : BusinessCompletion) : bool :=
  completion_valid c && (frame_size c <=? max_bytes) && fifo_open f
  && (size_of (fifo f) <? capacity) && (fifo_bytes (fifo f) + frame_size c <=? bytes).

Definition fifo_step (f : CompletionFifo) (op : LoopOp) : CompletionFifo * LoopOut :=
  match op with
  | LoopPost c writes =>
      if fifo_admits f c && bool_decide (signalWakeFd writes = Some true)
      then (f <| fifo := fifo f ++ [c] |>, Posted true) else (f, Posted false)
  | LoopPop => (f <| fifo := drop 1 (fifo f) |>, Popped (fifo f !! 0%nat))
  | LoopDrain reads => (f, Drained (default false (drainWakeFd reads)))
  | LoopClose => (mkFifo [] false, LoopClosed)
  end.

Fixpoint run_fifo (f : CompletionFifo) (ops : list LoopOp) : CompletionFifo * list LoopOut :=
  match ops with
  | [] => (f, [])
  | op :: ops =>
      let '(f1, out) := fifo_step f op in
      let '(f2, outs) := run_fifo f1 ops in
      (f2, out :: outs)
  end.

Record loop_rel (m : LoopMailbox) (f : CompletionFifo) : Prop := {
  lr_ring : ring_repr (lm_queue m) (fifo f);
  lr_capacity : ring_capacity (lm_queue m) = capacity;
  lr_bytes : buffered_bytes m = fifo_bytes (fifo f);
  lr_byte_capacity : byte_capacity m = bytes;
  lr_max : max_completion_bytes m = max_bytes;
  lr_open : lm_accepting m = fifo_open f;
  lr_bounded : fifo_bytes (fifo f) <= bytes;
}.

Lemma frame_size_nonneg c : 0 <= frame_size c.
Proof. apply size_of_nonneg. Qed.

Lemma fifo_bytes_nonneg l : 0 <= fifo_bytes l.
Proof. apply zsum_nonneg, Forall_fmap, Forall_true. intros c. apply frame_size_nonneg. Qed.

Lemma fifo_bytes_snoc l c : fifo_bytes (l ++ [c]) = fifo_bytes l + frame_size c.
Proof. unfold fifo_bytes. rewrite fmap_app, zsum_app. simpl. lia. Qed.

Context (Hbytes : is_u64 bytes).

Lemma loop_post_rel m f c writes ok :
  loop_rel m f -> signalWakeFd writes = Some ok ->
  exists m', loop_tryPost m c writes = Some (m', fifo_admits f c && ok)
    /\ loop_rel m' (if fifo_admits f c && ok then f <| fifo := fifo f ++ [c] |> else f).
Proof.
  intros R Hw. pose proof R as [Rr Rc Rb Rbc Rm Ro Rbd]. unfold loop_tryPost, fifo_admits.
  pose proof (fifo_bytes_nonneg (fifo f)) as H0. pose proof (frame_size_nonneg c) as H1.
  unfold is_u64 in Hbytes.
  rewrite <-negb_andb. fold (completion_valid c). destruct (completion_valid c); simpl; [|by eauto].
  rewrite Rm, Z.ltb_antisym. destruct (Z.leb_spec (frame_size c) max_bytes); simpl; [|by eauto].
  rewrite Ro. destruct (fifo_open f) eqn:Eo; simpl; [|by eauto].
  rewrite (ring_full _ _ Rr), Rc. destruct (Z.ltb_spec (size_of (fifo f)) capacity); simpl; [|by eauto].
  rewrite Rb, Rbc. rewrite wrap64_small, Z.ltb_antisym by (unfold is_u64; lia).
  destruct (Z.leb_spec (frame_size c) (bytes - fifo_bytes (fifo f))),
    (Z.leb_spec (fifo_bytes (fifo f) + frame_size c) bytes); simpl; try lia; [|by eauto].
  rewrite Hw. assert (size_of (fifo f) < ring_capacity (lm_queue m)) as Hroom by lia.
  destruct ok; eexists; (split; [reflexivity|]).
  - split; simpl; try done.
    + by apply ring_push_repr.
    + by rewrite ring_push_capacity.
    + rewrite fifo_bytes_snoc. apply wrap64_small. unfold is_u64. lia.
    + by rewrite Eo.
    + by rewrite fifo_bytes_snoc.
  - split; simpl; rewrite ?(ring_unpush_push _ _ _ Rr Hroom); try done; [|by rewrite Eo].
    rewrite (wrap64_small (_ + _)), wrap64_small by (unfold is_u64; lia). lia.
Qed.

Lemma loop_pop_rel m f :
  loop_rel m f ->
  loop_rel (loop_tryPop m).1 (f <| fifo := drop 1 (fifo f) |>)
  /\ (loop_tryPop m).2 = fifo f !! 0%nat.
Proof.
  intros R. pose proof R as [Rr Rc Rb Rbc Rm Ro Rbd]. unfold loop_tryPop.
  rewrite (ring_size_zero _ _ Rr). destruct f as [[|c l] o]; simpl in *; [done|].
  destruct (ring_pop_repr _ _ _ Rr) as [Rp Ep]. pose proof (ring_pop_capacity (lm_queue m)) as Ec.
  destruct (ring_pop (lm_queue m)) as [q x]. simpl in *. subst x. split; [|done].
  pose proof (frame_size_nonneg c). pose proof (fifo_bytes_nonneg l).
  change (fifo_bytes (c :: l)) with (frame_size c + fifo_bytes l) in *.
  split; simpl; rewrite ?drop_0; try done; [congruence| |lia].
  rewrite Rb, wrap64_small by (unfold is_u64 in *; lia). lia.
Qed.

Lemma loop_close_loop_rel l m :
  ring_repr (lm_queue m) l ->
  let m' := loop_close_loop (length l) m in
  ring_repr (lm_queue m') [] /\ ring_capacity (lm_queue m') = ring_capacity (lm_queue m)
  /\ byte_capacity m' = byte_capacity m /\ max_completion_bytes m' = max_completion_bytes m
  /\ lm_accepting m' = lm_accepting m.
Proof.
  revert m. induction l as [|c l IH]; intros m R; [done|].
  cbn [length loop_close_loop]. rewrite (ring_size_zero _ _ R). simpl.
  destruct (ring_pop_repr _ _ _ R) as [Rp Ep]. pose proof (ring_pop_capacity (lm_queue m)) as Ec.
  destruct (ring_pop (lm_queue m)) as [q x]. simpl in *. rewrite <-Ec.
  match goal with |- context [loop_close_loop _ ?m1] => apply (IH m1) end. done.
Qed.

Lemma loop_close_rel m f : 0 <= bytes -> loop_rel m f -> loop_rel (loop_close m) (mkFifo [] false).
Proof.
  intros H0 [Rr Rc Rb Rbc Rm Ro Rbd]. unfold loop_close.
  assert (Z.to_nat (size (lm_queue m)) = length (fifo f)) as E
    by (rewrite (rr_size _ _ Rr); unfold size_of; lia).
  simpl. rewrite E.
  match goal with |- context [loop_close_loop _ ?m0] =>
    pose proof (loop_close_loop_rel (fifo f) m0 Rr) as Hl; simpl in Hl;
    destruct (loop_close_loop (length (fifo f)) m0) as [q w b bc mx acc]
  end. simpl in Hl.
  destruct Hl as (R' & Ec & -> & -> & ->).
  split; simpl; rewrite ?(ring_empty_tail _ R'); try done; congruence.
Qed.

Lemma loop_step_rel m f op :
  io_returns op -> loop_rel m f ->
  exists m', loop_step m op = Some (m', (fifo_step f op).2) /\ loop_rel m' (fifo_step f op).1.
Proof.
  intros Hio R. destruct op as [c writes| |reads|]; simpl in *.
  - destruct Hio as [ok Hw]. destruct (loop_post_rel m f c writes ok R Hw) as (m' & -> & R').
    rewrite Hw. exists m'.
    replace (bool_decide (Some ok = Some true)) with ok by (by destruct ok).
    simpl. by destruct (fifo_admits f c && ok).
  - destruct (loop_pop_rel m f R) as [R' E]. destruct (loop_tryPop m) as [m' x].
    simpl in *. subst. eauto.
  - destruct Hio as [ok ->]. simpl. eauto.
  - eexists. split; [done|]. apply (loop_close_rel m f); [|done]. unfold is_u64 in Hbytes. lia.
Qed.

Lemma run_loop_rel m f ops :
  Forall io_returns ops -> loop_rel m f ->
  exists m', run_loop m ops = Some (m', (run_fifo f ops).2) /\ loop_rel m' (run_fifo f ops).1.
Proof.
  intros Hops. revert m f. induction Hops as [|op ops Hop _ IH]; intros m f R; simpl; [by eauto|].
  destruct (loop_step_rel m f op Hop R) as (m1 & -> & R1). simpl.
  destruct (fifo_step f op) as [f1 out]. simpl in *.
  destruct (IH m1 f1 R1) as (m2 & -> & R2). simpl. destruct (run_fifo f1 ops). eauto.
Qed.
End Fifo.

(** C33. The completion mailbox behaves as a first-in first-out queue bounded
    in items and in bytes: for every sequence of posts, pops, drains and
    closes, and whatever the kernel answers to the wake-up writes, each call
    returns what the abstract queue returns, a post whose wake-up fails leaves
    no trace, and the byte counter is the exact total of the frames held. *)
Theorem loop_mailbox_refines_fifo capacity bytes max_bytes wake_fd m ops :
  is_u64 capacity -> is_u64 bytes -> 0 <= max_bytes ->
  make_loop_mailbox capacity bytes max_bytes wake_fd = Ok m -> Forall io_returns ops ->
  let '(f, outs) := run_fifo capacity bytes max_bytes (mkFifo [] true) ops in
  exists m', run_loop m ops = Some (m', outs)
    /\ size (lm_queue m') = size_of (fifo f) /\ size_of (fifo f) <= capacity
    /\ buffered_bytes m' = fifo_bytes (fifo f) /\ fifo_bytes (fifo f) <= bytes.
Proof.
  unfold make_loop_mailbox. intros Hc Hb Hm Hmake Hops.
  repeat case_match; simplify_eq. bool_to_prop. unfold is_u64 in Hc.
  edestruct (run_loop_rel capacity bytes max_bytes Hb) as (m' & E & R'); [done| |].
  - apply (Build_loop_rel capacity bytes max_bytes
      (mkLoopMailbox (ring_make capacity) wake_fd 0 bytes max_bytes true) (mkFifo [] true));
      simpl; try done; [apply ring_make_repr; lia| |unfold fifo_bytes; simpl; lia].
    unfold ring_capacity, ring_make, size_of. simpl. rewrite length_replicate. lia.
  - rewrite E. destruct (run_fifo _ _ _ _ _) as [f outs]. simpl in *. simplify_eq. exists m'.
    split_and!; [done|apply R'|..|apply R'|apply R'].
    rewrite <-(lr_capacity _ _ _ _ _ R'). apply (lr_ring _ _ _ _ _ R').
Qed.

Definition sample_completion : BusinessCompletion :=
  mkCompletion (mkToken 0 5 1) BusinessCompletionStatus.Response [0; 0; 0; 1; 7].

Definition sample_loop_ops : list LoopOp :=
  [LoopPost sample_completion [IoError EINTR; IoBytes 8];
   LoopPost sample_completion [IoError EOther]; LoopPop; LoopPop;
   LoopDrain [IoBytes 8; IoError EAGAIN]; LoopClose].

Lemma loop_mailbox_refines_fifo_witness :
  let '(f, outs) := run_fifo 2 16 8 (mkFifo [] true) sample_loop_ops in
  exists m', run_loop (mkLoopMailbox (ring_make 2) 3 0 16 8 true) sample_loop_ops = Some (m', outs)
    /\ size (lm_queue m') = size_of (fifo f) /\ size_of (fifo f) <= 2
    /\ buffered_bytes m' = fifo_bytes (fifo f) /\ fifo_bytes (fifo f) <= 16.
Proof.
  apply (loop_mailbox_refines_fifo 2 16 8 3); [done | done | lia | reflexivity |].
  repeat (apply Forall_cons; split; [simpl; eauto|]). apply Forall_nil_2.
Defined.

(** ** The connection mailbox owns its sockets *)

Inductive ConnOp :=
| ConnPost (socket : Z) (writes : list IoResult)
| ConnPop
| ConnClose.

(** What an execution did: the mailbox, the sockets handed to the loop and the
    sockets closed. *)
Record ConnTrace := mkTrace {
  conn_box : ConnectionMailbox;
  taken : list Z;
  closed_sockets : list Z;
}.

Definition conn_step (t : ConnTrace) (op : ConnOp) : option ConnTrace :=
  match op with
  | ConnPost socket writes =>
      '(m, _, closed) ← connection_tryPost (conn_box t) socket writes;
      Some (mkTrace m (taken t) (closed_sockets t ++ closed))
  | ConnPop =>
      let '(m, socket) := connection_tryPop (conn_box t) in
      Some (mkTrace m (taken t ++ option_list socket) (closed_sockets t))
  | ConnClose =>
      let '(m, _, closed) := connection_close (conn_box t) in
      Some (mkTrace m (taken t) (closed_sockets t ++ closed))
  end.

Fixpoint run_conn (t : ConnTrace) (ops : list ConnOp) : option ConnTrace :=
  match ops with
  | [] => Some t
  | op :: ops => t1 ← conn_step t op; run_conn t1 ops
  end.

(** The valid sockets given to [tryPost]. *)
Definition given (op : ConnOp) : list Z :=
  match op with ConnPost socket _ => socket_reset socket | _ => [] end.

Definition conn_returns (op : ConnOp) : Prop :=
  match op with ConnPost _ writes => is_Some (signalWakeFd writes) | _ => True end.

(** Every socket received so far is in the mailbox, was taken or was closed. *)
Definition conn_inv (capacity : Z) (received : list Z) (t : ConnTrace) : Prop :=
  exists l, ring_repr (cm_queue (conn_box t)) l
    /\ ring_capacity (cm_queue (conn_box t)) = capacity
    /\ Forall (fun fd => 0 <= fd) l
    /\ received ≡ₚ l ++ taken t ++ closed_sockets t.

Lemma socket_reset_valid fd : 0 <= fd -> socket_reset fd = [fd].
Proof. unfold socket_reset. intros. by destruct (Z.leb_spec 0 fd); [|lia]. Qed.

Lemma conn_post_inv capacity received t socket writes ok :
  conn_inv capacity received t -> signalWakeFd writes = Some ok ->
  exists t', conn_step t (ConnPost socket writes) = Some t'
    /\ conn_inv capacity (received ++ socket_reset socket) t'.
Proof.
  intros (l & R & Hc & Hl & Hp) Hw. destruct t as [m tk cl]. simpl in *.
  assert (conn_inv capacity (received ++ socket_reset socket)
            (mkTrace m tk (cl ++ socket_reset socket))) as Hclose.
  { exists l. split_and!; try done. simpl. by rewrite Hp, !app_assoc. }
  unfold connection_tryPost, socket_valid.
  destruct (Z.leb_spec 0 socket) as [Hs|]; simpl; [|by eauto].
  destruct (cm_accepting m); simpl; [|by eauto].
  rewrite (ring_full _ _ R). destruct (Z.ltb_spec (size_of l) (ring_capacity (cm_queue m)))
    as [Hroom|]; simpl; [|by eauto].
  rewrite Hw. destruct ok; simpl; eexists; (split; [reflexivity|]).
  - exists (l ++ [socket]). simpl. rewrite ring_push_capacity, socket_reset_valid by done.
    split_and!; [by apply ring_push_repr | done | apply Forall_app; split; [done | by constructor]|].
    rewrite app_nil_r, Hp. solve_Permutation.
  - rewrite (ring_push_slot _ _ _ R). simpl.
    destruct Hclose as (l' & ? & ? & ? & Hp'). exists l'. simpl in *.
    by rewrite (ring_unpush_push _ _ _ R Hroom).
Qed.

Lemma conn_pop_inv capacity received t :
  conn_inv capacity received t ->
  exists t', conn_step t ConnPop = Some t' /\ conn_inv capacity received t'.
Proof.
  intros (l & R & Hc & Hl & Hp). destruct t as [m tk cl]. simpl in *.
  unfold connection_tryPop. rewrite (ring_size_zero _ _ R). destruct l as [|x l]; simpl.
  - eexists. split; [reflexivity|]. exists []. simpl. by rewrite app_nil_r.
  - destruct (ring_pop_repr _ _ _ R) as [Rp Ep]. pose proof (ring_pop_capacity (cm_queue m)) as Ec.
    destruct (ring_pop (cm_queue m)) as [q s]. simpl in *. subst s.
    eexists. split; [reflexivity|]. apply Forall_cons in Hl as [Hx Hl].
    exists l. simpl. split_and!; [done | congruence | done |]. rewrite Hp. solve_Permutation.
Qed.

Lemma connection_close_loop_spec l q d cl :
  ring_repr q l -> Forall (fun fd => 0 <= fd) l ->
  let '(q', d', cl') := connection_close_loop (length l) q d cl in
  ring_repr q' [] /\ ring_capacity q' = ring_capacity q /\ cl' = cl ++ l.
Proof.
  revert q d cl. induction l as [|x l IH]; intros q d cl R Hl.
  - cbn. by rewrite app_nil_r.
  - apply Forall_cons in Hl as [Hx Hl].
    cbn [length connection_close_loop]. rewrite (ring_size_zero _ _ R). simpl.
    destruct (ring_pop_repr _ _ _ R) as [Rp Ep]. pose proof (ring_pop_capacity q) as Ec.
    destruct (ring_pop q) as [q1 s]. simpl in *. subst s. simpl.
    specialize (IH q1 (d ⊕ 1) (cl ++ socket_reset x) Rp Hl).
    destruct (connection_close_loop _ _ _ _) as [[q' d'] cl'].
    rewrite socket_reset_valid in IH by done. destruct IH as (? & ? & ->).
    split_and!; [done | congruence | by rewrite <-app_assoc].
Qed.

Lemma conn_close_inv capacity received t :
  conn_inv capacity received t ->
  exists t', conn_step t ConnClose = Some t' /\ conn_inv capacity received t'.
Proof.
  intros (l & R & Hc & Hl & Hp). destruct t as [m tk cl]. simpl in *. unfold connection_close.
  assert (Z.to_nat (size (cm_queue m)) = length l) as ->
    by (rewrite (rr_size _ _ R); unfold size_of; lia).
  pose proof (connection_close_loop_spec l (cm_queue m) 0 [] R Hl) as Hcl.
  destruct (connection_close_loop _ _ _ _) as [[q' d'] cl']. destruct Hcl as (R' & Ec & ->).
  eexists. split; [reflexivity|]. exists []. simpl. rewrite (ring_empty_tail _ R').
  split_and!; [done | congruence | done |]. rewrite Hp. solve_Permutation.
Qed.

Lemma run_conn_inv capacity received t ops :
  conn_inv capacity received t -> Forall conn_returns ops ->
  exists t', run_conn t ops = Some t'
    /\ conn_inv capacity (received ++ mjoin (given <$> ops)) t'.
Proof.
  intros Hinv Hops. revert received t Hinv. induction Hops as [|op ops Hop _ IH];
    intros received t Hinv; [exists t; simpl; by rewrite app_nil_r|].
  assert (exists t1, conn_step t op = Some t1 /\ conn_inv capacity (received ++ given op) t1)
    as (t1 & E1 & H1).
  { destruct op; simpl in Hop; simpl given; rewrite ?app_nil_r.
    - destruct Hop. by eapply conn_post_inv.
    - by apply conn_pop_inv.
    - by apply conn_close_inv. }
  destruct (IH _ _ H1) as (t' & E' & H'). exists t'. cbn [run_conn].
  rewrite E1, fmap_cons, mjoin_cons, app_assoc. by split.
Qed.

(** Sockets are never leaked nor closed twice: after any sequence of
    posts, pops and closes, every valid socket given to the connection mailbox
    is in exactly one place, waiting in it, handed to the event loop, or
    closed (as many times as it was given), whatever the wake-up writes
    returned; and no more than the capacity wait. *)
Theorem connection_mailbox_owns_sockets capacity wake_fd m ops :
  is_u64 capacity -> make_connection_mailbox capacity wake_fd = Ok m ->
  Forall conn_returns ops ->
  exists t, run_conn (mkTrace m [] []) ops = Some t
    /\ mjoin (given <$> ops)
       ≡ₚ ring_contents (cm_queue (conn_box t)) ++ taken t ++ closed_sockets t
    /\ size (cm_queue (conn_box t)) <= capacity.
Proof.
  unfold make_connection_mailbox. intros Hc Hm Hops.
  destruct (Z.eqb_spec capacity 0); [done|]. destruct (wake_fd <? 0); [done|].
  injection Hm as <-. unfold is_u64 in Hc.
  destruct (run_conn_inv capacity [] (mkTrace (mkConnectionMailbox (ring_make capacity) wake_fd true)
    [] []) ops) as (t & E & l & R & Ecap & _ & Hp); [|done|].
  - exists []. simpl. split_and!; [apply ring_make_repr; lia | | done | done].
    unfold ring_capacity, ring_make, size_of. simpl. rewrite length_replicate. lia.
  - exists t. rewrite (ring_contents_repr _ _ R). split_and!; [done | done |].
    rewrite (rr_size _ _ R), <-Ecap. apply R.
Qed.

Definition sample_conn_ops : list ConnOp :=
  [ConnPost 4 [IoBytes 8]; ConnPost 5 [IoError EAGAIN]; ConnPost 6 [IoBytes 8];
   ConnPost (-1) [IoBytes 8]; ConnPop; ConnPost 7 [IoError EOther]; ConnClose].

Lemma connection_mailbox_owns_sockets_witness :
  exists t, run_conn (mkTrace (mkConnectionMailbox (ring_make 2) 3 true) [] []) sample_conn_ops
            = Some t
    /\ mjoin (given <$> sample_conn_ops)
       ≡ₚ ring_contents (cm_queue (conn_box t)) ++ taken t ++ closed_sockets t
    /\ size (cm_queue (conn_box t)) <= 2.
Proof.
  apply (connection_mailbox_owns_sockets 2 3); [done | reflexivity |].
  repeat (apply Forall_cons; split; [simpl; eauto|]). apply Forall_nil_2.
Defined.

(** ** The timeout mailbox loses no expired timer *)

Inductive TimeoutOp :=
| TimeoutPost (event : TimerEvent) (writes : list IoResult)
| TimeoutPop
| TakeRescan
| TimeoutClose.

Inductive TimeoutOut :=
| TimeoutPosted (ok : bool)
| TimeoutPopped (event : option TimerEvent)
| RescanTaken (requested : bool)
| TimeoutClosed.

Definition timeout_step (m : TimeoutMailbox) (op : TimeoutOp)
    : option (TimeoutMailbox * TimeoutOut) :=
  match op with
  | TimeoutPost e writes => '(m', ok) ← timeout_tryPost m e writes; Some (m', TimeoutPosted ok)
  | TimeoutPop => let '(m', e) := timeout_tryPop m in Some (m', TimeoutPopped e)
  | TakeRescan => let '(m', r) := takeRescanRequest m in Some (m', RescanTaken r)
  | TimeoutClose => Some (timeout_close m, TimeoutClosed)
  end.

Fixpoint run_timeout (m : TimeoutMailbox) (ops : list TimeoutOp)
    : option (TimeoutMailbox * list TimeoutOut) :=
  match ops with
  | [] => Some (m, [])
  | op :: ops =>
      '(m1, out) ← timeout_step m op;
      '(m2, outs) ← run_timeout m1 ops;
      Some (m2, out :: outs)
  end.

Definition timeout_repr (m : TimeoutMailbox) (l : list TimerEvent) : Prop :=
  ring_repr (tm_queue m) l.

(** The event is queued, or a full scan of the deadlines is requested. *)
Definition pending (e : TimerEvent) (m : TimeoutMailbox) : Prop :=
  e ∈ ring_contents (tm_queue m) \/ rescan_required m = true.

(** The loop received the event or the request for a full scan. *)
Definition delivered (e : TimerEvent) (out : TimeoutOut) : Prop :=
  out = TimeoutPopped (Some e) \/ out = RescanTaken true.

Lemma timeout_close_loop_repr l q :
  ring_repr q l -> ring_repr (timeout_close_loop (length l) q) [].
Proof.
  revert q. induction l as [|x l IH]; intros q R; [done|].
  cbn [length timeout_close_loop]. rewrite (ring_size_zero _ _ R). simpl.
  apply IH. by destruct (ring_pop_repr _ _ _ R).
Qed.

Lemma timeout_close_repr m l : timeout_repr m l -> timeout_repr (timeout_close m) [].
Proof.
  unfold timeout_repr, timeout_close. intros R.
  assert (Z.to_nat (size (tm_queue m)) = length l) as ->
    by (rewrite (rr_size _ _ R); unfold size_of; lia).
  simpl. pose proof (timeout_close_loop_repr _ _ R) as R'. by rewrite ring_empty_tail.
Qed.

(** A post keeps what is pending, and an accepted event becomes pending. *)
Lemma timeout_post_spec m l e writes m' ok :
  timeout_repr m l -> timeout_tryPost m e writes = Some (m', ok) ->
  (exists l', timeout_repr m' l')
  /\ (forall e', pending e' m -> pending e' m') /\ (ok = true -> pending e m').
Proof.
  unfold timeout_repr, pending. intros R. unfold timeout_tryPost.
  destruct (connectionTimeoutEvent e); simpl; [|intros; simplify_eq; split_and!; by eauto].
  destruct (tm_accepting m); simpl; [|intros; simplify_eq; split_and!; by eauto].
  rewrite (ring_full _ _ R).
  destruct (Z.ltb_spec (size_of l) (ring_capacity (tm_queue m))) as [Hroom|]; simpl.
  - pose proof (ring_push_repr _ _ e R Hroom) as Rp.
    destruct (signalWakeFd writes) as [[]|]; intros; simplify_eq; simpl.
    + rewrite (ring_contents_repr _ _ Rp), (ring_contents_repr _ _ R). split_and!; [by eauto| |].
      * intros e' [?|?]; [left; apply elem_of_app; by left | by right].
      * intros _. left. apply elem_of_app. right. by left.
    + rewrite (ring_unpush_push _ _ _ R Hroom). split_and!; [by eauto | done | done].
  - destruct (signalWakeFd writes) as [[]|]; intros; simplify_eq; simpl; split_and!; eauto.
Qed.

Lemma timeout_pop_spec m l :
  timeout_repr m l ->
  (exists l', timeout_repr (timeout_tryPop m).1 l')
  /\ (forall e, pending e m ->
      pending e (timeout_tryPop m).1 \/ (timeout_tryPop m).2 = Some e).
Proof.
  unfold timeout_repr, pending, timeout_tryPop. intros R. rewrite (ring_size_zero _ _ R).
  rewrite (ring_contents_repr _ _ R). destruct l as [|x l]; simpl.
  - rewrite (ring_contents_repr _ _ R). split; [by eauto|]. auto.
  - destruct (ring_pop_repr _ _ _ R) as [Rp Ep]. destruct (ring_pop (tm_queue m)) as [q y].
    simpl in *. subst y. rewrite (ring_contents_repr _ _ Rp). split; [by eauto|].
    intros e [[->|?]%elem_of_cons|?]; auto.
Qed.

Lemma timeout_step_spec m l op m' out :
  timeout_repr m l -> timeout_step m op = Some (m', out) ->
  (exists l', timeout_repr m' l')
  /\ (op <> TimeoutClose -> forall e, pending e m -> pending e m' \/ delivered e out).
Proof.
  intros R. destruct op as [e writes| | |]; simpl.
  - destruct (timeout_tryPost m e writes) as [[m1 ok]|] eqn:E; simpl; [|done].
    intros [= <- <-]. destruct (timeout_post_spec _ _ _ _ _ _ R E) as (? & ? & _). eauto.
  - destruct (timeout_pop_spec _ _ R) as [Hr Hp]. destruct (timeout_tryPop m) as [m1 x].
    intros [= <- <-]. split; [done|]. intros _ e He.
    destruct (Hp e He) as [?|Hx]; [by left|]. simpl in Hx. subst. right. by left.
  - intros [= <- <-]. split; [by exists l|]. intros _ e [?|Hr]; [by left; left|].
    right. right. by rewrite Hr.
  - intros [= <- <-]. split; [exists []; by eapply timeout_close_repr | done].
Qed.

Lemma run_timeout_pending m l ops m' outs e :
  timeout_repr m l -> TimeoutClose ∉ ops -> run_timeout m ops = Some (m', outs) ->
  pending e m -> pending e m' \/ Exists (delivered e) outs.
Proof.
  revert m l outs. induction ops as [|op ops IH]; simpl; intros m l outs R Hnc Hrun Hp.
  - simplify_eq. by left.
  - apply not_elem_of_cons in Hnc as [Hne Hnc].
    destruct (timeout_step m op) as [[m1 out]|] eqn:Es; simpl in Hrun; [|done].
    destruct (timeout_step_spec _ _ _ _ _ R Es) as [[l1 R1] Hstep].
    destruct (run_timeout m1 ops) as [[m2 outs2]|] eqn:Er; simpl in Hrun; [|done].
    simplify_eq. destruct (Hstep (not_eq_sym Hne) e Hp) as [Hp1|Hd].
    + destruct (IH _ _ _ R1 Hnc Er Hp1); [by left | right; by apply Exists_cons_tl].
    + right. by apply Exists_cons_hd.
Qed.

Lemma run_timeout_repr m l ops m' outs :
  timeout_repr m l -> run_timeout m ops = Some (m', outs) -> exists l', timeout_repr m' l'.
Proof.
  revert m l outs. induction ops as [|op ops IH]; simpl; intros m l outs R Hrun.
  - simplify_eq. by eauto.
  - destruct (timeout_step m op) as [[m1 out]|] eqn:Es; simpl in Hrun; [|done].
    destruct (timeout_step_spec _ _ _ _ _ R Es) as [[l1 R1] _].
    destruct (run_timeout m1 ops) as [[m2 outs2]|] eqn:Er; simpl in Hrun; [|done].
    simplify_eq. by eapply IH.
Qed.

(** No accepted timer event is lost while the mailbox is open: once
    [tryPost] has answered true, after any further posts, pops and rescans the
    event is still queued or a rescan is requested, unless the loop has popped
    the event or taken a rescan request since.  In particular a full mailbox
    turns the event into a rescan request. *)
Theorem timeout_events_not_lost capacity wake_fd m before e writes after m1 outs1 m2 m3 outs3 :
  is_u64 capacity -> make_timeout_mailbox capacity wake_fd = Ok m ->
  run_timeout m before = Some (m1, outs1) ->
  timeout_tryPost m1 e writes = Some (m2, true) ->
  run_timeout m2 after = Some (m3, outs3) -> TimeoutClose ∉ after ->
  pending e m3 \/ Exists (delivered e) outs3.
Proof.
  unfold make_timeout_mailbox. intros Hc Hm Hb Hpost Ha Hnc.
  destruct (Z.eqb_spec capacity 0); [done|]. destruct (wake_fd <? 0); [done|].
  injection Hm as <-. unfold is_u64 in Hc.
  assert (ring_repr (@ring_make TimerEvent capacity) []) as R0 by (apply ring_make_repr; lia).
  destruct (run_timeout_repr (mkTimeoutMailbox (ring_make capacity) wake_fd true false) []
    _ _ _ R0 Hb) as [l1 R1].
  destruct (timeout_post_spec _ _ _ _ _ _ R1 Hpost) as ([l2 R2] & _ & Hp).
  by apply (run_timeout_pending _ _ _ _ _ _ R2 Hnc Ha), Hp.
Qed.

Definition sample_event (fd : Z) : TimerEvent := mkTimerEvent IdleTimeout 1 0 fd 1 1.

(** A mailbox of one slot is full: the second event becomes a rescan. *)
Lemma timeout_events_not_lost_witness :
  let m0 := mkTimeoutMailbox (ring_make 1) 3 true false in
  exists m1 m2 m3 outs1 outs3,
    run_timeout m0 [TimeoutPost (sample_event 4) [IoBytes 8]] = Some (m1, outs1)
    /\ timeout_tryPost m1 (sample_event 5) [IoBytes 8] = Some (m2, true)
    /\ run_timeout m2 [TimeoutPop; TakeRescan] = Some (m3, outs3)
    /\ (pending (sample_event 5) m3 \/ Exists (delivered (sample_event 5)) outs3).
Proof.
  do 5 eexists. split; [vm_compute; reflexivity|]. split; [vm_compute; reflexivity|].
  split; [vm_compute; reflexivity|].
  eapply (timeout_events_not_lost 1 3 _ [TimeoutPost (sample_event 4) [IoBytes 8]]
    (sample_event 5) [IoBytes 8] [TimeoutPop; TakeRescan]);
    [done | reflexivity | vm_compute; reflexivity | vm_compute; reflexivity
    | vm_compute; reflexivity |].
  intros ?. repeat match goal with H : _ ∈ _ |- _ => apply elem_of_cons in H as [?|H]; [done|] end.
  by eapply not_elem_of_nil.
Defined.
