(* ===== verification/WorkerPool.v ===== *)
(** * WorkerPool: the bounded worker pool and cooperative cancellation

    Model of [bounded_worker_pool.{hpp,cpp}] and [cancellation.hpp].  Each
    critical section of [mutex_] is one function; a waiting condition
    variable is a section that is not enabled yet.  The threads are a step
    relation: any thread may run its next section, so every interleaving of
    submitters, workers, drain and join is a run.  A task is an identifier and
    its execution has no effect on the pool (a throwing task is swallowed by
    the worker).  The failure of [std::thread]'s constructor is not modelled. *)

From S2P Require Import Prelude Ring.
Open Scope Z_scope.

Module WorkerSubmitStatus.
Inductive t := Accepted | Rejected | Closed.
#[export] Instance eq_dec : EqDecision t.
Proof. solve_decision. Defined.
End WorkerSubmitStatus.

Module WorkerPoolStatus.
Inductive t := Ok | InvalidState | DeadlineExceeded | SelfJoin.
#[export] Instance eq_dec : EqDecision t.
Proof. solve_decision. Defined.
End WorkerPoolStatus.

Module PoolState.
Inductive t := Running | Closing | Stopped.
#[export] Instance eq_dec : EqDecision t.
Proof. solve_decision. Defined.
End PoolState.
#[export] Existing Instance PoolState.eq_dec.

Record BoundedWorkerPoolConfig := mkPoolConfig { thread_count : Z; queue_capacity : Z }.

(** A task: the object behind the [std::unique_ptr]. *)
Abbreviation Task := Z.

Record BoundedWorkerPool := mkPool {
  config_ : BoundedWorkerPoolConfig;
  pool_queue : ring Task;
  cancel_buffer_ : list (option Task);
  worker_ids_ : list Z;
  stop_requested : bool;
  inflight_ : Z;
  accepting_ : bool;
  join_in_progress_ : bool;
  join_status_ : WorkerPoolStatus.t;
  state_ : PoolState.t;
}.

Definition pool_validConfig (config : BoundedWorkerPoolConfig) : bool :=
  (0 <? thread_count config) && (0 <? queue_capacity config).

(** [std::thread::id{}] is 0. *)
Definition make_pool (config : BoundedWorkerPoolConfig) : result BoundedWorkerPool :=
  if negb (pool_validConfig config) then Throw "invalid pool config"
  else
    Ok (mkPool config (ring_make (queue_capacity config))
          (replicate (Z.to_nat (queue_capacity config)) None)
          (replicate (Z.to_nat (thread_count config)) 0)
          false 0 true false WorkerPoolStatus.Ok PoolState.Running).

Definition pool_trySubmit (p : BoundedWorkerPool) (task : option Task)
    : BoundedWorkerPool * WorkerSubmitStatus.t :=
  if negb (accepting_ p) then (p, WorkerSubmitStatus.Closed)
  else
    match task with
    | None => (p, WorkerSubmitStatus.Rejected)
    | Some task =>
        if queue_capacity (config_ p) <=? size (pool_queue p)
        then (p, WorkerSubmitStatus.Rejected)
        else
          (p <| pool_queue := ring_push (pool_queue p) task |>
             <| inflight_ := inflight_ p ⊕ 1 |>, WorkerSubmitStatus.Accepted)
    end.

Definition inflightCount (p : BoundedWorkerPool) : Z := inflight_ p.

Definition pool_close (p : BoundedWorkerPool) : BoundedWorkerPool :=
  if negb (accepting_ p) then p
  else p <| accepting_ := false |> <| state_ := PoolState.Closing |>.

(** [drainUntil] up to the wait: an answer, or the wait for the deadline.  The
    wait also ends, with [Ok], as soon as nothing is in flight. *)
Definition drain_check (p : BoundedWorkerPool) : option WorkerPoolStatus.t :=
  if (bool_decide (state_ p = PoolState.Stopped) || (inflight_ p =? 0))%bool
  then Some WorkerPoolStatus.Ok else None.

(** The cancellation loop: slot [queue_head_] moves to [cancel_buffer_[index]]. *)
Fixpoint cancel_loop (n index : nat) (q : ring Task) (buffer : list (option Task))
    : ring Task * list (option Task) :=
  match n with
  | O => (q, buffer)
  | S n =>
      let moved := mjoin (slots q !! Z.to_nat (head q)) in
      cancel_loop n (S index)
        (mkRing (<[Z.to_nat (head q) := None]> (slots q))
           (ring_next (ring_capacity q) (head q)) (tail q) (size q))
        (<[index := moved]> buffer)
  end.

(** The section after the deadline has passed: every queued task moves to the
    cancel buffer and leaves [inflight_]. *)
Definition drain_cancel (p : BoundedWorkerPool) : BoundedWorkerPool * Z :=
  let cancelled_now := size (pool_queue p) in
  let '(q, buffer) :=
    cancel_loop (Z.to_nat cancelled_now) 0 (pool_queue p) (cancel_buffer_ p) in
  (p <| pool_queue := mkRing (slots q) (head q) (head q) 0 |>
     <| cancel_buffer_ := buffer |>
     <| inflight_ := inflight_ p ⊖ cancelled_now |>, cancelled_now).

(** After the mutex is released: the stop request, and the destruction of the
    cancelled tasks. *)
Definition drain_release (p : BoundedWorkerPool) (cancelled_now : Z) : BoundedWorkerPool :=
  p <| stop_requested := true |>
    <| cancel_buffer_ :=
         replicate (Z.to_nat cancelled_now) None ++ drop (Z.to_nat cancelled_now) (cancel_buffer_ p) |>.

Definition isWorkerThreadLocked (p : BoundedWorkerPool) (thread_id : Z) : bool :=
  bool_decide (thread_id ∈ worker_ids_ p).

(** The first section of [join] ends with an answer, a wait for the join in
    progress, or the ownership of the threads. *)
Inductive JoinOutcome :=
| JoinReturn (s : WorkerPoolStatus.t)
| JoinWait
| JoinThreads.

Definition join_enter (p : BoundedWorkerPool) (caller : Z) : BoundedWorkerPool * JoinOutcome :=
  if isWorkerThreadLocked p caller then (p, JoinReturn WorkerPoolStatus.SelfJoin)
  else if bool_decide (state_ p = PoolState.Running)
  then (p, JoinReturn WorkerPoolStatus.InvalidState)
  else if join_in_progress_ p then (p, JoinWait)
  else if bool_decide (state_ p = PoolState.Stopped) then (p, JoinReturn (join_status_ p))
  else (p <| join_in_progress_ := true |>, JoinThreads).

(** The last section, after every thread has been joined. *)
Definition join_finish (p : BoundedWorkerPool) : BoundedWorkerPool :=
  p <| state_ := PoolState.Stopped |> <| join_status_ := WorkerPoolStatus.Ok |>
    <| join_in_progress_ := false |>.

(** ** The worker thread *)

Definition worker_register (p : BoundedWorkerPool) (worker_index : nat) (thread_id : Z)
    : BoundedWorkerPool :=
  p <| worker_ids_ := <[worker_index := thread_id]> (worker_ids_ p) |>.

Inductive TakeOutcome :=
| TakeBlocked
| TakeExit
| TakeTask (task : option Task).

(** One iteration of [workerLoop] up to the call of the task. *)
Definition worker_take (p : BoundedWorkerPool) (worker_index : nat)
    : BoundedWorkerPool * TakeOutcome :=
  if negb (negb (accepting_ p) || (0 <? size (pool_queue p)))%bool then (p, TakeBlocked)
  else if size (pool_queue p) =? 0
  then
    (if negb (accepting_ p)
     then (p <| worker_ids_ := <[worker_index := 0]> (worker_ids_ p) |>, TakeExit)
     else (p, TakeBlocked))
  else
    let '(q, task) := ring_pop (pool_queue p) in
    (p <| pool_queue := q |>, TakeTask task).

Definition worker_finish (p : BoundedWorkerPool) : BoundedWorkerPool :=
  p <| inflight_ := inflight_ p ⊖ 1 |>.

(** ** All threads together *)

Inductive Phase := Starting | Idle | Busy (task : Task) | Exited.

#[export] Instance Phase_eq_dec : EqDecision Phase.
Proof. solve_decision. Defined.

(** The pool, its worker threads, and the history: tasks accepted, taken by a
    worker, completed and cancelled, each in order. *)
Record System := mkSystem {
  pool : BoundedWorkerPool;
  workers : list Phase;
  accepted_tasks : list Task;
  taken_tasks : list Task;
  completed_tasks : list Task;
  cancelled_tasks : list Task;
}.

Definition start (config : BoundedWorkerPoolConfig) : result System :=
  match make_pool config with
  | Throw e => Throw e
  | Ok p => Ok (mkSystem p (replicate (Z.to_nat (thread_count config)) Starting) [] [] [] [])
  end.

Inductive step : System -> System -> Prop :=
| step_submit s t p' :
    pool_trySubmit (pool s) (Some t) = (p', WorkerSubmitStatus.Accepted) ->
    step s (s <| pool := p' |> <| accepted_tasks := accepted_tasks s ++ [t] |>)
| step_close s : step s (s <| pool := pool_close (pool s) |>)
| step_register s i id :
    workers s !! i = Some Starting ->
    step s (s <| pool := worker_register (pool s) i id |> <| workers := <[i := Idle]> (workers s) |>)
| step_take s i p' t :
    workers s !! i = Some Idle -> worker_take (pool s) i = (p', TakeTask (Some t)) ->
    step s (s <| pool := p' |> <| workers := <[i := Busy t]> (workers s) |>
              <| taken_tasks := taken_tasks s ++ [t] |>)
| step_exit s i p' :
    workers s !! i = Some Idle -> worker_take (pool s) i = (p', TakeExit) ->
    step s (s <| pool := p' |> <| workers := <[i := Exited]> (workers s) |>)
| step_finish s i t :
    workers s !! i = Some (Busy t) ->
    step s (s <| pool := worker_finish (pool s) |> <| workers := <[i := Idle]> (workers s) |>
              <| completed_tasks := completed_tasks s ++ [t] |>)
| step_cancel s p' n :
    (* [drainUntil] has closed the pool before it waits *)
    accepting_ (pool s) = false -> drain_check (pool s) = None ->
    drain_cancel (pool s) = (p', n) ->
    step s (s <| pool := p' |>
              <| cancelled_tasks := cancelled_tasks s ++ ring_contents (pool_queue (pool s)) |>)
| step_release s n : step s (s <| pool := drain_release (pool s) n |>)
| step_join s caller p' outcome :
    join_enter (pool s) caller = (p', outcome) -> step s (s <| pool := p' |>)
| step_joined s :
    (* [join_finish] runs after [thread.join] returned for every worker *)
    join_in_progress_ (pool s) = true -> Forall (fun ph => ph = Exited) (workers s) ->
    step s (s <| pool := join_finish (pool s) |>).

Definition reachable (config : BoundedWorkerPoolConfig) (s : System) : Prop :=
  exists s0, start config = Ok s0 /\ rtc step s0 s.

(** ** Tasks in execution *)

Definition phase_task (ph : Phase) : option Task :=
  match ph with Busy t => Some t | _ => None end.

Definition busy (ws : list Phase) : list Task := omap phase_task ws.

Lemma busy_insert ws i old new :
  ws !! i = Some old ->
  option_list (phase_task new) ++ busy ws ≡ₚ option_list (phase_task old) ++ busy (<[i := new]> ws).
Proof.
  intros Hi. unfold busy. rewrite (insert_take_drop _ _ _ (lookup_lt_Some _ _ _ Hi)).
  rewrite <-(take_drop_middle _ _ _ Hi) at 1. rewrite !omap_app. csimpl.
  destruct (phase_task old), (phase_task new); simpl; solve_Permutation.
Qed.

Lemma busy_length ws : (length (busy ws) <= length ws)%nat.
Proof. unfold busy. induction ws as [|w ws IH]; csimpl; [lia|]. destruct (phase_task w); simpl; lia. Qed.

Lemma busy_all_exited ws : Forall (fun ph => ph = Exited) ws -> busy ws = [].
Proof. induction 1 as [|w ws -> _ IH]; [done|]. exact IH. Qed.

Lemma elem_of_insert_or {A} (l : list A) i x y : x ∈ <[i := y]> l -> x = y \/ x ∈ l.
Proof.
  intros [j Hj]%list_elem_of_lookup_1. apply list_lookup_insert_Some in Hj
    as [(_ & -> & _)|[_ Hj]]; [by left | right; by eapply list_elem_of_lookup_2].
Qed.

Lemma cancel_loop_spec l q idx buffer t :
  ring_repr (mkRing (slots q) (head q) t (size_of l)) l ->
  let '(q', _) := cancel_loop (length l) idx q buffer in
  exists t', ring_repr (mkRing (slots q') (head q') t' 0) []
    /\ ring_capacity q' = ring_capacity q.
Proof.
  revert q idx buffer. induction l as [|x l IH]; intros q idx buffer R; [by exists t|].
  destruct (ring_pop_repr _ _ _ R) as [Rp _]. cbn [length cancel_loop].
  rewrite ring_pop_fst in Rp. simpl in Rp.
  set (q1 := mkRing _ _ _ _).
  specialize (IH q1 (S idx) (<[idx := mjoin (slots q !! Z.to_nat (head q))]> buffer)).
  assert (ring_capacity q1 = ring_capacity q) as Ec by apply ring_insert_capacity.
  destruct (cancel_loop _ _ _ _) as [q' b']. rewrite <-Ec. apply IH.
  replace (size_of l) with (size_of (x :: l) ⊖ 1); [exact Rp|].
  pose proof (rr_capacity _ _ R). pose proof (rr_fits _ _ R). pose proof (size_of_nonneg l).
  rewrite size_of_cons in *. rewrite wrap64_small; [lia|]. unfold is_u64. lia.
Qed.

(** ** The invariant *)

Record pool_inv (config : BoundedWorkerPoolConfig) (s : System) (l : list Task) : Prop := {
  pi_ring : ring_repr (pool_queue (pool s)) l;
  pi_config : config_ (pool s) = config;
  pi_capacity : ring_capacity (pool_queue (pool s)) = queue_capacity config;
  pi_threads : size_of (workers s) = thread_count config;
  pi_fifo : accepted_tasks s = taken_tasks s ++ cancelled_tasks s ++ l;
  pi_taken : taken_tasks s ≡ₚ completed_tasks s ++ busy (workers s);
  pi_inflight : inflight_ (pool s) = size_of l + size_of (busy (workers s));
  pi_cancelled : cancelled_tasks s <> [] -> accepting_ (pool s) = false /\ l = [];
  pi_exited : Exited ∈ workers s -> accepting_ (pool s) = false /\ l = [];
  pi_running : state_ (pool s) = PoolState.Running <-> accepting_ (pool s) = true;
  pi_joining : join_in_progress_ (pool s) = true -> state_ (pool s) = PoolState.Closing;
  pi_stopped : state_ (pool s) = PoolState.Stopped -> Forall (fun ph => ph = Exited) (workers s);
}.

Section Invariant.
Context (config : BoundedWorkerPoolConfig).
Context (Hfits : queue_capacity config + thread_count config < two64).

Ltac use_inv I :=
  pose proof I as [Ir Icf Icap Ith If It Iin Ican Iex Irun Ijoin Istop].

(** The counter never wraps: at most the queue and one task per worker. *)
Lemma inflight_bound s l :
  pool_inv config s l ->
  0 <= size_of l <= queue_capacity config
  /\ 0 <= size_of (busy (workers s)) <= thread_count config.
Proof.
  intros I. pose proof (rr_fits _ _ (pi_ring _ _ _ I)). rewrite (pi_capacity _ _ _ I) in *.
  rewrite <-(pi_threads _ _ _ I). pose proof (busy_length (workers s)).
  unfold size_of in *. lia.
Qed.

Lemma submit_inv s l t p' :
  pool_inv config s l -> pool_trySubmit (pool s) (Some t) = (p', WorkerSubmitStatus.Accepted) ->
  pool_inv config (s <| pool := p' |> <| accepted_tasks := accepted_tasks s ++ [t] |>) (l ++ [t]).
Proof.
  intros I. pose proof (inflight_bound s l I). use_inv I. unfold pool_trySubmit.
  destruct (accepting_ (pool s)) eqn:Ea; simpl; [|done].
  destruct (Z.leb_spec (queue_capacity (config_ (pool s))) (size (pool_queue (pool s))));
    [done|]. intros [= <-]. rewrite (rr_size _ _ Ir), Icf in *.
  split; simpl; try done; try (rewrite ?Ea; done).
  - apply ring_push_repr; [done | lia].
  - by rewrite ring_push_capacity.
  - by rewrite If, <-!app_assoc.
  - rewrite Iin, size_of_app, size_of_cons, size_of_nil, wrap64_small by (unfold is_u64; lia). lia.
  - intros ?. destruct Ican; [done|congruence].
  - intros ?. destruct Iex; [done|congruence].
Qed.

Lemma take_inv s l i p' t :
  pool_inv config s l -> workers s !! i = Some Idle ->
  worker_take (pool s) i = (p', TakeTask (Some t)) ->
  exists l', pool_inv config (s <| pool := p' |> <| workers := <[i := Busy t]> (workers s) |>
                          <| taken_tasks := taken_tasks s ++ [t] |>) l'.
Proof.
  intros I Hi. use_inv I. unfold worker_take.
  destruct (negb _); [done|]. rewrite (ring_size_zero _ _ Ir).
  destruct l as [|x l]; simpl; [by destruct (accepting_ (pool s))|].
  destruct (ring_pop_repr _ _ _ Ir) as [Rp Ep].
  pose proof (ring_pop_capacity (pool_queue (pool s))) as Ec.
  destruct (ring_pop (pool_queue (pool s))) as [q y]. simpl in *. subst y. intros [= <- <-].
  pose proof (busy_insert _ _ _ (Busy x) Hi) as Hb. simpl in Hb.
  assert (cancelled_tasks s = []) as Enc by (destruct (cancelled_tasks s); [done|];
    destruct Ican as [_ ?]; done).
  exists l. split; simpl; try done.
  - congruence.
  - unfold size_of in *. by rewrite length_insert.
  - rewrite If, Enc. simpl. by rewrite <-app_assoc.
  - rewrite It, <-app_assoc, <-Hb. solve_Permutation.
  - rewrite Iin, size_of_cons. apply Permutation_length in Hb. unfold size_of. simpl in Hb. lia.
  - intros [?|?]%elem_of_insert_or; [done|]. by destruct Iex.
  - intros Hs. exfalso. apply Istop in Hs. rewrite Forall_lookup in Hs. by specialize (Hs _ _ Hi).
Qed.

Lemma exit_inv s l i p' :
  pool_inv config s l -> workers s !! i = Some Idle -> worker_take (pool s) i = (p', TakeExit) ->
  pool_inv config (s <| pool := p' |> <| workers := <[i := Exited]> (workers s) |>) l.
Proof.
  intros I Hi. use_inv I. unfold worker_take.
  destruct (negb _); [done|]. rewrite (ring_size_zero _ _ Ir).
  destruct l as [|x l]; simpl; [|by destruct (ring_pop _)].
  destruct (accepting_ (pool s)) eqn:Ea; simpl; [done|]. intros [= <-].
  pose proof (busy_insert _ _ _ Exited Hi) as Hb. simpl in Hb.
  split; simpl; try done; try (rewrite ?Ea; done).
  - unfold size_of in *. by rewrite length_insert.
  - by rewrite <-Hb.
  - rewrite Iin. apply Permutation_length in Hb. unfold size_of. lia.
  - intros Hs. apply Forall_insert; [by apply Istop | done].
Qed.

Lemma finish_inv s l i t :
  pool_inv config s l -> workers s !! i = Some (Busy t) ->
  pool_inv config (s <| pool := worker_finish (pool s) |> <| workers := <[i := Idle]> (workers s) |>
                     <| completed_tasks := completed_tasks s ++ [t] |>) l.
Proof.
  intros I Hi. pose proof (inflight_bound s l I) as [Hb1 Hb2]. use_inv I.
  pose proof (busy_insert _ _ _ Idle Hi) as Hb. simpl in Hb.
  split; simpl; try done.
  - unfold size_of in *. by rewrite length_insert.
  - rewrite It, Hb. solve_Permutation.
  - apply Permutation_length in Hb. simpl in Hb. unfold size_of in *.
    rewrite Iin, wrap64_small; [lia|]. unfold is_u64. lia.
  - intros [?|?]%elem_of_insert_or; [done|]. by apply Iex.
  - intros Hs. exfalso. apply Istop in Hs. rewrite Forall_lookup in Hs. by specialize (Hs _ _ Hi).
Qed.

Lemma pool_cancel_inv s l p' n :
  pool_inv config s l -> accepting_ (pool s) = false -> drain_check (pool s) = None ->
  drain_cancel (pool s) = (p', n) ->
  pool_inv config (s <| pool := p' |>
    <| cancelled_tasks := cancelled_tasks s ++ ring_contents (pool_queue (pool s)) |>) [].
Proof.
  intros I Ha _. pose proof (inflight_bound s l I) as [Hb1 Hb2]. use_inv I. unfold drain_cancel.
  rewrite (ring_contents_repr _ _ Ir). pose proof (rr_size _ _ Ir) as Es.
  assert (Z.to_nat (size (pool_queue (pool s))) = length l) as ->
    by (rewrite Es; unfold size_of; lia).
  pose proof (cancel_loop_spec l (pool_queue (pool s)) 0 (cancel_buffer_ (pool s))
    (tail (pool_queue (pool s)))) as Hl.
  destruct (cancel_loop _ _ _ _) as [q b]. intros [= <- <-].
  destruct Hl as (t' & R' & Ec); [rewrite <-Es; by destruct (pool_queue (pool s))|].
  pose proof (ring_empty_tail _ R') as Et. simpl in Et.
  split; simpl; rewrite ?Et; try done; try (rewrite ?Ha; done).
  - unfold ring_capacity in *. simpl. congruence.
  - by rewrite If, app_nil_r.
  - rewrite Iin, Es, size_of_nil. rewrite wrap64_small; [lia|]. unfold is_u64. lia.
Qed.

Lemma join_inv s l caller p' o :
  pool_inv config s l -> join_enter (pool s) caller = (p', o) ->
  pool_inv config (s <| pool := p' |>) l.
Proof.
  intros I. use_inv I. unfold join_enter.
  destruct (isWorkerThreadLocked _ _); [intros [= <- <-]; by split|].
  case_bool_decide as Er; [intros [= <- <-]; by split|].
  destruct (join_in_progress_ (pool s)) eqn:Ej; [intros [= <- <-]; split; simpl; by rewrite ?Ej|].
  case_bool_decide as Es; [intros [= <- <-]; split; simpl; by rewrite ?Ej|].
  intros [= <- <-]. split; simpl; try done. intros _. by destruct (state_ (pool s)).
Qed.

Lemma step_inv s s' l : pool_inv config s l -> step s s' -> exists l', pool_inv config s' l'.
Proof.
  intros I Hs. destruct Hs.
  - eexists. by apply submit_inv.
  - exists l. use_inv I. unfold pool_close. destruct (accepting_ (pool s)) eqn:Ea; simpl.
    + split; simpl; try done; intros; try done.
      * by split; [|apply Ican].
      * by split; [|apply Iex].
    + split; simpl; try done; by rewrite Ea.
  - exists l. use_inv I. pose proof (busy_insert _ _ _ Idle H) as Hb. simpl in Hb.
    split; simpl; try done.
    + unfold size_of in *. by rewrite length_insert.
    + by rewrite <-Hb.
    + rewrite Iin. apply Permutation_length in Hb. unfold size_of. lia.
    + intros [?|?]%elem_of_insert_or; [done|]. by apply Iex.
    + intros Hst. exfalso. apply Istop in Hst. rewrite Forall_lookup in Hst.
      by specialize (Hst _ _ H).
  - by eapply take_inv.
  - eexists. by eapply exit_inv.
  - eexists. by eapply finish_inv.
  - eexists. by eapply pool_cancel_inv.
  - exists l. use_inv I. by split.
  - exists l. by eapply join_inv.
  - exists l. use_inv I. specialize (Ijoin H). split; simpl; try done.
    split; [done|]. intros Ha. apply Irun in Ha. congruence.
Qed.

Lemma start_inv s0 : start config = Ok s0 -> pool_inv config s0 [].
Proof.
  unfold start, make_pool, pool_validConfig.
  destruct (Z.ltb_spec 0 (thread_count config)), (Z.ltb_spec 0 (queue_capacity config));
    simpl; try done. intros [= <-].
  assert (forall n, busy (replicate n Starting) = []) as Eb by (induction n; done).
  split; simpl; rewrite ?Eb; try done.
  - apply ring_make_repr. lia.
  - unfold ring_capacity, size_of. simpl. rewrite length_replicate. lia.
  - unfold size_of. rewrite length_replicate. lia.
  - intros [? _]%elem_of_replicate. done.
Qed.

Lemma pool_reachable_inv s : reachable config s -> exists l, pool_inv config s l.
Proof.
  intros (s0 & H0 & Hr). apply start_inv in H0.
  assert (exists l, pool_inv config s0 l) as Hs by eauto. clear H0.
  induction Hr as [|s1 s2 s3 Hst _ IH]; [done|]. destruct Hs as [l I].
  apply IH. by eapply step_inv.
Qed.
End Invariant.

(** C31. In every reachable state of the pool and its threads the tasks are
    conserved: the accepted tasks are, in order, those taken by a worker, those
    cancelled and those still queued; a taken task is completed or in the hands
    of exactly one worker; and [inflightCount] is the number of accepted tasks
    that are neither completed nor cancelled.  The queue stays within its
    capacity. *)
Theorem pool_conserves_tasks config s :
  queue_capacity config + thread_count config < two64 -> reachable config s ->
  let queued := ring_contents (pool_queue (pool s)) in
  accepted_tasks s = taken_tasks s ++ cancelled_tasks s ++ queued
  /\ taken_tasks s ≡ₚ completed_tasks s ++ busy (workers s)
  /\ inflightCount (pool s) + size_of (completed_tasks s) + size_of (cancelled_tasks s)
     = size_of (accepted_tasks s)
  /\ size_of queued <= queue_capacity config.
Proof.
  intros Hf Hr. destruct (pool_reachable_inv config Hf s Hr) as [l I].
  rewrite (ring_contents_repr _ _ (pi_ring _ _ _ I)).
  pose proof (pi_taken _ _ _ I) as Ht. pose proof (rr_fits _ _ (pi_ring _ _ _ I)) as Hfit.
  rewrite (pi_capacity _ _ _ I) in Hfit.
  split_and!; [apply I | done | | done].
  unfold inflightCount. rewrite (pi_inflight _ _ _ I), (pi_fifo _ _ _ I), !size_of_app.
  apply Permutation_length in Ht. rewrite length_app in Ht. unfold size_of in *. lia.
Qed.

(** Once [join] has stopped the pool nothing is left behind: every worker
    has exited, no task is queued or in flight, every accepted task was
    completed or cancelled, exactly once, and further submissions are refused. *)
Theorem pool_stopped_is_drained config s task :
  queue_capacity config + thread_count config < two64 -> reachable config s ->
  state_ (pool s) = PoolState.Stopped ->
  Forall (fun ph => ph = Exited) (workers s)
  /\ inflightCount (pool s) = 0
  /\ accepted_tasks s ≡ₚ completed_tasks s ++ cancelled_tasks s
  /\ pool_trySubmit (pool s) task = (pool s, WorkerSubmitStatus.Closed).
Proof.
  intros Hf Hr Hs. destruct (pool_reachable_inv config Hf s Hr) as [l I].
  destruct I as [Ir Icf Icap Ith If It Iin Ican Iex Irun Ijoin Istop].
  pose proof (Istop Hs) as Hall. pose proof (busy_all_exited _ Hall) as Eb. rewrite Eb in *.
  assert (accepting_ (pool s) = false) as Ea.
  { destruct (accepting_ (pool s)); [|done]. by rewrite (proj2 Irun eq_refl) in Hs. }
  assert (l = []) as ->.
  { destruct (workers s) as [|w ws]; [|apply Iex; apply Forall_cons in Hall as [-> _]; left].
    exfalso. destruct Hr as (s0 & H0 & _). rewrite size_of_nil in Ith.
    unfold start, make_pool, pool_validConfig in H0. by rewrite <-Ith in H0. }
  split_and!; [done | done | |].
  - by rewrite If, It, !app_nil_r.
  - unfold pool_trySubmit. by rewrite Ea.
Qed.

(** ** Shutdown completes *)

Definition phase_weight (ph : Phase) : nat :=
  match ph with Exited => 0 | Idle => 1 | Busy _ => 2 | Starting => 2 end.

Definition weight (ws : list Phase) : nat := sum_list_with phase_weight ws.

Lemma weight_insert ws i old new :
  ws !! i = Some old ->
  (weight (<[i := new]> ws) + phase_weight old = weight ws + phase_weight new)%nat.
Proof.
  intros Hi. unfold weight. rewrite (insert_take_drop _ _ _ (lookup_lt_Some _ _ _ Hi)).
  rewrite <-(take_drop_middle _ _ _ Hi) at 3. rewrite !sum_list_with_app. simpl. lia.
Qed.

Definition remaining_work (s : System) : nat :=
  3 * Z.to_nat (size (pool_queue (pool s))) + weight (workers s).

Section Shutdown.
Context (config : BoundedWorkerPoolConfig).
Context (Hfits : queue_capacity config + thread_count config < two64).

(** A closed pool with a live worker can always run one of its workers. *)
Lemma worker_progress s l :
  pool_inv config s l -> accepting_ (pool s) = false ->
  Forall (fun ph => ph = Exited) (workers s)
  \/ exists s', step s s' /\ (remaining_work s' < remaining_work s)%nat
       /\ accepting_ (pool s') = false /\ cancelled_tasks s' = cancelled_tasks s
       /\ accepted_tasks s' = accepted_tasks s.
Proof.
  intros I Ha. destruct (decide (Forall (fun ph => ph = Exited) (workers s))) as [|Hn]; [by left|].
  right. apply not_Forall_Exists, Exists_exists in Hn as (ph & Hin & Hne); [|apply _].
  apply list_elem_of_lookup_1 in Hin as [i Hi]. pose proof (pi_ring _ _ _ I) as R.
  unfold remaining_work. destruct ph; [| |..|by destruct Hne].
  - eexists. split; [by apply (step_register s i 1)|]. simpl.
    pose proof (weight_insert _ _ _ Idle Hi). simpl in *. split_and!; try done. lia.
  - destruct (worker_take (pool s) i) as [p' o] eqn:Et. pose proof Et as Et'.
    unfold worker_take in Et. rewrite Ha, (ring_size_zero _ _ R) in Et. simpl in Et.
    destruct l as [|x l]; simpl in Et.
    + injection Et as <- <-. eexists. split; [exact (step_exit s i _ Hi Et')|]. simpl.
      pose proof (weight_insert _ _ _ Exited Hi). simpl in *. split_and!; try done. lia.
    + destruct (ring_pop_repr _ _ _ R) as [Rp Ep].
      destruct (ring_pop (pool_queue (pool s))) as [q y] eqn:Eq. simpl in *. subst y.
      injection Et as <- <-. eexists. split; [exact (step_take s i _ _ Hi Et')|]. simpl.
      pose proof (weight_insert _ _ _ (Busy x) Hi). simpl in *. split_and!; try done.
      rewrite (rr_size _ _ Rp), (rr_size _ _ R). unfold size_of. simpl. lia.
  - eexists. split; [by eapply step_finish|]. simpl.
    pose proof (weight_insert _ _ _ Idle Hi). simpl in *. split_and!; try done. lia.
Qed.

Lemma drains_from n s l :
  (remaining_work s <= n)%nat -> pool_inv config s l -> accepting_ (pool s) = false ->
  exists s', rtc step s s' /\ Forall (fun ph => ph = Exited) (workers s')
    /\ cancelled_tasks s' = cancelled_tasks s /\ accepted_tasks s' = accepted_tasks s.
Proof.
  revert s l. induction n as [|n IH]; intros s l Hn I Ha;
    (destruct (worker_progress s l I Ha) as [Hall|(s1 & Hst & Hlt & Ha1 & Hc1 & Hac1)];
     [exists s; split_and!; try done; apply rtc_refl|]); [lia|].
  destruct (step_inv config Hfits _ _ _ I Hst) as [l1 I1].
  destruct (IH s1 l1) as (s' & Hr & ? & Hc & Hac); [lia | done | done|].
  exists s'. split_and!; [by eapply rtc_l | done | congruence..].
Qed.
End Shutdown.


(** ** Executable schedules *)

Inductive Move :=
| MSubmit (t : Task) | MClose | MRegister (i : nat) (id : Z) | MTake (i : nat) | MExit (i : nat)
| MFinish (i : nat) | MCancel | MRelease (n : Z) | MJoin (caller : Z) | MJoined.

Definition exec_move (s : System) (m : Move) : option System :=
  match m with
  | MSubmit t =>
      let '(p', st) := pool_trySubmit (pool s) (Some t) in
      match st with
      | WorkerSubmitStatus.Accepted =>
          Some (s <| pool := p' |> <| accepted_tasks := accepted_tasks s ++ [t] |>)
      | _ => None
      end
  | MClose => Some (s <| pool := pool_close (pool s) |>)
  | MRegister i id =>
      if bool_decide (workers s !! i = Some Starting)
      then Some (s <| pool := worker_register (pool s) i id |>
                   <| workers := <[i := Idle]> (workers s) |>) else None
  | MTake i =>
      if bool_decide (workers s !! i = Some Idle)
      then match worker_take (pool s) i with
           | (p', TakeTask (Some t)) =>
               Some (s <| pool := p' |> <| workers := <[i := Busy t]> (workers s) |>
                       <| taken_tasks := taken_tasks s ++ [t] |>)
           | _ => None
           end else None
  | MExit i =>
      if bool_decide (workers s !! i = Some Idle)
      then match worker_take (pool s) i with
           | (p', TakeExit) => Some (s <| pool := p' |> <| workers := <[i := Exited]> (workers s) |>)
           | _ => None
           end else None
  | MFinish i =>
      match workers s !! i with
      | Some (Busy t) =>
          Some (s <| pool := worker_finish (pool s) |> <| workers := <[i := Idle]> (workers s) |>
                  <| completed_tasks := completed_tasks s ++ [t] |>)
      | _ => None
      end
  | MCancel =>
      match accepting_ (pool s), drain_check (pool s), drain_cancel (pool s) with
      | false, None, (p', _) =>
          Some (s <| pool := p' |>
                  <| cancelled_tasks := cancelled_tasks s ++ ring_contents (pool_queue (pool s)) |>)
      | _, _, _ => None
      end
  | MRelease n => Some (s <| pool := drain_release (pool s) n |>)
  | MJoin caller => Some (s <| pool := (join_enter (pool s) caller).1 |>)
  | MJoined =>
      if join_in_progress_ (pool s) && bool_decide (Forall (fun ph => ph = Exited) (workers s))
      then Some (s <| pool := join_finish (pool s) |>) else None
  end.

Lemma exec_move_sound s m s' : exec_move s m = Some s' -> step s s'.
Proof.
  destruct m; simpl; intros E.
  - destruct (pool_trySubmit _ _) as [p' []] eqn:Es; simplify_eq. by apply step_submit.
  - simplify_eq. apply step_close.
  - case_bool_decide; simplify_eq. by apply step_register.
  - case_bool_decide; [|done]. destruct (worker_take _ _) as [p' [| |[t|]]] eqn:Et; simplify_eq.
    by eapply step_take.
  - case_bool_decide; [|done]. destruct (worker_take _ _) as [p' [| |[t|]]] eqn:Et; simplify_eq.
    by eapply step_exit.
  - destruct (workers s !! i) as [[]|] eqn:Ei; simplify_eq. by eapply step_finish.
  - destruct (accepting_ _) eqn:Ea; [done|]. destruct (drain_check _) eqn:Ed; [done|].
    destruct (drain_cancel _) eqn:Ec. simplify_eq. by eapply step_cancel.
  - simplify_eq. apply step_release.
  - destruct (join_enter _ _) eqn:Ej. simplify_eq. by eapply step_join.
  - destruct (join_in_progress_ _) eqn:Ej; simpl in E; [|done]. case_bool_decide; simplify_eq.
    by apply step_joined.
Qed.

Lemma exec_sound ms s s' : foldl (fun o m => o ≫= fun s => exec_move s m) (Some s) ms = Some s' ->
  rtc step s s'.
Proof.
  revert s. induction ms as [|m ms IH]; simpl; intros s E; [simplify_eq; apply rtc_refl|].
  destruct (exec_move s m) as [s1|] eqn:Em; simpl in E.
  - eapply rtc_l; [by eapply exec_move_sound | by apply IH].
  - exfalso. clear Em IH. induction ms; simpl in E; [done | auto].
Qed.

(** A run of one worker: two tasks are submitted; the first is executed, the
    pool is drained with the deadline passed while it runs, which cancels the
    second, and joined. *)
Definition sample_config : BoundedWorkerPoolConfig := mkPoolConfig 1 2.

Definition sample_end : System :=
  mkSystem
    (mkPool sample_config (mkRing [None; None] 0 0 0) [None; None] [0] true 0 false false
       WorkerPoolStatus.Ok PoolState.Stopped)
    [Exited] [7; 8] [7] [7] [8].

Lemma sample_run : reachable sample_config sample_end.
Proof.
  eexists. split; [reflexivity|].
  apply (exec_sound [MRegister 0 1; MSubmit 7; MSubmit 8; MTake 0; MClose; MCancel; MRelease 1;
    MFinish 0; MExit 0; MJoin 99; MJoined]).
  vm_compute. reflexivity.
Qed.

Lemma pool_conserves_tasks_witness :
  reachable sample_config sample_end
  /\ (let queued := ring_contents (pool_queue (pool sample_end)) in
      accepted_tasks sample_end = taken_tasks sample_end ++ cancelled_tasks sample_end ++ queued
      /\ taken_tasks sample_end ≡ₚ completed_tasks sample_end ++ busy (workers sample_end)
      /\ inflightCount (pool sample_end) + size_of (completed_tasks sample_end)
         + size_of (cancelled_tasks sample_end) = size_of (accepted_tasks sample_end)
      /\ size_of queued <= queue_capacity sample_config).
Proof. split; [exact sample_run | apply (pool_conserves_tasks sample_config); [done | exact sample_run]]. Defined.

Lemma pool_stopped_is_drained_witness :
  Forall (fun ph => ph = Exited) (workers sample_end)
  /\ inflightCount (pool sample_end) = 0
  /\ accepted_tasks sample_end ≡ₚ completed_tasks sample_end ++ cancelled_tasks sample_end
  /\ pool_trySubmit (pool sample_end) (Some 9) = (pool sample_end, WorkerSubmitStatus.Closed).
Proof. apply (pool_stopped_is_drained sample_config); [done | exact sample_run | done]. Defined.

