(* ===== verification/Ticker.v ===== *)
(** * Ticker: the periodic tick of the maintenance components

    [FeatureStateMaintenance] ([app/feature_state_maintenance.cpp]) and
    [BlacklistMaintenance] ([app/blacklist_maintenance.cpp]) share the same
    fields and the same code for their periodic timer: [start], the first
    section of [stop], the test that opens [tryPost], and
    [scheduleNextLocked].  They are written once here, for the kind of the
    tick, the interval and the sink; the two components instantiate them.  The
    theorems are proved against the interface [ITimerScheduler]. *)

From S2P Require Import Prelude Posix PriorityQueue TimerCore Timer Scheduler.
Open Scope Z_scope.

Record Ticker := mkTicker {
  active_timer_ : TimerId;
  active_sequence_ : Z;
  tick_next_sequence_ : Z;
  running_ : bool;
  tick_stopped_ : bool;
}.

Definition fresh_ticker : Ticker := mkTicker null_timer 0 1 false false.

Section Ticker.
Context {E : Type} `{ITimerScheduler E}.
Context (tick_kind : TimerEventKind) (interval self : Z).

Definition tick_event (sequence : Z) : TimerEvent := mkTimerEvent tick_kind 1 0 (-1) 0 sequence.

(** [scheduleNextLocked]; [now] is the reading of the steady clock. *)
Definition schedule_next (t : Ticker) (e : E) (now : Z) : Ticker * E * bool :=
  let sequence := tick_next_sequence_ t in
  let t := t <| tick_next_sequence_ := sequence ⊕ 1 |> in
  if sequence =? 0 then (t, e, false)
  else
    let '(e, (status, id)) := sched_scheduleAt e (now + interval) self (tick_event sequence) in
    if negb (bool_decide (status = TimerStatus.Ok)) then (t, e, false)
    else (t <| active_timer_ := id |> <| active_sequence_ := sequence |>, e, true).

(** [start] *)
Definition ticker_start (t : Ticker) (e : E) (now : Z) : Ticker * E * bool :=
  if tick_stopped_ t then (t, e, false)
  else if running_ t then (t, e, true)
  else
    let '(t, e, scheduled) := schedule_next (t <| running_ := true |>) e now in
    if scheduled then (t, e, true) else (t <| running_ := false |>, e, false).

(** The section of [stop], with the timer it cancels after it. *)
Definition ticker_stop (t : Ticker) : Ticker * option TimerId :=
  if tick_stopped_ t then (t, None)
  else
    (t <| tick_stopped_ := true |> <| running_ := false |> <| active_sequence_ := 0 |>
       <| active_timer_ := null_timer |>,
     if timer_valid (active_timer_ t) then Some (active_timer_ t) else None).

(** The test that opens [tryPost]. *)
Definition tick_current (t : Ticker) (ev : TimerEvent) : bool :=
  negb (negb (running_ t) || negb (bool_decide (kind ev = tick_kind))
        || (target_sequence ev =? 0) || negb (target_sequence ev =? active_sequence_ t))%bool.

Definition tick_consume (t : Ticker) : Ticker :=
  t <| active_timer_ := null_timer |> <| active_sequence_ := 0 |>.

(** ** What keeps the ticks coming *)

Context `{!TimerSchedulerLaws E}.

(** The current timer is armed, its event is on its way, or the service stops. *)
Definition tick_coming (t : Ticker) (e : E) (in_hand : list TimerEvent) : Prop :=
  sched_armed e (active_timer_ t) self (tick_event (active_sequence_ t))
  \/ tick_event (active_sequence_ t) ∈ in_hand \/ sched_halted e.

Record ticker_inv (t : Ticker) (e : E) (in_hand : list TimerEvent) : Prop := {
  ti_wf : sched_wf e;
  ti_stopped : tick_stopped_ t = true -> running_ t = false;
  ti_idle : running_ t = false -> active_sequence_ t = 0;
  ti_none : active_sequence_ t = 0 -> active_timer_ t = null_timer;
  ti_some : active_sequence_ t <> 0 -> timer_valid (active_timer_ t) = true;
  ti_armed : active_sequence_ t <> 0 -> tick_coming t e in_hand;
}.

Lemma schedule_next_spec t e now in_hand t' e' ok :
  ticker_inv t e in_hand -> active_sequence_ t = 0 -> running_ t = true ->
  schedule_next t e now = (t', e', ok) ->
  ticker_inv t' e' in_hand /\ running_ t' = true /\ tick_stopped_ t' = tick_stopped_ t
  /\ (ok = true <-> active_sequence_ t' <> 0).
Proof.
  intros [] Hseq Hrun. unfold schedule_next. simpl.
  destruct (Z.eqb_spec (tick_next_sequence_ t) 0) as [E0|E0].
  { intros [= <- <- <-]. by split_and!. }
  destruct (sched_scheduleAt _ _ _ _) as [e1 [status id]] eqn:Es.
  destruct (law_schedule _ _ _ _ _ _ _ ti_wf0 Es) as (Hwf & Hhalt & Hok & _).
  case_bool_decide as Hb; simpl; intros [= <- <- <-]; simpl.
  - destruct (Hok Hb) as [Hv Ha]. split_and!; try done.
    split; simpl; try done; [congruence|]. intros _. by left.
  - by split_and!.
Qed.

Lemma ticker_start_spec t e now in_hand t' e' ok :
  ticker_inv t e in_hand -> ticker_start t e now = (t', e', ok) ->
  ticker_inv t' e' in_hand /\ tick_stopped_ t' = tick_stopped_ t
  /\ ok = running_ t' /\ (running_ t' = true -> t' = t \/ active_sequence_ t' <> 0).
Proof.
  intros Hinv. unfold ticker_start. destruct (tick_stopped_ t) eqn:Est.
  { intros [= <- <- <-]. rewrite (ti_stopped _ _ _ Hinv Est). split_and!; try done. }
  destruct (running_ t) eqn:Er.
  { intros [= <- <- <-]. rewrite Er. split_and!; auto. }
  pose proof (ti_idle _ _ _ Hinv Er) as Hs.
  destruct (schedule_next _ e now) as [[t1 e1] ok1] eqn:En.
  apply (schedule_next_spec _ _ _ in_hand) in En as (Hinv1 & Hr1 & Hst1 & Hok1); [| |done|done].
  2: { destruct Hinv. split; simpl; auto; congruence. }
  simpl in Hst1. rewrite Est in Hst1. destruct ok1; intros [= <- <- <-].
  - rewrite Hr1. split_and!; try done. intros _. right. by apply Hok1.
  - simpl. split_and!; try done. assert (active_sequence_ t1 = 0) as Hz.
    { destruct (Z.eq_dec (active_sequence_ t1) 0) as [|n]; [done|]. by apply Hok1 in n. }
    destruct Hinv1. by split; simpl; auto.
Qed.

Lemma ticker_stop_spec t e in_hand t' id :
  ticker_inv t e in_hand -> ticker_stop t = (t', id) ->
  ticker_inv t' e in_hand /\ tick_stopped_ t' = true /\ running_ t' = false
  /\ (running_ t = true -> active_sequence_ t <> 0 -> id = Some (active_timer_ t)).
Proof.
  intros Hinv. unfold ticker_stop. destruct (tick_stopped_ t) eqn:Est.
  { intros [= <- <-]. pose proof (ti_stopped _ _ _ Hinv Est) as Hr. rewrite Hr. by split_and!. }
  intros [= <- <-]. simpl. split_and!; try done.
  - destruct Hinv. split; simpl; auto; done.
  - intros _ Hs. by rewrite (ti_some _ _ _ Hinv Hs).
Qed.

Lemma tick_consume_spec t e in_hand :
  ticker_inv t e in_hand ->
  ticker_inv (tick_consume t) e in_hand /\ active_sequence_ (tick_consume t) = 0.
Proof. intros []. split; [|done]. split; simpl; auto; done. Qed.

Lemma tick_current_true t ev :
  tick_current t ev = true ->
  running_ t = true /\ kind ev = tick_kind /\ target_sequence ev = active_sequence_ t
  /\ active_sequence_ t <> 0.
Proof.
  unfold tick_current. intros Hc. bool_to_prop. split_and!; try done. congruence.
Qed.

(** What other threads, a delivery and a cancel do to a ticker. *)
Lemma ticker_other t e in_hand e' posts :
  ticker_inv t e in_hand -> sched_other self e e' posts -> ticker_inv t e' (in_hand ++ posts).
Proof.
  intros [] Ho. destruct (law_other _ _ _ _ ti_wf0 Ho) as (Hwf & Hh & Ha).
  split; auto. intros Hs. unfold tick_coming. rewrite elem_of_app.
  destruct (ti_armed0 Hs) as [Hx|[Hx|Hx]]; [apply Ha in Hx as [?|[?|?]]| |]; auto.
Qed.

Lemma ticker_cancel t e in_hand id e' status :
  ticker_inv t e in_hand -> id <> active_timer_ t -> sched_cancel e id = (e', status) ->
  ticker_inv t e' in_hand.
Proof.
  intros [] Hid Hc. destruct (law_cancel _ _ _ _ ti_wf0 Hc) as (Hwf & Hh & _ & Ha).
  split; auto. intros Hs. unfold tick_coming.
  destruct (ti_armed0 Hs) as [Hx|[Hx|Hx]]; [apply Ha in Hx as [?|?]| |]; auto.
Qed.

(** An event that is not the current tick may be dropped. *)
Lemma ticker_deliver t e l ev k :
  ticker_inv t e (l ++ ev :: k) -> tick_current t ev = false -> ticker_inv t e (l ++ k).
Proof.
  intros [] Hc. split; auto. intros Hs. unfold tick_coming in *.
  destruct (ti_armed0 Hs) as [Hx|[Hx|Hx]]; auto. right. left.
  apply elem_of_app in Hx as [Hx|[Hx|Hx]%elem_of_cons]; [apply elem_of_app; auto| |apply elem_of_app; auto].
  exfalso. assert (running_ t = true) as Hr.
  { destruct (running_ t); [done|]. by rewrite ti_idle0 in Hs. }
  unfold tick_current in Hc. subst ev. simpl in Hc. rewrite Hr, bool_decide_true, Z.eqb_refl in Hc by done.
  apply Z.eqb_neq in Hs. rewrite Hs in Hc. done.
Qed.
End Ticker.
