(* ===== verification/FeatureMaintenance.v ===== *)
(** * FeatureMaintenance: periodic reclamation of feature states

    Model of [app/feature_state_maintenance.{hpp,cpp}].  A timer tick asks for a
    round, the round is a task of the maintenance pool, and at most one is in
    flight.  Each critical section of [mutex_] is one function; the timer
    service is any implementation of [ITimerScheduler], the answer of the pool
    is an argument, and the system below lets all threads interleave. *)

From S2P Require Import Prelude Posix PriorityQueue TimerCore Timer Scheduler Ticker FeatureStore.
From S2P Require Import WorkerPool.
Open Scope Z_scope.

#[export] Existing Instance WorkerSubmitStatus.eq_dec.

Record FeatureStateMaintenance := mkFeatureMaintenance {
  cleanup_interval : Z;
  ticker_ : Ticker;
  round_inflight_ : bool;
}.

Definition create (interval : Z) : result FeatureStateMaintenance :=
  if interval <=? 0 then Throw "invalid maintenance config"
  else Ok (mkFeatureMaintenance interval fresh_ticker false).

Section FeatureMaintenance.
Context {E : Type} `{ITimerScheduler E} (self : Z).

Definition scheduleNextLocked (m : FeatureStateMaintenance) (e : E) (now : Z)
    : FeatureStateMaintenance * E * bool :=
  let '(t, e, ok) := schedule_next CleanupTick (cleanup_interval m) self (ticker_ m) e now in
  (m <| ticker_ := t |>, e, ok).

Definition start (m : FeatureStateMaintenance) (e : E) (now : Z)
    : FeatureStateMaintenance * E * bool :=
  let '(t, e, ok) := ticker_start CleanupTick (cleanup_interval m) self (ticker_ m) e now in
  (m <| ticker_ := t |>, e, ok).

(** The section of [stop] and the timer it cancels afterwards. *)
Definition stop (m : FeatureStateMaintenance) : FeatureStateMaintenance * option TimerId :=
  let '(t, id) := ticker_stop (ticker_ m) in (m <| ticker_ := t |>, id).

(** [status]: the answer of [maintenance_pool_->trySubmit]; a throwing
    submission is [Rejected]. *)
Definition submitRoundLocked (m : FeatureStateMaintenance) (status : WorkerSubmitStatus.t)
    : FeatureStateMaintenance * bool :=
  if negb (bool_decide (status = WorkerSubmitStatus.Accepted)) then (m, false)
  else (m <| round_inflight_ := true |>, true).

(** Also tells whether a task was submitted. *)
Definition tryPost (m : FeatureStateMaintenance) (e : E) (now : Z) (status : WorkerSubmitStatus.t)
    (ev : TimerEvent) : FeatureStateMaintenance * E * bool * bool :=
  if negb (tick_current CleanupTick (ticker_ m) ev) then (m, e, false, false)
  else
    let m := m <| ticker_ := tick_consume (ticker_ m) |> in
    let '(m, e, scheduled) := scheduleNextLocked m e now in
    if round_inflight_ m then (m, e, true, false)
    else
      let '(m, submitted) := submitRoundLocked m status in
      (m, e, (scheduled || submitted)%bool, submitted).

(** The first section of [runRound]: whether the round goes on. *)
Definition runRound_enter (m : FeatureStateMaintenance) (stop_requested : bool)
    : FeatureStateMaintenance * bool :=
  if (tick_stopped_ (ticker_ m) || stop_requested)%bool
  then (m <| round_inflight_ := false |>, false) else (m, true).

(** Also tells whether the next tick is scheduled or was not needed. *)
Definition finishRound (m : FeatureStateMaintenance) (e : E) (now : Z)
    : FeatureStateMaintenance * E * bool :=
  let m := m <| round_inflight_ := false |> in
  if (running_ (ticker_ m) && negb (timer_valid (active_timer_ (ticker_ m))))%bool
  then scheduleNextLocked m e now else (m, e, true).

(** ** All threads together *)

(** A round in the pool: its task is queued, or [runRound] is between its
    critical sections, before or after the reclamation. *)
Inductive RoundPhase := Queued | Reclaiming | Reclaimed.

#[export] Instance RoundPhase_eq_dec : EqDecision RoundPhase.
Proof. solve_decision. Defined.

Record System := mkSystem {
  maintenance : FeatureStateMaintenance;
  scheduler : E;
  store : LoginFeatureStore;
  in_hand : list TimerEvent;      (* taken out of the heap, not yet posted *)
  cancels : list TimerId;         (* [stop] between its section and the cancel *)
  rounds : list RoundPhase;
  dropped : nat;                  (* rounds the pool destroyed unexecuted *)
  stalled : bool;                 (* a last retry failed, or the pool stops *)
}.

Inductive step : System -> System -> Prop :=
| f_start s now m e ok :
    start (maintenance s) (scheduler s) now = (m, e, ok) ->
    step s (s <| maintenance := m |> <| scheduler := e |>)
| f_stop s m id :
    stop (maintenance s) = (m, id) ->
    step s (s <| maintenance := m |> <| cancels := option_list id ++ cancels s |>)
| f_cancel s l id k e status :
    cancels s = l ++ id :: k -> sched_cancel (scheduler s) id = (e, status) ->
    step s (s <| scheduler := e |> <| cancels := l ++ k |>)
| f_post s l ev k now status m e ok submitted :
    in_hand s = l ++ ev :: k ->
    tryPost (maintenance s) (scheduler s) now status ev = (m, e, ok, submitted) ->
    step s (s <| maintenance := m |> <| scheduler := e |> <| in_hand := l ++ k |>
              <| rounds := (if submitted then [Queued] else []) ++ rounds s |>
              <| stalled := (stalled s
                   || (tick_current CleanupTick (ticker_ (maintenance s)) ev && negb ok))%bool |>)
| f_run s l k stop_requested m :
    rounds s = l ++ Queued :: k -> runRound_enter (maintenance s) stop_requested = (m, true) ->
    step s (s <| maintenance := m |> <| rounds := l ++ Reclaiming :: k |>)
| f_skip s l k stop_requested m :
    rounds s = l ++ Queued :: k -> runRound_enter (maintenance s) stop_requested = (m, false) ->
    step s (s <| maintenance := m |> <| rounds := l ++ k |>
              <| stalled := (stalled s || stop_requested)%bool |>)
| f_reclaim s l k now_ms :
    rounds s = l ++ Reclaiming :: k ->
    step s (s <| store := reclaimColdStates (store s) now_ms |> <| rounds := l ++ Reclaimed :: k |>)
| f_finish s l k now m e ok :
    rounds s = l ++ Reclaimed :: k ->
    finishRound (maintenance s) (scheduler s) now = (m, e, ok) ->
    step s (s <| maintenance := m |> <| scheduler := e |> <| rounds := l ++ k |>
              <| stalled := (stalled s || negb ok)%bool |>)
| f_drop s l k :
    rounds s = l ++ Queued :: k ->
    step s (s <| rounds := l ++ k |> <| dropped := S (dropped s) |>).
End FeatureMaintenance.

(** Steps of the component and of everybody else who uses the timers. *)
Inductive fstep {E} `{TimerSchedulerLaws E} (self : Z) : System -> System -> Prop :=
| f_own s s' : step self s s' -> fstep self s s'
| f_other s e posts :
    sched_other self (scheduler s) e posts ->
    fstep self s (s <| scheduler := e |> <| in_hand := in_hand s ++ posts |>)
| f_store s st : fstep self s (s <| store := st |>).

Section Theorems.
Context {E : Type} `{TimerSchedulerLaws E} (self : Z).

Definition initial (m : FeatureStateMaintenance) (e : E) (st : LoginFeatureStore) : System :=
  mkSystem m e st [] [] [] 0 false.

Definition reachable (s : System) : Prop :=
  exists interval m e st, create interval = Ok m /\ sched_wf e
  /\ rtc (fstep self) (initial m e st) s.

Abbreviation tick_inv s :=
  (ticker_inv CleanupTick self (ticker_ (maintenance s)) (scheduler s) (in_hand s)).

Record maint_inv (s : System) : Prop := {
  mi_ticker : tick_inv s;
  mi_rounds : (length (rounds s) + dropped s)%nat
              = if round_inflight_ (maintenance s) then 1%nat else 0%nat;
  mi_cancels id : id ∈ cancels s ->
    timer_valid id = true /\ tick_stopped_ (ticker_ (maintenance s)) = true;
  mi_alive : running_ (ticker_ (maintenance s)) = true -> stalled s = false ->
    active_sequence_ (ticker_ (maintenance s)) <> 0 \/ round_inflight_ (maintenance s) = true;
}.

Lemma scheduleNext_inv m e now ih m' e' ok :
  ticker_inv CleanupTick self (ticker_ m) e ih -> active_sequence_ (ticker_ m) = 0 ->
  running_ (ticker_ m) = true -> scheduleNextLocked self m e now = (m', e', ok) ->
  ticker_inv CleanupTick self (ticker_ m') e' ih /\ round_inflight_ m' = round_inflight_ m
  /\ tick_stopped_ (ticker_ m') = tick_stopped_ (ticker_ m)
  /\ (ok = true -> active_sequence_ (ticker_ m') <> 0).
Proof.
  intros Hi Hs Hr. unfold scheduleNextLocked.
  destruct (schedule_next _ _ _ _ _ _) as [[t1 e1] ok1] eqn:En. intros [= <- <- <-].
  eapply schedule_next_spec in En as (H1 & H2 & H3 & H4); [|done|done|done]. simpl.
  split_and!; try done. apply H4.
Qed.

Lemma post_inv s l ev k now status m e ok submitted :
  in_hand s = l ++ ev :: k ->
  tryPost self (maintenance s) (scheduler s) now status ev = (m, e, ok, submitted) ->
  maint_inv s ->
  maint_inv (s <| maintenance := m |> <| scheduler := e |> <| in_hand := l ++ k |>
              <| rounds := (if submitted then [Queued] else []) ++ rounds s |>
              <| stalled := (stalled s
                   || (tick_current CleanupTick (ticker_ (maintenance s)) ev && negb ok))%bool |>).
Proof.
  intros Hh Hp [Ht Hr Hc Ha]. unfold tryPost in Hp. rewrite Hh in Ht.
  destruct (tick_current CleanupTick (ticker_ (maintenance s)) ev) eqn:Ec; simpl in Hp.
  2: { injection Hp as <- <- <- <-. split; simpl; try done.
       - by eapply ticker_deliver.
       - rewrite orb_false_r. done. }
  destruct (tick_current_true _ _ _ Ec) as (Hrun & _ & _ & _).
  assert (ticker_inv CleanupTick self (tick_consume (ticker_ (maintenance s))) (scheduler s) (l ++ k))
    as Ht' by (destruct Ht; split; simpl; auto; done).
  destruct (scheduleNextLocked _ _ _ _) as [[m1 e1] sch] eqn:En.
  eapply scheduleNext_inv in En as (H1 & H2 & H3 & H4); [|exact Ht'|done|done]. simpl in H2, H3.
  assert (forall id, id ∈ cancels s -> timer_valid id = true /\ tick_stopped_ (ticker_ m1) = true) as Hc'
    by (intros id Hid; rewrite H3; by apply Hc).
  destruct (round_inflight_ m1) eqn:Ei.
  - injection Hp as <- <- <- <-. rewrite <-H2 in Hr.
    split; simpl; rewrite ?Ei; try done. intros _ _. by right.
  - unfold submitRoundLocked in Hp. case_bool_decide; simpl in Hp; injection Hp as <- <- <- <-;
      rewrite <-H2 in Hr; (split; simpl; rewrite ?Ei; try done; try lia; try by right).
    rewrite orb_false_r. intros _ Hst. apply orb_false_elim in Hst as [_ Hst]. left. apply H4.
    by destruct sch.
Qed.

Lemma finishRound_inv s l k now m e ok :
  rounds s = l ++ Reclaimed :: k ->
  finishRound self (maintenance s) (scheduler s) now = (m, e, ok) -> maint_inv s ->
  maint_inv (s <| maintenance := m |> <| scheduler := e |> <| rounds := l ++ k |>
              <| stalled := (stalled s || negb ok)%bool |>).
Proof.
  intros Hk Hf [Ht Hr Hc Ha]. unfold finishRound in Hf. simpl in Hf.
  rewrite Hk, length_app in Hr. simpl in Hr.
  assert (length (l ++ k) + dropped s = 0)%nat as Hz0.
  { rewrite length_app. destruct (round_inflight_ (maintenance s)); lia. }
  destruct (running_ (ticker_ (maintenance s)) && negb (timer_valid (active_timer_ (ticker_ (maintenance s)))))%bool eqn:Eb.
  - bool_to_prop. assert (active_sequence_ (ticker_ (maintenance s)) = 0) as Hz.
    { destruct (Z.eq_dec (active_sequence_ (ticker_ (maintenance s))) 0) as [|Hn]; [done|].
      apply (ti_some _ _ _ _ _ Ht) in Hn. congruence. }
    eapply scheduleNext_inv in Hf as (H1' & H2' & H3' & H4'); [|done|done|done]. simpl in *.
    split; simpl; try done.
    + by rewrite H2'.
    + intros id Hid. rewrite H3'. by apply Hc.
    + intros _ Hst. left. apply H4'. destruct ok; [done|]. by rewrite orb_true_r in Hst.
  - injection Hf as <- <- <-. split; simpl; try done. intros Hrun _. left.
    rewrite Hrun in Eb. simpl in Eb. apply negb_false_iff in Eb. intros Hz.
    rewrite (ti_none _ _ _ _ _ Ht Hz) in Eb. done.
Qed.

Lemma fstep_inv x y : fstep self x y -> maint_inv x -> maint_inv y.
Proof.
  intros [x1 y1 Hs|x1 e posts Ho|x1 st] Hinv.
  3: { destruct Hinv. by split. }
  2: { destruct Hinv. split; simpl; try done. by eapply ticker_other. }
  destruct Hs as [s now m e ok Hst|s m id Hst|s l id k e st Hk Hcn|s l ev k now st m e ok sub Hk Hp
    |s l k req m Hk Hrn|s l k req m Hk Hrn|s l k now Hk|s l k now m e ok Hk Hf|s l k Hk].
  - destruct Hinv as [Ht Hr Hc Ha]. unfold start in Hst.
    destruct (ticker_start _ _ _ _ _ _) as [[t1 e1] ok1] eqn:En. injection Hst as <- <- <-.
    eapply ticker_start_spec in En as (H1 & H2 & H3 & H4); [|done].
    split; simpl; try done; [intros id Hid; rewrite H2; by apply Hc|].
    intros Hrun Hst. destruct (H4 Hrun) as [->|?]; [by apply Ha|by left].
  - destruct Hinv as [Ht Hr Hc Ha]. unfold stop in Hst.
    destruct (ticker_stop _) as [t1 id1] eqn:En. injection Hst as <- <-.
    assert (forall i, i ∈ option_list id1 -> timer_valid i = true) as Hv.
    { unfold ticker_stop in En. intros i. destruct (tick_stopped_ _);
        [injection En as <- <-; by intros ?%not_elem_of_nil|].
      destruct (timer_valid (active_timer_ (ticker_ (maintenance s)))) eqn:Ev; injection En as <- <-;
        [by intros ->%list_elem_of_singleton|by intros ?%not_elem_of_nil]. }
    eapply ticker_stop_spec in En as (H1 & H2 & H3 & _); [|done].
    split; simpl; try done; [|congruence].
    intros i [Hi|Hi]%elem_of_app; [by auto|]. destruct (Hc i Hi). auto.
  - destruct Hinv as [Ht Hr Hc Ha]. split; simpl; try done.
    + destruct (Hc id) as [Hv Hs]; [rewrite Hk; apply elem_of_app; right; left|].
      eapply ticker_cancel; [done| |done]. intros ->.
      by rewrite (ti_none _ _ _ _ _ Ht (ti_idle _ _ _ _ _ Ht (ti_stopped _ _ _ _ _ Ht Hs))) in Hv.
    + intros i Hi. apply Hc. rewrite Hk. apply elem_of_app in Hi as [?|?]; apply elem_of_app; [by left|by right; right].
  - by eapply post_inv.
  - unfold runRound_enter in Hrn. case_match; [done|]. injection Hrn as <-.
    destruct Hinv as [Ht Hr Hc Ha]. split; simpl; try done. rewrite Hk in Hr.
    rewrite length_app in *. done.
  - unfold runRound_enter in Hrn. destruct (tick_stopped_ _ || req)%bool eqn:Eb; [|done]. injection Hrn as <-.
    destruct Hinv as [Ht Hr Hc Ha]. rewrite Hk, length_app in Hr. simpl in Hr. split; simpl; try done.
    + rewrite length_app. destruct (round_inflight_ _); lia.
    + intros Hrun Hst. apply orb_false_elim in Hst as [_ ->]. rewrite orb_false_r in Eb.
      rewrite (ti_stopped _ _ _ _ _ Ht Eb) in Hrun. done.
  - destruct Hinv as [Ht Hr Hc Ha]. split; simpl; try done. rewrite Hk in Hr.
    rewrite length_app in *. done.
  - by eapply finishRound_inv.
  - destruct Hinv as [Ht Hr Hc Ha]. split; simpl; try done. rewrite Hk in Hr.
    rewrite length_app in *. simpl in Hr. destruct (round_inflight_ _); lia.
Qed.

Lemma system_reachable_inv s : reachable s -> maint_inv s.
Proof.
  intros (interval & m & e & st & Hm & Hwf & Hrun). unfold create in Hm. case_match; [done|].
  injection Hm as <-. assert (maint_inv (initial (mkFeatureMaintenance interval fresh_ticker false) e st)) as Hi0.
  { split; simpl; try done. by intros id ?%not_elem_of_nil. }
  induction Hrun as [|s1 s2 s3 Hs _ IH]; [done|]. by apply IH, (fstep_inv s1).
Qed.

(** In every interleaving at most one reclamation round is queued, running
    or lost in the pool, and [round_inflight_] tells exactly whether there is
    one: ticks that arrive during a round are merged. *)
Theorem feature_maintenance_single_round s :
  reachable s ->
  (length (rounds s) + dropped s <= 1)%nat
  /\ (round_inflight_ (maintenance s) = true <-> (0 < length (rounds s) + dropped s)%nat).
Proof.
  intros [_ Hr _ _]%system_reachable_inv. destruct (round_inflight_ _); split; try lia; by split; try lia.
Qed.

(** The ticks keep coming: while the maintenance runs, has no round in the
    pool and no last retry has failed, the timer service has its current timer
    armed, or the event of that timer is about to be posted, or the service is
    stopping.  No interleaving of ticks, rounds and other users of the timers
    loses the period. *)
Theorem feature_maintenance_keeps_ticking s :
  reachable s -> running_ (ticker_ (maintenance s)) = true -> stalled s = false ->
  rounds s = [] -> dropped s = 0%nat ->
  active_sequence_ (ticker_ (maintenance s)) <> 0
  /\ tick_coming CleanupTick self (ticker_ (maintenance s)) (scheduler s) (in_hand s).
Proof.
  intros [Ht Hr _ Ha]%system_reachable_inv Hrun Hst Hn Hd. rewrite Hn, Hd in Hr. simpl in Hr.
  destruct (Ha Hrun Hst) as [Hs|Hi]; [|by rewrite Hi in Hr].
  split; [done|]. by apply (ti_armed _ _ _ _ _ Ht).
Qed.

(** The rounds that have passed their stop check. *)
Definition passed_rounds (s : @System E) : nat :=
  sum_list_with (fun r => match r with Queued => 0 | _ => 1 end)%nat (rounds s).

(** What a stopped maintenance may still do. *)
Definition stopped_after (s s' : @System E) : Prop :=
  tick_stopped_ (ticker_ (maintenance s')) = true
  /\ running_ (ticker_ (maintenance s')) = false
  /\ tick_next_sequence_ (ticker_ (maintenance s')) = tick_next_sequence_ (ticker_ (maintenance s))
  /\ (length (rounds s') <= length (rounds s))%nat
  /\ (passed_rounds s' <= passed_rounds s)%nat.

Lemma stopped_same s s' :
  ticker_ (maintenance s') = ticker_ (maintenance s) -> rounds s' = rounds s ->
  tick_stopped_ (ticker_ (maintenance s)) = true ->
  running_ (ticker_ (maintenance s)) = false -> stopped_after s s'.
Proof. unfold stopped_after, passed_rounds. intros -> -> ? ?. by split_and!. Qed.

Lemma stopped_step x y :
  fstep self x y -> maint_inv x -> tick_stopped_ (ticker_ (maintenance x)) = true ->
  stopped_after x y.
Proof.
  intros Hs Hinv Hst. pose proof (ti_stopped _ _ _ _ _ (mi_ticker _ Hinv) Hst) as Hr.
  destruct Hs as [x1 y1 Hs|x1 e posts Ho|x1 st]; [|by apply stopped_same..].
  destruct Hs as [s now m e ok Hs|s m id Hs|s l id k e st Hk Hcn|s l ev k now st m e ok sub Hk Hp
    |s l k req m Hk Hrn|s l k req m Hk Hrn|s l k now Hk|s l k now m e ok Hk Hf|s l k Hk].
  - unfold start, ticker_start in Hs. rewrite Hst in Hs. injection Hs as <- <- <-. by apply stopped_same.
  - unfold stop, ticker_stop in Hs. rewrite Hst in Hs. injection Hs as <- <-. by apply stopped_same.
  - by apply stopped_same.
  - unfold tryPost, tick_current in Hp. rewrite Hr in Hp. injection Hp as <- <- <- <-.
    by apply stopped_same.
  - unfold runRound_enter in Hrn. by rewrite Hst in Hrn.
  - unfold runRound_enter in Hrn. rewrite Hst in Hrn. injection Hrn as <-.
    unfold stopped_after, passed_rounds. simpl. rewrite Hk, !sum_list_with_app, !length_app. simpl.
    split_and!; try done; lia.
  - unfold stopped_after, passed_rounds. simpl. rewrite Hk, !sum_list_with_app, !length_app. simpl.
    split_and!; try done; lia.
  - unfold finishRound in Hf. simpl in Hf. rewrite Hr in Hf. injection Hf as <- <- <-.
    unfold stopped_after, passed_rounds. simpl. rewrite Hk, !sum_list_with_app, !length_app. simpl.
    split_and!; try done; lia.
  - unfold stopped_after, passed_rounds. simpl. rewrite Hk, !sum_list_with_app, !length_app. simpl.
    split_and!; try done; lia.
Qed.

(** [stop] is final: whatever the other threads do afterwards, the
    maintenance never runs again, asks for no further timer, submits no round,
    and only rounds that had passed their stop check before still reclaim. *)
Theorem feature_maintenance_stop_final s s' :
  reachable s -> tick_stopped_ (ticker_ (maintenance s)) = true -> rtc (fstep self) s s' ->
  stopped_after s s'.
Proof.
  intros Hr%system_reachable_inv Hst Hrun. revert Hr Hst.
  induction Hrun as [s|s1 s2 s3 Hs _ IH]; intros Hinv Hst.
  - apply stopped_same; [done|done|done|]. by apply (ti_stopped _ _ _ _ _ (mi_ticker _ Hinv)).
  - pose proof (stopped_step _ _ Hs Hinv Hst) as (H1 & H2 & H3 & H4 & H5).
    destruct (IH (fstep_inv _ _ Hs Hinv) H1) as (G1 & G2 & G3 & G4 & G5).
    unfold stopped_after. rewrite G3. split_and!; try done; lia.
Qed.
Lemma scheduleNext_stopped (m : FeatureStateMaintenance) (e : E) now m' e' ok :
  scheduleNextLocked self m e now = (m', e', ok) ->
  tick_stopped_ (ticker_ m') = tick_stopped_ (ticker_ m).
Proof.
  unfold scheduleNextLocked, schedule_next. intros Hs. destruct (_ =? 0); [by simplify_eq|].
  destruct (sched_scheduleAt _ _ _ _) as [e1 [st id]]. case_bool_decide; simpl in Hs; by simplify_eq.
Qed.

Lemma stopped_run s s' :
  rtc (fstep self) s s' -> tick_stopped_ (ticker_ (maintenance s)) = true ->
  tick_stopped_ (ticker_ (maintenance s')) = true.
Proof.
  induction 1 as [|x y z Hstep _ IH]; intros Hst; [done|]. apply IH.
  destruct Hstep as [x1 y1 Hs|x1 e posts Ho|x1 st]; [|done..].
  destruct Hs as [s0 now m e ok Hs|s0 m id Hs|s0 l id k e st Hk Hcn|s0 l ev k now st m e ok sub Hk Hp
    |s0 l k req m Hk Hrn|s0 l k req m Hk Hrn|s0 l k now Hk|s0 l k now m e ok Hk Hf|s0 l k Hk]; try done.
  - unfold start, ticker_start in Hs. rewrite Hst in Hs. by simplify_eq.
  - unfold stop, ticker_stop in Hs. rewrite Hst in Hs. by simplify_eq.
  - unfold tryPost in Hp. destruct (tick_current _ _ _); simpl in Hp; [|by simplify_eq].
    destruct (scheduleNextLocked _ _ _ _) as [[m1 e1] ok1] eqn:En.
    apply scheduleNext_stopped in En. simpl in En. unfold submitRoundLocked in Hp.
    repeat case_match; simplify_eq; simpl; congruence.
  - unfold runRound_enter in Hrn. by case_match; simplify_eq.
  - unfold runRound_enter in Hrn. by case_match; simplify_eq.
  - unfold finishRound in Hf. case_match; [|by simplify_eq].
    apply scheduleNext_stopped in Hf. simpl in *. congruence.
Qed.

(** The state after a tick that could neither be scheduled again nor submitted. *)
Definition stuck (s : @System E) : Prop :=
  running_ (ticker_ (maintenance s)) = true /\ active_sequence_ (ticker_ (maintenance s)) = 0
  /\ tick_stopped_ (ticker_ (maintenance s)) = false /\ rounds s = [].

(** When the last retry fails nothing tries again: from then on, whatever
    happens, the maintenance stays without a timer and without a round until it
    is stopped, although it still counts as running. *)
Theorem feature_maintenance_stall_permanent s s' :
  stuck s -> rtc (fstep self) s s' ->
  stuck s' \/ tick_stopped_ (ticker_ (maintenance s')) = true.
Proof.
  intros Hs Hrun. induction Hrun as [|s1 s2 s3 Hstep Hrun IH] in Hs |- *; [by left|].
  assert (stuck s2 \/ tick_stopped_ (ticker_ (maintenance s2)) = true) as [Hs2|Hs2]; [|by apply IH|].
  - destruct Hs as (Hr & Ha & Hst & Hn).
    destruct Hstep as [x1 y1 Hs|x1 e posts Ho|x1 st]; [|by left..].
    destruct Hs as [s now m e ok Hs|s m id Hs|s l id k e st Hk Hcn|s l ev k now st m e ok sub Hk Hp
      |s l k req m Hk _|s l k req m Hk _|s l k now Hk|s l k now m e ok Hk _|s l k Hk];
      try (rewrite Hn in Hk; by destruct l).
    + unfold start, ticker_start in Hs. rewrite Hst, Hr in Hs. injection Hs as <- <- <-. by left.
    + unfold stop, ticker_stop in Hs. rewrite Hst in Hs. injection Hs as <- <-. by right.
    + by left.
    + left. unfold tryPost in Hp. destruct (tick_current _ _ _) eqn:Ec.
      { apply tick_current_true in Ec as (_ & _ & _ & ?). congruence. }
      injection Hp as <- <- <- <-. done.
  - right. by eapply stopped_run.
Qed.
End Theorems.

(** ** Sample executions over the timer service *)

Definition sample_start : @System TimerService :=
  initial (mkFeatureMaintenance 60 fresh_ticker false) idle_service FeatureStore.sample_store.

Lemma sample_start_reachable s : rtc (fstep 1) sample_start s -> reachable 1 s.
Proof.
  intros H. exists 60, (mkFeatureMaintenance 60 fresh_ticker false), idle_service, FeatureStore.sample_store.
  split; [done|]. split; [exact idle_service_wf|exact H].
Qed.

(** Runs one rule and computes the next state. *)
Tactic Notation "own_step" uconstr(rule) :=
  eapply rtc_l; [apply f_own; eapply rule; first [reflexivity | vm_compute; reflexivity]|].

(** Started, ticked, the round queued and the next timer armed. *)
Lemma sample_round :
  exists s, rtc (fstep 1) sample_start s /\ rounds s = [Queued] /\ round_inflight_ (maintenance s) = true.
Proof.
  eexists. split.
  - own_step (f_start _ _ 100).
    eapply rtc_l; [eapply (f_other _ _ _ _), (other_op 1 _ OpProcess); discriminate|].
    eapply rtc_l; [eapply (f_other _ _ _ _), (other_op 1 _ (OpDispatch 200)); discriminate|].
    own_step (f_post _ _ [] _ [] 200 WorkerSubmitStatus.Accepted).
    apply rtc_refl.
  - vm_compute. auto.
Qed.

Lemma feature_maintenance_single_round_witness :
  exists s, @reachable TimerService _ _ 1 s /\ rounds s = [Queued]
  /\ (length (rounds s) + dropped s <= 1)%nat.
Proof.
  destruct sample_round as (s & Hs & Hq & _). exists s.
  pose proof (sample_start_reachable s Hs) as Hr. split; [exact Hr|]. split; [exact Hq|].
  exact (proj1 (feature_maintenance_single_round 1 s Hr)).
Defined.

Definition sample_running : @System TimerService :=
  let '(m, e, _) := start 1 (maintenance sample_start) (scheduler sample_start) 100 in
  sample_start <| maintenance := m |> <| scheduler := e |>.

Lemma sample_running_reachable : reachable 1 sample_running.
Proof.
  apply sample_start_reachable, rtc_once, f_own.
  apply (f_start 1 sample_start 100 (maintenance sample_running) (scheduler sample_running) true).
  reflexivity.
Qed.

Lemma feature_maintenance_keeps_ticking_witness :
  tick_coming CleanupTick 1 (ticker_ (maintenance sample_running)) (scheduler sample_running) [].
Proof.
  exact (proj2 (feature_maintenance_keeps_ticking 1 sample_running sample_running_reachable
    eq_refl eq_refl eq_refl eq_refl)).
Defined.

Definition sample_halted : @System TimerService :=
  sample_running <| maintenance := (stop (maintenance sample_running)).1 |>
                 <| cancels := [mkTimerId 1 1] |>.

Lemma feature_maintenance_stop_final_witness :
  reachable 1 sample_halted /\ stopped_after sample_halted sample_halted.
Proof.
  assert (Hr : reachable 1 sample_halted).
  { destruct sample_running_reachable as (i & m & e & st & H1 & H2 & H3).
    exists i, m, e, st. split; [exact H1|]. split; [exact H2|].
    eapply rtc_r; [exact H3|]. apply f_own.
    apply (f_stop 1 sample_running (maintenance sample_halted) (Some (mkTimerId 1 1))). reflexivity. }
  split; [exact Hr|].
  exact (feature_maintenance_stop_final 1 sample_halted sample_halted Hr eq_refl (rtc_refl _ _)).
Defined.

(** A congested timer service and a full pool stall the maintenance. *)
Lemma sample_stall : exists s, @reachable TimerService _ _ 1 s /\ stuck s.
Proof.
  eexists. split.
  - apply sample_start_reachable.
    own_step (f_start _ _ 100).
    eapply rtc_l; [eapply (f_other _ _ _ _), (other_op 1 _ OpProcess); discriminate|].
    eapply rtc_l; [eapply (f_other _ _ _ _), (other_op 1 _ (OpDispatch 200)); discriminate|].
    eapply rtc_l; [eapply (f_other _ _ _ _), (other_state 1 _ TimerState.Running false)|].
    own_step (f_post _ _ [] _ [] 200 WorkerSubmitStatus.Rejected).
    apply rtc_refl.
  - vm_compute. auto.
Qed.
