(* ===== verification/Business.v ===== *)
(** * Business: from a request payload to a routed completion

    Model of [login_business_handler.{hpp,cpp}] and
    [completion_router.{hpp,cpp}]: the handler parses and validates a request,
    evaluates it and submits the blacklist candidates; the worker task frames
    the response; the router posts the completion to the mailbox of the loop
    that owns the connection.  Protobuf's parser and serializer are the
    parameters of a class; the readings of the clocks and of the cancellation
    token are arguments.  Allocation failures are not modelled. *)

From S2P Require Import Prelude Posix Domain IpAddress Blacklist FeatureStore Policy RiskService CandidateQueue.
From S2P Require Import Codec Limits Ring Mailbox.
Open Scope Z_scope.

(** ** The messages of [login.proto] *)

Module ProtoAction.
Inductive t := DECISION_ACTION_UNKNOWN | PASS | REVIEW | REJECT.
End ProtoAction.

Module ResponseStatus.
Inductive t := OK | OVERLOADED | TIMEOUT.
End ResponseStatus.

Record ProtoHit := mkProtoHit {
  ph_reason_code : string;
  ph_action : ProtoAction.t;
  ph_risk_score : Z;
}.

Record ProtoDecision := mkProtoDecision {
  pd_attempt_id : Z;
  pd_user_id : string;
  pd_action : ProtoAction.t;
  pd_risk_score : Z;
  pd_policy_hits : list ProtoHit;
  pd_cost_us : Z;
}.

Record LoginResponse := mkLoginResponse {
  resp_decision : option ProtoDecision;
  resp_status : ResponseStatus.t;
  resp_reason_code : string;
}.

(** Generated code: [ParseFromArray] and [SerializeToString]. *)
Class Protobuf := {
  ParseFromArray : bytes_t -> option LoginRequest;
  SerializeToString : LoginResponse -> option bytes_t;
}.

Definition toProtoAction (a : LoginDecisionAction) : ProtoAction.t :=
  match a with
  | pass => ProtoAction.PASS
  | review => ProtoAction.REVIEW
  | reject => ProtoAction.REJECT
  end.

Definition fillProtoDecision (source : LoginDecision) : ProtoDecision :=
  mkProtoDecision (attempt_id source) (user_id source) (toProtoAction (action source))
    (risk_score source)
    (map (fun hit => mkProtoHit (reason_code hit) (toProtoAction (hit_action hit))
                       (hit_risk_score hit)) (policy_hits source))
    (cost_us source).

(** ** The handler *)

Module FrameBusinessStatus.
Inductive t := Response | InvalidRequest | Failed | Cancelled.
#[export] Instance eq_dec : EqDecision t.
Proof. solve_decision. Defined.
End FrameBusinessStatus.
#[export] Existing Instance FrameBusinessStatus.eq_dec.

Record FrameBusinessResult := mkFrameResult {
  frame_status : FrameBusinessStatus.t;
  response_payload : bytes_t;
}.

Definition frame_resultWithStatus (status : FrameBusinessStatus.t) : FrameBusinessResult :=
  mkFrameResult status [].

(** What the handler shares with the other worker threads. *)
Record HandlerState := mkHandler {
  risk_service_ : RiskService;
  candidate_queue_ : option BlacklistCandidateQueue;
}.

(** The loop over [evaluation.candidates]; the answers are ignored. *)
Definition submit_candidates (q : BlacklistCandidateQueue) (cands : list BlacklistMutation)
    : BlacklistCandidateQueue :=
  foldl (fun q candidate => (trySubmit q candidate).1) q cands.

Section Handler.
Context `{Inet} `{Protobuf} (hash : string -> Z).

(** [received_ms] and [now_ms] are the clocks of the handler and of the risk
    service; [stop1] and [stop2] what the token says at its two readings. *)
Definition handle (h : HandlerState) (mgr : option BlacklistManager) (request_payload : bytes_t)
    (stop1 stop2 : bool) (received_ms now_ms cost : Z) : HandlerState * FrameBusinessResult :=
  if stop1 then (h, frame_resultWithStatus FrameBusinessStatus.Cancelled)
  else
    match ParseFromArray request_payload with
    | None => (h, frame_resultWithStatus FrameBusinessStatus.InvalidRequest)
    | Some request =>
        match validate request received_ms with
        | None => (h, frame_resultWithStatus FrameBusinessStatus.InvalidRequest)
        | Some attempt =>
            if stop2 then (h, frame_resultWithStatus FrameBusinessStatus.Cancelled)
            else
              let '(svc, evaluation) :=
                evaluate_attempt hash (risk_service_ h) mgr attempt now_ms cost in
              let h :=
                mkHandler svc (option_map (fun q => submit_candidates q (candidates evaluation))
                                 (candidate_queue_ h)) in
              let response :=
                mkLoginResponse (Some (fillProtoDecision (decision evaluation)))
                  ResponseStatus.OK "" in
              match SerializeToString response with
              | None => (h, frame_resultWithStatus FrameBusinessStatus.Failed)
              | Some serialized =>
                  if bool_decide (serialized = [])
                  then (h, frame_resultWithStatus FrameBusinessStatus.Failed)
                  else (h, mkFrameResult FrameBusinessStatus.Response serialized)
              end
        end
    end.

(** [encodeLoginResponseFrame] and the two canned responses. *)
Definition encodeLoginResponseFrame (response : LoginResponse) : result bytes_t :=
  match SerializeToString response with
  | None => Throw "serialize"
  | Some payload =>
      if (bool_decide (payload = []) || (kMaxPayloadSize <? size_of payload))%bool
      then Throw "serialize"
      else Ok (encodePayloadLength (wrap32 (size_of payload)) ++ payload)
  end.

Definition buildLoginOverloadResponseFrame : result bytes_t :=
  encodeLoginResponseFrame
    (mkLoginResponse None ResponseStatus.OVERLOADED "service_overloaded").

Definition buildLoginBusinessTimeoutResponseFrame : result bytes_t :=
  encodeLoginResponseFrame (mkLoginResponse None ResponseStatus.TIMEOUT "business_timeout").
End Handler.

(** ** The worker task *)

Definition completionStatusFor (status : FrameBusinessStatus.t) : BusinessCompletionStatus.t :=
  match status with
  | FrameBusinessStatus.Response => BusinessCompletionStatus.Response
  | FrameBusinessStatus.InvalidRequest => BusinessCompletionStatus.InvalidRequest
  | FrameBusinessStatus.Cancelled => BusinessCompletionStatus.Cancelled
  | FrameBusinessStatus.Failed => BusinessCompletionStatus.Failed
  end.

(** [BusinessTask::run] up to the routing; a handler that throws is [Throw]. *)
Definition task_completion (token : ConnectionToken) (handled : result FrameBusinessResult)
    (max_payload : Z) : BusinessCompletion :=
  match handled with
  | Throw _ => mkCompletion token BusinessCompletionStatus.Failed []
  | Ok r =>
      let status := completionStatusFor (frame_status r) in
      if bool_decide (frame_status r = FrameBusinessStatus.Response)
      then
        let payload := response_payload r in
        if (bool_decide (payload = []) || (max_payload <? size_of payload))%bool
        then
          mkCompletion token
            (if bool_decide (payload = []) then BusinessCompletionStatus.Failed
             else BusinessCompletionStatus.OutputLimitExceeded) []
        else
          mkCompletion token status (encodePayloadLength (wrap32 (size_of payload)) ++ payload)
      else mkCompletion token status []
  end.

(** ** The router

    A mailbox is an identifier; the store holds the mailboxes whose event loop
    is alive, so [weak_ptr::lock] succeeds exactly for those. *)

Abbreviation Mailboxes := (gmap Z LoopMailbox).

Record LoopSlot := mkSlot { slot_loop_id : Z; slot_mailbox : option Z; bound : bool }.

Record CompletionRouter := mkRouter {
  loops : list LoopSlot;
  first_loop_id : Z;
  router_accepting : bool;
}.

Definition make_router (first_id count : Z) : result CompletionRouter :=
  let remaining_ids := u32_max - first_id + 1 in
  if ((count =? 0) || (remaining_ids <? count))%bool then Throw "invalid loop range"
  else
    Ok (mkRouter
          (map (fun index => mkSlot (wrap32 (first_id + Z.of_nat index)) None false)
             (seq 0 (Z.to_nat count)))
          first_id true).

Definition indexFor (r : CompletionRouter) (loop_id : Z) : Z :=
  if loop_id <? first_loop_id r then size_of (loops r)
  else
    let offset := loop_id - first_loop_id r in
    if size_of (loops r) <=? offset then size_of (loops r) else offset.

(** [slot.mailbox.lock()] *)
Definition lock (alive : Mailboxes) (mailbox : option Z) : option Z :=
  match mailbox with
  | Some id => if bool_decide (is_Some (alive !! id)) then Some id else None
  | None => None
  end.

Definition bind (r : CompletionRouter) (alive : Mailboxes) (loop_id : Z) (mailbox : option Z)
    : CompletionRouter * bool :=
  match mailbox with
  | None => (r, false)
  | Some mailbox =>
      let index := indexFor r loop_id in
      if index =? size_of (loops r) then (r, false)
      else if negb (router_accepting r) then (r, false)
      else
        match loops r !! Z.to_nat index with
        | None => (r, false)
        | Some slot =>
            match (if bound slot then lock alive (slot_mailbox slot) else None) with
            | Some current => (r, bool_decide (current = mailbox))
            | None =>
                (r <| loops := <[Z.to_nat index :=
                        mkSlot (slot_loop_id slot) (Some mailbox) true]> (loops r) |>, true)
            end
        end
  end.

Definition unbind (r : CompletionRouter) (alive : Mailboxes) (loop_id : Z)
    (expected_mailbox : option Z) : CompletionRouter :=
  match expected_mailbox with
  | None => r
  | Some expected =>
      let index := indexFor r loop_id in
      if index =? size_of (loops r) then r
      else
        match loops r !! Z.to_nat index with
        | None => r
        | Some slot =>
            if negb (bound slot) then r
            else
              let cleared := r <| loops := <[Z.to_nat index :=
                mkSlot (slot_loop_id slot) None false]> (loops r) |> in
              match lock alive (slot_mailbox slot) with
              | Some current => if bool_decide (current <> expected) then r else cleared
              | None => cleared
              end
        end
  end.

(** The mailboxes after [tryRoute]; [None] when the wake-up write has not
    returned. *)
Definition tryRoute (r : CompletionRouter) (alive : Mailboxes) (completion : BusinessCompletion)
    (writes : list IoResult) : option Mailboxes :=
  if negb (completion_valid completion) then Some alive
  else if negb (router_accepting r) then Some alive
  else
    let index := indexFor r (loop_id (completion_token completion)) in
    if index =? size_of (loops r) then Some alive
    else
      match loops r !! Z.to_nat index with
      | None => Some alive
      | Some slot =>
          match (if bound slot then lock alive (slot_mailbox slot) else None) with
          | None => Some alive
          | Some id =>
              match alive !! id with
              | None => Some alive
              | Some mailbox =>
                  '(mailbox', _) ← loop_tryPost mailbox completion writes;
                  Some (<[id := mailbox']> alive)
              end
          end
      end.

Definition close_router (r : CompletionRouter) : CompletionRouter :=
  r <| router_accepting := false |>.

(** ** Framed completions *)

Lemma framed_size payload :
  size_of (encodePayloadLength (wrap32 (size_of payload)) ++ payload)
  = kFrameHeaderSize + size_of payload.
Proof. rewrite size_of_app. done. Qed.

Lemma framed_decodes payload :
  payload_ok payload ->
  exists c', consume_all fresh_codec [encodePayloadLength (wrap32 (size_of payload)) ++ payload]
             = Some (c', [payload]) /\ bufferedBytes c' = 0.
Proof.
  intros Hp. pose proof Hp as [H1 H2]. unfold kMaxPayloadSize in H2.
  assert (wrap32 (size_of payload) = size_of payload) as Ew
    by (apply wrap32_small; unfold is_u32; lia).
  destruct (frames_decode [payload] [encodePayloadLength (wrap32 (size_of payload)) ++ payload])
    as (c' & E & _ & _ & Hb); [by repeat constructor | | | by eauto].
  - rewrite Ew. cbn [fmap list_fmap]. by rewrite !mjoin_cons.
  - rewrite mjoin_cons, app_nil_r, framed_size. unfold kFrameHeaderSize. lia.
Qed.

(** C40. Whatever the handler returns or throws, the completion of a task on a
    valid connection is one that the mailbox accepts (well formed and within
    the frame limit), it is addressed to that connection, and it carries a
    frame exactly when the handler produced a non-empty payload within the
    limit, in which case the peer's decoder reads back exactly that payload. *)
Theorem task_completion_wellformed token handled max_payload :
  token_valid token = true -> 0 <= max_payload <= kMaxPayloadSize ->
  let c := task_completion token handled max_payload in
  completion_valid c = true /\ completion_token c = token
  /\ frame_size c <= kFrameHeaderSize + max_payload
  /\ (completion_status c = BusinessCompletionStatus.Response <->
      exists payload, handled = Ok (mkFrameResult FrameBusinessStatus.Response payload)
                      /\ 1 <= size_of payload <= max_payload)
  /\ (completion_status c = BusinessCompletionStatus.Response ->
      exists payload codec, handled = Ok (mkFrameResult FrameBusinessStatus.Response payload)
        /\ consume_all fresh_codec [response_frame c] = Some (codec, [payload])
        /\ bufferedBytes codec = 0).
Proof.
  intros Ht Hm. unfold task_completion, completion_valid, frame_size, kFrameHeaderSize in *.
  destruct handled as [[status payload]|]; [|simpl; rewrite Ht; simpl; split_and!; try done; [unfold size_of; simpl; lia|];
    split; [done | by intros (? & ? & _)]].
  destruct status; simpl; rewrite ?Ht; try (split_and!; try done; [unfold size_of; simpl; lia|];
    split; [done | by intros (? & [= ?] & _)]).
  case_bool_decide as Ep; simpl.
  - rewrite Ht. subst payload. simpl. split_and!; try done; [unfold size_of; simpl; lia|]. split; [done|].
    intros (? & [= <-] & ?). rewrite size_of_nil in *. lia.
  - assert (1 <= size_of payload) as H1
      by (destruct payload; [done | rewrite size_of_cons; pose proof (size_of_nonneg payload); lia]).
    destruct (Z.ltb_spec max_payload (size_of payload)); simpl; rewrite Ht; simpl.
    + split_and!; try done; [unfold size_of; simpl; lia|]. split; [done|]. intros (? & [= <-] & ?). lia.
    + split_and!; try done.
      * etrans; [apply Z.eq_le_incl, (framed_size payload) | unfold kFrameHeaderSize; lia].
      * split; [intros _; by exists payload | done].
      * intros _. destruct (framed_decodes payload) as (c' & ? & ?); [split; lia|].
        by exists payload, c'.
Qed.

Lemma task_completion_wellformed_witness :
  let c := task_completion (mkToken 0 5 1)
             (Ok (mkFrameResult FrameBusinessStatus.Response [9; 8])) 16 in
  completion_valid c = true /\ completion_token c = mkToken 0 5 1
  /\ frame_size c <= kFrameHeaderSize + 16
  /\ (completion_status c = BusinessCompletionStatus.Response <->
      exists payload, Ok (mkFrameResult FrameBusinessStatus.Response [9; 8])
                      = Ok (mkFrameResult FrameBusinessStatus.Response payload)
                      /\ 1 <= size_of payload <= 16)
  /\ (completion_status c = BusinessCompletionStatus.Response ->
      exists payload codec, Ok (mkFrameResult FrameBusinessStatus.Response [9; 8])
                            = Ok (mkFrameResult FrameBusinessStatus.Response payload)
        /\ consume_all fresh_codec [response_frame c] = Some (codec, [payload])
        /\ bufferedBytes codec = 0).
Proof. apply task_completion_wellformed; [done | unfold kMaxPayloadSize; lia]. Defined.

(** ** What a request changes *)

(** The part of the handler's state that does not depend on the queue. *)
Definition without_queue (h : HandlerState) : HandlerState := h <| candidate_queue_ := None |>.

Section HandlerProperties.
Context `{Inet} `{Protobuf} (hash : string -> Z).

(** The handler is transactional: a cancelled, unparsable or invalid
    request changes neither the feature store nor the candidate queue;
    otherwise the service evaluates exactly the validated attempt, once, and a
    response is the serialisation of that decision with status OK.  The answer
    and the service never depend on the candidate queue, so a full or closed
    queue cannot alter a decision. *)
Theorem handle_transactional h mgr payload stop1 stop2 received_ms now_ms cost :
  let '(h', r) := handle hash h mgr payload stop1 stop2 received_ms now_ms cost in
  (r = (handle hash (without_queue h) mgr payload stop1 stop2 received_ms now_ms cost).2
   /\ risk_service_ h'
      = risk_service_ (handle hash (without_queue h) mgr payload stop1 stop2 received_ms now_ms
                         cost).1)
  /\ (h' = h /\ (frame_status r = FrameBusinessStatus.Cancelled
                 \/ frame_status r = FrameBusinessStatus.InvalidRequest)
      \/ exists request attempt,
           ParseFromArray payload = Some request
           /\ validate request received_ms = Some attempt /\ stop1 = false /\ stop2 = false
           /\ (let '(svc, evaluation) := evaluate_attempt hash (risk_service_ h) mgr attempt now_ms
                                           cost in
               risk_service_ h' = svc
               /\ candidate_queue_ h'
                  = option_map (fun q => submit_candidates q (candidates evaluation))
                      (candidate_queue_ h)
               /\ (frame_status r = FrameBusinessStatus.Failed
                   \/ frame_status r = FrameBusinessStatus.Response
                      /\ SerializeToString
                           (mkLoginResponse (Some (fillProtoDecision (decision evaluation)))
                              ResponseStatus.OK "") = Some (response_payload r)
                      /\ response_payload r <> []))).
Proof.
  unfold handle, without_queue. destruct stop1; [simpl; auto|].
  destruct (ParseFromArray payload) as [request|]; [|simpl; auto].
  destruct (validate request received_ms) as [attempt|] eqn:Ev; [|simpl; auto].
  destruct stop2; [simpl; auto|]. simpl.
  destruct (evaluate_attempt _ _ _ _ _ _) as [svc evaluation] eqn:Ee.
  destruct (SerializeToString _) as [bytes|] eqn:Es; [case_bool_decide|];
    (split; [by simpl|]; right; exists request, attempt; rewrite Ee; split_and!; auto).
Qed.
End HandlerProperties.

(** ** Routing *)

Inductive RouterOp :=
| RBind (alive : Mailboxes) (loop_id : Z) (mailbox : option Z)
| RUnbind (alive : Mailboxes) (loop_id : Z) (mailbox : option Z).

Definition router_step (r : CompletionRouter) (op : RouterOp) : CompletionRouter :=
  match op with
  | RBind alive l m => (bind r alive l m).1
  | RUnbind alive l m => unbind r alive l m
  end.

(** [op] happens while mailbox [id] is alive and does not unbind it. *)
Definition keeps (l id : Z) (op : RouterOp) : Prop :=
  match op with
  | RBind alive _ _ => is_Some (alive !! id)
  | RUnbind alive l' m => is_Some (alive !! id) /\ ~ (l' = l /\ m = Some id)
  end.

(** The router delivers loop [l] to mailbox [id]. *)
Definition routes (r : CompletionRouter) (l id : Z) : Prop :=
  router_accepting r = true /\ indexFor r l <> size_of (loops r)
  /\ exists slot, loops r !! Z.to_nat (indexFor r l) = Some slot
                  /\ bound slot = true /\ slot_mailbox slot = Some id.

Lemma indexFor_range r l : indexFor r l <> size_of (loops r) ->
  first_loop_id r <= l /\ indexFor r l = l - first_loop_id r
  /\ 0 <= indexFor r l < size_of (loops r).
Proof.
  unfold indexFor. destruct (Z.ltb_spec l (first_loop_id r)); [done|].
  destruct (Z.leb_spec (size_of (loops r)) (l - first_loop_id r)); [done|]. lia.
Qed.

Lemma indexFor_inj r l l' :
  indexFor r l <> size_of (loops r) -> indexFor r l' <> size_of (loops r) ->
  Z.to_nat (indexFor r l) = Z.to_nat (indexFor r l') -> l = l'.
Proof. intros H1%indexFor_range H2%indexFor_range. lia. Qed.

Lemma lock_alive alive id : is_Some (alive !! id) -> lock alive (Some id) = Some id.
Proof. unfold lock. intros. by rewrite bool_decide_true. Qed.

(** Changing another slot keeps a route. *)
Lemma routes_insert r l id i slot :
  routes r l id -> i <> Z.to_nat (indexFor r l) ->
  routes (r <| loops := <[i := slot]> (loops r) |>) l id.
Proof.
  intros (Ha & Hi & s & Hs & Hb & Hm) Hne. unfold routes, indexFor, size_of in *. simpl.
  rewrite length_insert. split_and!; [done | done|]. exists s.
  by rewrite list_lookup_insert_ne.
Qed.

Lemma router_step_routes r l id op :
  routes r l id -> keeps l id op -> routes (router_step r op) l id.
Proof.
  intros R Hk. pose proof R as (Ha & Hi & s & Hs & Hb & Hm).
  destruct op as [alive l' [m|]|alive l' [m|]]; simpl; try done; simpl in Hk.
  - destruct (Z.eqb_spec (indexFor r l') (size_of (loops r))) as [|Hi']; [done|]. rewrite Ha. simpl.
    destruct (loops r !! Z.to_nat (indexFor r l')) as [s'|] eqn:Es; [|done].
    destruct (decide (Z.to_nat (indexFor r l') = Z.to_nat (indexFor r l))) as [E|Hne].
    + rewrite E in Es. simplify_eq. by rewrite Hb, Hm, lock_alive.
    + case_match; [done|]. by apply routes_insert.
  - destruct Hk as [Hal Hne'].
    destruct (Z.eqb_spec (indexFor r l') (size_of (loops r))) as [|Hi']; [done|].
    destruct (loops r !! Z.to_nat (indexFor r l')) as [s'|] eqn:Es; [|done].
    destruct (decide (Z.to_nat (indexFor r l') = Z.to_nat (indexFor r l))) as [E|Hne].
    + assert (l' = l) as -> by (by apply (indexFor_inj r)). simplify_eq.
      rewrite Hb, Hm, lock_alive by done. simpl. rewrite bool_decide_true; [done|].
      intros ->. by apply Hne'.
    + destruct (bound s'); simpl; [|done]. case_match; [case_bool_decide; [done|]|];
        by apply routes_insert.
Qed.

Lemma bind_routes r alive l id r1 :
  is_Some (alive !! id) -> bind r alive l (Some id) = (r1, true) -> routes r1 l id.
Proof.
  unfold bind. intros Hal.
  destruct (Z.eqb_spec (indexFor r l) (size_of (loops r))) as [|Hi]; [done|].
  destruct (router_accepting r) eqn:Ha; simpl; [|done].
  pose proof (indexFor_range r l Hi) as (_ & _ & Hr).
  destruct (loops r !! Z.to_nat (indexFor r l)) as [s|] eqn:Es; [|done].
  destruct (bound s) eqn:Hb; [destruct (lock alive (slot_mailbox s)) as [c|] eqn:El|];
    intros E; simplify_eq.
  - case_bool_decide; [|done]. subst c. unfold lock in El. repeat case_match; simplify_eq.
    split_and!; [done | done | by exists s].
  - unfold routes, indexFor, size_of in *. simpl. rewrite length_insert.
    split_and!; [done | done|]. eexists. rewrite list_lookup_insert_eq by lia. done.
  - unfold routes, indexFor, size_of in *. simpl. rewrite length_insert.
    split_and!; [done | done|]. eexists. rewrite list_lookup_insert_eq by lia. done.
Qed.

Lemma run_routes r l id ops :
  routes r l id -> Forall (keeps l id) ops -> routes (foldl router_step r ops) l id.
Proof.
  intros R Hk. revert r R. induction Hk as [|op ops Hop _ IH]; intros r R; simpl; [done|].
  apply IH. by apply router_step_routes.
Qed.

(** Completions reach their own loop and no other: once a loop has bound
    its mailbox, then whatever other binds and unbinds happen while the mailbox
    lives, a valid completion whose token names that loop is posted to exactly
    that mailbox, and every other mailbox is left as it was. *)
Theorem router_delivers_to_bound_loop r alive0 l id r1 ops alive mailbox c writes :
  is_Some (alive0 !! id) -> bind r alive0 l (Some id) = (r1, true) ->
  Forall (keeps l id) ops -> alive !! id = Some mailbox ->
  completion_valid c = true -> loop_id (completion_token c) = l ->
  tryRoute (foldl router_step r1 ops) alive c writes
  = option_map (fun posted => <[id := posted.1]> alive) (loop_tryPost mailbox c writes).
Proof.
  intros Hal Hb Hk Hm Hv Hl. pose proof (bind_routes _ _ _ _ _ Hal Hb) as R.
  apply (run_routes _ _ _ ops) in R; [|done].
  destruct R as (Ha & Hi & s & Hs & Hbd & Hmb). unfold tryRoute.
  rewrite Hv, Ha, Hl. simpl. destruct (Z.eqb_spec (indexFor (foldl router_step r1 ops) l)
    (size_of (loops (foldl router_step r1 ops)))); [done|].
  rewrite Hs, Hbd, Hmb, lock_alive, Hm by (by eauto).
  by destruct (loop_tryPost mailbox c writes) as [[]|].
Qed.

Definition sample_box : LoopMailbox := mkLoopMailbox (ring_make 2) 3 0 64 32 true.

Definition sample_boxes : Mailboxes := {[ 10 := sample_box; 11 := sample_box ]}.

Definition sample_router : CompletionRouter :=
  mkRouter [mkSlot 0 None false; mkSlot 1 None false] 0 true.

Lemma router_delivers_to_bound_loop_witness :
  let c := mkCompletion (mkToken 1 5 1) BusinessCompletionStatus.Response [0; 0; 0; 1; 7] in
  let ops := [RBind sample_boxes 0 (Some 11); RUnbind sample_boxes 1 (Some 11)] in
  let r1 := (bind sample_router sample_boxes 1 (Some 10)).1 in
  tryRoute (foldl router_step r1 ops) sample_boxes c [IoBytes 8]
  = option_map (fun posted => <[10 := posted.1]> sample_boxes)
      (loop_tryPost sample_box c [IoBytes 8]).
Proof.
  apply (router_delivers_to_bound_loop sample_router sample_boxes 1 10);
    [by vm_compute; eauto | vm_compute; reflexivity | | reflexivity | reflexivity | reflexivity].
  apply Forall_cons. split; [by vm_compute; eauto|]. apply Forall_cons.
  split; [|apply Forall_nil_2]. split; [by vm_compute; eauto|]. by intros [_ ?].
Defined.
