(* ===== verification/Config.v ===== *)
(** * Config: the configuration file and its validation

    Model of [config.{hpp,cpp}], of the configuration structs it fills and of
    the part of [app/handler.cpp] that validates them.  The content of the
    file is an argument; strings are lists of characters where the source
    scans them.  [std::chrono::milliseconds] is a [Z]. *)

From Stdlib Require Import Ascii.
From S2P Require Import RedisConnection MysqlDao.
From S2P Require Import Prelude Text Ring WorkerPool Domain IpAddress Blacklist FeatureStore Policy.
From S2P Require Import RiskService CandidateQueue Codec Limits TimerCore Session Business.
Open Scope Z_scope.

(** ** Text *)

Fixpoint drop_space (l : list ascii) : list ascii :=
  match l with
  | c :: rest => if isspace c then drop_space rest else l
  | [] => []
  end.

Definition trim (value : list ascii) : list ascii :=
  rev (drop_space (rev (drop_space value))).

(** [std::getline] on the whole content. *)
Fixpoint split_lines (l current : list ascii) : list (list ascii) :=
  match l with
  | [] => match current with [] => [] | _ => [rev current] end
  | c :: rest =>
      if char_code c =? 10 then rev current :: split_lines rest [] else split_lines rest (c :: current)
  end.

(** [normalized.find('=')], as the text before and after it. *)
Fixpoint split_at_equals (l before : list ascii) : option (list ascii * list ascii) :=
  match l with
  | [] => None
  | c :: rest =>
      if char_code c =? 61 then Some (rev before, rest) else split_at_equals rest (c :: before)
  end.

Abbreviation RawConfig := (gmap string string).

(** One iteration of the reading loop. *)
Definition read_line (values : RawConfig) (line : list ascii) : result RawConfig :=
  let normalized := trim line in
  match normalized with
  | [] => Ok values
  | front :: _ =>
      if char_code front =? 35 then Ok values
      else
        match split_at_equals normalized [] with
        | None => Throw "line without ="
        | Some (k, v) =>
            let key := String.string_of_list_ascii (trim k) in
            let value := String.string_of_list_ascii (trim v) in
            if bool_decide (key = "") then Throw "empty key"
            else
              match values !! key with
              | Some _ => Throw "duplicate key"
              | None => Ok (<[key := value]> values)
              end
        end
  end.

Fixpoint read_lines (values : RawConfig) (lines : list (list ascii)) : result RawConfig :=
  match lines with
  | [] => Ok values
  | line :: rest => values ← read_line values line; read_lines values rest
  end.

(** The constructor; [None] is a file that cannot be opened. *)
Definition read_config (content : option string) : result RawConfig :=
  match content with
  | None => Throw "cannot open"
  | Some content => read_lines ∅ (split_lines (String.list_ascii_of_string content) [])
  end.

Definition getString (config : RawConfig) (key default_value : string) : string :=
  match config !! key with None => default_value | Some v => v end.

(** [std::stoull(text, &parsed)] in base 10; [None] when it throws. *)
Definition stoull (text : list ascii) : option (Z * nat) :=
  let body := drop_space text in
  let skipped := (length text - length body)%nat in
  let '(negative, sign, rest) :=
    match body with
    | c :: rest =>
        if char_code c =? 45 then (true, 1%nat, rest)
        else if char_code c =? 43 then (false, 1%nat, rest) else (false, 0%nat, body)
    | [] => (false, 0%nat, [])
    end in
  let '(number, n) := digits rest 0 0 in
  if (n =? 0)%nat then None
  else if u64_max <? number then None
  else Some (if negative : bool then wrap64 (- number) else number, (skipped + sign + n)%nat).

Definition getUInt64 (config : RawConfig) (key : string) (default_value : Z) : result Z :=
  match config !! key with
  | None => Ok default_value
  | Some value =>
      let text := String.list_ascii_of_string value in
      match text with
      | c :: _ =>
          if char_code c =? 45 then Throw "negative"
          else
            match stoull text with
            | None => Throw "not an unsigned integer"
            | Some (number, parsed) =>
                if negb (parsed =? length text)%nat then Throw "not an unsigned integer"
                else Ok number
            end
      | [] => Throw "not an unsigned integer"
      end
  end.

Definition requireKnownKeys (config : RawConfig) (known_keys : list string) : result unit :=
  if forallb (fun kv : string * string => bool_decide (kv.1 ∈ known_keys)) (map_to_list config)
  then Ok tt else Throw "unknown key".

(** ** Readers *)

Definition readSize (config : RawConfig) (key : string) (default_value : Z) : result Z :=
  value ← getUInt64 config key default_value;
  if u64_max <? value then Throw "out of size_t range" else Ok value.

Definition readUint32 (config : RawConfig) (key : string) (default_value : Z) : result Z :=
  value ← getUInt64 config key default_value;
  if u32_max <? value then Throw "out of uint32 range" else Ok value.

Definition readPort (config : RawConfig) (key : string) (default_value : Z) : result Z :=
  value ← getUInt64 config key default_value;
  if ((value =? 0) || (65535 <? value))%bool then Throw "not a port" else Ok value.

Definition readNonEmptyString (config : RawConfig) (key default_value : string) : result string :=
  let value := getString config key default_value in
  if bool_decide (value = "") then Throw "empty" else Ok value.

(** 24 hours. *)
Definition kMaxMilliseconds : Z := 24 * 60 * 60 * 1000.

Definition readPositiveMilliseconds (config : RawConfig) (key : string) (default_value : Z)
    : result Z :=
  value ← getUInt64 config key default_value;
  if ((value =? 0) || (kMaxMilliseconds <? value))%bool then Throw "out of range" else Ok value.

Definition addChecked (left right : Z) : result Z :=
  if (u64_max ⊖ left) <? right then Throw "capacity overflow" else Ok (left ⊕ right).

Inductive LogLevel := LogDebug | LogInfo | LogWarn | LogError.

Definition log_level_text (l : LogLevel) : string :=
  match l with
  | LogDebug => "DEBUG" | LogInfo => "INFO" | LogWarn => "WARN" | LogError => "ERROR"
  end.

Definition readLogLevel (config : RawConfig) (key : string) (default_value : LogLevel)
    : result LogLevel :=
  let value := getString config key (log_level_text default_value) in
  if bool_decide (value = "DEBUG") then Ok LogDebug
  else if bool_decide (value = "INFO") then Ok LogInfo
  else if bool_decide (value = "WARN") then Ok LogWarn
  else if bool_decide (value = "ERROR") then Ok LogError
  else Throw "log level".

(** ** Configuration structs and their defaults *)

Record LoggerConfig := mkLogger {
  log_level : LogLevel;
  log_file : string;
  log_queue_capacity : Z;
  flush_interval : Z;
}.

Record BlacklistCacheBootstrapConfig := mkBootstrap {
  startup_timeout : Z;
  cache_batch_size : Z;
  reset_timeout : Z;
}.

Record BlacklistMaintenanceConfig := mkMaintenance {
  maintenance_interval : Z;
  maintenance_timeout : Z;
  expire_cleanup_interval : Z;
  maintenance_batch_size : Z;
  candidate_batch_size : Z;
}.

Record SessionDeadlineConfig := mkDeadlines {
  deadlines_enabled : bool;
  idle_timeout : Z;
  read_timeout : Z;
  write_timeout : Z;
  business_timeout : Z;
}.

Record EventLoopConfig := mkEventLoop {
  config_loop_id : Z;
  loop_max_connections : Z;
  loop_max_events : Z;
  read_scratch_bytes : Z;
  completion_capacity : Z;
  completion_byte_capacity : Z;
  loop_max_completion_bytes : Z;
  overload_response_frame : bytes_t;
  business_timeout_response_frame : bytes_t;
  loop_deadlines : SessionDeadlineConfig;
  session : SessionConfig;
}.

Record EventLoopGroupConfig := mkGroup {
  loop_count : Z;
  group_max_connections : Z;
  group_max_connections_per_loop : Z;
  group_connection_queue_capacity : Z;
  event_loop : EventLoopConfig;
}.

Record AcceptorLoopConfig := mkAcceptor {
  bind_address : string;
  acceptor_port : Z;
  backlog : Z;
  acceptor_max_connections : Z;
  acceptor_max_events : Z;
}.

Record HandlerConfig := mkHandlerConfig {
  policy : LoginPolicyConfig;
  mysql : MysqlConfig;
  redis : RedisConfig;
  blacklist_cache : BlacklistCacheBootstrapConfig;
  worker_pool : BoundedWorkerPoolConfig;
  maintenance_pool : BoundedWorkerPoolConfig;
  feature_reclamation : FeatureStateReclamationConfig;
  cleanup_interval : Z;
  blacklist_maintenance : BlacklistMaintenanceConfig;
  candidate_queue_capacity : Z;
  limits : LimitsConfig;
  event_loops : EventLoopGroupConfig;
  acceptor : AcceptorLoopConfig;
  deadlines : SessionDeadlineConfig;
  shutdown_grace_timeout : Z;
}.

Record AppConfig := mkApp {
  logger : LoggerConfig;
  timer : TimerCoreConfig;
  handler : HandlerConfig;
}.

Definition default_session_config : SessionConfig :=
  mkSessionConfig kMaxPayloadSize (64 * 1024) (kFrameHeaderSize + kMaxPayloadSize) (64 * 1024)
    (kFrameHeaderSize + kMaxPayloadSize).

Definition default_handler : HandlerConfig :=
  mkHandlerConfig default_policy
    (mkMysql "127.0.0.1" 3306 "aegisflow" "" "aegisflow" "utf8mb4" 3 3 3)
    (mkRedis "127.0.0.1" 6379 "" "" 0 1000 1000 "aegisflow:blacklist")
    (mkBootstrap 10000 100 10000)
    (mkPoolConfig 4 1024) (mkPoolConfig 1 64) default_reclamation 60000
    (mkMaintenance 1000 3000 60000 100 256) 4096 default_limits
    (mkGroup 1 65536 65536 1024
       (mkEventLoop 0 65536 64 4096 1024 (16 * 1024 * 1024) (kFrameHeaderSize + kMaxPayloadSize)
          [] [] (mkDeadlines false 0 0 0 0) default_session_config))
    (mkAcceptor "0.0.0.0" 8080 512 65536 16)
    (mkDeadlines true 30000 5000 10000 2000) 5000.

Definition default_app : AppConfig :=
  mkApp (mkLogger LogInfo "logs/aegisflow.log" 4096 200) (mkTimerConfig 4096 65536) default_handler.

(** ** [loadAppConfig], block by block *)

Definition kServerConfigKeys : list string :=
  ["log.level"; "log.file"; "log.queue_capacity"; "log.flush_interval_ms"; "server.host";
   "server.port"; "server.io_threads"; "server.max_connections"; "server.max_frame_payload_bytes";
   "server.idle_timeout_ms"; "server.io_timeout_ms"; "server.business_timeout_ms";
   "server.shutdown_grace_timeout_ms"; "worker_pool.threads"; "worker_pool.queue_capacity";
   "maintenance.interval_ms"; "maintenance.user_state_ttl_ms"; "maintenance.ip_state_ttl_ms";
   "maintenance.device_state_ttl_ms"; "policy.user_failure_review_threshold";
   "policy.ip_spray_review_threshold"; "policy.device_sharing_review_threshold";
   "policy.ip_distinct_reject_threshold"; "policy.ip_failure_reject_threshold"; "mysql.host";
   "mysql.port"; "mysql.user"; "mysql.password"; "mysql.database"; "blacklist.startup_timeout_ms";
   "blacklist.batch_size"; "blacklist.reset_timeout_ms"; "blacklist.maintenance_interval_ms";
   "blacklist.maintenance_timeout_ms"; "blacklist.expire_cleanup_interval_ms";
   "blacklist.candidate_queue_capacity"; "blacklist.candidate_batch_size"; "redis.host";
   "redis.port"; "redis.username"; "redis.password"; "redis.database";
   "redis.connect_timeout_ms"; "redis.command_timeout_ms"; "redis.key_prefix"].

(** [throw] when the test holds. *)
Definition reject_if (test : bool) (what : string) : result unit :=
  if test then Throw what else Ok tt.

(** [c_str()]: a C function reads up to the first NUL. *)
Fixpoint c_str (s : string) : string :=
  match s with
  | String.EmptyString => ""
  | String.String c rest => if char_code c =? 0 then "" else String.String c (c_str rest)
  end.

Definition load_logger (config : RawConfig) (l : LoggerConfig) : result LoggerConfig :=
  level ← readLogLevel config "log.level" (log_level l);
  file ← readNonEmptyString config "log.file" (log_file l);
  capacity ← readSize config "log.queue_capacity" (log_queue_capacity l);
  interval ← readPositiveMilliseconds config "log.flush_interval_ms" (flush_interval l);
  _ ← reject_if (capacity =? 0) "log.queue_capacity";
  Ok (mkLogger level file capacity interval).

Section Load.
Context `{Inet}.

Definition load_server (config : RawConfig) (h : HandlerConfig) : result HandlerConfig :=
  host ← readNonEmptyString config "server.host" (bind_address (acceptor h));
  _ ← reject_if (bool_decide (inet_pton4 (c_str host) = None)) "server.host";
  port ← readPort config "server.port" (acceptor_port (acceptor h));
  loops ← readSize config "server.io_threads" (loop_count (event_loops h));
  _ ← reject_if ((loops =? 0) || (u32_max <? loops)) "server.io_threads";
  connections ← readSize config "server.max_connections" (max_connections (limits h));
  _ ← reject_if (connections =? 0) "server.max_connections";
  let per_loop :=
    connections / loops + (if negb (connections mod loops =? 0) then 1 else 0) in
  Ok (h <| acceptor := (acceptor h) <| bind_address := host |> <| acceptor_port := port |> |>
        <| event_loops := (event_loops h) <| loop_count := loops |> |>
        <| limits := (limits h) <| max_connections := connections |>
                              <| max_connections_per_loop := per_loop |>
                              <| connection_queue_capacity := Z.min 1024 per_loop |> |>).

Definition load_workers (config : RawConfig) (h : HandlerConfig) : result HandlerConfig :=
  threads ← readSize config "worker_pool.threads" (thread_count (worker_pool h));
  _ ← reject_if (threads =? 0) "worker_pool.threads";
  capacity ← readSize config "worker_pool.queue_capacity" (business_queue_capacity (limits h));
  _ ← reject_if (capacity =? 0) "worker_pool.queue_capacity";
  completion_coverage ← addChecked capacity threads;
  Ok (h <| worker_pool := (worker_pool h) <| thread_count := threads |> |>
        <| limits := (limits h) <| business_queue_capacity := capacity |>
                              <| completion_queue_capacity := Z.max 2048 completion_coverage |> |>).

Definition load_frames (config : RawConfig) (h : HandlerConfig) : result HandlerConfig :=
  payload ← readSize config "server.max_frame_payload_bytes" kMaxPayloadSize;
  _ ← reject_if ((payload =? 0) || (kMaxPayloadSize <? payload)) "server.max_frame_payload_bytes";
  frame_limit ← addChecked kFrameHeaderSize payload;
  let soft_watermark := Z.min (64 * 1024) frame_limit in
  Ok (h <| limits := (limits h) <| limit_frame_payload_bytes := payload |>
                              <| limit_input_soft_watermark := soft_watermark |>
                              <| limit_input_buffer_bytes := frame_limit |>
                              <| limit_output_soft_watermark := soft_watermark |>
                              <| limit_output_buffer_bytes := frame_limit |>
                              <| completion_queue_byte_capacity :=
                                   Z.max (16 * 1024 * 1024) frame_limit |> |>).

Definition load_deadlines (config : RawConfig) (h : HandlerConfig) : result HandlerConfig :=
  idle ← readPositiveMilliseconds config "server.idle_timeout_ms" 30000;
  io ← readPositiveMilliseconds config "server.io_timeout_ms" 10000;
  business ← readPositiveMilliseconds config "server.business_timeout_ms" 2000;
  grace ← readPositiveMilliseconds config "server.shutdown_grace_timeout_ms" 5000;
  Ok (h <| deadlines := mkDeadlines true idle io io business |>
        <| shutdown_grace_timeout := grace |>).

Definition load_maintenance (config : RawConfig) (h : HandlerConfig) : result HandlerConfig :=
  interval ← readPositiveMilliseconds config "maintenance.interval_ms" 60000;
  user_ttl ← getUInt64 config "maintenance.user_state_ttl_ms" (10 * 60 * 1000);
  ip_ttl ← getUInt64 config "maintenance.ip_state_ttl_ms" (20 * 60 * 1000);
  device_ttl ← getUInt64 config "maintenance.device_state_ttl_ms" (20 * 60 * 1000);
  _ ← reject_if ((user_ttl <? 5 * 60 * 1000) || (ip_ttl <? kDistinctWindowMs)
                 || (device_ttl <? kDistinctWindowMs)) "state TTL";
  Ok (h <| cleanup_interval := interval |>
        <| feature_reclamation := mkReclamation user_ttl ip_ttl device_ttl |>).

Definition load_policy (config : RawConfig) (h : HandlerConfig) : result HandlerConfig :=
  let p := policy h in
  user ← readUint32 config "policy.user_failure_review_threshold" (user_failure_review_threshold p);
  spray ← readUint32 config "policy.ip_spray_review_threshold" (ip_spray_review_threshold p);
  sharing ← readUint32 config "policy.device_sharing_review_threshold"
              (device_sharing_review_threshold p);
  distinct ← readUint32 config "policy.ip_distinct_reject_threshold" (ip_distinct_reject_threshold p);
  failures ← readUint32 config "policy.ip_failure_reject_threshold" (ip_failure_reject_threshold p);
  let p := mkPolicyConfig user spray sharing distinct failures in
  _ ← validateLoginPolicyConfig p;
  Ok (h <| policy := p |>).

Definition load_mysql (config : RawConfig) (h : HandlerConfig) : result HandlerConfig :=
  let m := mysql h in
  host ← readNonEmptyString config "mysql.host" (mysql_host m);
  port ← readPort config "mysql.port" (mysql_port m);
  user ← readNonEmptyString config "mysql.user" (mysql_user m);
  let password := getString config "mysql.password" (mysql_password m) in
  database ← readNonEmptyString config "mysql.database" (mysql_database m);
  Ok (h <| mysql := m <| mysql_host := host |> <| mysql_port := port |> <| mysql_user := user |>
                      <| mysql_password := password |> <| mysql_database := database |> |>).

Definition load_blacklist (config : RawConfig) (h : HandlerConfig) : result HandlerConfig :=
  let c := blacklist_cache h in
  let m := blacklist_maintenance h in
  startup ← readPositiveMilliseconds config "blacklist.startup_timeout_ms" (startup_timeout c);
  batch ← readSize config "blacklist.batch_size" (cache_batch_size c);
  reset ← readPositiveMilliseconds config "blacklist.reset_timeout_ms" (reset_timeout c);
  _ ← reject_if (batch =? 0) "blacklist.batch_size";
  interval ← readPositiveMilliseconds config "blacklist.maintenance_interval_ms"
               (maintenance_interval m);
  timeout ← readPositiveMilliseconds config "blacklist.maintenance_timeout_ms"
              (maintenance_timeout m);
  expire ← readPositiveMilliseconds config "blacklist.expire_cleanup_interval_ms"
             (expire_cleanup_interval m);
  candidate_batch ← readSize config "blacklist.candidate_batch_size" (candidate_batch_size m);
  capacity ← readSize config "blacklist.candidate_queue_capacity" (candidate_queue_capacity h);
  _ ← reject_if ((capacity =? 0) || (candidate_batch =? 0) || (capacity <? candidate_batch))
        "blacklist candidates";
  Ok (h <| blacklist_cache := mkBootstrap startup batch reset |>
        <| blacklist_maintenance := mkMaintenance interval timeout expire batch candidate_batch |>
        <| candidate_queue_capacity := capacity |>).

Definition load_redis (config : RawConfig) (h : HandlerConfig) : result HandlerConfig :=
  let r := redis h in
  host ← readNonEmptyString config "redis.host" (redis_host r);
  port ← readPort config "redis.port" (redis_port r);
  let username := getString config "redis.username" (redis_username r) in
  let password := getString config "redis.password" (redis_password r) in
  database ← readUint32 config "redis.database" (redis_database r);
  connect ← readPositiveMilliseconds config "redis.connect_timeout_ms" (redis_connect_timeout r);
  command ← readPositiveMilliseconds config "redis.command_timeout_ms" (redis_command_timeout r);
  prefix ← readNonEmptyString config "redis.key_prefix" (redis_key_prefix r);
  _ ← reject_if ((15 <? database)
                 || (negb (bool_decide (username = "")) && bool_decide (password = ""))) "redis";
  Ok (h <| redis := mkRedis host port username password database connect command prefix |>).

Definition load_timer (h : HandlerConfig) : result TimerCoreConfig :=
  commands ← addChecked (business_queue_capacity (limits h)) (loop_count (event_loops h));
  timers ← addChecked (max_connections (limits h)) (max_connections (limits h));
  Ok (mkTimerConfig (Z.max 4096 commands) (Z.max 1024 timers)).

Definition load_handler (config : RawConfig) (h : HandlerConfig) : result HandlerConfig :=
  h ← load_server config h;
  h ← load_workers config h;
  h ← load_frames config h;
  h ← load_deadlines config h;
  h ← load_maintenance config h;
  h ← load_policy config h;
  h ← load_mysql config h;
  h ← load_blacklist config h;
  load_redis config h.

Definition loadAppConfig (content : option string) : result AppConfig :=
  config ← read_config content;
  _ ← requireKnownKeys config kServerConfigKeys;
  l ← load_logger config (logger default_app);
  h ← load_handler config (handler default_app);
  t ← load_timer h;
  Ok (mkApp l t h).

(** ** The checks of the components that receive the configuration *)

Definition positiveTimeout (value : Z) : bool := (0 <? value) && (value <=? kMaxMilliseconds).

Definition normalizeConfig `{Protobuf} (config : HandlerConfig) : result HandlerConfig :=
  let l := limits config in
  overload ← buildLoginOverloadResponseFrame;
  timeout ← buildLoginBusinessTimeoutResponseFrame;
  let loop :=
    (event_loop (event_loops config))
      <| loop_max_connections := max_connections_per_loop l |>
      <| completion_capacity := completion_queue_capacity l |>
      <| completion_byte_capacity := completion_queue_byte_capacity l |>
      <| loop_max_completion_bytes := limit_output_buffer_bytes l |>
      <| overload_response_frame := overload |>
      <| business_timeout_response_frame := timeout |>
      <| loop_deadlines := deadlines config |>
      <| session := mkSessionConfig (limit_frame_payload_bytes l) (limit_input_soft_watermark l)
                      (limit_input_buffer_bytes l) (limit_output_soft_watermark l)
                      (limit_output_buffer_bytes l) |> in
  Ok (config
        <| worker_pool := (worker_pool config) <| queue_capacity := business_queue_capacity l |> |>
        <| event_loops := mkGroup (loop_count (event_loops config)) (max_connections l)
             (max_connections_per_loop l) (connection_queue_capacity l) loop |>
        <| acceptor := (acceptor config) <| acceptor_max_connections := max_connections l |> |>
        <| blacklist_maintenance := (blacklist_maintenance config)
             <| maintenance_batch_size := cache_batch_size (blacklist_cache config) |> |>).

Definition str_is_empty (s : string) : bool := bool_decide (s = "").

Definition handler_validConfig (config : HandlerConfig) : bool :=
  let m := blacklist_maintenance config in
  let r := redis config in
  let loop := event_loop (event_loops config) in
  if ((thread_count (worker_pool config) =? 0)
      || (queue_capacity (worker_pool config) =? 0)
      || negb (thread_count (maintenance_pool config) =? 1)
      || (queue_capacity (maintenance_pool config) =? 0)
      || negb (isValidReclamationConfig (feature_reclamation config))
      || negb (positiveTimeout (cleanup_interval config))
      || negb (positiveTimeout (maintenance_interval m))
      || negb (positiveTimeout (maintenance_timeout m))
      || negb (positiveTimeout (expire_cleanup_interval m))
      || (maintenance_batch_size m =? 0)
      || (candidate_batch_size m =? 0)
      || (candidate_queue_capacity config =? 0)
      || (candidate_queue_capacity config <? candidate_batch_size m)
      || negb (positiveTimeout (startup_timeout (blacklist_cache config)))
      || (cache_batch_size (blacklist_cache config) =? 0)
      || negb (positiveTimeout (reset_timeout (blacklist_cache config)))
      || str_is_empty (redis_host r) || (redis_port r =? 0)
      || (15 <? redis_database r) || str_is_empty (redis_key_prefix r)
      || (redis_connect_timeout r <=? 0) || (redis_command_timeout r <=? 0)
      || (negb (str_is_empty (redis_username r)) && str_is_empty (redis_password r))
      || (loop_count (event_loops config) =? 0)
      || (u32_max <? loop_count (event_loops config))
      || (loop_max_events loop =? 0) || (read_scratch_bytes loop =? 0)
      || (completion_capacity loop =? 0) || (completion_byte_capacity loop =? 0)
      || (backlog (acceptor config) <=? 0)
      || negb (deadlines_enabled (deadlines config))
      || negb (positiveTimeout (idle_timeout (deadlines config)))
      || negb (positiveTimeout (read_timeout (deadlines config)))
      || negb (positiveTimeout (write_timeout (deadlines config)))
      || negb (positiveTimeout (business_timeout (deadlines config)))
      || negb (positiveTimeout (shutdown_grace_timeout config))
      || negb (validLimits (limits config) (loop_count (event_loops config))
                 (thread_count (worker_pool config))))%bool
  then false
  else if bool_decide (inet_pton4 (c_str (bind_address (acceptor config))) = None) then false
  else match validateLoginPolicyConfig (policy config) with Ok _ => true | Throw _ => false end.

Definition logger_validConfig (config : LoggerConfig) : bool :=
  negb (str_is_empty (log_file config)) && (0 <? log_queue_capacity config)
  && (0 <? flush_interval config) && (flush_interval config <=? kMaxMilliseconds).

Definition maintenance_validConfig (config : BlacklistMaintenanceConfig) : bool :=
  (0 <? maintenance_interval config) && (0 <? maintenance_timeout config)
  && (0 <? expire_cleanup_interval config) && (maintenance_interval config <=? kMaxMilliseconds)
  && (maintenance_timeout config <=? kMaxMilliseconds)
  && (expire_cleanup_interval config <=? kMaxMilliseconds)
  && (0 <? maintenance_batch_size config) && (0 <? candidate_batch_size config).
End Load.

(** ** What the readers guarantee *)

Lemma stoull_range text v n : stoull text = Some (v, n) -> is_u64 v.
Proof.
  unfold stoull. repeat case_match; intros [= <- <-]; bool_to_prop; try apply wrap64_range;
    match goal with
    | E : digits ?l 0 0 = (?k, _) |- _ =>
        pose proof (digits_nonneg l 0 0 ltac:(lia)) as Hd; rewrite E in Hd; simpl in Hd
    end; unfold is_u64, u64_max in *; lia.
Qed.

Lemma getUInt64_range config key d v : is_u64 d -> getUInt64 config key d = Ok v -> is_u64 v.
Proof.
  unfold getUInt64. intros Hd. repeat case_match; intros E; simplify_eq; try done.
  by eapply stoull_range.
Qed.

Lemma reject_if_ok b w u : reject_if b w = Ok u -> b = false.
Proof. unfold reject_if. by destruct b. Qed.

Lemma readSize_ok config key d v : is_u64 d -> readSize config key d = Ok v -> is_u64 v.
Proof.
  unfold readSize. intros Hd H. bind_inv. case_match; simplify_eq. by eapply getUInt64_range.
Qed.

Lemma readUint32_ok config key d v : is_u64 d -> readUint32 config key d = Ok v -> is_u32 v.
Proof.
  unfold readUint32. intros Hd H. bind_inv. apply getUInt64_range in E; [|done].
  case_match; simplify_eq. bool_to_prop. unfold is_u32, is_u64, u32_max in *. lia.
Qed.

Lemma readPort_ok config key d v : is_u64 d -> readPort config key d = Ok v -> 1 <= v <= 65535.
Proof.
  unfold readPort. intros Hd H. bind_inv. apply getUInt64_range in E; [|done].
  case_match; simplify_eq. bool_to_prop. unfold is_u64 in *. lia.
Qed.

Lemma readNonEmptyString_ok config key d v : readNonEmptyString config key d = Ok v -> v <> "".
Proof. unfold readNonEmptyString. case_bool_decide; intros; by simplify_eq. Qed.

Lemma readPositiveMilliseconds_ok config key d v :
  is_u64 d -> readPositiveMilliseconds config key d = Ok v -> 1 <= v <= kMaxMilliseconds.
Proof.
  unfold readPositiveMilliseconds. intros Hd H. bind_inv. apply getUInt64_range in E; [|done].
  case_match; simplify_eq. bool_to_prop. unfold is_u64 in *. lia.
Qed.

Lemma addChecked_ok a b v :
  is_u64 a -> is_u64 b -> addChecked a b = Ok v -> v = a + b /\ a + b < two64.
Proof.
  unfold addChecked, is_u64, u64_max. intros Ha Hb. rewrite wrap64_small by (unfold is_u64; lia).
  destruct (Z.ltb_spec (18446744073709551616 - 1 - a) b); [done|]. intros [= <-].
  rewrite wrap64_small by (unfold is_u64; lia). lia.
Qed.

(** Turns the reads of a block into what they guarantee. *)
Ltac read_facts :=
  repeat match goal with
  | H : reject_if _ _ = Ok _ |- _ => apply reject_if_ok in H
  | H : readSize _ _ _ = Ok _ |- _ => apply readSize_ok in H; [|done]
  | H : readUint32 _ _ _ = Ok _ |- _ => apply readUint32_ok in H; [|done]
  | H : readPort _ _ _ = Ok _ |- _ => apply readPort_ok in H; [|done]
  | H : readNonEmptyString _ _ _ = Ok _ |- _ => apply readNonEmptyString_ok in H
  | H : readPositiveMilliseconds _ _ _ = Ok _ |- _ =>
      apply readPositiveMilliseconds_ok in H; [|done]
  | H : getUInt64 _ _ _ = Ok _ |- _ => apply getUInt64_range in H; [|done]
  | H : Ok _ = Ok _ |- _ => injection H as H
  end; bool_to_prop.

Section Loaded.
Context `{Inet}.

(** The guarantees of a loaded handler configuration, before it is normalised. *)
Record loaded_handler (h : HandlerConfig) : Prop := {
  lh_host : bind_address (acceptor h) <> "" /\ inet_pton4 (c_str (bind_address (acceptor h))) <> None;
  lh_backlog : backlog (acceptor h) = 512 /\ acceptor_max_events (acceptor h) = 16;
  lh_loops : 1 <= loop_count (event_loops h) <= u32_max;
  lh_loop : event_loop (event_loops h) = event_loop (event_loops default_handler);
  lh_workers : 1 <= thread_count (worker_pool h);
  lh_maintenance_pool : maintenance_pool h = mkPoolConfig 1 64;
  lh_connections : 1 <= max_connections (limits h) < two64;
  lh_per_loop : max_connections_per_loop (limits h)
    = max_connections (limits h) / loop_count (event_loops h)
      + (if negb (max_connections (limits h) mod loop_count (event_loops h) =? 0) then 1 else 0);
  lh_queue : connection_queue_capacity (limits h)
             = Z.min 1024 (max_connections_per_loop (limits h));
  lh_business : 1 <= business_queue_capacity (limits h);
  lh_completions : completion_queue_capacity (limits h)
    = Z.max 2048 (business_queue_capacity (limits h) + thread_count (worker_pool h));
  lh_no_overflow : business_queue_capacity (limits h) + thread_count (worker_pool h) < two64;
  lh_payload : 1 <= limit_frame_payload_bytes (limits h) <= kMaxPayloadSize;
  lh_input : limit_input_buffer_bytes (limits h) = 4 + limit_frame_payload_bytes (limits h);
  lh_output : limit_output_buffer_bytes (limits h) = 4 + limit_frame_payload_bytes (limits h);
  lh_soft : limit_input_soft_watermark (limits h) = Z.min 65536 (limit_input_buffer_bytes (limits h))
    /\ limit_output_soft_watermark (limits h) = Z.min 65536 (limit_input_buffer_bytes (limits h));
  lh_bytes : completion_queue_byte_capacity (limits h)
             = Z.max 16777216 (limit_output_buffer_bytes (limits h));
  lh_deadlines : deadlines_enabled (deadlines h) = true
    /\ Forall (fun t => 1 <= t <= kMaxMilliseconds)
         [idle_timeout (deadlines h); read_timeout (deadlines h); write_timeout (deadlines h);
          business_timeout (deadlines h); shutdown_grace_timeout h; cleanup_interval h;
          startup_timeout (blacklist_cache h); reset_timeout (blacklist_cache h);
          maintenance_interval (blacklist_maintenance h);
          maintenance_timeout (blacklist_maintenance h);
          expire_cleanup_interval (blacklist_maintenance h);
          redis_connect_timeout (redis h); redis_command_timeout (redis h)];
  lh_reclamation : isValidReclamationConfig (feature_reclamation h) = true;
  lh_policy : validateLoginPolicyConfig (policy h) = Ok tt;
  lh_batches : 1 <= cache_batch_size (blacklist_cache h)
    /\ maintenance_batch_size (blacklist_maintenance h) = cache_batch_size (blacklist_cache h)
    /\ 1 <= candidate_batch_size (blacklist_maintenance h) <= candidate_queue_capacity h;
  lh_redis : redis_host (redis h) <> "" /\ 1 <= redis_port (redis h) <= 65535
    /\ redis_key_prefix (redis h) <> "" /\ redis_database (redis h) <= 15
    /\ (redis_username (redis h) <> "" -> redis_password (redis h) <> "");
}.

Lemma loaded_reclamation u i d :
  ((u <? 5 * 60 * 1000) || (i <? kDistinctWindowMs) || (d <? kDistinctWindowMs))%bool = false ->
  isValidReclamationConfig (mkReclamation u i d) = true.
Proof.
  intros E. bool_to_prop. unfold isValidReclamationConfig, kUserWindowMs. simpl.
  rewrite !andb_true_iff, !Z.leb_le. lia.
Qed.

Lemma load_server_ok config h h' :
  acceptor_port (acceptor h) = 8080 -> loop_count (event_loops h) = 1 ->
  max_connections (limits h) = 65536 -> load_server config h = Ok h' ->
  exists host port loops connections,
    let per_loop := connections / loops + (if negb (connections mod loops =? 0) then 1 else 0) in
    h' = h <| acceptor := (acceptor h) <| bind_address := host |> <| acceptor_port := port |> |>
           <| event_loops := (event_loops h) <| loop_count := loops |> |>
           <| limits := (limits h) <| max_connections := connections |>
                                   <| max_connections_per_loop := per_loop |>
                                   <| connection_queue_capacity := Z.min 1024 per_loop |> |>
    /\ (host <> "" /\ inet_pton4 (c_str host) <> None)
    /\ 1 <= loops <= u32_max /\ 1 <= connections < two64.
Proof.
  unfold load_server. intros -> -> -> Hl. bind_inv. read_facts.
  exists v, v1, v2, v4. split_and!; try done; unfold is_u64 in *; lia.
Qed.

Lemma load_workers_ok config h h' :
  thread_count (worker_pool h) = 4 -> business_queue_capacity (limits h) = 1024 ->
  load_workers config h = Ok h' ->
  exists threads capacity,
    h' = h <| worker_pool := (worker_pool h) <| thread_count := threads |> |>
           <| limits := (limits h) <| business_queue_capacity := capacity |>
                <| completion_queue_capacity := Z.max 2048 (capacity + threads) |> |>
    /\ 1 <= threads /\ 1 <= capacity /\ capacity + threads < two64.
Proof.
  unfold load_workers. intros -> -> Hl. bind_inv. read_facts.
  apply addChecked_ok in E3 as [-> ?]; [|done|done].
  exists v, v1. split_and!; try done; unfold is_u64 in *; lia.
Qed.

Lemma load_frames_ok config h h' :
  load_frames config h = Ok h' ->
  exists payload,
    let frame_limit := 4 + payload in
    h' = h <| limits := (limits h) <| limit_frame_payload_bytes := payload |>
                <| limit_input_soft_watermark := Z.min 65536 frame_limit |>
                <| limit_input_buffer_bytes := frame_limit |>
                <| limit_output_soft_watermark := Z.min 65536 frame_limit |>
                <| limit_output_buffer_bytes := frame_limit |>
                <| completion_queue_byte_capacity := Z.max 16777216 frame_limit |> |>
    /\ 1 <= payload <= kMaxPayloadSize.
Proof.
  unfold load_frames. intros Hl. bind_inv. read_facts.
  apply addChecked_ok in E1 as [-> ?]; [|done|done].
  exists v. split_and!; try done; unfold is_u64 in *; lia.
Qed.

Definition ms_ok (t : Z) : Prop := 1 <= t <= kMaxMilliseconds.

Lemma load_deadlines_ok config h h' :
  load_deadlines config h = Ok h' ->
  exists idle io business grace,
    h' = h <| deadlines := mkDeadlines true idle io io business |>
           <| shutdown_grace_timeout := grace |>
    /\ ms_ok idle /\ ms_ok io /\ ms_ok business /\ ms_ok grace.
Proof.
  unfold load_deadlines. intros Hl. bind_inv. read_facts. by exists v, v0, v1, v2.
Qed.

Lemma load_maintenance_ok config h h' :
  load_maintenance config h = Ok h' ->
  exists interval ttls,
    h' = h <| cleanup_interval := interval |> <| feature_reclamation := ttls |>
    /\ ms_ok interval /\ isValidReclamationConfig ttls = true.
Proof.
  unfold load_maintenance. intros Hl. bind_inv.
  apply reject_if_ok, loaded_reclamation in E3. read_facts. by eexists _, _.
Qed.

Lemma load_policy_ok config h h' :
  load_policy config h = Ok h' ->
  exists p, h' = h <| policy := p |> /\ validateLoginPolicyConfig p = Ok tt.
Proof.
  unfold load_policy. intros Hl. bind_inv. injection Hl as <-. destruct v4. by eexists.
Qed.

Lemma load_mysql_ok config h h' :
  load_mysql config h = Ok h' -> exists m, h' = h <| mysql := m |>.
Proof. unfold load_mysql. intros Hl. bind_inv. injection Hl as <-. by eexists. Qed.

Lemma load_blacklist_ok config h h' :
  blacklist_cache h = mkBootstrap 10000 100 10000 ->
  blacklist_maintenance h = mkMaintenance 1000 3000 60000 100 256 ->
  candidate_queue_capacity h = 4096 -> load_blacklist config h = Ok h' ->
  exists startup batch reset interval timeout expire candidate_batch capacity,
    h' = h <| blacklist_cache := mkBootstrap startup batch reset |>
           <| blacklist_maintenance := mkMaintenance interval timeout expire batch candidate_batch |>
           <| candidate_queue_capacity := capacity |>
    /\ Forall ms_ok [startup; reset; interval; timeout; expire]
    /\ 1 <= batch /\ 1 <= candidate_batch <= capacity.
Proof.
  unfold load_blacklist. intros -> -> -> Hl. simpl in Hl. bind_inv. read_facts.
  exists v, v0, v1, v3, v4, v5, v6, v7. split_and!; [done | | unfold is_u64 in *; lia..].
  by repeat (apply Forall_cons; split; [done|]).
Qed.

Lemma load_redis_ok config h h' :
  redis h = mkRedis "127.0.0.1" 6379 "" "" 0 1000 1000 "aegisflow:blacklist" ->
  load_redis config h = Ok h' ->
  exists host port username password database connect command prefix,
    h' = h <| redis := mkRedis host port username password database connect command prefix |>
    /\ host <> "" /\ 1 <= port <= 65535 /\ prefix <> "" /\ database <= 15
    /\ (username <> "" -> password <> "") /\ ms_ok connect /\ ms_ok command.
Proof.
  unfold load_redis. intros -> Hl. simpl in Hl. bind_inv. read_facts.
  do 8 eexists. split_and!; try done; try lia.
  repeat match goal with H : (_ && _)%bool = false |- _ => apply andb_false_iff in H as [H|H] end;
    bool_to_prop; done.
Qed.

Lemma load_handler_ok config h : load_handler config default_handler = Ok h -> loaded_handler h.
Proof.
  unfold load_handler. intros Hl. bind_inv.
  apply load_server_ok in E as (host & port & loops & conns & -> & ? & ? & ?); [|done..].
  apply load_workers_ok in E0 as (threads & cap & -> & ? & ? & ?); [|done..].
  apply load_frames_ok in E1 as (payload & -> & ?).
  apply load_deadlines_ok in E2 as (idle & io & business & grace & -> & ? & ? & ? & ?).
  apply load_maintenance_ok in E3 as (interval & ttls & -> & ? & ?).
  apply load_policy_ok in E4 as (p & -> & ?).
  apply load_mysql_ok in E5 as (m & ->).
  apply load_blacklist_ok in E6 as (st & batch & rst & mi & mt & me & cb & cc & -> & Hms & ? & ?);
    [|done..].
  apply load_redis_ok in Hl as (rh & rp & ru & rpw & rdb & rc & rcm & rpx & -> & ? & ? & ? & ? & ?
    & ? & ?); [|done].
  rewrite !Forall_cons in Hms. destruct Hms as (? & ? & ? & ? & ? & _).
  split; simpl; try done. split; [done|].
  by repeat (apply Forall_cons; split; [done|]).
Qed.

Lemma ceil_div_bounds c n :
  0 < n -> 1 <= c ->
  let q := c / n + (if negb (c mod n =? 0) then 1 else 0) in
  1 <= q /\ c <= n * q <= c + n - 1.
Proof.
  intros Hn Hc. pose proof (Z.div_mod c n ltac:(lia)). pose proof (Z.mod_pos_bound c n Hn).
  pose proof (Z.div_pos c n ltac:(lia) Hn).
  destruct (Z.eqb_spec (c mod n) 0); simpl; nia.
Qed.

(** The derived limits are exactly what the network layer requires. *)
Lemma loaded_limits_ok h :
  loaded_handler h -> max_connections (limits h) + max_connections (limits h) < two64 ->
  limits_u64 (limits h)
  /\ limits_ok (limits h) (loop_count (event_loops h)) (thread_count (worker_pool h)).
Proof.
  intros Hh Hmc. destruct Hh.
  pose proof (ceil_div_bounds (max_connections (limits h)) (loop_count (event_loops h))
    ltac:(lia) ltac:(lia)) as Hq.
  rewrite <-lh_per_loop0 in Hq.
  assert (kMaxPayloadSize = 1048576) as Hk by done. unfold u32_max in *.
  split; [unfold limits_u64, is_u64; split_and!; nia|].
  split; unfold u64_max; try lia.
Qed.

Context `{Protobuf}.

Lemma positiveTimeout_ok t : ms_ok t -> positiveTimeout t = true.
Proof. unfold ms_ok, positiveTimeout. intros. by rewrite andb_true_iff, Z.ltb_lt, Z.leb_le; lia. Qed.

(** What [normalizeConfig] changes. *)
Lemma normalizeConfig_ok h e :
  normalizeConfig h = Ok e ->
  exists overload timeout,
    let l := limits h in
    let loop :=
      (event_loop (event_loops h))
        <| loop_max_connections := max_connections_per_loop l |>
        <| completion_capacity := completion_queue_capacity l |>
        <| completion_byte_capacity := completion_queue_byte_capacity l |>
        <| loop_max_completion_bytes := limit_output_buffer_bytes l |>
        <| overload_response_frame := overload |>
        <| business_timeout_response_frame := timeout |>
        <| loop_deadlines := deadlines h |>
        <| session := mkSessionConfig (limit_frame_payload_bytes l) (limit_input_soft_watermark l)
                        (limit_input_buffer_bytes l) (limit_output_soft_watermark l)
                        (limit_output_buffer_bytes l) |> in
    e = h <| worker_pool := (worker_pool h) <| queue_capacity := business_queue_capacity l |> |>
          <| event_loops := mkGroup (loop_count (event_loops h)) (max_connections l)
               (max_connections_per_loop l) (connection_queue_capacity l) loop |>
          <| acceptor := (acceptor h) <| acceptor_max_connections := max_connections l |> |>
          <| blacklist_maintenance := (blacklist_maintenance h)
               <| maintenance_batch_size := cache_batch_size (blacklist_cache h) |> |>.
Proof. unfold normalizeConfig. intros Hn. bind_inv. injection Hn as <-. by exists v, v0. Qed.

(** A conjunction of the conditions of [handler_validConfig]. *)
Lemma handler_valid_intro e :
  1 <= thread_count (worker_pool e) -> 1 <= queue_capacity (worker_pool e) ->
  maintenance_pool e = mkPoolConfig 1 64 -> isValidReclamationConfig (feature_reclamation e) = true ->
  Forall ms_ok
    [cleanup_interval e; maintenance_interval (blacklist_maintenance e);
     maintenance_timeout (blacklist_maintenance e);
     expire_cleanup_interval (blacklist_maintenance e);
     startup_timeout (blacklist_cache e); reset_timeout (blacklist_cache e);
     idle_timeout (deadlines e); read_timeout (deadlines e); write_timeout (deadlines e);
     business_timeout (deadlines e); shutdown_grace_timeout e;
     redis_connect_timeout (redis e); redis_command_timeout (redis e)] ->
  1 <= maintenance_batch_size (blacklist_maintenance e) ->
  1 <= candidate_batch_size (blacklist_maintenance e) <= candidate_queue_capacity e ->
  1 <= cache_batch_size (blacklist_cache e) ->
  redis_host (redis e) <> "" /\ 1 <= redis_port (redis e) <= 65535
  /\ redis_key_prefix (redis e) <> "" /\ redis_database (redis e) <= 15
  /\ (redis_username (redis e) <> "" -> redis_password (redis e) <> "") ->
  1 <= loop_count (event_loops e) <= u32_max ->
  1 <= loop_max_events (event_loop (event_loops e)) ->
  1 <= read_scratch_bytes (event_loop (event_loops e)) ->
  1 <= completion_capacity (event_loop (event_loops e)) ->
  1 <= completion_byte_capacity (event_loop (event_loops e)) ->
  1 <= backlog (acceptor e) -> deadlines_enabled (deadlines e) = true ->
  validLimits (limits e) (loop_count (event_loops e)) (thread_count (worker_pool e)) = true ->
  inet_pton4 (c_str (bind_address (acceptor e))) <> None ->
  validateLoginPolicyConfig (policy e) = Ok tt ->
  handler_validConfig e = true.
Proof.
  intros Hth Hcap Hmp Hrec Hms Hmb Hcb Hbb (Hr1 & Hr2 & Hr3 & Hr4 & Hr5) Hlc Hev Hsc Hcc Hcbc Hbl
    Hen Hv Hin Hpol.
  rewrite !Forall_cons in Hms. destruct Hms as (?&?&?&?&?&?&?&?&?&?&?&[? ?]&[? ?]&_).
  unfold handler_validConfig. rewrite Hmp, Hrec, Hen, Hv, Hpol.
  rewrite !positiveTimeout_ok by done. rewrite (bool_decide_false (inet_pton4 _ = None)) by done.
  unfold str_is_empty. rewrite (bool_decide_false (redis_host _ = "")) by done.
  rewrite (bool_decide_false (redis_key_prefix _ = "")) by done.
  assert ((negb (bool_decide (redis_username (redis e) = ""))
           && bool_decide (redis_password (redis e) = ""))%bool = false) as ->.
  { repeat case_bool_decide; try done. by destruct Hr5. }
  change (thread_count (mkPoolConfig 1 64) =? 1) with true.
  change (queue_capacity (mkPoolConfig 1 64) =? 0) with false.
  rewrite !(proj2 (Z.eqb_neq (_ (_ e)) _)), (proj2 (Z.eqb_neq (candidate_queue_capacity e) _)),
    !(proj2 (Z.eqb_neq (_ (_ (_ e))) _)), !(proj2 (Z.ltb_ge _ _)), !(proj2 (Z.leb_gt _ _)) by lia.
  reflexivity.
Qed.

Lemma loaded_handler_valid h e :
  loaded_handler h -> max_connections (limits h) + max_connections (limits h) < two64 ->
  normalizeConfig h = Ok e -> handler_validConfig e = true.
Proof.
  intros Hh Hmc Hn. destruct (loaded_limits_ok h Hh Hmc) as [Hu Hlim].
  apply normalizeConfig_ok in Hn as (overload & timeout & ->). destruct Hh.
  destruct lh_host0 as [_ ?], lh_backlog0 as [? _]. destruct lh_deadlines0 as [Hen Hms]. rewrite !Forall_cons in Hms.
  destruct Hms as (?&?&?&?&?&?&?&?&?&?&?&?&?&_). destruct lh_batches0 as (?&?&?).
  apply handler_valid_intro; simpl; try done; try lia.
  - by repeat (apply Forall_cons; split; [done|]).
  - by rewrite lh_loop0.
  - by rewrite lh_loop0.
  - apply validLimits_spec; try done; unfold is_u64, u32_max in *; lia.
Qed.

Lemma load_logger_ok config l :
  load_logger config (logger default_app) = Ok l -> logger_validConfig l = true.
Proof.
  unfold load_logger. intros Hl. bind_inv. read_facts. subst l.
  unfold logger_validConfig, str_is_empty. simpl. rewrite bool_decide_false by done. simpl.
  unfold is_u64 in *. rewrite !andb_true_iff, !Z.ltb_lt, Z.leb_le. lia.
Qed.

Lemma load_timer_ok h t :
  loaded_handler h -> load_timer h = Ok t ->
  TimerCore.validConfig t = true
  /\ max_connections (limits h) + max_connections (limits h) < two64.
Proof.
  intros [] Hl. unfold load_timer in Hl. bind_inv. unfold u32_max in *.
  apply addChecked_ok in E as [-> ?]; [|unfold is_u64; lia..].
  apply addChecked_ok in E0 as [-> ?]; [|unfold is_u64; lia..].
  injection Hl as <-. split; [|done]. unfold TimerCore.validConfig.
  cbn [command_capacity timer_capacity]. rewrite andb_true_iff, !Z.ltb_lt. lia.
Qed.

(** What a file that the loader accepts guarantees. *)
Lemma loaded_config_ok content app :
  loadAppConfig content = Ok app ->
  logger_validConfig (logger app) = true /\ TimerCore.validConfig (timer app) = true
  /\ loaded_handler (handler app)
  /\ max_connections (limits (handler app)) + max_connections (limits (handler app)) < two64.
Proof.
  unfold loadAppConfig. intros Hl. bind_inv. injection Hl as <-. simpl.
  pose proof (load_handler_ok _ _ E2) as Hh. destruct (load_timer_ok _ _ Hh E3) as [Ht Hmc].
  split_and!; [by eapply load_logger_ok|done..].
Qed.
End Loaded.

(** A file with comments, spaces, a sign and a derived limit. *)
Definition newline : string := String.String (ascii_of_nat 10) "".

Definition sample_file : string :=
  "# server" +:+ newline +:+ " server.io_threads = 4 " +:+ newline
  +:+ "server.max_connections=+10" +:+ newline +:+ newline
  +:+ "log.level = DEBUG".

(** A stand-in for the generated serializer: a one-byte payload. *)
Definition sample_protobuf : Protobuf :=
  {| ParseFromArray := fun _ => None; SerializeToString := fun _ => Some [1] |}.

Definition sample_app : AppConfig :=
  match @loadAppConfig ReferenceInet.inet (Some sample_file) with
  | Ok app => app | Throw _ => default_app
  end.

Definition sample_effective : HandlerConfig :=
  match @normalizeConfig sample_protobuf (handler sample_app) with
  | Ok e => e | Throw _ => default_handler
  end.

Example sample_limits :
  max_connections_per_loop (limits (handler sample_app)) = 3
  /\ connection_queue_capacity (limits (handler sample_app)) = 3.
Proof. vm_compute. split; reflexivity. Qed.

(** An unknown key, a duplicate key and a trailing character are refused. *)
Example refused_files :
  @loadAppConfig ReferenceInet.inet (Some "server.threads=1") = Throw "unknown key"
  /\ @loadAppConfig ReferenceInet.inet (Some ("redis.port=1" +:+ newline +:+ "redis.port=1"))
     = Throw "duplicate key"
  /\ @loadAppConfig ReferenceInet.inet (Some "redis.port=12x") = Throw "not an unsigned integer"
  /\ @loadAppConfig ReferenceInet.inet (Some "redis.port=-1") = Throw "negative".
Proof. vm_compute. repeat split. Qed.
