(* ===== verification/BlacklistMaintenance.v ===== *)
(** * BlacklistMaintenance: the rounds and the final drain

    Model of the class [BlacklistMaintenance] of
    [app/blacklist_maintenance.{hpp,cpp}]: timer ticks ask for rounds of the
    maintenance core on a pool with one worker, and the shutdown adds a last
    task that drains the candidates.  Each critical section of [mutex_] is one
    function; the timer service is any implementation of [ITimerScheduler], the
    answers of the pool are arguments, and the system below lets the threads
    interleave.  The pool hands out its tasks in the order it accepted them
    ([WorkerPool]) and the object outlives them. *)

From S2P Require Import Prelude Posix PriorityQueue IpAddress Blacklist CandidateQueue RedisConnection RedisStore MysqlDao.
From S2P Require Import WorkerPool TimerCore Timer Scheduler Ticker MaintenanceBackend Config.
From S2P Require Import MaintenanceCore MaintenanceStore.
Open Scope Z_scope.

#[export] Existing Instance WorkerSubmitStatus.eq_dec.

Record BlacklistMaintenance := mkBlacklistMaintenance {
  config_ : BlacklistMaintenanceConfig;
  ticker_ : Ticker;
  round_inflight_ : bool;
  round_pending_ : bool;
  final_drain_submitted_ : bool;
  final_drain_finished_ : bool;
  final_drain_result_ : bool;
  completed_state_ : BlacklistMaintenanceState;
}.

Definition create (config : BlacklistMaintenanceConfig) (initial_revision : Z) (dirty : bool)
    : result BlacklistMaintenance :=
  if negb (maintenance_validConfig config) then Throw "invalid blacklist maintenance config"
  else Ok (mkBlacklistMaintenance config fresh_ticker false false false false false
             (mkMaintenanceState initial_revision dirty 0)).

(** What the core reads of the configuration. *)
Definition core_config_of (config : BlacklistMaintenanceConfig) : CoreConfig :=
  mkCoreConfig (Config.expire_cleanup_interval config) (maintenance_batch_size config)
    (Config.candidate_batch_size config).

Section Sections.
Context {E : Type} `{ITimerScheduler E} (self : Z).

Definition scheduleNextLocked (m : BlacklistMaintenance) (e : E) (now : Z)
    : BlacklistMaintenance * E * bool :=
  let '(t, e, ok) := schedule_next BlacklistMaintenanceTick (maintenance_interval (config_ m)) self
                       (ticker_ m) e now in
  (m <| ticker_ := t |>, e, ok).

Definition start (m : BlacklistMaintenance) (e : E) (now : Z) : BlacklistMaintenance * E * bool :=
  let '(t, e, ok) := ticker_start BlacklistMaintenanceTick (maintenance_interval (config_ m)) self
                       (ticker_ m) e now in
  (m <| ticker_ := t |>, e, ok).

(** The section of [stop] and the timer it cancels afterwards. *)
Definition stop (m : BlacklistMaintenance) : BlacklistMaintenance * option TimerId :=
  let '(t, id) := ticker_stop (ticker_ m) in (m <| ticker_ := t |>, id).

(** [status]: the answer of [maintenance_pool_->trySubmit]; a throwing
    submission is [Rejected]. *)
Definition submitRoundLocked (m : BlacklistMaintenance) (status : WorkerSubmitStatus.t)
    : BlacklistMaintenance * bool :=
  if negb (bool_decide (status = WorkerSubmitStatus.Accepted)) then (m, false)
  else (m <| round_inflight_ := true |>, true).

(** The answer, and whether a task was submitted. *)
Definition tryPost (m : BlacklistMaintenance) (e : E) (now : Z) (status : WorkerSubmitStatus.t)
    (ev : TimerEvent) : BlacklistMaintenance * E * bool * bool :=
  if negb (tick_current BlacklistMaintenanceTick (ticker_ m) ev) then (m, e, false, false)
  else
    let m := m <| ticker_ := tick_consume (ticker_ m) |> in
    let '(m, e, scheduled) := scheduleNextLocked m e now in
    if round_inflight_ m then (m <| round_pending_ := true |>, e, true, false)
    else
      let '(m, submitted) := submitRoundLocked (m <| round_pending_ := false |>) status in
      let m := if negb submitted then m <| round_pending_ := true |> else m in
      (m, e, (scheduled || submitted)%bool, submitted).

(** The retry of the next tick at the end of a round. *)
Definition retry_schedule (m : BlacklistMaintenance) (e : E) (now : Z) : BlacklistMaintenance * E * bool :=
  if (running_ (ticker_ m) && negb (timer_valid (active_timer_ (ticker_ m))))%bool
  then scheduleNextLocked m e now else (m, e, true).

(** The section that ends [runRound]; [state] is the state of the core.  Also
    tells whether the next tick is scheduled or was not needed, and whether a
    round was submitted. *)
Definition runRound_finish (m : BlacklistMaintenance) (e : E) (now : Z) (status : WorkerSubmitStatus.t)
    (state : BlacklistMaintenanceState) : BlacklistMaintenance * E * bool * bool :=
  let m := m <| completed_state_ := state |> <| round_inflight_ := false |> in
  let '(m, e, scheduled) := retry_schedule m e now in
  if (running_ (ticker_ m) && round_pending_ m)%bool then
    let '(m, submitted) := submitRoundLocked (m <| round_pending_ := false |>) status in
    (if negb submitted then m <| round_pending_ := true |> else m, e, scheduled, submitted)
  else (m, e, scheduled, false).

(** The section of [finalDrainUntil] up to the wait: the answer when it returns
    at once, and whether the task was submitted. *)
Definition finalDrain_enter (m : BlacklistMaintenance) (now deadline : Z) (status : WorkerSubmitStatus.t)
    : BlacklistMaintenance * option bool * bool :=
  if (negb (tick_stopped_ (ticker_ m)) || (deadline <=? now))%bool then (m, Some false, false)
  else if final_drain_finished_ m then (m, Some (final_drain_result_ m), false)
  else if final_drain_submitted_ m then (m, None, false)
  else if negb (bool_decide (status = WorkerSubmitStatus.Accepted))
  then (m <| final_drain_finished_ := true |> <| final_drain_result_ := false |>, Some false, false)
  else (m <| final_drain_submitted_ := true |>, None, true).

(** The answer after the wait. *)
Definition finalDrain_leave (m : BlacklistMaintenance) : bool :=
  if final_drain_finished_ m then final_drain_result_ m else false.

(** The section that ends [runFinalDrain]. *)
Definition runFinalDrain_finish (m : BlacklistMaintenance) (drained : bool)
    (state : BlacklistMaintenanceState) : BlacklistMaintenance :=
  m <| completed_state_ := state |> <| final_drain_result_ := drained |>
    <| final_drain_finished_ := true |>.
End Sections.

(** ** All threads together *)

(** A task of the pool: accepted, or past its work in the core. *)
Inductive Work :=
| RoundQueued
| RoundRan
| DrainQueued (deadline : Z)
| DrainRan (drained : bool).

Definition is_round (w : Work) : bool := match w with RoundQueued | RoundRan => true | _ => false end.

Section System.
Context {E B : Type} `{ITimerScheduler E} `{!IBlacklistMaintenanceBackend B} (self : Z).

Record System := mkSystem {
  maintenance : BlacklistMaintenance;
  scheduler : E;
  core_ : Core B;
  work : list Work;               (* of the worker, in the order of acceptance *)
  in_hand : list TimerEvent;      (* taken out of the heap, not yet posted *)
  cancels : list TimerId;         (* [stop] between its section and the cancel *)
  dropped : nat;                  (* rounds the pool destroyed unexecuted *)
  stalled : bool;                 (* a last retry failed *)
  drained_ : option (list BlacklistMutation * bool);
    (* accepted when the drain ended with true, and whether the queue was closed *)
}.

(** What the environment prepares for one run of the core. *)
Record CoreEnv := mkCoreEnv {
  env_factory : list (option B);
  env_stops : list StopReading;
  env_inflight : list Z;
  env_arrivals : list (list BlacklistMutation);
}.

Definition with_env (env : CoreEnv) (c : Core B) : Core B :=
  c <| factory := env_factory env |> <| stops := env_stops env |> <| inflight := env_inflight env |>
    <| arrivals := env_arrivals env |>.

(** [runRound] up to its last section. *)
Definition run_core_round (env : CoreEnv) (deadline now_ms steady_now : Z) (c : Core B) : Core B :=
  (core_runRound deadline now_ms steady_now (with_env env c)).1.

(** [runFinalDrain] up to its section; [drainCandidatesUntil] does not throw. *)
Definition run_core_drain (env : CoreEnv) (deadline : Z) (c : Core B) : Core B * bool :=
  let '(c, drained) := drainCandidatesUntil deadline (with_env env c) in (c, default false drained).

Definition added (submitted : bool) (w : Work) : list Work := if submitted then [w] else [].

Inductive step (ok_env : CoreEnv -> Prop) : System -> System -> Prop :=
| b_start s now m e ok :
    start self (maintenance s) (scheduler s) now = (m, e, ok) ->
    step ok_env s (s <| maintenance := m |> <| scheduler := e |>)
| b_stop s m id :
    stop (maintenance s) = (m, id) ->
    step ok_env s (s <| maintenance := m |> <| cancels := option_list id ++ cancels s |>)
| b_cancel s l id k e status :
    cancels s = l ++ id :: k -> sched_cancel (scheduler s) id = (e, status) ->
    step ok_env s (s <| scheduler := e |> <| cancels := l ++ k |>)
| b_post s l ev k now status m e ok submitted :
    in_hand s = l ++ ev :: k ->
    tryPost self (maintenance s) (scheduler s) now status ev = (m, e, ok, submitted) ->
    step ok_env s (s <| maintenance := m |> <| scheduler := e |> <| in_hand := l ++ k |>
              <| work := work s ++ added submitted RoundQueued |>
              <| stalled := (stalled s
                   || (tick_current BlacklistMaintenanceTick (ticker_ (maintenance s)) ev && negb ok))%bool |>)
| b_round s rest env steady_now now_ms :
    work s = RoundQueued :: rest -> ok_env env ->
    step ok_env s (s <| core_ := run_core_round env
                          (steady_now + maintenance_timeout (config_ (maintenance s))) now_ms steady_now (core_ s) |>
              <| work := RoundRan :: rest |>)
| b_round_end s rest now status m e ok submitted :
    work s = RoundRan :: rest ->
    runRound_finish self (maintenance s) (scheduler s) now status (state_ (core_ s)) = (m, e, ok, submitted) ->
    step ok_env s (s <| maintenance := m |> <| scheduler := e |>
              <| work := rest ++ added submitted RoundQueued |>
              <| stalled := (stalled s || (negb ok && negb submitted))%bool |>)
| b_drain_submit s now deadline status m answer submitted :
    finalDrain_enter (maintenance s) now deadline status = (m, answer, submitted) ->
    step ok_env s (s <| maintenance := m |> <| work := work s ++ added submitted (DrainQueued deadline) |>)
| b_drain s rest deadline env c drained :
    work s = DrainQueued deadline :: rest -> ok_env env -> run_core_drain env deadline (core_ s) = (c, drained) ->
    step ok_env s (s <| core_ := c |> <| work := DrainRan drained :: rest |>
              <| drained_ := if drained then Some (accepted_ c, closed_ (queue c)) else drained_ s |>)
| b_drain_end s rest drained :
    work s = DrainRan drained :: rest ->
    step ok_env s (s <| maintenance := runFinalDrain_finish (maintenance s) drained (state_ (core_ s)) |>
              <| work := rest |>)
| b_drop_round s l k :
    work s = l ++ RoundQueued :: k ->
    step ok_env s (s <| work := l ++ k |> <| dropped := S (dropped s) |>)
| b_drop_drain s l deadline k :
    work s = l ++ DrainQueued deadline :: k -> step ok_env s (s <| work := l ++ k |>)
| b_submit s env :
    ok_env env ->
    step ok_env s (s <| core_ := interfere (with_env env (core_ s)) |>)
| b_close s :
    step ok_env s (s <| core_ := ((core_ s) <| queue := close_queue (queue (core_ s)) |>) |>).
End System.

(** Steps of the component and of everybody else who uses the timers. *)
Inductive mstep {E B} `{TimerSchedulerLaws E} `{!IBlacklistMaintenanceBackend B} (self : Z)
    (ok_env : CoreEnv -> Prop) : System (E := E) (B := B) -> System -> Prop :=
| m_own s s' : step self ok_env s s' -> mstep self ok_env s s'
| m_other s e posts :
    sched_other self (scheduler s) e posts ->
    mstep self ok_env s (s <| scheduler := e |> <| in_hand := in_hand s ++ posts |>).

Section Theorems.
Context {E B : Type} `{TimerSchedulerLaws E} `{Inet} `{!IBlacklistMaintenanceBackend B}.
Context `{!MaintenanceBackendLaws B} (self : Z).

(** The environment hands over fresh backends and well-formed candidates. *)
Definition ok_env (env : CoreEnv) : Prop :=
  Forall (from_option b_ok True) (env_factory (B := B) env) /\ Forall (Forall mutation_wf) (env_arrivals env).

Definition initial (m : BlacklistMaintenance) (e : E) (c : Core B) : System :=
  mkSystem m e c [] [] [] 0 false None.

(** [create], with the core it makes. *)
Definition reachable (s : System) : Prop :=
  exists config r dirty m e max_size capacity q manager first,
    create config r dirty = Ok m /\ sched_wf e /\ make_queue max_size capacity = Ok q
    /\ rtc (mstep self ok_env)
         (initial m e (make_core (core_config_of config) [] q manager r dirty first [] [] [])) s.

(** *** The ticks and the rounds *)

Abbreviation the_ticker s := (ticker_ (maintenance s)).

Record rounds_inv (s : System (E := E) (B := B)) : Prop := {
  bi_ticker : ticker_inv BlacklistMaintenanceTick self (the_ticker s) (scheduler s) (in_hand s);
  bi_rounds : (length (filter (fun w => is_round w = true) (work s)) + dropped s)%nat
              = if round_inflight_ (maintenance s) then 1%nat else 0%nat;
  bi_cancels id : id ∈ cancels s -> timer_valid id = true /\ tick_stopped_ (the_ticker s) = true;
  bi_alive : running_ (the_ticker s) = true -> stalled s = false ->
    active_sequence_ (the_ticker s) <> 0 \/ round_inflight_ (maintenance s) = true;
}.

Lemma maintenance_schedule_inv m e now ih m' e' ok :
  ticker_inv BlacklistMaintenanceTick self (ticker_ m) e ih -> active_sequence_ (ticker_ m) = 0 ->
  running_ (ticker_ m) = true -> scheduleNextLocked self m e now = (m', e', ok) ->
  exists t, m' = m <| ticker_ := t |> /\ ticker_inv BlacklistMaintenanceTick self t e' ih
  /\ running_ t = true /\ tick_stopped_ t = tick_stopped_ (ticker_ m)
  /\ (ok = true -> active_sequence_ t <> 0).
Proof.
  intros Hi Hs Hr. unfold scheduleNextLocked.
  destruct (schedule_next _ _ _ _ _ _) as [[t1 e1] ok1] eqn:En. intros [= <- <- <-].
  eapply schedule_next_spec in En as (G1 & G2 & G3 & G4); [|done|done|done]. exists t1.
  split_and!; try done. apply G4.
Qed.

Lemma retry_inv m e now ih m' e' ok :
  ticker_inv BlacklistMaintenanceTick self (ticker_ m) e ih -> retry_schedule self m e now = (m', e', ok) ->
  exists t, m' = m <| ticker_ := t |> /\ ticker_inv BlacklistMaintenanceTick self t e' ih
  /\ tick_stopped_ t = tick_stopped_ (ticker_ m)
  /\ (ok = true -> running_ t = true -> active_sequence_ t <> 0).
Proof.
  intros Ht. unfold retry_schedule. destruct (running_ (ticker_ m) && _)%bool eqn:Eb; intros Hs.
  - bool_to_prop. assert (active_sequence_ (ticker_ m) = 0) as Hz.
    { destruct (Z.eq_dec (active_sequence_ (ticker_ m)) 0) as [|Hn]; [done|].
      apply (ti_some _ _ _ _ _ Ht) in Hn. congruence. }
    eapply maintenance_schedule_inv in Hs as (t & -> & G1 & G2 & G3 & G4); [|exact Ht|exact Hz|done].
    exists t. split_and!; try done. intros Hok _. by apply G4.
  - injection Hs as <- <- <-. exists (ticker_ m). split_and!; [by destruct m|done|done|].
    intros _ Hrun. rewrite Hrun in Eb. simpl in Eb. apply negb_false_iff in Eb. intros Hz.
    rewrite (ti_none _ _ _ _ _ Ht Hz) in Eb. done.
Qed.

Lemma post_rounds s l ev k now status m e ok submitted :
  in_hand s = l ++ ev :: k ->
  tryPost self (maintenance s) (scheduler s) now status ev = (m, e, ok, submitted) ->
  rounds_inv s ->
  rounds_inv (s <| maintenance := m |> <| scheduler := e |> <| in_hand := l ++ k |>
              <| work := work s ++ added submitted RoundQueued |>
              <| stalled := (stalled s
                   || (tick_current BlacklistMaintenanceTick (the_ticker s) ev && negb ok))%bool |>).
Proof.
  intros Hh Hp [Ht Hr Hc Ha]. unfold tryPost in Hp. rewrite Hh in Ht.
  destruct (tick_current BlacklistMaintenanceTick (the_ticker s) ev) eqn:Ec; simpl in Hp.
  2: { injection Hp as <- <- <- <-. split; simpl; rewrite ?app_nil_r, ?orb_false_r; try done.
       by eapply ticker_deliver. }
  destruct (tick_current_true _ _ _ Ec) as (Hrun & _ & _ & _).
  assert (ticker_inv BlacklistMaintenanceTick self (tick_consume (the_ticker s)) (scheduler s) (l ++ k))
    as Ht' by (destruct Ht; split; simpl; auto; done).
  destruct (scheduleNextLocked _ _ _ _) as [[m1 e1] sch] eqn:En.
  eapply maintenance_schedule_inv in En as (t & -> & G1 & G2 & G3 & G4); [|exact Ht'|done|done]. simpl in *.
  assert (forall id, id ∈ cancels s -> timer_valid id = true /\ tick_stopped_ t = true) as Hc'
    by (intros id Hid; rewrite G3; by apply Hc).
  destruct (round_inflight_ (maintenance s)) eqn:Ei; simpl in Hr.
  - injection Hp as <- <- <- <-. split; simpl; rewrite ?app_nil_r, ?filter_app, ?length_app, ?Ei; simpl; try done; try lia; by right.
  - unfold submitRoundLocked in Hp. case_bool_decide; simpl in Hp; injection Hp as <- <- <- <-;
      (split; simpl; rewrite ?app_nil_r, ?filter_app, ?length_app, ?Ei; simpl; try done; try lia; try by right).
    rewrite orb_false_r. intros _ Hst. apply orb_false_elim in Hst as [_ Hst]. left. apply G4.
    by destruct sch.
Qed.

Lemma finish_rounds s rest now status m e ok submitted :
  work s = RoundRan :: rest ->
  runRound_finish self (maintenance s) (scheduler s) now status (state_ (core_ s)) = (m, e, ok, submitted) ->
  rounds_inv s ->
  rounds_inv (s <| maintenance := m |> <| scheduler := e |>
              <| work := rest ++ added submitted RoundQueued |>
              <| stalled := (stalled s || (negb ok && negb submitted))%bool |>).
Proof.
  intros Hk Hf [Ht Hr Hc Ha]. unfold runRound_finish in Hf. rewrite Hk in Hr. simpl in Hr.
  assert (length (filter (fun w => is_round w = true) rest) + dropped s = 0)%nat as Hz0
    by (destruct (round_inflight_ (maintenance s)); lia).
  destruct (retry_schedule self _ (scheduler s) now) as [[m2 e2] sch] eqn:Er.
  eapply retry_inv in Er as (t & -> & Ht' & Hs' & Hn); [|exact Ht].
  assert (forall id, id ∈ cancels s -> timer_valid id = true /\ tick_stopped_ t = true) as Hc'
    by (intros id Hid; rewrite Hs'; by apply Hc).
  simpl in Hf. destruct (running_ t && _)%bool eqn:Eb.
  - unfold submitRoundLocked in Hf. case_bool_decide; simpl in Hf; injection Hf as <- <- <- <-;
      (split; simpl; rewrite ?app_nil_r, ?filter_app, ?length_app; simpl; try done; try lia; try by right).
    intros Hrun Hst. apply orb_false_elim in Hst as [_ Hst]. left. apply Hn; [|done]. by destruct sch.
  - injection Hf as <- <- <- <-. split; simpl; rewrite ?app_nil_r, ?filter_app, ?length_app; simpl; try done; try lia.
    intros Hrun Hst. apply orb_false_elim in Hst as [_ Hst]. left. apply Hn; [|done]. by destruct sch.
Qed.

(** What the sections and the ticker share. *)
Lemma stop_cancels m m' id :
  stop m = (m', id) -> forall i, i ∈ option_list id -> timer_valid i = true.
Proof.
  unfold stop, ticker_stop. intros Hs i. destruct (tick_stopped_ _); [by injection Hs as <- <-; intros ?%not_elem_of_nil|].
  destruct (timer_valid (active_timer_ (ticker_ m))) eqn:Ev; injection Hs as <- <-;
    [by intros ->%list_elem_of_singleton|by intros ?%not_elem_of_nil].
Qed.

(** A step of the worker or of the drain leaves the ticks and the rounds. *)
Lemma rounds_same s y :
  the_ticker y = the_ticker s -> round_inflight_ (maintenance y) = round_inflight_ (maintenance s) ->
  length (filter (fun x => is_round x = true) (work y)) = length (filter (fun x => is_round x = true) (work s)) ->
  scheduler y = scheduler s -> in_hand y = in_hand s -> cancels y = cancels s -> dropped y = dropped s ->
  stalled y = stalled s -> rounds_inv s -> rounds_inv y.
Proof.
  intros E1 E2 E3 E4 E5 E6 E7 E8 [Ht Hr Hc Ha]. split; by rewrite ?E1, ?E2, ?E3, ?E4, ?E5, ?E6, ?E7, ?E8.
Qed.

Lemma enter_same m now deadline status m' answer submitted :
  finalDrain_enter m now deadline status = (m', answer, submitted) ->
  ticker_ m' = ticker_ m /\ round_inflight_ m' = round_inflight_ m.
Proof. unfold finalDrain_enter. intros He. repeat case_match; by simplify_eq. Qed.

Lemma mstep_rounds x y : mstep self ok_env x y -> rounds_inv x -> rounds_inv y.
Proof.
  intros [x1 y1 Hs|x1 e posts Ho] Hinv.
  2: { destruct Hinv. split; simpl; try done. by eapply ticker_other. }
  destruct Hs as [s now m e ok Hst|s m id Hst|s l id k e st Hk Hcn|s l ev k now st m e ok sub Hk Hp
    |s rest env now ms Hk _|s rest now st m e ok sub Hk Hf|s now dl st m a sub He|s rest dl env c d Hk _ Hd
    |s rest d Hk|s l k Hk|s l dl k Hk|s env _|s].
  - destruct Hinv as [Ht Hr Hc Ha]. unfold start in Hst.
    destruct (ticker_start _ _ _ _ _ _) as [[t1 e1] ok1] eqn:En. injection Hst as <- <- <-.
    eapply ticker_start_spec in En as (G1 & G2 & G3 & G4); [|done].
    split; simpl; try done; [intros id Hid; rewrite G2; by apply Hc|].
    intros Hrun Hst. destruct (G4 Hrun) as [->|?]; [by apply Ha|by left].
  - destruct Hinv as [Ht Hr Hc Ha]. pose proof (stop_cancels _ _ _ Hst) as Hv. unfold stop in Hst.
    destruct (ticker_stop _) as [t1 id1] eqn:En. injection Hst as <- <-.
    eapply ticker_stop_spec in En as (G1 & G2 & G3 & _); [|done].
    split; simpl; try done; [|congruence].
    intros i [Hi|Hi]%elem_of_app; [by auto|]. destruct (Hc i Hi). auto.
  - destruct Hinv as [Ht Hr Hc Ha]. split; simpl; try done.
    + destruct (Hc id) as [Hv Hs]; [rewrite Hk; apply elem_of_app; right; left|].
      eapply ticker_cancel; [done| |done]. intros ->.
      by rewrite (ti_none _ _ _ _ _ Ht (ti_idle _ _ _ _ _ Ht (ti_stopped _ _ _ _ _ Ht Hs))) in Hv.
    + intros i Hi. apply Hc. rewrite Hk.
      apply elem_of_app in Hi as [?|?]; apply elem_of_app; [by left|by right; right].
  - by eapply post_rounds.
  - apply (rounds_same s); simpl; try done. by rewrite Hk.
  - by eapply finish_rounds.
  - destruct (enter_same _ _ _ _ _ _ _ He) as [E1 E2].
    apply (rounds_same s); simpl; try done. rewrite filter_app, length_app. destruct sub; simpl; lia.
  - apply (rounds_same s); simpl; try done. by rewrite Hk.
  - apply (rounds_same s); simpl; try done. by rewrite Hk.
  - destruct Hinv as [Ht Hr Hc Ha]. split; simpl; try done. rewrite Hk in Hr.
    rewrite filter_app, length_app in *. simpl in Hr. lia.
  - apply (rounds_same s); simpl; try done. by rewrite Hk, !filter_app, !length_app.
  - by apply (rounds_same s).
  - by apply (rounds_same s).
Qed.

(** *** The final drain *)

Definition drain_queued (m : BlacklistMaintenance) (ds : list Work) : Prop :=
  ds = [] \/ exists w, ds = [w] /\ is_round w = false /\ final_drain_submitted_ m = true.

(** What a drain that ended with true has left: [l] was accepted by then. *)
Definition drained_ok (s : System (E := E) (B := B)) (l : list BlacklistMutation) (closed : bool) : Prop :=
  final_drain_submitted_ (maintenance s) = true /\ (forall w, w ∈ work s -> exists r, w = DrainRan r)
  /\ (forall m, m ∈ l -> covered (all_recorded (core_ s)) m)
  /\ (closed = true -> closed_ (queue (core_ s)) = true /\ accepted_ (core_ s) = l).

Record drain_inv (s : System (E := E) (B := B)) : Prop := {
  di_rounds : rounds_inv s;
  di_safe : candidates_safe (core_ s);
  di_stopped : final_drain_submitted_ (maintenance s) = true -> tick_stopped_ (the_ticker s) = true;
  di_shape : exists rs ds, work s = rs ++ ds /\ Forall (fun w => is_round w = true) rs
             /\ drain_queued (maintenance s) ds;
  di_ran : DrainRan true ∈ work s \/ finalDrain_leave (maintenance s) = true -> is_Some (drained_ s);
  di_drained l closed : drained_ s = Some (l, closed) -> drained_ok s l closed;
}.

Lemma with_env_safe env c : ok_env env -> candidates_safe c -> candidates_safe (with_env env c).
Proof. intros [Hf Ha] [G1 G2 G3 G4 G5 G6 G7 G8]. by split. Qed.

Lemma submit_all_closed ms q acc : closed_ q = true -> submit_all q ms acc = (q, acc).
Proof.
  intros Hq. revert acc. induction ms as [|m ms IH]; intros acc; simpl; [done|].
  unfold trySubmit. rewrite Hq. destruct (negb (isCandidate m)); apply IH.
Qed.

Lemma interfere_closed (c : Core B) :
  closed_ (queue c) = true -> queue (interfere c) = queue c /\ accepted_ (interfere c) = accepted_ c.
Proof.
  intros Hq. unfold interfere. destruct (arrivals c); [done|]. by rewrite submit_all_closed.
Qed.

Lemma queue_empty_nil q : queue_empty q = true -> queued_ q = [] /\ reserved_batch_ q = [].
Proof. unfold queue_empty. intros [Hq Hr]%andb_prop. by apply bool_decide_eq_true in Hq, Hr. Qed.

Lemma drain_true dl (c c' : Core B) :
  drainCandidatesUntil dl c = (c', Some true) -> queue_empty (queue c') = true.
Proof.
  unfold drainCandidatesUntil, mbind, round_bind. destruct (queue_take_dropped c) as [c1 [n|]]; [|done].
  destruct (ensureBackend c1) as [c2 [[]|]]; cbn [negb]; [|done|done]. unfold try_reset. cbv beta.
  destruct (drain_loop dl (drain_fuel c2) c2) as [c3 [[]|]] eqn:El; [|done|done]. intros [= <-].
  by eapply drain_loop_empty.
Qed.

(** A drain that answers true has stored every candidate accepted so far. *)
Lemma run_core_drain_true env dl c c' :
  ok_env env -> candidates_safe c -> run_core_drain env dl c = (c', true) ->
  forall m, m ∈ accepted_ c' -> covered (all_recorded c') m.
Proof.
  intros He Hc. unfold run_core_drain. pose proof (keeps_drain dl _ (with_env_safe env c He Hc)) as Hs.
  destruct (drainCandidatesUntil dl (with_env env c)) as [c1 [d|]] eqn:Ed; simpl in *; intros [= <- ->].
  apply drain_true, queue_empty_nil in Ed as [Eq Er]. intros m Hm.
  destruct (safe_covers c1 m Hs Hm) as [Hx|[(x & Hx & _)|Hx]]; [| |done].
  - rewrite Eq in Hx. by apply not_elem_of_nil in Hx.
  - rewrite Er in Hx. by apply not_elem_of_nil in Hx.
Qed.

Lemma run_core_drain_safe env dl c : ok_env env -> candidates_safe c -> candidates_safe (run_core_drain env dl c).1.
Proof.
  intros He Hc. unfold run_core_drain. pose proof (keeps_drain dl _ (with_env_safe env c He Hc)) as Hs.
  by destruct (drainCandidatesUntil dl (with_env env c)).
Qed.

(** A stopped component runs no more rounds. *)
Lemma post_stopped s ev now status m e ok submitted :
  rounds_inv s -> tick_stopped_ (the_ticker s) = true ->
  tryPost self (maintenance s) (scheduler s) now status ev = (m, e, ok, submitted) ->
  m = maintenance s /\ submitted = false.
Proof.
  intros Hi Hs. unfold tryPost, tick_current.
  rewrite (ti_stopped _ _ _ _ _ (bi_ticker _ Hi) Hs). by intros [= <- _ _ <-].
Qed.

Lemma post_drain_fields (s : System (E := E) (B := B)) ev now status m e ok submitted :
  tryPost self (maintenance s) (scheduler s) now status ev = (m, e, ok, submitted) ->
  final_drain_submitted_ m = final_drain_submitted_ (maintenance s)
  /\ finalDrain_leave m = finalDrain_leave (maintenance s).
Proof.
  unfold tryPost, scheduleNextLocked, submitRoundLocked, finalDrain_leave.
  destruct (tick_current _ _ ev); cbn [negb]; [|by intros [= <- <- <- <-]].
  destruct (schedule_next _ _ _ _ _ _) as [[t e1] sch]. simpl.
  destruct (round_inflight_ (maintenance s)); [by intros [= <- <- <- <-]|].
  case_bool_decide; simpl; by intros [= <- <- <- <-].
Qed.

Lemma retry_fields m (e : E) now m' e' ok :
  retry_schedule self m e now = (m', e', ok) ->
  exists t, m' = m <| ticker_ := t |> /\ tick_stopped_ t = tick_stopped_ (ticker_ m)
  /\ running_ t = running_ (ticker_ m).
Proof.
  unfold retry_schedule, scheduleNextLocked, schedule_next. intros Hr.
  destruct (_ && _)%bool; [|injection Hr as <- <- <-; exists (ticker_ m); by destruct m].
  destruct (_ =? 0); [injection Hr as <- <- <-; by eexists|].
  destruct (sched_scheduleAt _ _ _ _) as [e1 [st id]].
  case_bool_decide; simpl in Hr; injection Hr as <- <- <-; by eexists.
Qed.

Lemma finish_drain_fields m0 (e0 : E) now status st m e ok submitted :
  runRound_finish self m0 e0 now status st = (m, e, ok, submitted) ->
  final_drain_submitted_ m = final_drain_submitted_ m0 /\ finalDrain_leave m = finalDrain_leave m0
  /\ tick_stopped_ (ticker_ m) = tick_stopped_ (ticker_ m0)
  /\ (submitted = true -> running_ (ticker_ m0) = true).
Proof.
  unfold runRound_finish, submitRoundLocked, finalDrain_leave.
  destruct (retry_schedule _ _ _ _) as [[m1 e1] sch] eqn:Er.
  apply retry_fields in Er as (t & -> & Es & Err). simpl in *.
  destruct (running_ t) eqn:Et; simpl; [|by intros [= <- <- <- <-]].
  destruct (round_pending_ m0); [|by intros [= <- <- <- <-]].
  case_bool_decide; simpl; intros [= <- <- <- <-]; by split_and!.
Qed.

Definition shape (m : BlacklistMaintenance) (w : list Work) : Prop :=
  exists rs ds, w = rs ++ ds /\ Forall (fun w => is_round w = true) rs /\ drain_queued m ds.

(** A step that leaves the core alone and adds at most a round. *)
Lemma drain_kept s y :
  drain_inv s -> rounds_inv y -> core_ y = core_ s -> drained_ y = drained_ s ->
  (final_drain_submitted_ (maintenance y) = true -> tick_stopped_ (the_ticker y) = true) ->
  (final_drain_submitted_ (maintenance s) = true -> final_drain_submitted_ (maintenance y) = true) ->
  (finalDrain_leave (maintenance y) = true -> finalDrain_leave (maintenance s) = true \/ DrainRan true ∈ work s) ->
  shape (maintenance y) (work y) ->
  (forall w, w ∈ work y -> w ∈ work s \/ (w <> DrainRan true /\ drained_ s = None)) -> drain_inv y.
Proof.
  intros [D1 D2 D3 D4 D5 D6] Hr Ec Ed Hst Hsub Hlv Hsh Hw. split; try done.
  - by rewrite Ec.
  - rewrite Ed. intros [Hx|Hx]; [destruct (Hw _ Hx) as [?|[? _]]; [auto|done]|]. destruct (Hlv Hx); auto.
  - intros l closed. rewrite Ed. intros Hd. destruct (D6 l closed Hd) as (G1 & G2 & G3 & G4).
    unfold drained_ok. rewrite Ec. split_and!; auto.
    intros w Hin. destruct (Hw w Hin) as [?|[_ ?]]; [auto|congruence].
Qed.

Lemma shape_same m m' w :
  final_drain_submitted_ m' = final_drain_submitted_ m -> shape m w -> shape m' w.
Proof. unfold shape, drain_queued. by intros ->. Qed.

Lemma shape_add m w :
  final_drain_submitted_ m = false -> shape m w -> shape m (w ++ [RoundQueued]).
Proof.
  intros Hf (rs & ds & -> & Hr & [->|(x & _ & _ & Hs)]); [|congruence].
  exists (rs ++ [RoundQueued]), []. rewrite !app_nil_r. split; [done|]. split; [|by left].
  apply Forall_app. split; [done|]. by constructor.
Qed.

Lemma shape_tail m w ws : shape m (w :: ws) -> shape m ws.
Proof.
  intros (rs & ds & Hw & Hr & Hd). destruct rs as [|r rs]; simpl in Hw.
  - destruct Hd as [->|(x & -> & _)]; [done|]. injection Hw as <- ->. exists [], []. by split_and!; [|constructor|left].
  - injection Hw as <- ->. exists rs, ds. apply Forall_cons in Hr as [_ Hr]. by split_and!.
Qed.

Lemma shape_head m x y ws : is_round x = is_round y -> shape m (x :: ws) -> shape m (y :: ws).
Proof.
  intros Hxy (rs & ds & Hw & Hr & Hd). destruct rs as [|r rs]; simpl in Hw.
  - destruct Hd as [->|(z & -> & Hz & Hs)]; [done|]. injection Hw as <- ->.
    exists [], [y]. split_and!; [done|constructor|]. right. exists y. split_and!; [done|congruence|done].
  - injection Hw as <- ->. exists (y :: rs), ds. apply Forall_cons in Hr as [Hx Hr].
    split_and!; [done| |done]. constructor; [congruence|done].
Qed.

Lemma shape_drop m l w k : shape m (l ++ w :: k) -> shape m (l ++ k).
Proof.
  induction l as [|x l IH] in |- *; simpl; [apply shape_tail|]. intros (rs & ds & Hw & Hr & Hd).
  destruct rs as [|r rs]; simpl in Hw.
  - destruct Hd as [->|(z & -> & Hz & Hs)]; [done|]. injection Hw as _ Hw. by destruct l.
  - injection Hw as <- Hw. apply Forall_cons in Hr as [Hx Hr].
    destruct IH as (rs' & ds' & Ew & Hr' & Hd'); [by exists rs, ds|].
    exists (x :: rs'), ds'. rewrite Ew. split_and!; [done|by constructor|done].
Qed.

Lemma drained_none s w : drain_inv s -> w ∈ work s -> (forall r, w <> DrainRan r) -> drained_ s = None.
Proof.
  intros [_ _ _ _ _ D6] Hw Hn. destruct (drained_ s) as [[l c]|] eqn:Ed; [|done].
  destruct (D6 l c eq_refl) as (_ & G & _). destruct (G w Hw) as [r ->]. by destruct (Hn r).
Qed.

(** Candidates submitted and the closing of the queue. *)
Lemma drain_queue_step s c :
  drain_inv s -> rounds_inv (s <| core_ := c |>) -> candidates_safe c -> all_recorded c = all_recorded (core_ s) ->
  (closed_ (queue (core_ s)) = true -> closed_ (queue c) = true /\ accepted_ c = accepted_ (core_ s)) ->
  drain_inv (s <| core_ := c |>).
Proof.
  intros [D1 D2 D3 D4 D5 D6] Hr Hc Ha Hq. split; simpl; try done. intros l closed Hd.
  destruct (D6 l closed Hd) as (G1 & G2 & G3 & G4). unfold drained_ok. simpl. rewrite Ha. split_and!; auto.
  intros Hcl. destruct (G4 Hcl) as [G5 <-]. by apply Hq.
Qed.

(** Applies [drain_kept], the invariant of the rounds being known. *)
Ltac keep_drain s :=
  eapply (drain_kept s); [eassumption|eassumption|..]; simpl; rewrite ?app_nil_r; eauto.

Lemma not_submitted s :
  drain_inv s -> final_drain_submitted_ (maintenance s) = false -> drained_ s = None.
Proof.
  intros [_ _ _ _ _ D6] Hs. destruct (drained_ s) as [[l c]|]; [|done].
  destruct (D6 l c eq_refl) as [? _]. congruence.
Qed.

Lemma added_round (sub : bool) (ws : list Work) (d : option (list BlacklistMutation * bool)) w :
  d = None -> w ∈ ws ++ added sub RoundQueued -> w ∈ ws \/ (w <> DrainRan true /\ d = None).
Proof.
  intros Hn [?|Hw]%elem_of_app; [by left|]. right. destruct sub; [|by apply not_elem_of_nil in Hw].
  by apply list_elem_of_singleton in Hw as ->.
Qed.

Lemma shape_added m m' ws (sub : bool) :
  final_drain_submitted_ m' = final_drain_submitted_ m ->
  (sub = true -> final_drain_submitted_ m = false) -> shape m ws -> shape m' (ws ++ added sub RoundQueued).
Proof.
  intros Em Hs Hsh. apply (shape_same m); [done|]. destruct sub; simpl; rewrite ?app_nil_r; [|done].
  by apply shape_add; [apply Hs|].
Qed.

Lemma post_drain s y ev now status m e ok submitted :
  tryPost self (maintenance s) (scheduler s) now status ev = (m, e, ok, submitted) ->
  core_ y = core_ s -> drained_ y = drained_ s -> maintenance y = m ->
  work y = work s ++ added submitted RoundQueued -> rounds_inv y -> drain_inv s -> drain_inv y.
Proof.
  intros Hp Ec Ed Em Ew Hr Hd. pose proof Hd as [D1 D2 D3 D4 D5 D6].
  destruct (post_drain_fields _ _ _ _ _ _ _ _ Hp) as [F1 F2].
  destruct (tick_stopped_ (the_ticker s)) eqn:Est.
  { destruct (post_stopped _ _ _ _ _ _ _ _ D1 Est Hp) as [-> ->]. rewrite app_nil_r in Ew.
    eapply (drain_kept s); rewrite ?Em, ?Ew; eauto. }
  assert (final_drain_submitted_ (maintenance s) = false) as Hsub
    by (destruct (final_drain_submitted_ _); [by specialize (D3 eq_refl)|done]).
  eapply (drain_kept s); rewrite ?Em, ?Ew, ?F1, ?F2, ?Hsub; eauto; try done.
  - by eapply shape_added.
  - intros w. by apply added_round, not_submitted.
Qed.

Lemma finish_drain s y rest now status m e ok submitted :
  work s = RoundRan :: rest ->
  runRound_finish self (maintenance s) (scheduler s) now status (state_ (core_ s)) = (m, e, ok, submitted) ->
  core_ y = core_ s -> drained_ y = drained_ s -> maintenance y = m ->
  work y = rest ++ added submitted RoundQueued -> rounds_inv y -> drain_inv s -> drain_inv y.
Proof.
  intros Hk Hf Ec Ed Em Ew Hr Hd. pose proof Hd as [D1 D2 D3 D4 D5 D6].
  destruct (finish_drain_fields _ _ _ _ _ _ _ _ _ Hf) as (F1 & F2 & F3 & F4).
  assert (drained_ s = None) as Hn by (apply (drained_none s RoundRan); [done|rewrite Hk; by left|done]).
  rewrite Hk in D4. eapply (drain_kept s); rewrite ?Em, ?Ew, ?F1, ?F2, ?F3; eauto; try done.
  - eapply shape_added; [exact F1| |by eapply shape_tail]. intros Hs.
    destruct (final_drain_submitted_ (maintenance s)); [|done]. specialize (F4 Hs).
    rewrite (ti_stopped _ _ _ _ _ (bi_ticker _ D1) (D3 eq_refl)) in F4. done.
  - rewrite Hk. intros w Hw. destruct (added_round _ _ _ _ Hn Hw); [left; by right|by right].
Qed.

Lemma enter_drain s now dl st m a sub :
  finalDrain_enter (maintenance s) now dl st = (m, a, sub) ->
  let y := s <| maintenance := m |> <| work := work s ++ added sub (DrainQueued dl) |> in
  rounds_inv y -> drain_inv s -> drain_inv y.
Proof.
  intros He y Hr Hd. pose proof Hd as [D1 D2 D3 D4 D5 D6]. subst y. unfold finalDrain_enter in He.
  destruct (tick_stopped_ (the_ticker s)) eqn:Est; cbn [negb orb] in He;
    [|injection He as <- <- <-; keep_drain s; congruence].
  destruct (dl <=? now); [injection He as <- <- <-; keep_drain s|].
  destruct (final_drain_finished_ (maintenance s)) eqn:Ef; [injection He as <- <- <-; keep_drain s|].
  destruct (final_drain_submitted_ (maintenance s)) eqn:Es; [injection He as <- <- <-; keep_drain s|].
  pose proof (not_submitted s Hd Es) as Hn.
  case_bool_decide; cbn [negb] in He; injection He as <- <- <-; [|keep_drain s; done].
  keep_drain s; try done.
  - destruct D4 as (rs & ds & Hw & Hrs & [->|(z & _ & _ & ?)]); [|congruence].
    exists rs, [DrainQueued dl]. rewrite Hw, app_nil_r. split_and!; [done|done|]. right. by eexists.
  - intros w [?|Hw]%elem_of_app; [by left|]. right. by apply list_elem_of_singleton in Hw as ->.
Qed.

Lemma run_drain s rest dl env c d :
  work s = DrainQueued dl :: rest -> ok_env env -> run_core_drain env dl (core_ s) = (c, d) ->
  let y := s <| core_ := c |> <| work := DrainRan d :: rest |>
             <| drained_ := if d then Some (accepted_ c, closed_ (queue c)) else drained_ s |> in
  rounds_inv y -> drain_inv s -> drain_inv y.
Proof.
  intros Hk He Hrun y Hr Hd. pose proof Hd as [D1 D2 D3 D4 D5 D6]. subst y.
  assert (drained_ s = None) as Hn by (apply (drained_none s (DrainQueued dl)); [done|rewrite Hk; by left|done]).
  rewrite Hk in D4. pose proof (run_core_drain_safe env dl (core_ s) He D2) as Hsafe.
  rewrite Hrun in Hsafe. simpl in Hsafe.
  assert (rest = [] /\ final_drain_submitted_ (maintenance s) = true) as [-> Hsub].
  { destruct D4 as (rs & ds & Hw & Hrs & Hq). destruct rs as [|r rs]; simpl in Hw.
    - destruct Hq as [->|(z & -> & _ & ?)]; [done|]. by injection Hw as _ ->.
    - injection Hw as <- _. by apply Forall_cons in Hrs as [? _]. }
  split; simpl; try done.
  - by apply (shape_head _ (DrainQueued dl)).
  - intros [Hx|Hx]; [|destruct d; [done|]; apply D5; by right].
    apply list_elem_of_singleton in Hx as [= <-]. done.
  - destruct d; [|by rewrite Hn]. intros l closed [= <- <-]. unfold drained_ok. simpl. split_and!; try done.
    + intros w Hw. apply list_elem_of_singleton in Hw as ->. by eexists.
    + exact (run_core_drain_true env dl (core_ s) c He D2 Hrun).
Qed.

Lemma drop_drain s l w k n :
  work s = l ++ w :: k ->
  let y := s <| work := l ++ k |> <| dropped := n |> in rounds_inv y -> drain_inv s -> drain_inv y.
Proof.
  intros Hk y Hr Hd. pose proof Hd as [D1 D2 D3 D4 D5 D6]. subst y. rewrite Hk in D4.
  keep_drain s; try done.
  - by eapply shape_drop.
  - rewrite Hk. intros x Hx. left. apply elem_of_app in Hx as [?|?]; apply elem_of_app; [by left|by right; right].
Qed.

Lemma mstep_drain x y : mstep self ok_env x y -> drain_inv x -> drain_inv y.
Proof.
  intros Hstep Hd. pose proof (mstep_rounds _ _ Hstep (di_rounds _ Hd)) as Hr.
  pose proof Hd as [D1 D2 D3 D4 D5 D6]. destruct Hstep as [x1 y1 Hs|x1 e posts Ho]; [|by keep_drain x1].
  destruct Hs as [s now m e ok Hst|s m id Hst|s l id k e st Hk Hcn|s l ev k now st m e ok sub Hk Hp
    |s rest env now ms Hk He|s rest now st m e ok sub Hk Hf|s now dl st m a sub He|s rest dl env c d Hk He Hrun
    |s rest d Hk|s l k Hk|s l dl k Hk|s env He|s].
  - unfold start in Hst. destruct (ticker_start _ _ _ _ _ _) as [[t1 e1] ok1] eqn:En. injection Hst as <- <- <-.
    eapply ticker_start_spec in En as (G1 & G2 & _ & _); [|apply D1]. keep_drain s; by rewrite G2.
  - unfold stop in Hst. destruct (ticker_stop _) as [t1 id1] eqn:En. injection Hst as <- <-.
    eapply ticker_stop_spec in En as (G1 & G2 & _ & _); [|apply D1]. keep_drain s.
  - by keep_drain s.
  - by eapply (post_drain s).
  - assert (drained_ s = None) as Hn by (apply (drained_none s RoundQueued); [done|rewrite Hk; by left|done]).
    split; simpl; try done.
    + by apply keeps_runRound, with_env_safe.
    + apply (shape_head _ RoundQueued); [done|]. by rewrite <-Hk.
    + rewrite Hk in D5. intros [Hx|Hx]; apply D5; [|by right]. left.
      apply elem_of_cons in Hx as [?|?]; [done|by right].
    + by rewrite Hn.
  - by eapply (finish_drain s).
  - by apply (enter_drain s now dl st m a sub).
  - by apply (run_drain s rest dl env c d).
  - rewrite Hk in D4. keep_drain s; try done.
    + unfold finalDrain_leave. simpl. intros ->. right. rewrite Hk. by left.
    + by eapply (shape_same (maintenance s)), shape_tail.
    + rewrite Hk. intros w Hw. left. by right.
  - by apply (drop_drain s l RoundQueued k).
  - rewrite Hk in D4. keep_drain s; [by eapply shape_drop|]. rewrite Hk. intros w Hw. left.
    apply elem_of_app in Hw as [?|?]; apply elem_of_app; [by left|by right; right].
  - destruct (keeps_interfere _ (with_env_safe env _ He D2)) as (Hc & _ & Eb & Et & _).
    apply drain_queue_step; try done.
    + unfold all_recorded. by rewrite Eb, Et.
    + intros Hcl. destruct (interfere_closed (with_env env (core_ s)) Hcl) as [-> ->]. done.
  - apply drain_queue_step; try done. destruct D2. by split.
Qed.

Lemma reachable_drain s : reachable s -> drain_inv s.
Proof.
  intros (config & r & dirty & m & e & max_size & cap & q & manager & first & Hm & Hwf & Hq & Hrun).
  unfold create in Hm. destruct (negb _); [done|]. injection Hm as <-.
  set (s0 := initial _ _ _) in Hrun. assert (drain_inv s0) as Hi0.
  { split; simpl; try done.
    - split; simpl; try done. by intros id ?%not_elem_of_nil.
    - by apply (run_ops_safe _ _ max_size cap _ _ _ _ _ _ _ _ []).
    - exists [], []. by split_and!; [| |left].
    - intros [Hx|Hx]; [by apply not_elem_of_nil in Hx|done]. }
  clearbody s0. induction Hrun as [|s1 s2 s3 Hs _ IH]; [done|]. by apply IH, (mstep_drain s1).
Qed.

(** In every interleaving at most one maintenance round is queued, running
    or lost in the pool, and [round_inflight_] tells exactly whether there is
    one: ticks that arrive during a round only set the pending bit. *)
Theorem blacklist_maintenance_single_round s :
  reachable s ->
  let rounds := length (filter (fun w => is_round w = true) (work s)) in
  (rounds + dropped s <= 1)%nat
  /\ (round_inflight_ (maintenance s) = true <-> (0 < rounds + dropped s)%nat).
Proof.
  intros Hr%reachable_drain. destruct (di_rounds _ Hr) as [_ Hn _ _]. cbv zeta. rewrite Hn.
  destruct (round_inflight_ (maintenance s)); split; try lia; by split; try lia.
Qed.

(** The maintenance keeps going: while it runs, and no last retry has
    failed, a round is in the pool (and retries at its end), or the timer
    service has the current timer armed, or the event of that timer is about to
    be posted, or the service is stopping. *)
Theorem blacklist_maintenance_keeps_ticking s :
  reachable s -> running_ (the_ticker s) = true -> stalled s = false ->
  round_inflight_ (maintenance s) = true
  \/ (active_sequence_ (the_ticker s) <> 0
      /\ tick_coming BlacklistMaintenanceTick self (the_ticker s) (scheduler s) (in_hand s)).
Proof.
  intros Hr%reachable_drain Hrun Hst. destruct (di_rounds _ Hr) as [Ht _ _ Ha].
  destruct (Ha Hrun Hst) as [Hs|Hi]; [|by left]. right. split; [done|]. by apply (ti_armed _ _ _ _ _ Ht).
Qed.
End Theorems.

(** ** Shutdown with the production stores *)

Section Shutdown.
Context {E : Type} `{TimerSchedulerLaws E} `{Inet} (self : Z).

(** C25. A final drain that answers true has lost nothing.  In every
    interleaving of ticks, rounds, submissions, failures and the shutdown: when
    [finalDrainUntil] can answer true, no task that touches the stores is left,
    every candidate accepted until the drain ended is covered by an [XADD] that
    Redis has executed, and if the queue was closed by then no candidate has
    been accepted since. *)
Theorem final_drain_complete (s : System (E := E) (B := Backend)) :
  reachable self s -> finalDrain_leave (maintenance s) = true ->
  (forall w, w ∈ work s -> exists r, w = DrainRan r)
  /\ exists accepted closed, drained_ s = Some (accepted, closed)
     /\ (forall m, m ∈ accepted -> covered (stream_records (redis_history (core_ s))) m)
     /\ (closed = true -> accepted_ (core_ s) = accepted).
Proof.
  intros [_ _ _ _ D5 D6]%reachable_drain Hl. destruct (D5 (or_intror Hl)) as [[l closed] Hd].
  destruct (D6 l closed Hd) as (_ & G1 & G2 & G3). split; [done|]. exists l, closed.
  split_and!; [done| |intros Hc; by apply G3]. intros m Hm. rewrite <-all_recorded_history. by apply G2.
Qed.
End Shutdown.

(** ** Sample executions *)

#[local] Existing Instance ReferenceInet.inet.

Module MaintenanceSample.

Definition config : BlacklistMaintenanceConfig := mkMaintenance 1000 3000 60000 16 16.

Definition start_state : System (E := TimerService) (B := Backend) :=
  initial (mkBlacklistMaintenance config fresh_ticker false false false false false (mkMaintenanceState 0 false 0))
    idle_service (make_core (core_config_of config) [] Sample.empty_queue None 0 false 1000 [] [] []).

(** Redis answers as in [Sample.server], without the barrier. *)
Definition env (arrivals : list (list BlacklistMutation)) : CoreEnv (B := Backend) :=
  mkCoreEnv [Some (createBackend Sample.redis Sample.mysql [mkOpening 0 0 (Some (tail Sample.server))]
                     [Sample.database])]
    (replicate 20 (mkStopReading false false 0)) [] arrivals.
End MaintenanceSample.

Lemma sample_env_ok arrivals :
  Forall (Forall (@mutation_wf ReferenceInet.inet)) arrivals ->
  @ok_env Backend ReferenceInet.inet store_backend store_laws (MaintenanceSample.env arrivals).
Proof. intros Ha. split; [|exact Ha]. by repeat constructor. Qed.

Lemma sample_start_ok s :
  rtc (mstep 1 (@ok_env Backend ReferenceInet.inet store_backend store_laws)) MaintenanceSample.start_state s ->
  @reachable TimerService Backend _ _ ReferenceInet.inet store_backend store_laws 1 s.
Proof.
  intros Hs. exists MaintenanceSample.config, 0, false. eexists _, idle_service, 100, 8, Sample.empty_queue, None, 1000.
  split_and!; [reflexivity|exact idle_service_wf|reflexivity|exact Hs].
Qed.

(** Runs one rule and computes the next state. *)
Tactic Notation "run_step" uconstr(rule) :=
  eapply rtc_l; [apply m_own; eapply rule; first [reflexivity | vm_compute; reflexivity | idtac]|].

Definition running_state : System (E := TimerService) (B := Backend) :=
  let s := MaintenanceSample.start_state in
  let '(m, e, _) := start 1 (maintenance s) (scheduler s) 100 in
  s <| maintenance := m |> <| scheduler := e |>.

Lemma running_state_ok :
  @reachable TimerService Backend _ _ ReferenceInet.inet store_backend store_laws 1 running_state.
Proof.
  apply sample_start_ok, rtc_once, m_own.
  apply (b_start 1 _ MaintenanceSample.start_state 100 (maintenance running_state) (scheduler running_state) true).
  reflexivity.
Qed.

Lemma blacklist_maintenance_keeps_ticking_witness :
  round_inflight_ (maintenance running_state) = true
  \/ (active_sequence_ (ticker_ (maintenance running_state)) <> 0
      /\ tick_coming BlacklistMaintenanceTick 1 (ticker_ (maintenance running_state))
           (scheduler running_state) (in_hand running_state)).
Proof.
  exact (blacklist_maintenance_keeps_ticking 1 running_state running_state_ok eq_refl eq_refl).
Defined.

Lemma blacklist_maintenance_single_round_witness :
  (length (filter (fun w => is_round w = true) (work running_state)) + dropped running_state <= 1)%nat.
Proof.
  exact (proj1 (blacklist_maintenance_single_round 1 running_state running_state_ok)).
Defined.

(** A candidate, the queue closed, the component stopped, the drain. *)
Definition drained_state : System (E := TimerService) (B := Backend) :=
  let s := MaintenanceSample.start_state in
  let m := (stop (maintenance s)).1 in
  let m := (finalDrain_enter m 0 1000000 WorkerSubmitStatus.Accepted).1.1 in
  let c := interfere (with_env (MaintenanceSample.env [[Sample.candidate]]) (core_ s)) in
  let c := c <| queue := close_queue (queue c) |> in
  let '(c, d) := @run_core_drain Backend (@store_backend ReferenceInet.inet) (MaintenanceSample.env []) 1000000 c in
  mkSystem (runFinalDrain_finish m d (state_ c)) (scheduler s) c [] [] [] 0 false
    (Some (accepted_ c, closed_ (queue c))).

Lemma drained_state_ok :
  @reachable TimerService Backend _ _ ReferenceInet.inet store_backend store_laws 1 drained_state.
Proof.
  apply sample_start_ok.
  eapply rtc_l; [apply m_own, (b_submit 1 _ _ (MaintenanceSample.env [[Sample.candidate]])),
                   sample_env_ok, candidate_wf_sample|].
  eapply rtc_l; [apply m_own, b_close|].
  run_step (b_stop 1).
  run_step (b_drain_submit 1 _ _ 0 1000000 WorkerSubmitStatus.Accepted).
  eapply rtc_l; [apply m_own; eapply (b_drain 1 _ _ [] 1000000 (MaintenanceSample.env []));
                 [reflexivity|by apply sample_env_ok|vm_compute; reflexivity]|].
  eapply rtc_l; [apply m_own; eapply (b_drain_end 1 _ _ []); reflexivity|].
  assert (forall x y : System, x = y -> rtc (mstep 1 (@ok_env Backend ReferenceInet.inet store_backend store_laws)) x y)
    as He by (intros x y ->; apply rtc_refl).
  apply He. vm_compute. reflexivity.
Qed.

Lemma final_drain_complete_witness :
  exists accepted closed, drained_ drained_state = Some (accepted, closed)
  /\ (forall m, m ∈ accepted -> covered (@stream_records ReferenceInet.inet (redis_history (core_ drained_state))) m).
Proof.
  assert (finalDrain_leave (maintenance drained_state) = true) as Hl by (vm_compute; reflexivity).
  destruct (@final_drain_complete TimerService _ _ ReferenceInet.inet 1 drained_state drained_state_ok Hl)
    as [_ (l & c & H1 & H2 & _)].
  exists l, c. exact (conj H1 H2).
Defined.
