(* ===== verification/EventLoop.v ===== *)
(** * EventLoop: the sessions of one network thread

    Model of [net/event_loop.{hpp,cpp}]: the sessions of a loop, their epoll
    registrations and deadlines, and the three mailboxes.  Only the owner
    thread runs these functions, so an operation is a program of the state
    monad [Loop].  The answers of the kernel, of the worker pool and of the
    clock are the environment [LoopEnv], arbitrary lists that the program
    consumes; an exhausted list means "would block" or a failure.  The timer
    service is any [ITimerScheduler].  Threads that post to a mailbox do so
    between two operations of the loop.  [epoll_set], [closed_fds], [released]
    and [requests] record what the loop has done to the outside. *)

From S2P Require Import Prelude Posix Ring Codec Limits TimerCore Timer Scheduler.
From S2P Require Import WorkerPool Mailbox Config Session.
Open Scope Z_scope.

#[export] Existing Instance WorkerSubmitStatus.eq_dec.

Module EventLoopStatus.
Inductive t :=
| Ok | InvalidArgument | WrongThread | AlreadyRegistered | GenerationExhausted | ConnectionLimit
| TimerScheduleFailed | SystemCallFailed | Stopped.
#[export] Instance eq_dec : EqDecision t.
Proof. solve_decision. Defined.
End EventLoopStatus.
#[export] Existing Instance EventLoopStatus.eq_dec.

Definition EPOLLIN : Z := 1.
Definition EPOLLOUT : Z := 4.
Definition EPOLLERR : Z := 8.
Definition EPOLLHUP : Z := 16.
Definition EPOLLRDHUP : Z := 8192.
Definition EPOLLET : Z := 2147483648.

Definition has_event (mask flag : Z) : bool := negb (Z.land mask flag =? 0).

Definition epollEventsFor (i : SessionInterest) : Z :=
  let events := EPOLLET in
  let events := if interest_read i then Z.lor events EPOLLIN else events in
  let events := if interest_write i then Z.lor events EPOLLOUT else events in
  if interest_peer_read_close i then Z.lor events EPOLLRDHUP else events.

Definition checkedEventLoopConfig (config : EventLoopConfig) : result EventLoopConfig :=
  if ((loop_max_events config =? 0) || (read_scratch_bytes config =? 0)
      || (loop_max_connections config =? 0) || (completion_capacity config =? 0)
      || (completion_byte_capacity config =? 0)
      || (loop_max_completion_bytes config <=? kFrameHeaderSize)
      || (max_output_buffer_bytes (Config.session config) <? loop_max_completion_bytes config))%bool
  then Throw "invalid event loop config" else Ok config.

Definition sessionTimerEvent (k : TimerEventKind) (token : ConnectionToken) (sequence : Z) : TimerEvent :=
  mkTimerEvent k (wrap64 (fd token)) (loop_id token) (fd token) (token_generation token) sequence.

Record SessionEntry := mkEntry {
  session : Session;
  registered_events : Z;
  deadline_sequence : Z;
  deadline_kind : TimerEventKind;
  deadline_at : Z;
  deadline_active : bool;
  business_expired : bool;
}.

(** What [recv] answers: bytes (none at the end of the stream), or [errno]. *)
Inductive RecvAnswer := RecvBytes (data : bytes_t) | RecvError (e : Errno).

Record LoopEnv := mkLoopEnv {
  recvs : list RecvAnswer;
  sends : list IoResult;
  ctls : list bool;                        (* [epoll_ctl] succeeds *)
  socket_errors : list (option Z);         (* [SO_ERROR], [None] when the query fails *)
  clocks : list Z;
  submits : list WorkerSubmitStatus.t;
  drains : list bool;                      (* [drain_control->drainRequested()] *)
  wakes : list bool;                       (* [drainWakeSignal] of the mailboxes *)
}.

Record EventLoop (E : Type) := mkLoop {
  config_ : EventLoopConfig;
  completion_mailbox : LoopMailbox;
  timeout_mailbox : option TimeoutMailbox;
  connection_mailbox : option ConnectionMailbox;
  scheduler : E;
  sessions : gmap Z SessionEntry;
  event_to_fd : gmap Z Z;
  next_generation : Z;
  epoll_fd : Z;
  router_bound : bool;
  stopped : bool;
  has_observer : bool;                     (* [release_connection] is not empty *)
  env : LoopEnv;
  epoll_set : gmap Z (Z * Z);              (* the kernel: events and data of a descriptor *)
  closed_fds : list Z;
  released : Z;                            (* calls of [release_connection] *)
  requests : list (ConnectionToken * bytes_t);   (* accepted by the worker pool *)
}.
Arguments mkLoop {E}.
Arguments config_ {E}.
Arguments completion_mailbox {E}.
Arguments timeout_mailbox {E}.
Arguments connection_mailbox {E}.
Arguments scheduler {E}.
Arguments sessions {E}.
Arguments event_to_fd {E}.
Arguments next_generation {E}.
Arguments epoll_fd {E}.
Arguments router_bound {E}.
Arguments stopped {E}.
Arguments has_observer {E}.
Arguments env {E}.
Arguments epoll_set {E}.
Arguments closed_fds {E}.
Arguments released {E}.
Arguments requests {E}.

Section Loop.
Context {E : Type} `{ITimerScheduler E} (timeout_sink : Z).

Definition Loop (A : Type) : Type := EventLoop E -> EventLoop E * A.

#[export] Instance loop_ret : MRet Loop := fun A a l => (l, a).
#[export] Instance loop_bind : MBind Loop := fun A B f m l => let '(l, a) := m l in f a l.

Definition get {A} (f : EventLoop E -> A) : Loop A := fun l => (l, f l).
Definition modify (f : EventLoop E -> EventLoop E) : Loop unit := fun l => (f l, tt).

(** *** The environment *)

Definition recv : Loop RecvAnswer := fun l =>
  match recvs (env l) with
  | [] => (l, RecvError EAGAIN)
  | RecvBytes data :: rest =>
      (l <| env := (env l) <| recvs := rest |> |>,
       RecvBytes (take (Z.to_nat (read_scratch_bytes (config_ l))) data))
  | a :: rest => (l <| env := (env l) <| recvs := rest |> |>, a)
  end.

Definition send : Loop IoResult := fun l =>
  match sends (env l) with
  | [] => (l, IoError EAGAIN)
  | a :: rest => (l <| env := (env l) <| sends := rest |> |>, a)
  end.

Definition ctl_answer : Loop bool := fun l =>
  match ctls (env l) with
  | [] => (l, false)
  | a :: rest => (l <| env := (env l) <| ctls := rest |> |>, a)
  end.

Definition socket_error : Loop (option Z) := fun l =>
  match socket_errors (env l) with
  | [] => (l, None)
  | a :: rest => (l <| env := (env l) <| socket_errors := rest |> |>, a)
  end.

Definition now : Loop Z := fun l =>
  match clocks (env l) with
  | [] => (l, 0)
  | t :: rest => (l <| env := (env l) <| clocks := rest |> |>, t)
  end.

Definition drainRequested : Loop bool := fun l =>
  match drains (env l) with
  | [] => (l, false)
  | d :: rest => (l <| env := (env l) <| drains := rest |> |>, d)
  end.

Definition drainWakeSignal : Loop bool := fun l =>
  match wakes (env l) with
  | [] => (l, false)
  | w :: rest => (l <| env := (env l) <| wakes := rest |> |>, w)
  end.

(** [worker_pool->trySubmit(makeBusinessTask(...))] *)
Definition submit (token : ConnectionToken) (request : bytes_t) : Loop WorkerSubmitStatus.t := fun l =>
  match submits (env l) with
  | [] => (l, WorkerSubmitStatus.Rejected)
  | a :: rest =>
      let l := l <| env := (env l) <| submits := rest |> |> in
      (if bool_decide (a = WorkerSubmitStatus.Accepted)
       then l <| requests := requests l ++ [(token, request)] |> else l, a)
  end.

(** [epoll_ctl]; the kernel's view changes when it succeeds. *)
Definition epoll_set_to (fd events data : Z) : Loop bool :=
  ok ← ctl_answer;
  _ ← modify (fun l => if (ok : bool) then l <| epoll_set := <[fd := (events, data)]> (epoll_set l) |> else l);
  mret ok.

Definition epoll_del (fd : Z) : Loop unit :=
  modify (fun l => if 0 <=? epoll_fd l then l <| epoll_set := delete fd (epoll_set l) |> else l).

(** A descriptor that is closed leaves every epoll set. *)
Definition close_fd (fd : Z) (times : Z) (l : EventLoop E) : EventLoop E :=
  l <| closed_fds := closed_fds l ++ replicate (Z.to_nat times) fd |>
    <| epoll_set := if 0 <? times then delete fd (epoll_set l) else epoll_set l |>.

Definition find_session (fd : Z) : Loop (option SessionEntry) := get (fun l => sessions l !! fd).
Definition put_entry (fd : Z) (e : SessionEntry) : Loop unit :=
  modify (fun l => l <| sessions := <[fd := e]> (sessions l) |>).

(** *** Tokens and deadlines *)

Definition allocateGeneration : Loop (option Z) := fun l =>
  if next_generation l =? 0 then (l, None)
  else
    let generation := next_generation l in
    (l <| next_generation := if generation =? u64_max then 0 else generation ⊕ 1 |>, Some generation).

Definition sessionTimerKind (k : TimerEventKind) : SessionTimerKind :=
  match k with
  | IdleTimeout => TimerIdle
  | ReadTimeout => TimerRead
  | WriteTimeout => TimerWrite
  | BusinessTimeout => TimerBusiness
  | CleanupTick | BlacklistMaintenanceTick => TimerIdle
  end.

Definition timeoutFor (config : EventLoopConfig) (k : TimerEventKind) : Z :=
  match k with
  | IdleTimeout => idle_timeout (loop_deadlines config)
  | ReadTimeout => read_timeout (loop_deadlines config)
  | WriteTimeout => write_timeout (loop_deadlines config)
  | BusinessTimeout => business_timeout (loop_deadlines config)
  | CleanupTick | BlacklistMaintenanceTick => 0
  end.

Definition cancelTimerId (id : TimerId) : Loop unit :=
  if negb (timer_valid id) then mret tt
  else modify (fun l => l <| scheduler := (sched_cancel (scheduler l) id).1 |>).

(** On an entry, wherever it is stored. *)
Definition cancelDeadline (e : SessionEntry) : Loop SessionEntry :=
  if negb (deadline_active e) then mret e
  else
    let '(s, id) := replaceTimer (session e) (sessionTimerKind (deadline_kind e)) null_timer in
    _ ← cancelTimerId id;
    mret (e <| session := s |> <| deadline_active := false |>).

Definition schedule (deadline : Z) (ev : TimerEvent) : Loop (TimerStatus.t * TimerId) := fun l =>
  let '(e, answer) := sched_scheduleAt (scheduler l) deadline timeout_sink ev in
  (l <| scheduler := e |>, answer).

Definition armDeadline (e : SessionEntry) (k : TimerEventKind) : Loop (SessionEntry * bool) :=
  config ← get config_;
  if negb (deadlines_enabled (loop_deadlines config)) then mret (e, true)
  else
    e ← cancelDeadline e;
    if deadline_sequence e =? u64_max then mret (e, false)
    else
      let e := e <| deadline_sequence := deadline_sequence e ⊕ 1 |> in
      t ← now;
      let deadline := t + timeoutFor config k in
      '(status, id) ← schedule deadline
                        (sessionTimerEvent k (token_ (session e)) (deadline_sequence e));
      if negb (bool_decide (status = TimerStatus.Ok)) then mret (e, false)
      else
        let s := (replaceTimer (session e) (sessionTimerKind k) id).1 in
        mret (e <| session := s |> <| deadline_kind := k |> <| deadline_at := deadline |>
                <| deadline_active := true |>, true).

Definition deadlineKindFor (s : Session) : TimerEventKind :=
  match state_ s with
  | SessionState.Reading => if bufferedInputBytes s =? 0 then IdleTimeout else ReadTimeout
  | SessionState.Processing => BusinessTimeout
  | SessionState.Writing => WriteTimeout
  | SessionState.Closing | SessionState.Closed => IdleTimeout
  end.

Definition is_closing (s : Session) : bool :=
  bool_decide (state_ s = SessionState.Closing) || bool_decide (state_ s = SessionState.Closed).

Definition syncDeadline (fd : Z) : Loop bool :=
  found ← find_session fd;
  config ← get config_;
  match found with
  | None => mret false
  | Some e =>
      if negb (deadlines_enabled (loop_deadlines config)) then mret true
      else if is_closing (session e) then
        e ← cancelDeadline e; _ ← put_entry fd e; mret true
      else
        let desired := deadlineKindFor (session e) in
        if (deadline_active e && bool_decide (deadline_kind e = desired))%bool then mret true
        else '(e, ok) ← armDeadline e desired; _ ← put_entry fd e; mret ok
  end.

(** *** Closing *)

Definition cancel_timers (t : SessionTimers) : Loop unit :=
  _ ← cancelTimerId (idle t);
  _ ← cancelTimerId (read t);
  _ ← cancelTimerId (write t);
  cancelTimerId (business t).

(** [sessions.erase]: the destructor of the session runs. *)
Definition erase_session (fd : Z) (s : Session) : Loop unit :=
  modify (fun l => close_fd fd (close_calls (connection_ (destroy s))) (l <| sessions := delete fd (sessions l) |>)).

Definition release_if (notify : bool) : Loop unit :=
  modify (fun l => if (notify && has_observer l)%bool then l <| released := released l + 1 |> else l).

Definition closeSession (fd : Z) (reason : SessionCloseReason.t) (notify : bool) : Loop unit :=
  found ← find_session fd;
  match found with
  | None => mret tt
  | Some e =>
      let s := session e in
      let s := if negb (is_closing s) then (beginClose s reason).1 else s in
      let e := e <| session := s |> in
      let generation := token_generation (token_ s) in
      _ ← epoll_del fd;
      _ ← modify (fun l => l <| event_to_fd := delete generation (event_to_fd l) |>);
      e ← cancelDeadline e;
      let '(s, timers) := releaseTimersForClose (session e) in
      _ ← cancel_timers timers;
      let s := (finalizeClose s).1 in
      _ ← erase_session fd s;
      release_if notify
  end.

(** *** New connections *)

(** [~OwnedSocket] when the socket was not taken over. *)
Definition drop_socket (socket : Z) (st : EventLoopStatus.t) : Loop EventLoopStatus.t :=
  _ ← modify (fun l => foldl (fun l fd => close_fd fd 1 l) l (socket_reset socket)); mret st.

(** After [session_pool.create]: the two maps, epoll and the first deadline. *)
Definition register_session (fd generation : Z) (s : Session) : Loop EventLoopStatus.t :=
  let events := epollEventsFor (interest s) in
  _ ← put_entry fd (mkEntry s events 0 IdleTimeout 0 false false);
  taken ← get (fun l => bool_decide (is_Some (event_to_fd l !! generation)));
  if (taken : bool) then _ ← erase_session fd s; mret EventLoopStatus.SystemCallFailed
  else
    _ ← modify (fun l => l <| event_to_fd := <[generation := fd]> (event_to_fd l) |>);
    added ← epoll_set_to fd events generation;
    if negb added then
      _ ← modify (fun l => l <| event_to_fd := delete generation (event_to_fd l) |>);
      _ ← erase_session fd s;
      mret EventLoopStatus.SystemCallFailed
    else
      synced ← syncDeadline fd;
      if negb synced then
        _ ← closeSession fd SessionCloseReason.ResourceExhausted false;
        mret EventLoopStatus.TimerScheduleFailed
      else mret EventLoopStatus.Ok.

Definition adopt (owner : bool) (socket : Z) : Loop EventLoopStatus.t :=
  if negb owner then drop_socket socket EventLoopStatus.WrongThread
  else
    halted ← get stopped;
    if (halted : bool) then drop_socket socket EventLoopStatus.Stopped
    else if negb (socket_valid socket) then mret EventLoopStatus.InvalidArgument
    else
      found ← find_session socket;
      match found with
      | Some _ => drop_socket socket EventLoopStatus.AlreadyRegistered
      | None =>
          config ← get config_;
          full ← get (fun l => loop_max_connections config <=? Z.of_nat (base.size (sessions l)));
          if (full : bool) then drop_socket socket EventLoopStatus.ConnectionLimit
          else
            generation ← allocateGeneration;
            match generation with
            | None => drop_socket socket EventLoopStatus.GenerationExhausted
            | Some generation =>
                let token := mkToken (config_loop_id config) socket generation in
                match make_session token (Config.session config) (Some (mkConnection socket 0)) with
                | inl s => register_session socket generation s
                | inr conn =>
                    _ ← modify (close_fd socket (from_option close_calls 0 conn));
                    mret EventLoopStatus.SystemCallFailed
                end
            end
      end.

Definition modifyInterest (fd : Z) : Loop bool :=
  found ← find_session fd;
  match found with
  | None => mret false
  | Some e =>
      if is_closing (session e) then mret false
      else
        let desired := epollEventsFor (interest (session e)) in
        if desired =? registered_events e then mret true
        else
          ok ← epoll_set_to fd desired (token_generation (token_ (session e)));
          if negb ok then mret false
          else _ ← put_entry fd (e <| registered_events := desired |>); mret true
  end.

(** [if (!test) closeSession(fd, reason)] *)
Definition close_unless (ok : bool) (fd : Z) (reason : SessionCloseReason.t) : Loop unit :=
  if negb ok then closeSession fd reason true else mret tt.

(** *** Requests; [write] is [handleWrite] *)

Section Dispatch.
Context (write : Z -> Loop unit).

(** The answer to a request that no worker takes. *)
Definition reject_request (token : ConnectionToken) : Loop bool :=
  found ← find_session (fd token);
  config ← get config_;
  let frame := overload_response_frame config in
  match found with
  | Some e =>
      if (session_matches (session e) token && negb (bool_decide (frame = [])))%bool then
        let '(s, status) := queueResponse (session e) token frame in
        _ ← put_entry (fd token) (e <| session := s |>);
        if bool_decide (status = SessionStatus.Ok) then
          synced ← syncDeadline (fd token);
          if negb synced then
            _ ← closeSession (fd token) SessionCloseReason.ResourceExhausted true; mret false
          else _ ← write (fd token); mret false
        else
          _ ← closeSession (fd token)
                (if bool_decide (status = SessionStatus.OutputLimitExceeded)
                 then SessionCloseReason.OutputLimitExceeded
                 else SessionCloseReason.BusinessQueueRejected) true;
          mret false
      else _ ← closeSession (fd token) SessionCloseReason.BusinessQueueRejected true; mret false
  | None => _ ← closeSession (fd token) SessionCloseReason.BusinessQueueRejected true; mret false
  end.

Definition dispatch_with (token : ConnectionToken) (request : bytes_t) : Loop bool :=
  draining ← drainRequested;
  if (draining : bool) then
    _ ← closeSession (fd token) SessionCloseReason.LocalShutdown true; mret false
  else
    status ← submit token request;
    if bool_decide (status = WorkerSubmitStatus.Accepted) then
      found ← find_session (fd token);
      _ ← match found with
          | Some e => put_entry (fd token) (e <| business_expired := false |>)
          | None => mret tt
          end;
      synced ← syncDeadline (fd token);
      if negb synced then
        _ ← closeSession (fd token) SessionCloseReason.ResourceExhausted true; mret false
      else mret true
    else
      draining ← drainRequested;
      if (draining : bool) then
        _ ← closeSession (fd token) SessionCloseReason.LocalShutdown true; mret false
      else reject_request token.
End Dispatch.

(** *** Writing *)

Fixpoint write_loop (fuel : nat) (fd : Z) : Loop unit :=
  match fuel with
  | O => mret tt
  | S fuel =>
      found ← find_session fd;
      match found with
      | None => mret tt
      | Some e =>
          if negb (bool_decide (state_ (session e) = SessionState.Writing)) then
            if bool_decide (state_ (session e) = SessionState.Closing)
            then closeSession fd (close_reason_ (session e)) true
            else ok ← modifyInterest fd; close_unless ok fd SessionCloseReason.IoError
          else if bool_decide (pendingOutput (session e) = [])
          then closeSession fd SessionCloseReason.IoError true
          else
            answer ← send;
            match answer with
            | IoBytes n =>
                if n =? 0 then closeSession fd SessionCloseReason.IoError true
                else
                  match onBytesWritten (session e) n with
                  | None => closeSession fd SessionCloseReason.ResourceExhausted true
                  | Some (s, progress) =>
                      _ ← put_entry fd (e <| session := s |>);
                      match request progress with
                      | Some req =>
                          go ← dispatch_with (write_loop fuel) (token_ s) req;
                          if negb go then mret tt else write_loop fuel fd
                      | None =>
                          synced ← syncDeadline fd;
                          if negb synced
                          then closeSession fd SessionCloseReason.ResourceExhausted true
                          else write_loop fuel fd
                      end
                  end
            | IoError EINTR => write_loop fuel fd
            | IoError EAGAIN => ok ← modifyInterest fd; close_unless ok fd SessionCloseReason.IoError
            | IoError EOther => closeSession fd SessionCloseReason.IoError true
            end
      end
  end.

(** Every pass takes an answer of [send]. *)
Definition write_fuel (l : EventLoop E) : nat := S (length (sends (env l))).
Definition handleWrite (fd : Z) : Loop unit := fun l => write_loop (write_fuel l) fd l.
Definition dispatchRequest : ConnectionToken -> bytes_t -> Loop bool := dispatch_with handleWrite.

(** *** Reading *)

(** One pass after bytes were read into the session: whether to go on. *)
Definition after_input (fd : Z) (drain_peer_close : bool) : Loop bool :=
  found ← find_session fd;
  match found with
  | None => mret false
  | Some e =>
      if bool_decide (state_ (session e) = SessionState.Closing)
      then _ ← closeSession fd (close_reason_ (session e)) true; mret false
      else
        synced ← (if bool_decide (state_ (session e) = SessionState.Reading) then syncDeadline fd
                  else mret true);
        if negb synced
        then _ ← closeSession fd SessionCloseReason.ResourceExhausted true; mret false
        else if (negb drain_peer_close && negb (interest_read (interest (session e))))%bool
        then ok ← modifyInterest fd; _ ← close_unless ok fd SessionCloseReason.IoError; mret false
        else mret true
  end.

Fixpoint read_loop (fuel : nat) (fd : Z) (drain_peer_close : bool) : Loop unit :=
  match fuel with
  | O => mret tt
  | S fuel =>
      found ← find_session fd;
      match found with
      | None => mret tt
      | Some e =>
          answer ← recv;
          match answer with
          | RecvBytes [] =>
              let s := (onPeerReadClosed (session e)).1 in
              _ ← put_entry fd (e <| session := s |>);
              if bool_decide (state_ s = SessionState.Closing)
              then closeSession fd (close_reason_ s) true
              else ok ← modifyInterest fd; close_unless ok fd SessionCloseReason.IoError
          | RecvBytes data =>
              match onInput (session e) data with
              | None => closeSession fd SessionCloseReason.ResourceExhausted true
              | Some (s, result) =>
                  _ ← put_entry fd (e <| session := s |>);
                  go ← (match request result with
                        | Some req => dispatchRequest (token_ s) req
                        | None => mret true
                        end);
                  if negb go then mret tt
                  else
                    go ← after_input fd drain_peer_close;
                    if negb go then mret tt else read_loop fuel fd drain_peer_close
              end
          | RecvError EINTR => read_loop fuel fd drain_peer_close
          | RecvError EAGAIN =>
              ok ← modifyInterest fd;
              found ← find_session fd;
              close_unless (ok || negb (bool_decide (is_Some found)))%bool fd SessionCloseReason.IoError
          | RecvError EOther => closeSession fd SessionCloseReason.IoError true
          end
      end
  end.

(** Every pass takes an answer of [recv]. *)
Definition handleRead (fd : Z) (drain_peer_close : bool) : Loop unit := fun l =>
  read_loop (S (length (recvs (env l)))) fd drain_peer_close l.

(** *** Timeouts and completions *)

(** The answer to a request whose deadline has passed. *)
Definition expire_business (fd : Z) (e : SessionEntry) : Loop unit :=
  config ← get config_;
  let e := e <| business_expired := true |> in
  let frame := business_timeout_response_frame config in
  if negb (bool_decide (frame = [])) then
    let '(s, status) := queueResponse (session e) (token_ (session e)) frame in
    if bool_decide (status = SessionStatus.Ok) then
      let '(s, status) := closeAfterWrite s SessionCloseReason.BusinessTimeout in
      _ ← put_entry fd (e <| session := s |>);
      if negb (bool_decide (status = SessionStatus.Ok))
      then closeSession fd SessionCloseReason.BusinessTimeout true
      else
        synced ← syncDeadline fd;
        if negb synced then closeSession fd SessionCloseReason.ResourceExhausted true
        else handleWrite fd
    else
      _ ← put_entry fd (e <| session := s |>);
      closeSession fd SessionCloseReason.BusinessTimeout true
  else
    _ ← put_entry fd e;
    closeSession fd SessionCloseReason.BusinessTimeout true.

(** The event is the one that the entry waits for. *)
Definition timeout_current (e : SessionEntry) (ev : TimerEvent) : bool :=
  let token := token_ (session e) in
  negb (negb (target_loop_id ev =? loop_id token) || negb (target_fd ev =? fd token)
        || negb (target_generation ev =? token_generation token) || negb (deadline_active e)
        || negb (target_sequence ev =? deadline_sequence e)
        || negb (bool_decide (kind ev = deadline_kind e)))%bool.

Definition handleTimeoutEvent (ev : TimerEvent) : Loop unit :=
  let fd := target_fd ev in
  found ← find_session fd;
  match found with
  | None => mret tt
  | Some e =>
      if negb (timeout_current e ev) then mret tt
      else if negb (bool_decide (kind ev = deadlineKindFor (session e))) then mret tt
      else
        t ← now;
        if t <? deadline_at e then mret tt
        else
          let s := (replaceTimer (session e) (sessionTimerKind (kind ev)) null_timer).1 in
          let e := e <| session := s |> <| deadline_active := false |> in
          _ ← put_entry fd e;
          match kind ev with
          | IdleTimeout => closeSession fd SessionCloseReason.IdleTimeout true
          | ReadTimeout => closeSession fd SessionCloseReason.ReadTimeout true
          | WriteTimeout => closeSession fd SessionCloseReason.WriteTimeout true
          | BusinessTimeout => expire_business fd e
          | CleanupTick | BlacklistMaintenanceTick => mret tt
          end
  end.

Definition completion_close_reason (st : BusinessCompletionStatus.t) : SessionCloseReason.t :=
  match st with
  | BusinessCompletionStatus.InvalidRequest => SessionCloseReason.ProtocolError
  | BusinessCompletionStatus.OutputLimitExceeded => SessionCloseReason.OutputLimitExceeded
  | _ => SessionCloseReason.BusinessError
  end.

(** The response of a completion that is in time. *)
Definition apply_response (token : ConnectionToken) (frame : bytes_t) (e : SessionEntry) : Loop unit :=
  let '(s, status) := queueResponse (session e) token frame in
  if negb (bool_decide (status = SessionStatus.Ok)) then
    _ ← put_entry (fd token) (e <| session := s |>);
    closeSession (fd token)
      (if bool_decide (status = SessionStatus.OutputLimitExceeded)
       then SessionCloseReason.OutputLimitExceeded else SessionCloseReason.BusinessError) true
  else
    draining ← drainRequested;
    let s := if (draining : bool) then (closeAfterWrite s SessionCloseReason.LocalShutdown).1 else s in
    _ ← put_entry (fd token) (e <| session := s |>);
    synced ← syncDeadline (fd token);
    if negb synced then closeSession (fd token) SessionCloseReason.ResourceExhausted true
    else handleWrite (fd token).

(** Whether the deadline of the request has passed without its event. *)
Definition business_overdue (e : SessionEntry) : Loop bool :=
  config ← get config_;
  if (deadlines_enabled (loop_deadlines config) && deadline_active e
      && bool_decide (deadline_kind e = BusinessTimeout))%bool
  then t ← now; mret (deadline_at e <=? t)
  else mret false.

Definition applyCompletion (c : BusinessCompletion) : Loop unit :=
  let token := completion_token c in
  found ← find_session (fd token);
  match found with
  | None => mret tt
  | Some e =>
      if negb (session_matches (session e) token) then mret tt
      else if business_expired e then mret tt
      else
        overdue ← business_overdue e;
        if (overdue : bool)
        then handleTimeoutEvent (sessionTimerEvent BusinessTimeout token (deadline_sequence e))
        else
          e ← cancelDeadline e;
          _ ← put_entry (fd token) e;
          if negb (bool_decide (completion_status c = BusinessCompletionStatus.Response))
          then closeSession (fd token) (completion_close_reason (completion_status c)) true
          else apply_response token (response_frame c) e
  end.

(** *** Graceful drain *)

Definition drain_session (fd : Z) : Loop unit :=
  found ← find_session fd;
  match found with
  | None => mret tt
  | Some e =>
      match state_ (session e) with
      | SessionState.Reading => closeSession fd SessionCloseReason.LocalShutdown true
      | SessionState.Writing =>
          let s := (closeAfterWrite (session e) SessionCloseReason.LocalShutdown).1 in
          _ ← put_entry fd (e <| session := s |>); handleWrite fd
      | _ => mret tt
      end
  end.

(** [for] over a list. *)
Fixpoint for_each {A} (f : A -> Loop unit) (xs : list A) : Loop unit :=
  match xs with
  | [] => mret tt
  | x :: xs => _ ← f x; for_each f xs
  end.

Definition reading_or_writing (e : SessionEntry) : bool :=
  bool_decide (state_ (session e) = SessionState.Reading)
  || bool_decide (state_ (session e) = SessionState.Writing).

Definition applyGracefulDrain : Loop unit :=
  draining ← drainRequested;
  if negb draining then mret tt
  else
    descriptors ← get (fun l => (filter (fun p => reading_or_writing p.2 = true) (map_to_list (sessions l))).*1);
    for_each drain_session descriptors.

(** *** Mailboxes *)

Definition pop_timeout : Loop (option TimerEvent) := fun l =>
  match timeout_mailbox l with
  | None => (l, None)
  | Some m => let '(m, ev) := timeout_tryPop m in (l <| timeout_mailbox := Some m |>, ev)
  end.

(** [while (auto x = pop()) handle( *x )] *)
Fixpoint pop_all {A} (fuel : nat) (pop : Loop (option A)) (handle : A -> Loop unit) : Loop unit :=
  match fuel with
  | O => mret tt
  | S fuel =>
      x ← pop;
      match x with
      | None => mret tt
      | Some x => _ ← handle x; pop_all fuel pop handle
      end
  end.

Definition take_rescan : Loop bool := fun l =>
  match timeout_mailbox l with
  | None => (l, false)
  | Some m => let '(m, r) := takeRescanRequest m in (l <| timeout_mailbox := Some m |>, r)
  end.

(** The events of all deadlines that have passed. *)
Definition expired_deadlines (t : Z) (ss : gmap Z SessionEntry) : list TimerEvent :=
  (fun p : Z * SessionEntry =>
     sessionTimerEvent (deadline_kind p.2) (token_ (session p.2)) (deadline_sequence p.2))
  <$> filter (fun p => deadline_active p.2 = true /\ deadline_at p.2 <= t) (map_to_list ss).

Definition queued_timeouts (l : EventLoop E) : Z := from_option (fun m => Ring.size (tm_queue m)) 0 (timeout_mailbox l).

Definition drainTimeoutMailbox : Loop bool :=
  mailbox ← get timeout_mailbox;
  match mailbox with
  | None => mret true
  | Some _ =>
      ok ← drainWakeSignal;
      if negb ok then mret false
      else
        n ← get queued_timeouts;
        _ ← pop_all (S (Z.to_nat n)) pop_timeout handleTimeoutEvent;
        rescan ← take_rescan;
        if (rescan : bool) then
          t ← now;
          ss ← get sessions;
          _ ← for_each handleTimeoutEvent (expired_deadlines t ss);
          mret true
        else mret true
  end.

Definition pop_completion : Loop (option BusinessCompletion) := fun l =>
  let '(m, c) := loop_tryPop (completion_mailbox l) in (l <| completion_mailbox := m |>, c).

Definition pop_connection : Loop (option Z) := fun l =>
  match connection_mailbox l with
  | None => (l, None)
  | Some m => let '(m, s) := connection_tryPop m in (l <| connection_mailbox := Some m |>, s)
  end.

Definition adopt_accepted (socket : Z) : Loop unit :=
  status ← adopt true socket;
  release_if (negb (bool_decide (status = EventLoopStatus.Ok))).

Definition drainMailboxes : Loop bool :=
  ok ← drainWakeSignal;
  if negb ok then mret false
  else
    n ← get (fun l => Ring.size (lm_queue (completion_mailbox l)));
    _ ← pop_all (S (Z.to_nat n)) pop_completion applyCompletion;
    ok ← drainTimeoutMailbox;
    if negb ok then mret false
    else
      mailbox ← get connection_mailbox;
      match mailbox with
      | None => mret true
      | Some m =>
          ok ← drainWakeSignal;
          if negb ok then mret false
          else
            _ ← pop_all (S (Z.to_nat (Ring.size (cm_queue m)))) pop_connection adopt_accepted;
            _ ← applyGracefulDrain;
            mret true
      end.

(** *** Events and the public operations *)

Definition handleSocketEvent (generation event_mask : Z) : Loop unit :=
  found ← get (fun l => event_to_fd l !! generation);
  match found with
  | None => mret tt
  | Some fd =>
      let has_error := has_event event_mask EPOLLERR in
      if (has_error || has_event event_mask EPOLLHUP)%bool then
        err ← socket_error;
        closeSession fd
          (if (has_error || negb (bool_decide (err = Some 0)))%bool
           then SessionCloseReason.IoError else SessionCloseReason.PeerClosed) true
      else
        entry ← find_session fd;
        let read_interested := from_option (fun e => interest_read (interest (session e))) false entry in
        let peer_closed := has_event event_mask EPOLLRDHUP in
        _ ← (if (peer_closed || (has_event event_mask EPOLLIN && read_interested))%bool
             then handleRead fd peer_closed else mret tt);
        entry ← find_session fd;
        match entry with
        | None => mret tt
        | Some _ => if has_event event_mask EPOLLOUT then handleWrite fd else mret tt
        end
  end.

(** The events of [epoll_wait]: data and mask; false when a drain failed. *)
Fixpoint handle_events (events : list (Z * Z)) : Loop bool :=
  match events with
  | [] => mret true
  | (data, mask) :: rest =>
      if data =? 0 then
        ok ← drainMailboxes;
        if negb ok then mret false else handle_events rest
      else _ ← handleSocketEvent data mask; handle_events rest
  end.

(** [ready] is what [epoll_wait] answers after its interruptions, [None] for a
    failure. *)
Definition pollOnce (owner : bool) (timeout_ms : Z) (ready : option (list (Z * Z))) : Loop EventLoopStatus.t :=
  halted ← get (fun l => (stopped l || (epoll_fd l <? 0))%bool);
  if negb owner then mret EventLoopStatus.WrongThread
  else if (halted : bool) then mret EventLoopStatus.Stopped
  else if timeout_ms <? -1 then mret EventLoopStatus.InvalidArgument
  else
    match ready with
    | None => mret EventLoopStatus.SystemCallFailed
    | Some events =>
        ok ← handle_events events;
        mret (if (ok : bool) then EventLoopStatus.Ok else EventLoopStatus.SystemCallFailed)
    end.

(** [while (!sessions.empty()) closeSession(sessions.begin()->first, ...)] *)
Fixpoint close_all (fuel : nat) : Loop unit :=
  match fuel with
  | O => mret tt
  | S fuel =>
      first ← get (fun l => hd_error (map_to_list (sessions l)));
      match first with
      | None => mret tt
      | Some (fd, _) => _ ← closeSession fd SessionCloseReason.LocalShutdown true; close_all fuel
      end
  end.

Definition close_connections : Loop unit := fun l =>
  match connection_mailbox l with
  | None => (l, tt)
  | Some m =>
      let '(m, discarded, closed) := connection_close m in
      let l := foldl (fun l fd => close_fd fd 1 l) (l <| connection_mailbox := Some m |>) closed in
      (if has_observer l then l <| released := released l + discarded |> else l, tt)
  end.

Definition forceShutdown : Loop unit :=
  done ← get (fun l => (stopped l && (epoll_fd l <? 0))%bool);
  if (done : bool) then mret tt
  else
    _ ← modify (fun l => l <| router_bound := false |>
                           <| completion_mailbox := loop_close (completion_mailbox l) |>
                           <| timeout_mailbox := timeout_close <$> timeout_mailbox l |>);
    _ ← close_connections;
    n ← get (fun l => base.size (sessions l));
    _ ← close_all (S n);
    modify (fun l => l <| epoll_fd := -1 |> <| epoll_set := ∅ |> <| stopped := true |>).

Definition shutdown (owner : bool) : Loop EventLoopStatus.t :=
  if negb owner then mret EventLoopStatus.WrongThread
  else _ ← forceShutdown; mret EventLoopStatus.Ok.

(** The constructor: what [bind] and [epoll_create1] answer and the results of
    the registrations of the mailboxes; the descriptors it closes when it
    throws are those of epoll. *)
Definition make_loop (config : EventLoopConfig) (e : E) (observer bound : bool) (epoll : Z)
    (completions : LoopMailbox) (connections : option ConnectionMailbox) (timeouts : TimeoutMailbox)
    (registered : bool * bool * bool) (env : LoopEnv) : result (EventLoop E) :=
  config ← checkedEventLoopConfig config;
  let timeouts := if deadlines_enabled (loop_deadlines config) then Some timeouts else None in
  if negb bound then Throw "completion router"
  else if epoll <? 0 then Throw "epoll_create1"
  else if negb registered.1.1 then Throw "register completion mailbox"
  else if (bool_decide (is_Some connections) && negb registered.1.2)%bool then Throw "register connection mailbox"
  else if (bool_decide (is_Some timeouts) && negb registered.2)%bool then Throw "register timeout mailbox"
  else Ok (mkLoop config completions timeouts connections e ∅ ∅ 1 epoll true false observer env ∅ [] 0 []).
End Loop.
