(* ===== verification/EventLoopSafety.v ===== *)
(** * EventLoopSafety: what the event loop holds

    The invariants of [EventLoop]: registrations, tokens and epoll agree with
    the sessions, every descriptor that the loop received is waiting, served or
    closed exactly once, and every closed connection is released once. *)

From S2P Require Import Prelude Posix Ring Codec Limits TimerCore Timer Scheduler.
From S2P Require Import WorkerPool Mailbox Config Session EventLoop.
Open Scope Z_scope.

(** ** Sessions keep their identity *)

(** The token and the connection are those of [s]. *)
Definition same_conn (s s' : Session) : Prop :=
  token_ s' = token_ s /\ connection_ s' = connection_ s /\ connection_closed_ s' = connection_closed_ s.

#[export] Instance same_conn_refl : Reflexive same_conn.
Proof. by intros s. Qed.

#[export] Instance same_conn_trans : Transitive same_conn.
Proof. intros s1 s2 s3 (E1 & E2 & E3) (F1 & F2 & F3). unfold same_conn. by rewrite F1, F2, F3. Qed.

Create HintDb session_conn.

Lemma beginClose_conn s r : same_conn s (beginClose s r).1.
Proof. unfold beginClose. repeat case_bool_decide; done. Qed.

Lemma append_conn s bs : same_conn s (appendPendingInput s bs).
Proof. unfold appendPendingInput. case_bool_decide; [done|]. by destruct (negb _). Qed.

Lemma reading_pass_conn s rest store r n out :
  reading_pass s rest store r n = Some out ->
  match out with inl o => same_conn s o.1 | inr o => same_conn s o.1.1.1 end.
Proof.
  unfold reading_pass, close_with. intros Hp.
  repeat (case_match; simplify_eq/=; try apply beginClose_conn); try done.
  all: etransitivity; [|apply beginClose_conn]; done.
Qed.

Lemma reading_loop_conn fuel s rest store r n out :
  reading_loop fuel s rest store r n = Some out ->
  match out with inl o => same_conn s o.1 | inr o => same_conn s o.1.1.1 end.
Proof.
  revert s rest r n. induction fuel as [|fuel IH]; intros s rest r n; simpl.
  - destruct (_ && _)%bool; [done|]. by intros ?; simplify_eq.
  - destruct (_ && _)%bool; [|by intros ?; simplify_eq].
    destruct (reading_pass s rest store r n) as [[o|[[[s1 rest1] r1] n1]]|] eqn:Ep; [| |done].
    + intros ?; simplify_eq. by apply reading_pass_conn in Ep.
    + intros Hl. apply IH in Hl. apply reading_pass_conn in Ep. simpl in Ep.
      destruct out; by etransitivity.
Qed.

Lemma consumeReadingBytes_conn s input store s' r :
  consumeReadingBytes s input store = Some (s', r) -> same_conn s s'.
Proof.
  unfold consumeReadingBytes. intros Hc.
  destruct (reading_loop _ _ _ _ _ _) as [[o|[[[s1 rest1] r1] n1]]|] eqn:El; [| |done];
    apply reading_loop_conn in El; simpl in El.
  - injection Hc as ->. done.
  - unfold close_with in Hc.
    repeat case_match; simplify_eq/=; try done; (etransitivity; [exact El|]);
      [apply beginClose_conn|apply append_conn].
Qed.

Lemma onInput_conn s input s' r : onInput s input = Some (s', r) -> same_conn s s'.
Proof.
  unfold onInput. intros Ho. repeat (case_match; simplify_eq/=; [done|]).
  case_match; [case_match; simplify_eq/=; [apply beginClose_conn|apply append_conn]|].
  by eapply consumeReadingBytes_conn.
Qed.

Lemma consumePendingInput_conn s s' r : consumePendingInput s = Some (s', r) -> same_conn s s'.
Proof.
  unfold consumePendingInput. case_match; [by intros [= <- <-]|].
  destruct (consumeReadingBytes _ _ _) as [[s1 r1]|] eqn:Ec; [|done]. intros [= <- <-].
  apply consumeReadingBytes_conn in Ec. etransitivity; [exact Ec|].
  unfold clearConsumedPendingInput. by case_match.
Qed.

Lemma onBytesWritten_conn s n s' r : onBytesWritten s n = Some (s', r) -> same_conn s s'.
Proof.
  unfold onBytesWritten. intros Ho. repeat (case_match; simplify_eq/=; [done|]).
  case_match; [simplify_eq/=; apply beginClose_conn|]. case_match; [by simplify_eq/=|].
  case_match; [simplify_eq/=; etransitivity; [|apply beginClose_conn]; done|].
  destruct (consumePendingInput _) as [[s1 r1]|] eqn:Ec; [|done]. simplify_eq/=.
  apply consumePendingInput_conn in Ec. etransitivity; [|exact Ec]. done.
Qed.

Lemma queueResponse_conn s t bs : same_conn s (queueResponse s t bs).1.
Proof. unfold queueResponse. repeat case_match; simpl; try done. apply beginClose_conn. Qed.

Lemma closeAfterWrite_conn s r : same_conn s (closeAfterWrite s r).1.
Proof. unfold closeAfterWrite. by repeat case_match. Qed.

Lemma onPeerReadClosed_conn s : same_conn s (onPeerReadClosed s).1.
Proof.
  unfold onPeerReadClosed. repeat case_match; simpl; try done;
    (etransitivity; [|apply beginClose_conn]; done).
Qed.

#[export] Hint Resolve beginClose_conn queueResponse_conn closeAfterWrite_conn onPeerReadClosed_conn
  onInput_conn onBytesWritten_conn : session_conn.

(** Closing an open connection closes it once. *)
Lemma finalize_once s fd :
  connection_ s = mkConnection fd 0 -> connection_closed_ s = false ->
  connection_ (destroy (finalizeClose s).1) = mkConnection fd 1.
Proof.
  intros Hc Hf. unfold finalizeClose. case_bool_decide; simpl.
  - unfold destroy. rewrite Hf. simpl. by rewrite Hc.
  - set (s1 := if negb (bool_decide (state_ s = SessionState.Closing)) then _ else s).
    assert (same_conn s s1) as (_ & E1 & E2) by (unfold s1; destruct (negb _); [apply beginClose_conn|done]).
    clearbody s1. rewrite E2, Hf. simpl. unfold destroy. simpl. by rewrite E1, Hc.
Qed.

Lemma destroy_once s fd :
  connection_ s = mkConnection fd 0 -> connection_closed_ s = false ->
  connection_ (destroy s) = mkConnection fd 1.
Proof. intros Hc Hf. unfold destroy. rewrite Hf. simpl. by rewrite Hc. Qed.

(** ** Programs of the loop *)

Section Safety.
Context {E : Type} `{ITimerScheduler E} (sink : Z).

Definition triple {A} (P : EventLoop E -> Prop) (m : Loop A) (Q : A -> EventLoop E -> Prop) : Prop :=
  forall l, P l -> Q (m l).2 (m l).1.

Lemma loop_triple_bind {A B} P (m : Loop A) (f : A -> Loop B) R Q :
  triple P m R -> (forall a, triple (R a) (f a) Q) -> triple P (m ≫= f) Q.
Proof.
  intros Hm Hf l Hl. unfold mbind, loop_bind. specialize (Hm l Hl). destruct (m l) as [l' a]. by apply Hf.
Qed.

(** What the invariant looks at. *)
Definition view (l : EventLoop E) :=
  (config_ l, connection_mailbox l, sessions l, event_to_fd l, next_generation l,
   (epoll_set l, closed_fds l, released l, has_observer l, stopped l)).

(** [m] only talks to the timer service, the clock and the pool. *)
Definition unseen {A} (m : Loop (E := E) A) : Prop := forall l, view (m l).1 = view l.

Lemma unseen_ret {A} (a : A) : unseen (mret a).
Proof. done. Qed.

Lemma unseen_bind {A B} (m : Loop A) (f : A -> Loop B) :
  unseen m -> (forall a, unseen (f a)) -> unseen (m ≫= f).
Proof.
  intros Hm Hf l. unfold mbind, loop_bind. specialize (Hm l). destruct (m l) as [l' a]. by rewrite Hf.
Qed.

Lemma unseen_get {A} (f : EventLoop E -> A) : unseen (get f).
Proof. done. Qed.

Lemma unseen_recv : unseen recv.
Proof. intros l. unfold recv. by destruct (recvs (env l)) as [|[] ?]. Qed.

Lemma unseen_send : unseen send.
Proof. intros l. unfold send. by destruct (sends (env l)). Qed.

Lemma unseen_now : unseen now.
Proof. intros l. unfold now. by destruct (clocks (env l)). Qed.

Lemma unseen_ctl : unseen ctl_answer.
Proof. intros l. unfold ctl_answer. by destruct (ctls (env l)). Qed.

Lemma unseen_socket_error : unseen socket_error.
Proof. intros l. unfold socket_error. by destruct (socket_errors (env l)). Qed.

Lemma unseen_drainRequested : unseen drainRequested.
Proof. intros l. unfold drainRequested. by destruct (drains (env l)). Qed.

Lemma unseen_wake : unseen drainWakeSignal.
Proof. intros l. unfold drainWakeSignal. by destruct (wakes (env l)). Qed.

Lemma unseen_submit t r : unseen (submit t r).
Proof. intros l. unfold submit. destruct (submits (env l)); [done|]. by case_bool_decide. Qed.

Lemma unseen_cancelTimerId id : unseen (cancelTimerId id).
Proof. unfold cancelTimerId. by destruct (negb _). Qed.

Lemma unseen_schedule d ev : unseen (schedule sink d ev).
Proof. intros l. unfold schedule. by destruct (sched_scheduleAt _ _ _ _). Qed.

Lemma unseen_pop_completion : unseen pop_completion.
Proof. intros l. unfold pop_completion. by destruct (loop_tryPop _). Qed.

Lemma unseen_pop_timeout : unseen pop_timeout.
Proof. intros l. unfold pop_timeout. destruct (timeout_mailbox l); [|done]. by destruct (timeout_tryPop _). Qed.

Lemma unseen_take_rescan : unseen take_rescan.
Proof. intros l. unfold take_rescan. by destruct (timeout_mailbox l). Qed.

Create HintDb loop_unseen.
Hint Resolve unseen_ret unseen_bind unseen_get unseen_recv unseen_send unseen_now unseen_ctl unseen_socket_error
  unseen_drainRequested unseen_wake unseen_submit unseen_cancelTimerId unseen_schedule unseen_pop_completion
  unseen_pop_timeout unseen_take_rescan : loop_unseen.

Lemma unseen_cancel_timers t : unseen (cancel_timers t).
Proof. unfold cancel_timers. auto 10 with loop_unseen. Qed.

(** The entry after its timers were replaced. *)
Definition rearmed (e e' : SessionEntry) : Prop :=
  same_conn (session e) (session e') /\ registered_events e' = registered_events e.

Lemma cancelDeadline_spec e : forall l,
  view (cancelDeadline e l).1 = view l /\ rearmed e (cancelDeadline e l).2.
Proof.
  intros l. unfold cancelDeadline. destruct (negb _); [done|]. simpl. unfold mbind, loop_bind.
  pose proof (unseen_cancelTimerId (timerSlot (timers_ (session e)) (sessionTimerKind (deadline_kind e))) l) as Hc.
  destruct (cancelTimerId _ l) as [l' []]. simpl in *. by split.
Qed.

Lemma armDeadline_spec e k : forall l,
  view (armDeadline sink e k l).1 = view l /\ rearmed e (armDeadline sink e k l).2.1.
Proof.
  intros l. unfold armDeadline, mbind, loop_bind. simpl. destruct (negb _); [done|].
  pose proof (cancelDeadline_spec e l) as [Hv Hr]. destruct (cancelDeadline e l) as [l1 e1]. simpl in *.
  destruct (_ =? u64_max); [done|]. pose proof (unseen_now l1) as Hn. destruct (now l1) as [l2 t]. simpl in *.
  match goal with |- context [schedule sink ?d ?ev l2] => pose proof (unseen_schedule d ev l2) as Hs;
    destruct (schedule sink d ev l2) as [l3 [st id]] end. simpl in *.
  case_bool_decide; simpl; (split; [congruence|done]).
Qed.

(** ** The invariant *)

Definition keys (l : EventLoop E) : list Z := (map_to_list (sessions l)).*1.

(** The sockets that wait in the connection mailbox. *)
Definition waiting (m : option ConnectionMailbox) (content : list Z) : Prop :=
  match m with
  | None => content = []
  | Some m => ring_repr (cm_queue m) content /\ Forall (fun fd => 0 <= fd) content
  end.

(** The mailbox takes and gives nothing any more. *)
Definition drained (m : option ConnectionMailbox) : Prop :=
  match m with
  | None => True
  | Some m => cm_accepting m = false /\ ring_repr (cm_queue m) []
  end.

(** A session of the loop: its token names it, its connection is open, and
    both the loop's index and the kernel know it. *)
Definition entry_ok (l : EventLoop E) (fd : Z) (e : SessionEntry) : Prop :=
  let g := token_generation (token_ (session e)) in
  token_ (session e) = mkToken (config_loop_id (config_ l)) fd g
  /\ 0 < g /\ (next_generation l = 0 \/ g < next_generation l)
  /\ event_to_fd l !! g = Some fd
  /\ connection_ (session e) = mkConnection fd 0 /\ connection_closed_ (session e) = false
  /\ epoll_set l !! fd = Some (registered_events e, g).

(** Generations of sessions that were closed. *)
Context (dead : Z -> Prop).

(** [accepted] are the sockets given to the loop, [hand] those that a function
    holds, [k] the releases that it still owes. *)
Record lsafe (accepted hand : list Z) (k : Z) (l : EventLoop E) : Prop := {
  ls_entry fd e : sessions l !! fd = Some e -> entry_ok l fd e;
  ls_event g fd : event_to_fd l !! g = Some fd ->
    exists e, sessions l !! fd = Some e /\ token_generation (token_ (session e)) = g;
  ls_epoll fd x : epoll_set l !! fd = Some x -> is_Some (sessions l !! fd);
  ls_gen : 0 <= next_generation l < two64;
  ls_cap : Z.of_nat (base.size (sessions l)) <= Z.max 0 (loop_max_connections (config_ l));
  ls_own : exists content, waiting (connection_mailbox l) content
           /\ accepted ≡ₚ hand ++ content ++ keys l ++ closed_fds l
           /\ NoDup (hand ++ content ++ keys l);
  ls_rel : has_observer l = true -> released l + k = Z.of_nat (length (closed_fds l));
  ls_dead g : dead g ->
    (next_generation l = 0 \/ g < next_generation l) /\ event_to_fd l !! g = None;
  ls_stop : stopped l = true -> sessions l = ∅ /\ drained (connection_mailbox l);
}.

Lemma lsafe_view a hs k l l' : view l' = view l -> lsafe a hs k l -> lsafe a hs k l'.
Proof.
  unfold view. intros Hv [L1 L2 L3 L4 L5 L6 L7 L9 L8]. injection Hv as E1 E2 E3 E4 E5 E6 E7 E8 E9 E10.
  split; unfold entry_ok, keys in *; rewrite ?E1, ?E2, ?E3, ?E4, ?E5, ?E6, ?E7, ?E8, ?E9, ?E10; done.
Qed.

Lemma keys_insert (ss : gmap Z SessionEntry) fd e e' :
  ss !! fd = Some e -> (map_to_list (<[fd := e']> ss)).*1 ≡ₚ (map_to_list ss).*1.
Proof.
  intros He. rewrite <-(insert_delete_id ss fd e He) at 2. rewrite <-(insert_delete_eq ss fd e').
  rewrite !map_to_list_insert by apply lookup_delete_eq. done.
Qed.

Lemma keys_delete (ss : gmap Z SessionEntry) fd e :
  ss !! fd = Some e -> (map_to_list ss).*1 ≡ₚ fd :: (map_to_list (delete fd ss)).*1.
Proof.
  intros He. rewrite <-(insert_delete_id ss fd e He) at 1.
  rewrite map_to_list_insert by apply lookup_delete_eq. done.
Qed.

Lemma elem_of_keys (l : EventLoop E) fd : fd ∈ keys l <-> is_Some (sessions l !! fd).
Proof.
  unfold keys. rewrite list_elem_of_fmap. split.
  - intros ([fd' e] & -> & Hin%elem_of_map_to_list). by exists e.
  - intros [e He]. exists (fd, e). split; [done|]. by apply elem_of_map_to_list.
Qed.

Lemma stopped_no_entry (l : EventLoop E) fd e (P Q : Prop) :
  (stopped l = true -> sessions l = ∅ /\ P) -> sessions l !! fd = Some e -> stopped l = true -> Q.
Proof. intros Hs He Ht. destruct (Hs Ht) as [E0 _]. by rewrite E0, lookup_empty in He. Qed.

(** An entry may be replaced by one of the same connection. *)
Lemma lsafe_put a hs k l fd e e' :
  lsafe a hs k l -> sessions l !! fd = Some e -> rearmed e e' ->
  lsafe a hs k (l <| sessions := <[fd := e']> (sessions l) |>).
Proof.
  intros [L1 L2 L3 L4 L5 L6 L7 L9 L8] He [(E1 & E2 & E3) E4]. split; simpl; try done.
  - intros fd' x Hx. destruct (decide (fd' = fd)) as [->|Hn].
    + rewrite lookup_insert_eq in Hx. simplify_eq. destruct (L1 _ _ He) as (G1 & G2 & G3 & G4 & G5 & G6 & G7).
      unfold entry_ok. simpl. rewrite E1, E2, E3, E4. by split_and!.
    + rewrite lookup_insert_ne in Hx by done. by apply (L1 _ _ Hx).
  - intros g fd' Hg. destruct (L2 g fd' Hg) as (x & Hx & Hxg). destruct (decide (fd' = fd)) as [->|Hn].
    + exists e'. rewrite lookup_insert_eq. split; [done|]. rewrite E1. congruence.
    + exists x. by rewrite lookup_insert_ne.
  - intros fd' x Hx. destruct (decide (fd' = fd)) as [->|Hn]; [rewrite lookup_insert_eq; eauto|].
    rewrite lookup_insert_ne by done. by eapply L3.
  - rewrite map_size_insert, He. simpl. done.
  - destruct L6 as (content & Hw & Hp & Hd). exists content. split; [done|].
    unfold keys. simpl. by rewrite (keys_insert _ _ e e').
  - by eapply stopped_no_entry.
Qed.

(** An entry leaves with its descriptor, which is closed once. *)
Lemma lsafe_close a hs k l fd e :
  lsafe a hs k l -> sessions l !! fd = Some e ->
  lsafe a hs (k + 1) (close_fd fd 1 (l <| event_to_fd := delete (token_generation (token_ (session e))) (event_to_fd l) |>
                            <| sessions := delete fd (sessions l) |>)).
Proof.
  intros [L1 L2 L3 L4 L5 L6 L7 L9 L8] He. pose proof (L1 _ _ He) as (_ & _ & _ & Hg & _).
  split; simpl; try done.
  - intros fd' x Hx. apply lookup_delete_Some in Hx as [Hn Hx].
    destruct (L1 _ _ Hx) as (G1 & G2 & G3 & G4 & G5 & G6 & G7). unfold entry_ok. simpl.
    rewrite !lookup_delete_ne by congruence. by split_and!.
  - intros g fd' Hg'. apply lookup_delete_Some in Hg' as [Hn Hg']. destruct (L2 g fd' Hg') as (x & Hx & Hxg).
    exists x. rewrite lookup_delete_ne by congruence. done.
  - intros fd' x Hx. apply lookup_delete_Some in Hx as [Hn Hx]. rewrite lookup_delete_ne by done. by eapply L3.
  - rewrite map_size_delete, He. lia.
  - destruct L6 as (content & Hw & Hp & Hd). exists content. split; [done|]. unfold keys in *. simpl.
    rewrite (keys_delete _ _ _ He) in Hp, Hd. split; [rewrite Hp; solve_Permutation|].
    eapply submseteq_NoDup; [|exact Hd]. apply submseteq_app; [done|]. apply submseteq_app; [done|].
    by apply submseteq_cons.
  - intros Ho. specialize (L7 Ho). rewrite length_app. simpl. lia.
  - intros g Hg'. destruct (L9 g Hg') as [G1 G2]. by rewrite lookup_delete_None, G2; auto.
  - by eapply stopped_no_entry.
Qed.

(** ** Rules

    [keeps m]: [m] preserves the invariant.  [held fd e m]: so does [m] started
    while [e] is the entry of [fd]. *)

Section Rules.
Context (a hs : list Z) (k : Z).

Definition keeps {A} (m : Loop (E := E) A) : Prop := triple (lsafe a hs k) m (fun _ => lsafe a hs k).

Definition holding (fd : Z) (e : SessionEntry) (l : EventLoop E) : Prop :=
  lsafe a hs k l /\ sessions l !! fd = Some e.

Definition held {A} (fd : Z) (e : SessionEntry) (m : Loop (E := E) A) : Prop :=
  triple (holding fd e) m (fun _ => lsafe a hs k).

Lemma holding_view fd e l l' : view l' = view l -> holding fd e l -> holding fd e l'.
Proof.
  intros Hv [Hs He]. split; [by eapply lsafe_view|]. unfold view in Hv. injection Hv as _ _ E3 _ _ _ _ _ _ _. congruence.
Qed.

Lemma keeps_unseen {A} (m : Loop A) : unseen m -> keeps m.
Proof. intros Hm l Hl. eapply lsafe_view; [apply Hm|done]. Qed.

Lemma loop_keeps_bind {A B} (m : Loop A) (f : A -> Loop B) :
  keeps m -> (forall x, keeps (f x)) -> keeps (m ≫= f).
Proof. intros Hm Hf. eapply loop_triple_bind; [exact Hm|done]. Qed.

Lemma keeps_if {A} (b : bool) (m n : Loop A) : keeps m -> keeps n -> keeps (if b then m else n).
Proof. by destruct b. Qed.

Lemma held_if {A} fd e (b : bool) (m n : Loop A) : held fd e m -> held fd e n -> held fd e (if b then m else n).
Proof. by destruct b. Qed.

Lemma keeps_find {B} fd (f : option SessionEntry -> Loop B) :
  keeps (f None) -> (forall e, held fd e (f (Some e))) -> keeps (find_session fd ≫= f).
Proof.
  intros Hn Hs l Hl. unfold mbind, loop_bind, find_session, get.
  destruct (sessions l !! fd) as [e|] eqn:He; [by apply Hs|by apply Hn].
Qed.

Lemma held_keeps {A} fd e (m : Loop A) : keeps m -> held fd e m.
Proof. intros Hm l [Hl _]. by apply Hm. Qed.

Lemma held_unseen {A B} fd e (m : Loop A) (f : A -> Loop B) :
  unseen m -> (forall x, held fd e (f x)) -> held fd e (m ≫= f).
Proof.
  intros Hm Hf l Hl. unfold mbind, loop_bind. specialize (Hm l). destruct (m l) as [l' x] eqn:Em.
  apply Hf. by eapply holding_view.
Qed.

Lemma held_put {B} fd e e' (f : unit -> Loop B) :
  rearmed e e' -> held fd e' (f tt) -> held fd e (put_entry fd e' ≫= f).
Proof.
  intros Hr Hf l [Hl He]. apply Hf. split; [by eapply lsafe_put|]. simpl. by rewrite lookup_insert_eq.
Qed.

Lemma held_cancel {B} fd e e1 (f : SessionEntry -> Loop B) :
  (forall e', rearmed e1 e' -> held fd e (f e')) -> held fd e (cancelDeadline e1 ≫= f).
Proof.
  intros Hf l Hl. unfold mbind, loop_bind. destruct (cancelDeadline_spec e1 l) as [Hv Hr].
  destruct (cancelDeadline e1 l) as [l' e']. apply Hf; [done|]. by eapply holding_view.
Qed.

Lemma held_arm {B} fd e e1 kd (f : SessionEntry * bool -> Loop B) :
  (forall e' b, rearmed e1 e' -> held fd e (f (e', b))) -> held fd e (armDeadline sink e1 kd ≫= f).
Proof.
  intros Hf l Hl. unfold mbind, loop_bind. destruct (armDeadline_spec e1 kd l) as [Hv Hr].
  destruct (armDeadline sink e1 kd l) as [l' [e' b]]. apply Hf; [done|]. by eapply holding_view.
Qed.

Lemma held_find {B} fd e (f : option SessionEntry -> Loop B) :
  held fd e (f (Some e)) -> held fd e (find_session fd ≫= f).
Proof. intros Hf l [Hl He]. unfold mbind, loop_bind, find_session, get. rewrite He. by apply Hf. Qed.
End Rules.

#[local] Instance rearmed_refl : Reflexive rearmed.
Proof. by intros e. Qed.

#[local] Instance rearmed_trans : Transitive rearmed.
Proof. intros e1 e2 e3 [S1 R1] [S2 R2]. split; [by etransitivity|congruence]. Qed.

Lemma rearmed_session e s : same_conn (session e) s -> rearmed e (e <| session := s |>).
Proof. by split. Qed.

(** A release that was owed. *)
Lemma lsafe_release a hs k l :
  lsafe a hs (k + 1) l -> lsafe a hs k (release_if true l).1.
Proof.
  intros [L1 L2 L3 L4 L5 L6 L7 L9 L8]. unfold release_if, modify. simpl.
  destruct (has_observer l) eqn:Ho; split; simpl; try done; intros Ho'; [|congruence]. specialize (L7 eq_refl). lia.
Qed.

Lemma closed_view fd g (l l' : EventLoop E) :
  view l' = view ((if 0 <=? epoll_fd l then l <| epoll_set := delete fd (epoll_set l) |> else l)
                   <| event_to_fd := delete g (event_to_fd l) |>) ->
  view (close_fd fd 1 (l' <| sessions := delete fd (sessions l') |>))
  = view (close_fd fd 1 (l <| event_to_fd := delete g (event_to_fd l) |> <| sessions := delete fd (sessions l) |>)).
Proof.
  unfold view. intros Hv. injection Hv as E1 E2 E3 E4 E5 E6 E7 E8 E9 E10. simpl.
  rewrite E1, E2, E3, E4, E5, E6, E7, E8, E9, E10. destruct (0 <=? epoll_fd l); simpl; by rewrite ?delete_delete_eq.
Qed.

(** [closeSession] of a session that exists closes its descriptor once; without
    [notify] the release is left to be counted. *)
Lemma closeSession_held a hs k fd e r (notify : bool) :
  triple (holding a hs k fd e) (closeSession fd r notify)
    (fun _ => lsafe a hs (if notify then k else k + 1)).
Proof.
  intros l [Hl He]. unfold closeSession, mbind, loop_bind, find_session, get, epoll_del. rewrite He.
  set (s0 := if negb (is_closing (session e)) then _ else _).
  assert (same_conn (session e) s0) as Hc by (unfold s0; destruct (negb _); [apply beginClose_conn|done]).
  clearbody s0. unfold modify at 1 2. cbv beta iota zeta.
  set (l1 := _ <| event_to_fd := _ |>).
  destruct (cancelDeadline_spec (e <| session := s0 |>) l1) as [V1 [R1 _]].
  destruct (cancelDeadline (e <| session := s0 |>) l1) as [l2 e2]. simpl in V1, R1.
  destruct (releaseTimersForClose (session e2)) as [s2 ts] eqn:Er.
  assert (same_conn (session e2) s2) as R2.
  { unfold releaseTimersForClose in Er. by simplify_eq/=. }
  pose proof (unseen_cancel_timers ts l2) as V2. destruct (cancel_timers ts l2) as [l3 []]. simpl in V2.
  pose proof (same_conn_trans _ _ _ Hc (same_conn_trans _ _ _ R1 R2)) as (E1 & E2 & E3).
  pose proof (ls_entry _ _ _ _ Hl _ _ He) as (_ & _ & _ & _ & C1 & C2 & _).
  unfold erase_session, modify. rewrite (finalize_once s2 fd) by congruence. cbn [close_calls].
  assert (lsafe a hs (k + 1) (close_fd fd 1 (l3 <| sessions := delete fd (sessions l3) |>))) as Hf.
  { eapply lsafe_view; [|exact (lsafe_close _ _ _ _ _ _ Hl He)]. apply closed_view.
    rewrite V2, V1. subst l1. destruct Hc as (-> & _). by destruct (0 <=? epoll_fd l). }
  destruct notify; [by apply lsafe_release|exact Hf].
Qed.

Lemma keeps_close a hs k fd r : keeps a hs k (closeSession fd r true).
Proof.
  intros l Hl. destruct (sessions l !! fd) as [e|] eqn:He.
  - by apply (closeSession_held a hs k fd e r true).
  - unfold closeSession, mbind, loop_bind, find_session, get. by rewrite He.
Qed.

(** Chains of session operations that were destructed on the way. *)
Ltac conn_step :=
  match goal with
  | Hq : ?op = (?s, _) |- same_conn _ ?s => replace s with op.1 by (by rewrite Hq)
  | |- same_conn ?s ?s => reflexivity
  | |- same_conn _ (if ?b then _ else _) => destruct b
  | |- same_conn ?s (queueResponse ?s' _ _).1 => transitivity s'; [|apply queueResponse_conn]
  | |- same_conn ?s (closeAfterWrite ?s' _).1 => transitivity s'; [|apply closeAfterWrite_conn]
  | |- same_conn ?s (onPeerReadClosed ?s').1 => transitivity s'; [|apply onPeerReadClosed_conn]
  | Hq : onInput ?s' _ = Some (?s, _) |- same_conn _ ?s =>
      transitivity s'; [|exact (onInput_conn _ _ _ _ Hq)]
  | Hq : onBytesWritten ?s' _ = Some (?s, _) |- same_conn _ ?s =>
      transitivity s'; [|exact (onBytesWritten_conn _ _ _ _ Hq)]
  | Hr : rearmed _ ?e |- same_conn _ (session ?e) => etransitivity; [|exact (proj1 Hr)]
  end.
Ltac rearmed_auto :=
  lazymatch goal with |- rearmed _ _ => first [done | split; [simpl in *; by repeat conn_step | done]] end.

(** What keeps the invariant, and how to look for it. *)
Create HintDb loop_keeps.
Hint Resolve keeps_close keeps_unseen : loop_keeps.

Ltac loop_step :=
  match goal with
  | |- keeps _ _ _ (match ?x with _ => _ end) => first [is_var x; destruct x | destruct x eqn:?]
  | |- held _ _ _ _ _ (match ?x with _ => _ end) => first [is_var x; destruct x | destruct x eqn:?]
  | |- keeps _ _ _ (find_session _ ≫= _) => apply keeps_find; [|intros ?]
  | |- held _ _ _ _ _ (find_session _ ≫= _) => apply held_find
  | |- held _ _ _ _ _ (put_entry _ _ ≫= _) => apply held_put
  | |- held _ _ _ _ _ (cancelDeadline _ ≫= _) => apply held_cancel; intros ? ?
  | |- held _ _ _ _ _ (armDeadline _ _ _ ≫= _) => apply held_arm; intros ? ? ?
  | |- held _ _ _ _ _ (_ ≫= _) => apply held_unseen; [by auto with loop_unseen|intros ?]
  | |- keeps _ _ _ (_ ≫= _) => apply loop_keeps_bind; [|intros ?]
  | |- held _ _ _ _ _ _ => first [solve [eauto with loop_keeps] | apply held_keeps]
  | |- _ => progress cbv beta zeta iota
  end.
Ltac loop_auto := repeat (loop_step || rearmed_auto || by eauto with loop_keeps loop_unseen).

Lemma keeps_syncDeadline a hs k fd : keeps a hs k (syncDeadline sink fd).
Proof. unfold syncDeadline. loop_auto. Qed.

(** The kernel and the entry get a new mask together. *)
Lemma lsafe_interest a hs k l fd e mask :
  lsafe a hs k l -> sessions l !! fd = Some e ->
  lsafe a hs k (l <| epoll_set := <[fd := (mask, token_generation (token_ (session e)))]> (epoll_set l) |>
                  <| sessions := <[fd := e <| registered_events := mask |>]> (sessions l) |>).
Proof.
  intros [L1 L2 L3 L4 L5 L6 L7 L9 L8] He. split; simpl; try done.
  - intros fd' x Hx. destruct (decide (fd' = fd)) as [->|Hn].
    + rewrite lookup_insert_eq in Hx. simplify_eq. destruct (L1 _ _ He) as (G1 & G2 & G3 & G4 & G5 & G6 & G7).
      unfold entry_ok. simpl. rewrite lookup_insert_eq. by split_and!.
    + rewrite lookup_insert_ne in Hx by done. destruct (L1 _ _ Hx) as (G1 & G2 & G3 & G4 & G5 & G6 & G7).
      unfold entry_ok. simpl. rewrite lookup_insert_ne by done. by split_and!.
  - intros g fd' Hg. destruct (L2 g fd' Hg) as (x & Hx & Hxg). destruct (decide (fd' = fd)) as [->|Hn].
    + rewrite lookup_insert_eq. eexists. split; [done|]. simpl. congruence.
    + exists x. by rewrite lookup_insert_ne.
  - intros fd' x Hx. destruct (decide (fd' = fd)) as [->|Hn]; [rewrite lookup_insert_eq; eauto|].
    rewrite lookup_insert_ne in Hx by done. rewrite lookup_insert_ne by done. by eapply L3.
  - rewrite map_size_insert, He. simpl. done.
  - destruct L6 as (content & Hw & Hp & Hd). exists content. split; [done|].
    unfold keys. simpl. by rewrite (keys_insert _ _ e).
  - by eapply stopped_no_entry.
Qed.

Lemma epoll_set_to_spec fd events data (l : EventLoop E) :
  exists l', view l' = view l
    /\ epoll_set_to fd events data l
       = (if (ctl_answer l).2 then l' <| epoll_set := <[fd := (events, data)]> (epoll_set l') |> else l',
          (ctl_answer l).2).
Proof.
  exists (ctl_answer l).1. split; [apply unseen_ctl|]. unfold epoll_set_to, mbind, loop_bind.
  by destruct (ctl_answer l) as [l' []].
Qed.

Lemma keeps_modifyInterest a hs k fd : keeps a hs k (modifyInterest fd).
Proof.
  unfold modifyInterest. apply keeps_find; [loop_auto|]. intros e.
  destruct (is_closing _); [loop_auto|]. cbv zeta. destruct (_ =? _); [loop_auto|].
  intros l Hl. unfold mbind, loop_bind.
  edestruct (epoll_set_to_spec fd) as (l' & Hv & ->). pose proof (holding_view _ _ _ _ _ _ _ Hv Hl) as [Hl' He'].
  destruct (ctl_answer l).2; simpl; [by apply lsafe_interest|done].
Qed.

Hint Resolve keeps_syncDeadline keeps_modifyInterest : loop_keeps.

Lemma keeps_close_unless a hs k ok fd r : keeps a hs k (close_unless ok fd r).
Proof. unfold close_unless. loop_auto. Qed.
Hint Resolve keeps_close_unless : loop_keeps.

Lemma keeps_dispatch a hs k write token req :
  (forall fd, keeps a hs k (write fd)) -> keeps a hs k (dispatch_with sink write token req).
Proof.
  intros Hw. unfold dispatch_with, reject_request. loop_auto.
Qed.

Hint Resolve keeps_dispatch : loop_keeps.

Lemma keeps_write_loop a hs k fuel fd : keeps a hs k (write_loop sink fuel fd).
Proof.
  revert fd. induction fuel as [|fuel IH]; intros fd; [loop_auto|]. simpl.
  loop_auto.
Qed.

Lemma keeps_handleWrite a hs k fd : keeps a hs k (handleWrite sink fd).
Proof. intros l Hl. by apply keeps_write_loop. Qed.

Lemma keeps_dispatchRequest a hs k token req : keeps a hs k (dispatchRequest sink token req).
Proof. apply keeps_dispatch. intros fd. apply keeps_handleWrite. Qed.
Hint Resolve keeps_handleWrite keeps_dispatchRequest : loop_keeps.

Lemma keeps_after_input a hs k fd d : keeps a hs k (after_input sink fd d).
Proof. unfold after_input. loop_auto. Qed.
Hint Resolve keeps_after_input : loop_keeps.

Lemma keeps_read_loop a hs k fuel fd d : keeps a hs k (read_loop sink fuel fd d).
Proof.
  revert fd. induction fuel as [|fuel IH]; intros fd; [loop_auto|]. simpl. loop_auto.
Qed.

Lemma keeps_handleRead a hs k fd d : keeps a hs k (handleRead sink fd d).
Proof. intros l Hl. by apply keeps_read_loop. Qed.
Hint Resolve keeps_handleRead : loop_keeps.

Lemma held_expire a hs k fd e : held a hs k fd e (expire_business sink fd e).
Proof. unfold expire_business. loop_auto. Qed.

Hint Resolve held_expire : loop_keeps.

Lemma keeps_handleTimeoutEvent a hs k ev : keeps a hs k (handleTimeoutEvent sink ev).
Proof. unfold handleTimeoutEvent. loop_auto. Qed.
Hint Resolve keeps_handleTimeoutEvent : loop_keeps.

Lemma unseen_overdue e : unseen (business_overdue e).
Proof. unfold business_overdue. apply unseen_bind; [done|]. intros c. destruct (_ && _)%bool; auto with loop_unseen. Qed.
Hint Resolve unseen_overdue : loop_unseen.

Lemma held_apply_response a hs k token frame e :
  held a hs k (fd token) e (apply_response sink token frame e).
Proof. unfold apply_response. loop_auto. Qed.

Hint Resolve held_apply_response : loop_keeps.

Lemma keeps_applyCompletion a hs k c : keeps a hs k (applyCompletion sink c).
Proof. unfold applyCompletion. loop_auto. Qed.
Hint Resolve keeps_applyCompletion : loop_keeps.

Lemma keeps_drain_session a hs k fd : keeps a hs k (drain_session sink fd).
Proof. unfold drain_session. loop_auto. Qed.

Lemma keeps_for_each {A} a hs k (f : A -> Loop unit) xs :
  (forall x, keeps a hs k (f x)) -> keeps a hs k (for_each f xs).
Proof. intros Hf. induction xs; simpl; loop_auto. Qed.

Lemma keeps_pop_all {A} a hs k fuel (pop : Loop (option A)) handle :
  keeps a hs k pop -> (forall x, keeps a hs k (handle x)) -> keeps a hs k (pop_all fuel pop handle).
Proof. intros Hp Hh. induction fuel; simpl; loop_auto. Qed.
Hint Resolve keeps_drain_session keeps_for_each keeps_pop_all : loop_keeps.

Lemma keeps_gracefulDrain a hs k : keeps a hs k (applyGracefulDrain sink).
Proof. unfold applyGracefulDrain. loop_auto. Qed.

Lemma keeps_drainTimeouts a hs k : keeps a hs k (drainTimeoutMailbox sink).
Proof. unfold drainTimeoutMailbox. loop_auto. Qed.
Hint Resolve keeps_gracefulDrain keeps_drainTimeouts : loop_keeps.

(** *** Sockets that arrive *)

(** A socket in hand is closed. *)
Lemma lsafe_drop a hs k l fd :
  lsafe a (fd :: hs) k l -> lsafe a hs (k + 1) (close_fd fd 1 l).
Proof.
  intros [L1 L2 L3 L4 L5 L6 L7 L9 L8]. destruct L6 as (content & Hw & Hp & Hd).
  assert (sessions l !! fd = None) as Hnone.
  { apply NoDup_cons in Hd as [Hn _]. apply eq_None_not_Some. rewrite <-elem_of_keys. set_solver. }
  split; simpl; try done.
  - intros fd' x Hx. destruct (L1 _ _ Hx) as (G1 & G2 & G3 & G4 & G5 & G6 & G7). unfold entry_ok. simpl.
    rewrite lookup_delete_ne by congruence. by split_and!.
  - intros fd' x Hx. apply lookup_delete_Some in Hx as [_ Hx]. by eapply L3.
  - exists content. unfold keys in *. simpl. split_and!; [done|rewrite Hp; simpl; solve_Permutation|].
    by apply NoDup_cons in Hd as [_ Hd].
  - intros Ho. specialize (L7 Ho). rewrite length_app. simpl. lia.
Qed.

(** A socket in hand becomes a session. *)
Lemma lsafe_register a hs k l fd s mask :
  lsafe a (fd :: hs) k l -> let g := token_generation (token_ s) in
  token_ s = mkToken (config_loop_id (config_ l)) fd g ->
  0 < g -> next_generation l = 0 \/ g < next_generation l -> event_to_fd l !! g = None ->
  connection_ s = mkConnection fd 0 -> connection_closed_ s = false ->
  Z.of_nat (base.size (sessions l)) < loop_max_connections (config_ l) -> stopped l = false -> ~ dead g ->
  lsafe a hs k (l <| sessions := <[fd := mkEntry s mask 0 IdleTimeout 0 false false]> (sessions l) |>
                  <| event_to_fd := <[g := fd]> (event_to_fd l) |>
                  <| epoll_set := <[fd := (mask, g)]> (epoll_set l) |>).
Proof.
  intros [L1 L2 L3 L4 L5 L6 L7 L9 L8] g Ht Hg Hn Hf Hc Hcc Hm Hst Hnd. destruct L6 as (content & Hw & Hp & Hd).
  assert (sessions l !! fd = None) as Hnone.
  { apply NoDup_cons in Hd as [Hni _]. apply eq_None_not_Some. rewrite <-elem_of_keys. set_solver. }
  split; simpl; try done.
  - intros fd' x Hx. destruct (decide (fd' = fd)) as [->|Hne].
    + rewrite lookup_insert_eq in Hx. simplify_eq/=. unfold entry_ok. simpl. rewrite !lookup_insert_eq. by split_and!.
    + rewrite lookup_insert_ne in Hx by done. destruct (L1 _ _ Hx) as (G1 & G2 & G3 & G4 & G5 & G6 & G7).
      unfold entry_ok. simpl. rewrite !lookup_insert_ne by congruence. by split_and!.
  - intros g' fd' Hg'. destruct (decide (g' = g)) as [->|Hne].
    + rewrite lookup_insert_eq in Hg'. simplify_eq. rewrite lookup_insert_eq. eauto.
    + rewrite lookup_insert_ne in Hg' by done. destruct (L2 _ _ Hg') as (x & Hx & Hxg).
      exists x. rewrite lookup_insert_ne by congruence. done.
  - intros fd' x Hx. destruct (decide (fd' = fd)) as [->|Hne]; [rewrite lookup_insert_eq; eauto|].
    rewrite lookup_insert_ne in Hx by done. rewrite lookup_insert_ne by done. by eapply L3.
  - rewrite map_size_insert, Hnone. lia.
  - exists content. unfold keys in *. simpl. rewrite map_to_list_insert by done. simpl in *.
    split_and!; [done|rewrite Hp; solve_Permutation|]. eapply submseteq_NoDup; [|exact Hd].
    apply Permutation_submseteq. solve_Permutation.
  - intros g' Hg'. destruct (L9 g' Hg') as [G1 G2]. by rewrite lookup_insert_ne by congruence.
  - by rewrite Hst.
Qed.

Lemma drop_socket_spec a hs k fd st :
  0 <= fd ->
  triple (lsafe a (fd :: hs) k) (drop_socket fd st) (fun st' l => st' = st /\ lsafe a hs (k + 1) l).
Proof.
  intros Hfd l Hl. unfold drop_socket, mbind, loop_bind, modify. rewrite socket_reset_valid by done. simpl.
  split; [done|]. by apply lsafe_drop.
Qed.

(** [syncDeadline] does not remove the session. *)
Lemma syncDeadline_present a hs k fd e :
  triple (holding a hs k fd e) (syncDeadline sink fd) (fun _ l => exists e', holding a hs k fd e' l).
Proof.
  intros l Hl. unfold syncDeadline, mbind, loop_bind, find_session, get. destruct Hl as [Hl He]. rewrite He.
  assert (holding a hs k fd e l) as Hh by done.
  destruct (negb _); [by exists e|]. destruct (is_closing _).
  - destruct (cancelDeadline_spec e l) as [Hv Hr]. destruct (cancelDeadline e l) as [l1 e1].
    destruct (holding_view _ _ _ _ _ _ _ Hv Hh) as [Hl1 He1].
    exists e1. split; [by eapply lsafe_put|]. simpl. by rewrite lookup_insert_eq.
  - destruct (_ && _)%bool; [by exists e|].
    destruct (armDeadline_spec e (deadlineKindFor (session e)) l) as [Hv Hr].
    destruct (armDeadline _ _ _ _) as [l1 [e1 b1]]. simpl in *.
    destruct (holding_view _ _ _ _ _ _ _ Hv Hh) as [Hl1 He1].
    exists e1. split; [by eapply lsafe_put|]. simpl. by rewrite lookup_insert_eq.
Qed.

(** The end of [adopt]: registered, or closed and to be released. *)
Lemma register_session_spec a hs k fd s :
  let g := token_generation (token_ s) in
  connection_ s = mkConnection fd 0 -> connection_closed_ s = false -> 0 < g ->
  triple (fun l => lsafe a (fd :: hs) k l /\ token_ s = mkToken (config_loop_id (config_ l)) fd g
                   /\ (next_generation l = 0 \/ g < next_generation l) /\ event_to_fd l !! g = None
                   /\ Z.of_nat (base.size (sessions l)) < loop_max_connections (config_ l) /\ stopped l = false /\ ~ dead g)
    (register_session sink fd g s)
    (fun st => lsafe a hs (if bool_decide (st = EventLoopStatus.Ok) then k else k + 1)).
Proof.
  intros g Hc Hcc Hg l (Hl & Ht & Hn & Hf & Hm & Hst & Hnd).
  unfold register_session, mbind, loop_bind, put_entry, get, modify. cbn [fst snd].
  set (e := mkEntry s _ 0 IdleTimeout 0 false false). simpl. rewrite Hf.
  change (bool_decide (is_Some (None (A := Z)))) with false. cbv beta iota.
  set (l1 := l <| sessions := <[fd := e]> (sessions l) |> <| event_to_fd := <[g := fd]> (event_to_fd l) |>).
  change (l <| sessions := _ |> <| event_to_fd := _ |>) with l1.
  edestruct (epoll_set_to_spec fd (registered_events e) g l1) as (l2 & Hv & Hs). simpl in Hs. rewrite Hs. clear Hs.
  destruct (ctl_answer l1).2; cbn [negb].
  - assert (holding a hs k fd e (l2 <| epoll_set := <[fd := (registered_events e, g)]> (epoll_set l2) |>)) as Hh.
    { eapply (holding_view _ _ _ _ _
        (l1 <| epoll_set := <[fd := (registered_events e, g)]> (epoll_set l1) |>)).
      { unfold view in *. injection Hv as E1 E2 E3 E4 E5 E6 E7 E8 E9 E10. simpl in *.
        by rewrite E1, E2, E3, E4, E5, E6, E7, E8, E9, E10. }
      split; [|simpl; by rewrite lookup_insert_eq]. by apply (lsafe_register a hs k l fd s). }
    pose proof (syncDeadline_present _ _ _ _ _ _ Hh) as [e' Hh'].
    destruct (syncDeadline sink fd _) as [l3 b]. simpl in Hh'. destruct b; cbn [negb]; [apply Hh'|].
    pose proof (closeSession_held _ _ _ _ _ SessionCloseReason.ResourceExhausted false _ Hh') as Hc'.
    by destruct (closeSession _ _ _ _) as [l4 []].
  - unfold erase_session, modify. simpl. rewrite (destroy_once s fd) by done. cbn [close_calls].
    eapply lsafe_view; [|exact (lsafe_drop _ _ _ _ _ Hl)].
    assert (sessions l !! fd = None) as Hnone.
    { destruct (ls_own _ _ _ _ Hl) as (content & _ & _ & Hd). apply NoDup_cons in Hd as [Hni _].
      apply eq_None_not_Some. rewrite <-elem_of_keys. set_solver. }
    unfold view in *. injection Hv as E1 E2 E3 E4 E5 E6 E7 E8 E9 E10. simpl in *.
    rewrite E1, E2, E3, E4, E5, E6, E7, E8, E9, E10, !delete_insert_id by done. done.
Qed.

Lemma allocateGeneration_spec a hs k l :
  lsafe a hs k l ->
  match allocateGeneration l with
  | (l', None) => l' = l
  | (l', Some g) =>
      lsafe a hs k l' /\ 0 < g /\ (next_generation l' = 0 \/ g < next_generation l')
      /\ event_to_fd l' !! g = None /\ config_ l' = config_ l /\ sessions l' = sessions l
      /\ stopped l' = stopped l /\ ~ dead g
  end.
Proof.
  intros [L1 L2 L3 L4 L5 L6 L7 L9 L8]. unfold allocateGeneration. destruct (Z.eqb_spec (next_generation l) 0) as [|Hz]; [done|].
  assert (Hnext : let n := if next_generation l =? u64_max then 0 else next_generation l ⊕ 1 in
    0 <= n < two64 /\ (n = 0 \/ next_generation l < n)).
  { cbv zeta. destruct (Z.eqb_spec (next_generation l) u64_max) as [|Hm]; [lia|].
    unfold u64_max in *. rewrite wrap64_small by (unfold is_u64; lia). lia. }
  simpl in Hnext. simpl. split_and!; try done; try lia.
  - split; simpl; try done; [|lia|intros g Hg; destruct (L9 g Hg) as [[|] ?]; [done|split; [lia|done]]].
    intros fd e He. destruct (L1 _ _ He) as (G1 & G2 & G3 & G4 & G5 & G6 & G7).
    unfold entry_ok. simpl. split_and!; try done. destruct G3; [done|lia].
  - apply eq_None_not_Some. intros [fd Hg]. destruct (L2 _ _ Hg) as (e & He & Hge).
    destruct (L1 _ _ He) as (_ & _ & [G3|G3] & _); [done|lia].
  - intros Hg. destruct (L9 _ Hg) as [[|] _]; [done|lia].
Qed.

(** A socket in hand is adopted, or closed and to be released. *)
Lemma adopt_spec a hs k fd :
  0 <= fd ->
  triple (lsafe a (fd :: hs) k) (adopt sink true fd)
    (fun st => lsafe a hs (if bool_decide (st = EventLoopStatus.Ok) then k else k + 1)).
Proof.
  intros Hfd l Hl. unfold adopt, mbind, loop_bind, find_session, get. cbn [negb]. cbv beta iota.
  assert (Hdrop : forall st l', st <> EventLoopStatus.Ok -> lsafe a (fd :: hs) k l' ->
    lsafe a hs (if bool_decide ((drop_socket fd st l').2 = EventLoopStatus.Ok) then k else k + 1)
      (drop_socket fd st l').1).
  { intros st l' Hst Hl'. destruct (drop_socket_spec a hs k fd st Hfd l' Hl') as [-> Hs].
    by rewrite bool_decide_false. }
  destruct (stopped l) eqn:Es; [by apply Hdrop|]. unfold socket_valid. destruct (Z.leb_spec 0 fd); [|lia]. cbn [negb].
  destruct (sessions l !! fd); [by apply Hdrop|].
  destruct (Z.leb_spec (loop_max_connections (config_ l)) (Z.of_nat (base.size (sessions l)))); [by apply Hdrop|].
  pose proof (allocateGeneration_spec a (fd :: hs) k l Hl) as Ha.
  destruct (allocateGeneration l) as [l1 [g|]]; [|subst l1; by apply Hdrop].
  destruct Ha as (Hl1 & Hg & Hn & He & Hc & Hs & Hst & Hnd). unfold make_session. destruct (_ || _)%bool.
  - simpl. by apply lsafe_drop.
  - apply (register_session_spec a hs k fd); simpl; try done. by rewrite Hc, Hs, Hst.
Qed.

Lemma keeps_adopt_accepted a hs k fd :
  0 <= fd -> triple (lsafe a (fd :: hs) k) (adopt_accepted sink fd) (fun _ => lsafe a hs k).
Proof.
  intros Hfd l Hl. unfold adopt_accepted, mbind, loop_bind. pose proof (adopt_spec a hs k fd Hfd l Hl) as Ha.
  destruct (adopt sink true fd l) as [l1 st]. simpl in Ha. case_bool_decide; [exact Ha|by apply lsafe_release].
Qed.

Lemma pop_connection_spec a hs k :
  triple (lsafe a hs k) pop_connection
    (fun x l => match x with None => lsafe a hs k l | Some fd => 0 <= fd /\ lsafe a (fd :: hs) k l end).
Proof.
  intros l Hl. unfold pop_connection. destruct (connection_mailbox l) as [m|] eqn:Em; [|done].
  destruct Hl as [L1 L2 L3 L4 L5 L6 L7 L9 L8]. destruct L6 as (content & Hw & Hp & Hd). rewrite Em in Hw.
  destruct Hw as [R Hf]. unfold connection_tryPop. rewrite (ring_size_zero _ _ R).
  destruct content as [|x content]; simpl.
  - split; simpl; try done; [by exists []|]. by rewrite Em in L8.
  - destruct (ring_pop_repr _ _ _ R) as [Rp Ep]. destruct (ring_pop (cm_queue m)) as [q s]. simpl in *. subst s.
    apply Forall_cons in Hf as [Hx Hf]. split; [done|]. split; simpl; try done.
    2: { intros Hs. destruct (L8 Hs) as [_ Hdr]. rewrite Em in Hdr. destruct Hdr as [_ R0].
         pose proof (ring_contents_repr _ _ R). pose proof (ring_contents_repr _ _ R0). congruence. }
    exists content. simpl.
    assert (hs ++ x :: content ++ keys l ≡ₚ x :: hs ++ content ++ keys l) as Hm by solve_Permutation.
    split; [done|]. split; [rewrite Hp; unfold keys; simpl; solve_Permutation|]. change (NoDup (x :: hs ++ content ++ keys l)).
    by rewrite <-Hm.
Qed.

Lemma keeps_adopt_all a hs k fuel : keeps a hs k (pop_all fuel pop_connection (adopt_accepted sink)).
Proof.
  induction fuel as [|fuel IH]; simpl; [loop_auto|]. eapply loop_triple_bind; [apply pop_connection_spec|].
  intros [fd|]; [|by intros l Hl]. intros l [Hfd Hl].
  exact (loop_triple_bind _ _ _ _ _ (keeps_adopt_accepted a hs k fd Hfd) (fun _ => IH) l Hl).
Qed.
Hint Resolve keeps_adopt_all : loop_keeps.

Lemma keeps_drainMailboxes a hs k : keeps a hs k (drainMailboxes sink).
Proof. unfold drainMailboxes. loop_auto. Qed.
Hint Resolve keeps_drainMailboxes : loop_keeps.

Lemma keeps_handleSocketEvent a hs k g mask : keeps a hs k (handleSocketEvent sink g mask).
Proof. unfold handleSocketEvent. loop_auto. Qed.
Hint Resolve keeps_handleSocketEvent : loop_keeps.

Lemma keeps_handle_events a hs k events : keeps a hs k (handle_events sink events).
Proof. induction events as [|[d m] events IH]; simpl; loop_auto. Qed.
Hint Resolve keeps_handle_events : loop_keeps.

Lemma keeps_pollOnce a hs k owner t ready : keeps a hs k (pollOnce sink owner t ready).
Proof. unfold pollOnce. loop_auto. Qed.

(** *** Shutdown *)

Lemma closeSession_effect fd r n (l : EventLoop E) :
  let l' := (closeSession fd r n l).1 in
  sessions l' = delete fd (sessions l) /\ connection_mailbox l' = connection_mailbox l.
Proof.
  unfold closeSession, mbind, loop_bind, find_session, get, epoll_del, modify.
  destruct (sessions l !! fd) as [e|] eqn:He; [|simpl; by rewrite delete_id].
  set (s0 := if negb (is_closing (session e)) then _ else _). cbv beta iota zeta.
  set (l1 := _ <| event_to_fd := _ |>).
  assert (sessions l1 = sessions l /\ connection_mailbox l1 = connection_mailbox l) as [A1 A2]
    by (subst l1; by destruct (0 <=? epoll_fd l)).
  clearbody l1. destruct (cancelDeadline_spec (e <| session := s0 |>) l1) as [V1 _].
  destruct (cancelDeadline (e <| session := s0 |>) l1) as [l2 e2].
  destruct (releaseTimersForClose (session e2)) as [s2 ts].
  pose proof (unseen_cancel_timers ts l2) as V2. destruct (cancel_timers ts l2) as [l3 []]. cbn [fst] in V1, V2.
  unfold view in *. injection V1 as _ F2 F3 _ _ _ _ _ _ _. injection V2 as _ G2 G3 _ _ _ _ _ _ _.
  unfold erase_session, release_if, modify, close_fd. cbn [fst snd].
  destruct (n && _)%bool; simpl; split; congruence.
Qed.

Lemma connection_close_count content q d cl :
  ring_repr q content -> Forall (fun fd => 0 <= fd) content -> 0 <= d -> d + size_of content < two64 ->
  (connection_close_loop (length content) q d cl).1.2 = d + size_of content.
Proof.
  revert q d cl. induction content as [|x content IH]; intros q d cl R Hf Hd Hs; [rewrite size_of_nil; simpl; lia|].
  rewrite size_of_cons in *. apply Forall_cons in Hf as [_ Hf]. cbn [length connection_close_loop].
  rewrite (ring_size_zero _ _ R). destruct (ring_pop_repr _ _ _ R) as [Rp Ep].
  destruct (ring_pop q) as [q1 sk]. simpl in *. pose proof (size_of_nonneg content).
  rewrite wrap64_small by (unfold is_u64; lia). rewrite IH by (done || lia). lia.
Qed.

(** Closing the mailbox closes what waits in it. *)
Lemma connection_close_spec m content :
  ring_repr (cm_queue m) content -> Forall (fun fd => 0 <= fd) content ->
  exists m', connection_close m = (m', size_of content, content) /\ cm_accepting m' = false /\ ring_repr (cm_queue m') [].
Proof.
  intros R Hf. unfold connection_close.
  assert (Z.to_nat (Ring.size (cm_queue m)) = length content) as ->
    by (rewrite (rr_size _ _ R); unfold size_of; lia).
  pose proof (connection_close_loop_spec content (cm_queue m) 0 [] R Hf) as Hcl.
  pose proof (connection_close_count content (cm_queue m) 0 [] R Hf) as Hct.
  destruct (connection_close_loop _ _ _ _) as [[q' d'] cl']. destruct Hcl as (R' & Ec & ->). simpl in Hct.
  pose proof (rr_fits _ _ R). pose proof (rr_capacity _ _ R). rewrite Hct by lia.
  eexists. split; [reflexivity|]. simpl. by rewrite (ring_empty_tail _ R').
Qed.

Lemma lsafe_drop_all a hs cs : forall k l,
  lsafe a (cs ++ hs) k l -> lsafe a hs (k + size_of cs) (foldl (fun l fd => close_fd fd 1 l) l cs).
Proof.
  induction cs as [|c cs IH]; intros k l Hl; simpl; [by rewrite size_of_nil, Z.add_0_r|].
  apply (lsafe_drop a (cs ++ hs)) in Hl. apply IH in Hl. rewrite size_of_cons.
  by replace (k + (1 + size_of cs)) with (k + 1 + size_of cs) by lia.
Qed.

Lemma drop_all_mailbox cs : forall l : EventLoop E,
  connection_mailbox (foldl (fun l fd => close_fd fd 1 l) l cs) = connection_mailbox l.
Proof. induction cs as [|c cs IH]; intros l; simpl; [done|]. by rewrite IH. Qed.

Lemma close_connections_spec a :
  triple (lsafe a [] 0) close_connections (fun _ l => lsafe a [] 0 l /\ drained (connection_mailbox l)).
Proof.
  intros l Hl. unfold close_connections. destruct (connection_mailbox l) as [m|] eqn:Em; [|simpl; by rewrite Em].
  destruct (ls_own _ _ _ _ Hl) as (content & Hw & Hp & Hd). rewrite Em in Hw. destruct Hw as [R Hf].
  destruct (connection_close_spec m content R Hf) as (m' & -> & Hacc & R').
  assert (lsafe a (content ++ []) 0 (l <| connection_mailbox := Some m' |>)) as Hc.
  { destruct Hl as [L1 L2 L3 L4 L5 _ L7 L9 L8]. split; simpl; try done.
    - exists []. rewrite app_nil_r. simpl. by split_and!.
    - intros Hs. by destruct (L8 Hs). }
  apply lsafe_drop_all in Hc. set (l1 := foldl _ _ _) in *.
  assert (connection_mailbox l1 = Some m') as E1 by (subst l1; by rewrite drop_all_mailbox).
  clearbody l1. destruct Hc as [L1 L2 L3 L4 L5 L6 L7 L9 L8].
  destruct (has_observer l1) eqn:Ho; (split; [|simpl; by rewrite E1]); split; simpl; try done; intros Ho'; [|congruence].
  specialize (L7 eq_refl). lia.
Qed.

Lemma close_all_spec a fuel :
  triple (fun l => lsafe a [] 0 l /\ drained (connection_mailbox l) /\ (base.size (sessions l) < fuel)%nat)
    (close_all fuel) (fun _ l => lsafe a [] 0 l /\ drained (connection_mailbox l) /\ sessions l = ∅).
Proof.
  induction fuel as [|fuel IH]; intros l (Hl & Hd & Hs); [lia|].
  cbn [close_all]. unfold mbind, loop_bind, get.
  destruct (map_to_list (sessions l)) as [|[fd e] rest] eqn:Em; simpl.
  - by apply map_to_list_empty_iff in Em.
  - assert (sessions l !! fd = Some e) as He.
    { apply elem_of_map_to_list. rewrite Em. by left. }
    pose proof (keeps_close a [] 0 fd SessionCloseReason.LocalShutdown l Hl) as Hk.
    destruct (closeSession_effect fd SessionCloseReason.LocalShutdown true l) as [E1 E2].
    destruct (closeSession _ _ _ _) as [l1 []]. simpl in *. apply IH. split_and!; [done|congruence|].
    rewrite E1, map_size_delete, He. apply mk_is_Some, map_size_ne_0_lookup_2 in He. lia.
Qed.

(** After [forceShutdown] the loop holds nothing. *)
Lemma forceShutdown_spec a :
  triple (lsafe a [] 0) forceShutdown (fun _ l => lsafe a [] 0 l /\ stopped l = true).
Proof.
  intros l Hl. unfold forceShutdown, mbind, loop_bind, get, modify.
  destruct (stopped l && _)%bool eqn:Es; [by apply andb_true_iff in Es as [Es _]|].
  set (l1 := l <| router_bound := _ |> <| completion_mailbox := _ |> <| timeout_mailbox := _ |>).
  assert (lsafe a [] 0 l1) as Hl1 by by apply (lsafe_view a [] 0 l).
  destruct (close_connections_spec a l1 Hl1) as [Hl2 Hd2]. destruct (close_connections l1) as [l2 []]. cbn [fst snd] in Hl2, Hd2. cbv beta iota zeta.
  destruct (close_all_spec a (S (base.size (sessions l2))) l2) as (Hl3 & Hd3 & Hs3); [split_and!; try done; lia|].
  destruct (close_all _ l2) as [l3 []]. simpl in *. split; [|done].
  destruct Hl3 as [L1 L2 L3 L4 L5 L6 L7 L9 L8]. split; simpl; try done.
  intros fd e He. by rewrite Hs3, lookup_empty in He.
Qed.
End Safety.

(** ** Runs of a loop *)

Section Runs.
Context {E : Type} `{ITimerScheduler E} (sink : Z).

(** The sockets given to the loop so far, and the loop.  A socket comes through
    the connection mailbox; the kernel only hands out descriptors that are not
    open.  Another thread may close the mailbox: it then closes what waits there
    and the loop is no longer responsible for it.  Completions and timer events come from other threads, the timer
    service and the environment may become anything between two calls. *)
Inductive lstep : list Z * EventLoop E -> list Z * EventLoop E -> Prop :=
| step_connect a l m socket writes m' posted closed :
    connection_mailbox l = Some m -> socket ∉ keys l -> socket ∉ ring_contents (cm_queue m) ->
    connection_tryPost m socket writes = Some (m', posted, closed) ->
    lstep (a, l) (if (posted : bool) then a ++ [socket] else a, l <| connection_mailbox := Some m' |>)
| step_discard a a' l m m' discarded closed :
    connection_mailbox l = Some m -> connection_close m = (m', discarded, closed) -> a ≡ₚ a' ++ closed ->
    lstep (a, l) (a', l <| connection_mailbox := Some m' |>)
| step_complete a l c writes m posted :
    loop_tryPost (completion_mailbox l) c writes = Some (m, posted) ->
    lstep (a, l) (a, l <| completion_mailbox := m |>)
| step_timeout a l m ev writes m' posted :
    timeout_mailbox l = Some m -> timeout_tryPost m ev writes = Some (m', posted) ->
    lstep (a, l) (a, l <| timeout_mailbox := Some m' |>)
| step_service a l e : lstep (a, l) (a, l <| scheduler := e |>)
| step_environment a l answers : lstep (a, l) (a, l <| env := answers |>)
| step_poll a l owner timeout_ms ready :
    lstep (a, l) (a, (pollOnce sink owner timeout_ms ready l).1)
| step_shutdown a l owner : lstep (a, l) (a, (shutdown owner l).1).

(** A loop as its constructor leaves it. *)
Definition fresh_loop (l : EventLoop E) : Prop :=
  exists config e observer bound epoll completions connections timeouts registered answers,
    make_loop config e observer bound epoll completions connections timeouts registered answers = Ok l
    /\ match connections with
       | None => True
       | Some m => exists capacity fd, is_u64 capacity /\ make_connection_mailbox capacity fd = Ok m
       end.

Definition reachable_loop (x : list Z * EventLoop E) : Prop :=
  exists l0, fresh_loop l0 /\ rtc lstep ([], l0) x.

Lemma fresh_safe l : fresh_loop l -> lsafe (fun _ => False) [] [] 0 l.
Proof.
  intros (config & e & observer & bound & epoll & completions & connections & timeouts & registered & answers & Hl & Hm).
  unfold make_loop in Hl. destruct (checkedEventLoopConfig config) as [c|]; [|done]. cbn in Hl.
  destruct (negb bound); [done|]. destruct (epoll <? 0); [done|]. destruct (negb _); [done|].
  destruct (_ && _)%bool; [done|]. destruct (_ && _)%bool; [done|]. injection Hl as <-. split; simpl; try done.
  - rewrite map_size_empty. lia.
  - exists []. unfold keys. simpl. rewrite map_to_list_empty. split_and!; try done; [|by constructor].
    destruct connections as [m|]; [|done]. destruct Hm as (capacity & fd & Hc & Hm). unfold make_connection_mailbox in Hm.
    destruct (Z.eqb_spec capacity 0); [done|]. destruct (fd <? 0); [done|]. simplify_eq. simpl. split; [|done].
    apply ring_make_repr. unfold is_u64 in Hc. lia.
Qed.

Lemma post_safe dead a (l : EventLoop E) m socket writes m' posted closed :
  lsafe dead a [] 0 l -> connection_mailbox l = Some m -> socket ∉ keys l ->
  socket ∉ ring_contents (cm_queue m) ->
  connection_tryPost m socket writes = Some (m', posted, closed) ->
  lsafe dead (if posted then a ++ [socket] else a) [] 0 (l <| connection_mailbox := Some m' |>).
Proof.
  intros Hl Em Hk Hq Hp. assert (l <| connection_mailbox := Some m |> = l) as Heta by (destruct l; simpl in *; by rewrite Em).
  destruct Hl as [L1 L2 L3 L4 L5 L6 L7 L9 L8]. destruct L6 as (content & Hw & Hpm & Hd). rewrite Em in Hw, L8.
  destruct Hw as [R Hf]. rewrite (ring_contents_repr _ _ R) in Hq.
  assert (lsafe dead a [] 0 (l <| connection_mailbox := Some m |>)) as Hsame.
  { rewrite Heta. split; try done; [|by rewrite Em]. exists content. rewrite Em. by split_and!. }
  unfold connection_tryPost, socket_valid in Hp. destruct (Z.leb_spec 0 socket); [|by simplify_eq/=].
  destruct (cm_accepting m) eqn:Ea; [|by simplify_eq/=]. rewrite (ring_full _ _ R) in Hp.
  destruct (Z.ltb_spec (size_of content) (ring_capacity (cm_queue m))) as [Hroom|]; [|by simplify_eq/=]. simpl in Hp.
  destruct (signalWakeFd writes) as [[]|]; simplify_eq; simpl.
  - split; simpl; try done; [|intros Hs; destruct (L8 Hs) as [_ [? _]]; congruence]. exists (content ++ [socket]). simpl.
    unfold keys in *. simpl in *. split_and!; [by apply ring_push_repr|apply Forall_app; by split; [|constructor]| |].
    + rewrite Hpm. solve_Permutation.
    + assert ((content ++ [socket]) ++ (map_to_list (sessions l)).*1 ≡ₚ socket :: content ++ (map_to_list (sessions l)).*1)
        as -> by solve_Permutation. apply NoDup_cons. split; [|done]. by rewrite elem_of_app; intros [].
  - rewrite (ring_unpush_push _ _ _ R Hroom). by destruct m.
Qed.

Lemma discard_safe dead a a' (l : EventLoop E) m m' discarded closed :
  lsafe dead a [] 0 l -> connection_mailbox l = Some m -> connection_close m = (m', discarded, closed) ->
  a ≡ₚ a' ++ closed -> lsafe dead a' [] 0 (l <| connection_mailbox := Some m' |>).
Proof.
  intros [L1 L2 L3 L4 L5 L6 L7 L9 L8] Em Hc Ha. destruct L6 as (content & Hw & Hp & Hd). rewrite Em in Hw.
  destruct Hw as [R Hf]. destruct (connection_close_spec m content R Hf) as (m1 & E1 & Hacc & R').
  rewrite E1 in Hc. simplify_eq. split; simpl; try done.
  - exists []. split; [done|]. unfold keys in *. simpl in *. split.
    + apply (Permutation_app_inv_r closed). rewrite <-Ha, Hp. solve_Permutation.
    + by apply NoDup_app in Hd as (_ & _ & Hd).
  - intros Hs. by destruct (L8 Hs).
Qed.

Lemma lstep_safe dead x y : lstep x y -> lsafe dead x.1 [] 0 x.2 -> lsafe dead y.1 [] 0 y.2.
Proof.
  intros Hs Hl. destruct Hs; simpl in *; try (eapply lsafe_view; [|exact Hl]; done).
  - by eapply post_safe.
  - by eapply discard_safe.
  - by apply keeps_pollOnce.
  - unfold shutdown, mbind, loop_bind. destruct owner; [|done]. simpl.
    pose proof (forceShutdown_spec dead a l Hl) as [Hf _]. by destruct (forceShutdown l).
Qed.

Lemma lsteps_safe dead x y : rtc lstep x y -> lsafe dead x.1 [] 0 x.2 -> lsafe dead y.1 [] 0 y.2.
Proof. induction 1 as [|x y z Hxy _ IH]; [done|]. intros Hx. by apply IH, (lstep_safe _ _ _ Hxy). Qed.

Lemma reachable_safe a l : reachable_loop (a, l) -> lsafe (fun _ => False) a [] 0 l.
Proof. intros (l0 & Hf & Hr). by apply (lsteps_safe _ _ _ Hr), fresh_safe. Qed.

(** The sockets that the connection mailbox holds. *)
Definition queued_sockets (l : EventLoop E) : list Z :=
  from_option (fun m => ring_contents (cm_queue m)) [] (connection_mailbox l).

Lemma waiting_queued (l : EventLoop E) content : waiting (connection_mailbox l) content -> queued_sockets l = content.
Proof.
  unfold queued_sockets, waiting. destruct (connection_mailbox l); simpl; [|done].
  intros [R _]. by apply ring_contents_repr.
Qed.

(** C5. The loop never loses nor closes a connection twice.  After any run,
    every socket that the loop is responsible for is waiting in its mailbox, served by a
    session, or closed, exactly once; the open ones are distinct, the release
    observer was called exactly once per closed connection, and there are at
    most [max_connections] sessions. *)
Theorem loop_owns_connections accepted l :
  reachable_loop (accepted, l) ->
  accepted ≡ₚ queued_sockets l ++ keys l ++ closed_fds l
  /\ NoDup (queued_sockets l ++ keys l)
  /\ (has_observer l = true -> released l = Z.of_nat (length (closed_fds l)))
  /\ Z.of_nat (base.size (sessions l)) <= Z.max 0 (loop_max_connections (config_ l)).
Proof.
  intros [_ _ _ _ L5 L6 L7 _ _]%reachable_safe. destruct L6 as (content & Hw & Hp & Hd).
  rewrite (waiting_queued l content Hw). split_and!; try done. intros Ho. specialize (L7 Ho). lia.
Qed.

(** C6. Registrations are exact.  After any run the kernel's epoll set is the
    map of the sessions to their registered mask and generation, the index of
    generations is the inverse of the sessions' generations, and the token of a
    session names its loop, its descriptor and a generation already issued. *)
Theorem loop_registrations_exact accepted l :
  reachable_loop (accepted, l) ->
  epoll_set l = (fun e => (registered_events e, token_generation (token_ (session e)))) <$> sessions l
  /\ (forall g fd, event_to_fd l !! g = Some fd <->
        exists e, sessions l !! fd = Some e /\ token_generation (token_ (session e)) = g)
  /\ (forall fd e, sessions l !! fd = Some e ->
        exists g, token_ (session e) = mkToken (config_loop_id (config_ l)) fd g
                  /\ 0 < g /\ (next_generation l = 0 \/ g < next_generation l)).
Proof.
  intros [L1 L2 L3 _ _ _ _ _ _]%reachable_safe. split_and!.
  - apply map_eq. intros fd. rewrite lookup_fmap. destruct (sessions l !! fd) as [e|] eqn:He; simpl.
    + by destruct (L1 _ _ He) as (_ & _ & _ & _ & _ & _ & ->).
    + destruct (epoll_set l !! fd) eqn:Hx; [|done]. apply L3 in Hx as [e He']. congruence.
  - intros g fd. split; [apply L2|]. intros (e & He & <-). by destruct (L1 _ _ He) as (_ & _ & _ & ? & _).
  - intros fd e He. destruct (L1 _ _ He) as (G1 & G2 & G3 & _). by eexists.
Qed.

(** C8. Shutdown gives everything back.  From every reachable state [shutdown]
    on the owner thread ends with every accepted socket closed exactly once, no
    session, registration or index entry left, one release per accepted
    socket, and a mailbox that refuses further sockets. *)
Theorem loop_shutdown_releases_all accepted l :
  reachable_loop (accepted, l) ->
  let l' := (shutdown true l).1 in
  (shutdown true l).2 = EventLoopStatus.Ok /\ stopped l' = true
  /\ closed_fds l' ≡ₚ accepted /\ sessions l' = ∅ /\ event_to_fd l' = ∅ /\ epoll_set l' = ∅
  /\ (has_observer l' = true -> released l' = Z.of_nat (length accepted))
  /\ match connection_mailbox l' with None => True | Some m => cm_accepting m = false end.
Proof.
  intros Hl%reachable_safe. unfold shutdown, mbind, loop_bind. simpl.
  pose proof (forceShutdown_spec _ _ _ Hl) as [[L1 L2 L3 _ _ L6 L7 _ L8] Hs].
  destruct (forceShutdown l) as [l1 []]. simpl in *. destruct (L8 Hs) as [He Hd].
  destruct L6 as (content & Hw & Hp & _).
  assert (content = []) as ->.
  { destruct (connection_mailbox l1); [|done]. destruct Hw as [R _], Hd as [_ R'].
    by rewrite <-(ring_contents_repr _ _ R), <-(ring_contents_repr _ _ R'). }
  unfold keys in Hp. rewrite He, map_to_list_empty in Hp. simpl in Hp. split_and!; try done.
  - apply map_empty. intros g. destruct (event_to_fd l1 !! g) as [fd|] eqn:Hg; [|done].
    apply L2 in Hg as (e & Hx & _). by rewrite He, lookup_empty in Hx.
  - apply map_empty. intros fd. destruct (epoll_set l1 !! fd) eqn:Hx; [|done].
    apply L3 in Hx as [e Hx]. by rewrite He, lookup_empty in Hx.
  - intros Ho. specialize (L7 Ho). rewrite Hp. lia.
  - destruct (connection_mailbox l1); [|done]. apply Hd.
Qed.

(** What arrives for a session that is gone. *)
Lemma stale_ignored (l : EventLoop E) a hs k g :
  lsafe (fun g' => g' = g) a hs k l ->
  (forall c, token_generation (completion_token c) = g -> applyCompletion sink c l = (l, tt))
  /\ (forall ev, target_generation ev = g -> handleTimeoutEvent sink ev l = (l, tt))
  /\ (forall mask, handleSocketEvent sink g mask l = (l, tt)).
Proof.
  intros [L1 _ _ _ _ _ _ L9 _]. destruct (L9 g eq_refl) as [_ Hg].
  assert (forall fd e, sessions l !! fd = Some e -> token_generation (token_ (session e)) <> g) as Hne.
  { intros fd e He Heq. destruct (L1 _ _ He) as (_ & _ & _ & G4 & _). congruence. }
  split_and!.
  - intros c Hc. unfold applyCompletion, mbind, loop_bind, find_session, get. simpl.
    destruct (sessions l !! fd (completion_token c)) as [e|] eqn:He; [|done]. specialize (Hne _ _ He).
    unfold session_matches. rewrite bool_decide_false by (intros Ht; rewrite Ht in Hne; congruence). done.
  - intros ev Hev. unfold handleTimeoutEvent, mbind, loop_bind, find_session, get. simpl.
    destruct (sessions l !! target_fd ev) as [e|] eqn:He; [|done]. specialize (Hne _ _ He).
    unfold timeout_current. destruct (Z.eqb_spec (target_generation ev) (token_generation (token_ (session e)))); [congruence|].
    simpl. by rewrite !orb_true_r.
  - intros mask. unfold handleSocketEvent, mbind, loop_bind, get. by rewrite Hg.
Qed.

(** C7. A token whose session was closed is dead for ever.  Once a generation
    that was issued has no session, then after every further run, also when its
    descriptor is reused, a completion, a timer event or a socket event that
    carries it leaves the loop unchanged. *)
Theorem closed_tokens_stay_dead accepted l accepted' l' g :
  reachable_loop (accepted, l) -> (next_generation l = 0 \/ g < next_generation l) ->
  event_to_fd l !! g = None -> rtc lstep (accepted, l) (accepted', l') ->
  (forall c, token_generation (completion_token c) = g -> applyCompletion sink c l' = (l', tt))
  /\ (forall ev, target_generation ev = g -> handleTimeoutEvent sink ev l' = (l', tt))
  /\ (forall mask, handleSocketEvent sink g mask l' = (l', tt)).
Proof.
  intros [L1 L2 L3 L4 L5 L6 L7 _ L8]%reachable_safe Hn Hg Hr.
  apply (stale_ignored _ accepted' [] 0). apply (lsteps_safe _ _ _ Hr). by split; try done; intros ? ->.
Qed.
End Runs.

(** ** A sample run: a connection is served and hung up, its descriptor reused *)

Module LoopSample.
Definition config : EventLoopConfig :=
  mkEventLoop 3 4 16 64 8 8192 1028 [] [] (mkDeadlines false 0 0 0 0) (mkSessionConfig 1024 2048 4096 2048 4096).
Definition completions : LoopMailbox := mkLoopMailbox (ring_make 8) 5 0 8192 1028 true.
Definition connections : ConnectionMailbox := mkConnectionMailbox (ring_make 4) 6 true.
Definition timeouts : TimeoutMailbox := mkTimeoutMailbox (ring_make 4) 8 true false.
Definition no_answers : LoopEnv := mkLoopEnv [] [] [] [] [] [] [] [].

Definition start : EventLoop TimerService :=
  mkLoop config completions None (Some connections) idle_service ∅ ∅ 1 4 true false true no_answers ∅ [] 0 [].

(** A socket arrives and the next poll adopts it. *)
Definition with_socket (l : EventLoop TimerService) (socket : Z) : EventLoop TimerService :=
  l <| connection_mailbox := (fun m => from_option (fun r => r.1.1) m (connection_tryPost m socket [IoBytes 8]))
                               <$> connection_mailbox l |>.
Definition adopting : LoopEnv := mkLoopEnv [] [] [true] [] [] [] [] [true; true].
Definition polled (answers : LoopEnv) (events : list (Z * Z)) (l : EventLoop TimerService) : EventLoop TimerService :=
  (pollOnce 0 true 0 (Some events) (l <| env := answers |>)).1.

Definition serving := polled adopting [(0, EPOLLIN)] (with_socket start 7).
Definition hung_up := polled (mkLoopEnv [] [] [] [Some 0] [] [] [] []) [(1, EPOLLHUP)] serving.
Definition reused := polled adopting [(0, EPOLLIN)] (with_socket hung_up 7).
End LoopSample.

Example sample_loop_run :
  (keys LoopSample.serving, closed_fds LoopSample.hung_up, keys LoopSample.reused, event_to_fd LoopSample.reused !! 2)
  = ([7], [7], [7], Some 7).
Proof. vm_compute. reflexivity. Qed.

Lemma with_socket_step a l m socket :
  connection_mailbox l = Some m -> bool_decide (socket ∉ keys l) = true ->
  bool_decide (socket ∉ ring_contents (cm_queue m)) = true ->
  (from_option (fun r => r.1.2) false (connection_tryPost m socket [IoBytes 8])) = true ->
  rtc (lstep 0) (a, l) (a ++ [socket], LoopSample.with_socket l socket).
Proof.
  intros Em Hk%bool_decide_eq_true Hq%bool_decide_eq_true Hp. apply rtc_once.
  destruct (connection_tryPost m socket [IoBytes 8]) as [[[m' []] closed]|] eqn:Ep; [|done|done].
  unfold LoopSample.with_socket. rewrite Em. simpl. rewrite Ep. simpl.
  exact (step_connect 0 a l m socket [IoBytes 8] m' true closed Em Hk Hq Ep).
Qed.

Lemma polled_steps a l answers events :
  rtc (lstep 0) (a, l) (a, LoopSample.polled answers events l).
Proof.
  eapply rtc_l; [apply (step_environment 0 a l answers)|]. apply rtc_once. apply (step_poll 0 a _ true 0 (Some events)).
Qed.

Lemma serving_steps : rtc (lstep 0) ([], LoopSample.start) ([7], LoopSample.serving).
Proof.
  etransitivity; [apply (with_socket_step [] LoopSample.start LoopSample.connections 7); by vm_compute|].
  apply polled_steps.
Qed.

Lemma start_fresh : fresh_loop LoopSample.start.
Proof.
  exists LoopSample.config, idle_service, true, true, 4, LoopSample.completions, (Some LoopSample.connections),
    LoopSample.timeouts, (true, true, true), LoopSample.no_answers.
  split; [reflexivity|]. exists 4, 6. split; [by vm_compute|reflexivity].
Qed.

Lemma serving_reachable : reachable_loop 0 ([7], LoopSample.serving).
Proof. exists LoopSample.start. split; [exact start_fresh|exact serving_steps]. Qed.

Lemma hung_up_reachable : reachable_loop 0 ([7], LoopSample.hung_up).
Proof.
  exists LoopSample.start. split; [exact start_fresh|]. etransitivity; [exact serving_steps|]. apply polled_steps.
Qed.

Lemma reused_steps : rtc (lstep 0) ([7], LoopSample.hung_up) ([7; 7], LoopSample.reused).
Proof.
  etransitivity; [|apply polled_steps].
  eapply (with_socket_step [7] LoopSample.hung_up); [vm_compute; reflexivity|by vm_compute..].
Qed.

Lemma loop_owns_connections_witness :
  [7] ≡ₚ queued_sockets LoopSample.serving ++ keys LoopSample.serving ++ closed_fds LoopSample.serving
  /\ NoDup (queued_sockets LoopSample.serving ++ keys LoopSample.serving).
Proof.
  destruct (loop_owns_connections 0 [7] LoopSample.serving serving_reachable) as (H1 & H2 & _).
  exact (conj H1 H2).
Defined.

Lemma loop_registrations_exact_witness :
  epoll_set LoopSample.serving
  = (fun e => (registered_events e, token_generation (token_ (session e)))) <$> sessions LoopSample.serving.
Proof. exact (proj1 (loop_registrations_exact 0 [7] LoopSample.serving serving_reachable)). Defined.

Lemma loop_shutdown_releases_all_witness :
  closed_fds (shutdown true LoopSample.serving).1 ≡ₚ [7].
Proof.
  exact (proj1 (proj2 (proj2 (loop_shutdown_releases_all 0 [7] LoopSample.serving serving_reachable)))).
Defined.

Lemma closed_tokens_stay_dead_witness :
  handleSocketEvent 0 1 EPOLLIN LoopSample.reused = (LoopSample.reused, tt).
Proof.
  refine (proj2 (proj2 (closed_tokens_stay_dead 0 [7] LoopSample.hung_up [7; 7] LoopSample.reused 1
    hung_up_reachable (or_intror _) _ reused_steps)) EPOLLIN); vm_compute; reflexivity.
Defined.
