(* ===== verification/EventLoopIo.v ===== *)
(** * EventLoopIo: the loops of the event loop end

    The read and write loops of [EventLoop] and its mailbox loops are written
    with fuel.  Every pass consumes an answer of [recv] or [send] or an element
    of a queue, so the fuel that the model gives is enough: more of it changes
    nothing. *)

From S2P Require Import Prelude Posix Ring Codec Limits TimerCore Timer Scheduler.
From S2P Require Import WorkerPool Mailbox Config Session EventLoop EventLoopSafety.
Open Scope Z_scope.

Section Io.
Context {E : Type} `{ITimerScheduler E} (sink : Z).

(** ** Programs consume answers and leave the mailboxes alone *)

(** Descriptors are only ever added to the closed ones. *)
Definition grows (l l' : EventLoop E) : Prop :=
  closed_fds l `prefix_of` closed_fds l' /\ has_observer l' = has_observer l.

Definition shrinks (l l' : EventLoop E) : Prop :=
  (length (sends (env l')) <= length (sends (env l)))%nat
  /\ (length (recvs (env l')) <= length (recvs (env l)))%nat
  /\ completion_mailbox l' = completion_mailbox l
  /\ timeout_mailbox l' = timeout_mailbox l
  /\ connection_mailbox l' = connection_mailbox l
  /\ grows l l'.

#[local] Instance grows_refl : Reflexive grows.
Proof. by intros l. Qed.

#[local] Instance grows_trans : Transitive grows.
Proof. intros l1 l2 l3 [A1 A2] [B1 B2]. split; [by etransitivity|congruence]. Qed.

#[local] Instance shrinks_refl : Reflexive shrinks.
Proof. by intros l. Qed.

#[local] Instance shrinks_trans : Transitive shrinks.
Proof.
  intros l1 l2 l3 (A1 & A2 & A3 & A4 & A5 & A6) (B1 & B2 & B3 & B4 & B5 & B6).
  split_and!; try congruence; by etransitivity.
Qed.

Definition lean {A} (m : Loop (E := E) A) : Prop := forall l, shrinks l (m l).1.

Lemma lean_bind {A B} (m : Loop A) (f : A -> Loop B) :
  lean m -> (forall x, lean (f x)) -> lean (m ≫= f).
Proof.
  intros Hm Hf l. unfold mbind, loop_bind. specialize (Hm l). destruct (m l) as [l' x].
  etransitivity; [exact Hm|apply Hf].
Qed.

Lemma lean_ret {A} (x : A) : lean (mret x).
Proof. by intros l. Qed.

Lemma lean_get {A} (f : EventLoop E -> A) : lean (get f).
Proof. by intros l. Qed.

Lemma lean_modify f : (forall l, shrinks l (f l)) -> lean (modify f).
Proof. intros Hf l. apply Hf. Qed.

Lemma lean_send : lean send.
Proof. intros l. unfold send. destruct (sends (env l)) eqn:Es; [done|]. split_and!; simpl; rewrite ?Es; simpl; done || lia. Qed.

Lemma lean_recv : lean recv.
Proof.
  intros l. unfold recv. destruct (recvs (env l)) as [|[] ?] eqn:Es; [done| |];
    split_and!; simpl; rewrite ?Es; simpl; done || lia.
Qed.

Lemma lean_now : lean now.
Proof. intros l. unfold now. by destruct (clocks (env l)). Qed.

Lemma lean_ctl : lean ctl_answer.
Proof. intros l. unfold ctl_answer. by destruct (ctls (env l)). Qed.

Lemma lean_socket_error : lean socket_error.
Proof. intros l. unfold socket_error. by destruct (socket_errors (env l)). Qed.

Lemma lean_drainRequested : lean drainRequested.
Proof. intros l. unfold drainRequested. by destruct (drains (env l)). Qed.

Lemma lean_submit t r : lean (submit t r).
Proof. intros l. unfold submit. destruct (submits (env l)); [done|]. by case_bool_decide. Qed.

Lemma lean_schedule d ev : lean (schedule sink d ev).
Proof. intros l. unfold schedule. by destruct (sched_scheduleAt _ _ _ _). Qed.

Lemma lean_generation : lean allocateGeneration.
Proof. intros l. unfold allocateGeneration. by destruct (_ =? 0). Qed.

Lemma shrinks_close fd times (l : EventLoop E) : shrinks l (close_fd fd times l).
Proof. split_and!; try done. split; [|done]. apply prefix_app_r. done. Qed.

Lemma shrinks_erase fd times ss (l : EventLoop E) : shrinks l (close_fd fd times (l <| sessions := ss |>)).
Proof. split_and!; try done. split; [|done]. by apply prefix_app_r. Qed.

Lemma shrinks_close_all cs : forall l : EventLoop E, shrinks l (foldl (fun l fd => close_fd fd 1 l) l cs).
Proof. induction cs as [|c cs IH]; intros l; simpl; [done|]. etransitivity; [apply (shrinks_close c 1)|apply IH]. Qed.

Create HintDb loop_lean.
Hint Resolve lean_ret lean_get lean_send lean_recv lean_now lean_ctl lean_socket_error lean_drainRequested
  lean_submit lean_schedule lean_generation shrinks_close shrinks_erase shrinks_close_all : loop_lean.

Ltac lean_step :=
  match goal with
  | |- lean (match ?x with _ => _ end) => first [is_var x; destruct x | destruct x eqn:?]
  | |- lean (_ ≫= _) => apply lean_bind; [|intros ?]
  | |- lean (modify _) => apply lean_modify; intros ?
  | |- shrinks _ (if ?b then _ else _) => destruct b
  | |- _ => progress cbv beta zeta iota
  end.
Ltac lean_auto := repeat (lean_step || by eauto with loop_lean).

Lemma lean_cancelTimerId id : lean (cancelTimerId id).
Proof. unfold cancelTimerId. lean_auto. Qed.
Hint Resolve lean_cancelTimerId : loop_lean.

Lemma lean_cancelDeadline e : lean (cancelDeadline e).
Proof. unfold cancelDeadline. lean_auto. Qed.
Hint Resolve lean_cancelDeadline : loop_lean.

Lemma lean_armDeadline e k : lean (armDeadline sink e k).
Proof. unfold armDeadline. lean_auto. Qed.
Hint Resolve lean_armDeadline : loop_lean.

Lemma lean_find fd : lean (find_session fd).
Proof. unfold find_session. lean_auto. Qed.

Lemma lean_put fd e : lean (put_entry fd e).
Proof. unfold put_entry. lean_auto. Qed.
Hint Resolve lean_find lean_put : loop_lean.

Lemma lean_syncDeadline fd : lean (syncDeadline sink fd).
Proof. unfold syncDeadline. lean_auto. Qed.

Lemma lean_closeSession fd r n : lean (closeSession fd r n).
Proof. unfold closeSession, cancel_timers, erase_session, release_if, epoll_del. lean_auto. Qed.
Hint Resolve lean_syncDeadline lean_closeSession : loop_lean.

Lemma lean_epoll_set_to fd ev d : lean (epoll_set_to fd ev d).
Proof. unfold epoll_set_to. lean_auto. Qed.
Hint Resolve lean_epoll_set_to : loop_lean.

Lemma lean_modifyInterest fd : lean (modifyInterest fd).
Proof. unfold modifyInterest. lean_auto. Qed.

Lemma lean_close_unless ok fd r : lean (close_unless ok fd r).
Proof. unfold close_unless. lean_auto. Qed.
Hint Resolve lean_modifyInterest lean_close_unless : loop_lean.

Lemma lean_dispatch write t r : (forall fd, lean (write fd)) -> lean (dispatch_with sink write t r).
Proof. intros Hw. unfold dispatch_with, reject_request. lean_auto. Qed.
Hint Resolve lean_dispatch : loop_lean.

Lemma lean_write_loop fuel : forall fd, lean (write_loop sink fuel fd).
Proof. induction fuel as [|fuel IH]; intros fd; simpl; lean_auto. Qed.

Lemma lean_handleWrite fd : lean (handleWrite sink fd).
Proof. intros l. apply lean_write_loop. Qed.
Hint Resolve lean_write_loop lean_handleWrite : loop_lean.

Lemma lean_dispatchRequest t r : lean (dispatchRequest sink t r).
Proof. unfold dispatchRequest. lean_auto. Qed.

Lemma lean_after_input fd d : lean (after_input sink fd d).
Proof. unfold after_input. lean_auto. Qed.
Hint Resolve lean_dispatchRequest lean_after_input : loop_lean.

(** ** Programs that agree while fewer than [n] answers are left *)

Section Agree.
Context (mu : EventLoop E -> nat).
Hypothesis mu_shrinks : forall l l', shrinks l l' -> (mu l' <= mu l)%nat.

Definition agree {A} (n : nat) (m1 m2 : Loop (E := E) A) : Prop :=
  forall l, (mu l < n)%nat -> m1 l = m2 l.

Lemma agree_refl {A} n (m : Loop A) : agree n m m.
Proof. done. Qed.

Lemma agree_bind {A B} n (m1 m2 : Loop A) (f g : A -> Loop B) :
  lean m1 -> agree n m1 m2 -> (forall x, agree n (f x) (g x)) -> agree n (m1 ≫= f) (m2 ≫= g).
Proof.
  intros Hl Hm Hf l Hn. unfold mbind, loop_bind. rewrite <-(Hm l Hn). specialize (Hl l).
  destruct (m1 l) as [l' x]. simpl in Hl. apply Hf. apply mu_shrinks in Hl. lia.
Qed.

Lemma agree_dispatch n w1 w2 t r :
  (forall fd, lean (w1 fd)) -> (forall fd, agree n (w1 fd) (w2 fd)) ->
  agree n (dispatch_with sink w1 t r) (dispatch_with sink w2 t r).
Proof.
  intros Hl Hw. unfold dispatch_with, reject_request.
  repeat match goal with
  | |- agree _ ?m ?m => apply agree_refl
  | |- agree _ (w1 _ ≫= _) _ => apply agree_bind; [done|done|intros ?]
  | |- agree _ (_ ≫= _) _ => apply agree_bind; [by lean_auto|apply agree_refl|intros ?]
  | |- agree _ (match ?x with _ => _ end) _ => destruct x
  | |- _ => progress cbv beta zeta iota
  end.
Qed.
End Agree.

Definition sends_left (l : EventLoop E) : nat := length (sends (env l)).
Definition recvs_left (l : EventLoop E) : nat := length (recvs (env l)).

Lemma sends_shrink l l' : shrinks l l' -> (sends_left l' <= sends_left l)%nat.
Proof. by intros (Hs & _). Qed.

Lemma recvs_shrink l l' : shrinks l l' -> (recvs_left l' <= recvs_left l)%nat.
Proof. by intros (_ & Hr & _). Qed.

(** An answer of [send] is used up, or the answer is [EAGAIN]. *)
Lemma agree_send {B} n (f g : IoResult -> Loop B) :
  f (IoError EAGAIN) = g (IoError EAGAIN) -> (forall x, agree sends_left n (f x) (g x)) ->
  agree sends_left (S n) (send ≫= f) (send ≫= g).
Proof.
  intros He Hf l Hl. unfold mbind, loop_bind, send, sends_left in *.
  destruct (sends (env l)) as [|x rest]; [by rewrite He|]. simpl in Hl. apply Hf. simpl. lia.
Qed.

Lemma agree_recv {B} n (f g : RecvAnswer -> Loop B) :
  f (RecvError EAGAIN) = g (RecvError EAGAIN) -> (forall x, agree recvs_left n (f x) (g x)) ->
  agree recvs_left (S n) (recv ≫= f) (recv ≫= g).
Proof.
  intros He Hf l Hl. unfold mbind, loop_bind, recv, recvs_left in *.
  destruct (recvs (env l)) as [|[] rest]; [by rewrite He| |]; simpl in Hl; apply Hf; simpl; lia.
Qed.

Ltac agree_step Hmu :=
  match goal with
  | |- agree _ _ ?m ?m => apply agree_refl
  | |- agree _ _ (send ≫= _) _ => apply agree_send; [reflexivity|intros ?]
  | |- agree _ _ (recv ≫= _) _ => apply agree_recv; [reflexivity|intros ?]
  | |- agree _ _ (dispatch_with _ _ _ _ ≫= _) _ => apply (agree_bind _ Hmu); [by lean_auto| |intros ?]
  | |- agree _ _ (dispatch_with _ _ _ _) _ => apply (agree_dispatch _ Hmu); [by lean_auto|intros ?]
  | |- agree _ _ (_ ≫= _) _ => apply (agree_bind _ Hmu); [by lean_auto|apply agree_refl|intros ?]
  | |- agree _ _ (match ?x with _ => _ end) _ => first [is_var x; destruct x | destruct x eqn:?]
  | |- _ => progress cbv beta zeta iota
  end.

Lemma write_loop_agree n : forall f1 f2 fd, (n <= f1)%nat -> (n <= f2)%nat ->
  agree sends_left n (write_loop sink f1 fd) (write_loop sink f2 fd).
Proof.
  induction n as [|n IH]; intros f1 f2 fd H1 H2; [by intros l Hl; lia|].
  destruct f1 as [|f1]; [lia|]. destruct f2 as [|f2]; [lia|]. simpl.
  apply (agree_bind _ sends_shrink); [by lean_auto|apply agree_refl|intros found].
  repeat agree_step sends_shrink; apply IH; lia.
Qed.

Lemma read_loop_agree n : forall f1 f2 fd d, (n <= f1)%nat -> (n <= f2)%nat ->
  agree recvs_left n (read_loop sink f1 fd d) (read_loop sink f2 fd d).
Proof.
  induction n as [|n IH]; intros f1 f2 fd d H1 H2; [by intros l Hl; lia|].
  destruct f1 as [|f1]; [lia|]. destruct f2 as [|f2]; [lia|]. simpl.
  repeat agree_step recvs_shrink; apply IH; lia.
Qed.

(** Reading and writing end.  With fuel for one pass more than [send],
    respectively [recv], still has answers, the loops return; with any more
    fuel they do the same. *)
Theorem loop_io_terminates fd drain_peer_close l n :
  write_loop sink (write_fuel l + n) fd l = handleWrite sink fd l
  /\ read_loop sink (S (length (recvs (env l))) + n) fd drain_peer_close l = handleRead sink fd drain_peer_close l.
Proof.
  split; [apply (write_loop_agree (write_fuel l))|apply (read_loop_agree (S (length (recvs (env l)))))];
    unfold write_fuel, sends_left, recvs_left; lia.
Qed.

(** ** The mailboxes are emptied *)

Hint Resolve lean_write_loop lean_handleWrite lean_dispatchRequest lean_after_input : loop_lean.

Lemma lean_expire fd e : lean (expire_business sink fd e).
Proof. unfold expire_business. lean_auto. Qed.

Lemma lean_handleTimeoutEvent ev : lean (handleTimeoutEvent sink ev).
Proof. unfold handleTimeoutEvent. pose proof lean_expire. lean_auto. Qed.
Hint Resolve lean_handleTimeoutEvent : loop_lean.

Lemma lean_overdue e : lean (business_overdue e).
Proof. unfold business_overdue. lean_auto. Qed.

Lemma lean_applyCompletion c : lean (applyCompletion sink c).
Proof. unfold applyCompletion, apply_response. pose proof lean_overdue. lean_auto. Qed.

Lemma lean_register fd g s : lean (register_session sink fd g s).
Proof. unfold register_session, erase_session. lean_auto. Qed.

Lemma lean_adopt_accepted fd : lean (adopt_accepted sink fd).
Proof.
  unfold adopt_accepted, adopt, release_if, drop_socket. pose proof lean_register. lean_auto.
Qed.

Lemma lean_for_each {A} (f : A -> Loop unit) xs : (forall x, lean (f x)) -> lean (for_each f xs).
Proof. intros Hf. induction xs; simpl; lean_auto. Qed.
Hint Resolve lean_for_each : loop_lean.

Lemma lean_gracefulDrain : lean (applyGracefulDrain sink).
Proof.
  unfold applyGracefulDrain. lean_auto. apply lean_for_each. intros fd. unfold drain_session. lean_auto.
Qed.

Lemma lean_wake : lean drainWakeSignal.
Proof. intros l. unfold drainWakeSignal. by destruct (wakes (env l)). Qed.

Lemma lean_read_loop fuel d : forall fd, lean (read_loop sink fuel fd d).
Proof. induction fuel as [|fuel IH]; intros fd; simpl; lean_auto. Qed.

Lemma lean_handleSocketEvent g mask : lean (handleSocketEvent sink g mask).
Proof.
  assert (forall fd d, lean (handleRead sink fd d)) by (intros fd d l; apply lean_read_loop).
  unfold handleSocketEvent. lean_auto.
Qed.

(** What the three mailboxes hold. *)
Definition boxes (cs : list BusinessCompletion) (ts : list TimerEvent) (ks : list Z) (l : EventLoop E) : Prop :=
  ring_repr (lm_queue (completion_mailbox l)) cs
  /\ match timeout_mailbox l with None => ts = [] | Some m => ring_repr (tm_queue m) ts end
  /\ match connection_mailbox l with None => ks = [] | Some m => ring_repr (cm_queue m) ks end.

Lemma boxes_shrinks cs ts ks l l' : shrinks l l' -> boxes cs ts ks l -> boxes cs ts ks l'.
Proof. intros (_ & _ & E1 & E2 & E3 & _). unfold boxes. by rewrite E1, E2, E3. Qed.

(** [while (auto x = pop()) handle( *x )] takes every element. *)
Lemma pop_all_drains {A} (I : list A -> EventLoop E -> Prop) pop handle :
  (forall x xs l, I (x :: xs) l -> (pop l).2 = Some x /\ I xs (pop l).1) ->
  (forall l, I [] l -> (pop l).2 = None /\ I [] (pop l).1) ->
  (forall x xs l, I xs l -> I xs (handle x l).1) ->
  forall xs fuel l, I xs l -> (length xs < fuel)%nat -> I [] (pop_all fuel pop handle l).1.
Proof.
  intros Hp Hn Hh xs. induction xs as [|x xs IH]; intros fuel l Hi Hl; (destruct fuel as [|fuel]; [simpl in Hl; lia|]);
    simpl; unfold mbind, loop_bind.
  - destruct (Hn l Hi) as [Hx Hi']. destruct (pop l) as [l' y]. simpl in *. by subst y.
  - destruct (Hp _ _ _ Hi) as [Hx Hi']. destruct (pop l) as [l' y]. simpl in *. subst y.
    specialize (Hh x xs l' Hi'). destruct (handle x l') as [l2 []]. apply IH; [done|lia].
Qed.

Lemma pop_completion_spec cs ts ks l :
  boxes cs ts ks l -> (pop_completion l).2 = hd_error cs /\ boxes (drop 1 cs) ts ks (pop_completion l).1.
Proof.
  intros (R & Ht & Hk). unfold pop_completion, loop_tryPop. rewrite (ring_size_zero _ _ R).
  destruct cs as [|c cs]; simpl; [by split_and!|]. destruct (ring_pop_repr _ _ _ R) as [Rp Ep].
  destruct (ring_pop _) as [q y]. simpl in *. subst y. by split_and!.
Qed.

Lemma pop_timeout_spec cs ts ks l :
  boxes cs ts ks l -> (pop_timeout l).2 = hd_error ts /\ boxes cs (drop 1 ts) ks (pop_timeout l).1.
Proof.
  intros (R & Ht & Hk). unfold pop_timeout, boxes. destruct (timeout_mailbox l) as [m|] eqn:Em.
  - unfold timeout_tryPop. rewrite (ring_size_zero _ _ Ht).
    destruct ts as [|t ts]; simpl; [by split_and!|]. destruct (ring_pop_repr _ _ _ Ht) as [Rp Ep].
    destruct (ring_pop _) as [q y]. simpl in *. subst y. by split_and!.
  - subst ts. simpl. rewrite Em. by split_and!.
Qed.

Lemma pop_connection_boxes cs ts ks l :
  boxes cs ts ks l -> (pop_connection l).2 = hd_error ks /\ boxes cs ts (drop 1 ks) (pop_connection l).1.
Proof.
  intros (R & Ht & Hk). unfold pop_connection, boxes. destruct (connection_mailbox l) as [m|] eqn:Em.
  - unfold connection_tryPop. rewrite (ring_size_zero _ _ Hk).
    destruct ks as [|k ks]; simpl; [by split_and!|]. destruct (ring_pop_repr _ _ _ Hk) as [Rp Ep].
    destruct (ring_pop _) as [q y]. simpl in *. subst y. by split_and!.
  - subst ks. simpl. rewrite Em. by split_and!.
Qed.

(** No rescan is requested. *)
Definition no_rescan (l : EventLoop E) : Prop := forall m, timeout_mailbox l = Some m -> rescan_required m = false.

Lemma no_rescan_shrinks l l' : shrinks l l' -> no_rescan l -> no_rescan l'.
Proof. unfold no_rescan. by intros (_ & _ & _ & -> & _). Qed.

(** The timeouts, then the deadlines of a rescan. *)
Lemma drainTimeouts_empties ts ks l :
  boxes [] ts ks l -> (drainTimeoutMailbox sink l).2 = true ->
  boxes [] [] ks (drainTimeoutMailbox sink l).1
  /\ no_rescan (drainTimeoutMailbox sink l).1.
Proof.
  intros Hb. unfold drainTimeoutMailbox, mbind, loop_bind, get.
  destruct (timeout_mailbox l) as [m|] eqn:Em.
  2: { intros _. unfold no_rescan. simpl. split; [|congruence]. destruct Hb as (R & Ht & Hk). rewrite Em in Ht. subst ts.
       unfold boxes. rewrite Em. by split_and!. }
  pose proof (lean_wake l) as Hw. destruct (drainWakeSignal l) as [l1 []]; [|done].
  simpl in Hw. apply (boxes_shrinks _ _ _ _ _ Hw) in Hb as Hb1.
  assert (boxes [] [] ks (pop_all (S (Z.to_nat (queued_timeouts l1))) pop_timeout (handleTimeoutEvent sink) l1).1) as Hb2.
  { apply (pop_all_drains (fun xs => boxes [] xs ks)) with (xs := ts); try done.
    - intros x xs l0. apply pop_timeout_spec.
    - intros l0. apply pop_timeout_spec.
    - intros x xs l0. apply boxes_shrinks, lean_handleTimeoutEvent.
    - destruct Hw as (_ & _ & _ & E2 & _). destruct Hb1 as (_ & Ht & _). unfold queued_timeouts.
      rewrite E2, Em in *. simpl. rewrite (rr_size _ _ Ht). unfold size_of. lia. }
  cbn [negb]. destruct (pop_all _ _ _ l1) as [l2 []]. cbn [fst] in Hb2.
  assert (boxes [] [] ks (take_rescan l2).1
          /\ no_rescan (take_rescan l2).1) as [Hb3 Hr3].
  { unfold no_rescan, take_rescan. destruct (timeout_mailbox l2) as [m2|] eqn:E2; [|simpl; split; [done|congruence]].
    destruct Hb2 as (R & Ht & Hk). rewrite E2 in Ht. simpl. split; [by split_and!|]. by intros ? [= <-]. }
  destruct (take_rescan l2) as [l3 []]; [|done]. simpl in Hb3, Hr3. intros _.
  assert (lean (t ← now; ss ← get sessions; _ ← for_each (handleTimeoutEvent sink) (expired_deadlines t ss); mret true))
    as Hle by lean_auto.
  specialize (Hle l3). unfold mbind, loop_bind, get in Hle. split; [by eapply boxes_shrinks|by eapply no_rescan_shrinks].
Qed.

Lemma completions_empty cs ts ks l :
  boxes cs ts ks l ->
  boxes [] ts ks (pop_all (S (Z.to_nat (Ring.size (lm_queue (completion_mailbox l))))) pop_completion
                    (applyCompletion sink) l).1.
Proof.
  intros Hb. apply (pop_all_drains (fun xs => boxes xs ts ks)) with (xs := cs); try done.
  - intros x xs l0. apply pop_completion_spec.
  - intros l0. apply pop_completion_spec.
  - intros x xs l0. apply boxes_shrinks, lean_applyCompletion.
  - destruct Hb as (R & _). rewrite (rr_size _ _ R). unfold size_of. lia.
Qed.

Lemma connections_empty ks m l :
  boxes [] [] ks l -> no_rescan l -> connection_mailbox l = Some m ->
  let l' := (pop_all (S (Z.to_nat (Ring.size (cm_queue m)))) pop_connection (adopt_accepted sink) l).1 in
  boxes [] [] [] l' /\ no_rescan l'.
Proof.
  intros Hb Hr Em. assert (forall l0, no_rescan l0 -> no_rescan (pop_connection l0).1) as Hpt.
  { intros l0. unfold no_rescan, pop_connection. destruct (connection_mailbox l0); [|done]. by destruct (connection_tryPop _). }
  apply (pop_all_drains (fun xs l => boxes [] [] xs l /\ no_rescan l)) with (xs := ks); try done.
  - intros x xs l0 [Hi Hm]. apply pop_connection_boxes in Hi as [? ?]. split_and!; auto.
  - intros l0 [Hi Hm]. apply pop_connection_boxes in Hi as [? ?]. split_and!; auto.
  - intros x xs l0 [Hi Hm]. pose proof (lean_adopt_accepted x l0) as Hs.
    split; [by eapply boxes_shrinks|by eapply no_rescan_shrinks].
  - destruct Hb as (_ & _ & Hk). rewrite Em in Hk. rewrite (rr_size _ _ Hk). unfold size_of. lia.
Qed.

(** The wake-ups are edge-triggered, so a drain must leave nothing behind:
    when [drainMailboxes] answers true, whatever the handlers of the elements
    do, the completion, timeout and connection mailboxes are empty and no rescan
    is requested. *)
Theorem drainMailboxes_empties cs ts ks l :
  boxes cs ts ks l -> (drainMailboxes sink l).2 = true ->
  boxes [] [] [] (drainMailboxes sink l).1 /\ no_rescan (drainMailboxes sink l).1.
Proof.
  intros Hb. unfold drainMailboxes, mbind, loop_bind, get.
  pose proof (lean_wake l) as Hw. destruct (drainWakeSignal l) as [l1 []]; [|done]. simpl in Hw.
  pose proof (completions_empty _ _ _ _ (boxes_shrinks _ _ _ _ _ Hw Hb)) as Hb2. cbn [negb].
  destruct (pop_all _ _ _ l1) as [l2 []]. cbn [fst] in Hb2.
  pose proof (drainTimeouts_empties _ _ _ Hb2) as Ht. destruct (drainTimeoutMailbox sink l2) as [l3 []]; [|done].
  destruct (Ht eq_refl) as [Hb3 Hr3]. cbn [fst snd negb] in *. clear Ht.
  destruct (connection_mailbox l3) as [m|] eqn:Em.
  2: { intros _. split; [|done]. destruct Hb3 as (R & Hts & Hk). rewrite Em in Hk. subst ks.
       unfold boxes. simpl. rewrite Em. by split_and!. }
  pose proof (lean_wake l3) as Hw3. destruct (drainWakeSignal l3) as [l4 []]; [|done]. cbn [fst negb] in *. intros _.
  assert (connection_mailbox l4 = Some m) as Em4 by (destruct Hw3 as (_ & _ & _ & _ & -> & _); done).
  destruct (connections_empty ks m l4 (boxes_shrinks _ _ _ _ _ Hw3 Hb3) (no_rescan_shrinks _ _ Hw3 Hr3) Em4) as [Hb5 Hr5].
  destruct (pop_all _ _ _ l4) as [l5 []]. cbn [fst] in Hb5, Hr5.
  pose proof (lean_gracefulDrain l5) as Hg. destruct (applyGracefulDrain sink l5) as [l6 []]. cbn [fst] in *.
  split; [by eapply boxes_shrinks|by eapply no_rescan_shrinks].
Qed.
End Io.

Lemma drainMailboxes_empties_witness :
  let l := (LoopSample.with_socket LoopSample.start 7) <| env := LoopSample.adopting |> in
  boxes [] [] [] (drainMailboxes 0 l).1.
Proof.
  refine (proj1 (drainMailboxes_empties 0 [] [] [7] _ _ _)); [|vm_compute; reflexivity].
  split; [apply ring_make_repr; lia|]. split; [reflexivity|].
  apply (ring_push_repr (ring_make 4) [] 7); [apply ring_make_repr; lia|vm_compute; reflexivity].
Defined.
