(* ===== verification/EventLoopContract.v ===== *)
(** * EventLoopContract: what a group of loops relies on

    The interface between [net/event_loop.cpp] and [net/event_loop_group.cpp]:
    a loop shares its connection mailbox with the group, and every descriptor
    that it closes it releases once.  The class [EventLoopLaws] states this
    for any implementation; the instance for [EventLoop] discharges it with the
    invariants of [EventLoopSafety]. *)

From S2P Require Import Prelude Posix Ring Codec Limits TimerCore Timer Scheduler.
From S2P Require Import WorkerPool Mailbox Config Session EventLoop EventLoopSafety EventLoopIo.
Open Scope Z_scope.

(** A loop [l] works on the mailbox [m] that it shares.  A call gives the new
    loop and mailbox, the descriptors closed by it and the number of calls of
    [release_connection]. *)
Class IEventLoop (L : Type) := {
  loop_made : L -> ConnectionMailbox -> Prop;
  loop_open : L -> ConnectionMailbox -> list Z;
  loop_poll : L -> ConnectionMailbox -> L -> ConnectionMailbox -> list Z -> Z -> EventLoopStatus.t -> Prop;
  loop_shutdown : L -> ConnectionMailbox -> L -> ConnectionMailbox -> list Z -> Z -> Prop;
}.

Class EventLoopLaws (L : Type) `{IEventLoop L} := {
  loop_wf : L -> ConnectionMailbox -> Prop;
  law_made l m : loop_made l m -> ring_repr (cm_queue m) [] -> loop_wf l m /\ loop_open l m = [];
  law_poll l m l' m' closed releases st :
    loop_wf l m -> loop_poll l m l' m' closed releases st ->
    loop_wf l' m' /\ loop_open l m ≡ₚ loop_open l' m' ++ closed /\ releases = size_of closed;
  law_shutdown l m l' m' closed releases :
    loop_wf l m -> loop_shutdown l m l' m' closed releases ->
    loop_wf l' m' /\ loop_open l' m' = [] /\ loop_open l m ≡ₚ closed /\ releases = size_of closed
    /\ cm_accepting m' = false;
  law_post l m socket writes m' posted closed :
    loop_wf l m -> socket ∉ loop_open l m ->
    connection_tryPost m socket writes = Some (m', posted, closed) ->
    loop_wf l m' /\ loop_open l m' ≡ₚ (if (posted : bool) then [socket] else []) ++ loop_open l m
    /\ closed = (if posted then [] else socket_reset socket);
  law_close l m m' discarded closed :
    loop_wf l m -> connection_close m = (m', discarded, closed) ->
    loop_wf l m' /\ loop_open l m ≡ₚ loop_open l m' ++ closed /\ discarded = size_of closed;
}.

(** ** The event loop keeps the contract *)

Section Instance_.
Context {E : Type} `{ITimerScheduler E} (sink : Z).

(** *** Descriptors are only added to the closed ones *)

Definition growing {A} (m : Loop (E := E) A) : Prop :=
  forall l, grows l (m l).1 /\ (is_Some (connection_mailbox l) -> is_Some (connection_mailbox (m l).1)).

Lemma growing_lean {A} (m : Loop A) : lean m -> growing m.
Proof. intros Hm l. destruct (Hm l) as (_ & _ & _ & _ & -> & Hg). done. Qed.

Lemma growing_bind {A B} (m : Loop A) (f : A -> Loop B) :
  growing m -> (forall x, growing (f x)) -> growing (m ≫= f).
Proof.
  intros Hm Hf l. unfold mbind, loop_bind. specialize (Hm l). destruct (m l) as [l' x].
  destruct Hm as [[G1 G2] Hs], (Hf x l') as [[K1 K2] Ks]. split; [split; [by etransitivity|simpl in *; congruence]|auto].
Qed.

Lemma growing_pop_all {A} fuel (pop : Loop (option A)) handle :
  growing pop -> (forall x, growing (handle x)) -> growing (pop_all fuel pop handle).
Proof.
  intros Hp Hh. induction fuel as [|fuel IH]; simpl; [by apply growing_lean, lean_ret|].
  apply growing_bind; [done|]. intros [x|]; [by apply growing_bind|by apply growing_lean, lean_ret].
Qed.

Lemma growing_pops : growing pop_completion /\ growing pop_timeout /\ growing pop_connection /\ growing take_rescan.
Proof.
  split_and!; intros l; unfold pop_completion, pop_timeout, pop_connection, take_rescan;
    repeat case_match; simplify_eq/=; split; try done; by intros.
Qed.

Lemma growing_drainTimeouts : growing (drainTimeoutMailbox sink).
Proof.
  destruct growing_pops as (_ & Hp & _ & Hr). unfold drainTimeoutMailbox.
  apply growing_bind; [apply growing_lean, lean_get|]. intros [m|]; [|apply growing_lean, lean_ret].
  apply growing_bind; [apply growing_lean, lean_wake|]. intros []; [|apply growing_lean, lean_ret]. cbn [negb].
  apply growing_bind; [apply growing_lean, lean_get|]. intros n.
  apply growing_bind; [apply growing_pop_all; [done|intros; apply growing_lean, lean_handleTimeoutEvent]|]. intros _.
  apply growing_bind; [done|]. intros []; [|apply growing_lean, lean_ret].
  apply growing_lean. apply lean_bind; [apply lean_now|]. intros t. apply lean_bind; [apply lean_get|]. intros ss.
  apply lean_bind; [apply lean_for_each, lean_handleTimeoutEvent|]. intros _. apply lean_ret.
Qed.

Lemma growing_drainMailboxes : growing (drainMailboxes sink).
Proof.
  destruct growing_pops as (Hc & _ & Hk & _). unfold drainMailboxes.
  apply growing_bind; [apply growing_lean, lean_wake|]. intros []; [|apply growing_lean, lean_ret]. cbn [negb].
  apply growing_bind; [apply growing_lean, lean_get|]. intros n.
  apply growing_bind; [apply growing_pop_all; [done|intros; apply growing_lean, lean_applyCompletion]|]. intros _.
  apply growing_bind; [apply growing_drainTimeouts|]. intros []; [|apply growing_lean, lean_ret]. cbn [negb].
  apply growing_bind; [apply growing_lean, lean_get|]. intros [m|]; [|apply growing_lean, lean_ret].
  apply growing_bind; [apply growing_lean, lean_wake|]. intros []; [|apply growing_lean, lean_ret]. cbn [negb].
  apply growing_bind; [apply growing_pop_all; [done|intros; apply growing_lean, lean_adopt_accepted]|]. intros _.
  apply growing_bind; [apply growing_lean, lean_gracefulDrain|]. intros _. apply growing_lean, lean_ret.
Qed.

Lemma growing_handle_events events : growing (handle_events sink events).
Proof.
  induction events as [|[d mask] events IH]; simpl; [apply growing_lean, lean_ret|]. destruct (d =? 0).
  - apply growing_bind; [apply growing_drainMailboxes|]. intros []; [done|apply growing_lean, lean_ret].
  - apply growing_bind; [apply growing_lean, lean_handleSocketEvent|]. done.
Qed.

Lemma growing_pollOnce owner t ready : growing (pollOnce sink owner t ready).
Proof.
  unfold pollOnce. apply growing_bind; [apply growing_lean, lean_get|]. intros halted.
  destruct owner; [|apply growing_lean, lean_ret]. destruct halted; [apply growing_lean, lean_ret|]. cbn [negb].
  destruct (t <? -1); [apply growing_lean, lean_ret|]. destruct ready; [|apply growing_lean, lean_ret].
  apply growing_bind; [apply growing_handle_events|]. intros ok. apply growing_lean, lean_ret.
Qed.

Lemma growing_close_connections : growing close_connections.
Proof.
  intros l. unfold close_connections. destruct (connection_mailbox l) as [m|]; [|done].
  destruct (connection_close m) as [[m' d] cs].
  destruct (shrinks_close_all cs (l <| connection_mailbox := Some m' |>)) as (_ & _ & _ & _ & E5 & [G1 G2]).
  set (l1 := foldl _ _ _) in *. destruct (has_observer l1) eqn:Eo; simpl in *; (split; [split; [done|simpl; congruence]|]);
    rewrite E5; by eexists.
Qed.

Lemma growing_close_all fuel : growing (close_all (E := E) fuel).
Proof.
  induction fuel as [|fuel IH]; simpl; [apply growing_lean, lean_ret|].
  apply growing_bind; [apply growing_lean, lean_get|]. intros [[fd e]|]; [|apply growing_lean, lean_ret].
  apply growing_bind; [apply growing_lean, lean_closeSession|]. done.
Qed.

Lemma growing_forceShutdown : growing (forceShutdown (E := E)).
Proof.
  unfold forceShutdown. apply growing_bind; [apply growing_lean, lean_get|]. intros [].
  - apply growing_lean, lean_ret.
  - apply growing_bind; [intros l; split; [done|by intros]|]. intros _.
    apply growing_bind; [apply growing_close_connections|]. intros _.
    apply growing_bind; [apply growing_lean, lean_get|]. intros n.
    apply growing_bind; [apply growing_close_all|]. intros _. intros l. split; [done|by intros].
Qed.

(** *** The instance *)

(** What other threads and the kernel may change between two calls. *)
Definition interfered (l l0 : EventLoop E) : Prop :=
  exists answers e completions timeouts,
    l0 = l <| env := answers |> <| scheduler := e |> <| completion_mailbox := completions |>
           <| timeout_mailbox := timeouts |>.

(** The call ran with the shared mailbox [m] and left [m'] in it. *)
Definition called {A} (op : Loop A) (l : EventLoop E) (m : ConnectionMailbox) (l' : EventLoop E)
    (m' : ConnectionMailbox) (closed : list Z) (releases : Z) (answer : A) : Prop :=
  exists l0, interfered l l0 /\ op (l0 <| connection_mailbox := Some m |>) = (l', answer)
    /\ connection_mailbox l' = Some m' /\ closed_fds l' = closed_fds l ++ closed
    /\ releases = released l' - released l.

Definition with_box (l : EventLoop E) (m : ConnectionMailbox) : EventLoop E := l <| connection_mailbox := Some m |>.

#[local] Instance EventLoop_loop : IEventLoop (EventLoop E) := {
  loop_made l m := exists config e bound epoll completions timeouts registered answers,
    make_loop config e true bound epoll completions (Some m) timeouts registered answers = Ok l;
  loop_open l m := ring_contents (cm_queue m) ++ keys l;
  loop_poll l m l' m' closed releases st :=
    exists timeout_ms ready, called (pollOnce sink true timeout_ms ready) l m l' m' closed releases st;
  loop_shutdown l m l' m' closed releases :=
    called (shutdown true) l m l' m' closed releases EventLoopStatus.Ok;
}.

Definition eventloop_wf (l : EventLoop E) (m : ConnectionMailbox) : Prop :=
  has_observer l = true /\ exists a, lsafe (fun _ => False) a [] 0 (with_box l m).

Lemma wf_open a l m :
  lsafe (fun _ => False) a [] 0 (with_box l m) ->
  a ≡ₚ loop_open l m ++ closed_fds l /\ NoDup (loop_open l m)
  /\ Forall (fun fd => 0 <= fd) (ring_contents (cm_queue m)) /\ ring_repr (cm_queue m) (ring_contents (cm_queue m))
  /\ (has_observer l = true -> released l = size_of (closed_fds l)).
Proof.
  intros [_ _ _ _ _ L6 L7 _ _]. destruct L6 as (content & [R Hf] & Hp & Hd). simpl in *.
  unfold keys in *. simpl in *. rewrite (ring_contents_repr _ _ R). rewrite <-app_assoc. split_and!; try done.
  intros Ho. specialize (L7 Ho). unfold size_of. lia.
Qed.

(** A call that keeps the invariant keeps the contract. *)
Lemma called_ok {A} (op : Loop A) l m l' m' closed releases answer :
  (forall a, keeps (fun _ => False) a [] 0 op) -> growing op -> eventloop_wf l m ->
  called op l m l' m' closed releases answer ->
  eventloop_wf l' m' /\ loop_open l m ≡ₚ loop_open l' m' ++ closed /\ releases = size_of closed.
Proof.
  intros Hk Hg [Ho [a Ha]] (l0 & (answers & e & cm & tm & ->) & Hop & Em & Hcl & ->).
  assert (lsafe (fun _ => False) a [] 0 l') as Hl'.
  { specialize (Hk a (with_box (l <| env := answers |> <| scheduler := e |> <| completion_mailbox := cm |>
      <| timeout_mailbox := tm |>) m)). unfold with_box in Hk. rewrite Hop in Hk. apply Hk.
    eapply lsafe_view; [|exact Ha]. done. }
  assert (with_box l' m' = l') as Heta by (unfold with_box; destruct l'; simpl in *; by subst).
  destruct (Hg (with_box (l <| env := answers |> <| scheduler := e |> <| completion_mailbox := cm |>
      <| timeout_mailbox := tm |>) m)) as [[_ Hobs] _]. unfold with_box in Hobs. rewrite Hop in Hobs. simpl in Hobs.
  rewrite <-Heta in Hl'. destruct (wf_open _ _ _ Ha) as (P1 & _ & _ & _ & R1), (wf_open _ _ _ Hl') as (P2 & _ & _ & _ & R2).
  split_and!.
  - split; [congruence|]. by exists a.
  - rewrite P1, Hcl in P2. apply (Permutation_app_inv_r (closed_fds l)). rewrite P2. solve_Permutation.
  - rewrite R1, R2 by congruence. rewrite Hcl, size_of_app. lia.
Qed.

Lemma made_wf l m : loop_made l m -> ring_repr (cm_queue m) [] -> eventloop_wf l m /\ loop_open l m = [].
Proof.
  intros (config & e & bound & epoll & completions & timeouts & registered & answers & Hl) R. unfold make_loop in Hl.
  destruct (checkedEventLoopConfig config) as [c|]; [|done]. cbn in Hl.
  repeat match type of Hl with (if ?b then _ else _) = _ => destruct b; [done|] end. injection Hl as <-. split.
  - split; [done|]. exists []. split; simpl; try done; [rewrite map_size_empty; lia|].
    exists []. unfold keys. simpl. rewrite map_to_list_empty. split; [by split; [|constructor]|]. by split; [|constructor].
  - simpl. unfold keys. simpl. by rewrite (ring_contents_repr _ _ R), map_to_list_empty.
Qed.

Lemma shutdown_wf l m l' m' closed releases :
  eventloop_wf l m -> loop_shutdown l m l' m' closed releases ->
  eventloop_wf l' m' /\ loop_open l' m' = [] /\ loop_open l m ≡ₚ closed /\ releases = size_of closed
  /\ cm_accepting m' = false.
Proof.
  intros Hwf Hc. assert (growing (shutdown (E := E) true)) as Hg.
  { unfold shutdown. apply growing_bind; [apply growing_forceShutdown|]. intros _. apply growing_lean, lean_ret. }
  assert (Hspec : forall a, triple (lsafe (fun _ => False) a [] 0) (shutdown (E := E) true)
            (fun _ l => lsafe (fun _ => False) a [] 0 l /\ stopped l = true)).
  { intros a l0 Hl0. unfold shutdown, mbind, loop_bind. simpl.
    pose proof (forceShutdown_spec _ a l0 Hl0) as Hf. by destruct (forceShutdown l0) as [l1 []]. }
  pose proof Hc as Hc2. apply (called_ok _ l m) in Hc2 as (Hw' & Hp & Hr);
    [|intros a l0 Hl0; by apply Hspec|done|done].
  destruct Hc as (l0 & (answers & e & cm & tm & ->) & Hop & Em & _). destruct Hwf as [_ [a Ha]].
  destruct (Hspec a (with_box (l <| env := answers |> <| scheduler := e |> <| completion_mailbox := cm |>
      <| timeout_mailbox := tm |>) m)) as [Hs Hst]; [by eapply lsafe_view; [|exact Ha]|].
  unfold with_box in Hs, Hst. rewrite Hop in Hs, Hst. simpl in Hs, Hst.
  destruct (ls_stop _ _ _ _ _ Hs Hst) as [He Hd]. rewrite Em in Hd. destruct Hd as [Hacc R].
  assert (loop_open l' m' = []) as Ho.
  { simpl. unfold keys. by rewrite He, map_to_list_empty, (ring_contents_repr _ _ R). }
  rewrite Ho in Hp. by split_and!.
Qed.

Lemma post_wf l m socket writes m' posted closed :
  eventloop_wf l m -> socket ∉ loop_open l m -> connection_tryPost m socket writes = Some (m', posted, closed) ->
  eventloop_wf l m' /\ loop_open l m' ≡ₚ (if posted then [socket] else []) ++ loop_open l m
  /\ closed = (if posted then [] else socket_reset socket).
Proof.
  intros [Ho [a Ha]] Hn Hp. simpl in Hn. rewrite elem_of_app in Hn.
  assert (lsafe (fun _ => False) (if posted then a ++ [socket] else a) [] 0 (with_box l m')) as Ha'.
  { eapply (post_safe _ a (with_box l m) m socket writes m' posted closed); [done|done|..|done]; intros Hx; apply Hn; auto. }
  destruct (wf_open _ _ _ Ha) as (P1 & _ & Hf & R & _), (wf_open _ _ _ Ha') as (P2 & _ & _ & _ & _).
  split_and!.
  - split; [done|]. by eexists.
  - apply (Permutation_app_inv_r (closed_fds l)). rewrite <-P2. destruct posted; simpl; rewrite P1; solve_Permutation.
  - unfold connection_tryPost, socket_valid in Hp. destruct (Z.leb_spec 0 socket); [|by simplify_eq/=].
    destruct (cm_accepting m); [|by simplify_eq/=]. rewrite (ring_full _ _ R) in Hp.
    destruct (Z.ltb_spec (size_of (ring_contents (cm_queue m))) (ring_capacity (cm_queue m))); [|by simplify_eq/=]. simpl in Hp.
    destruct (signalWakeFd writes) as [[]|]; simplify_eq/=; [done|]. by rewrite (ring_push_slot _ _ _ R).
Qed.

Lemma close_wf l m m' discarded closed :
  eventloop_wf l m -> connection_close m = (m', discarded, closed) ->
  eventloop_wf l m' /\ loop_open l m ≡ₚ loop_open l m' ++ closed /\ discarded = size_of closed.
Proof.
  intros [Ho [a Ha]] Hc. destruct (wf_open _ _ _ Ha) as (P1 & _ & Hf & R & _).
  destruct (connection_close_spec m _ R Hf) as (m1 & E1 & Hacc & R'). rewrite E1 in Hc. simplify_eq.
  assert (loop_open l m ≡ₚ loop_open l m' ++ ring_contents (cm_queue m)) as Hp.
  { simpl. rewrite (ring_contents_repr _ _ R'). simpl. solve_Permutation. }
  split_and!; [|done|done]. split; [done|]. exists (loop_open l m' ++ closed_fds l).
  eapply (discard_safe _ a _ (with_box l m)); [done|done|exact E1|]. rewrite P1, Hp. solve_Permutation.
Qed.

Lemma poll_wf l m l' m' closed releases st :
  eventloop_wf l m -> loop_poll l m l' m' closed releases st ->
  eventloop_wf l' m' /\ loop_open l m ≡ₚ loop_open l' m' ++ closed /\ releases = size_of closed.
Proof.
  intros Hw (t & ready & Hc). eapply called_ok; [|apply growing_pollOnce|done|exact Hc].
  intros a. apply keeps_pollOnce.
Qed.

#[local] Instance EventLoop_laws : EventLoopLaws (EventLoop E) := {
  loop_wf := eventloop_wf;
  law_made := made_wf;
  law_poll := poll_wf;
  law_shutdown := shutdown_wf;
  law_post := post_wf;
  law_close := close_wf;
}.

(** Every call with every answer of the environment is one of the contract. *)
Lemma called_total {A} (op : Loop A) l m answers e completions timeouts :
  growing op ->
  exists l' m' closed releases answer,
    op (with_box (l <| env := answers |> <| scheduler := e |> <| completion_mailbox := completions |>
                    <| timeout_mailbox := timeouts |>) m) = (l', answer)
    /\ called op l m l' m' closed releases answer.
Proof.
  intros Hg. set (l0 := l <| env := answers |> <| scheduler := e |> <| completion_mailbox := completions |>
                    <| timeout_mailbox := timeouts |>). destruct (Hg (with_box l0 m)) as [[[cs Hcs] _] [m' Hm]]; [by eexists|].
  destruct (op (with_box l0 m)) as [l' answer] eqn:Hop. simpl in *.
  exists l', m', cs, (released l' - released l), answer. split; [done|].
  exists l0. split; [by exists answers, e, completions, timeouts|]. by split_and!.
Qed.
End Instance_.
