(* ===== verification/EventLoopGroup.v ===== *)
(** * EventLoopGroup: the loops of the server and their connection counters

    Model of [net/event_loop_group.{hpp,cpp}].  The functions below are its
    critical sections and its atomic counter operations; the step relation
    [gstep] interleaves the callers, the loop threads, the dispatcher, the
    threads that close mailboxes and every outstanding release.  A loop is any
    implementation of [IEventLoop]; [slot_loop] is the local variable
    [event_loop] of [loopMain] and [thread] says where that function is.  One
    [pollOnce] is one step beside the other threads, but for the connections it
    releases: each release is outstanding until its own steps ran. *)

From S2P Require Import Prelude Posix Ring Codec Limits TimerCore Timer Scheduler.
From S2P Require Import WorkerPool Mailbox Config Session EventLoop EventLoopContract.
Open Scope Z_scope.

Module GroupState.
Inductive t := Constructed | Starting | Running | Draining | Stopping | Stopped | Failed.
#[export] Instance eq_dec : EqDecision t.
Proof. solve_decision. Defined.
End GroupState.
#[export] Existing Instance GroupState.eq_dec.

Module GroupStatus.
Inductive t := Ok | InvalidState | StartFailed | SelfJoin | DrainDeadlineExceeded.
End GroupStatus.

Definition checkedGroupConfig (c : EventLoopGroupConfig) : result EventLoopGroupConfig :=
  let overflows := (negb (loop_count c =? 0)
                    && (u64_max / loop_count c <? group_max_connections_per_loop c))%bool in
  if ((loop_count c =? 0) || (4294967295 <? loop_count c) || (group_max_connections c =? 0)
      || (group_max_connections_per_loop c =? 0) || (group_connection_queue_capacity c =? 0)
      || (group_max_connections_per_loop c <? group_connection_queue_capacity c)
      || (negb overflows
          && (wrap64 (loop_count c * group_max_connections_per_loop c) <? group_max_connections c)))%bool
  then Throw "invalid event loop group config" else Ok c.

(** Where [loopMain] is. *)
Inductive Phase :=
| NotLaunched
| Building                  (* the thread constructs its event loop *)
| WaitingStart              (* in [state_changed.wait] *)
| Checking                  (* before the test of [stop_requested] *)
| Polling                   (* in [pollOnce] *)
| Leaving (failed : bool)   (* before [event_loop->shutdown()] *)
| Finishing (failed : bool) (* before the last critical section *)
| Exited.

Record LoopSlot (L : Type) := mkSlot {
  slot_loop_id : Z;
  registrations : ConnectionMailbox;
  connection_load : Z;
  joinable : bool;
  slot_ready : bool;
  slot_startup_failed : bool;
  thread : Phase;
  slot_loop : option L;
}.
Arguments mkSlot {L}.
Arguments slot_loop_id {L}.
Arguments registrations {L}.
Arguments connection_load {L}.
Arguments joinable {L}.
Arguments slot_ready {L}.
Arguments slot_startup_failed {L}.
Arguments thread {L}.
Arguments slot_loop {L}.

Record Group (L : Type) := mkLoopGroup {
  group_config : EventLoopGroupConfig;
  router_closed : bool;
  drain_requested : bool;
  total_load : Z;                        (* the parent counter *)
  loops : list (LoopSlot L);
  group_state : GroupState.t;
  join_status : GroupStatus.t;
  ready_count : Z;
  next_loop_index : Z;
  stop_requested : bool;
  startup_failed : bool;
  loop_failed : bool;
  join_in_progress : bool;
}.
Arguments mkLoopGroup {L}.
Arguments group_config {L}.
Arguments router_closed {L}.
Arguments drain_requested {L}.
Arguments total_load {L}.
Arguments loops {L}.
Arguments group_state {L}.
Arguments join_status {L}.
Arguments ready_count {L}.
Arguments next_loop_index {L}.
Arguments stop_requested {L}.
Arguments startup_failed {L}.
Arguments loop_failed {L}.
Arguments join_in_progress {L}.

Section Operations.
Context {L : Type}.
Implicit Types (g : Group L) (s : LoopSlot L).

Definition set_slot (i : nat) s g : Group L := g <| loops := <[i := s]> (loops g) |>.

(** One slot per loop, each with a mailbox of its own; [wakes] are the
    descriptors that [eventfd] answers. *)
Fixpoint make_slots (index : Z) (capacity : Z) (wakes : list Z) : result (list (LoopSlot L)) :=
  match wakes with
  | [] => Ok []
  | wake :: wakes =>
      m ← make_connection_mailbox capacity wake;
      rest ← make_slots (index + 1) capacity wakes;
      Ok (mkSlot (wrap32 index) m 0 false false false NotLaunched None :: rest)
  end.

Definition make_group (c : EventLoopGroupConfig) (wakes : list Z) : result (Group L) :=
  c ← checkedGroupConfig c;
  slots ← make_slots 0 (group_connection_queue_capacity c) (take (Z.to_nat (loop_count c)) wakes);
  Ok (mkLoopGroup c false false 0 slots GroupState.Constructed GroupStatus.Ok 0 0 false false false false).

(** *** ConnectionLoadCounter

    [reserve] is one [fetch_add] on the counter of the loop and one on its
    parent, [release] one successful [compare_exchange] on each: the value that
    it stores, and what it took away. *)

Definition counter_reserve (load : Z) : Z := load ⊕ 1.
Definition counter_release (load count : Z) : Z * Z :=
  let next := if load <=? count then 0 else load ⊖ count in (next, load ⊖ next).

(** *** loopMain *)

(** The constructor of the event loop threw. *)
Definition loop_startup_failed (i : nat) s g : Group L :=
  set_slot i (s <| slot_ready := true |> <| slot_startup_failed := true |> <| thread := Exited |>) g
    <| startup_failed := true |> <| ready_count := ready_count g ⊕ 1 |>.

Definition loop_ready (i : nat) (l : L) s g : Group L :=
  set_slot i (s <| slot_ready := true |> <| slot_loop := Some l |> <| thread := WaitingStart |>) g
    <| ready_count := ready_count g ⊕ 1 |>.

(** The predicate of the wait. *)
Definition may_poll g : bool :=
  negb (bool_decide (group_state g = GroupState.Starting)) || stop_requested g.

Definition loop_check (i : nat) s g : Group L :=
  set_slot i (s <| thread := if stop_requested g then Leaving false else Polling |>) g.

Definition after_poll (st : EventLoopStatus.t) : Phase :=
  match st with
  | EventLoopStatus.Ok => Checking
  | EventLoopStatus.Stopped => Leaving false
  | _ => Leaving true
  end.

(** The last critical section; whether the other loops are woken. *)
Definition loop_finish (i : nat) (failed : bool) s g : Group L * bool :=
  let g := set_slot i (s <| thread := Exited |>) g in
  if failed then
    (g <| loop_failed := true |> <| stop_requested := true |> <| group_state := GroupState.Failed |>, true)
  else (g, false).

(** *** start, stop, drain and join *)

Inductive StartAnswer := StartReturned (st : GroupStatus.t) | StartWaits | StartCleansUp.

Definition launch s : LoopSlot L := s <| thread := Building |> <| joinable := true |>.

(** [launched] threads were created before [std::thread] threw, all of them
    when it did not. *)
Definition start_enter (launched : nat) g : Group L * StartAnswer :=
  if bool_decide (group_state g = GroupState.Running) then (g, StartReturned GroupStatus.Ok)
  else if negb (bool_decide (group_state g = GroupState.Constructed))
  then (g, StartReturned GroupStatus.InvalidState)
  else
    let g := g <| group_state := GroupState.Starting |> <| ready_count := 0 |> <| startup_failed := false |>
               <| stop_requested := false |>
               <| loops := (launch <$> take launched (loops g)) ++ drop launched (loops g) |> in
    if (launched <? length (loops g))%nat then
      (g <| startup_failed := true |> <| stop_requested := true |> <| group_state := GroupState.Stopping |>,
       StartCleansUp)
    else (g, StartWaits).

(** After the wait for [ready_count == loops.size()]. *)
Definition start_finish g : Group L * StartAnswer :=
  if (negb (startup_failed g) && stop_requested g)%bool then (g, StartReturned GroupStatus.InvalidState)
  else if startup_failed g then
    (g <| stop_requested := true |> <| group_state := GroupState.Stopping |>, StartCleansUp)
  else (g <| group_state := GroupState.Running |>, StartReturned GroupStatus.Ok).

(** The threads that were launched have been joined. *)
Definition start_cleaned g : Group L * GroupStatus.t :=
  (g <| group_state := GroupState.Failed |> <| join_status := GroupStatus.StartFailed |>
     <| loops := (fun s => s <| joinable := false |>) <$> loops g |>, GroupStatus.StartFailed).

(** Whether the mailboxes are closed next. *)
Definition stop g : Group L * bool :=
  match group_state g with
  | GroupState.Constructed =>
      (g <| stop_requested := true |> <| group_state := GroupState.Stopped |>, true)
  | GroupState.Starting | GroupState.Running | GroupState.Draining =>
      (g <| stop_requested := true |> <| group_state := GroupState.Stopping |>, true)
  | GroupState.Failed => (g <| stop_requested := true |>, true)
  | GroupState.Stopping | GroupState.Stopped => (g, false)
  end.

Definition beginDrain g : Group L * GroupStatus.t * bool :=
  if bool_decide (group_state g = GroupState.Draining) then (g, GroupStatus.Ok, false)
  else if negb (bool_decide (group_state g = GroupState.Running)) then (g, GroupStatus.InvalidState, false)
  else (g <| group_state := GroupState.Draining |> <| drain_requested := true |>, GroupStatus.Ok, true).

(** [drainUntil] before its wait ([None]: it waits) and after it. *)
Definition drain_enter g : option GroupStatus.t :=
  if negb (bool_decide (group_state g = GroupState.Draining)) then Some GroupStatus.InvalidState
  else if total_load g =? 0 then Some GroupStatus.Ok else None.

Definition drain_leave (drained : bool) g : GroupStatus.t :=
  if (drained && (total_load g =? 0))%bool then GroupStatus.Ok
  else if negb (bool_decide (group_state g = GroupState.Draining)) then GroupStatus.InvalidState
  else GroupStatus.DrainDeadlineExceeded.

Inductive JoinAnswer := JoinReturned (st : GroupStatus.t) | JoinWaits | JoinJoins.

(** [self]: the caller is the thread of a loop that is ready. *)
Definition join_enter (self : bool) g : Group L * JoinAnswer :=
  if self then (g, JoinReturned GroupStatus.SelfJoin)
  else
    match group_state g with
    | GroupState.Constructed | GroupState.Starting | GroupState.Running | GroupState.Draining =>
        (g, JoinReturned GroupStatus.InvalidState)
    | _ =>
        if join_in_progress g then (g, JoinWaits)
        else if forallb (fun s => negb (joinable s)) (loops g) then
          (if bool_decide (group_state g = GroupState.Stopping)
           then g <| group_state := GroupState.Stopped |> else g, JoinReturned (join_status g))
        else
          (g <| loops := (fun s => s <| joinable := false |>) <$> loops g |> <| join_in_progress := true |>,
           JoinJoins)
    end.

(** The threads have been joined. *)
Definition join_finish g : Group L * GroupStatus.t :=
  let status := if loop_failed g then GroupStatus.StartFailed else GroupStatus.Ok in
  let g := g <| join_status := status |> in
  let g := if (negb (loop_failed g) && negb (bool_decide (group_state g = GroupState.Failed)))%bool
           then g <| group_state := GroupState.Stopped |> else g in
  (g <| join_in_progress := false |>, status).

(** *** tryDispatch *)

(** The checks under the mutex: the index of the loop that gets the socket;
    otherwise the socket is closed. *)
Definition dispatch_target (socket : Z) g : Group L * option nat :=
  if negb (socket_valid socket) then (g, None)
  else if negb (bool_decide (group_state g = GroupState.Running)) then (g, None)
  else if group_max_connections (group_config g) <=? total_load g then (g, None)
  else
    let target := next_loop_index g in
    let g := g <| next_loop_index := (next_loop_index g ⊕ 1) mod size_of (loops g) |> in
    match loops g !! Z.to_nat target with
    | Some s =>
        if group_max_connections_per_loop (group_config g) <=? connection_load s then (g, None)
        else (g, Some (Z.to_nat target))
    | None => (g, None)
    end.
End Operations.

(** ** All threads together *)

(** Where the dispatcher is, which holds the mutex. *)
Inductive DispatchPhase := DReserve | DCount | DPost.

Inductive Starter := StartIdle | StartWaiting | StartCleaning.

Record GroupSystem (L : Type) := mkGroupSystem {
  group : Group L;
  dispatcher : option (DispatchPhase * nat * Z);   (* phase, target, socket *)
  owed : list (nat * Z);        (* calls of [release] on the counter of a loop under way *)
  owed_total : list Z;          (* calls of [release] on the parent under way *)
  closers : list nat;           (* threads in [closeRegistrationMailboxes], their index *)
  starter : Starter;
  joining : bool;
  given : list Z;               (* valid sockets given to [tryDispatch] *)
  closed : list Z;
}.
Arguments mkGroupSystem {L}.
Arguments group {L}.
Arguments dispatcher {L}.
Arguments owed {L}.
Arguments owed_total {L}.
Arguments closers {L}.
Arguments starter {L}.
Arguments joining {L}.
Arguments given {L}.
Arguments closed {L}.

Section Steps.
Context {L : Type} `{IEventLoop L}.
Implicit Types (s : GroupSystem L) (sl : LoopSlot L).

(** The sockets that a loop and its mailbox hold. *)
Definition slot_open sl : list Z := from_option (fun l => loop_open l (registrations sl)) [] (slot_loop sl).
Definition all_open s : list Z := mjoin (slot_open <$> loops (group s)).
Definition in_hand s : list Z := from_option (fun d => [d.2]) [] (dispatcher s).

Definition set_group (g : Group L) s : GroupSystem L := s <| group := g |>.
Definition put_slot (i : nat) sl s : GroupSystem L := set_group (set_slot i sl (group s)) s.

(** A thread that closes the mailboxes and the completion router. *)
Definition start_closer (close : bool) s : GroupSystem L :=
  if close then s <| closers := 0%nat :: closers s |>
                  <| group := (group s) <| router_closed := true |> |>
  else s.

Definition after_start (a : StartAnswer) s : GroupSystem L :=
  match a with
  | StartReturned _ => s <| starter := StartIdle |>
  | StartWaits => s <| starter := StartWaiting |>
  | StartCleansUp => start_closer true (s <| starter := StartCleaning |>)
  end.

Definition gone (p : Phase) : Prop := p = NotLaunched \/ p = Exited.

(** [mutex] is free. *)
Definition unlocked s : Prop := dispatcher s = None.

Inductive gstep : GroupSystem L -> GroupSystem L -> Prop :=
(* tryDispatch *)
| g_dispatch s socket g :
    unlocked s -> socket ∉ all_open s -> dispatch_target socket (group s) = (g, None) ->
    gstep s (set_group g s <| given := given s ++ socket_reset socket |>
                           <| closed := closed s ++ socket_reset socket |>)
| g_dispatch_to s socket g i :
    unlocked s -> socket ∉ all_open s -> dispatch_target socket (group s) = (g, Some i) ->
    gstep s (set_group g s <| given := given s ++ [socket] |> <| dispatcher := Some (DReserve, i, socket) |>)
| g_reserve s i socket sl :
    dispatcher s = Some (DReserve, i, socket) -> loops (group s) !! i = Some sl ->
    gstep s (put_slot i (sl <| connection_load := counter_reserve (connection_load sl) |>) s
               <| dispatcher := Some (DCount, i, socket) |>)
| g_count s i socket :
    dispatcher s = Some (DCount, i, socket) ->
    gstep s (set_group ((group s) <| total_load := counter_reserve (total_load (group s)) |>) s
               <| dispatcher := Some (DPost, i, socket) |>)
| g_post s i socket sl writes m posted fds :
    dispatcher s = Some (DPost, i, socket) -> loops (group s) !! i = Some sl ->
    connection_tryPost (registrations sl) socket writes = Some (m, posted, fds) ->
    gstep s (put_slot i (sl <| registrations := m |>) s
               <| dispatcher := None |> <| closed := closed s ++ fds |>
               <| owed := if (posted : bool) then owed s else (i, 1) :: owed s |>)
(* ConnectionLoadCounter::release *)
| g_release s i count rest sl next taken :
    owed s ≡ₚ (i, count) :: rest -> loops (group s) !! i = Some sl ->
    counter_release (connection_load sl) count = (next, taken) ->
    gstep s (put_slot i (sl <| connection_load := next |>) s
               <| owed := rest |>
               <| owed_total := if taken =? 0 then owed_total s else taken :: owed_total s |>)
| g_release_total s count rest :
    owed_total s ≡ₚ count :: rest ->
    gstep s (set_group ((group s) <| total_load := (counter_release (total_load (group s)) count).1 |>) s
               <| owed_total := rest |>)
(* closeRegistrationMailboxes *)
| g_close_slot s k rest sl m discarded fds :
    closers s ≡ₚ k :: rest -> loops (group s) !! k = Some sl ->
    connection_close (registrations sl) = (m, discarded, fds) ->
    gstep s (put_slot k (sl <| registrations := m |>) s
               <| closers := S k :: rest |> <| closed := closed s ++ fds |>
               <| owed := if discarded =? 0 then owed s else (k, discarded) :: owed s |>)
| g_close_done s k rest :
    closers s ≡ₚ k :: rest -> loops (group s) !! k = None -> gstep s (s <| closers := rest |>)
(* loopMain *)
| g_build_failed s i sl :
    unlocked s -> loops (group s) !! i = Some sl -> thread sl = Building ->
    gstep s (set_group (loop_startup_failed i sl (group s)) s)
| g_built s i sl l :
    unlocked s -> loops (group s) !! i = Some sl -> thread sl = Building -> loop_made l (registrations sl) ->
    gstep s (set_group (loop_ready i l sl (group s)) s)
| g_begin s i sl :
    unlocked s -> loops (group s) !! i = Some sl -> thread sl = WaitingStart -> may_poll (group s) = true ->
    gstep s (put_slot i (sl <| thread := Checking |>) s)
| g_check s i sl :
    unlocked s -> loops (group s) !! i = Some sl -> thread sl = Checking ->
    gstep s (set_group (loop_check i sl (group s)) s)
| g_poll s i sl l l' m fds releases st :
    loops (group s) !! i = Some sl -> thread sl = Polling -> slot_loop sl = Some l ->
    loop_poll l (registrations sl) l' m fds releases st ->
    gstep s (put_slot i (sl <| registrations := m |> <| slot_loop := Some l' |> <| thread := after_poll st |>) s
               <| closed := closed s ++ fds |> <| owed := replicate (Z.to_nat releases) (i, 1) ++ owed s |>)
| g_shutdown s i sl failed l l' m fds releases :
    loops (group s) !! i = Some sl -> thread sl = Leaving failed -> slot_loop sl = Some l ->
    loop_shutdown l (registrations sl) l' m fds releases ->
    gstep s (put_slot i (sl <| registrations := m |> <| slot_loop := Some l' |> <| thread := Finishing failed |>) s
               <| closed := closed s ++ fds |> <| owed := replicate (Z.to_nat releases) (i, 1) ++ owed s |>)
| g_finish s i sl failed g wake :
    unlocked s -> loops (group s) !! i = Some sl -> thread sl = Finishing failed ->
    loop_finish i failed sl (group s) = (g, wake) ->
    gstep s (start_closer wake (set_group g s))
(* start, stop, drain, join *)
| g_start s launched g answer :
    unlocked s -> starter s = StartIdle -> (launched <= length (loops (group s)))%nat ->
    start_enter launched (group s) = (g, answer) ->
    gstep s (after_start answer (set_group g s))
| g_start_ready s g answer :
    unlocked s -> starter s = StartWaiting -> ready_count (group s) = size_of (loops (group s)) ->
    start_finish (group s) = (g, answer) ->
    gstep s (after_start answer (set_group g s))
| g_start_cleaned s :
    unlocked s -> starter s = StartCleaning -> Forall (fun sl => gone (thread sl)) (loops (group s)) ->
    gstep s (set_group (start_cleaned (group s)).1 s <| starter := StartIdle |>)
| g_stop s g close :
    unlocked s -> stop (group s) = (g, close) -> gstep s (start_closer close (set_group g s))
| g_drain s g st close :
    unlocked s -> beginDrain (group s) = (g, st, close) ->
    gstep s ((set_group g s) <| closers := if (close : bool) then 0%nat :: closers s else closers s |>)
| g_join s self g answer :
    unlocked s -> join_enter self (group s) = (g, answer) ->
    gstep s (set_group g s <| joining := match answer with JoinJoins => true | _ => joining s end |>)
| g_join_finish s :
    unlocked s -> joining s = true -> Forall (fun sl => gone (thread sl)) (loops (group s)) ->
    gstep s (set_group (join_finish (group s)).1 s <| joining := false |>).

Definition fresh_group (g : Group L) : Prop :=
  exists config wakes, make_group config wakes = Ok g /\ size_of wakes = loop_count config
    /\ is_u64 (group_max_connections config) /\ is_u64 (group_max_connections_per_loop config)
    /\ is_u64 (group_connection_queue_capacity config).

Definition group_start (g : Group L) : GroupSystem L := mkGroupSystem g None [] [] [] StartIdle false [] [].

Definition reachable_group s : Prop := exists g, fresh_group g /\ rtc gstep (group_start g) s.
End Steps.
