(* ===== verification/EventLoopGroupSafety.v ===== *)
(** * EventLoopGroupSafety: the connections of a group of loops

    Invariants of every interleaving of [EventLoopGroup]: the life cycle of the
    loop threads, the sockets that the loops hold, and the connection counters.
    They are proved for every loop that satisfies [EventLoopLaws]; the sample
    execution at the end runs the real event loop. *)

From S2P Require Import Prelude Posix Ring Codec Limits TimerCore Timer Scheduler.
From S2P Require Import WorkerPool Mailbox Config Session EventLoop EventLoopSafety EventLoopContract EventLoopGroup.
Open Scope Z_scope.

(** ** Lists of slots *)

Lemma mjoin_insert_perm {A B} (f : A -> list B) (l : list A) i x y :
  l !! i = Some x -> mjoin (f <$> <[i := y]> l) ++ f x ≡ₚ mjoin (f <$> l) ++ f y.
Proof.
  revert i. induction l as [|z l IH]; intros [|i] Hi; simplify_eq/=.
  - solve_Permutation.
  - rewrite <-!app_assoc, (IH _ Hi). done.
Qed.

Lemma zsum_insert {A} (f : A -> Z) (l : list A) i x y :
  l !! i = Some x -> zsum (f <$> <[i := y]> l) = zsum (f <$> l) - f x + f y.
Proof.
  revert i. induction l as [|z l IH]; intros [|i] Hi; simplify_eq/=; [lia|]. rewrite (IH _ Hi). lia.
Qed.

Lemma zsum_lookup_le {A} (f : A -> Z) (l : list A) i x :
  Forall (fun x => 0 <= f x) l -> l !! i = Some x -> f x <= zsum (f <$> l).
Proof.
  intros Hf. revert i. induction Hf as [|z l Hz Hf IH]; intros [|i] Hi; simplify_eq/=.
  - pose proof (zsum_nonneg (f <$> l)) as Hn. rewrite Forall_fmap in Hn. specialize (Hn Hf). lia.
  - specialize (IH _ Hi). lia.
Qed.

(** [filter] counted as a sum. *)
Definition one_if (b : bool) : Z := if b then 1 else 0.

Lemma all_counted {A} (p : A -> bool) (l : list A) :
  zsum ((fun x => one_if (p x)) <$> l) = size_of l -> Forall (fun x => p x = true) l.
Proof.
  assert (Hle : forall k : list A, zsum ((fun x => one_if (p x)) <$> k) <= size_of k).
  { intros k. induction k as [|x k IH]; [done|]. rewrite fmap_cons, size_of_cons. cbn [zsum]. destruct (p x); cbn [one_if]; lia. }
  induction l as [|x l IH]; [by constructor|]. rewrite fmap_cons, size_of_cons. cbn [zsum]. specialize (Hle l). intros Hs.
  destruct (p x) eqn:Ex; cbn [one_if] in Hs; [|lia]. constructor; [done|]. apply IH. lia.
Qed.

(** ** The life cycle *)

Section Phases.
Context {L : Type} `{IEventLoop L}.
Implicit Types (s : GroupSystem L) (sl : LoopSlot L) (g : Group L).

Definition phase_ok g sl : Prop :=
  match thread sl with
  | NotLaunched | Building => slot_loop sl = None /\ slot_ready sl = false /\ slot_startup_failed sl = false
  | WaitingStart | Checking | Polling | Leaving _ | Finishing _ => is_Some (slot_loop sl) /\ slot_ready sl = true
  | Exited => slot_ready sl = true /\ (is_Some (slot_loop sl) \/ slot_startup_failed sl = true)
  end
  /\ (slot_startup_failed sl = true -> startup_failed g = true).

(** Threads past their last use of the loop, or never started. *)
Record phases s : Prop := {
  ph_slots : Forall (phase_ok (group s)) (loops (group s));
  ph_ready : ready_count (group s) = zsum ((fun sl => one_if (slot_ready sl)) <$> loops (group s));
  ph_fresh : group_state (group s) = GroupState.Constructed ->
             Forall (fun sl => thread sl = NotLaunched) (loops (group s)) /\ starter s = StartIdle;
  ph_running : group_state (group s) = GroupState.Running \/ group_state (group s) = GroupState.Draining ->
               Forall (fun sl => is_Some (slot_loop sl)) (loops (group s));
  ph_target p i socket : dispatcher s = Some (p, i, socket) ->
    0 <= socket /\ exists sl, loops (group s) !! i = Some sl /\ is_Some (slot_loop sl);
  ph_index : 0 <= next_loop_index (group s) < size_of (loops (group s));
  ph_count : size_of (loops (group s)) = loop_count (group_config (group s)) /\ size_of (loops (group s)) < two32;
}.

(** A slot keeps its place in the life cycle, or moves on. *)
Definition advances sl sl' : Prop :=
  slot_ready sl' = slot_ready sl /\ slot_startup_failed sl' = slot_startup_failed sl
  /\ (is_Some (slot_loop sl) -> is_Some (slot_loop sl'))
  /\ (thread sl = NotLaunched -> thread sl' = NotLaunched).

(** The step only moves one slot on. *)
Lemma phases_slot s s' i sl sl' :
  phases s -> loops (group s) !! i = Some sl -> advances sl sl' -> phase_ok (group s) sl' ->
  loops (group s') = <[i := sl']> (loops (group s)) ->
  (startup_failed (group s'), ready_count (group s'), group_state (group s'), next_loop_index (group s'),
     group_config (group s'), starter s')
  = (startup_failed (group s), ready_count (group s), group_state (group s), next_loop_index (group s),
     group_config (group s), starter s) ->
  (forall p j socket, dispatcher s' = Some (p, j, socket) -> exists p', dispatcher s = Some (p', j, socket)) ->
  phases s'.
Proof.
  intros [A1 A2 A3 A4 A5 A6 A7] Hi (G1 & G2 & G3 & G4) Hok Hl Heq Hd.
  injection Heq as E1 E2 E3 E4 E5 E6. split; rewrite ?Hl, ?E2, ?E3, ?E4, ?E5, ?E6; try done.
  - apply Forall_insert; [|unfold phase_ok in *; by rewrite E1]. eapply Forall_impl; [exact A1|].
    intros x. unfold phase_ok. by rewrite E1.
  - rewrite (zsum_insert _ _ _ _ _ Hi), G1. lia.
  - intros Hc. destruct (A3 Hc) as [Hf Hs]. split; [|done]. apply Forall_insert; [done|]. apply G4.
    by apply (Forall_lookup_1 _ _ _ _ Hf Hi).
  - intros Hr. specialize (A4 Hr). apply Forall_insert; [done|]. apply G3. by apply (Forall_lookup_1 _ _ _ _ A4 Hi).
  - intros p j socket Hd'. destruct (Hd _ _ _ Hd') as (p' & Hp). destruct (A5 _ _ _ Hp) as (Hn & x & Hx & Hxl).
    split; [done|]. destruct (decide (j = i)) as [->|Hne].
    + exists sl'. rewrite list_lookup_insert_eq by (by eapply lookup_lt_Some). split; [done|]. apply G3. congruence.
    + exists x. by rewrite list_lookup_insert_ne.
  - unfold size_of in *. by rewrite length_insert.
  - unfold size_of in *. by rewrite length_insert.
Qed.

Lemma phases_same s s' :
  phases s ->
  (loops (group s'), startup_failed (group s'), ready_count (group s'), group_state (group s'),
     next_loop_index (group s'), (group_config (group s'), starter s', dispatcher s'))
  = (loops (group s), startup_failed (group s), ready_count (group s), group_state (group s),
     next_loop_index (group s), (group_config (group s), starter s, dispatcher s)) ->
  phases s'.
Proof.
  intros [A1 A2 A3 A4 A5 A6 A7] Heq. injection Heq as E0 E1 E2 E3 E4 E5 E6 E7.
  split; rewrite ?E0, ?E2, ?E3, ?E4, ?E5, ?E6, ?E7; try done.
  eapply Forall_impl; [exact A1|]. intros x. unfold phase_ok. by rewrite E1.
Qed.

(** What [tryDispatch] checked. *)
Lemma dispatch_target_spec s socket g t :
  phases s -> dispatch_target socket (group s) = (g, t) ->
  (loops g, startup_failed g, ready_count g, group_state g, group_config g, total_load g)
    = (loops (group s), startup_failed (group s), ready_count (group s), group_state (group s),
       group_config (group s), total_load (group s))
  /\ 0 <= next_loop_index g < size_of (loops (group s))
  /\ match t with
     | None => True
     | Some i => 0 <= socket /\ group_state (group s) = GroupState.Running
         /\ total_load (group s) < group_max_connections (group_config (group s))
         /\ exists sl, loops (group s) !! i = Some sl
              /\ connection_load sl < group_max_connections_per_loop (group_config (group s))
     end.
Proof.
  intros [_ _ _ _ _ A6 _]. unfold dispatch_target, socket_valid.
  destruct (Z.leb_spec 0 socket); cbn [negb]; [|by intros [= <- <-]].
  case_bool_decide as Hr; cbn [negb]; [|by intros [= <- <-]].
  destruct (Z.leb_spec (group_max_connections (group_config (group s))) (total_load (group s))); [by intros [= <- <-]|].
  cbn zeta. simpl. assert (0 <= (next_loop_index (group s) ⊕ 1) mod size_of (loops (group s)) < size_of (loops (group s)))
    by (apply Z.mod_pos_bound; lia).
  destruct (loops (group s) !! Z.to_nat (next_loop_index (group s))) as [sl|] eqn:Hl; [|by intros [= <- <-]].
  destruct (Z.leb_spec (group_max_connections_per_loop (group_config (group s))) (connection_load sl));
    [by intros [= <- <-]|]. intros [= <- <-]. split; [done|]. split; [done|]. split; [done|]. split; [done|]. split; [done|]. by exists sl.
Qed.

Lemma phases_dispatch s socket g t d :
  phases s -> dispatch_target socket (group s) = (g, t) ->
  (forall p i k, d = Some (p, i, k) -> k = socket /\ t = Some i) ->
  forall s', group s' = g -> starter s' = starter s -> dispatcher s' = d -> phases s'.
Proof.
  intros Hp Ht Hd s' Eg Es Ed. destruct (dispatch_target_spec _ _ _ _ Hp Ht) as (Heq & Hn & Hx).
  destruct Hp as [A1 A2 A3 A4 A5 A6 A7]. injection Heq as E0 E1 E2 E3 E4 E5.
  split; rewrite ?Eg, ?Es, ?Ed, ?E0, ?E2, ?E3, ?E4; try done.
  - eapply Forall_impl; [exact A1|]. intros x. unfold phase_ok. by rewrite E1.
  - intros p i k Hk. destruct (Hd _ _ _ Hk) as [-> ->]. destruct Hx as (H0 & Hr & _ & sl & Hs & _).
    split; [done|]. exists sl. split; [done|]. apply (Forall_lookup_1 _ _ _ _ (A4 (or_introl Hr)) Hs).
Qed.

(** The loop threads that become ready. *)
Lemma phases_ready s i sl sl' (failed : bool) g :
  phases s -> unlocked s -> loops (group s) !! i = Some sl -> thread sl = Building ->
  slot_ready sl' = true -> phase_ok ((group s) <| startup_failed := (failed || startup_failed (group s))%bool |>) sl' ->
  thread sl' <> NotLaunched -> 
  g = (set_slot i sl' (group s)) <| startup_failed := (failed || startup_failed (group s))%bool |>
        <| ready_count := ready_count (group s) ⊕ 1 |> ->
  phases (set_group g s).
Proof.
  intros [A1 A2 A3 A4 A5 A6 A7] Hu Hi Hb Hr Hok Hnl ->.
  pose proof (Forall_lookup_1 _ _ _ _ A1 Hi) as [Hsl _]. rewrite Hb in Hsl. destruct Hsl as (Hn & Hrd & _).
  assert (Hge : zsum ((fun sl => one_if (slot_ready sl)) <$> <[i := sl']> (loops (group s))) <= size_of (loops (group s))).
  { assert (forall k : list (LoopSlot L), zsum ((fun x => one_if (slot_ready x)) <$> k) <= size_of k) as Hle.
    { intros k. induction k as [|x k IH]; [done|]. rewrite fmap_cons, size_of_cons. cbn [zsum].
      destruct (slot_ready x); cbn [one_if]; lia. }
    etransitivity; [apply Hle|]. unfold size_of. by rewrite length_insert. }
  assert (Hpos : 0 <= zsum ((fun sl => one_if (slot_ready sl)) <$> loops (group s))).
  { apply zsum_nonneg, Forall_fmap, Forall_true. intros x. simpl. unfold one_if. by destruct (slot_ready x). }
  rewrite (zsum_insert _ _ _ _ _ Hi), Hr, Hrd in Hge. cbn [one_if] in Hge.
  split; simpl; try done.
  - apply Forall_insert; [|done]. eapply Forall_impl; [exact A1|]. intros x [Hx1 Hx2]. split; [done|].
    intros Hf. simpl. rewrite (Hx2 Hf). by rewrite orb_true_r.
  - rewrite (zsum_insert _ _ _ _ _ Hi), Hr, Hrd, A2. cbn [one_if]. rewrite wrap64_small; [lia|].
    unfold is_u64. lia.
  - intros Hc. destruct (A3 Hc) as [Hf _]. pose proof (Forall_lookup_1 _ _ _ _ Hf Hi) as Hx. simpl in Hx. congruence.
  - intros Hrun. pose proof (Forall_lookup_1 _ _ _ _ (A4 Hrun) Hi) as Hx. simpl in Hx. rewrite Hn in Hx. by destruct Hx.
  - intros p j k Hd. unfold unlocked in Hu. congruence.
  - unfold size_of in *. by rewrite length_insert.
  - unfold size_of in *. by rewrite length_insert.
Qed.

(** A step that touches neither the slots nor the dispatcher. *)
Lemma phases_state s s' :
  phases s -> loops (group s') = loops (group s) -> dispatcher s' = dispatcher s ->
  (ready_count (group s'), next_loop_index (group s'), group_config (group s'))
    = (ready_count (group s), next_loop_index (group s), group_config (group s)) ->
  (startup_failed (group s) = true -> startup_failed (group s') = true) ->
  (group_state (group s') <> GroupState.Constructed \/
   group_state (group s') = group_state (group s) /\ starter s' = starter s) ->
  (group_state (group s') = GroupState.Running \/ group_state (group s') = GroupState.Draining ->
   Forall (fun sl => is_Some (slot_loop sl)) (loops (group s))) ->
  phases s'.
Proof.
  intros [A1 A2 A3 A4 A5 A6 A7] El Ed Heq Hf Hc Hr. injection Heq as E1 E2 E3.
  split; rewrite ?El, ?Ed, ?E1, ?E2, ?E3; try done.
  - eapply Forall_impl; [exact A1|]. intros x [Hx1 Hx2]. split; [done|]. auto.
  - destruct Hc as [Hc|[-> ->]]; [by intros ?|done].
Qed.

(** Before a thread is ready. *)
Definition idle_slot sl : Prop :=
  slot_loop sl = None /\ slot_ready sl = false /\ slot_startup_failed sl = false
  /\ (thread sl = NotLaunched \/ thread sl = Building).

Lemma idle_phase g sl : idle_slot sl -> phase_ok g sl.
Proof. intros (H1 & H2 & H3 & [Ht|Ht]); unfold phase_ok; rewrite Ht, H1, H2, H3; by split. Qed.

Lemma phases_start s launched g answer :
  phases s -> unlocked s -> starter s = StartIdle -> (launched <= length (loops (group s)))%nat ->
  start_enter launched (group s) = (g, answer) -> phases (after_start answer (set_group g s)).
Proof.
  intros Hp Hu Hst Hle. unfold start_enter. case_bool_decide as Hrun.
  { intros [= <- <-]. apply (phases_same s); [done|]. simpl. by rewrite Hst. }
  case_bool_decide as Hc; cbn [negb]; [|intros [= <- <-]; apply (phases_same s); [done|]; simpl; by rewrite Hst].
  set (ls := (launch <$> take launched (loops (group s))) ++ drop launched (loops (group s))).
  destruct Hp as [A1 A2 A3 A4 A5 A6 A7]. destruct (A3 Hc) as [Hnl _].
  assert (Hsz : size_of ls = size_of (loops (group s)))
    by (unfold size_of, ls; rewrite length_app, length_fmap, length_take, length_drop; lia).
  assert (Hall : Forall (fun sl => idle_slot sl) (loops (group s))).
  { apply Forall_forall. intros x Hx. rewrite Forall_forall in A1, Hnl. destruct (A1 x Hx) as [G1 _].
    rewrite (Hnl x Hx) in G1. destruct G1 as (G1 & G2 & G3). split_and!; auto. }
  assert (Hls : Forall idle_slot ls).
  { apply Forall_app. split; [|by apply Forall_drop]. apply Forall_fmap. eapply Forall_impl; [apply Forall_take, Hall|].
    intros x (G1 & G2 & G3 & _). split_and!; auto. }
  assert (Hr : zsum ((fun sl => one_if (slot_ready sl)) <$> ls) = 0).
  { clear -Hls. induction Hls as [|x l (_ & Hx & _) _ IH]; [done|]. rewrite fmap_cons. cbn [zsum]. rewrite Hx, IH. done. }
  assert (forall s', loops (group s') = ls -> ready_count (group s') = 0 -> dispatcher s' = dispatcher s ->
    group_config (group s') = group_config (group s) -> next_loop_index (group s') = next_loop_index (group s) ->
    group_state (group s') = GroupState.Starting \/ group_state (group s') = GroupState.Stopping -> phases s') as Hgo.
  { intros s' E1 E2 E3 E4 E5 E6. split; rewrite ?E1, ?E2, ?E3, ?E4, ?E5; try done; try (by rewrite Hsz).
    - eapply Forall_impl; [exact Hls|]. intros x. apply idle_phase.
    - intros ?. destruct E6; congruence.
    - intros ?. destruct E6; intuition congruence.
    - intros p i k Hd. unfold unlocked in Hu. congruence. }
  simpl. destruct (_ <? _)%nat; intros [= <- <-]; apply Hgo; simpl; auto.
Qed.

Lemma phases_start_ready s g answer :
  phases s -> unlocked s -> ready_count (group s) = size_of (loops (group s)) -> starter s = StartWaiting ->
  start_finish (group s) = (g, answer) -> phases (after_start answer (set_group g s)).
Proof.
  intros Hp Hu Hrc Hst. unfold start_finish. pose proof Hp as [A1 A2 A3 A4 A5 A6 A7].
  assert (group_state (group s) <> GroupState.Constructed) as Hnc by (intros Hc; destruct (A3 Hc); congruence).
  destruct (startup_failed (group s)) eqn:Ef; simpl.
  - intros [= <- <-]. apply (phases_state s); simpl; auto. intuition congruence.
  - destruct (stop_requested (group s)); intros [= <- <-]; apply (phases_state s); simpl; auto.
    intros _. rewrite A2 in Hrc. apply all_counted in Hrc. rewrite Forall_forall in *. intros x Hx.
    destruct (A1 x Hx) as [G1 G2]. specialize (Hrc x Hx). simpl in Hrc. rewrite Ef in G2.
    destruct (thread x); try (by destruct G1); try (destruct G1 as (_ & ? & _); congruence).
    destruct G1 as [_ [|G3]]; [done|]. by specialize (G2 G3).
Qed.

Lemma phases_idle_states s s' :
  phases s -> loops (group s') = loops (group s) -> dispatcher s' = dispatcher s ->
  (ready_count (group s'), next_loop_index (group s'), group_config (group s'), startup_failed (group s'))
    = (ready_count (group s), next_loop_index (group s), group_config (group s), startup_failed (group s)) ->
  (group_state (group s') = group_state (group s) /\ starter s' = starter s)
  \/ group_state (group s') = GroupState.Stopping \/ group_state (group s') = GroupState.Stopped
  \/ group_state (group s') = GroupState.Failed
  \/ (group_state (group s') = GroupState.Draining /\ group_state (group s) = GroupState.Running) ->
  phases s'.
Proof.
  intros Hp El Ed Heq Hs. injection Heq as E1 E2 E3 E4. apply (phases_state s); try done; [congruence|congruence|..].
  - intuition congruence.
  - intros Hr. apply (ph_running _ Hp). intuition congruence.
Qed.

Lemma phases_joinable s s' :
  phases s -> loops (group s') = (fun sl => sl <| joinable := false |>) <$> loops (group s) ->
  dispatcher s' = dispatcher s ->
  (ready_count (group s'), next_loop_index (group s'), group_config (group s'), startup_failed (group s'))
    = (ready_count (group s), next_loop_index (group s), group_config (group s), startup_failed (group s)) ->
  group_state (group s') = GroupState.Failed
  \/ (group_state (group s') = group_state (group s) /\ starter s' = starter s) ->
  phases s'.
Proof.
  intros [A1 A2 A3 A4 A5 A6 A7] El Ed Heq Hs. injection Heq as E1 E2 E3 E4.
  split; rewrite ?El, ?Ed, ?E1, ?E2, ?E3, ?E4; unfold size_of in *; rewrite ?length_fmap; try done.
  - apply Forall_fmap. eapply Forall_impl; [exact A1|]. intros x. unfold phase_ok. simpl. by rewrite E4.
  - rewrite <-list_fmap_compose. exact A2.
  - intros Hc. destruct Hs as [Hs|[Hs ->]]; [congruence|]. rewrite Hs in Hc. destruct (A3 Hc). split; [|done]. by apply Forall_fmap.
  - intros Hr. destruct Hs as [Hs|[Hs _]]; [intuition congruence|]. rewrite Hs in Hr. apply Forall_fmap. by apply A4.
  - intros p i k Hd. destruct (A5 _ _ _ Hd) as (H0 & sl & Hl & Hx). split; [done|].
    exists (sl <| joinable := false |>). by rewrite list_lookup_fmap, Hl.
Qed.

Lemma phase_of s i sl : phases s -> loops (group s) !! i = Some sl -> phase_ok (group s) sl.
Proof. intros Hp Hi. apply (Forall_lookup_1 _ _ _ _ (ph_slots _ Hp) Hi). Qed.

Lemma phases_step s s' : gstep s s' -> phases s -> phases s'.
Proof.
  intros Hs Hp. destruct Hs;
    try match goal with Hi : loops (group _) !! _ = Some ?sl |- _ =>
          pose proof (phase_of _ _ _ Hp Hi) as Hok; unfold phase_ok in Hok end;
    try match goal with Ht : thread ?sl = _ |- _ => rewrite Ht in Hok end.
  (* the slot moves on *)
  all: try (eapply (phases_slot s); [done|eassumption|..|reflexivity|reflexivity|];
            [split_and!; simpl; try done; try congruence; by intros|
             unfold phase_ok; simpl; try match goal with Ht : thread ?sl = _ |- _ => rewrite ?Ht end; by auto|
             simpl; try done; intros; simplify_eq; eauto]; fail).
  - by apply (phases_dispatch s socket g None None).
  - eapply (phases_dispatch s socket g (Some i)); [done|done| |done|done|reflexivity]. by intros ? ? ? [= <- <- <-].
  - destruct Hp as [A1 A2 A3 A4 A5 A6 A7]. split; simpl; try done. intros ? ? ? [= <- <- <-]. by eapply A5.
  - by apply (phases_same s).
  - by apply (phases_same s).
  - destruct Hok as [(Hn & Hr & Hf) _].
    apply (phases_ready s i sl (sl <| slot_ready := true |> <| slot_startup_failed := true |> <| thread := Exited |>) true);
      try done. by split; [split; [|right]|].
  - destruct Hok as [(Hn & Hr & Hf) _].
    apply (phases_ready s i sl (sl <| slot_ready := true |> <| slot_loop := Some l |> <| thread := WaitingStart |>) false);
      try done. split; [|simpl; congruence]. by split.
  - destruct Hok as [(Hn & Hr) Hf]. eapply (phases_slot s); [done|eassumption|..|reflexivity|reflexivity|by eauto].
    + split_and!; simpl; try done; congruence.
    + split; [|done]. simpl. by destruct (stop_requested (group s)).
  - destruct Hok as [(Hn & Hr) Hf]. eapply (phases_slot s); [done|eassumption|..|reflexivity|reflexivity|by eauto].
    + split_and!; simpl; try done; congruence.
    + split; [|done]. by destruct st.
  - destruct Hok as [(Hn & Hr) Hf]. eapply (phases_slot s); [done|eassumption|..|reflexivity|reflexivity|by eauto].
    + split_and!; simpl; try done; congruence.
    + by split.
  - destruct Hok as [(Hn & Hr) Hf].
    assert (phases (put_slot i (sl <| thread := Exited |>) s)) as Hp1.
    { eapply (phases_slot s); [done|eassumption|..|reflexivity|reflexivity|by eauto].
      - split_and!; simpl; try done; congruence.
      - split; [|done]. simpl. auto. }
    destruct failed; simplify_eq/=; [|by apply (phases_same _ _ Hp1)].
    apply (phases_idle_states _ _ Hp1); simpl; auto.
  - by apply (phases_start s launched).
  - by apply (phases_start_ready s).
  - apply (phases_joinable s); simpl; auto.
  - unfold stop in *. destruct (group_state (group s)) eqn:Es; simplify_eq; apply (phases_idle_states s); simpl; auto.
  - unfold beginDrain in *. repeat case_bool_decide; simplify_eq/=; apply (phases_idle_states s); simpl; auto 10.
  - unfold join_enter in *. destruct self; [simplify_eq; by apply (phases_same s)|].
    destruct (group_state (group s)) eqn:Es; try (simplify_eq; by apply (phases_same s)).
    all: destruct (join_in_progress (group s)); [simplify_eq; by apply (phases_same s)|].
    all: destruct (forallb _ _); simplify_eq/=; try (apply (phases_joinable s); simpl; auto; fail).
    all: try case_bool_decide; apply (phases_idle_states s); simpl; auto.
  - unfold join_finish. destruct (_ && _)%bool; apply (phases_idle_states s); simpl; auto.
Qed.
End Phases.

(** ** The sockets *)

Lemma connection_tryPost_accepting m socket writes m' posted fds :
  connection_tryPost m socket writes = Some (m', posted, fds) ->
  cm_accepting m' = cm_accepting m /\ (cm_accepting m = false -> posted = false /\ m' = m).
Proof.
  unfold connection_tryPost. intros Hp. destruct (negb (socket_valid socket)); [by simplify_eq|].
  destruct (cm_accepting m) eqn:Ea; cbn [negb] in Hp; [|by simplify_eq]. split; [|done].
  destruct (_ =? _); [by simplify_eq|]. destruct (signalWakeFd writes) as [[]|]; by simplify_eq/=.
Qed.

Lemma connection_close_accepting m m' discarded fds :
  connection_close m = (m', discarded, fds) -> cm_accepting m' = false.
Proof. unfold connection_close. destruct (connection_close_loop _ _ _ _) as [[q d] c]. by intros [= <- _ _]. Qed.

Section Sockets.
Context {L : Type} `{EventLoopLaws L}.
Implicit Types (s : GroupSystem L) (sl : LoopSlot L).

Definition over (p : Phase) : Prop := match p with Finishing _ | Exited => True | _ => False end.

Definition slot_wf sl : Prop :=
  match slot_loop sl with
  | Some l => loop_wf l (registrations sl)
  | None => ring_repr (cm_queue (registrations sl)) []
  end
  /\ (over (thread sl) -> is_Some (slot_loop sl) -> slot_open sl = [] /\ cm_accepting (registrations sl) = false).

Record sockets s : Prop := {
  so_slots : Forall slot_wf (loops (group s));
  so_own : given s ≡ₚ all_open s ++ in_hand s ++ closed s;
  so_nodup : NoDup (all_open s ++ in_hand s);
}.

(** Slots that keep their sockets. *)
Lemma sockets_same s s' :
  sockets s -> Forall slot_wf (loops (group s')) -> all_open s' = all_open s ->
  (given s', closed s', in_hand s') = (given s, closed s, in_hand s) -> sockets s'.
Proof. intros [B1 B2 B3] Hw Ho Heq. injection Heq as E1 E2 E3. split; rewrite ?E1, ?E2, ?E3, ?Ho; done. Qed.

(** The socket of the dispatcher or nothing becomes open, [fds] are closed. *)
Lemma sockets_slot s s' i sl sl' fds :
  sockets s -> loops (group s) !! i = Some sl -> loops (group s') = <[i := sl']> (loops (group s)) -> slot_wf sl' ->
  slot_open sl ++ in_hand s ≡ₚ slot_open sl' ++ in_hand s' ++ fds ->
  given s' = given s -> closed s' = closed s ++ fds ->
  sockets s'.
Proof.
  intros [B1 B2 B3] Hi El Hw Ho Eg Ec.
  assert (Hall : all_open s ++ in_hand s ≡ₚ all_open s' ++ in_hand s' ++ fds).
  { pose proof (mjoin_insert_perm slot_open _ _ _ sl' Hi) as Hm. unfold all_open. rewrite El.
    apply (Permutation_app_inv_l (slot_open sl)). rewrite app_assoc, (Permutation_app_comm (slot_open sl)).
    rewrite <-app_assoc, Ho. rewrite (app_assoc (slot_open sl)), (Permutation_app_comm (slot_open sl)), Hm.
    rewrite <-!app_assoc. done. }
  split.
  - rewrite El. by apply Forall_insert.
  - rewrite Eg, Ec, B2, app_assoc, Hall. solve_Permutation.
  - rewrite Hall, app_assoc in B3. by apply NoDup_app in B3 as [? _].
Qed.

Lemma all_open_slot s i sl x : loops (group s) !! i = Some sl -> x ∈ slot_open sl -> x ∈ all_open s.
Proof.
  intros Hi Hx. unfold all_open. apply list_elem_of_join. exists (slot_open sl). split; [done|].
  apply list_elem_of_fmap. exists sl. split; [done|]. by eapply list_elem_of_lookup_2.
Qed.

(** Changes of a slot that do not concern its sockets. *)
Lemma sockets_quiet s s' i sl sl' :
  sockets s -> loops (group s) !! i = Some sl -> loops (group s') = <[i := sl']> (loops (group s)) ->
  (slot_loop sl', registrations sl') = (slot_loop sl, registrations sl) ->
  (over (thread sl') -> is_Some (slot_loop sl) -> over (thread sl)) ->
  (given s', closed s', in_hand s') = (given s, closed s, in_hand s) -> sockets s'.
Proof.
  intros Hso Hi El Heq Hov Heq2. injection Heq as E1 E2. injection Heq2 as F1 F2 F3.
  assert (slot_open sl' = slot_open sl) as Eo by (unfold slot_open; by rewrite E1, E2).
  eapply (sockets_slot s s' i sl sl' []); try done.
  - destruct (Forall_lookup_1 _ _ _ _ (so_slots _ Hso) Hi) as [W1 W2]. unfold slot_wf. rewrite Eo, E1, E2. split; [done|].
    intros Ho Hl. by apply W2; [apply Hov|].
  - by rewrite Eo, F3, app_nil_r.
  - by rewrite F2, app_nil_r.
Qed.

Lemma sockets_map s s' (f : LoopSlot L -> LoopSlot L) (n : nat) :
  sockets s ->
  (forall sl, slot_loop (f sl) = slot_loop sl /\ registrations (f sl) = registrations sl
              /\ (over (thread (f sl)) -> over (thread sl))) ->
  loops (group s') = (f <$> take n (loops (group s))) ++ drop n (loops (group s)) ->
  (given s', closed s', in_hand s') = (given s, closed s, in_hand s) -> sockets s'.
Proof.
  intros Hso Hf El Heq. assert (forall sl, slot_open (f sl) = slot_open sl) as Ho.
  { intros sl. destruct (Hf sl) as (E1 & E2 & _). unfold slot_open. by rewrite E1, E2. }
  apply (sockets_same s); [done|..|done].
  - rewrite El. pose proof (so_slots _ Hso) as Hw. apply Forall_app. split; [|by apply Forall_drop].
    apply Forall_fmap. eapply Forall_impl; [by apply Forall_take|]. intros sl [W1 W2].
    destruct (Hf sl) as (E1 & E2 & E3). unfold compose, slot_wf. rewrite Ho, E1, E2. split; [done|]. auto.
  - unfold all_open. rewrite El, fmap_app, <-list_fmap_compose.
    rewrite (list_fmap_ext (slot_open ∘ f) slot_open) by (intros _ sl _; apply Ho).
    by rewrite <-fmap_app, take_drop.
Qed.

Lemma sockets_post s i socket sl writes m posted fds :
  sockets s -> phases s -> dispatcher s = Some (DPost, i, socket) -> loops (group s) !! i = Some sl ->
  connection_tryPost (registrations sl) socket writes = Some (m, posted, fds) ->
  forall s', loops (group s') = <[i := sl <| registrations := m |>]> (loops (group s)) -> dispatcher s' = None ->
    given s' = given s -> closed s' = closed s ++ fds -> sockets s'.
Proof.
  intros Hso Hp Hd Hi Ht s' El Ed Eg Ec. destruct (ph_target _ Hp _ _ _ Hd) as (H0' & sl0 & Hi' & Hl).
  simplify_eq. destruct Hl as [l Hl].
  destruct (Forall_lookup_1 _ _ _ _ (so_slots _ Hso) Hi) as [W1 W2]. rewrite Hl in W1.
  assert (in_hand s = [socket]) as Eh by (unfold in_hand; by rewrite Hd).
  assert (slot_open sl = loop_open l (registrations sl)) as Eo by (unfold slot_open; by rewrite Hl).
  destruct (law_post l (registrations sl) socket writes m posted fds) as (V1 & V2 & V3); [done| |done|].
  { intros Hx. rewrite <-Eo in Hx. apply (all_open_slot s i sl socket Hi) in Hx. pose proof (so_nodup _ Hso) as Hn.
    rewrite Eh in Hn. apply NoDup_app in Hn as (_ & Hn & _). by apply (Hn socket Hx), list_elem_of_singleton. }
  destruct (connection_tryPost_accepting _ _ _ _ _ _ Ht) as [Ha Ha'].
  assert (in_hand s' = []) as Eh' by (unfold in_hand; by rewrite Ed).
  eapply (sockets_slot s s' i sl _ fds); try done.
  - unfold slot_wf. simpl. rewrite Hl. split; [done|]. intros Hov _. destruct (W2 Hov (mk_is_Some _ _ Hl)) as [G1 G2].
    destruct (Ha' G2) as [-> ->]. unfold slot_open in *. simpl. rewrite Hl in *. done.
  - rewrite Eh, Eh', Eo. unfold slot_open. simpl. rewrite Hl. simpl. rewrite V2, V3.
    destruct posted; simpl; [solve_Permutation|]. rewrite (socket_reset_valid _ H0'). done.
Qed.

Lemma sockets_close s k sl m discarded fds :
  sockets s -> loops (group s) !! k = Some sl -> connection_close (registrations sl) = (m, discarded, fds) ->
  forall s', loops (group s') = <[k := sl <| registrations := m |>]> (loops (group s)) -> in_hand s' = in_hand s ->
    given s' = given s -> closed s' = closed s ++ fds -> sockets s' /\ discarded = size_of fds
    /\ slot_open sl ≡ₚ slot_open (sl <| registrations := m |>) ++ fds.
Proof.
  intros Hso Hi Hc s' El Eh Eg Ec. destruct (Forall_lookup_1 _ _ _ _ (so_slots _ Hso) Hi) as [W1 W2].
  assert (slot_wf (sl <| registrations := m |>) /\ discarded = size_of fds
          /\ slot_open sl ≡ₚ slot_open (sl <| registrations := m |>) ++ fds) as (V1 & V2 & V3).
  { pose proof (connection_close_accepting _ _ _ _ Hc) as Ha. destruct (slot_loop sl) as [l|] eqn:Hl.
    - destruct (law_close l _ m discarded fds W1 Hc) as (V1 & V2 & V3).
      unfold slot_wf, slot_open. simpl. rewrite Hl. simpl. split_and!; [done| |done|done].
      intros Hov Hs. destruct (W2 Hov Hs) as [G1 G2]. split; [|done]. unfold slot_open in G1. rewrite Hl in G1. simpl in G1.
      rewrite G1 in V2. symmetry in V2. by apply Permutation_nil_r, app_nil in V2 as [-> _].
    - destruct (connection_close_spec _ _ W1 (Forall_nil_2 _)) as (m1 & E1 & _ & R). rewrite E1 in Hc. simplify_eq.
      unfold slot_wf, slot_open. simpl. rewrite Hl. simpl. by split_and!. }
  split_and!; [|done|done]. eapply (sockets_slot s s' k sl _ fds); try done. rewrite Eh, V3. solve_Permutation.
Qed.

Lemma sockets_step s s' : gstep s s' -> phases s -> sockets s -> sockets s'.
Proof.
  intros Hs Hp Hso. destruct Hs;
    try match goal with Hi : loops (group _) !! _ = Some ?sl, Ht : thread ?sl = _ |- _ =>
          pose proof (Forall_lookup_1 _ _ _ _ (so_slots _ Hso) Hi) as [W1 W2];
          pose proof (phase_of _ _ _ Hp Hi) as Hok; unfold phase_ok in Hok; rewrite Ht in Hok end.
  - destruct (dispatch_target_spec _ _ _ _ Hp H3) as (Heq & _). injection Heq as E0 _ _ _ _ _.
    destruct Hso as [B1 B2 B3]. unfold all_open in *. split; unfold all_open, in_hand in *; simpl; rewrite ?E0; try done.
    rewrite B2. solve_Permutation.
  - destruct (dispatch_target_spec _ _ _ _ Hp H3) as (Heq & _). injection Heq as E0 _ _ _ _ _.
    destruct Hso as [B1 B2 B3]. assert (in_hand s = []) as Eh by (unfold in_hand; by rewrite H1).
    rewrite Eh, app_nil_r in *. unfold all_open in *.
    split; unfold all_open, in_hand; simpl; rewrite ?E0; try done.
    + rewrite B2. solve_Permutation.
    + apply NoDup_app. split_and!; [done| |apply NoDup_singleton]. intros x Hx ->%list_elem_of_singleton. done.
  - eapply (sockets_quiet s _ i sl); [done|done|reflexivity|..]; try done. unfold in_hand. simpl. by rewrite H1.
  - apply (sockets_same s); try done; [apply Hso|]. unfold in_hand. simpl. by rewrite H1.
  - eapply (sockets_post s i socket sl); try done.
  - by eapply (sockets_quiet s _ i sl); [done|done|reflexivity|..].
  - apply (sockets_same s); try done. apply Hso.
  - eapply (sockets_close s k sl m); try done.
  - apply (sockets_same s); try done. apply Hso.
  - destruct Hok as [(Hn & _) _]. eapply (sockets_quiet s _ i sl); [done|done|reflexivity|..]; try done. rewrite Hn. by intros _ [].
  - destruct Hok as [(Hn & _) _]. rewrite Hn in W1. destruct (law_made _ _ H4 W1) as [V1 V2].
    eapply (sockets_slot s _ i sl _ []); [done|done|reflexivity|..]; try done; [|simpl; by rewrite app_nil_r].
    unfold slot_open. simpl. by rewrite Hn, V2, app_nil_r.
  - by eapply (sockets_quiet s _ i sl); [done|done|reflexivity|..].
  - eapply (sockets_quiet s _ i sl); [done|done|reflexivity|..]; try done. simpl. by destruct (stop_requested (group s)).
  - rewrite H3 in W1. destruct (law_poll _ _ _ _ _ _ _ W1 H4) as (V1 & V2 & V3).
    eapply (sockets_slot s _ i sl _ fds); [done|done|reflexivity|..]; try done.
    + split; [done|]. simpl. by destruct st.
    + unfold slot_open. simpl. rewrite H3. simpl. rewrite V2. unfold in_hand. simpl. solve_Permutation.
  - rewrite H3 in W1. destruct (law_shutdown _ _ _ _ _ _ W1 H4) as (V1 & V2 & V3 & V4 & V5).
    eapply (sockets_slot s _ i sl _ fds); [done|done|reflexivity|..]; try done.
    + unfold slot_open. simpl. rewrite H3, V2. simpl. rewrite V3. unfold in_hand. simpl. solve_Permutation.
  - unfold loop_finish in *. assert (sockets (put_slot i (sl <| thread := Exited |>) s)) as Hs1.
    { eapply (sockets_quiet s _ i sl); [done|done|reflexivity|..]; try done. by rewrite H3. }
    destruct failed; simplify_eq/=; [|done]. apply (sockets_same _ _ Hs1); try done. apply Hs1.
  - unfold start_enter in *. repeat case_bool_decide; simplify_eq/=; try (apply (sockets_same s); try done; apply Hso).
    destruct (_ <? _)%nat; simplify_eq/=; by apply (sockets_map s _ launch launched).
  - unfold start_finish in *. destruct (_ && _)%bool; simplify_eq/=; [apply (sockets_same s); try done; apply Hso|].
    destruct (startup_failed (group s)); simplify_eq/=; apply (sockets_same s); try done; apply Hso.
  - apply (sockets_map s _ (fun sl => sl <| joinable := false |>) (length (loops (group s)))); try done.
    simpl. by rewrite firstn_all, drop_all, app_nil_r.
  - unfold stop in *. destruct (group_state (group s)); simplify_eq; apply (sockets_same s); try done; apply Hso.
  - unfold beginDrain in *. repeat case_bool_decide; simplify_eq/=; apply (sockets_same s); try done; apply Hso.
  - unfold join_enter in *.
    repeat (case_match; simplify_eq/=; try (apply (sockets_same s); try done; apply Hso)).
    all: apply (sockets_map s _ (fun sl => sl <| joinable := false |>) (length (loops (group s)))); try done;
      simpl; by rewrite firstn_all, drop_all, app_nil_r.
  - unfold join_finish. destruct (_ && _)%bool; apply (sockets_same s); try done; apply Hso.
Qed.
End Sockets.

(** ** The counters *)

Lemma counter_release_exact load count :
  0 < count <= load -> load < two64 -> counter_release load count = (load - count, count).
Proof.
  intros Hc Hl. unfold counter_release. destruct (Z.leb_spec load count).
  - replace load with count by lia. rewrite Z.sub_0_r, wrap64_small by (unfold is_u64; lia). f_equal. lia.
  - rewrite (wrap64_small (load - count)) by (unfold is_u64; lia).
    replace (load - (load - count)) with count by lia. rewrite wrap64_small by (unfold is_u64; lia). done.
Qed.

(** Releases under way on the counter of loop [i]. *)
Definition owed_to (i : nat) (l : list (nat * Z)) : Z := zsum ((fun p : nat * Z => if decide (p.1 = i) then p.2 else 0) <$> l).

Lemma owed_to_cons i j c l : owed_to i ((j, c) :: l) = (if decide (j = i) then c else 0) + owed_to i l.
Proof. done. Qed.

Lemma owed_to_perm i l k : l ≡ₚ k -> owed_to i l = owed_to i k.
Proof. intros Hp. apply zsum_permutation. by rewrite Hp. Qed.

Lemma owed_to_replicate i j n l : owed_to i (replicate n (j, 1) ++ l) = (if decide (j = i) then Z.of_nat n else 0) + owed_to i l.
Proof.
  induction n as [|n IH]; [cbn [replicate app]; by destruct (decide (j = i))|].
  cbn [replicate app]. rewrite owed_to_cons, IH. destruct (decide (j = i)); lia.
Qed.

Lemma owed_to_nonneg i l : Forall (fun p => 0 < p.2) l -> 0 <= owed_to i l.
Proof.
  intros Hf. apply zsum_nonneg, Forall_fmap. eapply Forall_impl; [exact Hf|]. intros p Hp. unfold compose. cbv beta in Hp |- *.
  destruct (decide _); lia.
Qed.

Section Counters.
Context {L : Type} `{EventLoopLaws L}.
Implicit Types (s : GroupSystem L) (sl : LoopSlot L).

(** The reservation of the dispatcher on loop [i], and what its parent misses. *)
Definition reserved (i : nat) (d : option (DispatchPhase * nat * Z)) : Z :=
  match d with
  | Some (DCount, j, _) | Some (DPost, j, _) => if decide (j = i) then 1 else 0
  | _ => 0
  end.

Definition uncounted (d : option (DispatchPhase * nat * Z)) : Z :=
  match d with Some (DCount, _, _) => 1 | _ => 0 end.

Record counters s : Prop := {
  co_load i sl : loops (group s) !! i = Some sl ->
    connection_load sl = size_of (slot_open sl) + owed_to i (owed s) + reserved i (dispatcher s);
  co_total : total_load (group s)
    = zsum (connection_load <$> loops (group s)) - uncounted (dispatcher s) + zsum (owed_total s);
  co_owed : Forall (fun p => 0 < p.2) (owed s) /\ Forall (fun c => 0 < c) (owed_total s);
  co_limits : total_load (group s) <= group_max_connections (group_config (group s))
    /\ Forall (fun sl => connection_load sl <= group_max_connections_per_loop (group_config (group s)))
         (loops (group s));
  co_room p i socket : dispatcher s = Some (p, i, socket) ->
    (p = DReserve -> exists sl, loops (group s) !! i = Some sl
                     /\ connection_load sl < group_max_connections_per_loop (group_config (group s)))
    /\ (p <> DPost -> total_load (group s) < group_max_connections (group_config (group s)));
  co_width : is_u64 (group_max_connections (group_config (group s)))
    /\ is_u64 (group_max_connections_per_loop (group_config (group s)));
}.

Lemma load_nonneg s i sl :
  counters s -> loops (group s) !! i = Some sl ->
  owed_to i (owed s) + reserved i (dispatcher s) <= connection_load sl /\ 0 <= connection_load sl < two64.
Proof.
  intros [C1 _ [C3 _] [_ C4] _ [_ C6]] Hi. rewrite (C1 _ _ Hi) in *. pose proof (size_of_nonneg (slot_open sl)).
  pose proof (owed_to_nonneg i _ C3). pose proof (Forall_lookup_1 _ _ _ _ C4 Hi) as Hle. simpl in Hle.
  rewrite (C1 _ _ Hi) in Hle. unfold is_u64 in C6.
  assert (0 <= reserved i (dispatcher s)) by (unfold reserved; repeat case_match; lia). lia.
Qed.

Lemma loads_nonneg s : counters s -> Forall (fun sl => 0 <= connection_load sl) (loops (group s)).
Proof. intros Hc. apply Forall_lookup. intros i sl Hi. destruct (load_nonneg s i sl Hc Hi). lia. Qed.

(** The parent counts at least what is under way on it. *)
Lemma total_nonneg s :
  counters s -> phases s ->
  zsum (owed_total s) <= total_load (group s) /\ 0 <= total_load (group s) < two64.
Proof.
  intros Hc Hp. assert (uncounted (dispatcher s) <= zsum (connection_load <$> loops (group s))) as Hu.
  { pose proof (loads_nonneg s Hc) as Hn. assert (0 <= zsum (connection_load <$> loops (group s)))
      by (by apply zsum_nonneg, Forall_fmap). destruct (dispatcher s) as [[[[] i] k]|] eqn:Ed; simpl; try lia.
    destruct (ph_target _ Hp _ _ _ Ed) as (_ & sl & Hi & _). pose proof (zsum_lookup_le _ _ _ _ Hn Hi) as Hle.
    destruct (load_nonneg s i sl Hc Hi) as [Hl _]. rewrite Ed in Hl. simpl in Hl. rewrite decide_True in Hl by done.
    pose proof (owed_to_nonneg i _ (proj1 (co_owed _ Hc))). lia. }
  destruct Hc as [_ C2 [_ C3] [C4 _] _ [C6 _]].
  assert (0 <= zsum (owed_total s)) by (apply zsum_nonneg; eapply Forall_impl; [exact C3|]; simpl; lia).
  unfold is_u64 in C6. lia.
Qed.

(** A slot gives up [c] sockets and its releases are under way. *)
Lemma counters_slot s s' i sl sl' c :
  counters s -> loops (group s) !! i = Some sl -> loops (group s') = <[i := sl']> (loops (group s)) ->
  connection_load sl' = connection_load sl -> size_of (slot_open sl) = size_of (slot_open sl') + c ->
  (forall j, owed_to j (owed s') = (if decide (i = j) then c else 0) + owed_to j (owed s)) ->
  Forall (fun p => 0 < p.2) (owed s') ->
  (total_load (group s'), group_config (group s'), owed_total s', dispatcher s')
    = (total_load (group s), group_config (group s), owed_total s, dispatcher s) ->
  counters s'.
Proof.
  intros [C1 C2 [C3 C3'] [C4 C4'] C5 C6] Hi El Eload Eopen Hw Hpos Heq. injection Heq as E1 E2 E3 E4.
  split; rewrite ?El, ?E1, ?E2, ?E3, ?E4; try done.
  - intros j x Hj. rewrite Hw. destruct (decide (i = j)) as [<-|Hne].
    + rewrite list_lookup_insert_eq in Hj by (by eapply lookup_lt_Some). simplify_eq.
      rewrite Eload, (C1 _ _ Hi). lia.
    + rewrite list_lookup_insert_ne in Hj by done. rewrite (C1 _ _ Hj). lia.
  - rewrite C2, (zsum_insert _ _ _ _ _ Hi), Eload. lia.
  - split; [done|]. apply Forall_insert; [done|]. rewrite Eload. by apply (Forall_lookup_1 _ _ _ _ C4' Hi).
  - intros p j k Hd. destruct (C5 _ _ _ Hd) as [G1 G2]. split; [|done]. intros Hpr. destruct (G1 Hpr) as (x & Hx & Hlt).
    destruct (decide (j = i)) as [->|Hne].
    + exists sl'. rewrite list_lookup_insert_eq by (by eapply lookup_lt_Some). simplify_eq. by rewrite Eload.
    + exists x. by rewrite list_lookup_insert_ne.
Qed.

(** A slot keeps its sockets and its counter. *)
Lemma counters_quiet s s' i sl sl' :
  counters s -> loops (group s) !! i = Some sl -> loops (group s') = <[i := sl']> (loops (group s)) ->
  connection_load sl' = connection_load sl -> size_of (slot_open sl') = size_of (slot_open sl) ->
  (total_load (group s'), group_config (group s'), owed s', owed_total s', dispatcher s')
    = (total_load (group s), group_config (group s), owed s, owed_total s, dispatcher s) ->
  counters s'.
Proof.
  intros Hc Hi El E1 E2 Heq. injection Heq as F1 F2 F3 F4 F5.
  eapply (counters_slot s s' i sl sl' 0); try done; [lia|..|congruence].
  - intros j. rewrite F3. by destruct (decide (i = j)).
  - rewrite F3. apply Hc.
Qed.

Lemma counters_same s s' :
  counters s ->
  (connection_load <$> loops (group s'), slot_open <$> loops (group s'), total_load (group s'),
     group_config (group s'), (owed s', owed_total s', dispatcher s'))
  = (connection_load <$> loops (group s), slot_open <$> loops (group s), total_load (group s),
     group_config (group s), (owed s, owed_total s, dispatcher s)) -> counters s'.
Proof.
  intros [C1 C2 C3 [C4 C4'] C5 C6] Heq. injection Heq as E1 E2 E3 E4 E5 E6 E7.
  assert (forall i sl', loops (group s') !! i = Some sl' -> exists sl, loops (group s) !! i = Some sl
            /\ connection_load sl = connection_load sl' /\ slot_open sl = slot_open sl') as Hl.
  { intros i sl' Hi. assert ((connection_load <$> loops (group s)) !! i = Some (connection_load sl')) as K1
      by (rewrite <-E1, list_lookup_fmap, Hi; done).
    rewrite list_lookup_fmap in K1. destruct (loops (group s) !! i) as [sl|] eqn:Hs; [|done]. simplify_eq/=.
    exists sl. split_and!; try done.
    assert ((slot_open <$> loops (group s)) !! i = Some (slot_open sl')) as K2
      by (rewrite <-E2, list_lookup_fmap, Hi; done).
    rewrite list_lookup_fmap, Hs in K2. by simplify_eq/=. }
  assert (forall i sl, loops (group s) !! i = Some sl -> exists sl', loops (group s') !! i = Some sl'
            /\ connection_load sl' = connection_load sl) as Hr.
  { intros i sl Hi. assert ((connection_load <$> loops (group s')) !! i = Some (connection_load sl)) as K1
      by (rewrite E1, list_lookup_fmap, Hi; done).
    rewrite list_lookup_fmap in K1. destruct (loops (group s') !! i) as [sl'|]; [|done]. simplify_eq/=. eauto. }
  split; rewrite ?E1, ?E3, ?E4, ?E5, ?E6, ?E7; try done.
  - intros i sl' Hi. destruct (Hl i sl' Hi) as (sl & Hs & <- & <-). by apply C1.
  - split; [done|]. apply Forall_lookup. intros i sl' Hi. destruct (Hl i sl' Hi) as (sl & Hs & <- & _).
    by apply (Forall_lookup_1 _ _ _ _ C4' Hs).
  - intros p i k Hd. destruct (C5 p i k Hd) as [G1 G2]. split; [|done]. intros Hp. destruct (G1 Hp) as (sl & Hs & Hlt).
    destruct (Hr i sl Hs) as (sl' & Hs' & He). exists sl'. by rewrite He.
Qed.

Lemma counters_reserve s i socket sl :
  counters s -> dispatcher s = Some (DReserve, i, socket) -> loops (group s) !! i = Some sl ->
  counters (put_slot i (sl <| connection_load := counter_reserve (connection_load sl) |>) s
              <| dispatcher := Some (DCount, i, socket) |>).
Proof.
  intros Hc Hd Hi. destruct (load_nonneg s i sl Hc Hi) as [_ Hnn]. destruct Hc as [C1 C2 C3 [C4 C4'] C5 C6].
  destruct (C5 _ _ _ Hd) as [G1 G2]. destruct (G1 eq_refl) as (x & Hx & Hlt). simplify_eq. unfold counter_reserve.
  assert (wrap64 (connection_load sl + 1) = connection_load sl + 1) as Ew
    by (apply wrap64_small; unfold is_u64 in *; lia).
  split; simpl; rewrite ?Ew; try done.
  - intros j y Hj. destruct (decide (i = j)) as [<-|Hne].
    + rewrite list_lookup_insert_eq in Hj by (by eapply lookup_lt_Some). simplify_eq. simpl.
      rewrite (C1 _ _ Hi), Hd. unfold slot_open. simpl. lia.
    + rewrite list_lookup_insert_ne in Hj by done. rewrite (C1 _ _ Hj), Hd. done.
  - rewrite (zsum_insert _ _ _ _ _ Hi), C2, Hd. simpl. lia.
  - split; [done|]. apply Forall_insert; [done|]. simpl. lia.
  - intros p j k [= <- <- <-]. split; [done|]. intros _. by apply G2.
Qed.

Lemma counters_count s i socket :
  counters s -> phases s -> dispatcher s = Some (DCount, i, socket) ->
  counters (set_group ((group s) <| total_load := counter_reserve (total_load (group s)) |>) s
              <| dispatcher := Some (DPost, i, socket) |>).
Proof.
  intros Hc Hp Hd. destruct (total_nonneg s Hc Hp) as [_ Hnn]. destruct Hc as [C1 C2 C3 [C4 C4'] C5 C6].
  destruct (C5 _ _ _ Hd) as [_ G2]. specialize (G2 ltac:(done)). unfold counter_reserve.
  assert (wrap64 (total_load (group s) + 1) = total_load (group s) + 1) as Ew
    by (apply wrap64_small; unfold is_u64 in *; lia).
  split; simpl; rewrite ?Ew; try done.
  - intros j y Hj. rewrite (C1 _ _ Hj), Hd. done.
  - rewrite C2, Hd. simpl. lia.
  - split; [lia|done].
  - intros p j k [= <- <- <-]. by split.
Qed.

Lemma counters_release s i count rest sl next taken :
  counters s -> owed s ≡ₚ (i, count) :: rest -> loops (group s) !! i = Some sl ->
  counter_release (connection_load sl) count = (next, taken) ->
  counters (put_slot i (sl <| connection_load := next |>) s
              <| owed := rest |>
              <| owed_total := if taken =? 0 then owed_total s else taken :: owed_total s |>).
Proof.
  intros Hc Hperm Hi Hr. destruct (load_nonneg s i sl Hc Hi) as [Hle Hnn].
  destruct Hc as [C1 C2 [C3 C3'] [C4 C4'] C5 C6]. rewrite Hperm in C3. apply Forall_cons in C3 as [Hpos C3]. simpl in Hpos.
  rewrite (owed_to_perm _ _ _ Hperm), owed_to_cons, decide_True in Hle by done. pose proof (owed_to_nonneg i _ C3).
  assert (0 <= reserved i (dispatcher s)) by (unfold reserved; repeat case_match; lia).
  rewrite counter_release_exact in Hr by lia. simplify_eq. destruct (Z.eqb_spec taken 0); [lia|].
  split; simpl; try done.
  - intros j y Hj. destruct (decide (i = j)) as [<-|Hne].
    + rewrite list_lookup_insert_eq in Hj by (by eapply lookup_lt_Some). simplify_eq. simpl.
      rewrite (C1 _ _ Hi), (owed_to_perm _ _ _ Hperm), owed_to_cons, decide_True by done. unfold slot_open. simpl. lia.
    + rewrite list_lookup_insert_ne in Hj by done.
      rewrite (C1 _ _ Hj), (owed_to_perm _ _ _ Hperm), owed_to_cons, decide_False by done. lia.
  - rewrite (zsum_insert _ _ _ _ _ Hi), C2. simpl. lia.
  - split; [done|]. by constructor.
  - split; [done|]. apply Forall_insert; [done|]. simpl. pose proof (Forall_lookup_1 _ _ _ _ C4' Hi) as Hx. simpl in Hx. lia.
  - intros p j k Hd. destruct (C5 _ _ _ Hd) as [G1 G2]. split; [|done]. intros Hp. destruct (G1 Hp) as (x & Hx & Hlt).
    destruct (decide (i = j)) as [<-|Hne].
    + eexists. rewrite list_lookup_insert_eq by (by eapply lookup_lt_Some). split; [done|]. simpl. simplify_eq. lia.
    + exists x. by rewrite list_lookup_insert_ne.
Qed.

Lemma counters_release_total s count rest :
  counters s -> phases s -> owed_total s ≡ₚ count :: rest ->
  counters (set_group ((group s) <| total_load := (counter_release (total_load (group s)) count).1 |>) s
              <| owed_total := rest |>).
Proof.
  intros Hc Hp Hperm. destruct (total_nonneg s Hc Hp) as [Hle Hnn].
  destruct Hc as [C1 C2 [C3 C3'] [C4 C4'] C5 C6]. pose proof (zsum_permutation _ _ Hperm) as Hz. simpl in Hz.
  rewrite Hperm in C3'. apply Forall_cons in C3' as [Hpos C3'].
  assert (0 <= zsum rest) by (apply zsum_nonneg; eapply Forall_impl; [exact C3'|]; simpl; lia).
  rewrite counter_release_exact by lia. split; simpl; try done.
  - lia.
  - split; [lia|done].
  - intros p j k Hd. destruct (C5 _ _ _ Hd) as [G1 G2]. split; [done|]. intros Hx. specialize (G2 Hx). lia.
Qed.

(** [releases] calls of [releaseOne] for the [fds] that were closed. *)
Lemma counters_closed s s' i sl sl' fds releases :
  counters s -> loops (group s) !! i = Some sl -> loops (group s') = <[i := sl']> (loops (group s)) ->
  connection_load sl' = connection_load sl -> slot_open sl ≡ₚ slot_open sl' ++ fds -> releases = size_of fds ->
  owed s' = replicate (Z.to_nat releases) (i, 1) ++ owed s ->
  (total_load (group s'), group_config (group s'), owed_total s', dispatcher s')
    = (total_load (group s), group_config (group s), owed_total s, dispatcher s) ->
  counters s'.
Proof.
  intros Hc Hi El E1 Hp -> Eo Heq. pose proof (size_of_nonneg fds).
  eapply (counters_slot s s' i sl sl' (size_of fds)); try done.
  - rewrite <-size_of_app. unfold size_of. by rewrite Hp.
  - intros j. rewrite Eo, owed_to_replicate. by rewrite Z2Nat.id by done.
  - rewrite Eo. apply Forall_app. split; [|apply Hc]. apply Forall_replicate. simpl. lia.
Qed.

Lemma counters_post s i socket sl writes m posted fds :
  counters s -> phases s -> sockets s -> dispatcher s = Some (DPost, i, socket) -> loops (group s) !! i = Some sl ->
  connection_tryPost (registrations sl) socket writes = Some (m, posted, fds) ->
  counters (put_slot i (sl <| registrations := m |>) s
              <| dispatcher := None |> <| closed := closed s ++ fds |>
              <| owed := if posted then owed s else (i, 1) :: owed s |>).
Proof.
  intros Hc Hp Hso Hd Hi Ht. destruct (ph_target _ Hp _ _ _ Hd) as (H0' & sl0 & Hi' & Hl). simplify_eq. destruct Hl as [l Hl].
  destruct (Forall_lookup_1 _ _ _ _ (so_slots _ Hso) Hi) as [W1 W2]. rewrite Hl in W1.
  destruct (law_post l (registrations sl) socket writes m posted fds) as (_ & V2 & _); [done| |done|].
  { intros Hx. assert (socket ∈ slot_open sl) as Hx' by (unfold slot_open; by rewrite Hl).
    apply (all_open_slot s i sl socket Hi) in Hx'. pose proof (so_nodup _ Hso) as Hn.
    assert (in_hand s = [socket]) as Eh by (unfold in_hand; by rewrite Hd). rewrite Eh in Hn.
    apply NoDup_app in Hn as (_ & Hn & _). by apply (Hn socket Hx'), list_elem_of_singleton. }
  assert (size_of (slot_open (sl <| registrations := m |>)) = (if posted then 1 else 0) + size_of (slot_open sl)) as Es.
  { unfold slot_open. simpl. rewrite Hl. simpl. unfold size_of. rewrite V2, length_app. destruct posted; simpl; lia. }
  destruct Hc as [C1 C2 [C3 C3'] [C4 C4'] C5 C6]. split; simpl; try done.
  - intros j y Hj. destruct (decide (i = j)) as [<-|Hne].
    + rewrite list_lookup_insert_eq in Hj by (by eapply lookup_lt_Some). simplify_eq. simpl.
      rewrite (C1 _ _ Hi), Hd, Es. simpl. rewrite decide_True by done. destruct posted; [lia|].
      rewrite owed_to_cons, decide_True by done. lia.
    + rewrite list_lookup_insert_ne in Hj by done. rewrite (C1 _ _ Hj), Hd. simpl. rewrite decide_False by done.
      destruct posted; [done|]. rewrite owed_to_cons, decide_False by done. lia.
  - rewrite (zsum_insert _ _ _ _ _ Hi), C2, Hd. simpl. lia.
  - split; [|done]. destruct posted; [done|]. by constructor.
  - split; [done|]. apply Forall_insert; [done|]. by apply (Forall_lookup_1 _ _ _ _ C4' Hi).
Qed.

Lemma counters_dispatch s socket g t d :
  counters s -> phases s -> unlocked s -> dispatch_target socket (group s) = (g, t) ->
  (d = None \/ exists i, t = Some i /\ d = Some (DReserve, i, socket)) ->
  forall s', group s' = g -> (owed s', owed_total s') = (owed s, owed_total s) -> dispatcher s' = d -> counters s'.
Proof.
  intros Hc Hp Hu Ht Hd s' Eg Eo Ed. destruct (dispatch_target_spec _ _ _ _ Hp Ht) as (Heq & _ & Hx).
  destruct Hc as [C1 C2 C3 [C4 C4'] C5 C6]. injection Heq as E0 _ _ _ E4 E5. injection Eo as Eo1 Eo2.
  unfold unlocked in Hu. rewrite Hu in *.
  split; rewrite ?Eg, ?E0, ?E4, ?E5, ?Eo1, ?Eo2, ?Ed; try done.
  - intros i sl Hi. rewrite (C1 _ _ Hi). by destruct Hd as [->|(? & _ & ->)].
  - rewrite C2. by destruct Hd as [->|(? & _ & ->)].
  - intros p i k Hk. destruct Hd as [->|(j & -> & ->)]; [done|]. simplify_eq.
    destruct Hx as (_ & _ & Htot & sl & Hs & Hl). split; [|done]. intros _. by exists sl.
Qed.

Lemma counters_step s s' : gstep s s' -> phases s -> sockets s -> counters s -> counters s'.
Proof.
  intros Hs Hp Hso Hc. destruct Hs;
    try match goal with Hi : loops (group _) !! _ = Some ?sl, Ht : thread ?sl = _ |- _ =>
          pose proof (Forall_lookup_1 _ _ _ _ (so_slots _ Hso) Hi) as [W1 W2];
          pose proof (phase_of _ _ _ Hp Hi) as Hok; unfold phase_ok in Hok; rewrite Ht in Hok end.
  - eapply (counters_dispatch s socket g None None); try done. by left.
  - eapply (counters_dispatch s socket g (Some i)); [done..|right; by exists i|done|done|done].
  - by apply counters_reserve.
  - by apply counters_count.
  - by eapply counters_post.
  - by eapply counters_release.
  - by eapply counters_release_total.
  - destruct (sockets_close s k sl m discarded fds Hso H2 H3
      (put_slot k (sl <| registrations := m |>) s <| closed := closed s ++ fds |>)) as (_ & Hd & Hperm); try done.
    eapply (counters_slot s _ k sl _ discarded); [done|done|reflexivity|done|..|done].
    + subst discarded. rewrite <-size_of_app. unfold size_of. by rewrite Hperm.
    + intros j. simpl. destruct (Z.eqb_spec discarded 0) as [->|]; [by destruct (decide (k = j))|]. done.
    + simpl. pose proof (size_of_nonneg fds). destruct (Z.eqb_spec discarded 0); [apply Hc|]. constructor; [simpl; lia|apply Hc].
  - by apply (counters_same s).
  - by eapply (counters_quiet s _ i sl); [done|done|reflexivity|..].
  - destruct Hok as [(Hn & _) _]. rewrite Hn in W1. destruct (law_made _ _ H4 W1) as [V1 V2].
    eapply (counters_quiet s _ i sl); [done|done|reflexivity|done|..|done].
    unfold slot_open. simpl. by rewrite Hn, V2.
  - by eapply (counters_quiet s _ i sl); [done|done|reflexivity|..].
  - by eapply (counters_quiet s _ i sl); [done|done|reflexivity|..].
  - rewrite H3 in W1. destruct (law_poll _ _ _ _ _ _ _ W1 H4) as (V1 & V2 & V3).
    eapply (counters_closed s _ i sl _ fds); [done|done|reflexivity|done|..|exact V3|done|done].
    unfold slot_open. simpl. by rewrite H3.
  - rewrite H3 in W1. destruct (law_shutdown _ _ _ _ _ _ W1 H4) as (V1 & V2 & V3 & V4 & V5).
    eapply (counters_closed s _ i sl _ fds); [done|done|reflexivity|done|..|exact V4|done|done].
    unfold slot_open. simpl. by rewrite H3, V2.
  - unfold loop_finish in *. assert (counters (put_slot i (sl <| thread := Exited |>) s)) as Hc1
      by (by eapply (counters_quiet s _ i sl); [done|done|reflexivity|..]).
    destruct failed; simplify_eq/=; [|done]. by apply (counters_same _ _ Hc1).
  - unfold start_enter in *. repeat case_bool_decide; simplify_eq/=; try (by apply (counters_same s)).
    destruct (_ <? _)%nat; simplify_eq/=; apply (counters_same s); try done; simpl;
      rewrite !fmap_app, <-!list_fmap_compose; unfold compose, launch, slot_open; simpl;
      by rewrite <-!fmap_app, take_drop.
  - unfold start_finish in *. destruct (_ && _)%bool; simplify_eq/=; [by apply (counters_same s)|].
    destruct (startup_failed (group s)); simplify_eq/=; by apply (counters_same s).
  - apply (counters_same s); [done|]. simpl. by rewrite <-!list_fmap_compose.
  - unfold stop in *. destruct (group_state (group s)); simplify_eq; by apply (counters_same s).
  - unfold beginDrain in *. repeat case_bool_decide; simplify_eq/=; by apply (counters_same s).
  - unfold join_enter in *.
    repeat (case_match; simplify_eq/=; try (by apply (counters_same s))).
    all: apply (counters_same s); [done|]; simpl; by rewrite <-!list_fmap_compose.
  - unfold join_finish. destruct (_ && _)%bool; by apply (counters_same s).
Qed.
End Counters.

(** ** What holds in every execution *)

Lemma make_slots_spec {L} wakes : forall index capacity (slots : list (LoopSlot L)),
  is_u64 capacity -> make_slots index capacity wakes = Ok slots ->
  length slots = length wakes
  /\ Forall (fun sl => idle_slot sl /\ thread sl = NotLaunched /\ connection_load sl = 0
                       /\ ring_repr (cm_queue (registrations sl)) []) slots.
Proof.
  induction wakes as [|w wakes IH]; intros index capacity slots Hc; simpl; [by intros [= <-]|].
  unfold make_connection_mailbox. destruct (Z.eqb_spec capacity 0); [done|]. destruct (w <? 0); [done|]. simpl.
  destruct (make_slots (index + 1) capacity wakes) as [rest|] eqn:Er; [|done]. simpl. intros [= <-].
  destruct (IH _ _ _ Hc Er) as [Hl Hf]. simpl. split; [congruence|]. constructor; [|done].
  split_and!; simpl; try done; [by split_and!; auto|]. apply ring_make_repr. unfold is_u64 in Hc. lia.
Qed.

Section Group_theorems.
Context {L : Type} `{EventLoopLaws L}.
Implicit Types (s : GroupSystem L) (sl : LoopSlot L).

Lemma fresh_invariants g : fresh_group g -> phases (group_start g) /\ sockets (group_start g) /\ counters (group_start g).
Proof.
  intros (config & wakes & Hm & Hw & U1 & U2 & U3). unfold make_group, checkedGroupConfig in Hm.
  destruct (_ || _)%bool eqn:Eb; [done|]. simpl in Hm.
  rewrite !orb_false_iff in Eb. destruct Eb as [[[[[[B1 B2] _] _] _] _] _].
  apply Z.eqb_neq in B1. apply Z.ltb_ge in B2. pose proof (size_of_nonneg wakes).
  rewrite firstn_all2 in Hm by (unfold size_of in *; lia).
  destruct (make_slots _ _ _) as [slots|] eqn:Es; [|done]. simpl in Hm. injection Hm as <-.
  destruct (make_slots_spec _ _ _ _ U3 Es) as [Hl Hf].
  assert (size_of slots = loop_count config) as Hn by (unfold size_of in *; lia).
  assert (slot_open <$> slots = replicate (length slots) []) as Ho.
  { clear -Hf. induction Hf as [|sl slots ((Hx & _) & _) _ IH]; [done|]. rewrite fmap_cons, IH. simpl.
    unfold slot_open. by rewrite Hx. }
  assert (connection_load <$> slots = replicate (length slots) 0) as Hload.
  { clear -Hf. induction Hf as [|sl slots (_ & _ & Hx & _) _ IH]; [done|]. by rewrite fmap_cons, IH, Hx. }
  assert (forall n, mjoin (replicate n ([] : list Z)) = []) as Hj by (induction n; done).
  assert (forall n, zsum (replicate n 0) = 0) as Hz by (induction n; done).
  split_and!.
  - split; simpl; try done.
    + eapply Forall_impl; [exact Hf|]. intros sl (Hi & _). by apply idle_phase.
    + assert ((fun sl => one_if (slot_ready sl)) <$> slots = replicate (length slots) 0) as ->; [|done].
      clear -Hf. induction Hf as [|sl slots ((_ & Hx & _) & _) _ IH]; [done|]. by rewrite fmap_cons, IH, Hx.
    + intros _. split; [|done]. eapply Forall_impl; [exact Hf|]. by intros sl (_ & ? & _).
    + intros [|]; done.
    + lia.
    + lia.
  - split; simpl.
    + eapply Forall_impl; [exact Hf|]. intros sl ((Hx & _) & Ht & _ & R). unfold slot_wf. rewrite Hx, Ht. done.
    + unfold all_open. simpl. by rewrite Ho, Hj.
    + unfold all_open. simpl. rewrite Ho, Hj. constructor.
  - split; simpl; try done.
    + intros i sl Hi. destruct (Forall_lookup_1 _ _ _ _ Hf Hi) as ((Hx & _) & _ & -> & _).
      unfold slot_open. by rewrite Hx.
    + rewrite Hload, Hz. lia.
    + split; [unfold is_u64 in U1; lia|]. eapply Forall_impl; [exact Hf|]. intros sl (_ & _ & -> & _).
      unfold is_u64 in U2. lia.
Qed.

Lemma reachable_invariants s : reachable_group s -> phases s /\ sockets s /\ counters s.
Proof.
  intros (g & Hg & Hr). assert (forall a b, rtc gstep a b -> phases a /\ sockets a /\ counters a ->
    phases b /\ sockets b /\ counters b) as Hrun.
  { induction 1 as [|a b c Hab _ IH]; [done|]. intros (P & S' & C). apply IH.
    split_and!; [by eapply phases_step|by eapply sockets_step|by eapply counters_step]. }
  by apply (Hrun _ _ Hr), fresh_invariants.
Qed.

(** C11. The connection counters are exact in every interleaving.  The counter
    of a loop is the number of sockets that wait for it or that it serves, plus
    the releases and the reservation under way on it; the parent counter is the
    sum of these counters, less a reservation that it has not seen, plus the
    releases under way on it. *)
Theorem group_counters_exact s :
  reachable_group s ->
  (forall i sl, loops (group s) !! i = Some sl ->
     connection_load sl = size_of (slot_open sl) + owed_to i (owed s) + reserved i (dispatcher s))
  /\ total_load (group s)
     = zsum (connection_load <$> loops (group s)) - uncounted (dispatcher s) + zsum (owed_total s).
Proof. intros (_ & _ & [C1 C2 _ _ _ _])%reachable_invariants. done. Qed.

Lemma open_le_total s : phases s -> counters s -> size_of (all_open s) <= total_load (group s).
Proof.
  intros Hp Hc. pose proof Hc as [C1 C2 [C3 C3'] _ _ _].
  assert (0 <= zsum (owed_total s)) by (apply zsum_nonneg; eapply Forall_impl; [exact C3'|]; simpl; lia).
  set (room := fun sl => connection_load sl - size_of (slot_open sl)).
  assert (zsum (connection_load <$> loops (group s)) = size_of (all_open s) + zsum (room <$> loops (group s))) as Hs.
  { unfold all_open. generalize (loops (group s)) as ls. induction ls as [|sl ls IH]; [done|].
    rewrite !fmap_cons, mjoin_cons, size_of_app. cbn [zsum]. rewrite IH. unfold room at 2. lia. }
  assert (Hroom : forall i sl, loops (group s) !! i = Some sl -> room sl = owed_to i (owed s) + reserved i (dispatcher s)).
  { intros i sl Hi. unfold room. rewrite (C1 _ _ Hi). lia. }
  assert (forall i sl, loops (group s) !! i = Some sl -> reserved i (dispatcher s) <= room sl /\ 0 <= room sl) as Hge.
  { intros i sl Hi. rewrite (Hroom _ _ Hi). pose proof (owed_to_nonneg i _ C3).
    assert (0 <= reserved i (dispatcher s)) by (unfold reserved; repeat case_match; lia). lia. }
  assert (Forall (fun sl => 0 <= room sl) (loops (group s))) as Hnn.
  { apply Forall_lookup. intros i sl Hi. by destruct (Hge _ _ Hi). }
  enough (uncounted (dispatcher s) <= zsum (room <$> loops (group s))) by lia.
  assert (0 <= zsum (room <$> loops (group s))) by (by apply zsum_nonneg, Forall_fmap).
  destruct (dispatcher s) as [[[[] i] k]|] eqn:Ed; simpl; try lia.
  destruct (ph_target _ Hp _ _ _ Ed) as (_ & sl & Hi & _). pose proof (zsum_lookup_le _ _ _ _ Hnn Hi).
  destruct (Hge _ _ Hi) as [Hr _]. simpl in Hr. rewrite decide_True in Hr by done. lia.
Qed.

(** C12. The limits hold at every moment of every interleaving: the open
    connections of the group never exceed [max_connections] and those of a loop
    never exceed [max_connections_per_loop]. *)
Theorem group_limits s :
  reachable_group s ->
  size_of (all_open s) <= group_max_connections (group_config (group s))
  /\ forall i sl, loops (group s) !! i = Some sl ->
       size_of (slot_open sl) <= group_max_connections_per_loop (group_config (group s)).
Proof.
  intros (Hp & _ & Hc)%reachable_invariants. split.
  - etransitivity; [by apply open_le_total|]. apply Hc.
  - intros i sl Hi. pose proof (Forall_lookup_1 _ _ _ _ (proj2 (co_limits _ Hc)) Hi) as Hx. simpl in Hx.
    rewrite (co_load _ Hc _ _ Hi) in Hx. pose proof (owed_to_nonneg i _ (proj1 (co_owed _ Hc))).
    assert (0 <= reserved i (dispatcher s)) by (unfold reserved; repeat case_match; lia). lia.
Qed.

(** A drain that answers [Ok], before or after its wait, has drained: no
    loop holds a connection.  And it can answer [Ok]: when nothing is open and
    no release is under way, the counter that it reads is zero. *)
Theorem group_drain_exact s :
  reachable_group s -> unlocked s ->
  (drain_enter (group s) = Some GroupStatus.Ok \/ (exists drained, drain_leave drained (group s) = GroupStatus.Ok) ->
     all_open s = [])
  /\ (all_open s = [] -> owed s = [] -> owed_total s = [] -> total_load (group s) = 0).
Proof.
  intros (Hp & _ & Hc)%reachable_invariants Hu. split.
  - intros Hd. assert (total_load (group s) = 0) as Hz.
    { destruct Hd as [Hd|[d Hd]]; unfold drain_enter, drain_leave in Hd; repeat case_match; try done;
        rewrite ?andb_true_iff, ?Z.eqb_eq in *; intuition lia. }
    pose proof (open_le_total s Hp Hc) as Hle. rewrite Hz in Hle. pose proof (size_of_nonneg (all_open s)).
    apply size_of_zero. lia.
  - intros Ho H1 H2. destruct Hc as [C1 C2 _ _ _ _]. rewrite C2, H2. unfold unlocked in Hu. rewrite Hu in *. simpl.
    assert (Forall (fun sl => connection_load sl = 0) (loops (group s))) as Hl.
    { apply Forall_lookup. intros i sl Hi. rewrite (C1 _ _ Hi), H1. simpl. unfold owed_to. simpl.
      destruct (slot_open sl) as [|x r] eqn:Es; [done|].
      assert (x ∈ all_open s) as Hx by (eapply all_open_slot; [done|rewrite Es; by left]).
      rewrite Ho in Hx. by apply not_elem_of_nil in Hx. }
    clear -Hl. induction Hl as [|sl ls Hx _ IH]; [done|]. rewrite fmap_cons. cbn [zsum]. lia.
Qed.

Lemma gone_closes_all s :
  reachable_group s -> unlocked s -> Forall (fun sl => gone (thread sl)) (loops (group s)) ->
  given s ≡ₚ closed s.
Proof.
  intros (Hp & [B1 B2 _] & _)%reachable_invariants Hu Hg.
  assert (in_hand s = []) as Eh by (unfold in_hand; by rewrite Hu).
  assert (all_open s = []) as Eo; [|by rewrite B2, Eo, Eh].
  unfold all_open. assert (Forall (fun sl => slot_open sl = []) (loops (group s))) as Hf.
  { apply Forall_lookup. intros i sl Hi. destruct (Forall_lookup_1 _ _ _ _ B1 Hi) as [_ W2].
    pose proof (phase_of _ _ _ Hp Hi) as [Hok _]. pose proof (Forall_lookup_1 _ _ _ _ Hg Hi) as [Ht|Ht]; simpl in Ht;
      rewrite Ht in *.
    - destruct Hok as [Hn _]. unfold slot_open. by rewrite Hn.
    - destruct (slot_loop sl) eqn:El; [by apply W2|]. unfold slot_open. by rewrite El. }
  clear -Hf. induction Hf as [|sl ls Hx _ IH]; [done|]. by rewrite fmap_cons, mjoin_cons, Hx, IH.
Qed.
(** When the threads are gone nothing is left behind.  In every execution,
    once every loop thread that was launched has exited (which is what [join],
    and [start] when it fails, wait for), every socket ever given to the group
    has been closed exactly once. *)
Theorem group_join_closes_all s :
  reachable_group s -> unlocked s -> Forall (fun sl => gone (thread sl)) (loops (group s)) ->
  given s ≡ₚ closed s.
Proof. apply gone_closes_all. Qed.
End Group_theorems.

(** ** A sample execution with the real event loop *)

#[local] Instance sample_loop : IEventLoop (EventLoop TimerService) := EventLoop_loop 0.
#[local] Instance sample_laws : EventLoopLaws (EventLoop TimerService) := EventLoop_laws 0.

Module GroupSample.
Definition System_ : Type := GroupSystem (EventLoop TimerService).

Definition config : EventLoopGroupConfig := mkGroup 1 4 4 4 LoopSample.config.
Definition built : Group (EventLoop TimerService) :=
  mkLoopGroup config false false 0 [mkSlot 0 LoopSample.connections 0 false false false NotLaunched None]
    GroupState.Constructed GroupStatus.Ok 0 0 false false false false.

Definition slot (s : System_) : LoopSlot (EventLoop TimerService) :=
  default (mkSlot 0 LoopSample.connections 0 false false false NotLaunched None) (loops (group s) !! 0%nat).

Definition starting : System_ := after_start StartWaits (set_group (start_enter 1 built).1 (group_start built)).
Definition ready : System_ := set_group (loop_ready 0 LoopSample.start (slot starting) (group starting)) starting.
Definition running : System_ :=
  after_start (StartReturned GroupStatus.Ok) (set_group (start_finish (group ready)).1 ready).

(** A socket is dispatched. *)
Definition chosen : System_ :=
  set_group (dispatch_target 7 (group running)).1
    (running <| given := given running ++ [7] |> <| dispatcher := Some (DReserve, 0%nat, 7) |>).
Definition reserving : System_ :=
  put_slot 0 ((slot chosen) <| connection_load := counter_reserve (connection_load (slot chosen)) |>)
    (chosen <| dispatcher := Some (DCount, 0%nat, 7) |>).
Definition counted : System_ :=
  set_group ((group reserving) <| total_load := counter_reserve (total_load (group reserving)) |>)
    (reserving <| dispatcher := Some (DPost, 0%nat, 7) |>).
Definition box : ConnectionMailbox :=
  from_option (fun r => r.1.1) LoopSample.connections (connection_tryPost (registrations (slot counted)) 7 [IoBytes 8]).
Definition posted : System_ :=
  put_slot 0 ((slot counted) <| registrations := box |>)
    (counted <| dispatcher := None |> <| closed := closed counted ++ [] |> <| owed := owed counted |>).

(** The group drains, or stops while the socket waits. *)
Definition draining : System_ :=
  (set_group (beginDrain (group running)).1.1 running) <| closers := 0%nat :: closers running |>.
Definition stopping : System_ := start_closer true (set_group (stop (group posted)).1 posted).
Definition checking : System_ := put_slot 0 ((slot stopping) <| thread := Checking |>) stopping.
Definition leaving : System_ := set_group (loop_check 0 (slot checking) (group checking)) checking.
Definition loop_after : EventLoop TimerService :=
  (shutdown true (LoopSample.start <| connection_mailbox := Some box |>)).1.
Definition finishing : System_ :=
  put_slot 0 ((slot leaving) <| registrations := default box (connection_mailbox loop_after) |>
                <| slot_loop := Some loop_after |> <| thread := Finishing false |>)
    (leaving <| closed := closed leaving ++ [7] |> <| owed := replicate 1 (0%nat, 1) ++ owed leaving |>).
Definition finished : System_ := set_group (loop_finish 0 false (slot finishing) (group finishing)).1 finishing.
End GroupSample.

Import GroupSample.

Lemma sample_group_fresh : fresh_group built.
Proof. exists config, [6]. by split_and!; vm_compute. Qed.

Lemma running_steps : rtc gstep (group_start built) running.
Proof.
  eapply (rtc_l _ _ starting); [by eapply (g_start _ 1%nat); [..|reflexivity]|].
  eapply (rtc_l _ _ ready).
  { apply (g_built starting 0%nat (slot starting) LoopSample.start); [vm_compute; reflexivity..|].
    exists LoopSample.config, idle_service, true, 4, LoopSample.completions, LoopSample.timeouts, (true, true, true),
      LoopSample.no_answers. reflexivity. }
  apply rtc_once.
  apply (g_start_ready ready (start_finish (group ready)).1 (StartReturned GroupStatus.Ok)); vm_compute; reflexivity.
Qed.

Lemma chosen_step : gstep running chosen.
Proof.
  apply (g_dispatch_to running 7 (dispatch_target 7 (group running)).1 0%nat);
    [vm_compute; reflexivity| |vm_compute; reflexivity].
  apply (bool_decide_eq_true_1 (7 ∉ all_open running)). vm_compute. reflexivity.
Qed.

Lemma posted_steps : rtc gstep chosen posted.
Proof.
  eapply (rtc_l _ _ reserving); [apply (g_reserve chosen 0%nat 7 (slot chosen)); vm_compute; reflexivity|].
  eapply (rtc_l _ _ counted); [apply (g_count reserving 0%nat 7); vm_compute; reflexivity|].
  apply rtc_once. apply (g_post counted 0%nat 7 (slot counted) [IoBytes 8] box true []); vm_compute; reflexivity.
Qed.

Lemma posted_reachable : reachable_group posted.
Proof.
  exists built. split; [exact sample_group_fresh|]. etransitivity; [exact running_steps|].
  eapply rtc_l; [exact chosen_step|exact posted_steps].
Qed.

Lemma draining_reachable : reachable_group draining.
Proof.
  exists built. split; [exact sample_group_fresh|]. etransitivity; [exact running_steps|]. apply rtc_once.
  apply (g_drain running (beginDrain (group running)).1.1 GroupStatus.Ok true); vm_compute; reflexivity.
Qed.

(** The event loop shuts down and closes the socket that waits. *)
Lemma sample_shutdown_call :
  loop_shutdown LoopSample.start box loop_after (default box (connection_mailbox loop_after)) [7] 1.
Proof.
  exists LoopSample.start. split; [by exists LoopSample.no_answers, idle_service, LoopSample.completions, None|].
  split_and!; vm_compute; reflexivity.
Qed.

Lemma finished_steps : rtc gstep chosen finished.
Proof.
  etransitivity; [exact posted_steps|].
  eapply (rtc_l _ _ stopping); [apply (g_stop posted (stop (group posted)).1 true); vm_compute; reflexivity|].
  eapply (rtc_l _ _ checking); [apply (g_begin stopping 0%nat (slot stopping)); vm_compute; reflexivity|].
  eapply (rtc_l _ _ leaving); [apply (g_check checking 0%nat (slot checking)); vm_compute; reflexivity|].
  eapply (rtc_l _ _ finishing).
  { apply (g_shutdown leaving 0%nat (slot leaving) false LoopSample.start loop_after
             (default box (connection_mailbox loop_after)) [7] 1); [vm_compute; reflexivity..|exact sample_shutdown_call]. }
  apply rtc_once. apply (g_finish finishing 0%nat (slot finishing) false _ false); vm_compute; reflexivity.
Qed.

Lemma finished_reachable : reachable_group finished.
Proof.
  exists built. split; [exact sample_group_fresh|]. etransitivity; [exact running_steps|].
  eapply rtc_l; [exact chosen_step|exact finished_steps].
Qed.

Lemma group_counters_exact_witness :
  total_load (group posted)
  = zsum (connection_load <$> loops (group posted)) - uncounted (dispatcher posted) + zsum (owed_total posted).
Proof. exact (proj2 (group_counters_exact posted posted_reachable)). Defined.

Lemma group_limits_witness :
  size_of (all_open posted) <= group_max_connections (group_config (group posted)).
Proof. exact (proj1 (group_limits posted posted_reachable)). Defined.

Lemma group_drain_exact_witness : all_open draining = [].
Proof.
  refine (proj1 (group_drain_exact draining draining_reachable _) (or_introl _)); vm_compute; reflexivity.
Defined.

Lemma group_join_closes_all_witness : given finished ≡ₚ closed finished.
Proof.
  refine (group_join_closes_all finished finished_reachable _ _); [vm_compute; reflexivity|].
  constructor; [|constructor]. right. vm_compute. reflexivity.
Defined.
