(* ===== verification/AcceptorLoop.v ===== *)
(** * AcceptorLoop: the thread that accepts connections

    Model of [net/acceptor_loop.{hpp,cpp}].  The functions are the critical
    sections and the decisions of the code; [position] says where [threadMain]
    and the functions it calls are, and every read of [stop_requested], every
    system call and every critical section is a step of its own, so that
    callers and the kernel interleave between them.  The kernel keeps the
    connections that wait on the listener and the two edge-triggered events. *)

From S2P Require Import Prelude Posix Ring Codec Limits TimerCore Timer Scheduler.
From S2P Require Import Mailbox IpAddress Config.
Open Scope Z_scope.

Definition kListenEvent : Z := 1.
Definition kStopEvent : Z := 2.

Module AcceptorState.
Inductive t := Constructed | Starting | Running | Stopping | Stopped | Failed.
#[export] Instance eq_dec : EqDecision t.
Proof. solve_decision. Defined.
End AcceptorState.
#[export] Existing Instance AcceptorState.eq_dec.

Module AcceptorStatus.
Inductive t := Ok | InvalidState | AddressInUse | SystemCallFailed | StartFailed | SelfJoin.
#[export] Instance eq_dec : EqDecision t.
Proof. solve_decision. Defined.
End AcceptorStatus.
#[export] Existing Instance AcceptorStatus.eq_dec.

(** The error numbers that the code tells apart ([EWOULDBLOCK] is [EAGAIN]). *)
Module AcceptErrno.
Inductive t :=
| EINTR | EAGAIN | ECONNABORTED | EMFILE | ENFILE
| EPROTO | ENETDOWN | ENOPROTOOPT | EHOSTDOWN | ENONET | EHOSTUNREACH | EOPNOTSUPP | ENETUNREACH
| Other.
End AcceptErrno.

(** The answer of [accept4]. *)
Inductive AcceptAnswer := Accepted (fd : Z) | Refused (e : AcceptErrno.t).

Definition isPendingNetworkError (e : AcceptErrno.t) : bool :=
  match e with
  | AcceptErrno.EPROTO | AcceptErrno.ENETDOWN | AcceptErrno.ENOPROTOOPT | AcceptErrno.EHOSTDOWN
  | AcceptErrno.ENONET | AcceptErrno.EHOSTUNREACH | AcceptErrno.EOPNOTSUPP | AcceptErrno.ENETUNREACH => true
  | _ => false
  end.

(** The address and the port in network byte order. *)
Definition checkedAddress `{Inet} (c : AcceptorLoopConfig) : result (bytes_t * Z) :=
  if ((String.length (bind_address c) =? 0)%nat || (backlog c <=? 0) || (acceptor_max_connections c =? 0)
      || (acceptor_max_events c =? 0) || (2147483647 <? acceptor_max_events c))%bool
  then Throw "invalid acceptor loop config"
  else
    match inet_pton4 (c_str (bind_address c)) with
    | Some address =>
        Ok (address, Z.lor (Z.shiftl (Z.land (acceptor_port c) 255) 8) (Z.shiftr (acceptor_port c) 8))
    | None => Throw "the acceptor only takes a legal IPv4 address"
    end.

Record Acceptor := mkAcceptorLoop {
  acceptor_config : AcceptorLoopConfig;
  address : bytes_t * Z;
  listen_fd : Z;
  acceptor_epoll_fd : Z;
  acceptor_wake_fd : Z;
  reserve_fd : Z;
  acceptor_joinable : bool;        (* the thread object *)
  thread_known : bool;             (* [thread_id] was set *)
  acceptor_stop : bool;            (* [stop_requested] *)
  acceptor_state : AcceptorState.t;
  acceptor_join_status : AcceptorStatus.t;
  acceptor_joining : bool;         (* [join_in_progress] *)
}.

Definition make_acceptor `{Inet} (c : AcceptorLoopConfig) : result Acceptor :=
  a ← checkedAddress c;
  Ok (mkAcceptorLoop c a (-1) (-1) (-1) (-1) false false false AcceptorState.Constructed AcceptorStatus.Ok false).

(** ** Resources *)

Record StartResources := mkResources { r_listener : Z; r_epoll : Z; r_wake : Z; r_reserve : Z }.

(** The members are destroyed in the reverse order of their declaration. *)
Definition destroyResources (r : StartResources) : list FdEvent :=
  closeFd (r_reserve r) ++ closeFd (r_wake r) ++ closeFd (r_epoll r) ++ closeFd (r_listener r).

Inductive BindAnswer := Bound | BindInUse | BindFailed.

(** The answers to the calls of [createResources]; a negative descriptor is a
    failure. *)
Record ResourceAnswers := mkResourceAnswers {
  socket_answer : Z;
  setsockopt_answer : bool;
  bind_answer : BindAnswer;
  epoll_create_answer : Z;
  eventfd_answer : Z;
  open_answer : Z;
  listen_ctl_answer : bool;
  wake_ctl_answer : bool;
  listen_answer : bool;
}.

Definition openedFd (fd : Z) : list FdEvent := if 0 <=? fd then [FdOpened fd] else [].

Definition createResources (a : ResourceAnswers) : StartResources * AcceptorStatus.t * list FdEvent :=
  let r := mkResources (socket_answer a) (-1) (-1) (-1) in
  let evs := openedFd (socket_answer a) in
  if negb (socket_valid (r_listener r)) then (r, AcceptorStatus.SystemCallFailed, evs)
  else if negb (setsockopt_answer a) then (r, AcceptorStatus.SystemCallFailed, evs)
  else
    match bind_answer a with
    | BindInUse => (r, AcceptorStatus.AddressInUse, evs)
    | BindFailed => (r, AcceptorStatus.SystemCallFailed, evs)
    | Bound =>
        let r := r <| r_epoll := epoll_create_answer a |> in
        let evs := evs ++ openedFd (epoll_create_answer a) in
        if negb (socket_valid (r_epoll r)) then (r, AcceptorStatus.SystemCallFailed, evs)
        else
          let r := r <| r_wake := eventfd_answer a |> in
          let evs := evs ++ openedFd (eventfd_answer a) in
          if negb (socket_valid (r_wake r)) then (r, AcceptorStatus.SystemCallFailed, evs)
          else
            let r := r <| r_reserve := open_answer a |> in
            let evs := evs ++ openedFd (open_answer a) in
            if negb (socket_valid (r_reserve r)) then (r, AcceptorStatus.SystemCallFailed, evs)
            else if negb (listen_ctl_answer a) then (r, AcceptorStatus.SystemCallFailed, evs)
            else if negb (wake_ctl_answer a) then (r, AcceptorStatus.SystemCallFailed, evs)
            else if negb (listen_answer a) then (r, AcceptorStatus.SystemCallFailed, evs)
            else (r, AcceptorStatus.Ok, evs)
    end.

(** The listener is released first. *)
Definition releaseResources (a : Acceptor) : Acceptor * list FdEvent :=
  (a <| listen_fd := -1 |> <| reserve_fd := -1 |> <| acceptor_wake_fd := -1 |> <| acceptor_epoll_fd := -1 |>,
   closeFd (listen_fd a) ++ closeFd (reserve_fd a) ++ closeFd (acceptor_wake_fd a) ++ closeFd (acceptor_epoll_fd a)).

(** ** start, stop and join *)

Inductive AcceptorStart := AStartReturned (st : AcceptorStatus.t) | AStartWaits.

(** [created]: [std::thread] did not throw. *)
Definition acceptor_start_enter (answers : ResourceAnswers) (created : bool) (a : Acceptor)
    : Acceptor * AcceptorStart * list FdEvent :=
  if bool_decide (acceptor_state a = AcceptorState.Running) then (a, AStartReturned AcceptorStatus.Ok, [])
  else if negb (bool_decide (acceptor_state a = AcceptorState.Constructed))
  then (a, AStartReturned AcceptorStatus.InvalidState, [])
  else
    let a := a <| acceptor_state := AcceptorState.Starting |> in
    let '(r, status, opened) := createResources answers in
    if negb (bool_decide (status = AcceptorStatus.Ok)) then
      (a <| acceptor_state := AcceptorState.Failed |> <| acceptor_join_status := status |>,
       AStartReturned status, opened ++ destroyResources r)
    else
      let a := a <| listen_fd := r_listener r |> <| acceptor_epoll_fd := r_epoll r |>
                 <| acceptor_wake_fd := r_wake r |> <| reserve_fd := r_reserve r |>
                 <| acceptor_stop := false |> in
      if created then (a <| acceptor_joinable := true |>, AStartWaits, opened)
      else
        let '(a, released) := releaseResources a in
        (a <| acceptor_state := AcceptorState.Failed |> <| acceptor_join_status := AcceptorStatus.StartFailed |>,
         AStartReturned AcceptorStatus.StartFailed, opened ++ released).

Definition acceptor_start_finish (a : Acceptor) : Acceptor := a <| acceptor_state := AcceptorState.Running |>.

(** Whether the eventfd is written next, under the same lock. *)
Definition acceptor_stop_enter (a : Acceptor) : Acceptor * bool :=
  if bool_decide (acceptor_state a = AcceptorState.Constructed)
  then (a <| acceptor_stop := true |> <| acceptor_state := AcceptorState.Stopped |>, false)
  else if negb (bool_decide (acceptor_state a = AcceptorState.Running)) then (a, false)
  else (a <| acceptor_stop := true |> <| acceptor_state := AcceptorState.Stopping |>,
        socket_valid (acceptor_wake_fd a)).

Inductive AcceptorJoin := AJoinReturned (st : AcceptorStatus.t) | AJoinWaits | AJoinJoins.

(** [self]: the caller is the accepting thread. *)
Definition acceptor_join_enter (self : bool) (a : Acceptor) : Acceptor * AcceptorJoin :=
  if (self && thread_known a)%bool then (a, AJoinReturned AcceptorStatus.SelfJoin)
  else if (bool_decide (acceptor_state a = AcceptorState.Starting)
           || bool_decide (acceptor_state a = AcceptorState.Running))%bool
  then (a, AJoinReturned AcceptorStatus.InvalidState)
  else if acceptor_joining a then (a, AJoinWaits)
  else if negb (acceptor_joinable a) then (a, AJoinReturned (acceptor_join_status a))
  else (a <| acceptor_joinable := false |> <| acceptor_joining := true |>, AJoinJoins).

Definition acceptor_join_finish (a : Acceptor) : Acceptor * AcceptorStatus.t :=
  (a <| acceptor_joining := false |>, acceptor_join_status a).

(** ** The accepting thread *)

(** Whether the socket is handed to the event loops; otherwise it is closed. *)
Definition dispatchAccepted (a : Acceptor) : bool :=
  negb (negb (bool_decide (acceptor_state a = AcceptorState.Running)) || acceptor_stop a).

(** What [drainAccept] does after an error of [accept4]. *)
Inductive DrainNext := Again | Return_ | Recover.

Definition after_accept_error (e : AcceptErrno.t) : DrainNext :=
  match e with
  | AcceptErrno.EINTR => Again
  | AcceptErrno.EAGAIN => Return_
  | AcceptErrno.ECONNABORTED => Again
  | AcceptErrno.EMFILE | AcceptErrno.ENFILE => Recover
  | e => if isPendingNetworkError e then Again else Return_
  end.

(** Whether [recoverFromFdExhaustion] tries to shed a connection again. *)
Definition shed_again (answer : AcceptAnswer) : bool :=
  match answer with Refused AcceptErrno.EINTR => true | _ => false end.

Definition reset_reserve (fd : Z) (a : Acceptor) : Acceptor * list FdEvent :=
  (a <| reserve_fd := fd |>, closeFd (reserve_fd a)).

(** The last critical section of [threadMain]. *)
Definition thread_finish (failed : bool) (a : Acceptor) : Acceptor * list FdEvent :=
  let '(a, released) := releaseResources a in
  (if failed
   then a <| acceptor_state := AcceptorState.Failed |> <| acceptor_join_status := AcceptorStatus.SystemCallFailed |>
   else if negb (bool_decide (acceptor_state a = AcceptorState.Failed))
   then a <| acceptor_state := AcceptorState.Stopped |> else a, released).

(** Where the thread is; [tags] are the events of the last [epoll_wait] that
    remain. *)
Inductive Position :=
| Absent
| Entering                        (* before its first critical section *)
| AwaitRunning                    (* in [state_changed.wait] *)
| TestStop                        (* the loop of [threadMain] *)
| InEpollWait
| TestEvent (tags : list Z)       (* the loop over the events *)
| ReadWake                        (* [drainEventFd] *)
| TestAccept (tags : list Z)      (* the loop of [drainAccept] *)
| InAccept (tags : list Z)
| Dispatching (fd : Z) (tags : list Z)
| TestShed (tags : list Z)        (* the loop of [recoverFromFdExhaustion] *)
| InShed (tags : list Z)
| Reopening (tags : list Z)       (* [openReserveFd] *)
| Leaving                         (* before the last critical section *)
| Done.

(** *** The kernel *)

(** What [accept4] does with the connections that wait (accept(2)): [None] if
    the answer is impossible.  An aborted connection and a pending network
    error of a connection take it from the queue. *)
Definition kernel_accept (waiting : nat) (answer : AcceptAnswer) : option nat :=
  match answer, waiting with
  | Accepted fd, S n => if 0 <=? fd then Some n else None
  | Accepted _, O => None
  | Refused AcceptErrno.EAGAIN, O => Some O
  | Refused AcceptErrno.EAGAIN, S _ => None
  | Refused AcceptErrno.ECONNABORTED, n => Some (pred n)
  | Refused e, n => Some (if isPendingNetworkError e then pred n else n)
  end.

Record AcceptorSystem := mkAcceptorSystem {
  acc : Acceptor;
  position : Position;
  acceptor_failed : bool;         (* the local [failed] of [threadMain] *)
  acc_log : list FdEvent;
  dispatched : list Z;            (* sockets given to the event loops *)
  starting : bool;                (* [start] waits for the thread *)
  signalling : bool;              (* [stop] holds the mutex, before its write *)
  waiting : nat;                  (* connections in the queue of the listener *)
  listen_edge : bool;             (* an event of the listener is pending *)
  wake_edge : bool;               (* an event of the eventfd is pending *)
  abandoned : bool;               (* the last [drainAccept] gave up: an error outside the
                                     cases it names, or no reserve descriptor *)
  signal_failed : bool;           (* the write of [stop] failed *)
}.

Definition acceptor_unlocked (s : AcceptorSystem) : Prop := signalling s = false.

Definition goto (p : Position) (s : AcceptorSystem) : AcceptorSystem := s <| position := p |>.
Definition log (evs : list FdEvent) (s : AcceptorSystem) : AcceptorSystem := s <| acc_log := acc_log s ++ evs |>.

(** The events that [epoll_wait] can report. *)
Definition pending_tags (s : AcceptorSystem) : list Z :=
  (if listen_edge s then [kListenEvent] else []) ++ (if wake_edge s then [kStopEvent] else []).

Definition reported (tags : list Z) (s : AcceptorSystem) : AcceptorSystem :=
  s <| listen_edge := (listen_edge s && negb (bool_decide (kListenEvent ∈ tags)))%bool |>
    <| wake_edge := (wake_edge s && negb (bool_decide (kStopEvent ∈ tags)))%bool |>.

(** The thread handles the first of the events. *)
Definition test_event (tags : list Z) (s : AcceptorSystem) : Position :=
  match tags with
  | [] => TestStop
  | tag :: rest =>
      if acceptor_stop (acc s) then TestStop
      else if tag =? kStopEvent then ReadWake
      else if tag =? kListenEvent then TestAccept rest
      else TestEvent rest
  end.

(** [accept4] answered to [drainAccept]. *)
Definition accept_answered (answer : AcceptAnswer) (left : nat) (tags : list Z) (s : AcceptorSystem)
    : AcceptorSystem :=
  let s := s <| waiting := left |> in
  match answer with
  | Accepted fd => goto (Dispatching fd tags) (log [FdOpened fd] s)
  | Refused e =>
      match after_accept_error e with
      | Again => goto (TestAccept tags) s
      | Return_ => goto (TestEvent tags) (s <| abandoned := match e with
                                                                   | AcceptErrno.EAGAIN => false
                                                                   | AcceptErrno.Other => true
                                                                   | _ => abandoned s
                                                                   end |>)
      | Recover =>
          let '(a, closed) := reset_reserve (-1) (acc s) in
          goto (TestShed tags) (log closed (s <| acc := a |>))
      end
  end.

(** [accept4] answered to [recoverFromFdExhaustion], which closes what it got. *)
Definition shed_answered (answer : AcceptAnswer) (left : nat) (tags : list Z) (s : AcceptorSystem)
    : AcceptorSystem :=
  let s := s <| waiting := left |> in
  let s := match answer with Accepted fd => log [FdOpened fd; FdClosed fd] s | Refused _ => s end in
  goto (if shed_again answer then TestShed tags else Reopening tags) s.

Definition reserve_opened (fd : Z) (tags : list Z) (s : AcceptorSystem) : AcceptorSystem :=
  let '(a, closed) := reset_reserve fd (acc s) in
  let s := log (openedFd fd ++ closed) (s <| acc := a |>) in
  if socket_valid (reserve_fd a) then goto (TestAccept tags) s
  else goto (TestEvent tags) (s <| abandoned := true |>).

Definition dispatch_step (fd : Z) (tags : list Z) (s : AcceptorSystem) : AcceptorSystem :=
  goto (TestAccept tags)
    (if dispatchAccepted (acc s) then s <| dispatched := dispatched s ++ [fd] |> else log (closeFd fd) s).

Inductive thread_step : AcceptorSystem -> AcceptorSystem -> Prop :=
| t_enter s :
    acceptor_unlocked s -> position s = Entering ->
    thread_step s (goto AwaitRunning (s <| acc := (acc s) <| thread_known := true |> |>))
| t_run s :
    acceptor_unlocked s -> position s = AwaitRunning -> acceptor_state (acc s) <> AcceptorState.Starting ->
    thread_step s (goto TestStop s)
| t_test_stop s :
    position s = TestStop -> thread_step s (goto (if acceptor_stop (acc s) then Leaving else InEpollWait) s)
| t_epoll_interrupted s : position s = InEpollWait -> thread_step s (goto TestStop s)
| t_epoll_failed s : position s = InEpollWait -> thread_step s (goto Leaving (s <| acceptor_failed := true |>))
| t_epoll s tags :
    position s = InEpollWait -> tags <> [] -> tags ⊆+ pending_tags s ->
    size_of tags <= acceptor_max_events (acceptor_config (acc s)) ->
    thread_step s (goto (TestEvent tags) (reported tags s))
| t_event s tags : position s = TestEvent tags -> thread_step s (goto (test_event tags s) s)
| t_read_wake s reads ok :
    position s = ReadWake -> drainWakeFd reads = Some ok ->
    thread_step s (goto TestStop (s <| acceptor_failed := (acceptor_failed s || negb ok)%bool |>))
| t_test_accept s tags :
    position s = TestAccept tags ->
    thread_step s (goto (if acceptor_stop (acc s) then TestEvent tags else InAccept tags) s)
| t_accept s tags answer left :
    position s = InAccept tags -> kernel_accept (waiting s) answer = Some left ->
    thread_step s (accept_answered answer left tags s)
| t_dispatch s fd tags :
    acceptor_unlocked s -> position s = Dispatching fd tags -> thread_step s (dispatch_step fd tags s)
| t_test_shed s tags :
    position s = TestShed tags ->
    thread_step s (goto (if acceptor_stop (acc s) then Reopening tags else InShed tags) s)
| t_shed s tags answer left :
    position s = InShed tags -> kernel_accept (waiting s) answer = Some left ->
    thread_step s (shed_answered answer left tags s)
| t_reopen s tags fd : position s = Reopening tags -> thread_step s (reserve_opened fd tags s)
| t_leave s a released :
    acceptor_unlocked s -> position s = Leaving -> thread_finish (acceptor_failed s) (acc s) = (a, released) ->
    thread_step s (goto Done (log released (s <| acc := a |>))).

(** The callers and the kernel. *)
Inductive other_step : AcceptorSystem -> AcceptorSystem -> Prop :=
| o_start s answers created a outcome evs :
    acceptor_unlocked s -> acceptor_start_enter answers created (acc s) = (a, outcome, evs) ->
    other_step s (log evs (match outcome with
                           | AStartWaits => goto Entering s <| starting := true |>
                           | AStartReturned _ => s
                           end <| acc := a |>))
| o_started s :
    acceptor_unlocked s -> starting s = true -> thread_known (acc s) = true ->
    other_step s (s <| acc := acceptor_start_finish (acc s) |> <| starting := false |>)
| o_stop s a signal :
    acceptor_unlocked s -> acceptor_stop_enter (acc s) = (a, signal) ->
    other_step s (s <| acc := a |> <| signalling := signal |>)
(* The counter of the eventfd is far from its maximum (eventfd(2)): no write
   answers EAGAIN. *)
| o_signal s writes ok :
    signalling s = true -> signalWakeFd writes = Some ok -> IoError EAGAIN ∉ writes ->
    other_step s (s <| signalling := false |> <| wake_edge := (wake_edge s || ok)%bool |>
                    <| signal_failed := negb ok |>)
| o_join s self a answer :
    acceptor_unlocked s -> acceptor_join_enter self (acc s) = (a, answer) -> other_step s (s <| acc := a |>)
| o_joined s :
    acceptor_unlocked s -> acceptor_joining (acc s) = true -> position s = Done ->
    other_step s (s <| acc := (acceptor_join_finish (acc s)).1 |>)
| o_arrive s :
    socket_valid (listen_fd (acc s)) = true ->
    other_step s (s <| waiting := S (waiting s) |> <| listen_edge := true |>)
| o_vanish s : other_step s (s <| waiting := pred (waiting s) |>).

Definition astep (s s' : AcceptorSystem) : Prop := thread_step s s' \/ other_step s s'.

Definition acceptor_begin (a : Acceptor) : AcceptorSystem :=
  mkAcceptorSystem a Absent false [] [] false false 0 false false false false.

Definition reachable_acceptor `{Inet} (s : AcceptorSystem) : Prop :=
  exists config a, make_acceptor config = Ok a /\ rtc astep (acceptor_begin a) s.
