(* ===== verification/ConfigContract.v ===== *)
(** * ConfigContract: what the loader accepts, the components accept

    The configuration checks of the constructors in [app/], [net/], [runtime/],
    [timer/] and [log/] against the checks of [src/config/config.cpp]: every
    test that a component makes on its configuration holds for a configuration
    that [loadAppConfig] returned and [normalizeConfig] completed.  The memory
    for the configured capacities is not part of it, but for the candidate
    queue, whose [reserve] has a limit of its own. *)

From S2P Require Import Prelude Text Domain IpAddress FeatureStore Policy RiskService CandidateQueue.
From S2P Require Import RedisConnection MysqlDao Codec Limits Session TimerCore Mailbox WorkerPool Business Config.
From S2P Require Import FeatureMaintenance BlacklistMaintenance EventLoop EventLoopGroup AcceptorLoop.
Open Scope Z_scope.

(** Each component that gets a part of the configuration, and the test of its
    constructor, of its [init] or of its [create]; the descriptors that the
    mailboxes open are legal. *)
Record components_accept `{Inet} (app : AppConfig) (e : HandlerConfig) : Prop := {
  ca_logger : logger_validConfig (logger app) = true;
  ca_timer : TimerCore.validConfig (timer app) = true;
  ca_handler : handler_validConfig e = true;
  ca_workers : pool_validConfig (worker_pool e) = true
    /\ queue_capacity (worker_pool e) + thread_count (worker_pool e) < two64;
  ca_maintenance_pool : pool_validConfig (maintenance_pool e) = true;
  ca_service : exists svc, make_service (policy e) (feature_reclamation e) = Ok svc;
  ca_feature : exists m, FeatureMaintenance.create (Config.cleanup_interval e) = Ok m;
  ca_blacklist revision dirty :
    exists m, BlacklistMaintenance.create (blacklist_maintenance e) revision dirty = Ok m;
  ca_router : exists r, make_router 0 (loop_count (event_loops e)) = Ok r;
  ca_group : checkedGroupConfig (event_loops e) = Ok (event_loops e);
  ca_loop : checkedEventLoopConfig (event_loop (event_loops e)) = Ok (event_loop (event_loops e));
  ca_session : Session.validConfig (Config.session (event_loop (event_loops e))) = true;
  ca_completions wake_fd : 0 <= wake_fd -> let loop := event_loop (event_loops e) in
    exists m, make_loop_mailbox (completion_capacity loop) (completion_byte_capacity loop)
                (loop_max_completion_bytes loop) wake_fd = Ok m;
  ca_connections wake_fd : 0 <= wake_fd ->
    exists m, make_connection_mailbox (group_connection_queue_capacity (event_loops e)) wake_fd = Ok m;
  ca_timeouts wake_fd : 0 <= wake_fd ->
    exists m, make_timeout_mailbox (loop_max_connections (event_loop (event_loops e))) wake_fd = Ok m;
  ca_acceptor : exists address, checkedAddress (acceptor e) = Ok address;
}.

Section Contract.
Context `{Inet} `{Protobuf}.
Context (h e : HandlerConfig) (Hh : loaded_handler h).
Context (Hmc : max_connections (limits h) + max_connections (limits h) < two64).
Context (Hn : normalizeConfig h = Ok e).

Lemma group_accepts : checkedGroupConfig (event_loops e) = Ok (event_loops e).
Proof.
  destruct (loaded_limits_ok h Hh Hmc) as [Hu []].
  destruct (normalizeConfig_ok _ _ Hn) as (overload & timeout & ->). pose proof Hh as [].
  unfold limits_u64, is_u64, u64_max, u32_max in *. unfold checkedGroupConfig. simpl.
  rewrite (wrap64_small (loop_count _ * _)) by (unfold is_u64; lia).
  rewrite !(proj2 (Z.eqb_neq _ 0)) by lia.
  rewrite (proj2 (Z.ltb_ge 4294967295 _)), (proj2 (Z.ltb_ge _ (connection_queue_capacity _))),
    (proj2 (Z.ltb_ge _ (max_connections (limits h)))), andb_false_r by lia. done.
Qed.

Lemma loop_accepts :
  checkedEventLoopConfig (event_loop (event_loops e)) = Ok (event_loop (event_loops e)).
Proof.
  destruct (loaded_limits_ok h Hh Hmc) as [Hu []].
  destruct (normalizeConfig_ok _ _ Hn) as (overload & timeout & ->). pose proof Hh as [].
  unfold checkedEventLoopConfig. simpl. rewrite lh_loop. simpl. unfold kFrameHeaderSize.
  rewrite !(proj2 (Z.eqb_neq _ 0)), (proj2 (Z.leb_gt _ _)), (proj2 (Z.ltb_ge _ _)) by lia. done.
Qed.

Lemma mailboxes_accept wake_fd :
  0 <= wake_fd -> let loop := event_loop (event_loops e) in
  (exists m, make_loop_mailbox (completion_capacity loop) (completion_byte_capacity loop)
               (loop_max_completion_bytes loop) wake_fd = Ok m)
  /\ (exists m, make_connection_mailbox (group_connection_queue_capacity (event_loops e)) wake_fd = Ok m)
  /\ (exists m, make_timeout_mailbox (loop_max_connections loop) wake_fd = Ok m).
Proof.
  intros Hfd. destruct (loaded_limits_ok h Hh Hmc) as [Hu []].
  destruct (normalizeConfig_ok _ _ Hn) as (overload & timeout & ->). pose proof Hh as []. simpl.
  unfold make_loop_mailbox, make_connection_mailbox, make_timeout_mailbox.
  rewrite !(proj2 (Z.eqb_neq _ 0)), !(proj2 (Z.ltb_ge _ _)) by lia. simpl. split_and!; eauto.
Qed.

Lemma acceptor_accepts : exists address, checkedAddress (acceptor e) = Ok address.
Proof.
  destruct (normalizeConfig_ok _ _ Hn) as (overload & timeout & ->). pose proof Hh as [].
  destruct lh_host as [Hne Hin], lh_backlog as [Hb He]. unfold checkedAddress. simpl. rewrite Hb, He.
  rewrite (proj2 (Nat.eqb_neq _ 0)) by (by destruct (bind_address (acceptor h))).
  rewrite (proj2 (Z.eqb_neq (max_connections _) 0)) by lia. simpl.
  destruct (inet_pton4 _); [eauto|done].
Qed.

Lemma services_accept :
  (exists svc, make_service (policy e) (feature_reclamation e) = Ok svc)
  /\ (exists m, FeatureMaintenance.create (Config.cleanup_interval e) = Ok m)
  /\ (forall revision dirty, exists m, BlacklistMaintenance.create (blacklist_maintenance e) revision dirty = Ok m).
Proof.
  destruct (normalizeConfig_ok _ _ Hn) as (overload & timeout & ->). pose proof Hh as [].
  destruct lh_deadlines as [_ Hms]. rewrite !Forall_cons in Hms.
  destruct Hms as (_&_&_&_&_&?&_&_&?&?&?&_). destruct lh_batches as (?&?&?). simpl. split_and!.
  - unfold make_service. rewrite lh_policy.
    pose proof (make_accepts_valid_config (feature_reclamation h)) as Hm.
    destruct (FeatureStore.make (feature_reclamation h)); [by eauto|]. congruence.
  - unfold FeatureMaintenance.create. rewrite (proj2 (Z.leb_gt _ _)) by lia. eauto.
  - intros revision dirty. unfold BlacklistMaintenance.create.
    enough (maintenance_validConfig _ = true) as -> by eauto.
    unfold maintenance_validConfig. simpl. rewrite !andb_true_iff, !Z.ltb_lt, !Z.leb_le. lia.
Qed.

Lemma pools_accept :
  (pool_validConfig (worker_pool e) = true
   /\ queue_capacity (worker_pool e) + thread_count (worker_pool e) < two64)
  /\ pool_validConfig (maintenance_pool e) = true.
Proof.
  destruct (normalizeConfig_ok _ _ Hn) as (overload & timeout & ->). pose proof Hh as []. simpl.
  rewrite lh_maintenance_pool. unfold pool_validConfig. simpl. rewrite andb_true_iff, !Z.ltb_lt. lia.
Qed.

Lemma session_accepts : Session.validConfig (Config.session (event_loop (event_loops e))) = true.
Proof.
  destruct (loaded_limits_ok h Hh Hmc) as [Hu []].
  destruct (normalizeConfig_ok _ _ Hn) as (overload & timeout & ->).
  unfold Session.validConfig. simpl. rewrite !andb_true_iff, !Z.ltb_lt, !Z.leb_le. lia.
Qed.

Lemma router_accepts : exists r, make_router 0 (loop_count (event_loops e)) = Ok r.
Proof.
  destruct (normalizeConfig_ok _ _ Hn) as (overload & timeout & ->). pose proof Hh as []. simpl.
  unfold make_router. unfold u32_max in *.
  rewrite (proj2 (Z.eqb_neq _ 0)), (proj2 (Z.ltb_ge _ _)) by lia. eauto.
Qed.
End Contract.

Section Loader.
Context `{Inet} `{Protobuf}.

(** C34. The loader and the components agree: a configuration file that is
    accepted never yields a configuration that a component refuses.  The tests
    of the logger, the timer, the handler, both worker pools, the risk service,
    the two maintenance services, the completion router, the group of loops,
    each loop with its mailboxes and sessions, and the acceptor all succeed on
    what [normalizeConfig] makes of it, and the in-flight counter of the pool
    cannot overflow.  The candidate queue is built exactly when its capacity is
    within the [max_size()] of the vector it reserves, which the loader does
    not check; the memory of the other components is not considered. *)
Theorem loaded_config_valid content app e max_size :
  loadAppConfig content = Ok app -> normalizeConfig (handler app) = Ok e ->
  components_accept app e
  /\ ((exists q, make_queue max_size (candidate_queue_capacity e) = Ok q)
      <-> candidate_queue_capacity e <= max_size).
Proof.
  intros Hl Hn. destruct (loaded_config_ok _ _ Hl) as (Hlog & Ht & Hh & Hmc). split.
  - destruct (pools_accept _ e Hh Hn) as [H1 H2]. destruct (services_accept _ e Hh Hn) as (H3 & H4 & H5).
    split; try done.
    + by eapply loaded_handler_valid.
    + by apply (router_accepts _ e Hh Hn).
    + by apply (group_accepts _ e Hh Hmc Hn).
    + by apply (loop_accepts _ e Hh Hmc Hn).
    + by apply (session_accepts _ e Hh Hmc Hn).
    + intros wake_fd Hfd. apply (mailboxes_accept _ e Hh Hmc Hn _ Hfd).
    + intros wake_fd Hfd. apply (mailboxes_accept _ e Hh Hmc Hn _ Hfd).
    + intros wake_fd Hfd. apply (mailboxes_accept _ e Hh Hmc Hn _ Hfd).
    + by apply (acceptor_accepts _ e Hh Hn).
  - assert (1 <= candidate_queue_capacity e) as Hc.
    { destruct (normalizeConfig_ok _ _ Hn) as (overload & timeout & ->). pose proof Hh as []. simpl. lia. }
    split; [by intros (q & (_ & ? & _)%make_queue_ok)|]. intros Hle. unfold make_queue.
    rewrite (proj2 (Z.eqb_neq _ 0)), (proj2 (Z.ltb_ge _ _)) by lia. eauto.
Qed.
End Loader.

Lemma loaded_config_valid_witness :
  @components_accept ReferenceInet.inet sample_app sample_effective
  /\ exists q, make_queue 4096 (candidate_queue_capacity sample_effective) = Ok q.
Proof.
  destruct (@loaded_config_valid ReferenceInet.inet sample_protobuf (Some sample_file) sample_app sample_effective 4096)
    as [H1 H2]; [vm_compute; reflexivity..|].
  split; [exact H1|]. apply H2. vm_compute. discriminate.
Defined.

(** A capacity that the loader accepts and the constructor of the queue does
    not, however large a vector may be. *)
Definition huge_file : string := "blacklist.candidate_queue_capacity=18446744073709551615".

Lemma loader_accepts_unbuildable_queue :
  exists app e,
    @loadAppConfig ReferenceInet.inet (Some huge_file) = Ok app
    /\ @normalizeConfig sample_protobuf (handler app) = Ok e
    /\ forall max_size, max_size < two64 - 1 ->
         make_queue max_size (candidate_queue_capacity e) = Throw "length_error".
Proof.
  do 2 eexists. split; [vm_compute; reflexivity|]. split; [vm_compute; reflexivity|].
  intros max_size Hm. unfold make_queue. simpl. by rewrite (proj2 (Z.ltb_lt _ _)) by lia.
Qed.
