(* ===== verification/AcceptorSafety.v ===== *)
(** * AcceptorSafety: what the accepting thread guarantees

    Invariants of the executions of [AcceptorLoop]: its descriptors, its life
    cycle, its two edge-triggered events and its termination. *)

From S2P Require Import Prelude Posix Ring Codec Limits TimerCore Timer Scheduler.
From S2P Require Import Mailbox IpAddress Config AcceptorLoop.
Open Scope Z_scope.

(** ** Descriptors *)

Definition held (a : Acceptor) : list Z :=
  socket_reset (listen_fd a) ++ socket_reset (reserve_fd a) ++ socket_reset (acceptor_wake_fd a)
  ++ socket_reset (acceptor_epoll_fd a).

Definition held_by_thread (p : Position) : list Z := match p with Dispatching fd _ => [fd] | _ => [] end.

Definition descriptors_ok (s : AcceptorSystem) : Prop :=
  fds_balanced (acc_log s) (held (acc s) ++ held_by_thread (position s) ++ dispatched s)
  /\ Forall (fun fd => 0 <= fd) (held_by_thread (position s)).

Lemma fds_closeFd fd : fds_opened (closeFd fd) = [] /\ fds_closed (closeFd fd) = socket_reset fd.
Proof. unfold closeFd, socket_reset. by destruct (0 <=? fd). Qed.

Lemma fds_openedFd fd : fds_opened (openedFd fd) = socket_reset fd /\ fds_closed (openedFd fd) = [].
Proof. unfold openedFd, socket_reset. by destruct (0 <=? fd). Qed.

Ltac fd_events :=
  rewrite ?fds_opened_app, ?fds_closed_app, ?(proj1 (fds_closeFd _)), ?(proj2 (fds_closeFd _)),
    ?(proj1 (fds_openedFd _)), ?(proj2 (fds_openedFd _)); simpl.

Lemma release_closes a a' evs :
  releaseResources a = (a', evs) ->
  held a' = [] /\ fds_opened evs = [] /\ fds_closed evs = held a.
Proof. unfold releaseResources, held. intros E. simplify_eq. by split_and!; fd_events. Qed.

(** What [createResources] opened and holds. *)
Lemma create_opened answers r status evs :
  createResources answers = (r, status, evs) ->
  fds_closed evs = [] /\ fds_opened evs ≡ₚ fds_closed (destroyResources r) /\ fds_opened (destroyResources r) = []
  /\ (status = AcceptorStatus.Ok -> 0 <= r_listener r /\ 0 <= r_epoll r /\ 0 <= r_wake r /\ 0 <= r_reserve r).
Proof.
  unfold createResources, destroyResources, socket_valid. intros E.
  repeat case_match; simplify_eq/=; fd_events; split_and!; try done;
    rewrite ?negb_false_iff, ?Z.leb_le in *; try (intros; by split_and!); try solve_Permutation.
Qed.

Lemma start_opened answers created a a' outcome evs :
  acceptor_start_enter answers created a = (a', outcome, evs) ->
  held a = [] \/ acceptor_state a <> AcceptorState.Constructed ->
  held a ++ fds_opened evs ≡ₚ fds_closed evs ++ held a'.
Proof.
  unfold acceptor_start_enter. intros E Hh. destruct (bool_decide_reflect (acceptor_state a = AcceptorState.Running)).
  { simplify_eq. simpl. by rewrite app_nil_r. }
  destruct (bool_decide_reflect (acceptor_state a = AcceptorState.Constructed)) as [Hc|Hc]; simpl in E;
    [|simplify_eq; simpl; by rewrite app_nil_r].
  destruct Hh as [Hh|Hh]; [|done]. destruct (createResources answers) as [[r status] opened] eqn:Ec.
  destruct (create_opened _ _ _ _ Ec) as (C1 & C2 & C3 & _). rewrite Hh.
  unfold destroyResources in C2, C3. revert C2 C3. fd_events. intros C2 C3.
  destruct (bool_decide_reflect (status = AcceptorStatus.Ok)); simpl in E; [destruct created|];
    simplify_eq/=; unfold held in *; simpl in *; unfold destroyResources; fd_events; rewrite ?C1, ?C2, ?Hh; simpl;
    solve_Permutation.
Qed.

(** ** Life cycle *)

Definition live (p : Position) : Prop := p <> Absent /\ p <> Done.
Definition final (st : AcceptorState.t) : Prop := st = AcceptorState.Stopped \/ st = AcceptorState.Failed.
Definition serving (st : AcceptorState.t) : Prop := st = AcceptorState.Running \/ st = AcceptorState.Stopping.

Definition phase_ok (s : AcceptorSystem) : Prop :=
  let a := acc s in
  match position s with
  | Absent => starting s = false /\ acceptor_joinable a = false /\ acceptor_joining a = false /\ thread_known a = false
              /\ held a = [] /\ (acceptor_state a = AcceptorState.Constructed \/ final (acceptor_state a))
  | Entering => acceptor_state a = AcceptorState.Starting /\ thread_known a = false /\ starting s = true
  | AwaitRunning => acceptor_state a = AcceptorState.Starting /\ starting s = true
                    \/ serving (acceptor_state a) /\ starting s = false
  | Done => held a = [] /\ final (acceptor_state a) /\ starting s = false
  | _ => serving (acceptor_state a) /\ starting s = false
  end.

Record life (s : AcceptorSystem) : Prop := {
  l_phase : phase_ok s;
  l_open : live (position s) -> 0 <= listen_fd (acc s) /\ 0 <= acceptor_wake_fd (acc s);
  l_stop : acceptor_stop (acc s) = true ->
    acceptor_state (acc s) = AcceptorState.Stopping \/ final (acceptor_state (acc s));
  l_stopping : acceptor_state (acc s) = AcceptorState.Stopping -> acceptor_stop (acc s) = true;
  l_signal : signalling s = true -> acceptor_state (acc s) = AcceptorState.Stopping;
  l_status : acceptor_join_status (acc s) = AcceptorStatus.Ok <-> acceptor_state (acc s) <> AcceptorState.Failed;
  l_thread : live (position s) -> acceptor_joinable (acc s) = true \/ acceptor_joining (acc s) = true;
}.

(** A step that only moves the thread, between positions of the same kind. *)
Definition same_life (s s' : AcceptorSystem) : Prop :=
  listen_fd (acc s') = listen_fd (acc s) /\ acceptor_wake_fd (acc s') = acceptor_wake_fd (acc s)
  /\ acceptor_stop (acc s') = acceptor_stop (acc s) /\ acceptor_state (acc s') = acceptor_state (acc s)
  /\ acceptor_join_status (acc s') = acceptor_join_status (acc s)
  /\ acceptor_joinable (acc s') = acceptor_joinable (acc s) /\ acceptor_joining (acc s') = acceptor_joining (acc s)
  /\ starting s' = starting s /\ signalling s' = signalling s.

(** The positions of the loop. *)
Definition looping (p : Position) : Prop :=
  match p with Absent | Entering | AwaitRunning | Done => False | _ => True end.

Lemma life_moves s s' : life s -> same_life s s' -> looping (position s) -> looping (position s') -> life s'.
Proof.
  intros [L1 L2 L3 L4 L5 L6 L7] (E1 & E2 & E3 & E4 & E5 & E6 & E7 & E8 & E9) H1 H2.
  assert (live (position s)) as Hl by (unfold live; by destruct (position s)).
  assert (serving (acceptor_state (acc s)) /\ starting s = false) as Hs
    by (unfold phase_ok in L1; by destruct (position s)).
  split; rewrite ?E1, ?E2, ?E3, ?E4, ?E5, ?E6, ?E7, ?E9; auto.
  unfold phase_ok. rewrite E4, E8. by destruct (position s').
Qed.

Lemma looping_test tags s : looping (test_event tags s).
Proof. unfold test_event. repeat case_match; done. Qed.

Lemma life_thread s s' : life s -> thread_step s s' -> life s'.
Proof.
  intros L H. destruct H as
    [s Hu Hp|s Hu Hp Hst|s Hp|s Hp|s Hp|s tags Hp Hne Hin Hlen|s tags Hp|s reads ok Hp Hr|s tags Hp
    |s tags answer left_ Hp Hk|s fd tags Hu Hp|s tags Hp|s tags answer left_ Hp Hk|s tags fd Hp|s a released Hu Hp Hf].
  3-14: eapply life_moves; [exact L| |by rewrite Hp|]; 
    unfold same_life, accept_answered, shed_answered, reserve_opened, dispatch_step, reset_reserve; simpl;
    repeat case_match; simpl; first [by split_and!|done|apply looping_test].
  - destruct L as [L1 L2 L3 L4 L5 L6 L7]. unfold phase_ok in L1. rewrite Hp in *. destruct L1 as (E1 & E2 & E3).
    split; simpl; auto; try (intros; apply L2 || apply L7; done). by left.
  - destruct L as [L1 L2 L3 L4 L5 L6 L7]. unfold phase_ok in L1. rewrite Hp in *.
    destruct L1 as [[? _]|L1]; [done|]. split; simpl; auto; intros; apply L2 || apply L7; done.
  - destruct L as [L1 L2 L3 L4 L5 L6 L7]. unfold phase_ok in L1. rewrite Hp in *. unfold thread_finish in Hf.
    destruct (releaseResources (acc s)) as [a0 evs] eqn:Er. destruct (release_closes _ _ _ Er) as (R1 & _).
    unfold releaseResources in Er. destruct L1 as [Hs Hst].
    assert (acceptor_state (acc s) <> AcceptorState.Failed) as Hnf by (destruct Hs as [-> | ->]; done).
    injection Hf as Ha <-. assert (held a = []) as Hh by (rewrite <-Ha; repeat case_match; done).
    assert (final (acceptor_state a) /\ (acceptor_join_status a = AcceptorStatus.Ok <-> acceptor_state a <> AcceptorState.Failed))
      as [Hf1 Hf2].
    { rewrite <-Ha. injection Er as <- <-. simpl. destruct (acceptor_failed s); simpl; [split; [by right|done]|].
      rewrite bool_decide_false by done. simpl. split; [by left|]. rewrite L6. done. }
    unfold acceptor_unlocked in Hu.
    split; simpl; [done|by intros [_ []]|auto| |rewrite Hu; done|done|by intros [_ []]].
    intros E. rewrite E in Hf1. by destruct Hf1.
Qed.

Lemma start_life answers created a a' outcome evs :
  acceptor_start_enter answers created a = (a', outcome, evs) ->
  outcome <> AStartWaits /\ a' = a
  \/ acceptor_state a = AcceptorState.Constructed /\ thread_known a' = thread_known a
     /\ acceptor_joining a' = acceptor_joining a
     /\ match outcome with
        | AStartWaits => acceptor_state a' = AcceptorState.Starting /\ acceptor_stop a' = false
            /\ acceptor_joinable a' = true
            /\ acceptor_join_status a' = acceptor_join_status a /\ 0 <= listen_fd a' /\ 0 <= acceptor_wake_fd a'
        | AStartReturned _ => acceptor_state a' = AcceptorState.Failed /\ acceptor_joinable a' = acceptor_joinable a
            /\ acceptor_join_status a' <> AcceptorStatus.Ok /\ (held a = [] -> held a' = [])
        end.
Proof.
  unfold acceptor_start_enter. intros E. destruct (bool_decide_reflect (acceptor_state a = AcceptorState.Running));
    [simplify_eq; by left|].
  destruct (bool_decide_reflect (acceptor_state a = AcceptorState.Constructed)); simpl in E; [|simplify_eq; by left].
  right. split; [done|]. destruct (createResources answers) as [[r status] opened] eqn:Ec.
  apply create_opened in Ec as (_ & _ & _ & Hok).
  destruct (bool_decide_reflect (status = AcceptorStatus.Ok)); simpl in E; [|by simplify_eq/=].
  destruct Hok as (? & ? & ? & ?); [done|]. destruct created; by simplify_eq/=.
Qed.

Lemma life_other s s' : life s -> other_step s s' -> life s'.
Proof.
  intros [L1 L2 L3 L4 L5 L6 L7] H. destruct H as
    [s answers created a outcome evs Hu Hst|s Hu Hst Hk|s a signal Hu Hst|s writes ok Hs Hw Hn|s self a answer Hu Hj
    |s Hu Hj Hp|s Hl|s].
  - apply start_life in Hst as [[Ho ->]|(Hc & Hk & Hj & Hst)].
    { destruct outcome; [|done]. by split. }
    assert (position s = Absent) as Hp.
    { unfold phase_ok in L1. unfold serving, final in L1. destruct (position s); try done; naive_solver congruence. }
    unfold phase_ok in L1. rewrite Hp in *. destruct L1 as (P1 & P2 & P3 & P4 & P5 & _). unfold acceptor_unlocked in Hu.
    destruct outcome as [st|]; destruct Hst as (S1 & S2 & S3 & S4).
    + split; simpl; rewrite ?Hp, ?Hu, ?S1; [|by intros []| |done|done|done|by intros []].
      * unfold phase_ok. simpl. rewrite Hp, S1, S2, Hj, Hk. split_and!; auto. right. by right.
      * intros _. right. by right.
    + destruct S4 as (S4 & S5 & S6). split; simpl; rewrite ?Hp, ?Hu, ?S1, ?S2; try done; auto.
      * unfold phase_ok. simpl. by rewrite S1, Hk.
      * rewrite S4, L6, Hc. done.
  - unfold phase_ok in L1. unfold acceptor_unlocked in Hu.
    assert (acceptor_state (acc s) = AcceptorState.Starting /\ position s = AwaitRunning) as [Hs Hp].
    { destruct (position s); unfold serving, final in L1; naive_solver congruence. }
    split; simpl; rewrite ?Hp in *; auto; try done; try (rewrite Hu; done).
    + unfold phase_ok. simpl. rewrite Hp. right. split; [by left|done].
    + intros E. apply L3 in E. unfold final in E. rewrite Hs in E. naive_solver.
    + rewrite L6, Hs. done.
  - unfold acceptor_unlocked in Hu. unfold acceptor_stop_enter in Hst.
    destruct (bool_decide_reflect (acceptor_state (acc s) = AcceptorState.Constructed)) as [Hc|Hc].
    { simplify_eq/=. assert (position s = Absent) as Hp.
      { unfold phase_ok in L1. unfold serving, final in L1. destruct (position s); try done; naive_solver congruence. }
      unfold phase_ok in L1. rewrite Hp in *. split; simpl; rewrite ?Hp; try done; try (by intros []).
      - unfold phase_ok. simpl. rewrite Hp. destruct L1 as (P1 & P2 & P3 & P4 & P5 & _). split_and!; auto. right. by left.
      - intros _. right. by left.
      - rewrite L6, Hc. done. }
    destruct (bool_decide_reflect (acceptor_state (acc s) = AcceptorState.Running)) as [Hr|Hr]; simplify_eq/=.
    + split; simpl; auto; try done.
      * unfold phase_ok in L1 |- *. simpl. rewrite Hr in L1. unfold serving, final in *.
        destruct (position s); simpl in *; naive_solver.
      * rewrite L6, Hr. done.
    + by split; simpl.
  - by split; simpl.
  - unfold acceptor_join_enter in Hj. repeat case_match; simplify_eq/=; split; simpl; auto.
    all: unfold phase_ok in L1 |- *; simpl; rewrite ?negb_false_iff in *; destruct (position s); naive_solver congruence.
  - split; simpl; auto; rewrite ?Hp; [|by intros [_ []]]. unfold phase_ok in *. simpl. by rewrite Hp in *.
  - by split; simpl.
  - by split; simpl.
Qed.

(** Descriptors: what a step opens and closes accounts for what is held. *)
Lemma descriptors_step s s' evs :
  descriptors_ok s -> acc_log s' = acc_log s ++ evs ->
  Forall (fun fd => 0 <= fd) (held_by_thread (position s')) ->
  held (acc s) ++ held_by_thread (position s) ++ dispatched s ++ fds_opened evs
    ≡ₚ fds_closed evs ++ held (acc s') ++ held_by_thread (position s') ++ dispatched s' ->
  descriptors_ok s'.
Proof.
  intros [H1 H2] E1 E2 E3. split; [|done]. rewrite E1. eapply fds_balanced_app; [exact H1|]. by rewrite <-!app_assoc.
Qed.

Lemma held_reset fd a a' closed :
  reset_reserve fd a = (a', closed) ->
  fds_opened closed = [] /\ held a ++ socket_reset fd ≡ₚ fds_closed closed ++ held a'.
Proof.
  unfold reset_reserve, held. intros E. simplify_eq. fd_events. split; [done|]. solve_Permutation.
Qed.

Lemma descriptors_quiet s s' :
  descriptors_ok s -> acc_log s' = acc_log s -> held (acc s') = held (acc s) -> dispatched s' = dispatched s ->
  held_by_thread (position s') = held_by_thread (position s) -> descriptors_ok s'.
Proof. unfold descriptors_ok. intros H -> -> -> ->. done. Qed.

Lemma test_event_holds tags s : held_by_thread (test_event tags s) = [].
Proof. unfold test_event. repeat case_match; done. Qed.

Lemma descriptors_thread s s' : descriptors_ok s -> thread_step s s' -> descriptors_ok s'.
Proof.
  intros D H. destruct H as
    [s Hu Hp|s Hu Hp Hst|s Hp|s Hp|s Hp|s tags Hp Hne Hin Hlen|s tags Hp|s reads ok Hp Hr|s tags Hp
    |s tags answer left_ Hp Hk|s fd tags Hu Hp|s tags Hp|s tags answer left_ Hp Hk|s tags fd Hp|s a released Hu Hp Hf].
  1-9, 12: eapply descriptors_quiet; [exact D|done..|]; rewrite Hp; simpl; repeat case_match; try done;
    apply test_event_holds.
  - unfold accept_answered. destruct answer as [fd|e].
    + eapply (descriptors_step s _ [FdOpened fd]); [done|done|..].
      * simpl in *. repeat case_match; simplify_eq. constructor; [|done]. by apply Z.leb_le.
      * rewrite Hp. simpl. solve_Permutation.
    + destruct (after_accept_error e).
      1-2: eapply descriptors_quiet; [exact D|done..|]; by rewrite Hp.
      destruct (reset_reserve (-1) (acc (s <| waiting := left_ |>))) as [a closed] eqn:Er.
      destruct (held_reset _ _ _ _ Er) as [R1 R2]. simpl in R2. rewrite app_nil_r in R2.
      eapply (descriptors_step s _ closed); [done|done|done|]. simpl. rewrite Hp, R1, R2. simpl. solve_Permutation.
  - unfold dispatch_step. destruct (dispatchAccepted (acc s)).
    + eapply (descriptors_step s _ []); [done|by rewrite app_nil_r|done|]. simpl. rewrite Hp. simpl. solve_Permutation.
    + eapply (descriptors_step s _ (closeFd fd)); [done|done|done|]. fd_events. rewrite Hp. simpl.
      destruct D as [_ D]. rewrite Hp in D. apply Forall_cons in D as [D _]. unfold socket_reset.
      destruct (Z.leb_spec 0 fd); [|lia]. solve_Permutation.
  - unfold shed_answered. destruct answer as [fd|e].
    + eapply (descriptors_step s _ [FdOpened fd; FdClosed fd]); [done|done|done|]. rewrite Hp. simpl. solve_Permutation.
    + eapply descriptors_quiet; [exact D|done..|]. rewrite Hp. simpl. by case_match.
  - unfold reserve_opened. destruct (reset_reserve fd (acc s)) as [a closed] eqn:Er.
    destruct (held_reset _ _ _ _ Er) as [R1 R2]. eapply (descriptors_step s _ (openedFd fd ++ closed));
      [done|by case_match|by case_match|]. fd_events. rewrite Hp, R1. simpl. transitivity (fds_closed closed ++ held a ++ dispatched s);
      [|by case_match]. rewrite (app_assoc _ (held a)), <-R2. solve_Permutation.
  - unfold thread_finish in Hf. destruct (releaseResources (acc s)) as [a0 evs] eqn:Er.
    destruct (release_closes _ _ _ Er) as (R1 & R2 & R3). injection Hf as Ha <-.
    assert (held a = []) as Hh by (rewrite <-Ha; repeat case_match; done).
    eapply (descriptors_step s _ evs); [done|done|done|]. simpl. rewrite Hp, R2, R3, Hh. simpl. solve_Permutation.
Qed.

Lemma descriptors_other s s' : life s -> descriptors_ok s -> other_step s s' -> descriptors_ok s'.
Proof.
  intros L D H. destruct H as
    [s answers created a outcome evs Hu Hst|s Hu Hst Hk|s a signal Hu Hst|s writes ok Hs Hw Hn|s self a answer Hu Hj
    |s Hu Hj Hp|s Hl|s].
  - pose proof (start_opened _ _ _ _ _ _ Hst) as Ho. apply start_life in Hst as Hst'.
    assert (held (acc s) = [] \/ acceptor_state (acc s) <> AcceptorState.Constructed) as Hh.
    { pose proof (l_phase _ L) as P. unfold phase_ok, serving, final in P. destruct (position s); naive_solver congruence. }
    specialize (Ho Hh). assert (outcome = AStartWaits -> held_by_thread (position s) = []) as Hp.
    { intros ->. destruct Hst' as [[? _]|(Hc & _)]; [done|]. pose proof (l_phase _ L) as P.
      unfold phase_ok, serving, final in P. destruct (position s); naive_solver congruence. }
    eapply (descriptors_step s _ evs); [done|by destruct outcome|destruct outcome; [apply D|constructor]|].
    destruct outcome; simpl; [|rewrite Hp by done; simpl]; rewrite ?app_assoc; rewrite <-Ho; solve_Permutation.
  - by eapply descriptors_quiet.
  - eapply descriptors_quiet; try done. unfold acceptor_stop_enter in Hst. repeat case_match; by simplify_eq/=.
  - by eapply descriptors_quiet.
  - eapply descriptors_quiet; try done. unfold acceptor_join_enter in Hj. repeat case_match; by simplify_eq/=.
  - by eapply descriptors_quiet.
  - by eapply descriptors_quiet.
  - by eapply descriptors_quiet.
Qed.

(** ** The two edges *)

(** The events that the thread has been told and not yet handled. *)
Definition told (p : Position) : list Z :=
  match p with
  | TestEvent tags | TestAccept tags | InAccept tags | Dispatching _ tags | TestShed tags | InShed tags
  | Reopening tags => tags
  | _ => []
  end.

Record wakes (s : AcceptorSystem) : Prop := {
  w_edge : wake_edge s = true -> acceptor_stop (acc s) = true;
  w_told : kStopEvent ∈ told (position s) -> acceptor_stop (acc s) = true;
  w_never : position s <> ReadWake;
  w_waits : position s = InEpollWait -> acceptor_stop (acc s) = true ->
    signalling s = true \/ wake_edge s = true \/ signal_failed s = true;
}.

(** While connections wait the thread is on its way to [accept4]. *)
Definition attended (s : AcceptorSystem) : Prop :=
  acceptor_stop (acc s) = true \/ waiting s = 0%nat \/ listen_edge s = true \/ abandoned s = true
  \/ match position s with
     | TestAccept _ | InAccept _ | Dispatching _ _ | TestShed _ | InShed _ | Reopening _ | Leaving | Done => True
     | TestEvent tags => kListenEvent ∈ tags
     | _ => False
     end.

Lemma pending_has s tags tag :
  tags ⊆+ pending_tags s -> tag ∈ tags ->
  (tag = kListenEvent /\ listen_edge s = true) \/ (tag = kStopEvent /\ wake_edge s = true).
Proof.
  intros Hs Ht. pose proof (elem_of_submseteq _ _ _ Ht Hs) as Hin. unfold pending_tags in Hin.
  destruct (listen_edge s), (wake_edge s); simpl in Hin; set_solver.
Qed.

Lemma test_event_told tags s :
  (kStopEvent ∈ tags -> acceptor_stop (acc s) = true) ->
  (kStopEvent ∈ told (test_event tags s) -> acceptor_stop (acc s) = true) /\ test_event tags s <> ReadWake
  /\ test_event tags s <> InEpollWait.
Proof.
  intros H. unfold test_event. destruct tags as [|tag rest]; [done|].
  destruct (acceptor_stop (acc s)) eqn:Es; [done|]. destruct (Z.eqb_spec tag kStopEvent) as [->|].
  { by assert (false = true) by (apply H; constructor). }
  destruct (tag =? kListenEvent); (split_and!; [|done|done]); simpl; intros Hin; apply H; by right.
Qed.

Lemma wakes_thread s s' : wakes s -> thread_step s s' -> wakes s'.
Proof.
  intros [W1 W2 W3 W4] H. destruct H as
    [s Hu Hp|s Hu Hp Hst|s Hp|s Hp|s Hp|s tags Hp Hne Hin Hlen|s tags Hp|s reads ok Hp Hr|s tags Hp
    |s tags answer left_ Hp Hk|s fd tags Hu Hp|s tags Hp|s tags answer left_ Hp Hk|s tags fd Hp|s a released Hu Hp Hf].
  all: rewrite Hp in W2, W3; simpl in W2.
  1-2, 4-5: by split; simpl.
  - split; simpl; auto; destruct (acceptor_stop (acc s)); done.
  - split; simpl; [| |done|done].
    + intros [? _]%andb_true_iff. auto.
    + intros Hs. destruct (pending_has _ _ _ Hin Hs) as [[? _]|[_ ?]]; [done|auto].
  - destruct (test_event_told tags s W2) as (T1 & T2 & T3). by split; simpl.
  - done.
  - split; simpl; auto; destruct (acceptor_stop (acc s)); done.
  - unfold accept_answered. destruct answer as [fd|e]; [by split; simpl|].
    destruct (after_accept_error e); [by split; simpl..|]. destruct (reset_reserve _ _) as [a closed] eqn:Er.
    unfold reset_reserve in Er. simplify_eq. by split; simpl.
  - unfold dispatch_step. destruct (dispatchAccepted _); by split; simpl.
  - split; simpl; auto; destruct (acceptor_stop (acc s)); done.
  - unfold shed_answered. destruct answer as [fd|e]; simpl; [by split; simpl|]. destruct e; by split; simpl.
  - unfold reserve_opened, reset_reserve. simpl. destruct (socket_valid fd); by split; simpl.
  - assert (acceptor_stop a = acceptor_stop (acc s)) as E.
    { unfold thread_finish, releaseResources in Hf. injection Hf as <- _. repeat case_match; done. }
    split; simpl; rewrite ?E; auto; set_solver.
Qed.

Lemma start_stop_flag answers created a a' outcome evs :
  acceptor_start_enter answers created a = (a', outcome, evs) ->
  acceptor_state a = AcceptorState.Constructed \/ acceptor_stop a' = acceptor_stop a.
Proof.
  intros [[_ ->]|[? _]]%start_life; [by right|by left].
Qed.

Lemma wakes_other s s' : life s -> wakes s -> other_step s s' -> wakes s'.
Proof.
  intros L [W1 W2 W3 W4] H. destruct H as
    [s answers created a outcome evs Hu Hst|s Hu Hst Hk|s a signal Hu Hst|s writes ok Hs Hw Hn|s self a answer Hu Hj
    |s Hu Hj Hp|s Hl|s].
  - apply start_life in Hst as [[Ho ->]|(Hc & Hst)].
    { destruct outcome; [|done]. by split. }
    assert (position s = Absent) as Hp.
    { pose proof (l_phase _ L) as P. unfold phase_ok, serving, final in P. destruct (position s); naive_solver congruence. }
    assert (wake_edge s = true -> False) as Hw.
    { intros E. apply W1 in E. pose proof (l_stop _ L E) as S. unfold final in S. rewrite Hc in S. naive_solver. }
    destruct outcome; split; simpl; rewrite ?Hp; simpl; try done; set_solver.
  - by split; simpl.
  - unfold acceptor_unlocked in Hu. unfold acceptor_stop_enter in Hst.
    destruct (bool_decide_reflect (acceptor_state (acc s) = AcceptorState.Constructed)) as [Hc|Hc].
    { simplify_eq/=. split; simpl; auto. intros Hp.
      pose proof (l_phase _ L) as P. unfold phase_ok, serving in P. rewrite Hp in P. naive_solver congruence. }
    destruct (bool_decide_reflect (acceptor_state (acc s) = AcceptorState.Running)) as [Hr|Hr]; simplify_eq/=.
    + split; simpl; auto. intros Hp. left. unfold socket_valid. apply Z.leb_le.
      apply (l_open _ L). unfold live. by rewrite Hp.
    + split; simpl; auto. rewrite Hu in W4. intros Hp Hs. destruct (W4 Hp Hs) as [?|?]; [done|auto].
  - pose proof (l_stopping _ L (l_signal _ L Hs)) as Hst. split; simpl; auto.
    intros Hp _. right. destruct ok; simpl; rewrite ?orb_true_r; auto.
  - unfold acceptor_join_enter in Hj. repeat case_match; simplify_eq/=; by split; simpl.
  - split; simpl; rewrite ?Hp; auto; set_solver.
  - by split; simpl.
  - by split; simpl.
Qed.

Lemma attended_stop s : acceptor_stop (acc s) = true -> attended s.
Proof. by left. Qed.

Lemma attended_thread s s' : wakes s -> attended s -> thread_step s s' -> attended s'.
Proof.
  intros W A H. destruct H as
    [s Hu Hp|s Hu Hp Hst|s Hp|s Hp|s Hp|s tags Hp Hne Hin Hlen|s tags Hp|s reads ok Hp Hr|s tags Hp
    |s tags answer left_ Hp Hk|s fd tags Hu Hp|s tags Hp|s tags answer left_ Hp Hk|s tags fd Hp|s a released Hu Hp Hf].
  all: unfold attended in *; rewrite Hp in A; simpl in *.
  - tauto.
  - tauto.
  - destruct (acceptor_stop (acc s)); [by left|tauto].
  - tauto.
  - tauto.
  - destruct (bool_decide_reflect (kListenEvent ∈ tags)); simpl; rewrite ?andb_true_r; tauto.
  - destruct A as [A|[A|[A|[A|A]]]]; try tauto. destruct tags as [|tag rest]; [set_solver|].
    unfold test_event. destruct (acceptor_stop (acc s)) eqn:Es; [by left|].
    destruct (Z.eqb_spec tag kStopEvent) as [->|Hns].
    { exfalso. pose proof (w_told _ W) as T. rewrite Hp, Es in T.
      by assert (false = true) by (apply T; constructor). }
    destruct (Z.eqb_spec tag kListenEvent); [tauto|]. apply elem_of_cons in A as [?|A]; [done|]. tauto.
  - by destruct (w_never _ W).
  - destruct (acceptor_stop (acc s)); tauto.
  - unfold accept_answered. destruct answer as [fd|e]; simpl; [tauto|].
    destruct e; simpl; try tauto. destruct (waiting s); simplify_eq/=; tauto.
  - unfold dispatch_step. simpl. tauto.
  - destruct (acceptor_stop (acc s)); tauto.
  - unfold shed_answered. destruct answer as [fd|e]; simpl; [tauto|]. destruct e; simpl; tauto.
  - unfold reserve_opened. simpl. destruct (socket_valid fd); simpl; tauto.
  - tauto.
Qed.

Lemma attended_other s s' : life s -> wakes s -> attended s -> other_step s s' -> attended s'.
Proof.
  intros L W A H. destruct H as
    [s answers created a outcome evs Hu Hst|s Hu Hst Hk|s a signal Hu Hst|s writes ok Hs Hw Hn|s self a answer Hu Hj
    |s Hu Hj Hp|s Hl|s].
  - apply start_life in Hst as [[Ho ->]|(Hc & Hst)].
    { destruct outcome; [|done]. exact A. }
    assert (position s = Absent) as Hp.
    { pose proof (l_phase _ L) as P. unfold phase_ok, serving, final in P. destruct (position s); naive_solver congruence. }
    assert (acceptor_stop (acc s) <> true) as Hns.
    { intros E. pose proof (l_stop _ L E) as S. unfold final in S. rewrite Hc in S. naive_solver. }
    unfold attended in *. rewrite Hp in A. destruct outcome; simpl; rewrite ?Hp; tauto.
  - exact A.
  - unfold acceptor_stop_enter in Hst. repeat case_match; simplify_eq/=; [by left|exact A|by left].
  - exact A.
  - unfold acceptor_join_enter in Hj. repeat case_match; simplify_eq/=; exact A.
  - exact A.
  - right. right. by left.
  - unfold attended in *. simpl. destruct (waiting s); [tauto|]. simpl. naive_solver.
Qed.

Record acceptor_inv (s : AcceptorSystem) : Prop := {
  ai_life : life s;
  ai_fds : descriptors_ok s;
  ai_wakes : wakes s;
  ai_attended : attended s;
}.

Lemma acceptor_inv_step s s' : acceptor_inv s -> astep s s' -> acceptor_inv s'.
Proof.
  intros [I1 I2 I3 I4] [H|H]; split;
    eauto using life_thread, life_other, descriptors_thread, descriptors_other, wakes_thread, wakes_other,
      attended_thread, attended_other.
Qed.

Lemma acceptor_inv_steps s s' : acceptor_inv s -> rtc astep s s' -> acceptor_inv s'.
Proof. intros H. induction 1; eauto using acceptor_inv_step. Qed.

Lemma acceptor_inv_begin `{Inet} config a : make_acceptor config = Ok a -> acceptor_inv (acceptor_begin a).
Proof.
  unfold make_acceptor. destruct (checkedAddress config) as [b|]; [|done]. simpl. intros [= <-]. split.
  - split; simpl; try done; [|by intros []|by intros []]. unfold phase_ok. simpl. by split_and!; auto.
  - split; simpl; constructor.
  - split; simpl; try done. set_solver.
  - right. by left.
Qed.

Lemma reachable_acceptor_inv `{Inet} s : reachable_acceptor s -> acceptor_inv s.
Proof. intros (config & a & Hm & Hs). eapply acceptor_inv_steps; [by eapply acceptor_inv_begin|done]. Qed.

(** ** Stopping *)

Definition rank (p : Position) : nat :=
  match p with
  | Absent | Done => 0 | Leaving => 1 | TestStop => 2
  | TestEvent _ | AwaitRunning | ReadWake => 3
  | TestAccept _ | InEpollWait | Entering => 4
  | Dispatching _ _ | Reopening _ => 5
  | TestShed _ => 6 | InShed _ => 7 | InAccept _ => 8
  end.

(** An execution with the number of steps of the thread in it. *)
Inductive acceptor_run : nat -> AcceptorSystem -> AcceptorSystem -> Prop :=
| run_end s : acceptor_run 0 s s
| run_thread n s s1 s' : thread_step s s1 -> acceptor_run n s1 s' -> acceptor_run (S n) s s'
| run_other n s s1 s' : other_step s s1 -> acceptor_run n s1 s' -> acceptor_run n s s'.

Lemma thread_stopping s s' :
  acceptor_inv s -> thread_step s s' -> acceptor_stop (acc s) = true ->
  acceptor_stop (acc s') = true /\ dispatched s' = dispatched s /\ (rank (position s') < rank (position s))%nat.
Proof.
  intros [_ _ W _] H Hst. pose proof (w_never _ W) as Hnv. destruct H as
    [s Hu Hp|s Hu Hp Hrun|s Hp|s Hp|s Hp|s tags Hp Hne Hin Hlen|s tags Hp|s reads ok Hp Hr|s tags Hp
    |s tags answer left_ Hp Hk|s fd tags Hu Hp|s tags Hp|s tags answer left_ Hp Hk|s tags fd Hp|s a released Hu Hp Hf].
  all: rewrite ?Hp; simpl.
  1-6, 9, 12: rewrite ?Hst; simpl; split_and!; [done|done|lia].
  - split_and!; [done|done|]. destruct tags as [|tag rest]; simpl; rewrite ?Hst; simpl; lia.
  - done.
  - unfold accept_answered. destruct answer as [fd|e]; [split_and!; simpl; try done; lia|].
    destruct (after_accept_error e); (split_and!; simpl; try done; lia).
  - unfold dispatch_step, dispatchAccepted. rewrite Hst, orb_true_r. simpl. split_and!; try done; lia.
  - unfold shed_answered. destruct answer as [fd|e]; simpl; [split_and!; try done; lia|].
    split_and!; try done. destruct (match e with AcceptErrno.EINTR => true | _ => false end); simpl; lia.
  - unfold reserve_opened. simpl. destruct (socket_valid fd); split_and!; simpl; try done; lia.
  - unfold thread_finish, releaseResources in Hf. injection Hf as <- _. split_and!; [|done|lia]. repeat case_match; done.
Qed.

Lemma other_stopping s s' :
  acceptor_inv s -> other_step s s' -> acceptor_stop (acc s) = true ->
  acceptor_stop (acc s') = true /\ dispatched s' = dispatched s /\ position s' = position s.
Proof.
  intros [L _ _ _] H Hst. destruct H as
    [s answers created a outcome evs Hu Hse|s Hu Hse Hk|s a signal Hu Hse|s writes ok Hs Hw Hn|s self a answer Hu Hj
    |s Hu Hj Hp|s Hl|s]; try done.
  - apply start_life in Hse as [[Ho ->]|(Hc & _)]; [by destruct outcome|].
    pose proof (l_stop _ L Hst) as E. unfold final in E. rewrite Hc in E. naive_solver.
  - unfold acceptor_stop_enter in Hse. repeat case_match; by simplify_eq/=.
  - unfold acceptor_join_enter in Hj. repeat case_match; by simplify_eq/=.
Qed.

Lemma acceptor_run_rank n s s' :
  acceptor_run n s s' -> acceptor_inv s -> acceptor_stop (acc s) = true ->
  (n + rank (position s') <= rank (position s))%nat.
Proof.
  induction 1 as [s|n s s1 s' H1 H2 IH|n s s1 s' H1 H2 IH]; intros I Hs; [lia|..].
  - destruct (thread_stopping _ _ I H1 Hs) as (S1 & _ & S3). specialize (IH (acceptor_inv_step _ _ I (or_introl H1)) S1). lia.
  - destruct (other_stopping _ _ I H1 Hs) as (S1 & _ & S3). specialize (IH (acceptor_inv_step _ _ I (or_intror H1)) S1).
    rewrite S3 in IH. lia.
Qed.

Lemma stopped_steps s s' :
  rtc astep s s' -> acceptor_inv s -> acceptor_stop (acc s) = true -> dispatched s' = dispatched s.
Proof.
  induction 1 as [s|s s1 s' H1 H2 IH]; intros I Hs; [done|]. pose proof (acceptor_inv_step _ _ I H1) as I1.
  destruct H1 as [H1|H1].
  - destruct (thread_stopping _ _ I H1 Hs) as (S1 & S2 & _). by rewrite IH.
  - destruct (other_stopping _ _ I H1 Hs) as (S1 & S2 & _). by rewrite IH.
Qed.

Lemma final_idle s :
  life s -> final (acceptor_state (acc s)) -> held (acc s) = [] /\ held_by_thread (position s) = [] /\ ~ live (position s).
Proof.
  intros [P _ _ _ _ _ _] Hf. unfold phase_ok, serving, final, live in *.
  destruct (position s); simpl; try (exfalso; naive_solver congruence); naive_solver.
Qed.

Section Acceptor_theorems.
Context `{Inet}.

(** No descriptor is lost or closed twice.  In every execution the
    descriptors ever opened (listener, epoll, eventfd, reserve and accepted
    sockets) are those closed once, those still held, the socket in the hands of
    the thread and those handed to the event loops; when the acceptor is
    [Stopped] or [Failed] the thread does not run and only the handed ones are
    open; and a [join] that answers the final status, [Ok] exactly when the
    state is not [Failed], finds no running thread. *)
Theorem acceptor_descriptors_exact s :
  reachable_acceptor s ->
  fds_balanced (acc_log s) (held (acc s) ++ held_by_thread (position s) ++ dispatched s)
  /\ (final (acceptor_state (acc s)) ->
        ~ live (position s) /\ fds_opened (acc_log s) ≡ₚ fds_closed (acc_log s) ++ dispatched s)
  /\ (forall self a st, acceptor_join_enter self (acc s) = (a, AJoinReturned st) ->
        st = AcceptorStatus.SelfJoin \/ st = AcceptorStatus.InvalidState
        \/ ~ live (position s) /\ (st = AcceptorStatus.Ok <-> acceptor_state (acc s) <> AcceptorState.Failed)).
Proof.
  intros [L [D _] _ _]%reachable_acceptor_inv. split_and!; [done|..].
  - intros Hf. destruct (final_idle _ L Hf) as (E1 & E2 & Hl). split; [done|].
    unfold fds_balanced in D. by rewrite E1, E2 in D.
  - intros self a st Hj. unfold acceptor_join_enter in Hj.
    repeat case_match; simplify_eq; auto. right. right. split; [|apply (l_status _ L)].
    intros Hl. rewrite negb_true_iff in *. destruct (l_thread _ L Hl); congruence.
Qed.

(** C10. The edge-triggered listener strands no connection: whenever the thread
    sleeps in [epoll_wait] while connections wait and no stop is requested, an
    event of the listener is pending, so that the call returns it, unless the
    last round of [accept4] ended with an unexpected error or could not restore
    the reserve descriptor. *)
Theorem acceptor_strands_no_connection s :
  reachable_acceptor s -> position s = InEpollWait -> waiting s <> 0%nat ->
  acceptor_stop (acc s) = false -> abandoned s = false ->
  listen_edge s = true
  /\ (1 <= acceptor_max_events (acceptor_config (acc s)) ->
      exists s', thread_step s s' /\ position s' = TestEvent [kListenEvent]).
Proof.
  intros [_ _ _ A]%reachable_acceptor_inv Hp Hw Hs Ha.
  assert (listen_edge s = true) as He by (unfold attended in A; rewrite Hp in A; naive_solver congruence).
  split; [done|]. intros Hm. eexists. split; [eapply (t_epoll s [kListenEvent])|]; try done.
  unfold pending_tags. rewrite He. simpl. apply submseteq_skip, submseteq_nil_l.
Qed.

(** After a stop nothing is dispatched and the thread ends: once
    [stop_requested] is set no further socket is handed to the event loops, the
    thread makes at most eight more steps in any schedule, it is never stuck
    outside [epoll_wait] while the mutex is free, and inside it the event of the
    eventfd is pending or about to be written, or the write failed. *)
Theorem acceptor_stop_terminates s :
  reachable_acceptor s -> acceptor_stop (acc s) = true ->
  (forall s', rtc astep s s' -> dispatched s' = dispatched s)
  /\ (forall n s', acceptor_run n s s' -> (n <= 8)%nat)
  /\ (live (position s) -> position s <> InEpollWait -> acceptor_unlocked s -> exists s', thread_step s s')
  /\ (position s = InEpollWait -> signalling s = true \/ wake_edge s = true \/ signal_failed s = true).
Proof.
  intros I%reachable_acceptor_inv Hs. split_and!.
  - intros s' Hr. by apply stopped_steps.
  - intros n s' Hr. pose proof (acceptor_run_rank _ _ _ Hr I Hs). assert (rank (position s) <= 8)%nat; [|lia].
    destruct (position s); simpl; lia.
  - intros [Hl1 Hl2] Hw Hu. destruct I as [[P _ L3 _ _ _ _] _ W _]. pose proof (w_never _ W) as Hnv. unfold phase_ok in P.
    destruct (position s) as [| | | | |tags| |tags|tags|fd tags|tags|tags|tags| |] eqn:Hp; try done.
    + eexists. by apply t_enter.
    + eexists. apply t_run; [done..|]. unfold final in L3. naive_solver congruence.
    + eexists. by apply t_test_stop.
    + eexists. by eapply t_event.
    + eexists. by eapply t_test_accept.
    + eexists. by eapply (t_accept s tags (Refused AcceptErrno.EINTR)).
    + eexists. by eapply t_dispatch.
    + eexists. by eapply t_test_shed.
    + eexists. by eapply (t_shed s tags (Refused AcceptErrno.EINTR)).
    + eexists. by eapply (t_reopen s tags (-1)).
    + destruct (thread_finish (acceptor_failed s) (acc s)) as [a evs] eqn:Ef. eexists. by eapply t_leave.
  - intros Hp. by apply (w_waits _ (ai_wakes _ I)).
Qed.
End Acceptor_theorems.

(** ** Sample executions *)

#[local] Existing Instance ReferenceInet.inet.

Definition sample_acceptor_config : AcceptorLoopConfig := mkAcceptor "0.0.0.0" 8080 512 65536 16.
Definition sample_resources : ResourceAnswers := mkResourceAnswers 3 true Bound 4 5 6 true true true.

(** Takes the steps of a schedule and computes each next state. *)
Ltac side_condition :=
  first [reflexivity | vm_compute; reflexivity | vm_compute; discriminate
        | vm_compute; by repeat constructor | vm_compute; set_solver].
Tactic Notation "take_thread" uconstr(rule) :=
  eapply rtc_l; [left; eapply rule; side_condition|]; vm_compute.
Tactic Notation "take_other" uconstr(rule) :=
  eapply rtc_l; [right; eapply rule; side_condition|]; vm_compute.

Tactic Notation "take_start" :=
  exists sample_acceptor_config; eexists; split; [vm_compute; reflexivity|];
  take_other (o_start _ sample_resources true);
  take_thread t_enter; take_other o_started; take_thread t_run; take_thread t_test_stop.

(** [drainAccept] does not always go on until [EAGAIN]: when the reserve
    descriptor cannot be opened again it returns, and a connection that still
    waits gets no event until another one arrives. *)
Lemma acceptor_stranded_after_exhaustion :
  exists s, reachable_acceptor s /\ position s = InEpollWait /\ waiting s = 1%nat /\ acceptor_stop (acc s) = false
  /\ pending_tags s = [].
Proof.
  eexists. split.
  - take_start. take_other o_arrive. take_other o_arrive.
    take_thread (t_epoll _ [kListenEvent]). take_thread t_event. take_thread t_test_accept.
    take_thread (t_accept _ [] (Refused AcceptErrno.EMFILE)).
    take_thread t_test_shed. take_thread (t_shed _ [] (Accepted 6)). take_thread (t_reopen _ [] (-1)).
    take_thread t_event. take_thread t_test_stop. apply rtc_refl.
  - by split_and!.
Qed.

(** One connection is dispatched and one shed before the stop. *)
Lemma sample_served :
  exists s, reachable_acceptor s /\ acceptor_state (acc s) = AcceptorState.Stopped /\ dispatched s = [7]
  /\ fds_opened (acc_log s) = [3; 4; 5; 6; 7; 6; 6].
Proof.
  eexists. split.
  - take_start. take_other o_arrive. take_other o_arrive.
    take_thread (t_epoll _ [kListenEvent]). take_thread t_event. take_thread t_test_accept.
    take_thread (t_accept _ [] (Accepted 7)). take_thread t_dispatch. take_thread t_test_accept.
    take_thread (t_accept _ [] (Refused AcceptErrno.ENFILE)).
    take_thread t_test_shed. take_thread (t_shed _ [] (Accepted 6)). take_thread (t_reopen _ [] 6).
    take_other o_stop. take_other (o_signal _ [IoError EINTR; IoBytes 8] true).
    take_thread t_test_accept. take_thread t_event. take_thread t_test_stop. take_thread t_leave.
    take_other (o_join _ false). take_other o_joined. apply rtc_refl.
  - by split_and!.
Qed.

Lemma acceptor_descriptors_exact_witness :
  exists s, dispatched s = [7] /\ [3; 4; 5; 6; 7; 6; 6] ≡ₚ fds_closed (acc_log s) ++ dispatched s.
Proof.
  destruct sample_served as (s & Hr & Hs & Hd & Ho). exists s. split; [exact Hd|]. rewrite <-Ho.
  exact (proj2 (proj1 (proj2 (acceptor_descriptors_exact s Hr)) (or_introl Hs))).
Defined.

Lemma sample_sleeping :
  exists s, reachable_acceptor s /\ position s = InEpollWait /\ waiting s = 1%nat
  /\ acceptor_stop (acc s) = false /\ abandoned s = false.
Proof.
  eexists. split.
  - take_start. take_other o_arrive. apply rtc_refl.
  - by split_and!.
Qed.

Lemma acceptor_strands_no_connection_witness :
  exists s, position s = InEpollWait /\ waiting s = 1%nat /\ listen_edge s = true.
Proof.
  destruct sample_sleeping as (s & Hr & Hp & Hw & Hs & Ha). exists s. split; [exact Hp|]. split; [exact Hw|].
  refine (proj1 (acceptor_strands_no_connection s Hr Hp _ Hs Ha)). by rewrite Hw.
Defined.

Lemma sample_stopping :
  exists s, reachable_acceptor s /\ acceptor_stop (acc s) = true /\ position s = InEpollWait /\ signalling s = true.
Proof.
  eexists. split.
  - take_start. take_other o_stop. apply rtc_refl.
  - by split_and!.
Qed.

Lemma acceptor_stop_terminates_witness :
  exists s, position s = InEpollWait /\ forall n s', acceptor_run n s s' -> (n <= 8)%nat.
Proof.
  destruct sample_stopping as (s & Hr & Hs & Hp & _). exists s. split; [exact Hp|].
  exact (proj1 (proj2 (acceptor_stop_terminates s Hr Hs))).
Defined.
