(* ===== verification/Server.v ===== *)
(** * Server: the acceptor and the event loops together

    The accepting thread hands sockets to the group of event loops with
    [EventLoopGroup::tryDispatch].  An execution of both is an execution of
    each in which these calls happen together; the acceptor holds its own mutex
    during the call, which only removes schedules.  What either component
    guarantees about its descriptors then adds up to a statement about every
    connection of the process. *)

From S2P Require Import Prelude Posix Ring Codec Limits TimerCore Timer Scheduler.
From S2P Require Import Mailbox IpAddress Config EventLoop EventLoopContract.
From S2P Require Import EventLoopSafety EventLoopGroup EventLoopGroupSafety AcceptorLoop AcceptorSafety.
Open Scope Z_scope.

Record Server (L : Type) := mkServer { accepting : AcceptorSystem; looping_ : GroupSystem L }.
Arguments mkServer {L}.
Arguments accepting {L}.
Arguments looping_ {L}.

Section Together.
Context `{Inet} {L : Type} `{EventLoopLaws L}.
Implicit Types (s : Server L) (a : AcceptorSystem) (g : GroupSystem L).

Inductive server_step : Server L -> Server L -> Prop :=
| sv_acceptor a a' g :
    astep a a' -> dispatched a' = dispatched a -> server_step (mkServer a g) (mkServer a' g)
| sv_group a g g' :
    gstep g g' -> given g' = given g -> server_step (mkServer a g) (mkServer a g')
| sv_dispatch a a' g g' fd :
    thread_step a a' -> dispatched a' = dispatched a ++ [fd] ->
    gstep g g' -> given g' = given g ++ [fd] ->
    server_step (mkServer a g) (mkServer a' g').

Definition reachable_server s : Prop :=
  exists config acceptor0 group0, make_acceptor config = Ok acceptor0 /\ fresh_group group0
    /\ rtc server_step (mkServer (acceptor_begin acceptor0) (group_start group0)) s.

(** A run of both projects to a run of each, and what the acceptor hands over is
    what the group is given. *)
Lemma server_runs_project s0 s :
  rtc server_step s0 s -> given (looping_ s0) = dispatched (accepting s0) ->
  rtc astep (accepting s0) (accepting s) /\ rtc gstep (looping_ s0) (looping_ s)
  /\ given (looping_ s) = dispatched (accepting s).
Proof.
  induction 1 as [s|s s1 s' Hs Hr IH]; intros E; [by split_and!|].
  destruct Hs as [a a' g Ha Hd|a g g' Hg Hd|a a' g g' fd Ha Hd Hg Hd']; simpl in *.
  - destruct IH as (R1 & R2 & R3); [congruence|]. split_and!; [by eapply rtc_l|done|done].
  - destruct IH as (R1 & R2 & R3); [congruence|]. split_and!; [done|by eapply rtc_l|done].
  - destruct IH as (R1 & R2 & R3); [congruence|].
    split_and!; [eapply rtc_l; [by left|done]|by eapply rtc_l|done].
Qed.

Lemma server_projects s :
  reachable_server s ->
  reachable_acceptor (accepting s) /\ reachable_group (looping_ s) /\ given (looping_ s) = dispatched (accepting s).
Proof.
  intros (config & acceptor0 & group0 & Ha & Hg & Hr). apply server_runs_project in Hr as (R1 & R2 & R3); [|done].
  split_and!; [by exists config, acceptor0|by exists group0|done].
Qed.

(** C9. Every connection is closed exactly once, by whoever holds it.  At every
    moment of every execution of the acceptor and the loops together, the
    descriptors ever opened by the acceptor are those it closed, those it holds,
    the one its thread handles, the one the dispatcher handles, those open in
    the loops and their mailboxes, and those the group closed, each in exactly
    one place.  Once the acceptor is [Stopped] or [Failed] and the loop threads
    are gone, all of them are closed. *)
Theorem server_closes_every_connection s :
  reachable_server s ->
  let a := accepting s in let g := looping_ s in
  fds_opened (acc_log a) ≡ₚ fds_closed (acc_log a) ++ held (acc a) ++ held_by_thread (position a)
                           ++ in_hand g ++ all_open g ++ closed g
  /\ (final (acceptor_state (acc a)) -> unlocked g -> Forall (fun sl => gone (thread sl)) (loops (group g)) ->
      fds_opened (acc_log a) ≡ₚ fds_closed (acc_log a) ++ closed g).
Proof.
  intros (Ra & Rg & E)%server_projects. simpl.
  destruct (reachable_acceptor_inv _ Ra) as [Hl [D _] _ _]. unfold fds_balanced in D. rewrite <-E in D. split.
  - destruct (reachable_invariants _ Rg) as (_ & [_ B _] & _). rewrite D, B. solve_Permutation.
  - intros Hf Hu Hg. destruct (final_idle _ Hl Hf) as (E1 & E2 & _). rewrite E1, E2 in D. simpl in D.
    by rewrite D, (gone_closes_all _ Rg Hu Hg).
Qed.

(** Runs of one component that hand nothing over are runs of both. *)
Lemma gstep_given g g' : gstep g g' -> given g `prefix_of` given g'.
Proof.
  intros Hs. destruct Hs; simpl; try done; try (by apply prefix_app_r); unfold start_closer, after_start;
    repeat case_match; done.
Qed.

Lemma astep_dispatched a a' : astep a a' -> dispatched a `prefix_of` dispatched a'.
Proof.
  intros [Hs|Hs]; destruct Hs; simpl; try done;
    unfold accept_answered, dispatch_step, shed_answered, reserve_opened; simpl; repeat case_match; simpl;
    try done; by apply prefix_app_r.
Qed.

Lemma quiet_runs {A} (R : A -> A -> Prop) (f : A -> list Z) :
  (forall x y, R x y -> f x `prefix_of` f y) ->
  forall x y, rtc R x y -> f x `prefix_of` f y /\ (f y = f x -> rtc (fun u v => R u v /\ f v = f u) x y).
Proof.
  intros Hf. induction 1 as [x|x y z Hxy Hyz [IH1 IH2]]; [by split; [|intros; apply rtc_refl]|].
  pose proof (Hf _ _ Hxy) as Hp. split; [by etransitivity|]. intros E.
  assert (f y = f x) as Eyx.
  { apply (anti_symm prefix); [|done]. rewrite <-E. done. }
  eapply rtc_l; [by split|]. apply IH2. congruence.
Qed.

Lemma lift_group a g g' :
  rtc gstep g g' -> given g' = given g -> rtc server_step (mkServer a g) (mkServer a g').
Proof.
  intros Hr E. apply (proj2 (quiet_runs _ _ gstep_given _ _ Hr)) in E. clear Hr.
  induction E as [|x y z [Hs Ee] _ IH]; [apply rtc_refl|]. eapply rtc_l; [by apply sv_group|done].
Qed.

Lemma lift_acceptor a a' g :
  rtc astep a a' -> dispatched a' = dispatched a -> rtc server_step (mkServer a g) (mkServer a' g).
Proof.
  intros Hr E. apply (proj2 (quiet_runs _ _ astep_dispatched _ _ Hr)) in E. clear Hr.
  induction E as [|x y z [Hs Ee] _ IH]; [apply rtc_refl|]. eapply rtc_l; [by apply sv_acceptor|done].
Qed.
End Together.

(** ** A sample execution: one connection is accepted, dispatched and closed *)

#[local] Existing Instance ReferenceInet.inet.
#[local] Existing Instance sample_loop.
#[local] Existing Instance sample_laws.

Lemma sample_accepting :
  exists config acceptor0 before after,
    make_acceptor config = Ok acceptor0 /\ rtc astep (acceptor_begin acceptor0) before
    /\ dispatched before = [] /\ thread_step before after /\ dispatched after = [7]
    /\ exists last, rtc astep after last /\ dispatched last = [7]
                  /\ acceptor_state (acc last) = AcceptorState.Stopped.
Proof.
  exists sample_acceptor_config. do 3 eexists. split; [vm_compute; reflexivity|]. split; [|split; [|split; [|split]]].
  - take_other (o_start _ sample_resources true). take_thread t_enter. take_other o_started. take_thread t_run.
    take_thread t_test_stop. take_other o_arrive. take_thread (t_epoll _ [kListenEvent]). take_thread t_event.
    take_thread t_test_accept. take_thread (t_accept _ [] (Accepted 7)). apply rtc_refl.
  - reflexivity.
  - eapply t_dispatch; reflexivity.
  - reflexivity.
  - vm_compute. eexists. split; [|split].
    + take_other o_stop. take_other (o_signal _ [IoBytes 8] true). take_thread t_test_accept. take_thread t_event.
      take_thread t_test_stop. take_thread t_leave. apply rtc_refl.
    + reflexivity.
    + reflexivity.
Qed.

Lemma sample_server :
  exists last, reachable_server (mkServer last GroupSample.finished) /\ acceptor_state (acc last) = AcceptorState.Stopped.
Proof.
  destruct sample_accepting as (config & acceptor0 & before & after & Hm & H1 & E1 & Hd & E2 & last & H2 & E3 & Hst).
  exists last. split; [|exact Hst]. exists config, acceptor0, GroupSample.built.
  split; [exact Hm|]. split; [exact sample_group_fresh|].
  etransitivity; [apply (lift_acceptor _ before _ H1); by rewrite E1|].
  etransitivity; [apply (lift_group before _ GroupSample.running running_steps); vm_compute; reflexivity|].
  eapply rtc_l; [apply (sv_dispatch before after _ GroupSample.chosen 7 Hd); [by rewrite E1, E2|exact chosen_step|vm_compute; reflexivity]|].
  etransitivity; [apply (lift_group after _ GroupSample.finished finished_steps); vm_compute; reflexivity|].
  apply (lift_acceptor after last _ H2). by rewrite E2, E3.
Qed.

Lemma server_closes_every_connection_witness :
  exists last, fds_opened (acc_log last) ≡ₚ fds_closed (acc_log last) ++ [7].
Proof.
  destruct sample_server as (last & Hr & Hst). exists last.
  refine (proj2 (server_closes_every_connection (mkServer last GroupSample.finished) Hr) (or_introl Hst) _ _);
    [vm_compute; reflexivity|]. constructor; [|constructor]. right. vm_compute. reflexivity.
Defined.
