(* ===== verification/Handler.v ===== *)
(** * Handler: the life of the service

    Model of [app/handler.{hpp,cpp}].  The first part is the loading of the
    initial blacklist, on the models of the stores and of the start-up.  The
    second part is the coordinator: which operation of which component it
    calls, in which order and with which reaction to the answers.  The
    components are called through [call]: [oracle] answers the n-th call in any
    way that its type allows, an answer [false] of [Make] is a constructor that
    throws, and the calls are recorded.  Every operation holds the mutex; [join]
    releases it while it stops the components, when the state [Stopping] makes
    every other operation return without touching them. *)

From S2P Require Import Prelude Text Domain IpAddress Blacklist FeatureStore Policy RiskService CandidateQueue.
From S2P Require Import RedisConnection RedisStore MysqlDao MaintenanceBackend MaintenanceCore Bootstrap.
From S2P Require Import Codec Limits Session TimerCore Mailbox WorkerPool Business Config.
From S2P Require Import EventLoop EventLoopContract EventLoopGroup AcceptorLoop.
Open Scope Z_scope.

Module HandlerState.
Inductive t := Constructed | Initialized | Running | Stopping | Stopped | Failed.
#[export] Instance eq_dec : EqDecision t.
Proof. solve_decision. Defined.
End HandlerState.
#[export] Existing Instance HandlerState.eq_dec.

Module HandlerStatus.
Inductive t :=
| Ok | InvalidConfig | ConfigConflict | InvalidState | DependencyFailed | StartFailed | JoinFailed.
#[export] Instance eq_dec : EqDecision t.
Proof. solve_decision. Defined.
End HandlerStatus.
#[export] Existing Instance HandlerStatus.eq_dec.

#[export] Existing Instance WorkerPoolStatus.eq_dec.
#[export] Instance GroupStatus_eq_dec : EqDecision GroupStatus.t.
Proof. solve_decision. Defined.
#[export] Instance LoginPolicyConfig_eq_dec : EqDecision LoginPolicyConfig.
Proof. solve_decision. Defined.
#[export] Instance MysqlConfig_eq_dec : EqDecision MysqlConfig.
Proof. solve_decision. Defined.
#[export] Instance RedisConfig_eq_dec : EqDecision RedisConfig.
Proof. solve_decision. Defined.
#[export] Instance BlacklistCacheBootstrapConfig_eq_dec : EqDecision BlacklistCacheBootstrapConfig.
Proof. solve_decision. Defined.
#[export] Instance BoundedWorkerPoolConfig_eq_dec : EqDecision BoundedWorkerPoolConfig.
Proof. solve_decision. Defined.
#[export] Instance FeatureStateReclamationConfig_eq_dec : EqDecision FeatureStateReclamationConfig.
Proof. solve_decision. Defined.
#[export] Instance BlacklistMaintenanceConfig_eq_dec : EqDecision BlacklistMaintenanceConfig.
Proof. solve_decision. Defined.
#[export] Instance LimitsConfig_eq_dec : EqDecision LimitsConfig.
Proof. solve_decision. Defined.
#[export] Instance SessionConfig_eq_dec : EqDecision SessionConfig.
Proof. solve_decision. Defined.
#[export] Instance SessionDeadlineConfig_eq_dec : EqDecision SessionDeadlineConfig.
Proof. solve_decision. Defined.
#[export] Instance EventLoopConfig_eq_dec : EqDecision EventLoopConfig.
Proof. solve_decision. Defined.
#[export] Instance EventLoopGroupConfig_eq_dec : EqDecision EventLoopGroupConfig.
Proof. solve_decision. Defined.
#[export] Instance AcceptorLoopConfig_eq_dec : EqDecision AcceptorLoopConfig.
Proof. solve_decision. Defined.
#[export] Instance HandlerConfig_eq_dec : EqDecision HandlerConfig.
Proof. solve_decision. Defined.

(** ** The initial blacklist *)

Record InitialBlacklistState := mkInitial { initial_revision : Z; publication_dirty_ : bool }.

(** The world of one call of [init]: the steady clock, the connection hiredis
    opens, the clock and the client of MySQL, the clock of the start-up, the
    wall clock of the publication and the limit of a vector. *)
Record InitWorld := mkWorld {
  w_now : Z;
  w_redis : RedisOpening;
  w_mysql : list Z * list MysqlAnswer;
  w_clocks : list Z;
  w_wall_ms : Z;
  w_max_size : Z;      (* [max_size()] of the vector that the candidate queue reserves *)
}.

Section Initial.
Context `{Inet}.

(** [BlacklistManager], [InitialBlacklistState] and, for the statements, the
    stores at the end. *)
Definition loadInitialBlacklist (config : HandlerConfig) (w : InitWorld) (manager : BlacklistManager)
    : BlacklistManager * option InitialBlacklistState * option Stores :=
  let deadline := w_now w + startup_timeout (blacklist_cache config) * 1000000 in
  match RedisConnection.connect (redis config) deadline (now1 (w_redis w)) (now2 (w_redis w)) (opened (w_redis w)) with
  | None => (manager, None, None)
  | Some connection =>
      let dao := mkDao (mysql config) false false false (w_mysql w).1 (w_mysql w).2 [] 0 in
      let '(dao, connected) := MysqlDao.connect deadline dao in
      if negb connected then (manager, None, None)
      else
        let keys := fromPrefix (redis_key_prefix (redis config)) in
        let batch := cache_batch_size (blacklist_cache config) in
        let '(s, initialized) := initializeBlacklistCache keys deadline batch batch
                                   (mkStores connection dao (w_clocks w) []) in
        if negb (bool_decide (boot_status initialized = StoreStatus.Ok)) then (manager, None, Some s)
        else
          let '(manager, published) := publish manager (snapshot_entries (boot_snapshot initialized)) (w_wall_ms w) in
          if negb published then (manager, None, Some s)
          else
            let '(connection, status) :=
              setPublishedRevision keys deadline (snapshot_revision (boot_snapshot initialized)) (boot_redis s) in
            (manager,
             Some (mkInitial (snapshot_revision (boot_snapshot initialized))
                     (negb (bool_decide (status = StoreStatus.Ok)))),
             Some (s <| boot_redis := connection |>))
  end.
End Initial.

(** ** The calls of the coordinator *)

Inductive Component := CWorkers | CMaintenance | CFeature | CBlacklist | CLoops | CAcceptor.

#[export] Instance Component_eq_dec : EqDecision Component.
Proof. solve_decision. Defined.

Inductive Op :=
| Make (c : Component)
| StartMaintenance (c : Component)   (* of the feature and blacklist maintenance *)
| StartLoops
| StartAcceptor
| Halt (c : Component)               (* [stop] or [close] *)
| BeginDrain
| DrainPool (c : Component)
| DrainLoops
| JoinAcceptor
| JoinLoops
| JoinPool (c : Component)
| CloseQueue
| FinalDrain
| TakeDropped
| DiscardRemaining
| Destroy (c : Component).           (* [reset] of the pointer *)

Definition Answer (op : Op) : Type :=
  match op with
  | Make _ | StartMaintenance _ | FinalDrain => bool
  | StartLoops | BeginDrain | DrainLoops | JoinLoops => GroupStatus.t
  | StartAcceptor | JoinAcceptor => AcceptorStatus.t
  | DrainPool _ | JoinPool _ => WorkerPoolStatus.t
  | TakeDropped | DiscardRemaining => Z
  | Halt _ | CloseQueue | Destroy _ => unit
  end.

Inductive Called := mkCalled (op : Op) (answer : Answer op).

Record Handler := mkHandler {
  h_config : option HandlerConfig;
  h_manager : BlacklistManager;
  initialized : bool;              (* the business handler, the manager, the service and the queue *)
  present : list Component;        (* the pointers that are not null *)
  h_state : HandlerState.t;
  h_join_status : HandlerStatus.t;
  drain_started : bool;
  h_joining : bool;                (* [join_in_progress] *)
  h_revision : Z;
  h_dirty : bool;
  trace : list Called;
}.

Definition fresh_handler : Handler :=
  mkHandler None None false [] HandlerState.Constructed HandlerStatus.Ok false false 0 false [].

Definition H (A : Type) : Type := Handler -> Handler * A.

#[export] Instance h_ret : MRet H := fun A a h => (h, a).
#[export] Instance h_bind : MBind H := fun A B f m h => let '(h, a) := m h in f a h.

Section Coordinator.
Context (oracle : nat -> forall op : Op, Answer op).

Definition call (op : Op) : H (Answer op) := fun h =>
  let a := oracle (length (trace h)) op in (h <| trace := trace h ++ [mkCalled op a] |>, a).

Definition update {A} (f : Handler -> Handler) (a : A) : H A := fun h => (f h, a).

(** [c = std::make_unique<...>(...)]: the pointer is set when the constructor returns. *)
Definition make (c : Component) : H bool :=
  ok ← call (Make c);
  update (fun h => if (ok : bool) then h <| present := c :: present h |> else h) ok.

Definition reset (c : Component) : H unit :=
  _ ← call (Destroy c);
  update (fun h => h <| present := filter (fun d => d <> c) (present h) |>) tt.

Definition if_present (c : Component) (m : H unit) : H unit := fun h =>
  if bool_decide (c ∈ present h) then m h else (h, tt).

Definition resetStartedComponents : H unit :=
  _ ← reset CAcceptor; _ ← reset CLoops; _ ← reset CBlacklist; _ ← reset CFeature;
  _ ← reset CMaintenance; reset CWorkers.

(** The candidate queue exists whenever this runs. *)
Definition stopStartedComponents : H unit :=
  _ ← if_present CAcceptor (_ ← call (Halt CAcceptor); _ ← call JoinAcceptor; mret tt);
  _ ← if_present CLoops (_ ← call BeginDrain; mret tt);
  _ ← if_present CWorkers (_ ← call (Halt CWorkers); _ ← call (DrainPool CWorkers); mret tt);
  _ ← if_present CLoops (_ ← call DrainLoops; _ ← call (Halt CLoops); _ ← call JoinLoops; mret tt);
  _ ← if_present CWorkers (_ ← call (JoinPool CWorkers); mret tt);
  _ ← call CloseQueue;
  _ ← if_present CFeature (_ ← call (Halt CFeature); mret tt);
  _ ← if_present CBlacklist (_ ← call (Halt CBlacklist); _ ← call FinalDrain; mret tt);
  _ ← if_present CMaintenance
        (_ ← call (Halt CMaintenance); _ ← call (DrainPool CMaintenance); _ ← call (JoinPool CMaintenance); mret tt);
  _ ← call TakeDropped;
  _ ← call DiscardRemaining;
  mret tt.

Definition failStart : H HandlerStatus.t :=
  _ ← stopStartedComponents;
  _ ← resetStartedComponents;
  update (fun h => h <| h_state := HandlerState.Failed |> <| h_join_status := HandlerStatus.StartFailed |>)
    HandlerStatus.StartFailed.

(** The [try] block of [start]; whether everything was started. *)
Definition start_components : H bool :=
  workers ← make CWorkers;
  if negb workers then mret false else
  maintenance ← make CMaintenance;
  if negb maintenance then mret false else
  feature ← make CFeature;
  if negb feature then mret false else
  started ← call (StartMaintenance CFeature);
  if negb started then mret false else
  blacklist ← make CBlacklist;
  if negb blacklist then mret false else
  started ← call (StartMaintenance CBlacklist);
  if negb started then mret false else
  loops ← make CLoops;
  if negb loops then mret false else
  status ← call StartLoops;
  if negb (bool_decide (status = GroupStatus.Ok)) then mret false else
  acceptor ← make CAcceptor;
  if negb acceptor then mret false else
  status ← call StartAcceptor;
  mret (bool_decide (status = AcceptorStatus.Ok)).

Definition start : H HandlerStatus.t := fun h =>
  if bool_decide (h_state h = HandlerState.Running) then (h, HandlerStatus.Ok)
  else if (negb (bool_decide (h_state h = HandlerState.Initialized)) || negb (bool_decide (is_Some (h_config h)))
           || negb (initialized h))%bool
  then (h, HandlerStatus.InvalidState)
  else
    (ok ← start_components;
     if (ok : bool) then
       update (fun h => h <| h_join_status := HandlerStatus.Ok |> <| h_state := HandlerState.Running |>) HandlerStatus.Ok
     else failStart) h.

Definition stop : H unit := fun h =>
  match h_state h with
  | HandlerState.Constructed | HandlerState.Initialized => (h <| h_state := HandlerState.Stopped |>, tt)
  | HandlerState.Running =>
      (_ ← call (Halt CAcceptor);
       st ← call BeginDrain;
       _ ← update (fun h => h <| drain_started := bool_decide (st = GroupStatus.Ok) |>) tt;
       _ ← call (Halt CWorkers);
       mret tt) (h <| h_state := HandlerState.Stopping |>)
  | _ => (h, tt)
  end.

(** [join] before it releases the mutex. *)
Inductive HandlerJoin :=
| HJoinReturned (st : HandlerStatus.t)
| HJoinWaits      (* for the caller that stops the components, and answers its status *)
| HJoinGoes.

Definition join_enter : H HandlerJoin := fun h =>
  if (bool_decide (h_state h = HandlerState.Stopped)
      || (bool_decide (h_state h = HandlerState.Failed) && negb (bool_decide (CAcceptor ∈ present h))))%bool
  then (h, HJoinReturned (h_join_status h))
  else if negb (bool_decide (h_state h = HandlerState.Stopping)) then (h, HJoinReturned HandlerStatus.InvalidState)
  else if h_joining h then (h, HJoinWaits)
  else (h <| h_joining := true |>, HJoinGoes).

Definition is_draining : H bool := fun h => (h, drain_started h).

(** Whether the drain of the loops went well; false when it was not started. *)
Definition drain_loops : H bool :=
  draining ← is_draining;
  if (draining : bool) then
    status ← call DrainLoops;
    mret (bool_decide (status = GroupStatus.Ok) || bool_decide (status = GroupStatus.DrainDeadlineExceeded))%bool
  else mret false.

(** [event_loops->join() != Ok || worker_pool->join() != Ok]: the pool is joined
    only when the loops were. *)
Definition join_loops : H bool :=
  looped ← call JoinLoops;
  if negb (bool_decide (looped = GroupStatus.Ok)) then mret false
  else st ← call (JoinPool CWorkers); mret (bool_decide (st = WorkerPoolStatus.Ok)).

Definition join_teardown : H HandlerStatus.t :=
  accepted ← call JoinAcceptor;
  _ ← call (DrainPool CWorkers);
  drained ← drain_loops;
  _ ← call (Halt CLoops);
  joined ← join_loops;
  _ ← call CloseQueue;
  _ ← call (Halt CFeature);
  _ ← call (Halt CBlacklist);
  flushed ← call FinalDrain;
  _ ← call (Halt CMaintenance);
  _ ← call (DrainPool CMaintenance);
  maintained ← call (JoinPool CMaintenance);
  _ ← call TakeDropped;
  dropped ← call DiscardRemaining;
  mret (if (bool_decide (accepted = AcceptorStatus.Ok) && drained && joined && (flushed : bool)
            && bool_decide (maintained = WorkerPoolStatus.Ok) && ((dropped : Z) =? 0))%bool
        then HandlerStatus.Ok else HandlerStatus.JoinFailed).

Definition join_leave (result : HandlerStatus.t) : H HandlerStatus.t :=
  _ ← resetStartedComponents;
  update (fun h => h <| h_join_status := result |>
      <| h_state := if bool_decide (result = HandlerStatus.Ok) then HandlerState.Stopped else HandlerState.Failed |>
      <| h_joining := false |>) result.

(** [join] after it released the mutex, of the caller that goes on. *)
Definition join_rest : H HandlerStatus.t := result ← join_teardown; join_leave result.

(** The wait of the other callers: [None] while it lasts. *)
Definition join_wait : H (option HandlerStatus.t) := fun h =>
  (h, if h_joining h then None else Some (h_join_status h)).
End Coordinator.

Section Init.
Context `{Inet} `{Protobuf}.

Definition init (requested : HandlerConfig) (w : InitWorld) : H HandlerStatus.t := fun h =>
  match normalizeConfig requested with
  | Throw _ => (h, HandlerStatus.InvalidConfig)
  | Ok effective =>
      match h_config h with
      | Some c => (h, if bool_decide (c = effective) then HandlerStatus.Ok else HandlerStatus.ConfigConflict)
      | None =>
          if (negb (bool_decide (h_state h = HandlerState.Constructed)) || negb (handler_validConfig effective))%bool
          then (h, if bool_decide (h_state h = HandlerState.Constructed)
                   then HandlerStatus.InvalidConfig else HandlerStatus.InvalidState)
          else
            let '(manager, initial, _) := loadInitialBlacklist effective w None in
            match initial with
            | None => (h, HandlerStatus.DependencyFailed)
            | Some i =>
                match make_queue (w_max_size w) (candidate_queue_capacity effective),
                      make_service (policy effective) (feature_reclamation effective) with
                | Ok _, Ok _ =>
                    (h <| initialized := true |> <| h_manager := manager |> <| h_revision := initial_revision i |>
                       <| h_dirty := publication_dirty_ i |> <| h_config := Some effective |>
                       <| h_state := HandlerState.Initialized |>, HandlerStatus.Ok)
                | _, _ => (h, HandlerStatus.DependencyFailed)
                end
            end
      end
  end.
End Init.

(** ** How the components may be used

    The contract of the calls.  A component exists from [Make] to [Destroy];
    it is used only while what it refers to exists; the acceptor stops before
    the loops, these before the workers are joined, the producers of candidates
    before the queue is closed, and the maintenance before its pool.  The
    strict contract has no exception; the other one excuses workers that are
    only closed after the join of the loops reported a failure. *)

Inductive Stage := SAbsent | SMade | SHalted | SJoined.

Definition stage_is (a b : Stage) : bool :=
  match a, b with
  | SAbsent, SAbsent | SMade, SMade | SHalted, SHalted | SJoined, SJoined => true
  | _, _ => false
  end.

Record Protocol := mkProtocol {
  s_workers : Stage;
  s_maintenance : Stage;
  s_feature : Stage;
  s_blacklist : Stage;
  s_loops : Stage;
  s_acceptor : Stage;
  queue_closed : bool;
  loops_failed : bool;       (* the join of the loops reported a failure *)
}.

Definition stage (p : Protocol) (c : Component) : Stage :=
  match c with
  | CWorkers => s_workers p | CMaintenance => s_maintenance p | CFeature => s_feature p
  | CBlacklist => s_blacklist p | CLoops => s_loops p | CAcceptor => s_acceptor p
  end.

Definition set_stage (c : Component) (st : Stage) (p : Protocol) : Protocol :=
  match c with
  | CWorkers => p <| s_workers := st |> | CMaintenance => p <| s_maintenance := st |>
  | CFeature => p <| s_feature := st |> | CBlacklist => p <| s_blacklist := st |>
  | CLoops => p <| s_loops := st |> | CAcceptor => p <| s_acceptor := st |>
  end.

(** What a component refers to. *)
Definition uses (c : Component) : list Component :=
  match c with
  | CWorkers | CMaintenance => []
  | CFeature => [CMaintenance]
  | CBlacklist => [CWorkers; CMaintenance]
  | CLoops => [CWorkers]
  | CAcceptor => [CLoops]
  end.

Definition users (c : Component) : list Component :=
  match c with
  | CWorkers => [CBlacklist; CLoops]
  | CMaintenance => [CFeature; CBlacklist]
  | CLoops => [CAcceptor]
  | _ => []
  end.

Definition in_stage (p : Protocol) (stages : list Stage) (c : Component) : bool := existsb (stage_is (stage p c)) stages.

Section Contract.
Context (strict : bool).

(** The workers that [join] closed but did not join: their destructor does. *)
Definition excused (p : Protocol) : bool :=
  negb strict && loops_failed p && in_stage p [SHalted] CWorkers.

(** No task of the workers can submit a candidate any more: they were joined,
    or they are excused. *)
Definition producers_ended (p : Protocol) : bool :=
  in_stage p [SAbsent; SJoined] CLoops && (in_stage p [SAbsent; SJoined] CWorkers || excused p).

(** The destructor may run: nobody refers to the component, and [stop] and
    [join] were called; the feature maintenance has no join, the join of the
    blacklist maintenance is its final drain. *)
Definition may_destroy (p : Protocol) (c : Component) : bool :=
  in_stage p [SAbsent] c
  || (forallb (in_stage p [SAbsent]) (users c)
      && (in_stage p [SJoined] c
          || match c with
             | CFeature => in_stage p [SHalted] c
             | CWorkers => excused p
             | _ => false
             end)).

Definition observe (p : Protocol) (e : Called) : option Protocol :=
  let when (b : bool) (p : Protocol) := if b then Some p else None in
  match e with
  | mkCalled op answer =>
      match op return Answer op -> option Protocol with
      | Make c => fun ok => when (in_stage p [SAbsent] c && forallb (in_stage p [SMade]) (uses c))
                              (if (ok : bool) then set_stage c SMade p else p)
      | StartMaintenance c => fun _ => when (in_stage p [SMade] c) p
      | StartLoops => fun _ => when (in_stage p [SMade] CLoops) p
      | StartAcceptor => fun _ => when (in_stage p [SMade] CAcceptor) p
      | Halt c => fun _ =>
          when (in_stage p [SMade] c
                && match c with
                   | CLoops => negb (in_stage p [SMade] CAcceptor) && negb (in_stage p [SMade] CWorkers)
                   | CWorkers => negb (in_stage p [SMade] CAcceptor)
                   | CFeature | CBlacklist => queue_closed p
                   | CMaintenance => negb (in_stage p [SMade] CFeature) && negb (in_stage p [SMade; SHalted] CBlacklist)
                   | CAcceptor => true
                   end) (set_stage c SHalted p)
      | BeginDrain => fun _ => when (in_stage p [SMade] CLoops && negb (in_stage p [SMade] CAcceptor)) p
      | DrainPool c => fun _ => when (in_stage p [SHalted] c) p
      | DrainLoops => fun _ => when (in_stage p [SMade] CLoops && negb (in_stage p [SMade] CWorkers)) p
      | JoinAcceptor => fun _ => when (in_stage p [SHalted] CAcceptor) (set_stage CAcceptor SJoined p)
      | JoinLoops => fun st => when (in_stage p [SHalted] CLoops)
                                 (set_stage CLoops SJoined p
                                    <| loops_failed := negb (bool_decide (st = GroupStatus.Ok)) |>)
      | JoinPool c => fun _ => when (in_stage p [SHalted] c) (set_stage c SJoined p)
      | CloseQueue => fun _ => when (producers_ended p) (p <| queue_closed := true |>)
      | FinalDrain => fun _ => when (in_stage p [SHalted] CBlacklist && queue_closed p && in_stage p [SMade] CMaintenance)
                                 (set_stage CBlacklist SJoined p)
      | TakeDropped | DiscardRemaining => fun _ =>
          when (queue_closed p && in_stage p [SAbsent; SJoined] CMaintenance) p
      | Destroy c => fun _ => when (may_destroy p c) (set_stage c SAbsent p)
      end answer
  end%bool.

Definition protocol_start : Protocol := mkProtocol SAbsent SAbsent SAbsent SAbsent SAbsent SAbsent false false.

(** The state of the contract after the calls; [None] if one of them broke it. *)
Definition protocol_of (calls : list Called) : option Protocol :=
  foldl (fun p e => p ≫= fun p => observe p e) (Some protocol_start) calls.
End Contract.

(** Without a failed join of the loops there is nothing to excuse. *)
Definition loops_join_ok (e : Called) : Prop := forall st, e = mkCalled JoinLoops st -> st = GroupStatus.Ok.

Lemma protocol_of_snoc strict calls e :
  protocol_of strict (calls ++ [e]) = protocol_of strict calls ≫= fun p => observe strict p e.
Proof. unfold protocol_of. by rewrite foldl_snoc. Qed.

Lemma excused_none strict p : loops_failed p = false -> excused strict p = false.
Proof. intros Hp. unfold excused. by rewrite Hp, andb_false_r. Qed.

Lemma observe_strict p e :
  loops_failed p = false -> loops_join_ok e ->
  observe true p e = observe false p e
  /\ forall p', observe false p e = Some p' -> loops_failed p' = false.
Proof.
  intros Hp He. destruct e as [op a].
  assert (forall c st q, loops_failed q = false -> loops_failed (set_stage c st q) = false) as Hset by (by intros []).
  destruct op; unfold observe, may_destroy, producers_ended; rewrite ?(excused_none _ _ Hp);
    (split; [reflexivity|]); intros p' Hp'; repeat case_match; simplify_eq; auto.
  simpl. rewrite (He _ eq_refl). done.
Qed.

Lemma protocol_strict calls :
  Forall loops_join_ok calls ->
  protocol_of true calls = protocol_of false calls
  /\ forall p, protocol_of false calls = Some p -> loops_failed p = false.
Proof.
  induction calls as [|e calls IH] using rev_ind; intros Hok; [by split; [|intros p [= <-]]|].
  apply Forall_app in Hok as [Hc [He _]%Forall_cons]. destruct (IH Hc) as [E Hl].
  rewrite !protocol_of_snoc, E. destruct (protocol_of false calls) as [p|]; simpl; [|done].
  by apply observe_strict; [apply Hl|].
Qed.

(** ** Proof rules *)

Section Rules.
Context (oracle : nat -> forall op : Op, Answer op).

(** The contract is kept so far and stands at [p]; the pointers; the state. *)
Record at_ (p : Protocol) (cs : list Component) (st : HandlerState.t) (h : Handler) : Prop := {
  at_protocol : protocol_of false (trace h) = Some p;
  at_present : present h = cs;
  at_state : h_state h = st;
}.

Definition hoare {A} (P : Handler -> Prop) (m : H A) (Q : A -> Handler -> Prop) : Prop :=
  forall h, P h -> Q (m h).2 (m h).1.

Lemma hoare_ret {A} (a : A) (P : Handler -> Prop) (Q : A -> Handler -> Prop) :
  (forall h, P h -> Q a h) -> hoare P (mret a) Q.
Proof. intros HQ h Hh. by apply HQ. Qed.

Lemma hoare_bind {A B} (m : H A) (f : A -> H B) P Q R :
  hoare P m Q -> (forall a, hoare (Q a) (f a) R) -> hoare P (m ≫= f) R.
Proof.
  intros Hm Hf h Hh. unfold mbind, h_bind. specialize (Hm h Hh). destruct (m h) as [h1 a]. by apply Hf.
Qed.

Lemma hoare_call op p f cs st :
  (forall a, observe false p (mkCalled op a) = Some (f a)) ->
  hoare (at_ p cs st) (call oracle op) (fun a => at_ (f a) cs st).
Proof.
  intros Ho h [H1 H2 H3]. unfold call. simpl. split; simpl; [|done|done].
  rewrite protocol_of_snoc, H1. apply Ho.
Qed.

Lemma hoare_make c p cs st :
  observe false p (mkCalled (Make c) true) = Some (set_stage c SMade p) ->
  observe false p (mkCalled (Make c) false) = Some p ->
  hoare (at_ p cs st) (make oracle c) (fun (ok : bool) => if ok then at_ (set_stage c SMade p) (c :: cs) st else at_ p cs st).
Proof.
  intros Ht Hf. unfold make. eapply hoare_bind; [apply (hoare_call (Make c) p (fun ok => if (ok : bool) then set_stage c SMade p else p))|].
  - intros []; done.
  - intros [] h [H1 H2 H3]; split; simpl; try done. by rewrite H2.
Qed.

Lemma hoare_reset c p cs st :
  may_destroy false p c = true ->
  hoare (at_ p cs st) (reset oracle c) (fun _ => at_ (set_stage c SAbsent p) (filter (fun d => d <> c) cs) st).
Proof.
  intros Hd. unfold reset. eapply hoare_bind; [apply (hoare_call (Destroy c) p (fun _ => set_stage c SAbsent p))|].
  - intros a. simpl. by rewrite Hd.
  - intros _ h [H1 H2 H3]. split; simpl; try done. by rewrite H2.
Qed.

(** The rules for what precedes the rest of a program. *)
Lemma hoare_assoc {A B C} (m : H A) (f : A -> H B) (k : B -> H C) P R :
  hoare P (m ≫= fun a => f a ≫= k) R -> hoare P ((m ≫= f) ≫= k) R.
Proof.
  intros Hm h Hh. specialize (Hm h Hh). unfold mbind, h_bind in *. by destruct (m h) as [h1 a].
Qed.

Lemma hoare_ret_bind {A B} (a : A) (k : A -> H B) P R : hoare P (k a) R -> hoare P (mret a ≫= k) R.
Proof. done. Qed.

Lemma hoare_present_in {B} c m (k : unit -> H B) p cs st R :
  bool_decide (c ∈ cs) = true -> hoare (at_ p cs st) (m ≫= k) R -> hoare (at_ p cs st) (if_present c m ≫= k) R.
Proof.
  intros Hc Hm h Hh. specialize (Hm h Hh). unfold mbind, h_bind, if_present in *.
  by rewrite (at_present _ _ _ _ Hh), Hc.
Qed.

Lemma hoare_present_out {B} c m (k : unit -> H B) p cs st R :
  bool_decide (c ∈ cs) = false -> hoare (at_ p cs st) (k tt) R -> hoare (at_ p cs st) (if_present c m ≫= k) R.
Proof.
  intros Hc Hm h Hh. specialize (Hm h Hh). unfold mbind, h_bind, if_present in *.
  by rewrite (at_present _ _ _ _ Hh), Hc.
Qed.

Lemma hoare_post {A} (m : H A) P (Q Q' : A -> Handler -> Prop) :
  hoare P m Q -> (forall a h, Q a h -> Q' a h) -> hoare P m Q'.
Proof. intros Hm HQ h Hh. by apply HQ, Hm. Qed.

(** The flag that [JoinLoops] sets is one of two values. *)
Lemma hoare_join_loops {B} p p' (k : GroupStatus.t -> H B) cs st R :
  in_stage p [SHalted] CLoops = true -> (forall failed, set_stage CLoops SJoined p <| loops_failed := failed |> = p' failed) ->
  (forall a, hoare (at_ (p' (negb (bool_decide (a = GroupStatus.Ok)))) cs st) (k a) R) ->
  hoare (at_ p cs st) (call oracle JoinLoops ≫= k) R.
Proof.
  intros Hs Hp Hk. eapply hoare_bind; [|exact Hk].
  apply (hoare_call JoinLoops p (fun a => p' (negb (bool_decide (a = GroupStatus.Ok))))). intros a. unfold observe. by rewrite Hs, <-Hp.
Qed.

Lemma hoare_call_to {B} op p p' (k : Answer op -> H B) cs st R :
  (forall a, observe false p (mkCalled op a) = Some p') -> (forall a, hoare (at_ p' cs st) (k a) R) ->
  hoare (at_ p cs st) (call oracle op ≫= k) R.
Proof. intros Ho Hk. eapply hoare_bind; [by apply (hoare_call op p (fun _ => p'))|]. exact Hk. Qed.

Lemma hoare_make_to {B} c p p' (k : bool -> H B) cs st R :
  observe false p (mkCalled (Make c) true) = Some p' -> set_stage c SMade p = p' ->
  observe false p (mkCalled (Make c) false) = Some p ->
  hoare (at_ p' (c :: cs) st) (k true) R -> hoare (at_ p cs st) (k false) R ->
  hoare (at_ p cs st) (make oracle c ≫= k) R.
Proof.
  intros Ht <- Hf Hk1 Hk2. eapply hoare_bind; [by apply hoare_make|]. by intros [].
Qed.

Lemma hoare_reset_to {B} c p p' cs cs' (k : unit -> H B) st R :
  may_destroy false p c = true -> set_stage c SAbsent p = p' -> filter (fun d => d <> c) cs = cs' ->
  hoare (at_ p' cs' st) (k tt) R -> hoare (at_ p cs st) (reset oracle c ≫= k) R.
Proof. intros Hd <- <- Hk. eapply hoare_bind; [by apply hoare_reset|]. by intros []. Qed.

Lemma hoare_last {A} (m : H A) P R : hoare P (m ≫= fun a => mret a) R -> hoare P m R.
Proof.
  intros Hm h Hh. specialize (Hm h Hh). unfold mbind, h_bind in Hm. by destruct (m h).
Qed.

Lemma hoare_update {A} (f : Handler -> Handler) (a : A) P (Q : A -> Handler -> Prop) :
  (forall h, P h -> Q a (f h)) -> hoare P (update f a) Q.
Proof. intros HQ h Hh. by apply HQ. Qed.

Lemma hoare_is_draining {B} (k : bool -> H B) P R : (forall b, hoare P (k b) R) -> hoare P (is_draining ≫= k) R.
Proof. intros Hk h Hh. by apply (Hk (drain_started h)). Qed.

(** Steps through a program on a state of the contract that is known, and
    computes the next one. *)
Ltac hstep :=
  cbv beta iota;
  lazymatch goal with
  | |- hoare _ ((_ ≫= _) ≫= _) _ => apply hoare_assoc
  | |- hoare _ (mret _ ≫= _) _ => apply hoare_ret_bind
  | |- hoare (at_ ?p _ _) (make _ ?c ≫= _) _ =>
      let p' := eval vm_compute in (set_stage c SMade p) in
      apply (hoare_make_to c p p'); [vm_compute; reflexivity..| |]
  | |- hoare (at_ ?p ?cs _) (reset _ ?c ≫= _) _ =>
      let p' := eval vm_compute in (set_stage c SAbsent p) in
      let cs' := eval vm_compute in (filter (fun d => d <> c) cs) in
      apply (hoare_reset_to c p p' cs cs'); [vm_compute; reflexivity..|]
  | |- hoare _ (reset _ _) _ => apply hoare_last
  | |- hoare _ (if_present _ _ ≫= _) _ =>
      first [apply hoare_present_in; [vm_compute; reflexivity|] | apply hoare_present_out; [vm_compute; reflexivity|]]
  | |- hoare (at_ ?p _ _) (call _ JoinLoops ≫= _) _ =>
      let p' := eval vm_compute in (fun failed => set_stage CLoops SJoined p <| loops_failed := failed |>) in
      apply (hoare_join_loops p p'); [vm_compute; reflexivity|vm_compute; reflexivity|intros ?; cbv beta]
  | |- hoare (at_ ?p _ _) (call _ ?op ≫= _) _ =>
      let r := eval vm_compute in (fun a => observe false p (mkCalled op a)) in
      lazymatch r with
      | (fun _ => Some ?p') => apply (hoare_call_to op p p'); [intros ?; vm_compute; reflexivity|intros ?]
      end
  | |- hoare _ (is_draining ≫= _) _ => apply hoare_is_draining; intros []
  | |- hoare _ ((if negb ?b then _ else _) ≫= _) _ => destruct b; cbn [negb]
  | |- hoare _ (if negb true then _ else _) _ => cbn [negb]
  | |- hoare _ (if negb false then _ else _) _ => cbn [negb]
  | |- hoare _ (if negb ?b then _ else _) _ => destruct b
  | |- hoare _ (mret _) _ => apply hoare_ret; intros ? ?
  end.

(** The components in the order in which they are made. *)
Definition order : list Component := [CWorkers; CMaintenance; CFeature; CBlacklist; CLoops; CAcceptor].

Definition partly_made (n : nat) : Protocol := foldl (fun p c => set_stage c SMade p) protocol_start (take n order).

Definition all_absent (p : Protocol) : Prop := forall c, stage p c = SAbsent.

Lemma failStart_ok n st :
  (n <= 6)%nat ->
  hoare (at_ (partly_made n) (rev (take n order)) st) (failStart oracle)
    (fun _ h => exists p, all_absent p /\ at_ p [] HandlerState.Failed h).
Proof.
  unfold failStart, stopStartedComponents, resetStartedComponents. intros Hn.
  destruct n as [|[|[|[|[|[|[|n]]]]]]]; [..|lia]; cbn [rev take order app];
    match goal with |- hoare (at_ ?p _ _) _ _ => let p' := eval vm_compute in p in change p with p' end;
    repeat hstep; apply hoare_update; intros h [H1 H2 H3];
    (eexists; split; [|by split]; by intros []).
Qed.

Lemma start_components_ok st :
  hoare (at_ protocol_start [] st) (start_components oracle)
    (fun (ok : bool) h => if ok then at_ (partly_made 6) (rev order) st h
                          else exists n, (n <= 6)%nat /\ at_ (partly_made n) (rev (take n order)) st h).
Proof.
  unfold start_components. repeat hstep.
  1: match goal with |- context [bool_decide ?x] => destruct (bool_decide x) end; [assumption|].
  all: first [by exists 6%nat; split; [lia|] | by exists 5%nat; split; [lia|] | by exists 4%nat; split; [lia|]
             | by exists 3%nat; split; [lia|] | by exists 2%nat; split; [lia|] | by exists 1%nat; split; [lia|]
             | by exists 0%nat; split; [lia|]].
Qed.

(** The states in which the components stand between two operations. *)
Definition stands (st : HandlerState.t) (p : Protocol) (cs : list Component) : Prop :=
  match st with
  | HandlerState.Constructed | HandlerState.Initialized => p = protocol_start /\ cs = []
  | HandlerState.Running => p = partly_made 6 /\ cs = rev order
  | HandlerState.Stopping => p = set_stage CWorkers SHalted (set_stage CAcceptor SHalted (partly_made 6)) /\ cs = rev order
  | HandlerState.Stopped | HandlerState.Failed => all_absent p /\ cs = []
  end.

Record keeps_contract (h : Handler) : Prop := {
  kc_stands : exists p, stands (h_state h) p (present h) /\ protocol_of false (trace h) = Some p;
  kc_joining : h_joining h = true -> h_state h = HandlerState.Stopping;
}.

Lemma teardown_ok :
  hoare (at_ (set_stage CWorkers SHalted (set_stage CAcceptor SHalted (partly_made 6))) (rev order) HandlerState.Stopping)
    (join_rest oracle)
    (fun result h => exists p, all_absent p
       /\ at_ p [] (if bool_decide (result = HandlerStatus.Ok) then HandlerState.Stopped else HandlerState.Failed) h).
Proof.
  unfold join_rest, join_teardown, join_leave, resetStartedComponents, drain_loops, join_loops. cbn [rev order app].
  match goal with |- hoare (at_ ?p _ _) _ _ => let p' := eval vm_compute in p in change p with p' end.
  repeat hstep.
  all: apply hoare_update; intros h [H1 H2 H3]; eexists; (split; [|by split]); by intros [].
Qed.

Lemma keeps_at h p cs st :
  at_ p cs st h -> stands st p cs -> h_joining h = false -> keeps_contract h.
Proof. intros [H1 H2 H3] Hs Hj. split; [|congruence]. exists p. by rewrite H2, H3. Qed.
End Rules.

(** ** Executions *)

Inductive HandlerOp :=
| OpInit (requested : HandlerConfig) (w : InitWorld)
| OpStart
| OpStop
| OpJoin
| OpTeardown.      (* the caller of [join] that goes on *)

Section Executions.
Context `{Inet} `{Protobuf} (oracle : nat -> forall op : Op, Answer op).

Definition run_handler_op (h : Handler) (op : HandlerOp) : Handler :=
  match op with
  | OpInit requested w => (init requested w h).1
  | OpStart => (start oracle h).1
  | OpStop => (stop oracle h).1
  | OpJoin => (join_enter h).1
  | OpTeardown =>
      if h_joining h then (join_rest oracle h).1 else h
  end.

(** What the calls leave alone. *)
Definition quietly {A} (m : H A) : Prop := forall h, h_joining (m h).1 = h_joining h.

Lemma quietly_bind {A B} (m : H A) (f : A -> H B) : quietly m -> (forall a, quietly (f a)) -> quietly (m ≫= f).
Proof.
  intros Hm Hf h. unfold mbind, h_bind. specialize (Hm h). destruct (m h) as [h1 a]. simpl in Hm. by rewrite Hf.
Qed.

Lemma quietly_call op : quietly (call oracle op).
Proof. by intros h. Qed.
Lemma quietly_ret {A} (a : A) : quietly (mret a).
Proof. by intros h. Qed.
Lemma quietly_make c : quietly (make oracle c).
Proof. apply quietly_bind; [apply quietly_call|]. by intros []. Qed.
Lemma quietly_reset c : quietly (reset oracle c).
Proof. apply quietly_bind; [apply quietly_call|]. by intros []. Qed.
Lemma quietly_present c m : quietly m -> quietly (if_present c m).
Proof. intros Hm h. unfold if_present. by case_match. Qed.

Ltac solve_quietly :=
  repeat first [apply quietly_ret | apply quietly_call | apply quietly_make | apply quietly_reset
               | apply quietly_present | apply quietly_bind; [|intros ?] | case_match].

Lemma quietly_start : quietly (start_components oracle) /\ quietly (failStart oracle).
Proof.
  unfold start_components, failStart, stopStartedComponents, resetStartedComponents. split; solve_quietly.
Qed.

Lemma start_keeps h : keeps_contract h -> keeps_contract (start oracle h).1.
Proof.
  intros [(p & Hs & Hp) Hj]. unfold start.
  destruct (bool_decide_reflect (h_state h = HandlerState.Running)); [by split; [exists p|]|].
  destruct (bool_decide_reflect (h_state h = HandlerState.Initialized)) as [Hi|]; simpl; [|by split; [exists p|]].
  destruct (negb (bool_decide (is_Some (h_config h))) || negb (initialized h))%bool; [by split; [exists p|]|].
  rewrite Hi in Hs. destruct Hs as [-> Hc].
  assert (h_joining h = false) as Hjf by (destruct (h_joining h); [by rewrite Hj in Hi|done]).
  pose proof (start_components_ok oracle HandlerState.Initialized h ltac:(by split)) as Hsc.
  destruct quietly_start as [Q1 Q2]. specialize (Q1 h). unfold mbind, h_bind.
  destruct (start_components oracle h) as [h1 [|]]; simpl in *.
  - destruct Hsc as [A1 A2 A3]. split; simpl; [|congruence]. exists (partly_made 6). split; [|exact A1]. by split.
  - destruct Hsc as (made & Hn & Ha). pose proof (failStart_ok oracle made _ Hn h1 Ha) as (q & Hq & Hat). specialize (Q2 h1).
    eapply keeps_at; [exact Hat|by split|congruence].
Qed.

Lemma stop_keeps h : keeps_contract h -> keeps_contract (stop oracle h).1.
Proof.
  intros [(p & Hs & Hp) Hj]. unfold stop. destruct (h_state h) eqn:Est; try (split; simpl; [exists p; rewrite Est; by split|intros Hx; specialize (Hj Hx); congruence]).
  - destruct Hs as [-> Hc]. split; simpl; [exists protocol_start; by split; [split; [by intros []|done]|]|].
    intros Hx. specialize (Hj Hx). congruence.
  - destruct Hs as [-> Hc]. split; simpl; [exists protocol_start; by split; [split; [by intros []|done]|]|].
    intros Hx. specialize (Hj Hx). congruence.
  - destruct Hs as [-> Hc]. split; simpl; [|done].
    exists (set_stage CWorkers SHalted (set_stage CAcceptor SHalted (partly_made 6))). split; [by split|].
    rewrite !protocol_of_snoc, Hp. reflexivity.
Qed.

Lemma join_keeps h : keeps_contract h -> keeps_contract (join_enter h).1.
Proof.
  intros [(p & Hs & Hp) Hj]. unfold join_enter. destruct (_ || _)%bool; [by split; [exists p|]|].
  destruct (bool_decide_reflect (h_state h = HandlerState.Stopping)) as [Hst|]; simpl; [|by split; [exists p|]].
  destruct (h_joining h) eqn:Ej; simpl; [by split; [exists p|]|]. split; simpl; [by exists p|done].
Qed.

Lemma teardown_keeps h :
  keeps_contract h -> h_joining h = true ->
  keeps_contract (join_rest oracle h).1.
Proof.
  intros [(p & Hs & Hp) Hj] Hjt. specialize (Hj Hjt). rewrite Hj in Hs. destruct Hs as [-> Hc].
  pose proof (teardown_ok oracle h ltac:(by split)) as (q & Hq & Hat).
  eapply keeps_at; [exact Hat|by case_bool_decide|]. clear. unfold join_rest, mbind at 1, h_bind at 1.
  destruct (join_teardown oracle h) as [h1 r]. unfold join_leave, mbind, h_bind. by destruct (resetStartedComponents oracle h1).
Qed.

Lemma init_keeps requested w h : keeps_contract h -> keeps_contract (init requested w h).1.
Proof.
  intros K. unfold init. destruct (normalizeConfig requested) as [e|]; [|exact K].
  destruct (h_config h); [exact K|].
  destruct (bool_decide_reflect (h_state h = HandlerState.Constructed)) as [Hst|]; cbn [negb orb]; [|exact K].
  destruct (handler_validConfig e); cbn [negb]; [|exact K].
  generalize (loadInitialBlacklist e w None). intros [[manager [i|]] s']; [|exact K].
  destruct (make_queue _ _); [|exact K]. destruct (make_service _ _); [|exact K].
  destruct K as [(p & Hs & Hp) Hj]. rewrite Hst in Hs.
  split; cbn; [by exists p|]. intros Hx. specialize (Hj Hx). congruence.
Qed.

Lemma reachable_keeps ops : keeps_contract (foldl run_handler_op fresh_handler ops).
Proof.
  assert (forall h, keeps_contract h -> keeps_contract (foldl run_handler_op h ops)) as Hk.
  { induction ops as [|op ops IH]; intros h Hh; [done|]. simpl. apply IH. destruct op; simpl.
    - by apply init_keeps.
    - by apply start_keeps.
    - by apply stop_keeps.
    - by apply join_keeps.
    - destruct (h_joining h) eqn:E; [by apply teardown_keeps|done]. }
  apply Hk. split; [|done]. exists protocol_start. by split; [split|].
Qed.

(** C13. The handler uses its components as they demand.  In every sequence of
    operations, whatever the components answer and wherever a constructor
    throws: no call goes to a component that does not exist, what a component
    refers to outlives it, the acceptor stops before the loops and the workers,
    the loops and the workers end before the candidate queue is closed, the
    queue is drained while the maintenance pool still runs, and a component is
    destroyed only after its [stop] and its [join] (for the blacklist
    maintenance the final drain; the feature maintenance has no join) were
    called.  There is one exception, [excused]: after a join of the loops that
    reported a failure the workers may be only closed when the queue is closed
    and when they are destroyed; as long as no join of the loops failed, the
    strict contract is kept.  In [Stopped] and [Failed] every component is
    destroyed. *)
Theorem handler_respects_components ops :
  let h := foldl run_handler_op fresh_handler ops in
  is_Some (protocol_of false (trace h))
  /\ (Forall loops_join_ok (trace h) -> is_Some (protocol_of true (trace h)))
  /\ (h_state h = HandlerState.Stopped \/ h_state h = HandlerState.Failed ->
      present h = [] /\ exists p, protocol_of false (trace h) = Some p /\ all_absent p).
Proof.
  destruct (reachable_keeps ops) as [(p & Hs & Hp) _].
  simpl. split; [by exists p|]. split.
  { intros Hok. destruct (protocol_strict _ Hok) as [-> _]. by exists p. }
  intros [E|E]; rewrite E in Hs; destruct Hs as [Ha Hc]; eauto.
Qed.
End Executions.

(** ** What [join] answers *)

(** The answers that leave the result of [join] at [Ok]. *)
Definition acceptable (e : Called) : Prop :=
  match e with
  | mkCalled op answer =>
      match op return Answer op -> Prop with
      | JoinAcceptor => fun st => st = AcceptorStatus.Ok
      | DrainLoops => fun st => st = GroupStatus.Ok \/ st = GroupStatus.DrainDeadlineExceeded
      | JoinLoops => fun st => st = GroupStatus.Ok
      | JoinPool _ => fun st => st = WorkerPoolStatus.Ok
      | FinalDrain => fun ok => ok = true
      | DiscardRemaining => fun n => n = 0
      | _ => fun _ => True
      end answer
  end.

Section Truth.
Context (oracle : nat -> forall op : Op, Answer op).

(** The calls that a program adds, related to its answer. *)
Definition logs (d : bool) {A} (m : H A) (R : A -> list Called -> Prop) : Prop :=
  forall h, drain_started h = d ->
    exists evs, trace (m h).1 = trace h ++ evs /\ drain_started (m h).1 = d /\ R (m h).2 evs.

Lemma logs_bind d {A B} (m : H A) (f : A -> H B) P R :
  logs d m P -> (forall a evs, P a evs -> logs d (f a) (fun b evs' => R b (evs ++ evs'))) -> logs d (m ≫= f) R.
Proof.
  intros Hm Hf h Hh. destruct (Hm h Hh) as (evs & E1 & E2 & HP). unfold mbind, h_bind.
  destruct (m h) as [h1 a]. simpl in *. destruct (Hf a evs HP h1 E2) as (evs' & E3 & E4 & HR).
  exists (evs ++ evs'). by rewrite E3, E1, <-app_assoc.
Qed.

Lemma logs_call d op : logs d (call oracle op) (fun a evs => evs = [mkCalled op a]).
Proof. intros h Hh. by eexists. Qed.

Lemma logs_ret d {A} (a : A) (R : A -> list Called -> Prop) : R a [] -> logs d (mret a) R.
Proof. intros HR h Hh. exists []. by rewrite app_nil_r. Qed.

Lemma logs_weaken d {A} (m : H A) (P R : A -> list Called -> Prop) :
  logs d m P -> (forall a evs, P a evs -> R a evs) -> logs d m R.
Proof. intros Hm HR h Hh. destruct (Hm h Hh) as (evs & ? & ? & ?). exists evs. auto. Qed.

Lemma logs_reset d c : logs d (reset oracle c) (fun _ evs => Forall acceptable evs).
Proof.
  eapply logs_bind; [apply logs_call|]. intros a evs ->. intros h Hh. exists []. rewrite app_nil_r.
  split_and!; [done|done|]. by repeat constructor.
Qed.

Lemma logs_all_bind d {A B} (m : H A) (f : A -> H B) :
  logs d m (fun _ evs => Forall acceptable evs) -> (forall a, logs d (f a) (fun _ evs => Forall acceptable evs)) ->
  logs d (m ≫= f) (fun _ evs => Forall acceptable evs).
Proof.
  intros Hm Hf. eapply logs_bind; [exact Hm|]. intros a evs He. eapply logs_weaken; [apply Hf|].
  intros b evs' He'. by apply Forall_app.
Qed.

Lemma logs_resets d : logs d (resetStartedComponents oracle) (fun _ evs => Forall acceptable evs).
Proof. unfold resetStartedComponents. do 5 (apply logs_all_bind; [apply logs_reset|intros _]). apply logs_reset. Qed.

Lemma logs_is_draining d {B} (k : bool -> H B) R : logs d (k d) R -> logs d (is_draining ≫= k) R.
Proof.
  intros Hk h Hh. specialize (Hk h Hh). unfold mbind, h_bind, is_draining. by rewrite Hh.
Qed.

Lemma logs_drain_loops d :
  logs d (drain_loops oracle) (fun drained evs => drained = true <-> d = true /\ Forall acceptable evs).
Proof.
  unfold drain_loops. apply logs_is_draining. destruct d.
  - eapply logs_bind; [apply logs_call|]. intros st evs ->. apply logs_ret.
    rewrite orb_true_iff, !bool_decide_eq_true, app_nil_r, Forall_singleton. simpl. tauto.
  - apply logs_ret. split; [done|by intros []].
Qed.

Lemma logs_join_loops d :
  logs d (join_loops oracle) (fun joined evs => (joined = true <-> Forall acceptable evs)
    /\ (joined = true -> mkCalled (JoinPool CWorkers) WorkerPoolStatus.Ok ∈ evs)).
Proof.
  unfold join_loops. eapply logs_bind; [apply logs_call|]. intros st evs ->.
  destruct (bool_decide_reflect (st = GroupStatus.Ok)) as [->|Hn]; simpl.
  - eapply logs_bind; [apply logs_call|]. intros st evs ->. apply logs_ret. rewrite bool_decide_eq_true. split.
    + simpl. rewrite !Forall_cons. simpl. split; [intros ->; by split_and!|by intros (_ & ? & _)].
    + intros ->. right. by left.
  - apply logs_ret. split; [|done]. simpl. rewrite Forall_singleton. simpl. done.
Qed.

(** The relation of the result to the calls. *)
Definition told_truth (d : bool) (result : HandlerStatus.t) (evs : list Called) : Prop :=
  (result = HandlerStatus.Ok <-> d = true /\ Forall acceptable evs)
  /\ (result <> HandlerStatus.Ok -> result = HandlerStatus.JoinFailed)
  /\ (result = HandlerStatus.Ok ->
        mkCalled (JoinPool CWorkers) WorkerPoolStatus.Ok ∈ evs /\ mkCalled FinalDrain true ∈ evs
        /\ mkCalled DiscardRemaining 0 ∈ evs).

Lemma logs_teardown d : logs d (join_teardown oracle) (told_truth d).
Proof.
  unfold join_teardown.
  eapply logs_bind; [apply logs_call|]. intros accepted ? ->. eapply logs_bind; [apply logs_call|]. intros ? ? ->.
  eapply logs_bind; [apply logs_drain_loops|]. intros drained ed Hd. eapply logs_bind; [apply logs_call|]. intros ? ? ->.
  eapply logs_bind; [apply logs_join_loops|]. intros joined ej [Hj Hjp].
  do 3 (eapply logs_bind; [apply logs_call|]; intros ? ? ->).
  eapply logs_bind; [apply logs_call|]. intros flushed ? ->.
  do 2 (eapply logs_bind; [apply logs_call|]; intros ? ? ->).
  eapply logs_bind; [apply logs_call|]. intros maintained ? ->. eapply logs_bind; [apply logs_call|]. intros ? ? ->.
  eapply logs_bind; [apply logs_call|]. intros dropped ? ->. apply logs_ret. unfold told_truth.
  match goal with |- ((if ?c then _ else _) = _ <-> _ /\ Forall _ ?l) /\ _ =>
    set (good := c); set (all := l) end.
  assert (good = true <-> d = true /\ Forall acceptable all) as Hgood.
  { unfold good, all. rewrite !andb_true_iff, !bool_decide_eq_true, Z.eqb_eq, Hd, Hj.
    rewrite !Forall_app, !Forall_singleton, ?Forall_nil. simpl. tauto. }
  split_and!.
  - destruct good; [tauto|]. split; [done|]. rewrite <-Hgood. done.
  - by destruct good.
  - intros Hok. assert (good = true) as Hg by (by destruct good). unfold good in Hg. clear Hgood.
    rewrite !andb_true_iff in Hg. destruct Hg as [[[[[_ _] Hjt] ->] _] ->%Z.eqb_eq]. unfold all.
    specialize (Hjp Hjt). rewrite !elem_of_app, !list_elem_of_singleton. split_and!; [tauto|..];
      repeat first [reflexivity | left; reflexivity | right].
Qed.

Lemma join_rest_truth h :
  let '(h', result) := join_rest oracle h in
  (exists evs, trace h' = trace h ++ evs /\ told_truth (drain_started h) result evs)
  /\ h_join_status h' = result /\ h_joining h' = false
  /\ h_state h' = (if bool_decide (result = HandlerStatus.Ok) then HandlerState.Stopped else HandlerState.Failed).
Proof.
  set (d := drain_started h). unfold join_rest, mbind at 1, h_bind at 1.
  destruct (logs_teardown d h eq_refl) as (evs & E1 & E2 & T1 & T2 & T3).
  destruct (join_teardown oracle h) as [h1 result]. cbn [fst snd] in *. unfold join_leave, update, mbind, h_bind.
  destruct (logs_resets d h1 E2) as (evs' & E3 & _ & Hr). destruct (resetStartedComponents oracle h1) as [h2 []]. simpl in E3 |- *.
  split; [|done]. exists (evs ++ evs'). split; [by rewrite E3, E1, <-app_assoc|]. split_and!; [|done|].
  - rewrite T1, Forall_app. tauto.
  - intros Ho. destruct (T3 Ho) as (? & ? & ?). rewrite !elem_of_app. auto.
Qed.
End Truth.

Section Join.
Context `{Inet} `{Protobuf} (oracle : nat -> forall op : Op, Answer op).

Abbreviation run_ops := (foldl (run_handler_op oracle)).

(** [Failed] records why; in every other state the recorded result is [Ok]. *)
Definition records (h : Handler) : Prop :=
  match h_state h with
  | HandlerState.Failed => h_join_status h = HandlerStatus.StartFailed \/ h_join_status h = HandlerStatus.JoinFailed
  | _ => h_join_status h = HandlerStatus.Ok
  end.

Lemma records_start h : records h -> records (start oracle h).1.
Proof.
  intros Hr. unfold start. do 2 (case_match; [done|]). unfold mbind, h_bind.
  destruct (start_components oracle h) as [h1 [|]]; [done|]. unfold failStart, update, mbind, h_bind.
  destruct (stopStartedComponents oracle h1) as [h2 []]. destruct (resetStartedComponents oracle h2) as [h3 []]. by left.
Qed.

Lemma records_rest h : records (join_rest oracle h).1.
Proof.
  pose proof (join_rest_truth oracle h) as Ht. destruct (join_rest oracle h) as [h' result].
  destruct Ht as ((evs & _ & _ & T2 & _) & E1 & _ & E2). unfold records. cbn [fst]. rewrite E2, E1.
  case_bool_decide as Hb; [done|]. right. by apply T2.
Qed.

Lemma records_op h op : records h -> records (run_handler_op oracle h op).
Proof.
  intros Hr. destruct op as [requested w| | | |]; simpl.
  - unfold init. repeat case_match; try done; simplify_eq. unfold records in *. simpl.
    match goal with E : (negb (bool_decide (h_state h = _)) || _)%bool = false |- _ =>
      apply orb_false_iff in E as [E _]; apply negb_false_iff, bool_decide_eq_true in E; by rewrite E in Hr end.
  - by apply records_start.
  - unfold stop, records in *. destruct (h_state h) eqn:E; simpl; rewrite ?E; done.
  - unfold join_enter. repeat case_match; done.
  - case_match; [apply records_rest|done].
Qed.

Lemma records_reachable ops : records (run_ops fresh_handler ops).
Proof.
  assert (forall h, records h -> records (run_ops h ops)) as Hk; [|by apply Hk].
  induction ops as [|op ops IH]; intros h Hh; [done|]. by apply IH, records_op.
Qed.

(** The handler came to its end: no operation does anything any more. *)
Definition ended (h : Handler) : Prop :=
  (h_state h = HandlerState.Stopped \/ h_state h = HandlerState.Failed) /\ h_joining h = false.

Lemma ended_op h op : ended h -> run_handler_op oracle h op = h.
Proof.
  intros [Hs Hj]. destruct op as [requested w| | | |]; simpl.
  - unfold init. destruct (normalizeConfig requested); [|done]. destruct (h_config h); [done|].
    rewrite bool_decide_false by (destruct Hs as [-> | ->]; done). done.
  - unfold start. rewrite !bool_decide_false by (destruct Hs as [-> | ->]; done). done.
  - unfold stop. by destruct Hs as [-> | ->].
  - unfold join_enter. rewrite (bool_decide_false (h_state h = HandlerState.Stopping)) by (destruct Hs as [-> | ->]; done).
    by case_match.
  - by rewrite Hj.
Qed.

Lemma ended_ops h ops : ended h -> run_ops h ops = h.
Proof. intros He. induction ops as [|op ops IH]; [done|]. simpl. by rewrite ended_op. Qed.

(** What an ended handler answers to whoever joins or still waits. *)
Definition settled (h : Handler) (result : HandlerStatus.t) : Prop :=
  forall ops, (join_enter (run_ops h ops)).2 = HJoinReturned result /\ (join_wait (run_ops h ops)).2 = Some result.

Lemma ended_settled h : keeps_contract h -> ended h -> settled h (h_join_status h).
Proof.
  intros [(p & Hst & _) _] He ops. rewrite ended_ops by done. destruct He as [Hs Hj]. unfold join_wait. rewrite Hj.
  split; [|done]. unfold join_enter. destruct Hs as [E|E]; rewrite E in *; [done|].
  destruct Hst as [_ ->]. done.
Qed.

Lemma keeps_ended h :
  keeps_contract h -> h_state h = HandlerState.Stopped \/ h_state h = HandlerState.Failed -> ended h.
Proof.
  intros [_ Hj] Hs. split; [done|]. destruct (h_joining h); [|done]. specialize (Hj eq_refl).
  destruct Hs; congruence.
Qed.

Lemma start_failed_settled h :
  keeps_contract h -> (start oracle h).2 = HandlerStatus.StartFailed -> settled (start oracle h).1 HandlerStatus.StartFailed.
Proof.
  intros K. pose proof (start_keeps oracle h K) as K'. revert K'. unfold start. do 2 (case_match; [done|]).
  unfold mbind, h_bind. destruct (start_components oracle h) as [h1 [|]]; [done|].
  unfold failStart, update, mbind, h_bind. destruct (stopStartedComponents oracle h1) as [h2 []].
  destruct (resetStartedComponents oracle h2) as [h3 []]. cbn [fst snd]. intros K' _.
  apply (ended_settled _ K'), (keeps_ended _ K'). by right.
Qed.

Lemma join_enter_stopping h :
  h_state h = HandlerState.Stopping ->
  join_enter h = if h_joining h then (h, HJoinWaits) else (h <| h_joining := true |>, HJoinGoes).
Proof. intros E. unfold join_enter. by rewrite E. Qed.

Lemma join_enter_returns h :
  h_state h <> HandlerState.Stopping -> keeps_contract h ->
  join_enter h = (h, HJoinReturned match h_state h with
                                   | HandlerState.Stopped | HandlerState.Failed => h_join_status h
                                   | _ => HandlerStatus.InvalidState
                                   end).
Proof.
  intros Hne [(p & Hst & _) _]. unfold join_enter. destruct (h_state h); try done. destruct Hst as [_ ->]. done.
Qed.

(** The caller that goes on, from the call to the settled result. *)
Lemma join_goes_settled h :
  keeps_contract h -> h_state h = HandlerState.Stopping -> h_joining h = false ->
  let '(h', result) := join_rest oracle (h <| h_joining := true |>) in
  exists evs, trace h' = trace h ++ evs
  /\ (result = HandlerStatus.Ok <-> drain_started h = true /\ Forall acceptable evs)
  /\ (result <> HandlerStatus.Ok -> result = HandlerStatus.JoinFailed)
  /\ (result = HandlerStatus.Ok ->
        mkCalled (JoinPool CWorkers) WorkerPoolStatus.Ok ∈ evs /\ mkCalled FinalDrain true ∈ evs
        /\ mkCalled DiscardRemaining 0 ∈ evs)
  /\ h_state h' = (if bool_decide (result = HandlerStatus.Ok) then HandlerState.Stopped else HandlerState.Failed)
  /\ settled h' result.
Proof.
  intros K Hst Hj. pose proof (join_keeps h K) as K1. rewrite (join_enter_stopping h Hst), Hj in K1.
  cbn [fst] in K1. pose proof (teardown_keeps oracle _ K1 eq_refl) as K2.
  pose proof (join_rest_truth oracle (h <| h_joining := true |>)) as Ht.
  destruct (join_rest oracle _) as [h' result].
  destruct Ht as ((evs & E1 & T1 & T2 & T3) & E2 & E3 & E4). exists evs. split_and!; try done.
  cbn [fst] in K2. rewrite <-E2. apply (ended_settled _ K2), (keeps_ended _ K2).
  rewrite E4. case_match; auto.
Qed.

(** C14. What [join] answers, in every state that a sequence of operations
    reaches.  Before a start and while the service runs it answers
    [InvalidState]; in [Stopped] the answer is [Ok], in [Failed] it is
    [StartFailed] or [JoinFailed], always the recorded one, and nothing is
    called.  In [Stopping] one caller stops the components, the others wait.
    Its result is [Ok] exactly when the drain of the loops had been started by
    [stop] and every component answered well: the acceptor, the loops and both
    pools were joined, the drain of the loops ended or ran into the deadline,
    the final drain of the candidates succeeded and no candidate was left to
    discard; otherwise it is [JoinFailed].  The state then says which, and
    every waiting and every later [join] answers the same, as every [join]
    after a failed start answers [StartFailed]. *)
Theorem handler_join_truthful ops :
  let h := run_ops fresh_handler ops in
  match join_enter h with
  | (h1, HJoinReturned st) =>
      h1 = h
      /\ match h_state h with
         | HandlerState.Constructed | HandlerState.Initialized | HandlerState.Running => st = HandlerStatus.InvalidState
         | HandlerState.Stopping => False
         | HandlerState.Stopped => st = HandlerStatus.Ok /\ settled h st
         | HandlerState.Failed => (st = HandlerStatus.StartFailed \/ st = HandlerStatus.JoinFailed) /\ settled h st
         end
  | (h1, HJoinWaits) => h1 = h /\ h_state h = HandlerState.Stopping /\ (join_wait h).2 = None
  | (h1, HJoinGoes) =>
      h_state h = HandlerState.Stopping
      /\ let '(h', result) := join_rest oracle h1 in
         exists evs, trace h' = trace h ++ evs
         /\ (result = HandlerStatus.Ok <-> drain_started h = true /\ Forall acceptable evs)
         /\ (result <> HandlerStatus.Ok -> result = HandlerStatus.JoinFailed)
         /\ (result = HandlerStatus.Ok ->
               mkCalled (JoinPool CWorkers) WorkerPoolStatus.Ok ∈ evs /\ mkCalled FinalDrain true ∈ evs
               /\ mkCalled DiscardRemaining 0 ∈ evs)
         /\ h_state h' = (if bool_decide (result = HandlerStatus.Ok) then HandlerState.Stopped else HandlerState.Failed)
         /\ settled h' result
  end
  /\ ((start oracle h).2 = HandlerStatus.StartFailed -> settled (start oracle h).1 HandlerStatus.StartFailed).
Proof.
  intros h. pose proof (reachable_keeps oracle ops) as K. pose proof (records_reachable ops) as Hr.
  fold h in K, Hr. split; [|by apply start_failed_settled].
  destruct (decide (h_state h = HandlerState.Stopping)) as [Est|Est].
  - rewrite (join_enter_stopping h Est). destruct (h_joining h) eqn:Ej.
    + unfold join_wait. by rewrite Ej.
    + split; [done|]. by apply join_goes_settled.
  - rewrite (join_enter_returns h Est K). split; [done|]. unfold records in Hr.
    destruct (h_state h) eqn:E; try done; (split; [done|]; apply ended_settled, keeps_ended; auto).
Qed.
End Join.

(** The condition [event_loops->join() != Ok || worker_pool->join() != Ok] skips
    the second call after a failure of the first: the candidate queue is then
    closed although the workers, only closed, may still run tasks. *)
Lemma handler_closes_queue_before_workers_end :
  exists (oracle : nat -> forall op : Op, Answer op),
    let '(h, _) := join_teardown oracle (fresh_handler <| drain_started := true |>) in
    mkCalled CloseQueue tt ∈ trace h /\ forall st, mkCalled (JoinPool CWorkers) st ∉ trace h.
Proof.
  exists (fun _ op => match op return Answer op with
                      | Make _ | StartMaintenance _ | FinalDrain => true
                      | StartLoops | BeginDrain | DrainLoops => GroupStatus.Ok
                      | JoinLoops => GroupStatus.StartFailed
                      | StartAcceptor | JoinAcceptor => AcceptorStatus.Ok
                      | DrainPool _ | JoinPool _ => WorkerPoolStatus.Ok
                      | TakeDropped | DiscardRemaining => 0
                      | Halt _ | CloseQueue | Destroy _ => tt
                      end).
  vm_compute. split.
  - do 5 right. by left.
  - intros st Hin. repeat (apply elem_of_cons in Hin as [Hin|Hin]; [discriminate Hin|]). by apply not_elem_of_nil in Hin.
Qed.

(** ** The initial blacklist *)

Section Initial_theorem.
Context `{Inet, !InetLaws}.

(** The first published blacklist.  When [loadInitialBlacklist] succeeds,
    the manager holds the publication of exactly the entries of a snapshot that
    was read stable as the last step of the start-up, the recorded revision is
    that of the snapshot, and a publication that is not marked dirty means that
    Redis executed the command that records this revision last. *)
Theorem handler_initial_blacklist config w manager initial s :
  loadInitialBlacklist config w None = (manager, Some initial, Some s) ->
  exists snapshot,
    snapshot_status snapshot = StoreStatus.Ok /\ last (boot_events s) = Some (BSnapshot snapshot)
    /\ publish None (snapshot_entries snapshot) (w_wall_ms w) = (manager, true)
    /\ initial_revision initial = snapshot_revision snapshot
    /\ (publication_dirty_ initial = false ->
         last (redis_done s) = Some ["SET"; published_revision (fromPrefix (redis_key_prefix (redis config)));
                                     to_string (snapshot_revision snapshot)]).
Proof.
  unfold loadInitialBlacklist. set (deadline := w_now w + _). set (keys := fromPrefix _).
  destruct (RedisConnection.connect _ _ _ _ _) as [c|] eqn:Ec; [|done].
  apply connect_fresh in Ec as [Hl Hs].
  set (dao := mkDao _ _ _ _ _ _ _ _). destruct (silent_connect deadline dao) as (l & Hc & ->).
  destruct (MysqlDao.connect deadline dao) as [dao' ok]. simpl in Hc. destruct ok; [|done]. cbn [negb].
  set (s0 := mkStores c dao' (w_clocks w) []).
  assert (good s0) as Hg.
  { split; simpl; [split; [done|by rewrite Hs]|]. unfold sql_of. by rewrite Hc. }
  destruct (does_initialize keys deadline (cache_batch_size (blacklist_cache config))
    (cache_batch_size (blacklist_cache config)) s0 Hg) as (evs & delta & E1 & E2 & _ & [_ _ R _ _]).
  destruct (initializeBlacklistCache keys deadline _ _ s0) as [s1 r]. simpl in *.
  destruct (bool_decide_reflect (boot_status r = StoreStatus.Ok)) as [Hok|]; [|done]. cbn [negb].
  destruct (R Hok) as [[R1 R2] [Hrd _]]. destruct (publish None _ _) as [m published] eqn:Ep. destruct published; [|done]. cbn [negb].
  destruct (setPublishedRevision keys deadline _ (boot_redis s1)) as [c' st] eqn:Est. intros [= <- <- <-].
  exists (boot_snapshot r). simpl. split_and!; [done|by rewrite E1|done|done|].
  intros Hst%negb_false_iff%bool_decide_eq_true. subst st.
  apply ready_clean in Hrd as (_ & Hcl & Hnd).
  destruct (setPublishedRevision_spec keys deadline (redis_done s1) (snapshot_revision (boot_snapshot r)) (boot_redis s1))
    as (_ & _ & Hx & _); [by split_and!|]. rewrite Est in Hx. specialize (Hx eq_refl). simpl in Hx.
  unfold redis_done. simpl. by rewrite Hx, last_snoc.
Qed.
End Initial_theorem.

(** ** A service that starts, stops and is joined *)

Module HandlerSample.
Definition redis_server : list HiredisAnswer :=
  BootSample.server
  ++ [ BootSample.status "OK"; BootSample.status "none"; BootSample.status "OK"; BootSample.status "QUEUED";
       answer (BootSample.array [text_reply REDIS_REPLY_STATUS "OK"]) ].

Definition mysql_server : list MysqlAnswer :=
  replicate 20 BootSample.ok ++ [BootSample.no_data] ++ replicate 5 BootSample.ok
  ++ [BootSample.ip; BootSample.no_data] ++ replicate 5 BootSample.ok ++ [BootSample.no_data].

Definition world : InitWorld :=
  mkWorld 0 (mkOpening 0 0 (Some redis_server)) (replicate 120 0, mysql_server) (replicate 9 0) 1000 1000000.

Definition well (_ : nat) (op : Op) : Answer op :=
  match op return Answer op with
  | Make _ | StartMaintenance _ | FinalDrain => true
  | StartLoops | BeginDrain | DrainLoops | JoinLoops => GroupStatus.Ok
  | StartAcceptor | JoinAcceptor => AcceptorStatus.Ok
  | DrainPool _ | JoinPool _ => WorkerPoolStatus.Ok
  | TakeDropped | DiscardRemaining => 0
  | Halt _ | CloseQueue | Destroy _ => tt
  end.
End HandlerSample.

#[local] Existing Instance ReferenceInet.inet.
#[local] Existing Instance ReferenceInet.inet_laws.

Abbreviation loaded_sample := (loadInitialBlacklist default_handler HandlerSample.world None).

Lemma handler_initial_blacklist_witness :
  exists snapshot manager,
    publish None (snapshot_entries snapshot) 1000 = (manager, true) /\ snapshot_revision snapshot = 1.
Proof.
  assert (loaded_sample = (loaded_sample.1.1, Some (mkInitial 1 false), Some (default BootSample.start loaded_sample.2))) as E
    by (vm_compute; reflexivity).
  destruct (handler_initial_blacklist _ _ _ _ _ E) as (snapshot & _ & _ & H1 & H2 & _).
  exists snapshot. eexists. split; [exact H1|by rewrite <-H2].
Defined.

(** The whole life of the service, with every component made and destroyed. *)
Example handler_life :
  let h := foldl (@run_handler_op ReferenceInet.inet sample_protobuf HandlerSample.well) fresh_handler
             [OpInit default_handler HandlerSample.world; OpStart; OpStop; OpJoin; OpTeardown] in
  h_state h = HandlerState.Stopped /\ h_join_status h = HandlerStatus.Ok /\ length (trace h) = 34%nat /\ h_dirty h = false.
Proof. vm_compute. split_and!; reflexivity. Qed.
