(* ===== verification/ManageOptions.v ===== *)
(** * ManageOptions: the command line of the management tool

    Model of the parsing half of [tools/manage_blacklist_command.{hpp,cpp}]:
    the arguments (without the name of the program) become a command or a usage
    error, before anything is opened. *)

From S2P Require Import Prelude Text IpAddress Blacklist.
Open Scope Z_scope.

Module ManageBlacklistAction.
Inductive t := Add | Disable | ClearAll.
#[export] Instance eq_dec : EqDecision t.
Proof. solve_decision. Defined.
End ManageBlacklistAction.
#[export] Existing Instance ManageBlacklistAction.eq_dec.

Record ManageBlacklistCommand := mkCommand {
  config_path : string;
  action : ManageBlacklistAction.t;
  command_mutation : option BlacklistMutation;
  command_wait : bool;
}.

Record ManageBlacklistParseResult := mkParsed {
  parsed : option ManageBlacklistCommand;
  parse_error : string;
}.

Record ParsedOptions := mkOptions {
  o_type : option string;
  o_id : option string;
  o_reason : option string;
  o_expire_at_ms : option string;
  o_confirm : option string;
  o_all : bool;
  o_wait : bool;
}.

Definition no_options : ParsedOptions := mkOptions None None None None None false false.

Definition usageError (message : string) : ManageBlacklistParseResult := mkParsed None message.
Definition parsedCommand (command : ManageBlacklistCommand) : ManageBlacklistParseResult := mkParsed (Some command) "".

(** The new destination; [None] when it already had a value. *)
Definition assignOnce (destination : option string) (value : string) : option (option string) :=
  match destination with Some _ => None | None => Some (Some value) end.

Definition parseEntityType (value : string) : option EntityType :=
  if bool_decide (value = "user") then Some User
  else if bool_decide (value = "ip") then Some Ip
  else if bool_decide (value = "device") then Some Device
  else None.

Definition parseUnsignedArgument (value : string) : option Z :=
  let chars := String.list_ascii_of_string value in
  match chars with
  | [] => None
  | front :: _ =>
      if char_code front =? 45 then None
      else
        match from_chars chars with
        | Some (v, n) => if (n =? length chars)%nat then Some v else None
        | None => None
        end
  end.

(** ** The options *)

(** The options that take a value, and where it goes. *)
Inductive ValueOption := OType | OId | OReason | OExpireAtMs | OConfirm.

Definition value_option (option_ : string) : option ValueOption :=
  if bool_decide (option_ = "--type") then Some OType
  else if bool_decide (option_ = "--id") then Some OId
  else if bool_decide (option_ = "--reason") then Some OReason
  else if bool_decide (option_ = "--expire-at-ms") then Some OExpireAtMs
  else if bool_decide (option_ = "--confirm") then Some OConfirm
  else None.

Definition get_option (o : ValueOption) (options : ParsedOptions) : option string :=
  match o with
  | OType => o_type options | OId => o_id options | OReason => o_reason options
  | OExpireAtMs => o_expire_at_ms options | OConfirm => o_confirm options
  end.

Definition set_option (o : ValueOption) (v : option string) (options : ParsedOptions) : ParsedOptions :=
  match o with
  | OType => options <| o_type := v |> | OId => options <| o_id := v |> | OReason => options <| o_reason := v |>
  | OExpireAtMs => options <| o_expire_at_ms := v |> | OConfirm => options <| o_confirm := v |>
  end.

(** The loop over the arguments: the options or the message of a usage error. *)
Fixpoint read_options (arguments : list string) (options : ParsedOptions) : string + ParsedOptions :=
  match arguments with
  | [] => inr options
  | option_ :: rest =>
      match value_option option_ with
      | Some o =>
          match rest with
          | [] => inl ("参数 " +:+ option_ +:+ " 缺少值")
          | value :: rest =>
              match assignOnce (get_option o options) value with
              | None => inl ("参数 " +:+ option_ +:+ " 不能重复")
              | Some v => read_options rest (set_option o v options)
              end
          end
      | None =>
          if bool_decide (option_ = "--all") then
            if o_all options then inl "参数 --all 不能重复" else read_options rest (options <| o_all := true |>)
          else if bool_decide (option_ = "--wait") then
            if o_wait options then inl "参数 --wait 不能重复" else read_options rest (options <| o_wait := true |>)
          else inl ("未知参数: " +:+ option_)
      end
  end.

Definition given (o : option string) : bool := bool_decide (is_Some o).

Section Parsing.
Context `{Inet}.

Definition parse_add (path : string) (options : ParsedOptions) : ManageBlacklistParseResult :=
  match o_type options, o_id options, o_reason options with
  | Some type, Some id, Some reason =>
      if (o_all options || o_wait options || given (o_confirm options))%bool
      then usageError "add 不接受 --all、--wait 或 --confirm"
      else
        match parseEntityType type with
        | None => usageError "--type 必须是 user、ip 或 device"
        | Some type =>
            match (match o_expire_at_ms options with None => Some 0 | Some e => parseUnsignedArgument e end) with
            | None => usageError "--expire-at-ms 必须是无符号整数"
            | Some expire_at_ms =>
                match upsert type id reason expire_at_ms with
                | None => usageError "add 的实体、reason 或过期时间无效"
                | Some m => parsedCommand (mkCommand path ManageBlacklistAction.Add (Some m) false)
                end
            end
        end
  | _, _, _ => usageError "add 必须同时提供 --type、--id 和 --reason"
  end.

Definition parse_disable (path : string) (options : ParsedOptions) : ManageBlacklistParseResult :=
  match o_type options, o_id options with
  | Some type, Some id =>
      if (given (o_reason options) || given (o_expire_at_ms options) || given (o_confirm options)
          || o_all options || o_wait options)%bool
      then usageError "disable 只接受 --type 和 --id"
      else
        match parseEntityType type with
        | None => usageError "--type 必须是 user、ip 或 device"
        | Some type =>
            match disable type id with
            | None => usageError "disable 的实体无效"
            | Some m => parsedCommand (mkCommand path ManageBlacklistAction.Disable (Some m) false)
            end
        end
  | _, _ => usageError "disable 必须同时提供 --type 和 --id"
  end.

Definition parse_clear (path : string) (options : ParsedOptions) : ManageBlacklistParseResult :=
  if (negb (o_all options) || negb (bool_decide (o_confirm options = Some "benchmark-reset")))%bool
  then usageError "clear 必须提供 --all --confirm benchmark-reset"
  else if (given (o_type options) || given (o_id options) || given (o_reason options)
           || given (o_expire_at_ms options))%bool
  then usageError "clear 不接受实体或 reason 参数"
  else parsedCommand (mkCommand path ManageBlacklistAction.ClearAll (Some clearAll) (o_wait options)).

Definition parseOptions (action : ManageBlacklistAction.t) (path : string) (arguments : list string)
    : ManageBlacklistParseResult :=
  match read_options arguments no_options with
  | inl message => usageError message
  | inr options =>
      match action with
      | ManageBlacklistAction.Add => parse_add path options
      | ManageBlacklistAction.Disable => parse_disable path options
      | ManageBlacklistAction.ClearAll => parse_clear path options
      end
  end.

Definition parse_action (path : string) (arguments : list string) : ManageBlacklistParseResult :=
  match arguments with
  | [] => usageError "缺少 add、disable 或 clear 操作"
  | name :: rest =>
      if bool_decide (name = "add") then parseOptions ManageBlacklistAction.Add path rest
      else if bool_decide (name = "disable") then parseOptions ManageBlacklistAction.Disable path rest
      else if bool_decide (name = "clear") then parseOptions ManageBlacklistAction.ClearAll path rest
      else usageError ("未知操作: " +:+ name)
  end.

Definition default_path : string := "config/server.conf".

Definition parseManageBlacklistCommand (arguments : list string) : ManageBlacklistParseResult :=
  match arguments with
  | [] => usageError "缺少 add、disable 或 clear 操作"
  | first :: rest =>
      if bool_decide (first = "--config") then
        match rest with
        | [] => usageError "参数 --config 缺少路径"
        | path :: rest =>
            if (bool_decide (path = "") || containsNull path)%bool then usageError "配置路径不能为空"
            else parse_action path rest
        end
      else parse_action default_path arguments
  end.
End Parsing.

(** ** Printing a command *)

Definition entity_name (t : EntityType) : string :=
  match t with User => "user" | Ip => "ip" | Device => "device" end.

(** The arguments that ask for a command, with every option written out. *)
Definition arguments_of (c : ManageBlacklistCommand) : list string :=
  let m := default clearAll (command_mutation c) in
  let type := entity_name (default User (entityType m)) in
  ["--config"; config_path c]
  ++ match action c with
     | ManageBlacklistAction.Add =>
         ["add"; "--type"; type; "--id"; mut_id m; "--reason"; reason m; "--expire-at-ms"; to_string (expireAtMs m)]
     | ManageBlacklistAction.Disable => ["disable"; "--type"; type; "--id"; mut_id m]
     | ManageBlacklistAction.ClearAll =>
         ["clear"; "--all"; "--confirm"; "benchmark-reset"] ++ if command_wait c then ["--wait"] else []
     end.

(** The commands that the tool can carry out. *)
Definition command_ok `{Inet} (c : ManageBlacklistCommand) : Prop :=
  config_path c <> "" /\ containsNull (config_path c) = false
  /\ exists m, command_mutation c = Some m /\ mutation_ok m /\ is_u64 (expireAtMs m)
     /\ match action c with
        | ManageBlacklistAction.Add => operation m = Upsert /\ command_wait c = false
        | ManageBlacklistAction.Disable => operation m = Disable /\ command_wait c = false
        | ManageBlacklistAction.ClearAll => operation m = ClearAll
        end.

Lemma parseEntityType_name t : parseEntityType (entity_name t) = Some t.
Proof. by destruct t. Qed.

Lemma parse_to_string n : is_u64 n -> parseUnsignedArgument (to_string n) = Some n.
Proof.
  intros Hn. destruct (to_string_digits n Hn) as (H1 & H2 & _). unfold parseUnsignedArgument.
  destruct (String.list_ascii_of_string (to_string n)) as [|front rest]; [done|].
  rewrite H1. destruct (Z.eqb_spec (char_code front) 45) as [E|_]; [|by rewrite Nat.eqb_refl].
  exfalso. revert H1. unfold from_chars, digits. fold digits. unfold isdigit. by rewrite E.
Qed.

(** ** What the loop collects *)

Definition option_name (o : ValueOption) : string :=
  match o with
  | OType => "--type" | OId => "--id" | OReason => "--reason"
  | OExpireAtMs => "--expire-at-ms" | OConfirm => "--confirm"
  end.

Lemma value_option_name s o : value_option s = Some o -> s = option_name o.
Proof. unfold value_option. repeat (case_bool_decide; [by intros [= <-]|]). done. Qed.

Lemma get_set_option o o' v options :
  get_option o (set_option o' v options) = get_option o options \/ o = o' /\ get_option o (set_option o' v options) = v.
Proof. destruct o, o'; simpl; auto. Qed.

Lemma set_option_flags o v options :
  o_all (set_option o v options) = o_all options /\ o_wait (set_option o v options) = o_wait options.
Proof. by destruct o. Qed.

(** Every value stands behind its option, and every flag is an argument. *)
Lemma read_options_source arguments options result :
  read_options arguments options = inr result ->
  (forall o v, get_option o result = Some v ->
     get_option o options = Some v \/ exists before after, arguments = before ++ option_name o :: v :: after)
  /\ (o_all result = true -> o_all options = true \/ "--all" ∈ arguments)
  /\ (o_wait result = true -> o_wait options = true \/ "--wait" ∈ arguments).
Proof.
  revert options. induction arguments as [arguments IH] using (induction_ltof1 _ (@length string)).
  unfold ltof in IH. intros options. destruct arguments as [|s rest]; simpl; [intros [= <-]; auto|].
  destruct (value_option s) as [o|] eqn:Eo.
  - apply value_option_name in Eo as ->. destruct rest as [|value rest]; [done|].
    destruct (get_option o options) as [|] eqn:Eg; simpl; [done|].
    intros Hr. destruct (IH rest) with (2 := Hr) as (H1 & H2 & H3); [simpl; lia|].
    destruct (set_option_flags o (Some value) options) as [F1 F2]. rewrite F1 in H2. rewrite F2 in H3. split_and!.
    + intros o' v Hv. destruct (H1 o' v Hv) as [Hs|(before & after & ->)].
      * destruct (get_set_option o' o (Some value) options) as [E|[-> E]]; [left; congruence|].
        right. exists [], rest. simpl. congruence.
      * right. by exists (option_name o :: value :: before), after.
    + intros Ha. destruct (H2 Ha); [by left|right]. by do 2 right.
    + intros Ha. destruct (H3 Ha); [by left|right]. by do 2 right.
  - assert (forall o : ParsedOptions, read_options rest o = inr result ->
      (forall f, get_option f o = get_option f options) ->
      (forall f v, get_option f result = Some v -> get_option f options = Some v
        \/ exists before after, s :: rest = before ++ option_name f :: v :: after)
      /\ (o_all result = true -> o_all o = true \/ "--all" ∈ s :: rest)
      /\ (o_wait result = true -> o_wait o = true \/ "--wait" ∈ s :: rest)) as Hflag.
    { intros opts Hr Hsame. destruct (IH rest) with (2 := Hr) as (H1 & H2 & H3); [simpl; lia|]. split_and!.
      - intros f v Hv. destruct (H1 f v Hv) as [Hs|(before & after & ->)]; [left; by rewrite <-Hsame|].
        right. by exists (s :: before), after.
      - intros Ha. destruct (H2 Ha); [by left|right]. by right.
      - intros Ha. destruct (H3 Ha); [by left|right]. by right. }
    case_bool_decide as E1; [|case_bool_decide as E2]; try done.
    + destruct (o_all options); [done|]. intros Hr. destruct (Hflag _ Hr) as (H1 & H2 & H3); [by intros []|].
      split_and!; [exact H1| |exact H3]. intros _. right. rewrite E1. by left.
    + destruct (o_wait options); [done|]. intros Hr. destruct (Hflag _ Hr) as (H1 & H2 & H3); [by intros []|].
      split_and!; [exact H1|exact H2|]. intros _. right. rewrite E2. by left.
Qed.

(** ** What the parser accepts *)

Section Accepted.
Context `{Inet, !InetLaws}.

Lemma parseUnsignedArgument_u64 s v : parseUnsignedArgument s = Some v -> is_u64 v.
Proof.
  unfold parseUnsignedArgument, from_chars. destruct (String.list_ascii_of_string s) as [|front rest]; [done|].
  destruct (char_code front =? 45); [done|]. pose proof (digits_nonneg (front :: rest) 0 0 ltac:(lia)) as Hn.
  destruct (digits (front :: rest) 0 0) as [number n]. simpl in Hn. destruct (n =? 0)%nat; [done|].
  destruct (Z.ltb_spec u64_max number); [done|]. case_if; [|done]. intros [= <-]. unfold is_u64, u64_max in *. lia.
Qed.

(** The body of a command, without its path. *)
Definition accepts (path : string) (c : ManageBlacklistCommand) (r : ManageBlacklistParseResult) : Prop :=
  parsed r = Some c ->
  config_path c = path /\ (path <> "" -> containsNull path = false -> command_ok c).

Lemma accepts_error path c message : accepts path c (usageError message).
Proof. done. Qed.

Lemma accepts_add path c options : accepts path c (parse_add path options).
Proof.
  unfold parse_add. destruct (o_type options) as [type|]; [|done]. destruct (o_id options) as [id|]; [|done].
  destruct (o_reason options) as [why|]; [|done]. destruct (_ || _)%bool; [done|].
  destruct (parseEntityType type) as [ty|]; [|done].
  set (expire := match o_expire_at_ms options with None => Some 0 | Some e => parseUnsignedArgument e end).
  assert (forall e, expire = Some e -> is_u64 e) as He.
  { unfold expire. destruct (o_expire_at_ms options); [apply parseUnsignedArgument_u64|]. intros e [= <-]. unfold is_u64. lia. }
  destruct expire as [e|]; [|done]. destruct (upsert ty id why e) as [m|] eqn:Eu; [|done].
  intros [= <-]. split; [done|]. intros Hp Hn. split_and!; [done|done|]. exists m.
  split_and!; [done|by eapply upsert_ok| |]; revert Eu; unfold upsert; destruct (normalizeId ty id); try done;
    (case_if; [done|]); intros [= <-]; simpl; auto.
Qed.

Lemma accepts_disable path c options : accepts path c (parse_disable path options).
Proof.
  unfold parse_disable. destruct (o_type options) as [type|]; [|done]. destruct (o_id options) as [id|]; [|done].
  destruct (_ || _)%bool; [done|]. destruct (parseEntityType type) as [ty|]; [|done].
  unfold disable. destruct (normalizeId ty id) as [n|] eqn:En; [|done].
  intros [= <-]. split; [done|]. intros Hp Hn. split_and!; [done|done|]. eexists. split; [done|].
  split; [|split; [unfold is_u64; simpl; lia|done]]. exists ty. split; [done|]. simpl. by apply normalizeId_idem in En.
Qed.

Lemma accepts_clear path c options : accepts path c (parse_clear path options).
Proof.
  unfold parse_clear. do 2 (destruct (_ || _)%bool; [done|]). intros [= <-]. split; [done|]. intros Hp Hn.
  split_and!; [done|done|]. exists clearAll. split; [done|]. split; [done|]. split; [unfold is_u64; simpl; lia|done].
Qed.

Lemma accepts_action path c arguments : accepts path c (parse_action path arguments).
Proof.
  unfold parse_action, parseOptions. destruct arguments as [|name rest]; [done|].
  repeat case_bool_decide; try done; destruct (read_options rest no_options); try done;
    auto using accepts_add, accepts_disable, accepts_clear.
Qed.

Lemma accepts_parse arguments c : parsed (parseManageBlacklistCommand arguments) = Some c -> command_ok c.
Proof.
  unfold parseManageBlacklistCommand. destruct arguments as [|first rest]; [done|]. case_bool_decide.
  - destruct rest as [|path rest]; [done|]. case_bool_decide as Ep; [done|]. simpl.
    destruct (containsNull path) eqn:En; [done|]. intros Hc. by apply (accepts_action path c rest Hc).
  - intros Hc. by apply (accepts_action _ c _ Hc).
Qed.

(** Commands survive the command line.  A command that the tool can carry
    out, printed as arguments, is parsed back unchanged; and whatever the parser
    accepts is such a command: a normalised entity, a bounded reason, an expiry
    not past the year 9999, a path that is not empty, waiting only with [clear]. *)
Theorem manage_parse_roundtrip :
  (forall c, command_ok c -> parseManageBlacklistCommand (arguments_of c) = mkParsed (Some c) "")
  /\ (forall arguments c, parsed (parseManageBlacklistCommand arguments) = Some c -> command_ok c).
Proof.
  split; [|exact accepts_parse].
  intros [path act mut w] (Hp & Hn & m & Hm & Hok & He & Ha). simpl in *. subst mut. unfold parseManageBlacklistCommand.
  simpl. rewrite bool_decide_eq_false_2, Hn by done. simpl.
  unfold mutation_ok in Hok. destruct act; simpl in *.
  - destruct Ha as [Ha ->]. rewrite Ha in Hok. destruct Hok as (t & Ht & Hid & Hr & Hx).
    unfold parseOptions, parse_add. simpl. rewrite Ht. simpl. rewrite parseEntityType_name, parse_to_string by done.
    unfold upsert. rewrite Hid, Hr. simpl. rewrite (proj2 (Z.ltb_ge _ _) Hx). unfold parsedCommand. repeat f_equal.
    destruct m. simpl in *. by subst.
  - destruct Ha as [Ha ->]. rewrite Ha in Hok. destruct Hok as (t & Ht & Hid & Hr & Hx).
    unfold parseOptions, parse_disable. simpl. rewrite Ht. simpl. rewrite parseEntityType_name.
    unfold disable. rewrite Hid. unfold parsedCommand. repeat f_equal. destruct m. simpl in *. by subst.
  - rewrite Ha in Hok. subst m. by destruct w.
Qed.

(** What a command line must contain to clear the list. *)
Lemma clear_confirmed arguments c :
  parsed (parseManageBlacklistCommand arguments) = Some c -> action c = ManageBlacklistAction.ClearAll ->
  "--all" ∈ arguments /\ exists before after, arguments = before ++ "--confirm" :: "benchmark-reset" :: after.
Proof.
  assert (forall path args, parsed (parse_action path args) = Some c -> action c = ManageBlacklistAction.ClearAll ->
    "--all" ∈ args /\ exists before after, args = before ++ "--confirm" :: "benchmark-reset" :: after) as Hact.
  { intros path args. unfold parse_action, parseOptions. destruct args as [|name rest]; [done|]. intros Hc Ha.
    destruct (read_options rest no_options) as [message|options] eqn:Er; [by repeat case_bool_decide|].
    destruct (read_options_source _ _ _ Er) as (H1 & H2 & _).
    assert (parsed (parse_clear path options) = Some c) as Hclear.
    { repeat case_bool_decide; try done.
      - revert Hc. unfold parse_add. repeat case_match; try done; intros [= <-]; done.
      - revert Hc. unfold parse_disable. repeat case_match; try done; intros [= <-]; done. }
    unfold parse_clear in Hclear. destruct (o_all options); [|done]. simpl in Hclear.
    case_bool_decide as Ec; [|done]. split; [right; destruct (H2 eq_refl); done|].
    destruct (H1 OConfirm _ Ec) as [?|(before & after & ->)]; [done|]. by exists (name :: before), after. }
  unfold parseManageBlacklistCommand. destruct arguments as [|first rest]; [done|]. case_bool_decide.
  - destruct rest as [|path rest]; [done|]. destruct (_ || _)%bool; [done|]. intros Hc Ha.
    destruct (Hact _ _ Hc Ha) as (Hall & before & after & ->). split; [by do 2 right|].
    by exists (first :: path :: before), after.
  - apply Hact.
Qed.
End Accepted.

Example refused_lines :
  let err args := parse_error (@parseManageBlacklistCommand ReferenceInet.inet args) in
  err [] = "缺少 add、disable 或 clear 操作"
  /\ err ["clear"; "--all"] = "clear 必须提供 --all --confirm benchmark-reset"
  /\ err ["disable"; "--type"; "user"; "--id"] = "参数 --id 缺少值"
  /\ err ["add"; "--type"; "user"; "--id"; "a"; "--id"; "b"; "--reason"; "r"] = "参数 --id 不能重复"
  /\ err ["add"; "--type"; "user"; "--id"; "a"; "--reason"; "r"; "--expire-at-ms"; "1x"] = "--expire-at-ms 必须是无符号整数".
Proof. vm_compute. repeat split. Qed.

Lemma manage_parse_roundtrip_witness :
  let c := mkCommand "server.conf" ManageBlacklistAction.Add
             (Some (mkMutation Upsert (Some Ip) "192.0.2.1" "abuse" 1000)) false in
  @parseManageBlacklistCommand ReferenceInet.inet (arguments_of c) = mkParsed (Some c) "".
Proof.
  intros c. apply (proj1 (@manage_parse_roundtrip ReferenceInet.inet ReferenceInet.inet_laws)).
  split; [done|]. split; [vm_compute; reflexivity|]. eexists. split; [reflexivity|]. split.
  - exists Ip. split; [reflexivity|]. split; [vm_compute; reflexivity|]. split; [vm_compute; reflexivity|].
    simpl. unfold kMaxExpireAtMs. lia.
  - split; [unfold is_u64; simpl; lia|]. split; reflexivity.
Defined.
