(* ===== verification/ManageCommand.v ===== *)
(** * ManageCommand: running the management tool

    Model of the running half of [tools/manage_blacklist_command.{hpp,cpp}] and
    of [tools/manage_blacklist.cpp].  The command talks to a backend and to a
    clock, the two interfaces of the source, here the classes
    [IManageBlacklistBackend] and [IManageBlacklistClock]; the tool instantiates
    them with the models of the Redis store and of the MySQL access.  Times are
    in nanoseconds, timeouts in milliseconds.  The calls of the backend are
    recorded. *)

From S2P Require Import Prelude Text IpAddress Blacklist RedisConnection RedisStore MysqlDao MaintenanceBackend Config.
From S2P Require Import ManageOptions.
Open Scope Z_scope.

Record MysqlBlacklistCountResult := mkCountResult { count_success : bool; count_counts : BlacklistCounts }.

Class IManageBlacklistBackend (B : Type) := {
  applyMutation : BlacklistMutation -> Z -> B -> B * StoreResult;
  m_requestResetBarrier : Z -> B -> B * StoreResult;
  m_readResetBarrier : Z -> B -> B * ResetReadResult;
  m_readResetConvergence : Z -> B -> B * ResetConvergence;
  m_countEnabledBlacklists : Z -> B -> B * MysqlBlacklistCountResult;
}.

Class IManageBlacklistClock (K : Type) := {
  now : K -> K * Z;
  sleepUntil : Z -> K -> K;
}.

Record ManageBlacklistOpenResult (B : Type) := mkOpen {
  opened_backend : option B;
  opened_timeout : Z;
  opened_error : string;
}.
Arguments mkOpen {B}.
Arguments opened_backend {B}.
Arguments opened_timeout {B}.
Arguments opened_error {B}.

(** A call of the backend and its answer. *)
Inductive ManageCall :=
| MApply (m : BlacklistMutation) (r : StoreResult)
| MRequest (r : StoreResult)
| MBarrier (r : ResetReadResult)
| MConverged (r : ResetConvergence)
| MCount (r : MysqlBlacklistCountResult).

Record Env (B K : Type) := mkEnv { backend : B; clock : K; calls : list ManageCall }.
Arguments mkEnv {B K}.
Arguments backend {B K}.
Arguments clock {B K}.
Arguments calls {B K}.

(** What the process leaves behind. *)
Record Finished := mkFinished { exit_code : Z; output : string; error : string }.

Definition actionName (action : ManageBlacklistAction.t) : string :=
  match action with
  | ManageBlacklistAction.Add => "UPSERT"
  | ManageBlacklistAction.Disable => "DISABLE"
  | ManageBlacklistAction.ClearAll => "CLEAR_ALL"
  end.

Definition statusName (status : StoreStatus.t) : string :=
  match status with
  | StoreStatus.Ok => "ok"
  | StoreStatus.WatchConflict => "watch_conflict"
  | StoreStatus.NotReady => "not_ready"
  | StoreStatus.InvalidRemoteState => "invalid_remote_state"
  | StoreStatus.DeadlineExceeded => "deadline_exceeded"
  | StoreStatus.IoError => "io_error"
  | StoreStatus.CommitUnknown => "commit_unknown"
  | StoreStatus.TransactionError => "transaction_error"
  | StoreStatus.ProtocolError => "protocol_error"
  end.

Definition resetConverged (redis : ResetConvergence) (mysql : MysqlBlacklistCountResult) : bool :=
  redisAndPublicationEmpty redis && count_success mysql && empty_counts (count_counts mysql).

(** [RedisDeadline::max()], and the deadline of a timeout that starts at [started_at]. *)
Definition max_time : Z := 2 ^ 63 - 1.
Definition bounded_timeout (started_at timeout : Z) : Z := Z.min (Z.quot (max_time - started_at) 1000000) timeout.
Definition bounded_deadline (started_at timeout : Z) : Z := started_at + bounded_timeout started_at timeout * 1000000.

Definition kPoll : Z := 25000000.

Section Command.
Context {B K : Type} `{!IManageBlacklistBackend B, !IManageBlacklistClock K}.

(** The answer is [None] when a loop runs out of fuel. *)
Definition Manage (A : Type) : Type := Env B K -> Env B K * option A.

#[export] Instance manage_ret : MRet Manage := fun A a e => (e, Some a).
#[export] Instance manage_bind : MBind Manage := fun A C f m e =>
  match m e with (e, Some a) => f a e | (e, None) => (e, None) end.

Definition out_of_fuel {A} : Manage A := fun e => (e, None).

Definition clock_now : Manage Z := fun e =>
  let '(k, t) := now (clock e) in (e <| clock := k |>, Some t).

Definition clock_sleepUntil (t : Z) : Manage unit := fun e => (e <| clock := sleepUntil t (clock e) |>, Some tt).

Definition call {A} (record : A -> ManageCall) (m : B -> B * A) : Manage A := fun e =>
  let '(b, a) := m (backend e) in (e <| backend := b |> <| calls := calls e ++ [record a] |>, Some a).

Definition sleepForPoll (deadline : Z) : Manage bool :=
  t ← clock_now;
  if deadline <=? t then mret false
  else
    _ ← clock_sleepUntil (Z.min deadline (t + kPoll));
    t ← clock_now;
    mret (t <? deadline).

Fixpoint applyWithRetry (fuel : nat) (m : BlacklistMutation) (deadline : Z) : Manage StoreResult :=
  match fuel with
  | O => out_of_fuel
  | S fuel =>
      let exceeded := mkStoreResult StoreStatus.DeadlineExceeded None in
      t ← clock_now;
      if negb (t <? deadline) then mret exceeded
      else
        result ← call (MApply m) (applyMutation m deadline);
        if negb (bool_decide (store_status result = StoreStatus.WatchConflict)) then mret result
        else
          awake ← sleepForPoll deadline;
          if (awake : bool) then applyWithRetry fuel m deadline else mret exceeded
  end.

(** The wait for the maintenance to acknowledge the barrier: a status that ends
    the command, or whether it was acknowledged. *)
Fixpoint awaitBarrier (fuel : nat) (token deadline : Z) : Manage (StoreStatus.t + bool) :=
  match fuel with
  | O => out_of_fuel
  | S fuel =>
      t ← clock_now;
      if negb (t <? deadline) then mret (inr false)
      else
        barrier ← call MBarrier (m_readResetBarrier deadline);
        if negb (bool_decide (reset_status barrier = StoreStatus.Ok)) then mret (inl (reset_status barrier))
        else if token <=? completed (reset_state barrier) then mret (inr true)
        else
          awake ← sleepForPoll deadline;
          if (awake : bool) then awaitBarrier fuel token deadline else mret (inr false)
  end.

(** The wait for the stores to be empty: what is printed, or whether they are. *)
Fixpoint awaitConvergence (fuel : nat) (deadline : Z) : Manage (string + bool) :=
  match fuel with
  | O => out_of_fuel
  | S fuel =>
      t ← clock_now;
      if negb (t <? deadline) then mret (inr false)
      else
        redis ← call MConverged (m_readResetConvergence deadline);
        if negb (bool_decide (conv_status redis = StoreStatus.Ok)) then mret (inl (statusName (conv_status redis)))
        else
          mysql ← call MCount (m_countEnabledBlacklists deadline);
          if negb (count_success mysql) then
            t ← clock_now;
            mret (inl (if deadline <=? t then "deadline_exceeded" else "mysql_error"))
          else if resetConverged redis mysql then mret (inr true)
          else
            awake ← sleepForPoll deadline;
            if (awake : bool) then awaitConvergence fuel deadline else mret (inr false)
  end.

Definition failed_with (message : string) : Finished := mkFinished 1 "" ("manage_blacklist: " +:+ message +:+ newline).

Definition reported (r : StoreResult) : StoreStatus.t :=
  if bool_decide (store_status r = StoreStatus.Ok) then StoreStatus.ProtocolError else store_status r.

(** The revision of an answer that is [Ok]. *)
Definition ok_revision (r : StoreResult) : option Z :=
  if bool_decide (store_status r = StoreStatus.Ok) then store_revision r else None.

Definition run_mutation (fuel : nat) (action : ManageBlacklistAction.t) (m : BlacklistMutation) (deadline : Z)
    : Manage Finished :=
  applied ← applyWithRetry fuel m deadline;
  mret (match ok_revision applied with
        | None => failed_with ("operation=" +:+ actionName action +:+ " status=" +:+ statusName (reported applied))
        | Some revision =>
            mkFinished 0 ("status=ok operation=" +:+ actionName action +:+ " revision=" +:+ to_string revision +:+ newline) ""
        end).

Definition run_cleared (fuel : nat) (m : BlacklistMutation) (wait : bool) (token deadline : Z) : Manage Finished :=
  applied ← applyWithRetry fuel m deadline;
  match ok_revision applied with
  | None => mret (failed_with ("operation=CLEAR_ALL status=" +:+ statusName (reported applied)))
  | Some revision =>
      let done := mkFinished 0
        ("status=ok operation=CLEAR_ALL revision=" +:+ to_string revision +:+ " barrier_token=" +:+ to_string token
         +:+ " converged=" +:+ (if wait then "1" else "0") +:+ newline) "" in
      if negb wait then mret done
      else
        waited ← awaitConvergence fuel deadline;
        mret (match waited with
              | inl reason => failed_with ("operation=CLEAR_ALL wait=" +:+ reason)
              | inr false => failed_with ("operation=CLEAR_ALL wait=timeout token=" +:+ to_string token)
              | inr true => done
              end)
  end.

Definition run_clear (fuel : nat) (m : BlacklistMutation) (wait : bool) (deadline : Z) : Manage Finished :=
  requested ← call MRequest (m_requestResetBarrier deadline);
  let refused := failed_with ("operation=CLEAR_ALL barrier=" +:+ statusName (reported requested)) in
  match ok_revision requested with
  | None => mret refused
  | Some token =>
      if token =? 0 then mret refused
      else
        acknowledged ← awaitBarrier fuel token deadline;
        match acknowledged with
        | inl status => mret (failed_with ("operation=CLEAR_ALL barrier=" +:+ statusName status))
        | inr false => mret (failed_with ("operation=CLEAR_ALL barrier=timeout token=" +:+ to_string token))
        | inr true => run_cleared fuel m wait token deadline
        end
  end.

(** Enough passes for every loop: each sleeps for 25 ms. *)
Definition poll_fuel (timeout : Z) : nat := Z.to_nat (timeout / 25) + 2.

Definition run_opened (command : ManageBlacklistCommand) (started_at timeout : Z) : Manage Finished :=
  let deadline := bounded_deadline started_at timeout in
  let fuel := poll_fuel (bounded_timeout started_at timeout) in
  t ← clock_now;
  if deadline <=? t then mret (failed_with "deadline_exceeded while opening dependencies")
  else
    match command_mutation command with
    | None => out_of_fuel   (* an empty [std::optional]: a parsed command has a mutation *)
    | Some m =>
        match action command with
        | ManageBlacklistAction.ClearAll => run_clear fuel m (command_wait command) deadline
        | action => run_mutation fuel action m deadline
        end
    end.
End Command.

(** The environment at the end, if a backend was opened. *)
Definition runManageBlacklistCommand `{Inet} {B K : Type} `{!IManageBlacklistBackend B, !IManageBlacklistClock K}
    (arguments : list string) (open : ManageBlacklistCommand -> Z -> ManageBlacklistOpenResult B) (k : K)
    : option (Env B K) * option Finished :=
  let p := parseManageBlacklistCommand arguments in
  match parsed p with
  | None => (None, Some (mkFinished 2 "" ("manage_blacklist: " +:+ parse_error p +:+ newline)))
  | Some command =>
      let '(k, started_at) := now k in
      let o := open command started_at in
      let refused :=
        (None, Some (failed_with (if bool_decide (opened_error o = "") then "无法打开依赖" else opened_error o))) in
      match opened_backend o with
      | None => refused
      | Some b =>
          if opened_timeout o <=? 0 then refused
          else
            let '(e, r) := run_opened command started_at (opened_timeout o) (mkEnv b k []) in
            (Some e, r)
      end
  end.

(** ** What the backend promises

    The commands that Redis executed are visible in [mb_done].  A write that
    answers [Ok] has executed its commands and one that answers
    [WatchConflict] none of them; after both the backend can be used again. *)

Definition barrier_commands (keys : RedisKeySet) : list (list string) :=
  [["HINCRBY"; reset_barrier keys; "requested"; "1"]].

Definition mutation_writes (keys : RedisKeySet) (m : BlacklistMutation) : list (list string) :=
  apply_commands keys (is_clear m) [m].

Class ManageBackendLaws (B : Type) `{!IManageBlacklistBackend B} := {
  mb_ready : B -> Prop;
  mb_keys : B -> RedisKeySet;
  mb_done : B -> list (list string);
  mb_writes (b b' : B) (st : StoreStatus.t) (commands : list (list string)) : Prop :=
    mb_keys b' = mb_keys b
    /\ (st = StoreStatus.Ok \/ st = StoreStatus.WatchConflict -> mb_ready b')
    /\ (mb_done b' = mb_done b \/ mb_done b' = mb_done b ++ commands)
    /\ (st = StoreStatus.Ok -> mb_done b' = mb_done b ++ commands)
    /\ (st = StoreStatus.WatchConflict -> mb_done b' = mb_done b);
  law_apply m dl b : mb_ready b ->
    let '(b', r) := applyMutation m dl b in mb_writes b b' (store_status r) (mutation_writes (mb_keys b) m);
  law_request dl b : mb_ready b ->
    let '(b', r) := m_requestResetBarrier dl b in mb_writes b b' (store_status r) (barrier_commands (mb_keys b));
  law_barrier dl b : mb_ready b ->
    let '(b', r) := m_readResetBarrier dl b in mb_writes b b' (reset_status r) [];
  law_converged dl b : mb_ready b ->
    let '(b', r) := m_readResetConvergence dl b in mb_writes b b' (conv_status r) [];
  law_count dl b : mb_ready b ->
    let '(b', r) := m_countEnabledBlacklists dl b in mb_writes b b' StoreStatus.Ok [];
}.

(** A clock that does not go back, and sleeps as long as it was asked to. *)
Class ManageClockLaws (K : Type) `{!IManageBlacklistClock K} := {
  clock_time : K -> Z;
  law_now k : clock_time k <= (now k).2 /\ clock_time (now k).1 = (now k).2;
  law_sleep t k : clock_time k <= clock_time (sleepUntil t k) /\ t <= clock_time (sleepUntil t k);
}.

Section Truth.
Context {B K : Type} `{!IManageBlacklistBackend B, !ManageBackendLaws B, !IManageBlacklistClock K}.
Context (keys : RedisKeySet).

Definition mhoare {A} (P : Env B K -> Prop) (m : Manage A) (Q : A -> Env B K -> Prop) : Prop :=
  forall e, P e -> match m e with (e', Some a) => Q a e' | (_, None) => True end.

Lemma mhoare_ret {A} (a : A) (P : Env B K -> Prop) (Q : A -> Env B K -> Prop) :
  (forall e, P e -> Q a e) -> mhoare P (mret a) Q.
Proof. intros HQ e HP. by apply HQ. Qed.

Lemma mhoare_bind {A C} P (m : Manage A) (f : A -> Manage C) Q R :
  mhoare P m Q -> (forall a, mhoare (Q a) (f a) R) -> mhoare P (m ≫= f) R.
Proof.
  intros Hm Hf e HP. unfold mbind, manage_bind. specialize (Hm e HP). destruct (m e) as [e' [a|]]; [|done].
  by apply Hf.
Qed.

Lemma mhoare_weaken {A} P (m : Manage A) Q Q' :
  mhoare P m Q -> (forall a e, Q a e -> Q' a e) -> mhoare P m Q'.
Proof. intros Hm HQ e HP. specialize (Hm e HP). destruct (m e) as [e' [a|]]; auto. Qed.

(** What Redis executed and which calls were made. *)
Record at_ (D : list (list string)) (log : list ManageCall) (e : Env B K) : Prop := {
  at_keys : mb_keys (backend e) = keys;
  at_done : mb_done (backend e) = D;
  at_calls : calls e = log;
}.

Definition ready_at (D : list (list string)) (log : list ManageCall) (e : Env B K) : Prop :=
  mb_ready (backend e) /\ at_ D log e.

Lemma at_now D log : mhoare (ready_at D log) clock_now (fun _ => ready_at D log).
Proof. intros e [Hr [H1 H2 H3]]. unfold clock_now. destruct (now (clock e)). split; [done|]. by split. Qed.

Lemma at_sleepForPoll D log deadline : mhoare (ready_at D log) (sleepForPoll deadline) (fun _ => ready_at D log).
Proof.
  unfold sleepForPoll. eapply mhoare_bind; [apply at_now|]. intros t. case_if; [by apply mhoare_ret|].
  eapply mhoare_bind with (Q := fun _ => ready_at D log); [intros e [Hr [H1 H2 H3]]; split; [done|by split]|].
  intros _. eapply mhoare_bind; [apply at_now|]. intros t'. by apply mhoare_ret.
Qed.

(** A write: its status says what was executed. *)
Definition wrote (D : list (list string)) (commands : list (list string)) (st : StoreStatus.t) (log : list ManageCall)
    (e : Env B K) : Prop :=
  (at_ D log e \/ at_ (D ++ commands) log e)
  /\ (st = StoreStatus.Ok -> ready_at (D ++ commands) log e)
  /\ (st = StoreStatus.WatchConflict -> ready_at D log e).

Lemma at_call {A} (record : A -> ManageCall) (m : B -> B * A) (st : A -> StoreStatus.t) commands D log :
  (forall b, mb_ready b -> mb_keys b = keys -> let '(b', a) := m b in mb_writes b b' (st a) commands) ->
  mhoare (ready_at D log) (call record m) (fun a => wrote D commands (st a) (log ++ [record a])).
Proof.
  intros Hm e [Hr [H1 H2 H3]]. unfold call. specialize (Hm _ Hr H1). destruct (m (backend e)) as [b' a].
  destruct Hm as (W1 & W2 & W3 & W4 & W5).
  assert (forall D', mb_done b' = D' -> at_ D' (log ++ [record a]) (e <| backend := b' |> <| calls := calls e ++ [record a] |>)) as Hat.
  { intros D' HD. split; simpl; [congruence|done|by rewrite H3]. }
  rewrite H2 in *. split_and!.
  - destruct W3; [left|right]; by apply Hat.
  - intros Hs. split; [apply W2; by left|]. by apply Hat, W4.
  - intros Hs. split; [apply W2; by right|]. by apply Hat, W5.
Qed.

Lemma wrote_nothing D st log e : wrote D [] st log e -> at_ D log e /\ (st = StoreStatus.Ok -> ready_at D log e).
Proof. intros (H1 & H2 & _). rewrite app_nil_r in *. split; [tauto|done]. Qed.

(** ** The loops *)

Definition is_apply (m : BlacklistMutation) (c : ManageCall) : Prop := exists r, c = MApply m r.
Definition is_reading (c : ManageCall) : Prop := match c with MApply _ _ | MRequest _ => False | _ => True end.

(** How an attempt to apply was answered. *)
Definition accepted (c : ManageCall) : Prop := match c with MApply _ r => store_status r = StoreStatus.Ok | _ => False end.
Definition conflicted (c : ManageCall) : Prop :=
  match c with MApply _ r => store_status r = StoreStatus.WatchConflict | _ => False end.

(** The attempts [applies] and what they left executed: the writes of the
    mutation or nothing, the writes after an answer [Ok], nothing when there
    were only conflicts. *)
Record attempted (m : BlacklistMutation) (D : list (list string)) (log applies : list ManageCall) (e : Env B K) : Prop := {
  am_only : Forall (is_apply m) applies;
  am_done : at_ D (log ++ applies) e \/ at_ (D ++ mutation_writes keys m) (log ++ applies) e;
  am_accepted : Exists accepted applies -> at_ (D ++ mutation_writes keys m) (log ++ applies) e;
  am_conflicts : Forall conflicted applies -> at_ D (log ++ applies) e;
}.

Lemma attempted_none m D log e : at_ D log e -> attempted m D log [] e.
Proof. intros He. split; rewrite ?app_nil_r; auto. by intros ?%Exists_nil. Qed.

Lemma attempted_one m D log r e :
  wrote D (mutation_writes keys m) (store_status r) (log ++ [MApply m r]) e -> attempted m D log [MApply m r] e.
Proof.
  intros (H1 & H2 & H3). split; [constructor; [by exists r|done]|done| |].
  - intros Hx. inversion Hx as [? ? Hr|? ? Hn]; subst; [by apply H2|by apply Exists_nil in Hn].
  - intros [Hr _]%Forall_cons. by apply H3.
Qed.

Lemma attempted_again m D log r applies e :
  store_status r = StoreStatus.WatchConflict ->
  attempted m D (log ++ [MApply m r]) applies e -> attempted m D log (MApply m r :: applies) e.
Proof.
  intros Hr [H1 H2 H3 H4]. rewrite <-app_assoc in *. split; [constructor; [by exists r|done]|done| |].
  - intros Hx. inversion Hx as [? ? Ha|? ? Hn]; subst; [simpl in Ha; congruence|auto].
  - intros [_ Hf]%Forall_cons. auto.
Qed.

Lemma applyWithRetry_ok fuel m deadline D log :
  mhoare (ready_at D log) (applyWithRetry fuel m deadline) (fun r e => exists applies,
    attempted m D log applies e
    /\ (store_status r = StoreStatus.Ok ->
          Exists accepted applies /\ ready_at (D ++ mutation_writes keys m) (log ++ applies) e)).
Proof.
  revert log. induction fuel as [|fuel IH]; intros log; [by intros e _|]. simpl.
  eapply mhoare_bind; [apply at_now|]. intros t. destruct (t <? deadline); cbn [negb].
  2: { apply mhoare_ret. intros e [_ He]. exists []. split; [by apply attempted_none|done]. }
  eapply mhoare_bind.
  { apply (at_call (MApply m) (applyMutation m deadline) store_status (mutation_writes keys m)).
    intros b Hb <-. by apply law_apply. }
  intros r. cbv beta. case_bool_decide as Hs; simpl.
  - eapply mhoare_bind with (Q := fun _ => ready_at D (log ++ [MApply m r])).
    { intros e (_ & _ & He). apply at_sleepForPoll. by apply He. }
    intros [].
    + eapply mhoare_weaken; [apply IH|]. cbv beta. intros r' e (applies & H1 & H2).
      exists (MApply m r :: applies). rewrite <-app_assoc in H2. split; [by apply attempted_again|].
      intros Hr'. destruct (H2 Hr'). split; [by right|done].
    + apply mhoare_ret. intros e [Hr He]. exists [MApply m r]. split; [|done].
      apply attempted_again; [done|by apply attempted_none].
  - apply mhoare_ret. intros e He. exists [MApply m r]. split; [by apply attempted_one|].
    intros Hr. split; [by left|]. by apply He.
Qed.

(** The barrier [token] was read as completed. *)
Definition acknowledged (token : Z) (c : ManageCall) : Prop :=
  match c with
  | MBarrier r => reset_status r = StoreStatus.Ok /\ token <= completed (reset_state r)
  | _ => False
  end.

(** A loop that only reads: [Q] relates what it answers and what it read. *)
Definition reads {A} (D : list (list string)) (log : list ManageCall) (keeps : A -> Prop)
    (Q : A -> list ManageCall -> Prop) (a : A) (e : Env B K) : Prop :=
  exists more, Forall is_reading more /\ at_ D (log ++ more) e /\ (keeps a -> mb_ready (backend e)) /\ Q a more.

Lemma reads_cons {A} D log c (keeps : A -> Prop) (Q : A -> list ManageCall -> Prop) a e :
  is_reading c -> (forall more, Q a more -> Q a (c :: more)) -> reads D (log ++ [c]) keeps Q a e -> reads D log keeps Q a e.
Proof.
  intros Hc HQ (more & F & H1 & H2 & H3). exists (c :: more). rewrite <-app_assoc in H1. split_and!; auto.
Qed.

Lemma awaitBarrier_ok fuel token deadline D log :
  mhoare (ready_at D log) (awaitBarrier fuel token deadline)
    (reads D log (fun r => r = inr true) (fun r more => r = inr true -> Exists (acknowledged token) more)).
Proof.
  revert log. induction fuel as [|fuel IH]; intros log; [by intros e _|]. simpl.
  eapply mhoare_bind; [apply at_now|]. intros t. destruct (t <? deadline); cbn [negb].
  2: { apply mhoare_ret. intros e [_ He]. exists []. rewrite app_nil_r. by split_and!. }
  eapply mhoare_bind.
  { apply (at_call MBarrier (m_readResetBarrier deadline) reset_status []). intros b Hb _. by apply law_barrier. }
  intros r. cbv beta. case_bool_decide as Hs; simpl.
  - destruct (Z.leb_spec token (completed (reset_state r))) as [Hc|Hc].
    + apply mhoare_ret. intros e He. apply wrote_nothing in He as [He Hr]. exists [MBarrier r].
      split_and!; [by repeat constructor|done|by intros _; apply Hr|]. intros _. by left.
    + eapply mhoare_bind with (Q := fun _ => ready_at D (log ++ [MBarrier r])).
      { intros e He. apply wrote_nothing in He as [_ He]. by apply at_sleepForPoll, He. }
      intros [].
      * eapply mhoare_weaken; [apply IH|]. cbv beta. intros r' e. apply reads_cons; [done|].
        intros more Hm Hr'. right. auto.
      * apply mhoare_ret. intros e [_ He]. exists [MBarrier r]. split_and!; [by repeat constructor|done..].
  - apply mhoare_ret. intros e He. apply wrote_nothing in He as [He _]. exists [MBarrier r].
    split_and!; [by repeat constructor|done..].
Qed.

(** The last two readings are those of stores that are empty. *)
Definition converged_last (log : list ManageCall) : Prop :=
  exists before redis mysql, log = before ++ [MConverged redis; MCount mysql] /\ resetConverged redis mysql = true.

Lemma converged_last_app log more : converged_last more -> converged_last (log ++ more).
Proof. intros (before & redis & mysql & -> & H1). exists (log ++ before), redis, mysql. by rewrite <-app_assoc. Qed.

Lemma awaitConvergence_ok fuel deadline D log :
  mhoare (ready_at D log) (awaitConvergence fuel deadline)
    (reads D log (fun _ => False) (fun r more => r = inr true -> converged_last more)).
Proof.
  revert log. induction fuel as [|fuel IH]; intros log; [by intros e _|]. simpl.
  eapply mhoare_bind; [apply at_now|]. intros t. destruct (t <? deadline); cbn [negb].
  2: { apply mhoare_ret. intros e [_ He]. exists []. rewrite app_nil_r. by split_and!. }
  eapply mhoare_bind.
  { apply (at_call MConverged (m_readResetConvergence deadline) conv_status []). intros b Hb _. by apply law_converged. }
  intros r. cbv beta. case_bool_decide as Hs; simpl.
  2: { apply mhoare_ret. intros e He. apply wrote_nothing in He as [He _]. exists [MConverged r].
       split_and!; [by repeat constructor|done..]. }
  eapply mhoare_bind with (Q := fun c => ready_at D (log ++ [MConverged r; MCount c])).
  { intros e He. apply wrote_nothing in He as [_ He]. specialize (He Hs).
    pose proof (at_call MCount (m_countEnabledBlacklists deadline) (fun _ => StoreStatus.Ok) [] D (log ++ [MConverged r])
      ltac:(intros b Hb _; by apply law_count) e He) as Hc.
    destruct (call _ _ e) as [e' [c|]]; [|done]. apply wrote_nothing in Hc as [_ Hc].
    specialize (Hc eq_refl). by rewrite <-app_assoc in Hc. }
  intros c. assert (Forall is_reading [MConverged r; MCount c]) as F by by repeat constructor.
  destruct (count_success c); simpl.
  2: { eapply mhoare_bind; [apply at_now|]. intros t'. apply mhoare_ret. intros e [_ He].
       eexists. split_and!; [exact F|exact He|done|done]. }
  destruct (resetConverged r c) eqn:Ec.
  - apply mhoare_ret. intros e [_ He]. eexists. split_and!; [exact F|exact He|done|]. intros _. by exists [], r, c.
  - eapply mhoare_bind; [apply at_sleepForPoll|]. intros [].
    + eapply mhoare_weaken; [apply IH|]. cbv beta. intros r' e (more & F' & H1 & H2 & H3).
      exists ([MConverged r; MCount c] ++ more). rewrite <-app_assoc in H1. split_and!; [by apply Forall_app|done|done|].
      intros Hr. by apply converged_last_app, H3.
    + apply mhoare_ret. intros e [_ He]. eexists. split_and!; [exact F|exact He|done|done].
Qed.

(** ** The command *)

(** The writes of a command, in order. *)
Definition plan (command : ManageBlacklistCommand) (m : BlacklistMutation) : list (list (list string)) :=
  match action command with
  | ManageBlacklistAction.ClearAll => [barrier_commands keys; mutation_writes keys m]
  | _ => [mutation_writes keys m]
  end.

(** Nothing is applied before the maintenance has acknowledged the barrier. *)
Definition applied_after_barrier (log : list ManageCall) : Prop :=
  forall before m r after, log = before ++ MApply m r :: after ->
    exists requested token, MRequest requested ∈ before /\ ok_revision requested = Some token /\ token <> 0
      /\ Exists (acknowledged token) before.

Record told_truth (command : ManageBlacklistCommand) (m : BlacklistMutation) (D : list (list string))
    (f : Finished) (e : Env B K) : Prop := {
  tt_keys : mb_keys (backend e) = keys;
  tt_code : exit_code f = 0 \/ exit_code f = 1;
  tt_done : exists n, mb_done (backend e) = D ++ mjoin (take n (plan command m));
  tt_ok : exit_code f = 0 -> mb_done (backend e) = D ++ mjoin (plan command m);
  tt_only : forall m' r, MApply m' r ∈ calls e -> m' = m;
  tt_accepted : Exists accepted (calls e) -> mb_done (backend e) = D ++ mjoin (plan command m);
  tt_refused : (forall r, MApply m r ∈ calls e -> store_status r = StoreStatus.WatchConflict) ->
                 exists n, (n < length (plan command m))%nat /\ mb_done (backend e) = D ++ mjoin (take n (plan command m));
  tt_barrier : action command = ManageBlacklistAction.ClearAll -> applied_after_barrier (calls e);
  tt_wait : action command = ManageBlacklistAction.ClearAll -> command_wait command = true -> exit_code f = 0 ->
              converged_last (calls e);
}.

Lemma is_apply_only m applies m' r : Forall (is_apply m) applies -> MApply m' r ∈ applies -> m' = m.
Proof. intros F Hin. apply (proj1 (Forall_forall _ _) F) in Hin as [r' [=]]. done. Qed.

(** The answers in a log whose other calls do not apply anything. *)
Lemma conflicts_of m applies :
  Forall (is_apply m) applies ->
  (forall r, MApply m r ∈ applies -> store_status r = StoreStatus.WatchConflict) -> Forall conflicted applies.
Proof.
  intros F Hc. apply Forall_forall. intros c Hin. pose proof (proj1 (Forall_forall _ _) F c Hin) as [r ->].
  by apply Hc.
Qed.

Lemma run_mutation_ok command m fuel deadline D :
  action command <> ManageBlacklistAction.ClearAll ->
  mhoare (ready_at D []) (run_mutation fuel (action command) m deadline) (told_truth command m D).
Proof.
  intros Ha. unfold run_mutation. eapply mhoare_bind; [apply applyWithRetry_ok|]. intros r. cbv beta.
  apply mhoare_ret. intros e (applies & [F H1 H2 H3] & H4). simpl in *.
  assert (plan command m = [mutation_writes keys m]) as Hp by (unfold plan; by destruct (action command)).
  assert (calls e = applies) as Hcalls by (by destruct H1 as [[]|[]]).
  assert (mb_keys (backend e) = keys) as Hk by (by destruct H1 as [[]|[]]).
  assert (forall f, exit_code f = 0 \/ exit_code f = 1 -> (exit_code f = 0 -> Exists accepted applies) ->
    told_truth command m D f e) as Hall.
  { intros f Hc H0. split; rewrite ?Hp, ?Hcalls; try done.
    - destruct H1 as [[_ H1 _]|[_ H1 _]]; [exists 0%nat|exists 1%nat]; simpl; by rewrite ?app_nil_r.
    - intros Hf. destruct (H2 (H0 Hf)) as [_ -> _]. simpl. by rewrite app_nil_r.
    - intros m' r'. by apply is_apply_only.
    - intros Hx. destruct (H2 Hx) as [_ -> _]. simpl. by rewrite app_nil_r.
    - intros Hx. destruct (H3 (conflicts_of _ _ F Hx)) as [_ -> _]. exists 0%nat. simpl. split; [lia|by rewrite app_nil_r]. }
  unfold ok_revision. case_bool_decide as Hs; [|apply Hall; simpl; auto; done].
  destruct (store_revision r); apply Hall; simpl; auto; [|done]. intros _. by apply H4.
Qed.

Definition no_apply (log : list ManageCall) : Prop := forall m r, MApply m r ∉ log.

Lemma readings_no_apply more : Forall is_reading more -> no_apply more.
Proof. intros F m r Hin. by apply (proj1 (Forall_forall _ _) F) in Hin. Qed.

Lemma no_apply_prefix log rest before m r after :
  no_apply log -> log ++ rest = before ++ MApply m r :: after -> exists more, before = log ++ more.
Proof.
  intros Hn E. apply app_eq_inv in E as [(k & -> & E)|(k & -> & _)]; [|by exists k].
  destruct k as [|c k]; [exists []; by rewrite !app_nil_r|]. injection E as <- E.
  exfalso. apply (Hn m r), elem_of_app. right. by left.
Qed.

Lemma accepted_inside log applies more :
  no_apply log -> Forall is_reading more -> Exists accepted (log ++ applies ++ more) -> Exists accepted applies.
Proof.
  intros Hn F. rewrite !Exists_app. intros [Hx|[Hx|Hx]]; [|done|];
    apply Exists_exists in Hx as (c & Hin & Hc); destruct c as [m r| | | |]; simpl in Hc; try done.
  - by destruct (Hn m r).
  - by apply (proj1 (Forall_forall _ _) F) in Hin.
Qed.

Lemma run_cleared_ok fuel m wait token deadline D log :
  mhoare (ready_at D log) (run_cleared fuel m wait token deadline) (fun f e => exists applies more,
    mb_keys (backend e) = keys /\ calls e = log ++ applies ++ more /\ Forall (is_apply m) applies /\ Forall is_reading more
    /\ (exit_code f = 0 \/ exit_code f = 1)
    /\ (mb_done (backend e) = D \/ mb_done (backend e) = D ++ mutation_writes keys m)
    /\ (Exists accepted applies -> mb_done (backend e) = D ++ mutation_writes keys m)
    /\ (Forall conflicted applies -> mb_done (backend e) = D)
    /\ (exit_code f = 0 -> Exists accepted applies /\ (wait = true -> converged_last (calls e)))).
Proof.
  unfold run_cleared. eapply mhoare_bind; [apply applyWithRetry_ok|]. intros r. cbv beta.
  unfold ok_revision. case_bool_decide as Hs; [destruct (store_revision r) as [revision|]|].
  2-3: apply mhoare_ret; intros e (applies & [F H1 H2 H3] & _); exists applies, []; rewrite app_nil_r;
    split_and!; [by destruct H1 as [[]|[]]|by destruct H1 as [[]|[]]|done|done|by right|destruct H1 as [[]|[]]; auto
                |intros Hx; apply (H2 Hx)|intros Hx; apply (H3 Hx)|done].
  assert (forall applies, Forall (is_apply m) applies -> Exists accepted applies -> Forall conflicted applies -> False) as Hno.
  { intros applies _ [c [Hin Hc]]%Exists_exists Hf. apply (proj1 (Forall_forall _ _) Hf) in Hin.
    destruct c; simpl in *; try done. congruence. }
  destruct wait; simpl.
  - intros e (applies & [F _ _ _] & H2). destruct (H2 Hs) as [Hx Hrd].
    eapply (mhoare_bind (ready_at (D ++ mutation_writes keys m) (log ++ applies))); [apply awaitConvergence_ok| |exact Hrd].
    intros waited. cbv beta. apply mhoare_ret. clear e H2 Hrd. intros e (more & F' & [H0 H1 H2] & _ & H3).
    exists applies, more. rewrite <-app_assoc in H2.
    destruct waited as [reason|[|]]; split_and!; try done; simpl; auto; try (intros; exfalso; by eapply Hno).
    intros _. split; [done|]. intros _. rewrite H2, app_assoc. by apply converged_last_app, H3.
  - apply mhoare_ret. intros e (applies & [F _ _ _] & H2). destruct (H2 Hs) as [Hx [_ [H0 H3 H4]]].
    exists applies, []. rewrite app_nil_r. split_and!; try done; simpl; auto. intros; exfalso; by eapply Hno.
Qed.

(** The clearing stopped before the mutation was sent. *)
Lemma stopped_before_apply command m D f e done log :
  action command = ManageBlacklistAction.ClearAll -> exit_code f = 1 -> at_ done log e -> no_apply log ->
  done = D \/ done = D ++ barrier_commands keys -> told_truth command m D f e.
Proof.
  intros Ha Hf [H0 H1 H2] Hn Hd. split; rewrite ?H1, ?H2; try (rewrite Hf; done); auto.
  - unfold plan. rewrite Ha. destruct Hd as [->| ->]; [exists 0%nat|exists 1%nat]; simpl; by rewrite ?app_nil_r.
  - intros m' r Hin. by destruct (Hn m' r).
  - intros ([m' r| | | |] & Hin & Hc)%Exists_exists; simpl in Hc; try done. by destruct (Hn m' r).
  - intros _. unfold plan. rewrite Ha. destruct Hd as [->| ->]; [exists 0%nat|exists 1%nat]; simpl;
      (split; [lia|by rewrite ?app_nil_r]).
  - intros _ before m' r after ->. destruct (Hn m' r). apply elem_of_app. right. by left.
Qed.

Lemma run_clear_ok command m fuel deadline D :
  action command = ManageBlacklistAction.ClearAll ->
  mhoare (ready_at D []) (run_clear fuel m (command_wait command) deadline) (told_truth command m D).
Proof.
  intros Ha. unfold run_clear. eapply mhoare_bind.
  { apply (at_call MRequest (m_requestResetBarrier deadline) store_status (barrier_commands keys)).
    intros b Hb <-. by apply law_request. }
  intros requested. cbv beta. simpl.
  assert (no_apply [MRequest requested]) as Hn1 by (by intros m' r ?%list_elem_of_singleton).
  assert (forall st, mhoare (wrote D (barrier_commands keys) st [MRequest requested])
            (mret (failed_with ("operation=CLEAR_ALL barrier=" +:+ statusName (reported requested))))
            (told_truth command m D)) as Hrefused.
  { intros st. apply mhoare_ret. intros e (Hw & _).
    destruct Hw as [Hw|Hw]; eapply stopped_before_apply; try done; eauto. }
  destruct (ok_revision requested) as [token|] eqn:Er; [|apply Hrefused].
  destruct (Z.eqb_spec token 0) as [->|Ht]; [apply Hrefused|].
  assert (store_status requested = StoreStatus.Ok) as Hs by (unfold ok_revision in Er; by case_bool_decide).
  intros e (_ & He & _). specialize (He Hs).
  eapply (mhoare_bind (ready_at (D ++ barrier_commands keys) [MRequest requested]));
    [apply (awaitBarrier_ok fuel token)| |exact He]. clear e He.
  assert (forall more : list ManageCall, Forall is_reading more -> no_apply ([MRequest requested] ++ more)) as Hn.
  { intros more F m' r [Hin|Hin]%elem_of_app; [by destruct (Hn1 m' r)|]. by destruct (readings_no_apply _ F m' r). }
  intros [status|[|]]; cbv beta.
  1,3: apply mhoare_ret; intros e (more & F & He & _); eapply stopped_before_apply; [done|done|exact He|by apply Hn|by right].
  intros e (more & F & He & Hr & Hack). specialize (Hr eq_refl). specialize (Hack eq_refl). specialize (Hn more F).
  pose proof (run_cleared_ok fuel m (command_wait command) token deadline _ _ e (conj Hr He)) as Hc.
  destruct (run_cleared _ _ _ _ _ e) as [e' [f|]]; [|done].
  destruct Hc as (applies & more' & C0 & C1 & C2 & C3 & C4 & C5 & C6 & C7 & C8). unfold plan in *. split; rewrite ?Ha; try done.
  - unfold plan. rewrite Ha. destruct C5 as [->| ->]; [exists 1%nat|exists 2%nat]; simpl; by rewrite <-?app_assoc, ?app_nil_r.
  - unfold plan. rewrite Ha. intros H0. destruct (C8 H0) as [Hx _]. rewrite (C6 Hx). simpl. by rewrite <-?app_assoc, ?app_nil_r.
  - intros m' r. rewrite C1. intros [Hin|[Hin|Hin]%elem_of_app]%elem_of_app.
    + by destruct (Hn m' r).
    + by eapply is_apply_only.
    + by destruct (readings_no_apply _ C3 m' r).
  - unfold plan. rewrite Ha, C1. intros Hx. rewrite C6; [simpl; by rewrite <-?app_assoc, ?app_nil_r|].
    by apply (accepted_inside _ _ more') in Hx.
  - unfold plan. rewrite Ha, C1. intros Hx. exists 1%nat. split; [simpl; lia|].
    rewrite C7; [simpl; by rewrite ?app_nil_r|]. apply (conflicts_of m); [done|]. intros r Hin. apply Hx. rewrite !elem_of_app. auto.
  - intros _ before m' r after E. rewrite C1 in E. destruct (no_apply_prefix _ _ _ _ _ _ Hn E) as (k & ->).
    exists requested, token. split_and!; [|done|done|].
    + apply elem_of_app. left. by left.
    + apply Exists_app. left. by right.
  - intros _ Hw H0. by apply C8.
Qed.

Lemma run_opened_ok command m started timeout D :
  command_mutation command = Some m ->
  mhoare (ready_at D []) (run_opened command started timeout) (fun f e => told_truth command m D f e).
Proof.
  intros Hm. unfold run_opened. rewrite Hm. eapply mhoare_bind; [apply at_now|]. intros t. case_if.
  - apply mhoare_ret. intros e [_ [H0 H1 H2]]. split; rewrite ?H1, ?H2; simpl; auto; try done.
    + exists 0%nat. simpl. by rewrite app_nil_r.
    + intros m' r Hin. by apply not_elem_of_nil in Hin.
    + by intros ?%Exists_nil.
    + intros _. exists 0%nat. split; [unfold plan; case_match; simpl; lia|]. simpl. by rewrite app_nil_r.
    + by intros _ [] m' r after.
  - destruct (action command) eqn:Ea; [..|by apply run_clear_ok];
      rewrite <-Ea; apply run_mutation_ok; by rewrite Ea.
Qed.
End Truth.

(** ** The loops end

    Every pass that is not the last one sleeps for 25 ms or up to the deadline. *)

Section Ends.
Context {B K : Type} `{!IManageBlacklistBackend B, !IManageBlacklistClock K, !ManageClockLaws K}.

Definition mends {A} (P : Env B K -> Prop) (m : Manage A) (Q : A -> Env B K -> Prop) : Prop :=
  forall e, P e -> exists e' a, m e = (e', Some a) /\ Q a e'.

Definition after (t : Z) (e : Env B K) : Prop := t <= clock_time (clock e).

Lemma mends_ret {A} (a : A) (P : Env B K -> Prop) (Q : A -> Env B K -> Prop) :
  (forall e, P e -> Q a e) -> mends P (mret a) Q.
Proof. intros HQ e HP. eexists _, _. split; [reflexivity|by apply HQ]. Qed.

Lemma mends_bind {A C} P (m : Manage A) (f : A -> Manage C) Q R :
  mends P m Q -> (forall a, mends (Q a) (f a) R) -> mends P (m ≫= f) R.
Proof.
  intros Hm Hf e HP. destruct (Hm e HP) as (e' & a & E & HQ). unfold mbind, manage_bind. rewrite E. by apply Hf.
Qed.

Lemma mends_pre {A} (P P' : Env B K -> Prop) (m : Manage A) Q : (forall e, P e -> P' e) -> mends P' m Q -> mends P m Q.
Proof. intros HP Hm e He. by apply Hm, HP. Qed.

Lemma mends_post {A} P (m : Manage A) (Q Q' : A -> Env B K -> Prop) :
  (forall a e, Q a e -> Q' a e) -> mends P m Q -> mends P m Q'.
Proof. intros HQ Hm e He. destruct (Hm e He) as (e' & a & E & Ha). eauto. Qed.

Lemma mends_now t : mends (after t) clock_now (fun t' e => t <= t' /\ clock_time (clock e) = t').
Proof.
  intros e He. unfold clock_now, after in *. destruct (law_now (clock e)) as [H1 H2]. destruct (now (clock e)) as [k t'].
  eexists _, _. split; [reflexivity|]. simpl in *. split; [lia|done].
Qed.

Lemma mends_call {A} (record : A -> ManageCall) m t : mends (after t) (call record m) (fun _ => after t).
Proof. intros e He. unfold call. destruct (m (backend e)). by eexists _, _. Qed.

Lemma mends_sleepForPoll deadline t :
  mends (after t) (sleepForPoll deadline)
    (fun awake e => after t e /\ (awake = true -> after (t + kPoll) e /\ clock_time (clock e) < deadline)).
Proof.
  unfold sleepForPoll. eapply mends_bind; [apply mends_now|]. intros t1.
  destruct (Z.leb_spec deadline t1). { apply mends_ret. unfold after. intros e [? ?]. split; [lia|done]. }
  eapply mends_bind with (Q := fun _ e => t <= t1 /\ after (Z.min deadline (t1 + kPoll)) e /\ after t e).
  { intros e [H1 H2]. eexists _, _. split; [reflexivity|]. unfold after. simpl.
    destruct (law_sleep (Z.min deadline (t1 + kPoll)) (clock e)). split_and!; lia. }
  intros _. apply mends_pre with (P' := fun e => t <= t1 /\ after (Z.max t (Z.min deadline (t1 + kPoll))) e).
  { unfold after. intros e (H1 & H2 & H3). split; [done|lia]. }
  intros e [Ht He]. revert e He.
  eapply (mends_bind (after (Z.max t (Z.min deadline (t1 + kPoll))))); [apply mends_now|]. intros t2.
  apply mends_ret. unfold after. intros e [H1 <-]. split; [lia|]. intros Hlt%Z.ltb_lt. unfold kPoll in *. lia.
Qed.

(** The end of a pass: the rest of the loop has fuel for the rest of the time. *)
Lemma mends_pass {A} (loop : Manage A) (a : A) deadline t (fuel : nat) :
  deadline - t < kPoll * Z.of_nat (S fuel) ->
  (forall t', (0 < fuel)%nat -> deadline - t' < kPoll * Z.of_nat fuel -> mends (after t') loop (fun _ => after t')) ->
  mends (after t) (awake ← sleepForPoll deadline; if (awake : bool) then loop else mret a) (fun _ => after t).
Proof.
  intros Hf Hloop. eapply mends_bind; [apply mends_sleepForPoll|]. intros [].
  - intros e [H1 H2]. destruct (H2 eq_refl) as [H3 H4]. unfold after in H3.
    destruct (Hloop (t + kPoll)) with (e := e) as (e' & r & E & He); [unfold kPoll in *; lia..|done|].
    exists e', r. split; [done|]. unfold after, kPoll in *. lia.
  - apply mends_ret. by intros e [? _].
Qed.

Lemma applyWithRetry_ends fuel m deadline t :
  (0 < fuel)%nat -> deadline - t < kPoll * Z.of_nat fuel ->
  mends (after t) (applyWithRetry fuel m deadline) (fun _ => after t).
Proof.
  revert t. induction fuel as [|fuel IH]; intros t H0 Hf; [lia|]. cbn [applyWithRetry].
  eapply mends_bind; [apply mends_now|]. intros t1. apply mends_pre with (P' := after t); [unfold after; intros e []; lia|].
  case_if; [by apply mends_ret|]. eapply mends_bind; [apply mends_call|]. intros r. case_if; [by apply mends_ret|].
  eapply mends_pass; [exact Hf|]. intros t'. apply IH.
Qed.

Lemma awaitBarrier_ends fuel token deadline t :
  (0 < fuel)%nat -> deadline - t < kPoll * Z.of_nat fuel ->
  mends (after t) (awaitBarrier fuel token deadline) (fun _ => after t).
Proof.
  revert t. induction fuel as [|fuel IH]; intros t H0 Hf; [lia|]. cbn [awaitBarrier].
  eapply mends_bind; [apply mends_now|]. intros t1. apply mends_pre with (P' := after t); [unfold after; intros e []; lia|].
  case_if; [by apply mends_ret|]. eapply mends_bind; [apply mends_call|]. intros r. case_if; [by apply mends_ret|].
  case_if; [by apply mends_ret|]. eapply mends_pass; [exact Hf|]. intros t'. apply IH.
Qed.

Lemma awaitConvergence_ends fuel deadline t :
  (0 < fuel)%nat -> deadline - t < kPoll * Z.of_nat fuel ->
  mends (after t) (awaitConvergence fuel deadline) (fun _ => after t).
Proof.
  revert t. induction fuel as [|fuel IH]; intros t H0 Hf; [lia|]. cbn [awaitConvergence].
  eapply mends_bind; [apply mends_now|]. intros t1. apply mends_pre with (P' := after t); [unfold after; intros e []; lia|].
  case_if; [by apply mends_ret|]. eapply mends_bind; [apply mends_call|]. intros r. case_if; [by apply mends_ret|].
  eapply mends_bind; [apply mends_call|]. intros c. case_if.
  { eapply mends_bind; [apply mends_now|]. intros t2. apply mends_ret. unfold after. intros e []. lia. }
  case_if; [by apply mends_ret|]. eapply mends_pass; [exact Hf|]. intros t'. apply IH.
Qed.

Lemma poll_fuel_enough started_at timeout :
  bounded_deadline started_at timeout - started_at
  < kPoll * Z.of_nat (poll_fuel (bounded_timeout started_at timeout)).
Proof. unfold bounded_deadline, poll_fuel, kPoll. set (n := bounded_timeout _ _). zlia. Qed.

Lemma run_opened_ends command started_at timeout :
  is_Some (command_mutation command) ->
  mends (after started_at) (run_opened command started_at timeout) (fun _ => after started_at).
Proof.
  intros [m Hm]. unfold run_opened. rewrite Hm. pose proof (poll_fuel_enough started_at timeout) as Hf.
  set (deadline := bounded_deadline _ _) in *. set (fuel := poll_fuel _) in *.
  assert (0 < fuel)%nat as H0 by (unfold fuel, poll_fuel; lia). clearbody deadline fuel.
  eapply mends_bind; [apply mends_now|]. intros t1. apply mends_pre with (P' := after started_at); [unfold after; intros e []; lia|].
  case_if; [by apply mends_ret|].
  assert (forall act, mends (after started_at) (run_mutation fuel act m deadline) (fun _ => after started_at)) as Hmut.
  { intros act. unfold run_mutation. eapply mends_bind; [by apply applyWithRetry_ends|]. intros r. by apply mends_ret. }
  destruct (action command); try apply Hmut.
  unfold run_clear. eapply mends_bind; [apply mends_call|]. intros requested.
  destruct (ok_revision requested) as [token|]; [|by apply mends_ret]. case_if; [by apply mends_ret|].
  eapply mends_bind; [by apply awaitBarrier_ends|]. intros [status|[|]]; try by apply mends_ret.
  unfold run_cleared. eapply mends_bind; [by apply applyWithRetry_ends|]. intros r.
  destruct (ok_revision r); [|by apply mends_ret]. case_if; [by apply mends_ret|].
  eapply mends_bind; [by apply awaitConvergence_ends|]. intros waited. by apply mends_ret.
Qed.
End Ends.

Section Returns.
Context `{Inet, !InetLaws} {B K : Type} `{!IManageBlacklistBackend B, !IManageBlacklistClock K, !ManageClockLaws K}.

Lemma run_returns arguments open (k : K) :
  exists f, (runManageBlacklistCommand (B := B) arguments open k).2 = Some f.
Proof.
  unfold runManageBlacklistCommand. destruct (parsed _) as [command|] eqn:Ep; [|eauto].
  destruct (accepts_parse _ _ Ep) as (_ & _ & m & Hm & _).
  destruct (law_now k) as [_ Hk]. destruct (now k) as [k' started]. simpl in Hk.
  destruct (opened_backend _) as [b|]; [|simpl; eauto]. case_if; [simpl; eauto|].
  destruct (run_opened_ends command started (opened_timeout (open command started)) ltac:(by rewrite Hm)
    (mkEnv b k' [])) as (e' & f & E & _); [unfold after; simpl; lia|]. rewrite E. simpl. eauto.
Qed.

(** C16. The tool ends.  With a clock that does not go back and sleeps as long as
    it was asked to, the command returns an exit code whatever the arguments,
    the dependencies and their answers are: every loop leaves at the deadline,
    which never lies past the range of the clock. *)
Theorem manage_terminates arguments open (k : K) :
  is_Some (runManageBlacklistCommand (B := B) arguments open k).2
  /\ forall started timeout, 0 <= started <= max_time -> 0 <= timeout ->
       started <= bounded_deadline started timeout <= max_time
       /\ bounded_deadline started timeout <= started + timeout * 1000000.
Proof.
  split; [destruct (run_returns arguments open k) as [f ->]; eauto|].
  intros started timeout Hs Ht. unfold bounded_deadline, bounded_timeout.
  pose proof (Z.quot_rem' (max_time - started) 1000000) as Hq.
  pose proof (Z.rem_bound_pos (max_time - started) 1000000 ltac:(lia) ltac:(lia)).
  assert (0 <= Z.quot (max_time - started) 1000000) by (apply Z.quot_pos; lia). split_and!; lia.
Qed.
End Returns.

(** ** The tool *)

Record ManageBlacklistBackend := mkManageBackend {
  manage_redis : RedisConnection;
  manage_keys : RedisKeySet;
  manage_mysql : option MysqlDao;
}.

Record SteadyClock := mkSteady { steady_time : Z; delays : list N }.

#[export] Instance steady_clock : IManageBlacklistClock SteadyClock := {
  now k := let t := steady_time k + from_option Z.of_N 0 (head (delays k)) in (mkSteady t (tail (delays k)), t);
  sleepUntil t k := k <| steady_time := Z.max t (steady_time k) |>;
}.

#[export] Program Instance steady_clock_laws : ManageClockLaws SteadyClock := { clock_time := steady_time }.
Next Obligation. intros k. simpl. destruct (head (delays k)); simpl; split; lia. Qed.
Next Obligation. intros t k. simpl. lia. Qed.

(** What the tool finds: the files, the connection hiredis opens, and the clock
    and the client of MySQL. *)
Record ToolWorld := mkTool {
  files : string -> option string;
  tool_redis : RedisOpening;
  tool_mysql : list Z * list MysqlAnswer;
}.

Section Tool.
Context `{Inet}.

Definition on_store {A} (m : RedisKeySet -> Redis A) (b : ManageBlacklistBackend) : ManageBlacklistBackend * A :=
  let '(c, a) := m (manage_keys b) (manage_redis b) in (b <| manage_redis := c |>, a).

Definition backend_count (deadline : Z) (b : ManageBlacklistBackend) : ManageBlacklistBackend * MysqlBlacklistCountResult :=
  match manage_mysql b with
  | None => (b, mkCountResult false (mkCounts 0 0 0))
  | Some dao =>
      let '(dao, counts) := countEnabledBlacklists deadline dao in
      (b <| manage_mysql := Some dao |>, mkCountResult (last_blacklist_count_succeeded dao) counts)
  end.

#[export] Instance tool_backend : IManageBlacklistBackend ManageBlacklistBackend := {
  applyMutation m deadline := on_store (fun keys => applyMutations keys deadline [m]);
  m_requestResetBarrier deadline := on_store (fun keys => requestResetBarrier keys deadline);
  m_readResetBarrier deadline := on_store (fun keys => readResetBarrier keys deadline);
  m_readResetConvergence deadline := on_store (fun keys => readResetConvergence keys deadline);
  m_countEnabledBlacklists := backend_count;
}.

Definition openFailure (timeout : Z) (error : string) : ManageBlacklistOpenResult ManageBlacklistBackend :=
  mkOpen None timeout error.

Definition openSuccess (b : ManageBlacklistBackend) (timeout : Z) : ManageBlacklistOpenResult ManageBlacklistBackend :=
  mkOpen (Some b) timeout "".

Definition open (w : ToolWorld) (command : ManageBlacklistCommand) (started_at : Z)
    : ManageBlacklistOpenResult ManageBlacklistBackend :=
  match loadAppConfig (files w (config_path command)) with
  | Throw what => openFailure 0 what
  | Ok app =>
      let config := handler app in
      let timeout := reset_timeout (blacklist_cache config) in
      let deadline := bounded_deadline started_at timeout in
      match RedisConnection.connect (redis config) deadline (now1 (tool_redis w)) (now2 (tool_redis w))
              (opened (tool_redis w)) with
      | None => openFailure timeout "Redis 连接或初始化失败"
      | Some connection =>
          let keys := fromPrefix (redis_key_prefix (redis config)) in
          if (bool_decide (action command = ManageBlacklistAction.ClearAll) && command_wait command)%bool then
            let '(dao, connected) :=
              MysqlDao.connect deadline (mkDao (mysql config) false false false (tool_mysql w).1 (tool_mysql w).2 [] 0) in
            if negb connected then openFailure timeout "MySQL 连接或 UTC 会话初始化失败"
            else openSuccess (mkManageBackend connection keys (Some dao)) timeout
          else openSuccess (mkManageBackend connection keys None) timeout
      end
  end.

Definition manage_main (w : ToolWorld) (argv : list string) (k : SteadyClock)
    : option (Env ManageBlacklistBackend SteadyClock) * option Finished :=
  runManageBlacklistCommand (tail argv) (open w) k.

(** ** The promises of the backend *)

Lemma kept_readResetConvergence keys deadline :
  triple live (readResetConvergence keys deadline) (fun r => kept (conv_status r)).
Proof.
  assert (forall name key, triple live (read_count deadline name key) (fun r => kept r.1)) as Hc
    by (intros; unfold read_count; solve_kept).
  assert (forall key, triple live (parseRevisionKey deadline key) (fun r => kept r.1)) as Hp
    by (intros; unfold parseRevisionKey; solve_kept).
  unfold readResetConvergence.
  do 4 (eapply triple_bind; [apply Hc|]; intros [? ?]; cbv beta zeta; cbn [fst]; apply kept_branch;
        [apply triple_ret; intros ? Hk; exact Hk|]).
  eapply triple_bind; [apply Hp|]. intros [? ?]. cbv beta zeta. cbn [fst]. apply kept_branch;
    [apply triple_ret; intros ? Hk; exact Hk|].
  eapply triple_bind; [apply Hp|]. intros [? ?]. apply triple_ret. intros ? Hk. exact Hk.
Qed.

Lemma operates_requestResetBarrier keys deadline :
  operates store_status (requestResetBarrier keys deadline) (fun r delta =>
    (delta = [] \/ delta = barrier_commands keys) /\ (store_status r = StoreStatus.Ok -> delta = barrier_commands keys)
    /\ store_status r <> StoreStatus.WatchConflict).
Proof.
  intros E c [Hr HE]. pose proof (ready_session c E Hr HE) as Hs.
  assert (triple live (requestResetBarrier keys deadline) (fun r => kept (store_status r))) as Hk
    by (unfold requestResetBarrier; solve_kept).
  specialize (Hk c (proj1 Hr)). revert Hk. unfold requestResetBarrier, mbind, redis_bind.
  assert (["HINCRBY"; reset_barrier keys; "requested"; "1"] <> ["EXEC"]) as Hne by done.
  pose proof (run_session deadline _ _ Hne c Hs) as Hx.
  destruct (run deadline _ c) as [c' r]. cbn [fst snd] in *. unfold mret, redis_ret. cbn [fst snd]. intros Hk.
  assert (exists delta, at_session (mkSession false None (E ++ delta)) c'
            /\ (delta = [] \/ delta = barrier_commands keys)
            /\ (cmd_status r = RedisCommandStatus.Ok -> delta = barrier_commands keys)) as (delta & [Hs' _] & Hd & Hok).
  { destruct Hx as [[_ H1]|[[H0 H1]|[(H0 & H1 & _)|(H0 & H1 & _)]]].
    - exists (barrier_commands keys). by split_and!; auto.
    - exists []. rewrite app_nil_r. split_and!; [done|by left|congruence].
    - exists []. rewrite app_nil_r. split_and!; [done|by left|congruence].
    - exists []. rewrite app_nil_r. split_and!; [done|by left|congruence]. }
  split; [intros Hst; split; [by apply Hk|by rewrite Hs']|]. exists delta. rewrite Hs'. split; [done|]. split; [done|].
  destruct (failed (commandStatus r)) eqn:Ef; simpl.
  - apply failed_true in Ef. split; [done|]. unfold commandStatus. by destruct (cmd_status r).
  - apply failed_false, commandStatus_ok in Ef. split; [auto|]. by repeat case_match.
Qed.

(** From what an operation does to the connection to what it does to the backend. *)
Lemma on_store_writes {A} (st : A -> StoreStatus.t) (m : RedisKeySet -> Redis A) R commands b :
  operates st (m (manage_keys b)) R ->
  (forall a delta, R a delta -> (delta = [] \/ delta = commands) /\ (st a = StoreStatus.Ok -> delta = commands)
     /\ (st a = StoreStatus.WatchConflict -> delta = [])) ->
  ready (manage_redis b) ->
  let '(b', a) := on_store m b in
  manage_keys b' = manage_keys b
  /\ (st a = StoreStatus.Ok \/ st a = StoreStatus.WatchConflict -> ready (manage_redis b'))
  /\ (executed (session_of (manage_redis b')) = executed (session_of (manage_redis b))
      \/ executed (session_of (manage_redis b')) = executed (session_of (manage_redis b)) ++ commands)
  /\ (st a = StoreStatus.Ok -> executed (session_of (manage_redis b')) = executed (session_of (manage_redis b)) ++ commands)
  /\ (st a = StoreStatus.WatchConflict -> executed (session_of (manage_redis b')) = executed (session_of (manage_redis b))).
Proof.
  intros Hop HR Hb. unfold on_store. destruct (Hop _ _ (conj Hb eq_refl)) as (H1 & delta & H2 & H3).
  destruct (m (manage_keys b) (manage_redis b)) as [c a]. simpl in *. destruct (HR _ _ H3) as (R1 & R2 & R3). rewrite H2.
  split_and!; [done| | | |].
  - intros Hs. apply H1. by destruct Hs as [->| ->].
  - destruct R1 as [->| ->]; [left; by rewrite app_nil_r|by right].
  - intros Hs. by rewrite R2.
  - intros Hs. by rewrite R3, app_nil_r.
Qed.

#[export] Program Instance tool_backend_laws : ManageBackendLaws ManageBlacklistBackend := {
  mb_ready b := ready (manage_redis b);
  mb_keys := manage_keys;
  mb_done b := executed (session_of (manage_redis b));
}.
Next Obligation.
  intros m dl b Hb. eapply on_store_writes; [|clear; simpl; intros a delta HR|exact Hb].
  - apply (operates_outcome store_status); [intros E; apply (applyMutations_spec _ _ E [m])|apply kept_applyMutations].
  - destruct HR as (R1 & R2 & R3). split_and!; [done|done|]. intros Hs. apply R3. by rewrite Hs.
Qed.
Next Obligation.
  intros dl b Hb. eapply on_store_writes; [apply operates_requestResetBarrier| |exact Hb].
  simpl. intros a delta (R1 & R2 & R3). by split_and!.
Qed.
Next Obligation.
  intros dl b Hb. eapply (on_store_writes reset_status); [apply operates_quiet; [apply quiet_readResetBarrier|apply kept_readResetBarrier]| |exact Hb].
  simpl. intros a delta ->. auto.
Qed.
Next Obligation.
  intros dl b Hb. eapply (on_store_writes conv_status); [apply operates_quiet; [apply quiet_readResetConvergence|apply kept_readResetConvergence]| |exact Hb].
  simpl. intros a delta ->. auto.
Qed.
Next Obligation.
  intros dl b Hb. simpl. unfold backend_count. destruct (manage_mysql b) as [dao|].
  - destruct (countEnabledBlacklists dl dao) as [dao' counts]. simpl. rewrite app_nil_r. auto 6.
  - rewrite app_nil_r. auto 6.
Qed.
End Tool.

Section Tool_theorem.
Context `{Inet, !InetLaws}.

Lemma open_ready w command started b :
  opened_backend (open w command started) = Some b ->
  ready (manage_redis b) /\ executed (session_of (manage_redis b)) = [].
Proof.
  unfold open. destruct (loadAppConfig _) as [app|]; [|done].
  destruct (RedisConnection.connect _ _ _ _ _) as [c|] eqn:Ec; [|done]. apply connect_fresh in Ec as [Hl Hs].
  assert (ready c /\ executed (session_of c) = []) as Hc by (unfold ready; by rewrite Hs).
  case_if; [|by intros [= <-]]. destruct (MysqlDao.connect _ _) as [dao []]; simpl; [by intros [= <-]|done].
Qed.

(** C15. The exit code of the tool and what Redis executed.  The tool always
    ends with an exit code.  Code 2 is given exactly for a usage error, and then
    nothing was opened.  In every other case the writes that Redis executed are
    a prefix of the plan of the command, so that nothing is applied twice
    however often a conflict is retried.  Code 0 means that the whole plan was
    executed.  Code 1 alone leaves the prefix open, but the answers do not: the
    mutation was executed if an attempt was answered [Ok], and it was not
    executed if no attempt was made or all were answered by a conflict; only
    another answer, such as a lost connection, leaves that open.  A list is
    cleared only after the maintenance acknowledged the barrier that was
    requested for it, and only on a command line with
    [--all --confirm benchmark-reset]; with [--wait] code 0 also means that the
    stores and the publication were last seen empty. *)
Theorem manage_tool_truthful w argv k :
  let '(env, finished) := manage_main w argv k in
  let p := parseManageBlacklistCommand (tail argv) in
  exists f, finished = Some f
  /\ (exit_code f = 2 <-> parsed p = None)
  /\ match env with
     | None => exit_code f = 1 \/ exit_code f = 2
     | Some e =>
         exists command m, parsed p = Some command /\ command_mutation command = Some m
         /\ told_truth (manage_keys (backend e)) command m [] f e
         /\ (action command = ManageBlacklistAction.ClearAll ->
             "--all" ∈ argv /\ exists before after, argv = before ++ "--confirm" :: "benchmark-reset" :: after)
     end.
Proof.
  destruct (run_returns (tail argv) (open w) k) as [f Hf]. unfold manage_main. revert Hf.
  unfold runManageBlacklistCommand. destruct (parsed _) as [command|] eqn:Ep.
  2: { simpl. intros [= <-]. eexists. split_and!; [done|done|by right]. }
  destruct (accepts_parse _ _ Ep) as (_ & _ & m & Hm & _). destruct (now k) as [k' started].
  destruct (opened_backend (open w command started)) as [b|] eqn:Eb.
  2: { simpl. intros [= <-]. eexists. split_and!; [done|done|by left]. }
  case_if; [simpl; intros [= <-]; eexists; split_and!; [done|done|by left]|].
  destruct (open_ready _ _ _ _ Eb) as [Hr Hd]. set (timeout := opened_timeout _).
  pose proof (run_opened_ok (manage_keys b) command m started timeout [] Hm (mkEnv b k' [])) as Hrun.
  specialize (Hrun ltac:(by split; [|split])).
  destruct (run_opened command started timeout _) as [e r]. simpl. intros ->. pose proof (tt_keys _ _ _ _ _ _ Hrun) as Hk. rename Hrun into Ht.
  exists f. split; [done|]. split; [destruct (tt_code _ _ _ _ _ _ Ht) as [-> | ->]; by split|].
  exists command, m. simpl in Hk. rewrite Hk. split_and!; [done|done|done|]. intros Ha.
  destruct (clear_confirmed _ _ Ep Ha) as (Hall & before & after & E). destruct argv as [|name argv]; simpl in *.
  { by apply not_elem_of_nil in Hall. }
  split; [by right|]. exists (name :: before), after. by rewrite E.
Qed.
End Tool_theorem.

(** ** A list that is cleared *)

Module ManageSample.
Definition status s := answer (text_reply REDIS_REPLY_STATUS s).
Definition bulk s := answer (text_reply REDIS_REPLY_STRING s).
Definition number n := mkReply REDIS_REPLY_INTEGER None 0 n [].
Definition array l := answer (mkReply REDIS_REPLY_ARRAY None 0 0 (Some <$> l)).
Definition nil_ := answer (mkReply REDIS_REPLY_NIL None 0 0 []).

Definition transaction (exec : HiredisAnswer) : list HiredisAnswer :=
  [ status "OK"; status "string"; bulk "1"; status "stream"; status "string"; status "hash"; status "hash"; status "hash";
    bulk "4"; status "OK"; status "QUEUED"; status "QUEUED"; status "QUEUED"; exec ].

(** The barrier is acknowledged at the second reading; the first transaction
    meets a conflict; then everything is empty. *)
Definition server : list HiredisAnswer :=
  [ answer (number 7);
    array [text_reply REDIS_REPLY_STRING "7"; text_reply REDIS_REPLY_STRING "6"];
    array [text_reply REDIS_REPLY_STRING "7"; text_reply REDIS_REPLY_STRING "7"] ]
  ++ transaction nil_
  ++ transaction (array [number 3; text_reply REDIS_REPLY_STRING "5-0"; number 5])
  ++ [ answer (number 0); answer (number 0); answer (number 0); answer (number 0); bulk "5"; bulk "5" ].

Definition ok := mkMysqlAnswer 0 (mkFetched [] 0 false false zero_time true false) [Some "0"; Some "0"; Some "0"].

Definition world : ToolWorld :=
  mkTool (fun _ => Some "") (mkOpening 0 0 (Some server)) (replicate 40 0, replicate 20 ok).

Definition argv : list string := ["manage_blacklist"; "clear"; "--all"; "--confirm"; "benchmark-reset"; "--wait"].

Definition clock : SteadyClock := mkSteady 0 (replicate 4 1%N).
End ManageSample.

#[local] Existing Instance ReferenceInet.inet.
#[local] Existing Instance ReferenceInet.inet_laws.

Abbreviation cleared := (manage_main ManageSample.world ManageSample.argv ManageSample.clock).

Example clear_waits :
  exists e f, cleared = (Some e, Some f) /\ exit_code f = 0
  /\ output f = "status=ok operation=CLEAR_ALL revision=5 barrier_token=7 converged=1" +:+ newline
  /\ length (calls e) = 7%nat /\ length (executed (session_of (manage_redis (backend e)))) = 4%nat.
Proof. vm_compute. do 2 eexists. split_and!; reflexivity. Qed.

Lemma manage_terminates_witness : is_Some cleared.2.
Proof.
  exact (proj1 (manage_terminates (B := ManageBlacklistBackend) (tail ManageSample.argv) (open ManageSample.world)
    ManageSample.clock)).
Defined.

Lemma manage_tool_truthful_witness :
  exists e f command m, cleared = (Some e, Some f) /\ exit_code f = 0
    /\ executed (session_of (manage_redis (backend e))) = mjoin (plan (manage_keys (backend e)) command m)
    /\ converged_last (calls e).
Proof.
  pose proof (manage_tool_truthful ManageSample.world ManageSample.argv ManageSample.clock) as Hm.
  assert (cleared = (cleared.1, cleared.2)) as E by (vm_compute; reflexivity).
  assert (exit_code (default (failed_with "") cleared.2) = 0) as H0 by (vm_compute; reflexivity).
  assert (is_Some cleared.1) as [e He] by (vm_compute; eauto).
  assert (option_map (fun c => (action c, command_wait c)) (parsed (parseManageBlacklistCommand (tail ManageSample.argv)))
    = Some (ManageBlacklistAction.ClearAll, true)) as Ha by (vm_compute; reflexivity).
  rewrite E in Hm. rewrite He in Hm. destruct Hm as (f & Hf & _ & command & m & Hp & Hm & Ht & _).
  rewrite Hf in H0. simpl in H0. rewrite Hp in Ha. simpl in Ha. injection Ha as Ha Hw.
  exists e, f, command, m. split; [rewrite E, He, Hf; reflexivity|]. split; [exact H0|]. split.
  - exact (tt_ok _ _ _ _ _ _ Ht H0).
  - exact (tt_wait _ _ _ _ _ _ Ht Ha Hw H0).
Defined.
