(* ===== verification/Logger.v ===== *)
(** * Logger: the asynchronous log file

    Model of [log/logger.{hpp,cpp}].  The methods are critical sections of
    [mutex_]; the worker thread is a program counter that stands between its
    sections.  What it does in between touches only the stream, the flags of the
    worker and an atomic counter, so it belongs to the section before.  The
    stream is the text that was put into it; the environment says after how many
    characters an insertion fails, and a stream that has failed ignores
    everything (its error bits are never cleared).  A thread id is its printed
    form.  [gmtime_r] does not fail for the times of a nanosecond clock. *)

From S2P Require Import Prelude Text Calendar Config.
Open Scope Z_scope.

Module LoggerState.
Inductive t := Constructed | Initialized | Running | Stopping | Stopped | Failed.
#[export] Instance eq_dec : EqDecision t.
Proof. solve_decision. Defined.
End LoggerState.
#[export] Existing Instance LoggerState.eq_dec.

Module LoggerStatus.
Inductive t :=
| Ok | InvalidConfig | ConfigConflict | InvalidState | FileOpenFailed | ThreadStartFailed | SelfJoin | JoinFailed.
End LoggerStatus.

Module LogSubmitStatus.
Inductive t := Accepted | Filtered | QueueFull | NotRunning | AllocationFailed.
End LogSubmitStatus.

#[export] Instance LogLevel_eq_dec : EqDecision LogLevel.
Proof. solve_decision. Defined.
#[export] Instance LoggerConfig_eq_dec : EqDecision LoggerConfig.
Proof. solve_decision. Defined.

Record LogRecord := mkRecord {
  timestamp : Z;           (* nanoseconds since 1970 *)
  level : LogLevel;
  thread_id : string;
  log_source : string;     (* [file] *)
  line : Z;
  message : string;
}.

(** The order of the enumerators. *)
Definition level_code (l : LogLevel) : Z :=
  match l with LogDebug => 0 | LogInfo => 1 | LogWarn => 2 | LogError => 3 end.

Definition levelName (l : LogLevel) : string :=
  match l with LogDebug => "DEBUG" | LogInfo => "INFO" | LogWarn => "WARN" | LogError => "ERROR" end.

(** ** Text *)

Definition two_digits (n : Z) : string := if n <? 10 then "0" +:+ to_string n else to_string n.
Definition three_digits (n : Z) : string := if n <? 100 then "0" +:+ two_digits n else to_string n.

(** [std::put_time] with ["%Y-%m-%dT%H:%M:%S"]. *)
Definition put_time (t : tm) : string :=
  to_string (tm_year t + 1900) +:+ "-" +:+ two_digits (tm_mon t + 1) +:+ "-" +:+ two_digits (tm_mday t) +:+ "T"
  +:+ two_digits (tm_hour t) +:+ ":" +:+ two_digits (tm_min t) +:+ ":" +:+ two_digits (tm_sec t).

Definition prefix (time : Z) (l : LogLevel) (thread file : string) (line_number : Z) : string :=
  let seconds := Z.quot time 1000000000 in
  let milliseconds := Z.quot (time - seconds * 1000000000) 1000000 in
  "[" +:+ put_time (gmtime seconds) +:+ "." +:+ three_digits milliseconds +:+ "Z]"
  +:+ "[" +:+ levelName l +:+ "]" +:+ "[thread=" +:+ thread +:+ "] " +:+ file +:+ ":" +:+ to_string line_number +:+ " ".

Inductive Line :=
| RecordLine (r : LogRecord)
| DroppedLine (time : Z) (thread : string) (count : Z).

Definition render (l : Line) : string :=
  match l with
  | RecordLine r => prefix (timestamp r) (level r) (thread_id r) (log_source r) (line r) +:+ message r +:+ newline
  | DroppedLine time thread count =>
      prefix time LogWarn thread "logger" 0 +:+ "dropped_count=" +:+ to_string count +:+ newline
  end.

(** ** The stream *)

Record Stream := mkStream { is_open : bool; bad : bool; text_ : string }.

(** All the insertions of one line; [fails_at] characters are taken before an
    error. *)
Definition insert_line (fails_at : option nat) (l : Line) (s : Stream) : Stream :=
  if bad s then s
  else
    match fails_at with
    | None => s <| text_ := text_ s +:+ render l |>
    | Some n => s <| text_ := text_ s +:+ String.substring 0 n (render l) |> <| bad := true |>
    end.

Definition stream_flush (ok : bool) (s : Stream) : Stream := if ok then s else s <| bad := true |>.
Definition stream_close (ok : bool) (s : Stream) : Stream :=
  let s := s <| is_open := false |> in if ok then s else s <| bad := true |>.

(** ** The state *)

(** Where the worker stands. *)
Inductive Worker :=
| WOff                                                          (* no thread *)
| WWait                                                         (* at the top of the loop *)
| WBatch (batch : list LogRecord) (stopping : bool)
| WSummary (r : LogRecord) (rest : list LogRecord) (stopping : bool)    (* [r] was written *)
| WReport (pending : Z) (r : LogRecord) (rest : list LogRecord) (stopping : bool)
| WRestore (pending : Z) (r : LogRecord) (rest : list LogRecord) (stopping : bool)
| WCheck
| WClosing
| WFinish.

Record Logger := mkLog {
  log_config : option LoggerConfig;
  log_queue : list LogRecord;
  joinable : bool;
  stream : Stream;
  minimum_level : LogLevel;
  log_state : LoggerState.t;
  accepted_count : Z;
  dropped_count : Z;
  io_error_count : Z;
  pending_dropped : Z;
  log_join_status : LoggerStatus.t;
  log_joining : bool;          (* [join_in_progress_] *)
  output_dirty : bool;
  io_error_reported : bool;
  complaints : Z;              (* lines written to [stderr] *)
  worker : Worker;
  next_flush : Z;
}.

Definition fresh_logger : Logger :=
  mkLog None [] false (mkStream false false "") LogInfo LoggerState.Constructed 0 0 0 0 LoggerStatus.Ok false false false 0
    WOff 0.

Definition log_init (config : LoggerConfig) (l : Logger) : Logger * LoggerStatus.t :=
  if negb (logger_validConfig config) then (l, LoggerStatus.InvalidConfig)
  else
    match log_config l with
    | Some c => (l, if bool_decide (c = config) then LoggerStatus.Ok else LoggerStatus.ConfigConflict)
    | None =>
        if negb (bool_decide (log_state l = LoggerState.Constructed)) then (l, LoggerStatus.InvalidState)
        else (l <| log_config := Some config |> <| minimum_level := log_level config |>
                <| log_state := LoggerState.Initialized |>, LoggerStatus.Ok)
    end.

(** What the system does in [start]: whether the directories could be created,
    the file opened and the thread started, and the first time the worker reads. *)
Record StartAnswers := mkStart { directories : bool; file_opened : bool; thread_started : bool; first_clock : Z }.

Definition log_start (a : StartAnswers) (l : Logger) : Logger * LoggerStatus.t :=
  if bool_decide (log_state l = LoggerState.Running) then (l, LoggerStatus.Ok)
  else
    match log_state l, log_config l with
    | LoggerState.Initialized, Some config =>
        if negb (directories a) then (l <| log_state := LoggerState.Failed |>, LoggerStatus.FileOpenFailed)
        else if negb (file_opened a) then (l <| log_state := LoggerState.Failed |>, LoggerStatus.FileOpenFailed)
        else
          let l := l <| stream := mkStream true false "" |> in
          if negb (thread_started a) then
            (l <| stream := stream_close true (stream l) |> <| log_state := LoggerState.Failed |>,
             LoggerStatus.ThreadStartFailed)
          else
            (l <| joinable := true |> <| worker := WWait |>
               <| next_flush := first_clock a + flush_interval config * 1000000 |> <| log_state := LoggerState.Running |>,
             LoggerStatus.Ok)
    | _, _ => (l, LoggerStatus.InvalidState)
    end.

Definition shouldLog (lv : LogLevel) (l : Logger) : bool :=
  bool_decide (log_state l = LoggerState.Running) && (level_code (minimum_level l) <=? level_code lv).

(** [log] before it takes the mutex: an answer, or it goes on. *)
Definition log_check (r : LogRecord) (l : Logger) : option LogSubmitStatus.t :=
  if negb (bool_decide (log_state l = LoggerState.Running)) then Some LogSubmitStatus.NotRunning
  else if level_code (level r) <? level_code (minimum_level l) then Some LogSubmitStatus.Filtered
  else None.

(** [log] under the mutex. *)
Definition log_submit (r : LogRecord) (l : Logger) : Logger * LogSubmitStatus.t :=
  if negb (bool_decide (log_state l = LoggerState.Running)) then (l, LogSubmitStatus.NotRunning)
  else if from_option log_queue_capacity 0 (log_config l) <=? size_of (log_queue l) then
    (l <| pending_dropped := pending_dropped l ⊕ 1 |> <| dropped_count := dropped_count l ⊕ 1 |>, LogSubmitStatus.QueueFull)
  else
    (l <| log_queue := log_queue l ++ [r] |> <| accepted_count := accepted_count l ⊕ 1 |>, LogSubmitStatus.Accepted).

Definition log (r : LogRecord) (l : Logger) : Logger * LogSubmitStatus.t :=
  match log_check r l with Some st => (l, st) | None => log_submit r l end.

Definition log_stop (l : Logger) : Logger :=
  match log_state l with
  | LoggerState.Initialized => l <| log_state := LoggerState.Stopped |>
  | LoggerState.Running => l <| log_state := LoggerState.Stopping |>
  | _ => l
  end.

Inductive LoggerJoin := LJoinReturned (st : LoggerStatus.t) | LJoinWaits | LJoinGoes.

(** [join] up to [worker.join()]; [self] says that the worker calls it. *)
Definition log_join (self : bool) (l : Logger) : Logger * LoggerJoin :=
  if self then (l, LJoinReturned LoggerStatus.SelfJoin)
  else
    match log_state l with
    | LoggerState.Constructed | LoggerState.Initialized | LoggerState.Running =>
        (l, LJoinReturned LoggerStatus.InvalidState)
    | _ =>
        if log_joining l then (l, LJoinWaits)
        else if negb (joinable l) then (l, LJoinReturned (log_join_status l))
        else (l <| log_joining := true |> <| joinable := false |>, LJoinGoes)
    end.

(** [join] after [worker.join()], which returns when the thread has ended. *)
Definition log_joined (ok : bool) (l : Logger) : Logger * LoggerStatus.t :=
  let result := if ok then LoggerStatus.Ok else LoggerStatus.JoinFailed in
  (l <| log_join_status := result |> <| log_joining := false |>, result).

(** ** The worker *)

(** What the system answers in one section of the worker: the steady clock, the
    wall clock and the thread id of a summary, where an insertion fails, and
    whether flushing and closing succeed. *)
Record WorkerInput := mkInput {
  steady : Z;
  wall : Z;
  self_id : string;
  fails_at : option nat;
  flush_ok : bool;
  close_ok : bool;
}.

Definition recordIoError (l : Logger) : Logger :=
  let l := l <| io_error_count := io_error_count l ⊕ 1 |> in
  if io_error_reported l then l else l <| io_error_reported := true |> <| complaints := complaints l + 1 |>.

(** [writeRecord] and [writeDroppedSummary] *)
Definition write_line (i : WorkerInput) (ln : Line) (l : Logger) : Logger * bool :=
  let l := l <| stream := insert_line (fails_at i) ln (stream l) |> in
  if bad (stream l) then (recordIoError l, false) else (l <| output_dirty := true |>, true).

Definition flushOutput (i : WorkerInput) (l : Logger) : Logger :=
  if negb (output_dirty l) then l
  else
    let l := l <| stream := stream_flush (flush_ok i) (stream l) |> <| output_dirty := false |> in
    if bad (stream l) then recordIoError l else l.

Definition interval (l : Logger) : Z := from_option flush_interval 0 (log_config l) * 1000000.

(** The end of one pass of the loop over the batch. *)
Definition after_record (i : WorkerInput) (r : LogRecord) (rest : list LogRecord) (stopping : bool) (l : Logger) : Logger :=
  let l := if bool_decide (level r = LogError)
           then (flushOutput i l) <| next_flush := steady i + interval l |> else l in
  l <| worker := WBatch rest stopping |>.

Definition take_batch (l : Logger) : Logger :=
  l <| worker := WBatch (log_queue l) (bool_decide (log_state l = LoggerState.Stopping)) |> <| log_queue := [] |>.

Definition after_batch (i : WorkerInput) (stopping : bool) (l : Logger) : Logger :=
  let l := if next_flush l <=? steady i
           then (flushOutput i l) <| next_flush := steady i + interval l |> else l in
  l <| worker := if stopping then WCheck else WWait |>.

(** [writePendingDroppedSummary], in its two sections. *)
Definition take_pending (i : WorkerInput) (r : LogRecord) (rest : list LogRecord) (stopping : bool) (l : Logger) : Logger :=
  let pending := pending_dropped l in
  let l := l <| pending_dropped := 0 |> in
  if pending =? 0 then after_record i r rest stopping l else l <| worker := WReport pending r rest stopping |>.

Definition restore_pending (i : WorkerInput) (pending : Z) (r : LogRecord) (rest : list LogRecord) (stopping : bool)
    (l : Logger) : Logger :=
  let l := l <| pending_dropped :=
    if (u64_max ⊖ pending_dropped l) <? pending then u64_max else pending_dropped l ⊕ pending |> in
  after_record i r rest stopping l.

Definition close_output (i : WorkerInput) (l : Logger) : Logger :=
  let l := flushOutput i l in
  let expected := negb (bad (stream l)) in
  let l := l <| stream := stream_close (close_ok i) (stream l) |> in
  let l := if (expected && bad (stream l))%bool then recordIoError l else l in
  l <| worker := WFinish |>.

(** The next section of [workerLoop], and the line that it wrote. *)
Definition worker_step (i : WorkerInput) (l : Logger) : Logger * option Line :=
  match worker l with
  | WOff => (l, None)
  | WWait => (take_batch l, None)
  | WBatch [] stopping => (after_batch i stopping l, None)
  | WBatch (r :: rest) stopping =>
      let '(l, ok) := write_line i (RecordLine r) l in
      if (ok : bool) then (l <| worker := WSummary r rest stopping |>, Some (RecordLine r))
      else (after_record i r rest stopping l, None)
  | WSummary r rest stopping => (take_pending i r rest stopping l, None)
  | WReport pending r rest stopping =>
      let ln := DroppedLine (wall i) (self_id i) pending in
      let '(l, ok) := write_line i ln l in
      if (ok : bool) then (after_record i r rest stopping l, Some ln)
      else (l <| worker := WRestore pending r rest stopping |>, None)
  | WRestore pending r rest stopping => (restore_pending i pending r rest stopping l, None)
  | WCheck => (l <| worker := match log_queue l with [] => WClosing | _ => WWait end |>, None)
  | WClosing => (close_output i l, None)
  | WFinish => (l <| log_state := LoggerState.Stopped |> <| worker := WOff |>, None)
  end.

(** ** Executions *)

(** The logger with the history of its run: the records accepted, those the
    worker has taken up, the lines written and the number of records dropped. *)
Record Run := mkRun {
  lg : Logger;
  h_accepted : list LogRecord;
  h_handled : list LogRecord;
  h_lines : list Line;
  h_dropped : Z;
}.

Inductive LoggerOp :=
| OpInit (config : LoggerConfig)
| OpStart (a : StartAnswers)
| OpLog (r : LogRecord)
| OpSubmit (r : LogRecord)    (* a caller of [log] whose check was earlier *)
| OpStop
| OpJoin (self : bool)
| OpJoined (ok : bool)
| OpWorker (i : WorkerInput).

Definition submitted (r : LogRecord) (R : Run) (out : Logger * LogSubmitStatus.t) : Run :=
  match out.2 with
  | LogSubmitStatus.Accepted => R <| lg := out.1 |> <| h_accepted := h_accepted R ++ [r] |>
  | LogSubmitStatus.QueueFull => R <| lg := out.1 |> <| h_dropped := h_dropped R + 1 |>
  | _ => R <| lg := out.1 |>
  end.

Definition taken_up (w : Worker) : list LogRecord := match w with WBatch (r :: _) _ => [r] | _ => [] end.

Definition run_worker (R : Run) (i : WorkerInput) : Run :=
  let '(l, ln) := worker_step i (lg R) in
  R <| lg := l |> <| h_handled := h_handled R ++ taken_up (worker (lg R)) |> <| h_lines := h_lines R ++ option_list ln |>.

Definition run_op (R : Run) (op : LoggerOp) : Run :=
  match op with
  | OpInit config => R <| lg := (log_init config (lg R)).1 |>
  | OpStart a => R <| lg := (log_start a (lg R)).1 |>
  | OpLog r => submitted r R (log r (lg R))
  | OpSubmit r =>
      if level_code (level r) <? level_code (minimum_level (lg R)) then R else submitted r R (log_submit r (lg R))
  | OpStop => R <| lg := log_stop (lg R) |>
  | OpJoin self => R <| lg := (log_join self (lg R)).1 |>
  | OpJoined ok => match worker (lg R), log_joining (lg R) with
                   | WOff, true => R <| lg := (log_joined ok (lg R)).1 |>
                   | _, _ => R
                   end
  | OpWorker i => run_worker R i
  end.

Definition start_run : Run := mkRun fresh_logger [] [] [] 0.

(** ** The invariant *)

Definition batch_of (w : Worker) : list LogRecord :=
  match w with
  | WBatch batch _ => batch
  | WSummary _ rest _ | WReport _ _ rest _ | WRestore _ _ rest _ => rest
  | _ => []
  end.

Definition stopping_of (w : Worker) : bool :=
  match w with
  | WBatch _ s | WSummary _ _ s | WReport _ _ _ s | WRestore _ _ _ s => s
  | WCheck | WClosing | WFinish => true
  | WOff | WWait => false
  end.

Definition underway (w : Worker) : Z := match w with WReport p _ _ _ | WRestore p _ _ _ => p | _ => 0 end.

(** The worker will look at [pending_dropped_] before it takes another batch. *)
Definition due (w : Worker) : Prop := match w with WBatch (_ :: _) _ | WSummary _ _ _ => True | _ => False end.

Definition record_of (l : Line) : option LogRecord := match l with RecordLine r => Some r | _ => None end.
Definition count_of (l : Line) : Z := match l with DroppedLine _ _ n => n | _ => 0 end.
Definition text_of (lines : list Line) : string := foldr (fun l t => render l +:+ t) "" lines.
Definition reported (lines : list Line) : Z := zsum (count_of <$> lines).

Definition io_ok (l : Logger) : Prop :=
  io_error_reported l = bad (stream l) /\ complaints l = if bad (stream l) then 1 else 0.

Record idle (R : Run) : Prop := {
  idle_worker : worker (lg R) = WOff;
  idle_history : h_accepted R = [] /\ h_handled R = [] /\ h_lines R = [] /\ h_dropped R = 0;
  idle_queue : log_queue (lg R) = [] /\ pending_dropped (lg R) = 0;
  idle_stream : bad (stream (lg R)) = false /\ text_ (stream (lg R)) = "";
}.

Definition stands (R : Run) : Prop :=
  match log_state (lg R) with
  | LoggerState.Constructed => idle R /\ log_config (lg R) = None
  | LoggerState.Initialized => idle R /\ is_Some (log_config (lg R))
  | LoggerState.Failed => idle R
  | LoggerState.Running => worker (lg R) <> WOff /\ stopping_of (worker (lg R)) = false /\ is_Some (log_config (lg R))
  | LoggerState.Stopping => worker (lg R) <> WOff /\ (stopping_of (worker (lg R)) = true -> log_queue (lg R) = [])
  | LoggerState.Stopped => worker (lg R) = WOff /\ log_queue (lg R) = []
  end.

Record inv (R : Run) : Prop := {
  v_stands : stands R;
  v_order : h_accepted R = h_handled R ++ batch_of (worker (lg R)) ++ log_queue (lg R);
  v_text : exists partial, text_ (stream (lg R)) = text_of (h_lines R) +:+ partial
             /\ (bad (stream (lg R)) = false -> partial = "");
  v_lines : omap record_of (h_lines R) `prefix_of` h_handled R
            /\ (bad (stream (lg R)) = false -> omap record_of (h_lines R) = h_handled R);
  v_counts : 0 <= reported (h_lines R) /\ 0 <= underway (worker (lg R)) /\ 0 <= pending_dropped (lg R) /\ 0 <= h_dropped R;
  v_drops : h_dropped R < two64 ->
            reported (h_lines R) + underway (worker (lg R)) + pending_dropped (lg R) = h_dropped R;
  v_due : bad (stream (lg R)) = false -> 0 < pending_dropped (lg R) -> log_queue (lg R) <> [] \/ due (worker (lg R));
  v_capacity : forall c, log_config (lg R) = Some c ->
                 0 < log_queue_capacity c /\ size_of (log_queue (lg R)) <= log_queue_capacity c;
  v_restore : match worker (lg R) with WRestore _ _ _ _ => bad (stream (lg R)) = true | _ => True end;
  v_io : io_ok (lg R);
  v_thread : worker (lg R) <> WOff -> joinable (lg R) = true \/ log_joining (lg R) = true;
  v_level : Forall (fun r => level_code (minimum_level (lg R)) <= level_code (level r)) (h_accepted R);
}.

(** ** What the sections do to the stream *)

Lemma string_app_nil_r (s : string) : s +:+ "" = s.
Proof. induction s as [|c s IH]; [done|]. apply (f_equal (String.String c) IH). Qed.

Lemma string_app_assoc (s t u : string) : s +:+ (t +:+ u) = (s +:+ t) +:+ u.
Proof. induction s as [|c s IH]; [done|]. apply (f_equal (String.String c) IH). Qed.

Lemma text_of_snoc lines l : text_of (lines ++ [l]) = text_of lines +:+ render l.
Proof.
  unfold text_of. induction lines as [|x lines IH]; cbn [foldr app]; [by rewrite string_app_nil_r|].
  by rewrite IH, string_app_assoc.
Qed.

Definition with_io (s : Stream) (d : bool) (n : Z) (nf : Z) (l : Logger) : Logger :=
  l <| stream := s |> <| output_dirty := d |> <| io_error_count := n |> <| io_error_reported := bad s |>
    <| complaints := if bad s then 1 else 0 |> <| next_flush := nf |>.

Lemma with_io_self l : io_ok l -> l = with_io (stream l) (output_dirty l) (io_error_count l) (next_flush l) l.
Proof. unfold io_ok, with_io. destruct l. simpl. by intros [-> ->]. Qed.

(** Nothing more was put into the stream, and errors stay. *)
Definition same_text (s s' : Stream) : Prop := text_ s' = text_ s /\ (bad s' = false -> bad s = false).

Lemma recordIoError_io s d l :
  io_ok l -> bad s = true -> exists n, recordIoError (l <| stream := s |> <| output_dirty := d |>) = with_io s d n (next_flush l) l.
Proof.
  intros [H1 H2] Hs. exists (io_error_count l ⊕ 1). unfold recordIoError, with_io. destruct l as [? ? ? st]. simpl in *. subst.
  rewrite Hs. by destruct (bad st).
Qed.

Lemma flushOutput_io i l :
  io_ok l -> exists s d n, flushOutput i l = with_io s d n (next_flush l) l /\ same_text (stream l) s.
Proof.
  intros Hl. unfold flushOutput. destruct (output_dirty l) eqn:Ed; simpl.
  - assert (same_text (stream l) (stream_flush (flush_ok i) (stream l))) as Hst by (by destruct (flush_ok i)).
    destruct (bad (stream_flush _ _)) eqn:Eb.
    + destruct (recordIoError_io (stream_flush (flush_ok i) (stream l)) false l Hl Eb) as [n E]. eauto.
    + exists (stream_flush (flush_ok i) (stream l)), false, (io_error_count l). split; [|done].
      destruct Hst as [_ Hb]. specialize (Hb Eb). unfold with_io. rewrite Eb. destruct Hl as [H1 H2].
      rewrite Hb in H1, H2. destruct l. simpl in *. by subst.
  - exists (stream l), (output_dirty l), (io_error_count l). split; [by apply with_io_self|done].
Qed.

Lemma after_record_io i r rest stopping l :
  io_ok l -> exists s d n nf, after_record i r rest stopping l = (with_io s d n nf l) <| worker := WBatch rest stopping |>
                              /\ same_text (stream l) s.
Proof.
  intros Hl. unfold after_record. case_bool_decide.
  - destruct (flushOutput_io i l Hl) as (s & d & n & -> & Hs). exists s, d, n. eexists. by split; [|exact Hs].
  - exists (stream l), (output_dirty l), (io_error_count l), (next_flush l). split; [by rewrite <-with_io_self|done].
Qed.

Lemma after_batch_io i stopping l :
  io_ok l -> exists s d n nf, after_batch i stopping l = (with_io s d n nf l) <| worker := if stopping then WCheck else WWait |>
                              /\ same_text (stream l) s.
Proof.
  intros Hl. unfold after_batch. destruct (next_flush l <=? steady i).
  - destruct (flushOutput_io i l Hl) as (s & d & n & -> & Hs). exists s, d, n. eexists. split; [|exact Hs]. done.
  - exists (stream l), (output_dirty l), (io_error_count l), (next_flush l). split; [by rewrite <-with_io_self|done].
Qed.

(** A line was written, or the stream has failed within it or before. *)
Lemma write_line_io i ln l :
  io_ok l -> exists s d n ok, write_line i ln l = (with_io s d n (next_flush l) l, ok)
    /\ (ok = true -> bad (stream l) = false /\ bad s = false /\ text_ s = text_ (stream l) +:+ render ln)
    /\ (ok = false -> bad s = true /\ exists partial, text_ s = text_ (stream l) +:+ partial).
Proof.
  intros Hl. unfold write_line. set (s := insert_line (fails_at i) ln (stream l)).
  assert ((bad s = false -> bad (stream l) = false /\ text_ s = text_ (stream l) +:+ render ln)
          /\ exists partial, text_ s = text_ (stream l) +:+ partial) as [Hgood Hpart].
  { unfold s, insert_line. destruct (bad (stream l)) eqn:Eb; [split; [congruence|exists ""; by rewrite string_app_nil_r]|].
    destruct (fails_at i); simpl; (split; [done|eauto]). }
  simpl. destruct (bad s) eqn:Es.
  - destruct (recordIoError_io s (output_dirty l) l Hl Es) as [n E].
    exists s, (output_dirty l), n, false. split; [rewrite <-E; by destruct l|done].
  - destruct (Hgood eq_refl) as [Hb Ht]. exists s, true, (io_error_count l), true. split; [|done].
    f_equal. unfold with_io. rewrite Es. destruct Hl as [H1 H2]. rewrite Hb in H1, H2. destruct l. simpl in *. by subst.
Qed.

Lemma close_output_io i l :
  io_ok l -> exists s d n, close_output i l = (with_io s d n (next_flush l) l) <| worker := WFinish |>
                           /\ same_text (stream l) s.
Proof.
  intros Hl. unfold close_output. destruct (flushOutput_io i l Hl) as (s & d & n & -> & Hs1 & Hs2). simpl.
  destruct (bad s) eqn:Eb; simpl.
  - set (s' := stream_close (close_ok i) s). assert (bad s' = true) as Hb' by (unfold s', stream_close; by case_match).
    exists s', d, n. split.
    + unfold with_io. rewrite Hb', Eb. by destruct l.
    + split; [unfold s', stream_close; by case_match|congruence].
  - destruct (close_ok i); simpl; rewrite ?Eb; simpl.
    + exists (s <| is_open := false |>), d, n. split; [|split; [exact Hs1|intros _; exact (Hs2 eq_refl)]].
      unfold with_io. simpl. rewrite Eb. by destruct l.
    + exists (s <| is_open := false |> <| bad := true |>), d, (n ⊕ 1). split; [|split; [exact Hs1|done]].
      unfold recordIoError, with_io. simpl. rewrite Eb. by destruct l.
Qed.

(** ** The invariant holds *)

(** What no section of the worker changes before the last one. *)
Record frame (R R' : Run) : Prop := {
  f_config : log_config (lg R') = log_config (lg R);
  f_state : log_state (lg R') = log_state (lg R);
  f_level : minimum_level (lg R') = minimum_level (lg R);
  f_thread : joinable (lg R') = joinable (lg R) /\ log_joining (lg R') = log_joining (lg R);
  f_io : io_ok (lg R');
  f_history : h_accepted R' = h_accepted R /\ h_dropped R' = h_dropped R;
}.

(** The rest of the invariant, which a section must establish. *)
Record progress (R R' : Run) : Prop := {
  p_on : worker (lg R') <> WOff;
  p_stopping : stopping_of (worker (lg R')) = true ->
               log_state (lg R) = LoggerState.Stopping /\ log_queue (lg R') = [];
  p_order : h_handled R' ++ batch_of (worker (lg R')) ++ log_queue (lg R')
            = h_handled R ++ batch_of (worker (lg R)) ++ log_queue (lg R);
  p_queue : size_of (log_queue (lg R')) <= size_of (log_queue (lg R));
  p_text : exists partial, text_ (stream (lg R')) = text_of (h_lines R') +:+ partial
             /\ (bad (stream (lg R')) = false -> partial = "");
  p_lines : omap record_of (h_lines R') `prefix_of` h_handled R'
            /\ (bad (stream (lg R')) = false -> omap record_of (h_lines R') = h_handled R');
  p_counts : 0 <= reported (h_lines R') /\ 0 <= underway (worker (lg R')) /\ 0 <= pending_dropped (lg R');
  p_drops : h_dropped R < two64 ->
            reported (h_lines R') + underway (worker (lg R')) + pending_dropped (lg R')
            = reported (h_lines R) + underway (worker (lg R)) + pending_dropped (lg R);
  p_due : bad (stream (lg R')) = false -> 0 < pending_dropped (lg R') -> log_queue (lg R') <> [] \/ due (worker (lg R'));
  p_restore : match worker (lg R') with WRestore _ _ _ _ => bad (stream (lg R')) = true | _ => True end;
}.

Definition active (R : Run) : Prop := log_state (lg R) = LoggerState.Running \/ log_state (lg R) = LoggerState.Stopping.

Lemma inv_progress R R' : inv R -> active R -> frame R R' -> progress R R' -> inv R'.
Proof.
  intros [V1 V2 V3 V4 V5 V6 V7 V8 V9 V10 V11 V12] Ha [F1 F2 F3 [F4 F4'] F5 [F6 F6']] [].
  split; try done; rewrite ?F6, ?F6', ?F1, ?F3.
  - unfold stands in *. rewrite F2. destruct Ha as [Ha|Ha]; rewrite Ha in *.
    + destruct V1 as (_ & _ & Hc). rewrite F1. split_and!; [done| |done].
      destruct (stopping_of (worker (lg R'))) eqn:E; [|done]. by destruct (p_stopping0 eq_refl).
    + split; [done|]. intros Hs. by apply p_stopping0.
  - by rewrite p_order0.
  - tauto.
  - intros Hd. rewrite p_drops0 by done. auto.
  - intros c Hc. destruct (V8 c Hc). lia.
  - rewrite F4, F4'. intros _. apply V11. unfold stands in V1. by destruct Ha as [Ha|Ha]; rewrite Ha in V1; destruct V1.
  - done.
Qed.

Lemma worker_on R : inv R -> worker (lg R) <> WOff -> active R.
Proof.
  intros [V1 _ _ _ _ _ _ _ _ _ _ _] Hw. unfold active. unfold stands in V1.
  destruct (log_state (lg R)); auto; try (by destruct V1); destruct V1 as [[] _] || destruct V1 as []; done.
Qed.

Lemma stopping_queue R :
  inv R -> stopping_of (worker (lg R)) = true -> log_state (lg R) = LoggerState.Stopping /\ log_queue (lg R) = [].
Proof.
  intros V Hs. assert (active R) as Ha by (apply worker_on; [done|]; by destruct (worker (lg R))).
  destruct V as [V1 _ _ _ _ _ _ _ _ _ _ _]. unfold stands in V1. destruct Ha as [Ha|Ha]; rewrite Ha in V1; [|split; [done|tauto]].
  destruct V1 as (_ & ? & _). congruence.
Qed.

Lemma run_worker_lg R i l' ln :
  worker_step i (lg R) = (l', ln) ->
  run_worker R i = mkRun l' (h_accepted R) (h_handled R ++ taken_up (worker (lg R))) (h_lines R ++ option_list ln) (h_dropped R).
Proof. unfold run_worker. intros ->. by destruct R. Qed.

(** No line was written and no record taken up. *)
Lemma text_kept R s :
  inv R -> same_text (stream (lg R)) s ->
  (exists partial, text_ s = text_of (h_lines R) +:+ partial /\ (bad s = false -> partial = ""))
  /\ omap record_of (h_lines R) `prefix_of` h_handled R
  /\ (bad s = false -> omap record_of (h_lines R) = h_handled R).
Proof.
  intros V [Ht Hb]. destruct V as [_ _ (partial & Hp & Hp') [Hl Hl'] _ _ _ _ _ _ _ _]. rewrite Ht.
  split_and!; [exists partial; auto|done|auto].
Qed.

Ltac frame := split; simpl; try done; try (by split).

Lemma step_take R i : inv R -> worker (lg R) = WWait -> inv (run_worker R i).
Proof.
  intros V Ew. assert (active R) as Ha by (apply worker_on; [done|by rewrite Ew]).
  rewrite (run_worker_lg R i (take_batch (lg R)) None) by (unfold worker_step; by rewrite Ew).
  rewrite Ew. simpl. rewrite !app_nil_r. destruct (text_kept R (stream (lg R)) V ltac:(done)) as (T1 & T2 & T3).
  pose proof (v_counts _ V) as Hc. rewrite Ew in Hc. apply (inv_progress R); [done|done|frame; apply V|].
  split; simpl; rewrite ?Ew, ?app_nil_r; simpl; try done.
  - intros Hs%bool_decide_eq_true. done.
  - rewrite size_of_nil. apply size_of_nonneg.
  - tauto.
  - intros Hb Hp. pose proof (v_due _ V Hb Hp) as [Hq|Hd]; [|by rewrite Ew in Hd]. right. by destruct (log_queue (lg R)).
Qed.

Lemma step_end_batch R i stopping : inv R -> worker (lg R) = WBatch [] stopping -> inv (run_worker R i).
Proof.
  intros V Ew. assert (active R) as Ha by (apply worker_on; [done|by rewrite Ew]).
  destruct (after_batch_io i stopping (lg R) (v_io _ V)) as (s & d & n & nf & E & Hs).
  erewrite run_worker_lg by (unfold worker_step; rewrite Ew, E; reflexivity).
  rewrite Ew. simpl. rewrite !app_nil_r. destruct (text_kept R s V Hs) as (T1 & T2 & T3).
  pose proof (v_counts _ V) as Hc. rewrite Ew in Hc. apply (inv_progress R); [done|done|frame|].
  split; simpl; rewrite ?Ew; simpl; try done; try (by destruct stopping).
  - intros Hst. destruct stopping; [|done]. apply stopping_queue; [done|by rewrite Ew].
  - destruct stopping; simpl; tauto.
  - intros Hb Hp. destruct Hs as [_ Hs]. pose proof (v_due _ V (Hs Hb) Hp) as [Hq|Hd]; [by left|by rewrite Ew in Hd].
Qed.

Lemma reported_snoc lines ln : reported (lines ++ [ln]) = reported lines + count_of ln.
Proof. unfold reported. rewrite fmap_app, zsum_app. simpl. lia. Qed.

(** A record is taken up: written, or lost with the stream. *)
Lemma step_record R i r rest stopping : inv R -> worker (lg R) = WBatch (r :: rest) stopping -> inv (run_worker R i).
Proof.
  intros V Ew. assert (active R) as Ha by (apply worker_on; [done|by rewrite Ew]).
  destruct (write_line_io i (RecordLine r) (lg R) (v_io _ V)) as (s & d & n & ok & E & Hok & Hbad).
  pose proof (v_counts _ V) as Hc. rewrite Ew in Hc. simpl in Hc.
  destruct (v_text _ V) as (partial & Hp & Hp'). destruct (v_lines _ V) as [Hl Hl'].
  assert (stopping = true -> log_state (lg R) = LoggerState.Stopping /\ log_queue (lg R) = []) as Hstop.
  { intros ->. apply stopping_queue; [done|by rewrite Ew]. }
  destruct ok.
  - destruct (Hok eq_refl) as (B1 & B2 & B3).
    erewrite run_worker_lg by (unfold worker_step; rewrite Ew, E; reflexivity). rewrite Ew.
    apply (inv_progress R); [done|done|frame|].
    split; simpl; rewrite ?Ew; simpl; try done.
    + by rewrite <-app_assoc.
    + exists "". rewrite string_app_nil_r, text_of_snoc, B3, Hp, (Hp' B1), string_app_nil_r. done.
    + rewrite omap_app, (Hl' B1). simpl. done.
    + rewrite reported_snoc. simpl. lia.
    + rewrite reported_snoc. simpl. lia.
    + by right.
  - destruct (Hbad eq_refl) as (B1 & partial' & B2).
    destruct (after_record_io i r rest stopping (with_io s d n (next_flush (lg R)) (lg R))) as (s' & d' & n' & nf & E' & Hs1 & Hs2);
      [by split|]. simpl in Hs1, Hs2.
    assert (bad s' = true) as B3 by (destruct (bad s'); [done|]; by rewrite <-B1, Hs2).
    erewrite run_worker_lg by (unfold worker_step; rewrite Ew, E, E'; reflexivity). rewrite Ew. simpl. rewrite app_nil_r.
    apply (inv_progress R); [done|done|frame|].
    split; simpl; rewrite ?Ew, ?B3; simpl; try done.
    + by rewrite <-app_assoc.
    + exists (partial +:+ partial'). split; [|done]. rewrite Hs1, B2, Hp. by rewrite string_app_assoc.
    + split; [|done]. etransitivity; [exact Hl|]. by apply prefix_app_r.
    + lia.
Qed.

Lemma step_pending R i r rest stopping : inv R -> worker (lg R) = WSummary r rest stopping -> inv (run_worker R i).
Proof.
  intros V Ew. assert (active R) as Ha by (apply worker_on; [done|by rewrite Ew]).
  pose proof (v_counts _ V) as Hc. rewrite Ew in Hc. simpl in Hc.
  assert (stopping = true -> log_state (lg R) = LoggerState.Stopping /\ log_queue (lg R) = []) as Hstop.
  { intros ->. apply stopping_queue; [done|by rewrite Ew]. }
  destruct (Z.eqb_spec (pending_dropped (lg R)) 0) as [Hz|Hz].
  - destruct (after_record_io i r rest stopping ((lg R) <| pending_dropped := 0 |>)) as (s & d & n & nf & E & Hs); [apply V|].
    erewrite run_worker_lg by (unfold worker_step, take_pending; rewrite Ew, Hz, Z.eqb_refl, E; reflexivity).
    rewrite Ew. simpl. rewrite !app_nil_r. destruct (text_kept R s V Hs) as (T1 & T2 & T3).
    apply (inv_progress R); [done|done|frame|]. split; simpl; rewrite ?Ew; simpl; try done; try lia.
  - erewrite run_worker_lg by
      (unfold worker_step, take_pending; rewrite Ew, (proj2 (Z.eqb_neq _ _) Hz); reflexivity).
    rewrite Ew. simpl. rewrite !app_nil_r. destruct (text_kept R (stream (lg R)) V ltac:(done)) as (T1 & T2 & T3).
    apply (inv_progress R); [done|done|frame; apply V|]. split; simpl; rewrite ?Ew; simpl; try done; try lia.
Qed.

Lemma step_report R i p r rest stopping : inv R -> worker (lg R) = WReport p r rest stopping -> inv (run_worker R i).
Proof.
  intros V Ew. assert (active R) as Ha by (apply worker_on; [done|by rewrite Ew]).
  destruct (write_line_io i (DroppedLine (wall i) (self_id i) p) (lg R) (v_io _ V)) as (s & d & n & ok & E & Hok & Hbad).
  pose proof (v_counts _ V) as Hc. rewrite Ew in Hc. simpl in Hc.
  destruct (v_text _ V) as (partial & Hp & Hp'). destruct (v_lines _ V) as [Hl Hl'].
  assert (stopping = true -> log_state (lg R) = LoggerState.Stopping /\ log_queue (lg R) = []) as Hstop.
  { intros ->. apply stopping_queue; [done|by rewrite Ew]. }
  pose proof (v_due _ V) as Hdue. rewrite Ew in Hdue.
  destruct ok.
  - destruct (Hok eq_refl) as (B1 & B2 & B3).
    destruct (after_record_io i r rest stopping (with_io s d n (next_flush (lg R)) (lg R))) as (s' & d' & n' & nf & E' & Hs1 & Hs2);
      [by split|]. simpl in Hs1, Hs2.
    erewrite run_worker_lg by (unfold worker_step; rewrite Ew, E, E'; reflexivity). rewrite Ew. simpl.
    apply (inv_progress R); [done|done|frame|].
    split; simpl; rewrite ?Ew, ?app_nil_r, ?reported_snoc; simpl; try done; try lia.
    + exists "". by rewrite string_app_nil_r, text_of_snoc, Hs1, B3, Hp, (Hp' B1), string_app_nil_r.
    + rewrite omap_app, (Hl' B1). simpl. by rewrite app_nil_r.
    + intros _ Hpos. destruct (Hdue B1 Hpos) as [?|[]]. by left.
  - destruct (Hbad eq_refl) as (B1 & partial' & B2).
    erewrite run_worker_lg by (unfold worker_step; rewrite Ew, E; reflexivity). rewrite Ew. simpl. rewrite !app_nil_r.
    apply (inv_progress R); [done|done|frame|].
    split; simpl; rewrite ?Ew, ?B1; simpl; try done; try lia.
    exists (partial +:+ partial'). split; [|done]. by rewrite B2, Hp, string_app_assoc.
Qed.

(** Below 2^64 drops the count is put back exactly. *)
Lemma restored_exact p q : 0 <= p -> 0 <= q -> p + q < two64 ->
  (if (u64_max ⊖ q) <? p then u64_max else q ⊕ p) = q + p.
Proof.
  intros Hp Hq Hs. unfold u64_max. rewrite wrap64_small by (unfold is_u64; lia).
  destruct (Z.ltb_spec (two64 - 1 - q) p); [lia|]. by rewrite wrap64_small by (unfold is_u64; lia).
Qed.

Lemma restored_nonneg p q : 0 <= (if (u64_max ⊖ q) <? p then u64_max else q ⊕ p).
Proof. destruct (_ <? p); [unfold u64_max; lia|apply wrap64_range]. Qed.

Lemma step_restore R i p r rest stopping : inv R -> worker (lg R) = WRestore p r rest stopping -> inv (run_worker R i).
Proof.
  intros V Ew. assert (active R) as Ha by (apply worker_on; [done|by rewrite Ew]).
  pose proof (v_counts _ V) as Hc. rewrite Ew in Hc. simpl in Hc.
  pose proof (v_restore _ V) as Hb. rewrite Ew in Hb. pose proof (v_drops _ V) as Hd. rewrite Ew in Hd. simpl in Hd.
  assert (stopping = true -> log_state (lg R) = LoggerState.Stopping /\ log_queue (lg R) = []) as Hstop.
  { intros ->. apply stopping_queue; [done|by rewrite Ew]. }
  set (q := if (u64_max ⊖ pending_dropped (lg R)) <? p then u64_max else pending_dropped (lg R) ⊕ p).
  destruct (after_record_io i r rest stopping ((lg R) <| pending_dropped := q |>)) as (s & d & n & nf & E & Hs); [apply V|].
  simpl in Hs. destruct (text_kept R s V Hs) as (T1 & T2 & T3).
  assert (bad s = true) as B3 by (destruct (bad s) eqn:Es; [done|]; destruct Hs as [_ Hs]; by rewrite <-Hb, (Hs Es)).
  erewrite run_worker_lg by (unfold worker_step, restore_pending; rewrite Ew; fold q; rewrite E; reflexivity).
  rewrite Ew. simpl. rewrite !app_nil_r. apply (inv_progress R); [done|done|frame|].
  split; simpl; rewrite ?Ew, ?B3; simpl; try done.
  - destruct T1 as (partial & T1 & _). by exists partial.
  - split_and!; [tauto|done|apply restored_nonneg].
  - intros Hlt. unfold q. rewrite restored_exact by lia. lia.
Qed.

Lemma step_check R i : inv R -> worker (lg R) = WCheck -> inv (run_worker R i).
Proof.
  intros V Ew. assert (active R) as Ha by (apply worker_on; [done|by rewrite Ew]).
  destruct (stopping_queue R V) as [Hst Hq]; [by rewrite Ew|].
  erewrite run_worker_lg by (unfold worker_step; rewrite Ew, Hq; reflexivity).
  rewrite Ew. simpl. rewrite !app_nil_r. destruct (text_kept R (stream (lg R)) V ltac:(done)) as (T1 & T2 & T3).
  pose proof (v_counts _ V) as Hc. rewrite Ew in Hc. pose proof (v_due _ V) as Hd. rewrite Ew in Hd.
  apply (inv_progress R); [done|done|frame; apply V|]. split; simpl; rewrite ?Ew; simpl; try done; tauto.
Qed.

Lemma step_close R i : inv R -> worker (lg R) = WClosing -> inv (run_worker R i).
Proof.
  intros V Ew. assert (active R) as Ha by (apply worker_on; [done|by rewrite Ew]).
  destruct (stopping_queue R V) as [Hst Hq]; [by rewrite Ew|].
  destruct (close_output_io i (lg R) (v_io _ V)) as (s & d & n & E & Hs).
  erewrite run_worker_lg by (unfold worker_step; rewrite Ew, E; reflexivity).
  rewrite Ew. simpl. rewrite !app_nil_r. destruct (text_kept R s V Hs) as (T1 & T2 & T3).
  pose proof (v_counts _ V) as Hc. rewrite Ew in Hc. pose proof (v_due _ V) as Hd. rewrite Ew in Hd. destruct Hs as [_ Hs].
  apply (inv_progress R); [done|done|frame|]. split; simpl; rewrite ?Ew; simpl; try done; tauto.
Qed.

Lemma step_finish R i : inv R -> worker (lg R) = WFinish -> inv (run_worker R i).
Proof.
  intros V Ew. destruct (stopping_queue R V) as [Hst Hq]; [by rewrite Ew|].
  erewrite run_worker_lg by (unfold worker_step; rewrite Ew; reflexivity).
  rewrite Ew. simpl. rewrite !app_nil_r. destruct V as [V1 V2 V3 V4 V5 V6 V7 V8 V9 V10 V11 V12]. rewrite Ew in *.
  split; simpl; try done.
Qed.

Lemma inv_worker R i : inv R -> inv (run_worker R i).
Proof.
  intros V. destruct (worker (lg R)) as [| |[|r rest] stopping|r rest stopping|p r rest stopping|p r rest stopping| | |] eqn:Ew.
  - assert (run_worker R i = R) as ->; [|done].
    rewrite (run_worker_lg R i (lg R) None) by (unfold worker_step; by rewrite Ew). rewrite Ew. simpl. rewrite !app_nil_r. by destruct R.
  - by apply step_take.
  - by eapply step_end_batch.
  - by eapply step_record.
  - by eapply step_pending.
  - by eapply step_report.
  - by eapply step_restore.
  - by apply step_check.
  - by apply step_close.
  - by apply step_finish.
Qed.

(** ** The other threads *)

Lemma idle_inv R R' :
  inv R -> idle R -> idle R' ->
  io_ok (lg R') -> stands R' ->
  (forall c, log_config (lg R') = Some c -> 0 < log_queue_capacity c) -> inv R'.
Proof.
  intros V _ I Hio Hst Hcap. destruct I as [I1 (I2 & I3 & I4 & I5) (I6 & I7) (I8 & I9)].
  split; rewrite ?I1, ?I2, ?I3, ?I4, ?I5, ?I6, ?I7, ?I8, ?I9; simpl; try done; try lia.
  - by exists "".
  - intros c Hc. specialize (Hcap c Hc). unfold size_of. simpl. lia.
Qed.

Lemma inv_init R config : inv R -> inv (run_op R (OpInit config)).
Proof.
  intros V. simpl. unfold log_init. assert (R <| lg := lg R |> = R) as Hsame by (by destruct R).
  destruct (logger_validConfig config) eqn:Ev; simpl; [|by rewrite Hsame].
  destruct (log_config (lg R)) eqn:Ec; simpl; [by rewrite Hsame|]. case_bool_decide as Hst; simpl; [|by rewrite Hsame].
  pose proof (v_stands _ V) as Hs. unfold stands in Hs. rewrite Hst in Hs. destruct Hs as [I _].
  apply (idle_inv R); [done|done|by destruct I; split|by apply V| |].
  - simpl. split; [by destruct I; split|eauto].
  - simpl. intros c [= <-]. unfold logger_validConfig in Ev. rewrite !andb_true_iff, Z.ltb_lt in Ev. lia.
Qed.

Lemma inv_start R a : inv R -> inv (run_op R (OpStart a)).
Proof.
  intros V. simpl. unfold log_start. assert (R <| lg := lg R |> = R) as Hsame by (by destruct R).
  case_bool_decide as Hr; simpl; [by rewrite Hsame|]. destruct (log_state (lg R)) eqn:Hst; simpl; try by rewrite Hsame.
  destruct (log_config (lg R)) as [c|] eqn:Ec; simpl; [|by rewrite Hsame].
  pose proof (v_stands _ V) as Hs. unfold stands in Hs. rewrite Hst in Hs. destruct Hs as [I _].
  pose proof (v_io _ V) as [Hio1 Hio2]. pose proof (idle_stream _ I) as [Hb _]. rewrite Hb in Hio1, Hio2.
  pose proof (v_capacity _ V c Ec) as [Hcap _].
  assert (forall c', log_config (lg R) = Some c' -> 0 < log_queue_capacity c') as Hcaps by (intros c' Hc'; by destruct (v_capacity _ V c' Hc')).
  destruct (directories a); simpl; [|apply (idle_inv R); [done|done|by destruct I; split|apply V|by destruct I; split|exact Hcaps]].
  destruct (file_opened a); simpl; [|apply (idle_inv R); [done|done|by destruct I; split|apply V|by destruct I; split|exact Hcaps]].
  destruct (thread_started a); simpl.
  - destruct I as [I1 (I2 & I3 & I4 & I5) (I6 & I7) _].
    split; simpl; rewrite ?I2, ?I3, ?I4, ?I5, ?I6, ?I7; simpl; try done; try lia.
    + by exists "".
    + intros c' Hc'. specialize (Hcaps c' Hc'). unfold size_of. simpl. lia.
  - apply (idle_inv R); [done|done|by destruct I; split|by split|by destruct I; split|exact Hcaps].
Qed.

Lemma inv_submitted R r : 
  inv R -> level_code (minimum_level (lg R)) <= level_code (level r) -> inv (submitted r R (log_submit r (lg R))).
Proof.
  intros V Hlev. unfold log_submit. assert (R <| lg := lg R |> = R) as Hsame by (by destruct R).
  case_bool_decide as Hst; simpl; [|unfold submitted; simpl; by rewrite Hsame].
  pose proof (v_stands _ V) as Hs. unfold stands in Hs. rewrite Hst in Hs. destruct Hs as (Hw & Hstop & c & Hc).
  destruct (v_capacity _ V c Hc) as [Hcap Hsize]. rewrite Hc. simpl.
  pose proof (v_counts _ V) as Hn. pose proof (v_drops _ V) as Hd.
  destruct V as [V1 V2 V3 V4 V5 V6 V7 V8 V9 V10 V11 V12].
  destruct (Z.leb_spec (log_queue_capacity c) (size_of (log_queue (lg R)))) as [Hfull|Hroom]; unfold submitted; simpl.
  - split; simpl; try done.
    + unfold stands. simpl. rewrite Hst. eauto.
    + pose proof (wrap64_range (pending_dropped (lg R) + 1)) as Hx. unfold is_u64 in Hx. lia.
    + intros Hlt. specialize (Hd ltac:(lia)). rewrite wrap64_small by (unfold is_u64; lia). lia.
    + intros _ _. left. intros Hq. rewrite Hq in Hfull. unfold size_of in Hfull. simpl in Hfull. lia.
  - split; simpl; try done.
    + unfold stands. simpl. rewrite Hst. eauto.
    + rewrite V2. by rewrite <-!app_assoc.
    + intros _ _. left. by destruct (log_queue (lg R)).
    + intros c' Hc'. rewrite size_of_app. change (size_of [r]) with 1. replace c' with c by congruence. lia.
    + apply Forall_app. split; [done|by constructor].
Qed.

Lemma inv_stop R : inv R -> inv (run_op R OpStop).
Proof.
  intros V. simpl. unfold log_stop. assert (R <| lg := lg R |> = R) as Hsame by (by destruct R).
  destruct (log_state (lg R)) eqn:Hst; try by rewrite Hsame.
  - destruct V as [V1 V2 V3 V4 V5 V6 V7 V8 V9 V10 V11 V12]. unfold stands in V1. rewrite Hst in V1.
    destruct V1 as [[I1 _ [I2 _] _] _]. by split.
  - destruct V as [V1 V2 V3 V4 V5 V6 V7 V8 V9 V10 V11 V12]. unfold stands in V1. rewrite Hst in V1.
    destruct V1 as (Hw & Hs & _). split; try done. unfold stands. simpl. split; [done|congruence].
Qed.

Lemma inv_join R self : inv R -> inv (run_op R (OpJoin self)).
Proof.
  intros V. simpl. unfold log_join. assert (R <| lg := lg R |> = R) as Hsame by (by destruct R).
  destruct self; simpl; [by rewrite Hsame|].
  assert (inv (R <| lg := (if log_joining (lg R) then (lg R, LJoinWaits)
     else if negb (joinable (lg R)) then (lg R, LJoinReturned (log_join_status (lg R)))
     else ((lg R) <| log_joining := true |> <| joinable := false |>, LJoinGoes)).1 |>)) as Hgo.
  { destruct (log_joining (lg R)); simpl; [by rewrite Hsame|]. destruct (joinable (lg R)); simpl; [|by rewrite Hsame].
    destruct V as [V1 V2 V3 V4 V5 V6 V7 V8 V9 V10 V11 V12]. split; simpl; try done; try (by right).
    unfold stands in *. simpl. destruct (log_state (lg R));
      first [done | by destruct V1; split | destruct V1 as [I ?]; split; [by destruct I; split|done]]. }
  destruct (log_state (lg R)); simpl; first [by rewrite Hsame|exact Hgo].
Qed.

Lemma inv_joined R ok : inv R -> inv (run_op R (OpJoined ok)).
Proof.
  intros V. simpl. destruct (worker (lg R)) eqn:Ew; try done. destruct (log_joining (lg R)); [|done].
  destruct V as [V1 V2 V3 V4 V5 V6 V7 V8 V9 V10 V11 V12]. split; simpl; try done; try (by rewrite Ew).
  unfold stands in *. simpl. destruct (log_state (lg R));
    first [done | by destruct V1; split | destruct V1 as [I ?]; split; [by destruct I; split|done]].
Qed.

Lemma inv_run ops : inv (foldl run_op start_run ops).
Proof.
  assert (forall ops R, inv R -> inv (foldl run_op R ops)) as Hall.
  { clear. intros ops. induction ops as [|op ops IH]; intros R V; simpl; [done|]. apply IH. destruct op.
    - exact (inv_init R config V).
    - exact (inv_start R a V).
    - simpl. unfold log, log_check. case_bool_decide as Hst; simpl; [|destruct R; exact V].
      destruct (Z.ltb_spec (level_code (level r)) (level_code (minimum_level (lg R)))); [destruct R; exact V|].
      apply inv_submitted; [done|lia].
    - simpl. destruct (Z.ltb_spec (level_code (level r)) (level_code (minimum_level (lg R)))); [done|].
      apply inv_submitted; [done|lia].
    - exact (inv_stop R V).
    - exact (inv_join R self V).
    - exact (inv_joined R ok V).
    - exact (inv_worker R i V). }
  apply Hall. split; simpl; try done; try lia. by exists "".
Qed.

(** ** The worker ends *)

(** What the input and output of the worker leaves alone. *)
Record untouched (l l' : Logger) : Prop := {
  u_queue : log_queue l' = log_queue l;
  u_state : log_state l' = log_state l;
  u_counts : accepted_count l' = accepted_count l /\ dropped_count l' = dropped_count l;
}.

#[local] Instance untouched_preorder : PreOrder untouched.
Proof. split; [by intros l|]. intros l1 l2 l3 [? ? []] [? ? []]. split; [congruence..|]. split; congruence. Qed.

Lemma recordIoError_untouched l : untouched l (recordIoError l).
Proof. unfold recordIoError. by case_match. Qed.

Lemma write_line_untouched i ln l : untouched l (write_line i ln l).1.
Proof. unfold write_line. case_match; simpl; [|by split]. etransitivity; [|apply recordIoError_untouched]. by split. Qed.

Lemma flushOutput_untouched i l : untouched l (flushOutput i l).
Proof.
  unfold flushOutput. case_match; [done|]. case_match; [|by split].
  etransitivity; [|apply recordIoError_untouched]. by split.
Qed.

Lemma after_record_untouched i r rest stopping l : untouched l (after_record i r rest stopping l).
Proof.
  unfold after_record. case_match; [|by split]. destruct (flushOutput_untouched i l). by split.
Qed.

Lemma after_batch_untouched i stopping l : untouched l (after_batch i stopping l).
Proof.
  unfold after_batch. destruct (next_flush l <=? steady i); [|by split]. destruct (flushOutput_untouched i l). by split.
Qed.

Lemma close_output_untouched i l : untouched l (close_output i l).
Proof.
  unfold close_output. pose proof (flushOutput_untouched i l) as Hf. set (l1 := flushOutput i l) in *. clearbody l1.
  set (l2 := l1 <| stream := stream_close (close_ok i) (stream l1) |>).
  assert (untouched l l2) as H2 by (by destruct Hf; split). clearbody l2.
  case_match; [|by destruct H2; split]. pose proof (recordIoError_untouched l2) as H3.
  assert (untouched l (recordIoError l2)) as H4 by (by etransitivity). by destruct H4; split.
Qed.

Definition steps_left (w : Worker) (queued : nat) : nat :=
  match w with
  | WOff => 0
  | WWait => 5 + 4 * queued
  | WBatch batch stopping => 4 * length batch + if stopping then 4 else 6 + 4 * queued
  | WSummary _ rest stopping => 3 + (4 * length rest + if stopping then 4 else 6 + 4 * queued)
  | WReport _ _ rest stopping => 2 + (4 * length rest + if stopping then 4 else 6 + 4 * queued)
  | WRestore _ _ rest stopping => 1 + (4 * length rest + if stopping then 4 else 6 + 4 * queued)
  | WCheck => 3
  | WClosing => 2
  | WFinish => 1
  end.

Definition left_of (R : Run) : nat := steps_left (worker (lg R)) (length (log_queue (lg R))).

Lemma after_record_worker i r rest stopping l : worker (after_record i r rest stopping l) = WBatch rest stopping.
Proof. done. Qed.

#[local] Opaque after_record.

Lemma step_decreases R i :
  inv R -> log_state (lg R) = LoggerState.Stopping ->
  (left_of (run_worker R i) < left_of R)%nat
  /\ (log_state (lg (run_worker R i)) = LoggerState.Stopping
      \/ log_state (lg (run_worker R i)) = LoggerState.Stopped).
Proof.
  intros V Hst. assert (worker (lg R) <> WOff) as Hon.
  { pose proof (v_stands _ V) as Hs. unfold stands in Hs. rewrite Hst in Hs. by destruct Hs. }
  unfold left_of.
  destruct (worker (lg R)) as [| |[|r rest] stopping|r rest stopping|p r rest stopping|p r rest stopping| | |] eqn:Ew; try done.
  - erewrite run_worker_lg by (unfold worker_step; rewrite Ew; reflexivity). simpl. rewrite bool_decide_true by done.
    simpl. split; [lia|by left].
  - erewrite run_worker_lg by (unfold worker_step; rewrite Ew; reflexivity). cbn [lg].
    destruct (after_batch_untouched i stopping (lg R)) as [Hq Hs _]. rewrite Hs, Hq. split; [|by left].
    unfold after_batch. destruct stopping; simpl; lia.
  - pose proof (write_line_untouched i (RecordLine r) (lg R)) as [Hq Hs _].
    unfold run_worker, worker_step. rewrite Ew. destruct (write_line i (RecordLine r) (lg R)) as [l' [|]]; simpl in *.
    + rewrite Hq, Hs. split; [lia|by left].
    + destruct (after_record_untouched i r rest stopping l') as [Hq' Hs' _]. rewrite Hq', Hq, Hs', Hs, after_record_worker. simpl. split; [lia|by left].
  - erewrite run_worker_lg by (unfold worker_step; rewrite Ew; reflexivity). simpl. unfold take_pending. case_match; simpl.
    + destruct (after_record_untouched i r rest stopping ((lg R) <| pending_dropped := 0 |>)) as [Hq Hs _].
      rewrite Hq, Hs, after_record_worker. simpl. split; [lia|by left].
    + split; [lia|by left].
  - set (ln := DroppedLine (wall i) (self_id i) p). pose proof (write_line_untouched i ln (lg R)) as [Hq Hs _].
    unfold run_worker, worker_step. rewrite Ew. fold ln. destruct (write_line i ln (lg R)) as [l' [|]]; simpl in *.
    + destruct (after_record_untouched i r rest stopping l') as [Hq' Hs' _]. rewrite Hq', Hq, Hs', Hs, after_record_worker. simpl. split; [lia|by left].
    + rewrite Hq, Hs. split; [lia|by left].
  - erewrite run_worker_lg by (unfold worker_step; rewrite Ew; reflexivity). unfold restore_pending. cbn [lg].
    match goal with |- context [after_record i r rest stopping ?l] =>
      destruct (after_record_untouched i r rest stopping l) as [Hq Hs _] end.
    rewrite Hq, Hs, after_record_worker. simpl. split; [lia|by left].
  - destruct (stopping_queue R V) as [_ Hq]; [by rewrite Ew|].
    erewrite run_worker_lg by (unfold worker_step; rewrite Ew, Hq; reflexivity). simpl. split; [lia|by left].
  - erewrite run_worker_lg by (unfold worker_step; rewrite Ew; reflexivity). cbn [lg].
    destruct (close_output_untouched i (lg R)) as [_ Hs _]. rewrite Hs. simpl. split; [lia|by left].
  - erewrite run_worker_lg by (unfold worker_step; rewrite Ew; reflexivity). simpl. split; [lia|by right].
Qed.

#[local] Transparent after_record.

Lemma run_worker_accepted R i : h_accepted (run_worker R i) = h_accepted R.
Proof. unfold run_worker. by destruct (worker_step i (lg R)). Qed.

Lemma stopped_stays R i : inv R -> log_state (lg R) = LoggerState.Stopped -> run_worker R i = R.
Proof.
  intros V Hst. pose proof (v_stands _ V) as Hs. unfold stands in Hs. rewrite Hst in Hs. destruct Hs as [Ew _].
  rewrite (run_worker_lg R i (lg R) None) by (unfold worker_step; by rewrite Ew). rewrite Ew. simpl. rewrite !app_nil_r. by destruct R.
Qed.

Lemma worker_drains inputs R :
  inv R -> (log_state (lg R) = LoggerState.Stopping /\ (left_of R <= length inputs)%nat) \/ log_state (lg R) = LoggerState.Stopped ->
  let R' := foldl run_worker R inputs in
  inv R' /\ log_state (lg R') = LoggerState.Stopped /\ h_accepted R' = h_accepted R.
Proof.
  revert R. induction inputs as [|i inputs IH]; intros R V Hst; simpl.
  - destruct Hst as [[Hst Hl]|Hst]; [|done]. exfalso. destruct (step_decreases R (mkInput 0 0 "" None true true) V Hst) as [Hlt _]. simpl in Hl. lia.
  - rewrite <-(run_worker_accepted R i). apply IH; [by apply inv_worker|]. destruct Hst as [[Hst Hl]|Hst].
    + destruct (step_decreases R i V Hst) as [Hlt [Hs|Hs]]; [left|by right]. split; [done|]. simpl in Hl. lia.
    + right. by rewrite stopped_stays.
Qed.

(** ** The statistics *)

Definition counted (R : Run) : Prop :=
  accepted_count (lg R) = wrap64 (size_of (h_accepted R)) /\ dropped_count (lg R) = wrap64 (h_dropped R).

Lemma worker_step_counts i l :
  accepted_count (worker_step i l).1 = accepted_count l /\ dropped_count (worker_step i l).1 = dropped_count l.
Proof.
  unfold worker_step. destruct (worker l) as [| |[|r rest] stopping|r rest stopping|p r rest stopping|p r rest stopping| | |]; try done.
  - exact (u_counts _ _ (after_batch_untouched i stopping l)).
  - pose proof (write_line_untouched i (RecordLine r) l) as [_ _ Hw].
    destruct (write_line i (RecordLine r) l) as [l' [|]]; [done|].
    destruct (after_record_untouched i r rest stopping l') as [_ _ [H1 H2]]. cbn [fst] in *. by rewrite H1, H2.
  - unfold take_pending. case_match; [|done]. exact (u_counts _ _ (after_record_untouched i r rest stopping (l <| pending_dropped := 0 |>))).
  - set (ln := DroppedLine (wall i) (self_id i) p). pose proof (write_line_untouched i ln l) as [_ _ Hw].
    destruct (write_line i ln l) as [l' [|]]; [|done].
    destruct (after_record_untouched i r rest stopping l') as [_ _ [H1 H2]]. cbn [fst] in *. by rewrite H1, H2.
  - unfold restore_pending. cbn [fst].
    match goal with |- context [after_record i r rest stopping ?l] =>
      destruct (after_record_untouched i r rest stopping l) as [_ _ Hw] end. exact Hw.
  - exact (u_counts _ _ (close_output_untouched i l)).
Qed.

Lemma counted_submitted R r : counted R -> counted (submitted r R (log_submit r (lg R))).
Proof.
  intros [H1 H2]. unfold log_submit, counted. destruct (bool_decide (log_state (lg R) = LoggerState.Running)); cbn [negb].
  - destruct (_ <=? _); unfold submitted; simpl.
    + split; [exact H1|]. rewrite H2. unfold wrap64. by rewrite Zplus_mod_idemp_l.
    + split; [|exact H2]. rewrite H1, size_of_app. change (size_of [r]) with 1. unfold wrap64. by rewrite Zplus_mod_idemp_l.
  - by split.
Qed.

Lemma counted_run ops : counted (foldl run_op start_run ops).
Proof.
  assert (forall ops R, counted R -> counted (foldl run_op R ops)) as Hall; [|by apply Hall].
  clear. intros ops. induction ops as [|op ops IH]; intros R V; simpl; [done|]. apply IH. destruct op; simpl.
  - unfold log_init. by repeat case_match.
  - unfold log_start. by repeat case_match.
  - unfold log. destruct (log_check r (lg R)) as [[]|] eqn:E; try (destruct R; exact V); [..|by apply counted_submitted];
      unfold log_check in E; repeat case_match; done.
  - case_match; [done|by apply counted_submitted].
  - unfold log_stop. by repeat case_match.
  - unfold log_join. by repeat case_match.
  - by repeat case_match.
  - unfold run_worker. pose proof (worker_step_counts i (lg R)) as [H1 H2]. destruct (worker_step i (lg R)) as [l' ln].
    unfold counted in *. simpl in *. by rewrite H1, H2.
Qed.

(** ** The claims *)

(** C17. The log file is the accepted records.  In every interleaving of callers
    and worker the accepted records are, in order, those the worker took up,
    the rest of its batch and the queue, which stays within its capacity; no
    record below the configured level is among them.  The stream holds whole
    lines and at most one that is cut off by an error; until the first error its
    records are exactly those taken up.  An error is reported once on the
    standard error output.  When the logger has stopped nothing is left. *)
Theorem logger_file_exact ops :
  let R := foldl run_op start_run ops in
  let l := lg R in
  h_accepted R = h_handled R ++ batch_of (worker l) ++ log_queue l
  /\ (forall c, log_config l = Some c -> size_of (log_queue l) <= log_queue_capacity c)
  /\ Forall (fun r => level_code (minimum_level l) <= level_code (level r)) (h_accepted R)
  /\ (exists partial, text_ (stream l) = text_of (h_lines R) +:+ partial
       /\ omap record_of (h_lines R) `prefix_of` h_handled R
       /\ (bad (stream l) = false -> partial = "" /\ omap record_of (h_lines R) = h_handled R))
  /\ complaints l = (if bad (stream l) then 1 else 0)
  /\ (log_state l = LoggerState.Stopped -> h_handled R = h_accepted R).
Proof.
  intros R l. pose proof (inv_run ops) as [V1 V2 V3 V4 V5 V6 V7 V8 V9 V10 V11 V12]. fold R in V1, V2, V3, V4, V8, V10, V12.
  split_and!; [done|by intros c Hc; destruct (V8 c Hc)|done| |by destruct V10|].
  - destruct V3 as (partial & Hp & Hp'). destruct V4 as [Hl Hl']. exists partial. auto.
  - intros Hst. unfold stands in V1. fold l in V1. rewrite Hst in V1. destruct V1 as [Hw Hq].
    fold l in V2. rewrite V2, Hw, Hq. simpl. by rewrite app_nil_r.
Qed.

(** No dropped record goes unreported.  In every interleaving (with fewer
    than 2^64 drops) the counts in the summary lines, the one being written and
    the pending one add up to the records refused because the queue was full,
    which is the statistic too; and when the logger has stopped without an error
    of the stream, the summary lines account for all of them. *)
Theorem logger_reports_drops ops :
  let R := foldl run_op start_run ops in
  let l := lg R in
  h_dropped R < two64 ->
  reported (h_lines R) + underway (worker l) + pending_dropped l = h_dropped R
  /\ dropped_count l = h_dropped R
  /\ (log_state l = LoggerState.Stopped -> bad (stream l) = false -> reported (h_lines R) = h_dropped R).
Proof.
  intros R l Hlt. pose proof (inv_run ops) as [V1 V2 V3 V4 V5 V6 V7 V8 V9 V10 V11 V12]. fold R in V1, V5, V6, V7. fold l in V5, V6, V7.
  specialize (V6 Hlt). split_and!; [done| |].
  - destruct (counted_run ops) as [_ Hc]. fold R in Hc. fold l in Hc. rewrite Hc. apply wrap64_small. unfold is_u64. lia.
  - intros Hst Hb. unfold stands in V1. fold l in V1. rewrite Hst in V1. destruct V1 as [Hw Hq]. rewrite Hw, Hq in *.
    simpl in *. specialize (V7 Hb). destruct (Z_lt_dec 0 (pending_dropped l)) as [Hp|Hp]; [|lia].
    by destruct (V7 Hp).
Qed.

(** C18. A stop ends the worker.  From every reachable state after [stop], within
    as many sections as the batch and the queue need, whatever the stream and
    the clocks do, the worker ends, the logger is [Stopped] and every accepted
    record was taken up; and [join] answers only when the worker has ended. *)
Theorem logger_stop_terminates ops inputs :
  let R := foldl run_op start_run ops in
  log_state (lg R) = LoggerState.Stopping -> (left_of R <= length inputs)%nat ->
  let R' := foldl run_worker R inputs in
  log_state (lg R') = LoggerState.Stopped /\ worker (lg R') = WOff /\ h_handled R' = h_accepted R
  /\ forall st, (log_join false (lg R)).2 <> LJoinReturned st.
Proof.
  intros R Hst Hl. pose proof (inv_run ops) as V. fold R in V.
  destruct (worker_drains inputs R V ltac:(by left)) as (V' & Hs & Ha). cbv zeta.
  set (R' := foldl run_worker R inputs) in *. pose proof (v_stands _ V') as Hx. unfold stands in Hx. rewrite Hs in Hx.
  destruct Hx as [Hw Hq]. split_and!; [done|done| |].
  - rewrite <-Ha, (v_order _ V'), Hw, Hq. simpl. by rewrite app_nil_r.
  - intros st. unfold log_join. rewrite Hst. pose proof (v_thread _ V) as Ht. pose proof (v_stands _ V) as Hx.
    unfold stands in Hx. rewrite Hst in Hx. destruct Hx as [Hon _]. destruct (Ht Hon) as [E|E]; rewrite E; simpl.
    + by destruct (log_joining (lg R)).
    + done.
Qed.

(** ** A small log *)

Module LoggerSample.
Definition config : LoggerConfig := mkLogger LogInfo "app.log" 1 200.
Definition record (l : LogLevel) (m : string) : LogRecord := mkRecord 1700000000123000000 l "7" "main.cpp" 12 m.
Definition input : WorkerInput := mkInput 0 1700000001000000000 "8" None true true.
Definition ops : list LoggerOp :=
  [ OpInit config; OpStart (mkStart true true true 0); OpLog (record LogInfo "a"); OpLog (record LogError "b");
    OpLog (record LogDebug "c"); OpStop ].
Definition run : Run := foldl run_op start_run ops.
End LoggerSample.

(** A filtered record, a dropped one, and the file after the stop. *)
Example logger_sample :
  let R := foldl run_worker LoggerSample.run (replicate 9 LoggerSample.input) in
  log_state (lg R) = LoggerState.Stopped /\ h_dropped R = 1
  /\ text_ (stream (lg R))
     = "[2023-11-14T22:13:20.123Z][INFO][thread=7] main.cpp:12 a" +:+ newline
       +:+ "[2023-11-14T22:13:21.000Z][WARN][thread=8] logger:0 dropped_count=1" +:+ newline.
Proof. vm_compute. repeat split. Qed.

Lemma logger_reports_drops_witness :
  reported (h_lines LoggerSample.run) + underway (worker (lg LoggerSample.run)) + pending_dropped (lg LoggerSample.run) = 1.
Proof. exact (proj1 (logger_reports_drops LoggerSample.ops ltac:(vm_compute; reflexivity))). Defined.

Lemma logger_stop_terminates_witness :
  log_state (lg (foldl run_worker LoggerSample.run (replicate 9 LoggerSample.input))) = LoggerState.Stopped.
Proof.
  refine (proj1 (logger_stop_terminates LoggerSample.ops (replicate 9 LoggerSample.input) _ _)).
  - vm_compute. reflexivity.
  - vm_compute. lia.
Defined.
