(* ===== verification/Process.v ===== *)
(** * Process: the entry point

    Model of [main.cpp] and [app/process_signal_waiter.{hpp,cpp}].  The three
    services (logger, timer, handler) are called through [ask]: [oracle] answers
    whether the n-th call succeeded, and the calls are recorded together with
    the messages given to the logger.  What each service does is the subject of
    its own file; here it is the order of their lives and the exit code. *)

From S2P Require Import Prelude.
Open Scope Z_scope.

(** ** Waiting for a signal *)

Record ProcessSignalResult := mkSignal { signal_ok : bool; signal_number : Z; system_error : Z }.

Record ProcessSignalWaiter := mkWaiter { blocked_ : bool; wait_in_progress_ : bool }.

Definition EINVAL : Z := 22.

(** [status] is the answer of [pthread_sigmask]. *)
Definition blockTerminationSignals (status : Z) (w : ProcessSignalWaiter) : ProcessSignalWaiter * bool :=
  if blocked_ w then (w, true)
  else if negb (status =? 0) then (w, false)
  else (w <| blocked_ := true |>, true).

(** [wait] before [sigwait]: an answer, or it goes on. *)
Definition wait_enter (w : ProcessSignalWaiter) : ProcessSignalWaiter * option ProcessSignalResult :=
  if (negb (blocked_ w) || wait_in_progress_ w)%bool then (w, Some (mkSignal false 0 EINVAL))
  else (w <| wait_in_progress_ := true |>, None).

(** [wait] after [sigwait], which answered [status] and [number]. *)
Definition wait_leave (status number : Z) (w : ProcessSignalWaiter) : ProcessSignalWaiter * ProcessSignalResult :=
  (w <| wait_in_progress_ := false |>,
   if negb (status =? 0) then mkSignal false 0 status else mkSignal true number 0).

(** Threads that use one waiter; [waiting] of them are in [sigwait]. *)
Inductive WaiterOp := WBlock (status : Z) | WEnter | WLeave (status number : Z).

Definition waiter_op (s : ProcessSignalWaiter * nat) (op : WaiterOp) : ProcessSignalWaiter * nat :=
  let '(w, waiting) := s in
  match op with
  | WBlock status => ((blockTerminationSignals status w).1, waiting)
  | WEnter => let '(w, r) := wait_enter w in (w, match r with None => S waiting | Some _ => waiting end)
  | WLeave status number => match waiting with O => (w, O) | S waiting => ((wait_leave status number w).1, waiting) end
  end.

(** At most one thread is in [sigwait], and only with the signals blocked, so
    that a termination signal is neither lost nor taken twice. *)
Lemma signal_wait_exclusive ops :
  let '(w, waiting) := foldl waiter_op (mkWaiter false false, O) ops in
  (waiting <= 1)%nat /\ (wait_in_progress_ w = true <-> waiting = 1%nat) /\ (waiting = 1%nat -> blocked_ w = true).
Proof.
  set (ok := fun s : ProcessSignalWaiter * nat =>
    (s.2 <= 1)%nat /\ (wait_in_progress_ s.1 = true <-> s.2 = 1%nat) /\ (s.2 = 1%nat -> blocked_ s.1 = true)).
  assert (forall ops s, ok s -> ok (foldl waiter_op s ops)) as Hall.
  { clear ops. intros ops. induction ops as [|op ops IH]; intros [w n] Hok; simpl; [done|]. apply IH.
    destruct w as [b p]. unfold ok in *. simpl in *. destruct op as [status| |status number]; simpl.
    - unfold blockTerminationSignals. simpl. destruct b; simpl; [done|]. destruct (status =? 0); simpl; [|done]. tauto.
    - unfold wait_enter. simpl. destruct b, p; simpl; try done. assert (n <> 1%nat) by (intros ->; by destruct Hok as (_ & [_ H] & _); discriminate H).
      destruct n as [|[|n]]; [|done|lia]. split_and!; [lia|done|done].
    - destruct n as [|n]; simpl; [done|]. assert (n = O) as -> by lia. split_and!; [lia|done|done]. }
  specialize (Hall ops (mkWaiter false false, O)). destruct (foldl waiter_op _ ops) as [w n]. apply Hall.
  unfold ok. simpl. split_and!; [lia|done|done].
Qed.

(** ** The calls *)

Inductive Service := SLogger | STimer | SHandler.

#[export] Instance Service_eq_dec : EqDecision Service.
Proof. solve_decision. Defined.

Inductive Call :=
| Init (s : Service)
| Start (s : Service)
| Stop (s : Service)
| Join (s : Service)
| BlockSignals
| WaitSignal
| HandlerFine      (* [handler.state() != HandlerState::Failed] *)
| Log (message : string)
| Complain (message : string).   (* on [std::cerr] *)

Definition Trace : Type := list (Call * bool).
Definition P (A : Type) : Type := Trace -> Trace * A.

#[export] Instance p_ret : MRet P := fun A a t => (t, a).
#[export] Instance p_bind : MBind P := fun A B f m t => let '(t, a) := m t in f a t.

Section Main.
Context (oracle : nat -> Call -> bool).

Definition ask (c : Call) : P bool := fun t => let a := oracle (length t) c in (t ++ [(c, a)], a).
Definition tell (c : Call) : P unit := fun t => (t ++ [(c, true)], tt).

(** [s.init(...) == Ok && s.start() == Ok] *)
Definition bring_up (s : Service) : P bool :=
  ok ← ask (Init s);
  if negb ok then mret false else ask (Start s).

Definition take_down (s : Service) : P bool :=
  _ ← tell (Stop s);
  ask (Join s).

Definition startRuntime : P bool :=
  ok ← bring_up SLogger;
  if negb ok then
    _ ← tell (Complain "start Logger failed"); _ ← take_down SLogger; mret false
  else
    _ ← tell (Log "Logger started");
    ok ← bring_up STimer;
    if negb ok then
      _ ← tell (Log "start Timer failed"); _ ← take_down STimer; _ ← take_down SLogger; mret false
    else
      _ ← tell (Log "Timer started");
      ok ← bring_up SHandler;
      if negb ok then
        _ ← tell (Log "start Handler failed");
        _ ← take_down SHandler; _ ← take_down STimer; _ ← take_down SLogger; mret false
      else
        _ ← tell (Log "Handler started"); mret true.

Definition stopRuntime : P bool :=
  handler_ok ← take_down SHandler;
  _ ← tell (Log (if (handler_ok : bool) then "Handler stopped" else "stop Handler failed"));
  timer_ok ← take_down STimer;
  _ ← tell (Log (if (timer_ok : bool) then "Timer stopped" else "stop Timer failed"));
  logger_ok ← take_down SLogger;
  _ ← (if negb logger_ok then tell (Complain "stop Logger failed") else mret tt);
  mret ((handler_ok : bool) && (timer_ok : bool) && (logger_ok : bool)).

(** [argc], and whether [loadAppConfig] returned. *)
Definition main (argc : Z) (configured : bool) : P Z :=
  if negb (argc =? 2) then _ ← tell (Complain "Usage: AegisFlow <config_file>"); mret 1
  else if negb configured then _ ← tell (Complain "configure AegisFlow failed: "); mret 1
  else
    blocked ← ask BlockSignals;
    if negb blocked then _ ← tell (Complain "block termination signals failed"); mret 1
    else
      started ← startRuntime;
      if negb started then mret 1
      else
        waited ← ask WaitSignal;
        _ ← (if negb waited then tell (Log "wait termination signal failed") else mret tt);
        fine ← ask HandlerFine;
        _ ← (if negb fine then tell (Log "Handler entered failed state") else mret tt);
        stopped ← stopRuntime;
        _ ← (if negb stopped then tell (Complain "stop runtime failed") else mret tt);
        mret (if (waited && fine && stopped)%bool then 0 else 1).
End Main.

(** ** The lives of the services *)

Inductive Life := New | Ready | Tried | Up | Down | Ended.

Definition life_is (a b : Life) : bool :=
  match a, b with
  | New, New | Ready, Ready | Tried, Tried | Up, Up | Down, Down | Ended, Ended => true
  | _, _ => false
  end.

Record Lives := mkLives { logger_life : Life; timer_life : Life; handler_life : Life; signals_blocked : bool }.

Definition life (s : Service) (v : Lives) : Life :=
  match s with SLogger => logger_life v | STimer => timer_life v | SHandler => handler_life v end.

Definition set_life (s : Service) (l : Life) (v : Lives) : Lives :=
  match s with
  | SLogger => v <| logger_life := l |> | STimer => v <| timer_life := l |> | SHandler => v <| handler_life := l |>
  end.

(** What a service uses, and who uses it. *)
Definition needs (s : Service) : list Service :=
  match s with SLogger => [] | STimer => [SLogger] | SHandler => [SLogger; STimer] end.
Definition users (s : Service) : list Service :=
  match s with SLogger => [STimer; SHandler] | STimer => [SHandler] | SHandler => [] end.

Definition gone (v : Lives) (s : Service) : bool := life_is (life s v) New || life_is (life s v) Ended.

(** A service begins when what it uses is up, stops when its users are gone, and
    is joined after it was stopped; messages are given to a logger that is up;
    signals are waited for when they are blocked and everything is up. *)
Definition live (v : Lives) (c : Call * bool) : option Lives :=
  let when (b : bool) (v : Lives) := if b then Some v else None in
  let '(call, ok) := c in
  match call with
  | Init s => when (signals_blocked v && life_is (life s v) New && forallb (fun n => life_is (life n v) Up) (needs s))
                (set_life s (if ok then Ready else Tried) v)
  | Start s => when (life_is (life s v) Ready) (set_life s (if ok then Up else Tried) v)
  | Stop s => when ((life_is (life s v) Up || life_is (life s v) Tried) && forallb (gone v) (users s)) (set_life s Down v)
  | Join s => when (life_is (life s v) Down) (set_life s Ended v)
  | BlockSignals => when (forallb (gone v) [SLogger; STimer; SHandler]) (v <| signals_blocked := ok |>)
  | WaitSignal => when (signals_blocked v && forallb (fun n => life_is (life n v) Up) [SLogger; STimer; SHandler]) v
  | HandlerFine => when (life_is (handler_life v) Up) v
  | Log _ => when (life_is (logger_life v) Up) v
  | Complain _ => Some v
  end%bool.

Definition lives_start : Lives := mkLives New New New false.

Definition lives_of (t : Trace) : option Lives := foldl (fun v c => v ≫= fun v => live v c) (Some lives_start) t.

(** ** The claim *)

Ltac ask_all :=
  repeat match goal with |- context [?o ?n ?c] =>
    lazymatch type of o with nat -> Call -> bool => destruct (o n c) end; cbn
  end.

(** The end of one path: the trace is concrete. *)
Ltac close_path :=
  split; [eexists; split; [reflexivity|by intros []]|]; split; [|auto];
  split; [first [done|intros _; split_and!; [done|done|by repeat constructor]]|];
  first [by intros _
        |intros (_ & _ & F); exfalso; repeat (apply Forall_cons in F as [Hc F]; simpl in Hc; first [discriminate Hc|clear Hc])].

(** C19. The process is orderly.  Whatever the services answer: termination
    signals are blocked before anything is started, each service is brought up
    only when what it uses is up, messages go to a logger that runs, each is
    stopped after its users are gone and joined after that, and none is left
    behind.  The exit code is 0 exactly when the arguments and the configuration
    were accepted and every call succeeded, and 1 otherwise. *)
Theorem process_orderly oracle argc configured :
  let '(t, code) := main oracle argc configured [] in
  (exists v, lives_of t = Some v /\ forall s, gone v s = true)
  /\ (code = 0 <-> argc = 2 /\ configured = true /\ Forall (fun c => c.2 = true) t)
  /\ (code = 0 \/ code = 1).
Proof.
  unfold main, startRuntime, stopRuntime, bring_up, take_down, ask, tell, mbind, p_bind, mret, p_ret.
  destruct (Z.eqb_spec argc 2) as [->|Hn]; cbn.
  2: { split_and!; [eexists; split; [reflexivity|by intros []]| |by right]. split; [done|]. by intros [? _]. }
  destruct configured; cbn; [|split_and!; [eexists; split; [reflexivity|by intros []]| |by right]; split; [done|by intros (_ & ? & _)]].
  ask_all; close_path.
Qed.
