(* ===== verification/LoadClient.v ===== *)
(** * LoadClient: one request and its response, seen from a client

    Model of [benchmark/login_frame_codec.{hpp,cpp}] and of the socket half of
    [benchmark/load_generator.cpp]: connecting, sending, reading and one
    exchange.  The kernel is the record [Net] of its future answers, one stream
    per call; a call takes the next answer, and a computation that needs more
    answers than there are has not returned ([None]).  The bytes sent, the bytes
    still to be received and the descriptors opened and closed are part of it. *)

From S2P Require Import Prelude Posix RiskService Codec Business.
Open Scope Z_scope.

(** ** Messages as a client reads them

    The enumerations of [login.proto] are open: a status or an action is the
    number on the wire. *)

Record WireHit := mkWireHit { wh_reason_code : string; wh_action : Z; wh_risk_score : Z }.

Record WireDecision := mkWireDecision {
  wd_attempt_id : Z;
  wd_user_id : string;
  wd_action : Z;
  wd_risk_score : Z;
  wd_policy_hits : list WireHit;
  wd_cost_us : Z;
}.

Record WireResponse := mkWireResponse {
  w_decision : option WireDecision;
  w_status : Z;
  w_reason_code : string;
}.

Definition empty_response : WireResponse := mkWireResponse None 0 "".

Definition RESPONSE_STATUS_OK : Z := 0.
Definition RESPONSE_STATUS_OVERLOADED : Z := 1.
Definition RESPONSE_STATUS_TIMEOUT : Z := 2.
Definition PASS : Z := 1.
Definition REVIEW : Z := 2.
Definition REJECT : Z := 3.

Definition wire_action (a : ProtoAction.t) : Z :=
  match a with
  | ProtoAction.DECISION_ACTION_UNKNOWN => 0
  | ProtoAction.PASS => PASS
  | ProtoAction.REVIEW => REVIEW
  | ProtoAction.REJECT => REJECT
  end.

Definition wire_status (s : ResponseStatus.t) : Z :=
  match s with
  | ResponseStatus.OK => RESPONSE_STATUS_OK
  | ResponseStatus.OVERLOADED => RESPONSE_STATUS_OVERLOADED
  | ResponseStatus.TIMEOUT => RESPONSE_STATUS_TIMEOUT
  end.

Definition wire_of (r : LoginResponse) : WireResponse :=
  mkWireResponse
    (option_map (fun d => mkWireDecision (pd_attempt_id d) (pd_user_id d) (wire_action (pd_action d)) (pd_risk_score d)
                            (map (fun h => mkWireHit (ph_reason_code h) (wire_action (ph_action h)) (ph_risk_score h))
                               (pd_policy_hits d)) (pd_cost_us d)) (resp_decision r))
    (wire_status (resp_status r)) (resp_reason_code r).

(** Generated code: the client's half.  [ParseResponse] answers whether it could
    parse, and what the message holds afterwards. *)
Class ClientProtobuf := {
  SerializeRequest : LoginRequest -> option bytes_t;
  ParseResponse : bytes_t -> bool * WireResponse;
}.

(** A parser reads back what the serializer of the other side wrote. *)
Class ProtobufAgree `{Protobuf, ClientProtobuf} := {
  request_read q p : SerializeRequest q = Some p -> ParseFromArray p = Some q;
  response_read r p : SerializeToString r = Some p -> ParseResponse p = (true, wire_of r);
}.

(** ** Frames *)

Module LoginFrameError.
Inductive t := None | InvalidPayloadLength | TruncatedFrame | TrailingBytes | ProtobufParse.
#[export] Instance eq_dec : EqDecision t.
Proof. solve_decision. Defined.
End LoginFrameError.
#[export] Existing Instance LoginFrameError.eq_dec.

Record LoginResponseFrame := mkResponseFrame { lf_error : LoginFrameError.t; lf_response : WireResponse }.

Definition int_max : Z := 2147483647.

Section Frames.
Context `{ClientProtobuf}.

Definition encodeLoginRequestFrame (request : LoginRequest) : result bytes_t :=
  match SerializeRequest request with
  | None => Throw "serialize"
  | Some payload =>
      if (bool_decide (payload = []) || (kMaxPayloadSize <? size_of payload))%bool then Throw "serialize"
      else Ok (encodePayloadLength (wrap32 (size_of payload)) ++ payload)
  end.

Definition decodeLoginResponseFrame (frame : bytes_t) : LoginResponseFrame :=
  if size_of frame <? kFrameHeaderSize then mkResponseFrame LoginFrameError.TruncatedFrame empty_response
  else
    let header := take 4 frame in
    let payload_size := decodePayloadLength header in
    if bool_decide (validatePayloadLength payload_size <> none)
    then mkResponseFrame LoginFrameError.InvalidPayloadLength empty_response
    else
      let expected_size := kFrameHeaderSize ⊕ payload_size in
      if size_of frame <? expected_size then mkResponseFrame LoginFrameError.TruncatedFrame empty_response
      else if expected_size <? size_of frame then mkResponseFrame LoginFrameError.TrailingBytes empty_response
      else if int_max <? payload_size then mkResponseFrame LoginFrameError.InvalidPayloadLength empty_response
      else
        let '(parsed, response) := ParseResponse (drop 4 frame) in
        mkResponseFrame (if parsed then LoginFrameError.None else LoginFrameError.ProtobufParse) response.

End Frames.

(** ** The network *)

Inductive PollAnswer := PollReady (asked hup : bool) | PollNothing | PollFailed (e : Errno).
Inductive ConnectAnswer := Connected | ConnectInterrupted | ConnectPending | ConnectFailed.

Record Net := mkNet {
  n_clock : list Z;
  n_polls : list PollAnswer;
  n_sends : list IoResult;
  n_recvs : list IoResult;
  n_sockets : list Z;
  n_connects : list ConnectAnswer;
  n_sockopts : list (option Z);   (* [SO_ERROR], or the call failed *)
  n_in : bytes_t;
  n_out : bytes_t;
  n_fds : list FdEvent;
}.

Definition N (A : Type) : Type := Net -> option (A * Net).

#[export] Instance n_ret : MRet N := fun A a s => Some (a, s).
#[export] Instance n_bind : MBind N := fun A B f m s => match m s with None => None | Some (a, s) => f a s end.

Definition now : N Z := fun s =>
  match n_clock s with [] => None | t :: r => Some (t, s <| n_clock := r |>) end.
Definition poll : N PollAnswer := fun s =>
  match n_polls s with [] => None | a :: r => Some (a, s <| n_polls := r |>) end.
Definition socket : N Z := fun s =>
  match n_sockets s with
  | [] => None
  | fd :: r => Some (fd, (s <| n_sockets := r |>) <| n_fds := n_fds s ++ (if fd <? 0 then [] else [FdOpened fd]) |>)
  end.
Definition connect : N ConnectAnswer := fun s =>
  match n_connects s with [] => None | a :: r => Some (a, s <| n_connects := r |>) end.
Definition getsockopt : N (option Z) := fun s =>
  match n_sockopts s with [] => None | a :: r => Some (a, s <| n_sockopts := r |>) end.
Definition close_fd (fd : Z) : N unit := fun s => Some (tt, s <| n_fds := n_fds s ++ [FdClosed fd] |>).

(** [send] takes at most what it is given, [recv] delivers at most what is asked
    for, the next bytes of the stream. *)
Definition send (bytes : bytes_t) : N IoResult := fun s =>
  match n_sends s with
  | [] => None
  | IoError e :: r => Some (IoError e, s <| n_sends := r |>)
  | IoBytes n :: r =>
      let k := Nat.min (Z.to_nat n) (length bytes) in
      Some (IoBytes (Z.of_nat k), (s <| n_sends := r |>) <| n_out := n_out s ++ take k bytes |>)
  end.

Definition recv (size : nat) : N (IoResult * bytes_t) := fun s =>
  match n_recvs s with
  | [] => None
  | IoError e :: r => Some ((IoError e, []), s <| n_recvs := r |>)
  | IoBytes n :: r =>
      let k := Nat.min (Z.to_nat n) size in
      if (length (n_in s) <? k)%nat then None
      else Some ((IoBytes (Z.of_nat k), take k (n_in s)), (s <| n_recvs := r |>) <| n_in := drop k (n_in s) |>)
  end.

(** ** Waiting *)

Module FailureClass.
Inductive t := Connect | ConnectTimeout | Send | Read | PeerClosed | Protocol | Parse | Mismatch | RequestTimeout
             | Internal | Count.
#[export] Instance eq_dec : EqDecision t.
Proof. solve_decision. Defined.
End FailureClass.
#[export] Existing Instance FailureClass.eq_dec.

Module WaitResult.
Inductive t := Ready | Timeout | Closed | Error.
End WaitResult.

(** Times are in nanoseconds. *)
Definition remainingMillis (deadline : Z) : N Z :=
  now ← now;
  let remaining := deadline - now in
  if remaining <=? 0 then mret 0
  else
    let milliseconds := remaining ÷ 1000000 in
    let milliseconds := if milliseconds =? 0 then 1 else milliseconds in
    mret (Z.max 1 (Z.min milliseconds int_max)).

Definition no_answer {A} : N A := fun _ => None.

Fixpoint waitFd_loop (fuel : nat) (deadline : Z) : N WaitResult.t :=
  match fuel with
  | O => no_answer
  | S fuel =>
      current ← now;
      if deadline <=? current then mret WaitResult.Timeout
      else
        _ ← remainingMillis deadline;
        ready ← poll;
        match ready with
        | PollReady asked hup =>
            mret (if asked : bool then WaitResult.Ready else if hup : bool then WaitResult.Closed else WaitResult.Error)
        | PollFailed EINTR => waitFd_loop fuel deadline
        | PollNothing => mret WaitResult.Timeout
        | PollFailed _ => mret WaitResult.Error
        end
  end.

(** A pass reads the clock: there are fewer passes than readings. *)
Definition waitFd (deadline : Z) : N WaitResult.t := fun s => waitFd_loop (S (length (n_clock s))) deadline s.

(** ** Connections *)

Record Connection := mkConnection { fd : Z; requests : Z }.

Definition fresh_connection : Connection := mkConnection (-1) 0.

Definition close (c : Connection) : N Connection :=
  if fd c <? 0 then mret (c <| requests := 0 |>)
  else _ ← close_fd (fd c); mret ((c <| fd := -1 |>) <| requests := 0 |>).

Definition abandon (c : Connection) (fd : Z) (failure : FailureClass.t) : N (Connection * FailureClass.t) :=
  _ ← close_fd fd; mret (c, failure).

(** The loop over [connect]; [timeout] in milliseconds. *)
Fixpoint connect_loop (fuel : nat) (c : Connection) (new_fd timeout : Z) : N (Connection * FailureClass.t) :=
  match fuel with
  | O => no_answer
  | S fuel =>
      answer ← connect;
      match answer with
      | Connected => mret (c <| fd := new_fd |>, FailureClass.Count)
      | ConnectInterrupted => connect_loop fuel c new_fd timeout
      | ConnectFailed => abandon c new_fd FailureClass.Connect
      | ConnectPending =>
          start ← now;
          wait ← waitFd (start + timeout * 1000000);
          match wait with
          | WaitResult.Timeout => abandon c new_fd FailureClass.ConnectTimeout
          | WaitResult.Ready =>
              socket_error ← getsockopt;
              match socket_error with
              | Some 0 => mret (c <| fd := new_fd |>, FailureClass.Count)
              | _ => abandon c new_fd FailureClass.Connect
              end
          | _ => abandon c new_fd FailureClass.Connect
          end
      end
  end.

Definition connectSocket (c : Connection) (timeout : Z) : N (Connection * FailureClass.t) :=
  c ← close c;
  new_fd ← socket;
  if new_fd <? 0 then mret (c, FailureClass.Connect)
  else fun s => connect_loop (S (length (n_connects s))) c new_fd timeout s.

(** ** Sending and reading *)

Fixpoint sendAll_loop (fuel : nat) (rest : bytes_t) (deadline : Z) : N FailureClass.t :=
  match rest with
  | [] => mret FailureClass.Count
  | _ =>
      match fuel with
      | O => no_answer
      | S fuel =>
          sent ← send rest;
          match sent with
          | IoBytes n =>
              if 0 <? n then sendAll_loop fuel (drop (Z.to_nat n) rest) deadline else mret FailureClass.Send
          | IoError EINTR => sendAll_loop fuel rest deadline
          | IoError EAGAIN =>
              wait ← waitFd deadline;
              match wait with
              | WaitResult.Ready => sendAll_loop fuel rest deadline
              | WaitResult.Timeout => mret FailureClass.RequestTimeout
              | _ => mret FailureClass.Send
              end
          | IoError EOther => mret FailureClass.Send
          end
      end
  end.

Definition sendAll (bytes : bytes_t) (deadline : Z) : N FailureClass.t := fun s =>
  sendAll_loop (S (length (n_sends s))) bytes deadline s.

(** Answers the bytes that were read too, [output] so far. *)
Fixpoint readExact_loop (fuel : nat) (wanted : nat) (output : bytes_t) (deadline : Z) : N (FailureClass.t * bytes_t) :=
  match wanted with
  | O => mret (FailureClass.Count, output)
  | _ =>
      match fuel with
      | O => no_answer
      | S fuel =>
          answer ← recv wanted;
          match answer with
          | (IoBytes n, bytes) =>
              if 0 <? n then readExact_loop fuel (wanted - Z.to_nat n) (output ++ bytes) deadline
              else mret (FailureClass.PeerClosed, output)
          | (IoError EINTR, _) => readExact_loop fuel wanted output deadline
          | (IoError EAGAIN, _) =>
              wait ← waitFd deadline;
              match wait with
              | WaitResult.Ready => readExact_loop fuel wanted output deadline
              | WaitResult.Timeout => mret (FailureClass.RequestTimeout, output)
              | WaitResult.Closed => mret (FailureClass.PeerClosed, output)
              | WaitResult.Error => mret (FailureClass.Read, output)
              end
          | (IoError EOther, _) => mret (FailureClass.Read, output)
          end
      end
  end.

Definition readExact (wanted : nat) (deadline : Z) : N (FailureClass.t * bytes_t) := fun s =>
  readExact_loop (S (length (n_recvs s))) wanted [] deadline s.

(** ** One exchange *)

Record ExchangeResult := mkExchange { er_failure : FailureClass.t; er_response : WireResponse }.

Definition failedExchange (failure : FailureClass.t) : ExchangeResult := mkExchange failure empty_response.
Definition successfulExchange (response : WireResponse) : ExchangeResult := mkExchange FailureClass.Count response.

Section Exchange.
Context `{ClientProtobuf}.

Definition exchange (request : bytes_t) (timeout : Z) : N ExchangeResult :=
  start ← now;
  let deadline := start + timeout * 1000000 in
  failure ← sendAll request deadline;
  if bool_decide (failure <> FailureClass.Count) then mret (failedExchange failure)
  else
    got ← readExact 4 deadline;
    let '(failure, header) := got in
    if bool_decide (failure <> FailureClass.Count) then mret (failedExchange failure)
    else
      let payload_size := decodePayloadLength header in
      if bool_decide (validatePayloadLength payload_size <> none) then mret (failedExchange FailureClass.Protocol)
      else
        got ← readExact (Z.to_nat payload_size) deadline;
        let '(failure, payload) := got in
        if bool_decide (failure <> FailureClass.Count) then mret (failedExchange failure)
        else
          let decoded := decodeLoginResponseFrame (header ++ payload) in
          if bool_decide (lf_error decoded <> LoginFrameError.None) then
            mret (failedExchange (if bool_decide (lf_error decoded = LoginFrameError.ProtobufParse)
                                  then FailureClass.Parse else FailureClass.Protocol))
          else mret (successfulExchange (lf_response decoded)).
End Exchange.

(** ** What a computation does to the network *)

(** Steps through a run that returned. *)
Ltac n_inv :=
  repeat match goal with
  | H : mret _ _ = Some _ |- _ => unfold mret, n_ret in H; simplify_eq
  | H : (mret _ : N _) _ = Some _ |- _ => unfold mret, n_ret in H; simplify_eq
  | H : mbind _ _ _ = Some _ |- _ => unfold mbind, n_bind in H
  | H : (match ?m ?s with Some _ => _ | None => None end) = Some _ |- _ =>
      let E := fresh "E" in destruct (m s) as [[? ?]|] eqn:E; [|discriminate H]
  end.

(** Waiting moves no byte and no descriptor. *)
Definition waited (s s' : Net) : Prop := exists clocks polls, s' = s <| n_clock := clocks |> <| n_polls := polls |>.

Lemma waited_refl s : waited s s.
Proof. exists (n_clock s), (n_polls s). by destruct s. Qed.

Lemma waited_trans s1 s2 s3 : waited s1 s2 -> waited s2 s3 -> waited s1 s3.
Proof. intros (c & p & ->) (c' & p' & ->). by exists c', p'. Qed.

Lemma now_waited s t s' : now s = Some (t, s') -> waited s s'.
Proof. unfold now. destruct (n_clock s) as [|x r] eqn:E; intros; simplify_eq. exists r, (n_polls s). by destruct s. Qed.

Lemma poll_waited s a s' : poll s = Some (a, s') -> waited s s'.
Proof. unfold poll. destruct (n_polls s) as [|x r] eqn:E; intros; simplify_eq. exists (n_clock s), r. by destruct s. Qed.

Lemma remainingMillis_waited d s r s' : remainingMillis d s = Some (r, s') -> waited s s'.
Proof.
  unfold remainingMillis. intros H. n_inv. destruct (_ <=? 0); n_inv; by eapply now_waited.
Qed.

Lemma waitFd_waited d s r s' : waitFd d s = Some (r, s') -> waited s s'.
Proof.
  unfold waitFd. generalize (S (length (n_clock s))) as fuel. intros fuel. revert s.
  induction fuel as [|fuel IH]; intros s H; [done|]. cbn [waitFd_loop] in H. n_inv.
  apply now_waited in E. destruct (d <=? _); n_inv; [done|].
  apply remainingMillis_waited in E0. apply poll_waited in E1.
  assert (waited s n1) as Hw by (eapply waited_trans; [done|]; by eapply waited_trans).
  destruct p as [asked hup| |[]]; n_inv; try done. eapply waited_trans; [exact Hw|]. by apply IH.
Qed.

(** A transfer moves bytes and leaves the descriptors. *)
Record moved (s s' : Net) (sent received : bytes_t) : Prop := {
  mv_out : n_out s' = n_out s ++ sent;
  mv_in : n_in s = received ++ n_in s';
  mv_fds : n_fds s' = n_fds s;
}.

Lemma waited_moved s s' : waited s s' -> moved s s' [] [].
Proof. intros (c & p & ->). split; simpl; by rewrite ?app_nil_r. Qed.

Lemma moved_trans s1 s2 s3 a b c d : moved s1 s2 a b -> moved s2 s3 c d -> moved s1 s3 (a ++ c) (b ++ d).
Proof.
  intros [Ho1 Hi1 Hf1] [Ho2 Hi2 Hf2]. split; [by rewrite Ho2, Ho1, app_assoc|by rewrite Hi1, Hi2, app_assoc|congruence].
Qed.

Lemma send_moved bytes s r s' :
  send bytes s = Some (r, s') ->
  match r with
  | IoBytes n => exists k, (k <= length bytes)%nat /\ n = Z.of_nat k /\ moved s s' (take k bytes) []
  | IoError _ => moved s s' [] []
  end.
Proof.
  unfold send. destruct (n_sends s) as [|[n|e] r0]; intros; simplify_eq; [|by split; simpl; rewrite ?app_nil_r].
  eexists. split; [apply Nat.le_min_r|]. by split.
Qed.

Lemma recv_moved size s r bytes s' :
  recv size s = Some ((r, bytes), s') ->
  moved s s' [] bytes
  /\ match r with IoBytes n => (length bytes <= size)%nat /\ n = Z.of_nat (length bytes) | IoError _ => bytes = [] end.
Proof.
  unfold recv. destruct (n_recvs s) as [|[n|e] r0]; intros; simplify_eq;
    [|by split; [split; simpl; rewrite ?app_nil_r|]].
  destruct (_ <? _)%nat eqn:El; simplify_eq. apply Nat.ltb_ge in El. split.
  - split; simpl; [by rewrite app_nil_r|by rewrite take_drop|done].
  - rewrite length_take. lia.
Qed.

Lemma sendAll_moved bytes d s f s' :
  sendAll bytes d s = Some (f, s') ->
  exists k, (k <= length bytes)%nat /\ moved s s' (take k bytes) [] /\ (f = FailureClass.Count <-> k = length bytes).
Proof.
  unfold sendAll. generalize (S (length (n_sends s))) as fuel. intros fuel. revert s bytes.
  induction fuel as [|fuel IH]; intros s bytes H; destruct bytes as [|b bytes]; cbn [sendAll_loop] in H; n_inv; try done.
  1,2: exists O; split_and!; [done|apply waited_moved, waited_refl|done].
  apply send_moved in E. set (all := b :: bytes) in *.
  assert (forall s1 f, moved s s1 [] [] -> f <> FailureClass.Count -> exists k, (k <= length all)%nat
    /\ moved s s1 (take k all) [] /\ (f = FailureClass.Count <-> k = length all)) as Hstop.
  { intros s1 g Hm Hg. exists O. split_and!; [lia|done|]. split; [done|]. by unfold all. }
  assert (forall s1, moved s s1 [] [] -> sendAll_loop fuel all d s1 = Some (f, s') -> exists k, (k <= length all)%nat
    /\ moved s s' (take k all) [] /\ (f = FailureClass.Count <-> k = length all)) as Hgo.
  { intros s1 Hm Hl. apply IH in Hl as (k & Hk & Hm' & Hf). exists k. split_and!; [done| |done].
    by apply (moved_trans _ _ _ _ _ _ _ Hm Hm'). }
  destruct i as [m|[]].
  - destruct E as (k & Hk & -> & Hm). destruct (0 <? Z.of_nat k) eqn:Ek; bool_to_prop.
    + apply IH in H as (j & Hj & Hm' & Hf). rewrite Nat2Z.id, length_drop in *. exists (k + j)%nat.
      split_and!; [lia| |rewrite Hf; lia]. rewrite <-take_take_drop. by apply (moved_trans _ _ _ _ _ _ _ Hm Hm').
    + n_inv. assert (k = O) as -> by lia. by apply Hstop.
  - by eapply Hgo.
  - n_inv. apply waitFd_waited, waited_moved in E0. pose proof (moved_trans _ _ _ _ _ _ _ E E0) as Hm.
    destruct t; [by eapply Hgo|n_inv; by apply Hstop..].
  - n_inv. by apply Hstop.
Qed.

Lemma readExact_moved wanted d s f got s' :
  readExact wanted d s = Some ((f, got), s') ->
  moved s s' [] got /\ (length got <= wanted)%nat /\ (f = FailureClass.Count <-> length got = wanted).
Proof.
  unfold readExact. generalize (S (length (n_recvs s))) as fuel. intros fuel.
  assert (forall fuel wanted output s, readExact_loop fuel wanted output d s = Some ((f, got), s') ->
    exists more, got = output ++ more /\ moved s s' [] more /\ (length more <= wanted)%nat
    /\ (f = FailureClass.Count <-> length more = wanted)) as Hall; [|intros H; by apply Hall in H as (more & -> & ?)].
  clear. intros fuel. induction fuel as [|fuel IH]; intros wanted output s H; destruct wanted as [|w];
    cbn [readExact_loop] in H; n_inv; try done.
  1,2: exists []; rewrite app_nil_r; split_and!; [done|apply waited_moved, waited_refl|done..].
  destruct p as [r bytes]. apply recv_moved in E as [Hm Hr]. set (all := S w) in *.
  assert (forall s1 g, moved s s1 [] [] -> g <> FailureClass.Count -> exists more, output = output ++ more
    /\ moved s s1 [] more /\ (length more <= all)%nat /\ (g = FailureClass.Count <-> length more = all)) as Hstop.
  { intros s1 g Hm' Hg. exists []. rewrite app_nil_r. split_and!; [done|done|simpl; lia|]. by split. }
  assert (forall s1, moved s s1 [] [] -> readExact_loop fuel all output d s1 = Some ((f, got), s') -> exists more,
    got = output ++ more /\ moved s s' [] more /\ (length more <= all)%nat
    /\ (f = FailureClass.Count <-> length more = all)) as Hgo.
  { intros s1 Hm' Hl. apply IH in Hl as (more & ? & Hm2 & ?). exists more. split; [done|].
    split; [by apply (moved_trans _ _ _ _ _ _ _ Hm' Hm2)|done]. }
  destruct r as [m|[]]; [|subst bytes..].
  - destruct Hr as [Hle ->]. destruct (0 <? _) eqn:Ek; bool_to_prop.
    + apply IH in H as (more & -> & Hm' & Hl & Hf). rewrite Nat2Z.id in *. exists (bytes ++ more).
      rewrite length_app. split_and!; [by rewrite app_assoc|by apply (moved_trans _ _ _ _ _ _ _ Hm Hm')|lia|rewrite Hf; lia].
    + n_inv. destruct bytes; [|simpl in *; lia]. by apply Hstop.
  - by eapply Hgo.
  - n_inv. apply waitFd_waited, waited_moved in E. pose proof (moved_trans _ _ _ _ _ _ _ Hm E) as Hm2.
    destruct t; [by eapply Hgo|n_inv; by apply Hstop..].
  - n_inv. by apply Hstop.
Qed.

(** ** Frames of a client *)

(** One whole frame and what its payload holds. *)
Definition frame_holds `{ClientProtobuf} (frame : bytes_t) (r : WireResponse) : Prop :=
  exists header payload, frame = header ++ payload /\ length header = 4%nat
    /\ decodePayloadLength header = size_of payload /\ payload_ok payload /\ ParseResponse payload = (true, r).

Section Facts.
Context `{ClientProtobuf}.

(** [decodeLoginResponseFrame] accepts exactly one well-formed frame. *)
Lemma decode_exact frame r :
  decodeLoginResponseFrame frame = mkResponseFrame LoginFrameError.None r <-> frame_holds frame r.
Proof.
  unfold frame_holds, payload_ok. split.
  - unfold decodeLoginResponseFrame. destruct (size_of frame <? _) eqn:E1; [done|]. cbn zeta.
    destruct (bool_decide _) eqn:E2; [done|]. set (n := decodePayloadLength _) in *.
    destruct (size_of frame <? _ ⊕ _) eqn:E3; [done|]. destruct (_ <? size_of frame) eqn:E4; [done|].
    destruct (int_max <? n) eqn:E5; [done|]. destruct (ParseResponse _) as [[] w] eqn:E6; [|done].
    intros [= ->]. bool_to_prop. apply dec_stable, validate_none in E2. unfold kFrameHeaderSize, kMaxPayloadSize in *.
    rewrite wrap64_small in * by (unfold is_u64; lia). exists (take 4 frame), (drop 4 frame).
    fold n. unfold kMaxPayloadSize, size_of in *. rewrite take_drop, length_take, length_drop. conj_lia.
  - intros (header & payload & -> & Hl & Hn & Hp & Hr). unfold decodeLoginResponseFrame.
    assert (size_of header = 4) as Hs by (unfold size_of; lia). rewrite !size_of_app, Hs. unfold kFrameHeaderSize.
    rewrite (take_app_length' header payload 4) by done. rewrite (drop_app_length' header payload 4), Hn by done.
    unfold kMaxPayloadSize in *. rewrite (proj2 (Z.ltb_ge _ 4)) by lia.
    rewrite bool_decide_false by (intros Hv; apply Hv, validate_none; unfold kMaxPayloadSize; lia).
    rewrite wrap64_small by (unfold is_u64; lia). rewrite !Z.ltb_irrefl. unfold int_max.
    rewrite (proj2 (Z.ltb_ge 2147483647 _)) by lia. by rewrite Hr.
Qed.

Lemma decode_error frame :
  lf_error (decodeLoginResponseFrame frame) = LoginFrameError.None <-> exists r, frame_holds frame r.
Proof.
  split.
  - intros E. exists (lf_response (decodeLoginResponseFrame frame)). apply decode_exact.
    destruct (decodeLoginResponseFrame frame). simpl in *. by subst.
  - intros [r Hr]. apply decode_exact in Hr. by rewrite Hr.
Qed.

Lemma frame_holds_header header rest r :
  length header = 4%nat -> frame_holds (header ++ rest) r ->
  validatePayloadLength (decodePayloadLength header) = none /\ decodePayloadLength header = size_of rest.
Proof.
  intros Hl (h & p & E & Hh & Hn & Hp & _). apply app_inj_1 in E as [<- <-]; [|congruence].
  split; [apply validate_none; rewrite Hn; exact Hp|done].
Qed.

Lemma frame_holds_long frame r : frame_holds frame r -> (4 < length frame)%nat.
Proof.
  intros (h & p & -> & Hh & _ & [Hp _] & _). rewrite length_app. unfold size_of in Hp. lia.
Qed.

(** Whatever the network does, an exchange reports a response exactly when the
    whole request went out and what came in is one frame that holds it; the
    bytes after that frame are left in the stream. *)
Lemma exchange_spec request timeout s r s' :
  exchange request timeout s = Some (r, s') ->
  exists k got, (k <= length request)%nat /\ moved s s' (take k request) got
    /\ (er_failure r = FailureClass.Count <-> k = length request /\ frame_holds got (er_response r))
    /\ (er_failure r <> FailureClass.Count -> forall w, ~ frame_holds got w).
Proof.
  unfold exchange. intros Hrun. n_inv. apply now_waited, waited_moved in E. cbn zeta in *. n_inv.
  apply sendAll_moved in E0 as (k & Hk & Hm & Hf). pose proof (moved_trans _ _ _ _ _ _ _ E Hm) as M1. simpl in M1.
  assert (forall got, (length got <= 4)%nat -> forall w, ~ frame_holds got w) as Hshort
    by (intros got Hl w Hw%frame_holds_long; lia).
  destruct (bool_decide (t <> _)) eqn:E1; n_inv; bool_to_prop.
  { exists k, []. split_and!; [done|done| |intros _; apply Hshort; simpl; lia].
    simpl. split; [done|]. intros [_ Hw]. by apply Hshort in Hw; simpl; lia. }
  destruct p as [f1 header]. apply readExact_moved in E0 as (Hm2 & Hl2 & Hf2).
  pose proof (moved_trans _ _ _ _ _ _ _ M1 Hm2) as M2. rewrite app_nil_r in M2. simpl in M2.
  assert (forall got g s1, moved s s1 (take k request) got -> g <> FailureClass.Count ->
    (forall w, ~ frame_holds got w) -> exists k0 got0, (k0 <= length request)%nat /\ moved s s1 (take k0 request) got0
      /\ (er_failure (failedExchange g) = FailureClass.Count
          <-> k0 = length request /\ frame_holds got0 (er_response (failedExchange g)))
      /\ (er_failure (failedExchange g) <> FailureClass.Count -> forall w, ~ frame_holds got0 w)) as Hfail.
  { intros got g s1 Hmv Hg Hno. exists k, got. split_and!; [done|done| |done]. split; [done|].
    intros [_ Hw]. by apply Hno in Hw. }
  destruct (bool_decide (f1 <> _)) eqn:E2; n_inv; bool_to_prop; [apply (Hfail header); [done|done|by apply Hshort]|].
  assert (length header = 4%nat) as Hl4 by (apply Hf2; by apply dec_stable).
  destruct (bool_decide (validatePayloadLength _ <> _)) eqn:E3; n_inv; bool_to_prop.
  { apply (Hfail header); [done|done|]. apply Hshort. lia. }
  apply dec_stable in E1, E2, E3. apply validate_none in E3.
  destruct p as [f2 payload]. apply readExact_moved in E0 as (Hm3 & Hl3 & Hf3).
  pose proof (moved_trans _ _ _ _ _ _ _ M2 Hm3) as M3. rewrite app_nil_r in M3.
  destruct (bool_decide (f2 <> _)) eqn:E4; n_inv; bool_to_prop.
  { apply (Hfail (header ++ payload)); [done|done|]. intros w [_ Hw]%frame_holds_header; [|done]. apply E4, Hf3.
    unfold size_of in Hw. lia. }
  destruct (bool_decide (lf_error _ <> _)) eqn:E5; n_inv; bool_to_prop.
  { apply (Hfail (header ++ payload)); [done|by case_if|]. intros w Hw. apply E5, decode_error. by exists w. }
  apply dec_stable in E5. exists k, (header ++ payload). split_and!; [done|done| |done]. simpl.
  split; [intros _|done]. split; [by apply Hf|]. apply decode_exact.
  destruct (decodeLoginResponseFrame _). simpl in *. by subst.
Qed.
End Facts.

(** ** A network that moves at least a byte per call *)

Definition moves (a : IoResult) : Prop := exists n, a = IoBytes n /\ 0 < n.

Lemma sendAll_steady bytes d s :
  Forall moves (n_sends s) -> (length bytes <= length (n_sends s))%nat ->
  exists s', sendAll bytes d s = Some (FailureClass.Count, s') /\ n_recvs s' = n_recvs s.
Proof.
  unfold sendAll. assert (length (n_sends s) < S (length (n_sends s)))%nat as Hf by lia. revert Hf.
  generalize (S (length (n_sends s))) as fuel. intros fuel. revert s bytes.
  induction fuel as [|fuel IH]; intros s bytes Hf Hm Hl; [lia|]. destruct bytes as [|b bytes]; [by exists s|].
  cbn [sendAll_loop]. set (all := b :: bytes) in *. unfold mbind, n_bind, send.
  destruct (n_sends s) as [|a r] eqn:Es; [simpl in *; lia|]. apply Forall_cons in Hm as [(n & -> & Hn) Hm].
  cbn zeta. set (k := Nat.min _ _). assert (0 < k <= length all)%nat by (unfold k, all; simpl; lia).
  rewrite (proj2 (Z.ltb_lt 0 (Z.of_nat k))), Nat2Z.id by lia. set (s1 := (s <| n_sends := r |>) <| n_out := n_out s ++ take k all |>).
  destruct (IH s1 (drop k all)) as (s' & E & Hr); [unfold s1; simpl in *; lia|done| |].
  - unfold s1. rewrite length_drop. unfold all in *. simpl in *. lia.
  - exists s'. by rewrite E, Hr.
Qed.

Lemma readExact_steady wanted d s :
  Forall moves (n_recvs s) -> (wanted <= length (n_recvs s))%nat -> (wanted <= length (n_in s))%nat ->
  exists got s', readExact wanted d s = Some ((FailureClass.Count, got), s') /\ Forall moves (n_recvs s')
    /\ (length (n_recvs s) <= length (n_recvs s') + wanted)%nat.
Proof.
  unfold readExact. assert (length (n_recvs s) < S (length (n_recvs s)))%nat as Hf by lia. revert Hf.
  generalize (S (length (n_recvs s))) as fuel. intros fuel. generalize (@nil Z) as output. revert s wanted.
  induction fuel as [|fuel IH]; intros s wanted output Hf Hm Hl Hi; [lia|].
  destruct wanted as [|w]; [exists output, s; split_and!; [done|done|lia]|].
  cbn [readExact_loop]. set (all := S w) in *. unfold mbind, n_bind, recv.
  destruct (n_recvs s) as [|a r] eqn:Es; [simpl in *; lia|]. apply Forall_cons in Hm as [(n & -> & Hn) Hm].
  cbn zeta. set (k := Nat.min _ _). assert (0 < k <= all)%nat by (unfold k, all; simpl; lia).
  rewrite (proj2 (Nat.ltb_ge _ k)) by lia.
  rewrite (proj2 (Z.ltb_lt 0 (Z.of_nat k))), Nat2Z.id by lia. set (s1 := s <| n_recvs := r |> <| n_in := drop k (n_in s) |>).
  destruct (IH s1 (all - k)%nat (output ++ take k (n_in s))) as (got & s' & E & Hm' & Hr).
  - change (n_recvs s1) with r. cbn [length] in *. lia.
  - done.
  - change (n_recvs s1) with r. cbn [length] in *. lia.
  - change (n_in s1) with (drop k (n_in s)). rewrite length_drop. lia.
  - exists got, s'. change (n_recvs s1) with r in Hr. cbn [length] in *. conj_lia.
Qed.

(** ** A client and the server *)

Section Roundtrip.
Context `{Agree : ProtobufAgree}.

Lemma request_frame q request :
  encodeLoginRequestFrame q = Ok request ->
  exists p, request = encode_frame p /\ payload_ok p /\ ParseFromArray p = Some q.
Proof.
  unfold encodeLoginRequestFrame. destruct (SerializeRequest q) as [p|] eqn:E; [|done].
  destruct (bool_decide _ || _)%bool eqn:Et; [done|]. intros [= <-]. bool_to_prop. exists p.
  assert (payload_ok p) as Hp.
  { split; [|done]. destruct p; [done|]. rewrite size_of_cons. pose proof (size_of_nonneg p). lia. }
  unfold encode_frame. rewrite wrap32_small by (unfold is_u32, payload_ok, kMaxPayloadSize in *; lia).
  split_and!; [done|done|]. by apply request_read.
Qed.

Lemma response_frame r reply : encodeLoginResponseFrame r = Ok reply -> frame_holds reply (wire_of r).
Proof.
  unfold encodeLoginResponseFrame. destruct (SerializeToString r) as [p|] eqn:E; [|done].
  destruct (bool_decide _ || _)%bool eqn:Et; [done|]. intros [= <-]. bool_to_prop.
  assert (payload_ok p) as Hp.
  { split; [|done]. destruct p; [done|]. rewrite size_of_cons. pose proof (size_of_nonneg p). lia. }
  assert (is_u32 (size_of p)) as Hu by (unfold is_u32, payload_ok, kMaxPayloadSize in *; lia).
  exists (encodePayloadLength (size_of p)), p. rewrite wrap32_small by done.
  split_and!; [done|done|by apply decode_encode|done..|by apply response_read].
Qed.

(** Two whole frames at the start of one stream are the same frame. *)
Lemma frame_holds_prefix f1 f2 r1 r2 rest1 rest2 :
  frame_holds f1 r1 -> frame_holds f2 r2 -> f1 ++ rest1 = f2 ++ rest2 -> f1 = f2 /\ r1 = r2 /\ rest1 = rest2.
Proof.
  intros (h1 & p1 & -> & L1 & N1 & _ & P1) (h2 & p2 & -> & L2 & N2 & _ & P2) E.
  rewrite <-!app_assoc in E. apply app_inj_1 in E as [-> E]; [|congruence].
  assert (length p1 = length p2) by (rewrite N1 in N2; unfold size_of in N2; lia).
  apply app_inj_1 in E as [-> E]; [|done]. rewrite P1 in P2. by simplify_eq.
Qed.

(** With a whole reply in the stream, an exchange that succeeds returns it. *)
Lemma exchange_sound request timeout s r s' reply w rest :
  frame_holds reply w -> n_in s = reply ++ rest -> exchange request timeout s = Some (r, s') ->
  er_failure r = FailureClass.Count -> er_response r = w /\ n_in s' = rest /\ n_out s' = n_out s ++ request.
Proof.
  intros Hw Hin Hx Hc. apply exchange_spec in Hx as (k & got & Hk & [Ho Hi _] & Hf & _).
  apply Hf in Hc as [-> Hg]. rewrite take_ge in Ho by lia. rewrite Hin in Hi. symmetry in Hi.
  by destruct (frame_holds_prefix _ _ _ _ _ _ Hg Hw Hi) as (_ & ? & ?).
Qed.

(** A network that keeps moving delivers it. *)
Lemma exchange_complete request timeout s reply w rest :
  frame_holds reply w -> n_in s = reply ++ rest -> n_clock s <> [] ->
  Forall moves (n_sends s) -> (length request <= length (n_sends s))%nat ->
  Forall moves (n_recvs s) -> (length reply <= length (n_recvs s))%nat ->
  exists s', exchange request timeout s = Some (successfulExchange w, s').
Proof.
  intros Hw Hin Hc Hs Hls Hr Hlr. pose proof Hw as (h & p & -> & Lh & Nh & [Hp1 Hp2] & Pp).
  assert (is_u32 (size_of p)) as Hu by (unfold is_u32, kMaxPayloadSize in *; lia).
  rewrite length_app, Lh in Hlr. rewrite <-app_assoc in Hin.
  unfold exchange, mbind, n_bind, now at 1. destruct (n_clock s) as [|t0 tr]; [done|].
  set (s0 := s <| n_clock := tr |>). cbn zeta. set (d := t0 + _).
  destruct (sendAll_steady request d s0) as (s1 & E1 & Er1); [done|done|]. rewrite E1, bool_decide_false by auto.
  apply sendAll_moved in E1 as (k & _ & [_ Hi1 _] & _). simpl in Hi1, Er1. rewrite Hin in Hi1.
  destruct (readExact_steady 4 d s1) as (h' & s2 & E2 & Hr2 & Hl2);
    [by rewrite Er1|rewrite Er1; lia|rewrite <-Hi1, length_app; lia|]. rewrite E2, bool_decide_false by auto.
  apply readExact_moved in E2 as ([_ Hi2 _] & _ & [Hh' _]). rewrite <-Hi1 in Hi2.
  apply app_inj_1 in Hi2 as [<- Hi2]; [|rewrite Lh; symmetry; by apply Hh'].
  rewrite Nh, bool_decide_false by (intros Hv; by apply Hv, validate_none).
  assert (Z.to_nat (size_of p) = length p) as Hlp by (unfold size_of; lia). rewrite Hlp.
  destruct (readExact_steady (length p) d s2) as (p' & s3 & E3 & _ & _);
    [done|rewrite Er1 in Hl2; lia|rewrite <-Hi2, length_app; lia|]. rewrite E3, bool_decide_false by auto.
  apply readExact_moved in E3 as ([_ Hi3 _] & _ & [Hp' _]). rewrite <-Hi2 in Hi3.
  apply app_inj_1 in Hi3 as [<- Hi3]; [|symmetry; by apply Hp'].
  rewrite (proj2 (decode_exact _ w)) by done. simpl. by exists s3.
Qed.
End Roundtrip.

(** ** Descriptors *)

Definition held (c : Connection) : list Z := if fd c <? 0 then [] else [fd c].

(** What a computation that replaces [c] by [c'] does to the descriptors; it
    moves no byte. *)
Record rewired (s s' : Net) (c c' : Connection) : Prop := {
  rw_out : n_out s' = n_out s;
  rw_in : n_in s' = n_in s;
  rw_fds : exists evs, n_fds s' = n_fds s ++ evs /\ held c ++ fds_opened evs ≡ₚ fds_closed evs ++ held c';
}.

Lemma rewired_trans s1 s2 s3 c1 c2 c3 : rewired s1 s2 c1 c2 -> rewired s2 s3 c2 c3 -> rewired s1 s3 c1 c3.
Proof.
  intros [O1 I1 (e1 & F1 & P1)] [O2 I2 (e2 & F2 & P2)]. split; [congruence|congruence|].
  exists (e1 ++ e2). rewrite F2, F1, app_assoc, fds_opened_app, fds_closed_app. split; [done|].
  by rewrite app_assoc, P1, <-!app_assoc, P2.
Qed.

Lemma moved_rewired s s' c : moved s s' [] [] -> rewired s s' c c.
Proof.
  intros [O I F]. split; [by rewrite O, app_nil_r|done|]. exists []. by rewrite F, !app_nil_r.
Qed.

Lemma close_rewired c s c' s' :
  close c s = Some (c', s') -> rewired s s' c c' /\ held c' = [] /\ fd c' < 0 /\ requests c' = 0.
Proof.
  unfold close. destruct (fd c <? 0) eqn:E; intros H; n_inv.
  - unfold held. simpl. rewrite E. bool_to_prop. split_and!; [|done..].
    split; [done..|]. exists []. unfold held. simpl. rewrite !app_nil_r. done.
  - unfold close_fd in *. simplify_eq. split_and!; [|done..]. split; [done..|]. simpl. eexists. split; [done|].
    unfold held. by rewrite E.
Qed.

(** A descriptor that was opened is either closed or in the connection. *)
Lemma abandon_rewired c new_fd f s r s' :
  fd c < 0 -> abandon c new_fd f s = Some (r, s') ->
  r = (c, f) /\ n_out s' = n_out s /\ n_in s' = n_in s /\ n_fds s' = n_fds s ++ [FdClosed new_fd].
Proof. unfold abandon, close_fd, mbind, n_bind, mret, n_ret. intros _ [= <- <-]. by split_and!. Qed.

Definition connected (s s' : Net) (c c' : Connection) (new_fd : Z) (f : FailureClass.t) : Prop :=
  n_out s' = n_out s /\ n_in s' = n_in s
  /\ ((f = FailureClass.Count /\ c' = c <| fd := new_fd |> /\ n_fds s' = n_fds s)
      \/ ((f = FailureClass.Connect \/ f = FailureClass.ConnectTimeout) /\ c' = c
          /\ n_fds s' = n_fds s ++ [FdClosed new_fd])).

Lemma connect_loop_spec fuel c new_fd timeout s c' f s' :
  fd c < 0 -> connect_loop fuel c new_fd timeout s = Some ((c', f), s') -> connected s s' c c' new_fd f.
Proof.
  intros Hc. revert s. induction fuel as [|fuel IH]; intros s H; [done|]. cbn [connect_loop] in H. n_inv.
  assert (n_out n = n_out s /\ n_in n = n_in s /\ n_fds n = n_fds s) as (Ho & Hi & Hf).
  { unfold connect in E. destruct (n_connects s); simplify_eq. done. }
  assert (forall s1 g, n_out s1 = n_out s -> n_in s1 = n_in s -> n_fds s1 = n_fds s ->
    g = FailureClass.Connect \/ g = FailureClass.ConnectTimeout ->
    abandon c new_fd g s1 = Some ((c', f), s') -> connected s s' c c' new_fd f) as Hup.
  { intros s1 g O1 I1 F1 Hg (Heq & O2 & I2 & F2)%abandon_rewired; [|done]. simplify_eq.
    split_and!; [congruence|congruence|]. right. rewrite F2, F1. done. }
  destruct c0; n_inv.
  - split_and!; [done..|]. by left.
  - apply IH in H as (O2 & I2 & D). split_and!; [congruence|congruence|]. by rewrite Hf in D.
  - apply now_waited in E0. apply waitFd_waited in E1. pose proof (waited_trans _ _ _ E0 E1) as (x & y & ->).
    destruct t; n_inv; try (eapply Hup; [..|exact H]; simpl; auto).
    unfold getsockopt in E2. simpl in E2. destruct (n_sockopts n) as [|a rest]; simplify_eq. simpl in *.
    destruct o as [[| |]|]; n_inv; try (eapply Hup; [..|exact H]; simpl; auto).
    split_and!; [done..|]. by left.
  - eapply Hup; [..|exact H]; auto.
Qed.

Lemma connectSocket_spec c timeout s c' f s' :
  connectSocket c timeout s = Some ((c', f), s') ->
  rewired s s' c c' /\ requests c' = 0
  /\ ((f = FailureClass.Count /\ 0 <= fd c')
      \/ ((f = FailureClass.Connect \/ f = FailureClass.ConnectTimeout) /\ fd c' < 0)).
Proof.
  unfold connectSocket. intros H. n_inv. apply close_rewired in E as (R1 & Hh & Hfd & Hr).
  unfold socket in E0. destruct (n_sockets n) as [|x rest]; simplify_eq. destruct (z <? 0) eqn:Ez; n_inv.
  - split_and!; [|done|right; auto]. eapply rewired_trans; [exact R1|]. split; [done..|]. exists [].
    by rewrite !app_nil_r.
  - apply connect_loop_spec in H as (O & I & D); [|done]. simpl in *. bool_to_prop.
    assert (held (mkConnection z (requests c0)) = [z]) as Hz by (unfold held; simpl; by rewrite (proj2 (Z.ltb_ge z 0))).
    destruct D as [(-> & -> & F)|(Hf & -> & F)]; split_and!; try done; try (by left); try (by right).
    + eapply rewired_trans; [exact R1|]. split; [done..|]. exists [FdOpened z]. rewrite F, Hh. split; [done|].
      change (c0 <| fd := z |>) with (mkConnection z (requests c0)). by rewrite Hz.
    + eapply rewired_trans; [exact R1|]. split; [done..|]. exists [FdOpened z; FdClosed z].
      rewrite F, <-app_assoc, Hh. done.
Qed.

(** ** The claim *)

(** C20. A client and the server understand each other.  Let a client encode a
    request and the server a response, each accepted by its encoder.  However
    TCP cuts the request, the server's decoder returns one payload, and parsing
    it gives the request.  On any network, an exchange with that response next
    in the stream either fails or returns that response, with the whole request
    sent and the rest of the stream untouched; when every call moves a byte it
    does return it. *)
Theorem client_server_roundtrip `{ProtobufAgree} q r request reply rest timeout pieces s :
  encodeLoginRequestFrame q = Ok request -> encodeLoginResponseFrame r = Ok reply ->
  mjoin pieces = request -> n_in s = reply ++ rest ->
  (exists c p, consume_all fresh_codec pieces = Some (c, [p]) /\ ParseFromArray p = Some q)
  /\ (forall res s', exchange request timeout s = Some (res, s') -> er_failure res = FailureClass.Count ->
        er_response res = wire_of r /\ n_in s' = rest /\ n_out s' = n_out s ++ request)
  /\ (n_clock s <> [] -> Forall moves (n_sends s) -> (length request <= length (n_sends s))%nat ->
      Forall moves (n_recvs s) -> (length reply <= length (n_recvs s))%nat ->
      exists s', exchange request timeout s = Some (successfulExchange (wire_of r), s')).
Proof.
  intros Hq Hr Hp Hin. apply request_frame in Hq as (p & -> & Hok & Hparse). apply response_frame in Hr. split_and!.
  - destruct (frames_decode [p] pieces) as (c & E & _).
    + by apply Forall_singleton.
    + rewrite Hp. simpl. by rewrite app_nil_r.
    + rewrite Hp. unfold encode_frame, payload_ok, kMaxPayloadSize in *. rewrite size_of_app.
      unfold encodePayloadLength, size_of in *. simpl. lia.
    + by exists c, p.
  - intros res s' Hx Hc. by eapply exchange_sound.
  - intros. by eapply exchange_complete.
Qed.

(** A wire format for two messages. *)
Definition q_toy : LoginRequest := mkLoginRequest (Some 1) (Some 2) (Some "u") (Some "10.0.0.1") (Some "d") (Some SUCCESS).
Definition r_toy : LoginResponse := mkLoginResponse None ResponseStatus.OVERLOADED "service_overloaded".

Definition toy_server : Protobuf := {|
  ParseFromArray bytes := if bool_decide (bytes = [8; 1]) then Some q_toy else None;
  SerializeToString r := match r with
    | mkLoginResponse None ResponseStatus.OVERLOADED "service_overloaded" => Some [16; 1]
    | _ => None
    end;
|}.

Definition toy_client : ClientProtobuf := {|
  SerializeRequest q := match q with
    | mkLoginRequest (Some 1) (Some 2) (Some "u") (Some "10.0.0.1") (Some "d") (Some 1) => Some [8; 1]
    | _ => None
    end;
  ParseResponse bytes := if bool_decide (bytes = [16; 1]) then (true, wire_of r_toy) else (false, empty_response);
|}.

Lemma toy_agree : @ProtobufAgree toy_server toy_client.
Proof.
  split; simpl.
  - intros q p E. repeat (case_match; try discriminate E); by simplify_eq.
  - intros r p E. repeat (case_match; try discriminate E); by simplify_eq.
Defined.

Definition net_toy : Net :=
  mkNet [0] [] (replicate 6 (IoBytes 4)) (replicate 6 (IoBytes 3)) [] [] [] [0; 0; 0; 2; 16; 1; 9] [] [].

Lemma client_server_roundtrip_witness :
  exists s', @exchange toy_client [0; 0; 0; 2; 8; 1] 3000 net_toy = Some (successfulExchange (wire_of r_toy), s').
Proof.
  apply (@client_server_roundtrip toy_server toy_client toy_agree q_toy r_toy [0; 0; 0; 2; 8; 1] [0; 0; 0; 2; 16; 1] [9]
    3000 [[0; 0]; [0; 2; 8; 1]] net_toy eq_refl eq_refl eq_refl eq_refl); simpl; [done| |lia| |lia].
  all: repeat (constructor; [by eexists|]); constructor.
Defined.
