(* ===== verification/LoadGenerator.v ===== *)
(** * LoadGenerator: the benchmark client

    Model of [benchmark/load_generator.{hpp,cpp}] above the exchange of
    [LoadClient]: validation, requests, classification and recording of
    responses, the worker threads of a phase with their shared atomic counters,
    and the two phases of a run.  A thread moves from one access of a shared
    counter to the next; what it does in between is its own.  Floating-point
    values are not modelled: what the code decides on them is the record
    [Rates], the coin that makes a request an attack and the time a request is
    due are answers (so that [seed] is not used); throughput, latency summaries and their rendering are left
    out. *)

From S2P Require Import Prelude Posix Text IpAddress Config RiskService Codec Business LoadClient.
Open Scope Z_scope.

(** ** Configuration *)

Record LoadConfig := mkLoadConfig {
  lc_host : string;
  lc_port : Z;
  request_concurrency : Z;
  connection_pool_size : Z;
  requests_per_connection : Z;
  warmup : Z;                 (* times in milliseconds *)
  duration : Z;
  lc_connect_timeout : Z;
  lc_request_timeout : Z;
  normal_users : Z;
  normal_ip_count : Z;
  normal_device_count : Z;
  attack_users : Z;
  attack_ip : string;
  attack_device : string;
  entity_prefix : string;
}.

(** What the code decides on [target_qps] and [attack_ratio]. *)
Record Rates := mkRates {
  qps_valid : bool;      (* finite and not negative *)
  qps_positive : bool;
  ratio_valid : bool;    (* finite and within [0, 1] *)
  plan_fits : bool;      (* the planned requests are below 2^64 *)
  planned : Z -> Z;      (* [floor(target_qps * ms / 1000)] *)
}.

Record LoadConfigValidation := mkValidation { valid : bool; message : string }.

Definition containsWhitespace (value : string) : bool := existsb isspace (String.list_ascii_of_string value).

Definition isIpAddress `{Inet} (value : string) : bool :=
  (bool_decide (is_Some (inet_pton4 (c_str value))) || bool_decide (is_Some (inet_pton6 (c_str value))))%bool.

Definition scheduledRequests (config : LoadConfig) (rates : Rates) (ms : Z) : Z :=
  if ms =? 0 then 0
  else if negb (qps_positive rates) then wrap64 (connection_pool_size config * requests_per_connection config)
  else planned rates ms.

Definition validateLoadConfig `{Inet} (config : LoadConfig) (rates : Rates) : LoadConfigValidation :=
  let invalid := mkValidation false in
  if (bool_decide (lc_host config = "") || containsWhitespace (lc_host config))%bool
  then invalid "host 不能为空或包含空白"
  else if lc_port config =? 0 then invalid "port 必须大于 0"
  else if ((request_concurrency config =? 0) || (connection_pool_size config =? 0))%bool
  then invalid "request_concurrency 和 connection_pool_size 必须大于 0"
  else if connection_pool_size config <? request_concurrency config
  then invalid "request_concurrency 不得超过 connection_pool_size"
  else if requests_per_connection config =? 0 then invalid "requests_per_connection 必须大于 0"
  else if u64_max / requests_per_connection config <? connection_pool_size config
  then invalid "不限速请求数超出 size_t"
  else if negb (qps_valid rates) then invalid "target_qps 必须是非负有限数"
  else if ((duration config <=? 0) || (warmup config <? 0) || (lc_connect_timeout config <=? 0)
           || (lc_request_timeout config <=? 0))%bool
  then invalid "时长和超时配置无效"
  else if negb (ratio_valid rates) then invalid "attack_ratio 必须位于 [0,1]"
  else if ((normal_users config =? 0) || (normal_ip_count config =? 0) || (normal_device_count config =? 0)
           || (attack_users config =? 0))%bool
  then invalid "负载基数必须大于 0"
  else if (bool_decide (entity_prefix config = "") || containsWhitespace (entity_prefix config)
           || (64 <? Z.of_nat (String.length (entity_prefix config))))%bool
  then invalid "entity_prefix 必须为不超过 64 字节的单个 token"
  else if (bool_decide (attack_device config = "") || containsWhitespace (attack_device config)
           || (48 <? Z.of_nat (String.length (attack_device config))))%bool
  then invalid "attack_device 必须为不超过 48 字节的单个 token"
  else if negb (isIpAddress (attack_ip config)) then invalid "attack_ip 必须是合法 IPv4 或 IPv6 地址"
  else if (qps_positive rates && negb (plan_fits rates))%bool then invalid "计划请求数超出 uint64 范围"
  else
    let measured_count := scheduledRequests config rates (duration config) in
    let warmup_count := scheduledRequests config rates (warmup config) in
    if measured_count =? 0 then invalid "计量阶段至少需要一个请求"
    else if u64_max ⊖ measured_count <? warmup_count then invalid "预热与计量请求总数超出 uint64 范围"
    else mkValidation true "".

(** ** Requests *)

Definition makeRequest (config : LoadConfig) (attack : bool) (ordinal timestamp_ms : Z) : LoginRequest :=
  let id := Some (ordinal ⊕ 1) in
  if attack then
    mkLoginRequest id (Some timestamp_ms)
      (Some (entity_prefix config +:+ "_attack_user_" +:+ to_string (ordinal mod attack_users config)))
      (Some (attack_ip config)) (Some (entity_prefix config +:+ "_" +:+ attack_device config)) (Some FAIL)
  else
    let ip := ordinal mod normal_ip_count config in
    mkLoginRequest id (Some timestamp_ms)
      (Some (entity_prefix config +:+ "_normal_user_" +:+ to_string (ordinal mod normal_users config)))
      (Some ("198.51." +:+ to_string ((ip / 256) mod 256) +:+ "." +:+ to_string (ip mod 256)))
      (Some (entity_prefix config +:+ "_normal_device_" +:+ to_string (ordinal mod normal_device_count config)))
      (Some SUCCESS).

(** ** Counters *)

Definition failure_index (f : FailureClass.t) : nat :=
  match f with
  | FailureClass.Connect => 0 | FailureClass.ConnectTimeout => 1 | FailureClass.Send => 2 | FailureClass.Read => 3
  | FailureClass.PeerClosed => 4 | FailureClass.Protocol => 5 | FailureClass.Parse => 6 | FailureClass.Mismatch => 7
  | FailureClass.RequestTimeout => 8 | FailureClass.Internal => 9 | FailureClass.Count => 10
  end%nat.

(** [++values[index]] on a [std::array] of unsigned integers. *)
Definition bump (index : nat) (count : Z) (values : list Z) : list Z := alter (fun v => v ⊕ count) index values.

Definition failures_add (failure : FailureClass.t) (values : list Z) : list Z :=
  let index := failure_index failure in
  if (index <? length values)%nat then bump index 1 values else values.

(** [std::accumulate] over an array of counters. *)
Definition total (values : list Z) : Z := foldl (fun a v => a ⊕ v) 0 values.

Record PhaseCounters := mkCounters {
  issued_requests : Z;
  decoded_responses : Z;
  failed_requests : Z;
  connection_attempts : Z;
  connections_established : Z;
  planned_reconnects : Z;
  service_status_counts : list Z;
  decision_action_counts : list Z;
  policy_hit_counts : list Z;
  failures : list Z;
  latencies : list Z;
  schedule_lags : list Z;
}.

Definition fresh_counters : PhaseCounters :=
  mkCounters 0 0 0 0 0 0 (replicate 3 0) (replicate 3 0) (replicate 8 0) (replicate 10 0) [] [].

Definition kPolicyHitNames : list string :=
  ["blacklisted_user"; "blacklisted_ip"; "blacklisted_device"; "credential_stuffing_attack"; "too_many_failed_login";
   "ip_many_users_failed_login"; "device_many_accounts"; "other"].

(** The index of a reason among the names but the last, which stands for the others. *)
Fixpoint hit_index (reason : string) (names : list string) : nat :=
  match names with
  | [] | [_] => O
  | name :: names => if bool_decide (reason = name) then O else S (hit_index reason names)
  end.

Definition valid_action (action : Z) : bool := (action =? PASS) || (action =? REVIEW) || (action =? REJECT).

Definition classifyResponse (response : WireResponse) (attempt_id : Z) : FailureClass.t :=
  let without_decision :=
    if bool_decide (w_decision response = None) then FailureClass.Count else FailureClass.Protocol in
  if w_status response =? RESPONSE_STATUS_OVERLOADED then without_decision
  else if w_status response =? RESPONSE_STATUS_TIMEOUT then without_decision
  else if negb (w_status response =? RESPONSE_STATUS_OK) then FailureClass.Protocol
  else
    match w_decision response with
    | None => FailureClass.Mismatch
    | Some decision =>
        if negb (wd_attempt_id decision =? attempt_id) then FailureClass.Mismatch
        else if negb (valid_action (wd_action decision)) then FailureClass.Protocol
        else if existsb (fun hit => bool_decide (wh_reason_code hit = "") || negb (valid_action (wh_action hit)))%bool
                  (wd_policy_hits decision)
        then FailureClass.Protocol
        else FailureClass.Count
    end.

(** [response.decision()] is the default message when there is none. *)
Definition default_decision : WireDecision := mkWireDecision 0 "" 0 0 [] 0.

Definition recordResponse (counters : PhaseCounters) (response : WireResponse) : PhaseCounters :=
  let status i := counters <| service_status_counts := bump i 1 (service_status_counts counters) |> in
  if w_status response =? RESPONSE_STATUS_OK then
    let counters := status 0%nat in
    let decision := default default_decision (w_decision response) in
    let action i := counters <| decision_action_counts := bump i 1 (decision_action_counts counters) |> in
    let counters :=
      if wd_action decision =? PASS then action 0%nat
      else if wd_action decision =? REVIEW then action 1%nat
      else if wd_action decision =? REJECT then action 2%nat
      else counters in
    counters <| policy_hit_counts :=
      foldl (fun counts hit => bump (hit_index (wh_reason_code hit) kPolicyHitNames) 1 counts)
        (policy_hit_counts counters) (wd_policy_hits decision) |>
  else if w_status response =? RESPONSE_STATUS_OVERLOADED then status 1%nat
  else if w_status response =? RESPONSE_STATUS_TIMEOUT then status 2%nat
  else counters.

Definition add_arrays (a b : list Z) : list Z := zip_with (fun x y => x ⊕ y) a b.

Definition mergeCounters (target source : PhaseCounters) : PhaseCounters :=
  mkCounters (issued_requests target ⊕ issued_requests source)
    (decoded_responses target ⊕ decoded_responses source)
    (failed_requests target ⊕ failed_requests source)
    (connection_attempts target ⊕ connection_attempts source)
    (connections_established target ⊕ connections_established source)
    (planned_reconnects target ⊕ planned_reconnects source)
    (add_arrays (service_status_counts target) (service_status_counts source))
    (add_arrays (decision_action_counts target) (decision_action_counts source))
    (add_arrays (policy_hit_counts target) (policy_hit_counts source))
    (add_arrays (failures target) (failures source))
    (latencies target ++ latencies source) (schedule_lags target ++ schedule_lags source).

Definition elapsedMicros (start finish : Z) : Z := if finish <=? start then 0 else (finish - start) ÷ 1000.

(** ** A worker thread *)

(** Where a thread is between two accesses of the shared counters. *)
Inductive Pc :=
| PNext                                (* before [next_phase_ordinal.fetch_add] *)
| PIssue (ordinal : Z)                 (* before [outstanding.fetch_add] *)
| PLoad (ordinal issued_at active : Z)           (* before [high.load] *)
| PCas (ordinal issued_at active current : Z)    (* before [high.compare_exchange_weak] *)
| PWork (ordinal issued_at : Z)        (* before [outstanding.fetch_sub] *)
| PDone.

Record Worker := mkWorker {
  pc : Pc;
  connections : list Connection;
  cursor : Z;
  counters : PhaseCounters;
  fd_log : list FdEvent;
}.

(** The atomics; [peak] and [issued] are not in the code: the greatest value of
    [outstanding] so far and the ordinals issued. *)
Record Shared := mkShared {
  next_phase_ordinal : Z;
  outstanding : Z;
  outstanding_high : Z;
  peak : Z;
  issued : list Z;
}.

(** What a step learns from outside. *)
Record Answers := mkAnswers {
  a_due : Z;
  a_now : Z;
  a_attack : bool;
  a_epoch_ms : Z;
  a_spurious : bool;   (* the compare-exchange fails without a reason *)
  a_net : Net;
}.

Section Phase.
Context `{ClientProtobuf} (config : LoadConfig) (first_ordinal request_count : Z).

(** The connection, reopened when it has served its requests or is closed. *)
Definition obtain_connection (c : Connection) (k : PhaseCounters) : N (Connection * PhaseCounters * FailureClass.t) :=
  renewed ← (if requests_per_connection config <=? requests c
             then c ← close c; mret (c, k <| planned_reconnects := planned_reconnects k ⊕ 1 |>)
             else mret (c, k));
  let '(c, k) := renewed in
  if fd c <? 0 then
    let k := k <| connection_attempts := connection_attempts k ⊕ 1 |> in
    opened ← connectSocket c (lc_connect_timeout config);
    let '(c, failure) := opened in
    mret (c, if bool_decide (failure = FailureClass.Count)
             then k <| connections_established := connections_established k ⊕ 1 |> else k, failure)
  else mret (c, k, FailureClass.Count).

(** The exchange on it, with the class of its outcome. *)
Definition use_connection (a : Answers) (ordinal : Z) (c : Connection) : N (Connection * FailureClass.t * WireResponse) :=
  exchanged ← match encodeLoginRequestFrame (makeRequest config (a_attack a) ordinal (a_epoch_ms a)) with
              | Throw _ => mret (failedExchange FailureClass.Internal)
              | Ok frame => exchange frame (lc_request_timeout config)
              end;
  let failure :=
    if bool_decide (er_failure exchanged = FailureClass.Count)
    then classifyResponse (er_response exchanged) (ordinal ⊕ 1) else er_failure exchanged in
  mret (c <| requests := requests c ⊕ 1 |>, failure, er_response exchanged).

(** What is recorded, and whether the connection is kept. *)
Definition record_outcome (issued_at : Z) (c : Connection) (k : PhaseCounters) (failure : FailureClass.t)
    (response : WireResponse) : N (Connection * PhaseCounters) :=
  if bool_decide (failure = FailureClass.Count) then
    finish ← now;
    let k := k <| decoded_responses := decoded_responses k ⊕ 1 |>
               <| latencies := latencies k ++ [elapsedMicros issued_at finish] |> in
    let k := recordResponse k response in
    if w_status response =? RESPONSE_STATUS_TIMEOUT
    then c ← close c; mret (c, k <| planned_reconnects := planned_reconnects k ⊕ 1 |>)
    else mret (c, k)
  else
    let k := k <| failed_requests := failed_requests k ⊕ 1 |> <| failures := failures_add failure (failures k) |> in
    c ← close c; mret (c, k).

Definition perform (a : Answers) (ordinal issued_at : Z) (c : Connection) (k : PhaseCounters)
    : N (Connection * PhaseCounters) :=
  obtained ← obtain_connection c k;
  let '(c, k, failure) := obtained in
  if bool_decide (failure = FailureClass.Count) then
    used ← use_connection a ordinal c;
    let '(c, failure, response) := used in
    record_outcome issued_at c k failure response
  else record_outcome issued_at c k failure empty_response.

(** [while (current < value && !compare_exchange_weak(...))] *)
Definition watermark (ordinal issued_at active current : Z) : Pc :=
  if current <? active then PCas ordinal issued_at active current else PWork ordinal issued_at.

Definition worker_step (a : Answers) (sh : Shared) (w : Worker) : option (Shared * Worker) :=
  match pc w with
  | PNext =>
      let phase_ordinal := next_phase_ordinal sh in
      Some (sh <| next_phase_ordinal := phase_ordinal ⊕ 1 |>,
            w <| pc := if request_count <=? phase_ordinal then PDone else PIssue phase_ordinal |>)
  | PIssue phase_ordinal =>
      let active := outstanding sh ⊕ 1 in
      let k := counters w in
      let k := k <| issued_requests := issued_requests k ⊕ 1 |>
                 <| schedule_lags := schedule_lags k ++ [elapsedMicros (a_due a) (a_now a)] |> in
      Some (sh <| outstanding := active |> <| peak := Z.max (peak sh) active |> <| issued := issued sh ++ [phase_ordinal] |>,
            w <| counters := k |> <| pc := PLoad (first_ordinal ⊕ phase_ordinal) (a_now a) active |>)
  | PLoad ordinal issued_at active => Some (sh, w <| pc := watermark ordinal issued_at active (outstanding_high sh) |>)
  | PCas ordinal issued_at active current =>
      if (negb (a_spurious a) && (outstanding_high sh =? current))%bool
      then Some (sh <| outstanding_high := active |>, w <| pc := PWork ordinal issued_at |>)
      else Some (sh, w <| pc := watermark ordinal issued_at active (outstanding_high sh) |>)
  | PWork ordinal issued_at =>
      let i := Z.to_nat (cursor w mod size_of (connections w)) in
      match connections w !! i with
      | None => None
      | Some c =>
          match perform a ordinal issued_at c (counters w) ((a_net a) <| n_fds := fd_log w |>) with
          | None => None
          | Some ((c, k), net) =>
              Some (sh <| outstanding := outstanding sh ⊖ 1 |>,
                    mkWorker PNext (<[i := c]> (connections w)) (cursor w ⊕ 1) k (n_fds net))
          end
      end
  | PDone => None
  end.

(** One step of the thread with that index. *)
Definition phase_step (p : Shared * list Worker) (e : nat * Answers) : option (Shared * list Worker) :=
  let '(sh, ws) := p in
  let '(i, a) := e in
  w ← ws !! i;
  '(sh, w) ← worker_step a sh w;
  Some (sh, <[i := w]> ws).

Definition phase_steps (p : Shared * list Worker) (es : list (nat * Answers)) : option (Shared * list Worker) :=
  foldl (fun p e => p ≫= fun p => phase_step p e) (Some p) es.
End Phase.

Definition is_done (w : Worker) : bool := match pc w with PDone => true | _ => false end.

Definition shared_start : Shared := mkShared 0 0 0 0 [].

(** The threads of a phase start with the connections the last phase left. *)
Definition start_worker (state : list Connection * list FdEvent) : Worker :=
  mkWorker PNext state.1 0 fresh_counters state.2.

Record PhaseResult := mkPhaseResult { ph_counters : PhaseCounters; max_outstanding_requests : Z; ph_issued : list Z }.

(** [None] while a thread has not ended.  A phase without requests does nothing. *)
Definition runPhase `{ClientProtobuf} (config : LoadConfig) (first_ordinal request_count : Z)
    (states : list (list Connection * list FdEvent)) (run : list (nat * Answers))
    : option (PhaseResult * list (list Connection * list FdEvent)) :=
  if request_count =? 0 then Some (mkPhaseResult fresh_counters 0 [], states)
  else
    '(sh, ws) ← phase_steps config first_ordinal request_count (shared_start, start_worker <$> states) run;
    if forallb is_done ws then
      Some (mkPhaseResult (foldl mergeCounters fresh_counters (counters <$> ws)) (outstanding_high sh) (issued sh),
            (fun w => (connections w, fd_log w)) <$> ws)
    else None.

(** ** A run *)

(** The counters of the two phases are kept as they are; the code copies those of
    the measured phase field by field. *)
Record BenchmarkMetrics := mkMetrics {
  expected_requests : Z;
  measured : PhaseCounters;
  warmed_up : PhaseCounters;
  m_connection_attempts : Z;
  m_connections_established : Z;
  m_planned_reconnects : Z;
  m_max_outstanding : Z;
}.

Definition accountingConsistent (m : BenchmarkMetrics) : bool :=
  let k := measured m in
  (issued_requests k =? decoded_responses k ⊕ failed_requests k)
  && (decoded_responses k =? total (service_status_counts k))
  && (service_status_counts k !!! 0%nat =? total (decision_action_counts k))
  && (failed_requests k =? total (failures k)).

Definition requestAccountingConsistent (m : BenchmarkMetrics) : bool :=
  (expected_requests m =? issued_requests (measured m)) && accountingConsistent m.

(** [states[index % states.size()].connections.emplace_back()] for each index. *)
Definition spread (config : LoadConfig) : list (list Connection * list FdEvent) :=
  let size := Z.to_nat (request_concurrency config) in
  foldl (fun states index => alter (fun s => (s.1 ++ [fresh_connection], s.2)) (index mod size)%nat states)
    (replicate size ([], [])) (seq 0 (Z.to_nat (connection_pool_size config))).

(** When the states go out of scope their connections are closed. *)
Definition destroy_connection (c : Connection) (log : list FdEvent) : list FdEvent :=
  if fd c <? 0 then log else log ++ [FdClosed (fd c)].

Definition destroy (state : list Connection * list FdEvent) : list FdEvent :=
  foldl (fun log c => destroy_connection c log) state.2 state.1.

(** [getaddrinfo] answered [status] and addresses of these sizes: the first that
    fits a [sockaddr_storage]. *)
Definition sockaddr_storage_size : Z := 128.

Definition resolveEndpoint (status : Z) (addresses : list Z) : result Z :=
  if negb (status =? 0) then Throw "无法解析 benchmark 目标"
  else
    match List.find (fun size => size <=? sockaddr_storage_size) addresses with
    | None => Throw "benchmark 目标没有可用地址"
    | Some size => if size =? 0 then Throw "benchmark 目标没有可用地址" else Ok size
    end.

(** The answers of the two phases; with the metrics, what happened to the
    descriptors of each thread and which ordinals were issued. *)
Definition runBenchmark `{Inet} `{ClientProtobuf} (config : LoadConfig) (rates : Rates)
    (status : Z) (addresses : list Z) (warmup_run measured_run : list (nat * Answers))
    : option (result (BenchmarkMetrics * list (list FdEvent) * list Z)) :=
  if negb (valid (validateLoadConfig config rates)) then Some (Throw (message (validateLoadConfig config rates)))
  else
    let warmup_requests := scheduledRequests config rates (warmup config) in
    let measured_requests := scheduledRequests config rates (duration config) in
    match resolveEndpoint status addresses with
    | Throw what => Some (Throw what)
    | Ok _ =>
        match runPhase config 0 warmup_requests (spread config) warmup_run with
        | None => None
        | Some (w, states) =>
            match runPhase config warmup_requests measured_requests states measured_run with
            | None => None
            | Some (m, states) =>
                let kw := ph_counters w in
                let km := ph_counters m in
                Some (Ok (mkMetrics measured_requests km kw
                            (connection_attempts kw ⊕ connection_attempts km)
                            (connections_established kw ⊕ connections_established km)
                            (planned_reconnects kw ⊕ planned_reconnects km)
                            (Z.max (max_outstanding_requests w) (max_outstanding_requests m)),
                          destroy <$> states, ph_issued m))
            end
        end
    end.
