(* ===== verification/LoadGeneratorSafety.v ===== *)
(** * LoadGeneratorSafety: the books of the benchmark

    Theorems about [LoadGenerator]: what one request does to the counters and to
    the descriptors of its thread, the invariant of a phase under every
    interleaving of its threads, the end of a phase and the accounting of a run. *)

From Stdlib Require Import Morphisms.
From S2P Require Import Prelude Posix Text IpAddress Config RiskService Codec Business LoadClient LoadGenerator.
Open Scope Z_scope.

(** ** Arithmetic modulo 2^64 *)

Record cong64 (a b : Z) : Prop := Cong64 { same_wrap : wrap64 a = wrap64 b }.

#[export] Instance cong64_equiv : Equivalence cong64.
Proof. split; [by intros ?|by intros ?? []|intros ??? [] []; split; congruence]. Qed.

#[export] Instance cong64_add : Proper (cong64 ==> cong64 ==> cong64) Z.add.
Proof.
  intros a a' [Ha] b b' [Hb]. split. unfold wrap64 in *. by rewrite Z.add_mod, Ha, Hb, <-Z.add_mod.
Qed.

Lemma cong64_wrap a : cong64 (wrap64 a) a.
Proof. split. apply wrap64_idem. Qed.

Lemma cong64_eq a b : cong64 a b -> is_u64 a -> is_u64 b -> a = b.
Proof. intros [E] Ha Hb. by rewrite !wrap64_small in E. Qed.

(** Equal as integers. *)
Lemma cong64_of a b : a = b -> cong64 a b.
Proof. by intros ->. Qed.

Lemma total_wrap l : total l = wrap64 (zsum l).
Proof.
  unfold total. assert (forall a, is_u64 a -> foldl (fun a v => a ⊕ v) a l = wrap64 (a + zsum l)) as Hall.
  { induction l as [|x l IH]; intros a Ha; simpl; [by rewrite Z.add_0_r, wrap64_small|].
    rewrite IH by apply wrap64_range. apply (same_wrap (wrap64 (a + x) + zsum l) (a + (x + zsum l))).
    rewrite cong64_wrap. apply cong64_of. lia. }
  rewrite Hall by (unfold is_u64; lia). done.
Qed.

Lemma zsum_bump i n l : (i < length l)%nat -> cong64 (zsum (bump i n l)) (zsum l + n).
Proof.
  unfold bump. revert i. induction l as [|x l IH]; intros [|i] Hi; csimpl in *; [lia|lia| |].
  - rewrite cong64_wrap. apply cong64_of. lia.
  - rewrite IH by lia. apply cong64_of. lia.
Qed.

Lemma length_bump i n l : length (bump i n l) = length l.
Proof. apply length_alter. Qed.

Lemma zsum_add_arrays a b : length a = length b -> cong64 (zsum (add_arrays a b)) (zsum a + zsum b).
Proof.
  unfold add_arrays. revert b. induction a as [|x a IH]; intros [|y b] Hl; simplify_eq/=; [done|].
  rewrite IH, cong64_wrap by done. apply cong64_of. lia.
Qed.

(** ** The books of one thread *)

(** [busy] requests are issued and not yet recorded. *)
Record books (busy : Z) (k : PhaseCounters) : Prop := {
  bk_sizes : length (service_status_counts k) = 3%nat /\ length (decision_action_counts k) = 3%nat
             /\ length (policy_hit_counts k) = 8%nat /\ length (failures k) = 10%nat;
  bk_issued : cong64 (issued_requests k) (decoded_responses k + failed_requests k + busy);
  bk_decoded : cong64 (decoded_responses k) (zsum (service_status_counts k));
  bk_ok : cong64 (service_status_counts k !!! 0%nat) (zsum (decision_action_counts k));
  bk_failed : cong64 (failed_requests k) (zsum (failures k));
  bk_range : is_u64 (issued_requests k) /\ is_u64 (decoded_responses k) /\ is_u64 (failed_requests k)
             /\ is_u64 (service_status_counts k !!! 0%nat);
}.

Lemma books_fresh : books 0 fresh_counters.
Proof. split; [done|done|done|done|done|]. unfold is_u64. simpl. lia. Qed.

Lemma head_add_arrays a b : length a = 3%nat -> length b = 3%nat ->
  add_arrays a b !!! 0%nat = (a !!! 0%nat) ⊕ (b !!! 0%nat).
Proof. destruct a, b; intros; by simplify_eq/=. Qed.

Lemma books_merge n m a b : books n a -> books m b -> books (n + m) (mergeCounters a b).
Proof.
  intros [(A1 & A2 & A3 & A4) AI AD AO AF _] [(B1 & B2 & B3 & B4) BI BD BO BF _]. split; simpl.
  - unfold add_arrays. rewrite !length_zip_with. lia.
  - rewrite !cong64_wrap, AI, BI. apply cong64_of. lia.
  - rewrite cong64_wrap, AD, BD. symmetry. apply zsum_add_arrays. congruence.
  - rewrite head_add_arrays by done. rewrite cong64_wrap, AO, BO. symmetry. apply zsum_add_arrays. congruence.
  - rewrite cong64_wrap, AF, BF. symmetry. apply zsum_add_arrays. congruence.
  - rewrite head_add_arrays by done. split_and!; apply wrap64_range.
Qed.

Lemma books_merge_all ks busys :
  Forall2 books busys ks -> forall n k, books n k -> books (n + zsum busys) (foldl mergeCounters k ks).
Proof.
  induction 1 as [|m b ms bs Hb _ IH]; intros n k Hk; simpl; [by rewrite Z.add_0_r|].
  rewrite Z.add_assoc. by apply IH, books_merge.
Qed.

Lemma issued_merge_all ks k :
  cong64 (issued_requests (foldl mergeCounters k ks)) (issued_requests k + zsum (issued_requests <$> ks)).
Proof.
  revert k. induction ks as [|b ks IH]; intros k; csimpl; [by rewrite Z.add_0_r|].
  rewrite IH. csimpl. rewrite cong64_wrap. apply cong64_of. lia.
Qed.

(** Other counters do not matter. *)
Lemma books_same n k k' :
  issued_requests k' = issued_requests k -> decoded_responses k' = decoded_responses k ->
  failed_requests k' = failed_requests k -> service_status_counts k' = service_status_counts k ->
  decision_action_counts k' = decision_action_counts k -> policy_hit_counts k' = policy_hit_counts k ->
  failures k' = failures k -> books n k -> books n k'.
Proof. intros E1 E2 E3 E4 E5 E6 E7 [? ? ? ? ? ?]. split; congruence || (rewrite ?E1, ?E2, ?E3, ?E4, ?E5, ?E6, ?E7; done). Qed.

Lemma books_issue k : books 0 k -> books 1 (k <| issued_requests := issued_requests k ⊕ 1 |>).
Proof.
  intros [S I D O F (? & ? & ? & ?)]. split; simpl; [done| |done..|].
  - rewrite cong64_wrap, I. apply cong64_of. lia.
  - split_and!; try done; apply wrap64_range.
Qed.

Lemma books_fail k f :
  f <> FailureClass.Count -> books 1 k ->
  books 0 (k <| failed_requests := failed_requests k ⊕ 1 |> <| failures := failures_add f (failures k) |>).
Proof.
  intros Hf [(S1 & S2 & S3 & S4) I D O F (? & ? & ? & ?)].
  assert (failures_add f (failures k) = bump (failure_index f) 1 (failures k)) as Ef.
  { unfold failures_add. rewrite S4. by destruct f. }
  assert (failure_index f < 10)%nat as Hi by (destruct f; simpl; lia || done).
  split; simpl; rewrite ?Ef.
  - by rewrite length_bump.
  - rewrite cong64_wrap, I. apply cong64_of. lia.
  - done.
  - done.
  - rewrite cong64_wrap, zsum_bump, F by lia. done.
  - split_and!; try done; apply wrap64_range.
Qed.

Lemma head_bump i n l : (i < length l)%nat -> bump (S i) n l !!! 0%nat = l !!! 0%nat.
Proof. destruct l; simpl; [lia|done]. Qed.

Lemma head_bump_0 n l : l <> [] -> bump 0 n l !!! 0%nat = (l !!! 0%nat) ⊕ n.
Proof. by destruct l. Qed.

Lemma length_hits hits l :
  length (foldl (fun counts hit => bump (hit_index (wh_reason_code hit) kPolicyHitNames) 1 counts) l hits) = length l.
Proof. revert l. induction hits as [|h hits IH]; intros l; simpl; [done|]. by rewrite IH, length_bump. Qed.

(** A counter of decisions for each valid action. *)
Lemma action_index x :
  valid_action x = true -> (x =? PASS) = true \/ ((x =? PASS) = false /\ (x =? REVIEW) = true)
                          \/ ((x =? PASS) = false /\ (x =? REVIEW) = false /\ (x =? REJECT) = true).
Proof. unfold valid_action. destruct (x =? PASS), (x =? REVIEW), (x =? REJECT); simpl; auto. Qed.

Lemma books_bump_status i k :
  (i < 2)%nat -> books 1 k ->
  books 0 (k <| decoded_responses := decoded_responses k ⊕ 1 |>
             <| service_status_counts := bump (S i) 1 (service_status_counts k) |>).
Proof.
  intros Hi [(S1 & S2 & S3 & S4) I D O F (? & ? & ? & ?)]. split; simpl.
  - by rewrite length_bump.
  - rewrite cong64_wrap, I. apply cong64_of. lia.
  - rewrite cong64_wrap, zsum_bump, D by lia. done.
  - by rewrite head_bump by lia.
  - done.
  - rewrite head_bump by lia. split_and!; try done; apply wrap64_range.
Qed.

Lemma books_ok_status j k hits :
  (j < 3)%nat -> length hits = 8%nat -> books 1 k ->
  books 0 (k <| decoded_responses := decoded_responses k ⊕ 1 |>
             <| service_status_counts := bump 0 1 (service_status_counts k) |>
             <| decision_action_counts := bump j 1 (decision_action_counts k) |> <| policy_hit_counts := hits |>).
Proof.
  intros Hj Hh [(S1 & S2 & S3 & S4) I D O F (? & ? & ? & ?)].
  assert (service_status_counts k <> []) as Hne by (intros E; by rewrite E in S1). split; simpl.
  - by rewrite !length_bump.
  - rewrite cong64_wrap, I. apply cong64_of. lia.
  - rewrite cong64_wrap, zsum_bump, D by lia. done.
  - rewrite head_bump_0, cong64_wrap, zsum_bump, O by (done || lia). done.
  - done.
  - rewrite head_bump_0 by done. split_and!; try done; apply wrap64_range.
Qed.

Lemma books_decode id response k :
  classifyResponse response id = FailureClass.Count -> books 1 k ->
  books 0 (recordResponse (k <| decoded_responses := decoded_responses k ⊕ 1 |>) response).
Proof.
  intros Hc Hb. pose proof Hb as [(_ & _ & S3 & _) _ _ _ _ _]. unfold classifyResponse in Hc. unfold recordResponse.
  destruct response as [d st rc]. cbn [w_status w_decision] in *.
  destruct (Z.eqb_spec st RESPONSE_STATUS_OVERLOADED) as [->|H1]; [exact (books_bump_status 0 k ltac:(lia) Hb)|].
  destruct (Z.eqb_spec st RESPONSE_STATUS_TIMEOUT) as [->|H2]; [exact (books_bump_status 1 k ltac:(lia) Hb)|].
  destruct (Z.eqb_spec st RESPONSE_STATUS_OK) as [->|H3]; [|done]. simpl negb in Hc. cbn iota in Hc.
  destruct d as [d|]; [|done]. destruct (negb (wd_attempt_id d =? id)); [done|].
  destruct (valid_action (wd_action d)) eqn:Ev; [|done]. cbn zeta. change (default default_decision (Some d)) with d.
  set (hits := foldl _ _ _). assert (length hits = 8%nat) as Hl.
  { unfold hits. rewrite length_hits. by repeat case_if. }
  clearbody hits. destruct (action_index _ Ev) as [E|[[E1 E2]|(E1 & E2 & E3)]].
  - rewrite E. exact (books_ok_status 0 k hits ltac:(lia) Hl Hb).
  - rewrite E1, E2. exact (books_ok_status 1 k hits ltac:(lia) Hl Hb).
  - rewrite E1, E2, E3. exact (books_ok_status 2 k hits ltac:(lia) Hl Hb).
Qed.

(** ** The connection of one request *)

(** From [c] to [c'], no descriptor is lost and none is closed twice. *)
Definition fds_follow (s s' : Net) (c c' : Connection) : Prop :=
  exists evs, n_fds s' = n_fds s ++ evs /\ held c ++ fds_opened evs ≡ₚ fds_closed evs ++ held c'.

Lemma fds_follow_same s s' c c' : n_fds s' = n_fds s -> fd c' = fd c -> fds_follow s s' c c'.
Proof. intros E Ef. exists []. unfold held. by rewrite E, Ef, !app_nil_r. Qed.

Lemma fds_follow_trans s1 s2 s3 c1 c2 c3 : fds_follow s1 s2 c1 c2 -> fds_follow s2 s3 c2 c3 -> fds_follow s1 s3 c1 c3.
Proof.
  intros (e1 & F1 & P1) (e2 & F2 & P2). exists (e1 ++ e2).
  rewrite F2, F1, app_assoc, fds_opened_app, fds_closed_app. split; [done|].
  by rewrite app_assoc, P1, <-!app_assoc, P2.
Qed.

Section Perform.
Context `{ClientProtobuf} (config : LoadConfig) (first_ordinal request_count : Z).
Hypothesis quota : 0 < requests_per_connection config < two64.

(** A connection serves at most its quota, and a closed one has served none. *)
Definition conn_ok (c : Connection) : Prop :=
  0 <= requests c <= requests_per_connection config /\ (fd c < 0 -> requests c = 0).

Lemma closed_ok c : fd c < 0 -> requests c = 0 -> conn_ok c.
Proof. unfold conn_ok. lia. Qed.

Lemma close_follow c s c' s' : close c s = Some (c', s') -> fds_follow s s' c c' /\ conn_ok c' /\ fd c' < 0.
Proof. intros E. apply close_rewired in E as ([_ _ F] & _ & Hf & Hr). split_and!; [done|by apply closed_ok|done]. Qed.

(** What the first half leaves: a connection with room for a request, or a failure. *)
Lemma obtain_spec c k s c' k' f s' n :
  conn_ok c -> books n k -> obtain_connection config c k s = Some ((c', k', f), s') ->
  fds_follow s s' c c' /\ books n k' /\ issued_requests k' = issued_requests k /\ conn_ok c'
  /\ (f = FailureClass.Count -> 0 <= fd c' /\ requests c' < requests_per_connection config).
Proof.
  intros Hc Hb Hrun. unfold obtain_connection in Hrun. n_inv. destruct p as [c1 k1].
  assert (fds_follow s n0 c c1 /\ books n k1 /\ issued_requests k1 = issued_requests k /\ conn_ok c1
    /\ requests c1 < requests_per_connection config) as (F1 & B1 & I1 & C1 & R1).
  { destruct (_ <=? _) eqn:Eq; n_inv; bool_to_prop.
    - apply close_follow in E0 as E'. destruct E' as (F & C & _). apply close_rewired in E0 as (_ & _ & _ & Er).
      split_and!; [done| |done|done|lia]. by eapply books_same, Hb.
    - split_and!; [by apply fds_follow_same|done..]. }
  destruct (fd c1 <? 0) eqn:Ef; bool_to_prop; n_inv; [|by split_and!].
  destruct p as [c2 f2]. n_inv. apply connectSocket_spec in E0 as ([_ _ F2] & Hr & D).
  split_and!; [by eapply fds_follow_trans| | | |].
  - case_if; by eapply books_same, B1.
  - by case_if.
  - unfold conn_ok. lia.
  - intros ->. destruct D as [[_ ?]|[[?|?] _]]; [lia|done..].
Qed.

Lemma use_spec a ordinal c s c' f r s' :
  conn_ok c -> 0 <= fd c -> requests c < requests_per_connection config ->
  use_connection config a ordinal c s = Some ((c', f, r), s') ->
  fds_follow s s' c c' /\ conn_ok c' /\ (f = FailureClass.Count -> classifyResponse r (ordinal ⊕ 1) = FailureClass.Count).
Proof.
  intros Hc Hfd Hq Hrun. unfold use_connection in Hrun. n_inv. split_and!.
  - apply fds_follow_same; [|done]. destruct (encodeLoginRequestFrame _); n_inv; [|done].
    apply exchange_spec in E as (? & ? & _ & [_ _ Hf] & _). done.
  - unfold conn_ok in *. simpl. rewrite wrap64_small by (unfold is_u64; lia). lia.
  - by case_if.
Qed.

Lemma recordResponse_issued k r : issued_requests (recordResponse k r) = issued_requests k.
Proof. unfold recordResponse. by repeat case_if. Qed.

Lemma record_spec issued_at c k f r s c' k' s' id :
  conn_ok c -> books 1 k -> (f = FailureClass.Count -> classifyResponse r id = FailureClass.Count) ->
  record_outcome issued_at c k f r s = Some ((c', k'), s') ->
  fds_follow s s' c c' /\ books 0 k' /\ issued_requests k' = issued_requests k /\ conn_ok c'.
Proof.
  intros Hc Hb Hcl Hrun. unfold record_outcome in Hrun. destruct (bool_decide _) eqn:Ed; bool_to_prop; n_inv.
  - set (k1 := _ <| latencies := _ |>) in *.
    assert (books 0 (recordResponse k1 r) /\ issued_requests (recordResponse k1 r) = issued_requests k) as [B I].
    { rewrite recordResponse_issued. split; [|done].
      eapply books_same, (books_decode id r k); [..|by apply Hcl|done]; unfold recordResponse; by repeat case_if. }
    assert (fds_follow s n c c) as F by (apply now_waited in E as (? & ? & ->); by apply fds_follow_same).
    destruct (_ =? RESPONSE_STATUS_TIMEOUT); n_inv; [|by split_and!].
    apply close_follow in E0 as (F' & C & _). split_and!; [by eapply fds_follow_trans| |done|done]. by eapply books_same, B.
  - apply close_follow in E as (F & C & _). split_and!; [done|by apply books_fail|done|done].
Qed.

Lemma perform_spec a ordinal issued_at c k s c' k' s' :
  conn_ok c -> books 1 k -> perform config a ordinal issued_at c k s = Some ((c', k'), s') ->
  fds_follow s s' c c' /\ books 0 k' /\ issued_requests k' = issued_requests k /\ conn_ok c'.
Proof.
  intros Hc Hb Hrun. unfold perform in Hrun. n_inv. destruct p as [[c1 k1] f].
  apply (obtain_spec c k s c1 k1 f n 1) in E as (F1 & B1 & I1 & C1 & R1); [|done..].
  destruct (bool_decide (f = _)) eqn:Ed; bool_to_prop; n_inv.
  - destruct p as [[c2 f2] r]. destruct (R1 Ed) as [R2 R3]. apply use_spec in E as (F2 & C2 & Hcl); [|done..].
    eapply record_spec in Hrun as (F3 & B3 & I3 & C3); [|done..].
    split_and!; [|done|congruence|done]. by eapply fds_follow_trans, fds_follow_trans.
  - eapply (record_spec _ _ _ _ _ _ _ _ _ 0) in Hrun as (F3 & B3 & I3 & C3); [|done..].
    split_and!; [by eapply fds_follow_trans|done|congruence|done].
Qed.
End Perform.

(** ** The invariant of a phase *)

Definition busy (w : Worker) : Z := match pc w with PLoad _ _ _ | PCas _ _ _ _ | PWork _ _ => 1 | _ => 0 end.
Definition pending (w : Worker) : list Z := match pc w with PIssue ordinal => [ordinal] | _ => [] end.
Definition done_count (w : Worker) : Z := if is_done w then 1 else 0.

(** The thread has yet to make [outstanding_high] at least this. *)
Definition raising (w : Worker) : option Z :=
  match pc w with PLoad _ _ active | PCas _ _ active _ => Some active | _ => None end.

Record worker_ok (config : LoadConfig) (w : Worker) : Prop := {
  wk_books : books (busy w) (counters w);
  wk_some : connections w <> [];
  wk_conns : Forall (conn_ok config) (connections w);
  wk_fds : fds_balanced (fd_log w) (mjoin (held <$> connections w));
}.

(** A thread and the high-water mark. *)
Definition mark_ok (sh : Shared) (w : Worker) : Prop :=
  match pc w with
  | PLoad _ _ active => active <= peak sh
  | PCas _ _ active current => current < active <= peak sh /\ 0 <= current <= outstanding_high sh
  | _ => True
  end.

Record phase_ok (config : LoadConfig) (request_count : Z) (sh : Shared) (ws : list Worker) : Prop := {
  po_workers : Forall (worker_ok config) ws;
  po_outstanding : outstanding sh = zsum (busy <$> ws);
  po_next : 0 <= next_phase_ordinal sh <= request_count + zsum (done_count <$> ws);
  po_done : Forall (fun w => is_done w = true -> request_count <= next_phase_ordinal sh) ws;
  po_issued : issued sh ++ mjoin (pending <$> ws) ≡ₚ seqZ 0 (Z.min (next_phase_ordinal sh) request_count);
  po_count : cong64 (zsum ((fun w => issued_requests (counters w)) <$> ws)) (size_of (issued sh));
  po_marks : Forall (mark_ok sh) ws;
  po_peak : outstanding sh <= peak sh <= size_of ws /\ 0 <= outstanding_high sh <= peak sh;
  po_high : outstanding_high sh = peak sh \/ exists w, w ∈ ws /\ raising w = Some (peak sh);
}.

#[export] Instance phase_ok_perm config n sh : Proper ((≡ₚ) ==> impl) (phase_ok config n sh).
Proof.
  intros ws ws' Hp [W O N D I C M P H]. split.
  - by rewrite <-Hp.
  - rewrite O. apply zsum_permutation. by rewrite Hp.
  - by rewrite <-(zsum_permutation (done_count <$> ws) (done_count <$> ws')) by (by rewrite Hp).
  - by rewrite <-Hp.
  - rewrite <-I. by rewrite Hp.
  - by rewrite <-(zsum_permutation ((fun w => issued_requests (counters w)) <$> ws)
                    ((fun w => issued_requests (counters w)) <$> ws')) by (by rewrite Hp).
  - by rewrite <-Hp.
  - unfold size_of in *. by rewrite <-Hp.
  - destruct H as [H|(w & Hw & H)]; [by left|right]. exists w. by rewrite <-Hp.
Qed.

Lemma zsum_le_size {A} (f : A -> Z) l : (forall x, f x <= 1) -> zsum (f <$> l) <= size_of l.
Proof.
  intros Hf. induction l as [|x l IH]; csimpl; [done|]. rewrite size_of_cons. pose proof (Hf x). lia.
Qed.

Lemma busy_le w : busy w <= 1.
Proof. unfold busy. by destruct (pc w). Qed.

Lemma done_le w : done_count w <= 1.
Proof. unfold done_count. by destruct (is_done w). Qed.

Lemma zsum_fmap_nonneg {A} (f : A -> Z) l : (forall x, 0 <= f x) -> 0 <= zsum (f <$> l).
Proof. intros Hf. induction l as [|x l IH]; csimpl; [done|]. pose proof (Hf x). lia. Qed.

Lemma done_nonneg w : 0 <= done_count w.
Proof. unfold done_count. by destruct (is_done w). Qed.

Lemma busy_nonneg w : 0 <= busy w.
Proof. unfold busy. by destruct (pc w). Qed.

(** Only the program counter of one thread moves. *)
Lemma worker_ok_pc config w p :
  busy (w <| pc := p |>) = busy w -> worker_ok config w -> worker_ok config (w <| pc := p |>).
Proof. intros E [B S C F]. split; [by rewrite E|done..]. Qed.

Lemma insert_perm {A} (l : list A) i x x' :
  l !! i = Some x ->
  exists rest, l ≡ₚ x :: rest /\ <[i := x']> l ≡ₚ x' :: rest /\ length l = S (length rest).
Proof.
  intros Hi. exists (take i l ++ drop (S i) l). pose proof (take_drop_middle l i x Hi) as E.
  assert (l ≡ₚ x :: take i l ++ drop (S i) l) as P by (rewrite <-E at 1; symmetry; apply Permutation_middle).
  split_and!; [done| |by rewrite P at 1].
  rewrite insert_take_drop by (by eapply lookup_lt_Some). symmetry. apply Permutation_middle.
Qed.

(** The updated connection in its place. *)
Lemma fds_insert log evs cs i c c' :
  cs !! i = Some c -> fds_balanced log (mjoin (held <$> cs)) ->
  held c ++ fds_opened evs ≡ₚ fds_closed evs ++ held c' ->
  fds_balanced (log ++ evs) (mjoin (held <$> <[i := c']> cs)).
Proof.
  intros Hi Hb Hp. eapply fds_balanced_app; [exact Hb|]. 
  destruct (insert_perm cs i c c' Hi) as (rest & P1 & P2 & _).
  rewrite P2, P1. rewrite !fmap_cons, !mjoin_cons. rewrite <-app_assoc.
  by rewrite (Permutation_app_comm (mjoin (held <$> rest))), app_assoc, Hp, <-app_assoc.
Qed.

(** ** Every step keeps it *)

Section Steps.
Context `{ClientProtobuf} (config : LoadConfig) (first_ordinal request_count : Z).
Hypothesis quota : 0 < requests_per_connection config < two64.
Hypothesis some_requests : 0 <= request_count.
Variable rest : list Worker.
Hypothesis fits : request_count + size_of rest + 1 < two64.

Abbreviation ok := (phase_ok config request_count).

(** A thread whose step does not touch the counters of requests. *)
Lemma ok_moves sh sh' w p :
  ok sh (w :: rest) -> busy (w <| pc := p |>) = busy w -> pending (w <| pc := p |>) = pending w ->
  is_done w = false -> is_done (w <| pc := p |>) = false ->
  next_phase_ordinal sh' = next_phase_ordinal sh -> outstanding sh' = outstanding sh -> issued sh' = issued sh ->
  peak sh' = peak sh -> outstanding_high sh <= outstanding_high sh' <= peak sh ->
  mark_ok sh' (w <| pc := p |>) ->
  (outstanding_high sh' = peak sh \/ raising (w <| pc := p |>) = raising w
   \/ (raising w = None \/ raising w <> Some (peak sh)) /\ outstanding_high sh <> peak sh) ->
  ok sh' (w <| pc := p |> :: rest).
Proof.
  intros [W O N D I C M P R] Eb Ep Ed Ed' En Eo Ei Ek Hh Hm Hr.
  apply Forall_cons in W as [Ww Wr], M as [Mw Mr], D as [_ Dr]. csimpl in *.
  assert (done_count (w <| pc := p |>) = done_count w) as Ec by (unfold done_count; by rewrite Ed, Ed').
  split; csimpl; rewrite ?En, ?Eo, ?Ei, ?Ek, ?Eb, ?Ep, ?Ec.
  - apply Forall_cons. split; [by apply worker_ok_pc|done].
  - done.
  - done.
  - apply Forall_cons. by rewrite Ed'.
  - done.
  - done.
  - apply Forall_cons. split; [done|]. eapply Forall_impl; [exact Mr|]. intros v Hv. unfold mark_ok in *.
    destruct (pc v); rewrite ?Ek; try done. lia.
  - rewrite size_of_cons in *. lia.
  - destruct Hr as [Hr|[Hr|[Hr Hn]]]; [by left| |].
    + destruct R as [R|(v & Hv & R)]; [left; lia|right]. apply elem_of_cons in Hv as [->|Hv].
      * exists (w <| pc := p |>). split; [by left|congruence].
      * exists v. split; [by right|done].
    + destruct R as [R|(v & Hv & R)]; [done|right]. apply elem_of_cons in Hv as [->|Hv].
      * destruct Hr; congruence.
      * exists v. split; [by right|done].
Qed.

Lemma ok_next sh w :
  pc w = PNext -> ok sh (w :: rest) ->
  ok (sh <| next_phase_ordinal := next_phase_ordinal sh ⊕ 1 |>)
     (w <| pc := if request_count <=? next_phase_ordinal sh then PDone else PIssue (next_phase_ordinal sh) |> :: rest).
Proof.
  intros Ew [W O N D I C M P R]. apply Forall_cons in W as [Ww Wr], M as [Mw Mr], D as [_ Dr].
  pose proof (zsum_le_size done_count rest done_le) as Hd. pose proof (zsum_fmap_nonneg done_count rest done_nonneg).
  assert (done_count w = 0 /\ busy w = 0 /\ pending w = [] /\ raising w = None) as (E1 & E2 & E3 & E4)
    by (unfold done_count, is_done, busy, pending, raising; by rewrite Ew).
  csimpl in *. rewrite E1, E2, E3, size_of_cons in *. rewrite wrap64_small by (unfold is_u64; lia).
  set (p := if request_count <=? next_phase_ordinal sh then PDone else PIssue (next_phase_ordinal sh)).
  assert (busy (w <| pc := p |>) = 0 /\ raising (w <| pc := p |>) = None /\ mark_ok sh (w <| pc := p |>)) as (B & V & K)
    by (unfold busy, raising, mark_ok, p; simpl; by destruct (_ <=? _)).
  assert (done_count (w <| pc := p |>) = if request_count <=? next_phase_ordinal sh then 1 else 0) as Ed
    by (unfold done_count, is_done, p; simpl; by destruct (_ <=? _)).
  assert (pending (w <| pc := p |>) = if request_count <=? next_phase_ordinal sh then [] else [next_phase_ordinal sh]) as Ep
    by (unfold pending, p; simpl; by destruct (_ <=? _)).
  split; csimpl; rewrite ?B, ?Ed, ?Ep.
  - apply Forall_cons. split; [apply worker_ok_pc; [by rewrite B, E2|done]|done].
  - done.
  - destruct (Z.leb_spec request_count (next_phase_ordinal sh)); lia.
  - apply Forall_cons. split.
    + unfold is_done, p. simpl. destruct (Z.leb_spec request_count (next_phase_ordinal sh)); [lia|done].
    + eapply Forall_impl; [exact Dr|]. simpl. intros v Hv Hdv. specialize (Hv Hdv). lia.
  - destruct (Z.leb_spec request_count (next_phase_ordinal sh)); simpl.
    + rewrite Z.min_r in * by lia. done.
    + rewrite Z.min_l in * by lia. rewrite <-Permutation_middle, I.
      rewrite seqZ_app, (Permutation_app_comm (seqZ 0 _)) by lia. done.
  - done.
  - by apply Forall_cons.
  - rewrite size_of_cons. lia.
  - destruct R as [R|(v & Hv & R)]; [by left|right]. apply elem_of_cons in Hv as [->|Hv]; [congruence|].
    exists v. split; [by right|done].
Qed.
Lemma ok_issue sh w o ordinal lag t :
  pc w = PIssue o -> ok sh (w :: rest) ->
  let k := counters w in
  let active := outstanding sh ⊕ 1 in
  ok (sh <| outstanding := active |> <| peak := Z.max (peak sh) active |> <| issued := issued sh ++ [o] |>)
     (w <| counters := (k <| issued_requests := issued_requests k ⊕ 1 |>) <| schedule_lags := schedule_lags k ++ [lag] |> |>
        <| pc := PLoad ordinal t active |> :: rest).
Proof.
  intros Ew [W O N D I C M P R] k. apply Forall_cons in W as [Ww Wr], M as [Mw Mr], D as [_ Dr].
  pose proof (zsum_le_size busy rest busy_le) as Hb. pose proof (zsum_fmap_nonneg busy rest busy_nonneg).
  assert (done_count w = 0 /\ busy w = 0 /\ pending w = [o] /\ raising w = None) as (E1 & E2 & E3 & E4)
    by (unfold done_count, is_done, busy, pending, raising; by rewrite Ew).
  csimpl in *. rewrite E1, E2, E3, size_of_cons in *. rewrite wrap64_small by (unfold is_u64; lia). cbn zeta.
  destruct Ww as [B S F L]. rewrite E2 in B.
  split; csimpl.
  - apply Forall_cons. split; [|done]. split; [|done..]. eapply books_same, (books_issue _ B); done.
  - change (busy _) with 1. lia.
  - done.
  - by apply Forall_cons.
  - rewrite <-I, <-app_assoc. done.
  - rewrite size_of_app, <-C, cong64_wrap. apply cong64_of. change (size_of [o]) with 1. unfold k. lia.
  - apply Forall_cons. split; [unfold mark_ok; simpl; lia|]. eapply Forall_impl; [exact Mr|]. intros v Hv.
    unfold mark_ok in *. destruct (pc v); simpl in *; lia || done.
  - rewrite size_of_cons. lia.
  - destruct (Z.lt_ge_cases (peak sh) (outstanding sh + 1)).
    + right. eexists. split; [by left|]. unfold raising. simpl. f_equal. lia.
    + rewrite Z.max_l by lia. destruct R as [R|(v & Hv & R)]; [by left|right].
      apply elem_of_cons in Hv as [->|Hv]; [congruence|]. exists v. split; [by right|done].
Qed.

Lemma ok_work sh w ordinal t cs c k log :
  pc w = PWork ordinal t -> ok sh (w :: rest) ->
  cs <> [] -> Forall (conn_ok config) cs -> fds_balanced log (mjoin (held <$> cs)) -> books 0 k ->
  issued_requests k = issued_requests (counters w) ->
  ok (sh <| outstanding := outstanding sh ⊖ 1 |>) (mkWorker PNext cs c k log :: rest).
Proof.
  intros Ew [W O N D I C M P R] Hcs Hco Hlog Hk Hi. apply Forall_cons in W as [Ww Wr], M as [Mw Mr], D as [_ Dr].
  pose proof (zsum_le_size busy rest busy_le) as Hb. pose proof (zsum_fmap_nonneg busy rest busy_nonneg).
  assert (done_count w = 0 /\ busy w = 1 /\ pending w = [] /\ raising w = None) as (E1 & E2 & E3 & E4)
    by (unfold done_count, is_done, busy, pending, raising; by rewrite Ew).
  csimpl in *. rewrite E1, E2, E3, size_of_cons in *. rewrite wrap64_small by (unfold is_u64; lia).
  split; csimpl; rewrite ?Hi.
  - apply Forall_cons. split; [by split|done].
  - change (busy _) with 0. lia.
  - done.
  - by apply Forall_cons.
  - done.
  - done.
  - by apply Forall_cons.
  - rewrite size_of_cons. lia.
  - destruct R as [R|(v & Hv & R)]; [by left|right].
    apply elem_of_cons in Hv as [->|Hv]; [congruence|]. exists v. split; [by right|done].
Qed.

(** A failed or unneeded exchange of the high-water mark. *)
Lemma ok_watermark sh w ordinal t active :
  busy w = 1 -> raising w = Some active -> mark_ok sh w -> ok sh (w :: rest) ->
  ok sh (w <| pc := watermark ordinal t active (outstanding_high sh) |> :: rest).
Proof.
  intros Eb Er Hm Hok. pose proof (po_peak _ _ _ _ Hok) as Hp.
  assert (is_done w = false /\ pending w = []) as [Ed Ep]
    by (unfold raising, is_done, pending in *; by destruct (pc w)).
  assert (active <= peak sh) as Ha.
  { unfold mark_ok, raising in *. destruct (pc w); simplify_eq; lia. }
  apply (ok_moves sh sh); [done|..].
  all: unfold watermark; destruct (Z.ltb_spec (outstanding_high sh) active);
    unfold busy, pending, is_done, mark_ok, raising; simpl;
    fold (busy w) (pending w) (is_done w) (raising w); rewrite ?Eb, ?Ep, ?Er; try done; try lia.
  - by right; left.
  - destruct (Z.eq_dec (outstanding_high sh) (peak sh)); [by left|]. do 2 right. split; [right; intros [=]; lia|done].
Qed.

Lemma worker_step_ok a sh w sh' w' :
  ok sh (w :: rest) -> worker_step config first_ordinal request_count a sh w = Some (sh', w') -> ok sh' (w' :: rest).
Proof.
  intros Hok Hs. unfold worker_step in Hs. pose proof (po_marks _ _ _ _ Hok) as [Hm _]%Forall_cons.
  pose proof (po_peak _ _ _ _ Hok) as Hp. destruct (pc w) as [|o|o t act|o t act cur|o t|] eqn:Ew; simplify_eq.
  - by apply ok_next.
  - by apply ok_issue.
  - apply ok_watermark; [..|done]; unfold busy, raising; by rewrite ?Ew.
  - destruct (negb _ && _)%bool eqn:Et; simplify_eq.
    + bool_to_prop. unfold mark_ok in Hm. rewrite Ew in Hm.
      apply (ok_moves sh); try done; unfold busy, pending, is_done, raising; simpl; rewrite ?Ew; try done; [lia|].
      destruct (Z.eq_dec act (peak sh)); [by left|]. do 2 right. split; [right; intros [=]; lia|lia].
    + apply ok_watermark; [..|done]; unfold busy, raising; by rewrite ?Ew.
  - destruct (connections w !! _) as [c|] eqn:Ec; [|done].
    destruct (perform _ _ _ _ _ _ _) as [[[c' k'] net]|] eqn:Ep; [|done]. simplify_eq.
    pose proof (po_workers _ _ _ _ Hok) as [[B S F L] _]%Forall_cons.
    apply perform_spec in Ep as ((evs & Ef & Pf) & B' & I' & C'); [|done|by eapply Forall_lookup_1|].
    + eapply ok_work; [done|done| |by apply Forall_insert| |done|done].
      * intros E. apply (f_equal length) in E. rewrite length_insert in E. by apply S, nil_length_inv.
      * rewrite Ef. by eapply fds_insert.
    + unfold busy in B. by rewrite Ew in B.
Qed.
End Steps.

(** ** A whole phase *)

Lemma phase_step_ok `{ClientProtobuf} config first_ordinal request_count sh ws e sh' ws' :
  0 < requests_per_connection config < two64 -> 0 <= request_count -> request_count + size_of ws < two64 ->
  phase_ok config request_count sh ws -> phase_step config first_ordinal request_count (sh, ws) e = Some (sh', ws') ->
  phase_ok config request_count sh' ws' /\ length ws' = length ws.
Proof.
  intros Hq Hr Hf Hok Hs. destruct e as [i a]. unfold phase_step in Hs.
  destruct (ws !! i) as [w|] eqn:Ei; [|done]. simpl in Hs.
  destruct (worker_step _ _ _ _ _ _) as [[sh1 w1]|] eqn:Ew; [|done]. simpl in Hs. simplify_eq.
  destruct (insert_perm ws i w w1 Ei) as (rest & P1 & P2 & L). split; [|by rewrite length_insert].
  rewrite P2. eapply worker_step_ok; [done|done| | |exact Ew]; [unfold size_of in *; lia|]. by rewrite <-P1.
Qed.

Lemma phase_steps_ok `{ClientProtobuf} config first_ordinal request_count es sh ws sh' ws' :
  0 < requests_per_connection config < two64 -> 0 <= request_count -> request_count + size_of ws < two64 ->
  phase_ok config request_count sh ws -> phase_steps config first_ordinal request_count (sh, ws) es = Some (sh', ws') ->
  phase_ok config request_count sh' ws' /\ length ws' = length ws.
Proof.
  intros Hq Hr. unfold phase_steps. revert sh ws. induction es as [|e es IH]; intros sh ws Hf Hok Hs.
  - simpl in Hs. by simplify_eq.
  - cbn [foldl] in Hs. change (Some (sh, ws) ≫= _) with (phase_step config first_ordinal request_count (sh, ws) e) in Hs.
    destruct (phase_step config first_ordinal request_count (sh, ws) e) as [[sh1 ws1]|] eqn:E1.
    + apply phase_step_ok in E1 as [Hok1 L1]; [|done..]. apply IH in Hs as [Hok2 L2]; [|unfold size_of in *; lia|done].
      split; [done|congruence].
    + exfalso. clear -Hs. induction es as [|e' es IH]; simpl in Hs; [done|by apply IH].
Qed.

Definition state_ok (config : LoadConfig) (state : list Connection * list FdEvent) : Prop :=
  state.1 <> [] /\ Forall (conn_ok config) state.1 /\ fds_balanced state.2 (mjoin (held <$> state.1)).

Lemma zsum_map_const {A B} (f : B -> Z) (g : A -> B) n l : (forall x, f (g x) = n) -> zsum (f <$> (g <$> l)) = n * size_of l.
Proof.
  intros E. induction l as [|x l IH]; csimpl; [unfold size_of; simpl; lia|]. rewrite IH, E, size_of_cons. lia.
Qed.

Lemma phase_start_ok config request_count states :
  0 <= request_count -> Forall (state_ok config) states ->
  phase_ok config request_count shared_start (start_worker <$> states).
Proof.
  intros Hr Hs. pose proof (size_of_nonneg (start_worker <$> states)).
  assert (mjoin (pending <$> (start_worker <$> states)) = []) as Ep
    by (clear; induction states as [|x l IH]; csimpl; [done|exact IH]).
  split; simpl.
  - apply Forall_fmap. eapply Forall_impl; [exact Hs|]. intros [cs log] (? & ? & ?). by split; [apply books_fresh|..].
  - by rewrite (zsum_map_const _ _ 0).
  - rewrite (zsum_map_const _ _ 0) by done. lia.
  - apply Forall_fmap, Forall_true. done.
  - rewrite Ep. by rewrite Z.min_l.
  - by rewrite (zsum_map_const _ _ 0).
  - apply Forall_fmap, Forall_true. done.
  - lia.
  - by left.
Qed.

Lemma all_done_idle ws :
  forallb is_done ws = true -> zsum (busy <$> ws) = 0 /\ mjoin (pending <$> ws) = [] /\ Forall (fun w => raising w = None) ws
    /\ (busy <$> ws) = replicate (length ws) 0.
Proof.
  induction ws as [|w ws IH]; [done|]. csimpl. intros [Hw Hws]%andb_prop. destruct (IH Hws) as (E1 & E2 & E3 & E4).
  assert (busy w = 0 /\ pending w = [] /\ raising w = None) as (B & P & R)
    by (unfold is_done, busy, pending, raising in *; by destruct (pc w)).
  rewrite B, P, E1, E4. split_and!; [done|exact E2|by apply Forall_cons|done].
Qed.

Lemma runPhase_spec `{ClientProtobuf} config first_ordinal request_count states run r states' :
  0 < requests_per_connection config < two64 -> 0 <= request_count -> request_count + size_of states < two64 ->
  states <> [] -> Forall (state_ok config) states ->
  runPhase config first_ordinal request_count states run = Some (r, states') ->
  books 0 (ph_counters r) /\ issued_requests (ph_counters r) = request_count /\ ph_issued r ≡ₚ seqZ 0 request_count
  /\ 0 <= max_outstanding_requests r <= size_of states
  /\ Forall (state_ok config) states' /\ length states' = length states.
Proof.
  intros Hq Hr Hf Hne Hst Hrun. unfold runPhase in Hrun. pose proof (size_of_nonneg states).
  destruct (Z.eqb_spec request_count 0) as [->|Hn].
  { simplify_eq. by split_and!; [apply books_fresh|..]. }
  destruct (phase_steps _ _ _ _ _) as [[sh ws]|] eqn:Es; [|done]. simpl in Hrun.
  destruct (forallb is_done ws) eqn:Ed; [|done]. simplify_eq. simpl.
  apply phase_steps_ok in Es as [Hok L]; [|done|done|unfold size_of in *; rewrite length_fmap; lia|by apply phase_start_ok].
  rewrite length_fmap in L. destruct (all_done_idle ws Ed) as (B & P & R & Bs). destruct Hok as [W O N D I C M K _].
  assert (Z.min (next_phase_ordinal sh) request_count = request_count) as Em.
  { destruct ws as [|w ws]; [destruct states; [done|done]|]. apply Forall_cons in D as [D _]. simpl in Ed.
    apply andb_prop in Ed as [Ed _]. specialize (D Ed). lia. }
  rewrite P, app_nil_r, Em in I. rewrite B in O.
  assert (size_of (issued sh) = request_count) as Hlen.
  { unfold size_of. rewrite I, length_seqZ. lia. }
  assert (books 0 (foldl mergeCounters fresh_counters (counters <$> ws))) as Hbooks.
  { replace 0 with (0 + zsum (busy <$> ws)) by lia. eapply books_merge_all, books_fresh.
    apply Forall2_fmap, Forall_Forall2_diag. eapply Forall_impl; [exact W|]. by intros w []. }
  split_and!; [done| |done|lia| | |].
  - apply cong64_eq; [|apply Hbooks|unfold is_u64; lia]. rewrite issued_merge_all. simpl.
    rewrite <-list_fmap_compose. unfold compose. rewrite C. by apply cong64_of.
  - unfold size_of in *. lia.
  - apply Forall_fmap. eapply Forall_impl; [exact W|]. by intros w [].
  - by rewrite length_fmap.
Qed.

(** ** The start and the end of a run *)

(** After [n] connections, state [j] has one when [j < n]. *)
Lemma spread_lookup size n j :
  (0 < size)%nat -> (j < size)%nat ->
  exists cs, foldl (fun states index => alter (fun s => (s.1 ++ [fresh_connection], s.2)) (index mod size)%nat states)
    (replicate size (@nil Connection, @nil FdEvent)) (seq 0 n) !! j = Some (cs, @nil FdEvent) /\ Forall (eq fresh_connection) cs /\ ((j < n)%nat -> cs <> []).
Proof.
  intros Hs Hj. induction n as [|n IH].
  - exists []. split_and!; [by apply lookup_replicate_2|done|lia].
  - rewrite seq_S, foldl_app. simpl. destruct IH as (cs & E & Hf & Hn).
    destruct (decide ((n mod size)%nat = j)) as [<-|Hd].
    + exists (cs ++ [fresh_connection]). rewrite list_lookup_alter_eq, E. simpl.
      split_and!; [done|by apply Forall_app; split; [|by apply Forall_singleton]|intros _ En; by destruct cs].
    + exists cs. rewrite list_lookup_alter_ne by done. split_and!; [done|done|]. intros Hlt. apply Hn.
      assert (j <> n); [|lia]. intros ->. by rewrite Nat.mod_small in Hd.
Qed.

Lemma length_spread config : length (spread config) = Z.to_nat (request_concurrency config).
Proof.
  unfold spread. set (size := Z.to_nat (request_concurrency config)).
  assert (forall l (st : list (list Connection * list FdEvent)),
    length (foldl (fun states index => alter (fun s => (s.1 ++ [fresh_connection], s.2)) (index mod size)%nat states) st l)
    = length st) as Hall.
  { intros l. induction l as [|i l IH]; intros st; cbn [foldl]; [done|]. by rewrite IH, length_alter. }
  by rewrite Hall, length_replicate.
Qed.

Lemma held_fresh cs : Forall (eq fresh_connection) cs -> mjoin (held <$> cs) = [].
Proof. induction 1 as [|c cs <- _ IH]; [done|exact IH]. Qed.

Lemma spread_ok config :
  0 < request_concurrency config <= connection_pool_size config -> 0 < requests_per_connection config ->
  Forall (state_ok config) (spread config).
Proof.
  intros Hc Hq. apply Forall_lookup. intros j st Hj.
  assert (j < Z.to_nat (request_concurrency config))%nat as Hlt by (rewrite <-length_spread; by eapply lookup_lt_Some).
  destruct (spread_lookup (Z.to_nat (request_concurrency config)) (Z.to_nat (connection_pool_size config)) j)
    as (cs & E & Hf & Hn); [lia|done|]. unfold spread in Hj. rewrite E in Hj. simplify_eq.
  split_and!; simpl; [apply Hn; lia| |by rewrite held_fresh; [apply fds_balanced_nil|]].
  eapply Forall_impl; [exact Hf|]. intros c <-. unfold conn_ok. simpl. lia.
Qed.

Lemma destroy_balanced cs log :
  fds_balanced log (mjoin (held <$> cs)) -> fds_balanced (destroy (cs, log)) [].
Proof.
  unfold destroy. simpl. revert log. induction cs as [|c cs IH]; intros log Hb; [done|]. simpl. apply IH.
  unfold destroy_connection. rewrite fmap_cons, mjoin_cons in Hb. unfold held in Hb at 1. destruct (fd c <? 0); [done|].
  eapply fds_balanced_app; [exact Hb|]. simpl. by rewrite app_nil_r.
Qed.

(** What a valid configuration promises; the fields are unsigned. *)
Record unsigned (config : LoadConfig) (rates : Rates) : Prop := {
  us_concurrency : is_u64 (request_concurrency config);
  us_pool : is_u64 (connection_pool_size config);
  us_quota : is_u64 (requests_per_connection config);
  us_planned ms : is_u64 (planned rates ms);
}.

Lemma scheduled_range config rates ms : unsigned config rates -> is_u64 (scheduledRequests config rates ms).
Proof.
  intros [_ _ _ Hp]. unfold scheduledRequests. destruct (ms =? 0); [by unfold is_u64|].
  destruct (qps_positive rates); simpl; [done|apply wrap64_range].
Qed.

Lemma validate_facts `{Inet} config rates :
  unsigned config rates -> valid (validateLoadConfig config rates) = true ->
  0 < request_concurrency config <= connection_pool_size config /\ 0 < requests_per_connection config < two64
  /\ 0 < scheduledRequests config rates (duration config)
  /\ scheduledRequests config rates (warmup config) + scheduledRequests config rates (duration config) < two64.
Proof.
  intros Hu. pose proof (scheduled_range config rates (duration config) Hu) as Hd.
  pose proof (scheduled_range config rates (warmup config) Hu) as Hw. destruct Hu as [U1 U2 U3 _].
  unfold validateLoadConfig. set (m := scheduledRequests config rates (duration config)) in *.
  set (w := scheduledRequests config rates (warmup config)) in *.
  do 14 (case_if; [done|]). cbn zeta. do 2 (case_if; [done|]). intros _. unfold is_u64 in *.
  unfold u64_max in *. rewrite wrap64_small in * by (unfold is_u64; lia). lia.
Qed.

(** ** Progress *)

(** The steps a thread has left in its current request, with [n] threads. *)
Definition weight (n : Z) (w : Worker) : Z :=
  match pc w with
  | PDone => 0
  | PNext => 1
  | PWork _ _ => 2
  | PCas _ _ active current => active - current + 2
  | PLoad _ _ _ => n + 4
  | PIssue _ => n + 5
  end.

Definition steps_left (request_count : Z) (sh : Shared) (ws : list Worker) : Z :=
  Z.max 0 (request_count - next_phase_ordinal sh) * (size_of ws + 5) + zsum (weight (size_of ws) <$> ws).

(** A step that does not fail for no reason brings the thread nearer to its end. *)
Lemma worker_step_weight `{ClientProtobuf} config first_ordinal request_count a sh w sh' w' n :
  0 <= n -> mark_ok sh w -> peak sh <= n -> 0 <= outstanding_high sh -> 0 <= next_phase_ordinal sh -> next_phase_ordinal sh + 1 < two64 ->
  a_spurious a = false -> worker_step config first_ordinal request_count a sh w = Some (sh', w') ->
  Z.max 0 (request_count - next_phase_ordinal sh') * (n + 5) + weight n w'
  < Z.max 0 (request_count - next_phase_ordinal sh) * (n + 5) + weight n w.
Proof.
  intros Hsize Hm Hp Hh Hn0 Hn Hsp Hs. unfold worker_step in Hs. unfold mark_ok in Hm. unfold weight at 2.
  destruct (pc w) as [|o|o t act|o t act cur|o t|] eqn:Ew; [..|done].
  - injection Hs as <- <-. unfold weight. simpl. rewrite wrap64_small by (unfold is_u64; lia).
    destruct (Z.leb_spec request_count (next_phase_ordinal sh)); [rewrite !Z.max_l by lia|rewrite !Z.max_r by lia]; lia.
  - injection Hs as <- <-. unfold weight. simpl. lia.
  - injection Hs as <- <-. unfold weight, watermark. simpl. destruct (Z.ltb_spec (outstanding_high sh) act); lia.
  - rewrite Hsp in Hs. simpl in Hs. destruct (Z.eqb_spec (outstanding_high sh) cur); injection Hs as <- <-.
    + unfold weight. simpl. lia.
    + unfold weight, watermark. simpl. destruct (Z.ltb_spec (outstanding_high sh) act); lia.
  - destruct (connections w !! _); [|done]. destruct (perform _ _ _ _ _ _ _) as [[[? ?] ?]|]; [|done].
    injection Hs as <- <-. unfold weight. simpl. lia.
Qed.

(** A kernel that refuses everything still answers. *)
Definition refusing : Net := mkNet [0; 0] [] [IoError EOther] [] [-1] [] [] [] [] [].

Lemma encode_nonempty `{ClientProtobuf} q frame : encodeLoginRequestFrame q = Ok frame -> exists b rest, frame = b :: rest.
Proof.
  unfold encodeLoginRequestFrame. destruct (SerializeRequest q); [|done]. destruct (_ || _)%bool; [done|]. intros [= <-].
  unfold encodePayloadLength. simpl. eauto.
Qed.

Lemma close_returns c s : exists c', close c s = Some (c', s <| n_fds := (n_fds s ++ if fd c <? 0 then [] else [FdClosed (fd c)]) |>).
Proof.
  unfold close. destruct (fd c <? 0); [|by eexists]. eexists. unfold mret, n_ret. rewrite app_nil_r. by destruct s.
Qed.

Lemma record_fails issued_at c k f r s : f <> FailureClass.Count -> is_Some (record_outcome issued_at c k f r s).
Proof.
  intros Hf. unfold record_outcome. rewrite bool_decide_false by done. unfold mbind, n_bind.
  destruct (close_returns c s) as [c' ->]. by eexists.
Qed.

(** With the streams of [refusing], a connection that is open or a failure. *)
Lemma obtain_returns config c k log :
  exists c' k' f s', obtain_connection config c k (refusing <| n_fds := log |>) = Some ((c', k', f), s')
    /\ (f <> FailureClass.Count \/ exists log', s' = refusing <| n_fds := log' |>).
Proof.
  unfold obtain_connection, mbind, n_bind.
  assert (forall c k log, exists c' k' f s',
    (if fd c <? 0 then
      let k := k <| connection_attempts := connection_attempts k ⊕ 1 |> in
      opened ← connectSocket c (lc_connect_timeout config);
      let '(c, failure) := opened in
      mret (c, if bool_decide (failure = FailureClass.Count)
               then k <| connections_established := connections_established k ⊕ 1 |> else k, failure)
     else (mret (c, k, FailureClass.Count) : N _)) (refusing <| n_fds := log |>) = Some ((c', k', f), s')
    /\ (f <> FailureClass.Count \/ exists log', s' = refusing <| n_fds := log' |>)) as Hconn.
  { clear c k log. intros c k log. destruct (fd c <? 0); [|repeat eexists; by right; eexists].
    unfold connectSocket, mbind, n_bind. destruct (close_returns c (refusing <| n_fds := log |>)) as [c' ->].
    simpl. repeat eexists. by left. }
  destruct (_ <=? _); [|apply Hconn]. destruct (close_returns c (refusing <| n_fds := log |>)) as [c' ->]. apply Hconn.
Qed.

Lemma perform_returns `{ClientProtobuf} config a ordinal issued_at c k log :
  is_Some (perform config a ordinal issued_at c k (refusing <| n_fds := log |>)).
Proof.
  unfold perform, mbind, n_bind. destruct (obtain_returns config c k log) as (c1 & k1 & f & s1 & -> & Hf).
  destruct (decide (f = FailureClass.Count)) as [->|Hn].
  2: { rewrite bool_decide_false by done. by apply record_fails. }
  destruct Hf as [?|[log' ->]]; [done|]. rewrite bool_decide_true by done. unfold use_connection, mbind, n_bind.
  destruct (encodeLoginRequestFrame _) as [frame|] eqn:Ef; [|by apply record_fails].
  apply encode_nonempty in Ef as (b & rest & ->). simpl. by apply record_fails.
Qed.

(** ** The claims *)

Lemma consistent_books m :
  books 0 (measured m) -> expected_requests m = issued_requests (measured m) -> requestAccountingConsistent m = true.
Proof.
  intros [_ I D O F (R1 & R2 & R3 & R4)] E. unfold requestAccountingConsistent, accountingConsistent.
  assert (forall a b, cong64 a b -> is_u64 a -> (a =? wrap64 b) = true) as Hc.
  { intros a b Hab Ha. apply Z.eqb_eq, cong64_eq; [|done|apply wrap64_range]. by rewrite cong64_wrap. }
  rewrite E, Z.eqb_refl, !total_wrap. rewrite Z.add_0_r in I. by rewrite !Hc.
Qed.

(** C21. The books of the benchmark balance.  When a run of a valid configuration
    ends, whatever the server, the network and the scheduling of the threads
    did: every planned request was issued exactly once, each was either decoded
    or failed in exactly one class, each decoded response has one status and
    each successful one an action (the code's own consistency check answers
    true), never more requests were outstanding than there are threads, and
    every descriptor that was opened is closed once at the end. *)
Theorem benchmark_accounting `{Inet} `{ClientProtobuf} config rates status addresses warmup_run measured_run m logs ids :
  unsigned config rates ->
  scheduledRequests config rates (warmup config) + request_concurrency config < two64 ->
  scheduledRequests config rates (duration config) + request_concurrency config < two64 ->
  runBenchmark config rates status addresses warmup_run measured_run = Some (Ok (m, logs, ids)) ->
  requestAccountingConsistent m = true
  /\ ids ≡ₚ seqZ 0 (scheduledRequests config rates (duration config))
  /\ issued_requests (warmed_up m) = scheduledRequests config rates (warmup config)
  /\ 0 <= m_max_outstanding m <= request_concurrency config
  /\ size_of logs = request_concurrency config /\ Forall (fun log => fds_balanced log []) logs.
Proof.
  intros Hu Hw Hd Hrun. unfold runBenchmark in Hrun.
  destruct (valid (validateLoadConfig config rates)) eqn:Ev; simpl in Hrun; [|done].
  destruct (validate_facts config rates Hu Ev) as (Hc & Hq & Hm & Hsum). destruct (resolveEndpoint _ _); [|done].
  pose proof (scheduled_range config rates (warmup config) Hu) as [Hw0 _].
  assert (size_of (spread config) = request_concurrency config) as Hsz by (unfold size_of; rewrite length_spread; lia).
  destruct (runPhase config 0 _ _ _) as [[w st1]|] eqn:E1; [|done].
  destruct (runPhase config _ _ st1 _) as [[r st2]|] eqn:E2; [|done]. simplify_eq.
  apply runPhase_spec in E1 as (_ & I1 & _ & M1 & S1 & L1);
    [|done|done|lia|intros En; rewrite En in Hsz; unfold size_of in Hsz; simpl in Hsz; lia|apply spread_ok; lia].
  assert (size_of st1 = request_concurrency config) as Hs1 by (rewrite <-Hsz; unfold size_of; by rewrite L1).
  apply runPhase_spec in E2 as (B2 & I2 & P2 & M2 & S2 & L2);
    [|done|lia|lia|intros ->; unfold size_of in Hs1; simpl in Hs1; lia|done].
  simpl. split_and!; [by apply consistent_books|done|done|lia|lia| |].
  - unfold size_of in *. rewrite length_fmap, L2. lia.
  - apply Forall_fmap. eapply Forall_impl; [exact S2|]. intros [cs log] (_ & _ & Hb). by apply destroy_balanced.
Qed.

(** A thread that is not done can go on. *)
Lemma thread_progress `{ClientProtobuf} config first_ordinal request_count sh w :
  connections w <> [] -> is_done w = false ->
  is_Some (worker_step config first_ordinal request_count (mkAnswers 0 0 false 0 false refusing) sh w).
Proof.
  intros Hs Hd. unfold worker_step, is_done in *. destruct (pc w); [by eexists..| | |done]; [by case_if; eexists|].
  destruct (lookup_lt_is_Some_2 (connections w) (Z.to_nat (cursor w mod size_of (connections w)))) as [c ->].
  { assert (0 < size_of (connections w)) by (destruct (connections w); [done|unfold size_of; simpl; lia]).
    pose proof (Z.mod_pos_bound (cursor w) (size_of (connections w))). unfold size_of in *. lia. }
  simpl. destruct (perform_returns config (mkAnswers 0 0 false 0 false refusing) ordinal issued_at c (counters w) (fd_log w))
    as [[[c' k'] s'] ->]. by eexists.
Qed.

(** Another step of one of the threads leaves fewer. *)
Lemma steps_left_decreases `{ClientProtobuf} config first_ordinal request_count sh ws i a sh' ws' :
  phase_ok config request_count sh ws -> request_count + size_of ws < two64 -> a_spurious a = false ->
  phase_step config first_ordinal request_count (sh, ws) (i, a) = Some (sh', ws') ->
  steps_left request_count sh' ws' < steps_left request_count sh ws.
Proof.
  intros [W O N D I C M P R] Hsz Ha Hstep. unfold phase_step in Hstep. destruct (ws !! i) as [w|] eqn:Ei; [|done].
  simpl in Hstep. destruct (worker_step _ _ _ _ _ _) as [[sh1 w1]|] eqn:Ew; [|done]. simpl in Hstep. simplify_eq.
  destruct (insert_perm ws i w w1 Ei) as (rest & P1 & P2 & Lr). unfold steps_left. pose proof (size_of_nonneg ws).
  assert (size_of (<[i:=w1]> ws) = size_of ws) as -> by (unfold size_of; by rewrite length_insert).
  rewrite (zsum_permutation (weight (size_of ws) <$> <[i:=w1]> ws) (weight (size_of ws) <$> (w1 :: rest))) by (by rewrite P2).
  rewrite (zsum_permutation (weight (size_of ws) <$> ws) (weight (size_of ws) <$> (w :: rest))) by (by rewrite <-P1).
  assert (done_count w = 0) as Hd.
  { unfold done_count, is_done. unfold worker_step in Ew. by destruct (pc w). }
  assert (zsum (done_count <$> ws) < size_of ws).
  { pose proof (zsum_le_size done_count rest done_le).
    rewrite (zsum_permutation (done_count <$> ws) (done_count <$> (w :: rest))) by (by rewrite <-P1). csimpl.
    unfold size_of in *. lia. }
  csimpl. apply (worker_step_weight _ _ _ _ _ _ _ _ (size_of ws)) in Ew; [lia|done| |lia|lia|lia|lia|done].
  by eapply Forall_lookup_1 in M.
Qed.

(** C22. A phase ends.  In every state that the threads can reach, a thread that
    is not done can go on (the kernel can answer it), and every step other than
    a compare-exchange that fails for no reason decreases a measure that is
    never negative, so that a phase takes at most [steps_left] such steps; when
    all threads are done, no request is outstanding, every ordinal was issued
    once and the high-water mark is exactly the greatest number of requests that
    were outstanding at a time. *)
Theorem benchmark_phase_ends `{ClientProtobuf} config first_ordinal request_count states run sh ws :
  0 < requests_per_connection config < two64 -> 0 < request_count -> request_count + size_of states < two64 ->
  states <> [] -> Forall (state_ok config) states ->
  phase_steps config first_ordinal request_count (shared_start, start_worker <$> states) run = Some (sh, ws) ->
  0 <= steps_left request_count sh ws
  /\ (forall i w, ws !! i = Some w -> is_done w = false ->
        exists a p, a_spurious a = false /\ phase_step config first_ordinal request_count (sh, ws) (i, a) = Some p)
  /\ (forall i a sh' ws', a_spurious a = false ->
        phase_step config first_ordinal request_count (sh, ws) (i, a) = Some (sh', ws') ->
        steps_left request_count sh' ws' < steps_left request_count sh ws)
  /\ (forallb is_done ws = true ->
        outstanding sh = 0 /\ outstanding_high sh = peak sh /\ issued sh ≡ₚ seqZ 0 request_count).
Proof.
  intros Hq Hr Hf Hne Hst Hs.
  apply phase_steps_ok in Hs as [Hok L]; [|done|lia|unfold size_of in *; rewrite length_fmap; lia|apply phase_start_ok; [lia|done]].
  rewrite length_fmap in L. assert (size_of ws = size_of states) as Hsz by (unfold size_of; by rewrite L).
  pose proof Hok as [W O N D I C M P R]. pose proof (size_of_nonneg ws). split_and!.
  - unfold steps_left. assert (0 <= zsum (weight (size_of ws) <$> ws)); [|nia].
    apply zsum_nonneg, Forall_fmap. eapply Forall_impl; [exact M|]. intros w Hm. unfold weight, mark_ok in *. simpl.
    destruct (pc w); lia.
  - intros i w Hi Hd. exists (mkAnswers 0 0 false 0 false refusing).
    apply Forall_lookup_1 with (i := i) (x := w) in W as [_ Hc _ _]; [|done].
    destruct (thread_progress config first_ordinal request_count sh w Hc Hd) as [[sh1 w1] E].
    eexists. split; [done|]. unfold phase_step. rewrite Hi. simpl. by rewrite E.
  - intros i a sh' ws' Ha Hstep. eapply steps_left_decreases; [done|lia|done..].
  - intros Hd. destruct (all_done_idle ws Hd) as (B & Pn & Rn & _). rewrite Pn, app_nil_r in I. split_and!; [congruence| |].
    + destruct R as [R|(w & Hw & R)]; [done|]. apply (proj1 (Forall_forall _ _) Rn) in Hw. congruence.
    + rewrite I. f_equiv. destruct ws as [|w ws]; [destruct states; done|]. apply Forall_cons in D as [D _].
      simpl in Hd. apply andb_prop in Hd as [Hd _]. specialize (D Hd). lia.
Qed.

(** ** Witnesses *)

Definition config_toy : LoadConfig :=
  mkLoadConfig "127.0.0.1" 8080 1 2 1 0 1000 10 10 1 1 1 1 "10.0.0.1" "d" "run".
Definition rates_toy : Rates := mkRates true true true true (fun ms => if ms =? 1000 then 2 else 0).

Definition bench_toy : ClientProtobuf := {|
  SerializeRequest _ := Some [8; 1];
  ParseResponse bytes := if bool_decide (bytes = [16; 1]) then (true, wire_of r_toy) else (false, empty_response);
|}.

(** The first request gets a response, the second is refused a connection. *)
Definition serving : Net :=
  mkNet [0; 5000] [] (replicate 6 (IoBytes 4)) (replicate 6 (IoBytes 3)) [7] [Connected] [] [0; 0; 0; 2; 16; 1] [] [].

Definition step_toy (net : Net) : nat * Answers := (O, mkAnswers 0 2000 false 9 false net).

Definition run_toy : list (nat * Answers) :=
  replicate 5 (step_toy serving) ++ replicate 4 (step_toy refusing) ++ [step_toy refusing].

Lemma unsigned_toy : unsigned config_toy rates_toy.
Proof. split; [unfold is_u64; simpl; lia..|]. intros ms. simpl. unfold is_u64. destruct (ms =? 1000); lia. Defined.

Lemma benchmark_accounting_witness :
  exists m logs,
    @runBenchmark ReferenceInet.inet bench_toy config_toy rates_toy 0 [16] [] run_toy = Some (Ok (m, logs, [0; 1]))
    /\ decoded_responses (measured m) = 1 /\ failed_requests (measured m) = 1
    /\ requestAccountingConsistent m = true /\ Forall (fun log => fds_balanced log []) logs.
Proof.
  eexists _, _. split; [vm_compute; reflexivity|]. split; [reflexivity|]. split; [reflexivity|].
  destruct (@benchmark_accounting ReferenceInet.inet bench_toy config_toy rates_toy 0 [16] [] run_toy _ _ [0; 1]
    unsigned_toy ltac:(done) ltac:(done) ltac:(vm_compute; reflexivity)) as (H1 & _ & _ & _ & _ & H2).
  split; [exact H1|exact H2].
Defined.

Lemma benchmark_phase_ends_witness :
  exists sh ws,
    @phase_steps bench_toy config_toy 0 2 (shared_start, start_worker <$> spread config_toy) run_toy = Some (sh, ws)
    /\ forallb is_done ws = true /\ steps_left 2 sh ws = 0 /\ outstanding_high sh = peak sh.
Proof.
  eexists _, _. split; [vm_compute; reflexivity|]. split; [reflexivity|]. split; [reflexivity|].
  refine (proj1 (proj2 (proj2 (proj2 (proj2 (@benchmark_phase_ends bench_toy config_toy 0 2 (spread config_toy) run_toy
    _ _ ltac:(done) ltac:(done) ltac:(done) ltac:(done) ltac:(apply spread_ok; simpl; lia) ltac:(vm_compute; reflexivity)))) _))).
  reflexivity.
Defined.
