(* ===== verification/SendEvent.v ===== *)
(** * SendEvent: the one-shot client

    Model of [tools/send_event.cpp]: it connects to the first address that
    accepts, sends one request, reads one response and prints it.  The kernel is
    the [Net] of [LoadClient], on a blocking socket; an exception is [Throw],
    whose text leaves out [strerror]; the descriptor is closed when the socket
    goes out of scope, also by an exception. *)

From S2P Require Import Prelude Posix Text RiskService Codec Business LoadClient.
Open Scope Z_scope.

(** Computations that may throw. *)
Definition NE (A : Type) : Type := Net -> option (result A * Net).

#[export] Instance ne_ret : MRet NE := fun A a s => Some (Ok a, s).
#[export] Instance ne_bind : MBind NE := fun A B f m s =>
  match m s with
  | None => None
  | Some (Throw what, s) => Some (Throw what, s)
  | Some (Ok a, s) => f a s
  end.

Definition throw {A} (what : string) : NE A := fun s => Some (Throw what, s).
Definition lift {A} (m : N A) : NE A := fun s =>
  match m s with None => None | Some (a, s) => Some (Ok a, s) end.

(** ** Connecting *)

(** [do connect while EINTR]. *)
Fixpoint connect_retry (fuel : nat) : N bool :=
  match fuel with
  | O => no_answer
  | S fuel =>
      answer ← connect;
      match answer with
      | Connected => mret true
      | ConnectInterrupted => connect_retry fuel
      | _ => mret false
      end
  end.

(** The addresses, each with the answers of the two [setsockopt]. *)
Fixpoint try_addresses (addresses : list (bool * bool)) : NE Z :=
  match addresses with
  | [] => throw "连接服务端失败: "
  | (sndtimeo, rcvtimeo) :: rest =>
      descriptor ← lift socket;
      if descriptor <? 0 then try_addresses rest
      else
        connected ← lift (fun s => connect_retry (S (length (n_connects s))) s);
        if (connected && sndtimeo && rcvtimeo)%bool then mret descriptor
        else _ ← lift (close_fd descriptor); try_addresses rest
  end.

Definition connectSocket (resolve_status : Z) (addresses : list (bool * bool)) : NE Z :=
  if negb (resolve_status =? 0) then throw "地址解析失败: " else try_addresses addresses.

(** ** Sending and receiving *)

Fixpoint sendAll_loop (fuel : nat) (rest : bytes_t) : NE unit :=
  match rest with
  | [] => mret tt
  | _ =>
      match fuel with
      | O => fun _ => None
      | S fuel =>
          sent ← lift (send rest);
          match sent with
          | IoBytes n => if 0 <? n then sendAll_loop fuel (drop (Z.to_nat n) rest) else throw "发送期间连接关闭"
          | IoError EINTR => sendAll_loop fuel rest
          | IoError _ => throw "send: "
          end
      end
  end.

Definition sendAll (bytes : bytes_t) : NE unit := fun s => sendAll_loop (S (length (n_sends s))) bytes s.

Fixpoint receive_loop (fuel : nat) (wanted : nat) (output : bytes_t) : NE bytes_t :=
  match wanted with
  | O => mret output
  | _ =>
      match fuel with
      | O => fun _ => None
      | S fuel =>
          answer ← lift (recv wanted);
          match answer with
          | (IoBytes n, bytes) =>
              if 0 <? n then receive_loop fuel (wanted - Z.to_nat n) (output ++ bytes) else throw "接收期间连接关闭"
          | (IoError EINTR, _) => receive_loop fuel wanted output
          | (IoError _, _) => throw "recv: "
          end
      end
  end.

Definition receiveExact (wanted : nat) : NE bytes_t := fun s => receive_loop (S (length (n_recvs s))) wanted [] s.

(** ** The exchange *)

(** The destructor of [Socket] runs when the scope is left, either way. *)
Definition with_socket {A} (descriptor : Z) (m : NE A) : NE A := fun s =>
  match m s with
  | None => None
  | Some (r, s) => Some (r, s <| n_fds := n_fds s ++ [FdClosed descriptor] |>)
  end.

Section Client.
Context `{ClientProtobuf}.

(** With the socket open. *)
Definition converse (payload : bytes_t) : NE WireResponse :=
  _ ← sendAll (encodePayloadLength (wrap32 (size_of payload)));
  _ ← sendAll payload;
  response_header ← receiveExact 4;
  let response_size := decodePayloadLength response_header in
  if bool_decide (validatePayloadLength response_size <> none) then throw "服务端响应帧长度非法"
  else
    response_payload ← receiveExact (Z.to_nat response_size);
    let '(parsed, response) := ParseResponse response_payload in
    if (parsed : bool) then mret response else throw "解析 LoginResponse 失败".

Definition exchange (resolve_status : Z) (addresses : list (bool * bool)) (request : LoginRequest) : NE WireResponse :=
  match SerializeRequest request with
  | None => throw "序列化 LoginRequest 失败"
  | Some payload =>
      if bool_decide (validatePayloadLength (wrap32 (size_of payload)) <> none) then throw "请求载荷长度超出协议范围"
      else
        descriptor ← connectSocket resolve_status addresses;
        with_socket descriptor (converse payload)
  end.

(** ** The tool *)

Definition actionName (action : Z) : string :=
  if action =? PASS then "PASS" else if action =? REVIEW then "REVIEW" else if action =? REJECT then "REJECT" else "UNKNOWN".

Definition statusName (status : Z) : string :=
  if status =? RESPONSE_STATUS_OK then "OK" else if status =? RESPONSE_STATUS_OVERLOADED then "OVERLOADED"
  else if status =? RESPONSE_STATUS_TIMEOUT then "TIMEOUT" else "UNKNOWN".

(** [operator<<] of a signed integer. *)
Definition show_int (n : Z) : string := if n <? 0 then "-" +:+ to_string (- n) else to_string n.

Definition decision_lines (d : WireDecision) : list string :=
  ["attempt_id=" +:+ to_string (wd_attempt_id d); "user_id=" +:+ wd_user_id d; "action=" +:+ actionName (wd_action d);
   "risk_score=" +:+ show_int (wd_risk_score d); "cost_us=" +:+ to_string (wd_cost_us d)]
  ++ map (fun hit => "policy reason=" +:+ wh_reason_code hit +:+ " action=" +:+ actionName (wh_action hit)
                     +:+ " risk_score=" +:+ show_int (wh_risk_score hit)) (wd_policy_hits d).

Definition response_lines (r : WireResponse) : list string :=
  ["status=" +:+ statusName (w_status r); "reason_code=" +:+ w_reason_code r]
  ++ match w_decision r with Some d => decision_lines d | None => [] end.

(** The request of [argv]; [now_ms] is the clock. *)
Definition build_request (args : list string) (now_ms : Z) : LoginRequest :=
  let user_id := match args !! 2%nat with
                 | None => "user_001"
                 | Some u => if bool_decide (u = "--empty-user") then "" else u
                 end in
  mkLoginRequest (Some 1001) (Some now_ms) (Some user_id) (Some "127.0.0.1") (Some "device_demo_001") (Some SUCCESS).

(** The lines printed, and the exit code or the exception. *)
Definition runClient (args : list string) (now_ms resolve_status : Z) (addresses : list (bool * bool))
    : NE (list string * result Z) :=
  response ← exchange resolve_status addresses (build_request args now_ms);
  mret (response_lines response,
        if (bool_decide (w_decision response = None) && (w_status response =? RESPONSE_STATUS_OK))%bool
        then Throw "成功响应缺少登录决策"
        else Ok (if w_status response =? RESPONSE_STATUS_OK then 0 else 2)).

(** Standard output, standard error and the exit code; [args] without the
    program's name. *)
Definition main (args : list string) (now_ms resolve_status : Z) (addresses : list (bool * bool))
    : N (list string * option string * Z) := fun s =>
  match runClient args now_ms resolve_status addresses s with
  | None => None
  | Some (Throw what, s) => Some (([], Some ("send_event 失败: " +:+ what), 1), s)
  | Some (Ok (lines, Throw what), s) => Some ((lines, Some ("send_event 失败: " +:+ what), 1), s)
  | Some (Ok (lines, Ok code), s) => Some ((lines, None, code), s)
  end.
End Client.

(** ** What it does *)

(** Steps through a run that returned normally. *)
Lemma ne_bind_inv {A B} (m : NE A) (f : A -> NE B) s r s' :
  mbind f m s = Some (r, s') ->
  (exists what, m s = Some (Throw what, s') /\ r = Throw what) \/ exists a s1, m s = Some (Ok a, s1) /\ f a s1 = Some (r, s').
Proof.
  unfold mbind, ne_bind. destruct (m s) as [[[a|what] s1]|]; [|intros [= <- <-]|done]; [right|left]; by repeat eexists.
Qed.

Lemma lift_ok {A} (m : N A) s r s' : lift m s = Some (r, s') -> exists a, r = Ok a /\ m s = Some (a, s').
Proof. unfold lift. destruct (m s) as [[a s1]|]; [|done]. intros [= <- <-]. by exists a. Qed.

Lemma lift_bind {A B} (m : N A) (f : A -> NE B) s r s' :
  mbind f (lift m) s = Some (r, s') -> exists a s1, m s = Some (a, s1) /\ f a s1 = Some (r, s').
Proof.
  intros [(what & E & _)|(a & s1 & E & H)]%ne_bind_inv; apply lift_ok in E as (b & Eb & Em); [done|].
  simplify_eq. by repeat eexists.
Qed.

Lemma send_all_moved bytes s r s' :
  sendAll bytes s = Some (r, s') ->
  exists k, (k <= length bytes)%nat /\ moved s s' (take k bytes) [] /\ (r = Ok tt <-> k = length bytes).
Proof.
  unfold sendAll. generalize (S (length (n_sends s))) as fuel. intros fuel. revert s bytes.
  induction fuel as [|fuel IH]; intros s bytes Hrun; destruct bytes as [|b bytes]; cbn [sendAll_loop] in Hrun.
  1,3: unfold mret, ne_ret in Hrun; simplify_eq; exists O; split; [done|]; split; [apply waited_moved, waited_refl|done].
  1: done.
  set (all := b :: bytes) in *. apply lift_bind in Hrun as (a & s1 & E & Hrun). apply send_moved in E.
  assert (forall what, moved s s1 [] [] -> throw what s1 = Some (r, s') -> exists k, (k <= length all)%nat
    /\ moved s s' (take k all) [] /\ (r = Ok tt <-> k = length all)) as Hstop.
  { unfold throw. intros what Hm [= <- <-]. exists O. split; [lia|]. split; [done|]. by split. }
  destruct a as [m|[]].
  - destruct E as (k & Hk & -> & Hm). destruct (0 <? Z.of_nat k) eqn:Ek; bool_to_prop.
    + apply IH in Hrun as (j & Hj & Hm' & Hf). rewrite Nat2Z.id, length_drop in *. exists (k + j)%nat.
      split; [lia|]. split; [|rewrite Hf; lia]. rewrite <-take_take_drop. by apply (moved_trans _ _ _ _ _ _ _ Hm Hm').
    + assert (k = O) as -> by lia. by eapply Hstop.
  - apply IH in Hrun as (j & Hj & Hm' & Hf). exists j. split; [done|]. split; [|done].
    by apply (moved_trans _ _ _ _ _ _ _ E Hm').
  - by eapply Hstop.
  - by eapply Hstop.
Qed.

Lemma receive_moved wanted s r s' :
  receiveExact wanted s = Some (r, s') ->
  exists got, moved s s' [] got /\ (length got <= wanted)%nat
    /\ match r with Ok out => out = got /\ length got = wanted | Throw _ => (length got < wanted)%nat end.
Proof.
  unfold receiveExact. generalize (S (length (n_recvs s))) as fuel. intros fuel.
  assert (forall fuel wanted output s, receive_loop fuel wanted output s = Some (r, s') ->
    exists got, moved s s' [] got /\ (length got <= wanted)%nat
    /\ match r with Ok out => out = output ++ got /\ length got = wanted | Throw _ => (length got < wanted)%nat end)
    as Hall; [|apply Hall].
  clear. intros fuel. induction fuel as [|fuel IH]; intros wanted output s Hrun; destruct wanted as [|w];
    cbn [receive_loop] in Hrun.
  1,3: unfold mret, ne_ret in Hrun; simplify_eq; exists []; rewrite app_nil_r; split; [apply waited_moved, waited_refl|done].
  1: done.
  set (all := S w) in *. apply lift_bind in Hrun as ([a bytes] & s1 & E & Hrun). apply recv_moved in E as [Hm Ha].
  assert (forall what, moved s s1 [] [] -> throw what s1 = Some (r, s') -> exists got, moved s s' [] got
    /\ (length got <= all)%nat /\ match r with Ok out => out = output ++ got /\ length got = all
                                   | Throw _ => (length got < all)%nat end) as Hstop.
  { unfold throw. intros what Hm' [= <- <-]. exists []. split; [done|]. simpl. lia. }
  destruct a as [m|[]]; [|subst bytes..].
  - destruct Ha as [Hle ->]. destruct (0 <? _) eqn:Ek; bool_to_prop.
    + apply IH in Hrun as (got & Hm' & Hl & Hr). rewrite Nat2Z.id in *. exists (bytes ++ got). rewrite length_app.
      split; [by apply (moved_trans _ _ _ _ _ _ _ Hm Hm')|]. split; [lia|]. destruct r; [|lia].
      destruct Hr as [-> ?]. split; [by rewrite app_assoc|lia].
    + destruct bytes; [|simpl in *; lia]. by eapply Hstop.
  - apply IH in Hrun as (got & Hm' & Hl & Hr). exists got. split; [by apply (moved_trans _ _ _ _ _ _ _ Hm Hm')|done].
  - by eapply Hstop.
  - by eapply Hstop.
Qed.

(** Connecting moves no byte; the descriptors it opened are closed again, all but
    the one it returns. *)
Definition settled (s s' : Net) (kept : list Z) : Prop :=
  n_out s' = n_out s /\ n_in s' = n_in s
  /\ exists evs, n_fds s' = n_fds s ++ evs /\ fds_opened evs ≡ₚ fds_closed evs ++ kept.

Lemma settled_after s s1 s2 evs kept :
  n_out s1 = n_out s -> n_in s1 = n_in s -> n_fds s1 = n_fds s ++ evs -> fds_opened evs ≡ₚ fds_closed evs ->
  settled s1 s2 kept -> settled s s2 kept.
Proof.
  intros O I F P (O2 & I2 & e2 & F2 & P2). split_and!; [congruence|congruence|]. exists (evs ++ e2).
  rewrite F2, F, app_assoc, fds_opened_app, fds_closed_app, P, P2, app_assoc. done.
Qed.

Lemma connect_retry_fds fuel s b s' :
  connect_retry fuel s = Some (b, s') -> n_out s' = n_out s /\ n_in s' = n_in s /\ n_fds s' = n_fds s.
Proof.
  revert s. induction fuel as [|fuel IH]; intros s Hrun; [done|]. cbn [connect_retry] in Hrun. n_inv.
  unfold connect in E. destruct (n_connects s); simplify_eq. destruct c; n_inv; try done. by apply IH in Hrun.
Qed.

Lemma try_addresses_spec addresses s r s' :
  try_addresses addresses s = Some (r, s') -> settled s s' (match r with Ok fd => [fd] | Throw _ => [] end).
Proof.
  revert s. induction addresses as [|[snd rcv] rest IH]; intros s Hrun; cbn [try_addresses] in Hrun.
  - unfold throw in Hrun. simplify_eq. split_and!; [done..|]. exists []. by rewrite app_nil_r.
  - apply lift_bind in Hrun as (fd & s1 & E & Hrun). unfold socket in E. destruct (n_sockets s) as [|x q]; simplify_eq.
    destruct (fd <? 0) eqn:Ef.
    + apply IH in Hrun. by eapply (settled_after s _ s' []) in Hrun.
    + apply lift_bind in Hrun as (b & s2 & E2 & Hrun). apply connect_retry_fds in E2 as (O & I & F). simpl in *.
      destruct (b && snd && rcv)%bool.
      * unfold mret, ne_ret in Hrun. simplify_eq. split_and!; [done..|]. exists [FdOpened fd]. by rewrite F.
      * apply lift_bind in Hrun as (u & s3 & E3 & Hrun). unfold close_fd in E3. simplify_eq. apply IH in Hrun.
        eapply (settled_after s _ s' [FdOpened fd; FdClosed fd]) in Hrun; [done|done|done| |done].
        simpl. by rewrite F, <-app_assoc.
Qed.

Section Facts.
Context `{ClientProtobuf}.

Definition request_bytes (payload : bytes_t) : bytes_t := encodePayloadLength (wrap32 (size_of payload)) ++ payload.

(** The conversation answers a response exactly when the request went out and
    one frame that holds it came in. *)
Lemma converse_spec payload s r s' :
  converse payload s = Some (r, s') ->
  exists sent got, moved s s' sent got
    /\ match r with
       | Ok w => sent = request_bytes payload /\ frame_holds got w
       | Throw _ => forall w, ~ frame_holds got w
       end.
Proof.
  intros Hrun. assert (forall got, (length got <= 4)%nat -> forall w, ~ frame_holds got w) as Hshort
    by (intros got Hl w Hw%frame_holds_long; lia).
  unfold converse in Hrun.
  apply ne_bind_inv in Hrun as [(what & E1 & ->)|([] & s1 & E1 & Hrun)]; apply send_all_moved in E1 as (k1 & L1 & M1 & F1).
  { eexists _, _. split; [exact M1|]. apply Hshort. simpl. lia. }
  assert (k1 = 4%nat) as -> by (by apply F1). rewrite take_ge in M1 by done.
  apply ne_bind_inv in Hrun as [(what & E2 & ->)|([] & s2 & E2 & Hrun)]; apply send_all_moved in E2 as (k2 & L2 & M2 & F2);
    pose proof (moved_trans _ _ _ _ _ _ _ M1 M2) as M12.
  { eexists _, _. split; [exact M12|]. apply Hshort. simpl. lia. }
  assert (k2 = length payload) as -> by (by apply F2). rewrite take_ge in M12 by done.
  apply ne_bind_inv in Hrun as [(what & E3 & ->)|(header & s3 & E3 & Hrun)]; apply receive_moved in E3 as (h & M3 & L3 & F3);
    pose proof (moved_trans _ _ _ _ _ _ _ M12 M3) as M13.
  { eexists _, _. split; [exact M13|]. apply Hshort. simpl. lia. }
  destruct F3 as [-> F3]. simpl in M13. rewrite app_nil_r in M13. fold (request_bytes payload) in M13.
  destruct (bool_decide _) eqn:Ev; bool_to_prop.
  { unfold throw in Hrun. simplify_eq. eexists _, _. split; [exact M13|]. apply Hshort. lia. }
  apply dec_stable, validate_none in Ev.
  apply ne_bind_inv in Hrun as [(what & E4 & ->)|(body & s4 & E4 & Hrun)]; apply receive_moved in E4 as (b & M4 & L4 & F4);
    pose proof (moved_trans _ _ _ _ _ _ _ M13 M4) as M14; rewrite app_nil_r in M14.
  { eexists _, _. split; [exact M14|]. intros w [_ Hw]%frame_holds_header; [|done]. unfold size_of in Hw. lia. }
  destruct F4 as [-> F4]. assert (decodePayloadLength h = size_of b) as Hd by (unfold size_of; lia).
  destruct (ParseResponse b) as [[] w] eqn:Ep; [unfold mret, ne_ret in Hrun|unfold throw in Hrun]; simplify_eq.
  - eexists _, _. split; [exact M14|]. split; [done|]. exists h, b. split_and!; try done; unfold payload_ok; rewrite <-Hd; lia.
  - eexists _, _. split; [exact M14|]. intros v (h' & b' & E & L & _ & _ & P).
    apply app_inj_1 in E as [<- <-]; [|congruence]. congruence.
Qed.

(** What went out and came in, with the descriptors all closed. *)
Record traffic (s s' : Net) (sent got : bytes_t) : Prop := {
  tr_out : n_out s' = n_out s ++ sent;
  tr_in : n_in s = got ++ n_in s';
  tr_fds : exists evs, n_fds s' = n_fds s ++ evs /\ fds_opened evs ≡ₚ fds_closed evs;
}.

Lemma traffic_none s : traffic s s [] [].
Proof. split; [by rewrite app_nil_r|done|]. exists []. by rewrite app_nil_r. Qed.

Lemma no_frame w : ~ frame_holds (@nil Z) w.
Proof. intros Hw%frame_holds_long. simpl in Hw. lia. Qed.

Lemma exchange_traffic status addresses q s x s' :
  exchange status addresses q s = Some (x, s') ->
  exists sent got, traffic s s' sent got
    /\ match x with
       | Ok w => exists payload, SerializeRequest q = Some payload /\ sent = request_bytes payload /\ frame_holds got w
       | Throw _ => forall w, ~ frame_holds got w
       end.
Proof.
  unfold exchange. destruct (SerializeRequest q) as [payload|]; intros Hrun.
  2: { unfold throw in Hrun. simplify_eq. exists [], []. split; [apply traffic_none|apply no_frame]. }
  destruct (bool_decide _).
  { unfold throw in Hrun. simplify_eq. exists [], []. split; [apply traffic_none|apply no_frame]. }
  assert (forall r s1, connectSocket status addresses s = Some (r, s1) ->
    settled s s1 (match r with Ok fd => [fd] | Throw _ => [] end)) as Hc.
  { unfold connectSocket. intros r s1. destruct (negb _); [|apply try_addresses_spec]. unfold throw. intros [= <- <-].
    split_and!; [done..|]. exists []. by rewrite app_nil_r. }
  apply ne_bind_inv in Hrun as [(what & E & ->)|(fd & s1 & E & Hrun)]; apply Hc in E as (O & I & evs & F & P).
  { exists [], []. split; [|apply no_frame]. rewrite app_nil_r in P.
    split; [by rewrite app_nil_r|done|by exists evs]. }
  unfold with_socket in Hrun. destruct (converse payload s1) as [[r s2]|] eqn:Ec; [|done]. simplify_eq.
  apply converse_spec in Ec as (sent & got & [O2 I2 F2] & Hx). exists sent, got. split.
  - split; simpl; [congruence|congruence|]. exists (evs ++ [FdClosed fd]).
    rewrite F2, F, app_assoc, fds_opened_app, fds_closed_app, P. split; [done|]. by rewrite app_nil_r.
  - destruct x; [|done]. by exists payload.
Qed.

(** The one-shot client tells the truth.  Whatever the network does, when the
    tool ends its exit code is 0 or 2 with nothing on standard error exactly when
    the whole request was sent and one well-formed response came back (and an OK
    response carries a decision); it then prints that response, and 0 means the
    service answered OK.  Otherwise it reports an error and exits with 1.  Every
    descriptor it opened is closed once. *)
Theorem send_event_truthful args now_ms status addresses s lines err code s' :
  main args now_ms status addresses s = Some ((lines, err, code), s') ->
  exists sent got, traffic s s' sent got
    /\ ((code = 1 /\ err <> None /\ forall w, frame_holds got w -> w_decision w = None /\ w_status w = RESPONSE_STATUS_OK)
        \/ ((code = 0 \/ code = 2) /\ err = None
            /\ exists payload w, SerializeRequest (build_request args now_ms) = Some payload
               /\ sent = request_bytes payload /\ frame_holds got w /\ lines = response_lines w
               /\ (code = 0 <-> w_status w = RESPONSE_STATUS_OK) /\ (code = 0 -> w_decision w <> None))).
Proof.
  intros Hrun. unfold main in Hrun. destruct (runClient args now_ms status addresses s) as [[r s1]|] eqn:Er; [|done].
  unfold runClient in Er. apply ne_bind_inv in Er as [(what & Ex & ->)|(w & s2 & Ex & Hr)];
    apply exchange_traffic in Ex as (sent & got & T & Hx).
  { simplify_eq. exists sent, got. split; [done|]. left. split_and!; [done|done|]. by intros w ?%Hx. }
  unfold mret, ne_ret in Hr. simplify_eq. destruct Hx as (payload & Hp & -> & Hw).
  destruct (bool_decide (w_decision w = None)) eqn:Ed, (Z.eqb_spec (w_status w) RESPONSE_STATUS_OK) as [Es|Es];
    simpl in Hrun; bool_to_prop; simplify_eq; eexists _, got; (split; [exact T|]).
  - left. split_and!; [done|done|]. intros v Hv.
    destruct (frame_holds_prefix got got v w [] [] Hv Hw eq_refl) as (_ & -> & _). done.
  - right. split_and!; [by right|done|]. exists payload, w. by split_and!.
  - right. split_and!; [by left|done|]. exists payload, w. by split_and!.
  - right. split_and!; [by right|done|]. exists payload, w. by split_and!.
Qed.
End Facts.

(** ** A run *)

Definition w_toy : WireResponse :=
  mkWireResponse (Some (mkWireDecision 1001 "user_001" PASS 0 [] 12)) RESPONSE_STATUS_OK "".

Definition client_toy : ClientProtobuf := {|
  SerializeRequest _ := Some [8; 1];
  ParseResponse bytes := if bool_decide (bytes = [16; 2]) then (true, w_toy) else (false, empty_response);
|}.

(** The first address refuses the connection. *)
Definition net_send : Net :=
  mkNet [] [] (replicate 6 (IoBytes 4)) (replicate 6 (IoBytes 3)) [7; 8] [ConnectFailed; ConnectInterrupted; Connected] []
    [0; 0; 0; 2; 16; 2] [] [].

Lemma send_event_truthful_witness :
  exists lines s', @main client_toy [] 5 0 [(true, true); (true, true)] net_send = Some ((lines, None, 0), s')
    /\ lines = response_lines w_toy
    /\ exists sent got, traffic net_send s' sent got.
Proof.
  eexists _, _. split; [vm_compute; reflexivity|]. split; [reflexivity|].
  destruct (@send_event_truthful client_toy [] 5 0 [(true, true); (true, true)] net_send _ None 0 _
    ltac:(vm_compute; reflexivity)) as (sent & got & T & _). by exists sent, got.
Defined.
